(* ===== verification/_CoqProject ===== *)
-Q . S2P
Prelude.v
Seats.v
GameTypes.v
ManaSymbols.v
Text.v
ManaCosts.v
ManaRestrictions.v
ManaUnits.v
ManaPool.v
ManaPoolOrder.v
ManaPoolVec.v
ManaDrain.v
DraftSource.v
DraftTypes.v
DraftAdmission.v
Winston.v
DraftPick.v
DraftRounds.v
DraftPod.v
DraftDeal.v
Fifo.v
DraftSnapshot.v
PodEvent.v
PodMatching.v
DraftDeck.v
DraftApply.v
FifoManifest.v
FifoInv.v
FifoCheck.v
FifoValid.v
FifoSelect.v
FifoPrompt.v
FifoFlow.v
FifoStep.v
FifoClock.v
FifoExpire.v
FifoPlay.v
FifoGame.v
PodLife.v
PodPlay.v
PodRecords.v
Credentials.v
TournamentTypes.v
SwissPairing.v
SwissSelect.v
SwissRound.v
Standings.v
Brackets.v
Tournament.v
TournamentSteps.v
TournamentInv.v
TournamentLife.v
TournamentSafety.v
TournamentProgress.v
TournamentLimits.v
LobbyWire.v
Validation.v
Lobby.v
BrokerTypes.v
Broker.v
BrokerTournament.v
BrokerLobby.v
BrokerSystem.v
BrokerSafety.v
BrokerReplica.v
Topology.v
TurnOrder.v
TableRules.v
Priority.v
ObjectMap.v
ObjectStore.v
Takeback.v
TakebackSafety.v
ManaShards.v
ManaPayment.v
ManaPlan.v
PaymentSpend.v
PaymentSound.v
PaymentRules.v
PaymentPlan.v
