(* ===== verification/Prelude.v ===== *)
(** * A verification library for [phase]

    [phase] is a Magic: The Gathering engine in Rust: a rules engine over one large game
    state, a syntax tree of card abilities with its parser, a draft engine, a lobby
    broker with a tournament manager, game servers, AI players and clients.  This library
    models parts of it that carry rules of their own and depend on little else, and proves
    what makes each of them correct.  Source files are named below under [src/crates/].

    ** How the modelled parts fit together

    - A lobby seats players ([seat-reducer]); its formats come from the engine.
    - A game spends mana: symbols, costs, restrictions and units are the vocabulary of
      [phase-ast], the pool is [engine/src/types/mana.rs], and a solver pays costs from it.
    - A draft deals boosters, is picked (packs passed round together, packs queued before
      every seat with clocks of their own, or the shared piles of a Winston draft), and
      then plays a small event of its own ([draft-core]).
    - The lobby broker lists games hosted anywhere, hands joiners over to their hosts and
      seats host-mediated rooms ([lobby-broker/src/lobby.rs], [broker.rs]); it also runs
      tournaments for anybody ([tournament.rs]): credentials, rounds, results, standings,
      expiry.  Both shells of it perform the outbound values one dispatcher returns.
    - A running game ([engine/src/]) seats players in a turn order that may be shared by
      teams; who acts next, who is asked for priority and in which order choices are made
      follow from it.  Its objects live in a store whose copies share what neither has
      written.  A table may vote to take the game back to an earlier state.

    ** Files

    Shared: [Prelude] has the outcome type, the state monad, machine integers, vectors,
    keyed lists and the tactics.

    Lobby.
    - [Seats]: [seat-reducer/src/lib.rs] ([apply], [apply_set_kind], [apply_remove],
      [apply_start]) and [types.rs]; [SeatState] is the record of the same name.

    Mana.
    - [GameTypes]: zones, phases and steps of [phase-ast/src/types/], and the printings a
      deck names ([engine/src/types/card_printing.rs]).
    - [ManaSymbols], [ManaCosts], [ManaRestrictions], [ManaUnits]:
      [phase-ast/src/types/mana.rs], with the printer of [phase-llm/src/render/text.rs];
      [Text] is the part of Rust's [str] they call.
    - [ManaPool]: the pool of [engine/src/types/mana.rs]; [ManaPoolOrder] is its
      invariant, [ManaPoolVec] its specification as a vector of units, [ManaDrain] the
      emptying of pools by wire decisions.
    - [ManaShards], [ManaPayment], [ManaPlan]: [engine/src/game/mana_payment.rs]: what each
      symbol requires and how Phyrexian symbols are announced, the solver that pays a cost
      from a pool, and its two dry runs (the residual, the options).  [PaymentSpend] says
      what every spend takes, [PaymentSound] what a payment is and that the solver makes
      one, [PaymentRules] and [PaymentPlan] have the theorems.

    Drafts ([draft-core/src/]).
    - [DraftSource], [DraftTypes], [DraftAdmission]: [types.rs], and of [session.rs]
      [DraftSession::new] and [validate_fifo_config].
    - [Winston]: [shared_stack.rs].  [DraftPick]: [pick_pass.rs]; [DraftRounds] and
      [DraftPod] hold its proofs.  [DraftDeal]: [apply_start_draft].
    - [Fifo]: the first-in first-out flow of [session.rs], [pick_pass.rs] and [clock.rs];
      [DraftSnapshot]: [validate_persisted_snapshot].
    - [PodEvent]: pairings, results and rounds of [session.rs], operations on the session;
      [PodMatching] (the search, the Swiss round, and what an action answers on any
      session), [PodLife] (the invariant), [PodPlay] (safety and progress), [PodRecords]
      (the match records).
    - [DraftDeck]: [apply_submit_deck], [validation.rs], and of
      [engine/src/game/deck_validation.rs] what the sets of a draft concede.
    - [DraftApply]: every action of a draft and the reducer, [apply], [apply_at] and
      [new_fifo].  The proofs of the first-in first-out flow: [FifoManifest] (packs and
      registered cards), [FifoInv] (the invariant), [FifoCheck] and [FifoValid] (the
      invariant passes the snapshot check), [FifoSelect] (selections, and where they move
      cards), [FifoPrompt] (prompts, clocks, opening a round), [FifoFlow] (their
      composition), [FifoStep], [FifoClock], [FifoExpire] (the kinds of call), [FifoPlay]
      (the start, and every action) and [FifoGame] (the theorems over reachable sessions).

    Tournaments ([lobby-broker/src/tournament.rs]; the environment is the class
    [BrokerEnv] of [env.rs]).
    - [Credentials]: minting, verdicts, renewal.  [TournamentTypes]: data, gates, round
      counts.  [SwissPairing]: [partition_round], [select_fair], [greedy_assign],
      [repair_rematches], [build_swiss_round], proved in [SwissSelect] and [SwissRound].
      [Standings]: records, tiebreaks, [validate_match_result].  [Brackets]:
      [build_single_elimination_round].
    - [Tournament]: [TournamentManager], every handler a program of the state monad over
      the registry and the environment, its guards, clock reads and writes in the order
      of the code.  [TournamentSteps] gives the life of one tournament as a step relation;
      [TournamentInv] and [TournamentLife] are the invariant and its preservation;
      [TournamentSafety], [TournamentProgress], [TournamentLimits] the consequences.

    The broker around them ([lobby-broker/src/]).
    - [LobbyWire]: the frames clients send, and the rows of a listing ([protocol.rs]).
      [Validation]: [validation.rs] and [inbound_guard.rs], the limits on every field.
    - [Lobby]: [LobbyManager] of [lobby.rs] as a map of entries: registration, joining
      and reservations, host-managed identities, heartbeat, expiry, persistence.
    - [BrokerTypes]: views, connections, outbound values and which subscriber sees what.
      [Broker]: every handler of [broker.rs] and [dispatch], in the order of its arms.
    - [BrokerTournament] and [BrokerLobby]: what a handler can do to the tournament
      registry (steps of [TournamentSteps], by those entitled) and to the lobby (steps of
      [lobby_step]).  [BrokerSystem]: reachability under any sequence of connections,
      frames, disconnections and sweeps, and its invariant.  [BrokerSafety]: authority
      over listings, heartbeat, bounds, answers, the stored snapshot.  [BrokerReplica]:
      a subscriber that applies the pushes holds the public lobby of its build.

    A running game ([engine/src/game/], [engine/src/types/]).
    - [Topology]: [topology.rs], the seat functions of [players.rs], the recording of a
      priority pass ([priority.rs]), departures, the reversal of turn order, the contest
      for the first turn.  [TurnOrder] has the lemmas on rings and teams, [TableRules] the
      theorems on turns, groups and shared totals, [Priority] those on passing and the
      tables that can be reached.
    - [ObjectMap]: the copy-on-write store of [object_map.rs] over a heap of allocations;
      the [im] library's map is the class [ImMap] with its laws.  [ObjectStore] proves
      that sharing cannot be observed.
    - [Takeback]: the ledger of [takeback.rs], whose snapshots carry the fields of the game
      that it reads.  [TakebackSafety]: sessions as a step relation over whatever the
      engine does, their invariant, and that a rollback is unanimous.

    ** Conventions

    A fallible function returns an [outcome]: [Ok], [Err] or [Panic], the last for an
    index out of range, an [expect] or [unwrap] that fails, a remainder by zero.  A
    function that takes [&mut self] returns the state on every outcome, so "a refused call
    changes nothing" is a theorem and not a convention.  An unsigned integer of [w] bits
    is an [N] whose arithmetic wraps ([wadd], [wsub], [wmul]); subtraction of [N] is
    [saturating_sub].  A [BTreeMap] or [HashMap] is a [gmap]; where the code's result
    would depend on the order of a hash map it is said at the definition.  A [f64] is the
    bit-exact [spec_float] of the Standard Library.  Error texts are constructors.
    The clock, tokens, deck resolver, card payloads and random sources are parameters;
    of a shuffle only that it permutes is used.

    ** What the theorems show

    - Refinement: the shape pool behaves as a vector of units ([ManaPoolVec]); the Winston
      reducer follows the published rules ([Winston]); the tournament handlers perform
      the steps of the life of a tournament ([TournamentSteps]).
    - Invariants of everything reachable: lobbies, pick-and-pass, first-in first-out and
      Winston drafts with their cards conserved, pod events, the tournament registry.
    - Safety: tokens and credentials cannot be taken over, untrusted decisions touch only
      what they name, results are written only by those with the authority, history is
      durable, a draft prompt is answered once, the snapshot check never refuses what
      play has done.
    - Functional behaviour: what a pick or selection takes and when it is accepted, what
      the passage of time does, what a pause keeps, what a removal renumbers, how a round
      is paired and ranked, what records tally.
    - The broker: a listing is created, refreshed and removed on the authority of its own
      host alone, a host that beats in time keeps it, tables stay bounded whatever is
      sent, every request is answered, a stored snapshot restores every listing, and
      subscribers see the public lobby.
    - Payments: what the solver selects is legal in its context, in units of the pool, and
      symbol by symbol in life or mana as chosen; paying is all or nothing; costs of plain
      symbols that no permission bears on are paid whenever they can be; a residual
      completes what the pool covers; announced Phyrexian symbols are paid as announced,
      and the options cover every symbol.
    - Totality and progress: every loop ends (the matching of mana costs, the repair of
      rematches, the round count, the backtracking search) and every draft, pod event and
      Swiss tournament can be brought to its end.
    - The table: turns visit the living in order and return, priority asks each of them
      once before a round that nobody leaves ends, choices are made by whole sides in turn order, a total
      shared by a side is counted once; an object store behaves as if nothing were shared;
      nobody is rolled back against their will.
    - Limits worth knowing, each a theorem about a reachable state: a single-elimination
      tournament that drops stall for good and a credential that lapses under a live
      event ([TournamentLimits]); a drawn match whose second report corrupts the records
      ([PodRecords]); a pass that still counts after its player has left ([Priority]);
      costs the pool can pay that the payment solver refuses, as it pays symbol by symbol
      and never reconsiders ([PaymentRules.payment_refuses_payable]).

    ** Fuel

    Recursion that is not structural takes fuel, and a theorem shows the fuel given is
    enough: the matching of mana costs (one more than the unvisited symbols), the repair
    of rematches (one pass more than the rematches), the rounding up of a field (64
    doublings for a [u32]), the search for a pairing (one more than the pool), the forced
    play of a Winston draft (its measure), the walk to the nearest opponent (one more than
    the seats).  The contest for the first turn stops after sixteen rounds in the code.

    ** Not modelled

    - Of [draft-core]: the upgrade of stored legacy drafts, views, and pack generation
      (what a pack source generates is a parameter).
    - Of [lobby-broker]: the server directory ([directory.rs]), the hello message a shell
      sends itself, the JSON text around a message (a frame is its decoded value or a
      decoding error), and the calls the native server makes on the lobby when it runs
      games itself.  A sequence of steps is shorter than [2^64], the width of the
      connection and revision counters; a [HashMap] is walked in the order of
      [map_to_list], and no theorem depends on which order that is.
    - Of a running game, all but the parts above: effects, layers, combat, triggers,
      state-based actions, phases and mulligans, what happens once everybody has passed,
      how costs are assembled and mana produced, automatic tapping, convoke, the colour
      demand of a hand: over a million lines around one state.  The object store's serializers;
      what re-keying a restored state does to its shortcut offer (a parameter).
    - The Oracle-text parser, AI players, card data, bindings and user interfaces.
    - Serialization, except where a wire form is validated (pod sizes, scoring, pools). *)
From stdpp Require Export base tactics decidable list numbers option strings gmap sorting.
From Stdlib Require Export Lia NArith.

(** ** Outcomes of Rust calls

    A fallible Rust function either returns [Ok], returns [Err], or panics
    (an index out of range, an [expect] on [None], a division by zero).
    [outcome E A] keeps the three apart, so that "does not panic" is a
    statement about the model and not a convention. *)
Inductive outcome (E A : Type) : Type :=
  | Ok (a : A)
  | Err (e : E)
  | Panic.
Arguments Ok {E A} a.
Arguments Err {E A} e.
Arguments Panic {E A}.

#[export] Instance outcome_ret E : MRet (outcome E) := λ A, Ok.
#[export] Instance outcome_bind E : MBind (outcome E) := λ A B f m,
  match m with
  | Ok a => f a
  | Err e => Err e
  | Panic => Panic
  end.
#[export] Instance outcome_fmap E : FMap (outcome E) := λ A B f m,
  match m with
  | Ok a => Ok (f a)
  | Err e => Err e
  | Panic => Panic
  end.
#[export] Instance outcome_eq_dec `{EqDecision E, EqDecision A} :
  EqDecision (outcome E A).
Proof. solve_decision. Defined.

Definition is_ok {E A} (m : outcome E A) : bool :=
  match m with Ok _ => true | _ => false end.

(** [opt.ok_or(e)?] and an indexing that panics. *)
Definition ok_or {E A} (o : option A) (e : E) : outcome E A :=
  match o with Some a => Ok a | None => Err e end.
Definition or_panic {E A} (o : option A) : outcome E A :=
  match o with Some a => Ok a | None => Panic end.

(** A [for] loop whose body may fail, over an accumulator. *)
Fixpoint try_fold {E A B} (f : B → A → outcome E B) (b : B) (l : list A) : outcome E B :=
  match l with
  | [] => Ok b
  | x :: l => match f b x with
              | Ok b => try_fold f b l
              | Err e => Err e
              | Panic => Panic
              end
  end.

(** A loop succeeds when its invariant carries every step. *)
Lemma try_fold_inv {E A B} (f : B → A → outcome E B) (P : nat → B → Prop) l : ∀ b,
  P 0 b →
  (∀ i x b, l !! i = Some x → P i b → ∃ b', f b x = Ok b' ∧ P (S i) b') →
  ∃ b', try_fold f b l = Ok b' ∧ P (length l) b'.
Proof.
  revert P. induction l as [|x l IH]; intros P b Hb Hstep.
  { by exists b. }
  destruct (Hstep 0 x b eq_refl Hb) as (b1&Hf&Hb1). cbn [try_fold]. rewrite Hf.
  apply (IH (λ i, P (S i)) b1 Hb1). intros i y b2 Hi. by apply Hstep.
Qed.

(** ** A state monad whose errors keep the state

    A Rust function taking [&mut S] and returning [Result] leaves its writes
    in place when it returns [Err]; the model therefore returns the state on
    every outcome. *)
Definition stM (S E A : Type) : Type := S → outcome E A * S.

#[export] Instance stM_ret S E : MRet (stM S E) := λ A a s, (Ok a, s).
#[export] Instance stM_bind S E : MBind (stM S E) := λ A B f m s,
  match m s with
  | (Ok a, s') => f a s'
  | (Err e, s') => (Err e, s')
  | (Panic, s') => (Panic, s')
  end.

Section state_ops.
Context {S E : Type}.

Definition get : stM S E S := λ s, (Ok s, s).
Definition put (s : S) : stM S E unit := λ _, (Ok tt, s).
Definition modify (f : S → S) : stM S E unit := λ s, (Ok tt, f s).
Definition throw {A} (e : E) : stM S E A := λ s, (Err e, s).
Definition panic {A} : stM S E A := λ s, (Panic, s).
Definition lift {A} (m : outcome E A) : stM S E A := λ s, (m, s).
(** [if c { return Err(e) }] *)
Definition ensure (c : bool) (e : E) : stM S E unit :=
  if c then mret tt else throw e.

Fixpoint st_for {A} (l : list A) (body : A → stM S E unit) : stM S E unit :=
  match l with
  | [] => mret tt
  | x :: l' => body x ≫= λ _, st_for l' body
  end.

Definition run {A} (m : stM S E A) (s : S) : outcome E A := (m s).1.
Definition exec {A} (m : stM S E A) (s : S) : S := (m s).2.

Lemma stM_bind_ok {A B} (m : stM S E A) (f : A → stM S E B) s b s' :
  (m ≫= f) s = (Ok b, s') ↔ ∃ a s1, m s = (Ok a, s1) ∧ f a s1 = (Ok b, s').
Proof.
  unfold mbind, stM_bind. destruct (m s) as [[a|e|] s1]; naive_solver.
Qed.

Lemma outcome_bind_ok {A B} (m : outcome E A) (f : A → outcome E B) b :
  m ≫= f = Ok b ↔ ∃ a, m = Ok a ∧ f a = Ok b.
Proof. unfold mbind, outcome_bind. destruct m; naive_solver. Qed.

Lemma stM_bind_run {A B} (m : stM S E A) (f : A → stM S E B) s a s' :
  m s = (Ok a, s') → (m ≫= f) s = f a s'.
Proof. intros H. unfold mbind, stM_bind. by rewrite H. Qed.
Lemma stM_bind_err {A B} (m : stM S E A) (f : A → stM S E B) s e s' :
  m s = (Err e, s') → (m ≫= f) s = (Err e, s').
Proof. intros H. unfold mbind, stM_bind. by rewrite H. Qed.

Lemma stM_bind_assoc {A B C} (m : stM S E A) (f : A → stM S E B)
    (g : B → stM S E C) s :
  ((m ≫= f) ≫= g) s = (m ≫= λ a, f a ≫= g) s.
Proof. unfold mbind, stM_bind. by destruct (m s) as [[a|e|] s1]. Qed.

Lemma ensure_ok c e (s : S) u s' :
  ensure c e s = (Ok u, s') ↔ c = true ∧ s' = s.
Proof. unfold ensure. destruct c; destruct u; cbv; naive_solver. Qed.
End state_ops.

(** What a run answers: no panic, errors within [P], and [Q] of the answer and the state. *)
Section safely.
Context {S E : Type}.
Definition safely {A} (P : E → Prop) (m : stM S E A) (Q : A → S → Prop) (s : S) : Prop :=
  match m s with
  | (Ok a, s') => Q a s'
  | (Err e, _) => P e
  | (Panic, _) => False
  end.
Implicit Types (P : E → Prop) (s : S).
Lemma safely_bind {A B} P (m : stM S E A) (f : A → stM S E B) Q s :
  safely P m (λ a, safely P (f a) Q) s → safely P (m ≫= f) Q s.
Proof. unfold safely, mbind, stM_bind. by destruct (m s) as [[a|e|] s']. Qed.
Lemma safely_ret {A} P (a : A) (Q : A → S → Prop) s : Q a s → safely P (mret a) Q s.
Proof. done. Qed.
Lemma safely_get P (Q : S → S → Prop) s : Q s s → safely P get Q s.
Proof. done. Qed.
Lemma safely_modify P f (Q : unit → S → Prop) s : Q tt (f s) → safely P (modify f) Q s.
Proof. done. Qed.
Lemma safely_ensure P c e (Q : unit → S → Prop) s :
  (c = true → Q tt s) → (c = false → P e) → safely P (ensure c e) Q s.
Proof. intros H1 H2. destruct c; [by apply H1|by apply H2]. Qed.
Lemma safely_lift {A} P (m : outcome E A) (Q : A → S → Prop) s :
  m ≠ Panic → (∀ a, m = Ok a → Q a s) → (∀ e, m = Err e → P e) → safely P (lift m) Q s.
Proof. intros Hm HQ HP. unfold safely, lift. destruct m; [by apply HQ|by apply HP|done]. Qed.
Lemma safely_mono {A} P P' (m : stM S E A) (Q Q' : A → S → Prop) s :
  safely P m Q s → (∀ e, P e → P' e) → (∀ a s', Q a s' → Q' a s') → safely P' m Q' s.
Proof. unfold safely. destruct (m s) as [[a|e|] s']; auto. Qed.
End safely.

(** ** Machine-width unsigned integers

    A [uW] is an [N]; the arithmetic of the shipped (release) profile wraps,
    which is written out by the operations below.  [N.sub] is Rust's
    [saturating_sub]. *)
Definition wrap (w x : N) : N := (x `mod` 2 ^ w)%N.
Definition wadd (w a b : N) : N := wrap w (a + b).
Definition wmul (w a b : N) : N := wrap w (a * b).
(** [a - b] at width [w]. *)
Definition wsub (w a b : N) : N := wrap w (a + 2 ^ w - b).
Abbreviation u8_add := (wadd 8).
Abbreviation u8_mul := (wmul 8).
Abbreviation u8_sub := (wsub 8).
Abbreviation u32_add := (wadd 32).
Abbreviation u32_mul := (wmul 32).
Abbreviation u64_add := (wadd 64).

(** [x as i32] of a [u32]. *)
Definition as_i32 (x : N) : Z :=
  if (x <? 2 ^ 31)%N then Z.of_N x else (Z.of_N x - 2 ^ 32)%Z.

Section width.
Local Open Scope N_scope.

Lemma wrap_small w x : x < 2 ^ w → wrap w x = x.
Proof. intros. by apply N.mod_small. Qed.
Lemma wrap_lt w x : wrap w x < 2 ^ w.
Proof. apply N.mod_lt. apply N.pow_nonzero. lia. Qed.
Lemma wrap_wrap w x : wrap w (wrap w x) = wrap w x.
Proof. apply wrap_small, wrap_lt. Qed.
Lemma wadd_wrap_l w a b : wadd w (wrap w a) b = wadd w a b.
Proof.
  unfold wadd, wrap. apply N.Div0.add_mod_idemp_l.
Qed.
Lemma wadd_wrap_r w a b : wadd w a (wrap w b) = wadd w a b.
Proof. unfold wadd, wrap. apply N.Div0.add_mod_idemp_r. Qed.
Lemma wmul_wrap_l w a b : wmul w (wrap w a) b = wmul w a b.
Proof. unfold wmul, wrap. apply N.Div0.mul_mod_idemp_l. Qed.
Lemma wmul_wrap_r w a b : wmul w a (wrap w b) = wmul w a b.
Proof. unfold wmul, wrap. apply N.Div0.mul_mod_idemp_r. Qed.
Lemma wrap_add w a b : wrap w (a + b) = wadd w (wrap w a) (wrap w b).
Proof. by rewrite wadd_wrap_l, wadd_wrap_r. Qed.
Lemma wadd_small w a b : a + b < 2 ^ w → wadd w a b = a + b.
Proof. apply wrap_small. Qed.
Lemma wmul_small w a b : a * b < 2 ^ w → wmul w a b = a * b.
Proof. apply wrap_small. Qed.
Lemma wsub_small w a b : b ≤ a → a < 2 ^ w → wsub w a b = a - b.
Proof.
  intros. unfold wsub, wrap.
  replace (a + 2 ^ w - b) with ((a - b) + 1 * 2 ^ w) by lia.
  rewrite N.Div0.mod_add. apply N.mod_small. lia.
Qed.
End width.

Section wrap_rewrites.
Local Open Scope N_scope.
Lemma wrap_add_l w a b : wrap w (wrap w a + b) = wrap w (a + b).
Proof. apply wadd_wrap_l. Qed.
Lemma wrap_add_r w a b : wrap w (a + wrap w b) = wrap w (a + b).
Proof. apply wadd_wrap_r. Qed.
Lemma wrap_mul_l w a b : wrap w (wrap w a * b) = wrap w (a * b).
Proof. apply wmul_wrap_l. Qed.
Lemma wrap_mul_r w a b : wrap w (a * wrap w b) = wrap w (a * b).
Proof. apply wmul_wrap_r. Qed.
Lemma wrap_add_ll w a b c : wrap w (wrap w a + b + c) = wrap w (a + b + c).
Proof. rewrite <-!N.add_assoc. apply wrap_add_l. Qed.
Lemma wrap_add_lm w a b c : wrap w (a + wrap w b + c) = wrap w (a + b + c).
Proof. by rewrite (N.add_comm a), wrap_add_ll, (N.add_comm b). Qed.
End wrap_rewrites.

Create HintDb wrap discriminated.
#[export] Hint Rewrite wrap_wrap wrap_add_l wrap_add_r wrap_add_ll wrap_add_lm
  wrap_mul_l wrap_mul_r N.add_assoc : wrap.
(** Push every inner [wrap] out and compare what is left. *)
Ltac wrap_solve := cbn [fst snd] in *; unfold wadd, wmul; autorewrite with wrap; first [done | f_equal; first [lia | ring]].

(** ** Vectors

    Rust's [Vec] is a list; [usize] indices are [nat].  [vec_remove] is
    [Vec::remove] in range and [vec_swap_remove] is [Vec::swap_remove]: the
    last element takes the removed one's place. *)
Definition vec_remove {A} (i : nat) (l : list A) : list A := take i l ++ drop (S i) l.
Definition vec_swap_remove {A} (i : nat) (l : list A) : list A :=
  match last l with
  | Some x => take (length l - 1) (<[i := x]> l)
  | None => []
  end.

(** [iter().position(p)]. *)
Fixpoint position {A} (p : A → bool) (l : list A) : option nat :=
  match l with
  | [] => None
  | x :: l' => if p x then Some 0 else S <$> position p l'
  end.
(** [iter().find(p)]. *)
Fixpoint find_first {A} (p : A → bool) (l : list A) : option A :=
  match l with
  | [] => None
  | x :: l' => if p x then Some x else find_first p l'
  end.

(** [iter().min_by_key(key)]: the first of the elements with the least key. *)
Fixpoint min_by {A} (key : A → N) (l : list A) : option A :=
  match l with
  | [] => None
  | x :: l' =>
      match min_by key l' with
      | Some y => if (key y <? key x)%N then Some y else Some x
      | None => Some x
      end
  end.

(** [Vec::resize(n, d)]. *)
Definition vec_resize {A} (n : nat) (d : A) (l : list A) : list A :=
  take n l ++ replicate (n - length l) d.

(** [Vec::pop] *)
Definition vec_pop {A} (l : list A) : option (A * list A) :=
  match last l with
  | Some x => Some (x, take (length l - 1) l)
  | None => None
  end.

(** [chunks(2)]. *)
Fixpoint chunks2 {A} (l : list A) : list (list A) :=
  match l with
  | [] => []
  | [x] => [[x]]
  | x :: y :: l => [x; y] :: chunks2 l
  end.

Section vectors.
Context {A : Type}.
Implicit Types (l : list A) (p : A → bool).

Lemma position_Some p l i :
  position p l = Some i ↔
  ∃ x, l !! i = Some x ∧ p x = true ∧ ∀ j y, j < i → l !! j = Some y → p y = false.
Proof.
  revert i. induction l as [|x l IH]; intros i; simpl.
  - split; [done|]. by intros (?&?&_).
  - destruct (p x) eqn:Hp.
    + split.
      * intros [= <-]. exists x. repeat split; auto; lia.
      * intros (y&Hy&Hpy&Hmin). destruct i as [|i]; [done|].
        specialize (Hmin 0 x ltac:(lia) eq_refl). congruence.
    + rewrite fmap_Some. split.
      * intros (j&Hj&->). apply IH in Hj as (y&?&?&Hmin). exists y.
        repeat split; auto. intros [|k] z ? Hz; simpl in Hz; [congruence|].
        eapply Hmin; [|done]. lia.
      * intros (y&Hy&Hpy&Hmin). destruct i as [|i]; simpl in Hy; [congruence|].
        exists i. split; [|done]. apply IH. exists y. repeat split; auto.
        intros k z ? Hz. apply (Hmin (S k) z); [lia|done].
Qed.

Lemma position_None p l : position p l = None ↔ ∀ x, x ∈ l → p x = false.
Proof.
  induction l as [|x l IH]; simpl.
  - split; [|done]. intros _ x. by intros ?%elem_of_nil.
  - destruct (p x) eqn:Hp.
    + split; [done|]. intros H. specialize (H x ltac:(left)). congruence.
    + rewrite fmap_None, IH. setoid_rewrite elem_of_cons. naive_solver.
Qed.

Lemma position_lt p l i : position p l = Some i → i < length l.
Proof. intros (x&?%lookup_lt_Some&_)%position_Some. done. Qed.

Lemma find_first_Some p l x : find_first p l = Some x → x ∈ l ∧ p x = true.
Proof.
  induction l as [|y l IH]; simpl; [done|]. destruct (p y) eqn:?.
  - intros [= ->]. split; [left|done].
  - intros []%IH. split; [by right|done].
Qed.
Lemma find_first_None p l : find_first p l = None ↔ ∀ x, x ∈ l → p x = false.
Proof.
  induction l as [|x l IH]; simpl.
  - split; [|done]. intros _ x. by intros ?%elem_of_nil.
  - destruct (p x) eqn:Hp.
    + split; [done|]. intros H. specialize (H x ltac:(left)). congruence.
    + rewrite IH. setoid_rewrite elem_of_cons. naive_solver.
Qed.

Lemma find_first_position p l : find_first p l = position p l ≫= (l !!.).
Proof.
  induction l as [|x l IH]; simpl; [done|]. destruct (p x); [done|].
  rewrite IH. by destruct (position p l).
Qed.

Lemma length_vec_remove i l : i < length l → length (vec_remove i l) = length l - 1.
Proof. intros. unfold vec_remove. rewrite length_app, length_take, length_drop. lia. Qed.

Lemma lookup_vec_remove (i j : nat) l :
  vec_remove i l !! j = if decide (j < i) then l !! j else l !! S j.
Proof.
  unfold vec_remove. case_decide as Hj.
  - destruct (decide (j < length l)).
    + rewrite lookup_app_l by (rewrite length_take; lia).
      by rewrite lookup_take_lt by lia.
    + rewrite (lookup_ge_None_2 l) by lia.
      apply lookup_ge_None_2. rewrite length_app, length_take, length_drop. lia.
  - destruct (decide (i < length l)).
    + rewrite lookup_app_r by (rewrite length_take; lia).
      rewrite length_take, lookup_drop. f_equal. lia.
    + rewrite (lookup_ge_None_2 l) by lia.
      apply lookup_ge_None_2. rewrite length_app, length_take, length_drop. lia.
Qed.

Lemma vec_remove_perm i l x :
  l !! i = Some x → l ≡ₚ x :: vec_remove i l.
Proof.
  intros Hi. rewrite <-(take_drop_middle l i x Hi) at 1.
  unfold vec_remove. by rewrite Permutation_middle.
Qed.

Lemma elem_of_vec_remove i l x : x ∈ vec_remove i l → x ∈ l.
Proof.
  unfold vec_remove. rewrite elem_of_app.
  intros [(j&?&?)%elem_of_take|H]; [by eapply list_elem_of_lookup_2|].
  rewrite <-(take_drop (S i) l). rewrite elem_of_app. auto.
Qed.

Lemma vec_swap_remove_perm i l x :
  l !! i = Some x → l ≡ₚ x :: vec_swap_remove i l.
Proof.
  intros Hi. unfold vec_swap_remove.
  destruct l as [|y l _] using rev_ind; [done|].
  rewrite last_snoc, length_app. simpl.
  replace (length l + 1 - 1) with (length l) by lia.
  destruct (decide (i < length l)) as [Hlt|Hge].
  - rewrite lookup_app_l in Hi by done.
    rewrite insert_app_l by done.
    rewrite take_app_le by (rewrite length_insert; lia).
    rewrite take_ge by (rewrite length_insert; lia).
    rewrite <-(take_drop_middle l i x Hi) at 1.
    rewrite insert_take_drop by done.
    rewrite Permutation_app_comm. simpl.
    rewrite <-!Permutation_middle. apply Permutation_swap.
  - assert (i = length l) as -> by (apply lookup_lt_Some in Hi; rewrite length_app in Hi; simpl in Hi; lia).
    rewrite lookup_app_r in Hi by lia. rewrite Nat.sub_diag in Hi. injection Hi as ->.
    rewrite insert_app_r_alt by lia. rewrite Nat.sub_diag. simpl.
    rewrite take_app_le, take_ge by lia. by rewrite Permutation_app_comm.
Qed.

Lemma min_by_Some (key : A → N) l x :
  min_by key l = Some x → x ∈ l ∧ ∀ y, y ∈ l → (key x <= key y)%N.
Proof.
  revert x. induction l as [|z l IH]; intros x; simpl; [done|].
  destruct (min_by key l) as [y|] eqn:Hy.
  - destruct (IH y eq_refl) as [Hin Hmin].
    destruct (N.ltb_spec (key y) (key z)); intros [= <-]; (split; [set_solver|]);
      intros w [->|Hw]%elem_of_cons; try lia; specialize (Hmin w Hw); lia.
  - intros [= <-]. split; [left|]. intros w [->|Hw]%elem_of_cons; [lia|].
    destruct l as [|v l]; [by apply elem_of_nil in Hw|].
    simpl in Hy. destruct (min_by key l); [|done]. by destruct (_ <? _)%N.
Qed.
Lemma min_by_None (key : A → N) l : min_by key l = None ↔ l = [].
Proof.
  destruct l as [|x l]; simpl; [done|]. split; [|done].
  destruct (min_by key l); [|done]. by destruct (_ <? _)%N.
Qed.

Lemma length_vec_resize n d l : length (vec_resize n d l) = n.
Proof. unfold vec_resize. rewrite length_app, length_take, length_replicate. lia. Qed.
Lemma vec_resize_id n d l : length l = n → vec_resize n d l = l.
Proof.
  intros <-. unfold vec_resize. rewrite Nat.sub_diag, take_ge by lia.
  apply app_nil_r.
Qed.
End vectors.

Lemma concat_set {A} (ps : list (list A)) i p q :
  ps !! i = Some p → p ++ concat (<[i := q]> ps) ≡ₚ q ++ concat ps.
Proof.
  intros Hi. rewrite <-(take_drop_middle ps i p Hi) at 2.
  rewrite insert_take_drop by (by eapply lookup_lt_Some).
  rewrite !concat_app. cbn [concat]. solve_Permutation.
Qed.

Lemma length_chunks2 {A} (l : list A) k :
  length l = 2 * k → length (chunks2 l) = k ∧ Forall (λ c, length c = 2) (chunks2 l).
Proof.
  revert l. induction k as [|k IH]; intros l Hl.
  { destruct l; [by split; [|constructor]|simpl in Hl; lia]. }
  destruct l as [|x [|y l]]; simpl in Hl; [lia..|].
  destruct (IH l ltac:(lia)) as [Hlen Hf]. simpl. split; [lia|by constructor].
Qed.
Lemma concat_chunks2 {A} (l : list A) : concat (chunks2 l) = l.
Proof.
  assert (∀ n (k : list A), length k ≤ n → concat (chunks2 k) = k) as Haux.
  { induction n as [|n IH]; intros [|x [|y k]] Hk; simpl in *; try done; try lia.
    rewrite IH by lia. done. }
  by eapply Haux.
Qed.
Lemma chunks2_nonempty {A} (l : list A) : Forall (λ c, c ≠ []) (chunks2 l).
Proof.
  assert (∀ n (k : list A), (length k ≤ n)%nat → Forall (λ c, c ≠ []) (chunks2 k)) as Haux.
  { induction n as [|n IH]; intros [|x [|y k]] Hk; simpl in *; try lia;
      repeat constructor; try done. apply IH. lia. }
  by eapply Haux.
Qed.

Lemma vec_pop_snoc {A} (l : list A) x : vec_pop (l ++ [x]) = Some (x, l).
Proof.
  unfold vec_pop. rewrite last_snoc, length_app. simpl.
  rewrite take_app_le, take_ge by lia. done.
Qed.
Lemma vec_pop_last {A} (l : list A) : l = [] ∨ ∃ l' x, l = l' ++ [x].
Proof. induction l as [|x l _] using rev_ind; [by left|right; by exists l, x]. Qed.

Lemma filter_all {A} (P : A → Prop) `{!∀ x, Decision (P x)} (l : list A) : Forall P l → filter P l = l.
Proof.
  induction 1 as [|x l Hx _ IH]; [done|]. by rewrite filter_cons, decide_True, IH.
Qed.
Lemma filter_none {A} (P : A → Prop) `{!∀ x, Decision (P x)} (l : list A) :
  Forall (λ x, ¬ P x) l → filter P l = [].
Proof. induction 1 as [|x l Hx _ IH]; [done|]. by rewrite filter_cons, decide_False. Qed.
Lemma exists_elem_cons {A} (P : A → Prop) x (l : list A) :
  (∃ y, y ∈ x :: l ∧ P y) ↔ P x ∨ ∃ y, y ∈ l ∧ P y.
Proof. setoid_rewrite elem_of_cons. naive_solver. Qed.
Lemma filter_ext_in {A} (P Q : A → Prop) `{!∀ x, Decision (P x), !∀ x, Decision (Q x)} (l : list A) :
  (∀ x, x ∈ l → P x ↔ Q x) → filter P l = filter Q l.
Proof.
  induction l as [|x l IH]; intros Hall; [done|]. rewrite !filter_cons.
  rewrite IH by (intros; apply Hall; by right).
  pose proof (Hall x ltac:(left)). repeat case_decide; tauto.
Qed.
Lemma filter_fmap_list {A B} (f : B → A) (P : A → Prop) `{!∀ x, Decision (P x)} (k : list B) :
  filter P (f <$> k) = f <$> filter (λ b, P (f b)) k.
Proof.
  induction k as [|b k IH]; [done|]. rewrite fmap_cons, !filter_cons, IH.
  by case_decide.
Qed.

(** ** Lists in the order of a key

    An ordered map read in key order is a list whose keys strictly increase; such
    a list is determined by its elements. *)
Lemma sorted_lookup {A} (R : relation A) (l : list A) i j x y :
  StronglySorted R l → l !! i = Some x → l !! j = Some y → i < j → R x y.
Proof.
  intros Hl. revert i j. induction Hl as [|z l Hl IH Hz]; intros [|i] [|j] Hi Hj Hij;
    simplify_eq/=; try lia.
  - rewrite Forall_forall in Hz. by eapply Hz, list_elem_of_lookup_2.
  - eapply IH; eauto. lia.
Qed.

Section keyed.
Context {A : Type}.
Implicit Types (l : list (N * A)) (P : N * A → bool).

Definition key_lt (x y : N * A) : Prop := (x.1 < y.1)%N.
Definition keyed (l : list (N * A)) : Prop := StronglySorted key_lt l.

Lemma keyed_unique l l' : keyed l → keyed l' → l ≡ₚ l' → l = l'.
Proof.
  intros. apply (StronglySorted_unique_strong key_lt); [|done..].
  unfold key_lt. intros. lia.
Qed.

Lemma keyed_app l l' :
  keyed (l ++ l') ↔ keyed l ∧ keyed l' ∧ ∀ x y, x ∈ l → y ∈ l' → key_lt x y.
Proof. unfold keyed. rewrite StronglySorted_app. naive_solver. Qed.

Lemma keyed_cons x l : keyed (x :: l) ↔ keyed l ∧ ∀ y, y ∈ l → key_lt x y.
Proof. unfold keyed. rewrite StronglySorted_cons, Forall_forall. naive_solver. Qed.

Lemma keyed_lookup l :
  keyed l ↔ ∀ i j x y, l !! i = Some x → l !! j = Some y → i < j → key_lt x y.
Proof.
  split.
  - intros H i j x y. by apply sorted_lookup.
  - induction l as [|z l IH]; intros H; [constructor|]. apply keyed_cons. split.
    + apply IH. intros i j x y ???. apply (H (S i) (S j)); [done|done|lia].
    + intros y [j Hj]%list_elem_of_lookup. apply (H 0 (S j)); [done|done|lia].
Qed.

Lemma keyed_inj l i j x y :
  keyed l → l !! i = Some x → l !! j = Some y → x.1 = y.1 → i = j.
Proof.
  rewrite keyed_lookup. intros H Hi Hj Hxy.
  destruct (Nat.lt_total i j) as [Hij|[?|Hij]]; [|done|].
  - specialize (H i j x y Hi Hj Hij). unfold key_lt in H. lia.
  - specialize (H j i y x Hj Hi Hij). unfold key_lt in H. lia.
Qed.

Lemma keyed_elem_inj l x y : keyed l → x ∈ l → y ∈ l → x.1 = y.1 → x = y.
Proof.
  intros Hl [i Hi]%list_elem_of_lookup [j Hj]%list_elem_of_lookup Hxy.
  rewrite (keyed_inj l i j x y) in Hi by done. congruence.
Qed.

Lemma keyed_vec_remove l i : keyed l → keyed (vec_remove i l).
Proof.
  intros H. unfold vec_remove. apply keyed_app.
  destruct (l !! i) as [x|] eqn:Hi.
  - rewrite <-(take_drop_middle l i x Hi) in H. apply keyed_app in H as (H1&H2&H3).
    apply keyed_cons in H2 as [??]. split_and!; [done..|]. intros. apply H3; [done|by right].
  - apply lookup_ge_None in Hi. rewrite take_ge, drop_ge by lia.
    split_and!; [done|constructor|]. intros ? y ? Hy. by apply elem_of_nil in Hy.
Qed.

Lemma keyed_filter (P : N * A → Prop) `{!∀ x, Decision (P x)} l :
  keyed l → keyed (filter P l).
Proof.
  induction l as [|x l IH]; [done|]. intros [Hl Hx]%keyed_cons.
  rewrite filter_cons. case_decide; [|auto]. apply keyed_cons. split; [auto|].
  intros y [_ Hy]%list_elem_of_filter. auto.
Qed.

(** The first match is the match of least key. *)
Lemma find_first_keyed P l x :
  keyed l →
  find_first P l = Some x ↔ x ∈ l ∧ P x = true ∧ ∀ y, y ∈ l → P y = true → (x.1 <= y.1)%N.
Proof.
  induction l as [|z l IH]; simpl.
  { intros _. split; [done|]. by intros (?%elem_of_nil&_). }
  intros [Hl Hz]%keyed_cons. destruct (P z) eqn:HP.
  - split.
    + intros [= <-]. split_and!; [left|done|]. intros y [->|Hy]%elem_of_cons _; [done|].
      specialize (Hz y Hy). unfold key_lt in Hz. lia.
    + intros ([->|Hx]%elem_of_cons&_&Hmin); [done|].
      specialize (Hmin z ltac:(left) HP). specialize (Hz x Hx). unfold key_lt in Hz. lia.
  - rewrite IH by done. split.
    + intros (?&?&Hmin). split_and!; [by right|done|].
      intros y [->|Hy]%elem_of_cons HPy; [congruence|auto].
    + intros ([->|?]%elem_of_cons&?&Hmin); [congruence|].
      split_and!; [done..|]. intros y Hy. apply Hmin. by right.
Qed.
End keyed.

(** ** Tactics *)

(** Split the first [match] of the goal (or of a hypothesis), remembering the case. *)
Ltac split_match :=
  match goal with
  | |- context [match ?x with _ => _ end] =>
      lazymatch x with
      | context [match _ with _ => _ end] => fail
      | _ => let E := fresh "Hm" in destruct x eqn:E
      end
  end.
Ltac split_match_in H :=
  match type of H with
  | context [match ?x with _ => _ end] =>
      lazymatch x with
      | context [match _ with _ => _ end] => fail
      | _ => let E := fresh "Hm" in destruct x eqn:E
      end
  end.
(** Expose the state monad of a program. *)
Ltac unfold_M :=
  unfold get, put, modify, throw, panic, lift, ensure, run, exec,
    mret, stM_ret, mbind, stM_bind, or_panic, ok_or.
Tactic Notation "unfold_M" "in" hyp(H) :=
  unfold get, put, modify, throw, panic, lift, ensure, run, exec,
    mret, stM_ret, mbind, stM_bind, or_panic, ok_or in H.
(** Turn boolean tests in the context into propositions. *)
Ltac breflect :=
  repeat match goal with
  | H : bool_decide _ = true |- _ => apply bool_decide_eq_true_1 in H
  | H : bool_decide _ = false |- _ => apply bool_decide_eq_false_1 in H
  | H : andb _ _ = true |- _ => apply andb_true_iff in H as [? ?]
  | H : orb _ _ = false |- _ => apply orb_false_iff in H as [? ?]
  | H : negb _ = true |- _ => apply negb_true_iff in H
  | H : negb _ = false |- _ => apply negb_false_iff in H
  | H : N.eqb _ _ = true |- _ => apply N.eqb_eq in H
  | H : N.eqb _ _ = false |- _ => apply N.eqb_neq in H
  | H : N.ltb _ _ = true |- _ => apply N.ltb_lt in H
  | H : N.ltb _ _ = false |- _ => apply N.ltb_ge in H
  | H : N.leb _ _ = true |- _ => apply N.leb_le in H
  | H : N.leb _ _ = false |- _ => apply N.leb_gt in H
  | H : Nat.eqb _ _ = true |- _ => apply Nat.eqb_eq in H
  | H : Nat.eqb _ _ = false |- _ => apply Nat.eqb_neq in H
  | H : Nat.ltb _ _ = true |- _ => apply Nat.ltb_lt in H
  | H : Nat.ltb _ _ = false |- _ => apply Nat.ltb_ge in H
  | H : Nat.leb _ _ = true |- _ => apply Nat.leb_le in H
  | H : Nat.leb _ _ = false |- _ => apply Nat.leb_gt in H
  end.
