(* ===== verification/Seats.v ===== *)
(** * Lobby seats: the pure seat reducer ([crates/seat-reducer])

    The seats of a lobby before the game starts: their kinds and tokens
    ([SeatState]), the three host mutations ([SeatMutation]) and the reducer
    [apply], which reports what changed as a [SeatDelta].  The team metadata of
    a seat ([seat_team_info]) reads the format's topology from
    [crates/engine/src/types/format.rs].  The deck resolver is the trait the
    reducer calls: a [Class] here.  A deck and a resolved deck list are carried
    without being inspected, so their types are parameters. *)
From S2P Require Import Prelude.
Local Open Scope N_scope.

(** ** Formats ([types/format.rs]) *)
Inductive GameFormat :=
  | Standard | Limited | Commander | Pioneer | Modern | Premodern | Legacy
  | Vintage | Historic | Timeless | Pauper | PauperCommander | DuelCommander
  | TinyLeaders | Oathbreaker | Brawl | HistoricBrawl | FreeForAll
  | TwoHeadedGiant | TwoHeadedGiantCommander | Archenemy | ArchenemyCommander
  | Planechase | PlanechaseCommander | Momir | CommanderDraft | Freeform
  | FreeformCommander | Dandan | Custom (id : N).

Inductive TurnStructure := IndividualTurns | SharedTeamTurns.

(** [PlayerId(pub u8)] is its number. *)
Inductive FormatTopology :=
  | IndividualSeats
  | FixedTeams (team_size team_count : N) (turn_structure : TurnStructure)
  | OneVsMany (archenemy : N) (turn_structure : TurnStructure).

(** The fields of [FormatConfig] that seats and topology read. *)
Record FormatConfig := {
  format : GameFormat;
  min_players : N;
  max_players : N;
  team_based : bool;
  archenemy_player : option N;
}.

Definition topology (f : FormatConfig) : FormatTopology :=
  match format f with
  | TwoHeadedGiant => FixedTeams 2 2 SharedTeamTurns
  | TwoHeadedGiantCommander => FixedTeams 2 2 SharedTeamTurns
  | ArchenemyCommander => OneVsMany (default 0 (archenemy_player f)) SharedTeamTurns
  | Archenemy => OneVsMany (default 0 (archenemy_player f)) SharedTeamTurns
  | _ => if team_based f then FixedTeams 2 2 SharedTeamTurns else IndividualSeats
  end.

(** ** Team metadata ([seat-reducer/src/types.rs]) *)
Record SeatTeamInfo := { team_index : N; position_in_team : N }.

(** [0..n] as a range of [u8]. *)
Definition u8_range (n : N) : list N := N.of_nat <$> seq 0 (N.to_nat n).

Definition seat_team_info (f : FormatConfig) (seat_index : N) : option SeatTeamInfo :=
  match topology f with
  | IndividualSeats => None
  | FixedTeams team_size team_count _ =>
      let seat_count := u8_mul team_size team_count in
      if seat_count <=? seat_index then None
      else Some {| team_index := seat_index / team_size;
                   position_in_team := seat_index mod team_size |}
  | OneVsMany archenemy _ =>
      if max_players f <=? seat_index then None
      else if seat_index =? archenemy then
        Some {| team_index := 0; position_in_team := 0 |}
      else
        let hero_position :=
          wrap 8 (N.of_nat (length
            (base.filter (λ seat, seat ≠ archenemy) (u8_range seat_index)))) in
        Some {| team_index := 1; position_in_team := hero_position |}
  end.

Definition seat_team_info_for_seats (f : FormatConfig) (seat_count : nat)
    : list (option SeatTeamInfo) :=
  match topology f with
  | IndividualSeats => []
  | FixedTeams _ _ _ | OneVsMany _ _ =>
      (λ seat_index, seat_team_info f (wrap 8 (N.of_nat seat_index)))
        <$> seq 0 seat_count
  end.

Inductive AiDifficulty := VeryEasy | Easy | Medium | Hard | VeryHard | CEDH.
#[export] Instance AiDifficulty_eq_dec : EqDecision AiDifficulty.
Proof. solve_decision. Defined.

Inductive SeatError :=
  | GameStarted
  | SeatImmutable
  | InvalidTransition
  | BelowFormatMin
  | SeatClaimed
  | NotFull
  | DeckResolutionFailed (message : string).

Record Renumbering := { removed_index : N; remapping : list (N * N) }.

(** ** The reducer *)
Section reducer.
Context {DeckData PlayerDeckList : Type} `{!EqDecision DeckData}.

Inductive DeckChoice :=
  | Random
  | Named (name : string)
  | DeckList (deck : DeckData).
#[export] Instance DeckChoice_eq_dec : EqDecision DeckChoice.
Proof using EqDecision0. solve_decision. Defined.

Inductive SeatKind :=
  | HostHuman
  | JoinedHuman
  | WaitingHuman
  | Ai (difficulty : AiDifficulty) (deck : DeckChoice).
#[export] Instance SeatKind_eq_dec : EqDecision SeatKind.
Proof using EqDecision0. solve_decision. Defined.

Inductive SeatMutation :=
  | SetKind (seat_index : N) (kind : SeatKind) (expected_kind : option SeatKind)
  | Remove (seat_index : N)
  | Start.

Record SeatState := {
  seats : list SeatKind;
  tokens : list string;
  seat_format : FormatConfig;
  game_started : bool;
}.

Record SeatView := {
  view_seats : list SeatKind;
  view_format : FormatConfig;
  view_team_info : list (option SeatTeamInfo);
  view_is_full : bool;
  view_game_started : bool;
}.

Record SeatDelta := {
  mutated_seats : list N;
  invalidated_tokens : list string;
  removed_ai : list N;
  new_ai : list (N * AiDifficulty * PlayerDeckList);
  renumbering : option Renumbering;
  now_started : bool;
}.

Definition SeatDelta_empty : SeatDelta :=
  {| mutated_seats := []; invalidated_tokens := []; removed_ai := [];
     new_ai := []; renumbering := None; now_started := false |}.

(** [trait DeckResolver] *)
Class DeckResolver := resolve : DeckChoice → PlayerDeckList + string.

Definition seat_claimed (k : SeatKind) : bool :=
  match k with
  | HostHuman | JoinedHuman | Ai _ _ => true
  | WaitingHuman => false
  end.
Definition is_full (s : SeatState) : bool := forallb seat_claimed (seats s).
Definition is_pregame (s : SeatState) : bool := negb (game_started s).

Definition to_view (s : SeatState) : SeatView :=
  {| view_seats := seats s;
     view_format := seat_format s;
     view_team_info := seat_team_info_for_seats (seat_format s) (length (seats s));
     view_is_full := is_full s;
     view_game_started := game_started s |}.

Definition with_game_started (s : SeatState) : SeatState :=
  {| seats := seats s; tokens := tokens s; seat_format := seat_format s;
     game_started := true |}.
Definition with_seats (ks : list SeatKind) (ts : list string) (s : SeatState) : SeatState :=
  {| seats := ks; tokens := ts; seat_format := seat_format s;
     game_started := game_started s |}.

Abbreviation M := (stM SeatState SeatError).

(** [state.seats[seat] = kind] *)
Definition set_seat (seat : nat) (kind : SeatKind) : M unit := λ s,
  if decide (seat < length (seats s))%nat
  then (Ok tt, with_seats (<[seat := kind]> (seats s)) (tokens s) s)
  else (Panic, s).
(** [state.tokens[seat].clear()] *)
Definition clear_token (seat : nat) : M unit := λ s,
  if decide (seat < length (tokens s))%nat
  then (Ok tt, with_seats (seats s) (<[seat := ""]> (tokens s)) s)
  else (Panic, s).
(** [state.tokens[seat].clone()] *)
Definition token_at (seat : nat) : M string := λ s,
  (or_panic (tokens s !! seat), s).
Definition resolve_deck `{!DeckResolver} (deck : DeckChoice) : M PlayerDeckList :=
  lift match resolve deck with
       | inl d => Ok d
       | inr e => Err (DeckResolutionFailed e)
       end.

Definition apply_start : M SeatDelta :=
  s ← get;
  _ ← ensure (is_full s) NotFull;
  _ ← modify with_game_started;
  mret {| mutated_seats := []; invalidated_tokens := []; removed_ai := [];
          new_ai := []; renumbering := None; now_started := true |}.

(** The four ways a seat may change its occupant, each with the delta it
    reports; every deck is resolved before the first write. *)
Definition apply_set_kind `{!DeckResolver} (seat_index : N) (kind : SeatKind)
    (expected_kind : option SeatKind) : M SeatDelta :=
  s ← get;
  let seat := N.to_nat seat_index in
  _ ← ensure (negb (bool_decide (seat = 0%nat) || bool_decide (length (seats s) ≤ seat)%nat))
        SeatImmutable;
  current ← lift (or_panic (seats s !! seat));
  if match expected_kind with
     | Some expected => negb (bool_decide (expected = current))
     | None => false
     end
  then mret SeatDelta_empty
  else if decide (current = kind) then mret SeatDelta_empty
  else
    match current, kind with
    | HostHuman, _ => throw SeatImmutable
    | WaitingHuman, JoinedHuman
    | Ai _ _, JoinedHuman
    | JoinedHuman, HostHuman
    | WaitingHuman, HostHuman
    | Ai _ _, HostHuman => throw InvalidTransition
    | WaitingHuman, WaitingHuman
    | JoinedHuman, JoinedHuman =>
        mret {| mutated_seats := [seat_index]; invalidated_tokens := [];
                removed_ai := []; new_ai := []; renumbering := None;
                now_started := false |}
    | WaitingHuman, Ai difficulty deck =>
        resolved ← resolve_deck deck;
        _ ← set_seat seat kind;
        _ ← clear_token seat;
        mret {| mutated_seats := [seat_index]; invalidated_tokens := [];
                removed_ai := []; new_ai := [(seat_index, difficulty, resolved)];
                renumbering := None; now_started := false |}
    | Ai _ _, WaitingHuman =>
        _ ← set_seat seat WaitingHuman;
        _ ← clear_token seat;
        mret {| mutated_seats := [seat_index]; invalidated_tokens := [];
                removed_ai := [seat_index]; new_ai := []; renumbering := None;
                now_started := false |}
    | Ai _ _, Ai difficulty deck =>
        resolved ← resolve_deck deck;
        _ ← set_seat seat kind;
        _ ← clear_token seat;
        mret {| mutated_seats := [seat_index]; invalidated_tokens := [];
                removed_ai := [seat_index];
                new_ai := [(seat_index, difficulty, resolved)];
                renumbering := None; now_started := false |}
    | JoinedHuman, WaitingHuman =>
        token ← token_at seat;
        _ ← clear_token seat;
        _ ← set_seat seat WaitingHuman;
        mret {| mutated_seats := [seat_index]; invalidated_tokens := [token];
                removed_ai := []; new_ai := []; renumbering := None;
                now_started := false |}
    | JoinedHuman, Ai difficulty deck =>
        resolved ← resolve_deck deck;
        token ← token_at seat;
        _ ← clear_token seat;
        _ ← set_seat seat kind;
        mret {| mutated_seats := [seat_index]; invalidated_tokens := [token];
                removed_ai := []; new_ai := [(seat_index, difficulty, resolved)];
                renumbering := None; now_started := false |}
    end.

(** [(a..b)] over [u8]; empty when [b <= a]. *)
Definition u8_from (a b : N) : list N :=
  (λ i, a + N.of_nat i) <$> seq 0 (N.to_nat (b - a)).

Definition apply_remove (seat_index : N) : M SeatDelta :=
  s ← get;
  let seat := N.to_nat seat_index in
  _ ← ensure (negb (bool_decide (seat = 0%nat) || bool_decide (length (seats s) ≤ seat)%nat))
        SeatImmutable;
  _ ← ensure (negb (bool_decide (length (seats s) ≤ N.to_nat (min_players (seat_format s)))%nat))
        BelowFormatMin;
  removed_kind ← lift (or_panic (seats s !! seat));
  _ ← match removed_kind with
      | JoinedHuman => throw SeatClaimed
      | HostHuman => throw SeatImmutable
      | Ai _ _ | WaitingHuman => mret tt
      end;
  _ ← modify (λ s, with_seats (vec_remove seat (seats s)) (tokens s) s);
  s1 ← get;
  _ ← (if decide (seat < length (tokens s1))%nat
       then modify (λ s, with_seats (seats s) (vec_remove seat (tokens s)) s)
       else panic);
  let len := wrap 8 (N.of_nat (length (seats s1))) in
  mret {| mutated_seats := u8_from seat_index len;
          invalidated_tokens := [];
          removed_ai := match removed_kind with Ai _ _ => [seat_index] | _ => [] end;
          new_ai := [];
          renumbering := Some
            {| removed_index := seat_index;
               (* [(seat_index + 1..=len)] *)
               remapping := (λ old, (old, u8_sub old 1))
                              <$> u8_from (u8_add seat_index 1) (len + 1) |};
          now_started := false |}.

Definition apply `{!DeckResolver} (mutation : SeatMutation) : M SeatDelta :=
  s ← get;
  _ ← ensure (is_pregame s) GameStarted;
  match mutation with
  | Start => apply_start
  | SetKind seat_index kind expected_kind => apply_set_kind seat_index kind expected_kind
  | Remove seat_index => apply_remove seat_index
  end.

(** ** Well-formed lobbies

    One token per seat, at most 255 seats (their count is cast to [u8]), the
    host in seat 0 and nowhere else, and no token on an unclaimed or AI seat. *)
Definition token_free (k : SeatKind) : bool :=
  match k with WaitingHuman | Ai _ _ => true | _ => false end.

Record wf (s : SeatState) : Prop := {
  wf_tokens_len : length (tokens s) = length (seats s);
  wf_u8 : (length (seats s) ≤ 255)%nat;
  wf_host : seats s !! 0%nat = Some HostHuman;
  wf_host_unique i : seats s !! i = Some HostHuman → i = 0%nat;
  wf_token_free i k : seats s !! i = Some k → token_free k → tokens s !! i = Some "";
}.

Definition is_ai (k : SeatKind) : bool :=
  match k with Ai _ _ => true | _ => false end.

(** What a seat change reports. *)
Definition set_kind_delta (i : N) (old : SeatKind) (token : string)
    (ai : list (N * AiDifficulty * PlayerDeckList)) : SeatDelta :=
  {| mutated_seats := [i];
     invalidated_tokens := match old with JoinedHuman => [token] | _ => [] end;
     removed_ai := if is_ai old then [i] else [];
     new_ai := ai; renumbering := None; now_started := false |}.

(** A mutation either leaves the state alone, or seats [kind] at [i] with an
    empty token. *)
Inductive set_kind_step (i : N) (kind : SeatKind) (s : SeatState) :
    outcome SeatError SeatDelta → SeatState → Prop :=
  | sk_err e : set_kind_step i kind s (Err e) s
  | sk_noop : set_kind_step i kind s (Ok SeatDelta_empty) s
  | sk_set old token ai :
      i ≠ 0 →
      seats s !! N.to_nat i = Some old →
      tokens s !! N.to_nat i = Some token →
      old ≠ kind → old ≠ HostHuman → kind ≠ HostHuman → kind ≠ JoinedHuman →
      (∀ x, x ∈ ai → x.1.1 = i) →
      (is_ai kind = true ↔ ai ≠ []) →
      set_kind_step i kind s (Ok (set_kind_delta i old token ai))
        (with_seats (<[N.to_nat i := kind]> (seats s))
                    (<[N.to_nat i := ""]> (tokens s)) s).

Lemma apply_set_kind_step `{!DeckResolver} i kind exp s :
  length (tokens s) = length (seats s) →
  set_kind_step i kind s (apply_set_kind i kind exp s).1 (apply_set_kind i kind exp s).2.
Proof.
  intros Hlen. unfold apply_set_kind, resolve_deck, set_seat, clear_token, token_at.
  unfold_M. simpl.
  destruct (decide (N.to_nat i = 0%nat)) as [|Hi0].
  { rewrite bool_decide_eq_true_2 by done. simpl. constructor. }
  rewrite (bool_decide_eq_false_2 (_ = 0%nat)) by done.
  case_bool_decide as Hge; simpl; [constructor|].
  destruct (lookup_lt_is_Some_2 (seats s) (N.to_nat i) ltac:(lia)) as [k Hk].
  destruct (lookup_lt_is_Some_2 (tokens s) (N.to_nat i) ltac:(lia)) as [t Ht].
  rewrite Hk. simpl.
  destruct (match exp with Some _ => _ | None => _ end); [constructor|].
  case_decide as Hkk; [constructor|].
  assert (i ≠ 0) as Hi by (intros ->; done).
  destruct k, kind; simpl; try apply sk_err; try (by destruct Hkk);
    repeat (first [rewrite Ht
                  |rewrite decide_True by (simpl; rewrite ?length_insert; lia)
                  |destruct (resolve _); simpl]);
    simpl; try apply sk_err;
    match goal with
    | Hk : seats s !! _ = Some ?old |- set_kind_step _ ?k _ (Ok ?d) _ =>
        apply (sk_set i k s old t (new_ai d)); simpl; try done; set_solver
    end.
Qed.

Definition remove_delta (i : N) (old : SeatKind) (len : N) : SeatDelta :=
  {| mutated_seats := u8_from i len; invalidated_tokens := [];
     removed_ai := if is_ai old then [i] else []; new_ai := [];
     renumbering := Some
       {| removed_index := i;
          remapping := (λ old, (old, old - 1)) <$> u8_from (i + 1) (len + 1) |};
     now_started := false |}.

Inductive remove_step (i : N) (s : SeatState) :
    outcome SeatError SeatDelta → SeatState → Prop :=
  | rm_err e : remove_step i s (Err e) s
  | rm_ok old :
      i ≠ 0 →
      seats s !! N.to_nat i = Some old → token_free old →
      (N.to_nat (min_players (seat_format s)) < length (seats s))%nat →
      remove_step i s (Ok (remove_delta i old (N.of_nat (length (seats s) - 1))))
        (with_seats (vec_remove (N.to_nat i) (seats s))
                    (vec_remove (N.to_nat i) (tokens s)) s).

Lemma u8_from_elem a b x : x ∈ u8_from a b ↔ a ≤ x < b.
Proof.
  unfold u8_from. rewrite list_elem_of_fmap. setoid_rewrite elem_of_seq.
  split; [intros (k&->&?); lia|]. intros. exists (N.to_nat (x - a)). lia.
Qed.

Lemma remapping_small i len :
  i < 255 → len ≤ 254 →
  (λ old, (old, u8_sub old 1)) <$> u8_from (u8_add i 1) (len + 1)
    = (λ old, (old, old - 1)) <$> u8_from (i + 1) (len + 1).
Proof.
  intros. rewrite (wadd_small 8) by (change (2 ^ 8) with 256; lia).
  apply list_fmap_ext. intros k x Hx%list_elem_of_lookup_2%u8_from_elem.
  by rewrite wsub_small by (change (2 ^ 8) with 256; lia).
Qed.

Lemma apply_remove_step i s :
  wf s → remove_step i s (apply_remove i s).1 (apply_remove i s).2.
Proof.
  intros Hwf. unfold apply_remove. unfold_M. simpl.
  pose proof (wf_tokens_len s Hwf). pose proof (wf_u8 s Hwf).
  destruct (decide (N.to_nat i = 0%nat)) as [|Hi0].
  { rewrite bool_decide_eq_true_2 by done. simpl. constructor. }
  rewrite (bool_decide_eq_false_2 (_ = 0%nat)) by done.
  case_bool_decide as Hge; simpl; [constructor|].
  case_bool_decide as Hmin; simpl; [constructor|].
  destruct (lookup_lt_is_Some_2 (seats s) (N.to_nat i) ltac:(lia)) as [k Hk].
  rewrite Hk. simpl.
  destruct k; simpl; try apply rm_err;
    rewrite decide_True by (simpl; lia); simpl;
    rewrite length_vec_remove by lia;
    rewrite wrap_small by (change (2 ^ 8) with 256; lia);
    rewrite remapping_small by lia;
    (eapply (rm_ok i s _ ltac:(intros ->; done) Hk); [done|lia]).
Qed.

Lemma wf_set s i kind :
  wf s → i ≠ 0%nat → kind ≠ HostHuman → kind ≠ JoinedHuman →
  wf (with_seats (<[i := kind]> (seats s)) (<[i := ""]> (tokens s)) s).
Proof.
  intros [Hl Hu Hh Hun Hf] Hi Hk1 Hk2.
  split; simpl; rewrite ?length_insert; try done.
  - by rewrite list_lookup_insert_ne by done.
  - intros j [(?&?&?)|[? ?]]%list_lookup_insert_Some; [by subst|auto].
  - intros j k [(->&->&?)|[Hne Hj]]%list_lookup_insert_Some Hfree.
    + apply list_lookup_insert_eq. lia.
    + rewrite list_lookup_insert_ne by done. eauto.
Qed.

Lemma wf_remove s i :
  wf s → i ≠ 0%nat → (i < length (seats s))%nat →
  wf (with_seats (vec_remove i (seats s)) (vec_remove i (tokens s)) s).
Proof.
  intros [Hl Hu Hh Hun Hf] Hi Hlt.
  split; simpl; rewrite ?length_vec_remove by lia; try lia.
  - rewrite lookup_vec_remove, decide_True by lia. done.
  - intros j. rewrite lookup_vec_remove. case_decide; intros Hj%Hun; lia.
  - intros j k. rewrite !lookup_vec_remove. case_decide; eauto.
Qed.

Lemma set_kind_step_ok i kind s d s' :
  set_kind_step i kind s (Ok d) s' →
  (d = SeatDelta_empty ∧ s' = s) ∨
  ∃ old token ai, i ≠ 0 ∧
    seats s !! N.to_nat i = Some old ∧ tokens s !! N.to_nat i = Some token ∧
    old ≠ HostHuman ∧ (∀ x, x ∈ ai → x.1.1 = i) ∧ (is_ai kind = true ↔ ai ≠ []) ∧
    d = set_kind_delta i old token ai ∧
    s' = with_seats (<[N.to_nat i := kind]> (seats s))
                    (<[N.to_nat i := ""]> (tokens s)) s.
Proof. intros H. inversion H; subst; [by left|right].
  eexists _, _, _. split_and!; done.
Qed.

Lemma remove_step_ok i s d s' :
  remove_step i s (Ok d) s' →
  ∃ old, i ≠ 0 ∧ seats s !! N.to_nat i = Some old ∧ token_free old ∧
    (N.to_nat (min_players (seat_format s)) < length (seats s))%nat ∧
    d = remove_delta i old (N.of_nat (length (seats s) - 1)) ∧
    s' = with_seats (vec_remove (N.to_nat i) (seats s))
                    (vec_remove (N.to_nat i) (tokens s)) s.
Proof. intros H. inversion H; subst. eexists. split_and!; done. Qed.

Lemma apply_cases `{!DeckResolver} m s :
  wf s →
  (∃ e, (apply m s).1 = Err e ∧ (apply m s).2 = s) ∨
  game_started s = false ∧
  match m with
  | Start => is_full s = true ∧ apply m s =
      (Ok {| mutated_seats := []; invalidated_tokens := []; removed_ai := [];
             new_ai := []; renumbering := None; now_started := true |},
       with_game_started s)
  | SetKind i k _ => set_kind_step i k s (apply m s).1 (apply m s).2
  | Remove i => remove_step i s (apply m s).1 (apply m s).2
  end.
Proof.
  intros Hwf. unfold apply, is_pregame. unfold_M.
  destruct (game_started s) eqn:Hg; simpl; [left; eauto|].
  destruct m as [i k exp|i|]; simpl.
  - right. split; [done|]. apply apply_set_kind_step. apply Hwf.
  - right. split; [done|]. by apply apply_remove_step.
  - unfold apply_start. unfold_M. destruct (is_full s) eqn:?; simpl; [|left; eauto].
    right. done.
Qed.

(** ** The reducer's contract *)

(** C36. On a well-formed lobby every mutation is total (it never panics on an
    index), an error leaves the state untouched, and the state it leaves is
    well formed. *)
Theorem apply_sound `{!DeckResolver} m s :
  wf s →
  let '(r, s') := apply m s in
  wf s' ∧ r ≠ Panic ∧ ∀ e, r = Err e → s' = s.
Proof.
  intros Hwf. destruct (apply m s) as [r s'] eqn:E.
  destruct (apply_cases m s Hwf) as [(e&Hr&Hs)|(Hg&Hm)];
    rewrite E in *; simpl in *; [naive_solver|].
  destruct m as [i k exp|i|].
  - inversion Hm; subst; simplify_eq; split_and!; try done.
    apply wf_set; [done|lia|done..].
  - inversion Hm; subst; simplify_eq; split_and!; try done.
    apply wf_remove; [done|lia|]. by eapply lookup_lt_Some.
  - destruct Hm as [_ [= -> ->]]. split_and!; try done. by destruct Hwf.
Qed.

(** A lobby's history: accepted mutations, each with some deck resolver. *)
Inductive lobby_step (s s' : SeatState) : Prop :=
  | lobby_mutation (R : DeckResolver) m d : apply m s = (Ok d, s') → lobby_step s s'.

(** Along any history of accepted mutations the host keeps seat 0, the
    lobby never shrinks below the format's minimum nor grows, and once the
    game has started nothing changes any more. *)
Theorem lobby_history s s' :
  wf s →
  (N.to_nat (min_players (seat_format s)) ≤ length (seats s))%nat →
  rtc lobby_step s s' →
  wf s' ∧ seat_format s' = seat_format s ∧
  (N.to_nat (min_players (seat_format s)) ≤ length (seats s') ≤ length (seats s))%nat ∧
  (game_started s = true → s' = s).
Proof.
  intros Hwf Hmin Hrtc. revert Hwf Hmin.
  induction Hrtc as [s|s1 s2 s3 [R m d Happ] _ IH]; intros Hwf Hmin; [done|].
  pose proof (apply_sound m s1 Hwf) as Hs. rewrite Happ in Hs.
  destruct Hs as (Hwf2&_&_).
  destruct (apply_cases m s1 Hwf) as [(e&?&?)|(Hg&Hm)]; rewrite Happ in *; [done|].
  simpl in Hm.
  assert (seat_format s2 = seat_format s1 ∧
    (N.to_nat (min_players (seat_format s1)) ≤ length (seats s2) ≤ length (seats s1))%nat)
    as [Hf Hl].
  { destruct m; [inversion Hm| inversion Hm|destruct Hm as [_ [= -> ->]]];
      subst; simplify_eq; simpl; rewrite ?length_insert; try done.
    rewrite length_vec_remove by (by eapply lookup_lt_Some). split; [done|lia]. }
  destruct IH as (?&Hf3&Hl3&_); [done|rewrite Hf; lia|]. rewrite Hf in *.
  split_and!; try done; try lia; congruence.
Qed.

(** No guest loses a session token silently: a token held before an
    accepted mutation is still held after it or is reported in
    [invalidated_tokens]. *)
Theorem apply_tokens_accounted `{!DeckResolver} m s d s' t :
  wf s → apply m s = (Ok d, s') → t ∈ tokens s → t ≠ "" →
  t ∈ tokens s' ∨ t ∈ invalidated_tokens d.
Proof.
  intros Hwf Happ [j Hj]%list_elem_of_lookup_1 Ht.
  destruct (apply_cases m s Hwf) as [(e&?&?)|(Hg&Hm)]; rewrite Happ in *; [done|].
  pose proof (wf_tokens_len s Hwf) as Hlen.
  destruct m as [i k exp|i|]; simpl in Hm.
  - apply set_kind_step_ok in Hm as [[-> ->]|(old&tok&ai&Hi&Hold&Htok&Hh&_&_&->&->)].
    { left. by eapply list_elem_of_lookup_2. }
    destruct (decide (j = N.to_nat i)) as [->|Hji].
    + simplify_eq. right. destruct old; simpl; try done; [set_solver|..];
        (pose proof (wf_token_free s Hwf _ _ Hold ltac:(done))); congruence.
    + left. simpl. apply (list_elem_of_lookup_2 _ j).
      by rewrite list_lookup_insert_ne by done.
  - apply remove_step_ok in Hm as (old&Hi&Hold&Hfree&Hmin&->&->). left. simpl.
    assert (j ≠ N.to_nat i).
    { intros ->. pose proof (wf_token_free s Hwf _ _ Hold Hfree). congruence. }
    apply (list_elem_of_lookup_2 _ (if decide (j < N.to_nat i)%nat then j else j - 1)).
    rewrite lookup_vec_remove. repeat case_decide; try lia; try done.
    by replace (S (j - 1)) with j by lia.
  - destruct Hm as [_ [= -> ->]]. left. by eapply list_elem_of_lookup_2.
Qed.

(** How a client renumbers a seat it knows, given a delta. *)
Definition renumber (d : SeatDelta) (i : N) : option N :=
  match renumbering d with
  | None => Some i
  | Some r =>
      if i =? removed_index r then None
      else match find_first (λ p, p.1 =? i) (remapping r) with
           | Some p => Some p.2
           | None => Some i
           end
  end.

Lemma find_first_remap i a b :
  find_first (λ p, p.1 =? i) ((λ old, (old, old - 1)) <$> u8_from a b)
    = if (a <=? i) && (i <? b) then Some (i, i - 1) else None.
Proof.
  destruct (find_first _ _) as [[x y]|] eqn:E.
  - apply find_first_Some in E as [(z&[= -> ->]&Hz%u8_from_elem)%list_elem_of_fmap Hx].
    simpl in Hx. apply N.eqb_eq in Hx as ->.
    rewrite (proj2 (N.leb_le _ _)), (proj2 (N.ltb_lt _ _)) by lia. done.
  - rewrite find_first_None in E.
    destruct (_ && _) eqn:Hb; [|done]. exfalso. breflect.
    assert ((i, i - 1) ∈ (λ old, (old, old - 1)) <$> u8_from a b) as Hin.
    { apply list_elem_of_fmap. exists i. split; [done|]. apply u8_from_elem. lia. }
    specialize (E _ Hin). simpl in E. by rewrite N.eqb_refl in E.
Qed.

Lemma renumber_remove i old len j :
  renumber (remove_delta i old len) j =
    if j =? i then None
    else if (i <? j) && (j <=? len) then Some (j - 1) else Some j.
Proof.
  unfold renumber. simpl. destruct (j =? i) eqn:?; [done|].
  rewrite find_first_remap.
  replace ((i + 1 <=? j) && (j <? len + 1)) with ((i <? j) && (j <=? len)); [by destruct (_ && _)|].
  apply eq_true_iff_eq. rewrite !andb_true_iff, !N.leb_le, !N.ltb_lt. lia.
Qed.

(** Removing a seat renumbers the others exactly as the delta says: the
    occupant and token of every surviving seat are found at its renumbered
    index, and the surviving indices fill the shorter table. *)
Theorem remove_renumbers `{!DeckResolver} i s d s' j :
  wf s → apply (Remove i) s = (Ok d, s') → (j < length (seats s))%nat →
  match renumber d (N.of_nat j) with
  | None => j = N.to_nat i
  | Some j' =>
      seats s' !! N.to_nat j' = seats s !! j ∧
      tokens s' !! N.to_nat j' = tokens s !! j ∧
      (N.to_nat j' < length (seats s'))%nat
  end.
Proof.
  intros Hwf Happ Hj.
  destruct (apply_cases (Remove i) s Hwf) as [(e&?&?)|(Hg&Hm)]; rewrite Happ in *; [done|].
  simpl in Hm. apply remove_step_ok in Hm as (old&Hi&Hold&Hfree&Hmin&->&->).
  pose proof (lookup_lt_Some _ _ _ Hold).
  rewrite renumber_remove. destruct (N.of_nat j =? i) eqn:?; breflect; [lia|].
  destruct (_ && _) eqn:Hb; simpl; rewrite !lookup_vec_remove, length_vec_remove
    by (rewrite ?(wf_tokens_len s Hwf); done).
  - breflect. rewrite !decide_False by lia.
    replace (S (N.to_nat (N.of_nat j - 1))) with j by lia. split_and!; [done..|lia].
  - apply andb_false_iff in Hb. rewrite Nat2N.id.
    rewrite !decide_True by (destruct Hb; breflect; lia).
    split_and!; [done..|]. destruct Hb; breflect; lia.
Qed.

Definition ai_at (s : SeatState) (i : N) : Prop :=
  ∃ k, seats s !! N.to_nat i = Some k ∧ is_ai k = true.

(** The delta names every AI seat that came or went: after an accepted
    mutation a seat holds an AI exactly when the delta adds one there, or when
    it is the renumbered seat of an AI the delta does not remove. *)
Theorem apply_ai_delta `{!DeckResolver} m s d s' j :
  wf s → apply m s = (Ok d, s') →
  ai_at s' j ↔
    (∃ x, x ∈ new_ai d ∧ x.1.1 = j) ∨
    (∃ i, renumber d i = Some j ∧ ai_at s i ∧ i ∉ removed_ai d).
Proof.
  intros Hwf Happ.
  destruct (apply_cases m s Hwf) as [(e&?&?)|(Hg&Hm)]; rewrite Happ in *; [done|].
  destruct m as [i k exp|i|]; simpl in Hm.
  - apply set_kind_step_ok in Hm as [[-> ->]|(old&tok&ai&Hi&Hold&Htok&Hh&Hai&Hk&->&->)].
    { unfold renumber; simpl. set_solver. }
    unfold renumber, ai_at; simpl. pose proof (lookup_lt_Some _ _ _ Hold).
    destruct (decide (i = j)) as [<-|Hij].
    + rewrite list_lookup_insert_eq by done. split.
      * intros (?&[= <-]&Hx). left. apply Hk in Hx. destruct ai as [|x ai]; [done|].
        exists x. split; [left|apply Hai; left].
      * intros [(x&Hx&_)|(?&[= ->]&(?&?&Hold')&Hni)].
        -- exists k. split; [done|]. apply Hk. by intros ->; apply elem_of_nil in Hx.
        -- simplify_eq. rewrite Hold' in Hni. set_solver.
    + rewrite list_lookup_insert_ne by lia. split.
      * intros ?. right. exists j. split_and!; [done..|]. destruct (is_ai old); set_solver.
      * intros [(x&?&<-)|(?&[= ->]&?&_)]; [|done]. destruct Hij. symmetry. by apply Hai.
  - apply remove_step_ok in Hm as (old&Hi&Hold&Hfree&Hmin&->&->).
    pose proof (lookup_lt_Some _ _ _ Hold) as Hlt.
    setoid_rewrite renumber_remove. unfold ai_at; simpl. split.
    + intros (k&Hk&Hai). right. rewrite lookup_vec_remove in Hk. case_decide.
      * exists j. split_and!; eauto.
        { destruct (j =? i) eqn:?; breflect; [lia|].
          destruct (i <? j) eqn:?; breflect; [lia|done]. }
        destruct (is_ai old); [|set_solver]. intros ->%list_elem_of_singleton. lia.
      * pose proof (lookup_lt_Some _ _ _ Hk). exists (j + 1). split_and!.
        { destruct (j + 1 =? i) eqn:?; breflect; [lia|].
          rewrite (proj2 (N.ltb_lt _ _)), (proj2 (N.leb_le _ _)) by lia. simpl.
          f_equal. lia. }
        { exists k. by replace (N.to_nat (j + 1)) with (S (N.to_nat j)) by lia. }
        destruct (is_ai old); [|set_solver]. intros ?%list_elem_of_singleton. lia.
    + intros [(x&Hx&_)|(i'&Hr&(k&Hk&Hai)&Hni)]; [set_solver|].
      pose proof (lookup_lt_Some _ _ _ Hk). exists k. split; [|done].
      rewrite lookup_vec_remove. destruct (i' =? i) eqn:?; [done|].
      destruct (_ && _) eqn:Hb; simplify_eq; breflect.
      * rewrite decide_False by lia. by replace (S (N.to_nat (i' - 1))) with (N.to_nat i') by lia.
      * apply andb_false_iff in Hb. rewrite decide_True; [done|].
        destruct Hb; breflect; lia.
  - destruct Hm as [_ [= -> ->]]. unfold renumber, ai_at; simpl. set_solver.
Qed.
End reducer.

(** ** Team metadata *)
Section team_info.
Implicit Types (f : FormatConfig) (i j n a : N).

Lemma u8_range_succ n : u8_range (n + 1) = u8_range n ++ [n].
Proof.
  unfold u8_range. replace (N.to_nat (n + 1)) with (S (N.to_nat n)) by lia.
  rewrite seq_S, fmap_app. simpl. by rewrite N2Nat.id.
Qed.

Lemma hero_count a n :
  N.of_nat (length (base.filter (λ seat, seat ≠ a) (u8_range n)))
    = n - (if a <? n then 1 else 0).
Proof.
  induction n as [|n IH] using N.peano_ind.
  { cbn. by destruct (a <? 0). }
  rewrite <-N.add_1_r, u8_range_succ, filter_app, length_app, Nat2N.inj_add, IH.
  rewrite filter_cons, filter_nil.
  destruct (N.ltb_spec a n), (N.ltb_spec a (n + 1)); case_decide; simpl; lia.
Qed.

Lemma topology_fixed f team_size team_count t :
  topology f = FixedTeams team_size team_count t → team_size = 2 ∧ team_count = 2.
Proof.
  unfold topology. destruct (format f), (team_based f); naive_solver.
Qed.

(** Two seats never share team metadata, the four seats of a two-team
    format fall two to a team, and facing an archenemy the heroes are numbered
    densely around the archenemy's seat. *)
Theorem seat_team_info_spec f i :
  i < 256 →
  (∀ j x, j < 256 → seat_team_info f i = Some x → seat_team_info f j = Some x → i = j) ∧
  match topology f with
  | IndividualSeats => seat_team_info f i = None
  | FixedTeams _ _ _ =>
      seat_team_info f i =
        if i <? 4 then Some {| team_index := i / 2; position_in_team := i mod 2 |} else None
  | OneVsMany a _ =>
      seat_team_info f i =
        if max_players f <=? i then None
        else if i =? a then Some {| team_index := 0; position_in_team := 0 |}
        else Some {| team_index := 1; position_in_team := if a <? i then i - 1 else i |}
  end.
Proof.
  assert (∀ a i, i < 256 →
    wrap 8 (N.of_nat (length (base.filter (λ seat, seat ≠ a) (u8_range i))))
      = if a <? i then i - 1 else i) as Hhero.
  { intros a k Hk. rewrite hero_count, wrap_small; [case_match; lia|].
    change (2 ^ 8) with 256. case_match; lia. }
  intros Hi. unfold seat_team_info.
  destruct (topology f) as [|ts tc t|a t] eqn:Ht.
  - done.
  - apply topology_fixed in Ht as [-> ->]. change (u8_mul 2 2) with 4.
    split; [|rewrite N.leb_antisym; by destruct (i <? 4)].
    intros j x Hj. do 2 case_match; try done. intros [= <-] [= Hd Hm].
    rewrite (N.div_mod i 2), (N.div_mod j 2) by done. lia.
  - rewrite (Hhero a i Hi). split; [|done].
    intros j x Hj. rewrite Hhero by done.
    repeat case_match; breflect; intros; simplify_eq; lia.
Qed.
End team_info.

(** ** Witnesses *)
Module Witnesses.
#[local] Instance resolver : @DeckResolver unit unit := λ _, inl tt.
Definition fmt : FormatConfig :=
  {| format := Commander; min_players := 2; max_players := 6;
     team_based := false; archenemy_player := None |}.
Definition lobby : @SeatState unit :=
  {| seats := [HostHuman; JoinedHuman; Ai Hard Random; WaitingHuman];
     tokens := ["h"; "j"; ""; ""]%string; seat_format := fmt; game_started := false |}.

Lemma lobby_wf : wf lobby.
Proof.
  split; try done; [simpl; lia|..].
  - intros [|[|[|[|i]]]]; naive_solver.
  - intros [|[|[|[|i]]]] k; simpl; intros [= <-]; naive_solver.
Qed.

Lemma apply_sound_witness :
  let '(r, s') := apply (SetKind 1 WaitingHuman (Some JoinedHuman)) lobby in
  wf s' ∧ r ≠ Panic ∧ ∀ e, r = Err e → s' = lobby.
Proof. apply (apply_sound (SetKind 1 WaitingHuman (Some JoinedHuman)) lobby lobby_wf). Defined.

Lemma lobby_history_witness :
  wf (apply (Remove 2) lobby).2 ∧
  seat_format (apply (Remove 2) lobby).2 = fmt ∧
  (2 ≤ length (seats (apply (Remove 2) lobby).2) ≤ 4)%nat ∧
  (game_started lobby = true → (apply (Remove 2) lobby).2 = lobby).
Proof.
  apply (lobby_history (PlayerDeckList := unit) lobby (apply (Remove 2) lobby).2 lobby_wf).
  - vm_compute. lia.
  - eapply rtc_once. apply (lobby_mutation _ _ resolver (Remove 2) (remove_delta 2 (Ai Hard (@Random unit)) 3)).
    vm_compute. reflexivity.
Defined.

Definition kicked_delta : SeatDelta (PlayerDeckList := unit) :=
  set_kind_delta 1 (@JoinedHuman unit) "j" [(1, Easy, tt)].
Lemma apply_tokens_accounted_witness :
  "j"%string ∈ tokens (apply (SetKind 1 (Ai Easy Random) None) lobby).2 ∨
  "j"%string ∈ invalidated_tokens kicked_delta.
Proof.
  apply (apply_tokens_accounted (SetKind 1 (Ai Easy Random) None) lobby kicked_delta);
    [exact lobby_wf|vm_compute; reflexivity| |done].
  simpl. right. left.
Defined.

Lemma remove_renumbers_witness :
  seats (apply (Remove 2) lobby).2 !! 2%nat = Some WaitingHuman ∧
  tokens (apply (Remove 2) lobby).2 !! 2%nat = Some ""%string ∧
  (2 < length (seats (apply (Remove 2) lobby).2))%nat.
Proof.
  apply (remove_renumbers 2 lobby (remove_delta 2 (Ai Hard (@Random unit)) 3) (apply (Remove 2) lobby).2 3 lobby_wf);
    [vm_compute; reflexivity|simpl; lia].
Defined.

Lemma apply_ai_delta_witness :
  ai_at (apply (Remove 2) lobby).2 2 ↔
    (∃ x : N * AiDifficulty * unit, x ∈ [] ∧ x.1.1 = 2) ∨
    (∃ i, renumber (remove_delta (PlayerDeckList := unit) 2 (Ai Hard (@Random unit)) 3) i = Some 2
       ∧ ai_at lobby i ∧ i ∉ [2]).
Proof.
  apply (apply_ai_delta (Remove 2) lobby
           (remove_delta 2 (Ai Hard (@Random unit)) 3) (apply (Remove 2) lobby).2 2 lobby_wf).
  vm_compute. reflexivity.
Defined.

Definition archenemy_fmt : FormatConfig :=
  {| format := Archenemy; min_players := 2; max_players := 6;
     team_based := false; archenemy_player := Some 1 |}.
Lemma seat_team_info_spec_witness :
  seat_team_info archenemy_fmt 3 = Some {| team_index := 1; position_in_team := 2 |}.
Proof. apply (seat_team_info_spec archenemy_fmt 3). lia. Defined.
End Witnesses.
