(* ===== verification/GameTypes.v ===== *)
(** * Shared game vocabulary ([crates/phase-ast/src/types])

    Zones ([zones.rs]), the phases and steps of a turn with their grouping
    ([phase.rs]), and from [ability.rs] the comparison operators and the
    ability tags that restrictions on mana name; and the printings that decks carry
    ([engine/src/types/card_printing.rs]). *)
From S2P Require Import Prelude.

Module Zone.
Inductive t := Library | Hand | Battlefield | Graveyard | Stack | Exile | Command.
#[global] Instance t_eq_dec : EqDecision t.
Proof. solve_decision. Defined.

Definition ALL : list t :=
  [Library; Hand; Battlefield; Graveyard; Stack; Exile; Command].

Definition is_public (z : t) : bool :=
  match z with
  | Battlefield | Graveyard | Stack | Exile | Command => true
  | Library | Hand => false
  end.

Definition is_library_relocation_origin (z : t) : bool :=
  match z with
  | Hand | Library | Graveyard | Exile => true
  | Battlefield | Stack | Command => false
  end.
End Zone.

Module Phase.
Inductive t :=
  | Untap | Upkeep | Draw
  | PreCombatMain
  | BeginCombat | DeclareAttackers | DeclareBlockers | CombatDamage | EndCombat
  | PostCombatMain
  | End_ | Cleanup.
#[global] Instance t_eq_dec : EqDecision t.
Proof. solve_decision. Defined.

(** The declaration order is the order of a turn. *)
Definition all : list t :=
  [Untap; Upkeep; Draw; PreCombatMain; BeginCombat; DeclareAttackers;
   DeclareBlockers; CombatDamage; EndCombat; PostCombatMain; End_; Cleanup].
End Phase.

Module PhaseGroup.
Inductive t := Beginning | PrecombatMain | Combat | PostcombatMain | Ending.
#[global] Instance t_eq_dec : EqDecision t.
Proof. solve_decision. Defined.

Definition last_step (g : t) : Phase.t :=
  match g with
  | Beginning => Phase.Draw
  | PrecombatMain => Phase.PreCombatMain
  | Combat => Phase.EndCombat
  | PostcombatMain => Phase.PostCombatMain
  | Ending => Phase.Cleanup
  end.

Definition steps (g : t) : list Phase.t :=
  match g with
  | Beginning => [Phase.Untap; Phase.Upkeep; Phase.Draw]
  | PrecombatMain => [Phase.PreCombatMain]
  | Combat =>
      [Phase.BeginCombat; Phase.DeclareAttackers; Phase.DeclareBlockers;
       Phase.CombatDamage; Phase.EndCombat]
  | PostcombatMain => [Phase.PostCombatMain]
  | Ending => [Phase.End_; Phase.Cleanup]
  end.

Definition all : list t := [Beginning; PrecombatMain; Combat; PostcombatMain; Ending].
End PhaseGroup.

(** [Phase::group] *)
Definition group (p : Phase.t) : PhaseGroup.t :=
  match p with
  | Phase.Untap | Phase.Upkeep | Phase.Draw => PhaseGroup.Beginning
  | Phase.PreCombatMain => PhaseGroup.PrecombatMain
  | Phase.BeginCombat | Phase.DeclareAttackers | Phase.DeclareBlockers
  | Phase.CombatDamage | Phase.EndCombat => PhaseGroup.Combat
  | Phase.PostCombatMain => PhaseGroup.PostcombatMain
  | Phase.End_ | Phase.Cleanup => PhaseGroup.Ending
  end.

(** [Phase::is_combat] *)
Definition is_combat (p : Phase.t) : bool :=
  match group p with PhaseGroup.Combat => true | _ => false end.

Module TurnSegment.
Inductive t :=
  | Phase (g : PhaseGroup.t)
  | CreatedPhase (step : Phase.t)
  | Step (step : Phase.t).

Definition first_step (s : t) : Phase.t :=
  match s with
  | Phase PhaseGroup.Beginning => Phase.Untap
  | Phase (PhaseGroup.PrecombatMain | PhaseGroup.PostcombatMain) => Phase.PostCombatMain
  | Phase PhaseGroup.Combat => Phase.BeginCombat
  | Phase PhaseGroup.Ending => Phase.End_
  | CreatedPhase step | Step step => step
  end.

Definition final_step (s : t) : Phase.t :=
  match s with
  | Phase (PhaseGroup.PrecombatMain | PhaseGroup.PostcombatMain) => Phase.PostCombatMain
  | Phase ((PhaseGroup.Beginning | PhaseGroup.Combat | PhaseGroup.Ending) as g) =>
      PhaseGroup.last_step g
  | CreatedPhase step | Step step => step
  end.
End TurnSegment.

Module PhaseStopScope.
Inductive t := AllTurns | OwnTurn | OpponentsTurns.
End PhaseStopScope.

Record PhaseStop := { stop_phase : Phase.t; stop_scope : PhaseStopScope.t }.

(** [PhaseStop::applies], players by number *)
Definition applies (s : PhaseStop) (owner active_player : N) : bool :=
  match stop_scope s with
  | PhaseStopScope.AllTurns => true
  | PhaseStopScope.OwnTurn => (owner =? active_player)%N
  | PhaseStopScope.OpponentsTurns => negb (owner =? active_player)%N
  end.

Module Comparator.
Inductive t := GT | LT | GE | LE | EQ | NE.
#[global] Instance t_eq_dec : EqDecision t.
Proof. solve_decision. Defined.

Definition evaluate (c : t) (lhs rhs : Z) : bool :=
  match c with
  | GT => (rhs <? lhs)%Z
  | LT => (lhs <? rhs)%Z
  | GE => (rhs <=? lhs)%Z
  | LE => (lhs <=? rhs)%Z
  | EQ => (lhs =? rhs)%Z
  | NE => negb (lhs =? rhs)%Z
  end.

Definition negate (c : t) : t :=
  match c with GT => LE | LT => GE | GE => LT | LE => GT | EQ => NE | NE => EQ end.

Lemma evaluate_negate c lhs rhs : evaluate (negate c) lhs rhs = negb (evaluate c lhs rhs).
Proof.
  destruct c; simpl; rewrite ?negb_involutive; try done;
    apply eq_true_iff_eq; rewrite ?negb_true_iff, ?Z.leb_le, ?Z.ltb_lt, ?Z.leb_gt, ?Z.ltb_ge;
    lia.
Qed.
End Comparator.

Module AbilityTag.
Inductive t := Boast | Evolve | Exhaust | Outlast | Cycling | Backup | PowerUp | Equip | Augment.
#[global] Instance t_eq_dec : EqDecision t.
Proof. solve_decision. Defined.
End AbilityTag.

(** The five phases partition the steps of a turn in turn order: listing the
    steps of each phase in order is the whole turn, a step belongs to the phase
    that lists it, the phase's [last_step] is its last, and an added segment that
    is a whole phase runs from its first to its last step within one phase. *)
Theorem phase_steps_partition_turn :
  concat (PhaseGroup.steps <$> PhaseGroup.all) = Phase.all ∧
  (∀ p g, p ∈ PhaseGroup.steps g ↔ group p = g) ∧
  (∀ g, last (PhaseGroup.steps g) = Some (PhaseGroup.last_step g)) ∧
  (∀ g, group (TurnSegment.first_step (TurnSegment.Phase g))
        = group (TurnSegment.final_step (TurnSegment.Phase g)) ∧
        head (PhaseGroup.steps (group (TurnSegment.first_step (TurnSegment.Phase g))))
        = Some (TurnSegment.first_step (TurnSegment.Phase g)) ∧
        last (PhaseGroup.steps (group (TurnSegment.final_step (TurnSegment.Phase g))))
        = Some (TurnSegment.final_step (TurnSegment.Phase g))).
Proof.
  split_and!; [done| |by intros []|by intros []].
  intros p g. split.
  - destruct g; simpl; intros Hp; repeat (apply elem_of_cons in Hp as [->|Hp]; [done|]);
      by apply elem_of_nil in Hp.
  - intros <-. destruct p; simpl; set_solver.
Qed.

(** The printings a deck asks for ([engine/src/types/card_printing.rs]). *)
Module Printings.
Inductive DeckSection :=
  | MainDeck | SideboardDeck | CommanderDeck | CompanionDeck | AttractionDeck | PlanarDeck
  | SchemeDeck | ContraptionDeck | SignatureSpellDeck | UnknownSection.
Record CardPrinting := { printing_set_code : string; collector_number : string }.
Record DeckPrinting := {
  printing_section : DeckSection;
  printing_name : string;
  printing_count : N;
  printing_of : CardPrinting;
}.
#[global] Instance DeckSection_eq_dec : EqDecision DeckSection.
Proof. solve_decision. Defined.
#[global] Instance CardPrinting_eq_dec : EqDecision CardPrinting.
Proof. solve_decision. Defined.
#[global] Instance DeckPrinting_eq_dec : EqDecision DeckPrinting.
Proof. solve_decision. Defined.
End Printings.
