(* ===== verification/ManaSymbols.v ===== *)
(** * Mana symbols ([crates/phase-ast/src/types/mana.rs])

    Colors, mana types, the bitmask set of mana types, the bitmask of colors
    payable with life ([crates/engine/src/types/mana.rs]) and the forty-four
    printed mana symbols with their tables: symbol text, the halves of a hybrid,
    the mana that pays a symbol, the colors it contributes to, its mana value. *)
From S2P Require Import Prelude.
Local Open Scope N_scope.

Module ManaColor.
Inductive t := White | Blue | Black | Red | Green.

#[global] Instance t_eq_dec : EqDecision t.
Proof. solve_decision. Defined.

Definition ALL : list t := [White; Blue; Black; Red; Green].

(** [c as u8] *)
Definition discr (c : t) : N :=
  match c with White => 0 | Blue => 1 | Black => 2 | Red => 3 | Green => 4 end.

Definition from_str (s : string) : outcome unit t :=
  match s with
  | "White" => Ok White
  | "Blue" => Ok Blue
  | "Black" => Ok Black
  | "Red" => Ok Red
  | "Green" => Ok Green
  | _ => Err tt
  end%string.
End ManaColor.

Module ManaType.
Inductive t := White | Blue | Black | Red | Green | Colorless.

#[global] Instance t_eq_dec : EqDecision t.
Proof. solve_decision. Defined.

(** [t as u8] *)
Definition discr (m : t) : N :=
  match m with
  | White => 0 | Blue => 1 | Black => 2 | Red => 3 | Green => 4 | Colorless => 5
  end.

Definition from_color (c : ManaColor.t) : t :=
  match c with
  | ManaColor.White => White
  | ManaColor.Blue => Blue
  | ManaColor.Black => Black
  | ManaColor.Red => Red
  | ManaColor.Green => Green
  end.
End ManaType.

(** CR 106.1b: a set over the six mana types, as the bits of a [u8]. *)
Module ManaTypeSet.
Definition t := N.
Definition EMPTY : t := 0.
Definition of_ (m : ManaType.t) : t := N.shiftl 1 (ManaType.discr m).
Definition with_ (s : t) (m : ManaType.t) : t :=
  N.lor s (N.shiftl 1 (ManaType.discr m)).
Definition contains (s : t) (m : ManaType.t) : bool :=
  negb (N.land s (N.shiftl 1 (ManaType.discr m)) =? 0).
Definition is_empty (s : t) : bool := s =? 0.
(** [self.0 & !other.0 == 0], the complement taken on eight bits *)
Definition is_subset_of (s other : t) : bool := N.land s (N.lxor other 255) =? 0.
Definition from_iter (it : list ManaType.t) : t := fold_left with_ it EMPTY.

Lemma contains_testbit s m : contains s m = N.testbit s (ManaType.discr m).
Proof.
  unfold contains. rewrite N.shiftl_1_l.
  destruct (N.testbit s (ManaType.discr m)) eqn:Hb.
  - apply negb_true_iff, N.eqb_neq. intros H0.
    apply (f_equal (λ x, N.testbit x (ManaType.discr m))) in H0.
    rewrite N.land_spec, Hb, N.pow2_bits_true in H0. done.
  - apply negb_false_iff, N.eqb_eq, N.bits_inj_0. intros k.
    rewrite N.land_spec. destruct (decide (k = ManaType.discr m)) as [->|].
    + by rewrite Hb.
    + rewrite N.pow2_bits_false by done. apply andb_false_r.
Qed.

Lemma discr_inj m m' : ManaType.discr m = ManaType.discr m' → m = m'.
Proof. by destruct m, m'. Qed.

Lemma contains_with s m m' :
  contains (with_ s m) m' = bool_decide (m = m') || contains s m'.
Proof.
  rewrite !contains_testbit. unfold with_. rewrite N.shiftl_1_l, N.lor_spec, N.pow2_bits_eqb.
  rewrite orb_comm. f_equal. destruct (N.eqb_spec (ManaType.discr m) (ManaType.discr m')) as [E|E].
  - apply discr_inj in E. by rewrite bool_decide_eq_true_2.
  - rewrite bool_decide_eq_false_2; [done|]. by intros ->.
Qed.

(** Every set the code builds uses the low six bits only. *)
Definition wf (s : t) : Prop := ∀ k, 6 ≤ k → N.testbit s k = false.

Lemma wf_empty : wf EMPTY.
Proof. intros k _. apply N.bits_0. Qed.
Lemma wf_with s m : wf s → wf (with_ s m).
Proof.
  intros Hs k Hk. unfold with_. rewrite N.shiftl_1_l, N.lor_spec, Hs, N.pow2_bits_eqb by done.
  assert (ManaType.discr m < 6) by by destruct m.
  simpl. apply N.eqb_neq. lia.
Qed.
Lemma wf_of m : wf (of_ m).
Proof. unfold of_. change (N.shiftl 1 _) with (with_ EMPTY m). apply wf_with, wf_empty. Qed.
Lemma wf_from_iter it : wf (from_iter it).
Proof.
  unfold from_iter. generalize wf_empty. generalize EMPTY.
  induction it as [|m it IH]; intros s Hs; simpl; [done|]. by apply IH, wf_with.
Qed.

Lemma bit_type k : k < 6 → ∃ m, ManaType.discr m = k.
Proof.
  intros Hk. assert (k = 0 ∨ k = 1 ∨ k = 2 ∨ k = 3 ∨ k = 4 ∨ k = 5) as H by lia.
  destruct H as [->|[->|[->|[->|[->| ->]]]]];
    [exists ManaType.White|exists ManaType.Blue|exists ManaType.Black
    |exists ManaType.Red|exists ManaType.Green|exists ManaType.Colorless]; done.
Qed.

Lemma is_subset_of_spec s s' :
  wf s → is_subset_of s s' = true ↔ ∀ m, contains s m = true → contains s' m = true.
Proof.
  intros Hwf. unfold is_subset_of. setoid_rewrite contains_testbit. rewrite N.eqb_eq. split.
  - intros H0 m Hm. apply (f_equal (λ x, N.testbit x (ManaType.discr m))) in H0.
    rewrite N.land_spec, N.lxor_spec, Hm, N.bits_0 in H0.
    destruct (N.testbit s' (ManaType.discr m)); [done|]. by destruct m.
  - intros Hsub. apply N.bits_inj_0. intros k. rewrite N.land_spec, N.lxor_spec.
    destruct (N.testbit s k) eqn:Hk; [|done].
    destruct (decide (k < 6)) as [Hlt|]; [|by rewrite Hwf in Hk by lia].
    destruct (bit_type k Hlt) as [m <-]. rewrite (Hsub m Hk). by destruct m.
Qed.

Lemma contains_from_iter it m : contains (from_iter it) m = bool_decide (m ∈ it).
Proof.
  unfold from_iter. enough (∀ s, contains (fold_left with_ it s) m
    = bool_decide (m ∈ it) || contains s m) as ->.
  { assert (contains EMPTY m = false) as -> by by destruct m. apply orb_false_r. }
  induction it as [|x it IH]; intros s; simpl; [done|].
  rewrite IH, contains_with, orb_assoc. f_equal.
  apply eq_true_iff_eq. rewrite orb_true_iff, !bool_decide_eq_true, elem_of_cons.
  naive_solver.
Qed.
End ManaTypeSet.

(** CR 107.4f: the colors for which a player may pay 2 life, as a bitmask. *)
Module LifePaymentColors.
Definition t := N.
Definition EMPTY : t := 0.
Definition contains (s : t) (c : ManaColor.t) : bool :=
  negb (N.land s (N.shiftl 1 (ManaColor.discr c)) =? 0).
Definition insert (s : t) (c : ManaColor.t) : t :=
  N.lor s (N.shiftl 1 (ManaColor.discr c)).
Definition is_empty (s : t) : bool := s =? 0.
Definition from_iter (it : list ManaColor.t) : t := fold_left insert it EMPTY.
End LifePaymentColors.

Module ManaCostShard.
Inductive t :=
  | White | Blue | Black | Red | Green | Colorless | Snow | X | TwoOrMoreColorSource
  | WhiteBlue | WhiteBlack | BlueBlack | BlueRed | BlackRed | BlackGreen | RedWhite
  | RedGreen | GreenWhite | GreenBlue | TwoWhite | TwoBlue | TwoBlack | TwoRed | TwoGreen
  | PhyrexianWhite | PhyrexianBlue | PhyrexianBlack | PhyrexianRed | PhyrexianGreen
  | PhyrexianWhiteBlue | PhyrexianWhiteBlack | PhyrexianBlueBlack | PhyrexianBlueRed
  | PhyrexianBlackRed | PhyrexianBlackGreen | PhyrexianRedWhite | PhyrexianRedGreen
  | PhyrexianGreenWhite | PhyrexianGreenBlue | ColorlessWhite | ColorlessBlue
  | ColorlessBlack | ColorlessRed | ColorlessGreen.

#[global] Instance t_eq_dec : EqDecision t.
Proof. solve_decision. Defined.

Definition all : list t :=
  [ White; Blue; Black; Red; Green; Colorless; Snow; X; TwoOrMoreColorSource; WhiteBlue;
    WhiteBlack; BlueBlack; BlueRed; BlackRed; BlackGreen; RedWhite; RedGreen; GreenWhite;
    GreenBlue; TwoWhite; TwoBlue; TwoBlack; TwoRed; TwoGreen; PhyrexianWhite;
    PhyrexianBlue; PhyrexianBlack; PhyrexianRed; PhyrexianGreen; PhyrexianWhiteBlue;
    PhyrexianWhiteBlack; PhyrexianBlueBlack; PhyrexianBlueRed; PhyrexianBlackRed;
    PhyrexianBlackGreen; PhyrexianRedWhite; PhyrexianRedGreen; PhyrexianGreenWhite;
    PhyrexianGreenBlue; ColorlessWhite; ColorlessBlue; ColorlessBlack; ColorlessRed;
    ColorlessGreen ].

(** Canonical printed symbol. *)
Definition symbol (s : t) : string :=
  match s with
  | White => "W"
  | Blue => "U"
  | Black => "B"
  | Red => "R"
  | Green => "G"
  | Colorless => "C"
  | Snow => "S"
  | X => "X"
  | TwoOrMoreColorSource => "Z"
  | WhiteBlue => "W/U"
  | WhiteBlack => "W/B"
  | BlueBlack => "U/B"
  | BlueRed => "U/R"
  | BlackRed => "B/R"
  | BlackGreen => "B/G"
  | RedWhite => "R/W"
  | RedGreen => "R/G"
  | GreenWhite => "G/W"
  | GreenBlue => "G/U"
  | TwoWhite => "2/W"
  | TwoBlue => "2/U"
  | TwoBlack => "2/B"
  | TwoRed => "2/R"
  | TwoGreen => "2/G"
  | PhyrexianWhite => "W/P"
  | PhyrexianBlue => "U/P"
  | PhyrexianBlack => "B/P"
  | PhyrexianRed => "R/P"
  | PhyrexianGreen => "G/P"
  | PhyrexianWhiteBlue => "W/U/P"
  | PhyrexianWhiteBlack => "W/B/P"
  | PhyrexianBlueBlack => "U/B/P"
  | PhyrexianBlueRed => "U/R/P"
  | PhyrexianBlackRed => "B/R/P"
  | PhyrexianBlackGreen => "B/G/P"
  | PhyrexianRedWhite => "R/W/P"
  | PhyrexianRedGreen => "R/G/P"
  | PhyrexianGreenWhite => "G/W/P"
  | PhyrexianGreenBlue => "G/U/P"
  | ColorlessWhite => "C/W"
  | ColorlessBlue => "C/U"
  | ColorlessBlack => "C/B"
  | ColorlessRed => "C/R"
  | ColorlessGreen => "C/G"
  end%string.

(** CR 107.4e: the two halves a hybrid symbol can be announced as. *)
Definition announceable_halves (s : t) : option (t * t) :=
  match s with
  | WhiteBlue => Some (White, Blue)
  | WhiteBlack => Some (White, Black)
  | BlueBlack => Some (Blue, Black)
  | BlueRed => Some (Blue, Red)
  | BlackRed => Some (Black, Red)
  | BlackGreen => Some (Black, Green)
  | RedWhite => Some (Red, White)
  | RedGreen => Some (Red, Green)
  | GreenWhite => Some (Green, White)
  | GreenBlue => Some (Green, Blue)
  | ColorlessWhite => Some (Colorless, White)
  | ColorlessBlue => Some (Colorless, Blue)
  | ColorlessBlack => Some (Colorless, Black)
  | ColorlessRed => Some (Colorless, Red)
  | ColorlessGreen => Some (Colorless, Green)
  | _ => None
  end.

Definition single_mana_payment_types (s : t) : option ManaTypeSet.t :=
  match s with
  | White => Some (ManaTypeSet.of_ ManaType.White)
  | Blue => Some (ManaTypeSet.of_ ManaType.Blue)
  | Black => Some (ManaTypeSet.of_ ManaType.Black)
  | Red => Some (ManaTypeSet.of_ ManaType.Red)
  | Green => Some (ManaTypeSet.of_ ManaType.Green)
  | Colorless => Some (ManaTypeSet.of_ ManaType.Colorless)
  | WhiteBlue => Some (ManaTypeSet.with_ (ManaTypeSet.of_ ManaType.White) ManaType.Blue)
  | WhiteBlack => Some (ManaTypeSet.with_ (ManaTypeSet.of_ ManaType.White) ManaType.Black)
  | BlueBlack => Some (ManaTypeSet.with_ (ManaTypeSet.of_ ManaType.Blue) ManaType.Black)
  | BlueRed => Some (ManaTypeSet.with_ (ManaTypeSet.of_ ManaType.Blue) ManaType.Red)
  | BlackRed => Some (ManaTypeSet.with_ (ManaTypeSet.of_ ManaType.Black) ManaType.Red)
  | BlackGreen => Some (ManaTypeSet.with_ (ManaTypeSet.of_ ManaType.Black) ManaType.Green)
  | RedWhite => Some (ManaTypeSet.with_ (ManaTypeSet.of_ ManaType.Red) ManaType.White)
  | RedGreen => Some (ManaTypeSet.with_ (ManaTypeSet.of_ ManaType.Red) ManaType.Green)
  | GreenWhite => Some (ManaTypeSet.with_ (ManaTypeSet.of_ ManaType.Green) ManaType.White)
  | GreenBlue => Some (ManaTypeSet.with_ (ManaTypeSet.of_ ManaType.Green) ManaType.Blue)
  | ColorlessWhite => Some (ManaTypeSet.with_ (ManaTypeSet.of_ ManaType.Colorless) ManaType.White)
  | ColorlessBlue => Some (ManaTypeSet.with_ (ManaTypeSet.of_ ManaType.Colorless) ManaType.Blue)
  | ColorlessBlack => Some (ManaTypeSet.with_ (ManaTypeSet.of_ ManaType.Colorless) ManaType.Black)
  | ColorlessRed => Some (ManaTypeSet.with_ (ManaTypeSet.of_ ManaType.Colorless) ManaType.Red)
  | ColorlessGreen => Some (ManaTypeSet.with_ (ManaTypeSet.of_ ManaType.Colorless) ManaType.Green)
  | Snow | X | TwoOrMoreColorSource | TwoWhite | TwoBlue | TwoBlack | TwoRed | TwoGreen
  | PhyrexianWhite | PhyrexianBlue | PhyrexianBlack | PhyrexianRed | PhyrexianGreen
  | PhyrexianWhiteBlue | PhyrexianWhiteBlack | PhyrexianBlueBlack | PhyrexianBlueRed
  | PhyrexianBlackRed | PhyrexianBlackGreen | PhyrexianRedWhite | PhyrexianRedGreen
  | PhyrexianGreenWhite | PhyrexianGreenBlue => None
  end.

(** CR 700.5: the symbol is, or contains, the color. *)
Definition contributes_to (s : t) (color : ManaColor.t) : bool :=
  match color with
  | ManaColor.White => match s with
      | White | WhiteBlue | WhiteBlack | RedWhite | GreenWhite | TwoWhite | PhyrexianWhite
      | PhyrexianWhiteBlue | PhyrexianWhiteBlack | PhyrexianRedWhite | PhyrexianGreenWhite
      | ColorlessWhite => true
      | _ => false end
  | ManaColor.Blue => match s with
      | Blue | WhiteBlue | BlueBlack | BlueRed | GreenBlue | TwoBlue | PhyrexianBlue
      | PhyrexianWhiteBlue | PhyrexianBlueBlack | PhyrexianBlueRed | PhyrexianGreenBlue
      | ColorlessBlue => true
      | _ => false end
  | ManaColor.Black => match s with
      | Black | WhiteBlack | BlueBlack | BlackRed | BlackGreen | TwoBlack | PhyrexianBlack
      | PhyrexianWhiteBlack | PhyrexianBlueBlack | PhyrexianBlackRed | PhyrexianBlackGreen
      | ColorlessBlack => true
      | _ => false end
  | ManaColor.Red => match s with
      | Red | BlueRed | BlackRed | RedWhite | RedGreen | TwoRed | PhyrexianRed
      | PhyrexianBlueRed | PhyrexianBlackRed | PhyrexianRedWhite | PhyrexianRedGreen
      | ColorlessRed => true
      | _ => false end
  | ManaColor.Green => match s with
      | Green | BlackGreen | RedGreen | GreenWhite | GreenBlue | TwoGreen | PhyrexianGreen
      | PhyrexianBlackGreen | PhyrexianRedGreen | PhyrexianGreenWhite | PhyrexianGreenBlue
      | ColorlessGreen => true
      | _ => false end
  end.

(** CR 202.3f. *)
Definition mana_value_contribution (s : t) : N :=
  match s with
  | TwoWhite | TwoBlue | TwoBlack | TwoRed | TwoGreen => 2
  | X => 0
  | White | Blue | Black | Red | Green | Colorless | Snow | TwoOrMoreColorSource
  | WhiteBlue | WhiteBlack | BlueBlack | BlueRed | BlackRed | BlackGreen | RedWhite
  | RedGreen | GreenWhite | GreenBlue | PhyrexianWhite | PhyrexianBlue | PhyrexianBlack
  | PhyrexianRed | PhyrexianGreen | PhyrexianWhiteBlue | PhyrexianWhiteBlack
  | PhyrexianBlueBlack | PhyrexianBlueRed | PhyrexianBlackRed | PhyrexianBlackGreen
  | PhyrexianRedWhite | PhyrexianRedGreen | PhyrexianGreenWhite | PhyrexianGreenBlue
  | ColorlessWhite | ColorlessBlue | ColorlessBlack | ColorlessRed | ColorlessGreen => 1
  end.

Definition from_str (s : string) : outcome string t :=
  match s with
  | "W" => Ok White
  | "U" => Ok Blue
  | "B" => Ok Black
  | "R" => Ok Red
  | "G" => Ok Green
  | "C" => Ok Colorless
  | "S" => Ok Snow
  | "X" => Ok X
  | "Z" => Ok TwoOrMoreColorSource
  | "W/U" => Ok WhiteBlue
  | "W/B" => Ok WhiteBlack
  | "U/B" => Ok BlueBlack
  | "U/R" => Ok BlueRed
  | "B/R" => Ok BlackRed
  | "B/G" => Ok BlackGreen
  | "R/W" => Ok RedWhite
  | "R/G" => Ok RedGreen
  | "G/W" => Ok GreenWhite
  | "G/U" => Ok GreenBlue
  | "2/W" => Ok TwoWhite
  | "2/U" => Ok TwoBlue
  | "2/B" => Ok TwoBlack
  | "2/R" => Ok TwoRed
  | "2/G" => Ok TwoGreen
  | "W/P" => Ok PhyrexianWhite
  | "U/P" => Ok PhyrexianBlue
  | "B/P" => Ok PhyrexianBlack
  | "R/P" => Ok PhyrexianRed
  | "G/P" => Ok PhyrexianGreen
  | "W/U/P" => Ok PhyrexianWhiteBlue
  | "W/B/P" => Ok PhyrexianWhiteBlack
  | "U/B/P" => Ok PhyrexianBlueBlack
  | "U/R/P" => Ok PhyrexianBlueRed
  | "B/R/P" => Ok PhyrexianBlackRed
  | "B/G/P" => Ok PhyrexianBlackGreen
  | "R/W/P" => Ok PhyrexianRedWhite
  | "R/G/P" => Ok PhyrexianRedGreen
  | "G/W/P" => Ok PhyrexianGreenWhite
  | "G/U/P" => Ok PhyrexianGreenBlue
  | "C/W" => Ok ColorlessWhite
  | "C/U" => Ok ColorlessBlue
  | "C/B" => Ok ColorlessBlack
  | "C/R" => Ok ColorlessRed
  | "C/G" => Ok ColorlessGreen
  | _ => Err ("Unknown mana cost shard: " +:+ s)
  end%string.

End ManaCostShard.

(** ** The tables agree with one another *)

(** Printing and reading a mana symbol are inverse: every symbol reads back as
    itself, and only its own text reads as it. *)
Lemma from_str_symbol (sh : ManaCostShard.t) (s : string) :
  ManaCostShard.from_str s = Ok sh ↔ s = ManaCostShard.symbol sh.
Proof.
  split; [|by intros ->; destruct sh].
  unfold ManaCostShard.from_str.
  repeat (case_match; try done); by intros [= <-].
Qed.

(** What a hybrid symbol and its two halves have in common. *)
Definition hybrid_of (s a b : ManaCostShard.t) : Prop :=
  (∀ c, ManaCostShard.contributes_to s c
        = ManaCostShard.contributes_to a c || ManaCostShard.contributes_to b c) ∧
  (∃ ts ta tb, ManaCostShard.single_mana_payment_types s = Some ts ∧
     ManaCostShard.single_mana_payment_types a = Some ta ∧
     ManaCostShard.single_mana_payment_types b = Some tb ∧
     ∀ m, ManaTypeSet.contains ts m = ManaTypeSet.contains ta m || ManaTypeSet.contains tb m) ∧
  ManaCostShard.mana_value_contribution s
    = N.max (ManaCostShard.mana_value_contribution a) (ManaCostShard.mana_value_contribution b) ∧
  ManaCostShard.announceable_halves a = None ∧ ManaCostShard.announceable_halves b = None ∧
  a ≠ b.

(** Announcing a hybrid symbol as one of its halves is faithful in every table:
    the mana that pays it is the union of what pays the halves, its colors are
    theirs, its mana value the larger of theirs, and neither half is itself a
    hybrid. *)
Theorem announceable_halves_faithful (s a b : ManaCostShard.t) :
  ManaCostShard.announceable_halves s = Some (a, b) → hybrid_of s a b.
Proof.
  destruct s; intros [= <- <-]; (split_and!; [by intros []| |done..]);
    (do 3 eexists; split_and!; [done..|by intros []]).
Qed.

Lemma announceable_halves_faithful_witness :
  hybrid_of ManaCostShard.GreenBlue ManaCostShard.Green ManaCostShard.Blue.
Proof. apply (announceable_halves_faithful ManaCostShard.GreenBlue). reflexivity. Defined.

Lemma payment_types_wf s ts :
  ManaCostShard.single_mana_payment_types s = Some ts → ManaTypeSet.wf ts.
Proof.
  destruct s; intros [= <-];
    auto using ManaTypeSet.wf_of, ManaTypeSet.wf_with.
Qed.
