(* ===== verification/Text.v ===== *)
(** * Byte-level text of the Rust standard library

    A Rust [&str] is the list of its UTF-8 bytes.  The [str] methods the modelled
    code calls ([trim], [split], [split_whitespace], [trim_end_matches],
    [to_ascii_uppercase], [eq_ignore_ascii_case], [parse::<u32>], [to_string])
    with the lemmas about them. *)
From S2P Require Import Prelude.
From Stdlib Require Import Ascii.
Local Open Scope N_scope.

Section text.
Local Open Scope char_scope.

Definition bytes : Type := list ascii.
Definition of_string : string → bytes := String.list_ascii_of_string.

(** The UTF-8 encodings of the characters with [char::is_whitespace]. *)
Definition byt (n : nat) : ascii := ascii_of_nat n.
Definition whitespace : list bytes :=
  ((λ n, [byt n]) <$> [9; 10; 11; 12; 13; 32]%nat)
  ++ [[byt 194; byt 133]; [byt 194; byt 160]; [byt 225; byt 154; byt 128]]
  ++ ((λ n, [byt 226; byt 128; byt n]) <$> (seq 128 11 ++ [168; 169; 175]%nat))
  ++ [[byt 226; byt 129; byt 159]; [byt 227; byt 128; byt 128]].

Definition starts_with (p s : bytes) : bool := bool_decide (take (length p) s = p).

Fixpoint strip (fuel : nat) (ws : list bytes) (s : bytes) : bytes :=
  match fuel with
  | O => s
  | S fuel =>
      match find_first (λ w, starts_with w s) ws with
      | Some w => strip fuel ws (drop (length w) s)
      | None => s
      end
  end.
Definition trim_start (s : bytes) : bytes := strip (length s) whitespace s.
Definition trim_end (s : bytes) : bytes :=
  reverse (strip (length s) (reverse <$> whitespace) (reverse s)).
Definition trim (s : bytes) : bytes := trim_end (trim_start s).

(** [s.split(c)] *)
Fixpoint split_char (c : ascii) (s : bytes) : list bytes :=
  match s with
  | [] => [[]]
  | x :: s' =>
      if Ascii.eqb x c then [] :: split_char c s'
      else match split_char c s' with
           | h :: t => (x :: h) :: t
           | [] => [[x]]
           end
  end.

(** [s.trim_end_matches('}')] *)
Fixpoint drop_while_eq (c : ascii) (s : bytes) : bytes :=
  match s with
  | [] => []
  | x :: s' => if Ascii.eqb x c then drop_while_eq c s' else s
  end.
Definition trim_end_matches (c : ascii) (s : bytes) : bytes := reverse (drop_while_eq c (reverse s)).

Definition to_ascii_upper (x : ascii) : ascii :=
  let n := nat_of_ascii x in
  if (97 <=? n)%nat && (n <=? 122)%nat then ascii_of_nat (n - 32) else x.

Definition digit_value (x : ascii) : option N :=
  let n := nat_of_ascii x in
  if (48 <=? n)%nat && (n <=? 57)%nat then Some (N.of_nat (n - 48)) else None.

(** [str::parse::<u32>]: an optional leading [+], then digits, checked. *)
Fixpoint parse_digits (acc : N) (s : bytes) : option N :=
  match s with
  | [] => Some acc
  | x :: s' =>
      d ← digit_value x;
      let acc := (acc * 10 + d)%N in
      if (acc <? 2 ^ 32)%N then parse_digits acc s' else None
  end.
Definition parse_u32 (s : bytes) : option N :=
  match s with
  | [] => None
  | ["+"] | ["-"] => None
  | "+" :: s' => parse_digits 0 s'
  | _ => parse_digits 0 s
  end.

(** [u32::to_string]; ten digits are enough below [2^32]. *)
Fixpoint digits (fuel : nat) (n : N) : bytes :=
  match fuel with
  | O => []
  | S fuel =>
      if (n <? 10)%N then [ascii_of_nat (48 + N.to_nat n)]
      else digits fuel (n / 10) ++ [ascii_of_nat (48 + N.to_nat (n mod 10))]
  end.
Definition u32_to_string (n : N) : bytes := digits 10 n.

(** [s.split(pat)] for a non-empty pattern; [skip] bytes of a match are left. *)
Fixpoint split_go (pat : bytes) (skip : nat) (cur s : bytes) : list bytes :=
  match s with
  | [] => [reverse cur]
  | x :: s' =>
      match skip with
      | S skip => split_go pat skip cur s'
      | O =>
          if starts_with pat s then reverse cur :: split_go pat (length pat - 1) [] s'
          else split_go pat 0 (x :: cur) s'
      end
  end.
Definition split_on (pat s : bytes) : list bytes := split_go pat 0 [] s.

(** [s.split_whitespace()]: the non-empty runs between whitespace characters. *)
Fixpoint split_ws_go (skip : nat) (cur s : bytes) : list bytes :=
  match s with
  | [] => [reverse cur]
  | x :: s' =>
      match skip with
      | S skip => split_ws_go skip cur s'
      | O =>
          match find_first (λ w, starts_with w s) whitespace with
          | Some w => reverse cur :: split_ws_go (length w - 1) [] s'
          | None => split_ws_go 0 (x :: cur) s'
          end
      end
  end.
Definition split_whitespace (s : bytes) : list bytes :=
  List.filter (λ w, negb (bool_decide (w = []))) (split_ws_go 0 [] s).

(** [str::eq_ignore_ascii_case] *)
Definition eq_ignore_ascii_case (s s' : bytes) : bool :=
  bool_decide (to_ascii_upper <$> s = to_ascii_upper <$> s').
End text.

Section lemmas.
Local Open Scope nat_scope.
Implicit Types s : bytes.

Lemma split_char_no c s : c ∉ s → split_char c s = [s].
Proof.
  induction s as [|x s IH]; [done|]. intros [Hx Hs]%not_elem_of_cons. simpl.
  destruct (Ascii.eqb_spec x c) as [->|]; [done|]. by rewrite IH.
Qed.

Lemma split_char_app c s s' :
  c ∉ s → split_char c (s ++ c :: s') = s :: split_char c s'.
Proof.
  induction s as [|x s IH]; simpl.
  - intros _. by rewrite Ascii.eqb_refl.
  - intros [Hx Hs]%not_elem_of_cons. destruct (Ascii.eqb_spec x c) as [->|]; [done|].
    by rewrite IH.
Qed.

Lemma strip_none fuel ws s :
  (∀ w, w ∈ ws → starts_with w s = false) → strip fuel ws s = s.
Proof.
  intros H. destruct fuel; [done|]. simpl.
  by rewrite (proj2 (find_first_None (λ w, starts_with w s) ws) H).
Qed.

Lemma starts_with_head w x s :
  w ≠ [] → head w ≠ Some x → starts_with w (x :: s) = false.
Proof.
  destruct w as [|y w]; [done|]. intros _ Hne. unfold starts_with.
  apply bool_decide_eq_false_2. intros [= ->]. done.
Qed.

(** Decimal digits. *)
Definition is_digit (x : ascii) : bool :=
  let n := nat_of_ascii x in (48 <=? n) && (n <=? 57).

Lemma digit_char_facts d :
  (d < 10)%N → let x := ascii_of_nat (48 + N.to_nat d) in
  digit_value x = Some d ∧ is_digit x = true ∧ to_ascii_upper x = x.
Proof.
  intros Hd x.
  assert (nat_of_ascii x = 48 + N.to_nat d) as Hx by (apply nat_ascii_embedding; lia).
  unfold digit_value, is_digit, to_ascii_upper. rewrite Hx.
  destruct (Nat.leb_spec 48 (48 + N.to_nat d)), (Nat.leb_spec (48 + N.to_nat d) 57),
    (Nat.leb_spec 97 (48 + N.to_nat d)); try lia.
  split_and!; [|done..]. cbn [andb]. f_equal. lia.
Qed.

Lemma parse_digits_snoc acc s x d :
  digit_value x = Some d →
  parse_digits acc (s ++ [x]) =
    a ← parse_digits acc s; if (a * 10 + d <? 2 ^ 32)%N then Some (a * 10 + d)%N else None.
Proof.
  intros Hd. revert acc. induction s as [|y s IH]; intros acc; cbn -[N.ltb N.pow N.mul].
  - rewrite Hd. simpl. by destruct (_ <? _)%N.
  - destruct (digit_value y) as [e|]; [|done]. cbn -[N.ltb N.pow N.mul].
    destruct (_ <? _)%N; [|done]. by rewrite IH.
Qed.

Lemma one_digit d :
  (d < 10)%N → let s := [ascii_of_nat (48 + N.to_nat d)] in
  s ≠ [] ∧ Forall (λ x, is_digit x = true ∧ to_ascii_upper x = x) s ∧
  parse_digits 0 s = Some d.
Proof.
  intros Hd s. pose proof (digit_char_facts d Hd) as (Hv&Hi&Hu).
  subst s. generalize dependent (ascii_of_nat (48 + N.to_nat d)). intros x Hv Hi Hu.
  split_and!; [done|by constructor|]. simpl. rewrite Hv. cbn -[N.ltb N.pow].
  rewrite (proj2 (N.ltb_lt _ _)); [done|]. trans 10%N; done.
Qed.

Lemma digits_spec fuel n :
  (n < 10 ^ N.of_nat (S fuel))%N → (n < 2 ^ 32)%N →
  digits (S fuel) n ≠ [] ∧ Forall (λ x, is_digit x = true ∧ to_ascii_upper x = x) (digits (S fuel) n) ∧
  parse_digits 0 (digits (S fuel) n) = Some n.
Proof.
  revert n. induction fuel as [|fuel IH]; intros n Hn Hw.
  - change (10 ^ N.of_nat 1)%N with 10%N in Hn.
    cbn [digits]. rewrite (proj2 (N.ltb_lt _ _)) by done. by apply one_digit.
  - remember (S fuel) as f. cbn [digits]. destruct (N.ltb_spec n 10) as [Hlt|Hge].
    { by apply one_digit. }
    pose proof (N.div_mod' n 10). pose proof (N.mod_lt n 10 ltac:(done)).
    destruct (IH (n / 10)%N) as (Hne&Hall&Hp).
    { rewrite Nat2N.inj_succ, N.pow_succ_r' in Hn. apply N.Div0.div_lt_upper_bound. lia. }
    { eapply N.le_lt_trans; [apply (N.Div0.div_le_upper_bound n 10 n); lia|done]. }
    pose proof (digit_char_facts (n mod 10)) as (Hv&Hd&Hu); [done|].
    split_and!; [by destruct (digits f (n / 10))|apply Forall_app; split; [done|]|].
    { by apply one_digit. }
    rewrite (parse_digits_snoc _ _ _ _ Hv), Hp. cbn [mbind option_bind].
    replace (n / 10 * 10 + n mod 10)%N with n by lia.
    by rewrite (proj2 (N.ltb_lt _ _)) by done.
Qed.
End lemmas.
