(* ===== verification/ManaCosts.v ===== *)
(** * Mana costs ([ManaCost] of [crates/phase-ast/src/types/mana.rs])

    The cost type and its arithmetic, the reader of printed costs
    ([parse_mtgjson_mana_cost]) with the printer of
    [crates/phase-llm/src/render/text.rs], the per-color tally of spent mana, and
    the cost comparison [is_payable_whenever], whose bipartite matching
    ([match_shard], Kuhn's algorithm) recurses with fuel. *)
From S2P Require Import Prelude Text GameTypes ManaSymbols.
From Stdlib Require Import Ascii.
Local Open Scope N_scope.

Module ManaCost.
Inductive t :=
  | NoCost
  | Cost (shards : list ManaCostShard.t) (generic : N)
  | SelfManaCost
  | SelfManaValue
  | SelfManaCostReduced (reduction : N).
#[global] Instance t_eq_dec : EqDecision t.
Proof. solve_decision. Defined.

Definition zero : t := Cost [] 0.
Definition is_without_paying_mana (c : t) : bool :=
  match c with
  | NoCost => true
  | Cost shards generic => bool_decide (shards = []) && (generic =? 0)
  | SelfManaCost | SelfManaValue | SelfManaCostReduced _ => false
  end.
Definition reduced_by_generic (c : t) (reduction : N) : t :=
  match c with
  | Cost shards generic => Cost shards (generic - reduction)
  | other => other
  end.
Definition generic_ (amount : N) : t := Cost [] amount.

(** [iter().sum::<u32>()] *)
Definition shard_total (shards : list ManaCostShard.t) : N :=
  fold_left (λ acc s, u32_add acc (ManaCostShard.mana_value_contribution s)) shards 0.

Definition mana_value (c : t) : N :=
  match c with
  | NoCost | SelfManaCost | SelfManaValue | SelfManaCostReduced _ => 0
  | Cost shards generic => u32_add (shard_total shards) generic
  end.

Definition reduced_generic_by (c reduction : t) : t :=
  match c with
  | Cost shards generic => Cost shards (generic - mana_value reduction)
  | NoCost | SelfManaCost | SelfManaValue | SelfManaCostReduced _ => c
  end.

Definition is_x (s : ManaCostShard.t) : bool :=
  match s with ManaCostShard.X => true | _ => false end.
Definition count (p : ManaCostShard.t → bool) (l : list ManaCostShard.t) : nat :=
  length (List.filter p l).

Definition has_x (c : t) : bool :=
  match c with
  | NoCost | SelfManaCost | SelfManaValue | SelfManaCostReduced _ => false
  | Cost shards _ => existsb is_x shards
  end.

(** The count saturates at [i32::MAX]. *)
Definition count_colored_pips (c : t) (color : option ManaColor.t) : Z :=
  match c with
  | Cost shards _ =>
      let n := Z.of_nat (count (λ shard,
        match color with
        | Some c => ManaCostShard.contributes_to shard c
        | None => existsb (ManaCostShard.contributes_to shard) ManaColor.ALL
        end) shards) in
      if (n <? 2 ^ 31)%Z then n else (2 ^ 31 - 1)%Z
  | NoCost | SelfManaCost | SelfManaValue | SelfManaCostReduced _ => 0%Z
  end.

Definition x_symbol_count (c : t) : N :=
  match c with
  | NoCost | SelfManaCost | SelfManaValue | SelfManaCostReduced _ => 0
  | Cost shards _ => wrap 32 (N.of_nat (count is_x shards))
  end.

Definition mana_value_with_x (c : t) (zone : Zone.t) (cost_x_paid : option N) : N :=
  u32_add (mana_value c)
    match zone with
    | Zone.Stack => u32_mul (default 0 cost_x_paid) (x_symbol_count c)
    | _ => 0
    end.

Definition concrete_part (c : t) : list ManaCostShard.t * N :=
  match c with Cost shards generic => (shards, generic) | _ => ([], 0) end.

Definition plus (c other : t) : t :=
  let '(a_shards, a_generic) := concrete_part c in
  let '(b_shards, b_generic) := concrete_part other in
  if bool_decide (a_shards = []) && bool_decide (b_shards = [])
     && (a_generic =? 0) && (b_generic =? 0)
  then zero
  else Cost (a_shards ++ b_shards) (u32_add a_generic b_generic).

Definition scaled (c : t) (factor : N) : t :=
  if factor =? 0 then zero
  else match c with
       | Cost shards generic =>
           Cost (concat (replicate (N.to_nat factor) shards)) (u32_mul generic factor)
       | other => other
       end.

Definition concretize_x (c : t) (value : N) : t :=
  match c with
  | Cost shards generic =>
      let x_count := count is_x shards in
      if (x_count =? 0)%nat then c
      else Cost (List.filter (λ s, negb (is_x s)) shards)
             (u32_add generic (u32_mul value (wrap 32 (N.of_nat x_count))))
  | _ => c
  end.
End ManaCost.

(** ** Comparing what pays two costs *)
Section matching.
Context (mine theirs : list ManaTypeSet.t).

(** [matched] and [visited], both mutated in place. *)
Abbreviation kuhn := (list (option nat) * list bool)%type.

(** The [for candidate] loop of one call; [rec] is the recursive call.  [None] is
    an index out of range (or the end of the fuel below). *)
Fixpoint match_loop (rec : nat → kuhn → option (bool * kuhn)) (index : nat)
    (candidates : list nat) (st : kuhn) : option (bool * kuhn) :=
  match candidates with
  | [] => Some (false, st)
  | candidate :: rest =>
      let '(matched, visited) := st in
      seen ← visited !! candidate;
      their ← theirs !! candidate;
      my ← mine !! index;
      if seen || negb (ManaTypeSet.is_subset_of their my)
      then match_loop rec index rest st
      else
        let visited := <[candidate := true]> visited in
        holder ← matched !! candidate;
        match holder with
        | None => Some (true, (<[candidate := Some index]> matched, visited))
        | Some holder =>
            '(free, (matched, visited)) ← rec holder (matched, visited);
            if (free : bool)
            then Some (true, (<[candidate := Some index]> matched, visited))
            else match_loop rec index rest (matched, visited)
        end
  end.

Fixpoint match_shard (fuel : nat) (index : nat) (st : kuhn) : option (bool * kuhn) :=
  match fuel with
  | O => None
  | S fuel => match_loop (match_shard fuel) index (seq 0 (length theirs)) st
  end.

(** [(0..mine.len()).all(..)]: each index gets a fresh [visited], [matched]
    persists; a depth of [theirs.len() + 1] is never exceeded. *)
Fixpoint match_all (indices : list nat) (matched : list (option nat)) : option (bool * list (option nat)) :=
  match indices with
  | [] => Some (true, matched)
  | index :: rest =>
      '(free, (matched, _)) ←
        match_shard (S (length theirs)) index (matched, replicate (length theirs) false);
      if (free : bool) then match_all rest matched else Some (false, matched)
  end.
End matching.

Definition is_payable_whenever (c other : ManaCost.t) : option bool :=
  match c, other with
  | ManaCost.Cost mine _, ManaCost.Cost theirs _ =>
      if (ManaCost.mana_value other <? ManaCost.mana_value c)
         || (length theirs <? length mine)%nat
      then Some false
      else
        match mapM ManaCostShard.single_mana_payment_types mine with
        | None => Some false
        | Some mine =>
            match mapM ManaCostShard.single_mana_payment_types theirs with
            | None => Some false
            | Some theirs =>
                fst <$> match_all mine theirs (seq 0 (length mine))
                          (replicate (length theirs) None)
            end
        end
  | _, _ => Some false
  end.

(** ** Reading and printing costs *)
Section text.
Local Open Scope char_scope.

Definition parse_segment (acc : N * list ManaCostShard.t) (segment : bytes)
    : N * list ManaCostShard.t :=
  let '(generic, shards) := acc in
  let symbol := to_ascii_upper <$> trim_end_matches "}" segment in
  match ManaCostShard.from_str (String.string_of_list_ascii symbol) with
  | Ok shard => (generic, shards ++ [shard])
  | _ =>
      match parse_u32 symbol with
      | Some n => (u32_add generic n, shards)
      | None => (generic, shards)
      end
  end.

Definition parse_mtgjson_mana_cost (s : bytes) : ManaCost.t :=
  let s := trim s in
  if bool_decide (s = []) then ManaCost.NoCost
  else
    let '(generic, shards) :=
      fold_left parse_segment
        (List.filter (λ seg, negb (bool_decide (seg = []))) (split_char "{" s)) (0%N, []) in
    ManaCost.Cost shards generic.

Definition braced (s : bytes) : bytes := "{" :: s ++ ["}"].

Definition mana_cost_text (c : ManaCost.t) : bytes :=
  match c with
  | ManaCost.Cost shards generic =>
      if bool_decide (shards = []) && (generic =? 0)%N then braced ["0"]
      else (if (0 <? generic)%N then braced (u32_to_string generic) else [])
           ++ concat ((λ s, braced (of_string (ManaCostShard.symbol s))) <$> shards)
  | ManaCost.NoCost | ManaCost.SelfManaCost | ManaCost.SelfManaValue
  | ManaCost.SelfManaCostReduced _ => []
  end.
End text.

(** ** The tally of mana spent per color *)
Module ColoredManaCount.
Record t := { white : N; blue : N; black : N; red : N; green : N }.
Definition zero : t := {| white := 0; blue := 0; black := 0; red := 0; green := 0 |}.
Definition get (k : t) (c : ManaColor.t) : N :=
  match c with
  | ManaColor.White => white k
  | ManaColor.Blue => blue k
  | ManaColor.Black => black k
  | ManaColor.Red => red k
  | ManaColor.Green => green k
  end.
Definition add (k : t) (c : ManaColor.t) (n : N) : t :=
  let '(Build_t w u b r g) := k in
  match c with
  | ManaColor.White => Build_t (u32_add w n) u b r g
  | ManaColor.Blue => Build_t w (u32_add u n) b r g
  | ManaColor.Black => Build_t w u (u32_add b n) r g
  | ManaColor.Red => Build_t w u b (u32_add r n) g
  | ManaColor.Green => Build_t w u b r (u32_add g n)
  end.
(** [add_unit] reads only the unit's color. *)
Definition add_unit (k : t) (unit_color : ManaType.t) : t :=
  match unit_color with
  | ManaType.White => add k ManaColor.White 1
  | ManaType.Blue => add k ManaColor.Blue 1
  | ManaType.Black => add k ManaColor.Black 1
  | ManaType.Red => add k ManaColor.Red 1
  | ManaType.Green => add k ManaColor.Green 1
  | ManaType.Colorless => k
  end.
Definition is_empty (k : t) : bool :=
  (white k =? 0) && (blue k =? 0) && (black k =? 0) && (red k =? 0) && (green k =? 0).
Definition distinct_colors (k : t) : nat :=
  length (List.filter (λ c, 0 <? get k c) ManaColor.ALL).
End ColoredManaCount.

(** ** Arithmetic of costs *)
Section arithmetic.
Implicit Types (shards : list ManaCostShard.t) (c : ManaCost.t).

Abbreviation contribution := ManaCostShard.mana_value_contribution.
Definition sum_contribution shards : N := foldr (λ s acc, contribution s + acc) 0 shards.

Lemma shard_total_sum shards : ManaCost.shard_total shards = wrap 32 (sum_contribution shards).
Proof.
  unfold ManaCost.shard_total.
  enough (∀ a, fold_left (λ acc s, u32_add acc (contribution s)) shards (wrap 32 a)
    = wrap 32 (a + sum_contribution shards)) as H by apply (H 0).
  induction shards as [|s shards IH]; intros a; simpl; [by rewrite N.add_0_r|].
  rewrite wadd_wrap_l. unfold wadd. rewrite IH. f_equal. lia.
Qed.

Lemma mana_value_cost shards generic :
  ManaCost.mana_value (ManaCost.Cost shards generic)
    = wrap 32 (sum_contribution shards + generic).
Proof. simpl. by rewrite shard_total_sum, wadd_wrap_l. Qed.

Lemma sum_contribution_app s1 s2 :
  sum_contribution (s1 ++ s2) = sum_contribution s1 + sum_contribution s2.
Proof. induction s1; simpl; lia. Qed.

Lemma sum_contribution_replicate n shards :
  sum_contribution (concat (replicate n shards)) = N.of_nat n * sum_contribution shards.
Proof. induction n; simpl; rewrite ?sum_contribution_app; lia. Qed.

Lemma sum_contribution_filter_x shards :
  sum_contribution (List.filter (λ s, negb (ManaCost.is_x s)) shards) = sum_contribution shards.
Proof. induction shards as [|[] ? IH]; simpl; rewrite ?IH; done. Qed.

Lemma mana_value_concrete c :
  ManaCost.mana_value c
    = wrap 32 (sum_contribution (ManaCost.concrete_part c).1 + (ManaCost.concrete_part c).2).
Proof. destruct c; try done. apply mana_value_cost. Qed.

(** Aggregating costs adds their mana values, and scaling a concrete cost
    multiplies it, both modulo [2^32]: no symbol is lost or double-counted. *)
Theorem mana_value_homomorphic c1 c2 factor :
  ManaCost.mana_value (ManaCost.plus c1 c2)
    = u32_add (ManaCost.mana_value c1) (ManaCost.mana_value c2) ∧
  (ManaCost.mana_value (ManaCost.scaled c1 factor)
    = u32_mul (ManaCost.mana_value c1) factor).
Proof.
  split.
  - unfold ManaCost.plus. rewrite (mana_value_concrete c1), (mana_value_concrete c2).
    destruct (ManaCost.concrete_part c1) as [s1 g1], (ManaCost.concrete_part c2) as [s2 g2].
    rewrite wadd_wrap_l, wadd_wrap_r. destruct (_ && _) eqn:Hz.
    + breflect. by subst.
    + rewrite mana_value_cost, sum_contribution_app. wrap_solve.
  - unfold ManaCost.scaled. destruct (factor =? 0) eqn:Hf; breflect.
    { subst. unfold wmul. by rewrite N.mul_0_r. }
    destruct c1 as [|shards generic| | |]; try done.
    rewrite !mana_value_cost, sum_contribution_replicate, N2Nat.id. wrap_solve.
Qed.

(** Committing to X: replacing every [{X}] by generic mana gives the cost the
    mana value the original has on the stack for that X, and leaves no [{X}]. *)
Theorem concretize_x_mana_value c value :
  ManaCost.mana_value (ManaCost.concretize_x c value)
    = ManaCost.mana_value_with_x c Zone.Stack (Some value) ∧
  ManaCost.has_x (ManaCost.concretize_x c value) = false.
Proof.
  assert (0 = u32_add 0 (u32_mul value 0)) as H0.
  { unfold wadd, wmul. by rewrite N.mul_0_r. }
  destruct c as [|shards generic| | |]; try (split; [exact H0|done]). simpl.
  destruct (_ =? 0)%nat eqn:Hx; breflect.
  - unfold ManaCost.mana_value_with_x, ManaCost.x_symbol_count. simpl default.
    rewrite Hx. split.
    + rewrite mana_value_cost. wrap_solve.
    + simpl. unfold ManaCost.count in Hx. apply length_zero_iff_nil in Hx.
      apply not_true_iff_false. intros (x&Hin&Hxx)%existsb_exists.
      assert (x ∈ List.filter ManaCost.is_x shards) as Hf.
      { apply list_elem_of_In, filter_In. done. }
      rewrite Hx in Hf. by apply elem_of_nil in Hf.
  - unfold ManaCost.mana_value_with_x, ManaCost.x_symbol_count. simpl default. split.
    + rewrite !mana_value_cost, sum_contribution_filter_x. wrap_solve.
    + apply not_true_iff_false. simpl. intros (x&Hin&Hxx)%existsb_exists.
      apply filter_In in Hin as [_ Hn]. by rewrite Hxx in Hn.
Qed.
End arithmetic.

(** ** Soundness of the matching *)
Section kuhn.
Local Open Scope nat_scope.
Context (mine theirs : list ManaTypeSet.t).
Implicit Types (m : list (option nat)) (v : list bool).

(** The indices currently holding a shard. *)
Definition holders m : list nat := omap id m.

Record kuhn_inv m : Prop := {
  ki_len : length m = length theirs;
  ki_ok c i : m !! c = Some (Some i) →
    ∃ my their, mine !! i = Some my ∧ theirs !! c = Some their ∧
      ManaTypeSet.is_subset_of their my = true;
}.

Lemma holders_split m c o :
  m !! c = Some o →
  ∃ R, holders m ≡ₚ option_list o ++ R ∧
    ∀ o', holders (<[c := o']> m) ≡ₚ option_list o' ++ R.
Proof.
  intros Hc. pose proof (lookup_lt_Some _ _ _ Hc) as Hlt.
  exists (holders (take c m) ++ holders (drop (S c) m)). split.
  - rewrite <-(take_drop_middle m c o Hc) at 1. unfold holders. rewrite omap_app.
    destruct o; simpl; [by rewrite Permutation_middle|done].
  - intros o'. rewrite insert_take_drop by done. unfold holders. rewrite omap_app.
    destruct o'; simpl; [by rewrite Permutation_middle|done].
Qed.

Lemma kuhn_inv_insert m c index my their :
  kuhn_inv m → mine !! index = Some my → theirs !! c = Some their →
  ManaTypeSet.is_subset_of their my = true → kuhn_inv (<[c := Some index]> m).
Proof.
  intros [Hl Hok] ???. split; [by rewrite length_insert|].
  intros c' i [(->&[= <-]&_)|[? ?]]%list_lookup_insert_Some; eauto.
Qed.

(** What one augmenting step does. *)
Definition step_post index m v (r : bool * (list (option nat) * list bool)) : Prop :=
  let '(free, (m', v')) := r in
  kuhn_inv m' ∧ length v' = length v ∧
  (∀ c, v !! c = Some true → v' !! c = Some true ∧ m' !! c = m !! c) ∧
  if (free : bool) then holders m' ≡ₚ index :: holders m else m' = m.

Lemma match_loop_post rec index :
  (∀ i m v r, kuhn_inv m → length v = length theirs →
     rec i (m, v) = Some r → step_post i m v r) →
  ∀ cands m v r, kuhn_inv m → length v = length theirs →
    match_loop mine theirs rec index cands (m, v) = Some r → step_post index m v r.
Proof.
  intros Hrec cands. induction cands as [|c cands IH]; intros m v r Hinv Hv; simpl.
  { intros [= <-]. by split_and!. }
  destruct (v !! c) as [seen|] eqn:Hseen; [simpl|done].
  destruct (theirs !! c) as [their|] eqn:Hth; [simpl|done].
  destruct (mine !! index) as [my|] eqn:Hmy; [simpl|done].
  destruct (seen || _) eqn:Hskip; [by apply IH|].
  breflect. subst seen. pose proof (lookup_lt_Some _ _ _ Hseen) as Hc.
  assert (∀ k, v !! k = Some true → <[c := true]> v !! k = Some true) as Hmono.
  { intros k Hk. rewrite list_lookup_insert_ne by (intros <-; congruence). done. }
  destruct (m !! c) as [[holder|]|] eqn:Hm; simpl; [| |done].
  - destruct (rec holder _) as [[free [m1 v1]]|] eqn:Hr; simpl; [|done].
    apply Hrec in Hr as (Hinv1&Hv1&Hkeep&Hpost); [|done|by rewrite length_insert].
    rewrite length_insert in Hv1.
    destruct (Hkeep c) as [Hvc Hmc]; [by apply list_lookup_insert_eq|].
    destruct free; simpl.
    + intros [= <-]. simpl. split_and!; [by eapply kuhn_inv_insert|done| |].
      * intros k Hk. destruct (Hkeep k (Hmono k Hk)) as [? Hmk]. split; [done|].
        rewrite list_lookup_insert_ne by (intros <-; congruence). done.
      * rewrite Hm in Hmc. destruct (holders_split m1 c _ Hmc) as (R&HR&HR').
        rewrite (HR' (Some index)). simpl. f_equiv.
        simpl in HR. rewrite Hpost in HR. by apply (Permutation_cons_inv (a := holder)).
    + subst m1. intros Hl. apply IH in Hl; [|done|by rewrite Hv1].
      destruct r as [free [m' v']], Hl as (?&?&Hkeep'&?). split_and!; [done|congruence| |done].
      intros k Hk. apply Hkeep'. by apply Hkeep, Hmono.
  - intros [= <-]. simpl. split_and!; [by eapply kuhn_inv_insert|by rewrite length_insert| |].
    + intros k Hk. split; [by apply Hmono|].
      rewrite list_lookup_insert_ne by (intros <-; congruence). done.
    + destruct (holders_split m c _ Hm) as (R&HR&HR'). rewrite (HR' (Some index)). simpl.
      by rewrite HR.
Qed.

Lemma match_shard_post fuel index m v r :
  kuhn_inv m → length v = length theirs →
  match_shard mine theirs fuel index (m, v) = Some r → step_post index m v r.
Proof.
  revert index m v r. induction fuel as [|fuel IH]; intros index m v r Hm Hv; simpl; [done|].
  apply match_loop_post; eauto.
Qed.

(** Each call marks a fresh shard, so the recursion is no deeper than the number
    of unmarked ones. *)
Definition unvisited v : nat := length (List.filter negb v).

Lemma unvisited_mark v c :
  v !! c = Some false → S (unvisited (<[c := true]> v)) = unvisited v.
Proof.
  revert c. induction v as [|x v IH]; intros [|c]; simpl; [done..| |].
  - by intros [= ->].
  - intros Hc. unfold unvisited in *. destruct x; simpl; by rewrite IH.
Qed.

Lemma unvisited_mono v v' :
  length v' = length v → (∀ c, v !! c = Some true → v' !! c = Some true) →
  unvisited v' ≤ unvisited v.
Proof.
  revert v'. induction v as [|x v IH]; intros [|x' v']; simpl; [done..|].
  intros [= Hl] Hk. assert (unvisited v' ≤ unvisited v).
  { apply IH; [done|]. intros c. apply (Hk (S c)). }
  unfold unvisited in *. destruct x; simpl.
  - pose proof (Hk 0 eq_refl) as [= ->]. done.
  - destruct x'; simpl; lia.
Qed.

Lemma match_loop_total rec fuel index :
  (∀ i m v r, kuhn_inv m → length v = length theirs →
     rec i (m, v) = Some r → step_post i m v r) →
  (∀ i m v, kuhn_inv m → length v = length theirs → i < length mine →
     unvisited v < fuel → is_Some (rec i (m, v))) →
  index < length mine →
  ∀ cands m v, kuhn_inv m → length v = length theirs →
    Forall (λ c, c < length theirs) cands → unvisited v ≤ fuel →
    is_Some (match_loop mine theirs rec index cands (m, v)).
Proof.
  intros Hpost Htot Hidx cands.
  induction cands as [|c cands IH]; intros m v Hm Hv Hc Hu; simpl; [eauto|].
  inversion_clear Hc as [|?? Hlt Hcs].
  destruct (lookup_lt_is_Some_2 v c) as [seen Hseen]; [by rewrite Hv|]. rewrite Hseen.
  destruct (lookup_lt_is_Some_2 theirs c Hlt) as [their Hth]. rewrite Hth.
  destruct (lookup_lt_is_Some_2 mine index Hidx) as [my Hmy]. rewrite Hmy. simpl.
  destruct (seen || _) eqn:Hskip; [by apply IH|]. breflect. subst seen.
  destruct (lookup_lt_is_Some_2 m c) as [holder Hh]; [by rewrite (ki_len m Hm)|].
  rewrite Hh. simpl. pose proof (unvisited_mark v c Hseen) as Hmark.
  destruct holder as [holder|]; [|eauto].
  destruct (ki_ok m Hm c holder Hh) as (my'&_&Hmy'&_).
  destruct (Htot holder m (<[c := true]> v)) as [[free [m1 v1]] Hr];
    [done|by rewrite length_insert|by eapply lookup_lt_Some|lia|].
  rewrite Hr. simpl. destruct free; [eauto|].
  apply Hpost in Hr as (Hm1&Hv1&Hkeep&->); [|done|by rewrite length_insert].
  rewrite length_insert in Hv1. apply IH; [done|by rewrite Hv1|done|].
  assert (unvisited v1 ≤ unvisited (<[c := true]> v)); [|lia].
  apply unvisited_mono; [by rewrite length_insert|]. intros k Hk. by apply Hkeep.
Qed.

Lemma match_shard_total fuel index m v :
  kuhn_inv m → length v = length theirs → index < length mine → unvisited v < fuel →
  is_Some (match_shard mine theirs fuel index (m, v)).
Proof.
  revert index m v. induction fuel as [|fuel IH]; intros index m v Hm Hv Hi Hu; [lia|].
  simpl. eapply (match_loop_total _ fuel);
    [intros; by eapply match_shard_post|intros; apply IH; done|done..| |lia].
  apply Forall_forall. intros c [_ ?]%elem_of_seq. lia.
Qed.

Lemma match_all_spec indices m :
  kuhn_inv m → Forall (λ i, i < length mine) indices →
  ∃ free m', match_all mine theirs indices m = Some (free, m') ∧ kuhn_inv m' ∧
    (free = true → holders m' ≡ₚ indices ++ holders m).
Proof.
  revert m. induction indices as [|i indices IH]; intros m Hm Hi; cbn -[match_shard].
  { exists true, m. done. }
  inversion_clear Hi as [|?? Hlt His].
  set (v := replicate (length theirs) false).
  assert (length v = length theirs) as Hv by apply length_replicate.
  destruct (match_shard_total (S (length theirs)) i m v) as [[free [m1 v1]] Hr]; [done..| |].
  { unfold unvisited. pose proof (filter_length_le negb v). rewrite Hv in *. lia. }
  rewrite Hr. simpl. apply match_shard_post in Hr as (Hm1&_&_&Hpost); [|done..].
  destruct free; simpl; [|by exists false, m1].
  destruct (IH m1 Hm1 His) as (free&m'&Heq&Hm'&Hh).
  exists free, m'. split_and!; [done..|]. intros Hf. rewrite (Hh Hf), Hpost.
  by rewrite Permutation_middle.
Qed.
End kuhn.

(** ** What a pool of mana can pay *)
Section payability.
Local Open Scope nat_scope.
Implicit Types (pool sel rest : list ManaType.t) (c : ManaCost.t).

(** A pool pays symbols [shards] and [generic] more mana: distinct mana of the
    pool, one of an accepted type for each symbol, and enough left over. *)
Definition pays pool (shards : list ManaTypeSet.t) (generic : N) : Prop :=
  ∃ sel rest, pool ≡ₚ sel ++ rest ∧
    Forall2 (λ ts m, ManaTypeSet.contains ts m = true) shards sel ∧
    N.to_nat generic ≤ length rest.

Definition pool_pays pool c : Prop :=
  match c with
  | ManaCost.Cost shards generic =>
      ∃ ts, mapM ManaCostShard.single_mana_payment_types shards = Some ts ∧ pays pool ts generic
  | _ => False
  end.

(** Reordering the chosen mana along an injective matching. *)
Lemma matching_selects (mine theirs : list ManaTypeSet.t) (m : list (option nat)) sel :
  Forall ManaTypeSet.wf theirs → kuhn_inv mine theirs m →
  Forall2 (λ ts x, ManaTypeSet.contains ts x = true) theirs sel →
  ∃ chosen left, sel ≡ₚ chosen.*2 ++ left ∧ chosen.*1 ≡ₚ holders m ∧
    Forall (λ p, ∃ my, mine !! p.1 = Some my ∧ ManaTypeSet.contains my p.2 = true) chosen.
Proof.
  intros Hwf [Hlen Hok] Hsel. revert m Hlen Hok.
  induction Hsel as [|their x theirs sel Hx Hsel IH]; intros [|o m] Hlen Hok; try done.
  { by exists [], []. }
  inversion_clear Hwf as [|?? Hw Hws].
  destruct (IH Hws m) as (chosen&left&Hs&Hc&Hf); [by simpl in Hlen; lia| |].
  { intros c i Hci. apply (Hok (S c) i Hci). }
  destruct o as [i|].
  - destruct (Hok 0 i eq_refl) as (my&their'&Hmy&[= <-]&Hsub).
    exists ((i, x) :: chosen), left. split_and!; [by rewrite Hs|simpl; by rewrite Hc|].
    constructor; [|done]. exists my. split; [done|].
    by apply (proj1 (ManaTypeSet.is_subset_of_spec their my Hw) Hsub).
  - exists chosen, (x :: left). split_and!; [|done..].
    by rewrite Hs, Permutation_middle.
Qed.

Lemma fst_perm_order {A B} (l : list (A * B)) (k : list A) :
  l.*1 ≡ₚ k → ∃ l', l ≡ₚ l' ∧ l'.*1 = k.
Proof.
  revert l. induction k as [|a k IH]; intros l Hl.
  - apply Permutation_nil_r in Hl. apply fmap_nil_inv in Hl as ->. by exists [].
  - assert (a ∈ l.*1) as Ha by (rewrite Hl; left).
    apply list_elem_of_fmap in Ha as ([a' y]&->&Hin).
    apply elem_of_Permutation in Hin as [l1 Hl1]. rewrite Hl1 in Hl. simpl in Hl.
    apply Permutation_cons_inv in Hl. destruct (IH l1 Hl) as (l'&Hl'&<-).
    exists ((a', y) :: l'). split; [by rewrite Hl1, Hl'|done].
Qed.

Lemma payment_types_contribution shards ts :
  mapM ManaCostShard.single_mana_payment_types shards = Some ts →
  sum_contribution shards = N.of_nat (length shards) ∧
  length ts = length shards ∧ Forall ManaTypeSet.wf ts.
Proof.
  intros H. apply mapM_Some in H. induction H as [|s t shards ts Hs _ IH]; [done|].
  destruct IH as (IH&?&?). split_and!; simpl; [|congruence|].
  - rewrite IH. replace (ManaCostShard.mana_value_contribution s) with 1%N by by destruct s. lia.
  - constructor; [|done]. by eapply payment_types_wf.
Qed.

Lemma is_payable_whenever_inv self other :
  is_payable_whenever self other = Some true →
  ∃ ms mg os og mine theirs m,
    self = ManaCost.Cost ms mg ∧ other = ManaCost.Cost os og ∧
    mapM ManaCostShard.single_mana_payment_types ms = Some mine ∧
    mapM ManaCostShard.single_mana_payment_types os = Some theirs ∧
    (ManaCost.mana_value self ≤ ManaCost.mana_value other)%N ∧
    kuhn_inv mine theirs m ∧ holders m ≡ₚ seq 0 (length mine).
Proof.
  destruct self as [|ms mg| | |], other as [|os og| | |]; simpl; try done.
  destruct (_ || _) eqn:Hle; [done|]. breflect.
  destruct (mapM _ ms) as [mine|] eqn:Hmine; [|done].
  destruct (mapM _ os) as [theirs|] eqn:Htheirs; [|done].
  destruct (match_all_spec mine theirs (seq 0 (length mine)) (replicate (length theirs) None))
    as (free&m&->&Hm&Hh).
  { split; [apply length_replicate|]. intros c i [? _]%lookup_replicate. done. }
  { apply Forall_forall. intros i [_ ?]%elem_of_seq. lia. }
  simpl. intros [= ->]. exists ms, mg, os, og, mine, theirs, m.
  split_and!; try done. rewrite (Hh eq_refl).
  replace (holders (replicate (length theirs) None)) with (@nil nat); [by rewrite app_nil_r|].
  clear. by induction (length theirs).
Qed.

(** [is_payable_whenever] is sound: when it answers yes, every pool of mana
    that can pay [other] can also pay [self], provided [self]'s size fits a [u32].
    The matching it runs always terminates with an answer. *)
Theorem is_payable_whenever_sound ms mg other :
  (N.of_nat (length ms) + mg < 2 ^ 32)%N →
  is_payable_whenever (ManaCost.Cost ms mg) other ≠ None ∧
  (is_payable_whenever (ManaCost.Cost ms mg) other = Some true →
   ∀ pool, pool_pays pool other → pool_pays pool (ManaCost.Cost ms mg)).
Proof.
  intros Hsmall. split.
  { destruct other as [|os og| | |]; simpl; try done. destruct (_ || _); [done|].
    destruct (mapM _ ms) as [mine|]; [|done]. destruct (mapM _ os) as [theirs|]; [|done].
    destruct (match_all_spec mine theirs (seq 0 (length mine)) (replicate (length theirs) None))
      as (free&m&->&_); [| |done].
    { split; [apply length_replicate|]. intros c i [? _]%lookup_replicate. done. }
    apply Forall_forall. intros i [_ ?]%elem_of_seq. lia. }
  intros (ms'&mg'&os&og&mine&theirs&m&[= <- <-]&->&Hmine&Htheirs&Hle&Hinv&Hh)%is_payable_whenever_inv.
  intros pool (theirs'&Ht'&sel&rest&Hpool&Hsel&Hrest). simplify_eq.
  destruct (payment_types_contribution _ _ Hmine) as (Hcm&Hlm&_).
  destruct (payment_types_contribution _ _ Htheirs) as (Hco&Hlo&Hwf).
  rewrite !mana_value_cost, Hcm, Hco in Hle. rewrite (wrap_small 32 (_ + mg)) in Hle by done.
  pose proof (N.Div0.mod_le (N.of_nat (length os) + og) (2 ^ 32)) as Hmod.
  destruct (matching_selects mine theirs m sel Hwf Hinv Hsel) as (chosen&left&Hs&Hc&Hf).
  destruct (fst_perm_order chosen (seq 0 (length mine))) as (l'&Hl'&Hfst);
    [by rewrite Hc, Hh|].
  rewrite Hl' in Hf. exists mine. split; [done|].
  exists (l'.*2), (left ++ rest). split_and!.
  - rewrite Hpool, Hs, Hl'. by rewrite <-app_assoc.
  - apply Forall2_same_length_lookup_2.
    { rewrite length_fmap, <-(length_fmap fst l'), Hfst, length_seq. done. }
    intros i ts x Hts Hx. apply list_lookup_fmap_Some in Hx as ([i' y]&->&Hy).
    rewrite Forall_lookup in Hf. destruct (Hf i _ Hy) as (my&Hmy&Hcon). simpl in *.
    assert (l'.*1 !! i = Some i') as Hi by (by rewrite list_lookup_fmap, Hy).
    rewrite Hfst in Hi. apply lookup_seq in Hi as [-> _]. simpl in *. by simplify_eq.
  - rewrite length_app.
    assert (length theirs = length mine + length left) as Hcount.
    { rewrite (Forall2_length _ _ _ Hsel), Hs, length_app, length_fmap, Hl'.
      by rewrite <-(length_fmap fst l'), Hfst, length_seq. }
    unfold wrap in Hle. lia.
Qed.
End payability.

Section witness.
Import ManaCostShard.
Lemma is_payable_whenever_sound_witness :
  is_payable_whenever (ManaCost.Cost [WhiteBlue; White] 1) (ManaCost.Cost [White; White; Green] 0) ≠ None ∧
  (is_payable_whenever (ManaCost.Cost [WhiteBlue; White] 1) (ManaCost.Cost [White; White; Green] 0) = Some true →
   ∀ pool, pool_pays pool (ManaCost.Cost [White; White; Green] 0) →
           pool_pays pool (ManaCost.Cost [WhiteBlue; White] 1)).
Proof.
  apply (is_payable_whenever_sound [WhiteBlue; White] 1 (ManaCost.Cost [White; White; Green] 0)).
  reflexivity.
Defined.

(** The comparison re-routes earlier choices, and refuses costs of equal mana
    value that different mana pays. *)
Example payable_reroutes :
  is_payable_whenever (ManaCost.Cost [WhiteBlue; White] 1) (ManaCost.Cost [White; White; Green] 0)
    = Some true ∧
  is_payable_whenever (ManaCost.Cost [White; WhiteBlue] 0) (ManaCost.Cost [Green; Blue] 0)
    = Some false ∧
  is_payable_whenever (ManaCost.Cost [WhiteBlue; WhiteBlack] 0) (ManaCost.Cost [White; Blue] 0)
    = Some true.
Proof. vm_compute. done. Qed.
End witness.

(** ** Printed costs read back *)
Section text_roundtrip.
Local Open Scope nat_scope.
Implicit Types (s seg : bytes) (toks : list bytes).

Definition lbrace : ascii := "{"%char.
Definition rbrace : ascii := "}"%char.

(** The text of one symbol between braces. *)
Record token (seg : bytes) : Prop := {
  tok_no_open : lbrace ∉ seg;
  tok_end : last seg ≠ Some rbrace;
}.

Lemma split_tokens toks :
  Forall token toks → toks ≠ [] →
  split_char lbrace (concat (braced <$> toks)) = [] :: ((.++ [rbrace]) <$> toks).
Proof.
  induction toks as [|t toks IH]; [done|]. intros Ht _. inversion_clear Ht as [|?? [Ho He] Hts].
  assert (lbrace ∉ t ++ [rbrace]) as Hnot.
  { rewrite elem_of_app, list_elem_of_singleton. intros [?|[=]]; done. }
  change (split_char lbrace (concat (braced <$> t :: toks)))
    with ([] :: split_char lbrace ((t ++ [rbrace]) ++ concat (braced <$> toks))).
  f_equal. destruct toks as [|t' toks].
  { simpl. rewrite app_nil_r. by apply split_char_no. }
  specialize (IH Hts ltac:(done)).
  change (split_char lbrace (concat (braced <$> t' :: toks)))
    with ([] :: split_char lbrace ((t' ++ [rbrace]) ++ concat (braced <$> toks))) in IH.
  change (concat (braced <$> t' :: toks))
    with (lbrace :: ((t' ++ [rbrace]) ++ concat (braced <$> toks))).
  rewrite split_char_app by done. injection IH as ->. done.
Qed.

Lemma trim_end_matches_token t :
  token t → trim_end_matches rbrace (t ++ [rbrace]) = t.
Proof.
  intros [_ He]. unfold trim_end_matches. rewrite reverse_snoc. simpl.
  destruct t as [|x t _] using rev_ind; [done|].
  rewrite last_snoc in He. rewrite reverse_snoc. simpl.
  destruct (Ascii.eqb_spec x rbrace) as [->|]; [done|].
  by rewrite <-reverse_snoc, reverse_involutive.
Qed.

Lemma whitespace_facts w :
  w ∈ whitespace → w ≠ [] ∧ head w ≠ Some lbrace ∧ reverse w ≠ [] ∧ head (reverse w) ≠ Some rbrace.
Proof.
  assert (forallb (λ w, negb (bool_decide (w = [])) && negb (bool_decide (head w = Some lbrace))
     && negb (bool_decide (reverse w = [])) && negb (bool_decide (head (reverse w) = Some rbrace)))
     whitespace = true) as H by (vm_compute; reflexivity).
  rewrite forallb_forall in H. intros Hw%list_elem_of_In%H.
  rewrite !andb_true_iff, !negb_true_iff, !bool_decide_eq_false in Hw. tauto.
Qed.

Lemma trim_braced toks : Forall token toks → toks ≠ [] →
  trim (concat (braced <$> toks)) = concat (braced <$> toks).
Proof.
  intros Ht Hne. unfold trim, trim_start.
  destruct toks as [|t toks]; [done|]. rewrite strip_none; cycle 1.
  { intros w Hw%whitespace_facts. simpl. apply starts_with_head; tauto. }
  unfold trim_end. clear Ht Hne. revert t toks.
  assert (∀ toks, toks ≠ [] → ∃ s, concat (braced <$> toks) = s ++ [rbrace]) as Hlast.
  { induction toks as [|t [|t' toks] IH]; intros Hne; [done| |].
    - exists (lbrace :: t). simpl. by rewrite app_nil_r.
    - destruct (IH ltac:(done)) as [s Hs]. exists (braced t ++ s).
      change (concat (braced <$> t :: t' :: toks))
        with (braced t ++ concat (braced <$> t' :: toks)).
      by rewrite Hs, app_assoc. }
  intros t toks. destruct (Hlast (t :: toks)) as [s ->]; [done|].
  rewrite reverse_snoc. rewrite strip_none; [by rewrite <-reverse_snoc, reverse_involutive|].
  intros w (w'&->&Hw%whitespace_facts)%list_elem_of_fmap. apply starts_with_head; tauto.
Qed.

Lemma parse_braced toks :
  Forall token toks → toks ≠ [] →
  parse_mtgjson_mana_cost (concat (braced <$> toks)) =
    let '(generic, shards) :=
      fold_left (λ acc t, parse_segment acc (t ++ [rbrace])) toks (0%N, []) in
    ManaCost.Cost shards generic.
Proof.
  intros Ht Hne. unfold parse_mtgjson_mana_cost. rewrite trim_braced by done.
  rewrite bool_decide_eq_false_2 by (by destruct toks).
  rewrite split_tokens by done. simpl.
  assert (∀ l acc, fold_left parse_segment
    (List.filter (λ seg, negb (bool_decide (seg = []))) ((.++ [rbrace]) <$> l)) acc
    = fold_left (λ acc t, parse_segment acc (t ++ [rbrace])) l acc) as ->; [|done].
  induction l as [|t l IH]; intros acc; simpl; [done|].
  rewrite bool_decide_eq_false_2 by (by destruct t). simpl. apply IH.
Qed.

Lemma symbol_token sh : token (of_string (ManaCostShard.symbol sh)).
Proof.
  split; [|by destruct sh].
  apply (bool_decide_unpack _). by destruct sh; vm_compute.
Qed.

Lemma parse_segment_symbol acc sh :
  parse_segment acc (of_string (ManaCostShard.symbol sh) ++ [rbrace])
    = (acc.1, acc.2 ++ [sh]).
Proof.
  destruct acc as [g shs]. unfold parse_segment.
  rewrite trim_end_matches_token by apply symbol_token.
  replace (String.string_of_list_ascii (to_ascii_upper <$> of_string (ManaCostShard.symbol sh)))
    with (ManaCostShard.symbol sh) by by destruct sh.
  by rewrite (proj2 (from_str_symbol sh _) eq_refl).
Qed.

Lemma parse_symbols shs acc :
  fold_left (λ acc t, parse_segment acc (t ++ [rbrace]))
    ((λ sh, of_string (ManaCostShard.symbol sh)) <$> shs) acc = (acc.1, acc.2 ++ shs).
Proof.
  revert acc. induction shs as [|sh shs IH]; intros [g l];
    rewrite ?fmap_nil, ?fmap_cons; cbn [fold_left fst snd]; [by rewrite app_nil_r|].
  rewrite IH, parse_segment_symbol. cbn [fst snd]. by rewrite <-app_assoc.
Qed.

Lemma u32_text n :
  (n < 2 ^ 32)%N →
  token (u32_to_string n) ∧ to_ascii_upper <$> u32_to_string n = u32_to_string n ∧
  parse_u32 (u32_to_string n) = Some n ∧
  ∀ sh, of_string (ManaCostShard.symbol sh) ≠ u32_to_string n.
Proof.
  intros Hn. destruct (digits_spec 9 n) as (Hne&Hall&Hp); [by trans (2 ^ 32)%N|done|].
  change (digits 10 n) with (u32_to_string n) in *.
  rewrite Forall_forall in Hall.
  assert (∀ x, x ∈ u32_to_string n → is_digit x = true) as Hdig by (intros x Hx; by apply Hall).
  split_and!.
  - split; [by intros H%Hdig|].
    intros (l&Hl)%last_Some. assert (is_digit rbrace = true); [|done].
    apply Hdig. rewrite Hl. set_solver.
  - rewrite <-(list_fmap_id (u32_to_string n)) at 2. apply list_fmap_ext.
    intros i x Hx%list_elem_of_lookup_2. by apply Hall in Hx as [].
  - destruct (u32_to_string n) as [|x s] eqn:Hs; [done|]. rewrite <-Hp.
    assert (is_digit x = true) as Hx by (apply Hdig; left).
    unfold parse_u32. destruct x as [[] [] [] [] [] [] [] []]; try done; destruct s; done.
  - intros sh Heq. rewrite <-Heq in Hdig.
    assert (forallb is_digit (of_string (ManaCostShard.symbol sh)) = true) as Hf.
    { apply forallb_forall. intros x Hx%list_elem_of_In. by apply Hdig. }
    by destruct sh.
Qed.

Lemma parse_segment_number acc n :
  (n < 2 ^ 32)%N →
  parse_segment acc (u32_to_string n ++ [rbrace]) = (u32_add acc.1 n, acc.2).
Proof.
  intros Hn. destruct acc as [g shs]. destruct (u32_text n Hn) as (Ht&Hu&Hp&Hs).
  unfold parse_segment. rewrite trim_end_matches_token by done. rewrite Hu, Hp.
  destruct (ManaCostShard.from_str _) as [sh| |] eqn:Hsh; [|done..].
  apply from_str_symbol in Hsh. destruct (Hs sh). unfold of_string.
  by rewrite <-Hsh, String.list_ascii_of_string_of_list_ascii.
Qed.

(** Printing a concrete mana cost and reading the text back gives the same
    cost: every symbol in order, the generic amount exact over the whole [u32]
    range, and the zero cost printed as ["{0}"], which does not read as the
    absence of a cost. *)
Theorem mana_cost_text_roundtrip shards generic :
  (generic < 2 ^ 32)%N →
  parse_mtgjson_mana_cost (mana_cost_text (ManaCost.Cost shards generic))
    = ManaCost.Cost shards generic.
Proof.
  intros Hg.
  set (toks := (if (0 <? generic)%N then [u32_to_string generic] else [])
     ++ ((λ sh, of_string (ManaCostShard.symbol sh)) <$> shards)).
  destruct (bool_decide (shards = []) && (generic =? 0)%N) eqn:Hz.
  { breflect. subst. by vm_compute. }
  assert (mana_cost_text (ManaCost.Cost shards generic) = concat (braced <$> toks)) as ->.
  { unfold mana_cost_text, toks. rewrite Hz, fmap_app, concat_app, <-list_fmap_compose.
    by destruct (0 <? generic)%N; simpl; rewrite ?app_nil_r. }
  rewrite parse_braced; cycle 1.
  - unfold toks. apply Forall_app. split.
    + destruct (_ <? _)%N; constructor; [|done]. by apply u32_text.
    + apply Forall_fmap, Forall_true. intros sh. apply symbol_token.
  - unfold toks. destruct (N.ltb_spec 0 generic); [done|].
    destruct shards; [|done]. replace generic with 0%N in Hz by lia. done.
  - unfold toks. rewrite fold_left_app, parse_symbols. destruct (N.ltb_spec 0 generic).
    + cbn [fold_left]. rewrite parse_segment_number by done. cbn [fst snd app].
      unfold wadd. by rewrite wrap_small.
    + simpl. by replace generic with 0%N by lia.
Qed.

Lemma mana_cost_text_roundtrip_witness :
  parse_mtgjson_mana_cost (mana_cost_text
    (ManaCost.Cost [ManaCostShard.X; ManaCostShard.WhiteBlue] 4294967295))
    = ManaCost.Cost [ManaCostShard.X; ManaCostShard.WhiteBlue] 4294967295.
Proof. apply mana_cost_text_roundtrip. reflexivity. Defined.
End text_roundtrip.
