(* ===== verification/ManaRestrictions.v ===== *)
(** * What mana may be spent on ([crates/phase-ast/src/types/mana.rs])

    The spend restrictions a unit of mana carries, the payments they are checked
    against, and the dispatch that lets a payment use a unit.  Keyword classes
    only matter up to equality here, so the development is parametric in them. *)
From S2P Require Import Prelude Text GameTypes ManaSymbols.
Local Open Scope N_scope.

Module ActivationManaColorConstraint.
Inductive t := Unrestricted | Only (c : ManaColor.t) | Impossible.
Definition permits (k : t) (m : ManaType.t) : bool :=
  match k with
  | Unrestricted => true
  | Only color => bool_decide (m = ManaType.from_color color)
  | Impossible => false
  end.
End ActivationManaColorConstraint.

Module SpecialAction.
Inductive t :=
  | CompanionToHand | UnlockDoor | Plot | TurnFaceUp | RollPlanarDie
  | EndContinuousEffect | Foretell.
#[global] Instance t_eq_dec : EqDecision t.
Proof. solve_decision. Defined.
End SpecialAction.

Module AbilityActivationScope.
Inductive t := OfSpellType | Any.
#[global] Instance t_eq_dec : EqDecision t.
Proof. solve_decision. Defined.
End AbilityActivationScope.

Module ZoneSpendPolarity.
Inductive t := From | NotFrom.
#[global] Instance t_eq_dec : EqDecision t.
Proof. solve_decision. Defined.
End ZoneSpendPolarity.

Record ZoneSpend := { zs_zone : Zone.t; zs_polarity : ZoneSpendPolarity.t }.
#[export] Instance ZoneSpend_eq_dec : EqDecision ZoneSpend.
Proof. solve_decision. Defined.

Section restrictions.
Context {KeywordKind : Type} `{EqDecision KeywordKind}.

(** The spell being paid for. *)
Record SpellMeta := {
  types : list bytes;
  subtypes : list bytes;
  keyword_kinds : list KeywordKind;
  cast_from_zone : option Zone.t;
  meta_mana_value : option N;
  color_count : option N;
  colors : list ManaColor.t;
  has_x_in_cost : bool;
  is_face_down : bool;
  cant_spend_mana : bool;
  spend_only_on_x_colors : option (list ManaColor.t);
  spend_only_on_x_generic_count : N;
}.

Inductive PaymentContext :=
  | Spell (meta : SpellMeta)
  | Activation (source_types source_subtypes : list bytes)
      (ability_tag : option AbilityTag.t)
      (mana_color_constraint : ActivationManaColorConstraint.t)
  | Effect
  | SpecialActionOf (action : SpecialAction.t).

Definition permits_actual_mana_type (ctx : PaymentContext) (m : ManaType.t) : bool :=
  match ctx with
  | Activation _ _ _ constraint => ActivationManaColorConstraint.permits constraint m
  | Spell _ | Effect | SpecialActionOf _ => true
  end.

Inductive SpellCostCriterion :=
  | CriterionManaValue (comparator : Comparator.t) (value : N)
  | HasXInCost.

(** [opt.is_some_and(f)] *)
Definition is_some_and {A} (o : option A) (f : A → bool) : bool :=
  match o with Some a => f a | None => false end.

Definition matches (c : SpellCostCriterion) (meta : SpellMeta) : bool :=
  match c with
  | CriterionManaValue comparator value =>
      is_some_and (meta_mana_value meta)
        (λ mv, Comparator.evaluate comparator (as_i32 mv) (as_i32 value))
  | HasXInCost => has_x_in_cost meta
  end.

Inductive ManaRestriction :=
  | OnlyForSpell
  | OnlyForSpellType (required_type : bytes)
  | OnlyForCreatureType (required_subtype : bytes)
  | OnlyForTypeSpellsOrAbilities (spell_type : bytes) (ability : AbilityActivationScope.t)
  | OnlyForActivation
  | OnlyForTaggedActivation (tag : AbilityTag.t)
  | OnlyForXCosts
  | OnlyForSpellWithKeywordKind (k : KeywordKind)
  | OnlyForSpellWithKeywordKindFromZone (k : KeywordKind) (z : Zone.t)
  | OnlyForSpellWithManaValue (comparator : Comparator.t) (value : N)
  | OnlyForSpellMatchingCostCriteria (spell_type : option bytes)
      (criteria : list SpellCostCriterion)
  | OnlyForSpellWithColorCount (comparator : Comparator.t) (count : N)
  | OnlyForSpellColor (c : ManaColor.t)
  | OnlyForSpellFromZone (zs : ZoneSpend)
  | CannotCastSpellFromZone (z : Zone.t)
  | OnlyForFaceDownSpell
  | OnlyForAny (subs : list ManaRestriction)
  | OnlyForSpecialAction (a : SpecialAction.t)
  | Impossible
  | ConvokePayment.

#[export] Instance SpellCostCriterion_eq_dec : EqDecision SpellCostCriterion.
Proof. solve_decision. Defined.

#[export] Instance ManaRestriction_eq_dec : EqDecision ManaRestriction.
Proof.
  unfold EqDecision, Decision. fix go 1. intros x y.
  decide equality; first [solve_decision | exact (list_eq_dec (dec := go) _ _)].
Defined.

(** [ManaRestriction::matches_required_quality] *)
Definition matches_required_quality (required : bytes) (qualities : list bytes) : bool :=
  existsb (λ alternative,
      forallb (λ part, existsb (λ quality, eq_ignore_ascii_case quality part) qualities)
        (split_whitespace alternative))
    (flat_map (split_on (of_string " and ")) (split_on (of_string " or ") required)).

(** [ManaRestriction::allows_spell] *)
Fixpoint allows_spell (r : ManaRestriction) (meta : SpellMeta) : bool :=
  match r with
  | OnlyForSpell => true
  | OnlyForSpellType required_type =>
      matches_required_quality required_type (types meta ++ subtypes meta)
  | OnlyForCreatureType required_subtype =>
      existsb (λ t, eq_ignore_ascii_case t (of_string "Creature")) (types meta)
      && existsb (λ s, eq_ignore_ascii_case s required_subtype) (subtypes meta)
  | OnlyForTypeSpellsOrAbilities spell_type _ =>
      matches_required_quality spell_type (types meta ++ subtypes meta)
  | OnlyForActivation => false
  | OnlyForTaggedActivation _ => false
  | OnlyForXCosts => has_x_in_cost meta
  | OnlyForSpellWithKeywordKind k => bool_decide (k ∈ keyword_kinds meta)
  | OnlyForSpellWithKeywordKindFromZone k z =>
      bool_decide (k ∈ keyword_kinds meta) && bool_decide (cast_from_zone meta = Some z)
  | OnlyForSpellWithManaValue comparator value =>
      is_some_and (meta_mana_value meta)
        (λ mv, Comparator.evaluate comparator (as_i32 mv) (as_i32 value))
  | OnlyForSpellMatchingCostCriteria spell_type criteria =>
      match spell_type with
      | Some required => matches_required_quality required (types meta ++ subtypes meta)
      | None => true
      end && existsb (λ c, matches c meta) criteria
  | OnlyForSpellWithColorCount comparator count =>
      is_some_and (color_count meta)
        (λ cc, Comparator.evaluate comparator (as_i32 cc) (as_i32 count))
  | OnlyForSpellColor c => bool_decide (c ∈ colors meta)
  | OnlyForSpellFromZone zs =>
      match zs_polarity zs with
      | ZoneSpendPolarity.From => bool_decide (cast_from_zone meta = Some (zs_zone zs))
      | ZoneSpendPolarity.NotFrom =>
          is_some_and (cast_from_zone meta) (λ z, negb (bool_decide (z = zs_zone zs)))
      end
  | CannotCastSpellFromZone zone =>
      is_some_and (cast_from_zone meta) (λ z, negb (bool_decide (z = zone)))
  | OnlyForFaceDownSpell => is_face_down meta
  | OnlyForAny subs => existsb (λ r, allows_spell r meta) subs
  | OnlyForSpecialAction _ => false
  | Impossible => false
  | ConvokePayment => true
  end.

(** [ManaRestriction::allows_activation] *)
Fixpoint allows_activation (r : ManaRestriction) (source_types source_subtypes : list bytes)
    (ability_tag : option AbilityTag.t) : bool :=
  match r with
  | OnlyForSpell | OnlyForSpellType _ | OnlyForCreatureType _ | OnlyForSpellWithKeywordKind _
  | OnlyForSpellWithKeywordKindFromZone _ _ | OnlyForSpellWithManaValue _ _
  | OnlyForSpellMatchingCostCriteria _ _ | OnlyForSpellWithColorCount _ _
  | OnlyForSpellColor _ | OnlyForSpellFromZone _ | OnlyForFaceDownSpell
  | OnlyForSpecialAction _ | Impossible => false
  | CannotCastSpellFromZone _ => true
  | OnlyForTypeSpellsOrAbilities spell_type ability =>
      match ability with
      | AbilityActivationScope.OfSpellType =>
          matches_required_quality spell_type (source_types ++ source_subtypes)
      | AbilityActivationScope.Any => true
      end
  | OnlyForActivation => true
  | OnlyForTaggedActivation required_tag => bool_decide (ability_tag = Some required_tag)
  | OnlyForAny subs =>
      existsb (λ r, allows_activation r source_types source_subtypes ability_tag) subs
  | OnlyForXCosts | ConvokePayment => false
  end.

(** [ManaRestriction::allows_special_action] *)
Fixpoint allows_special_action (r : ManaRestriction) (action : SpecialAction.t) : bool :=
  match r with
  | OnlyForSpecialAction allowed => bool_decide (allowed = action)
  | CannotCastSpellFromZone _ => true
  | OnlyForAny subs => existsb (λ r, allows_special_action r action) subs
  | OnlyForSpell | OnlyForSpellType _ | OnlyForCreatureType _ | OnlyForTypeSpellsOrAbilities _ _
  | OnlyForActivation | OnlyForTaggedActivation _ | OnlyForXCosts
  | OnlyForSpellWithKeywordKind _ | OnlyForSpellWithKeywordKindFromZone _ _
  | OnlyForSpellWithManaValue _ _ | OnlyForSpellMatchingCostCriteria _ _
  | OnlyForSpellWithColorCount _ _ | OnlyForSpellColor _ | OnlyForSpellFromZone _
  | OnlyForFaceDownSpell | Impossible | ConvokePayment => false
  end.

(** [ManaRestriction::allows]: the dispatch every payment goes through. *)
Fixpoint allows (r : ManaRestriction) (ctx : PaymentContext) : bool :=
  match ctx with
  | Spell meta => allows_spell r meta
  | Activation source_types source_subtypes ability_tag _ =>
      allows_activation r source_types source_subtypes ability_tag
  | Effect =>
      match r with
      | CannotCastSpellFromZone _ => true
      | OnlyForAny subs => existsb (λ r, allows r ctx) subs
      | _ => false
      end
  | SpecialActionOf action => allows_special_action r action
  end.

(** ** The leaves of a restriction *)

(** Induction over restrictions with the hypothesis for every branch of a
    disjunction. *)
Lemma restriction_ind (P : ManaRestriction → Prop) :
  (∀ subs, Forall P subs → P (OnlyForAny subs)) →
  (∀ r, (∀ subs, r ≠ OnlyForAny subs) → P r) →
  ∀ r, P r.
Proof.
  intros Hany Hleaf. fix IH 1. intros r.
  destruct r; try (apply Hleaf; discriminate).
  apply Hany. induction subs as [|r subs IHs]; constructor; [apply IH|exact IHs].
Qed.

Fixpoint leaves (r : ManaRestriction) : list ManaRestriction :=
  match r with
  | OnlyForAny subs => flat_map leaves subs
  | r => [r]
  end.

Lemma leaves_leaf r : (∀ subs, r ≠ OnlyForAny subs) → leaves r = [r].
Proof. intros H. destruct r; try done. by destruct (H subs). Qed.

Lemma existsb_flat_map {A B} (f : A → list B) (p : B → bool) l :
  existsb p (flat_map f l) = existsb (λ a, existsb p (f a)) l.
Proof. induction l as [|a l IH]; simpl; [done|]. by rewrite existsb_app, IH. Qed.

Lemma existsb_ext {A} (p q : A → bool) l :
  Forall (λ a, p a = q a) l → existsb p l = existsb q l.
Proof. induction 1; simpl; congruence. Qed.

Lemma leaves_are_leaves r l : l ∈ leaves r → ∀ subs, l ≠ OnlyForAny subs.
Proof.
  revert r. apply (restriction_ind (λ r, l ∈ leaves r → ∀ subs, l ≠ OnlyForAny subs)).
  - intros subs IH. simpl. rewrite list_elem_of_In, in_flat_map.
    intros (r&Hr&Hl). rewrite Forall_forall in IH.
    apply (IH r); by apply list_elem_of_In.
  - intros r Hr. rewrite leaves_leaf by done. by intros ->%list_elem_of_singleton.
Qed.

(** A restriction permits a payment exactly when one of its leaves does. *)
Lemma allows_leaves r ctx : allows r ctx = existsb (λ l, allows l ctx) (leaves r).
Proof.
  revert r. apply restriction_ind.
  - intros subs IH. simpl leaves. rewrite existsb_flat_map, <-(existsb_ext _ _ _ IH).
    destruct ctx; [..|done|]; simpl; apply existsb_ext, Forall_true; by intros [].
  - intros r Hr. rewrite leaves_leaf by done. simpl. by rewrite orb_false_r.
Qed.

(** How one leaf routes the payments that are not spells. *)
Definition leaf_routes (l : ManaRestriction) (ctx : PaymentContext) : Prop :=
  match ctx with
  | Spell meta => allows_spell l meta = true
  | Activation types subtypes tag _ =>
      (∃ z, l = CannotCastSpellFromZone z) ∨ l = OnlyForActivation ∨
      (∃ t, l = OnlyForTaggedActivation t ∧ tag = Some t) ∨
      (∃ ty, l = OnlyForTypeSpellsOrAbilities ty AbilityActivationScope.Any) ∨
      (∃ ty, l = OnlyForTypeSpellsOrAbilities ty AbilityActivationScope.OfSpellType ∧
         matches_required_quality ty (types ++ subtypes) = true)
  | Effect => ∃ z, l = CannotCastSpellFromZone z
  | SpecialActionOf a => (∃ z, l = CannotCastSpellFromZone z) ∨ l = OnlyForSpecialAction a
  end.

(** The dispatch of a payment to a restriction: a restriction permits a payment
    exactly when some leaf of its disjunctions is meant for it.  Mana restricted
    to spells never pays for an ability, an effect or a special action; an ability
    is paid only by mana naming activations (all, by tag, or by type); a special
    action only by mana naming that action; a resolving effect by no positively
    restricted mana; a mere ban on casting from a zone leaves all three free. *)
Theorem allows_routes r ctx :
  allows r ctx = true ↔ ∃ l, l ∈ leaves r ∧ leaf_routes l ctx.
Proof.
  rewrite allows_leaves, existsb_exists. setoid_rewrite <-list_elem_of_In.
  f_equiv. intros l. split; intros [Hl H]; (split; [done|]);
    pose proof (leaves_are_leaves r l Hl) as Hleaf.
  - destruct ctx as [meta|types subtypes tag k| |a]; simpl in *; [by destruct l| | |].
    + destruct l as [| | |ty []| | | | | | | | | | | | | | | |]; simpl in *;
        solve [done|by destruct (Hleaf subs)|breflect; eauto 10].
    + destruct l; simpl in *; solve [done|by destruct (Hleaf subs)|eauto].
    + destruct l; simpl in *; solve [done|by destruct (Hleaf subs)|breflect; subst; eauto].
  - destruct ctx as [meta|types subtypes tag k| |a]; simpl in H; [by destruct l|..];
      naive_solver (try (by apply bool_decide_eq_true_2)).
Qed.
End restrictions.

Arguments SpellMeta : clear implicits.
Arguments PaymentContext : clear implicits.
Arguments ManaRestriction : clear implicits.

(** A disjunction reaches every kind of payment its branches name, however deep. *)
Example routes_through_disjunction :
  let r : ManaRestriction unit :=
    OnlyForAny [OnlyForSpellType (of_string "Dragon or Omen");
                OnlyForAny [OnlyForSpecialAction SpecialAction.UnlockDoor; OnlyForXCosts]] in
  allows r (SpecialActionOf SpecialAction.UnlockDoor) = true ∧
  allows r (SpecialActionOf SpecialAction.Plot) = false ∧
  allows r Effect = false ∧
  matches_required_quality (of_string "Dragon or Omen") [of_string "creature"; of_string "OMEN"] = true ∧
  matches_required_quality (of_string "Colorless Eldrazi") [of_string "Eldrazi"] = false.
Proof. vm_compute. done. Qed.
