(* ===== verification/ManaUnits.v ===== *)
(** * Units of mana ([ManaUnit] and [ManaShape] of [crates/phase-ast/src/types/mana.rs])

    A unit of mana in a pool, and its shape: the unit without its pip, the
    identity a player pins.  What a unit grants to the spell it pays for only
    matters up to equality here, so the development is parametric in it. *)
From S2P Require Import Prelude Text GameTypes ManaSymbols ManaRestrictions.
Local Open Scope N_scope.

Module ManaExpiry.
Inductive t := EndOfTurn | EndOfCombat | EndOfPhaseGroup.
#[global] Instance t_eq_dec : EqDecision t.
Proof. solve_decision. Defined.
End ManaExpiry.

Module ManaSupertype.
Inductive t := Snow.
#[global] Instance t_eq_dec : EqDecision t.
Proof. solve_decision. Defined.
End ManaSupertype.

Section units.
Context {KeywordKind ManaSpellGrant : Type}.
Context `{EqDecision KeywordKind, EqDecision ManaSpellGrant}.

Record ManaUnit := {
  color : ManaType.t;
  source_id : N;
  pip_id : N;
  supertype : option ManaSupertype.t;
  source_could_produce_two_or_more_colors : bool;
  restrictions : list (ManaRestriction KeywordKind);
  grants : list ManaSpellGrant;
  expiry : option ManaExpiry.t;
}.

Record ManaShape := {
  sh_color : ManaType.t;
  sh_source_id : N;
  sh_supertype : option ManaSupertype.t;
  sh_two_or_more : bool;
  sh_restrictions : list (ManaRestriction KeywordKind);
  sh_grants : list ManaSpellGrant;
  sh_expiry : option ManaExpiry.t;
}.

#[export] Instance ManaShape_eq_dec : EqDecision ManaShape.
Proof. solve_decision. Defined.
#[export] Instance ManaUnit_eq_dec : EqDecision ManaUnit.
Proof. solve_decision. Defined.

Definition with_pip (sh : ManaShape) (pip : N) : ManaUnit := {|
  color := sh_color sh; source_id := sh_source_id sh; pip_id := pip;
  supertype := sh_supertype sh;
  source_could_produce_two_or_more_colors := sh_two_or_more sh;
  restrictions := sh_restrictions sh; grants := sh_grants sh; expiry := sh_expiry sh |}.

Definition into_shape_and_pip (u : ManaUnit) : ManaShape * N :=
  ({| sh_color := color u; sh_source_id := source_id u; sh_supertype := supertype u;
      sh_two_or_more := source_could_produce_two_or_more_colors u;
      sh_restrictions := restrictions u; sh_grants := grants u; sh_expiry := expiry u |},
   pip_id u).
Definition shape_of (u : ManaUnit) : ManaShape := (into_shape_and_pip u).1.

(** [PartialEq for ManaUnit]: every field but the pip. *)
Definition unit_eq (u v : ManaUnit) : bool :=
  bool_decide (color u = color v) && bool_decide (source_id u = source_id v)
  && bool_decide (supertype u = supertype v)
  && Bool.eqb (source_could_produce_two_or_more_colors u)
       (source_could_produce_two_or_more_colors v)
  && bool_decide (restrictions u = restrictions v) && bool_decide (grants u = grants v)
  && bool_decide (expiry u = expiry v).

Definition is_snow (sh : ManaShape) : bool :=
  match sh_supertype sh with Some ManaSupertype.Snow => true | None => false end.
Definition shape_is_convoke_payment (sh : ManaShape) : bool :=
  bool_decide (ConvokePayment ∈ sh_restrictions sh).
Definition is_convoke_payment (u : ManaUnit) : bool :=
  bool_decide (ConvokePayment ∈ restrictions u).

(** [ManaUnit::new] *)
Definition new (c : ManaType.t) (source : N) (snow : bool)
    (rs : list (ManaRestriction KeywordKind)) : ManaUnit := {|
  color := c; source_id := source; pip_id := 0;
  supertype := if snow then Some ManaSupertype.Snow else None;
  source_could_produce_two_or_more_colors := false;
  restrictions := rs; grants := []; expiry := None |}.

(** [ManaUnit::convoke_payment] *)
Definition convoke_payment (c : ManaType.t) (source : N) : ManaUnit := {|
  color := c; source_id := source; pip_id := 0; supertype := None;
  source_could_produce_two_or_more_colors := false;
  restrictions := [ConvokePayment]; grants := []; expiry := None |}.

Lemma with_pip_shape u : with_pip (shape_of u) (pip_id u) = u.
Proof. by destruct u. Qed.
Lemma shape_with_pip sh pip : shape_of (with_pip sh pip) = sh.
Proof. by destruct sh. Qed.
Lemma with_pip_eq sh pip u : with_pip sh pip = u ↔ sh = shape_of u ∧ pip = pip_id u.
Proof.
  split; [intros <-; by rewrite shape_with_pip|].
  intros [-> ->]. apply with_pip_shape.
Qed.
Lemma unit_eq_shape u v : unit_eq u v = bool_decide (shape_of u = shape_of v).
Proof.
  apply eq_true_iff_eq. unfold unit_eq. rewrite !andb_true_iff, !bool_decide_eq_true, eqb_true_iff.
  destruct u, v; unfold shape_of; simpl. split.
  - by intros ((((((->&->)&->)&->)&->)&->)&->).
  - intros [= -> -> -> -> -> -> ->]. by split_and!.
Qed.
End units.

Arguments ManaUnit : clear implicits.
Arguments ManaShape : clear implicits.
