(* ===== verification/ManaPool.v ===== *)
(** * The mana pool ([ManaPool] of [crates/engine/src/types/mana.rs])

    A pool holds one entry per distinct shape.  Units are ordered by slot, a
    counter stamped when a unit enters; an entry maps its slots to pips and its
    pips back to slots.  The persistent ordered maps of the [im] crate are finite
    maps read in key order.  An [expect] or an index that fails is [Panic]. *)
From S2P Require Import Prelude Text GameTypes ManaSymbols ManaRestrictions ManaUnits.
Local Open Scope N_scope.

(** [get_min] and [get_max] of an ordered set. *)
Definition set_min (X : gset N) : option N := min_by id (elements X).
Definition set_max (X : gset N) : option N :=
  foldr (λ x acc, Some (match acc with Some y => N.max x y | None => x end)) None (elements X).

Inductive PoolProvenance := Verified | Unverified.

Inductive ExactManaRemovalError :=
  | DuplicatePip (pip : N) | MissingPip (pip : N) | MismatchedUnit (pip : N).

Section pool.
Context {KeywordKind ManaSpellGrant : Type}.
Context `{EqDecision KeywordKind, EqDecision ManaSpellGrant}.
Local Abbreviation ManaUnit := (ManaUnit KeywordKind ManaSpellGrant).
Local Abbreviation ManaShape := (ManaShape KeywordKind ManaSpellGrant).

Record PoolEntry := {
  shape : ManaShape;
  slots : gmap N N;
  by_pip : gmap N (gset N);
}.

Definition first_slot (e : PoolEntry) : outcome unit N := or_panic (set_min (dom (slots e))).
Definition last_slot (e : PoolEntry) : outcome unit N := or_panic (set_max (dom (slots e))).
Definition first_slot_of (e : PoolEntry) (pip : N) : option N := by_pip e !! pip ≫= set_min.

Definition entry_insert (slot pip : N) (e : PoolEntry) : PoolEntry := {|
  shape := shape e;
  slots := <[slot := pip]> (slots e);
  by_pip := <[pip := {[slot]} ∪ default ∅ (by_pip e !! pip)]> (by_pip e) |}.

Definition entry_remove (slot : N) (e : PoolEntry) : option (N * PoolEntry) :=
  pip ← slots e !! slot;
  Some (pip, {|
    shape := shape e;
    slots := delete slot (slots e);
    by_pip :=
      match by_pip e !! pip with
      | Some s =>
          let s := s ∖ {[slot]} in
          if decide (s = ∅) then delete pip (by_pip e) else <[pip := s]> (by_pip e)
      | None => by_pip e
      end |}).

Record ManaPool := {
  entries : list PoolEntry;
  next_slot : N;
  provenance : PoolProvenance;
}.
Definition pool_default : ManaPool :=
  {| entries := []; next_slot := 0; provenance := Verified |}.

Definition set_entries (p : ManaPool) (es : list PoolEntry) : ManaPool :=
  {| entries := es; next_slot := next_slot p; provenance := provenance p |}.
Definition set_provenance (p : ManaPool) (pr : PoolProvenance) : ManaPool :=
  {| entries := entries p; next_slot := next_slot p; provenance := pr |}.

(** ** Order *)
Definition slot_le (x y : N * nat * N) : Prop := x.1.1 <= y.1.1.
#[local] Instance slot_le_dec : RelDecision slot_le.
Proof. intros x y. unfold slot_le. apply _. Defined.

Definition ordered (p : ManaPool) : list (N * nat * N) :=
  merge_sort slot_le
    (concat (imap (λ index e, (λ '(slot, pip), (slot, index, pip)) <$> map_to_list (slots e))
      (entries p))).

Definition unit_of (p : ManaPool) (x : N * nat * N) : option ManaUnit :=
  let '(_, index, pip) := x in
  e ← entries p !! index; Some (with_pip (shape e) pip).

Definition slotted_units (p : ManaPool) : list (N * ManaUnit) :=
  omap (λ x, u ← unit_of p x; Some (x.1.1, u)) (ordered p).
Definition units (p : ManaPool) : list ManaUnit := (slotted_units p).*2.

Definition entry_of_slot (p : ManaPool) (slot : N) : option nat :=
  position (λ e, bool_decide (is_Some (slots e !! slot))) (entries p).
Definition nth_slot (p : ManaPool) (index : nat) : option N :=
  (λ x, x.1.1) <$> ordered p !! index.

(** [PartialEq for ManaPool] *)
Definition pool_eq (p q : ManaPool) : bool :=
  let this := ordered p in
  let that := ordered q in
  (length this =? length that)%nat &&
  forallb (λ '((_, a, _), (_, b, _)),
      bool_decide (shape <$> entries p !! a = shape <$> entries q !! b)) (zip this that).

(** ** Entering and leaving the pool *)
Definition insert_at (p : ManaPool) (slot : N) (sh : ManaShape) (pip : N) : ManaPool :=
  set_entries p
    match position (λ e, bool_decide (shape e = sh)) (entries p) with
    | Some index => alter (entry_insert slot pip) index (entries p)
    | None => entries p ++ [entry_insert slot pip {| shape := sh; slots := ∅; by_pip := ∅ |}]
    end.

Definition push_merged (p : ManaPool) (u : ManaUnit) : ManaPool :=
  let slot := next_slot p in
  let p := {| entries := entries p; next_slot := u64_add (next_slot p) 1;
              provenance := provenance p |} in
  let '(sh, pip) := into_shape_and_pip u in
  insert_at p slot sh pip.

Definition is_empty (p : ManaPool) : bool := bool_decide (entries p = []).

Definition from_units (us : list ManaUnit) : ManaPool :=
  let p := fold_left push_merged us pool_default in
  if is_empty p then p else set_provenance p Unverified.
Definition add (p : ManaPool) (u : ManaUnit) : ManaPool :=
  set_provenance (push_merged p u) Unverified.
Definition insert_journaled (p : ManaPool) (u : ManaUnit) : ManaPool := push_merged p u.

Definition take_slot (p : ManaPool) (slot : N) : option (ManaUnit * ManaPool) :=
  index ← entry_of_slot p slot;
  e ← entries p !! index;
  '(pip, e') ← entry_remove slot e;
  Some (with_pip (shape e) pip,
    set_entries p
      (if decide (slots e' = ∅) then vec_remove index (entries p)
       else <[index := e']> (entries p))).

(** ** Reading the pool *)
Definition shapes (p : ManaPool) : list (ManaShape * nat) :=
  (λ e, (shape e, size (slots e))) <$> entries p.
Definition count_where (p : ManaPool) (pred : ManaShape → bool) : nat :=
  sum_list (snd <$> List.filter (λ x, pred x.1) (shapes p)).
Definition count_color (p : ManaPool) (c : ManaType.t) : nat :=
  count_where p (λ sh, bool_decide (sh_color sh = c)).
Definition total (p : ManaPool) : nat := count_where p (λ _, true).
Definition produced_mana_total (p : ManaPool) : nat :=
  count_where p (λ sh, negb (shape_is_convoke_payment sh)).
Definition contains_pip (p : ManaPool) (pip : N) : bool :=
  existsb (λ e, bool_decide (is_Some (by_pip e !! pip))) (entries p).
Definition shape_of_pip (p : ManaPool) (pip : N) : option ManaShape :=
  snd <$> min_by fst
    (omap (λ e, (λ slot, (slot, shape e)) <$> first_slot_of e pip) (entries p)).
Definition unit_by_pip (p : ManaPool) (pip : N) : option ManaUnit :=
  (λ sh, with_pip sh pip) <$> shape_of_pip p pip.

Definition first_where (p : ManaPool) (pred : ManaShape → bool)
    : outcome unit (option (N * ManaShape)) :=
  firsts ← mapM (λ e, slot ← first_slot e; mret (slot, shape e))
    (List.filter (λ e, pred (shape e)) (entries p));
  mret (min_by fst firsts).

Definition first_pinned_where (p : ManaPool) (pins : list N) (pred : ManaShape → bool)
    : option (N * ManaShape) :=
  if bool_decide (pins = []) then None
  else min_by fst
    (omap (λ e, (λ slot, (slot, shape e)) <$> min_by id (omap (first_slot_of e) pins))
       (List.filter (λ e, pred (shape e)) (entries p))).

Definition unit_at (p : ManaPool) (index : nat) : option ManaUnit :=
  ordered p !! index ≫= unit_of p.

(** ** Changing the pool *)
Definition swap_remove (p : ManaPool) (slot : N) : outcome unit (ManaUnit * ManaPool) :=
  lasts ← mapM last_slot (entries p);
  last ← or_panic (set_max (list_to_set lasts));
  '(u, p) ← or_panic (take_slot p slot);
  if (last =? slot) then mret (u, p)
  else
    index ← or_panic (entry_of_slot p last);
    e ← or_panic (entries p !! index);
    '(pip, e') ← or_panic (entry_remove last e);
    mret (u, set_entries p (<[index := entry_insert slot pip e']> (entries p))).

Definition remove_at (p : ManaPool) (index : nat) : option (ManaUnit * ManaPool) :=
  slot ← nth_slot p index; take_slot p slot.

Definition recolor (c : ManaType.t) (sh : ManaShape) : ManaShape := {|
  sh_color := c; sh_source_id := sh_source_id sh; sh_supertype := sh_supertype sh;
  sh_two_or_more := sh_two_or_more sh; sh_restrictions := sh_restrictions sh;
  sh_grants := sh_grants sh; sh_expiry := sh_expiry sh |}.

Definition recolor_at (p : ManaPool) (index : nat) (c : ManaType.t)
    : option (ManaType.t * ManaPool) :=
  slot ← nth_slot p index;
  '(u, p) ← take_slot p slot;
  let '(sh, pip) := into_shape_and_pip u in
  Some (sh_color sh, insert_at p slot (recolor c sh) pip).

Definition set_pip_at (p : ManaPool) (slot pip : N) : outcome unit ManaPool :=
  index ← or_panic (entry_of_slot p slot);
  e ← or_panic (entries p !! index);
  let e := match entry_remove slot e with Some (_, e) => e | None => e end in
  mret (set_provenance (set_entries p (<[index := entry_insert slot pip e]> (entries p))) Unverified).

(** One entry of [edit_shapes]' loop, with its edited shape. *)
Definition merge_entry (merged : list PoolEntry) (e : PoolEntry) : list PoolEntry :=
  match position (λ kept, bool_decide (shape kept = shape e)) merged with
  | Some i =>
      alter (λ kept, fold_left (λ kept '(slot, pip), entry_insert slot pip kept)
        (map_to_list (slots e)) kept) i merged
  | None => merged ++ [e]
  end.
Definition edit_entry (edit : ManaShape → option ManaShape) (e : PoolEntry) : PoolEntry :=
  {| shape := default (shape e) (edit (shape e)); slots := slots e; by_pip := by_pip e |}.
Definition edit_shapes (p : ManaPool) (edit : ManaShape → option ManaShape) : ManaPool :=
  if existsb (λ e, bool_decide (is_Some (edit (shape e)))) (entries p) then
    set_entries p (fold_left (λ merged e, merge_entry merged (edit_entry edit e)) (entries p) [])
  else p.

Definition retain_shapes (p : ManaPool) (keep : ManaShape → bool) : ManaPool :=
  set_entries p (List.filter (λ e, keep (shape e)) (entries p)).

Definition is_verified (p : ManaPool) : bool :=
  match provenance p with Verified => true | Unverified => false end.
Definition mark_unverified (p : ManaPool) : ManaPool := set_provenance p Unverified.
Definition mark_verified (p : ManaPool) : ManaPool := set_provenance p Verified.
Definition clear (p : ManaPool) : ManaPool := set_entries p [].

Fixpoint remove_exact (us : list ManaUnit) : stM ManaPool ExactManaRemovalError () :=
  match us with
  | [] => mret ()
  | u :: us => λ p,
      let '(sh, pip) := into_shape_and_pip u in
      match head (omap (λ e, first_slot_of e pip)
              (List.filter (λ e, bool_decide (shape e = sh)) (entries p))) with
      | Some slot =>
          match swap_remove p slot with
          | Ok (_, p) => remove_exact us p
          | _ => (Panic, p)
          end
      | None =>
          if contains_pip p pip then (Err (MismatchedUnit pip), p)
          else (Err (MissingPip pip), p)
      end
  end.

(** ** When mana expires, and paying with it *)
Definition set_expiry (x : option ManaExpiry.t) (sh : ManaShape) : ManaShape := {|
  sh_color := sh_color sh; sh_source_id := sh_source_id sh; sh_supertype := sh_supertype sh;
  sh_two_or_more := sh_two_or_more sh; sh_restrictions := sh_restrictions sh;
  sh_grants := sh_grants sh; sh_expiry := x |}.

Definition leaving_phase_group (from : option Phase.t) (to : Phase.t) : bool :=
  match from with
  | Some from => negb (bool_decide (group from = group to))
  | None => false
  end.

Definition clear_expired_retention_markers (p : ManaPool) (from : option Phase.t) (to : Phase.t)
    : ManaPool :=
  edit_shapes p (λ sh,
    let expired :=
      match sh_expiry sh with
      | Some ManaExpiry.EndOfCombat => negb (is_combat to)
      | Some ManaExpiry.EndOfPhaseGroup => leaving_phase_group from to
      | Some ManaExpiry.EndOfTurn => false
      | None => false
      end in
    if expired then Some (set_expiry None sh) else None).

Definition retain_across_phase_group_steps (p : ManaPool) (from : option Phase.t) (to : Phase.t)
    : ManaPool :=
  if leaving_phase_group from to then p
  else edit_shapes p (λ sh,
    match sh_expiry sh with
    | None => Some (set_expiry (Some ManaExpiry.EndOfPhaseGroup) sh)
    | Some _ => None
    end).

Definition clear_expired_end_of_turn_retention_markers (p : ManaPool) : ManaPool :=
  edit_shapes p (λ sh,
    match sh_expiry sh with
    | Some ManaExpiry.EndOfTurn => Some (set_expiry None sh)
    | _ => None
    end).

Definition remove_from_source (p : ManaPool) (source : N) : nat * ManaPool :=
  let before := total p in
  let p := retain_shapes p (λ sh, negb (bool_decide (sh_source_id sh = source))) in
  (before - total p, p)%nat.

Definition unrestricted (sh : ManaShape) : bool := bool_decide (sh_restrictions sh = []).

Definition spend_generic (p : ManaPool) (count : nat) : bool * ManaPool :=
  if (count_where p unrestricted <? count)%nat then (false, p)
  else
    let free := merge_sort N.le
      (concat ((λ e, (map_to_list (slots e)).*1) <$>
        List.filter (λ e, unrestricted (shape e)) (entries p))) in
    (true, fold_left (λ p slot, match take_slot p slot with Some (_, p) => p | None => p end)
             (take count free) p).

(** Spend the unit a query found. *)
Definition spend_found (p : ManaPool) (found : option (N * ManaShape))
    : outcome unit (option ManaUnit * ManaPool) :=
  match found with
  | Some (slot, _) => '(u, p) ← swap_remove p slot; mret (Some u, p)
  | None => mret (None, p)
  end.

Definition spend (p : ManaPool) (c : ManaType.t) : outcome unit (option ManaUnit * ManaPool) :=
  found ← first_where p (λ sh, bool_decide (sh_color sh = c));
  spend_found p found.

Definition spend_for (p : ManaPool) (c : ManaType.t) (ctx : PaymentContext KeywordKind)
    : outcome unit (option ManaUnit * ManaPool) :=
  let eligible sh :=
    bool_decide (sh_color sh = c) && permits_actual_mana_type ctx (sh_color sh) in
  found ← first_where p (λ sh, eligible sh && bool_decide (sh_restrictions sh = []));
  found ← match found with
          | Some x => mret (Some x)
          | None =>
              first_where p (λ sh, eligible sh && negb (bool_decide (sh_restrictions sh = []))
                && forallb (λ r, allows r ctx) (sh_restrictions sh))
          end;
  spend_found p found.
End pool.

Arguments ManaPool : clear implicits.
Arguments PoolEntry : clear implicits.
