(* ===== verification/ManaPoolOrder.v ===== *)
(** * The invariant of the mana pool, and its order

    What keeps [ManaPool.v] well formed, and the pool read as a list ordered by
    slot: every operation is described by what it does to that list, whatever
    the entries it is stored in. *)
From S2P Require Import Prelude Text GameTypes ManaSymbols ManaRestrictions ManaUnits ManaPool.
Local Open Scope N_scope.

Lemma set_min_Some X x : set_min X = Some x → x ∈ X ∧ ∀ y, y ∈ X → x <= y.
Proof.
  intros [Hx Hmin]%min_by_Some. split; [by apply elem_of_elements|].
  intros y Hy. apply (Hmin y). by apply elem_of_elements.
Qed.
Lemma set_min_None X : set_min X = None ↔ X = ∅.
Proof. unfold set_min. by rewrite min_by_None, elements_empty_iff, leibniz_equiv_iff. Qed.
Lemma set_max_Some X x : set_max X = Some x → x ∈ X ∧ ∀ y, y ∈ X → y <= x.
Proof.
  unfold set_max. setoid_rewrite <-(elem_of_elements X).
  generalize (elements X). intros l. revert x.
  induction l as [|z l IH]; intros x; simpl; [done|].
  destruct (foldr _ _ l) as [w|] eqn:Hw.
  - destruct (IH w eq_refl) as [Hin Hmax]. intros [= <-]. split.
    + destruct (N.max_spec z w) as [[_ ->]|[_ ->]]; [by right|left].
    + intros y [->|Hy]%elem_of_cons; [lia|]. specialize (Hmax y Hy). lia.
  - intros [= <-]. split; [left|]. intros y [->|Hy]%elem_of_cons; [done|].
    destruct l; [by apply elem_of_nil in Hy|done].
Qed.
Lemma set_max_None X : set_max X = None ↔ X = ∅.
Proof.
  unfold set_max. rewrite <-leibniz_equiv_iff, <-elements_empty_iff.
  by destruct (elements X).
Qed.

Section order.
Context {KeywordKind ManaSpellGrant : Type}.
Context `{EqDecision KeywordKind, EqDecision ManaSpellGrant}.
Local Abbreviation ManaUnit := (ManaUnit KeywordKind ManaSpellGrant).
Local Abbreviation ManaShape := (ManaShape KeywordKind ManaSpellGrant).
Local Abbreviation PoolEntry := (PoolEntry KeywordKind ManaSpellGrant).
Local Abbreviation ManaPool := (ManaPool KeywordKind ManaSpellGrant).
Implicit Types (e : PoolEntry) (es : list PoolEntry) (p : ManaPool) (sh : ManaShape)
  (u : ManaUnit) (slot pip : N) (l : list (N * ManaUnit)).

(** ** Entries *)
Record consistent e : Prop := {
  by_pip_slots pip slot :
    slot ∈ default ∅ (by_pip e !! pip) ↔ slots e !! slot = Some pip;
  by_pip_nonempty pip : by_pip e !! pip ≠ Some ∅;
}.
Definition entry_ok e : Prop := consistent e ∧ slots e ≠ ∅.

Definition flat_entry e : list (N * ManaUnit) :=
  (λ '(slot, pip), (slot, with_pip (shape e) pip)) <$> map_to_list (slots e).
Definition flat es : list (N * ManaUnit) := concat (flat_entry <$> es).

Lemma elem_of_flat_entry e slot u :
  (slot, u) ∈ flat_entry e ↔ shape_of u = shape e ∧ slots e !! slot = Some (pip_id u).
Proof.
  unfold flat_entry. rewrite list_elem_of_fmap. split.
  - intros ([s pip]&[= -> ->]&Hin%elem_of_map_to_list).
    by rewrite shape_with_pip.
  - intros [Hs Hl]. exists (slot, pip_id u). rewrite elem_of_map_to_list. split; [|done].
    by rewrite <-Hs, with_pip_shape.
Qed.
Lemma elem_of_flat es x : x ∈ flat es ↔ ∃ e, e ∈ es ∧ x ∈ flat_entry e.
Proof.
  unfold flat. rewrite list_elem_of_In, in_concat. setoid_rewrite <-list_elem_of_In.
  split.
  - intros (l&(e&->&He)%list_elem_of_fmap&Hx). by exists e.
  - intros (e&He&Hx). exists (flat_entry e). split; [|done]. by apply list_elem_of_fmap_2.
Qed.
Lemma keys_flat_entry e slot : slot ∈ (flat_entry e).*1 ↔ is_Some (slots e !! slot).
Proof.
  rewrite list_elem_of_fmap. split.
  - intros ([s u]&->&[_ ?]%elem_of_flat_entry). by eexists.
  - intros [pip Hp]. exists (slot, with_pip (shape e) pip). split; [done|].
    apply elem_of_flat_entry. by rewrite shape_with_pip.
Qed.
#[export] Instance flat_proper : Proper ((≡ₚ) ==> (≡ₚ)) flat.
Proof. intros es es' H. unfold flat. by rewrite H. Qed.
Lemma flat_app es es' : flat (es ++ es') = flat es ++ flat es'.
Proof. unfold flat. by rewrite fmap_app, concat_app. Qed.

Lemma flat_cons e es : flat (e :: es) = flat_entry e ++ flat es.
Proof. done. Qed.

Lemma entry_insert_consistent slot pip e :
  consistent e → slots e !! slot = None → consistent (entry_insert slot pip e).
Proof.
  intros [H1 H2] Hn. split; simpl.
  - intros pip' s. destruct (decide (s = slot)) as [->|Hs].
    + rewrite lookup_insert_eq. destruct (decide (pip' = pip)) as [->|Hp].
      { rewrite lookup_insert_eq. set_solver. }
      rewrite lookup_insert_ne by done. rewrite H1, Hn. split; [done|congruence].
    + rewrite (lookup_insert_ne (slots e)) by done. rewrite <-H1.
      destruct (decide (pip' = pip)) as [->|Hp];
        [rewrite lookup_insert_eq|by rewrite lookup_insert_ne by done].
      simpl. set_solver.
  - intros pip'. destruct (decide (pip' = pip)) as [->|Hp].
    + rewrite lookup_insert_eq. intros [= He]. set_solver.
    + by rewrite lookup_insert_ne by done.
Qed.

Lemma flat_entry_insert slot pip e :
  slots e !! slot = None →
  flat_entry (entry_insert slot pip e) ≡ₚ (slot, with_pip (shape e) pip) :: flat_entry e.
Proof. intros Hn. unfold flat_entry. simpl. by rewrite map_to_list_insert. Qed.

Lemma entry_remove_spec slot pip e :
  consistent e → slots e !! slot = Some pip →
  ∃ e', entry_remove slot e = Some (pip, e') ∧ shape e' = shape e ∧
    slots e' = delete slot (slots e) ∧ consistent e' ∧
    flat_entry e ≡ₚ (slot, with_pip (shape e) pip) :: flat_entry e'.
Proof.
  intros [H1 H2] Hs. unfold entry_remove. rewrite Hs. simpl. eexists. split; [done|].
  split_and!; [done..| |].
  - pose proof (proj2 (H1 pip slot) Hs) as Hin.
    destruct (by_pip e !! pip) as [X|] eqn:HX; [|by apply elem_of_empty in Hin].
    simpl in Hin. set (by_pip' := if decide _ then _ else _).
    assert (by_pip' !! pip = if decide (X ∖ {[slot]} = ∅) then None else Some (X ∖ {[slot]})) as Hp.
    { unfold by_pip'. case_decide; [apply lookup_delete_eq|apply lookup_insert_eq]. }
    assert (∀ pip', pip' ≠ pip → by_pip' !! pip' = by_pip e !! pip') as Hne.
    { intros pip' ?. unfold by_pip'.
      case_decide; [by apply lookup_delete_ne|by apply lookup_insert_ne]. }
    clearbody by_pip'. split; simpl.
    + intros pip' s. destruct (decide (pip' = pip)) as [->|Hpip].
      * rewrite Hp. specialize (H1 pip s). rewrite HX in H1. simpl in H1.
        transitivity (s ∈ X ∖ {[slot]}); [case_decide; simpl; set_solver|].
        rewrite lookup_delete_Some, <-H1. set_solver.
      * rewrite Hne, H1 by done. rewrite lookup_delete_Some. split; [|by intros []].
        intros Hs'. split; [congruence|done].
    + intros pip'. destruct (decide (pip' = pip)) as [->|Hpip]; [|by rewrite Hne].
      rewrite Hp. case_decide; congruence.
  - unfold flat_entry. simpl.
    rewrite <-(insert_delete_id (slots e) slot pip Hs) at 1.
    by rewrite map_to_list_insert by apply lookup_delete_eq.
Qed.

(** ** The invariant *)
Record entries_wf es : Prop := {
  wf_entries : Forall entry_ok es;
  wf_shapes : NoDup (shape <$> es);
  wf_slots : NoDup (flat es).*1;
}.
Record pool_wf p : Prop := {
  wf_pool :> entries_wf (entries p);
  wf_next : ∀ x, x ∈ flat (entries p) → x.1 < next_slot p;
}.

#[export] Instance entries_wf_proper : Proper ((≡ₚ) ==> iff) entries_wf.
Proof.
  assert (∀ es es', es ≡ₚ es' → entries_wf es → entries_wf es') as Hone.
  { intros es es' H [H1 H2 H3]. split; by rewrite <-H. }
  intros es es' H. split; by apply Hone.
Qed.

Lemma entries_wf_cons e es :
  entries_wf (e :: es) ↔
  entry_ok e ∧ shape e ∉ shape <$> es ∧
  (∀ slot, slot ∈ (flat_entry e).*1 → slot ∉ (flat es).*1) ∧ entries_wf es.
Proof.
  assert (NoDup (flat_entry e).*1) as Hnd.
  { unfold flat_entry. rewrite <-list_fmap_compose.
    rewrite (list_fmap_ext _ fst); [apply NoDup_fst_map_to_list|]. by intros ? [? ?] _. }
  split.
  - intros [H1 H2 H3]. inversion H1; subst. inversion H2; subst.
    rewrite flat_cons, fmap_app in H3. apply NoDup_app in H3 as (?&?&?).
    by split_and!.
  - intros (He&Hs&Hd&[H1 H2 H3]). split; [by constructor|by constructor|].
    rewrite flat_cons, fmap_app. by apply NoDup_app.
Qed.

Lemma entries_wf_nil : entries_wf [].
Proof. split; constructor. Qed.
Lemma pool_wf_default : pool_wf pool_default.
Proof. split; [apply entries_wf_nil|]. intros x H. by apply elem_of_nil in H. Qed.

Lemma flat_inj es slot u u' :
  entries_wf es → (slot, u) ∈ flat es → (slot, u') ∈ flat es → u = u'.
Proof.
  intros [_ _ Hnd] [i Hi]%list_elem_of_lookup [j Hj]%list_elem_of_lookup.
  assert (i = j) as ->; [|congruence].
  eapply (NoDup_lookup (flat es).*1 i j slot); [done| |]; by rewrite list_lookup_fmap, ?Hi, ?Hj.
Qed.

(** ** The pool as a list in slot order *)
Lemma flat_indexed es :
  concat (imap (λ index e, (λ '(slot, pip), (slot, index, pip)) <$> map_to_list (slots e)) es) =
  concat (imap (λ index e, (λ x, (x.1, index, pip_id x.2)) <$> flat_entry e) es).
Proof.
  f_equal. apply imap_ext. intros i e _. unfold flat_entry. rewrite <-list_fmap_compose.
  apply list_fmap_ext. by intros ? [slot pip] _.
Qed.

Lemma omap_indexed (es all : list PoolEntry) k :
  (∀ i e, es !! i = Some e → all !! (k + i)%nat = Some e) →
  omap (λ x : N * nat * N, u ← (e ← all !! x.1.2; Some (with_pip (shape e) x.2)); Some (x.1.1, u))
    (concat (imap (λ index e, (λ x, (x.1, (k + index)%nat, pip_id x.2)) <$> flat_entry e) es))
  = flat es.
Proof.
  revert k. induction es as [|e es IH]; intros k Hall; [done|].
  rewrite flat_cons, imap_cons. cbn [concat]. rewrite omap_app. f_equal.
  - assert (∀ x, x ∈ flat_entry e → shape_of x.2 = shape e) as Hsh.
    { intros [s u] Hx. by apply elem_of_flat_entry in Hx as [? _]. }
    pose proof (Hall 0%nat e eq_refl) as He. revert He. rewrite Nat.add_0_r. intros He.
    induction (flat_entry e) as [|[s u] l IHl]; [done|].
    cbn [fmap list_fmap omap list_omap fst snd]. rewrite He. simpl.
    pose proof (Hsh (s, u) ltac:(left)) as Hu. simpl in Hu.
    rewrite <-Hu, with_pip_shape. f_equal. apply IHl.
    intros x Hx. apply Hsh. by right.
  - rewrite <-(IH (S k)).
    + f_equal. f_equal. apply imap_ext. intros i e' _. simpl.
      by replace (k + S i)%nat with (S (k + i)) by lia.
    + intros i e' Hi. replace (S k + i)%nat with (k + S i)%nat by lia. by apply Hall.
Qed.

#[local] Instance slot_le_total : Total slot_le.
Proof. intros x y. unfold slot_le. lia. Qed.
#[local] Instance slot_le_trans : Transitive slot_le.
Proof. intros x y z. unfold slot_le. lia. Qed.

Lemma ordered_perm p : ordered p ≡ₚ
  concat (imap (λ index e, (λ x, (x.1, index, pip_id x.2)) <$> flat_entry e) (entries p)).
Proof. unfold ordered. rewrite <-flat_indexed. apply merge_sort_Permutation. Qed.

Lemma slotted_perm p : slotted_units p ≡ₚ flat (entries p).
Proof.
  unfold slotted_units. rewrite ordered_perm, <-(omap_indexed (entries p) (entries p) 0).
  - apply reflexive_eq, list_omap_ext, Forall_Forall2_diag, Forall_true. by intros [[]].
  - done.
Qed.

Lemma omap_total {A B} (f : A → option B) (k : list A) :
  (∀ x, x ∈ k → is_Some (f x)) → ∀ i, omap f k !! i = k !! i ≫= f.
Proof.
  induction k as [|x k IH]; intros Hf i; [done|]. simpl.
  destruct (Hf x ltac:(left)) as [y Hy]. rewrite Hy. destruct i as [|i]; simpl; [done|].
  apply IH. intros z Hz. apply Hf. by right.
Qed.

Lemma unit_of_ordered p x : x ∈ ordered p → is_Some (unit_of p x).
Proof.
  rewrite ordered_perm, list_elem_of_In, in_concat. setoid_rewrite <-list_elem_of_In.
  intros (k&(i&e&->&Hi)%elem_of_lookup_imap&Hx).
  apply list_elem_of_fmap in Hx as (y&->&_). simpl. rewrite Hi. by eexists.
Qed.

Lemma slotted_lookup p i :
  slotted_units p !! i = x ← ordered p !! i; u ← unit_of p x; Some (x.1.1, u).
Proof.
  unfold slotted_units. rewrite omap_total; [done|].
  intros x [u Hu]%unit_of_ordered. rewrite Hu. by eexists.
Qed.

Lemma nth_slot_slotted p i : nth_slot p i = fst <$> slotted_units p !! i.
Proof.
  rewrite slotted_lookup. unfold nth_slot. destruct (ordered p !! i) as [x|] eqn:Hx; [|done].
  apply list_elem_of_lookup_2, unit_of_ordered in Hx as [u Hu]. simpl. by rewrite Hu.
Qed.

Lemma unit_at_slotted p i : unit_at p i = snd <$> slotted_units p !! i.
Proof.
  rewrite slotted_lookup. unfold unit_at. destruct (ordered p !! i) as [x|] eqn:Hx; [|done].
  apply list_elem_of_lookup_2, unit_of_ordered in Hx as [u Hu]. simpl. by rewrite Hu.
Qed.

Lemma keyed_slotted p : entries_wf (entries p) → keyed (slotted_units p).
Proof.
  intros [_ _ Hnd]. apply keyed_lookup. intros i j x y Hi Hj Hij.
  assert (x.1 <= y.1)%N as Hle.
  { rewrite slotted_lookup in Hi, Hj.
    destruct (ordered p !! i) as [a|] eqn:Ha; [|done].
    destruct (ordered p !! j) as [b|] eqn:Hb; [|done]. simpl in *.
    destruct (unit_of p a); [|done]. destruct (unit_of p b); [|done]. simplify_eq/=.
    assert (StronglySorted slot_le (ordered p)) as Hs
      by (unfold ordered; apply StronglySorted_merge_sort; apply _).
    by apply (sorted_lookup slot_le (ordered p) i j). }
  rewrite <-slotted_perm in Hnd. unfold key_lt. destruct (N.lt_total x.1 y.1) as [|[Heq|]]; [done| |lia].
  assert (i = j); [|lia].
  eapply (NoDup_lookup (slotted_units p).*1 i j x.1); [done| |];
    rewrite list_lookup_fmap, ?Hi, ?Hj; simpl; congruence.
Qed.

Lemma slotted_unique p l :
  entries_wf (entries p) → keyed l → l ≡ₚ flat (entries p) → slotted_units p = l.
Proof.
  intros Hwf Hl Hp. apply keyed_unique; [by apply keyed_slotted|done|].
  by rewrite slotted_perm, Hp.
Qed.

Lemma elem_of_slotted p x : x ∈ slotted_units p ↔ x ∈ flat (entries p).
Proof. by rewrite slotted_perm. Qed.

(** ** One entry changes *)
Lemma entries_split es i e :
  es !! i = Some e → ∃ rest, es ≡ₚ e :: rest ∧
    (∀ f, alter f i es ≡ₚ f e :: rest) ∧
    (∀ e', <[i := e']> es ≡ₚ e' :: rest) ∧ vec_remove i es = rest.
Proof.
  intros (l1&l2&->&->)%list_elem_of_split_length. exists (l1 ++ l2). split_and!.
  - by rewrite Permutation_middle.
  - intros f. rewrite alter_app_r_alt, Nat.sub_diag by done. simpl. by rewrite Permutation_middle.
  - intros e'. rewrite insert_app_r_alt, Nat.sub_diag by done. simpl. by rewrite Permutation_middle.
  - unfold vec_remove. rewrite take_app_length. f_equal.
    rewrite drop_app_ge by lia. by replace (S (length l1) - length l1)%nat with 1%nat by lia.
Qed.

Lemma entries_wf_replace e e' rest :
  entries_wf (e :: rest) → shape e' = shape e → entry_ok e' →
  (∀ slot, slot ∈ (flat_entry e').*1 → slot ∉ (flat rest).*1) →
  entries_wf (e' :: rest).
Proof. rewrite !entries_wf_cons. intros (_&?&_&?) -> ??. by split_and!. Qed.

Lemma entry_insert_ok slot pip e :
  consistent e → slots e !! slot = None → entry_ok (entry_insert slot pip e).
Proof.
  intros. split; [by apply entry_insert_consistent|]. simpl. apply insert_non_empty.
Qed.

Lemma insert_at_spec p slot sh pip :
  entries_wf (entries p) → slot ∉ (flat (entries p)).*1 →
  entries_wf (entries (insert_at p slot sh pip)) ∧
  flat (entries (insert_at p slot sh pip)) ≡ₚ (slot, with_pip sh pip) :: flat (entries p).
Proof.
  intros Hwf Hn. unfold insert_at. simpl.
  destruct (position _ _) as [i|] eqn:Hpos.
  - apply position_Some in Hpos as (e&Hi&Hsh&_). breflect. subst sh.
    destruct (entries_split _ _ _ Hi) as (rest&Hes&Hset&_&_).
    rewrite Hset.
    rewrite Hes in Hwf. rewrite Hes, flat_cons, fmap_app in Hn. apply not_elem_of_app in Hn as [Hn1 Hn2].
    rewrite keys_flat_entry, <-eq_None_not_Some in Hn1.
    pose proof (proj1 (entries_wf_cons _ _) Hwf) as (Hok&_&Hd&_). split.
    + apply (entries_wf_replace e); [done|done|apply entry_insert_ok, Hn1; apply Hok|].
      intros s. rewrite flat_entry_insert by done. intros [->|Hs]%elem_of_cons; [done|by apply Hd].
    + by rewrite Hes, !flat_cons, flat_entry_insert by done.
  - rewrite position_None in Hpos.
    set (e := entry_insert slot pip _).
    assert (flat_entry e = [(slot, with_pip sh pip)]) as Hfe.
    { unfold flat_entry, e. simpl. by rewrite insert_empty, map_to_list_singleton. }
    rewrite Permutation_app_comm. simpl. split.
    + apply entries_wf_cons. split_and!; [|..|done].
      * apply entry_insert_ok; [|done]. split; simpl; [|done].
        intros ??. rewrite !lookup_empty. simpl. set_solver.
      * intros (e'&He'&Hin)%list_elem_of_fmap. specialize (Hpos e' Hin).
        breflect. by destruct Hpos.
      * rewrite Hfe. by intros s ->%list_elem_of_singleton.
    + by rewrite flat_cons, Hfe.
Qed.

Lemma entry_of_slot_spec p slot :
  (∀ i, entry_of_slot p slot = Some i → ∃ e pip, entries p !! i = Some e ∧ slots e !! slot = Some pip) ∧
  (entry_of_slot p slot = None → slot ∉ (flat (entries p)).*1).
Proof.
  unfold entry_of_slot. split.
  - intros i (e&Hi&He&_)%position_Some. breflect. destruct He. eauto.
  - rewrite position_None. intros Hall ([s u]&->&(e&He&Hu)%elem_of_flat)%list_elem_of_fmap.
    specialize (Hall e He). breflect. destruct Hall. apply keys_flat_entry.
    by apply (list_elem_of_fmap_2 fst _ _ Hu).
Qed.

Definition same_stamps p p' : Prop := next_slot p' = next_slot p ∧ provenance p' = provenance p.

Lemma take_slot_spec p slot u :
  entries_wf (entries p) → (slot, u) ∈ flat (entries p) →
  ∃ p', take_slot p slot = Some (u, p') ∧ entries_wf (entries p') ∧ same_stamps p p' ∧
    flat (entries p) ≡ₚ (slot, u) :: flat (entries p').
Proof.
  intros Hwf Hin. unfold take_slot.
  destruct (entry_of_slot_spec p slot) as [HS HN].
  destruct (entry_of_slot p slot) as [i|] eqn:Hpos; cycle 1.
  { destruct (HN eq_refl). by apply (list_elem_of_fmap_2 fst _ _ Hin). }
  destruct (HS i eq_refl) as (e&pip&Hi&Hs). clear HS HN. simpl. rewrite Hi. simpl.
  destruct (entries_split _ _ _ Hi) as (rest&Hes&_&Hset&Hrem).
  pose proof Hwf as Hwf'. rewrite Hes in Hwf'.
  pose proof (proj1 (entries_wf_cons _ _) Hwf') as ((Hc&_)&_&Hd&Hrest).
  destruct (entry_remove_spec slot pip e Hc Hs) as (e'&He'&Hsh&Hsl&Hc'&Hperm).
  assert (u = with_pip (shape e) pip) as ->.
  { eapply flat_inj; [exact Hwf|exact Hin|]. apply elem_of_flat. exists e.
    split; [by eapply list_elem_of_lookup_2|]. rewrite Hperm. left. }
  rewrite He'. simpl. eexists. split; [done|]. case_decide as Hemp; simpl.
  - rewrite Hrem. split_and!; [done|done|].
    rewrite Hes, flat_cons, Hperm. unfold flat_entry. by rewrite Hemp, map_to_list_empty.
  - split_and!; [|done|by rewrite Hset, Hes, !flat_cons, Hperm].
    rewrite Hset. apply (entries_wf_replace e); [done..|].
    intros s Hin'. apply Hd. rewrite Hperm. by right.
Qed.

Lemma take_slot_None p slot :
  slot ∉ (flat (entries p)).*1 → take_slot p slot = None.
Proof.
  intros Hn. unfold take_slot. destruct (entry_of_slot_spec p slot) as [HS _].
  destruct (entry_of_slot p slot) as [i|]; [|done].
  destruct (HS i eq_refl) as (e&pip&Hi&Hs). destruct Hn. apply list_elem_of_fmap.
  exists (slot, with_pip (shape e) pip). split; [done|].
  apply elem_of_flat. exists e. split; [by eapply list_elem_of_lookup_2|].
  apply elem_of_flat_entry. by rewrite shape_with_pip.
Qed.

(** ** Queries *)
Lemma mapM_Ok {A B} (f : A → outcome unit B) (k : list A) :
  (∀ x, x ∈ k → ∃ y, f x = Ok y) → ∃ ys, mapM f k = Ok ys ∧ Forall2 (λ x y, f x = Ok y) k ys.
Proof.
  induction k as [|x k IH]; intros Hf; [by exists []|].
  destruct (Hf x ltac:(left)) as [y Hy]. destruct IH as (ys&Hys&Hall); [by (intros; apply Hf; right)|].
  exists (y :: ys). split; [|by constructor]. simpl. by rewrite Hy, Hys.
Qed.

Lemma elem_of_List_filter {A} (f : A → bool) (k : list A) x :
  x ∈ List.filter f k ↔ x ∈ k ∧ f x = true.
Proof. by rewrite !list_elem_of_In, List.filter_In. Qed.

Definition on_shape (pred : ManaShape → bool) : N * ManaUnit → bool := λ x, pred (shape_of x.2).
Definition found (x : N * ManaUnit) : N * ManaShape := (x.1, shape_of x.2).

(** A least candidate by slot is the first match in pool order. *)
Lemma min_query p (P : N * ManaUnit → bool) (c : list (N * ManaShape)) :
  entries_wf (entries p) →
  (∀ y, y ∈ c → ∃ u, (y.1, u) ∈ flat (entries p) ∧ shape_of u = y.2 ∧ P (y.1, u) = true) →
  (∀ x, x ∈ flat (entries p) → P x = true → ∃ y, y ∈ c ∧ y.1 <= x.1) →
  min_by fst c = found <$> find_first P (slotted_units p).
Proof.
  intros Hwf Hsound Hcomplete. pose proof (keyed_slotted p Hwf) as Hk.
  destruct (find_first P (slotted_units p)) as [x|] eqn:Hf; simpl.
  - apply find_first_keyed in Hf as (Hx&HP&Hmin); [|done].
    destruct (Hcomplete x) as (y&Hy&Hle); [by rewrite <-elem_of_slotted|done|].
    destruct (min_by fst c) as [m|] eqn:Hm; [|apply min_by_None in Hm; subst; by apply elem_of_nil in Hy].
    apply min_by_Some in Hm as [Hm Hleast]. specialize (Hleast y Hy).
    destruct (Hsound m Hm) as (u&Hu&Hsh&HPu). rewrite <-elem_of_slotted in Hu.
    specialize (Hmin _ Hu HPu). simpl in *.
    assert ((m.1, u) = x) as <- by (eapply keyed_elem_inj; [done..|simpl; lia]).
    unfold found. simpl. rewrite Hsh. by destruct m.
  - rewrite find_first_None in Hf. apply min_by_None.
    destruct c as [|y c]; [done|]. destruct (Hsound y ltac:(left)) as (u&Hu&_&HP).
    rewrite <-elem_of_slotted in Hu. by rewrite Hf in HP.
Qed.

Lemma first_slot_spec e :
  slots e ≠ ∅ → ∃ slot, first_slot e = Ok slot ∧ slot ∈ (flat_entry e).*1 ∧
    ∀ s, s ∈ (flat_entry e).*1 → slot <= s.
Proof.
  intros Hne. unfold first_slot. destruct (set_min _) as [slot|] eqn:Hm.
  - exists slot. split; [done|]. apply set_min_Some in Hm as [Hin Hmin].
    rewrite keys_flat_entry, <-elem_of_dom. split; [done|].
    intros s. rewrite keys_flat_entry, <-elem_of_dom. auto.
  - apply set_min_None in Hm. by apply dom_empty_inv_L in Hm.
Qed.

Lemma key_of_entry e slot :
  slot ∈ (flat_entry e).*1 → ∃ u, (slot, u) ∈ flat_entry e ∧ shape_of u = shape e.
Proof.
  intros ([s u]&->&Hu)%list_elem_of_fmap. exists u. split; [done|].
  by apply elem_of_flat_entry in Hu as [].
Qed.

Lemma first_where_spec p pred :
  entries_wf (entries p) →
  first_where p pred = Ok (found <$> find_first (on_shape pred) (slotted_units p)).
Proof.
  intros Hwf. unfold first_where.
  edestruct (mapM_Ok (λ e, slot ← first_slot e; mret (slot, shape e))) as (ys&Hys&Hall); cycle 1.
  - rewrite Hys. unfold mbind at 1, outcome_bind, mret, outcome_ret. f_equal.
    assert (∀ e y, first_slot e ≫= (λ slot, mret (slot, shape e)) = Ok y →
      e ∈ entries p → slots e ≠ ∅ ∧ first_slot e = Ok y.1 ∧ shape e = y.2) as Hone.
    { intros e y He Hin. destruct (first_slot e) as [s| |] eqn:Hfs; try done.
      injection He as <-. split_and!; [|done..].
      pose proof (wf_entries _ Hwf) as Hok. rewrite Forall_forall in Hok.
      by destruct (Hok e Hin). }
    apply min_query; [done|..].
    + intros y [i Hi]%list_elem_of_lookup.
      destruct (Forall2_lookup_r _ _ _ _ _ Hall Hi) as (e&He%list_elem_of_lookup_2&Heq).
      apply elem_of_List_filter in He as [Hin Hpred].
      destruct (Hone e y Heq Hin) as (Hne&Hfs&Hsh).
      destruct (first_slot_spec e Hne) as (s&Hs&Hk&_). rewrite Hfs in Hs. injection Hs as <-.
      destruct (key_of_entry e _ Hk) as (u&Hu&Hue). exists u.
      rewrite elem_of_flat. split_and!; [by eauto|congruence|].
      unfold on_shape. simpl. by rewrite Hue.
    + intros [s u] (e&Hin&Hu)%elem_of_flat HP.
      pose proof (elem_of_flat_entry e s u) as Hfe. apply Hfe in Hu as Hsu. destruct Hsu as [Hsh _].
      assert (e ∈ List.filter (λ e, pred (shape e)) (entries p)) as [i Hi]%list_elem_of_lookup.
      { apply elem_of_List_filter. unfold on_shape in HP. simpl in HP. by rewrite Hsh in HP. }
      destruct (Forall2_lookup_l _ _ _ _ _ Hall Hi) as (y&Hy&Heq).
      exists y. split; [by eapply list_elem_of_lookup_2|].
      destruct (Hone e y Heq Hin) as (Hne&Hfs&_).
      destruct (first_slot_spec e Hne) as (s'&Hs'&_&Hmin). rewrite Hfs in Hs'. injection Hs' as <-.
      apply Hmin. by apply (list_elem_of_fmap_2 fst _ _ Hu).
  - intros e [He _]%elem_of_List_filter. pose proof (wf_entries _ Hwf) as Hok.
    rewrite Forall_forall in Hok. destruct (Hok e He) as [_ Hne].
    destruct (first_slot_spec e Hne) as (s&->&_). by eexists.
Qed.

Lemma entry_ok_in es e : entries_wf es → e ∈ es → entry_ok e.
Proof. intros Hwf. pose proof (wf_entries _ Hwf) as H. rewrite Forall_forall in H. apply H. Qed.

Lemma first_slot_of_Some e pip slot :
  consistent e → first_slot_of e pip = Some slot → slots e !! slot = Some pip.
Proof.
  intros [H1 _]. unfold first_slot_of. destruct (by_pip e !! pip) as [X|] eqn:HX; [|done].
  simpl. intros [Hin _]%set_min_Some. apply H1. by rewrite HX.
Qed.
Lemma first_slot_of_least e pip slot :
  consistent e → slots e !! slot = Some pip →
  ∃ s, first_slot_of e pip = Some s ∧ s <= slot.
Proof.
  intros [H1 _] Hs%H1. unfold first_slot_of. destruct (by_pip e !! pip) as [X|]; simpl in *; [|set_solver].
  destruct (set_min X) as [s|] eqn:Hm; [|apply set_min_None in Hm; set_solver].
  apply set_min_Some in Hm as [_ Hmin]. exists s. auto.
Qed.

Lemma flat_unit es e slot pip :
  e ∈ es → slots e !! slot = Some pip → (slot, with_pip (shape e) pip) ∈ flat es.
Proof.
  intros He Hs. apply elem_of_flat. exists e. split; [done|].
  apply elem_of_flat_entry. by rewrite shape_with_pip.
Qed.

Lemma first_pinned_where_spec p pins pred :
  entries_wf (entries p) →
  first_pinned_where p pins pred =
    found <$> find_first (λ x, bool_decide (pip_id x.2 ∈ pins) && on_shape pred x) (slotted_units p).
Proof.
  intros Hwf. unfold first_pinned_where. case_bool_decide as Hpins.
  { subst. destruct (find_first _ _) as [x|] eqn:Hf; [|done].
    apply find_first_Some in Hf as [_ Hx]. breflect. by apply elem_of_nil in H. }
  apply min_query; [done|..].
  - intros y (e&[He Hpred]%elem_of_List_filter&Hy)%list_elem_of_omap.
    apply fmap_Some in Hy as (slot&Hslot&->). apply min_by_Some in Hslot as [Hslot _].
    apply list_elem_of_omap in Hslot as (pin&Hpin&Hfs).
    destruct (entry_ok_in _ _ Hwf He) as [Hc _].
    apply first_slot_of_Some in Hfs; [|done].
    exists (with_pip (shape e) pin). split_and!; [by apply flat_unit|by rewrite shape_with_pip|].
    unfold on_shape. simpl. rewrite shape_with_pip, Hpred. by rewrite bool_decide_eq_true_2.
  - intros [s u] (e&He&Hu)%elem_of_flat [Hpin Hpred]%andb_true_iff. breflect. simpl in Hpin.
    apply elem_of_flat_entry in Hu as [Hsh Hs].
    destruct (entry_ok_in _ _ Hwf He) as [Hc _].
    destruct (first_slot_of_least e _ _ Hc Hs) as (s'&Hs'&Hle).
    assert (s' ∈ omap (first_slot_of e) pins) as Hin by (apply list_elem_of_omap; eauto).
    destruct (min_by id (omap (first_slot_of e) pins)) as [m|] eqn:Hm;
      [|apply min_by_None in Hm; rewrite Hm in Hin; by apply elem_of_nil in Hin].
    exists (m, shape e). split.
    + apply list_elem_of_omap. exists e. rewrite Hm. split; [|done].
      apply elem_of_List_filter. unfold on_shape in Hpred. simpl in Hpred. by rewrite Hsh in Hpred.
    + apply min_by_Some in Hm as [_ Hmin]. specialize (Hmin s' Hin). unfold id in Hmin. simpl. lia.
Qed.

Lemma unit_by_pip_spec p pip :
  entries_wf (entries p) →
  unit_by_pip p pip = snd <$> find_first (λ x, bool_decide (pip_id x.2 = pip)) (slotted_units p).
Proof.
  intros Hwf. unfold unit_by_pip, shape_of_pip.
  rewrite (min_query p (λ x, bool_decide (pip_id x.2 = pip))); [|done|..].
  - destruct (find_first _ _) as [x|] eqn:Hf; [|done]. simpl.
    apply find_first_Some in Hf as [_ Hp]. breflect. by rewrite <-Hp, with_pip_shape.
  - intros y (e&He&Hy)%list_elem_of_omap. apply fmap_Some in Hy as (slot&Hslot&->).
    destruct (entry_ok_in _ _ Hwf He) as [Hc _]. apply first_slot_of_Some in Hslot; [|done].
    exists (with_pip (shape e) pip). split_and!; [by apply flat_unit|by rewrite shape_with_pip|].
    by rewrite bool_decide_eq_true_2.
  - intros [s u] (e&He&Hu)%elem_of_flat Hpip. breflect. simpl in Hpip. subst pip.
    apply elem_of_flat_entry in Hu as [Hsh Hs].
    destruct (entry_ok_in _ _ Hwf He) as [Hc _].
    destruct (first_slot_of_least e _ _ Hc Hs) as (s'&Hs'&Hle). exists (s', shape e).
    split; [|done]. apply list_elem_of_omap. exists e. by rewrite Hs'.
Qed.

Lemma contains_pip_spec p pip :
  entries_wf (entries p) →
  contains_pip p pip = existsb (λ u, bool_decide (pip_id u = pip)) (units p).
Proof.
  intros Hwf. apply eq_true_iff_eq. unfold contains_pip. rewrite !existsb_exists.
  setoid_rewrite <-list_elem_of_In. split.
  - intros (e&He&Hp). breflect. destruct Hp as [X HX].
    destruct (entry_ok_in _ _ Hwf He) as [[H1 H2] _].
    destruct (set_choose_L X) as [s Hs]; [intros ->; by destruct (H2 pip)|].
    exists (with_pip (shape e) pip). rewrite bool_decide_eq_true_2 by done. split; [|done].
    apply (list_elem_of_fmap_2 snd _ (s, _)), elem_of_slotted, flat_unit; [done|].
    apply H1. by rewrite HX.
  - intros (u&Hu&Hp). breflect. subst pip.
    apply list_elem_of_fmap in Hu as ([s u']&->&Hu).
    apply elem_of_slotted, elem_of_flat in Hu as (e&He&Hu).
    apply elem_of_flat_entry in Hu as [_ Hs].
    exists e. split; [done|]. apply bool_decide_eq_true_2.
    destruct (entry_ok_in _ _ Hwf He) as [[H1 _] _]. apply H1 in Hs.
    destruct (by_pip e !! _); [by eexists|]. by apply elem_of_empty in Hs.
Qed.

(** Counting and filtering by shape. *)
Lemma filter_on_entry pred e :
  List.filter (on_shape pred) (flat_entry e) = if pred (shape e) then flat_entry e else [].
Proof.
  assert (∀ x, x ∈ flat_entry e → shape_of x.2 = shape e) as Hsh.
  { intros [s u] Hx. by apply elem_of_flat_entry in Hx as [? _]. }
  induction (flat_entry e) as [|x l IH]; simpl; [by destruct (pred (shape e))|].
  unfold on_shape at 1. rewrite (Hsh x) by left. rewrite IH by (intros; apply Hsh; by right).
  by destruct (pred (shape e)).
Qed.
Lemma filter_flat pred es :
  List.filter (on_shape pred) (flat es) = flat (List.filter (λ e, pred (shape e)) es).
Proof.
  induction es as [|e es IH]; [done|]. rewrite flat_cons, List.filter_app, filter_on_entry, IH.
  simpl. by destruct (pred (shape e)).
Qed.
#[export] Instance List_filter_proper {A} (f : A → bool) : Proper ((≡ₚ) ==> (≡ₚ)) (List.filter f).
Proof.
  induction 1 as [|x k k' _ IH|x y k| ]; simpl; [done| | |by etrans].
  - by destruct (f x); rewrite ?IH.
  - destruct (f x), (f y); done || apply Permutation_swap.
Qed.
Lemma fmap_filter {A B} (f : B → bool) (g : A → B) (k : list A) :
  List.filter f (g <$> k) = g <$> List.filter (λ x, f (g x)) k.
Proof.
  induction k as [|x k IH]; [done|]. rewrite fmap_cons. cbn [List.filter]. rewrite IH.
  by destruct (f (g x)).
Qed.

Lemma count_where_spec p pred :
  count_where p pred = length (List.filter (λ u, pred (shape_of u)) (units p)).
Proof.
  unfold units. rewrite fmap_filter, length_fmap, slotted_perm.
  change (λ x : N * ManaUnit, pred (shape_of x.2)) with (on_shape pred).
  rewrite filter_flat. unfold count_where, shapes. rewrite fmap_filter. cbn [fst].
  induction (List.filter _ (entries p)) as [|e es IH]; [done|].
  rewrite flat_cons, length_app, !fmap_cons. cbn [sum_list snd]. rewrite IH. f_equal.
  unfold flat_entry. by rewrite length_fmap, length_map_to_list.
Qed.

(** ** Operations on the list of slots *)
Lemma last_slot_spec e :
  slots e ≠ ∅ → ∃ slot, last_slot e = Ok slot ∧ slot ∈ (flat_entry e).*1 ∧
    ∀ s, s ∈ (flat_entry e).*1 → s <= slot.
Proof.
  intros Hne. unfold last_slot. destruct (set_max _) as [slot|] eqn:Hm.
  - exists slot. split; [done|]. apply set_max_Some in Hm as [Hin Hmax].
    rewrite keys_flat_entry, <-elem_of_dom. split; [done|].
    intros s. rewrite keys_flat_entry, <-elem_of_dom. auto.
  - apply set_max_None in Hm. by apply dom_empty_inv_L in Hm.
Qed.

(** The slot [swap_remove] moves into the hole. *)
Lemma last_of_pool p :
  entries_wf (entries p) → flat (entries p) ≠ [] →
  ∃ lasts last, mapM last_slot (entries p) = Ok lasts ∧
    set_max (list_to_set lasts) = Some last ∧ last ∈ (flat (entries p)).*1 ∧
    ∀ s, s ∈ (flat (entries p)).*1 → s <= last.
Proof.
  intros Hwf Hne.
  destruct (mapM_Ok last_slot (entries p)) as (lasts&Hl&Hall).
  { intros e He. destruct (entry_ok_in _ _ Hwf He) as [_ Hn].
    destruct (last_slot_spec e Hn) as (s&->&_). by eexists. }
  exists lasts. assert (∀ s, s ∈ (flat (entries p)).*1 → ∃ m, m ∈ lasts ∧ s <= m) as Hup.
  { intros s ([s' u]&->&(e&He&Hu)%elem_of_flat)%list_elem_of_fmap.
    apply list_elem_of_lookup in He as [i Hi].
    destruct (Forall2_lookup_l _ _ _ _ _ Hall Hi) as (m&Hl'&Heq).
    exists m. split; [by eapply list_elem_of_lookup_2|].
    apply list_elem_of_lookup_2 in Hi. destruct (entry_ok_in _ _ Hwf Hi) as [_ Hn].
    destruct (last_slot_spec e Hn) as (l'&Hl''&_&Hmax). rewrite Heq in Hl''. injection Hl'' as <-.
    apply Hmax. by apply (list_elem_of_fmap_2 fst _ _ Hu). }
  destruct (set_max (list_to_set lasts)) as [last|] eqn:Hm.
  - apply set_max_Some in Hm as [Hin Hmax]. exists last. split_and!; [done..| |].
    + apply elem_of_list_to_set, list_elem_of_lookup in Hin as [i Hi].
      destruct (Forall2_lookup_r _ _ _ _ _ Hall Hi) as (e&He%list_elem_of_lookup_2&Heq).
      destruct (entry_ok_in _ _ Hwf He) as [_ Hn].
      destruct (last_slot_spec e Hn) as (l'&Hl''&Hk&_). rewrite Heq in Hl''. injection Hl'' as <-.
      apply key_of_entry in Hk as (u&Hu&_). apply list_elem_of_fmap. exists (last, u).
      split; [done|]. apply elem_of_flat. eauto.
    + intros s (m&Hin'&Hle)%Hup. specialize (Hmax m). etrans; [done|].
      apply Hmax. by apply elem_of_list_to_set.
  - apply set_max_None in Hm. destruct (flat (entries p)) as [|x f] eqn:Hf; [done|].
    destruct (Hup x.1) as (m&Hl'&_); [left|].
    assert (m ∈ (list_to_set lasts : gset N)) by (by apply elem_of_list_to_set). set_solver.
Qed.

Lemma swap_remove_spec p slot u :
  entries_wf (entries p) → (slot, u) ∈ flat (entries p) →
  ∃ p' last v, swap_remove p slot = Ok (u, p') ∧ entries_wf (entries p') ∧ same_stamps p p' ∧
    (∀ s, s ∈ (flat (entries p)).*1 → s <= last) ∧
    ((last, v) = (slot, u) ∧ flat (entries p) ≡ₚ (slot, u) :: flat (entries p') ∨
     last ≠ slot ∧ ∃ F, flat (entries p) ≡ₚ (slot, u) :: (last, v) :: F ∧
       flat (entries p') ≡ₚ (slot, v) :: F).
Proof.
  intros Hwf Hin.
  destruct (last_of_pool p Hwf) as (lasts&last&Hl&Hm&Hlast&Hmax).
  { intros He. rewrite He in Hin. by apply elem_of_nil in Hin. }
  destruct (take_slot_spec p slot u Hwf Hin) as (p1&Ht&Hwf1&Hst&Hperm).
  unfold swap_remove. rewrite Hl. cbn [mbind outcome_bind]. rewrite Hm, Ht.
  cbn [or_panic mbind outcome_bind]. destruct (N.eqb_spec last slot) as [->|Hne].
  { exists p1, slot, u. split_and!; try done. by left. }
  assert (∃ v, (last, v) ∈ flat (entries p1)) as [v Hv].
  { rewrite Hperm in Hlast. simpl in Hlast. apply elem_of_cons in Hlast as [|Hlast]; [done|].
    apply list_elem_of_fmap in Hlast as ([l v]&->&Hv). by exists v. }
  destruct (entry_of_slot_spec p1 last) as [HS HN].
  destruct (entry_of_slot p1 last) as [i|]; cycle 1.
  { destruct (HN eq_refl). by apply (list_elem_of_fmap_2 fst _ _ Hv). }
  destruct (HS i eq_refl) as (e&pip&Hi&Hs). clear HS HN. cbn. rewrite Hi. cbn.
  destruct (entries_split _ _ _ Hi) as (rest&Hes&_&Hset&_).
  pose proof Hwf1 as Hwf1'. rewrite Hes in Hwf1'.
  pose proof (proj1 (entries_wf_cons _ _) Hwf1') as ((Hc&_)&_&Hd&_).
  destruct (entry_remove_spec last pip e Hc Hs) as (e'&He'&Hsh&Hsl&Hc'&Hpe).
  assert (v = with_pip (shape e) pip) as Hveq.
  { eapply flat_inj; [exact Hwf1|exact Hv|]. by eapply flat_unit; [eapply list_elem_of_lookup_2|]. }
  assert (slots e' !! slot = None) as Hfree.
  { rewrite Hsl, lookup_delete_ne by done. apply eq_None_not_Some. intros Hk.
    rewrite <-keys_flat_entry in Hk.
    pose proof (wf_slots _ Hwf) as Hnd. rewrite Hperm in Hnd. simpl in Hnd.
    apply NoDup_cons in Hnd as [Hnd _]. apply Hnd. rewrite Hes, flat_cons, fmap_app.
    apply elem_of_app. by left. }
  rewrite He'. cbn. eexists _, last, v. split; [done|]. cbn.
  assert (flat_entry (entry_insert slot pip e') ≡ₚ (slot, v) :: flat_entry e') as Hins.
  { rewrite flat_entry_insert by done. by rewrite Hsh, Hveq. }
  split_and!; [|done|done|].
  - rewrite Hset. apply (entries_wf_replace e); [done|done|by apply entry_insert_ok|].
    intros s. rewrite Hins. intros [->|Hk]%elem_of_cons.
    + intros Hr. pose proof (wf_slots _ Hwf) as Hnd. rewrite Hperm in Hnd. simpl in Hnd.
      apply NoDup_cons in Hnd as [Hnd _]. apply Hnd. rewrite Hes, flat_cons, fmap_app.
      apply elem_of_app. by right.
    + apply Hd. rewrite Hpe. by right.
  - right. split; [done|]. exists (flat_entry e' ++ flat rest).
    split; [by rewrite Hperm, Hes, flat_cons, Hpe, <-Hveq|].
    etrans; [apply flat_proper, Hset|]. by rewrite flat_cons, Hins.
Qed.

(** Whole-pool edits. *)
Definition edit_unit (edit : ManaShape → option ManaShape) u : ManaUnit :=
  with_pip (default (shape_of u) (edit (shape_of u))) (pip_id u).
Definition edit_slotted edit (x : N * ManaUnit) : N * ManaUnit := (x.1, edit_unit edit x.2).

Lemma retain_shapes_spec p keep :
  entries_wf (entries p) →
  entries_wf (entries (retain_shapes p keep)) ∧
  flat (entries (retain_shapes p keep)) = List.filter (on_shape keep) (flat (entries p)).
Proof.
  intros Hwf. unfold retain_shapes. simpl. rewrite filter_flat. split; [|done].
  induction (entries p) as [|e es IH]; [done|].
  apply entries_wf_cons in Hwf as (?&Hsh&Hd&Hwf). simpl. destruct (keep (shape e)); [|by apply IH].
  assert (∀ x, x ∈ List.filter (λ e, keep (shape e)) es → x ∈ es) as Hsub
    by (intros x [? _]%elem_of_List_filter; done).
  apply entries_wf_cons. split_and!; [done| | |by apply IH].
  - intros (e'&He'&Hin)%list_elem_of_fmap. apply Hsh. rewrite He'.
    by apply list_elem_of_fmap_2, Hsub.
  - intros s Hs ([s' u]&->&(e'&He'&Hu)%elem_of_flat)%list_elem_of_fmap. apply (Hd s' Hs).
    apply list_elem_of_fmap. exists (s', u). split; [done|]. apply elem_of_flat. eauto.
Qed.

Lemma insert_all kept k :
  consistent kept → slots kept ≠ ∅ → NoDup k.*1 → (∀ slot, slot ∈ k.*1 → slots kept !! slot = None) →
  let kept' := fold_left (λ kept '(slot, pip), entry_insert slot pip kept) k kept in
  entry_ok kept' ∧ shape kept' = shape kept ∧
  flat_entry kept' ≡ₚ
    flat_entry kept ++ ((λ '(slot, pip), (slot, with_pip (shape kept) pip)) <$> k).
Proof.
  revert kept. induction k as [|[slot pip] k IH]; intros kept Hc Hne Hnd Hfree; cbn [fold_left].
  { rewrite fmap_nil, app_nil_r. done. }
  rewrite fmap_cons in Hnd. apply NoDup_cons in Hnd as [Hn Hnd].
  assert (slots kept !! slot = None) as Hslot by (apply Hfree; left).
  destruct (IH (entry_insert slot pip kept)) as (Hok&Hsh&Hp).
  - by apply entry_insert_consistent.
  - simpl. apply insert_non_empty.
  - done.
  - intros s Hs. simpl. rewrite lookup_insert_ne by (intros ->; done). apply Hfree. by right.
  - split_and!; [done..|]. rewrite Hp, flat_entry_insert by done. simpl.
    by rewrite Permutation_middle.
Qed.

Lemma merge_entry_spec merged e :
  entries_wf merged → entry_ok e →
  (∀ slot, slot ∈ (flat_entry e).*1 → slot ∉ (flat merged).*1) →
  entries_wf (merge_entry merged e) ∧ flat (merge_entry merged e) ≡ₚ flat merged ++ flat_entry e.
Proof.
  intros Hwf Hok Hd. unfold merge_entry. destruct (position _ _) as [i|] eqn:Hpos.
  - apply position_Some in Hpos as (kept&Hi&Hsh&_). breflect.
    destruct (entries_split _ _ _ Hi) as (rest&Hes&Hset&_&_).
    rewrite Hes in Hwf. pose proof (proj1 (entries_wf_cons _ _) Hwf) as ((Hc&Hne)&_&Hdk&_).
    assert (∀ slot, slot ∈ (flat_entry e).*1 → slot ∉ (flat_entry kept).*1 ∧ slot ∉ (flat rest).*1)
      as Hsep.
    { intros s Hs. specialize (Hd s Hs). rewrite Hes, flat_cons, fmap_app in Hd.
      by apply not_elem_of_app in Hd. }
    destruct (insert_all kept (map_to_list (slots e))) as (Hok'&Hsh'&Hp); [done|done| | |].
    { apply NoDup_fst_map_to_list. }
    { intros s ([s' pip]&->&Hin%elem_of_map_to_list)%list_elem_of_fmap. simpl.
      rewrite eq_None_not_Some, <-keys_flat_entry. apply Hsep, keys_flat_entry. by eexists. }
    rewrite Hsh in Hp. change (_ <$> map_to_list (slots e)) with (flat_entry e) in Hp.
    split.
    + rewrite Hset. apply (entries_wf_replace kept); [done..|].
      intros s. rewrite Hp, fmap_app. intros [Hs|Hs]%elem_of_app; [by apply Hdk|by apply Hsep].
    + rewrite Hset, Hes, !flat_cons, Hp. by rewrite <-!app_assoc, (Permutation_app_comm (flat rest)).
  - rewrite position_None in Hpos. rewrite (Permutation_app_comm merged). simpl. split.
    + apply entries_wf_cons. split_and!; [done| |done..].
      intros (e'&He'&Hin)%list_elem_of_fmap. specialize (Hpos e' Hin). breflect. by destruct Hpos.
    + rewrite flat_cons. by rewrite Permutation_app_comm.
Qed.

Lemma flat_edit_entry edit e :
  flat_entry (edit_entry edit e) = edit_slotted edit <$> flat_entry e.
Proof.
  unfold flat_entry. simpl. rewrite <-list_fmap_compose. apply list_fmap_ext.
  intros _ [slot pip] _. unfold edit_slotted, edit_unit. simpl. by rewrite shape_with_pip.
Qed.
Lemma edit_slotted_keys edit (k : list (N * ManaUnit)) : (edit_slotted edit <$> k).*1 = k.*1.
Proof. rewrite <-list_fmap_compose. by apply list_fmap_ext. Qed.
Lemma edit_entry_ok edit e : entry_ok e → entry_ok (edit_entry edit e).
Proof. intros [[H1 H2] Hne]. split; [split; done|done]. Qed.

Lemma edit_loop edit es merged :
  entries_wf merged → Forall entry_ok es → NoDup (flat es).*1 →
  (∀ slot, slot ∈ (flat es).*1 → slot ∉ (flat merged).*1) →
  let es' := fold_left (λ merged e, merge_entry merged (edit_entry edit e)) es merged in
  entries_wf es' ∧ flat es' ≡ₚ flat merged ++ (edit_slotted edit <$> flat es).
Proof.
  revert merged. induction es as [|e es IH]; intros merged Hwf Hok Hnd Hd; cbn [fold_left].
  { unfold flat at 3. simpl. rewrite app_nil_r. done. }
  inversion_clear Hok as [|?? He Hes].
  rewrite flat_cons, fmap_app in Hnd, Hd. apply NoDup_app in Hnd as (_&Hsep&Hnd).
  destruct (merge_entry_spec merged (edit_entry edit e)) as [Hwf' Hp];
    [done|by apply edit_entry_ok| |].
  { intros s. rewrite flat_edit_entry, edit_slotted_keys. intros Hs. apply Hd, elem_of_app. by left. }
  rewrite flat_edit_entry in Hp.
  destruct (IH (merge_entry merged (edit_entry edit e))) as [Hwf'' Hp']; [done..| |].
  { intros s Hs. rewrite Hp, fmap_app, edit_slotted_keys. apply not_elem_of_app. split.
    - apply Hd, elem_of_app. by right.
    - intros Hs'. by apply (Hsep s). }
  split; [done|]. rewrite Hp', Hp, flat_cons, fmap_app. by rewrite <-app_assoc.
Qed.

Lemma edit_shapes_spec p edit :
  entries_wf (entries p) →
  entries_wf (entries (edit_shapes p edit)) ∧ same_stamps p (edit_shapes p edit) ∧
  flat (entries (edit_shapes p edit)) ≡ₚ edit_slotted edit <$> flat (entries p).
Proof.
  intros Hwf. unfold edit_shapes. destruct (existsb _ _) eqn:Hany.
  - destruct (edit_loop edit (entries p) []) as [Hwf' Hp];
      [apply entries_wf_nil|apply Hwf|apply Hwf|intros s _ Hs; by apply elem_of_nil in Hs|].
    by split_and!.
  - split_and!; [done|done|]. apply reflexive_eq. rewrite <-(list_fmap_id (flat _)) at 1.
    apply list_fmap_ext. intros i [s u] Hx%list_elem_of_lookup_2.
    apply elem_of_flat in Hx as (e&He&Hu). apply elem_of_flat_entry in Hu as [Hsh _].
    assert (edit (shape e) = None) as Hnone.
    { apply eq_None_not_Some. intros Hs. apply not_true_iff_false in Hany. apply Hany.
      apply existsb_exists. exists e. rewrite <-list_elem_of_In. split; [done|].
      by apply bool_decide_eq_true_2. }
    unfold edit_slotted, edit_unit. simpl. rewrite Hsh, Hnone. simpl.
    by rewrite <-Hsh, with_pip_shape.
Qed.
End order.
