(* ===== verification/ManaPoolVec.v ===== *)
(** * The mana pool behaves as a [Vec] of units

    The pool of [ManaPool.v] against the pool it replaced, a plain vector of
    units in pool order ([ReferencePool] of [crates/phase-ast/src/types/mana.rs]):
    the reference operations, and that every operation of the shape pool gives
    what the vector gives, including which unit a spend takes and the order the
    survivors are left in. *)
From S2P Require Import Prelude Text GameTypes ManaSymbols ManaRestrictions ManaUnits.
From S2P Require Import ManaPool ManaPoolOrder.
Local Open Scope nat_scope.

(** ** Lists *)
Section lists.
Context {A B : Type}.
Implicit Types (k : list A).

Lemma find_first_fmap (g : B → A) (P : A → bool) (k : list B) :
  find_first P (g <$> k) = g <$> find_first (λ x, P (g x)) k.
Proof.
  induction k as [|x k IH]; [done|]. rewrite fmap_cons. cbn [find_first].
  by destruct (P (g x)).
Qed.
Lemma position_fmap (g : B → A) (P : A → bool) (k : list B) :
  position P (g <$> k) = position (λ x, P (g x)) k.
Proof.
  induction k as [|x k IH]; [done|]. rewrite fmap_cons. cbn [position]. by rewrite IH.
Qed.
Lemma position_ext (P Q : A → bool) k :
  (∀ x, x ∈ k → P x = Q x) → position P k = position Q k.
Proof.
  induction k as [|x k IH]; intros H; simpl; [done|]. rewrite (H x) by left.
  rewrite IH; [done|]. intros y Hy. apply H. by right.
Qed.
Lemma vec_swap_remove_middle (k1 k2 : list A) x y :
  vec_swap_remove (length k1) (k1 ++ x :: k2 ++ [y]) = k1 ++ y :: k2.
Proof.
  unfold vec_swap_remove.
  replace (k1 ++ x :: k2 ++ [y]) with ((k1 ++ x :: k2) ++ [y]) by (by rewrite <-app_assoc).
  rewrite last_snoc, length_app. simpl.
  rewrite insert_app_l by (rewrite length_app; simpl; lia).
  rewrite insert_app_r_alt, Nat.sub_diag by done. simpl.
  rewrite take_app_le by (rewrite !length_app; simpl; lia).
  apply take_ge. rewrite !length_app. simpl. lia.
Qed.
Lemma vec_swap_remove_last (k1 : list A) x : vec_swap_remove (length k1) (k1 ++ [x]) = k1.
Proof.
  unfold vec_swap_remove. rewrite last_snoc, length_app. simpl.
  rewrite insert_app_r_alt, Nat.sub_diag by done. simpl.
  rewrite take_app_le, take_ge by lia. done.
Qed.
Lemma vec_remove_fmap (g : A → B) i k : g <$> vec_remove i k = vec_remove i (g <$> k).
Proof. unfold vec_remove. by rewrite fmap_app, fmap_take, fmap_drop. Qed.
Lemma elem_of_take_inv n k x : x ∈ take n k → x ∈ k.
Proof. rewrite elem_of_take. intros (i&Hi&_). by eapply list_elem_of_lookup_2. Qed.
Lemma list_filter_ext (f g : A → bool) k :
  (∀ x, x ∈ k → f x = g x) → List.filter f k = List.filter g k.
Proof.
  induction k as [|x k IH]; intros H; [done|]. simpl. rewrite (H x) by left.
  rewrite IH; [done|]. intros y Hy. apply H. by right.
Qed.
Lemma keyed_keys (k k' : list (N * A)) : k.*1 = k'.*1 → keyed k → keyed k'.
Proof.
  rewrite !keyed_lookup. intros Hk H i j x y Hi Hj Hij.
  assert (∀ n z, k' !! n = Some z → ∃ z', k !! n = Some z' ∧ z'.1 = z.1) as Hl.
  { intros n z Hn. assert (k.*1 !! n = Some z.1) as Hz by (by rewrite Hk, list_lookup_fmap, Hn).
    by apply list_lookup_fmap_Some in Hz as (z'&->&?); eauto. }
  destruct (Hl i x Hi) as (x'&?&Hx), (Hl j y Hj) as (y'&?&Hy).
  unfold key_lt. rewrite <-Hx, <-Hy. by apply (H i j).
Qed.
End lists.

Section vec.
Context {KeywordKind ManaSpellGrant : Type}.
Context `{EqDecision KeywordKind, EqDecision ManaSpellGrant}.
Local Abbreviation ManaUnit := (ManaUnit KeywordKind ManaSpellGrant).
Local Abbreviation ManaShape := (ManaShape KeywordKind ManaSpellGrant).
Local Abbreviation ManaPool := (ManaPool KeywordKind ManaSpellGrant).
Implicit Types (p : ManaPool) (u : ManaUnit) (v : list ManaUnit) (sh : ManaShape)
  (es : list (PoolEntry KeywordKind ManaSpellGrant)).

(** ** The reference pool *)

(** [ReferencePool::swap_remove_where] *)
Definition vec_swap_remove_where (v : list ManaUnit) (pred : ManaShape → bool)
    : option ManaUnit * list ManaUnit :=
  match position (λ u, pred (shape_of u)) v with
  | Some pos => (v !! pos, vec_swap_remove pos v)
  | None => (None, v)
  end.

Definition vec_spend_for (v : list ManaUnit) (c : ManaType.t) (ctx : PaymentContext KeywordKind)
    : option ManaUnit * list ManaUnit :=
  match vec_swap_remove_where v (λ m,
      bool_decide (sh_color m = c) && permits_actual_mana_type ctx (sh_color m)
      && bool_decide (sh_restrictions m = [])) with
  | (Some u, v) => (Some u, v)
  | (None, v) =>
      vec_swap_remove_where v (λ m,
        bool_decide (sh_color m = c) && permits_actual_mana_type ctx (sh_color m)
        && negb (bool_decide (sh_restrictions m = []))
        && forallb (λ r, allows r ctx) (sh_restrictions m))
  end.

(** The [retain] of [ReferencePool::spend_generic]. *)
Fixpoint drop_unrestricted (remaining : nat) (v : list ManaUnit) : list ManaUnit :=
  match v with
  | [] => []
  | u :: v =>
      if (remaining =? 0) || negb (unrestricted (shape_of u)) then u :: drop_unrestricted remaining v
      else drop_unrestricted (remaining - 1) v
  end.
Definition vec_spend_generic (v : list ManaUnit) (count : nat) : bool * list ManaUnit :=
  if length (List.filter (λ u, unrestricted (shape_of u)) v) <? count then (false, v)
  else (true, drop_unrestricted count v).

Fixpoint vec_remove_exact (us : list ManaUnit) (v : list ManaUnit)
    : outcome ExactManaRemovalError () * list ManaUnit :=
  match us with
  | [] => (Ok (), v)
  | u :: us =>
      match position (λ c, bool_decide (pip_id c = pip_id u) && unit_eq c u) v with
      | Some pos => vec_remove_exact us (vec_swap_remove pos v)
      | None =>
          if existsb (λ c, bool_decide (pip_id c = pip_id u)) v
          then (Err (MismatchedUnit (pip_id u)), v)
          else (Err (MissingPip (pip_id u)), v)
      end
  end.

(** [ReferencePool::edit_expiry]; the inner option is the new marker. *)
Definition vec_edit_expiry
    (edit : option ManaExpiry.t → option (option ManaExpiry.t)) (v : list ManaUnit)
    : list ManaUnit :=
  (λ u, match edit (expiry u) with
        | Some x => with_pip (set_expiry x (shape_of u)) (pip_id u)
        | None => u
        end) <$> v.

(** ** The abstraction: a well-formed pool presents its units in slot order *)
Definition refines p v : Prop := pool_wf p ∧ units p = v.

Lemma pool_wf_sub p p' :
  pool_wf p → entries_wf (entries p') → same_stamps p p' →
  (∀ x, x ∈ (flat (entries p')).*1 → x ∈ (flat (entries p)).*1) → pool_wf p'.
Proof.
  intros [_ Hn] Hwf [Hs _] Hsub. split; [done|]. intros x Hx. rewrite Hs.
  apply (list_elem_of_fmap_2 fst) in Hx. apply Hsub in Hx.
  apply list_elem_of_fmap in Hx as (y&->&Hy). by apply Hn.
Qed.

Lemma slotted_at p i u :
  units p !! i = Some u → ∃ slot, slotted_units p !! i = Some (slot, u).
Proof. unfold units. intros ([slot u']&->&?)%list_lookup_fmap_Some. by exists slot. Qed.

Lemma push_refines p u :
  pool_wf p → (next_slot p + 1 < 2 ^ 64)%N →
  refines (push_merged p u) (units p ++ [u]) ∧
  next_slot (push_merged p u) = (next_slot p + 1)%N ∧ provenance (push_merged p u) = provenance p.
Proof.
  intros [Hwf Hn] Hb. unfold push_merged. simpl.
  set (p0 := {| entries := entries p; next_slot := u64_add (next_slot p) 1; provenance := provenance p |}).
  assert (u64_add (next_slot p) 1 = next_slot p + 1)%N as Hadd by (unfold wadd; by apply wrap_small).
  destruct (insert_at_spec p0 (next_slot p) (shape_of u) (pip_id u)) as [Hwf' Hp].
  { done. }
  { intros (x&Hx&Hin)%list_elem_of_fmap. specialize (Hn x Hin). lia. }
  change (insert_at p0 (next_slot p) _ (pip_id u))
    with (insert_at p0 (next_slot p) (shape_of u) (pip_id u)).
  rewrite with_pip_shape in Hp. split_and!; [|done|done].
  split; [split; [done|]|].
  - intros x. rewrite Hp. simpl. rewrite Hadd.
    intros [->|Hx]%elem_of_cons; simpl; [lia|]. specialize (Hn x Hx). lia.
  - unfold units. rewrite (slotted_unique _ (slotted_units p ++ [(next_slot p, u)])); [|done|..].
    + by rewrite fmap_app.
    + apply keyed_app. split_and!; [by apply keyed_slotted|repeat constructor|].
      intros x y Hx ->%list_elem_of_singleton. unfold key_lt. simpl.
      apply Hn. by rewrite <-elem_of_slotted.
    + rewrite Hp. simpl. rewrite slotted_perm. by rewrite Permutation_app_comm.
Qed.

(** ** Each operation *)
Lemma push_all_refines us p :
  pool_wf p → (next_slot p + N.of_nat (length us) < 2 ^ 64)%N →
  refines (fold_left push_merged us p) (units p ++ us) ∧
  next_slot (fold_left push_merged us p) = (next_slot p + N.of_nat (length us))%N.
Proof.
  revert p. induction us as [|u us IH]; intros p Hwf Hb; cbn [fold_left].
  { rewrite app_nil_r. split; [done|]. simpl. lia. }
  cbn [length] in *. destruct (push_refines p u Hwf) as ([Hwf' Hu]&Hn&_); [lia|].
  destruct (IH (push_merged p u) Hwf') as ([Hwf'' Hu']&Hn'); [lia|].
  split; [split; [done|]|lia]. by rewrite Hu', Hu, <-app_assoc.
Qed.

Lemma vec_remove_slotted p p' i slot u :
  pool_wf p → slotted_units p !! i = Some (slot, u) →
  entries_wf (entries p') → flat (entries p) ≡ₚ (slot, u) :: flat (entries p') →
  slotted_units p' = vec_remove i (slotted_units p).
Proof.
  intros [Hwf _] Hi Hwf' Hp. apply slotted_unique; [done|by apply keyed_vec_remove, keyed_slotted|].
  apply (Permutation_cons_inv (a := (slot, u))).
  by rewrite <-Hp, <-slotted_perm, <-vec_remove_perm.
Qed.

Lemma elem_of_flat_at p i x : slotted_units p !! i = Some x → x ∈ flat (entries p).
Proof. intros H%list_elem_of_lookup_2. by rewrite <-elem_of_slotted. Qed.

Lemma remove_at_refines p i :
  pool_wf p →
  match units p !! i with
  | Some u => ∃ p', remove_at p i = Some (u, p') ∧ refines p' (vec_remove i (units p)) ∧
      same_stamps p p'
  | None => remove_at p i = None
  end.
Proof.
  intros Hwf. unfold remove_at. rewrite nth_slot_slotted.
  destruct (units p !! i) as [u|] eqn:Hu.
  - destruct (slotted_at p i u Hu) as [slot Hi]. rewrite Hi. simpl.
    destruct (take_slot_spec p slot u) as (p'&Ht&Hwf'&Hst&Hp); [apply Hwf|by eapply elem_of_flat_at|].
    exists p'. rewrite Ht. split_and!; [done| |done]. split.
    + apply (pool_wf_sub p); [done..|]. intros x Hx. rewrite Hp. by right.
    + unfold units. by rewrite (vec_remove_slotted p p' i slot u), vec_remove_fmap.
  - unfold units in Hu. rewrite list_lookup_fmap, fmap_None in Hu. by rewrite Hu.
Qed.

Lemma last_key p (k : list (N * ManaUnit)) m w last :
  pool_wf p → slotted_units p = k ++ [(m, w)] → last ∈ (flat (entries p)).*1 →
  (∀ s, s ∈ (flat (entries p)).*1 → (s <= last)%N) → last = m.
Proof.
  intros [Hwf _] Hk Hin Hmax. pose proof (keyed_slotted p Hwf) as Hkeyed.
  assert (m <= last)%N.
  { apply Hmax. rewrite <-slotted_perm, Hk, fmap_app. apply elem_of_app. right. left. }
  rewrite <-slotted_perm, Hk, fmap_app in Hin. apply elem_of_app in Hin as [Hin|Hin].
  - apply list_elem_of_fmap in Hin as ([s y]&->&Hy). rewrite Hk in Hkeyed.
    apply keyed_app in Hkeyed as (_&_&Hlt). specialize (Hlt _ (m, w) Hy ltac:(left)).
    unfold key_lt in Hlt. simpl in *. lia.
  - by apply list_elem_of_singleton in Hin.
Qed.

Lemma swap_remove_refines p i slot u :
  pool_wf p → slotted_units p !! i = Some (slot, u) →
  ∃ p', swap_remove p slot = Ok (u, p') ∧ refines p' (vec_swap_remove i (units p)) ∧ same_stamps p p'.
Proof.
  intros Hpwf Hi. pose proof Hpwf as [Hwf _].
  destruct (swap_remove_spec p slot u Hwf) as (p'&last&v&Hs&Hwf'&Hst&Hmax&Hcase);
    [by eapply elem_of_flat_at|].
  exists p'. split; [done|]. split; [|done].
  assert ((last, v) ∈ flat (entries p)) as Hlast.
  { destruct Hcase as [[-> ->]|(_&F&->&_)]; [left|right; left]. }
  assert (pool_wf p') as Hpwf'.
  { apply (pool_wf_sub p); [done..|]. intros x.
    destruct Hcase as [[_ Hp]|(_&F&Hp&Hp')]; [rewrite Hp; by right|].
    rewrite Hp', Hp. simpl. rewrite !elem_of_cons. tauto. }
  split; [done|]. pose proof (keyed_slotted p Hwf) as Hk.
  apply list_elem_of_split_length in Hi as (A&R&HL&->).
  destruct R as [|[m w] B _] using rev_ind.
  - assert (last = slot) as -> by (apply (last_key p A slot u); [done|done|by apply (list_elem_of_fmap_2 fst _ _ Hlast)|done]).
    destruct Hcase as [[_ Hp]|[? _]]; [|done].
    assert (slotted_units p' = A) as HA.
    { rewrite HL in Hk. apply slotted_unique; [done|by apply keyed_app in Hk as [? _]|].
      apply (Permutation_cons_inv (a := (slot, u))).
      by rewrite <-Hp, <-slotted_perm, HL, Permutation_app_comm. }
    unfold units. rewrite HA, HL, fmap_app. simpl.
    by rewrite <-(length_fmap snd A), vec_swap_remove_last.
  - assert (last = m) as ->.
    { apply (last_key p (A ++ (slot, u) :: B) m w); [done| |by apply (list_elem_of_fmap_2 fst _ _ Hlast)|done].
      by rewrite HL, <-app_assoc. }
    assert (slot < m)%N as Hlt.
    { rewrite HL in Hk. apply keyed_app in Hk as (_&Hk&_). apply keyed_cons in Hk as [_ Hk].
      apply (Hk (m, w)). apply elem_of_app. right. left. }
    destruct Hcase as [[[= -> ->] _]|(_&F&Hp&Hp')]; [lia|].
    assert (v = w) as ->.
    { eapply flat_inj; [exact Hwf|exact Hlast|].
      rewrite <-elem_of_slotted, HL. apply elem_of_app. right. right. apply elem_of_app. right. left. }
    assert (slotted_units p' = A ++ (slot, w) :: B) as HA.
    { apply slotted_unique; [done| |].
      - rewrite HL in Hk. apply (keyed_keys (A ++ (slot, u) :: B)).
        + rewrite !fmap_app. done.
        + replace (A ++ (slot, u) :: B ++ [(m, w)]) with ((A ++ (slot, u) :: B) ++ [(m, w)]) in Hk
            by (by rewrite <-app_assoc). by apply keyed_app in Hk as [? _].
      - rewrite Hp', <-Permutation_middle. constructor.
        apply (Permutation_cons_inv (a := (m, w))), (Permutation_cons_inv (a := (slot, u))).
        rewrite <-Hp, <-slotted_perm, HL, <-Permutation_middle. constructor.
        by rewrite app_assoc, (Permutation_app_comm (A ++ B)). }
    unfold units. rewrite HA, HL, !fmap_app. simpl. rewrite fmap_app. simpl.
    by rewrite <-(length_fmap snd A), vec_swap_remove_middle.
Qed.

Definition recolor_unit (c : ManaType.t) u : ManaUnit := with_pip (recolor c (shape_of u)) (pip_id u).

Lemma recolor_at_refines p i c :
  pool_wf p →
  match units p !! i with
  | Some u => ∃ p', recolor_at p i c = Some (color u, p') ∧
      refines p' (<[i := recolor_unit c u]> (units p)) ∧ same_stamps p p'
  | None => recolor_at p i c = None
  end.
Proof.
  intros Hpwf. pose proof Hpwf as [Hwf Hn]. unfold recolor_at. rewrite nth_slot_slotted.
  destruct (units p !! i) as [u|] eqn:Hu; cycle 1.
  { unfold units in Hu. rewrite list_lookup_fmap, fmap_None in Hu. by rewrite Hu. }
  destruct (slotted_at p i u Hu) as [slot Hi]. rewrite Hi. simpl.
  destruct (take_slot_spec p slot u) as (p1&Ht&Hwf1&Hst&Hp); [done|by eapply elem_of_flat_at|].
  rewrite Ht. simpl. eexists. split; [done|].
  destruct (insert_at_spec p1 slot (recolor c (shape_of u)) (pip_id u)) as [Hwf2 Hp2]; [done| |].
  { pose proof (wf_slots _ Hwf) as Hnd. rewrite Hp in Hnd. by apply NoDup_cons in Hnd as []. }
  split; [|done]. split.
  - apply (pool_wf_sub p); [done..|]. intros x. rewrite Hp. by setoid_rewrite Hp2.
  - unfold units. rewrite (slotted_unique _ (<[i := (slot, recolor_unit c u)]> (slotted_units p)));
      [by rewrite list_fmap_insert|done|..].
    + apply (keyed_keys (slotted_units p)); [|by apply keyed_slotted].
      rewrite list_fmap_insert. simpl. rewrite list_insert_id; [done|].
      by rewrite list_lookup_fmap, Hi.
    + setoid_rewrite Hp2. apply list_elem_of_split_length in Hi as (A&B&HL&->).
      rewrite HL, insert_app_r_alt, Nat.sub_diag by done. simpl. rewrite <-Permutation_middle.
      constructor. apply (Permutation_cons_inv (a := (slot, u))).
      by rewrite <-Hp, <-slotted_perm, HL, <-Permutation_middle.
Qed.

Lemma edit_refines p edit :
  pool_wf p →
  refines (edit_shapes p edit) (edit_unit edit <$> units p) ∧ same_stamps p (edit_shapes p edit).
Proof.
  intros Hpwf. pose proof Hpwf as [Hwf _].
  destruct (edit_shapes_spec p edit Hwf) as (Hwf'&Hst&Hp). split; [|done]. split.
  - apply (pool_wf_sub p); [done..|]. intros x. rewrite Hp. by rewrite edit_slotted_keys.
  - unfold units. rewrite (slotted_unique _ (edit_slotted edit <$> slotted_units p)); [|done|..].
    + rewrite <-!list_fmap_compose. by apply list_fmap_ext.
    + apply (keyed_keys (slotted_units p)); [by rewrite edit_slotted_keys|by apply keyed_slotted].
    + by rewrite Hp, slotted_perm.
Qed.

Lemma retain_refines p keep :
  pool_wf p →
  refines (retain_shapes p keep) (List.filter (λ u, keep (shape_of u)) (units p)).
Proof.
  intros Hpwf. pose proof Hpwf as [Hwf _].
  destruct (retain_shapes_spec p keep Hwf) as [Hwf' Hp]. split.
  - apply (pool_wf_sub p); [done..|]. intros x.
    rewrite Hp. intros (y&->&[Hy _]%elem_of_List_filter)%list_elem_of_fmap.
    by apply list_elem_of_fmap_2.
  - unfold units. rewrite fmap_filter.
    rewrite (slotted_unique _ (List.filter (on_shape keep) (slotted_units p))); [done|done|..].
    + pose proof (keyed_slotted p Hwf) as Hk. revert Hk.
      induction (slotted_units p) as [|x k IH]; intros Hk; [done|]. simpl.
      apply keyed_cons in Hk as [Hk Hx]. destruct (on_shape keep x); [|auto].
      apply keyed_cons. split; [auto|]. intros y [Hy _]%elem_of_List_filter. auto.
    + by rewrite Hp, slotted_perm.
Qed.

(** ** Spending *)
Lemma query_position p (P : ManaUnit → bool) :
  find_first (λ x, P x.2) (slotted_units p) = position P (units p) ≫= (slotted_units p !!.).
Proof. unfold units. by rewrite find_first_position, position_fmap. Qed.

(** Taking the unit a query finds is [swap_remove] at its position. *)
Lemma swap_remove_found p (P : ManaUnit → bool) :
  pool_wf p →
  match position P (units p) with
  | Some i => ∃ slot u p', find_first (λ x, P x.2) (slotted_units p) = Some (slot, u) ∧
      units p !! i = Some u ∧ swap_remove p slot = Ok (u, p') ∧
      refines p' (vec_swap_remove i (units p)) ∧ same_stamps p p'
  | None => find_first (λ x, P x.2) (slotted_units p) = None
  end.
Proof.
  intros Hwf. rewrite query_position. destruct (position P (units p)) as [i|] eqn:Hi; [|done].
  apply position_Some in Hi as (u&Hu&_). destruct (slotted_at p i u Hu) as [slot Hs].
  destruct (swap_remove_refines p i slot u Hwf Hs) as (p'&?&?&?).
  exists slot, u, p'. simpl. by rewrite Hs.
Qed.

Lemma spend_where_refines p pred :
  pool_wf p →
  ∃ p', (found ← first_where p pred; spend_found p found)
          = Ok ((vec_swap_remove_where (units p) pred).1, p') ∧
    refines p' (vec_swap_remove_where (units p) pred).2 ∧ same_stamps p p'.
Proof.
  intros Hwf. rewrite first_where_spec by apply Hwf.
  pose proof (swap_remove_found p (λ u, pred (shape_of u)) Hwf) as Hf.
  cbn beta in Hf. unfold on_shape.
  unfold vec_swap_remove_where. destruct (position _ _) as [i|].
  - destruct Hf as (slot&u&p'&->&Hu&Hs&Hr&Hst). exists p'. cbn. rewrite Hs. cbn.
    by rewrite Hu.
  - rewrite Hf. cbn. by exists p.
Qed.

Lemma spend_for_refines p c ctx :
  pool_wf p →
  ∃ p', spend_for p c ctx = Ok ((vec_spend_for (units p) c ctx).1, p') ∧
    refines p' (vec_spend_for (units p) c ctx).2 ∧ same_stamps p p'.
Proof.
  intros Hwf. unfold spend_for, vec_spend_for.
  set (P1 := λ sh : ManaShape, _ && _ && bool_decide (sh_restrictions sh = [])).
  set (P2 := λ sh : ManaShape, _ && _ && _ && forallb _ _).
  change (λ m : ManaShape, _ && bool_decide (sh_restrictions m = [])) with P1.
  pose proof (spend_where_refines p P1 Hwf) as (p1&H1&R1&S1).
  pose proof (spend_where_refines p P2 Hwf) as (p2&H2&R2&S2).
  rewrite (first_where_spec p P1) in H1 |- * by apply Hwf. cbn [mbind outcome_bind] in *.
  pose proof (swap_remove_found p (λ u, P1 (shape_of u)) Hwf) as Hf.
  cbn beta in Hf. unfold on_shape in *.
  destruct (position _ _) as [i|] eqn:Hi.
  - assert (vec_swap_remove_where (units p) P1 = (units p !! i, vec_swap_remove i (units p))) as HV
      by (unfold vec_swap_remove_where; by rewrite Hi).
    rewrite HV in *. destruct Hf as (slot&u&p'&Hf&Hu&_). rewrite Hf in *. rewrite Hu in *.
    by exists p1.
  - assert (vec_swap_remove_where (units p) P1 = (None, units p)) as ->
      by (unfold vec_swap_remove_where; by rewrite Hi).
    rewrite Hf. by exists p2.
Qed.

Definition without (ks : list N) (L : list (N * ManaUnit)) : list (N * ManaUnit) :=
  List.filter (λ x, negb (bool_decide (x.1 ∈ ks))) L.

Lemma keyed_List_filter (f : N * ManaUnit → bool) L : keyed L → keyed (List.filter f L).
Proof.
  induction L as [|x L IH]; [done|]. intros [Hk Hx]%keyed_cons. simpl.
  destruct (f x); [|auto]. apply keyed_cons. split; [auto|].
  intros y [Hy _]%elem_of_List_filter. auto.
Qed.

Lemma without_fresh ks L : (∀ x, x ∈ L → x.1 ∉ ks) → without ks L = L.
Proof.
  induction L as [|x L IH]; intros H; [done|]. unfold without in *. simpl.
  rewrite bool_decide_eq_false_2 by (apply H; left). simpl. f_equal.
  apply IH. intros y Hy. apply H. by right.
Qed.

Lemma take_one_refines p slot :
  pool_wf p →
  let p' := match take_slot p slot with Some (_, p) => p | None => p end in
  pool_wf p' ∧ same_stamps p p' ∧ slotted_units p' = without [slot] (slotted_units p).
Proof.
  intros Hpwf. pose proof Hpwf as [Hwf _].
  destruct (decide (slot ∈ (flat (entries p)).*1)) as [Hin|Hn].
  - apply list_elem_of_fmap in Hin as ([s u]&->&Hin). simpl.
    destruct (take_slot_spec p s u Hwf Hin) as (p'&->&Hwf'&Hst&Hp). split_and!; [|done|].
    + apply (pool_wf_sub p); [done..|]. intros x Hx. rewrite Hp. by right.
    + apply slotted_unique; [done|by apply keyed_List_filter, keyed_slotted|].
      unfold without. rewrite slotted_perm, Hp. simpl.
      rewrite bool_decide_eq_true_2 by (by left). simpl.
      fold (without [s] (flat (entries p'))). rewrite without_fresh; [done|].
      intros x Hx Heq%list_elem_of_singleton.
      pose proof (wf_slots _ Hwf) as Hnd. rewrite Hp in Hnd. apply NoDup_cons in Hnd as [Hnd _].
      apply Hnd. cbn [fst]. rewrite <-Heq. by apply list_elem_of_fmap_2.
  - rewrite (take_slot_None p slot Hn). split_and!; [done|done|].
    rewrite without_fresh; [done|]. intros x Hx Heq%list_elem_of_singleton. apply Hn.
    rewrite <-Heq. apply list_elem_of_fmap_2. by rewrite <-elem_of_slotted.
Qed.

Lemma take_many_refines ks p :
  pool_wf p →
  let p' := fold_left (λ p slot, match take_slot p slot with Some (_, p) => p | None => p end) ks p in
  pool_wf p' ∧ same_stamps p p' ∧ slotted_units p' = without ks (slotted_units p).
Proof.
  revert p. induction ks as [|k ks IH]; intros p Hwf; cbn [fold_left].
  { split_and!; [done|done|]. rewrite without_fresh; [done|]. intros x _ H. by apply elem_of_nil in H. }
  destruct (take_one_refines p k Hwf) as (Hwf1&Hst1&Hs1).
  set (p1 := match take_slot p k with Some (_, p) => p | None => p end) in *.
  destruct (IH p1 Hwf1) as (Hwf2&[Hn2 Hp2]&Hs2). destruct Hst1 as [Hn1 Hp1].
  split_and!; [done|split; congruence|]. rewrite Hs2, Hs1.
  clear. induction (slotted_units p) as [|x L IH]; [done|]. unfold without in *. simpl.
  destruct (decide (x.1 = k)) as [Hk|Hk].
  - rewrite (bool_decide_eq_true_2 (x.1 ∈ [k])) by (subst; left).
    rewrite (bool_decide_eq_true_2 (x.1 ∈ k :: ks)) by (subst; left). done.
  - rewrite (bool_decide_eq_false_2 (x.1 ∈ [k])) by (by rewrite list_elem_of_singleton).
    rewrite (bool_decide_ext (x.1 ∈ k :: ks) (x.1 ∈ ks)) by (rewrite elem_of_cons; tauto).
    simpl. destruct (bool_decide (x.1 ∈ ks)); simpl; by rewrite IH.
Qed.

(** The first [n] unrestricted units, as slots and as units. *)
Lemma without_first n (L : list (N * ManaUnit)) :
  keyed L →
  (without (take n (List.filter (on_shape unrestricted) L).*1) L).*2
    = drop_unrestricted n L.*2.
Proof.
  revert n. induction L as [|x L IH]; intros n Hk; [by destruct n|].
  apply keyed_cons in Hk as [Hk Hx]. rewrite fmap_cons. cbn [drop_unrestricted List.filter].
  assert (∀ y, y ∈ L → y.1 ≠ x.1) as Hne.
  { intros y Hy. specialize (Hx y Hy). unfold key_lt in Hx. lia. }
  assert (∀ m, x.1 ∉ take m (List.filter (on_shape unrestricted) L).*1) as Hfresh.
  { intros m (y&Hyx&[Hy _]%elem_of_List_filter)%elem_of_take_inv%list_elem_of_fmap.
    by destruct (Hne y Hy). }
  change (on_shape unrestricted x) with (unrestricted (shape_of x.2)).
  destruct (unrestricted (shape_of x.2)); simpl; rewrite ?orb_true_r, ?orb_false_r.
  - destruct n as [|n]; simpl.
    + rewrite <-IH by done. simpl. unfold without. simpl. done.
    + rewrite Nat.sub_0_r. unfold without. simpl.
      rewrite bool_decide_eq_true_2 by left. simpl. rewrite <-IH by done. f_equal.
      unfold without. apply list_filter_ext. intros y Hy. f_equal. apply bool_decide_ext.
      rewrite elem_of_cons. specialize (Hne y Hy). tauto.
  - unfold without. simpl. rewrite bool_decide_eq_false_2 by done. simpl. f_equal. by apply IH.
Qed.

Lemma keys_sorted (L : list (N * ManaUnit)) : keyed L → StronglySorted N.le L.*1.
Proof.
  induction L as [|x L IH]; [constructor|]. intros [Hk Hx]%keyed_cons. rewrite fmap_cons.
  constructor; [auto|]. apply Forall_forall. intros k (y&->&Hy)%list_elem_of_fmap.
  specialize (Hx y Hy). unfold key_lt in Hx. lia.
Qed.

Lemma free_slots p :
  entries_wf (entries p) →
  merge_sort N.le (concat ((λ e, (map_to_list (slots e)).*1) <$>
    List.filter (λ e, unrestricted (shape e)) (entries p)))
  = (List.filter (on_shape unrestricted) (slotted_units p)).*1.
Proof.
  intros Hwf. apply (StronglySorted_unique N.le).
  - apply StronglySorted_merge_sort; apply _.
  - by apply keys_sorted, keyed_List_filter, keyed_slotted.
  - rewrite merge_sort_Permutation, slotted_perm, filter_flat. apply reflexive_eq.
    induction (List.filter _ (entries p)) as [|e es IH]; [done|].
    rewrite flat_cons, !fmap_cons, fmap_app, <-IH. cbn [concat]. f_equal.
    unfold flat_entry. rewrite <-list_fmap_compose. apply list_fmap_ext. by intros _ [? ?] _.
Qed.

Lemma spend_generic_refines p count :
  pool_wf p →
  (spend_generic p count).1 = (vec_spend_generic (units p) count).1 ∧
  refines (spend_generic p count).2 (vec_spend_generic (units p) count).2 ∧
  same_stamps p (spend_generic p count).2.
Proof.
  intros Hwf. unfold spend_generic, vec_spend_generic. rewrite count_where_spec.
  destruct (_ <? count); [done|]. cbn [fst snd]. rewrite free_slots by apply Hwf.
  destruct (take_many_refines (take count (List.filter (on_shape unrestricted) (slotted_units p)).*1) p Hwf)
    as (Hwf'&Hst&Hs).
  split_and!; [done| |done]. split; [done|]. unfold units. rewrite Hs.
  apply without_first. apply keyed_slotted, Hwf.
Qed.

Lemma same_shape_entries es sh :
  entries_wf es → let c := List.filter (λ e, bool_decide (shape e = sh)) es in
  c = [] ∨ ∃ e, c = [e].
Proof.
  intros Hwf. cbn zeta. induction es as [|e es IH]; [by left|].
  apply entries_wf_cons in Hwf as (_&Hn&_&Hwf). simpl. case_bool_decide as He; [|by apply IH].
  right. exists e. f_equal. destruct (IH Hwf) as [|[e' He']]; [done|].
  assert (e' ∈ List.filter (λ e, bool_decide (shape e = sh)) es) as [Hin Hsh]%elem_of_List_filter
    by (rewrite He'; left). breflect.
  destruct Hn. rewrite He, <-Hsh. by apply list_elem_of_fmap_2.
Qed.

Lemma fst_found (o : option (N * ManaUnit)) : fst <$> o = fst <$> (found <$> o).
Proof. by destruct o. Qed.

(** Looking a unit up by pip and shape finds the first equal unit with that pip. *)
Lemma exact_slot p u :
  entries_wf (entries p) →
  head (omap (λ e, first_slot_of e (pip_id u))
    (List.filter (λ e, bool_decide (shape e = shape_of u)) (entries p)))
  = fst <$> find_first (λ x, bool_decide (pip_id x.2 = pip_id u) && unit_eq x.2 u) (slotted_units p).
Proof.
  intros Hwf. destruct (same_shape_entries (entries p) (shape_of u) Hwf) as [Hc|[e Hc]].
  - rewrite Hc. simpl. destruct (find_first _ _) as [x|] eqn:Hf; [|done].
    apply find_first_Some in Hf as [Hx Hp]. rewrite unit_eq_shape in Hp. breflect.
    rewrite elem_of_slotted, elem_of_flat in Hx. destruct Hx as (e&He&Hx). destruct x as [s w].
    apply elem_of_flat_entry in Hx as [Hsh _].
    assert (e ∈ List.filter (λ e, bool_decide (shape e = shape_of u)) (entries p)) as Hin.
    { apply elem_of_List_filter. split; [done|]. apply bool_decide_eq_true_2. simpl in *. congruence. }
    rewrite Hc in Hin. by apply elem_of_nil in Hin.
  - assert (e ∈ List.filter (λ e, bool_decide (shape e = shape_of u)) (entries p)) as He
      by (rewrite Hc; left).
    apply elem_of_List_filter in He as [He Hsh]. breflect.
    destruct (entry_ok_in _ _ Hwf He) as [Hcons _].
    rewrite Hc. simpl.
    assert (∀ s w, (s, w) ∈ flat (entries p) → pip_id w = pip_id u → unit_eq w u = true →
      slots e !! s = Some (pip_id u)) as Hone.
    { intros s w Hin Hpip Heq. rewrite unit_eq_shape in Heq. breflect.
      apply elem_of_flat in Hin as (e'&He'&Hw). apply elem_of_flat_entry in Hw as [Hsh' Hw].
      assert (e' ∈ List.filter (λ e, bool_decide (shape e = shape_of u)) (entries p)) as Hin.
      { apply elem_of_List_filter. split; [done|]. apply bool_decide_eq_true_2. congruence. }
      rewrite Hc in Hin. apply list_elem_of_singleton in Hin as ->. by rewrite Hw, Hpip. }
    rewrite fst_found, <-min_query with
      (c := match first_slot_of e (pip_id u) with Some s => [(s, shape e)] | None => [] end); [|done|..].
    + by destruct (first_slot_of e (pip_id u)).
    + intros y Hy. destruct (first_slot_of e (pip_id u)) as [s|] eqn:Hs; [|by apply elem_of_nil in Hy].
      apply list_elem_of_singleton in Hy as ->. apply first_slot_of_Some in Hs; [|done].
      exists u. split_and!; [|done|].
      * rewrite <-(with_pip_shape u), <-Hsh. by apply flat_unit.
      * simpl. rewrite unit_eq_shape. by rewrite !bool_decide_eq_true_2.
    + intros [s w] Hin [Hpip Heq]%andb_true_iff. breflect. simpl in *.
      destruct (first_slot_of_least e (pip_id u) s) as (s'&->&Hle); [done|by eapply Hone|].
      exists (s', shape e). split; [left|done].
Qed.

Lemma remove_exact_refines us p :
  pool_wf p →
  (remove_exact us p).1 = (vec_remove_exact us (units p)).1 ∧
  refines (remove_exact us p).2 (vec_remove_exact us (units p)).2 ∧
  same_stamps p (remove_exact us p).2.
Proof.
  revert p. induction us as [|u us IH]; intros p Hwf; [done|].
  cbn [remove_exact vec_remove_exact].
  change (into_shape_and_pip u) with (shape_of u, pip_id u). cbn beta iota.
  rewrite exact_slot, contains_pip_spec by apply Hwf.
  pose proof (swap_remove_found p (λ c, bool_decide (pip_id c = pip_id u) && unit_eq c u) Hwf) as Hf.
  cbn beta in Hf. destruct (position _ (units p)) as [i|].
  - destruct Hf as (slot&w&p'&Hf&_&Hs&[Hwf' Hu]&Hst). rewrite Hf. cbn. rewrite Hs.
    destruct (IH p' Hwf') as (H1&H2&H3). rewrite Hu in H1, H2. destruct Hst, H3.
    split_and!; [done|done|]. split; congruence.
  - rewrite Hf. cbn. by destruct (existsb _ _).
Qed.

(** ** Histories of a pool *)
Inductive pool_op :=
  | OpAdd (u : ManaUnit) | OpInsertJournaled (u : ManaUnit)
  | OpRemoveAt (i : nat) | OpRecolorAt (i : nat) (c : ManaType.t)
  | OpSpend (c : ManaType.t) | OpSpendFor (c : ManaType.t) (ctx : PaymentContext KeywordKind)
  | OpSpendGeneric (count : nat) | OpRemoveExact (us : list ManaUnit)
  | OpRemoveFromSource (source : N) | OpClear
  | OpClearExpired (from : option Phase.t) (to : Phase.t)
  | OpRetainAcross (from : option Phase.t) (to : Phase.t)
  | OpClearEndOfTurn.

Inductive observation :=
  | Nothing | TookUnit (u : option ManaUnit) | Recolored (c : option ManaType.t) | Paid (b : bool)
  | Removed (n : nat) | Exact (r : outcome ExactManaRemovalError ()).

Definition run_op (o : pool_op) (p : ManaPool) : outcome unit (observation * ManaPool) :=
  match o with
  | OpAdd u => Ok (Nothing, add p u)
  | OpInsertJournaled u => Ok (Nothing, insert_journaled p u)
  | OpRemoveAt i =>
      match remove_at p i with
      | Some (u, p) => Ok (TookUnit (Some u), p)
      | None => Ok (TookUnit None, p)
      end
  | OpRecolorAt i c =>
      match recolor_at p i c with
      | Some (c, p) => Ok (Recolored (Some c), p)
      | None => Ok (Recolored None, p)
      end
  | OpSpend c => '(u, p) ← spend p c; mret (TookUnit u, p)
  | OpSpendFor c ctx => '(u, p) ← spend_for p c ctx; mret (TookUnit u, p)
  | OpSpendGeneric count => let '(b, p) := spend_generic p count in Ok (Paid b, p)
  | OpRemoveExact us => let '(r, p) := remove_exact us p in Ok (Exact r, p)
  | OpRemoveFromSource source => let '(n, p) := remove_from_source p source in Ok (Removed n, p)
  | OpClear => Ok (Nothing, clear p)
  | OpClearExpired from to => Ok (Nothing, clear_expired_retention_markers p from to)
  | OpRetainAcross from to => Ok (Nothing, retain_across_phase_group_steps p from to)
  | OpClearEndOfTurn => Ok (Nothing, clear_expired_end_of_turn_retention_markers p)
  end.

(** The same operation on a vector of units. *)
Definition vec_op (o : pool_op) (v : list ManaUnit) : observation * list ManaUnit :=
  match o with
  | OpAdd u | OpInsertJournaled u => (Nothing, v ++ [u])
  | OpRemoveAt i =>
      (TookUnit (v !! i), if i <? length v then vec_remove i v else v)
  | OpRecolorAt i c =>
      (Recolored (color <$> v !! i), alter (recolor_unit c) i v)
  | OpSpend c =>
      let '(u, v) := vec_swap_remove_where v (λ sh, bool_decide (sh_color sh = c)) in
      (TookUnit u, v)
  | OpSpendFor c ctx => let '(u, v) := vec_spend_for v c ctx in (TookUnit u, v)
  | OpSpendGeneric count => let '(b, v) := vec_spend_generic v count in (Paid b, v)
  | OpRemoveExact us => let '(r, v) := vec_remove_exact us v in (Exact r, v)
  | OpRemoveFromSource source =>
      let kept := List.filter (λ u, negb (bool_decide (source_id u = source))) v in
      (Removed (length v - length kept), kept)
  | OpClear => (Nothing, [])
  | OpClearExpired from to =>
      (Nothing, vec_edit_expiry (λ x,
         match x with
         | Some ManaExpiry.EndOfCombat => if is_combat to then None else Some None
         | Some ManaExpiry.EndOfPhaseGroup => if leaving_phase_group from to then Some None else None
         | _ => None
         end) v)
  | OpRetainAcross from to =>
      (Nothing, if leaving_phase_group from to then v
                else vec_edit_expiry (λ x,
                  match x with None => Some (Some ManaExpiry.EndOfPhaseGroup) | _ => None end) v)
  | OpClearEndOfTurn =>
      (Nothing, vec_edit_expiry (λ x,
         match x with Some ManaExpiry.EndOfTurn => Some None | _ => None end) v)
  end.

Fixpoint run_ops (os : list pool_op) (p : ManaPool)
    : outcome unit (list observation * ManaPool) :=
  match os with
  | [] => mret ([], p)
  | o :: os => '(b, p) ← run_op o p; '(bs, p) ← run_ops os p; mret (b :: bs, p)
  end.
Fixpoint vec_ops (os : list pool_op) (v : list ManaUnit) : list observation * list ManaUnit :=
  match os with
  | [] => ([], v)
  | o :: os => let '(b, v) := vec_op o v in let '(bs, v) := vec_ops os v in (b :: bs, v)
  end.

Lemma edit_expiry_refines p edit edit' :
  pool_wf p →
  (∀ sh, edit sh = (λ x, set_expiry x sh) <$> edit' (sh_expiry sh)) →
  refines (edit_shapes p edit) (vec_edit_expiry edit' (units p)) ∧
  same_stamps p (edit_shapes p edit).
Proof.
  intros Hwf He. destruct (edit_refines p edit Hwf) as [Hr Hst]. split; [|done].
  replace (vec_edit_expiry edit' (units p)) with (edit_unit edit <$> units p); [done|].
  apply list_fmap_ext. intros _ u _. unfold edit_unit. rewrite He.
  change (sh_expiry (shape_of u)) with (expiry u).
  destruct (edit' (expiry u)); simpl; [done|]. apply with_pip_shape.
Qed.

Lemma with_provenance p pr v : refines p v → refines (set_provenance p pr) v.
Proof. intros [[Hwf Hn] Hu]. by split; [split|]. Qed.

Lemma wf_bound p p' : same_stamps p p' → (next_slot p' <= next_slot p + 1)%N.
Proof. intros [-> _]. lia. Qed.

(** One operation. *)
Lemma run_op_refines o p :
  pool_wf p → (next_slot p + 1 < 2 ^ 64)%N →
  ∃ p', run_op o p = Ok ((vec_op o (units p)).1, p') ∧ refines p' (vec_op o (units p)).2 ∧
    (next_slot p' <= next_slot p + 1)%N.
Proof.
  intros Hwf Hb.
  destruct o as [u|u|i|i c|c|c ctx|count|us|source| |from to|from to|]; cbn [run_op vec_op].
  - destruct (push_refines p u Hwf Hb) as (Hr&Hn&_). eexists. split; [done|].
    split; [by apply with_provenance|].
    change (next_slot (push_merged p u) <= next_slot p + 1)%N. rewrite Hn. lia.
  - destruct (push_refines p u Hwf Hb) as (Hr&Hn&_). eexists. split; [done|].
    split; [done|]. unfold insert_journaled. rewrite Hn. lia.
  - pose proof (remove_at_refines p i Hwf) as H. cbn [fst snd].
    destruct (units p !! i) as [u|] eqn:Hu.
    + destruct H as (p'&->&Hr&Hst). exists p'.
      rewrite (proj2 (Nat.ltb_lt _ _)) by (by eapply lookup_lt_Some).
      split_and!; [done..|by apply wf_bound].
    + rewrite H. exists p. apply lookup_ge_None in Hu.
      rewrite (proj2 (Nat.ltb_ge _ _)) by done. split_and!; [done..|lia].
  - pose proof (recolor_at_refines p i c Hwf) as H. cbn [fst snd].
    destruct (units p !! i) as [u|] eqn:Hu.
    + destruct H as (p'&->&Hr&Hst). exists p'. split_and!; [done| |by apply wf_bound].
      replace (alter (recolor_unit c) i (units p)) with (<[i := recolor_unit c u]> (units p)); [done|].
      apply list_eq. intros j. rewrite list_lookup_alter, list_lookup_insert.
      apply lookup_lt_Some in Hu as Hlt. repeat case_decide; subst; rewrite ?Hu; naive_solver lia.
    + rewrite H. exists p. split_and!; [done| |lia]. split; [done|]. simpl.
      apply list_eq. intros j. rewrite list_lookup_alter. case_decide; subst; by rewrite ?Hu.
  - destruct (spend_where_refines p (λ sh, bool_decide (sh_color sh = c)) Hwf) as (p'&H1&H2&H3).
    unfold spend. destruct (vec_swap_remove_where _ _) as [o v]. rewrite H1.
    exists p'. split_and!; [done..|by apply wf_bound].
  - destruct (spend_for_refines p c ctx Hwf) as (p'&H1&H2&H3).
    destruct (vec_spend_for _ _ _) as [o v]. rewrite H1. exists p'.
    split_and!; [done..|by apply wf_bound].
  - destruct (spend_generic_refines p count Hwf) as (H1&H2&H3).
    destruct (vec_spend_generic _ _) as [b v], (spend_generic p count) as [b' p']. simpl in *. subst.
    exists p'. split_and!; [done..|by apply wf_bound].
  - destruct (remove_exact_refines us p Hwf) as (H1&H2&H3).
    destruct (vec_remove_exact _ _) as [r v], (remove_exact us p) as [r' p']. simpl in *. subst.
    exists p'. split_and!; [done..|by apply wf_bound].
  - unfold remove_from_source.
    destruct (retain_refines p (λ sh, negb (bool_decide (sh_source_id sh = source))) Hwf) as [Hwf' Hu].
    eexists. split; [|split; [split; [done|exact Hu]|simpl; lia]].
    unfold total. rewrite !count_where_spec, Hu. simpl.
    assert (∀ l : list ManaUnit, List.filter (λ _, true) l = l) as Hall.
    { induction l as [|x l IH]; simpl; congruence. }
    by rewrite !Hall.
  - exists (clear p). split; [done|]. split; [|simpl; lia]. split; [|done].
    split; [apply entries_wf_nil|]. intros x Hx. by apply elem_of_nil in Hx.
  - edestruct (edit_expiry_refines p) as [Hr Hst]; [done| |eexists; split_and!; [done|exact Hr|by apply wf_bound]].
    intros sh. cbn beta. destruct (sh_expiry sh) as [[]|]; [done| | |done].
    + by destruct (is_combat to).
    + by destruct (leaving_phase_group from to).
  - unfold retain_across_phase_group_steps. destruct (leaving_phase_group from to).
    { exists p. split_and!; [done..|lia]. }
    edestruct (edit_expiry_refines p) as [Hr Hst]; [done| |eexists; split_and!; [done|exact Hr|by apply wf_bound]].
    intros sh. cbn beta. by destruct (sh_expiry sh).
  - edestruct (edit_expiry_refines p) as [Hr Hst]; [done| |eexists; split_and!; [done|exact Hr|by apply wf_bound]].
    intros sh. cbn beta. by destruct (sh_expiry sh) as [[]|].
Qed.

(** C1. The shape pool is a vector of units.  Through any history of operations that
    does not exhaust the 64-bit slot counter, the pool never panics, gives the
    same answers as a plain [Vec] of units under the reference operations (the
    same unit spent, the same errors), and presents exactly the vector's units in
    the vector's order; its internal indices stay consistent. *)
Theorem pool_refines_vec os p :
  pool_wf p → (next_slot p + N.of_nat (length os) < 2 ^ 64)%N →
  ∃ p', run_ops os p = Ok ((vec_ops os (units p)).1, p') ∧ refines p' (vec_ops os (units p)).2.
Proof.
  revert p. induction os as [|o os IH]; intros p Hwf Hb; [by exists p|].
  cbn [length run_ops vec_ops] in *.
  destruct (run_op_refines o p Hwf) as (p1&Hr&[Hwf1 Hu]&Hn); [lia|]. rewrite Hr.
  destruct (vec_op o (units p)) as [b v]. simpl in Hu. subst v. cbn [mbind outcome_bind].
  destruct (IH p1 Hwf1) as (p2&Hr2&Href); [lia|]. rewrite Hr2.
  destruct (vec_ops os (units p1)) as [bs v2]. by exists p2.
Qed.

(** ** Reading a pool *)
Lemma ordered_shapes p :
  (λ x : N * nat * N, shape <$> entries p !! x.1.2) <$> ordered p = (Some ∘ shape_of) <$> units p.
Proof.
  apply list_eq. intros i. unfold units. rewrite !list_lookup_fmap, slotted_lookup.
  destruct (ordered p !! i) as [[[slot index] pip]|] eqn:Hi; [|done]. simpl.
  apply list_elem_of_lookup_2, unit_of_ordered in Hi as [u Hu]. simpl in Hu.
  destruct (entries p !! index) as [e|]; [|done]. simpl in *.
  by rewrite shape_with_pip.
Qed.

Lemma pool_eq_spec p q : pool_eq p q = bool_decide (shape_of <$> units p = shape_of <$> units q).
Proof.
  apply eq_true_iff_eq. rewrite bool_decide_eq_true. unfold pool_eq.
  transitivity ((λ x : N * nat * N, shape <$> entries p !! x.1.2) <$> ordered p
    = (λ x : N * nat * N, shape <$> entries q !! x.1.2) <$> ordered q).
  - generalize (ordered p), (ordered q). intros k k'.
    rewrite andb_true_iff, Nat.eqb_eq. revert k'.
    induction k as [|[[s a] pip] k IH]; intros [|[[s' b] pip'] k'];
      [done|by split; [intros []|]|by split; [intros []|]|].
    rewrite !fmap_cons. cbn [zip zip_with forallb length fst snd].
    rewrite andb_true_iff, bool_decide_eq_true. specialize (IH k'). split.
    + intros ([= Hl]&Hab&Hz). f_equal; [done|]. by apply IH.
    + intros [= Hab Hz]. apply IH in Hz as [Hl Hz]. split_and!; congruence.
  - rewrite !ordered_shapes, !list_fmap_compose. split; [|by intros ->].
    intros H. by apply (inj (fmap Some)) in H.
Qed.

(** Reading the pool agrees with reading the vector: counts by shape, the unit at
    an index, the first unit with a pip, the first unit a predicate or a set of
    pinned pips selects, emptiness and pip membership; and two pools are equal
    exactly when their vectors hold the same units up to pips. *)
Theorem pool_queries_vec p q pred pins pip i :
  pool_wf p →
  let v := units p in
  count_where p pred = length (List.filter (λ u, pred (shape_of u)) v) ∧
  is_empty p = bool_decide (v = []) ∧
  unit_at p i = v !! i ∧
  unit_by_pip p pip = find_first (λ u, bool_decide (pip_id u = pip)) v ∧
  contains_pip p pip = existsb (λ u, bool_decide (pip_id u = pip)) v ∧
  (∃ o, first_where p pred = Ok o ∧
     snd <$> o = shape_of <$> find_first (λ u, pred (shape_of u)) v) ∧
  snd <$> first_pinned_where p pins pred =
    shape_of <$> find_first (λ u, bool_decide (pip_id u ∈ pins) && pred (shape_of u)) v ∧
  pool_eq p q = bool_decide (shape_of <$> v = shape_of <$> units q).
Proof.
  intros [Hwf _] v. subst v. split_and!.
  - apply count_where_spec.
  - unfold is_empty. apply bool_decide_ext. unfold units. split.
    + intros He. assert (slotted_units p ≡ₚ []) as Hs by (by rewrite slotted_perm, He).
      apply Permutation_nil_r in Hs. by rewrite Hs.
    + intros Hn%fmap_nil_inv. pose proof (slotted_perm p) as Hp. rewrite Hn in Hp.
      destruct (entries p) as [|e es] eqn:Hes; [done|].
      destruct (entry_ok_in _ e Hwf) as [_ Hne]; [left|].
      apply Permutation_nil_l in Hp. rewrite flat_cons in Hp. symmetry in Hp. apply app_nil in Hp as [Hp _].
      apply fmap_nil_inv, map_to_list_empty_iff in Hp. done.
  - rewrite unit_at_slotted. unfold units. by rewrite list_lookup_fmap.
  - rewrite unit_by_pip_spec by done. unfold units. by rewrite find_first_fmap.
  - by apply contains_pip_spec.
  - eexists. rewrite first_where_spec by done. split; [done|].
    unfold units. rewrite find_first_fmap. unfold on_shape. by destruct (find_first _ _).
  - rewrite first_pinned_where_spec by done. unfold units. rewrite find_first_fmap.
    unfold on_shape. by destruct (find_first _ _).
  - apply pool_eq_spec.
Qed.

Lemma from_units_refines us :
  (N.of_nat (length us) < 2 ^ 64)%N → refines (from_units us) us.
Proof.
  intros Hb. destruct (push_all_refines us pool_default pool_wf_default Hb) as [Hr _].
  unfold from_units. destruct (is_empty _); [done|]. by apply with_provenance.
Qed.

(** A pool survives the wire: rebuilding it from the units it presents gives a
    pool presenting the same units, equal to the original, with its pips marked
    unverified unless it is empty. *)
Theorem pool_wire_roundtrip p :
  (N.of_nat (length (units p)) < 2 ^ 64)%N →
  let q := from_units (units p) in
  pool_wf q ∧ units q = units p ∧ pool_eq q p = true ∧
  is_verified q = bool_decide (units p = []).
Proof.
  intros Hb q. destruct (push_all_refines (units p) pool_default pool_wf_default Hb) as [Hr _].
  destruct (from_units_refines (units p) Hb) as [Hwf Hu]. fold q in Hwf, Hu.
  split_and!; [done|done| |].
  - rewrite pool_eq_spec, Hu. by apply bool_decide_eq_true_2.
  - destruct (units p) as [|u us] eqn:Hp; [done|].
    unfold q, from_units. destruct (is_empty _) eqn:He; [|done].
    unfold is_empty in He. breflect. destruct Hr as [_ Hr]. unfold units, slotted_units, ordered in Hr.
    by rewrite He in Hr.
Qed.
End vec.

(** ** A pool at work *)
Section witnesses.
Definition floating : list (ManaUnit unit unit) :=
  [with_pip (shape_of (new ManaType.Red 3 false [])) 1;
   with_pip (shape_of (new ManaType.Green 4 false [OnlyForActivation])) 2;
   with_pip (shape_of (new ManaType.Red 3 false [])) 3;
   with_pip (shape_of (new ManaType.Red 5 true [])) 4].

Definition history : list (pool_op (KeywordKind := unit) (ManaSpellGrant := unit)) :=
  (OpAdd <$> floating)
  ++ [OpSpend ManaType.Red; OpSpendFor ManaType.Green Effect; OpRecolorAt 0 ManaType.Green;
      OpSpendGeneric 1; OpRemoveExact (drop 2 floating)].

(** Spending red takes the first red unit and the last unit takes its place; the
    restricted green unit cannot pay an effect; an exact removal fails on a unit
    that was recolored and spent. *)
Example history_observed :
  (vec_ops history []).1 =
    [Nothing; Nothing; Nothing; Nothing; TookUnit (head floating); TookUnit None;
     Recolored (Some ManaType.Red); Paid true; Exact (Err (MissingPip 4))].
Proof. vm_compute. reflexivity. Qed.

Lemma pool_refines_vec_witness :
  ∃ p', run_ops history pool_default = Ok ((vec_ops history []).1, p') ∧
    refines p' (vec_ops history []).2.
Proof. apply (pool_refines_vec history pool_default); [apply pool_wf_default|reflexivity]. Defined.

Lemma floating_pool : refines (from_units floating) floating.
Proof. apply from_units_refines. reflexivity. Qed.

Lemma pool_queries_vec_witness :
  let p := from_units floating in
  count_where p is_snow = length (List.filter (λ u, is_snow (shape_of u)) (units p)) ∧
  is_empty p = bool_decide (units p = []) ∧
  unit_at p 2 = units p !! 2 ∧
  unit_by_pip p 3 = find_first (λ u, bool_decide (pip_id u = 3%N)) (units p) ∧
  contains_pip p 3 = existsb (λ u, bool_decide (pip_id u = 3%N)) (units p) ∧
  (∃ o, first_where p is_snow = Ok o ∧
     snd <$> o = shape_of <$> find_first (λ u, is_snow (shape_of u)) (units p)) ∧
  snd <$> first_pinned_where p [2%N; 4%N] is_snow =
    shape_of <$> find_first (λ u, bool_decide (pip_id u ∈ [2%N; 4%N]) && is_snow (shape_of u)) (units p) ∧
  pool_eq p p = bool_decide (shape_of <$> units p = shape_of <$> units p).
Proof. apply (pool_queries_vec (from_units floating)). apply floating_pool. Defined.

Lemma pool_wire_roundtrip_witness :
  let q := from_units (units (from_units floating)) in
  pool_wf q ∧ units q = units (from_units floating) ∧ pool_eq q (from_units floating) = true ∧
  is_verified q = bool_decide (units (from_units floating) = []).
Proof. apply pool_wire_roundtrip. destruct floating_pool as [_ ->]. reflexivity. Defined.
End witnesses.
