(* ===== verification/ManaDrain.v ===== *)
(** * Emptying mana pools ([apply_empty_mana_pool_decisions] of [crates/engine/src/types/mana.rs])

    At the end of a step the unspent units of a player are dropped, kept or
    recolored, as a list of decisions taken from the action wire says.  The list
    is not trusted: the walk must never touch a unit a decision does not name. *)
From S2P Require Import Prelude Text GameTypes ManaSymbols ManaRestrictions ManaUnits.
From S2P Require Import ManaPool ManaPoolOrder ManaPoolVec.
Local Open Scope nat_scope.

Inductive UnitDisposition := Drop | Keep | Recolor (to : ManaType.t).
Record UnitDecision := {
  pool_index : nat;
  decision_color : ManaType.t;
  disposition : UnitDisposition;
}.
Inductive PoolEvent :=
  | ManaPoolEmptied (player_id source_id : N) (color : ManaType.t)
  | ManaRecolored (player_id : N) (from to : ManaType.t).

(** [sort_by_key(|d| Reverse(d.pool_index))], which is stable. *)
Fixpoint insert_desc (d : UnitDecision) (l : list UnitDecision) : list UnitDecision :=
  match l with
  | [] => [d]
  | d' :: l' => if pool_index d' <=? pool_index d then d :: l else d' :: insert_desc d l'
  end.
Definition sort_desc (l : list UnitDecision) : list UnitDecision := foldr insert_desc [] l.

Section drain.
Context {KeywordKind ManaSpellGrant : Type}.
Context `{EqDecision KeywordKind, EqDecision ManaSpellGrant}.
Local Abbreviation ManaUnit := (ManaUnit KeywordKind ManaSpellGrant).
Local Abbreviation ManaPool := (ManaPool KeywordKind ManaSpellGrant).

(** The part of the game state the walk changes. *)
Record DrainState := {
  players : list (N * ManaPool);
  layers_dirty_full : bool;
}.

(** The locals of the loop. *)
Record DrainLoop := {
  dl_pool : ManaPool;
  dl_events : list PoolEvent;
  dl_changed : bool;
  dl_removed : N;
  dl_seen : list nat;
}.

Definition drain_step (player_id : N) (st : DrainLoop) (d : UnitDecision) : DrainLoop :=
  let fresh := negb (bool_decide (pool_index d ∈ dl_seen st)) in
  let st := {| dl_pool := dl_pool st; dl_events := dl_events st; dl_changed := dl_changed st;
               dl_removed := dl_removed st; dl_seen := pool_index d :: dl_seen st |} in
  if negb fresh ||
     match unit_at (dl_pool st) (pool_index d) with
     | Some u => negb (bool_decide (color u = decision_color d))
     | None => true
     end
  then st
  else
    match disposition d with
    | Drop =>
        match remove_at (dl_pool st) (pool_index d) with
        | Some (removed, p) =>
            {| dl_pool := p;
               dl_events := dl_events st ++ [ManaPoolEmptied player_id (source_id removed) (color removed)];
               dl_changed := true; dl_removed := u32_add (dl_removed st) 1; dl_seen := dl_seen st |}
        | None => st
        end
    | Keep => st
    | Recolor to =>
        match recolor_at (dl_pool st) (pool_index d) to with
        | Some (from, p) =>
            {| dl_pool := p; dl_events := dl_events st ++ [ManaRecolored player_id from to];
               dl_changed := true; dl_removed := dl_removed st; dl_seen := dl_seen st |}
        | None => st
        end
    end.

Definition drain_pool (player_id : N) (p : ManaPool) (ds : list UnitDecision)
    (events : list PoolEvent) : DrainLoop :=
  fold_left (drain_step player_id) (sort_desc ds)
    {| dl_pool := p; dl_events := events; dl_changed := false; dl_removed := 0; dl_seen := [] |}.

Definition apply_empty_mana_pool_decisions (st : DrainState) (player_id : N)
    (ds : list UnitDecision) (events : list PoolEvent) : N * DrainState * list PoolEvent :=
  match position (λ x, bool_decide (x.1 = player_id)) (players st) with
  | None => (0%N, st, events)
  | Some i =>
      match players st !! i with
      | None => (0%N, st, events)
      | Some (_, p) =>
          let r := drain_pool player_id p ds events in
          (dl_removed r,
           {| players := <[i := (player_id, dl_pool r)]> (players st);
              layers_dirty_full := layers_dirty_full st || dl_changed r |},
           dl_events r)
      end
  end.

(** ** What the walk does, unit by unit *)

(** The decision that counts for the unit at index [i]: the first one listed for
    that index, and only if it names the unit's color. *)
Definition ruling (ds : list UnitDecision) (i : nat) (u : ManaUnit) : UnitDisposition :=
  match find_first (λ d, pool_index d =? i) ds with
  | Some d => if bool_decide (color u = decision_color d) then disposition d else Keep
  | None => Keep
  end.
Definition ruled_unit (r : UnitDisposition) (u : ManaUnit) : option ManaUnit :=
  match r with
  | Drop => None
  | Keep => Some u
  | Recolor to => Some (recolor_unit to u)
  end.
Definition ruled_event (player_id : N) (r : UnitDisposition) (u : ManaUnit) : option PoolEvent :=
  match r with
  | Drop => Some (ManaPoolEmptied player_id (source_id u) (color u))
  | Keep => None
  | Recolor to => Some (ManaRecolored player_id (color u) to)
  end.
Definition is_drop (r : UnitDisposition) : bool := match r with Drop => true | _ => false end.
End drain.

(** Sorting keeps the first decision for every index. *)
Definition desc (l : list UnitDecision) : Prop :=
  StronglySorted (λ d d', pool_index d' <= pool_index d) l.

Lemma insert_desc_elem d l x : x ∈ insert_desc d l ↔ x = d ∨ x ∈ l.
Proof.
  induction l as [|d' l IH]; simpl; [by rewrite list_elem_of_singleton, elem_of_nil; tauto|].
  destruct (_ <=? _); rewrite ?elem_of_cons, ?IH; tauto.
Qed.
Lemma sort_desc_elem l x : x ∈ sort_desc l ↔ x ∈ l.
Proof.
  induction l as [|d l IH]; simpl; [done|]. by rewrite insert_desc_elem, IH, elem_of_cons.
Qed.
Lemma insert_desc_sorted d l : desc l → desc (insert_desc d l).
Proof.
  induction 1 as [|d' l Hs IH Hd']; simpl; [by repeat constructor|].
  destruct (Nat.leb_spec (pool_index d') (pool_index d)).
  - constructor; [by constructor|]. constructor; [done|].
    eapply Forall_impl; [done|]. simpl. intros. lia.
  - constructor; [done|]. apply Forall_forall. intros x [->|Hx]%insert_desc_elem; [lia|].
    rewrite Forall_forall in Hd'. by apply Hd'.
Qed.
Lemma sort_desc_sorted l : desc (sort_desc l).
Proof. induction l; simpl; [constructor|by apply insert_desc_sorted]. Qed.

Lemma insert_desc_first i d l :
  desc l →
  find_first (λ d, pool_index d =? i) (insert_desc d l)
  = if pool_index d =? i then Some d else find_first (λ d, pool_index d =? i) l.
Proof.
  induction 1 as [|d' l Hs IH Hd']; simpl; [done|].
  destruct (Nat.leb_spec (pool_index d') (pool_index d)); simpl; [done|].
  rewrite IH. destruct (Nat.eqb_spec (pool_index d') i), (Nat.eqb_spec (pool_index d) i);
    try done; lia.
Qed.
Lemma sort_desc_first i l :
  find_first (λ d, pool_index d =? i) (sort_desc l) = find_first (λ d, pool_index d =? i) l.
Proof.
  induction l as [|d l IH]; simpl; [done|].
  rewrite insert_desc_first by apply sort_desc_sorted. by rewrite IH.
Qed.

Section drain_proofs.
Context {KeywordKind ManaSpellGrant : Type}.
Context `{EqDecision KeywordKind, EqDecision ManaSpellGrant}.
Local Abbreviation ManaUnit := (ManaUnit KeywordKind ManaSpellGrant).
Local Abbreviation ManaPool := (ManaPool KeywordKind ManaSpellGrant).
Implicit Types (p : ManaPool) (u : ManaUnit) (v k : list ManaUnit)
  (R : nat → ManaUnit → UnitDisposition) (ds : list UnitDecision).

(** The units [k], from index [m] on, under the rulings [R]: the survivors in
    order, the events from the last unit to the first, the number dropped. *)
Fixpoint ruled (pid : N) R (m : nat) k : list ManaUnit * list PoolEvent * nat :=
  match k with
  | [] => ([], [], 0)
  | u :: k =>
      let '(us, es, n) := ruled pid R (S m) k in
      (option_list (ruled_unit (R m u) u) ++ us,
       es ++ option_list (ruled_event pid (R m u) u),
       if is_drop (R m u) then S n else n)
  end.

Lemma ruled_skip pid R m (mid k : list ManaUnit) :
  (∀ i u, mid !! i = Some u → R (m + i) u = Keep) →
  ruled pid R m (mid ++ k) =
    let '(us, es, n) := ruled pid R (m + length mid) k in (mid ++ us, es, n).
Proof.
  revert m. induction mid as [|u mid IH]; intros m HK; cbn [app length].
  { rewrite Nat.add_0_r. by destruct (ruled pid R m k) as [[us es] n]. }
  cbn [ruled]. rewrite IH.
  - replace (S m + length mid) with (m + S (length mid)) by lia.
    pose proof (HK 0 u eq_refl) as H0. rewrite Nat.add_0_r in H0. rewrite H0.
    destruct (ruled pid R (m + S (length mid)) k) as [[us es] n]. simpl. by rewrite app_nil_r.
  - intros i w Hi. replace (S m + i) with (m + S i) by lia. by apply HK.
Qed.

(** The loop invariant: the units below [m] are untouched, the others are ruled. *)
Record drain_inv (pid : N) (ev : list PoolEvent) (v : list ManaUnit) R (l : list UnitDecision)
    (st : DrainLoop) (m : nat) : Prop := {
  di_m : m ≤ length v;
  di_pool : let '(us, es, n) := ruled pid R m (drop m v) in
    refines (dl_pool st) (take m v ++ us) ∧ dl_events st = ev ++ es ∧
    dl_removed st = wrap 32 (N.of_nat n) ∧ dl_changed st = bool_decide (es ≠ []);
  di_seen : ∀ i, i ∈ dl_seen st → m ≤ i;
  di_rest : m = length v ∨ (m ∈ dl_seen st ∧ ∀ d, d ∈ l → pool_index d ≤ m);
  di_rule : ∀ i u, i < m → R i u = ruling l i u;
}.

Lemma ruling_above l i u :
  (∀ d, d ∈ l → pool_index d < i) → ruling l i u = Keep.
Proof.
  intros Hl. unfold ruling. destruct (find_first _ l) as [d|] eqn:Hf; [|done].
  apply find_first_Some in Hf as [Hd Hi]. breflect. specialize (Hl d Hd). lia.
Qed.

Lemma snoc_ne {A} (l : list A) x : bool_decide (l ++ [x] ≠ []) = true.
Proof. apply bool_decide_eq_true_2. by destruct l. Qed.

Lemma drain_step_inv pid ev v R d l st m :
  desc (d :: l) → drain_inv pid ev v R (d :: l) st m →
  ∃ m', drain_inv pid ev v R l (drain_step pid st d) m'.
Proof.
  intros Hdesc [Hm Hpool Hseen Hrest Hrule].
  apply StronglySorted_cons in Hdesc as [Hle _]. rewrite Forall_forall in Hle.
  destruct (ruled pid R m (drop m v)) as [[us es] n] eqn:Hruled.
  destruct Hpool as ([Hwf Hu]&Hev&Hrem&Hch).
  set (j := pool_index d) in *.
  destruct (Nat.lt_ge_cases j m) as [Hj|Hj].
  - destruct (lookup_lt_is_Some_2 v j) as [u Hvj]; [lia|].
    set (mid := take (m - S j) (drop (S j) v)).
    assert (length mid = m - S j) as Hmidlen
      by (unfold mid; rewrite length_take, length_drop; lia).
    assert (drop (S j) v = mid ++ drop m v) as Hdrop.
    { unfold mid. rewrite <-(take_drop (m - S j) (drop (S j) v)) at 1. f_equal.
      rewrite drop_drop. f_equal. lia. }
    assert (take m v = take j v ++ u :: mid) as Htake.
    { rewrite <-(take_drop_middle v j u Hvj) at 1.
      rewrite take_app_ge by (rewrite length_take; lia).
      rewrite length_take_le by lia. f_equal.
      replace (m - j) with (S (m - S j)) by lia. done. }
    assert (length (take j v) = j) as Hlj by (rewrite length_take; lia).
    assert (ruled pid R j (drop j v) =
      (option_list (ruled_unit (R j u) u) ++ mid ++ us, es ++ option_list (ruled_event pid (R j u) u),
       if is_drop (R j u) then S n else n)) as Hnew.
    { rewrite (drop_S _ _ _ Hvj). cbn [ruled]. rewrite Hdrop, ruled_skip.
      - rewrite Hmidlen. replace (S j + (m - S j)) with m by lia. by rewrite Hruled.
      - intros i w Hi. apply lookup_lt_Some in Hi as Hlt. rewrite Hrule by lia.
        apply ruling_above. intros d' [->|Hd']%elem_of_cons; [unfold j; lia|].
        specialize (Hle d' Hd'). unfold j in *. lia. }
    assert (units (dl_pool st) = take j v ++ u :: mid ++ us) as Hu'.
    { by rewrite Hu, Htake, <-app_assoc. }
    assert (units (dl_pool st) !! j = Some u) as Hat.
    { rewrite Hu', lookup_app_r, Hlj, Nat.sub_diag by lia. done. }
    assert (R j u = if bool_decide (color u = decision_color d) then disposition d else Keep) as HR.
    { rewrite Hrule by done. unfold ruling. simpl. by rewrite Nat.eqb_refl. }
    assert (∀ st', dl_seen st' = j :: dl_seen st →
      refines (dl_pool st') (take j v ++ option_list (ruled_unit (R j u) u) ++ mid ++ us) →
      dl_events st' = ev ++ es ++ option_list (ruled_event pid (R j u) u) →
      dl_removed st' = wrap 32 (N.of_nat (if is_drop (R j u) then S n else n)) →
      dl_changed st' = bool_decide (es ++ option_list (ruled_event pid (R j u) u) ≠ []) →
      drain_inv pid ev v R l st' j) as Hdone.
    { intros st' Hs H1 H2 H3 H4. split; [lia| | | |].
      - by rewrite Hnew.
      - intros i. rewrite Hs. intros [->|Hi]%elem_of_cons; [done|]. specialize (Hseen i Hi). lia.
      - right. rewrite Hs. split; [left|]. intros d' Hd'. by apply Hle.
      - intros i w Hi. rewrite Hrule by lia. unfold ruling. simpl.
        destruct (Nat.eqb_spec (pool_index d) i); [unfold j in Hi; lia|done]. }
    exists j. unfold drain_step. cbn [dl_pool dl_seen dl_events dl_removed dl_changed].
    fold j. rewrite (bool_decide_eq_false_2 (j ∈ dl_seen st)) by (intros Hs; specialize (Hseen j Hs); lia).
    cbn [negb orb]. rewrite unit_at_slotted, <-list_lookup_fmap.
    change (slotted_units (dl_pool st)).*2 with (units (dl_pool st)). rewrite Hat.
    assert (ruled_unit Keep u = Some u ∧ ruled_event pid Keep u = None) as [HK1 HK2] by done.
    destruct (bool_decide (color u = decision_color d)); cbn [negb]; cycle 1.
    { apply Hdone; cbn; rewrite ?HR; [done|split; [done|]|by rewrite app_nil_r|done|by rewrite app_nil_r].
      by rewrite Hu'. }
    destruct (disposition d) as [| |to] eqn:Hdis.
    + pose proof (remove_at_refines (dl_pool st) j Hwf) as Hr. rewrite Hat in Hr.
      destruct Hr as (p'&->&[Hwf' Hu'']&_). apply Hdone; cbn; rewrite ?HR; cbn; [done| | | |].
      * split; [done|]. rewrite Hu'', Hu'. unfold vec_remove.
        rewrite take_app_le, take_ge by lia. f_equal.
        rewrite drop_app_ge by lia. replace (S j - length (take j v)) with 1 by lia. done.
      * by rewrite Hev, <-app_assoc.
      * rewrite Hrem, wadd_wrap_l. unfold wadd. f_equal. lia.
      * by rewrite snoc_ne.
    + apply Hdone; cbn; rewrite ?HR; [done|split; [done|]|by rewrite app_nil_r|done|by rewrite app_nil_r].
      by rewrite Hu'.
    + pose proof (recolor_at_refines (dl_pool st) j to Hwf) as Hr. rewrite Hat in Hr.
      destruct Hr as (p'&->&[Hwf' Hu'']&_). apply Hdone; cbn; rewrite ?HR; cbn; [done| | | |].
      * split; [done|]. rewrite Hu'', Hu'. rewrite insert_app_r_alt, Hlj, Nat.sub_diag by lia. done.
      * by rewrite Hev, <-app_assoc.
      * done.
      * by rewrite snoc_ne.
  - assert (∀ st', dl_seen st' = j :: dl_seen st → dl_pool st' = dl_pool st →
      dl_events st' = dl_events st → dl_removed st' = dl_removed st → dl_changed st' = dl_changed st →
      drain_inv pid ev v R l st' m) as Hdone.
    { intros st' Hs E1 E2 E3 E4. split; [done| | | |].
      - by rewrite Hruled, E1, E2, E3, E4.
      - intros i. rewrite Hs. intros [->|Hi]%elem_of_cons; [done|by apply Hseen].
      - rewrite Hs. destruct Hrest as [?|[Hin Hall]]; [by left|right].
        split; [by right|]. intros d' Hd'. apply Hall. by right.
      - intros i w Hi. rewrite Hrule by done. unfold ruling. simpl.
        destruct (Nat.eqb_spec (pool_index d) i); [unfold j in Hj; lia|done]. }
    exists m. unfold drain_step. cbn [dl_pool dl_seen dl_events dl_removed dl_changed]. fold j.
    destruct Hrest as [->|[Hin Hall]].
    + rewrite unit_at_slotted, <-list_lookup_fmap.
      change (slotted_units (dl_pool st)).*2 with (units (dl_pool st)).
      rewrite drop_ge in Hruled by lia. injection Hruled as <- <- <-.
      rewrite Hu, app_nil_r, take_ge, lookup_ge_None_2 by lia. rewrite orb_true_r. by apply Hdone.
    + specialize (Hall d ltac:(left)). fold j in Hall. replace m with j in Hin by lia.
      rewrite (bool_decide_eq_true_2 (j ∈ dl_seen st)) by done. cbn [negb orb]. by apply Hdone.
Qed.

Lemma drain_loop_inv pid ev v R l st m :
  desc l → drain_inv pid ev v R l st m →
  ∃ m', drain_inv pid ev v R [] (fold_left (drain_step pid) l st) m'.
Proof.
  revert st m. induction l as [|d l IH]; intros st m Hd Hinv; [by exists m|].
  destruct (drain_step_inv pid ev v R d l st m Hd Hinv) as [m' Hinv'].
  apply StronglySorted_cons in Hd as [_ Hd]. by apply (IH _ m').
Qed.

(** C16. Emptying a pool by untrusted decisions.  Every unit is judged on its own, by
    its index and color in the pool as it was: the first decision listed for its
    index drops, keeps or recolors it, and only if it names the unit's color;
    duplicate, stale and out-of-range decisions change nothing.  The survivors
    keep their order, one event is emitted per unit dropped or recolored, from
    the last unit to the first, the count is the number of units dropped, the
    layers are marked dirty exactly when something happened, and no other player
    is touched. *)
Theorem empty_pool_decisions st pid ds ev i p :
  players st !! i = Some (pid, p) →
  (∀ j q, j < i → players st !! j = Some q → q.1 ≠ pid) →
  pool_wf p →
  let '(us, es, n) := ruled pid (ruling ds) 0 (units p) in
  ∃ p', refines p' us ∧
    apply_empty_mana_pool_decisions st pid ds ev =
      (wrap 32 (N.of_nat n),
       {| players := <[i := (pid, p')]> (players st);
          layers_dirty_full := layers_dirty_full st || bool_decide (es ≠ []) |},
       ev ++ es).
Proof.
  intros Hi Hfirst Hwf. unfold apply_empty_mana_pool_decisions.
  assert (position (λ x, bool_decide (x.1 = pid)) (players st) = Some i) as ->.
  { apply position_Some. exists (pid, p). split_and!; [done|by apply bool_decide_eq_true_2|].
    intros j q Hj Hq. apply bool_decide_eq_false_2. by apply (Hfirst j). }
  rewrite Hi. unfold drain_pool.
  set (st0 := {| dl_pool := p; dl_events := ev; dl_changed := false; dl_removed := 0; dl_seen := [] |}).
  destruct (drain_loop_inv pid ev (units p) (ruling ds) (sort_desc ds) st0 (length (units p)))
    as (m&[Hm Hpool _ Hrest Hrule]).
  { apply sort_desc_sorted. }
  { split; [done| | | |].
    - rewrite drop_all. simpl. rewrite take_ge, !app_nil_r by lia. by split_and!.
    - intros j Hj. by apply elem_of_nil in Hj.
    - by left.
    - intros j u _. unfold ruling. by rewrite sort_desc_first. }
  assert (ruled pid (ruling ds) 0 (units p) =
    let '(us, es, n) := ruled pid (ruling ds) m (drop m (units p)) in
    (take m (units p) ++ us, es, n)) as ->.
  { rewrite <-(take_drop m (units p)) at 1. rewrite ruled_skip.
    - by rewrite length_take_le by lia.
    - intros j u Hj. apply lookup_lt_Some in Hj as Hlt. rewrite length_take in Hlt.
      rewrite Hrule by lia. done. }
  destruct (ruled pid (ruling ds) m (drop m (units p))) as [[us es] n].
  destruct Hpool as (Hr&He&Hn&Hc). eexists. split; [exact Hr|]. by rewrite He, Hn, Hc.
Qed.
End drain_proofs.

(** A hostile list: the second decision for index 0 is ignored, the one for index 1
    names the wrong color, index 9 is out of range. *)
Section witness.
Definition decisions : list UnitDecision :=
  [{| pool_index := 2; decision_color := ManaType.Red; disposition := Recolor ManaType.Blue |};
   {| pool_index := 0; decision_color := ManaType.Red; disposition := Keep |};
   {| pool_index := 1; decision_color := ManaType.Red; disposition := Drop |};
   {| pool_index := 0; decision_color := ManaType.Red; disposition := Drop |};
   {| pool_index := 9; decision_color := ManaType.Red; disposition := Drop |};
   {| pool_index := 3; decision_color := ManaType.Red; disposition := Drop |}].
Definition drained : DrainState (KeywordKind := unit) (ManaSpellGrant := unit) :=
  {| players := [(4%N, pool_default); (7%N, from_units floating)]; layers_dirty_full := false |}.

Example drain_observed :
  let '(n, st, ev) := apply_empty_mana_pool_decisions drained 7 decisions [] in
  n = 1%N ∧ ev = [ManaPoolEmptied 7 5 ManaType.Red; ManaRecolored 7 ManaType.Red ManaType.Blue] ∧
  (color <$> default [] ((λ x, units x.2) <$> players st !! 1)) =
    [ManaType.Red; ManaType.Green; ManaType.Blue].
Proof. vm_compute. done. Qed.

Lemma empty_pool_decisions_witness :
  let '(us, es, n) := ruled 7 (ruling decisions) 0 (units (from_units floating)) in
  ∃ p', refines p' us ∧
    apply_empty_mana_pool_decisions drained 7 decisions [] =
      (wrap 32 (N.of_nat n),
       {| players := <[1 := (7%N, p')]> (players drained);
          layers_dirty_full := layers_dirty_full drained || bool_decide (es ≠ []) |},
       [] ++ es).
Proof.
  apply (empty_pool_decisions drained 7 decisions [] 1 (from_units floating)).
  - reflexivity.
  - intros [|j] q Hj Hq; [|lia]. by injection Hq as <-.
  - apply floating_pool.
Defined.
End witness.
