(* ===== verification/DraftSource.v ===== *)
(** * Where the cards of a draft come from ([crates/draft-core/src/types.rs])

    The set layouts of a draft (one set per round for the whole pod, or a private
    assignment per seat and round), the label of a source, and the check that a
    stored layout has the dimensions of its draft. *)
From S2P Require Import Prelude.
From S2P Require Import Text.
Local Open Scope N_scope.

(** [entry_for_pack]: a short sequence repeats its last entry. *)
Definition entry_for_pack {T} (sequence : list T) (pack_number : N) : option T :=
  match sequence with
  | [] => None
  | _ => sequence !! Nat.min (N.to_nat pack_number) (length sequence - 1)
  end.

Module SetLayout.
Inductive t :=
  | UniformByRound (codes : list string)
  | Chaos (candidate_codes : list string) (assignments : list (list string)).
End SetLayout.

Module SetLayoutKind.
Inductive t := UniformByRound | Chaos.
#[global] Instance t_eq_dec : EqDecision t.
Proof. solve_decision. Defined.
End SetLayoutKind.

Module DraftSource.
Inductive t := Set_ (layout : SetLayout.t) | Cube (id cube_name : string).
End DraftSource.

(** [held.eq_ignore_ascii_case(code)] *)
Definition same_code (held code : string) : bool :=
  eq_ignore_ascii_case (of_string held) (of_string code).

(** The loop of [distinct_set_codes]. *)
Fixpoint distinct_from (distinct codes : list string) : list string :=
  match codes with
  | [] => distinct
  | code :: codes =>
      if existsb (λ held, same_code held code) distinct then distinct_from distinct codes
      else distinct_from (distinct ++ [code]) codes
  end.
Definition distinct_set_codes (codes : list string) : list string := distinct_from [] codes.

Definition actual_set_codes (l : SetLayout.t) : list string :=
  match l with
  | SetLayout.UniformByRound codes => distinct_set_codes codes
  | SetLayout.Chaos _ assignments => distinct_set_codes (concat assignments)
  end.

Definition set_code_for_seat_and_pack (l : SetLayout.t) (seat pack_number : N) : option string :=
  match l with
  | SetLayout.UniformByRound codes => entry_for_pack codes pack_number
  | SetLayout.Chaos _ assignments =>
      rounds ← assignments !! N.to_nat seat;
      rounds !! N.to_nat pack_number
  end.

(** The seat loop of the Chaos case, first the dimensions of a seat and then its codes. *)
Fixpoint chaos_rows_ok (candidate_codes : list string) (pack_count : N)
    (assignments : list (list string)) : bool :=
  match assignments with
  | [] => true
  | rounds :: assignments =>
      (length rounds =? N.to_nat pack_count)%nat
      && forallb (λ code, existsb (λ candidate, same_code candidate code) candidate_codes) rounds
      && chaos_rows_ok candidate_codes pack_count assignments
  end.
(** [SetLayout::validate_for_draft]; the error is only a text. *)
Definition validate_for_draft (l : SetLayout.t) (seat_count pack_count : N) : bool :=
  match l with
  | SetLayout.UniformByRound codes => negb (bool_decide (codes = []))
  | SetLayout.Chaos candidate_codes assignments =>
      negb (bool_decide (candidate_codes = []))
      && (length assignments =? N.to_nat seat_count)%nat
      && chaos_rows_ok candidate_codes pack_count assignments
  end.

(** [codes.join("+")] *)
Definition join_codes (codes : list string) : string := String.concat "+" codes.
(** [DraftSource::set_code] *)
Definition source_set_code (s : DraftSource.t) : string :=
  match s with
  | DraftSource.Set_ layout => join_codes (actual_set_codes layout)
  | DraftSource.Cube id _ => id
  end.
