(* ===== verification/DraftTypes.v ===== *)
(** * The draft session ([crates/draft-core/src/types.rs])

    The types of the draft reducer: kinds and their procedure table, cards and
    packs, seat flags, the shared-stack state of a Winston draft, the state of a
    FIFO draft, submitted decks and the event after the draft, and the session.  The
    draft code, the timestamps, the pod policy, the spectator setting and the source
    names of a cube are not part of the model: no action of the reducer reads them. *)
From S2P Require Import Prelude.
From S2P Require Import GameTypes.
From S2P Require Export DraftSource.
Local Open Scope N_scope.

Module PickSelectionMode.
Inductive t := Direct | Ordered.
End PickSelectionMode.

Module PackDistribution.
Inductive t := PickAndPass | AllAtOnce | SharedStackPiles (pile_count : N).
End PackDistribution.

Module PostDraftPlay.
Inductive t := CompleteImmediately | TournamentPairings.
End PostDraftPlay.

Module MatchType.
Inductive t := Bo1 | Bo3.
End MatchType.

Module TournamentFormat.
Inductive t := Swiss | SingleElimination.
#[global] Instance t_eq_dec : EqDecision t.
Proof. solve_decision. Defined.
End TournamentFormat.

Module DraftKind.
Inductive t := Quick | Premier | Traditional | Sealed | CommanderDraft | Winston.
#[global] Instance t_eq_dec : EqDecision t.
Proof. solve_decision. Defined.
Definition ALL : list t := [Quick; Premier; Traditional; Sealed; CommanderDraft; Winston].
End DraftKind.

(** One row of the procedure table; of the match configuration only the match
    type differs between rows. *)
Record DraftProcedure := {
  proc_pod_size : N;
  human_seats : N;
  min_pod_size : N;
  local_cube_min_pod_size : N;
  max_pod_size : N;
  local_cube_max_pod_size : N;
  packs_per_player : N;
  cards_per_pick : N;
  pick_selection_mode : PickSelectionMode.t;
  distribution : PackDistribution.t;
  proc_min_deck_size : nat;
  cube_min_deck_size : nat;
  commanders_required : N;
  post_draft_play : PostDraftPlay.t;
  match_type : MatchType.t;
}.

Definition procedure (k : DraftKind.t) : DraftProcedure :=
  match k with
  | DraftKind.Quick => {|
      proc_pod_size := 8; human_seats := 1; min_pod_size := 2; local_cube_min_pod_size := 1;
      max_pod_size := 8; local_cube_max_pod_size := 255; packs_per_player := 3;
      cards_per_pick := 1; pick_selection_mode := PickSelectionMode.Direct;
      distribution := PackDistribution.PickAndPass; proc_min_deck_size := 40;
      cube_min_deck_size := 1; commanders_required := 0;
      post_draft_play := PostDraftPlay.CompleteImmediately; match_type := MatchType.Bo1 |}
  | DraftKind.Premier => {|
      proc_pod_size := 8; human_seats := 8; min_pod_size := 2; local_cube_min_pod_size := 2;
      max_pod_size := 8; local_cube_max_pod_size := 8; packs_per_player := 3;
      cards_per_pick := 1; pick_selection_mode := PickSelectionMode.Direct;
      distribution := PackDistribution.PickAndPass; proc_min_deck_size := 40;
      cube_min_deck_size := 1; commanders_required := 0;
      post_draft_play := PostDraftPlay.TournamentPairings; match_type := MatchType.Bo1 |}
  | DraftKind.Traditional => {|
      proc_pod_size := 8; human_seats := 8; min_pod_size := 2; local_cube_min_pod_size := 2;
      max_pod_size := 8; local_cube_max_pod_size := 8; packs_per_player := 3;
      cards_per_pick := 1; pick_selection_mode := PickSelectionMode.Direct;
      distribution := PackDistribution.PickAndPass; proc_min_deck_size := 40;
      cube_min_deck_size := 1; commanders_required := 0;
      post_draft_play := PostDraftPlay.TournamentPairings; match_type := MatchType.Bo3 |}
  | DraftKind.Sealed => {|
      proc_pod_size := 8; human_seats := 8; min_pod_size := 2; local_cube_min_pod_size := 2;
      max_pod_size := 8; local_cube_max_pod_size := 8; packs_per_player := 6;
      cards_per_pick := 1; pick_selection_mode := PickSelectionMode.Direct;
      distribution := PackDistribution.AllAtOnce; proc_min_deck_size := 40;
      cube_min_deck_size := 1; commanders_required := 0;
      post_draft_play := PostDraftPlay.TournamentPairings; match_type := MatchType.Bo1 |}
  | DraftKind.CommanderDraft => {|
      proc_pod_size := 4; human_seats := 1; min_pod_size := 3; local_cube_min_pod_size := 3;
      max_pod_size := 8; local_cube_max_pod_size := 8; packs_per_player := 3;
      cards_per_pick := 2; pick_selection_mode := PickSelectionMode.Ordered;
      distribution := PackDistribution.PickAndPass; proc_min_deck_size := 60;
      cube_min_deck_size := 60; commanders_required := 1;
      post_draft_play := PostDraftPlay.CompleteImmediately; match_type := MatchType.Bo1 |}
  | DraftKind.Winston => {|
      proc_pod_size := 2; human_seats := 2; min_pod_size := 2; local_cube_min_pod_size := 2;
      max_pod_size := 4; local_cube_max_pod_size := 4; packs_per_player := 3;
      cards_per_pick := 1; pick_selection_mode := PickSelectionMode.Direct;
      distribution := PackDistribution.SharedStackPiles 3; proc_min_deck_size := 40;
      cube_min_deck_size := 1; commanders_required := 0;
      post_draft_play := PostDraftPlay.TournamentPairings; match_type := MatchType.Bo1 |}
  end.

(** ** Table state *)
Module PassDirection.
Inductive t := Left | Right.
#[global] Instance t_eq_dec : EqDecision t.
Proof. solve_decision. Defined.
Definition for_pack (pack_number : N) : t := if N.even pack_number then Left else Right.
(** The arithmetic is at 16 bits; a remainder by zero panics. *)
Definition next_seat {E} (d : t) (current pod_size : N) : outcome E N :=
  if pod_size =? 0 then Panic
  else Ok (match d with
           | Left => wadd 16 current 1 `mod` pod_size
           | Right => wsub 16 (wadd 16 current pod_size) 1 `mod` pod_size
           end).
End PassDirection.

Module DraftStatus.
Inductive t :=
  | Lobby | Drafting | Review | Paused | Deckbuilding | Pairing | MatchInProgress
  | RoundComplete | Complete | Abandoned.
#[global] Instance t_eq_dec : EqDecision t.
Proof. solve_decision. Defined.
End DraftStatus.

Module DraftEffect.
Inductive t := AdditionalPick.
#[global] Instance t_eq_dec : EqDecision t.
Proof. solve_decision. Defined.
End DraftEffect.

Record DraftCardInstance := {
  instance_id : string;
  name : string;
  set_code : string;
  collector_number : string;
  rarity : string;
  colors : list string;
  cmc : N;
  type_line : string;
  draft_effect : option DraftEffect.t;
}.
#[export] Instance DraftCardInstance_eq_dec : EqDecision DraftCardInstance.
Proof. solve_decision. Defined.

(** [DraftPack] is a newtype over its cards. *)
Notation DraftPack := (list DraftCardInstance).

Inductive DraftSeat := Human (player_id : N) (display_name : string) | Bot (bot_name : string).

Module SeatFlags.
Definition t : Type := list bool.
Definition all_true (pod_size : N) : t := replicate (N.to_nat pod_size) true.
Definition all_false (pod_size : N) : t := replicate (N.to_nat pod_size) false.
Definition ensure_len (pod_size : N) (d : bool) (f : t) : t :=
  if (length f <? N.to_nat pod_size)%nat then vec_resize (N.to_nat pod_size) d f else f.
Definition get (f : t) (seat : N) : bool := default false (f !! N.to_nat seat).
Definition get_or (f : t) (seat : N) (d : bool) : bool := default d (f !! N.to_nat seat).
Definition set (seat : N) (value : bool) (f : t) : t := <[N.to_nat seat := value]> f.
Definition clear (f : t) : t := (λ _, false) <$> f.
End SeatFlags.

Module DraftPauseReason.
Inductive t := PlayerDisconnected | PausedByHost | DisconnectGraceExpired.
End DraftPauseReason.

(** ** Shared-stack drafts *)
Module SharedStackPileDecision.
Inductive t := Take | Decline.
#[global] Instance t_eq_dec : EqDecision t.
Proof. solve_decision. Defined.
Definition ALL : list t := [Take; Decline].
End SharedStackPileDecision.

Record SharedStackDecisionRecord := {
  rec_seat : N;
  rec_pile : N;
  rec_decision : SharedStackPileDecision.t;
  rec_pile_size : nat;
}.

(** The last card of [main_stack] is its top. *)
Record SharedStackState := {
  main_stack : list DraftCardInstance;
  piles : list (list DraftCardInstance);
  starting_seat : N;
  active_seat : N;
  cursor : N;
  inspected : list nat;
  decisions : N;
  history : list SharedStackDecisionRecord;
  forced_draws : list (option DraftCardInstance);
}.

Definition SHARED_STACK_HISTORY_CAPACITY : nat := 128.

Module SharedStackRefusal.
Inductive t := PileNotActive | PileEmpty | NoGuaranteedCard.
End SharedStackRefusal.

(** ** First-in first-out drafts *)
Module DraftFlow.
Inductive t := LegacyBarrier | FifoAsync.
#[global] Instance t_eq_dec : EqDecision t.
Proof. solve_decision. Defined.
End DraftFlow.

Record DraftSelectionPolicy := { burns_per_pick : N; discard_threshold : N }.
Definition selection_policy_is_default (p : DraftSelectionPolicy) : bool :=
  (burns_per_pick p =? 0) && (discard_threshold p =? 0).

Module PickClockPolicy.
Inductive t := Off | Fixed (duration_ms : N) | SeatStep.
End PickClockPolicy.
Record DraftClockPolicy := { pick_clock : PickClockPolicy.t; review_duration_ms : N }.
Definition clock_policy_is_default (p : DraftClockPolicy) : bool :=
  match pick_clock p with PickClockPolicy.Off => review_duration_ms p =? 0 | _ => false end.

Record DraftPromptId := { prompt_session : string; prompt_seat : N; prompt_generation : N }.
Module DraftActivePhase.
Inductive t := Drafting | Review.
End DraftActivePhase.
Inductive DraftClockTarget := PickClock (prompt_id : DraftPromptId) | ReviewClock (next_round : N).
Inductive DraftClockState := Running (deadline_ms : N) | Frozen (remaining_ms : N).
Record DraftClock := { clock_target : DraftClockTarget; clock_state : DraftClockState }.
Record DraftPrompt := {
  prompt_id : DraftPromptId;
  prompt_pack : N;
  prompt_clock : option DraftClock;
}.
Record QueuedDraftPack := {
  q_pack_id : N;
  q_opening_seat : N;
  q_round : N;
  q_original_size : N;
  q_pack : DraftPack;
}.
Record FifoSeatState := {
  queue : list QueuedDraftPack;
  generation : N;
  prompt : option DraftPrompt;
  completed_steps : N;
  round_completed_steps : N;
}.
Record DraftPackProvenance := {
  prov_pack_id : N;
  prov_opening_seat : N;
  prov_round : N;
  prov_original_size : N;
  original_card_ids : list string;
}.
Record DraftCardProvenance := { card_pack_id : N; prov_card : DraftCardInstance }.
Module DraftRemovalReason.
Inductive t := Burn | Threshold.
End DraftRemovalReason.
Record RemovedDraftCard := {
  removed_id : string;
  removed_pack : N;
  removed_reason : DraftRemovalReason.t;
}.
Record DraftReviewState := { exhausted_round : N; review_next_round : N; review_clock : DraftClock }.
Record DraftPausedState := {
  paused_phase : DraftActivePhase.t;
  paused_reason : DraftPauseReason.t;
}.
Record FifoDraftState := {
  session_id : string;
  revision : N;
  last_now_ms : N;
  fifo_seats : list FifoSeatState;
  fifo_packs : gmap N DraftPackProvenance;
  fifo_cards : gmap string DraftCardProvenance;
  removed : list RemovedDraftCard;
  returned_effects : gmap string N;
  review : option DraftReviewState;
  paused : option DraftPausedState;
}.

(** ** Decks and the event after the draft *)
Module DeckAddableCardPolicy.
Inductive t := StandardBasics | CustomOnly | StandardBasicsPlusCustom.
End DeckAddableCardPolicy.
Record DeckAddableCards := { addable_policy : DeckAddableCardPolicy.t; addable_custom : list string }.
Definition standard_basics : DeckAddableCards :=
  {| addable_policy := DeckAddableCardPolicy.StandardBasics; addable_custom := [] |}.
Record DraftDeckSubmission := {
  deck_seat : N;
  submitted_main : list string;
  submitted_commanders : list string;
  submitted_printings : list Printings.DeckPrinting;
}.
Inductive LimitedDeckError :=
  | TooFewCards (actual minimum : nat)
  | NotInPool (card_name : string)
  | ExceedsPoolCount (card_name : string) (requested available : N)
  | FillerExceedsGrant (card_name : string) (pooled added granted : N)
  | FillerNotUsedAsCommander (card_name : string) (pooled added designated : N)
  | CommanderNotInDeck (card_name : string) (designated in_deck : N)
  | TooManyCommanders (designated maximum : nat)
  | TooFewCommanders (designated minimum : nat).
(** *** The event *)
Module PairingStatus.
Inductive t := Pending | InProgress | Complete.
#[global] Instance t_eq_dec : EqDecision t.
Proof. solve_decision. Defined.
End PairingStatus.

Record DraftMatchRecord := {
  record_player : N;
  wins : N;
  losses : N;
  draws : N;
  match_wins : N;
  match_losses : N;
}.
Record DraftPairing := {
  round : N;
  table : N;
  players : N * N;
  match_id : string;
  pairing_status : PairingStatus.t;
  winner : option N;
}.
#[export] Instance DraftMatchRecord_eq_dec : EqDecision DraftMatchRecord.
Proof. solve_decision. Defined.
#[export] Instance DraftPairing_eq_dec : EqDecision DraftPairing.
Proof. solve_decision. Defined.

(** ** The session *)
Record DraftConfig := {
  flow : DraftFlow.t;
  selection_policy : DraftSelectionPolicy;
  clock_policy : DraftClockPolicy;
  source : DraftSource.t;
  config_set_code : string;
  config_kind : DraftKind.t;
  pod_size : N;
  cards_per_pack : N;
  pack_count : N;
  min_deck_size : nat;
  addable_cards : DeckAddableCards;
  rng_seed : N;
  config_format : TournamentFormat.t;
}.

Record DraftSession := {
  shared_stack : option SharedStackState;
  fifo : option FifoDraftState;
  session_set_code : string;
  kind : DraftKind.t;
  status : DraftStatus.t;
  config : DraftConfig;
  seats : list DraftSeat;
  current_pack_number : N;
  pack_sizes : list N;
  pick_number : N;
  seats_picked_this_round : SeatFlags.t;
  connected_seats : SeatFlags.t;
  pass_direction : PassDirection.t;
  packs_by_seat : list (list DraftPack);
  current_pack : list (option DraftPack);
  current_pack_origins : list (option N);
  pools : list (list DraftCardInstance);
  submitted_decks : gmap N DraftDeckSubmission;
  match_records : gmap N DraftMatchRecord;
  pairings : list DraftPairing;
  current_round : N;
}.

(** Assignments to one field. *)
Definition set_shared_stack (x : option SharedStackState) (s : DraftSession) : DraftSession := {|
  shared_stack := x; fifo := fifo s; session_set_code := session_set_code s; kind := kind s;
  status := status s; config := config s; seats := seats s; current_pack_number :=
  current_pack_number s; pack_sizes := pack_sizes s; pick_number := pick_number s;
  seats_picked_this_round := seats_picked_this_round s; connected_seats := connected_seats s;
  pass_direction := pass_direction s; packs_by_seat := packs_by_seat s; current_pack :=
  current_pack s; current_pack_origins := current_pack_origins s; pools := pools s;
  submitted_decks := submitted_decks s; match_records := match_records s; pairings := pairings
  s; current_round := current_round s |}.
Definition set_fifo (x : option FifoDraftState) (s : DraftSession) : DraftSession := {|
  shared_stack := shared_stack s; fifo := x; session_set_code := session_set_code s; kind :=
  kind s; status := status s; config := config s; seats := seats s; current_pack_number :=
  current_pack_number s; pack_sizes := pack_sizes s; pick_number := pick_number s;
  seats_picked_this_round := seats_picked_this_round s; connected_seats := connected_seats s;
  pass_direction := pass_direction s; packs_by_seat := packs_by_seat s; current_pack :=
  current_pack s; current_pack_origins := current_pack_origins s; pools := pools s;
  submitted_decks := submitted_decks s; match_records := match_records s; pairings := pairings
  s; current_round := current_round s |}.
Definition set_status (x : DraftStatus.t) (s : DraftSession) : DraftSession := {|
  shared_stack := shared_stack s; fifo := fifo s; session_set_code := session_set_code s; kind
  := kind s; status := x; config := config s; seats := seats s; current_pack_number :=
  current_pack_number s; pack_sizes := pack_sizes s; pick_number := pick_number s;
  seats_picked_this_round := seats_picked_this_round s; connected_seats := connected_seats s;
  pass_direction := pass_direction s; packs_by_seat := packs_by_seat s; current_pack :=
  current_pack s; current_pack_origins := current_pack_origins s; pools := pools s;
  submitted_decks := submitted_decks s; match_records := match_records s; pairings := pairings
  s; current_round := current_round s |}.
Definition set_current_pack_number (x : N) (s : DraftSession) : DraftSession := {|
  shared_stack := shared_stack s; fifo := fifo s; session_set_code := session_set_code s; kind
  := kind s; status := status s; config := config s; seats := seats s; current_pack_number := x;
  pack_sizes := pack_sizes s; pick_number := pick_number s; seats_picked_this_round :=
  seats_picked_this_round s; connected_seats := connected_seats s; pass_direction :=
  pass_direction s; packs_by_seat := packs_by_seat s; current_pack := current_pack s;
  current_pack_origins := current_pack_origins s; pools := pools s; submitted_decks :=
  submitted_decks s; match_records := match_records s; pairings := pairings s; current_round :=
  current_round s |}.
Definition set_pack_sizes (x : list N) (s : DraftSession) : DraftSession := {|
  shared_stack := shared_stack s; fifo := fifo s; session_set_code := session_set_code s; kind
  := kind s; status := status s; config := config s; seats := seats s; current_pack_number :=
  current_pack_number s; pack_sizes := x; pick_number := pick_number s; seats_picked_this_round
  := seats_picked_this_round s; connected_seats := connected_seats s; pass_direction :=
  pass_direction s; packs_by_seat := packs_by_seat s; current_pack := current_pack s;
  current_pack_origins := current_pack_origins s; pools := pools s; submitted_decks :=
  submitted_decks s; match_records := match_records s; pairings := pairings s; current_round :=
  current_round s |}.
Definition set_pick_number (x : N) (s : DraftSession) : DraftSession := {|
  shared_stack := shared_stack s; fifo := fifo s; session_set_code := session_set_code s; kind
  := kind s; status := status s; config := config s; seats := seats s; current_pack_number :=
  current_pack_number s; pack_sizes := pack_sizes s; pick_number := x; seats_picked_this_round
  := seats_picked_this_round s; connected_seats := connected_seats s; pass_direction :=
  pass_direction s; packs_by_seat := packs_by_seat s; current_pack := current_pack s;
  current_pack_origins := current_pack_origins s; pools := pools s; submitted_decks :=
  submitted_decks s; match_records := match_records s; pairings := pairings s; current_round :=
  current_round s |}.
Definition set_seats_picked_this_round (x : SeatFlags.t) (s : DraftSession) : DraftSession := {|
  shared_stack := shared_stack s; fifo := fifo s; session_set_code := session_set_code s; kind
  := kind s; status := status s; config := config s; seats := seats s; current_pack_number :=
  current_pack_number s; pack_sizes := pack_sizes s; pick_number := pick_number s;
  seats_picked_this_round := x; connected_seats := connected_seats s; pass_direction :=
  pass_direction s; packs_by_seat := packs_by_seat s; current_pack := current_pack s;
  current_pack_origins := current_pack_origins s; pools := pools s; submitted_decks :=
  submitted_decks s; match_records := match_records s; pairings := pairings s; current_round :=
  current_round s |}.
Definition set_connected_seats (x : SeatFlags.t) (s : DraftSession) : DraftSession := {|
  shared_stack := shared_stack s; fifo := fifo s; session_set_code := session_set_code s; kind
  := kind s; status := status s; config := config s; seats := seats s; current_pack_number :=
  current_pack_number s; pack_sizes := pack_sizes s; pick_number := pick_number s;
  seats_picked_this_round := seats_picked_this_round s; connected_seats := x; pass_direction :=
  pass_direction s; packs_by_seat := packs_by_seat s; current_pack := current_pack s;
  current_pack_origins := current_pack_origins s; pools := pools s; submitted_decks :=
  submitted_decks s; match_records := match_records s; pairings := pairings s; current_round :=
  current_round s |}.
Definition set_pass_direction (x : PassDirection.t) (s : DraftSession) : DraftSession := {|
  shared_stack := shared_stack s; fifo := fifo s; session_set_code := session_set_code s; kind
  := kind s; status := status s; config := config s; seats := seats s; current_pack_number :=
  current_pack_number s; pack_sizes := pack_sizes s; pick_number := pick_number s;
  seats_picked_this_round := seats_picked_this_round s; connected_seats := connected_seats s;
  pass_direction := x; packs_by_seat := packs_by_seat s; current_pack := current_pack s;
  current_pack_origins := current_pack_origins s; pools := pools s; submitted_decks :=
  submitted_decks s; match_records := match_records s; pairings := pairings s; current_round :=
  current_round s |}.
Definition set_packs_by_seat (x : list (list DraftPack)) (s : DraftSession) : DraftSession := {|
  shared_stack := shared_stack s; fifo := fifo s; session_set_code := session_set_code s; kind
  := kind s; status := status s; config := config s; seats := seats s; current_pack_number :=
  current_pack_number s; pack_sizes := pack_sizes s; pick_number := pick_number s;
  seats_picked_this_round := seats_picked_this_round s; connected_seats := connected_seats s;
  pass_direction := pass_direction s; packs_by_seat := x; current_pack := current_pack s;
  current_pack_origins := current_pack_origins s; pools := pools s; submitted_decks :=
  submitted_decks s; match_records := match_records s; pairings := pairings s; current_round :=
  current_round s |}.
Definition set_current_pack (x : list (option DraftPack)) (s : DraftSession) : DraftSession := {|
  shared_stack := shared_stack s; fifo := fifo s; session_set_code := session_set_code s; kind
  := kind s; status := status s; config := config s; seats := seats s; current_pack_number :=
  current_pack_number s; pack_sizes := pack_sizes s; pick_number := pick_number s;
  seats_picked_this_round := seats_picked_this_round s; connected_seats := connected_seats s;
  pass_direction := pass_direction s; packs_by_seat := packs_by_seat s; current_pack := x;
  current_pack_origins := current_pack_origins s; pools := pools s; submitted_decks :=
  submitted_decks s; match_records := match_records s; pairings := pairings s; current_round :=
  current_round s |}.
Definition set_current_pack_origins (x : list (option N)) (s : DraftSession) : DraftSession := {|
  shared_stack := shared_stack s; fifo := fifo s; session_set_code := session_set_code s; kind
  := kind s; status := status s; config := config s; seats := seats s; current_pack_number :=
  current_pack_number s; pack_sizes := pack_sizes s; pick_number := pick_number s;
  seats_picked_this_round := seats_picked_this_round s; connected_seats := connected_seats s;
  pass_direction := pass_direction s; packs_by_seat := packs_by_seat s; current_pack :=
  current_pack s; current_pack_origins := x; pools := pools s; submitted_decks :=
  submitted_decks s; match_records := match_records s; pairings := pairings s; current_round :=
  current_round s |}.
Definition set_pools (x : list (list DraftCardInstance)) (s : DraftSession) : DraftSession := {|
  shared_stack := shared_stack s; fifo := fifo s; session_set_code := session_set_code s; kind
  := kind s; status := status s; config := config s; seats := seats s; current_pack_number :=
  current_pack_number s; pack_sizes := pack_sizes s; pick_number := pick_number s;
  seats_picked_this_round := seats_picked_this_round s; connected_seats := connected_seats s;
  pass_direction := pass_direction s; packs_by_seat := packs_by_seat s; current_pack :=
  current_pack s; current_pack_origins := current_pack_origins s; pools := x; submitted_decks :=
  submitted_decks s; match_records := match_records s; pairings := pairings s; current_round :=
  current_round s |}.
Definition set_seats (x : list DraftSeat) (s : DraftSession) : DraftSession := {|
  shared_stack := shared_stack s; fifo := fifo s; session_set_code := session_set_code s; kind
  := kind s; status := status s; config := config s; seats := x; current_pack_number :=
  current_pack_number s; pack_sizes := pack_sizes s; pick_number := pick_number s;
  seats_picked_this_round := seats_picked_this_round s; connected_seats := connected_seats s;
  pass_direction := pass_direction s; packs_by_seat := packs_by_seat s; current_pack :=
  current_pack s; current_pack_origins := current_pack_origins s; pools := pools s;
  submitted_decks := submitted_decks s; match_records := match_records s; pairings := pairings
  s; current_round := current_round s |}.
Definition set_submitted_decks (x : gmap N DraftDeckSubmission) (s : DraftSession) : DraftSession := {|
  shared_stack := shared_stack s; fifo := fifo s; session_set_code := session_set_code s; kind
  := kind s; status := status s; config := config s; seats := seats s; current_pack_number :=
  current_pack_number s; pack_sizes := pack_sizes s; pick_number := pick_number s;
  seats_picked_this_round := seats_picked_this_round s; connected_seats := connected_seats s;
  pass_direction := pass_direction s; packs_by_seat := packs_by_seat s; current_pack :=
  current_pack s; current_pack_origins := current_pack_origins s; pools := pools s;
  submitted_decks := x; match_records := match_records s; pairings := pairings s; current_round
  := current_round s |}.
Definition set_match_records (x : gmap N DraftMatchRecord) (s : DraftSession) : DraftSession := {|
  shared_stack := shared_stack s; fifo := fifo s; session_set_code := session_set_code s; kind
  := kind s; status := status s; config := config s; seats := seats s; current_pack_number :=
  current_pack_number s; pack_sizes := pack_sizes s; pick_number := pick_number s;
  seats_picked_this_round := seats_picked_this_round s; connected_seats := connected_seats s;
  pass_direction := pass_direction s; packs_by_seat := packs_by_seat s; current_pack :=
  current_pack s; current_pack_origins := current_pack_origins s; pools := pools s;
  submitted_decks := submitted_decks s; match_records := x; pairings := pairings s;
  current_round := current_round s |}.
Definition set_pairings (x : list DraftPairing) (s : DraftSession) : DraftSession := {|
  shared_stack := shared_stack s; fifo := fifo s; session_set_code := session_set_code s; kind
  := kind s; status := status s; config := config s; seats := seats s; current_pack_number :=
  current_pack_number s; pack_sizes := pack_sizes s; pick_number := pick_number s;
  seats_picked_this_round := seats_picked_this_round s; connected_seats := connected_seats s;
  pass_direction := pass_direction s; packs_by_seat := packs_by_seat s; current_pack :=
  current_pack s; current_pack_origins := current_pack_origins s; pools := pools s;
  submitted_decks := submitted_decks s; match_records := match_records s; pairings := x;
  current_round := current_round s |}.
Definition set_current_round (x : N) (s : DraftSession) : DraftSession := {|
  shared_stack := shared_stack s; fifo := fifo s; session_set_code := session_set_code s; kind
  := kind s; status := status s; config := config s; seats := seats s; current_pack_number :=
  current_pack_number s; pack_sizes := pack_sizes s; pick_number := pick_number s;
  seats_picked_this_round := seats_picked_this_round s; connected_seats := connected_seats s;
  pass_direction := pass_direction s; packs_by_seat := packs_by_seat s; current_pack :=
  current_pack s; current_pack_origins := current_pack_origins s; pools := pools s;
  submitted_decks := submitted_decks s; match_records := match_records s; pairings := pairings
  s; current_round := x |}.

(** ** Sessions whose draft is over *)
Definition after_draft (st : DraftStatus.t) : bool :=
  match st with
  | DraftStatus.Lobby | DraftStatus.Drafting | DraftStatus.Review | DraftStatus.Paused => false
  | _ => true
  end.
(** The draft is over in [s0], and [s] is [s0] with another status after the draft, and other
    decks, records and pairings. *)
Definition settled (s0 s : DraftSession) : Prop := ∃ st decks records ps r,
  after_draft (status s0) = true ∧ after_draft st = true ∧
  s = set_current_round r (set_pairings ps (set_match_records records
        (set_submitted_decks decks (set_status st s0)))).
Lemma settled_refl s : after_draft (status s) = true → settled s s.
Proof.
  exists (status s), (submitted_decks s), (match_records s), (pairings s), (current_round s).
  split; [done|]. split; [done|by destruct s].
Qed.
Section settled.
Context {s0 s : DraftSession} (H : settled s0 s).
Lemma settled_status st : after_draft st = true → settled s0 (set_status st s).
Proof using H. destruct H as (st0&d&m&p&r&?&_&->). intros. by exists st, d, m, p, r. Qed.
Lemma settled_decks decks : settled s0 (set_submitted_decks decks s).
Proof using H. destruct H as (st0&d&m&p&r&?&?&->). by exists st0, decks, m, p, r. Qed.
Lemma settled_records records : settled s0 (set_match_records records s).
Proof using H. destruct H as (st0&d&m&p&r&?&?&->). by exists st0, d, records, p, r. Qed.
Lemma settled_pairings ps : settled s0 (set_pairings ps s).
Proof using H. destruct H as (st0&d&m&p&r&?&?&->). by exists st0, d, m, ps, r. Qed.
Lemma settled_round r : settled s0 (set_current_round r s).
Proof using H. destruct H as (st0&d&m&p&r0&?&?&->). by exists st0, d, m, p, r. Qed.
End settled.

Module DraftSelectionRole.
Inductive t := Pick | Burn | Effect.
End DraftSelectionRole.

Inductive DraftDelta :=
  | DraftStarted
  | SelectionAccepted (prompt_id : DraftPromptId) (seat : N) (picked burned returned discarded : list string)
  | CardPicked (seat : N) (card_instance_id : string)
  | PackPassed
  | PackExhausted (new_pack_number : N)
  | DeckSubmitted (seat : N)
  | TransitionedTo (status : DraftStatus.t)
  | PairingsGenerated (round : N)
  | MatchResultRecorded (match_id : string) (winner_seat : option N)
  | RoundAdvanced (new_round : N)
  | SeatReplacedWithBot (seat : N)
  | SeatConnectionChanged (seat : N) (connected : bool)
  | SharedStackDecisionApplied (seat pile : N) (decision : SharedStackPileDecision.t).

(** The explanatory texts ([reason]) are left out. *)
Inductive DraftError :=
  | InvalidConfiguration
  | InvalidSnapshot
  | IncompatibleFlow
  | ExplicitTimeRequired
  | StalePrompt
  | ExpiredPrompt
  | InvalidSelectionCount (role : DraftSelectionRole.t) (expected actual : nat)
  | InvalidSelection (role : DraftSelectionRole.t)
  | InvalidClockBounds
  | InvalidTransition (from : DraftStatus.t) (action : string)
  | SeatOutOfRange (seat pod_size : N)
  | CardNotInPack (card_instance_id : string)
  | DraftEffectCardNotInPool (card_instance_id : string)
  | InvalidDraftEffectSelection (expected_cards actual_cards : nat)
  | NoPendingPack (seat : N)
  | ValidationFailed (errors : list LimitedDeckError)
  | PairingNotFound (match_id : string)
  | PairingNotInCurrentRound (match_id : string) (current_round : N)
  | MatchWinnerRequired (match_id : string)
  | SeatNotInPairing (seat : N) (match_id : string)
  | UnsupportedTournamentSize (format : TournamentFormat.t) (required actual : N)
  | InsufficientCards (available required : nat)
  | WrongPickCardCount (seat : N) (expected actual : nat)
  | DuplicatePickCardId (seat : N) (card_instance_id : string)
  | SeatAlreadyPickedThisRound (seat : N)
  | SeatIsBot (seat : N)
  | SealedRequiresSetSource
  | InvalidPackSequence
  | InvalidSealedConfiguration
  | InvalidSealedSnapshot
  | PodBelowMinimumSize (kind : DraftKind.t) (required actual : N)
  | InvalidSharedStackConfiguration
  | SharedStackDecisionRefused (seat pile : N) (reason : SharedStackRefusal.t).

(** [session.seats.len() as u8] *)
Definition seat_count (s : DraftSession) : N := wrap 8 (N.of_nat (length (seats s))).

(** [DraftSession::new] *)
Definition new_session (cfg : DraftConfig) (sts : list DraftSeat) : DraftSession :=
  let pod := length sts in {|
  shared_stack := None; fifo := None; session_set_code := config_set_code cfg;
  kind := config_kind cfg; status := DraftStatus.Lobby;
  config := cfg; seats := sts; current_pack_number := 0; pack_sizes := []; pick_number := 0;
  seats_picked_this_round := SeatFlags.all_false (wrap 8 (N.of_nat pod));
  connected_seats := SeatFlags.all_true (wrap 8 (N.of_nat pod));
  pass_direction := PassDirection.for_pack 0; packs_by_seat := replicate pod [];
  current_pack := replicate pod None; current_pack_origins := replicate pod None;
  pools := replicate pod []; submitted_decks := ∅; match_records := ∅; pairings := [];
  current_round := 0 |}.

(** [DraftSession::validate_legacy_admission] *)
Definition validate_legacy_admission (s : DraftSession) : outcome DraftError () :=
  if negb (bool_decide (flow (config s) = DraftFlow.LegacyBarrier))
     || match fifo s with Some _ => true | None => false end
     || bool_decide (status s = DraftStatus.Review)
     || negb (selection_policy_is_default (selection_policy (config s)))
     || negb (clock_policy_is_default (clock_policy (config s)))
  then Err IncompatibleFlow else Ok tt.

(** [DraftSession::head_pack] *)
Definition head_pack (s : DraftSession) (seat : N) : option DraftPack :=
  match flow (config s) with
  | DraftFlow.LegacyBarrier => mjoin (current_pack s !! N.to_nat seat)
  | DraftFlow.FifoAsync =>
      f ← fifo s;
      st ← fifo_seats f !! N.to_nat seat;
      q_pack <$> head (queue st)
  end.

(** ** Every card of a session, wherever it is *)
Definition shared_cards (st : SharedStackState) : list DraftCardInstance :=
  main_stack st ++ concat (piles st).
Definition table_cards (s : DraftSession) : list DraftCardInstance :=
  concat (mjoin (packs_by_seat s)) ++ concat (default [] <$> current_pack s)
  ++ match shared_stack s with Some st => shared_cards st | None => [] end.
Definition all_cards (s : DraftSession) : list DraftCardInstance :=
  table_cards s ++ concat (pools s).

(** ** Values for the examples *)
Definition example_card (id : string) : DraftCardInstance := {|
  instance_id := id; name := id; set_code := "TST"; collector_number := "1"; rarity := "common";
  colors := []; cmc := 1; type_line := "Creature"; draft_effect := None |}.
Definition example_config (k : DraftKind.t) (pod packs : N) : DraftConfig := {|
  flow := DraftFlow.LegacyBarrier;
  selection_policy := {| burns_per_pick := 0; discard_threshold := 0 |};
  clock_policy := {| pick_clock := PickClockPolicy.Off; review_duration_ms := 0 |};
  source := DraftSource.Set_ (SetLayout.UniformByRound ["TST"]); config_set_code := "TST";
  config_kind := k; pod_size := pod; cards_per_pack := 2; pack_count := packs;
  min_deck_size := 40; addable_cards := standard_basics; rng_seed := 7;
  config_format := TournamentFormat.Swiss |}.
Definition with_format (f : TournamentFormat.t) (c : DraftConfig) : DraftConfig := {|
  flow := flow c; selection_policy := selection_policy c; clock_policy := clock_policy c;
  source := source c; config_set_code := config_set_code c; config_kind := config_kind c;
  pod_size := pod_size c; cards_per_pack := cards_per_pack c; pack_count := pack_count c;
  min_deck_size := min_deck_size c; addable_cards := addable_cards c; rng_seed := rng_seed c; config_format := f |}.
Definition example_lobby (k : DraftKind.t) (pod packs : N) : DraftSession :=
  new_session (example_config k pod packs) (replicate (N.to_nat pod) (Bot "bot")).
