(* ===== verification/DraftAdmission.v ===== *)
(** * Admitting a draft configuration ([crates/draft-core/src/types.rs], [session.rs])

    The rules a draft configuration must satisfy: the seat counts a kind allows,
    the sources a distribution can express, the extra rules of Sealed, the bounds
    of the clock policy, and the configuration check of the first-in first-out
    flow; with the pack shape a session derives from its configuration. *)
From S2P Require Import Prelude.
From S2P Require Import Text.
From S2P Require Import DraftTypes.
Local Open Scope N_scope.

(** ** Seat counts *)
Module AdmissionContext.
Inductive t := Configuration | Snapshot (flow : DraftFlow.t).
End AdmissionContext.

#[export] Instance PostDraftPlay_eq_dec : EqDecision PostDraftPlay.t.
Proof. solve_decision. Defined.
#[export] Instance PackDistribution_eq_dec : EqDecision PackDistribution.t.
Proof. solve_decision. Defined.

Module DraftLaunchCapability.
Inductive t := None_ | CommanderMultiplayer.
End DraftLaunchCapability.
Definition launch_capability (p : DraftProcedure) : DraftLaunchCapability.t :=
  match post_draft_play p with
  | PostDraftPlay.CompleteImmediately =>
      if commanders_required p =? 0 then DraftLaunchCapability.None_
      else DraftLaunchCapability.CommanderMultiplayer
  | PostDraftPlay.TournamentPairings => DraftLaunchCapability.None_
  end.

Definition full_bracket (p : DraftProcedure) (f : TournamentFormat.t) : bool :=
  bool_decide (post_draft_play p = PostDraftPlay.TournamentPairings)
  && bool_decide (f = TournamentFormat.SingleElimination).
(** The two ends of the range. *)
Definition allowed_pod_size_range (p : DraftProcedure) (f : TournamentFormat.t) : N * N :=
  if full_bracket p f then (max_pod_size p, max_pod_size p) else (min_pod_size p, max_pod_size p).
Definition allows_pod_size (p : DraftProcedure) (f : TournamentFormat.t) (n : N) : bool :=
  let '(lo, hi) := allowed_pod_size_range p f in (lo <=? n) && (n <=? hi).
Definition allows_local_cube_pod_size (p : DraftProcedure) (f : TournamentFormat.t) (n : N)
    : bool :=
  if full_bracket p f then n =? max_pod_size p
  else (local_cube_min_pod_size p <=? n) && (n <=? local_cube_max_pod_size p).

Definition snapshot_refusal (f : DraftFlow.t) : DraftError :=
  match f with
  | DraftFlow.LegacyBarrier => InvalidSealedSnapshot
  | DraftFlow.FifoAsync => InvalidSnapshot
  end.
Definition sealed_refusal (c : AdmissionContext.t) : DraftError :=
  match c with
  | AdmissionContext.Configuration => InvalidSealedConfiguration
  | AdmissionContext.Snapshot f => snapshot_refusal f
  end.

Definition is_cube (s : DraftSource.t) : bool :=
  match s with DraftSource.Cube _ _ => true | DraftSource.Set_ _ => false end.

(** [DraftKind::admit_pod_size] *)
Definition admit_pod_size (k : DraftKind.t) (src : DraftSource.t) (f : TournamentFormat.t)
    (pod_size : N) (context : AdmissionContext.t) : outcome DraftError () :=
  let p := procedure k in
  let local_cube_size_is_allowed := is_cube src && allows_local_cube_pod_size p f pod_size in
  if allows_pod_size p f pod_size || local_cube_size_is_allowed then Ok tt
  else match context with
       | AdmissionContext.Configuration =>
           if pod_size <? min_pod_size p then Err (PodBelowMinimumSize k (min_pod_size p) pod_size)
           else Err (UnsupportedTournamentSize f (allowed_pod_size_range p f).1 pod_size)
       | AdmissionContext.Snapshot fl => Err (snapshot_refusal fl)
       end.

(** ** Sources *)
Definition allowed_set_layouts (p : DraftProcedure) : list SetLayoutKind.t :=
  match distribution p with
  | PackDistribution.PickAndPass | PackDistribution.AllAtOnce =>
      [SetLayoutKind.UniformByRound; SetLayoutKind.Chaos]
  | PackDistribution.SharedStackPiles _ => [SetLayoutKind.UniformByRound]
  end.
Definition allows_chaos_layout (p : DraftProcedure) : bool :=
  bool_decide (SetLayoutKind.Chaos ∈ allowed_set_layouts p).
(** [DraftProcedure::validate_source] *)
Definition validate_source (p : DraftProcedure) (src : DraftSource.t) : outcome DraftError () :=
  match src with
  | DraftSource.Cube _ _ => Ok tt
  | DraftSource.Set_ (SetLayout.Chaos _ _) =>
      if allows_chaos_layout p then Ok tt else Err InvalidSharedStackConfiguration
  | DraftSource.Set_ (SetLayout.UniformByRound _) => Ok tt
  end.
(** The layout check every boundary asks. *)
Definition validate_layout (src : DraftSource.t) (seat_count pack_count : N)
    : outcome DraftError () :=
  match src with
  | DraftSource.Set_ layout =>
      if validate_for_draft layout seat_count pack_count then Ok tt else Err InvalidPackSequence
  | DraftSource.Cube _ _ => Ok tt
  end.

(** [DraftKind::admit_all_at_once] *)
Definition admit_all_at_once (k : DraftKind.t) (c : DraftConfig) (session_code : option string)
    (context : AdmissionContext.t) : outcome DraftError () :=
  if is_cube (source c) then Err SealedRequiresSetSource
  else if negb (bool_decide (source_set_code (source c) = config_set_code c))
          || match session_code with
             | Some code => negb (bool_decide (code = config_set_code c))
             | None => false
             end
  then Err (sealed_refusal context)
  else let p := procedure k in
       if negb (pack_count c =? packs_per_player p)
          || negb (min_deck_size c =? proc_min_deck_size p)%nat
       then Err (sealed_refusal context)
       else Ok tt.

(** ** Clock policies *)
Definition MAX_DRAFT_ID_BYTES : nat := 128.
Definition MAX_DRAFT_JSON_INTEGER : N := 9007199254740991.
Definition MAX_DRAFT_DURATION_MS : N := 86400000.
Definition NATIVE_DEFAULT_PICK_TIMER_SECONDS : N := 75.
Definition MAX_PACK_COUNT : N := 8.

Module PodPolicy.
Inductive t := Competitive | Casual.
End PodPolicy.

(** [DraftClockPolicy::milliseconds]; the argument is a [u32]. *)
Definition milliseconds (seconds : N) : outcome DraftError N :=
  let ms := seconds * 1000 in
  if (ms <? 2 ^ 32) && (ms <=? MAX_DRAFT_DURATION_MS) then Ok ms else Err InvalidClockBounds.
Definition quick_default : DraftClockPolicy :=
  {| pick_clock := PickClockPolicy.Off; review_duration_ms := 0 |}.
Definition native (timer_seconds : option N) (review_seconds : N)
    : outcome DraftError DraftClockPolicy :=
  duration_ms ← milliseconds (default NATIVE_DEFAULT_PICK_TIMER_SECONDS timer_seconds);
  review ← milliseconds review_seconds;
  Ok {| pick_clock := if duration_ms =? 0 then PickClockPolicy.Off
                      else PickClockPolicy.Fixed duration_ms;
        review_duration_ms := review |}.
Definition p2p (policy : PodPolicy.t) (review_seconds : N)
    : outcome DraftError DraftClockPolicy :=
  review ← milliseconds review_seconds;
  Ok {| pick_clock := match policy with
                      | PodPolicy.Casual => PickClockPolicy.Off
                      | PodPolicy.Competitive => PickClockPolicy.SeatStep
                      end;
        review_duration_ms := review |}.
(** [DraftClockPolicy::validate] *)
Definition validate_clock_policy (p : DraftClockPolicy) : outcome DraftError () :=
  if (MAX_DRAFT_DURATION_MS <? review_duration_ms p)
     || match pick_clock p with
        | PickClockPolicy.Fixed d => (d =? 0) || (MAX_DRAFT_DURATION_MS <? d)
        | _ => false
        end
  then Err InvalidClockBounds else Ok tt.

(** ** Identifiers *)
(** [char::is_control] on UTF-8 bytes: a byte below 32 or 127, or the two bytes
    [0xC2 0x80..=0x9F] of the upper control characters. *)
Fixpoint has_control (s : bytes) : bool :=
  match s with
  | [] => false
  | x :: s' =>
      let n := Ascii.nat_of_ascii x in
      ((n <? 32) || (n =? 127)
       || ((n =? 194) && match s' with
                         | y :: _ => (128 <=? Ascii.nat_of_ascii y) && (Ascii.nat_of_ascii y <=? 159)
                         | [] => false
                         end))%nat
      || has_control s'
  end.
Definition valid_draft_id (id : string) : bool :=
  negb (bool_decide (of_string id = [])) && (length (of_string id) <=? MAX_DRAFT_ID_BYTES)%nat
  && negb (has_control (of_string id)).

(** ** The configuration of a first-in first-out draft *)
(** [session::validate_fifo_config] *)
Definition validate_fifo_config (c : DraftConfig) (seat_count : nat) (context : AdmissionContext.t)
    : outcome DraftError () :=
  count ← (if (seat_count <? 256)%nat then Ok (N.of_nat seat_count) else Err InvalidConfiguration);
  _ ← (if (count =? 0) || negb (count =? pod_size c) then Err InvalidConfiguration else Ok ());
  let p := procedure (config_kind c) in
  _ ← admit_pod_size (config_kind c) (source c) (config_format c) count context;
  _ ← (if (pack_count c =? 0) || (MAX_PACK_COUNT <? pack_count c) || (cards_per_pack c =? 0)
       then Err InvalidConfiguration else Ok ());
  _ ← (if negb (bool_decide (source_set_code (source c) = config_set_code c))
       then Err InvalidConfiguration else Ok ());
  _ ← validate_layout (source c) count (pack_count c);
  _ ← validate_clock_policy (clock_policy c);
  match distribution p with
  | PackDistribution.PickAndPass => Ok ()
  | PackDistribution.AllAtOnce =>
      _ ← admit_all_at_once (config_kind c) c None context;
      if negb (selection_policy_is_default (selection_policy c))
         || negb (review_duration_ms (clock_policy c) =? 0)
      then Err InvalidConfiguration else Ok ()
  | PackDistribution.SharedStackPiles _ => Err InvalidConfiguration
  end.

(** ** The shape of the packs *)
Definition cards_in_pack (s : DraftSession) (pack_number : N) : N :=
  default (cards_per_pack (config s)) (entry_for_pack (pack_sizes s) pack_number).
Definition total_pack_cards (s : DraftSession) : nat :=
  match pack_sizes s with
  | [] => N.to_nat (pack_count (config s)) * N.to_nat (cards_per_pack (config s))
  | sizes => sum_list (N.to_nat <$> sizes)
  end.
Definition pack_size_sequence (s : DraftSession) : list N :=
  (λ i, cards_in_pack s (N.of_nat i)) <$> seq 0 (N.to_nat (pack_count (config s))).
(** [DraftProcedure::pick_steps_per_pack]; the division by zero panics. *)
Definition pick_steps_per_pack (p : DraftProcedure) (cards : N) : outcome DraftError N :=
  if cards_per_pick p =? 0 then Panic
  else Ok (cards / cards_per_pick p + if cards `mod` cards_per_pick p =? 0 then 0 else 1).

(** [DraftProcedure::draft_effect_step_size] *)
Definition draft_effect_step_size (p : DraftProcedure) (draft_effect_cards : nat) : nat :=
  N.to_nat (cards_per_pick p) + draft_effect_cards.
Definition MAX_CARDS_PER_PICK : nat := 2.
Definition select_pick_count_is_admitted (picks draft_effect_cards : nat) : bool :=
  ((picks <=? 255) && (draft_effect_cards <=? picks)
   && (1 <=? picks - draft_effect_cards) && (picks - draft_effect_cards <=? MAX_CARDS_PER_PICK))%nat.

(** ** Lemmas *)
Lemma admit_pod_size_context k src f n ctx ctx' :
  admit_pod_size k src f n ctx = Ok () → admit_pod_size k src f n ctx' = Ok ().
Proof. unfold admit_pod_size. by repeat case_match. Qed.
Lemma admit_all_at_once_context k c code ctx ctx' :
  admit_all_at_once k c code ctx = Ok () → admit_all_at_once k c code ctx' = Ok ().
Proof. unfold admit_all_at_once. by repeat case_match. Qed.
Lemma admit_all_at_once_packs k c code ctx :
  admit_all_at_once k c code ctx = Ok () → pack_count c = packs_per_player (procedure k).
Proof. unfold admit_all_at_once. repeat case_match; try done; intros _; by breflect. Qed.

(** What an admitted configuration of the first-in first-out flow guarantees. *)
Record fifo_config (c : DraftConfig) (n : nat) : Prop := {
  fc_pod : pod_size c = N.of_nat n;
  fc_some : (0 < n < 256)%nat;
  fc_packs : 0 < pack_count c ≤ MAX_PACK_COUNT;
  fc_code : source_set_code (source c) = config_set_code c;
  fc_review : review_duration_ms (clock_policy c) ≤ MAX_DRAFT_DURATION_MS;
  fc_pick : ∀ d, pick_clock (clock_policy c) = PickClockPolicy.Fixed d →
    0 < d ≤ MAX_DRAFT_DURATION_MS;
  fc_dealt : distribution (procedure (config_kind c)) = PackDistribution.PickAndPass ∨
    (distribution (procedure (config_kind c)) = PackDistribution.AllAtOnce ∧
     selection_policy c = {| burns_per_pick := 0; discard_threshold := 0 |} ∧
     review_duration_ms (clock_policy c) = 0 ∧
     pack_count c = packs_per_player (procedure (config_kind c)));
}.

Lemma validate_fifo_config_ok c n ctx : validate_fifo_config c n ctx = Ok () →
  fifo_config c n ∧ ∀ ctx', validate_fifo_config c n ctx' = Ok ().
Proof.
  unfold validate_fifo_config.
  intros (count&Hn&H)%outcome_bind_ok. destruct (n <? 256)%nat eqn:Hlt; [|done]. simplify_eq.
  apply outcome_bind_ok in H as ([]&Hc&H). match type of Hc with context [if ?b then _ else _] => destruct b eqn:Hcount end; [done|].
  apply outcome_bind_ok in H as ([]&Hadmit&H).
  apply outcome_bind_ok in H as ([]&Hp&H). match type of Hp with context [if ?b then _ else _] => destruct b eqn:Hpacks end; [done|].
  apply outcome_bind_ok in H as ([]&Hs&H). match type of Hs with context [if ?b then _ else _] => destruct b eqn:Hcode end; [done|].
  apply outcome_bind_ok in H as ([]&Hlay&H).
  apply outcome_bind_ok in H as ([]&Hclock&H).
  split.
  - unfold validate_clock_policy in Hclock. match type of Hclock with context [if ?b then _ else _] => destruct b eqn:Hpol end; [done|]. breflect.
    split; try done; try lia.
    + destruct (pick_clock (clock_policy c)); intros; simplify_eq; breflect; lia.
    + destruct (distribution _); [by left| |done]. right.
      apply outcome_bind_ok in H as ([]&Hall&H). match type of H with context [if ?b then _ else _] => destruct b eqn:Hsel end; [done|]. breflect.
      split_and!; try done.
      * unfold selection_policy_is_default in *. breflect. by destruct (selection_policy c); simplify_eq/=.
      * by eapply admit_all_at_once_packs.
  - intros ctx'. cbn [mbind outcome_bind]. rewrite Hcount.
    rewrite (admit_pod_size_context _ _ _ _ _ ctx' Hadmit). cbn [mbind outcome_bind].
    rewrite Hlay, Hclock. cbn [mbind outcome_bind].
    destruct (distribution _); try done.
    apply outcome_bind_ok in H as ([]&Hall&H).
    by rewrite (admit_all_at_once_context _ _ _ _ ctx' Hall).
Qed.
