(* ===== verification/Winston.v ===== *)
(** * Shared-stack drafting ([crates/draft-core/src/shared_stack.rs])

    The Winston reducer: its legality authority, the forced decision that drives
    an absent seat, one whole decision, and the deal that starts the draft
    ([apply_start_draft] of [session.rs]).  Indexing that would be out of range
    is [Panic]. *)
From S2P Require Import Prelude DraftTypes.
Local Open Scope N_scope.
Import SharedStackPileDecision(Take, Decline).

(** [shared_stack::piles_needed] *)
Definition piles_needed (pile_count : N) : outcome DraftError nat :=
  if pile_count =? 0 then Err InvalidSharedStackConfiguration else Ok (N.to_nat pile_count).

(** [shared_stack::refusal_for] *)
Definition refusal_for (st : SharedStackState) (seat pile : N)
    (decision : SharedStackPileDecision.t) : option SharedStackRefusal.t :=
  if negb (seat =? active_seat st) || negb (pile =? cursor st)
  then Some SharedStackRefusal.PileNotActive
  else
    let index := N.to_nat pile in
    match piles st !! index with
    | None => Some SharedStackRefusal.PileNotActive
    | Some cursor_pile =>
        match decision with
        | Take => if bool_decide (cursor_pile = []) then Some SharedStackRefusal.PileEmpty else None
        | Decline =>
            let later_pile_available :=
              existsb (λ p, negb (bool_decide (p = []))) (drop (index + 1) (piles st)) in
            let is_final_pile := (index + 1 =? length (piles st))%nat in
            if later_pile_available || (is_final_pile && (2 <=? length (main_stack st))%nat)
            then None else Some SharedStackRefusal.NoGuaranteedCard
        end
    end.

(** [shared_stack::forced_decision] *)
Definition forced_decision (st : SharedStackState) (seat : N) : option SharedStackPileDecision.t :=
  find_first (λ d, match refusal_for st seat (cursor st) d with None => true | Some _ => false end)
    SharedStackPileDecision.ALL.

(** Assignments inside the shared-stack state. *)
Definition with_table (main : list DraftCardInstance) (ps : list (list DraftCardInstance))
    (st : SharedStackState) : SharedStackState := {|
  main_stack := main; piles := ps; starting_seat := starting_seat st;
  active_seat := active_seat st; cursor := cursor st; inspected := inspected st;
  decisions := decisions st; history := history st; forced_draws := forced_draws st |}.
Definition with_turn (active cur : N) (seen : list nat) (st : SharedStackState)
    : SharedStackState := {|
  main_stack := main_stack st; piles := piles st; starting_seat := starting_seat st;
  active_seat := active; cursor := cur; inspected := seen;
  decisions := decisions st; history := history st; forced_draws := forced_draws st |}.
Definition with_forced (f : list (option DraftCardInstance)) (st : SharedStackState)
    : SharedStackState := {|
  main_stack := main_stack st; piles := piles st; starting_seat := starting_seat st;
  active_seat := active_seat st; cursor := cursor st; inspected := inspected st;
  decisions := decisions st; history := history st; forced_draws := f |}.
Definition with_record (n : N) (h : list SharedStackDecisionRecord) (st : SharedStackState)
    : SharedStackState := {|
  main_stack := main_stack st; piles := piles st; starting_seat := starting_seat st;
  active_seat := active_seat st; cursor := cursor st; inspected := inspected st;
  decisions := n; history := h; forced_draws := forced_draws st |}.

(** [slot[i] = v], which panics out of range. *)
Definition index_set {A} (i : nat) (v : A) (l : list A) : outcome DraftError (list A) :=
  if (i <? length l)%nat then Ok (<[i := v]> l) else Panic.

(** The [match decision] of the reducer: the new table, pool and whether the turn ends. *)
Definition decide_take (index : nat) (st : SharedStackState) (pool : list DraftCardInstance)
    : outcome DraftError (SharedStackState * list DraftCardInstance * bool) :=
  p ← or_panic (piles st !! index);
  let pool := pool ++ p in
  let ps := <[index := []]> (piles st) in
  match vec_pop (main_stack st) with
  | Some (card, main) => Ok (with_table main (<[index := [card]]> ps) st, pool, true)
  | None => Ok (with_table (main_stack st) ps st, pool, true)
  end.

Definition decide_decline (seat : N) (index : nat) (st : SharedStackState)
    (pool : list DraftCardInstance)
    : outcome DraftError (SharedStackState * list DraftCardInstance * bool) :=
  p ← or_panic (piles st !! index);
  let st :=
    match vec_pop (main_stack st) with
    | Some (card, main) => with_table main (<[index := p ++ [card]]> (piles st)) st
    | None => st
    end in
  if (index + 1 <? length (piles st))%nat then
    let cur := u8_add (cursor st) 1 in
    q ← or_panic (piles st !! N.to_nat cur);
    seen ← index_set (N.to_nat cur) (length q) (inspected st);
    Ok (with_turn (active_seat st) cur seen st, pool, false)
  else
    match vec_pop (main_stack st) with
    | Some (card, main) =>
        Ok (with_forced (<[N.to_nat seat := Some card]> (forced_draws st))
              (with_table main (piles st) st), pool ++ [card], true)
    | None => Ok (st, pool, true)
    end.

Definition trim_history (h : list SharedStackDecisionRecord) : list SharedStackDecisionRecord :=
  if (SHARED_STACK_HISTORY_CAPACITY <? length h)%nat
  then drop (length h - SHARED_STACK_HISTORY_CAPACITY) h else h.

(** The end of a turn. *)
Definition end_turn (seat_count : N) (st : SharedStackState) : outcome DraftError SharedStackState :=
  if seat_count =? 0 then Panic
  else
    p ← or_panic (piles st !! 0%nat);
    seen ← index_set 0 (length p) ((λ _, 0%nat) <$> inspected st);
    Ok (with_turn (u8_add (active_seat st) 1 `mod` seat_count) 0 seen st).

(** Everything a legal decision changes: the shared stack and the seat's pool. *)
Definition apply_decision (seat_count seat pile : N) (decision : SharedStackPileDecision.t)
    (st : SharedStackState) (pool : list DraftCardInstance)
    : outcome DraftError (SharedStackState * list DraftCardInstance) :=
  let index := N.to_nat pile in
  p ← or_panic (piles st !! index);
  let pile_size := length p in
  let st := with_forced
    (<[N.to_nat seat := None]> (vec_resize (N.to_nat seat_count) None (forced_draws st))) st in
  '(st, pool, turn_ends) ←
    match decision with
    | Take => decide_take index st pool
    | Decline => decide_decline seat index st pool
    end;
  let st := with_record (u32_add (decisions st) 1)
    (trim_history (history st ++
       [{| rec_seat := seat; rec_pile := pile; rec_decision := decision;
           rec_pile_size := pile_size |}])) st in
  st ← if (turn_ends : bool) then end_turn seat_count st else Ok st;
  Ok (st, pool).

(** [shared_stack::apply_shared_stack_decision] *)
Definition apply_shared_stack_decision (seat pile : N) (decision : SharedStackPileDecision.t)
    : stM DraftSession DraftError (list DraftDelta) :=
  s ← get;
  ensure (bool_decide (status s = DraftStatus.Drafting))
    (InvalidTransition (status s) "SharedStackDecision");;
  let pod_size := seat_count s in
  ensure (seat <? pod_size) (SeatOutOfRange seat pod_size);;
  st ← lift (ok_or (shared_stack s) InvalidSharedStackConfiguration);
  match refusal_for st seat pile decision with
  | Some reason => throw (SharedStackDecisionRefused seat pile reason)
  | None =>
      pool ← lift (or_panic (pools s !! N.to_nat seat));
      '(st, pool) ← lift (apply_decision (seat_count s) seat pile decision st pool);
      modify (set_pools (<[N.to_nat seat := pool]> (pools s)));;
      modify (set_shared_stack (Some st));;
      let deltas := [SharedStackDecisionApplied seat pile decision] in
      if bool_decide (main_stack st = []) && forallb (λ p, bool_decide (p = [])) (piles st)
      then
        modify (set_status DraftStatus.Deckbuilding);;
        mret (deltas ++ [TransitionedTo DraftStatus.Deckbuilding])
      else mret deltas
  end.

(** Driving a draft by forced decisions of the seat to act, at most [fuel] of them. *)
Fixpoint drive (fuel : nat) (s : DraftSession) : outcome DraftError DraftSession :=
  match fuel with
  | O => Ok s
  | S fuel =>
      if bool_decide (status s = DraftStatus.Drafting) then
        st ← ok_or (shared_stack s) InvalidSharedStackConfiguration;
        match forced_decision st (active_seat st) with
        | None => Ok s
        | Some d =>
            match apply_shared_stack_decision (active_seat st) (cursor st) d s with
            | (Ok _, s) => drive fuel s
            | (Err e, _) => Err e
            | (Panic, _) => Panic
            end
        end
      else Ok s
  end.

(** ** The invariant of the table *)
Record table_ok (n : N) (st : SharedStackState) : Prop := {
  tok_piles : (0 < length (piles st) < 256)%nat;
  tok_cursor : (N.to_nat (cursor st) < length (piles st))%nat;
  tok_active : active_seat st < n;
  tok_refill : main_stack st ≠ [] → ∀ i p, piles st !! i = Some p → p ≠ [];
  tok_inspected : length (inspected st) = length (piles st);
  tok_seen i k p : inspected st !! i = Some k → piles st !! i = Some p →
    (k ≤ length p ∧ (i = N.to_nat (cursor st) → k = length p) ∧
     (N.to_nat (cursor st) < i → k = 0))%nat;
  tok_history : (length (history st) ≤ SHARED_STACK_HISTORY_CAPACITY)%nat;
}.

Lemma cursor_pile n st : table_ok n st → ∃ p, piles st !! N.to_nat (cursor st) = Some p.
Proof. intros H. apply lookup_lt_is_Some_2, H. Qed.

(** ** The rules of the game, and that a decision follows them *)
Definition top {A} (l : list A) : list A := option_list (last l).
Definition rest {A} (l : list A) : list A := take (length l - 1) l.

Lemma rest_top {A} (l : list A) : l = rest l ++ top l.
Proof.
  unfold rest, top. induction l as [|x l _] using rev_ind; [done|].
  rewrite last_snoc, length_app. simpl. by rewrite take_app_le, take_ge by lia.
Qed.
Lemma vec_pop_cases {A} (l : list A) :
  (l = [] ∧ vec_pop l = None ∧ top l = [] ∧ rest l = []) ∨
  ∃ x, vec_pop l = Some (x, rest l) ∧ top l = [x] ∧ l = rest l ++ [x].
Proof.
  unfold vec_pop, top, rest. destruct (last l) as [x|] eqn:Hl.
  - right. exists x. split_and!; try done. rewrite (rest_top l) at 1. unfold rest, top. by rewrite Hl.
  - left. by apply last_None in Hl as ->.
Qed.

(** A table: the stack with its top last, the piles, whose turn it is, the pile looked at. *)
Record game : Type := Game {
  g_stack : list DraftCardInstance; g_piles : list (list DraftCardInstance);
  g_turn : N; g_cursor : nat;
}.
Definition game_of (st : SharedStackState) : game :=
  Game (main_stack st) (piles st) (active_seat st) (N.to_nat (cursor st)).
Definition g_cards (g : game) : list DraftCardInstance := g_stack g ++ concat (g_piles g).

(** The published rules, with the cards the player gets: take the pile looked
    at, or put it back under the top card and look at the next one, or after
    the last one take the next card blind. *)
Inductive rule (n : N) : SharedStackPileDecision.t → game → list DraftCardInstance → game → Prop :=
| rule_take g p :
    g_piles g !! g_cursor g = Some p → p ≠ [] →
    rule n Take g p
      (Game (rest (g_stack g)) (<[g_cursor g := top (g_stack g)]> (g_piles g))
            ((g_turn g + 1) `mod` n) 0)
| rule_next g p q i :
    g_piles g !! g_cursor g = Some p → (g_cursor g < i)%nat →
    g_piles g !! i = Some q → q ≠ [] →
    rule n Decline g []
      (Game (rest (g_stack g)) (<[g_cursor g := p ++ top (g_stack g)]> (g_piles g))
            (g_turn g) (g_cursor g + 1))
| rule_blind g p s x y :
    g_piles g !! g_cursor g = Some p → (g_cursor g + 1 = length (g_piles g))%nat →
    g_stack g = s ++ [x; y] →
    rule n Decline g [x]
      (Game s (<[g_cursor g := p ++ [y]]> (g_piles g)) ((g_turn g + 1) `mod` n) 0).

(** *** What the rules keep *)
Definition refilled (g : game) : Prop :=
  g_stack g ≠ [] → ∀ i p, g_piles g !! i = Some p → p ≠ [].
Definition g_playable (g : game) : Prop :=
  ∃ i p, (g_cursor g ≤ i)%nat ∧ g_piles g !! i = Some p ∧ p ≠ [].
Definition g_measure (g : game) : nat :=
  length (g_cards g) * (length (g_piles g) + 1) + (length (g_piles g) - g_cursor g).

Lemma rule_conserves n d g t g' : rule n d g t g' → g_cards g ≡ₚ t ++ g_cards g'.
Proof.
  unfold g_cards. destruct 1 as [g p Hp _|g p q i Hp _ _ _|g p s x y Hp _ Hs]; cbn.
  - rewrite (rest_top (g_stack g)) at 1.
    pose proof (concat_set (g_piles g) _ p (top (g_stack g)) Hp) as Hc.
    transitivity (rest (g_stack g) ++ p ++ concat (<[g_cursor g:=top (g_stack g)]> (g_piles g)));
      [rewrite Hc|]; solve_Permutation.
  - rewrite (rest_top (g_stack g)) at 1. apply (Permutation_app_inv_l p).
    pose proof (concat_set (g_piles g) _ p (p ++ top (g_stack g)) Hp) as Hc.
    transitivity (rest (g_stack g) ++ p ++
      concat (<[g_cursor g:=p ++ top (g_stack g)]> (g_piles g))); [rewrite Hc|]; solve_Permutation.
  - rewrite Hs. apply (Permutation_app_inv_l p).
    pose proof (concat_set (g_piles g) _ p (p ++ [y]) Hp) as Hc.
    transitivity (s ++ [x] ++ p ++ concat (<[g_cursor g:=p ++ [y]]> (g_piles g)));
      [rewrite Hc|]; solve_Permutation.
Qed.

Lemma rule_piles n d g t g' : rule n d g t g' → length (g_piles g') = length (g_piles g).
Proof. destruct 1; cbn; apply length_insert. Qed.

Lemma rule_refilled n d g t g' : rule n d g t g' → refilled g → refilled g'.
Proof.
  unfold refilled. destruct 1 as [g p Hp Hne|g p q i Hp _ _ _|g p s x y Hp _ Hs];
    cbn; intros Href Hst j r Hj;
    apply list_lookup_insert_Some in Hj as [(<-&<-&_)|[_ Hj]].
  - destruct (vec_pop_cases (g_stack g)) as [(_&_&_&Hr)|(z&_&->&_)]; [by rewrite Hr in Hst|done].
  - eapply Href; [|done]. intros He. apply Hst. by rewrite He.
  - destruct (vec_pop_cases (g_stack g)) as [(_&_&_&Hr)|(z&_&->&_)]; [by rewrite Hr in Hst|by destruct p].
  - eapply Href; [|done]. intros He. apply Hst. by rewrite He.
  - by destruct p.
  - eapply Href; [|done]. rewrite Hs. by destruct s.
Qed.

Lemma concat_nonempty {A} (ls : list (list A)) :
  concat ls ≠ [] → ∃ i l, ls !! i = Some l ∧ l ≠ [].
Proof.
  induction ls as [|l ls IH]; [done|]. intros Hne. destruct l as [|x l].
  - destruct (IH Hne) as (i&l&Hi&Hl). by exists (S i), l.
  - by exists 0%nat, (x :: l).
Qed.

(** While a card is on the table somebody can act: the draft cannot get stuck. *)
Lemma rule_playable n d g t g' :
  rule n d g t g' → refilled g → g_cards g' ≠ [] → g_playable g'.
Proof.
  intros Hr Href. pose proof (rule_refilled _ _ _ _ _ Hr Href) as Href'. revert Href'. clear Href.
  unfold g_playable, g_cards. destruct Hr as [g p Hp Hne|g p q i Hp Hi Hq Hqne|g p s x y Hp Hl Hs].
  all: cbn; intros Href' Hcards.
  - destruct (concat_nonempty (<[g_cursor g:=top (g_stack g)]> (g_piles g))) as (j&l&Hj&Hl).
    + intros He. rewrite He, app_nil_r in Hcards.
      assert (∃ r, (<[g_cursor g:=top (g_stack g)]> (g_piles g)) !! g_cursor g = Some r) as [r Hr].
      { apply lookup_lt_is_Some. rewrite length_insert. by eapply lookup_lt_Some. }
      eapply (Href' Hcards _ _ Hr).
      assert (r ∈ <[g_cursor g:=top (g_stack g)]> (g_piles g)) as Hin by by eapply list_elem_of_lookup_2.
      apply concat_nil_Forall in He. rewrite List.Forall_forall in He.
      apply He. by apply list_elem_of_In.
    + exists j, l. split; [lia|done].
  - exists i, q. split; [lia|]. split; [|done].
    rewrite list_lookup_insert_ne by lia. done.
  - exists (g_cursor g), (p ++ [y]). split; [lia|]. split; [|by destruct p].
    apply list_lookup_insert_eq. by eapply lookup_lt_Some.
Qed.

(** Every decision brings the end closer. *)
Lemma rule_measure n d g t g' : rule n d g t g' → (g_measure g' < g_measure g)%nat.
Proof.
  intros Hr. pose proof (rule_conserves _ _ _ _ _ Hr) as Hc.
  pose proof (rule_piles _ _ _ _ _ Hr) as Hlen.
  apply Permutation_length in Hc. rewrite length_app in Hc. unfold g_measure.
  rewrite Hlen, Hc. clear Hlen Hc.
  destruct Hr as [g p Hp Hne|g p q i Hp Hi Hq _|g p s x y Hp Hl _]; cbn [g_cursor length].
  - destruct p; [done|]. cbn [length]. nia.
  - apply lookup_lt_Some in Hq. lia.
  - nia.
Qed.

(** *** The legality authority refuses exactly what no rule allows *)
Lemma two_on_top {A} (l : list A) : (2 ≤ length l)%nat → ∃ s x y, l = s ++ [x; y].
Proof.
  intros Hl. destruct (vec_pop_cases l) as [(->&_)|(y&_&_&Hy)]; [simpl in Hl; lia|].
  rewrite Hy, length_app in Hl.
  destruct (vec_pop_cases (rest l)) as [(Hr&_)|(x&_&_&Hx)]; [rewrite Hr in Hl; simpl in Hl; lia|].
  exists (rest (rest l)), x, y. by rewrite Hy at 1; rewrite Hx at 1; rewrite <-app_assoc.
Qed.

Lemma later_pile (i : nat) (ps : list (list DraftCardInstance)) :
  existsb (λ p, negb (bool_decide (p = []))) (drop (i + 1) ps) = true ↔
  ∃ j q, (i < j)%nat ∧ ps !! j = Some q ∧ q ≠ [].
Proof.
  rewrite existsb_exists. split.
  - intros (q&Hin&Hq). apply negb_true_iff, bool_decide_eq_false in Hq.
    apply list_elem_of_In, list_elem_of_lookup in Hin as [k Hk]. rewrite lookup_drop in Hk.
    exists (i + 1 + k)%nat, q. split_and!; [lia|done|done].
  - intros (j&q&Hj&Hq&Hne). exists q. rewrite bool_decide_eq_false_2 by done. split; [|done].
    apply list_elem_of_In, list_elem_of_lookup. exists (j - (i + 1))%nat.
    rewrite lookup_drop, <-Hq. f_equal. lia.
Qed.

Lemma refusal_for_rule n st seat pile d :
  table_ok n st →
  refusal_for st seat pile d = None ↔
  seat = active_seat st ∧ pile = cursor st ∧ ∃ t g', rule n d (game_of st) t g'.
Proof.
  intros Hok. destruct (cursor_pile n st Hok) as [p Hp]. unfold refusal_for.
  destruct (N.eqb_spec seat (active_seat st)) as [->|]; [|by split; [|intros (?&_)]].
  destruct (N.eqb_spec pile (cursor st)) as [->|]; [|by split; [|intros (_&?&_)]].
  cbn [negb orb]. rewrite Hp. destruct d.
  - case_bool_decide as Hpe.
    + subst p. split; [done|]. intros (_&_&t&g'&Hr). inversion Hr as [? q Hq Hne| |]; subst.
      cbn in Hq. congruence.
    + split; [|done]. intros _. split_and!; [done|done|]. eexists _, _. by apply (rule_take n (game_of st) p).
  - destruct (existsb _ _) eqn:He; cbn [orb].
    + apply later_pile in He as (j&q&Hj&Hq&Hne). split; [|done]. intros _.
      split_and!; [done|done|]. eexists _, _. by apply (rule_next n (game_of st) p q j).
    + destruct (Nat.eqb_spec (N.to_nat (cursor st) + 1) (length (piles st))) as [Hlast|Hlast];
        destruct (Nat.leb_spec 2 (length (main_stack st))) as [Hl|Hl]; cbn [andb];
        (split; [try done; intros _; split_and!; try done|intros (_&_&t&g'&Hr); try done; exfalso]).
      * destruct (two_on_top _ Hl) as (s&x&y&Hs). eexists _, _.
        by apply (rule_blind n (game_of st) p s x y).
      * inversion Hr as [|? q r i Hq Hi Hr' Hne|? q s x y Hq Hc Hs]; subst; cbn in *.
        -- apply lookup_lt_Some in Hr'. lia.
        -- rewrite Hs, length_app in Hl. simpl in Hl. lia.
      * inversion Hr as [|? q r i Hq Hi Hr' Hne|? q s x y Hq Hc Hs]; subst; cbn in *; [|lia].
        apply not_true_iff_false in He. apply He, later_pile. by exists i, r.
      * inversion Hr as [|? q r i Hq Hi Hr' Hne|? q s x y Hq Hc Hs]; subst; cbn in *; [|lia].
        apply not_true_iff_false in He. apply He, later_pile. by exists i, r.
Qed.

(** *** One decision of the code is one move of the rules *)
Lemma decide_take_eq i st pool p :
  piles st !! i = Some p →
  decide_take i st pool =
    Ok (with_table (rest (main_stack st)) (<[i := top (main_stack st)]> (piles st)) st,
        pool ++ p, true).
Proof.
  intros Hi. unfold decide_take. rewrite Hi. cbn [or_panic mbind outcome_bind].
  destruct (vec_pop_cases (main_stack st)) as [(Hm&->&->&->)|(x&->&->&_)]; [by rewrite Hm|].
  by rewrite list_insert_insert_eq.
Qed.

Lemma decline_table i st p :
  piles st !! i = Some p →
  match vec_pop (main_stack st) with
  | Some (card, main) => with_table main (<[i := p ++ [card]]> (piles st)) st
  | None => st
  end = with_table (rest (main_stack st)) (<[i := p ++ top (main_stack st)]> (piles st)) st.
Proof.
  intros Hi. destruct (vec_pop_cases (main_stack st)) as [(Hm&->&->&->)|(x&->&->&_)]; [|done].
  rewrite app_nil_r, list_insert_id, <-Hm by done. by destruct st.
Qed.

Lemma decide_decline_next seat st pool p q :
  let c := N.to_nat (cursor st) in
  piles st !! c = Some p → piles st !! (c + 1)%nat = Some q →
  (length (piles st) < 256)%nat → length (inspected st) = length (piles st) →
  decide_decline seat c st pool =
    Ok (with_turn (active_seat st) (cursor st + 1) (<[(c + 1)%nat := length q]> (inspected st))
         (with_table (rest (main_stack st)) (<[c := p ++ top (main_stack st)]> (piles st)) st),
        pool, false).
Proof.
  intros c Hi Hq Hlt Hlen. unfold decide_decline. rewrite Hi. cbn [or_panic mbind outcome_bind].
  rewrite (decline_table c st p Hi). pose proof (lookup_lt_Some _ _ _ Hq) as Hc.
  cbn [with_table piles cursor inspected active_seat].
  rewrite length_insert. destruct (Nat.ltb_spec (c + 1) (length (piles st))); [|lia].
  assert (u8_add (cursor st) 1 = cursor st + 1) as -> by (apply wadd_small; lia).
  replace (N.to_nat (cursor st + 1)) with (c + 1)%nat by lia.
  rewrite list_lookup_insert_ne, Hq by lia. cbn [or_panic mbind outcome_bind].
  unfold index_set. destruct (Nat.ltb_spec (c + 1) (length (inspected st))); [|lia]. done.
Qed.

Lemma decide_decline_blind seat st pool p s x y :
  let c := N.to_nat (cursor st) in
  piles st !! c = Some p → (c + 1 = length (piles st))%nat → main_stack st = s ++ [x; y] →
  decide_decline seat c st pool =
    Ok (with_forced (<[N.to_nat seat := Some x]> (forced_draws st))
         (with_table s (<[c := p ++ [y]]> (piles st)) st), pool ++ [x], true).
Proof.
  intros c Hi Hlast Hs. unfold decide_decline. rewrite Hi. cbn [or_panic mbind outcome_bind].
  replace (s ++ [x; y]) with ((s ++ [x]) ++ [y]) in Hs by by rewrite <-app_assoc.
  rewrite Hs, vec_pop_snoc. cbn [with_table piles main_stack forced_draws].
  rewrite length_insert. destruct (Nat.ltb_spec (c + 1) (length (piles st))); [lia|].
  by rewrite vec_pop_snoc.
Qed.

Lemma trim_history_length h : (length (trim_history h) ≤ SHARED_STACK_HISTORY_CAPACITY)%nat.
Proof.
  unfold trim_history. destruct (Nat.ltb_spec SHARED_STACK_HISTORY_CAPACITY (length h)); [|lia].
  rewrite length_drop. lia.
Qed.

(** The turn passes to the next seat, which looks at the first pile only. *)
Lemma end_turn_ok n st :
  0 < n < 256 → (0 < length (piles st) < 256)%nat → length (inspected st) = length (piles st) →
  active_seat st < n → refilled (game_of st) →
  (length (history st) ≤ SHARED_STACK_HISTORY_CAPACITY)%nat →
  ∃ seen, end_turn n st = Ok (with_turn ((active_seat st + 1) `mod` n) 0 seen st) ∧
    table_ok n (with_turn ((active_seat st + 1) `mod` n) 0 seen st).
Proof.
  intros Hn Hlen Hins Hact Href Hhist. unfold end_turn.
  destruct (N.eqb_spec n 0); [lia|].
  destruct (lookup_lt_is_Some_2 (piles st) 0) as [p Hp]; [lia|].
  rewrite Hp. cbn [or_panic mbind outcome_bind]. unfold index_set.
  rewrite length_fmap. destruct (Nat.ltb_spec 0 (length (inspected st))); [|lia].
  cbn [mbind outcome_bind].
  assert (u8_add (active_seat st) 1 = active_seat st + 1) as -> by (apply wadd_small; lia).
  eexists. split; [done|]. split; cbn; try done.
  - lia.
  - apply N.mod_lt. lia.
  - by rewrite length_insert, length_fmap.
  - intros i k q Hi Hq. apply list_lookup_insert_Some in Hi as [(<-&<-&_)|[Hne Hi]].
    + rewrite Hp in Hq. injection Hq as <-. lia.
    + apply list_lookup_fmap_Some in Hi as (?&->&_).
      split_and!; lia.
Qed.


(** Moving the cursor shows the next pile whole. *)
Lemma table_ok_advance n st fd m h p q main c' :
  let c := N.to_nat (cursor st) in
  table_ok n st → piles st !! c = Some p → piles st !! (c + 1)%nat = Some q →
  refilled (Game main (<[c := p ++ c']> (piles st)) 0 0) →
  table_ok n (with_record m (trim_history h)
    (with_turn (active_seat st) (cursor st + 1) (<[(c + 1)%nat := length q]> (inspected st))
      (with_table main (<[c := p ++ c']> (piles st)) (with_forced fd st)))).
Proof.
  intros c Hok Hp Hq Href. pose proof (lookup_lt_Some _ _ _ Hq) as Hc.
  destruct Hok as [Hlen Hcur Hact _ Hins Hseen _].
  split; cbn; rewrite ?length_insert; try done; [lia| |apply trim_history_length].
  intros i k r Hi Hr. apply list_lookup_insert_Some in Hi as [(<-&<-&_)|[Hne Hi]].
  - rewrite list_lookup_insert_ne, Hq in Hr by lia. injection Hr as <-. lia.
  - apply list_lookup_insert_Some in Hr as [(<-&<-&_)|[Hne' Hr]].
    + destruct (Hseen _ _ _ Hi Hp) as (?&_&_). rewrite length_app. lia.
    + destruct (Hseen _ _ _ Hi Hr) as (?&?&?). lia.
Qed.

(** What a decision writes down besides the cards. *)
Record noted (n seat pile : N) (d : SharedStackPileDecision.t) (pile_size : nat)
    (t : list DraftCardInstance) (st st' : SharedStackState) : Prop := {
  noted_decisions : decisions st' = u32_add (decisions st) 1;
  noted_history : history st' = trim_history (history st ++
    [{| rec_seat := seat; rec_pile := pile; rec_decision := d; rec_pile_size := pile_size |}]);
  noted_forced : forced_draws st' =
    <[N.to_nat seat := match d with Take => None | Decline => head t end]>
      (vec_resize (N.to_nat n) None (forced_draws st));
}.

Lemma apply_decision_rule n seat pile d st pool :
  0 < n < 256 → table_ok n st → refusal_for st seat pile d = None →
  ∃ st' t p, apply_decision n seat pile d st pool = Ok (st', pool ++ t) ∧
    rule n d (game_of st) t (game_of st') ∧ table_ok n st' ∧
    piles st !! N.to_nat pile = Some p ∧ noted n seat pile d (length p) t st st'.
Proof.
  intros Hn Hok Hr. apply (refusal_for_rule n) in Hr as (->&->&t&g'&Hr); [|done].
  pose proof (rule_refilled _ _ _ _ _ Hr (tok_refill n st Hok)) as Href.
  destruct (tok_piles n st Hok) as [Hp1 Hp2]. pose proof (tok_inspected n st Hok) as Hins.
  pose proof (tok_active n st Hok) as Hact.
  unfold apply_decision.
  inversion Hr as [g q Hp Hne|g p q i Hp Hi Hq Hne|g p s x y Hp Hl Hs]; subst; cbn in Hp;
    rewrite Hp; cbn [or_panic mbind outcome_bind].
  - set (st0 := with_forced _ st). rewrite (decide_take_eq _ st0 pool t Hp).
    cbn [mbind outcome_bind].
    set (st1 := with_table _ _ st0). set (st2 := with_record _ _ st1).
    destruct (end_turn_ok n st2) as (seen&->&Hok'); cbn; rewrite ?length_insert;
      [done..|apply trim_history_length|].
    eexists _, t, t. split; [done|]. split; [exact Hr|]. split; [exact Hok'|]. done.
  - assert (∃ q', piles st !! (N.to_nat (cursor st) + 1)%nat = Some q') as [q' Hq'].
    { apply lookup_lt_is_Some. apply lookup_lt_Some in Hq. cbn in Hq, Hi. lia. }
    set (st0 := with_forced _ st).
    pose proof (decide_decline_next (active_seat st) st0 pool p q') as Heq.
    cbn zeta in Heq. change (cursor st0) with (cursor st) in *.
    rewrite Heq by done. cbn [mbind outcome_bind].
    eexists _, [], p. rewrite app_nil_r. split; [done|]. split_and!; try done.
    + unfold game_of at 2. cbn. by rewrite N2Nat.inj_add.
    + exact (table_ok_advance n st _ _ _ p q' _ _ Hok Hp Hq' Href).
  - set (st0 := with_forced _ st).
    pose proof (decide_decline_blind (active_seat st) st0 pool p s x y) as Heq.
    cbn zeta in Heq. change (cursor st0) with (cursor st) in *. rewrite Heq by done. cbn [mbind outcome_bind].
    set (st1 := with_forced _ (with_table _ _ _)). set (st2 := with_record _ _ st1).
    destruct (end_turn_ok n st2) as (seen&->&Hok'); cbn; rewrite ?length_insert;
      [done..|apply trim_history_length|].
    eexists _, [x], p. split; [done|]. split; [exact Hr|]. split; [exact Hok'|]. split; [done|].
    split; cbn; [done..|]. by rewrite list_insert_insert_eq.
Qed.

(** ** The session *)
Record session_ok (s : DraftSession) (st : SharedStackState) : Prop := {
  sok_status : status s = DraftStatus.Drafting;
  sok_stack : shared_stack s = Some st;
  sok_seats : (0 < length (seats s) < 256)%nat;
  sok_pools : length (pools s) = length (seats s);
  sok_table : table_ok (seat_count s) st;
  sok_playable : g_playable (game_of st);
}.

Definition exhausted (st : SharedStackState) : bool :=
  bool_decide (main_stack st = []) && forallb (λ p, bool_decide (p = [])) (piles st).

Lemma exhausted_spec st : exhausted st = true ↔ g_cards (game_of st) = [].
Proof.
  unfold exhausted, g_cards. cbn. rewrite andb_true_iff, bool_decide_eq_true, forallb_forall.
  split.
  - intros [-> Hall]. cbn. apply concat_nil_Forall, List.Forall_forall. intros p Hp.
    by apply Hall, bool_decide_eq_true in Hp.
  - intros [-> Hc]%app_nil. split; [done|]. intros p Hp. apply bool_decide_eq_true.
    apply concat_nil_Forall in Hc. rewrite List.Forall_forall in Hc. by apply Hc.
Qed.

Lemma seat_count_small s : (0 < length (seats s) < 256)%nat →
  seat_count s = N.of_nat (length (seats s)) ∧ 0 < seat_count s < 256.
Proof. intros H. unfold seat_count. rewrite wrap_small by lia. lia. Qed.

(** The session after a legal decision. *)
Definition decided (s : DraftSession) (seat : N) (pool : list DraftCardInstance)
    (st : SharedStackState) : DraftSession :=
  let s := set_shared_stack (Some st) (set_pools (<[N.to_nat seat := pool]> (pools s)) s) in
  if exhausted st then set_status DraftStatus.Deckbuilding s else s.

Definition decided_deltas (seat pile : N) (d : SharedStackPileDecision.t) (st : SharedStackState)
    : list DraftDelta :=
  SharedStackDecisionApplied seat pile d ::
  (if exhausted st then [TransitionedTo DraftStatus.Deckbuilding] else []).

Lemma apply_shared_stack_decision_ok s st seat pile d :
  session_ok s st → refusal_for st seat pile d = None →
  ∃ st' t pool p, pools s !! N.to_nat seat = Some pool ∧
    apply_shared_stack_decision seat pile d s =
      (Ok (decided_deltas seat pile d st'), decided s seat (pool ++ t) st') ∧
    rule (seat_count s) d (game_of st) t (game_of st') ∧ table_ok (seat_count s) st' ∧
    piles st !! N.to_nat pile = Some p ∧ noted (seat_count s) seat pile d (length p) t st st'.
Proof.
  intros [Hst Hss Hlen Hpools Htab _] Hr.
  destruct (seat_count_small s Hlen) as [Hsc Hn].
  pose proof Hr as (Hseat&_&_)%(refusal_for_rule _ _ _ _ _ Htab).
  pose proof (tok_active _ _ Htab) as Hact. rewrite <-Hseat in Hact.
  destruct (lookup_lt_is_Some_2 (pools s) (N.to_nat seat)) as [pool Hpool]; [lia|].
  destruct (apply_decision_rule (seat_count s) seat pile d st pool Hn Htab Hr)
    as (st'&t&p&Heq&Hrule&Htab'&Hp&Hnote).
  exists st', t, pool, p. split; [done|]. split; [|done].
  unfold apply_shared_stack_decision, ensure. unfold_M.
  rewrite bool_decide_eq_true_2 by done. cbn.
  destruct (N.ltb_spec seat (seat_count s)); [|lia]. cbn. rewrite Hss. cbn. rewrite Hr, Hpool. cbn.
  rewrite Heq. cbn. unfold decided, decided_deltas.
  change (bool_decide _ && _) with (exhausted st'). by destruct (exhausted st').
Qed.

(** A refusal changes nothing and is an error, never a panic. *)
Lemma apply_shared_stack_decision_err s st seat pile d r :
  session_ok s st → refusal_for st seat pile d = Some r →
  ∃ e, apply_shared_stack_decision seat pile d s = (Err e, s) ∧
    e = if seat <? seat_count s then SharedStackDecisionRefused seat pile r
        else SeatOutOfRange seat (seat_count s).
Proof.
  intros [Hst Hss Hlen Hpools Htab _] Hr. unfold apply_shared_stack_decision, ensure. unfold_M.
  rewrite bool_decide_eq_true_2 by done. cbn.
  destruct (seat <? seat_count s); cbn; [|by eexists]. rewrite Hss. cbn. rewrite Hr. by eexists.
Qed.

Lemma pools_gain (ps : list (list DraftCardInstance)) i p t :
  ps !! i = Some p → concat (<[i := p ++ t]> ps) ≡ₚ t ++ concat ps.
Proof.
  intros Hi. apply (Permutation_app_inv_l p). rewrite (concat_set ps i p (p ++ t) Hi).
  solve_Permutation.
Qed.

(** What a whole decision does to the session. *)
Lemma decided_ok s st seat d t pool st' :
  session_ok s st → pools s !! N.to_nat seat = Some pool →
  rule (seat_count s) d (game_of st) t (game_of st') → table_ok (seat_count s) st' →
  let s' := decided s seat (pool ++ t) st' in
  all_cards s' ≡ₚ all_cards s ∧ seats s' = seats s ∧ length (pools s') = length (pools s) ∧
  shared_stack s' = Some st' ∧
  (session_ok s' st' ∨ status s' = DraftStatus.Deckbuilding ∧ shared_cards st' = []) ∧
  concat (pools s') ≡ₚ t ++ concat (pools s).
Proof.
  intros [Hst Hss Hlen Hpools Htab Hplay] Hpool Hrule Htab' s'.
  assert (seats s' = seats s ∧ shared_stack s' = Some st' ∧
      pools s' = <[N.to_nat seat := pool ++ t]> (pools s) ∧
      packs_by_seat s' = packs_by_seat s ∧ current_pack s' = current_pack s) as (Hs1&Hs2&Hs3&Hs4&Hs5)
    by (unfold s', decided; by destruct (exhausted st')).
  pose proof (rule_conserves _ _ _ _ _ Hrule) as Hc. unfold g_cards in Hc. cbn in Hc.
  split_and!; [|done|by rewrite Hs3, length_insert|done| |].
  - unfold all_cards, table_cards. rewrite Hs2, Hs3, Hs4, Hs5, Hss. unfold shared_cards.
    rewrite Hc, (pools_gain _ _ _ _ Hpool). solve_Permutation.
  - destruct (exhausted st') eqn:He.
    + right. split; [unfold s', decided; by rewrite He|]. by apply exhausted_spec in He.
    + left. split; try done.
      * unfold s', decided. by rewrite He.
      * by rewrite Hs1.
      * by rewrite Hs1, Hs3, length_insert.
      * unfold seat_count. by rewrite Hs1.
      * eapply rule_playable; [done|exact (tok_refill _ _ Htab)|].
        intros Hn. apply exhausted_spec in Hn. congruence.
  - rewrite Hs3. by apply pools_gain.
Qed.

(** A list of attempted decisions, refused ones included, and how many were accepted. *)
Definition attempt : Type := N * N * SharedStackPileDecision.t.
Fixpoint play (l : list attempt) (s : DraftSession) : outcome DraftError (nat * DraftSession) :=
  match l with
  | [] => Ok (0%nat, s)
  | (seat, pile, d) :: l =>
      match apply_shared_stack_decision seat pile d s with
      | (Ok _, s) => '(n, s) ← play l s; Ok (S n, s)
      | (Err _, s) => play l s
      | (Panic, _) => Panic
      end
  end.

(** A finished draft refuses every further decision. *)
Lemma finished_refuses s seat pile d :
  status s ≠ DraftStatus.Drafting →
  apply_shared_stack_decision seat pile d s =
    (Err (InvalidTransition (status s) "SharedStackDecision"), s).
Proof.
  intros Hs. unfold apply_shared_stack_decision. unfold_M. by rewrite bool_decide_eq_false_2.
Qed.

Lemma play_finished l s : status s ≠ DraftStatus.Drafting → play l s = Ok (0%nat, s).
Proof.
  intros Hs. induction l as [|[[seat pile] d] l IH]; [done|]. cbn.
  by rewrite finished_refuses.
Qed.

Lemma play_ok l : ∀ s st, session_ok s st →
  ∃ k s' st', play l s = Ok (k, s') ∧ shared_stack s' = Some st' ∧
    all_cards s' ≡ₚ all_cards s ∧ length (pools s') = length (pools s) ∧
    (k + g_measure (game_of st') ≤ g_measure (game_of st))%nat ∧
    (session_ok s' st' ∨ status s' = DraftStatus.Deckbuilding ∧ shared_cards st' = []).
Proof.
  induction l as [|[[seat pile] d] l IH]; intros s st Hok.
  { exists 0%nat, s, st. split_and!; try done; [apply Hok|by left]. }
  cbn. destruct (refusal_for st seat pile d) as [r|] eqn:Hr.
  - destruct (apply_shared_stack_decision_err s st seat pile d r Hok Hr) as (e&->&_). by apply IH.
  - destruct (apply_shared_stack_decision_ok s st seat pile d Hok Hr)
      as (st'&t&pool&p&Hpool&->&Hrule&Htab&_&_).
    destruct (decided_ok s st seat d t pool st' Hok Hpool Hrule Htab)
      as (Hall&_&Hlen&Hss&Hnext&_).
    pose proof (rule_measure _ _ _ _ _ Hrule) as Hm.
    destruct Hnext as [Hok'|[Hdone Hempty]].
    + destruct (IH _ _ Hok') as (k&s2&st2&->&Hss2&Hall2&Hlen2&Hm2&Hok2).
      exists (S k), s2, st2. split_and!; try done; [by rewrite Hall2|congruence|cbn in *; lia].
    + rewrite play_finished by (rewrite Hdone; done).
      exists 1%nat, (decided s seat (pool ++ t) st'), st'. split_and!; try done. by right.
Qed.

(** Some decision is always legal for the seat to act. *)
Lemma some_decision_legal n st :
  table_ok n st → g_playable (game_of st) → is_Some (forced_decision st (active_seat st)).
Proof.
  intros Hok (i&p&Hle&Hi&Hp). cbn in Hle, Hi. unfold forced_decision.
  destruct (find_first _ _) eqn:Hf; [done|]. exfalso.
  rewrite find_first_None in Hf.
  assert (refusal_for st (active_seat st) (cursor st) Take ≠ None ∧
          refusal_for st (active_seat st) (cursor st) Decline ≠ None) as [HT HD].
  { split; intros Hn; [specialize (Hf Take ltac:(set_solver))|specialize (Hf Decline ltac:(set_solver))];
      by rewrite Hn in Hf. }
  destruct (cursor_pile n st Hok) as [q Hq].
  unfold refusal_for in HT, HD. rewrite !N.eqb_refl in HT, HD. cbn [negb orb] in HT, HD.
  rewrite Hq in HT, HD. case_bool_decide as Hqe; [|done]. subst q.
  apply HD. destruct (existsb _ _) eqn:He; [done|]. exfalso.
  apply not_true_iff_false in He. apply He, existsb_exists. exists p.
  rewrite bool_decide_eq_false_2 by done. split; [|done].
  apply list_elem_of_In, list_elem_of_lookup.
  destruct (decide (i = N.to_nat (cursor st))) as [->|Hne]; [congruence|].
  exists (i - (N.to_nat (cursor st) + 1))%nat. rewrite lookup_drop.
  rewrite <-Hi. f_equal. lia.
Qed.

Lemma forced_legal st d : forced_decision st (active_seat st) = Some d →
  refusal_for st (active_seat st) (cursor st) d = None.
Proof. intros [_ H]%find_first_Some. by destruct (refusal_for _ _ _ _). Qed.

Lemma drive_ok fuel : ∀ s st, session_ok s st → (g_measure (game_of st) ≤ fuel)%nat →
  ∃ s' st', drive fuel s = Ok s' ∧ status s' = DraftStatus.Deckbuilding ∧
    shared_stack s' = Some st' ∧ shared_cards st' = [] ∧ all_cards s' ≡ₚ all_cards s.
Proof.
  induction fuel as [|fuel IH]; intros s st Hok Hm.
  { destruct (sok_playable _ _ Hok) as (i&p&Hi&Hp&Hne). exfalso.
    apply lookup_lt_Some in Hp. unfold g_measure in Hm. cbn in *. lia. }
  cbn [drive]. rewrite bool_decide_eq_true_2 by apply Hok.
  rewrite (sok_stack _ _ Hok). cbn [ok_or mbind outcome_bind].
  destruct (some_decision_legal _ st (sok_table _ _ Hok) (sok_playable _ _ Hok)) as [d Hd].
  rewrite Hd. apply forced_legal in Hd.
  destruct (apply_shared_stack_decision_ok s st _ _ d Hok Hd)
    as (st'&t&pool&p&Hpool&->&Hrule&Htab&_&_).
  destruct (decided_ok s st _ d t pool st' Hok Hpool Hrule Htab) as (Hall&_&_&Hss&Hnext&_).
  pose proof (rule_measure _ _ _ _ _ Hrule) as Hm'.
  destruct Hnext as [Hok'|[Hdone Hempty]].
  - destruct (IH _ _ Hok') as (s2&st2&->&?&?&?&Hall2); [lia|].
    exists s2, st2. split_and!; try done. by rewrite Hall2.
  - eexists _, st'. split_and!; [|exact Hdone|done|done|exact Hall].
    destruct fuel; [done|]. cbn. by rewrite bool_decide_eq_false_2 by (rewrite Hdone; done).
Qed.

(** ** Properties *)
Definition example_table : SharedStackState := {|
  main_stack := [example_card "d"; example_card "e"; example_card "f"];
  piles := [[example_card "a"]; [example_card "b"]; [example_card "c"]];
  starting_seat := 1; active_seat := 1; cursor := 0; inspected := [1%nat; 0%nat; 0%nat];
  decisions := 0; history := []; forced_draws := [None; None] |}.
Definition example_session : DraftSession :=
  set_status DraftStatus.Drafting
    (set_shared_stack (Some example_table) (example_lobby DraftKind.Winston 2 3)).

Lemma example_session_ok : session_ok example_session example_table.
Proof.
  split; try done; try (vm_compute; lia).
  - split; try done; try (cbn; lia).
    + intros _ i p Hi. by repeat (destruct i as [|i]; [injection Hi as <-|]).
    + intros i k p Hk Hp.
      repeat (destruct i as [|i]; [injection Hk as <-; injection Hp as <-; cbn; lia|]). done.
  - exists 0%nat, [example_card "a"]. split_and!; [cbn; lia|done|done].
Qed.

(** C14. The shared-stack reducer implements the published Winston rules, no more
    and no less: in a drafting session a decision is accepted exactly when it is
    the acting seat's, at the pile looked at, and a rule allows it; the table
    then moves as the rule says, the pool gains exactly the rule's cards at its
    end, and the decision counter, the bounded history and the forced-draw
    notice are written.  Anything else is an error that leaves the whole session
    unchanged; no decision panics. *)
Theorem decisions_follow_the_rules s st seat pile d :
  session_ok s st →
  match apply_shared_stack_decision seat pile d s with
  | (Ok ds, s') => seat = active_seat st ∧ pile = cursor st ∧
      ∃ t st' pool p, rule (seat_count s) d (game_of st) t (game_of st') ∧
        pools s !! N.to_nat seat = Some pool ∧ piles st !! N.to_nat pile = Some p ∧
        s' = decided s seat (pool ++ t) st' ∧ ds = decided_deltas seat pile d st' ∧
        noted (seat_count s) seat pile d (length p) t st st'
  | (Err _, s') => s' = s ∧
      ¬ (seat = active_seat st ∧ pile = cursor st ∧
         ∃ t g', rule (seat_count s) d (game_of st) t g')
  | (Panic, _) => False
  end.
Proof.
  intros Hok. pose proof (sok_table _ _ Hok) as Htab.
  pose proof (refusal_for_rule _ st seat pile d Htab) as Href.
  destruct (refusal_for st seat pile d) as [r|] eqn:Hr.
  - destruct (apply_shared_stack_decision_err s st seat pile d r Hok Hr) as (e&->&_).
    split; [done|]. intros H. by apply Href in H.
  - destruct (proj1 Href eq_refl) as (Hs&Hp&_).
    destruct (apply_shared_stack_decision_ok s st seat pile d Hok Hr)
      as (st'&t&pool&p&?&->&?&_&?&?).
    split_and!; try done. by exists t, st', pool, p.
Qed.

Lemma decisions_follow_the_rules_witness :
  session_ok example_session example_table ∧
  ∃ ds s', apply_shared_stack_decision 1 0 Take example_session = (Ok ds, s') ∧
    ∃ t st' pool p, rule (seat_count example_session) Take (game_of example_table) t (game_of st') ∧
      pools example_session !! 1%nat = Some pool ∧ piles example_table !! 0%nat = Some p ∧
      s' = decided example_session 1 (pool ++ t) st' ∧ ds = decided_deltas 1 0 Take st' ∧
      noted (seat_count example_session) 1 0 Take (length p) t example_table st'.
Proof.
  split; [exact example_session_ok|].
  pose proof (decisions_follow_the_rules example_session example_table 1 0 Take example_session_ok)
    as H.
  destruct (apply_shared_stack_decision 1 0 Take example_session) as [[ds|e|] s'] eqn:E.
  - exists ds, s'. split; [done|]. apply H.
  - vm_compute in E. discriminate.
  - vm_compute in E. discriminate.
Defined.

(** Whatever is attempted, by whom and in whatever order, a shared-stack
    draft never panics, never loses or invents a card, and at every point is
    either still playable under its invariant (every pile non-empty while the
    stack lasts, the acting seat shown exactly the pile at the cursor and nothing
    beyond it, the history within its bound) or in deckbuilding with an empty
    table; and at most [g_measure] decisions are ever accepted. *)
Theorem any_play_is_safe s st l :
  session_ok s st →
  ∃ k s' st', play l s = Ok (k, s') ∧ shared_stack s' = Some st' ∧
    all_cards s' ≡ₚ all_cards s ∧ length (pools s') = length (pools s) ∧
    (k + g_measure (game_of st') ≤ g_measure (game_of st))%nat ∧
    (session_ok s' st' ∨ status s' = DraftStatus.Deckbuilding ∧ shared_cards st' = []).
Proof. apply play_ok. Qed.

Definition example_play : list attempt :=
  [(0, 0, Take); (1, 0, Decline); (1, 0, Take); (1, 1, Take); (0, 0, Decline); (0, 1, Decline)].
Lemma any_play_is_safe_witness :
  session_ok example_session example_table ∧
  ∃ k s' st', play example_play example_session = Ok (k, s') ∧ shared_stack s' = Some st' ∧
    all_cards s' ≡ₚ all_cards example_session ∧
    length (pools s') = length (pools example_session) ∧
    (k + g_measure (game_of st') ≤ g_measure (game_of example_table))%nat ∧
    (session_ok s' st' ∨ status s' = DraftStatus.Deckbuilding ∧ shared_cards st' = []).
Proof.
  split; [exact example_session_ok|].
  exact (any_play_is_safe example_session example_table example_play example_session_ok).
Defined.

(** A shared-stack draft cannot deadlock: the forced decision of the acting
    seat is always legal, and driving the draft by forced decisions alone reaches
    deckbuilding within [g_measure] decisions, with the table empty and every
    card of the session in some pool. *)
Theorem forced_decisions_finish s st :
  session_ok s st →
  is_Some (forced_decision st (active_seat st)) ∧
  ∃ s' st', drive (g_measure (game_of st)) s = Ok s' ∧ status s' = DraftStatus.Deckbuilding ∧
    shared_stack s' = Some st' ∧ shared_cards st' = [] ∧ all_cards s' ≡ₚ all_cards s.
Proof.
  intros Hok. split; [|exact (drive_ok _ s st Hok (le_n _))].
  exact (some_decision_legal _ _ (sok_table _ _ Hok) (sok_playable _ _ Hok)).
Qed.

Lemma forced_decisions_finish_witness :
  session_ok example_session example_table ∧
  is_Some (forced_decision example_table (active_seat example_table)) ∧
  ∃ s' st', drive (g_measure (game_of example_table)) example_session = Ok s' ∧
    status s' = DraftStatus.Deckbuilding ∧ shared_stack s' = Some st' ∧ shared_cards st' = [] ∧
    all_cards s' ≡ₚ all_cards example_session.
Proof.
  split; [exact example_session_ok|].
  exact (forced_decisions_finish example_session example_table example_session_ok).
Defined.
