(* ===== verification/DraftPick.v ===== *)
(** * Pick-and-pass drafting ([crates/draft-core/src/pick_pass.rs])

    One pick step of a seat under the legacy barrier flow (ordinary and with a
    draft effect), what happens when the last seat of a round has picked (packs
    pass, the next packs open, the draft ends), and the seat administration of
    [session.rs] that may run between picks. *)
From S2P Require Import Prelude DraftTypes.
From stdpp Require Import sorting pretty.
Local Open Scope N_scope.

(** [pick_pass::required_pick_count] *)
Definition required_pick_count (s : DraftSession) (seat : N) : nat :=
  let pack_len := match head_pack s seat with Some p => length p | None => 0%nat end in
  Nat.min (N.to_nat (cards_per_pick (procedure (kind s)))) pack_len.

Definition has_id (id : string) (c : DraftCardInstance) : bool := bool_decide (instance_id c = id).

(** Every id resolved to its index in the pack, before anything is removed. *)
Fixpoint resolve_ids (seat : N) (pack : DraftPack) (ids : list string) (indices : list nat)
    : outcome DraftError (list nat) :=
  match ids with
  | [] => Ok indices
  | id :: ids =>
      index ← ok_or (position (has_id id) pack) (CardNotInPack id);
      if bool_decide (index ∈ indices) then Err (DuplicatePickCardId seat id)
      else resolve_ids seat pack ids (indices ++ [index])
  end.

(** [pack.0.remove(index)] *)
Definition remove_at (index : nat) (pack : DraftPack)
    : outcome DraftError (DraftCardInstance * DraftPack) :=
  card ← or_panic (pack !! index);
  Ok (card, vec_remove index pack).
Fixpoint remove_all (order : list (nat * nat)) (pack : DraftPack)
    : outcome DraftError (list (nat * DraftCardInstance) * DraftPack) :=
  match order with
  | [] => Ok ([], pack)
  | (slot, index) :: order =>
      '(card, pack) ← remove_at index pack;
      '(picked, pack) ← remove_all order pack;
      Ok ((slot, card) :: picked, pack)
  end.
(** The keys of both sorts are distinct, so that they have one result. *)
Definition by_index_desc (x y : nat * nat) : Prop := (y.2 ≤ x.2)%nat.
Definition by_slot {A} (x y : nat * A) : Prop := (x.1 ≤ y.1)%nat.
#[export] Instance by_index_desc_dec x y : Decision (by_index_desc x y).
Proof. unfold by_index_desc. apply _. Defined.
#[export] Instance by_slot_dec {A} (x y : nat * A) : Decision (by_slot x y).
Proof. unfold by_slot. apply _. Defined.
Definition take_cards (indices : list nat) (pack : DraftPack)
    : outcome DraftError (list DraftCardInstance * DraftPack) :=
  let removal_order := merge_sort by_index_desc (imap pair indices) in
  '(picked, pack) ← remove_all removal_order pack;
  Ok (snd <$> merge_sort by_slot picked, pack).

(** The loop of the effect step: each id found and removed in turn. *)
Fixpoint take_in_turn (ids : list string) (pack : DraftPack)
    : outcome DraftError (list DraftCardInstance * DraftPack) :=
  match ids with
  | [] => Ok ([], pack)
  | id :: ids =>
      index ← or_panic (position (has_id id) pack);
      '(card, pack) ← remove_at index pack;
      '(picked, pack) ← take_in_turn ids pack;
      Ok (card :: picked, pack)
  end.

Definition reshape_flags (s : DraftSession) : DraftSession :=
  let pod_size := seat_count s in
  set_connected_seats (SeatFlags.ensure_len pod_size true (connected_seats s))
    (set_seats_picked_this_round
       (SeatFlags.ensure_len pod_size false (seats_picked_this_round s)) s).

(** ** The end of a pick *)
Definition nonempty (p : option DraftPack) : bool :=
  match p with Some (_ :: _) => true | _ => false end.
(** [(0..pod_size).all(f)], short-circuiting. *)
Fixpoint all_seats (f : nat → outcome DraftError bool) (l : list nat) : outcome DraftError bool :=
  match l with
  | [] => Ok true
  | i :: l => b ← f i; if (b : bool) then all_seats f l else Ok false
  end.
Definition round_complete (s : DraftSession) : outcome DraftError bool :=
  all_seats (λ i,
    slot ← or_panic (current_pack s !! i);
    Ok (negb (nonempty slot) || SeatFlags.get (seats_picked_this_round s) (N.of_nat i)))
    (seq 0 (N.to_nat (seat_count s))).

(** Unopened packs, packs in front of the seats, and whose they were. *)
Definition tables : Type := list (list DraftPack) * list (option DraftPack) * list (option N).
Definition vec_set {A} (i : nat) (v : A) (l : list A) : outcome DraftError (list A) :=
  if (i <? length l)%nat then Ok (<[i := v]> l) else Panic.
Fixpoint open_packs (l : list nat) (t : tables) : outcome DraftError tables :=
  match l with
  | [] => Ok t
  | i :: l =>
      let '(packs, current, origins) := t in
      row ← or_panic (packs !! i);
      match row with
      | [] => open_packs l t
      | p :: row =>
          current ← vec_set i (Some p) current;
          origins ← vec_set i (Some (wrap 8 (N.of_nat i))) origins;
          open_packs l (<[i := row]> packs, current, origins)
      end
  end.

Fixpoint pass_packs (d : PassDirection.t) (pod_size : N) (l : list nat)
    (current : list (option DraftPack)) (origins : list (option N))
    (new_packs : list (option DraftPack)) (new_origins : list (option N))
    : outcome DraftError (list (option DraftPack) * list (option N)) :=
  match l with
  | [] => Ok (new_packs, new_origins)
  | i :: l =>
      dest ← PassDirection.next_seat d (N.of_nat i) pod_size;
      p ← or_panic (current !! i);
      new_packs ← vec_set (N.to_nat dest) p new_packs;
      new_origins ← vec_set (N.to_nat dest) (mjoin (origins !! i)) new_origins;
      pass_packs d pod_size l (<[i := None]> current) (<[i := None]> origins) new_packs new_origins
  end.

(** The round is over: the packs pass, or the next packs open, or the draft ends. *)
Definition next_pack_round : stM DraftSession DraftError (list DraftDelta) :=
  modify (λ s, set_current_pack_number (u8_add (current_pack_number s) 1) s);;
  s ← get;
  if pack_count (config s) <=? current_pack_number s then
    modify (set_status DraftStatus.Deckbuilding);;
    mret [TransitionedTo DraftStatus.Deckbuilding]
  else
    let pod_size := N.to_nat (seat_count s) in
    let origins := vec_resize pod_size None (current_pack_origins s) in
    '(packs, current, origins) ←
      lift (open_packs (seq 0 pod_size) (packs_by_seat s, current_pack s, (λ _, None) <$> origins));
    modify (λ s, set_pass_direction (PassDirection.for_pack (current_pack_number s)) s);;
    modify (set_pick_number 0);;
    modify (set_packs_by_seat packs);;
    modify (set_current_pack current);;
    modify (set_current_pack_origins origins);;
    mret [PackExhausted (current_pack_number s)].

Definition pass_round : stM DraftSession DraftError (list DraftDelta) :=
  modify (λ s, set_pick_number (u8_add (pick_number s) 1) s);;
  s ← get;
  let pod_size := N.to_nat (seat_count s) in
  '(current, origins) ← lift (pass_packs (pass_direction s) (seat_count s) (seq 0 pod_size)
     (current_pack s) (current_pack_origins s) (replicate pod_size None) (replicate pod_size None));
  modify (set_current_pack current);;
  modify (set_current_pack_origins origins);;
  mret [PackPassed].

Definition end_round : stM DraftSession DraftError (list DraftDelta) :=
  modify (λ s, set_seats_picked_this_round (SeatFlags.clear (seats_picked_this_round s)) s);;
  s ← get;
  if forallb (λ p, negb (nonempty p)) (current_pack s) then next_pack_round else pass_round.

(** [pick_pass::finish_pick] under the legacy flow. *)
Definition finish_pick (seat : N) (card_instance_ids : list string)
    : stM DraftSession DraftError (list DraftDelta) :=
  modify (λ s, set_current_pack_origins
    (vec_resize (N.to_nat (seat_count s)) None (current_pack_origins s)) s);;
  modify (λ s, set_seats_picked_this_round
    (SeatFlags.set seat true (seats_picked_this_round s)) s);;
  s ← get;
  let deltas := CardPicked seat <$> card_instance_ids in
  complete ← lift (round_complete s);
  if (complete : bool) then
    more ← end_round;
    mret (deltas ++ more)
  else mret deltas.

(** ** The two pick steps *)
(** The admission both share. *)
Definition admit_pick (seat : N) (action : string) : stM DraftSession DraftError () :=
  s ← get;
  ensure (bool_decide (status s = DraftStatus.Drafting)) (InvalidTransition (status s) action);;
  ensure (seat <? seat_count s) (SeatOutOfRange seat (seat_count s));;
  modify reshape_flags;;
  s ← get;
  ensure (negb (SeatFlags.get (seats_picked_this_round s) seat)) (SeatAlreadyPickedThisRound seat).

Definition set_seat_cards (seat : N) (pack : DraftPack) (pool : list DraftCardInstance)
    (s : DraftSession) : DraftSession :=
  set_pools (<[N.to_nat seat := pool]> (pools s))
    (set_current_pack (<[N.to_nat seat := Some pack]> (current_pack s)) s).

(** [pick_pass::apply_pick_inner] *)
Definition apply_pick_inner (seat : N) (card_instance_ids : list string)
    : stM DraftSession DraftError (list DraftDelta) :=
  admit_pick seat "Pick";;
  s ← get;
  slot ← lift (or_panic (current_pack s !! N.to_nat seat));
  ensure (nonempty slot) (NoPendingPack seat);;
  let expected := required_pick_count s seat in
  ensure (length card_instance_ids =? expected)%nat
    (WrongPickCardCount seat expected (length card_instance_ids));;
  pack ← lift (or_panic slot);
  indices ← lift (resolve_ids seat pack card_instance_ids []);
  '(picked, pack) ← lift (take_cards indices pack);
  pool ← lift (or_panic (pools s !! N.to_nat seat));
  modify (set_seat_cards seat pack (pool ++ picked));;
  finish_pick seat card_instance_ids.

(** [pick_pass::apply_pick] *)
Definition apply_pick (seat : N) (card_instance_ids : list string)
    : stM DraftSession DraftError (list DraftDelta) :=
  s ← get;
  lift (validate_legacy_admission s);;
  apply_pick_inner seat card_instance_ids.

Definition is_effect_card (id : string) (c : DraftCardInstance) : bool :=
  has_id id c && bool_decide (draft_effect c = Some DraftEffect.AdditionalPick).

(** [pick_pass::apply_pick_with_effect_inner]; its caller has checked that two
    cards are named. *)
Definition apply_pick_with_effect_inner (seat : N) (effect_card_instance_id : string)
    (card_instance_ids : list string) : stM DraftSession DraftError (list DraftDelta) :=
  admit_pick seat "PickWithDraftEffect";;
  s ← get;
  id0 ← lift (or_panic (card_instance_ids !! 0%nat));
  id1 ← lift (or_panic (card_instance_ids !! 1%nat));
  ensure (negb (bool_decide (id0 = id1))) (InvalidDraftEffectSelection 2 1);;
  pool ← lift (or_panic (pools s !! N.to_nat seat));
  effect_index ← lift (ok_or (position (is_effect_card effect_card_instance_id) pool)
    (DraftEffectCardNotInPool effect_card_instance_id));
  slot ← lift (or_panic (current_pack s !! N.to_nat seat));
  pack ← lift (ok_or slot (NoPendingPack seat));
  let missing_card := find_first (λ id, negb (existsb (has_id id) pack)) card_instance_ids in
  match missing_card with
  | Some id => throw (CardNotInPack id)
  | None =>
      '(picked_cards, pack) ← lift (take_in_turn card_instance_ids pack);
      '(effect_card, pool) ← lift (remove_at effect_index pool);
      modify (set_seat_cards seat (pack ++ [effect_card]) (pool ++ picked_cards));;
      finish_pick seat card_instance_ids
  end.

(** [pick_pass::apply_pick_with_draft_effect] *)
Definition apply_pick_with_draft_effect (seat : N) (effect_card_instance_id : string)
    (card_instance_ids : list string) : stM DraftSession DraftError (list DraftDelta) :=
  s ← get;
  lift (validate_legacy_admission s);;
  ensure (length card_instance_ids =? 2)%nat
    (InvalidDraftEffectSelection 2 (length card_instance_ids));;
  apply_pick_with_effect_inner seat effect_card_instance_id card_instance_ids.

(** ** Seats *)
(** [session::apply_replace_seat_with_bot] *)
Definition apply_replace_seat_with_bot (seat : N) (bot : option string)
    : stM DraftSession DraftError (list DraftDelta) :=
  s ← get;
  ensure (seat <? seat_count s) (SeatOutOfRange seat (seat_count s));;
  let bot := default ("Seat " +:+ pretty (u8_add seat 1)) bot in
  modify (set_seats (<[N.to_nat seat := Bot bot]> (seats s)));;
  mret [SeatReplacedWithBot seat].

(** [session::apply_set_seat_connected] *)
Definition apply_set_seat_connected (seat : N) (connected : bool)
    : stM DraftSession DraftError (list DraftDelta) :=
  s ← get;
  ensure (seat <? seat_count s) (SeatOutOfRange seat (seat_count s));;
  occupant ← lift (or_panic (seats s !! N.to_nat seat));
  ensure (match occupant with Bot _ => false | Human _ _ => true end) (SeatIsBot seat);;
  modify (set_connected_seats (SeatFlags.set seat connected
    (SeatFlags.ensure_len (seat_count s) true (connected_seats s))));;
  mret [SeatConnectionChanged seat connected].

(** ** Taking cards out of a pack *)
#[export] Instance DraftCardInstance_inhabited : Inhabited DraftCardInstance :=
  populate (example_card "").

Lemma remove_at_ok i pack : (i < length pack)%nat →
  remove_at i pack = Ok (pack !!! i, vec_remove i pack).
Proof.
  intros Hi. unfold remove_at. by rewrite (list_lookup_lookup_total_lt pack i Hi).
Qed.

Lemma vec_remove_sublist {A} i (l : list A) : vec_remove i l `sublist_of` l.
Proof.
  unfold vec_remove. rewrite <-(take_drop i l) at 3.
  apply sublist_app; [done|].
  replace (S i) with (i + 1)%nat by lia. rewrite <-drop_drop. apply sublist_drop.
Qed.

(** Indices taken from the back: no removal moves a card another one names. *)
Lemma remove_all_ok order : ∀ pack,
  StronglySorted (λ x y : nat * nat, (y.2 < x.2)%nat) order →
  Forall (λ x, (x.2 < length pack)%nat) order →
  ∃ pack', remove_all order pack = Ok ((λ x, (x.1, pack !!! x.2)) <$> order, pack') ∧
    ((λ x, pack !!! x.2) <$> order) ++ pack' ≡ₚ pack ∧ pack' `sublist_of` pack.
Proof.
  induction order as [|[slot i] order IH]; intros pack Hs Hlt.
  { exists pack. done. }
  inversion Hs as [|? ? Hs' Hall]; subst. inversion Hlt as [|? ? Hi _]; subst. cbn in Hi.
  rewrite Forall_forall in Hall. cbn in Hall.
  assert (∀ x, x ∈ order → vec_remove i pack !!! x.2 = pack !!! x.2) as Hsame.
  { intros x Hx. specialize (Hall x Hx). cbn in Hall. rewrite !list_lookup_total_alt.
    rewrite lookup_vec_remove. by destruct (decide (x.2 < i)%nat); [|lia]. }
  destruct (IH (vec_remove i pack)) as (pack'&Heq&Hperm&Hsub); [done| |].
  { apply Forall_forall. intros x Hx. specialize (Hall x Hx). cbn in Hall.
    rewrite length_vec_remove by done. lia. }
  exists pack'. cbn [remove_all]. rewrite remove_at_ok by done. cbn [mbind outcome_bind].
  rewrite Heq. cbn [mbind outcome_bind].
  assert (((λ x : nat * nat, (x.1, vec_remove i pack !!! x.2)) <$> order) =
          ((λ x : nat * nat, (x.1, pack !!! x.2)) <$> order)) as ->.
  { apply list_fmap_ext. intros k x Hx%list_elem_of_lookup_2. by rewrite Hsame. }
  assert (((λ x : nat * nat, vec_remove i pack !!! x.2) <$> order) =
          ((λ x : nat * nat, pack !!! x.2) <$> order)) as Heq2.
  { apply list_fmap_ext. intros k x Hx%list_elem_of_lookup_2. by rewrite Hsame. }
  rewrite Heq2 in Hperm. split; [done|]. split.
  - cbn. rewrite Hperm. symmetry. apply vec_remove_perm. by apply list_lookup_lookup_total_lt.
  - etrans; [exact Hsub|]. apply vec_remove_sublist.
Qed.

#[export] Instance by_index_desc_trans : Transitive by_index_desc.
Proof. unfold by_index_desc. intros ? ??. lia. Qed.
#[export] Instance by_index_desc_total : Total by_index_desc.
Proof. unfold by_index_desc. intros ? ?. lia. Qed.
#[export] Instance by_slot_trans {A} : Transitive (@by_slot A).
Proof. unfold by_slot. intros ? ??. lia. Qed.
#[export] Instance by_slot_total {A} : Total (@by_slot A).
Proof. unfold by_slot. intros ? ?. lia. Qed.

Lemma slots_snd {A} (l : list A) : snd <$> imap pair l = l.
Proof. rewrite fmap_imap. apply list_eq. intros i. rewrite list_lookup_imap. by destruct (l !! i). Qed.

Lemma slots_fmap {A B} (f : A → B) (l : list A) :
  (λ x : nat * A, (x.1, f x.2)) <$> imap pair l = imap pair (f <$> l).
Proof.
  apply list_eq. intros i. rewrite list_lookup_fmap, !list_lookup_imap, list_lookup_fmap.
  by destruct (l !! i).
Qed.

Lemma elem_of_slots {A} (l : list A) i x : (i, x) ∈ imap pair l ↔ l !! i = Some x.
Proof.
  rewrite list_elem_of_lookup. split.
  - intros [k Hk]. rewrite list_lookup_imap in Hk. destruct (l !! k) eqn:E; [|done].
    cbn in Hk. congruence.
  - intros Hi. exists i. by rewrite list_lookup_imap, Hi.
Qed.

Lemma slots_sorted {A} (l : list A) : StronglySorted by_slot (imap pair l).
Proof.
  assert (∀ k, StronglySorted by_slot (imap (λ i x, ((i + k)%nat, x)) l)) as H.
  { induction l as [|x l IH]; intros k; [constructor|]. cbn. constructor.
    - specialize (IH (S k)). erewrite imap_ext; [exact IH|]. intros i ? _. cbn. f_equal. lia.
    - apply Forall_forall. intros y Hy%list_elem_of_lookup. destruct Hy as [j Hj].
      rewrite list_lookup_imap in Hj. destruct (l !! j); [|done]. cbn in Hj.
      injection Hj as <-. unfold by_slot. cbn. lia. }
  specialize (H 0%nat). erewrite imap_ext; [exact H|]. intros i ? _. cbn. f_equal. lia.
Qed.

Lemma desc_strict (l : list (nat * nat)) :
  StronglySorted by_index_desc l → NoDup (snd <$> l) →
  StronglySorted (λ x y : nat * nat, (y.2 < x.2)%nat) l.
Proof.
  induction 1 as [|x l Hs IH Hall]; [constructor|]. cbn. intros [Hx Hnd]%NoDup_cons.
  constructor; [by apply IH|]. rewrite Forall_forall in Hall |- *. intros y Hy.
  specialize (Hall y Hy). unfold by_index_desc in Hall.
  assert (y.2 ≠ x.2); [|lia]. intros He. apply Hx. rewrite <-He. by apply list_elem_of_fmap_2.
Qed.

(** The cards come out in the order they were named, whatever the order of removal. *)
Lemma take_cards_ok indices (pack : DraftPack) :
  NoDup indices → Forall (λ i, (i < length pack)%nat) indices →
  ∃ pack', take_cards indices pack = Ok ((λ i, pack !!! i) <$> indices, pack') ∧
    ((λ i, pack !!! i) <$> indices) ++ pack' ≡ₚ pack ∧ pack' `sublist_of` pack.
Proof.
  intros Hnd Hlt. unfold take_cards.
  pose proof (merge_sort_Permutation by_index_desc (imap pair indices)) as Hp.
  set (order := merge_sort by_index_desc (imap pair indices)) in *.
  pose proof (fmap_Permutation snd _ _ Hp) as Hp2. rewrite slots_snd in Hp2.
  destruct (remove_all_ok order pack) as (pack'&Heq&Hperm&Hsub).
  { apply desc_strict; [apply (StronglySorted_merge_sort _); apply _|by rewrite Hp2]. }
  { apply (Forall_fmap snd (λ i, (i < length pack)%nat)). by rewrite Hp2. }
  exists pack'. rewrite Heq. cbn [mbind outcome_bind]. split.
  - f_equal. f_equal.
    rewrite <-(slots_snd ((λ i, pack !!! i) <$> indices)). f_equal.
    assert ((λ x : nat * nat, (x.1, pack !!! x.2)) <$> order ≡ₚ
            imap pair ((λ i, pack !!! i) <$> indices)) as Hp3.
    { rewrite Hp. by rewrite (slots_fmap (λ i, pack !!! i)). }
    eapply StronglySorted_unique_strong; [|apply (StronglySorted_merge_sort _); apply _|apply slots_sorted|].
    + intros [i x] [j y] Hx Hy H1 H2. rewrite merge_sort_Permutation, Hp3 in Hx.
      apply elem_of_slots in Hx, Hy. unfold by_slot in *. cbn in *.
      assert (i = j) as -> by lia. congruence.
    + by rewrite merge_sort_Permutation.
  - split; [|done]. rewrite <-Hperm, <-Hp2. by rewrite <-list_fmap_compose.
Qed.

Lemma position_id id (pack : DraftPack) i :
  position (has_id id) pack = Some i → ∃ c, pack !! i = Some c ∧ instance_id c = id.
Proof. intros (c&Hc&Hid%bool_decide_eq_true&_)%position_Some. by exists c. Qed.
Lemma position_id_elem id (pack : DraftPack) :
  id ∈ instance_id <$> pack → ∃ i, position (has_id id) pack = Some i.
Proof.
  intros (c&->&Hc)%list_elem_of_fmap. destruct (position _ _) as [i|] eqn:Hi; [by exists i|].
  rewrite position_None in Hi. specialize (Hi c Hc). unfold has_id in Hi.
  by rewrite bool_decide_eq_true_2 in Hi.
Qed.

(** Resolution: an index per id, all different, each the first card of that id. *)
Lemma resolve_ids_ok seat pack ids : ∀ acc l,
  resolve_ids seat pack ids acc = Ok l → NoDup acc →
  NoDup l ∧ ∃ idx, l = acc ++ idx ∧
    Forall2 (λ id i, position (has_id id) pack = Some i) ids idx.
Proof.
  induction ids as [|id ids IH]; intros acc l H Hnd; cbn in H.
  { injection H as <-. split; [done|]. exists []. by rewrite app_nil_r. }
  destruct (position (has_id id) pack) as [i|] eqn:Hi; [|done]. cbn in H.
  case_bool_decide as Hin; [done|]. apply IH in H as (?&idx&->&Hf).
  - split; [done|]. exists (i :: idx). rewrite <-app_assoc. split; [done|]. by constructor.
  - apply NoDup_app. split_and!; [done| |apply NoDup_singleton].
    intros x Hx ->%list_elem_of_singleton. done.
Qed.

Lemma resolved_ids (pack : DraftPack) ids idx :
  Forall2 (λ id i, position (has_id id) pack = Some i) ids idx →
  Forall (λ i, (i < length pack)%nat) idx ∧ instance_id <$> ((λ i, pack !!! i) <$> idx) = ids.
Proof.
  induction 1 as [|id i ids idx Hp _ [IH1 IH2]]; [done|]. cbn. rewrite IH2.
  apply position_id in Hp as (c&Hc&Hid). split.
  - constructor; [by eapply lookup_lt_Some|done].
  - f_equal. rewrite <-Hid. f_equal.
    by apply list_lookup_total_correct.
Qed.

Lemma resolved_nodup (pack : DraftPack) ids idx :
  Forall2 (λ id i, position (has_id id) pack = Some i) ids idx → NoDup idx → NoDup ids.
Proof.
  induction 1 as [|id i ids idx Hp Hf IH]; [constructor|].
  intros [Hi Hnd]%NoDup_cons. apply NoDup_cons. split; [|by apply IH].
  intros [k Hk]%list_elem_of_lookup. destruct (Forall2_lookup_l _ _ _ _ _ Hf Hk) as (j&Hj&Hp').
  rewrite Hp in Hp'. injection Hp' as <-. apply Hi. by eapply list_elem_of_lookup_2.
Qed.

Lemma resolve_ids_complete seat pack ids : ∀ acc,
  NoDup ids → Forall (λ id, id ∈ instance_id <$> pack) ids →
  (∀ id i, id ∈ ids → position (has_id id) pack = Some i → i ∉ acc) →
  ∃ l, resolve_ids seat pack ids acc = Ok l.
Proof.
  induction ids as [|id ids IH]; intros acc Hnd Hall Hacc; cbn; [by eexists|].
  inversion Hnd as [|x0 l0 Hid Hnd']; subst. inversion Hall as [|x1 l1 Hin Hall']; subst.
  destruct (position_id_elem id pack Hin) as [i Hi]. rewrite Hi.
  cbn. rewrite bool_decide_eq_false_2 by (eapply Hacc; [by left|done]).
  apply IH; [done..|]. intros id' i' Hid' Hi'. rewrite elem_of_app, list_elem_of_singleton.
  intros [Hx| ->]; [by eapply Hacc; [right|..]|].
  apply position_id in Hi as (c&Hc&H1), Hi' as (c'&Hc'&H2). simplify_eq. done.
Qed.

Lemma resolve_ids_no_panic seat pack ids acc : resolve_ids seat pack ids acc ≠ Panic.
Proof.
  revert acc. induction ids as [|id ids IH]; intros acc; cbn; [done|].
  destruct (position _ _); cbn; [|done]. case_bool_decide; [done|apply IH].
Qed.

(** Taking in turn is taking the named cards as well. *)
Lemma take_in_turn_ok ids : ∀ pack,
  NoDup ids → Forall (λ id, id ∈ instance_id <$> pack) ids →
  ∃ picked pack', take_in_turn ids pack = Ok (picked, pack') ∧
    instance_id <$> picked = ids ∧ picked ++ pack' ≡ₚ pack ∧ pack' `sublist_of` pack.
Proof.
  induction ids as [|id ids IH]; intros pack Hnd Hall; cbn.
  { by exists [], pack. }
  inversion Hnd as [|x0 l0 Hid Hnd']; subst. inversion Hall as [|x1 l1 Hin Hall']; subst.
  destruct (position_id_elem id pack Hin) as [i Hi]. rewrite Hi.
  cbn. apply position_id in Hi as (c&Hc&Hi). pose proof (lookup_lt_Some _ _ _ Hc) as Hlt.
  rewrite remove_at_ok by done. cbn. rewrite (list_lookup_total_correct _ _ _ Hc).
  pose proof (vec_remove_perm i pack c Hc) as Hperm.
  destruct (IH (vec_remove i pack)) as (picked&pack'&->&Hids&Hp&Hsub); [done| |].
  { rewrite Forall_forall in Hall' |- *. intros id' Hid'. specialize (Hall' id' Hid').
    rewrite Hperm in Hall'. cbn in Hall'. apply elem_of_cons in Hall' as [->|]; [|done].
    by rewrite Hi in Hid'. }
  exists (c :: picked), pack'. cbn. split_and!; [done|by rewrite Hi, Hids| |].
  - by rewrite Hp.
  - etrans; [done|]. apply vec_remove_sublist.
Qed.

(** ** Moving the packs *)
Lemma all_seats_ok f g l :
  (∀ i, i ∈ l → f i = Ok (g i)) → all_seats f l = Ok (forallb g l).
Proof.
  induction l as [|i l IH]; intros H; [done|]. cbn. rewrite H by by left. cbn.
  destruct (g i); [|done]. apply IH. intros j Hj. apply H. by right.
Qed.

(** Opening: every seat with an unopened pack takes its first one. *)
Definition opened_row (row : list DraftPack) (old : option DraftPack) : option DraftPack :=
  match row with p :: _ => Some p | [] => old end.
Lemma insert_middle {A} (l1 l2 : list A) x y k :
  length l1 = k → <[k := y]> (l1 ++ x :: l2) = l1 ++ y :: l2.
Proof. intros <-. rewrite <-(Nat.add_0_r (length l1)) at 1. by rewrite insert_app_r. Qed.

Lemma open_packs_app B : ∀ A CA CB OA OB,
  length CA = length A → length OA = length A →
  length CB = length B → length OB = length B →
  ∃ origins, open_packs (seq (length A) (length B)) (A ++ B, CA ++ CB, OA ++ OB) =
    Ok (A ++ (tail <$> B), CA ++ zip_with opened_row B CB, origins) ∧
  length origins = length (A ++ B).
Proof.
  induction B as [|row B IH]; intros A CA CB OA OB HCA HOA HCB HOB.
  { destruct CB, OB; try done. exists OA. cbn. rewrite !app_nil_r. done. }
  destruct CB as [|c CB]; [done|]. destruct OB as [|o OB]; [done|].
  injection HCB as HCB. injection HOB as HOB. cbn [open_packs seq length].
  rewrite (list_lookup_middle A B row) by done. cbn [or_panic mbind outcome_bind].
  destruct row as [|p row].
  - destruct (IH (A ++ [[]]) (CA ++ [c]) CB (OA ++ [o]) OB) as (origins&Heq&Hlen);
      rewrite ?length_app; cbn; try lia; try done.
    rewrite !length_app, <-!app_assoc in *. cbn in *. rewrite Nat.add_1_r in Heq.
    exists origins. split; [exact Heq|]. lia.
  - unfold vec_set. rewrite !length_app. cbn [length].
    destruct (Nat.ltb_spec (length A) (length CA + S (length CB))); [|lia].
    destruct (Nat.ltb_spec (length A) (length OA + S (length OB))); [|lia].
    cbn [mbind outcome_bind].
    rewrite !insert_middle by done.
    destruct (IH (A ++ [row]) (CA ++ [Some p]) CB (OA ++ [Some (wrap 8 (N.of_nat (length A)))]) OB)
      as (origins&Heq&Hlen); rewrite ?length_app; cbn; try lia; try done.
    rewrite !length_app, <-!app_assoc in *. cbn in *. rewrite Nat.add_1_r in Heq.
    exists origins. split; [exact Heq|]. lia.
Qed.

(** Passing: to the left the last seat's pack comes to seat 0, to the right the
    first seat's pack goes to the last. *)
Definition dest (d : PassDirection.t) (n i : nat) : nat :=
  match d with
  | PassDirection.Left => if (i + 1 =? n)%nat then 0%nat else (i + 1)%nat
  | PassDirection.Right => if (i =? 0)%nat then (n - 1)%nat else (i - 1)%nat
  end.
Definition passed {A} (d : PassDirection.t) (l : list A) : list A :=
  match d with
  | PassDirection.Left => option_list (last l) ++ take (length l - 1) l
  | PassDirection.Right => drop 1 l ++ take 1 l
  end.

Lemma next_seat_dest {E} d n i : (i < n < 256)%nat →
  PassDirection.next_seat d (N.of_nat i) (N.of_nat n) = @Ok E _ (N.of_nat (dest d n i)).
Proof.
  intros Hi. unfold PassDirection.next_seat. destruct (N.eqb_spec (N.of_nat n) 0); [lia|].
  f_equal. destruct d; unfold dest.
  - rewrite wadd_small by (cbn; lia). destruct (Nat.eqb_spec (i + 1) n).
    + replace (N.of_nat i + 1) with (N.of_nat n) by lia. by rewrite N.Div0.mod_same.
    + rewrite N.mod_small; lia.
  - rewrite wadd_small, wsub_small by (cbn; lia). destruct (Nat.eqb_spec i 0) as [->|].
    + rewrite N.mod_small; lia.
    + replace (N.of_nat i + N.of_nat n - 1) with (N.of_nat (i - 1) + 1 * N.of_nat n) by lia.
      rewrite N.Div0.mod_add, N.mod_small; lia.
Qed.

Ltac split_eqb :=
  repeat match goal with
  | |- context [(?a =? ?b)%nat] => destruct (Nat.eqb_spec a b)
  end.
Lemma dest_lt d n i : (i < n)%nat → (dest d n i < n)%nat.
Proof. intros. unfold dest. destruct d; split_eqb; lia. Qed.
Lemma dest_inj d n i j : (i < n)%nat → (j < n)%nat → dest d n i = dest d n j → i = j.
Proof. intros ??. unfold dest. destruct d; split_eqb; lia. Qed.

Lemma passed_lookup {A} d (l : list A) i : (i < length l)%nat →
  passed d l !! dest d (length l) i = l !! i.
Proof.
  intros Hi. unfold passed, dest. destruct d.
  - destruct (vec_pop_last l) as [->|(l'&x&->)]; [cbn in Hi; lia|].
    rewrite last_snoc, length_app in *. cbn [option_list length app] in *.
    replace (length l' + 1 - 1)%nat with (length l') by lia. rewrite take_app_length.
    destruct (Nat.eqb_spec (i + 1) (length l' + 1)).
    + replace i with (length l') by lia. by rewrite list_lookup_middle.
    + rewrite Nat.add_1_r. cbn. by rewrite lookup_app_l by lia.
  - destruct l as [|x l]; [cbn in Hi; lia|]. cbn [drop take length] in *.
    destruct (Nat.eqb_spec i 0) as [->|].
    + replace (S (length l) - 1)%nat with (length l) by lia. by rewrite list_lookup_middle.
    + destruct i as [|i]; [lia|]. cbn. rewrite Nat.sub_0_r, drop_0. by rewrite lookup_app_l by lia.
Qed.

Lemma length_passed {A} d (l : list A) : length (passed d l) = length l.
Proof.
  unfold passed. destruct d.
  - destruct (vec_pop_last l) as [->|(l'&x&->)]; [done|].
    rewrite last_snoc, !length_app, length_take, length_app. cbn. lia.
  - rewrite length_app, length_drop, length_take. lia.
Qed.

Lemma passed_perm {A} d (l : list A) : passed d l ≡ₚ l.
Proof.
  unfold passed. destruct d.
  - destruct (vec_pop_last l) as [->|(l'&x&->)]; [done|].
    rewrite last_snoc, length_app. cbn [option_list length].
    replace (length l' + 1 - 1)%nat with (length l') by lia. rewrite take_app_length.
    solve_Permutation.
  - rewrite Permutation_app_comm. by rewrite take_drop.
Qed.

Lemma passed_unique {A} d (l l' : list A) :
  length l' = length l → (∀ i, (i < length l)%nat → l' !! dest d (length l) i = l !! i) →
  l' = passed d l.
Proof.
  intros Hlen H. apply list_eq_same_length with (length l); [apply length_passed|done|].
  intros j x y Hj Hx Hy.
  assert (∃ i, (i < length l)%nat ∧ dest d (length l) i = j) as (i&Hi&<-).
  { unfold dest. destruct d.
    - destruct j as [|j]; [exists (length l - 1)%nat|exists j]; split_eqb; lia.
    - destruct (decide (j = length l - 1)%nat); [exists 0%nat|exists (j + 1)%nat];
        split_eqb; lia. }
  rewrite H in Hx by done. rewrite passed_lookup in Hy by done. congruence.
Qed.

Lemma pass_packs_ok d n l : ∀ cur orig new norig,
  (n < 256)%nat → NoDup l → Forall (λ i, (i < n)%nat) l →
  length cur = n → length new = n → length norig = n →
  ∃ np no, pass_packs d (N.of_nat n) l cur orig new norig = Ok (np, no) ∧
    length np = n ∧ length no = n ∧
    (∀ i, i ∈ l → np !! dest d n i = cur !! i ∧ no !! dest d n i = Some (mjoin (orig !! i))) ∧
    (∀ j, (∀ i, i ∈ l → dest d n i ≠ j) → np !! j = new !! j ∧ no !! j = norig !! j).
Proof.
  induction l as [|i l IH]; intros cur orig new norig Hn Hnd Hlt Hcur Hnew Hno.
  { exists new, norig. split_and!; try done. by intros ? ?%elem_of_nil. }
  inversion Hnd as [|x0 l0 Hi Hnd']; subst x0 l0.
  inversion Hlt as [|x0 l0 Hilt Hlt']; subst x0 l0.
  cbn [pass_packs]. rewrite next_seat_dest by lia. cbn [mbind outcome_bind].
  destruct (lookup_lt_is_Some_2 cur i) as [p Hp]; [lia|]. rewrite Hp.
  cbn [or_panic mbind outcome_bind]. rewrite Nat2N.id. pose proof (dest_lt d n i Hilt) as Hd.
  unfold vec_set. rewrite Hnew, Hno. destruct (Nat.ltb_spec (dest d n i) n); [|lia].
  cbn [mbind outcome_bind].
  destruct (IH (<[i:=None]> cur) (<[i:=None]> orig) (<[dest d n i:=p]> new)
    (<[dest d n i:=mjoin (orig !! i)]> norig)) as (np&no&->&Hl1&Hl2&Hin&Hout);
    rewrite ?length_insert; try done.
  rewrite Forall_forall in Hlt'.
  assert (∀ j, j ∈ l → i ≠ j ∧ dest d n j ≠ dest d n i) as Hne.
  { intros j Hj. assert (i ≠ j) by by intros ->. split; [done|]. intros He.
    apply dest_inj in He; [done|by apply Hlt'|done]. }
  exists np, no. split_and!; try done.
  - intros j [->|Hj]%elem_of_cons.
    + destruct (Hout (dest d n i)) as [-> ->]; [by intros j Hj; apply Hne|].
      rewrite !list_lookup_insert_eq by lia. done.
    + destruct (Hne j Hj). destruct (Hin j Hj) as [-> ->].
      by rewrite !list_lookup_insert_ne by done.
  - intros j Hj. destruct (Hout j) as [-> ->].
    + intros k Hk. apply Hj. by right.
    + by rewrite !list_lookup_insert_ne by (apply Hj; by left).
Qed.

(** All the packs move one seat at once. *)
Lemma pass_packs_all d n cur orig new norig :
  (n < 256)%nat → length cur = n → length orig = n → length new = n → length norig = n →
  pass_packs d (N.of_nat n) (seq 0 n) cur orig new norig = Ok (passed d cur, passed d orig).
Proof.
  intros Hn Hcur Horig Hnew Hno.
  destruct (pass_packs_ok d n (seq 0 n) cur orig new norig) as (np&no&->&Hl1&Hl2&Hin&_);
    try done; [apply NoDup_seq|apply Forall_seq; lia|].
  do 2 f_equal; apply passed_unique; rewrite ?Hcur, ?Horig; try done; intros i Hi;
    destruct (Hin i) as [H1 H2]; rewrite ?elem_of_seq; try lia; try done.
  rewrite H2. destruct (lookup_lt_is_Some_2 orig i) as [o Ho]; [lia|]. by rewrite Ho.
Qed.
