(* ===== verification/DraftRounds.v ===== *)
(** * Rounds of a pick-and-pass draft

    What the end of a pick does to the pod, as the relation [round_end]; the
    invariant of a drafting pod ([pod_ok], [live]); and the two pick steps of
    [DraftPick] reduced to the cards they take and the round they end. *)
From S2P Require Import Prelude DraftTypes DraftPick.
Local Open Scope N_scope.

(** ** The end of a round, as a specification *)
Definition pod (s : DraftSession) : nat := length (seats s).
Definition owes (s : DraftSession) (i : nat) : Prop :=
  ∃ p, current_pack s !! i = Some (Some p) ∧ p ≠ [] ∧
    SeatFlags.get (seats_picked_this_round s) (N.of_nat i) = false.
Definition marked (seat : N) (s : DraftSession) : DraftSession :=
  set_seats_picked_this_round (SeatFlags.set seat true (seats_picked_this_round s))
    (set_current_pack_origins (vec_resize (pod s) None (current_pack_origins s)) s).
Definition cleared (s : DraftSession) : DraftSession :=
  set_seats_picked_this_round (SeatFlags.clear (seats_picked_this_round s)) s.
Definition advanced (s : DraftSession) : DraftSession :=
  set_current_pack_number (u8_add (current_pack_number (cleared s)) 1) (cleared s).

(** What follows a pick: the round goes on while somebody owes one; else the
    packs move on by one seat; else every seat opens its next pack, in the other
    direction; else the draft is over. *)
Inductive round_end (s : DraftSession) : list DraftDelta → DraftSession → Prop :=
| round_goes_on i : owes s i → (i < pod s)%nat → round_end s [] s
| round_passes p :
    (∀ i, ¬ owes s i) → Some p ∈ current_pack s → p ≠ [] →
    round_end s [PackPassed]
      (set_current_pack_origins (passed (pass_direction s) (current_pack_origins s))
        (set_current_pack (passed (pass_direction s) (current_pack s))
          (set_pick_number (u8_add (pick_number s) 1) (cleared s))))
| round_opens origins :
    (∀ p, Some p ∈ current_pack s → p = []) → length origins = pod s →
    current_pack_number (advanced s) < pack_count (config s) →
    round_end s [PackExhausted (current_pack_number (advanced s))]
      (set_current_pack_origins origins
        (set_current_pack (zip_with opened_row (packs_by_seat s) (current_pack s))
          (set_packs_by_seat (tail <$> packs_by_seat s)
            (set_pick_number 0
              (set_pass_direction (PassDirection.for_pack (current_pack_number (advanced s)))
                (advanced s))))))
| round_ends :
    (∀ p, Some p ∈ current_pack s → p = []) →
    pack_count (config s) ≤ current_pack_number (advanced s) →
    round_end s [TransitionedTo DraftStatus.Deckbuilding]
      (set_status DraftStatus.Deckbuilding (advanced s)).

Record pod_shape (s : DraftSession) : Prop := {
  shape_pod : (0 < pod s < 256)%nat;
  shape_pools : length (pools s) = pod s;
  shape_current : length (current_pack s) = pod s;
  shape_packs : length (packs_by_seat s) = pod s;
}.

Lemma seat_count_pod s : pod_shape s → seat_count s = N.of_nat (pod s).
Proof. intros [H _ _ _]. unfold seat_count. apply wrap_small. fold (pod s). cbn. lia. Qed.

Lemma nonempty_Some slot : nonempty slot = true ↔ ∃ p, slot = Some p ∧ p ≠ [].
Proof. destruct slot as [[|c p]|]; cbn; naive_solver. Qed.

Lemma round_complete_ok s : pod_shape s →
  ∃ b, round_complete s = Ok b ∧
    if b then ∀ i, ¬ owes s i else ∃ i, owes s i ∧ (i < pod s)%nat.
Proof.
  intros Hs. unfold round_complete. rewrite (seat_count_pod s Hs), Nat2N.id.
  set (g := λ i, negb (nonempty (mjoin (current_pack s !! i))) ||
                 SeatFlags.get (seats_picked_this_round s) (N.of_nat i)).
  rewrite (all_seats_ok _ g); cycle 1.
  { intros i [_ Hi]%elem_of_seq.
    destruct (lookup_lt_is_Some_2 (current_pack s) i) as [slot Hslot].
    { rewrite shape_current by done. lia. }
    unfold g. by rewrite Hslot. }
  eexists. split; [done|]. destruct (forallb g _) eqn:Hb.
  - intros i (p&Hp&Hne&Hflag). rewrite forallb_forall in Hb.
    pose proof (lookup_lt_Some _ _ _ Hp) as Hi. rewrite shape_current in Hi by done.
    specialize (Hb i). rewrite <-list_elem_of_In, elem_of_seq in Hb.
    assert (g i = true) as Hg by (apply Hb; lia). unfold g in Hg.
    rewrite Hp, Hflag in Hg. by destruct p.
  - apply not_true_iff_false in Hb. rewrite forallb_forall in Hb.
    destruct (decide (Forall (λ i, g i = true) (seq 0 (pod s)))) as [Hf|Hf].
    { exfalso. apply Hb. intros i Hi%list_elem_of_In. rewrite Forall_forall in Hf. by apply Hf. }
    apply not_Forall_Exists, Exists_exists in Hf as (i&[_ Hi]%elem_of_seq&Hg); [|apply _].
    exists i. split; [|lia]. cbn in Hg. apply not_true_iff_false in Hg. unfold g in Hg.
    apply orb_false_iff in Hg as [Hg1 Hg2]. apply negb_false_iff, nonempty_Some in Hg1 as (p&Hp&Hne).
    exists p. split_and!; try done. destruct (current_pack s !! i); [|done]. cbn in Hp. by subst.
Qed.

Lemma all_empty (cur : list (option DraftPack)) :
  if forallb (λ p, negb (nonempty p)) cur then ∀ p, Some p ∈ cur → p = []
  else ∃ p, Some p ∈ cur ∧ p ≠ [].
Proof.
  induction cur as [|slot cur IH]; cbn; [by intros p ?%elem_of_nil|].
  destruct (nonempty slot) eqn:Hn; cbn.
  - apply nonempty_Some in Hn as (p&->&Hp). exists p. split; [by left|done].
  - destruct (forallb _ cur).
    + intros p [<-|Hp]%elem_of_cons; [|by apply IH]. destruct p; done.
    + destruct IH as (p&?&?). exists p. split; [by right|done].
Qed.

Lemma marked_shape seat s : pod_shape s → pod_shape (marked seat s).
Proof. by intros [? ? ? ?]. Qed.

Lemma next_pack_round_ok s : pod_shape s → (∀ p, Some p ∈ current_pack s → p = []) →
  ∃ more s', next_pack_round (cleared s) = (Ok more, s') ∧ round_end s more s'.
Proof.
  intros Hs Hempty. unfold next_pack_round. unfold_M.
  change (set_current_pack_number _ _) with (advanced s).
  destruct (N.leb_spec (pack_count (config (advanced s))) (current_pack_number (advanced s))) as [Hc|Hc].
  { eexists _, _. split; [done|]. by apply round_ends. }
  change (seat_count (advanced s)) with (seat_count s). rewrite (seat_count_pod s Hs), Nat2N.id.
  set (origins := (λ _, None) <$> vec_resize _ _ _).
  assert (length origins = pod s) as Ho by (unfold origins; by rewrite length_fmap, length_vec_resize).
  destruct (open_packs_app (packs_by_seat s) [] [] (current_pack s) [] origins)
    as (origins'&Heq&Hlen); try done.
  { by rewrite shape_packs, shape_current. }
  { by rewrite shape_packs. }
  cbn in Heq. rewrite (shape_packs s Hs) in Heq.
  change (packs_by_seat (advanced s)) with (packs_by_seat s).
  change (current_pack (advanced s)) with (current_pack s). rewrite Heq.
  eexists _, _. split; [done|]. apply round_opens; [done| |done].
  by rewrite Hlen, app_nil_l, shape_packs.
Qed.

Lemma pass_round_ok s p : pod_shape s → length (current_pack_origins s) = pod s →
  (∀ i, ¬ owes s i) → Some p ∈ current_pack s → p ≠ [] →
  ∃ more s', pass_round (cleared s) = (Ok more, s') ∧ round_end s more s'.
Proof.
  intros Hs Ho Hno Hp Hne. unfold pass_round. unfold_M.
  change (seat_count _) with (seat_count s). rewrite (seat_count_pod s Hs), Nat2N.id.
  cbn [current_pack current_pack_origins pass_direction cleared set_pick_number
       set_seats_picked_this_round].
  rewrite pass_packs_all; cbn; rewrite ?length_replicate; try done;
    [|apply (shape_pod s Hs)|apply (shape_current s Hs)].
  eexists _, _. split; [done|]. by eapply round_passes.
Qed.

Lemma finish_pick_round_end seat ids s : pod_shape s →
  ∃ more s', finish_pick seat ids s = (Ok ((CardPicked seat <$> ids) ++ more), s') ∧
    round_end (marked seat s) more s'.
Proof.
  intros Hs. pose proof (marked_shape seat s Hs) as Hm. unfold finish_pick. unfold_M.
  rewrite (seat_count_pod s Hs), Nat2N.id.
  change (set_seats_picked_this_round _ _) with (marked seat s).
  destruct (round_complete_ok _ Hm) as (b&->&Hb). destruct b; cycle 1.
  { destruct Hb as (i&Hi&Hlt). exists [], (marked seat s). rewrite app_nil_r.
    split; [done|]. by eapply round_goes_on. }
  unfold end_round. unfold_M. fold (cleared (marked seat s)).
  change (current_pack (cleared (marked seat s))) with (current_pack (marked seat s)).
  pose proof (all_empty (current_pack (marked seat s))) as He.
  destruct (forallb _ (current_pack (marked seat s))).
  - destruct (next_pack_round_ok _ Hm He) as (more&s'&->&Hr). by eexists _, _.
  - destruct He as (p&Hp&Hne).
    destruct (pass_round_ok (marked seat s) p Hm) as (more&s'&->&Hr); try done.
    { cbn. by rewrite length_vec_resize. }
    by eexists _, _.
Qed.

(** ** The invariant of a drafting pod *)
Definition packs_left (s : DraftSession) : nat :=
  N.to_nat (pack_count (config s)) - 1 - N.to_nat (current_pack_number s).
Record pod_ok (s : DraftSession) : Prop := {
  pod_is_shaped : pod_shape s;
  pod_status : status s = DraftStatus.Drafting;
  pod_legacy : validate_legacy_admission s = Ok ();
  pod_number : current_pack_number s < pack_count (config s) < 256;
  pod_rows row : row ∈ packs_by_seat s → length row = packs_left s ∧ ∀ p, p ∈ row → p ≠ [];
  pod_unshared : shared_stack s = None;
}.
Definition live (s : DraftSession) : Prop := pod_ok s ∧ ∃ i, owes s i.
Definition finished (s : DraftSession) : Prop :=
  status s = DraftStatus.Deckbuilding ∧ table_cards s = [].

Lemma clear_get f i : SeatFlags.get (SeatFlags.clear f) i = false.
Proof. unfold SeatFlags.get, SeatFlags.clear, SeatFlags.t in *. rewrite list_lookup_fmap. by destruct (f !! _). Qed.

Lemma marked_ok seat s : pod_ok s → pod_ok (marked seat s).
Proof. intros [Hs ? Hleg ? Hrows ?]. by split; try done; apply marked_shape. Qed.

Lemma empty_current (cur : list (option DraftPack)) :
  (∀ p, Some p ∈ cur → p = []) → concat (default [] <$> cur) = [].
Proof.
  induction cur as [|slot cur IH]; intros H; [done|]. cbn. rewrite IH.
  - destruct slot as [p|]; [|done]. cbn. rewrite (H p) by by left. done.
  - intros p Hp. apply H. by right.
Qed.

Lemma opened_cards rows : ∀ cur : list (option DraftPack),
  length rows = length cur → (∀ p, Some p ∈ cur → p = []) →
  concat (mjoin (tail <$> rows)) ++ concat (default [] <$> zip_with opened_row rows cur) ≡ₚ
  concat (mjoin rows).
Proof.
  induction rows as [|row rows IH]; intros [|slot cur] Hlen He; try done. cbn.
  injection Hlen as Hlen. rewrite !concat_app, <-(IH cur); [|done|intros p Hp; apply He; by right].
  destruct row as [|p row]; cbn.
  - destruct slot as [q|]; cbn; [rewrite (He q) by by left|]; done.
  - solve_Permutation.
Qed.

(** Every end of a round keeps the cards, the pools and the invariant. *)
Lemma round_end_keeps s more s' : pod_ok s → round_end s more s' →
  table_cards s' ≡ₚ table_cards s ∧ pools s' = pools s ∧ seats s' = seats s ∧
  (live s' ∨ finished s').
Proof.
  intros [Hs Hst Hleg [Hnum Hcount] Hrows Hsh] Hr.
  assert (current_pack_number (advanced s) = current_pack_number s + 1) as Hadv
    by (apply wadd_small; cbn; lia).
  destruct Hr as [i Howes Hi|p Hno Hp Hne|origins He Hlen Hmore|He Hend].
  - split_and!; try done. left. split; [done|by exists i].
  - split_and!; try done.
    + unfold table_cards. cbn. by rewrite passed_perm.
    + left. split.
      * split; try done. destruct Hs. split; cbn; try done. by rewrite length_passed.
      * assert (Some p ∈ passed (pass_direction s) (current_pack s)) as [i Hi]%list_elem_of_lookup
          by by rewrite passed_perm.
        exists i, p. split_and!; try done. cbn. apply clear_get.
  - split_and!; try done.
    + unfold table_cards. cbn. rewrite (empty_current (current_pack s)) by done.
      rewrite !app_assoc, opened_cards, app_nil_r; try done.
      by rewrite (shape_packs s Hs), (shape_current s Hs).
    + left. change (config s) with (config (advanced s)) in Hmore. rewrite Hadv in *. cbn in Hmore.
      split.
      * split; try done.
        -- destruct Hs as [? ? Hc Hp]. split; cbn; try done.
           ++ rewrite length_zip_with, Hc, Hp. unfold pod. cbn. lia.
           ++ by rewrite length_fmap.
        -- cbn. change (u8_add _ 1) with (current_pack_number (advanced s)). rewrite Hadv. lia.
        -- cbn. intros row (row'&->&Hrow)%list_elem_of_fmap. destruct (Hrows row' Hrow) as [Hl Hn].
           unfold packs_left in *. cbn. change (u8_add _ 1) with (current_pack_number (advanced s)).
           rewrite Hadv. split.
           ++ destruct row'; cbn in *; lia.
           ++ intros q Hq. apply Hn. destruct row'; [done|by right].
      * destruct (lookup_lt_is_Some_2 (packs_by_seat s) 0) as [row Hrow].
        { rewrite (shape_packs s Hs). apply Hs. }
        destruct (lookup_lt_is_Some_2 (current_pack s) 0) as [slot Hslot].
        { rewrite (shape_current s Hs). apply Hs. }
        destruct (Hrows row) as [Hl Hn]; [by eapply list_elem_of_lookup_2|].
        unfold packs_left in Hl. destruct row as [|p row]; [cbn in Hl; lia|].
        exists 0%nat, p. split_and!; [|apply Hn; by left|apply clear_get].
        cbn. by rewrite lookup_zip_with, Hrow, Hslot.
  - split_and!; try done. right. split; [done|].
    change (config s) with (config (advanced s)) in Hend. rewrite Hadv in Hend. cbn in Hend.
    unfold table_cards. cbn. rewrite Hsh, empty_current, app_nil_r by done.
    assert (mjoin (packs_by_seat s) = []) as ->; [|done].
    apply join_nil_2, Forall_forall. intros row Hrow.
    destruct (Hrows row Hrow) as [Hl _]. unfold packs_left in Hl.
    apply length_zero_iff_nil. lia.
Qed.

(** ** The two pick steps, up to the end of the round *)
Lemma legacy_flow s : validate_legacy_admission s = Ok () → flow (config s) = DraftFlow.LegacyBarrier.
Proof.
  unfold validate_legacy_admission. case_bool_decide; [done|]. done.
Qed.

Lemma length_ensure_len n d (f : SeatFlags.t) :
  (N.to_nat n ≤ length (SeatFlags.ensure_len n d f))%nat.
Proof.
  unfold SeatFlags.ensure_len. destruct (Nat.ltb_spec (length f) (N.to_nat n)); [|lia].
  rewrite length_vec_resize. lia.
Qed.
Lemma ensure_len_get n (f : SeatFlags.t) i :
  SeatFlags.get (SeatFlags.ensure_len n false f) i = SeatFlags.get f i.
Proof.
  unfold SeatFlags.ensure_len. destruct (Nat.ltb_spec (length f) (N.to_nat n)); [|done].
  unfold SeatFlags.get, SeatFlags.t, vec_resize in *. rewrite take_ge by lia.
  destruct (decide (N.to_nat i < length f)%nat).
  - by rewrite lookup_app_l.
  - rewrite lookup_app_r by lia. rewrite (lookup_ge_None_2 f) by lia.
    destruct (replicate _ _ !! _) eqn:E; [|done]. by apply lookup_replicate in E as [-> _].
Qed.

Lemma reshape_ok s : pod_ok s → pod_ok (reshape_flags s).
Proof. intros [[] ? ? ? ? ?]. by split. Qed.
Lemma reshape_owes s i : owes (reshape_flags s) i ↔ owes s i.
Proof. unfold owes. cbn. by rewrite ensure_len_get. Qed.

(** An error leaves the session as it was, but for the reshaped flags. *)
Definition unchanged (s s' : DraftSession) : Prop := s' = s ∨ s' = reshape_flags s.

Lemma admit_pick_cases seat action s : pod_ok s →
  (∃ e s', admit_pick seat action s = (Err e, s') ∧ unchanged s s' ∧
    (seat < N.of_nat (pod s) → SeatFlags.get (seats_picked_this_round s) seat = true)) ∨
  (admit_pick seat action s = (Ok (), reshape_flags s) ∧ (N.to_nat seat < pod s)%nat ∧
   SeatFlags.get (seats_picked_this_round s) seat = false).
Proof.
  intros Hok. unfold admit_pick. unfold_M. rewrite bool_decide_eq_true_2 by apply Hok. cbn.
  rewrite (seat_count_pod s) by apply Hok.
  destruct (N.ltb_spec seat (N.of_nat (pod s))) as [Hlt|Hge]; cbn; cycle 1.
  { left. eexists _, _. split; [done|]. split; [by left|lia]. }
  rewrite ensure_len_get. destruct (SeatFlags.get _ seat) eqn:Hf; cbn.
  - left. eexists _, _. split; [done|]. split; [by right|done].
  - right. split_and!; [done|lia|done].
Qed.

(** What taking cards amounts to. *)
Record taken (s : DraftSession) (seat : N) (ids : list string)
    (pack pool picked pack' : list DraftCardInstance) : Prop := {
  taken_seat : (N.to_nat seat < pod s)%nat;
  taken_turn : SeatFlags.get (seats_picked_this_round s) seat = false;
  taken_pack : current_pack s !! N.to_nat seat = Some (Some pack);
  taken_pool : pools s !! N.to_nat seat = Some pool;
  taken_ids : instance_id <$> picked = ids;
  taken_perm : picked ++ pack' ≡ₚ pack;
  taken_order : pack' `sublist_of` pack;
}.

(** A pick the rules allow: the seat's turn, and the right number of different
    cards of its pack. *)
Definition legal_pick (s : DraftSession) (seat : N) (ids : list string) : Prop :=
  (N.to_nat seat < pod s)%nat ∧ SeatFlags.get (seats_picked_this_round s) seat = false ∧
  ∃ pack, current_pack s !! N.to_nat seat = Some (Some pack) ∧ pack ≠ [] ∧
    length ids = Nat.min (N.to_nat (cards_per_pick (procedure (kind s)))) (length pack) ∧
    NoDup ids ∧ Forall (λ id, id ∈ instance_id <$> pack) ids.

Lemma apply_pick_cases seat ids s : pod_ok s →
  (∃ e s', apply_pick seat ids s = (Err e, s') ∧ unchanged s s' ∧ ¬ legal_pick s seat ids) ∨
  ∃ pack pool picked pack', taken s seat ids pack pool picked pack' ∧
    legal_pick s seat ids ∧ pack ≠ [] ∧
    length ids = Nat.min (N.to_nat (cards_per_pick (procedure (kind s)))) (length pack) ∧
    apply_pick seat ids s =
      finish_pick seat ids (set_seat_cards seat pack' (pool ++ picked) (reshape_flags s)).
Proof.
  intros Hok. assert (apply_pick seat ids s = apply_pick_inner seat ids s) as ->.
  { unfold apply_pick, mbind, stM_bind, get, lift. by rewrite (pod_legacy s Hok). }
  unfold apply_pick_inner.
  destruct (admit_pick_cases seat "Pick" s Hok) as [(e&s'&He&Hu&Hf)|(He&Hlt&Hf)].
  { left. exists e, s'. rewrite (stM_bind_err _ _ _ _ _ He). split_and!; [done..|].
    intros (Hseat&Hn&_). rewrite Hf in Hn by lia. done. }
  rewrite (stM_bind_run _ _ _ _ _ He). clear He. unfold_M.
  cbn [current_pack reshape_flags set_connected_seats set_seats_picked_this_round pools].
  destruct (lookup_lt_is_Some_2 (current_pack s) (N.to_nat seat)) as [slot Hslot].
  { by rewrite (shape_current s) by apply Hok. }
  destruct (lookup_lt_is_Some_2 (pools s) (N.to_nat seat)) as [pool Hpool].
  { by rewrite (shape_pools s) by apply Hok. }
  rewrite Hslot, Hpool.
  destruct (nonempty slot) eqn:Hne; cycle 1.
  { left. eexists _, _. split_and!; [done|by right|]. intros (_&_&pack&Hp&Hne'&_).
    rewrite Hslot in Hp. injection Hp as ->. by destruct pack. }
  apply nonempty_Some in Hne as (pack&->&Hne).
  assert (required_pick_count (reshape_flags s) seat =
    Nat.min (N.to_nat (cards_per_pick (procedure (kind s)))) (length pack)) as Hreq.
  { unfold required_pick_count, head_pack. cbn. rewrite (legacy_flow s (pod_legacy s Hok)).
    rewrite Hslot. done. }
  change (set_connected_seats _ _) with (reshape_flags s).
  rewrite Hreq. destruct (Nat.eqb_spec (length ids)
    (Nat.min (N.to_nat (cards_per_pick (procedure (kind s)))) (length pack))) as [Hlen|]; cycle 1.
  { left. eexists _, _. split_and!; [done|by right|]. intros (_&_&pack'&Hp&_&Hlen&_).
    rewrite Hslot in Hp. injection Hp as <-. done. }
  destruct (resolve_ids seat pack ids []) as [idx|e|] eqn:Hres.
  - right. apply resolve_ids_ok in Hres as (Hnd&idx'&->&Hf2); [|constructor].
    pose proof (resolved_nodup pack ids idx' Hf2 Hnd) as Hnd'.
    apply resolved_ids in Hf2 as [Hall Hids].
    destruct (take_cards_ok idx' pack Hnd Hall) as (pack'&Htake&Hperm&Hsub).
    cbn [app]. rewrite Htake. eexists pack, pool, _, pack'. split; [done|].
    split; [|done]. split_and!; [done..|]. exists pack. split_and!; try done.
    apply Forall_forall. intros id Hid. rewrite <-Hids in Hid. rewrite <-Hperm.
    rewrite fmap_app, elem_of_app. by left.
  - left. eexists _, _. split_and!; [done|by right|]. intros (_&_&pack'&Hp&_&_&Hnd&Hall).
    rewrite Hslot in Hp. injection Hp as <-.
    destruct (resolve_ids_complete seat pack ids [] Hnd Hall) as [l Hl]; [|congruence].
    by intros ? ? _ _ ?%elem_of_nil.
  - exfalso. by apply resolve_ids_no_panic in Hres.
Qed.

Lemma find_missing (pack : DraftPack) ids :
  find_first (λ id, negb (existsb (has_id id) pack)) ids = None →
  Forall (λ id, id ∈ instance_id <$> pack) ids.
Proof.
  rewrite find_first_None. intros H. apply Forall_forall. intros id Hid.
  specialize (H id Hid). apply negb_false_iff, existsb_exists in H as (c&Hc&Hid').
  apply list_elem_of_fmap. exists c. unfold has_id in Hid'. apply bool_decide_eq_true in Hid'.
  split; [done|]. by apply list_elem_of_In.
Qed.

Lemma apply_effect_cases seat eid ids s : pod_ok s →
  (∃ e s', apply_pick_with_draft_effect seat eid ids s = (Err e, s') ∧ unchanged s s') ∨
  ∃ pack pool picked pack' i c, taken s seat ids pack pool picked pack' ∧ length ids = 2%nat ∧
    pool !! i = Some c ∧ instance_id c = eid ∧ draft_effect c = Some DraftEffect.AdditionalPick ∧
    apply_pick_with_draft_effect seat eid ids s =
      finish_pick seat ids
        (set_seat_cards seat (pack' ++ [c]) (vec_remove i pool ++ picked) (reshape_flags s)).
Proof.
  intros Hok. unfold apply_pick_with_draft_effect.
  rewrite (stM_bind_run get _ s s s eq_refl).
  assert (lift (validate_legacy_admission s) s = (Ok (), s)) as Hleg
    by (unfold lift; by rewrite (pod_legacy s Hok)).
  rewrite (stM_bind_run _ _ _ _ _ Hleg). clear Hleg.
  destruct (Nat.eqb_spec (length ids) 2) as [Hlen|]; cycle 1.
  { left. eexists _, s. split; [done|by left]. }
  rewrite (stM_bind_run (ensure true _) _ s () s eq_refl).
  destruct ids as [|id0 [|id1 [|? ids]]]; try done. unfold apply_pick_with_effect_inner.
  destruct (admit_pick_cases seat "PickWithDraftEffect" s Hok) as [(e&s'&He&Hu&_)|(He&Hlt&Hf)].
  { left. exists e, s'. by rewrite (stM_bind_err _ _ _ _ _ He). }
  rewrite (stM_bind_run _ _ _ _ _ He). clear He. unfold_M.
  change ([id0; id1] !! 0%nat) with (Some id0). change ([id0; id1] !! 1%nat) with (Some id1).
  change (pools (reshape_flags s)) with (pools s).
  change (current_pack (reshape_flags s)) with (current_pack s). cbv beta iota.
  case_bool_decide as Hne; cbn [negb]; cbv beta iota; [left; eexists _, _; split; [done|by right]|].
  destruct (lookup_lt_is_Some_2 (current_pack s) (N.to_nat seat)) as [slot Hslot].
  { by rewrite (shape_current s) by apply Hok. }
  destruct (lookup_lt_is_Some_2 (pools s) (N.to_nat seat)) as [pool Hpool].
  { by rewrite (shape_pools s) by apply Hok. }
  rewrite Hpool. destruct (position (is_effect_card eid) pool) as [i|] eqn:Hi; cycle 1.
  { left. eexists _, _. split; [done|by right]. }
  rewrite Hslot. destruct slot as [pack|]; cycle 1.
  { left. eexists _, _. split; [done|by right]. }
  apply position_Some in Hi as (c&Hc&Heff&_). unfold is_effect_card, has_id in Heff.
  apply andb_true_iff in Heff as [Hid Hde]. apply bool_decide_eq_true in Hid, Hde.
  destruct (find_first _ [id0; id1]) as [id|] eqn:Hmiss.
  { left. eexists _, _. split; [done|by right]. }
  right. apply find_missing in Hmiss.
  destruct (take_in_turn_ok [id0; id1] pack) as (picked&pack'&Htake&Hids&Hperm&Hsub); [|done|].
  { apply NoDup_cons. split; [by rewrite list_elem_of_singleton|]. apply NoDup_singleton. }
  exists pack, pool, picked, pack', i, c. split_and!; try done.
  rewrite Htake. pose proof (lookup_lt_Some _ _ _ Hc) as Hil.
  rewrite remove_at_ok by done. by rewrite (list_lookup_total_correct _ _ _ Hc).
Qed.

(** ** One accepted pick *)
Lemma set_seat_cards_ok s seat pack1 pool1 : pod_ok s →
  pod_ok (set_seat_cards seat pack1 pool1 (reshape_flags s)).
Proof.
  intros [[] ? ? ? ? ?]. split; try done. split; cbn; try done; by rewrite length_insert.
Qed.

Lemma set_seat_cards_table s seat pack pack1 pool1 :
  current_pack s !! N.to_nat seat = Some (Some pack) →
  pack ++ table_cards (set_seat_cards seat pack1 pool1 (reshape_flags s)) ≡ₚ pack1 ++ table_cards s.
Proof.
  intros Hp. unfold table_cards. cbn. rewrite list_fmap_insert.
  assert (((default [] <$> current_pack s) !! N.to_nat seat) = Some pack) as Hp'
    by (by rewrite list_lookup_fmap, Hp).
  pose proof (concat_set _ _ pack pack1 Hp') as Hc.
  set (rest := match shared_stack s with Some st => shared_cards st | None => [] end).
  transitivity (concat (mjoin (packs_by_seat s)) ++ (pack ++
    concat (<[N.to_nat seat := pack1]> (default [] <$> current_pack s))) ++ rest);
    [solve_Permutation|]. rewrite Hc. solve_Permutation.
Qed.

Lemma pick_accepted s seat ids pack pool picked pack' pack1 pool1 :
  pod_ok s → taken s seat ids pack pool picked pack' →
  pack1 ++ pool1 ≡ₚ pack ++ pool → (length pack1 < length pack)%nat →
  let s2 := set_seat_cards seat pack1 pool1 (reshape_flags s) in
  ∃ more s', finish_pick seat ids s2 = (Ok ((CardPicked seat <$> ids) ++ more), s') ∧
    round_end (marked seat s2) more s' ∧ all_cards s' ≡ₚ all_cards s ∧
    (length (table_cards s') < length (table_cards s))%nat ∧
    pools s' = <[N.to_nat seat := pool1]> (pools s) ∧ seats s' = seats s ∧
    (live s' ∨ finished s').
Proof.
  intros Hok [_ _ Hpack Hpool _ _ _] Hperm Hlt s2.
  pose proof (set_seat_cards_ok s seat pack1 pool1 Hok) as Hok2.
  pose proof (set_seat_cards_table s seat pack pack1 pool1 Hpack) as Htab. fold s2 in Hok2, Htab.
  destruct (finish_pick_round_end seat ids s2 (pod_is_shaped _ Hok2)) as (more&s'&Heq&Hr).
  destruct (round_end_keeps _ _ _ (marked_ok seat _ Hok2) Hr) as (Ht&Hpools&Hseats&Hend).
  change (table_cards (marked seat s2)) with (table_cards s2) in Ht.
  change (pools (marked seat s2)) with (<[N.to_nat seat := pool1]> (pools s)) in Hpools.
  pose proof (concat_set (pools s) _ pool pool1 Hpool) as Hc.
  exists more, s'. split_and!; try done.
  - unfold all_cards. rewrite Ht, Hpools. apply (Permutation_app_inv_l (pack ++ pool)).
    transitivity ((pack ++ table_cards s2) ++ (pool ++ concat (<[N.to_nat seat:=pool1]> (pools s))));
      [solve_Permutation|]. rewrite Htab, Hc, <-Hperm. solve_Permutation.
  - apply Permutation_length in Ht, Htab. rewrite !length_app in Htab. lia.
Qed.
