(* ===== verification/DraftPod.v ===== *)
(** * Whole pick-and-pass drafts

    The actions that may reach a drafting pod, played in any order, and the
    properties of [pick_pass.rs]: a pick takes exactly the named cards, cards are
    conserved, the draft never gets stuck and ends. *)
From S2P Require Import Prelude DraftTypes DraftPick DraftRounds.
From stdpp Require Import pretty.
Local Open Scope N_scope.

(** ** Whole drafts *)
Inductive pod_action :=
  | Pick (seat : N) (ids : list string)
  | PickWithDraftEffect (seat : N) (effect : string) (ids : list string)
  | ReplaceSeatWithBot (seat : N) (bot : option string)
  | SetSeatConnected (seat : N) (connected : bool).
(** The arms of [session::apply_existing] for these actions. *)
Definition apply_pod_action (a : pod_action) : stM DraftSession DraftError (list DraftDelta) :=
  match a with
  | Pick seat ids => apply_pick seat ids
  | PickWithDraftEffect seat effect ids => apply_pick_with_draft_effect seat effect ids
  | ReplaceSeatWithBot seat bot => apply_replace_seat_with_bot seat bot
  | SetSeatConnected seat connected => apply_set_seat_connected seat connected
  end.
(** [session::apply] *)
Definition apply (a : pod_action) : stM DraftSession DraftError (list DraftDelta) :=
  s ← get;
  ensure (negb (bool_decide (flow (config s) = DraftFlow.FifoAsync))) ExplicitTimeRequired;;
  lift (validate_legacy_admission s);;
  apply_pod_action a.
Definition is_pick (a : pod_action) : bool :=
  match a with Pick _ _ | PickWithDraftEffect _ _ _ => true | _ => false end.

Lemma live_unchanged s s' : live s → unchanged s s' →
  live s' ∧ all_cards s' = all_cards s ∧ table_cards s' = table_cards s.
Proof.
  intros [Hok [i Hi]] [->| ->]; [split; [|done]; split; [done|by exists i]|].
  split; [|done]. split; [by apply reshape_ok|]. exists i. by apply reshape_owes.
Qed.

Ltac step_facts tac :=
  split; [done|split; [done|split; [tac|split; [done|cbn [is_pick is_ok andb];
    repeat change (table_cards (set_seats _ ?s)) with (table_cards s);
    repeat change (table_cards (set_connected_seats _ ?s)) with (table_cards s); lia]]]].

(** The outcome of one action in a live pod. *)
Lemma live_step s a : live s →
  ∃ r s', apply_pod_action a s = (r, s') ∧ r ≠ Panic ∧ (live s' ∨ finished s') ∧
    all_cards s' ≡ₚ all_cards s ∧
    (length (table_cards s') + (if is_pick a && is_ok r then 1 else 0)
       ≤ length (table_cards s))%nat.
Proof.
  intros Hlive. pose proof Hlive as [Hok Howes]. destruct a as [seat ids|seat eid ids|seat bot|seat c].
  - cbn [apply_pod_action].
    destruct (apply_pick_cases seat ids s Hok) as [(e&s'&->&Hu&_)|H].
    { destruct (live_unchanged s s' Hlive Hu) as (Hl&Ha&Ht). eexists _, s'. rewrite Ha, Ht. step_facts ltac:(by left). }
    destruct H as (pack&pool&picked&pack'&Ht&_&Hne&Hlen&->).
    pose proof (taken_perm _ _ _ _ _ _ _ Ht) as Hperm.
    pose proof (f_equal length (taken_ids _ _ _ _ _ _ _ Ht)) as Hl. rewrite length_fmap in Hl.
    pose proof (Permutation_length Hperm) as Hlp. rewrite length_app in Hlp.
    assert (0 < cards_per_pick (procedure (kind s))) as Hk by by destruct (kind s).
    assert (length pack ≠ 0%nat) by by destruct pack.
    destruct (pick_accepted s seat ids pack pool picked pack' pack' (pool ++ picked) Hok Ht)
      as (more&s'&->&_&Hall&Htab&_&_&Hend); [rewrite <-Hperm; solve_Permutation|lia|].
    eexists _, s'. step_facts done.
  - cbn [apply_pod_action].
    destruct (apply_effect_cases seat eid ids s Hok) as [(e&s'&->&Hu)|H].
    { destruct (live_unchanged s s' Hlive Hu) as (Hl&Ha&Ht). eexists _, s'. rewrite Ha, Ht. step_facts ltac:(by left). }
    destruct H as (pack&pool&picked&pack'&i&c&Ht&Hlen&Hc&_&_&->).
    pose proof (taken_perm _ _ _ _ _ _ _ Ht) as Hperm.
    pose proof (f_equal length (taken_ids _ _ _ _ _ _ _ Ht)) as Hl. rewrite length_fmap in Hl.
    pose proof (Permutation_length Hperm) as Hlp. rewrite length_app in Hlp.
    destruct (pick_accepted s seat ids pack pool picked pack' (pack' ++ [c])
      (vec_remove i pool ++ picked) Hok Ht)
      as (more&s'&->&_&Hall&Htab&_&_&Hend).
    { rewrite <-Hperm. pose proof (vec_remove_perm i pool c Hc) as Hv. revert Hv.
      generalize (vec_remove i pool). intros q ->. solve_Permutation. }
    { rewrite length_app. cbn. lia. }
    eexists _, s'. step_facts done.
  - cbn [apply_pod_action]. unfold apply_replace_seat_with_bot. unfold_M.
    destruct (seat <? seat_count s); eexists _, _; step_facts ltac:(left); [|done].
    split; [|done]. destruct Hok as [[Hp ? ? ?] ? ? ? ? ?].
    split; try done. split; unfold pod in *; cbn; by rewrite ?length_insert.
  - cbn [apply_pod_action]. unfold apply_set_seat_connected. unfold_M.
    rewrite (seat_count_pod s) by apply Hok.
    destruct (N.ltb_spec seat (N.of_nat (pod s))); cycle 1.
    { eexists _, s. step_facts ltac:(by left). }
    destruct (lookup_lt_is_Some_2 (seats s) (N.to_nat seat)) as [o Ho]; [unfold pod in *; lia|].
    rewrite Ho. destruct o; eexists _, _; step_facts ltac:(left); [|done].
    split; [|done]. destruct Hok as [[] ? ? ? ? ?]. by split.
Qed.

(** In deckbuilding no pick is accepted any more. *)
Lemma finished_step s a : finished s →
  ∃ r s', apply_pod_action a s = (r, s') ∧ (is_ok r = true → is_pick a = false) ∧
    r ≠ Panic ∧ finished s' ∧ all_cards s' = all_cards s.
Proof.
  intros [Hst Htab]. destruct a as [seat ids|seat eid ids|seat bot|seat c]; cbn [apply_pod_action].
  - unfold apply_pick, apply_pick_inner, admit_pick. unfold_M.
    destruct (validate_legacy_admission s) eqn:E;
      rewrite ?Hst; cbn; eexists _, s; split_and!; try done.
    unfold validate_legacy_admission in E. by repeat case_match.
  - unfold apply_pick_with_draft_effect, apply_pick_with_effect_inner, admit_pick. unfold_M.
    destruct (validate_legacy_admission s) eqn:E;
      [destruct (Nat.eqb _ _)|..]; rewrite ?Hst; cbn; eexists _, s; split_and!; try done.
    unfold validate_legacy_admission in E. by repeat case_match.
  - unfold apply_replace_seat_with_bot. unfold_M.
    destruct (seat <? seat_count s); eexists _, _; (split; [done|]); by split_and!.
  - unfold apply_set_seat_connected. unfold_M.
    destruct (N.ltb_spec seat (seat_count s)) as [Hlt|]; cbn; [|by eexists _, _; split_and!].
    destruct (lookup_lt_is_Some_2 (seats s) (N.to_nat seat)) as [o ->].
    { unfold seat_count, wrap in Hlt.
      pose proof (N.Div0.mod_le (N.of_nat (length (seats s))) (2 ^ 8)). lia. }
    destruct o; eexists _, _; (split; [done|]); by split_and!.
Qed.

Lemma apply_legacy s a : validate_legacy_admission s = Ok () → apply a s = apply_pod_action a s.
Proof.
  intros Hleg. unfold apply, mbind, stM_bind, get, lift. rewrite Hleg, (legacy_flow s Hleg). done.
Qed.
Lemma apply_refused s a e : validate_legacy_admission s = Err e → ∃ e', apply a s = (Err e', s).
Proof.
  intros Hleg. unfold apply. unfold_M. rewrite Hleg. destruct (bool_decide _); cbn; by eexists.
Qed.
Lemma validate_no_panic s : validate_legacy_admission s ≠ Panic.
Proof. unfold validate_legacy_admission. by case_match. Qed.

(** A list of attempted actions, refused ones included, and how many picks were
    accepted. *)
Fixpoint play_pod (l : list pod_action) (s : DraftSession) : outcome DraftError (nat * DraftSession) :=
  match l with
  | [] => Ok (0%nat, s)
  | a :: l =>
      match apply a s with
      | (Panic, _) => Panic
      | (r, s) =>
          '(k, s) ← play_pod l s;
          Ok ((if is_pick a && is_ok r then S k else k), s)
      end
  end.

Lemma play_pod_finished l : ∀ s, finished s →
  ∃ s', play_pod l s = Ok (0%nat, s') ∧ finished s' ∧ all_cards s' = all_cards s.
Proof.
  induction l as [|a l IH]; intros s Hs; [by exists s|]. cbn [play_pod].
  destruct (validate_legacy_admission s) as [[]|e|] eqn:Hleg; [..|by apply validate_no_panic in Hleg];
    cycle 1.
  { destruct (apply_refused s a e Hleg) as [e' ->]. destruct (IH s Hs) as (s'&->&?&?).
    exists s'. cbn. by rewrite andb_false_r. }
  rewrite apply_legacy by done.
  destruct (finished_step s a Hs) as (r&s1&->&Hok&Hp&Hf&Hall).
  destruct (IH s1 Hf) as (s'&Heq&Hf'&Hall'). exists s'. rewrite Hall' in *.
  destruct r as [ds|e|]; [| |done]; rewrite Heq; cbn; (split; [|by rewrite Hall]).
  - by rewrite (Hok eq_refl).
  - by rewrite andb_false_r.
Qed.

Lemma play_pod_live l : ∀ s, live s →
  ∃ k s', play_pod l s = Ok (k, s') ∧ all_cards s' ≡ₚ all_cards s ∧
    (k + length (table_cards s') ≤ length (table_cards s))%nat ∧ (live s' ∨ finished s').
Proof.
  induction l as [|a l IH]; intros s Hs.
  { exists 0%nat, s. split_and!; try done. by left. }
  cbn [play_pod]. rewrite apply_legacy by apply Hs. destruct (live_step s a Hs) as (r&s1&->&Hp&Hnext&Hall&Hle).
  assert (∃ k s', play_pod l s1 = Ok (k, s') ∧ all_cards s' ≡ₚ all_cards s1 ∧
    (k + length (table_cards s') ≤ length (table_cards s1))%nat ∧ (live s' ∨ finished s'))
    as (k&s'&Heq&Hall'&Hle'&Hend).
  { destruct Hnext as [Hl|Hf]; [by apply IH|].
    destruct (play_pod_finished l s1 Hf) as (s'&->&Hf'&Ha). exists 0%nat, s'.
    pose proof (proj2 Hf') as Ht. rewrite Ht, Ha. split_and!; try done; [cbn; lia|by right]. }
  exists (if is_pick a && is_ok r then S k else k), s'.
  destruct r as [ds|e|]; [| |done]; rewrite Heq; cbn [mbind outcome_bind];
    (split; [done|]); (split; [by rewrite Hall'|]); (split; [|done]);
    destruct (is_pick a && _); lia.
Qed.

(** With distinct card identifiers somebody can always pick. *)
Lemma some_pick_legal s : live s → NoDup (instance_id <$> all_cards s) →
  ∃ seat ids, legal_pick s seat ids.
Proof.
  intros [Hok (i&pack&Hpack&Hne&Hflag)] Hnd.
  pose proof (lookup_lt_Some _ _ _ Hpack) as Hi. rewrite (shape_current s) in Hi by apply Hok.
  set (k := N.to_nat (cards_per_pick (procedure (kind s)))).
  exists (N.of_nat i), (instance_id <$> take k pack).
  unfold legal_pick. rewrite Nat2N.id. split; [done|]. split; [done|].
  exists pack. split_and!; try done.
  - by rewrite length_fmap, length_take.
  - assert (NoDup (instance_id <$> pack)) as Hp.
    { pose proof (set_seat_cards_table s (N.of_nat i) pack [] []) as Ht. rewrite Nat2N.id in Ht.
      unfold all_cards in Hnd. rewrite <-(Ht Hpack : _ ≡ₚ table_cards s) in Hnd.
      rewrite <-app_assoc, fmap_app in Hnd. by apply NoDup_app in Hnd as [Hnd _]. }
    rewrite <-(take_drop k pack), fmap_app in Hp. by apply NoDup_app in Hp as [Hp _].
  - apply Forall_forall. intros id (c&->&Hc)%list_elem_of_fmap.
    apply list_elem_of_fmap. exists c. split; [done|]. by apply elem_of_take in Hc as (?&?%list_elem_of_lookup_2&_).
Qed.

Lemma legal_pick_step s seat ids : live s → legal_pick s seat ids →
  ∃ ds s', apply_pick seat ids s = (Ok ds, s') ∧ (live s' ∨ finished s') ∧
    all_cards s' ≡ₚ all_cards s ∧ (length (table_cards s') < length (table_cards s))%nat.
Proof.
  intros Hlive Hlegal.
  destruct (live_step s (Pick seat ids) Hlive) as (r&s'&Heq&_&Hnext&Hall&Hle).
  cbn [apply_pod_action] in Heq. pose proof Hlive as [Hok _].
  destruct (apply_pick_cases seat ids s Hok) as [(e&s1&_&_&Hn)|H]; [done|].
  destruct H as (pack&pool&picked&pack'&_&_&_&_&Heq2).
  assert (∃ more s2, apply_pick seat ids s = (Ok more, s2)) as (more&s2&Heq3).
  { rewrite Heq2.
    destruct (finish_pick_round_end seat ids
      (set_seat_cards seat pack' (pool ++ picked) (reshape_flags s))) as (more&s2&->&_).
    - apply (set_seat_cards_ok _ _ _ _ Hok).
    - by eexists _, _. }
  rewrite Heq in Heq3. simplify_eq. exists more, s2. cbn in Hle. split_and!; try done. lia.
Qed.

Lemma picks_finish n : ∀ s, live s → NoDup (instance_id <$> all_cards s) →
  (length (table_cards s) ≤ n)%nat →
  ∃ l s', play_pod l s = Ok (length l, s') ∧ forallb is_pick l = true ∧ (length l ≤ n)%nat ∧
    finished s' ∧ all_cards s' ≡ₚ all_cards s.
Proof.
  induction n as [|n IH]; intros s Hlive Hnd Hn.
  { destruct (some_pick_legal s Hlive Hnd) as (seat&ids&Hp).
    destruct (legal_pick_step s seat ids Hlive Hp) as (?&?&_&_&_&?). lia. }
  destruct (some_pick_legal s Hlive Hnd) as (seat&ids&Hp).
  destruct (legal_pick_step s seat ids Hlive Hp) as (ds&s1&Heq&Hnext&Hall&Hlt).
  destruct Hnext as [Hl|Hf].
  - destruct (IH s1) as (l&s'&Hplay&Hpicks&Hlen&Hfin&Hall'); [done|by rewrite Hall|lia|].
    exists (Pick seat ids :: l), s'. cbn [play_pod]. rewrite apply_legacy by apply Hlive.
    cbn [apply_pod_action]. rewrite Heq, Hplay.
    split_and!; try done; [cbn; lia|by rewrite Hall'].
  - exists [Pick seat ids], s1. cbn [play_pod]. rewrite apply_legacy by apply Hlive.
    cbn [apply_pod_action]. rewrite Heq.
    split_and!; try done. cbn. lia.
Qed.

(** ** Properties *)
Definition example_effect : DraftCardInstance := {|
  instance_id := "z"; name := "z"; set_code := "TST"; collector_number := "2"; rarity := "rare";
  colors := []; cmc := 0; type_line := "Artifact";
  draft_effect := Some DraftEffect.AdditionalPick |}.
Definition example_pod : DraftSession :=
  set_pools [[example_effect]; []] (set_status DraftStatus.Drafting
    (set_packs_by_seat [[[example_card "e"; example_card "f"]]; [[example_card "g"; example_card "h"]]]
      (set_current_pack [Some [example_card "a"; example_card "b"];
                         Some [example_card "c"; example_card "d"]]
        (example_lobby DraftKind.Premier 2 2)))).

Lemma example_pod_ok : pod_ok example_pod.
Proof.
  split; try done; try (vm_compute; lia).
  - split; try done. vm_compute. lia.
  - intros row H. apply elem_of_cons in H as [-> | ->%list_elem_of_singleton];
      (split; [by vm_compute|]; intros p ->%list_elem_of_singleton; done).
Qed.
Lemma example_pod_live : live example_pod.
Proof.
  split; [exact example_pod_ok|]. exists 0%nat, [example_card "a"; example_card "b"]. by split_and!.
Qed.

(** One pick step under the legacy flow does exactly what the drafting rules
    say.  In a drafting pod a pick is accepted exactly when it is legal (the
    seat has not picked this round and names the required number of different
    cards of its pack); the named cards then go to the end of the seat's pool in
    the order they were named, the others stay in the pack in their order, and
    the round ends as [round_end] specifies.  A refused pick changes nothing but
    the length of the seat flags, and no pick panics. *)
Theorem pick_takes_exactly s seat ids :
  pod_ok s →
  match apply_pick seat ids s with
  | (Ok ds, s') => legal_pick s seat ids ∧
      ∃ pack pool picked pack' more, taken s seat ids pack pool picked pack' ∧
        ds = (CardPicked seat <$> ids) ++ more ∧
        round_end (marked seat (set_seat_cards seat pack' (pool ++ picked) (reshape_flags s)))
          more s'
  | (Err _, s') => ¬ legal_pick s seat ids ∧ unchanged s s'
  | (Panic, _) => False
  end.
Proof.
  intros Hok.
  destruct (apply_pick_cases seat ids s Hok) as [(e&s'&->&Hu&Hn)|H]; [done|].
  destruct H as (pack&pool&picked&pack'&Ht&Hlegal&_&_&->).
  destruct (finish_pick_round_end seat ids
    (set_seat_cards seat pack' (pool ++ picked) (reshape_flags s))) as (more&s2&->&Hr).
  { apply (set_seat_cards_ok _ _ _ _ Hok). }
  split; [done|]. by exists pack, pool, picked, pack', more.
Qed.

Lemma pick_takes_exactly_witness :
  pod_ok example_pod ∧
  match apply_pick 1 ["d"] example_pod with
  | (Ok ds, s') => legal_pick example_pod 1 ["d"] ∧
      ∃ pack pool picked pack' more, taken example_pod 1 ["d"] pack pool picked pack' ∧
        ds = (CardPicked 1 <$> ["d"]) ++ more ∧
        round_end (marked 1 (set_seat_cards 1 pack' (pool ++ picked) (reshape_flags example_pod)))
          more s'
  | (Err _, s') => ¬ legal_pick example_pod 1 ["d"] ∧ unchanged example_pod s'
  | (Panic, _) => False
  end.
Proof. split; [exact example_pod_ok|exact (pick_takes_exactly example_pod 1 ["d"] example_pod_ok)]. Defined.

(** A draft-effect pick trades the effect card for one card more: two
    different cards of the pack go to the end of the pool in the order named,
    and one face-up effect card with the named identifier leaves the pool for
    the end of the pack; then the round ends as for any pick.  A refused one
    changes nothing but the length of the seat flags, and none panics. *)
Theorem effect_pick_trades s seat eid ids :
  pod_ok s →
  match apply_pick_with_draft_effect seat eid ids s with
  | (Ok ds, s') => ∃ pack pool picked pack' i c more,
      taken s seat ids pack pool picked pack' ∧ length ids = 2%nat ∧
      pool !! i = Some c ∧ instance_id c = eid ∧
      draft_effect c = Some DraftEffect.AdditionalPick ∧
      ds = (CardPicked seat <$> ids) ++ more ∧
      round_end (marked seat (set_seat_cards seat (pack' ++ [c]) (vec_remove i pool ++ picked)
        (reshape_flags s))) more s'
  | (Err _, s') => unchanged s s'
  | (Panic, _) => False
  end.
Proof.
  intros Hok.
  destruct (apply_effect_cases seat eid ids s Hok) as [(e&s'&->&Hu)|H]; [done|].
  destruct H as (pack&pool&picked&pack'&i&c&Ht&Hlen&Hc&Hid&Hde&->).
  destruct (finish_pick_round_end seat ids
    (set_seat_cards seat (pack' ++ [c]) (vec_remove i pool ++ picked) (reshape_flags s)))
    as (more&s2&->&Hr).
  { apply (set_seat_cards_ok _ _ _ _ Hok). }
  by exists pack, pool, picked, pack', i, c, more.
Qed.

Lemma effect_pick_trades_witness :
  pod_ok example_pod ∧
  is_ok (apply_pick_with_draft_effect 0 "z" ["b"; "a"] example_pod).1 = true ∧
  match apply_pick_with_draft_effect 0 "z" ["b"; "a"] example_pod with
  | (Ok ds, s') => ∃ pack pool picked pack' i c more,
      taken example_pod 0 ["b"; "a"] pack pool picked pack' ∧ length ["b"; "a"] = 2%nat ∧
      pool !! i = Some c ∧ instance_id c = "z" ∧
      draft_effect c = Some DraftEffect.AdditionalPick ∧
      ds = (CardPicked 0 <$> ["b"; "a"]) ++ more ∧
      round_end (marked 0 (set_seat_cards 0 (pack' ++ [c]) (vec_remove i pool ++ picked)
        (reshape_flags example_pod))) more s'
  | (Err _, s') => unchanged example_pod s'
  | (Panic, _) => False
  end.
Proof.
  split; [exact example_pod_ok|]. split; [by vm_compute|].
  exact (effect_pick_trades example_pod 0 "z" ["b"; "a"] example_pod_ok).
Defined.

(** C13. Whatever the seats attempt and in whatever order (picks, effect picks,
    bots taking over, connections coming and going), a pick-and-pass draft never
    panics, never loses, copies or invents a card, and is always either live (its
    invariant holds and some seat still owes a pick) or in deckbuilding with no
    card left on the table; each accepted pick takes a card off the table, so
    that no more picks are ever accepted than there were cards. *)
Theorem pod_play_is_safe s l :
  live s →
  ∃ k s', play_pod l s = Ok (k, s') ∧ all_cards s' ≡ₚ all_cards s ∧
    (k + length (table_cards s') ≤ length (table_cards s))%nat ∧ (live s' ∨ finished s').
Proof. apply play_pod_live. Qed.

Definition example_actions : list pod_action :=
  [Pick 0 ["a"]; Pick 0 ["b"]; ReplaceSeatWithBot 1 None; Pick 1 ["c"]; Pick 1 ["b"]].
Lemma pod_play_is_safe_witness :
  live example_pod ∧
  ∃ k s', play_pod example_actions example_pod = Ok (k, s') ∧ all_cards s' ≡ₚ all_cards example_pod ∧
    (k + length (table_cards s') ≤ length (table_cards example_pod))%nat ∧ (live s' ∨ finished s').
Proof.
  split; [exact example_pod_live|exact (pod_play_is_safe example_pod example_actions example_pod_live)].
Defined.

(** A pick-and-pass draft whose cards have distinct identifiers can always be
    played to its end: from every live session some sequence of picks, all of
    them accepted and at most one per card on the table, reaches deckbuilding
    with every card in a pool. *)
Theorem draft_can_be_finished s :
  live s → NoDup (instance_id <$> all_cards s) →
  ∃ l s', play_pod l s = Ok (length l, s') ∧ forallb is_pick l = true ∧
    (length l ≤ length (table_cards s))%nat ∧ finished s' ∧
    concat (pools s') ≡ₚ all_cards s.
Proof.
  intros Hlive Hnd.
  destruct (picks_finish (length (table_cards s)) s Hlive Hnd) as (l&s'&?&?&?&Hfin&Hall); [lia|].
  exists l, s'. split_and!; try done. rewrite <-Hall. unfold all_cards. by rewrite (proj2 Hfin).
Qed.

Lemma draft_can_be_finished_witness :
  live example_pod ∧
  ∃ l s', play_pod l example_pod = Ok (length l, s') ∧ forallb is_pick l = true ∧
    (length l ≤ length (table_cards example_pod))%nat ∧ finished s' ∧
    concat (pools s') ≡ₚ all_cards example_pod.
Proof.
  split; [exact example_pod_live|].
  apply (draft_can_be_finished example_pod example_pod_live). by apply (bool_decide_unpack _).
Defined.
