(* ===== verification/DraftDeal.v ===== *)
(** * Dealing the cards ([apply_start_draft] of [crates/draft-core/src/session.rs])

    What [StartDraft] does with the boosters of every seat once they are
    generated, for the three ways a draft kind distributes them.  The order of
    the shuffled stack and the starting seat are the results of the random
    source's calls, and so parameters. *)
From S2P Require Import Prelude DraftTypes DraftAdmission DraftPick DraftRounds DraftPod Winston.
Local Open Scope N_scope.

(** [u8::try_from(pack.0.len()).unwrap_or(u8::MAX)] *)
Definition pack_len_u8 (p : DraftPack) : N := N.min (N.of_nat (length p)) 255.

Definition wrong_shape (sts : list DraftSeat) (per_seat : nat) (all_packs : list (list DraftPack))
    : bool :=
  negb (length all_packs =? length sts)%nat
  || existsb (λ packs, negb (length packs =? per_seat)%nat) all_packs.

(** The piles, each seeded with the top card of what is left of the stack. *)
Fixpoint seed_piles (n : nat) (main_stack : list DraftCardInstance)
    : outcome DraftError (list (list DraftCardInstance) * list DraftCardInstance) :=
  match n with
  | O => Ok ([], main_stack)
  | S n =>
      '(card, main_stack) ← or_panic (vec_pop main_stack);
      '(piles, main_stack) ← seed_piles n main_stack;
      Ok ([card] :: piles, main_stack)
  end.

(** The seat loop of the pick-and-pass arm. *)
Fixpoint deal_seats (seat : nat) (all_packs : list (list DraftPack)) (t : tables)
    : outcome DraftError tables :=
  match all_packs with
  | [] => Ok t
  | seat_packs :: all_packs =>
      let '(packs, current, origins) := t in
      first ← or_panic (seat_packs !! 0%nat);
      current ← vec_set seat (Some first) current;
      origins ← vec_set seat (Some (wrap 8 (N.of_nat seat))) origins;
      packs ← vec_set seat (vec_remove 0 seat_packs) packs;
      deal_seats (S seat) all_packs (packs, current, origins)
  end.

Section deal.
(** [main_stack.shuffle(&mut rng)] and [rng.random_range(0..seat_count)] *)
Variable shuffle : list DraftCardInstance → list DraftCardInstance.
Variable random_seat : N → N.

Definition deal_all_at_once (all_packs : list (list DraftPack))
    : stM DraftSession DraftError (list DraftDelta) :=
  s ← get;
  let packs_per_seat := N.to_nat (packs_per_player (procedure (kind s))) in
  ensure (negb (wrong_shape (seats s) packs_per_seat all_packs)) InvalidSealedConfiguration;;
  modify (set_pools ((λ packs, concat packs) <$> all_packs));;
  modify (λ s, set_current_pack ((λ _, None) <$> current_pack s) s);;
  modify (λ s, set_current_pack_origins ((λ _, None) <$> current_pack_origins s) s);;
  modify (λ s, set_packs_by_seat ((λ _, []) <$> packs_by_seat s) s);;
  modify (set_status DraftStatus.Deckbuilding);;
  mret [DraftStarted; TransitionedTo DraftStatus.Deckbuilding].

Definition deal_shared_stack (pile_count : N) (all_packs : list (list DraftPack))
    : stM DraftSession DraftError (list DraftDelta) :=
  s ← get;
  let packs_per_seat := N.to_nat (packs_per_player (procedure (kind s))) in
  ensure (negb (wrong_shape (seats s) packs_per_seat all_packs)) InvalidSharedStackConfiguration;;
  let main_stack := concat ((λ packs, concat packs) <$> all_packs) in
  piles_needed ← lift (piles_needed pile_count);
  ensure (piles_needed <=? length main_stack)%nat
    (InsufficientCards (length main_stack) piles_needed);;
  let main_stack := shuffle main_stack in
  let starting_seat := random_seat (seat_count s) in
  '(piles, main_stack) ← lift (seed_piles piles_needed main_stack);
  first ← lift (or_panic (piles !! 0%nat));
  inspected ← lift (index_set 0 (length first) (replicate piles_needed 0%nat));
  modify (set_shared_stack (Some {|
    main_stack := main_stack; piles := piles; starting_seat := starting_seat;
    active_seat := starting_seat; cursor := 0; inspected := inspected; decisions := 0;
    history := []; forced_draws := replicate (N.to_nat (seat_count s)) None |}));;
  modify (set_status DraftStatus.Drafting);;
  mret [DraftStarted].

Definition deal_pick_and_pass (all_packs : list (list DraftPack))
    : stM DraftSession DraftError (list DraftDelta) :=
  s ← get;
  let origins := vec_resize (N.to_nat (seat_count s)) None (current_pack_origins s) in
  '(packs, current, origins) ←
    lift (deal_seats 0 all_packs (packs_by_seat s, current_pack s, origins));
  modify (set_packs_by_seat packs);;
  modify (set_current_pack current);;
  modify (set_current_pack_origins origins);;
  modify (set_status DraftStatus.Drafting);;
  modify (set_pass_direction (PassDirection.for_pack 0));;
  modify (set_current_pack_number 0);;
  modify (set_pick_number 0);;
  modify (λ s, set_seats_picked_this_round (SeatFlags.all_false (seat_count s)) s);;
  mret [DraftStarted].

(** [apply_start_draft] from the generated packs on. *)
Definition deal_start_packs (all_packs : list (list DraftPack))
    : stM DraftSession DraftError (list DraftDelta) :=
  modify (set_pack_sizes (match all_packs with p :: _ => pack_len_u8 <$> p | [] => [] end));;
  s ← get;
  match distribution (procedure (kind s)) with
  | PackDistribution.AllAtOnce => deal_all_at_once all_packs
  | PackDistribution.SharedStackPiles pile_count => deal_shared_stack pile_count all_packs
  | PackDistribution.PickAndPass => deal_pick_and_pass all_packs
  end.

(** [session::apply_start_draft]; [generated] is what the given pack source
    generates, if one is given. *)
Definition apply_start_draft (generated : option (outcome DraftError (list (list DraftPack))))
    : stM DraftSession DraftError (list DraftDelta) :=
  s ← get;
  ensure (bool_decide (status s = DraftStatus.Lobby)) (InvalidTransition (status s) "StartDraft");;
  let c := config s in
  let p := procedure (kind s) in
  lift (validate_layout (source c) (seat_count s) (pack_count c));;
  lift (validate_source p (source c));;
  lift (admit_pod_size (kind s) (source c) (config_format c) (seat_count s)
          AdmissionContext.Configuration);;
  ensure (bool_decide (distribution p = distribution (procedure (config_kind c))))
    InvalidSealedConfiguration;;
  match distribution p with
  | PackDistribution.AllAtOnce =>
      lift (admit_all_at_once (kind s) c (Some (session_set_code s)) AdmissionContext.Configuration)
  | PackDistribution.SharedStackPiles pile_count =>
      lift (piles_needed pile_count);;
      ensure ((pack_count c =? packs_per_player p)
              && (min_deck_size c =? proc_min_deck_size p)%nat) InvalidSharedStackConfiguration
  | PackDistribution.PickAndPass => mret ()
  end;;
  pack_source ← lift (or_panic generated);
  all_packs ← lift pack_source;
  deal_start_packs all_packs.
End deal.

(** ** Lemmas *)
Lemma wrong_shape_false sts k all_packs :
  length all_packs = length sts → (∀ row, row ∈ all_packs → length row = k) →
  wrong_shape sts k all_packs = false.
Proof.
  intros Hlen Hrows. unfold wrong_shape. rewrite Hlen, Nat.eqb_refl. cbn [negb orb].
  apply not_true_iff_false. intros (row&Hin&Hne)%existsb_exists.
  apply list_elem_of_In, Hrows in Hin. by rewrite Hin, Nat.eqb_refl in Hne.
Qed.

Lemma seed_piles_ok n : ∀ main, (n ≤ length main)%nat →
  ∃ ps rest, seed_piles n main = Ok (ps, rest) ∧ length ps = n ∧
    (∀ p, p ∈ ps → length p = 1%nat) ∧ rest ++ concat ps ≡ₚ main ∧
    length rest = (length main - n)%nat ∧ rest `prefix_of` main ∧
    ∀ i, (i < n)%nat → ps !! i = (λ c, [c]) <$> (main !! (length main - 1 - i)%nat).
Proof.
  induction n as [|n IH]; intros main Hn; cbn [seed_piles].
  { exists [], main. rewrite app_nil_r. split_and!; try done; [by intros ? ?%elem_of_nil|lia|lia]. }
  destruct (vec_pop_cases main) as [(->&_)|(c&->&_&Hc)]; [cbn in Hn; lia|].
  cbn [or_panic mbind outcome_bind].
  revert Hc. generalize (Winston.rest main). intros m ->. rewrite length_app in *. cbn in Hn |- *.
  destruct (IH m) as (ps&r&->&Hps&H1&Hperm&Hlen&Hpre&Hlook); [lia|].
  exists ([c] :: ps), r. cbn [mbind outcome_bind]. split_and!; try done.
  - cbn. by rewrite Hps.
  - intros p [->|Hp]%elem_of_cons; [done|by apply H1].
  - rewrite <-Hperm. cbn. solve_Permutation.
  - lia.
  - etrans; [done|]. by eexists.
  - intros i Hi. destruct i as [|i]; cbn.
    + by rewrite list_lookup_middle by lia.
    + rewrite Hlook, lookup_app_l by lia. do 2 f_equal. lia.
Qed.

Lemma deal_seats_app B : ∀ (PA PB : list (list DraftPack)) CA CB OA OB,
  length CA = length PA → length OA = length PA →
  length PB = length B → length CB = length B → length OB = length B →
  (∀ row, row ∈ B → row ≠ []) →
  ∃ origins, deal_seats (length PA) B (PA ++ PB, CA ++ CB, OA ++ OB) =
    Ok (PA ++ (tail <$> B), CA ++ (head <$> B), origins).
Proof.
  induction B as [|row B IH]; intros PA PB CA CB OA OB HC HO HPB HCB HOB Hne.
  { destruct PB, CB, OB; try done. exists OA. cbn. by rewrite !app_nil_r. }
  destruct PB as [|q PB], CB as [|c CB], OB as [|o OB]; try done.
  injection HPB as HPB. injection HCB as HCB. injection HOB as HOB.
  destruct row as [|p row]; [by destruct (Hne [] ltac:(by left))|].
  cbn [deal_seats lookup list_lookup or_panic mbind outcome_bind].
  unfold vec_set. rewrite !length_app. cbn [length].
  destruct (Nat.ltb_spec (length PA) (length CA + S (length CB))); [|lia].
  destruct (Nat.ltb_spec (length PA) (length OA + S (length OB))); [|lia].
  destruct (Nat.ltb_spec (length PA) (length PA + S (length PB))); [|lia].
  cbn [mbind outcome_bind]. rewrite !insert_middle by done.
  replace (vec_remove 0 (p :: row)) with row by (unfold vec_remove; cbn; by rewrite drop_0).
  destruct (IH (PA ++ [row]) PB (CA ++ [Some p]) CB
    (OA ++ [Some (wrap 8 (N.of_nat (length PA)))]) OB) as (origins&Heq);
    rewrite ?length_app; cbn; try lia; try done.
  { intros r Hr. apply Hne. by right. }
  rewrite !length_app, <-!app_assoc in Heq. cbn in Heq. rewrite Nat.add_1_r in Heq.
  by exists origins.
Qed.

Lemma heads_tails (B : list (list DraftPack)) :
  (∀ row, row ∈ B → row ≠ []) →
  concat (mjoin (tail <$> B)) ++ concat (default [] <$> (head <$> B)) ≡ₚ
  concat ((λ packs, concat packs) <$> B).
Proof.
  induction B as [|row B IH]; intros Hne; [done|]. cbn.
  rewrite concat_app, <-IH by (intros r Hr; apply Hne; by right).
  destruct row as [|p row]; [by destruct (Hne [] ltac:(by left))|]. cbn. solve_Permutation.
Qed.

(** ** Properties *)
(** A session in the lobby, nothing dealt yet. *)
Record lobby (s : DraftSession) : Prop := {
  lobby_shape : pod_shape s;
  lobby_pools : concat (pools s) = [];
  lobby_unshared : shared_stack s = None;
  lobby_packs : mjoin (packs_by_seat s) = [];
  lobby_current : ∀ slot, slot ∈ current_pack s → slot = None;
}.
Definition boosters (all_packs : list (list DraftPack)) : list DraftCardInstance :=
  concat ((λ packs, concat packs) <$> all_packs).

Lemma lobby_table s : lobby s →
  concat (default [] <$> current_pack s) = [] ∧ (concat (mjoin (packs_by_seat s)) = []).
Proof.
  intros [_ _ _ Hp Hc]. split; [|by rewrite Hp]. apply empty_current.
  intros p Hin. by apply Hc in Hin.
Qed.

Lemma all_false_get n i : SeatFlags.get (SeatFlags.all_false n) i = false.
Proof.
  unfold SeatFlags.get, SeatFlags.all_false.
  destruct (replicate (N.to_nat n) false !! N.to_nat i) as [b|] eqn:E; unfold SeatFlags.t in *;
    rewrite E; [|done]. by apply lookup_replicate in E as [-> _].
Qed.

Lemma legacy_drafting s s' :
  validate_legacy_admission s = Ok () → status s' = DraftStatus.Drafting →
  config s' = config s → fifo s' = fifo s → validate_legacy_admission s' = Ok ().
Proof.
  unfold validate_legacy_admission. intros H -> -> ->. revert H.
  destruct (bool_decide (flow (config s) = _)), (fifo s), (bool_decide (status s = _)),
    (selection_policy_is_default _), (clock_policy_is_default _); done.
Qed.

Lemma new_session_lobby cfg sts : (0 < length sts < 256)%nat → lobby (new_session cfg sts).
Proof.
  intros Hlen. split; try done.
  - split; try done; cbn; by rewrite length_replicate.
  - cbn. apply concat_nil_Forall, Forall_forall. by intros p [-> _]%elem_of_replicate.
  - cbn. apply join_nil_2, Forall_forall. by intros p [-> _]%elem_of_replicate.
  - cbn. by intros slot [-> _]%elem_of_replicate.
Qed.

Lemma deal_pick_and_pass_ok s all_packs :
  lobby s → length all_packs = pod s → (∀ row, row ∈ all_packs → row ≠ []) →
  ∃ origins, deal_pick_and_pass all_packs s = (Ok [DraftStarted],
    set_seats_picked_this_round (SeatFlags.all_false (seat_count s)) (set_pick_number 0
      (set_current_pack_number 0 (set_pass_direction (PassDirection.for_pack 0)
        (set_status DraftStatus.Drafting (set_current_pack_origins origins
          (set_current_pack (head <$> all_packs)
            (set_packs_by_seat (tail <$> all_packs) s)))))))).
Proof.
  intros Hl Hlen Hne. pose proof (lobby_shape s Hl) as Hs. unfold deal_pick_and_pass. unfold_M.
  set (o := vec_resize _ _ _).
  destruct (deal_seats_app all_packs [] (packs_by_seat s) [] (current_pack s) [] o)
    as (origins&Heq); try done.
  - by rewrite (shape_packs s Hs).
  - by rewrite (shape_current s Hs).
  - unfold o. rewrite length_vec_resize, (seat_count_pod s Hs). lia.
  - cbn in Heq. rewrite Heq. by exists origins.
Qed.

(** Starting a pick-and-pass draft with [pack_count] non-empty boosters per
    seat opens each seat's first booster and keeps the others in order: the
    session is then live, with the seat flags cleared, and holds exactly the
    boosters' cards. *)
Theorem deal_pick_and_pass_live shuffle random_seat s all_packs :
  lobby s → validate_legacy_admission s = Ok () →
  distribution (procedure (kind s)) = PackDistribution.PickAndPass →
  0 < pack_count (config s) < 256 → length all_packs = pod s →
  (∀ row, row ∈ all_packs → length row = N.to_nat (pack_count (config s)) ∧
     ∀ p, p ∈ row → p ≠ []) →
  ∃ s', deal_start_packs shuffle random_seat all_packs s = (Ok [DraftStarted], s') ∧ live s' ∧
    current_pack s' = (head <$> all_packs) ∧ packs_by_seat s' = (tail <$> all_packs) ∧
    all_cards s' ≡ₚ boosters all_packs.
Proof.
  intros Hl Hleg Hdist Hcount Hlen Hrows.
  assert (∀ row, row ∈ all_packs → row ≠ []) as Hne.
  { intros row Hrow ->. destruct (Hrows [] Hrow) as [H _]. cbn in H. lia. }
  unfold deal_start_packs. unfold_M.
  set (s0 := set_pack_sizes _ s). change (kind s0) with (kind s). rewrite Hdist.
  assert (lobby s0) as Hl0 by by destruct Hl as [[] ? ? ? ?].
  destruct (deal_pick_and_pass_ok s0 all_packs Hl0 Hlen Hne) as (origins&->).
  eexists. split; [done|]. pose proof (lobby_shape s Hl) as Hs. split_and!; try done.
  - split.
    + split; try done.
      * destruct Hs. split; try done; cbn; by rewrite length_fmap.
      * by apply (legacy_drafting s).
      * intros row (row'&->&Hrow)%list_elem_of_fmap. destruct (Hrows row' Hrow) as [H1 H2].
        unfold packs_left. cbn. destruct row' as [|p row']; cbn in *; [lia|]. split; [lia|].
        intros q Hq. apply H2. by right.
      * exact (lobby_unshared s Hl).
    + destruct (lookup_lt_is_Some_2 all_packs 0) as [row Hrow]; [rewrite Hlen; apply Hs|].
      destruct (Hrows row) as [H1 H2]; [by eapply list_elem_of_lookup_2|].
      destruct row as [|p row]; [cbn in H1; lia|].
      exists 0%nat, p. split_and!; [|apply H2; by left|].
      * cbn. by rewrite list_lookup_fmap, Hrow.
      * apply all_false_get.
  - unfold all_cards, table_cards. cbn. rewrite (lobby_unshared s Hl), (lobby_pools s Hl).
    rewrite !app_nil_r. by apply heads_tails.
Qed.

Definition example_boosters : list (list DraftPack) :=
  [[[example_card "a"; example_card "b"]; [example_card "c"]];
   [[example_card "d"; example_card "e"]; [example_card "f"]]].
Lemma example_lobby_ok : lobby (example_lobby DraftKind.Premier 2 2).
Proof. apply new_session_lobby. vm_compute. lia. Qed.
Lemma deal_pick_and_pass_live_witness :
  lobby (example_lobby DraftKind.Premier 2 2) ∧
  ∃ s', deal_start_packs id id example_boosters (example_lobby DraftKind.Premier 2 2) =
      (Ok [DraftStarted], s') ∧ live s' ∧
    current_pack s' = (head <$> example_boosters) ∧ packs_by_seat s' = (tail <$> example_boosters) ∧
    all_cards s' ≡ₚ boosters example_boosters.
Proof.
  split; [exact example_lobby_ok|].
  apply (deal_pick_and_pass_live id id (example_lobby DraftKind.Premier 2 2) example_boosters
    example_lobby_ok eq_refl eq_refl); [cbn; lia|done|].
  intros row [-> | ->%list_elem_of_singleton]%elem_of_cons; (split; [done|]);
    intros p [-> | ->%list_elem_of_singleton]%elem_of_cons; done.
Defined.

Lemma deal_shared_stack_ok shuffle random_seat k s all_packs :
  lobby s → 0 < k < 256 → (∀ l, shuffle l ≡ₚ l) → random_seat (seat_count s) < seat_count s →
  length all_packs = pod s →
  (∀ row, row ∈ all_packs → length row = N.to_nat (packs_per_player (procedure (kind s)))) →
  (N.to_nat k ≤ length (boosters all_packs))%nat →
  ∃ s' st, deal_shared_stack shuffle random_seat k all_packs s = (Ok [DraftStarted], s') ∧
    session_ok s' st ∧ starting_seat st = random_seat (seat_count s) ∧
    active_seat st = starting_seat st ∧ main_stack st `prefix_of` shuffle (boosters all_packs) ∧
    length (piles st) = N.to_nat k ∧
    (∀ i, (i < N.to_nat k)%nat → piles st !! i =
       (λ c, [c]) <$> (shuffle (boosters all_packs) !! (length (boosters all_packs) - 1 - i)%nat)) ∧
    all_cards s' ≡ₚ boosters all_packs.
Proof.
  intros Hl Hk Hshuf Hrand Hlen Hrows Hbig. pose proof (lobby_shape s Hl) as Hs.
  unfold deal_shared_stack, ensure. unfold_M.
  rewrite wrong_shape_false by done. cbn [negb]. cbv beta iota.
  unfold piles_needed. destruct (N.eqb_spec k 0); [lia|]. cbv beta iota.
  fold (boosters all_packs). destruct (Nat.leb_spec (N.to_nat k) (length (boosters all_packs))); [|lia].
  cbv beta iota. set (main := shuffle (boosters all_packs)).
  assert (length main = length (boosters all_packs)) as Hml by apply Permutation_length, Hshuf.
  destruct (seed_piles_ok (N.to_nat k) main) as (ps&r&->&Hps&H1&Hperm&Hrl&Hpre&Hlook); [lia|].
  destruct (lookup_lt_is_Some_2 ps 0) as [p0 Hp0]; [lia|]. rewrite Hp0. cbv beta iota.
  unfold index_set. rewrite length_replicate.
  destruct (Nat.ltb_spec 0 (N.to_nat k)); [|lia]. cbv beta iota.
  eexists _, _. split; [done|].
  assert (∀ i p, ps !! i = Some p → p ≠ []) as Hne.
  { intros i p Hp%list_elem_of_lookup_2 ->. by apply H1 in Hp. }
  split_and!; [split| | | | | |]; cbn; try done.
  - apply (shape_pod s Hs).
  - apply (shape_pools s Hs).
  - split; cbn; try done; try lia.
    + by rewrite length_insert, length_replicate, Hps.
    + intros i x p Hx Hp. apply list_lookup_insert_Some in Hx as [(<-&<-&_)|[Hi Hx]].
      * rewrite Hp0 in Hp. injection Hp as <-. lia.
      * apply lookup_replicate in Hx as [-> _]. lia.
  - exists 0%nat, p0. cbn. split_and!; [lia|done|by eapply Hne].
  - intros i Hi. by rewrite Hlook, Hml.
  - unfold all_cards, table_cards. cbn. destruct (lobby_table s Hl) as [-> ->].
    rewrite (lobby_pools s Hl), app_nil_r. cbn. unfold shared_cards. cbn.
    rewrite Hperm. apply Hshuf.
Qed.

(** Starting a shared-stack draft puts every booster into one shuffled face
    down stack and deals its top cards, one to each pile in turn: the session is
    then a well-formed Winston table (so the properties of [Winston] apply to
    it), the seat the random source names is to act at pile 0 and sees that pile
    only, and the table holds exactly the boosters' cards. *)
Theorem deal_shared_stack_table shuffle random_seat k s all_packs :
  lobby s → distribution (procedure (kind s)) = PackDistribution.SharedStackPiles k →
  (∀ l, shuffle l ≡ₚ l) → (∀ n, 0 < n → random_seat n < n) →
  length all_packs = pod s →
  (∀ row, row ∈ all_packs → length row = N.to_nat (packs_per_player (procedure (kind s)))) →
  (N.to_nat k ≤ length (boosters all_packs))%nat →
  ∃ s' st, deal_start_packs shuffle random_seat all_packs s = (Ok [DraftStarted], s') ∧
    session_ok s' st ∧ starting_seat st = random_seat (seat_count s) ∧
    active_seat st = starting_seat st ∧ main_stack st `prefix_of` shuffle (boosters all_packs) ∧
    length (piles st) = N.to_nat k ∧
    (∀ i, (i < N.to_nat k)%nat → piles st !! i =
       (λ c, [c]) <$> (shuffle (boosters all_packs) !! (length (boosters all_packs) - 1 - i)%nat)) ∧
    all_cards s' ≡ₚ boosters all_packs.
Proof.
  intros Hl Hdist Hshuf Hrand Hlen Hrows Hbig. unfold deal_start_packs. unfold_M.
  set (s0 := set_pack_sizes _ s). change (kind s0) with (kind s). rewrite Hdist.
  assert (lobby s0) as Hl0 by by destruct Hl as [[] ? ? ? ?].
  assert (0 < k < 256) as Hk by (destruct (kind s); cbn in Hdist; try done; injection Hdist as <-; lia).
  change (seat_count s) with (seat_count s0). apply deal_shared_stack_ok; try done.
  apply Hrand. rewrite (seat_count_pod s0) by apply Hl0. pose proof (shape_pod _ (lobby_shape s0 Hl0)).
  lia.
Qed.

Definition example_winston_boosters : list (list DraftPack) :=
  [[[example_card "a"]; [example_card "b"]; [example_card "c"]];
   [[example_card "d"]; [example_card "e"]; [example_card "f"]]].
Lemma example_winston_lobby : lobby (example_lobby DraftKind.Winston 2 3).
Proof. apply new_session_lobby. vm_compute. lia. Qed.
Lemma deal_shared_stack_table_witness :
  lobby (example_lobby DraftKind.Winston 2 3) ∧
  ∃ s' st, deal_start_packs (@reverse DraftCardInstance) N.pred example_winston_boosters
      (example_lobby DraftKind.Winston 2 3) = (Ok [DraftStarted], s') ∧
    session_ok s' st ∧ starting_seat st = N.pred 2 ∧
    active_seat st = starting_seat st ∧
    main_stack st `prefix_of` reverse (boosters example_winston_boosters) ∧
    length (piles st) = N.to_nat 3 ∧
    (∀ i, (i < N.to_nat 3)%nat → piles st !! i =
       (λ c, [c]) <$> (reverse (boosters example_winston_boosters)
          !! (length (boosters example_winston_boosters) - 1 - i)%nat)) ∧
    all_cards s' ≡ₚ boosters example_winston_boosters.
Proof.
  split; [exact example_winston_lobby|].
  apply (deal_shared_stack_table (@reverse DraftCardInstance) N.pred 3
    (example_lobby DraftKind.Winston 2 3) example_winston_boosters example_winston_lobby eq_refl).
  - intros l. apply reverse_Permutation.
  - intros n Hn. lia.
  - done.
  - intros row [-> | ->%list_elem_of_singleton]%elem_of_cons; done.
  - vm_compute. lia.
Defined.

(** Starting a sealed event hands every seat its own boosters, whole and in
    order, as its pool, leaves nothing on the table and goes straight to
    deckbuilding; a wrong number of boosters is refused with only the recorded
    pack sizes written. *)
Theorem deal_sealed_pools shuffle random_seat s all_packs :
  lobby s → distribution (procedure (kind s)) = PackDistribution.AllAtOnce →
  let '(r, s') := deal_start_packs shuffle random_seat all_packs s in
  if wrong_shape (seats s) (N.to_nat (packs_per_player (procedure (kind s)))) all_packs
  then r = Err InvalidSealedConfiguration ∧
    s' = set_pack_sizes (match all_packs with p :: _ => pack_len_u8 <$> p | [] => [] end) s
  else r = Ok [DraftStarted; TransitionedTo DraftStatus.Deckbuilding] ∧
    status s' = DraftStatus.Deckbuilding ∧ pools s' = (λ packs, concat packs) <$> all_packs ∧
    table_cards s' = [] ∧ all_cards s' = boosters all_packs.
Proof.
  intros Hl Hdist. unfold deal_start_packs. unfold_M.
  set (s0 := set_pack_sizes _ s). change (kind s0) with (kind s). rewrite Hdist.
  unfold deal_all_at_once, ensure. unfold_M. change (seats s0) with (seats s).
  change (kind s0) with (kind s).
  destruct (wrong_shape _ _ _) eqn:Hw; cbn [negb]; cbv beta iota; [done|].
  match goal with |- _ ∧ _ ∧ _ ∧ table_cards ?t = [] ∧ _ => assert (table_cards t = []) as Ht end.
  { unfold table_cards. cbn. rewrite (lobby_unshared s Hl), app_nil_r.
    rewrite empty_current, app_nil_r; cycle 1.
    { by intros p (?&?&_)%list_elem_of_fmap. }
    rewrite (join_nil_2 (_ <$> packs_by_seat s)); [done|].
    apply Forall_forall. by intros row (?&->&_)%list_elem_of_fmap. }
  split_and!; try done. unfold all_cards. by rewrite Ht.
Qed.

Definition example_sealed_boosters : list (list DraftPack) :=
  replicate 2 (replicate 6 [example_card "a"]).
Lemma example_sealed_lobby : lobby (example_lobby DraftKind.Sealed 2 6).
Proof. apply new_session_lobby. vm_compute. lia. Qed.
Lemma deal_sealed_pools_witness :
  lobby (example_lobby DraftKind.Sealed 2 6) ∧
  let '(r, s') :=
    deal_start_packs id id example_sealed_boosters (example_lobby DraftKind.Sealed 2 6) in
  r = Ok [DraftStarted; TransitionedTo DraftStatus.Deckbuilding] ∧
  status s' = DraftStatus.Deckbuilding ∧
  pools s' = (λ packs, concat packs) <$> example_sealed_boosters ∧
  table_cards s' = [] ∧ all_cards s' = boosters example_sealed_boosters.
Proof.
  split; [exact example_sealed_lobby|].
  exact (deal_sealed_pools id id (example_lobby DraftKind.Sealed 2 6) example_sealed_boosters
    example_sealed_lobby eq_refl).
Defined.
