(* ===== verification/Fifo.v ===== *)
(** * First-in first-out drafting ([clock.rs], [pick_pass.rs] and [session.rs] of [crates/draft-core/src])

    In this flow every seat keeps a queue of packs and picks from its front
    whenever it likes: prompts and their clocks, the requirements of a selection,
    the selection itself (picks, burns, returned draft-effect cards, the discard of
    a small remainder, the pass), the opening and the end of a round, the review
    between rounds, pause and resume, and the expiry of overdue prompts.

    Every operation here runs on the copy [apply_at] makes and drops on an error,
    so what an operation has written before an error is of no account. *)
From S2P Require Import Prelude.
From S2P Require Import DraftTypes.
From S2P Require Import DraftAdmission.
From S2P Require Import DraftPick.
Local Open Scope N_scope.

#[export] Instance DraftPromptId_eq_dec : EqDecision DraftPromptId.
Proof. solve_decision. Defined.
#[export] Instance DraftClockState_eq_dec : EqDecision DraftClockState.
Proof. solve_decision. Defined.

(** ** Assignments to one field *)
Definition set_queue (x : list QueuedDraftPack) (st : FifoSeatState) : FifoSeatState := {|
  queue := x; generation := generation st; prompt := prompt st; completed_steps :=
  completed_steps st; round_completed_steps := round_completed_steps st |}.
Definition set_generation (x : N) (st : FifoSeatState) : FifoSeatState := {|
  queue := queue st; generation := x; prompt := prompt st; completed_steps := completed_steps
  st; round_completed_steps := round_completed_steps st |}.
Definition set_prompt (x : option DraftPrompt) (st : FifoSeatState) : FifoSeatState := {|
  queue := queue st; generation := generation st; prompt := x; completed_steps :=
  completed_steps st; round_completed_steps := round_completed_steps st |}.
Definition set_completed_steps (x : N) (st : FifoSeatState) : FifoSeatState := {|
  queue := queue st; generation := generation st; prompt := prompt st; completed_steps := x;
  round_completed_steps := round_completed_steps st |}.
Definition set_round_completed_steps (x : N) (st : FifoSeatState) : FifoSeatState := {|
  queue := queue st; generation := generation st; prompt := prompt st; completed_steps :=
  completed_steps st; round_completed_steps := x |}.
Definition set_revision (x : N) (f : FifoDraftState) : FifoDraftState := {|
  session_id := session_id f; revision := x; last_now_ms := last_now_ms f; fifo_seats :=
  fifo_seats f; fifo_packs := fifo_packs f; fifo_cards := fifo_cards f; removed := removed f;
  returned_effects := returned_effects f; review := review f; paused := paused f |}.
Definition set_last_now_ms (x : N) (f : FifoDraftState) : FifoDraftState := {|
  session_id := session_id f; revision := revision f; last_now_ms := x; fifo_seats :=
  fifo_seats f; fifo_packs := fifo_packs f; fifo_cards := fifo_cards f; removed := removed f;
  returned_effects := returned_effects f; review := review f; paused := paused f |}.
Definition set_fifo_seats (x : list FifoSeatState) (f : FifoDraftState) : FifoDraftState := {|
  session_id := session_id f; revision := revision f; last_now_ms := last_now_ms f; fifo_seats
  := x; fifo_packs := fifo_packs f; fifo_cards := fifo_cards f; removed := removed f;
  returned_effects := returned_effects f; review := review f; paused := paused f |}.
Definition set_fifo_packs (x : gmap N DraftPackProvenance) (f : FifoDraftState) : FifoDraftState := {|
  session_id := session_id f; revision := revision f; last_now_ms := last_now_ms f; fifo_seats
  := fifo_seats f; fifo_packs := x; fifo_cards := fifo_cards f; removed := removed f;
  returned_effects := returned_effects f; review := review f; paused := paused f |}.
Definition set_fifo_cards (x : gmap string DraftCardProvenance) (f : FifoDraftState) : FifoDraftState := {|
  session_id := session_id f; revision := revision f; last_now_ms := last_now_ms f; fifo_seats
  := fifo_seats f; fifo_packs := fifo_packs f; fifo_cards := x; removed := removed f;
  returned_effects := returned_effects f; review := review f; paused := paused f |}.
Definition set_removed (x : list RemovedDraftCard) (f : FifoDraftState) : FifoDraftState := {|
  session_id := session_id f; revision := revision f; last_now_ms := last_now_ms f; fifo_seats
  := fifo_seats f; fifo_packs := fifo_packs f; fifo_cards := fifo_cards f; removed := x;
  returned_effects := returned_effects f; review := review f; paused := paused f |}.
Definition set_returned_effects (x : gmap string N) (f : FifoDraftState) : FifoDraftState := {|
  session_id := session_id f; revision := revision f; last_now_ms := last_now_ms f; fifo_seats
  := fifo_seats f; fifo_packs := fifo_packs f; fifo_cards := fifo_cards f; removed := removed
  f; returned_effects := x; review := review f; paused := paused f |}.
Definition set_review (x : option DraftReviewState) (f : FifoDraftState) : FifoDraftState := {|
  session_id := session_id f; revision := revision f; last_now_ms := last_now_ms f; fifo_seats
  := fifo_seats f; fifo_packs := fifo_packs f; fifo_cards := fifo_cards f; removed := removed
  f; returned_effects := returned_effects f; review := x; paused := paused f |}.
Definition set_paused (x : option DraftPausedState) (f : FifoDraftState) : FifoDraftState := {|
  session_id := session_id f; revision := revision f; last_now_ms := last_now_ms f; fifo_seats
  := fifo_seats f; fifo_packs := fifo_packs f; fifo_cards := fifo_cards f; removed := removed
  f; returned_effects := returned_effects f; review := review f; paused := x |}.

Definition FifoM := stM DraftSession DraftError.

Definition fifo_ref (s : DraftSession) : outcome DraftError FifoDraftState :=
  ok_or (fifo s) InvalidSnapshot.
(** An assignment through [fifo_mut]. *)
Definition modify_fifo (g : FifoDraftState → FifoDraftState) : FifoM () :=
  s ← get;
  f ← lift (fifo_ref s);
  put (set_fifo (Some (g f)) s).
(** [u8::try_from(n).expect(_)] *)
Definition expect_u8 (n : nat) : outcome DraftError N :=
  if (n <? 256)%nat then Ok (N.of_nat n) else Panic.

(** [DraftSession::head_metadata] *)
Definition head_metadata (s : DraftSession) (seat : N) : option QueuedDraftPack :=
  f ← fifo s;
  st ← fifo_seats f !! N.to_nat seat;
  head (queue st).

(** ** Clocks ([clock.rs]) *)
Definition SEAT_STEP_MS : list N :=
  [75000; 70000; 65000; 58000; 52000; 46000; 40000; 34000; 28000; 23000; 20000; 18000;
   16000; 15000].

(** [checked_add] followed by [filter]. *)
Definition checked_json_add (a b : N) : outcome DraftError N :=
  let x := a + b in
  if (x <? 2 ^ 64) && (x <=? MAX_DRAFT_JSON_INTEGER) then Ok x else Err InvalidClockBounds.
Definition increment (value : N) : outcome DraftError N := checked_json_add value 1.
Definition deadline (now remaining : N) : outcome DraftError N := checked_json_add now remaining.

Definition clamped_now (s : DraftSession) (now : N) : outcome DraftError N :=
  if MAX_DRAFT_JSON_INTEGER <? now then Err InvalidClockBounds
  else f ← fifo_ref s; Ok (N.max now (last_now_ms f)).

(** The index into the schedule is at most 13. *)
Definition pick_duration (policy : PickClockPolicy.t) (steps : N) : option N :=
  match policy with
  | PickClockPolicy.Off => None
  | PickClockPolicy.Fixed duration_ms => Some duration_ms
  | PickClockPolicy.SeatStep => SEAT_STEP_MS !! N.to_nat (N.min steps 13)
  end.

Definition running (target : DraftClockTarget) (now duration : N) : outcome DraftError DraftClock :=
  deadline_ms ← deadline now duration;
  Ok {| clock_target := target; clock_state := Running deadline_ms |}.

(** The prompt of one seat against the front of its queue. *)
Definition reconcile_seat (session_id : string) (policy : PickClockPolicy.t) (now : N)
    (index : nat) (st : FifoSeatState) : outcome DraftError FifoSeatState :=
  match head (queue st) with
  | None => Ok (set_prompt None st)
  | Some h =>
      if match prompt st with
         | Some p => prompt_pack p =? q_pack_id h
         | None => false
         end
      then Ok st
      else
        g ← increment (generation st);
        seat ← expect_u8 index;
        let id := {| prompt_session := session_id; prompt_seat := seat; prompt_generation := g |} in
        clock ← match pick_duration policy (round_completed_steps st) with
                | Some duration => Some <$> running (PickClock id) now duration
                | None => Ok None
                end;
        Ok (set_prompt (Some {| prompt_id := id; prompt_pack := q_pack_id h;
                                prompt_clock := clock |}) (set_generation g st))
  end.
Fixpoint reconcile_seats (session_id : string) (policy : PickClockPolicy.t) (now : N)
    (index : nat) (l : list FifoSeatState) : outcome DraftError (list FifoSeatState) :=
  match l with
  | [] => Ok []
  | st :: l =>
      st ← reconcile_seat session_id policy now index st;
      l ← reconcile_seats session_id policy now (S index) l;
      Ok (st :: l)
  end.
Definition reconcile_prompts (now : N) : FifoM () :=
  s ← get;
  f ← lift (fifo_ref s);
  l ← lift (reconcile_seats (session_id f) (pick_clock (clock_policy (config s))) now 0
             (fifo_seats f));
  modify_fifo (set_fifo_seats l).

(** [for_each_clock], with what its callback does to the state of a clock. *)
Definition map_clock (g : DraftClockState → outcome DraftError DraftClockState) (c : DraftClock)
    : outcome DraftError DraftClock :=
  st ← g (clock_state c);
  Ok {| clock_target := clock_target c; clock_state := st |}.
Definition map_seat_clock (g : DraftClockState → outcome DraftError DraftClockState)
    (st : FifoSeatState) : outcome DraftError FifoSeatState :=
  match prompt st with
  | Some {| prompt_id := id; prompt_pack := pk; prompt_clock := Some c |} =>
      c ← map_clock g c;
      Ok (set_prompt (Some {| prompt_id := id; prompt_pack := pk; prompt_clock := Some c |}) st)
  | _ => Ok st
  end.
Fixpoint map_seat_clocks (g : DraftClockState → outcome DraftError DraftClockState)
    (l : list FifoSeatState) : outcome DraftError (list FifoSeatState) :=
  match l with
  | [] => Ok []
  | st :: l =>
      st ← map_seat_clock g st;
      l ← map_seat_clocks g l;
      Ok (st :: l)
  end.
Definition for_each_clock (g : DraftClockState → outcome DraftError DraftClockState) : FifoM () :=
  s ← get;
  f ← lift (fifo_ref s);
  l ← lift (map_seat_clocks g (fifo_seats f));
  rv ← lift (match review f with
             | Some r =>
                 c ← map_clock g (review_clock r);
                 Ok (Some {| exhausted_round := exhausted_round r;
                             review_next_round := review_next_round r; review_clock := c |})
             | None => Ok None
             end);
  modify_fifo (λ f, set_review rv (set_fifo_seats l f)).

Module DraftControl.
Inductive t := Pause (reason : DraftPauseReason.t) | Resume.
End DraftControl.

Definition freeze (now : N) (c : DraftClockState) : outcome DraftError DraftClockState :=
  match c with
  | Running deadline_ms => Ok (Frozen (deadline_ms - now))
  | Frozen _ => Err InvalidSnapshot
  end.
Definition thaw (now : N) (c : DraftClockState) : outcome DraftError DraftClockState :=
  match c with
  | Frozen remaining_ms => Running <$> deadline now remaining_ms
  | Running _ => Err InvalidSnapshot
  end.

(** [clock::control] *)
Definition control (c : DraftControl.t) (now : N) : FifoM (list DraftDelta) :=
  match c with
  | DraftControl.Pause reason =>
      s ← get;
      phase ← lift (match status s with
                    | DraftStatus.Drafting => Ok DraftActivePhase.Drafting
                    | DraftStatus.Review => Ok DraftActivePhase.Review
                    | _ => Err (InvalidTransition (status s) "Pause")
                    end);
      for_each_clock (freeze now);;
      modify_fifo (set_paused (Some {| paused_phase := phase; paused_reason := reason |}));;
      modify (set_status DraftStatus.Paused)
  | DraftControl.Resume =>
      s ← get;
      ensure (bool_decide (status s = DraftStatus.Paused)) (InvalidTransition (status s) "Resume");;
      f ← lift (fifo_ref s);
      p ← lift (ok_or (paused f) InvalidSnapshot);
      for_each_clock (thaw now);;
      modify_fifo (set_paused None);;
      modify (set_status (match paused_phase p with
                          | DraftActivePhase.Drafting => DraftStatus.Drafting
                          | DraftActivePhase.Review => DraftStatus.Review
                          end))
  end;;
  s ← get;
  mret [TransitionedTo (status s)].

(** ** Rounds ([session.rs]) *)
(** The seat loop of [open_fifo_round]. *)
Fixpoint open_seats (round : N) (l : list nat) : FifoM () :=
  match l with
  | [] => mret ()
  | seat :: l =>
      s ← get;
      row ← lift (or_panic (packs_by_seat s !! seat));
      match row with
      | [] => throw InvalidSnapshot
      | pack :: row =>
          modify (set_packs_by_seat (<[seat := row]> (packs_by_seat s)));;
          let pack_id := round * pod_size (config s) + N.of_nat seat in
          f ← lift (fifo_ref s);
          original ← lift (ok_or (fifo_packs f !! pack_id) InvalidSnapshot);
          target ← lift (or_panic (fifo_seats f !! seat));
          modify_fifo (λ f, set_fifo_seats (<[seat :=
            set_queue (queue target ++ [{|
              q_pack_id := pack_id; q_opening_seat := prov_opening_seat original;
              q_round := round; q_original_size := prov_original_size original;
              q_pack := pack |}]) (set_round_completed_steps 0 target)]> (fifo_seats f)) f);;
          open_seats round l
      end
  end.
Definition open_fifo_round (round now_ms : N) : FifoM () :=
  modify (set_current_pack_number round);;
  modify (set_pass_direction (PassDirection.for_pack round));;
  modify (set_status DraftStatus.Drafting);;
  modify_fifo (set_review None);;
  s ← get;
  open_seats round (seq 0 (length (seats s)));;
  reconcile_prompts now_ms.

Definition finish_fifo_round (now_ms : N) : FifoM (list DraftDelta) :=
  s ← get;
  f ← lift (fifo_ref s);
  if existsb (λ st, negb (length (queue st) =? 0)%nat) (fifo_seats f) then
    reconcile_prompts now_ms;;
    mret []
  else
    reconcile_prompts now_ms;;
    let exhausted := current_pack_number s in
    next ← lift (if exhausted + 1 <? 256 then Ok (exhausted + 1) else Err InvalidClockBounds);
    if next =? pack_count (config s) then
      modify (set_current_pack_number next);;
      modify (set_status DraftStatus.Deckbuilding);;
      mret [TransitionedTo DraftStatus.Deckbuilding]
    else
      let duration := review_duration_ms (clock_policy (config s)) in
      if duration =? 0 then
        open_fifo_round next now_ms;;
        mret [PackExhausted next]
      else
        clock ← lift (running (ReviewClock next) now_ms duration);
        modify_fifo (set_review (Some {| exhausted_round := exhausted; review_next_round := next;
                                         review_clock := clock |}));;
        modify (set_status DraftStatus.Review);;
        mret [TransitionedTo DraftStatus.Review].

(** ** Selections ([pick_pass.rs]) *)
Record DraftSelectionRequirements := { picks : nat; burns : nat }.

(** The loop over the effect cards; [before] is [effects[..index]]. *)
Fixpoint check_effects (pool : option (list DraftCardInstance)) (before effects : list string)
    : outcome DraftError () :=
  match effects with
  | [] => Ok tt
  | id :: effects =>
      if bool_decide (id ∈ before) then Err (InvalidSelection DraftSelectionRole.Effect)
      else if negb (match pool with Some p => existsb (is_effect_card id) p | None => false end)
      then Err (DraftEffectCardNotInPool id)
      else check_effects pool (before ++ [id]) effects
  end.
(** [pick_pass::selection_requirements] *)
Definition selection_requirements (s : DraftSession) (seat : N) (effects : list string)
    : outcome DraftError DraftSelectionRequirements :=
  h ← ok_or (head_pack s seat) (NoPendingPack seat);
  _ ← check_effects (pools s !! N.to_nat seat) [] effects;
  picks ← match effects with
          | [] => Ok (required_pick_count s seat)
          | _ =>
              let required := draft_effect_step_size (procedure (kind s)) (length effects) in
              if (length h <? required)%nat
              then Err (InvalidDraftEffectSelection required (length h))
              else Ok required
          end;
  Ok {| picks := picks;
        burns := Nat.min (N.to_nat (burns_per_pick (selection_policy (config s))))
                   (length h - picks) |}.

(** What a seat selects. *)
Record Selection := {
  sel_seat : N;
  sel_prompt : DraftPromptId;
  sel_picked : list string;
  sel_burned : list string;
  sel_effects : list string;
}.

(** [pick_pass::legal_auto_selection] *)
Definition legal_auto_selection (s : DraftSession) (seat : N) : option Selection :=
  if negb (bool_decide (flow (config s) = DraftFlow.FifoAsync))
     || negb (bool_decide (status s = DraftStatus.Drafting))
  then None
  else
    f ← fifo s;
    st ← fifo_seats f !! N.to_nat seat;
    p ← prompt st;
    requirements ← match selection_requirements s seat [] with Ok r => Some r | _ => None end;
    pack ← head_pack s seat;
    if (picks requirements =? 0)%nat then None
    else Some {|
      sel_seat := seat; sel_prompt := prompt_id p;
      sel_picked := instance_id <$> take (picks requirements) pack;
      sel_burned := instance_id <$> take (burns requirements) (drop (picks requirements) pack);
      sel_effects := [] |}.

Inductive SelectionTiming := HumanTiming | Expiry (pack_id deadline_ms : N).

(** The two id loops of [select_fifo]. *)
Fixpoint check_ids (role : DraftSelectionRole.t) (effects : list string) (pack : DraftPack)
    (ids : list string) (selected : gset string) : outcome DraftError (gset string) :=
  match ids with
  | [] => Ok selected
  | id :: ids =>
      if bool_decide (id ∈ selected) then Err (InvalidSelection role)
      else if bool_decide (id ∈ effects) || negb (existsb (has_id id) pack)
      then Err (CardNotInPack id)
      else check_ids role effects pack ids ({[id]} ∪ selected)
  end.
Definition check_role (role : DraftSelectionRole.t) (effects : list string) (pack : DraftPack)
    (ids : list string) (expected : nat) (selected : gset string)
    : outcome DraftError (gset string) :=
  if negb (length ids =? expected)%nat
  then Err (InvalidSelectionCount role expected (length ids))
  else check_ids role effects pack ids selected.

(** Everything [select_fifo] refuses before it moves a card; the front of the
    seat's queue otherwise. *)
Definition admit_timing (timing : SelectionTiming) (last_now pack_id : N)
    (p : DraftPrompt) : outcome DraftError () :=
  d ← match clock_state <$> prompt_clock p with
      | Some (Running deadline_ms) => Ok (Some deadline_ms)
      | Some (Frozen _) => Err StalePrompt
      | None => Ok None
      end;
  match timing with
  | HumanTiming =>
      if match d with Some deadline => deadline <=? last_now | None => false end
      then Err ExpiredPrompt else Ok ()
  | Expiry captured deadline_ms =>
      if negb (captured =? pack_id) || negb (bool_decide (d = Some deadline_ms))
         || (last_now <? deadline_ms)
      then Err StalePrompt else Ok ()
  end.
Definition admit_selection (s : DraftSession) (x : Selection) (timing : SelectionTiming)
    : outcome DraftError QueuedDraftPack :=
  let seat := sel_seat x in
  _ ← (if bool_decide (status s = DraftStatus.Drafting) then Ok ()
       else Err (InvalidTransition (status s) "Select"));
  _ ← (if (N.to_nat seat <? length (seats s))%nat then Ok ()
       else Err (SeatOutOfRange seat (pod_size (config s))));
  f ← fifo_ref s;
  state ← or_panic (fifo_seats f !! N.to_nat seat);
  h ← ok_or (head_metadata s seat) (NoPendingPack seat);
  p ← ok_or (prompt state) StalePrompt;
  _ ← (if negb (bool_decide (prompt_id p = sel_prompt x)) || negb (prompt_pack p =? q_pack_id h)
          || negb (prompt_seat (sel_prompt x) =? seat)
          || negb (bool_decide (prompt_session (sel_prompt x) = session_id f))
       then Err StalePrompt else Ok ());
  _ ← admit_timing timing (last_now_ms f) (q_pack_id h) p;
  requirements ← selection_requirements s seat (sel_effects x);
  selected ← check_role DraftSelectionRole.Pick (sel_effects x) (q_pack h) (sel_picked x)
               (picks requirements) ∅;
  _ ← check_role DraftSelectionRole.Burn (sel_effects x) (q_pack h) (sel_burned x)
        (burns requirements) selected;
  Ok h.

(** The loop returning the effect cards: out of the pool, to the end of the pack. *)
Fixpoint return_effects (effects : list string) (pool pack : list DraftCardInstance)
    : outcome DraftError (list DraftCardInstance * list DraftCardInstance) :=
  match effects with
  | [] => Ok (pool, pack)
  | id :: effects =>
      index ← or_panic (position (has_id id) pool);
      '(card, pool) ← remove_at index pool;
      return_effects effects pool (pack ++ [card])
  end.

Definition removals (pack_id : N) (reason : DraftRemovalReason.t) (ids : list string)
    : list RemovedDraftCard :=
  (λ id, {| removed_id := id; removed_pack := pack_id; removed_reason := reason |}) <$> ids.
Definition forget {V} (ids : list string) (m : gmap string V) : gmap string V :=
  foldl (λ m id, delete id m) m ids.
Definition assign {V} (v : V) (ids : list string) (m : gmap string V) : gmap string V :=
  foldl (λ m id, <[id := v]> m) m ids.

(** The cards leave the pack and the pool; the rest of the pack is the result. *)
Definition take_selection (x : Selection) (h : QueuedDraftPack) : FifoM DraftPack :=
  let seat := N.to_nat (sel_seat x) in
  '(selected_cards, pack) ← lift (take_in_turn (sel_picked x) (q_pack h));
  '(_, pack) ← lift (take_in_turn (sel_burned x) pack);
  s ← get;
  pool ← lift (or_panic (pools s !! seat));
  '(pool, pack) ← lift (return_effects (sel_effects x) pool pack);
  modify_fifo (λ f,
    set_returned_effects (assign (q_pack_id h) (sel_effects x)
        (forget (sel_picked x ++ sel_burned x) (returned_effects f)))
      (set_removed (removed f ++ removals (q_pack_id h) DraftRemovalReason.Burn (sel_burned x)) f));;
  modify (set_pools (<[seat := pool ++ selected_cards]> (pools s)));;
  mret pack.

(** The step is counted and the prompt withdrawn. *)
Definition count_step (st : FifoSeatState) : outcome DraftError FifoSeatState :=
  completed ← increment (completed_steps st);
  round_completed ← increment (round_completed_steps st);
  Ok (set_prompt None (set_round_completed_steps round_completed
       (set_completed_steps completed (set_queue (tail (queue st)) st)))).

(** A remainder at the discard threshold leaves the draft. *)
Definition discard_remainder (h : QueuedDraftPack) (pack : DraftPack)
    : FifoM (list string * DraftPack) :=
  s ← get;
  if (length pack <=? N.to_nat (discard_threshold (selection_policy (config s))))%nat then
    let ids := instance_id <$> pack in
    modify_fifo (λ f,
      set_returned_effects (forget ids (returned_effects f))
        (set_removed (removed f ++ removals (q_pack_id h) DraftRemovalReason.Threshold ids) f));;
    mret (ids, [])
  else mret ([], pack).

(** What is left passes to the next seat. *)
Definition pass_remainder (seat : N) (h : QueuedDraftPack) (pack : DraftPack)
    : FifoM (list DraftDelta) :=
  match pack with
  | [] => mret []
  | _ =>
      s ← get;
      recipient ← lift (PassDirection.next_seat (pass_direction s) seat (pod_size (config s)));
      f ← lift (fifo_ref s);
      st ← lift (or_panic (fifo_seats f !! N.to_nat recipient));
      modify_fifo (λ f, set_fifo_seats (<[N.to_nat recipient :=
        set_queue (queue st ++ [{| q_pack_id := q_pack_id h; q_opening_seat := q_opening_seat h;
                                   q_round := q_round h; q_original_size := q_original_size h;
                                   q_pack := pack |}]) st]> (fifo_seats f)) f);;
      mret [PackPassed]
  end.

(** [pick_pass::finish_pick] under this flow. *)
Definition finish_pick_fifo (seat : N) (card_instance_ids : list string) : FifoM (list DraftDelta) :=
  s ← get;
  f ← lift (fifo_ref s);
  more ← finish_fifo_round (last_now_ms f);
  mret ((CardPicked seat <$> card_instance_ids) ++ more).

(** [pick_pass::select_fifo] *)
Definition select_fifo (x : Selection) (timing : SelectionTiming) : FifoM (list DraftDelta) :=
  let seat := sel_seat x in
  s ← get;
  h ← lift (admit_selection s x timing);
  pack ← take_selection x h;
  s ← get;
  f ← lift (fifo_ref s);
  st ← lift (or_panic (fifo_seats f !! N.to_nat seat));
  st ← lift (count_step st);
  modify_fifo (λ f, set_fifo_seats (<[N.to_nat seat := st]> (fifo_seats f)) f);;
  '(discarded, pack) ← discard_remainder h pack;
  passed ← pass_remainder seat h pack;
  deltas ← finish_pick_fifo seat (sel_picked x);
  mret (deltas ++ passed ++ [SelectionAccepted (sel_prompt x) seat (sel_picked x) (sel_burned x)
    (sel_effects x) discarded]).

(** ** The passage of time ([clock::advance]) *)
Record Captured := { cap_prompt : DraftPromptId; cap_pack : N; cap_deadline : N }.

Definition overdue (now : N) (st : FifoSeatState) : option Captured :=
  p ← prompt st;
  c ← prompt_clock p;
  match clock_state c with
  | Running d =>
      if d <=? now then Some {| cap_prompt := prompt_id p; cap_pack := prompt_pack p;
                                cap_deadline := d |}
      else None
  | Frozen _ => None
  end.
(** Is this still the prompt of its seat? *)
Definition still_current (c : Captured) (st : FifoSeatState) : bool :=
  match prompt st with
  | Some p =>
      bool_decide (prompt_id p = cap_prompt c) && (prompt_pack p =? cap_pack c)
      && match prompt_clock p with
         | Some k => bool_decide (clock_state k = Running (cap_deadline c))
         | None => false
         end
  | None => false
  end.
Definition expire_one (c : Captured) : FifoM (list DraftDelta) :=
  s ← get;
  f ← lift (fifo_ref s);
  st ← lift (or_panic (fifo_seats f !! N.to_nat (prompt_seat (cap_prompt c))));
  if still_current c st then
    match legal_auto_selection s (prompt_seat (cap_prompt c)) with
    | Some x => select_fifo x (Expiry (cap_pack c) (cap_deadline c))
    | None => mret []
    end
  else mret [].
Fixpoint expire_all (l : list Captured) : FifoM (list DraftDelta) :=
  match l with
  | [] => mret []
  | c :: l =>
      d ← expire_one c;
      more ← expire_all l;
      mret (d ++ more)
  end.
Definition advance (now : N) : FifoM (list DraftDelta) :=
  s ← get;
  match status s with
  | DraftStatus.Review =>
      f ← lift (fifo_ref s);
      r ← lift (ok_or (review f) InvalidSnapshot);
      match clock_state (review_clock r) with
      | Running d =>
          if d <=? now then
            let next_round := review_next_round r in
            open_fifo_round next_round now;;
            mret [PackExhausted next_round; TransitionedTo DraftStatus.Drafting]
          else mret []
      | Frozen _ => mret []
      end
  | DraftStatus.Drafting =>
      f ← lift (fifo_ref s);
      expire_all (omap (overdue now) (fifo_seats f))
  | _ => mret []
  end.

(** ** The start of a draft ([start_fifo]) *)
Fixpoint register_cards (pack_id : N) (pack : DraftPack) (cards : gmap string DraftCardProvenance)
    : outcome DraftError (gmap string DraftCardProvenance) :=
  match pack with
  | [] => Ok cards
  | c :: pack =>
      if negb (valid_draft_id (instance_id c))
         || bool_decide (is_Some (cards !! instance_id c))
      then Err InvalidSnapshot
      else register_cards pack_id pack
             (<[instance_id c := {| card_pack_id := pack_id; prov_card := c |}]> cards)
  end.
Abbreviation registry := (gmap N DraftPackProvenance * gmap string DraftCardProvenance)%type.
(** The packs of one seat, from round [round] on. *)
Fixpoint register_row (seat_count seat round : nat) (row : list DraftPack) (r : registry)
    : outcome DraftError registry :=
  match row with
  | [] => Ok r
  | pack :: row =>
      let n := length pack in
      size ← (if (n <? 256)%nat && (0 <? n)%nat then Ok (N.of_nat n) else Err InvalidSnapshot);
      pack_id ← (if N.of_nat (round * seat_count + seat) <? 2 ^ 32
                 then Ok (N.of_nat (round * seat_count + seat)) else Err InvalidSnapshot);
      cards ← register_cards pack_id pack r.2;
      opening_seat ← expect_u8 seat;
      rnd ← expect_u8 round;
      register_row seat_count seat (S round) row
        (<[pack_id := {| prov_pack_id := pack_id; prov_opening_seat := opening_seat;
                         prov_round := rnd; prov_original_size := size;
                         original_card_ids := instance_id <$> pack |}]> r.1, cards)
  end.
Fixpoint register_packs (seat_count seat : nat) (all_packs : list (list DraftPack)) (r : registry)
    : outcome DraftError registry :=
  match all_packs with
  | [] => Ok r
  | row :: all_packs =>
      r ← register_row seat_count seat 0 row r;
      register_packs seat_count (S seat) all_packs r
  end.
Fixpoint expect_sizes (row : list DraftPack) : outcome DraftError (list N) :=
  match row with
  | [] => Ok []
  | pack :: row =>
      n ← expect_u8 (length pack);
      sizes ← expect_sizes row;
      Ok (n :: sizes)
  end.

(** [generated] is what the given pack source generates, if one is given. *)
Definition start_fifo (generated : option (outcome DraftError (list (list DraftPack)))) (now_ms : N)
    : FifoM (list DraftDelta) :=
  s ← get;
  ensure (bool_decide (status s = DraftStatus.Lobby)) (InvalidTransition (status s) "StartDraft");;
  lift (validate_fifo_config (config s) (length (seats s)) AdmissionContext.Configuration);;
  source ← lift (ok_or generated InvalidConfiguration);
  packs ← lift source;
  ensure ((length packs =? length (seats s))%nat
          && forallb (λ row : list DraftPack, (length row =? N.to_nat (pack_count (config s)))%nat)
               packs)
    InvalidSnapshot;;
  f ← lift (fifo_ref s);
  '(ps, cs) ← lift (register_packs (length (seats s)) 0 packs (fifo_packs f, fifo_cards f));
  modify_fifo (λ f, set_fifo_packs ps (set_fifo_cards cs f));;
  first ← lift (or_panic (packs !! 0%nat));
  sizes ← lift (expect_sizes first);
  modify (set_pack_sizes sizes);;
  modify (set_packs_by_seat packs);;
  match distribution (procedure (kind s)) with
  | PackDistribution.AllAtOnce =>
      modify (set_pools ((λ row, concat row) <$> packs));;
      modify (set_packs_by_seat ((λ _, []) <$> packs));;
      modify (λ s, set_current_pack_number (pack_count (config s)) s);;
      modify (set_status DraftStatus.Deckbuilding);;
      mret [DraftStarted; TransitionedTo DraftStatus.Deckbuilding]
  | PackDistribution.PickAndPass =>
      open_fifo_round 0 now_ms;;
      mret [DraftStarted]
  | PackDistribution.SharedStackPiles _ => throw InvalidConfiguration
  end.

(** [DraftSession::new_fifo] before its last check. *)
Definition fresh_fifo_seat : FifoSeatState := {|
  queue := []; generation := 0; prompt := None; completed_steps := 0;
  round_completed_steps := 0 |}.
Definition fresh_fifo (id : string) (seat_count : nat) : FifoDraftState := {|
  session_id := id; revision := 0; last_now_ms := 0;
  fifo_seats := replicate seat_count fresh_fifo_seat; fifo_packs := ∅; fifo_cards := ∅;
  removed := []; returned_effects := ∅; review := None; paused := None |}.
