(* ===== verification/DraftSnapshot.v ===== *)
(** * Validating a persisted draft ([validate_persisted_snapshot] of [crates/draft-core/src/session.rs])

    What a stored or imported session must satisfy before the reducer works on it:
    the checks of the legacy flow for the three distributions, and the long check
    of a first-in first-out session (dimensions, the manifest of packs and cards,
    the whereabouts of every card, prompts, clocks, progress counters, review). *)
From S2P Require Import Prelude.
From S2P Require Import DraftTypes.
From S2P Require Import DraftAdmission.
From S2P Require Import Winston.
From S2P Require Import Fifo.
Local Open Scope N_scope.

(** [if c { return Err(e) }] *)
Definition refuse_with (e : DraftError) (c : bool) : outcome DraftError () :=
  if c then Err e else Ok tt.
Definition refuse : bool → outcome DraftError () := refuse_with InvalidSnapshot.

Definition differ (a b : nat) : bool := negb (a =? b)%nat.
Definition is_someb {A} (o : option A) : bool := match o with Some _ => true | None => false end.

#[export] Instance DraftActivePhase_eq_dec : EqDecision DraftActivePhase.t.
Proof. solve_decision. Defined.
#[export] Instance DraftClockTarget_eq_dec : EqDecision DraftClockTarget.
Proof. solve_decision. Defined.

(** ** The legacy flow *)
Definition snapshot_context (f : DraftFlow.t) : AdmissionContext.t := AdmissionContext.Snapshot f.

Definition validate_shared_stack (s : DraftSession) (pile_count : N) : outcome DraftError () :=
  let no := refuse_with InvalidSharedStackConfiguration in
  let seat_ok i := (N.to_nat i <? length (seats s))%nat in
  piles_n ← piles_needed pile_count;
  match shared_stack s with
  | None => no (bool_decide (status s = DraftStatus.Drafting))
  | Some st =>
      _ ← no (differ (length (piles st)) piles_n || differ (length (inspected st)) piles_n);
      _ ← no (negb (seat_ok (active_seat st)) || negb (N.to_nat (cursor st) <? piles_n)%nat);
      _ ← no (existsb (λ x, negb (x.1 <=? length x.2)%nat) (zip (inspected st) (piles st)));
      _ ← no (negb (length (forced_draws st) =? 0)%nat
              && differ (length (forced_draws st)) (length (seats s)));
      _ ← no (SHARED_STACK_HISTORY_CAPACITY <? length (history st))%nat;
      _ ← no (existsb (λ r, negb (N.to_nat (rec_pile r) <? piles_n)%nat) (history st));
      _ ← no (existsb (λ r, negb (seat_ok (rec_seat r))) (history st));
      _ ← no (differ (length (pools s)) (length (seats s))
              || differ (N.to_nat (pod_size (config s))) (length (seats s)));
      _ ← no (negb (seat_ok (starting_seat st)));
      _ ← no (existsb (λ seen, negb (seen =? 0)%nat)
                (drop (S (N.to_nat (cursor st))) (inspected st)));
      no (bool_decide (status s = DraftStatus.Drafting)
          && negb (is_someb (forced_decision st (active_seat st))))
  end.

Definition validate_sealed (s : DraftSession) : outcome DraftError () :=
  let no := refuse_with InvalidSealedSnapshot in
  let started := negb (bool_decide (status s = DraftStatus.Lobby)) in
  _ ← admit_all_at_once (kind s) (config s) (Some (session_set_code s))
        (snapshot_context DraftFlow.LegacyBarrier);
  _ ← no (bool_decide (status s = DraftStatus.Drafting));
  let count := length (seats s) in
  _ ← no (differ (N.to_nat (pod_size (config s))) count || differ (length (pools s)) count
          || differ (length (current_pack s)) count || differ (length (packs_by_seat s)) count);
  _ ← no (started && existsb (λ pool : list DraftCardInstance,
            differ (length pool) (total_pack_cards s)) (pools s));
  no (started && (existsb is_someb (current_pack s)
                  || existsb (λ packs : list DraftPack, negb (length packs =? 0)%nat)
                       (packs_by_seat s))).

Definition validate_legacy_snapshot (s : DraftSession) : outcome DraftError () :=
  _ ← validate_legacy_admission s;
  _ ← refuse_with InvalidSealedSnapshot (negb (bool_decide (kind s = config_kind (config s))));
  _ ← validate_layout (source (config s)) (seat_count s) (pack_count (config s));
  let p := procedure (kind s) in
  _ ← validate_source p (source (config s));
  _ ← admit_pod_size (kind s) (source (config s)) (config_format (config s)) (seat_count s)
        (snapshot_context DraftFlow.LegacyBarrier);
  match distribution p with
  | PackDistribution.PickAndPass => Ok tt
  | PackDistribution.AllAtOnce => validate_sealed s
  | PackDistribution.SharedStackPiles pile_count => validate_shared_stack s pile_count
  end.

(** ** The first-in first-out flow *)
Definition validate_owned_card (f : FifoDraftState) (owned : gset string) (card : DraftCardInstance)
    : outcome DraftError (gset string) :=
  _ ← refuse (negb match fifo_cards f !! instance_id card with
                   | Some original => bool_decide (prov_card original = card)
                   | None => false
                   end
              || bool_decide (instance_id card ∈ owned));
  Ok ({[instance_id card]} ∪ owned).

(** [saturating_sub] is [N.sub]. *)
Definition validate_scope (c : DraftClock) (target : DraftClockTarget) (is_paused : bool)
    (duration now : N) : outcome DraftError () :=
  _ ← refuse (negb (bool_decide (clock_target c = target)));
  match clock_state c, is_paused with
  | Running deadline_ms, false =>
      refuse (negb ((deadline_ms <=? MAX_DRAFT_JSON_INTEGER) && (deadline_ms - now <=? duration)))
  | Frozen remaining_ms, true => refuse (negb (remaining_ms <=? duration))
  | _, _ => Err InvalidSnapshot
  end.

(** The state of a session before its packs are generated. *)
Definition lobby_dirty (s : DraftSession) (f : FifoDraftState) : bool :=
  negb (size (fifo_packs f) =? 0)%nat || negb (size (fifo_cards f) =? 0)%nat
  || negb (length (removed f) =? 0)%nat || negb (size (returned_effects f) =? 0)%nat
  || is_someb (review f) || negb (length (pack_sizes s) =? 0)%nat
  || negb (current_pack_number s =? 0)
  || existsb (λ p : list DraftCardInstance, negb (length p =? 0)%nat) (pools s)
  || existsb (λ p : list DraftPack, negb (length p =? 0)%nat) (packs_by_seat s)
  || existsb (λ st, negb (length (queue st) =? 0)%nat || is_someb (prompt st)
       || negb (generation st =? 0) || negb (completed_steps st =? 0)
       || negb (round_completed_steps st =? 0)) (fifo_seats f).

(** The manifest: one pack per round and seat, each card registered once. *)
Definition check_manifest_card (f : FifoDraftState) (id : N) (catalog : gset string)
    (card_id : string) : outcome DraftError (gset string) :=
  card ← ok_or (fifo_cards f !! card_id) InvalidSnapshot;
  _ ← refuse (negb (valid_draft_id card_id)
              || negb (bool_decide (instance_id (prov_card card) = card_id))
              || negb (card_pack_id card =? id) || bool_decide (card_id ∈ catalog));
  Ok ({[card_id]} ∪ catalog).
Definition check_manifest_pack (s : DraftSession) (f : FifoDraftState) (rnd : nat)
    (catalog : gset string) (seat : nat) : outcome DraftError (gset string) :=
  let id := N.of_nat rnd * pod_size (config s) + N.of_nat seat in
  pack ← ok_or (fifo_packs f !! id) InvalidSnapshot;
  _ ← refuse (negb (prov_pack_id pack =? id) || negb (prov_opening_seat pack =? N.of_nat seat)
              || negb (prov_round pack =? N.of_nat rnd) || (prov_original_size pack =? 0)
              || differ (N.to_nat (prov_original_size pack)) (length (original_card_ids pack)));
  _ ← (if (seat =? 0)%nat then
         n ← or_panic (pack_sizes s !! rnd);
         refuse (negb (n =? prov_original_size pack))
       else Ok tt);
  try_fold (check_manifest_card f id) catalog (original_card_ids pack).
Definition check_manifest (s : DraftSession) (f : FifoDraftState) : outcome DraftError (gset string) :=
  try_fold (λ catalog rnd,
      try_fold (check_manifest_pack s f rnd) catalog (seq 0 (N.to_nat (pod_size (config s)))))
    ∅ (seq 0 (N.to_nat (pack_count (config s)))).

(** Packs not opened yet, round [first_round + offset] of seat [seat]. *)
Definition check_future_pack (f : FifoDraftState) (count first_round seat : nat)
    (owned : gset string) (x : nat * DraftPack) : outcome DraftError (gset string) :=
  let '(offset, pack) := x in
  original ← or_panic (fifo_packs f !! N.of_nat ((first_round + offset) * count + seat));
  _ ← refuse (negb (bool_decide (instance_id <$> pack = original_card_ids original)));
  try_fold (validate_owned_card f) owned pack.
Definition check_future (s : DraftSession) (f : FifoDraftState) (next_unopened : N)
    (owned : gset string) (x : nat * list DraftPack) : outcome DraftError (gset string) :=
  let '(seat, future) := x in
  _ ← refuse (differ (length future) (N.to_nat (pack_count (config s) - next_unopened)));
  try_fold (check_future_pack f (length (seats s)) (N.to_nat next_unopened) seat) owned
    (imap pair future).

(** What the walk over the live packs has seen. *)
Record Seen := {
  owned : gset string;
  live_origins : gset N;
  live_pack_ids : gset N;
  live_returns : gset string;
}.
Definition check_live_card (f : FifoDraftState) (h : QueuedDraftPack) (w : Seen)
    (card : DraftCardInstance) : outcome DraftError Seen :=
  own ← validate_owned_card f (owned w) card;
  match returned_effects f !! instance_id card with
  | Some assignment =>
      _ ← refuse (negb (assignment =? q_pack_id h)
                  || negb (bool_decide (draft_effect card = Some DraftEffect.AdditionalPick)));
      Ok {| owned := own; live_origins := live_origins w; live_pack_ids := live_pack_ids w;
            live_returns := {[instance_id card]} ∪ live_returns w |}
  | None =>
      c ← or_panic (fifo_cards f !! instance_id card);
      _ ← refuse (negb (card_pack_id c =? q_pack_id h));
      Ok {| owned := own; live_origins := live_origins w; live_pack_ids := live_pack_ids w;
            live_returns := live_returns w |}
  end.
Definition check_live_pack (s : DraftSession) (f : FifoDraftState) (w : Seen) (h : QueuedDraftPack)
    : outcome DraftError Seen :=
  original ← ok_or (fifo_packs f !! q_pack_id h) InvalidSnapshot;
  _ ← refuse (negb (q_opening_seat h =? prov_opening_seat original)
              || negb (q_round h =? prov_round original)
              || negb (q_original_size h =? prov_original_size original)
              || negb (q_round h =? current_pack_number s)
              || bool_decide (q_opening_seat h ∈ live_origins w)
              || bool_decide (q_pack_id h ∈ live_pack_ids w));
  let n := N.of_nat (length (q_pack h)) in
  _ ← refuse ((n =? 0) || (q_original_size h <? n)
              || ((n <? q_original_size h)
                  && (n <=? discard_threshold (selection_policy (config s)))));
  try_fold (check_live_card f h)
    {| owned := owned w; live_origins := {[q_opening_seat h]} ∪ live_origins w;
       live_pack_ids := {[q_pack_id h]} ∪ live_pack_ids w; live_returns := live_returns w |}
    (q_pack h).

Definition round_supply (s : DraftSession) (f : FifoDraftState) : N :=
  map_fold (λ _ p acc,
      if prov_round p =? N.min (current_pack_number s) (pack_count (config s) - 1)
      then acc + prov_original_size p else acc) 0 (fifo_packs f).

Definition check_prompt (s : DraftSession) (f : FifoDraftState) (live_drafting : bool)
    (seat_index : nat) (st : FifoSeatState) : outcome DraftError () :=
  seat ← expect_u8 seat_index;
  match live_drafting, head_metadata s seat with
  | true, Some h =>
      p ← ok_or (prompt st) InvalidSnapshot;
      _ ← refuse (negb (bool_decide (prompt_session (prompt_id p) = session_id f))
                  || differ (N.to_nat (prompt_seat (prompt_id p))) seat_index
                  || (prompt_generation (prompt_id p) =? 0)
                  || negb (prompt_generation (prompt_id p) =? generation st)
                  || negb (prompt_pack p =? q_pack_id h));
      match pick_duration (pick_clock (clock_policy (config s))) (round_completed_steps st),
            prompt_clock p with
      | None, None => Ok tt
      | Some duration, Some c =>
          validate_scope c (PickClock (prompt_id p)) (is_someb (paused f)) duration (last_now_ms f)
      | _, _ => Err InvalidSnapshot
      end
  | _, _ => refuse (is_someb (prompt st))
  end.
Definition check_seat (s : DraftSession) (f : FifoDraftState) (live_drafting : bool) (w : Seen)
    (x : nat * FifoSeatState) : outcome DraftError Seen :=
  let '(seat_index, st) := x in
  _ ← refuse ((MAX_DRAFT_JSON_INTEGER <? generation st)
              || (N.of_nat (size (fifo_cards f)) <? completed_steps st)
              || (completed_steps st <? round_completed_steps st)
              || (completed_steps st + 1 <? generation st));
  _ ← refuse (round_supply s f <? round_completed_steps st);
  _ ← refuse ((negb live_drafting && negb (length (queue st) =? 0)%nat)
              || (length (seats s) <? length (queue st))%nat);
  w ← try_fold (check_live_pack s f) w (queue st);
  _ ← check_prompt s f live_drafting seat_index st;
  Ok w.

Definition check_removed (s : DraftSession) (f : FifoDraftState) (next_unopened : N)
    (own : gset string) (r : RemovedDraftCard) : outcome DraftError (gset string) :=
  card ← ok_or (fifo_cards f !! removed_id r) InvalidSnapshot;
  _ ← refuse (match fifo_packs f !! removed_pack r with
              | None => true
              | Some pack =>
                  (negb (removed_pack r =? card_pack_id card)
                   && negb (bool_decide (draft_effect (prov_card card) =
                        Some DraftEffect.AdditionalPick)))
                  || (next_unopened <=? prov_round pack)
              end || bool_decide (removed_id r ∈ own));
  _ ← match distribution (procedure (kind s)) with
      | PackDistribution.AllAtOnce => Err InvalidSnapshot
      | PackDistribution.PickAndPass =>
          let policy := selection_policy (config s) in
          refuse (negb (match removed_reason r with
                        | DraftRemovalReason.Burn => 0 <? burns_per_pick policy
                        | DraftRemovalReason.Threshold => 0 <? discard_threshold policy
                        end))
      | PackDistribution.SharedStackPiles _ => Err InvalidConfiguration
      end;
  Ok ({[removed_id r]} ∪ own).

(** The scan of a pool for a card another seat opened, short-circuiting; the
    look-ups index their maps. *)
Fixpoint foreign_card (f : FifoDraftState) (seat_index : nat) (pool : list DraftCardInstance)
    : outcome DraftError bool :=
  match pool with
  | [] => Ok false
  | card :: pool =>
      c ← or_panic (fifo_cards f !! instance_id card);
      p ← or_panic (fifo_packs f !! card_pack_id c);
      if differ (N.to_nat (prov_opening_seat p)) seat_index then Ok true
      else foreign_card f seat_index pool
  end.
Definition check_pool (s : DraftSession) (f : FifoDraftState)
    (x : nat * (FifoSeatState * list DraftCardInstance)) : outcome DraftError () :=
  let '(seat_index, (st, pool)) := x in
  let p := procedure (kind s) in
  match distribution p with
  | PackDistribution.PickAndPass =>
      let n := N.of_nat (length pool) in
      let maximum := completed_steps st * cards_per_pick p in
      refuse ((n <? completed_steps st) || (maximum <? n))
  | PackDistribution.AllAtOnce =>
      foreign ← foreign_card f seat_index pool;
      _ ← refuse foreign;
      refuse (negb (completed_steps st =? 0) || negb (round_completed_steps st =? 0)
              || negb (generation st =? 0))
  | PackDistribution.SharedStackPiles _ => Err InvalidConfiguration
  end.

Definition check_review (s : DraftSession) (f : FifoDraftState) (reviewing : bool)
    (next_unopened : N) : outcome DraftError () :=
  match reviewing, review f with
  | true, Some r =>
      let duration := review_duration_ms (clock_policy (config s)) in
      _ ← refuse ((duration =? 0) || negb (exhausted_round r =? current_pack_number s)
                  || negb (review_next_round r =? next_unopened)
                  || (pack_count (config s) <=? review_next_round r));
      validate_scope (review_clock r) (ReviewClock (review_next_round r)) (is_someb (paused f))
        duration (last_now_ms f)
  | false, None => Ok tt
  | _, _ => Err InvalidSnapshot
  end.

(** The checks of a session that has left the lobby. *)
Definition validate_started (s : DraftSession) (f : FifoDraftState)
    (phase : option DraftActivePhase.t) : outcome DraftError () :=
  let packs := pack_count (config s) in
  let current := current_pack_number s in
  let p := procedure (kind s) in
  _ ← refuse (differ (size (fifo_packs f)) (length (seats s) * N.to_nat packs)
              || differ (length (pack_sizes s)) (N.to_nat packs));
  catalog ← check_manifest s f;
  _ ← refuse (differ (size catalog) (size (fifo_cards f)));
  let live_drafting := bool_decide (phase = Some DraftActivePhase.Drafting) in
  let reviewing := bool_decide (phase = Some DraftActivePhase.Review) in
  let live := live_drafting || reviewing in
  _ ← refuse (bool_decide (distribution p = PackDistribution.AllAtOnce) && is_someb phase);
  _ ← refuse (live && (packs <=? current));
  _ ← refuse (negb live && negb (current =? packs));
  let direction_round := if current =? packs then current - 1 else current in
  _ ← refuse (bool_decide (distribution p = PackDistribution.PickAndPass)
              && negb (bool_decide (pass_direction s = PassDirection.for_pack direction_round)));
  let next_unopened := if live then current + 1 else packs in
  own ← try_fold (check_future s f next_unopened) ∅ (imap pair (packs_by_seat s));
  w ← try_fold (check_seat s f live_drafting)
        {| owned := own; live_origins := ∅; live_pack_ids := ∅; live_returns := ∅ |}
        (imap pair (fifo_seats f));
  _ ← refuse (live_drafting && (size (live_pack_ids w) =? 0)%nat);
  _ ← refuse (differ (size (live_returns w)) (size (returned_effects f)));
  own ← try_fold (try_fold (validate_owned_card f)) (owned w) (pools s);
  own ← try_fold (check_removed s f next_unopened) own (removed f);
  _ ← refuse (negb (bool_decide (own = catalog)));
  _ ← try_fold (λ _ x, check_pool s f x) tt (imap pair (zip (fifo_seats f) (pools s)));
  check_review s f reviewing next_unopened.

Definition active_phase (s : DraftSession) (f : FifoDraftState)
    : outcome DraftError (option DraftActivePhase.t) :=
  match status s with
  | DraftStatus.Drafting => Ok (Some DraftActivePhase.Drafting)
  | DraftStatus.Review => Ok (Some DraftActivePhase.Review)
  | DraftStatus.Paused => p ← ok_or (paused f) InvalidSnapshot; Ok (Some (paused_phase p))
  | _ => Ok None
  end.

(** [DraftSession::validate_fifo_snapshot] *)
Definition validate_fifo_snapshot (s : DraftSession) : outcome DraftError () :=
  let count := length (seats s) in
  _ ← validate_fifo_config (config s) count (snapshot_context DraftFlow.FifoAsync);
  _ ← refuse (negb (bool_decide (kind s = config_kind (config s)))
              || negb (bool_decide (session_set_code s = config_set_code (config s))));
  f ← fifo_ref s;
  _ ← refuse (negb (valid_draft_id (session_id f)) || (MAX_DRAFT_JSON_INTEGER <? revision f)
              || (MAX_DRAFT_JSON_INTEGER <? last_now_ms f));
  _ ← refuse (existsb (λ len, differ len count)
        [length (fifo_seats f); length (pools s); length (packs_by_seat s);
         length (current_pack s); length (current_pack_origins s); length (connected_seats s);
         length (seats_picked_this_round s)]);
  _ ← refuse (existsb is_someb (current_pack s) || existsb is_someb (current_pack_origins s)
        || existsb (λ i, SeatFlags.get (seats_picked_this_round s) (N.of_nat i))
             (seq 0 (N.to_nat (pod_size (config s))))
        || negb (pick_number s =? 0) || is_someb (shared_stack s));
  phase ← active_phase s f;
  _ ← refuse (xorb (bool_decide (status s = DraftStatus.Paused)) (is_someb (paused f)));
  if bool_decide (status s = DraftStatus.Lobby) then refuse (lobby_dirty s f)
  else validate_started s f phase.

(** [DraftSession::validate_persisted_snapshot] *)
Definition validate_persisted_snapshot (s : DraftSession) : outcome DraftError () :=
  match flow (config s) with
  | DraftFlow.FifoAsync => validate_fifo_snapshot s
  | DraftFlow.LegacyBarrier => validate_legacy_snapshot s
  end.
