(* ===== verification/PodEvent.v ===== *)
(** * The event after a draft ([crates/draft-core/src/session.rs])

    Once the decks are built, the pod of a draft plays a small tournament: pairings of
    a round ([apply_generate_pairings], Swiss or single elimination), match results
    with their corrections ([apply_report_match_result]) and the advance to the next
    round.  They are operations on the session; the random source is the class
    [PodRng]. *)
From stdpp Require Import pretty.
From S2P Require Import Prelude.
From S2P Require Import DraftTypes.
From S2P Require Export DraftAdmission.
Local Open Scope N_scope.

Abbreviation PodEvent := DraftSession.
Abbreviation Records := (gmap N DraftMatchRecord).

Definition tournament_format (e : PodEvent) : TournamentFormat.t := config_format (config e).

(** ** Match records *)
Definition fresh_record (player : N) : DraftMatchRecord :=
  {| record_player := player; wins := 0; losses := 0; draws := 0; match_wins := 0;
     match_losses := 0 |}.
(** [f(ensure_match_record(records, player))]. *)
Definition ensure_match_record (player : N) (f : DraftMatchRecord → DraftMatchRecord)
    (records : Records) : Records :=
  <[player := f (default (fresh_record player) (records !! player))]> records.

Definition won (r : DraftMatchRecord) : DraftMatchRecord :=
  {| record_player := record_player r; wins := u8_add (wins r) 1; losses := losses r;
     draws := draws r; match_wins := u8_add (match_wins r) 1; match_losses := match_losses r |}.
Definition lost (r : DraftMatchRecord) : DraftMatchRecord :=
  {| record_player := record_player r; wins := wins r; losses := u8_add (losses r) 1;
     draws := draws r; match_wins := match_wins r; match_losses := u8_add (match_losses r) 1 |}.
Definition drew (r : DraftMatchRecord) : DraftMatchRecord :=
  {| record_player := record_player r; wins := wins r; losses := losses r;
     draws := u8_add (draws r) 1; match_wins := match_wins r; match_losses := match_losses r |}.
Definition credit_bye (r : DraftMatchRecord) : DraftMatchRecord :=
  {| record_player := record_player r; wins := wins r; losses := losses r;
     draws := draws r; match_wins := u8_add (match_wins r) 1; match_losses := match_losses r |}.
(** The subtractions are [saturating_sub(1)]. *)
Definition unwon (r : DraftMatchRecord) : DraftMatchRecord :=
  {| record_player := record_player r; wins := wins r - 1; losses := losses r;
     draws := draws r; match_wins := match_wins r - 1; match_losses := match_losses r |}.
Definition unlost (r : DraftMatchRecord) : DraftMatchRecord :=
  {| record_player := record_player r; wins := wins r; losses := losses r - 1;
     draws := draws r; match_wins := match_wins r; match_losses := match_losses r - 1 |}.
Definition undrew (r : DraftMatchRecord) : DraftMatchRecord :=
  {| record_player := record_player r; wins := wins r; losses := losses r;
     draws := draws r - 1; match_wins := match_wins r; match_losses := match_losses r |}.

Definition loser_of (players : N * N) (winner_pid : N) : N :=
  if decide (players.1 = winner_pid) then players.2 else players.1.
Definition apply_match_record_result (records : Records) (players : N * N)
    (winner : option N) : Records :=
  match winner with
  | Some winner_pid =>
      ensure_match_record (loser_of players winner_pid) lost
        (ensure_match_record winner_pid won records)
  | None => ensure_match_record players.2 drew (ensure_match_record players.1 drew records)
  end.
Definition undo_match_record_result (records : Records) (players : N * N)
    (winner : option N) : Records :=
  match winner with
  | Some winner_pid =>
      alter unlost (loser_of players winner_pid) (alter unwon winner_pid records)
  | None => alter undrew players.2 (alter undrew players.1 records)
  end.

(** ** Results *)
Definition match_wins_of (records : Records) (player : N) : N :=
  match records !! player with Some r => match_wins r | None => 0 end.
Definition infer_winner_from_records (p : DraftPairing) (records : Records) : option N :=
  if negb (bool_decide (pairing_status p = PairingStatus.Complete)) then None
  else
    let w0 := match_wins_of records (players p).1 in
    let w1 := match_wins_of records (players p).2 in
    match w0 ?= w1 with
    | Gt => Some (players p).1
    | Lt => Some (players p).2
    | Eq => None
    end.
Definition result_winner (p : DraftPairing) (records : Records) : option N :=
  match winner p with
  | Some pid => Some pid
  | None => infer_winner_from_records p records
  end.
Definition set_result (w : option N) (p : DraftPairing) : DraftPairing :=
  {| round := round p; table := table p; players := players p; match_id := match_id p;
     pairing_status := PairingStatus.Complete; winner := w |}.

(** ** Seats *)
Definition seat_player_id (s : DraftSession) (seat : N) : outcome DraftError N :=
  st ← or_panic (seats s !! N.to_nat seat);
  mret (match st with Human player_id _ => player_id | Bot _ => seat end).

Fixpoint map_ok {A B} (f : A → outcome DraftError B) (l : list A) : outcome DraftError (list B) :=
  match l with
  | [] => Ok []
  | x :: l => y ← f x; ys ← map_ok f l; Ok (y :: ys)
  end.

(** ** Matching the pool without rematches *)
Section search.
Variable prior : gset (N * N).
Variable allow_rematch : bool.

(** The [for] loop over the partners of [first]: [before] are the candidates already
    passed over.  [out] is the vector the search pushes to and pops from. *)
Fixpoint try_partners (rec : list N → list (N * N) → option (bool * list (N * N)))
    (first : N) (before after : list N) (out : list (N * N)) : option (bool * list (N * N)) :=
  match after with
  | [] => Some (false, out)
  | partner :: after =>
      if negb allow_rematch && bool_decide ((first, partner) ∈ prior)
      then try_partners rec first (before ++ [partner]) after out
      else
        match rec (before ++ after) (out ++ [(first, partner)]) with
        | Some (true, out) => Some (true, out)
        | Some (false, out) => try_partners rec first (before ++ [partner]) after (removelast out)
        | None => None
        end
  end.
(** [None] when the fuel runs out; every level pairs two players, so more than the size
    of the pool is enough. *)
Fixpoint pair_pool_within (fuel : nat) (pool : list N) (out : list (N * N)) :
    option (bool * list (N * N)) :=
  match fuel with
  | O => None
  | S fuel =>
      match pool with
      | [] => Some (true, out)
      | first :: candidates => try_partners (pair_pool_within fuel) first [] candidates out
      end
  end.
Definition pair_pool_avoiding_rematches (pool : list N) : option (bool * list (N * N)) :=
  pair_pool_within (S (length pool)) pool [].
End search.

(** ** The pairings of a round *)
Definition pair_match_id (r : N) (t : nat) : string :=
  ("r" +:+ pretty r +:+ "-t" +:+ pretty (N.of_nat t))%string.
(** The pairings of round [r], table by table. *)
Definition seat_tables (r : N) (paired : list (N * N)) : list DraftPairing :=
  imap (λ t ps, {| round := r; table := wrap 8 (N.of_nat t); players := ps;
    match_id := pair_match_id r t; pairing_status := PairingStatus.Pending;
    winner := None |}) paired.

(** *** Swiss *)
Abbreviation Ranked := (N * N * N)%type (only parsing).
(** Sorted by match wins, most first; [sort_by_key] is stable, as [merge_sort] is. *)
Definition by_wins_desc (x y : Ranked) : Prop := y.1.2 <= x.1.2.
#[export] Instance by_wins_desc_dec x y : Decision (by_wins_desc x y).
Proof. unfold by_wins_desc. apply _. Defined.

Definition push_last {A} (x : A) (bs : list (list A)) : outcome DraftError (list (list A)) :=
  match bs with
  | [] => Panic
  | _ => Ok (alter (λ b, b ++ [x]) (length bs - 1)%nat bs)
  end.
Fixpoint group_by_wins (current_wins : option N) (brackets : list (list (N * N)))
    (l : list Ranked) : outcome DraftError (list (list (N * N))) :=
  match l with
  | [] => Ok brackets
  | (pid, ws, seat) :: l =>
      let fresh := bool_decide (current_wins ≠ Some ws) in
      brackets ← push_last (pid, seat) (if fresh then brackets ++ [[]] else brackets);
      group_by_wins (if fresh then Some ws else current_wins) brackets l
  end.

Definition prior_pairs (ps : list DraftPairing) : gset (N * N) :=
  list_to_set (ps ≫= λ p, [((players p).1, (players p).2); ((players p).2, (players p).1)]).

(** An even pool: without rematches if possible, else with them. *)
Definition pair_even (prior : gset (N * N)) (pool : list N) : outcome DraftError (list (N * N)) :=
  '(found, paired) ← or_panic (pair_pool_avoiding_rematches prior false pool);
  if (found : bool) then mret paired
  else
    '(_, paired) ← or_panic (pair_pool_avoiding_rematches prior true pool);
    mret paired.

(** An odd pool: the loop over the candidates for the bye, then the fallback. *)
Fixpoint find_bye (prior : gset (N * N)) (pool : list N) (idxs : list nat) :
    outcome DraftError (option (N * list (N * N))) :=
  match idxs with
  | [] => Ok None
  | idx :: idxs =>
      cand ← or_panic (pool !! idx);
      '(found, paired) ← or_panic (pair_pool_avoiding_rematches prior false (vec_remove idx pool));
      if (found : bool) then mret (Some (cand, paired)) else find_bye prior pool idxs
  end.
Definition pair_odd (prior : gset (N * N)) (pool : list N) :
    outcome DraftError (list (N * N) * N) :=
  bye ← find_bye prior pool (reverse (seq 0 (length pool)));
  match bye with
  | Some (cand, paired) => mret (paired, cand)
  | None =>
      '(cand, rest) ← or_panic (vec_pop pool);
      '(_, paired) ← or_panic (pair_pool_avoiding_rematches prior true rest);
      mret (paired, cand)
  end.
Definition pair_players (prior : gset (N * N)) (pool : list N) :
    outcome DraftError (list (N * N) * option N) :=
  if Nat.even (length pool) then paired ← pair_even prior pool; mret (paired, None)
  else '(paired, cand) ← pair_odd prior pool; mret (paired, Some cand).

(** The random source of the pairings ([ChaCha20Rng] and [shuffle] of the [rand]
    crates), and what a shuffle is relied on to do. *)
Class PodRng (Rng : Type) : Type := {
  seed_from_u64 : N → Rng;
  shuffle : list (N * N) → Rng → list (N * N) * Rng;
}.
Class PodRngShuffles (Rng : Type) `{!PodRng Rng} : Prop := {
  shuffle_perm l r : (shuffle l r).1 ≡ₚ l;
}.

Section pairings.
Context {Rng : Type} `{!PodRng Rng}.

Fixpoint shuffle_brackets (brackets : list (list (N * N))) (rng : Rng) :
    list (list (N * N)) * Rng :=
  match brackets with
  | [] => ([], rng)
  | b :: bs =>
      let '(b, rng) := shuffle b rng in
      let '(bs, rng) := shuffle_brackets bs rng in
      (b :: bs, rng)
  end.

Definition ranked_players (e : PodEvent) : outcome DraftError (list Ranked) :=
  map_ok (λ seat,
    pid ← seat_player_id e seat;
    mret (pid, match_wins_of (match_records e) pid, seat))
    (imap (λ i _, wrap 8 (N.of_nat i)) (seats e)).
Definition standings_brackets (e : PodEvent) : outcome DraftError (list (list (N * N))) :=
  ranked ← ranked_players e;
  group_by_wins None [] (merge_sort by_wins_desc ranked).

Definition generate_swiss_pairings (e : PodEvent) (r : N) (rng : Rng) :
    outcome DraftError (list DraftPairing * option N) :=
  brackets ← standings_brackets e;
  let pool := (concat (shuffle_brackets brackets rng).1).*1 in
  '(paired, bye) ← pair_players (prior_pairs (pairings e)) pool;
  mret (seat_tables r paired, bye).

(** *** Single elimination *)
Definition generate_se_pairings (e : PodEvent) (r : N) : outcome DraftError (list DraftPairing) :=
  if r =? 1 then
    let n := seat_count e in
    paired ← map_ok (λ i,
      p1 ← seat_player_id e i;
      p2 ← seat_player_id e (n - 1 - i);
      mret (p1, p2)) (N.of_nat <$> seq 0 (N.to_nat (n / 2)));
    mret (seat_tables r paired)
  else
    let prev_round := u8_sub r 1 in
    let prev_pairings := filter (λ p, round p = prev_round ∧
      pairing_status p = PairingStatus.Complete) (pairings e) in
    let winners := omap (λ p, result_winner p (match_records e)) prev_pairings in
    mret (omap id (imap (λ t chunk,
      match chunk with
      | [a; b] => Some {| round := r; table := wrap 8 (N.of_nat t); players := (a, b);
                          match_id := pair_match_id r t;
                          pairing_status := PairingStatus.Pending; winner := None |}
      | _ => None
      end) (chunks2 winners))).

(** ** The actions *)
Definition next_pairing_round (e : PodEvent) : N := u8_add (current_round e) 1.
Definition SWISS_ROUNDS : N := 3.

Definition EventM := stM PodEvent DraftError.

Definition apply_generate_pairings : EventM (list DraftDelta) :=
  e ← get;
  let refused := InvalidTransition (status e) "GeneratePairings" in
  ensure (bool_decide (status e ∈
    [DraftStatus.Deckbuilding; DraftStatus.Pairing; DraftStatus.RoundComplete])) refused;;
  let proc := procedure (kind e) in
  ensure (bool_decide (post_draft_play proc = PostDraftPlay.TournamentPairings)) refused;;
  ensure (allows_pod_size proc (tournament_format e) (seat_count e))
    (UnsupportedTournamentSize (tournament_format e)
      (allowed_pod_size_range proc (tournament_format e)).1 (seat_count e));;
  let r := next_pairing_round e in
  let rng := seed_from_u64 (N.lxor (rng_seed (config e)) (wmul 64 r 0xDEADBEEF)) in
  '(new_pairings, swiss_bye) ← lift
    match tournament_format e with
    | TournamentFormat.Swiss => generate_swiss_pairings e r rng
    | TournamentFormat.SingleElimination => ps ← generate_se_pairings e r; mret (ps, None)
    end;
  modify (λ e, set_pairings (pairings e ++ new_pairings) e);;
  modify (λ e, match swiss_bye with
               | Some bye =>
                   set_match_records (ensure_match_record bye credit_bye (match_records e)) e
               | None => e
               end);;
  modify (set_status DraftStatus.MatchInProgress);;
  modify (set_current_round r);;
  mret [PairingsGenerated r; TransitionedTo DraftStatus.MatchInProgress].

(** The seat named as the winner, checked against the pod and the pairing. *)
Definition reported_winner (e : PodEvent) (mid : string) (ps : N * N) (winner_seat : option N) :
    outcome DraftError (option N) :=
  match winner_seat with
  | None => mret None
  | Some seat =>
      let n := seat_count e in
      if n <=? seat then Err (SeatOutOfRange seat n)
      else
        pid ← seat_player_id e seat;
        if decide (pid = ps.1 ∨ pid = ps.2) then mret (Some pid)
        else Err (SeatNotInPairing seat mid)
  end.

(** The pairings of the current round are all complete. *)
Definition in_round (r : N) (ps : list DraftPairing) : list DraftPairing :=
  filter (λ p, round p = r) ps.
Definition round_done (r : N) (ps : list DraftPairing) : bool :=
  forallb (λ p, bool_decide (pairing_status p = PairingStatus.Complete)) (in_round r ps).
Definition tournament_over (f : TournamentFormat.t) (r : N) (ps : list DraftPairing) : bool :=
  match f with
  | TournamentFormat.Swiss => SWISS_ROUNDS <=? r
  | TournamentFormat.SingleElimination => (length (in_round r ps) =? 1)%nat
  end.

Definition apply_report_match_result (mid : string) (winner_seat : option N) :
    EventM (list DraftDelta) :=
  e ← get;
  ensure (bool_decide (status e ∈
    [DraftStatus.MatchInProgress; DraftStatus.RoundComplete]))
    (InvalidTransition (status e) "ReportMatchResult");;
  idx ← lift (ok_or (position (λ p, String.eqb (match_id p) mid) (pairings e))
                (PairingNotFound mid));
  p ← lift (or_panic (pairings e !! idx));
  ensure (round p =? current_round e) (PairingNotInCurrentRound mid (current_round e));;
  ensure (negb (bool_decide (tournament_format e = TournamentFormat.SingleElimination)
                && bool_decide (winner_seat = None))) (MatchWinnerRequired mid);;
  let previous_winner := result_winner p (match_records e) in
  winner_pid ← lift (reported_winner e mid (players p) winner_seat);
  modify (λ e,
    if bool_decide (pairing_status p = PairingStatus.Complete)
    then set_match_records
           (undo_match_record_result (match_records e) (players p) previous_winner) e
    else e);;
  modify (λ e, set_pairings (<[idx := set_result winner_pid p]> (pairings e)) e);;
  modify (λ e, set_match_records
    (apply_match_record_result (match_records e) (players p) winner_pid) e);;
  e ← get;
  let recorded := MatchResultRecorded mid winner_seat in
  if round_done (current_round e) (pairings e) then
    let st := if tournament_over (tournament_format e) (current_round e) (pairings e)
              then DraftStatus.Complete else DraftStatus.RoundComplete in
    modify (set_status st);;
    mret [recorded; TransitionedTo st]
  else mret [recorded].

Definition apply_advance_round : EventM (list DraftDelta) :=
  e ← get;
  ensure (bool_decide (status e = DraftStatus.RoundComplete))
    (InvalidTransition (status e) "AdvanceRound");;
  let new_round := next_pairing_round e in
  modify (set_status DraftStatus.Pairing);;
  mret [RoundAdvanced new_round].

(** The actions of the event, as [apply] dispatches them. *)
Inductive event_action :=
  | GeneratePairings
  | ReportMatchResult (mid : string) (winner_seat : option N)
  | AdvanceRound.
Definition apply_event_action (a : event_action) : EventM (list DraftDelta) :=
  match a with
  | GeneratePairings => apply_generate_pairings
  | ReportMatchResult mid winner_seat => apply_report_match_result mid winner_seat
  | AdvanceRound => apply_advance_round
  end.
Definition apply_event (a : event_action) : EventM (list DraftDelta) :=
  e ← get;
  ensure (negb (bool_decide (flow (config e) = DraftFlow.FifoAsync)))
    ExplicitTimeRequired;;
  lift (validate_legacy_admission e);;
  apply_event_action a.
End pairings.
