(* ===== verification/PodMatching.v ===== *)
(** * Pairing a pod without rematches

    The backtracking search of [PodEvent.pair_pool_avoiding_rematches] finds a pairing
    of the whole pool without rematches exactly when there is one; a Swiss round pairs
    every player of the pod, in standings order, and repeats a match or moves the bye up
    only when nothing else is possible.  And no action of the event panics, whatever the
    session. *)
From S2P Require Import Prelude.
From S2P Require Import DraftTypes.
From S2P Require Import PodEvent.
Local Open Scope nat_scope.

(** ** Pairings of a pool *)
Definition flat (M : list (N * N)) : list N := M ≫= λ p, [p.1; p.2].
(** [M] seats every player of the pool once. *)
Definition pairs_up (pool : list N) (M : list (N * N)) : Prop := flat M ≡ₚ pool.
Definition rematch_free (prior : gset (N * N)) (M : list (N * N)) : Prop :=
  Forall (λ p, p ∉ prior) M.
Definition both_ways (prior : gset (N * N)) : Prop :=
  ∀ a b, (a, b) ∈ prior → (b, a) ∈ prior.

Lemma flat_pairs_app M M' : flat (M ++ M') = flat M ++ flat M'.
Proof. apply bind_app. Qed.
Lemma length_flat M : length (flat M) = 2 * length M.
Proof. induction M as [|p M IH]; [done|]. cbn. unfold flat in IH. rewrite IH. lia. Qed.
#[export] Instance flat_proper : Proper ((≡ₚ) ==> (≡ₚ)) flat.
Proof. intros M M' HM. unfold flat. by rewrite HM. Qed.

Lemma pairs_up_nil : pairs_up [] [].
Proof. exact (Permutation_refl []). Qed.

(** Whoever is first in the pool has a partner in any pairing of it. *)
Lemma pairs_up_first first candidates M :
  pairs_up (first :: candidates) M →
  ∃ x p M', M ≡ₚ p :: M' ∧ (p = (first, x) ∨ p = (x, first)) ∧ x :: flat M' ≡ₚ candidates.
Proof.
  intros HM. assert (first ∈ flat M) as Hin by (rewrite HM; left).
  apply list_elem_of_bind in Hin as ([a b]&Hin&HM'). apply elem_of_Permutation in HM' as [M' HM'].
  unfold pairs_up in HM. rewrite HM' in HM. cbn in HM. fold (flat M') in HM.
  cbn in Hin. rewrite !elem_of_cons, elem_of_nil in Hin. destruct Hin as [<-|[<-|[]]].
  - exists b, (first, b), M'. split; [done|]. split; [by left|]. by eapply Permutation_cons_inv.
  - exists a, (a, first), M'. split; [done|]. split; [by right|].
    eapply (Permutation_cons_inv (a := first)). rewrite <-HM. apply Permutation_swap.
Qed.

(** ** The search *)
Section search.
Context (prior : gset (N * N)) (allow : bool).
Hypothesis prior_sym : both_ways prior.

(** What the search accepts. *)
Definition acceptable (M : list (N * N)) : Prop := allow = true ∨ rematch_free prior M.
Definition outcome_of (pool : list N) (out : list (N * N)) (res : bool * list (N * N)) : Prop :=
  if res.1 then ∃ M, res.2 = out ++ M ∧ pairs_up pool M ∧ acceptable M
  else res.2 = out ∧ ∀ M, pairs_up pool M → ¬ acceptable M.

Lemma acceptable_cons p M : acceptable (p :: M) ↔ (allow = true ∨ p ∉ prior) ∧ acceptable M.
Proof.
  unfold acceptable, rematch_free. rewrite Forall_cons. destruct allow; naive_solver.
Qed.
#[local] Instance acceptable_proper : Proper ((≡ₚ) ==> iff) acceptable.
Proof. intros M M' HM. unfold acceptable, rematch_free. by rewrite HM. Qed.
Lemma swap_acceptable a b : (allow = true ∨ (a, b) ∉ prior) → (allow = true ∨ (b, a) ∉ prior).
Proof. intros [?|H]; [by left|right]. intros ?. by apply H, prior_sym. Qed.
Lemma skip_partner first partner :
  negb allow && bool_decide ((first, partner) ∈ prior) = false ↔
  allow = true ∨ (first, partner) ∉ prior.
Proof.
  destruct allow; simpl; [by split; [left|]|]. rewrite bool_decide_eq_false. naive_solver.
Qed.

(** The loop: it stops at the first partner the rest can be paired without; when it gives
    up, no partner it has tried allows a pairing of the rest. *)
Lemma try_partners_spec rec first after : ∀ before out,
  (∀ pool out, length pool < length (before ++ after) →
     ∃ res, rec pool out = Some res ∧ outcome_of pool out res) →
  ∃ res, try_partners prior allow rec first before after out = Some res ∧
    if res.1 then ∃ M, res.2 = out ++ M ∧ pairs_up (first :: before ++ after) M ∧ acceptable M
    else res.2 = out ∧ ∀ pre partner post M, after = pre ++ partner :: post →
           pairs_up (before ++ pre ++ post) M → ¬ acceptable ((first, partner) :: M).
Proof.
  induction after as [|partner after IH]; intros before out Hrec.
  { exists (false, out). split; [done|]. split; [done|]. by intros [|??]. }
  assert (∀ out, ∃ res,
    try_partners prior allow rec first (before ++ [partner]) after out = Some res ∧
    if res.1 then ∃ M, res.2 = out ++ M ∧
      pairs_up (first :: before ++ partner :: after) M ∧ acceptable M
    else res.2 = out ∧ ∀ pre x post M, after = pre ++ x :: post →
      pairs_up (before ++ (partner :: pre) ++ post) M → ¬ acceptable ((first, x) :: M))
    as Hskip.
  { intros out'. destruct (IH (before ++ [partner]) out') as (res&Hres&Hout).
    { intros pool out'' Hp. apply Hrec. rewrite length_app in *. simpl in *.
      rewrite length_app in Hp. simpl in Hp. lia. }
    exists res. split; [done|]. destruct res.1.
    - destruct Hout as (M&?&HM&?). exists M. by rewrite <-app_assoc in HM.
    - split; [by apply Hout|]. intros pre x post M Hafter HM. apply Hout with pre post; [done|].
      by rewrite <-app_assoc. }
  cbn [try_partners].
  destruct (negb allow && bool_decide ((first, partner) ∈ prior)) eqn:Hpr.
  - destruct (Hskip out) as (res&->&Hout). exists res. split; [done|].
    destruct res.1; [done|]. destruct Hout as [-> Hno]. split; [done|].
    intros [|y pre] x post M Hafter HM; simplify_eq/=; [|by eapply Hno].
    rewrite acceptable_cons, <-skip_partner, Hpr. by intros [??].
  - destruct (Hrec (before ++ after) (out ++ [(first, partner)])) as ([b out']&->&Hout).
    { rewrite !length_app. simpl. lia. }
    apply skip_partner in Hpr. unfold outcome_of in Hout. destruct b; simpl in Hout.
    + destruct Hout as (M&->&HM&Hacc). exists (true, (out ++ [(first, partner)]) ++ M).
      split; [done|]. exists ((first, partner) :: M). rewrite <-app_assoc. split; [done|].
      split; [|by apply acceptable_cons]. unfold pairs_up in *. cbn. fold (flat M).
      rewrite HM. by rewrite Permutation_middle.
    + destruct Hout as [-> Hno]. rewrite removelast_last.
      destruct (Hskip out) as (res&->&Hout). exists res. split; [done|].
      destruct res.1; [done|]. destruct Hout as [-> Hno']. split; [done|].
      intros [|y pre] x post M Hafter HM; simplify_eq/=; [|by eapply Hno'].
      rewrite acceptable_cons. intros [_ ?]. by eapply Hno.
Qed.

Lemma pair_pool_within_spec fuel : ∀ pool out, length pool < fuel →
  ∃ res, pair_pool_within prior allow fuel pool out = Some res ∧ outcome_of pool out res.
Proof.
  induction fuel as [|fuel IH]; intros pool out Hlen; [lia|].
  destruct pool as [|first candidates]; cbn [pair_pool_within].
  { exists (true, out). split; [done|]. exists []. rewrite app_nil_r. split; [done|].
    split; [apply pairs_up_nil|]. right. by constructor. }
  simpl in Hlen.
  destruct (try_partners_spec (pair_pool_within prior allow fuel) first candidates [] out)
    as (res&->&Hout).
  { intros pool out' Hp. apply IH. simpl in Hp. lia. }
  exists res. split; [done|]. unfold outcome_of. destruct res.1; [done|].
  destruct Hout as [-> Hno]. split; [done|]. intros M HM Hacc.
  destruct (pairs_up_first first candidates M HM) as (x&p&M'&HM'&Hp&Hx).
  assert (x ∈ candidates) as (pre&post&->)%list_elem_of_split by (rewrite <-Hx; left).
  apply (Hno pre x post M' eq_refl).
  - unfold pairs_up. simpl. apply (Permutation_cons_inv (a := x)). rewrite Hx.
    by rewrite Permutation_middle.
  - rewrite HM', acceptable_cons in Hacc. apply acceptable_cons. destruct Hacc as [Hpr ?].
    split; [|done]. destruct Hp as [->| ->]; [done|by apply swap_acceptable].
Qed.
End search.

(** What the search answers. *)
Lemma pair_search prior allow pool : both_ways prior →
  ∃ b M, pair_pool_avoiding_rematches prior allow pool = Some (b, M) ∧
    if (b : bool) then pairs_up pool M ∧ acceptable prior allow M
    else ∀ M, pairs_up pool M → ¬ acceptable prior allow M.
Proof.
  intros Hsym.
  destruct (pair_pool_within_spec prior allow Hsym (S (length pool)) pool []) as ([b M]&Heq&Hout);
    [lia|].
  exists b, M. split; [done|]. unfold outcome_of in Hout. destruct b; simpl in Hout.
  - by destruct Hout as (M'&->&?).
  - apply Hout.
Qed.
Lemma acceptable_true prior M : acceptable prior true M.
Proof. by left. Qed.
Lemma acceptable_false prior M : acceptable prior false M ↔ rematch_free prior M.
Proof. unfold acceptable. split; [by intros [?|?]|by right]. Qed.

Lemma even_pairs_up n : ∀ pool : list N, length pool = 2 * n → ∃ M, pairs_up pool M.
Proof.
  induction n as [|n IH]; intros pool Hn.
  { destruct pool; [|done]. exists []. apply pairs_up_nil. }
  destruct pool as [|x [|y pool]]; simpl in Hn; [lia..|].
  destruct (IH pool ltac:(lia)) as [M HM]. exists ((x, y) :: M).
  unfold pairs_up in *. cbn. fold (flat M). by rewrite HM.
Qed.
Lemma pairs_up_even pool M : pairs_up pool M → Nat.even (length pool) = true.
Proof.
  intros HM. unfold pairs_up in HM. rewrite <-HM, length_flat. rewrite Nat.even_mul. done.
Qed.

(** With rematches allowed an even pool can always be paired. *)
Lemma pair_rematches prior pool : both_ways prior → Nat.even (length pool) = true →
  ∃ M, pair_pool_avoiding_rematches prior true pool = Some (true, M) ∧ pairs_up pool M.
Proof.
  intros Hsym [n Hn]%Nat.even_spec.
  destruct (pair_search prior true pool Hsym) as ([|]&M&->&Hout).
  - exists M. split; [done|apply Hout].
  - destruct (even_pairs_up n pool Hn) as [M' HM']. by destruct (Hout M' HM' (acceptable_true _ _)).
Qed.

(** ** The players of a round *)

(** No rematch unless every pairing of an even pool has one; in an odd pool the bye goes
    as far down as the rest can be paired without rematches, and to the last with
    rematches only when nobody's bye would avoid them. *)
Definition pool_paired (prior : gset (N * N)) (pool : list N) (M : list (N * N))
    (bye : option N) : Prop :=
  match bye with
  | None =>
      pairs_up pool M ∧ ∀ M', pairs_up pool M' → rematch_free prior M' → rematch_free prior M
  | Some cand =>
      ∃ i, pool !! i = Some cand ∧ pairs_up (vec_remove i pool) M ∧
        (rematch_free prior M ∨ i = length pool - 1) ∧
        ∀ j M', (if decide (rematch_free prior M) then i < j else True) →
          j < length pool → pairs_up (vec_remove j pool) M' → ¬ rematch_free prior M'
  end.

Lemma pair_even_spec prior pool : both_ways prior → Nat.even (length pool) = true →
  ∃ M, pair_even prior pool = Ok M ∧ pool_paired prior pool M None.
Proof.
  intros Hsym Heven. unfold pair_even.
  destruct (pair_search prior false pool Hsym) as ([|]&M&->&Hout); simpl.
  - exists M. split; [done|]. destruct Hout as [? Hfree%acceptable_false]. by split.
  - destruct (pair_rematches prior pool Hsym Heven) as (M'&->&HM'). exists M'. split; [done|].
    split; [done|]. intros M'' HM'' Hfree. exfalso. apply (Hout M'' HM''). by apply acceptable_false.
Qed.

Lemma find_bye_spec prior pool idxs : both_ways prior →
  Forall (λ i, i < length pool) idxs →
  ∃ res, find_bye prior pool idxs = Ok res ∧
    match res with
    | Some (cand, M) => ∃ pre i post, idxs = pre ++ i :: post ∧ pool !! i = Some cand ∧
        pairs_up (vec_remove i pool) M ∧ rematch_free prior M ∧
        ∀ j M', j ∈ pre → pairs_up (vec_remove j pool) M' → ¬ rematch_free prior M'
    | None => ∀ j M', j ∈ idxs → pairs_up (vec_remove j pool) M' → ¬ rematch_free prior M'
    end.
Proof.
  intros Hsym. induction idxs as [|i idxs IH]; intros Hlt.
  { exists None. split; [done|]. by intros j M' ?%elem_of_nil. }
  inversion Hlt as [|? ? Hi Hlt']; subst. cbn [find_bye].
  destruct (lookup_lt_is_Some_2 pool i Hi) as [cand Hc]. rewrite Hc. cbn [or_panic mbind outcome_bind].
  destruct (pair_search prior false (vec_remove i pool) Hsym) as ([|]&M&->&Hout);
    cbn [or_panic mbind outcome_bind].
  - exists (Some (cand, M)). split; [done|]. exists [], i, idxs.
    destruct Hout as [? ?%acceptable_false]. split_and!; try done. by intros j M' ?%elem_of_nil.
  - assert (∀ M', pairs_up (vec_remove i pool) M' → ¬ rematch_free prior M') as Hno.
    { intros M' HM' Hf. apply (Hout M' HM'). by apply acceptable_false. }
    destruct (IH Hlt') as (res&->&Hres). exists res. split; [done|].
    destruct res as [[cand' M']|].
    + destruct Hres as (pre&i'&post&->&?&?&?&Hpre). exists (i :: pre), i', post.
      split_and!; try done. intros j M'' [->|Hj]%elem_of_cons; [apply Hno|by apply Hpre].
    + intros j M'' [->|Hj]%elem_of_cons; [apply Hno|by apply Hres].
Qed.

Lemma pair_odd_spec prior pool : both_ways prior → Nat.even (length pool) = false →
  ∃ M cand, pair_odd prior pool = Ok (M, cand) ∧ pool_paired prior pool M (Some cand).
Proof.
  intros Hsym Hodd. unfold pair_odd.
  destruct (find_bye_spec prior pool (reverse (seq 0 (length pool))) Hsym) as (res&->&Hres).
  { apply Forall_reverse, Forall_seq. lia. }
  cbn [mbind outcome_bind]. destruct res as [[cand M]|].
  - destruct Hres as (pre&i&post&Hidx&Hc&HM&Hfree&Hpre). exists M, cand. split; [done|].
    exists i. split_and!; [done..|by left|]. intros j M' Hj Hlt HM'. rewrite decide_True in Hj by done.
    apply (Hpre j M'); [|done]. assert (j ∈ reverse (seq 0 (length pool))) as Hin.
    { rewrite elem_of_reverse, elem_of_seq. lia. }
    rewrite Hidx in Hin. apply elem_of_app in Hin as [?|[->|Hpost]%elem_of_cons]; [done|lia|].
    exfalso. apply (f_equal reverse) in Hidx. rewrite reverse_involutive, reverse_app, reverse_cons in Hidx.
    apply elem_of_reverse, list_elem_of_lookup in Hpost as [k Hk].
    pose proof (lookup_lt_Some _ _ _ Hk) as Hkl.
    assert (seq 0 (length pool) !! k = Some j) as Hj1 by (rewrite Hidx, <-app_assoc; by apply lookup_app_l_Some).
    assert (seq 0 (length pool) !! length (reverse post) = Some i) as Hj2.
    { rewrite Hidx, <-app_assoc. by apply list_lookup_middle. }
    apply lookup_seq in Hj1 as [-> _], Hj2 as [-> _]. lia.
  - destruct (vec_pop_last pool) as [->|(rest&cand&->)]; [done|]. rewrite vec_pop_snoc.
    cbn [or_panic mbind outcome_bind].
    destruct (pair_rematches prior rest Hsym) as (M&->&HM).
    { rewrite length_app, Nat.add_1_r, Nat.even_succ in Hodd. rewrite <-Nat.negb_odd. by rewrite Hodd. }
    exists M, cand. split; [done|]. exists (length rest). rewrite length_app. simpl.
    split_and!; [by apply list_lookup_middle| |right; lia|].
    + unfold vec_remove. rewrite take_app_length, drop_ge by (rewrite length_app; simpl; lia).
      by rewrite app_nil_r.
    + intros j M' _ Hj HM'. apply (Hres j M'); [|done].
      rewrite elem_of_reverse, elem_of_seq, length_app. simpl. lia.
Qed.

Lemma pair_players_spec prior pool : both_ways prior →
  ∃ M bye, pair_players prior pool = Ok (M, bye) ∧ pool_paired prior pool M bye ∧
    (bye = None ↔ Nat.even (length pool) = true).
Proof.
  intros Hsym. unfold pair_players. destruct (Nat.even (length pool)) eqn:Heven.
  - destruct (pair_even_spec prior pool Hsym Heven) as (M&->&HM). by exists M, None.
  - destruct (pair_odd_spec prior pool Hsym Heven) as (M&cand&->&HM). by exists M, (Some cand).
Qed.

Lemma pool_paired_seats prior pool M bye :
  pool_paired prior pool M bye → flat M ++ option_list bye ≡ₚ pool.
Proof.
  destruct bye as [cand|]; simpl.
  - intros (i&Hc&HM&_). rewrite HM, Permutation_app_comm. simpl.
    symmetry. by apply vec_remove_perm.
  - intros [HM _]. by rewrite app_nil_r.
Qed.

(** ** The standings order *)
Definition ids (e : PodEvent) : list N :=
  imap (λ i st, match st with Human pid _ => pid | Bot _ => N.of_nat i end) (seats e).
Definition wins_of (e : PodEvent) (pid : N) : N := match_wins_of (match_records e) pid.
Definition ahead (e : PodEvent) (a b : N) : Prop := (wins_of e b <= wins_of e a)%N.

Lemma length_ids e : length (ids e) = length (seats e).
Proof. apply length_imap. Qed.
Lemma seat_player_id_ok e i pid :
  ids e !! i = Some pid → seat_player_id e (N.of_nat i) = Ok pid.
Proof.
  unfold ids. rewrite list_lookup_imap. unfold seat_player_id. rewrite Nat2N.id.
  destruct (seats e !! i) as [st|]; [|done]. intros [= <-]. by destruct st.
Qed.
Lemma map_ok_Ok {A B} (f : A → outcome DraftError B) l ys :
  Forall2 (λ x y, f x = Ok y) l ys → map_ok f l = Ok ys.
Proof. induction 1 as [|x y l ys Hxy _ IH]; [done|]. simpl. by rewrite Hxy, IH. Qed.

Section ranking.
Context (e : PodEvent).
Hypothesis small : length (seats e) < 256.

Definition rank (i : nat) (pid : N) : N * N * N := (pid, wins_of e pid, N.of_nat i).
Lemma ranked_players_ok : ranked_players e = Ok (imap rank (ids e)).
Proof.
  apply map_ok_Ok, Forall2_same_length_lookup_2.
  { by rewrite !length_imap, length_ids. }
  intros i x y. rewrite !list_lookup_imap. intros (st&Hst&->)%fmap_Some.
  intros (pid&Hpid&->)%fmap_Some. apply lookup_lt_Some in Hst.
  rewrite wrap_small by (change (2 ^ 8)%N with 256%N; lia).
  by rewrite (seat_player_id_ok e i pid Hpid).
Qed.

(** Every bracket is level, and nobody in a later one has more wins. *)
Definition level (b : list (N * N)) : Prop := ∀ x y, x ∈ b → y ∈ b → wins_of e x.1 = wins_of e y.1.
Definition above (b b' : list (N * N)) : Prop := ∀ x y, x ∈ b → y ∈ b' → ahead e x.1 y.1.
Definition bracketed (bs : list (list (N * N))) : Prop := Forall level bs ∧ StronglySorted above bs.

Lemma push_last_snoc {A} (x : A) bs b : push_last x (bs ++ [b]) = Ok (bs ++ [b ++ [x]]).
Proof.
  unfold push_last. destruct (bs ++ [b]) eqn:E; [by destruct bs|]. rewrite <-E.
  f_equal. rewrite length_app. simpl. rewrite Nat.add_sub. by rewrite alter_app_r_alt, Nat.sub_diag by lia.
Qed.

Lemma bracketed_snoc bs b :
  bracketed (bs ++ [b]) ↔ bracketed bs ∧ level b ∧ ∀ b', b' ∈ bs → above b' b.
Proof.
  unfold bracketed. rewrite Forall_app, StronglySorted_app, Forall_singleton.
  setoid_rewrite list_elem_of_singleton.
  assert (StronglySorted above [b]) by by repeat constructor. naive_solver.
Qed.

(** The wins recorded in the ranked list are those of the records. *)
Definition graded (x : N * N * N) : Prop := x.1.2 = wins_of e x.1.1.
Lemma group_by_wins_spec l : ∀ bs b w,
  Forall graded l → Sorted by_wins_desc l → Forall (λ x, (x.1.2 <= w)%N) l →
  bracketed (bs ++ [b]) → (∀ x, x ∈ b → wins_of e x.1 = w) → (∀ b', b' ∈ bs → ∀ x, x ∈ b' → (w <= wins_of e x.1)%N) →
  ∃ bs', group_by_wins (Some w) (bs ++ [b]) l = Ok bs' ∧ bracketed bs' ∧
    concat bs' = concat (bs ++ [b]) ++ ((λ x, (x.1.1, x.2)) <$> l).
Proof.
  induction l as [|[[pid ws] seat] l IH]; intros bs b w Hg Hsort Hle Hbr Hb Hbs.
  { eexists. split; [done|]. by rewrite app_nil_r. }
  apply Forall_cons in Hg as [Hws Hg'], Hle as [Hw Hle'].
  unfold graded in Hws. simpl in Hws, Hw.
  apply Sorted_StronglySorted in Hsort; [|unfold by_wins_desc; intros ????; lia].
  apply StronglySorted_cons in Hsort as [Htop Hsort'].
  assert (Sorted by_wins_desc l) as Hsl by by apply StronglySorted_Sorted.
  assert (Forall (λ x, (x.1.2 <= ws)%N) l) as Hwl by exact Htop.
  cbn [group_by_wins].
  destruct (bool_decide (Some w ≠ Some ws)) eqn:Hfresh; breflect.
  - rewrite push_last_snoc. cbn [mbind outcome_bind app].
    assert (w ≠ ws) by congruence.
    destruct (IH (bs ++ [b]) [(pid, seat)] ws) as (bs'&->&?&Hc); try done.
    + apply bracketed_snoc. split; [done|]. split.
      { by intros x y ->%list_elem_of_singleton ->%list_elem_of_singleton. }
      intros b' Hb' x y Hx ->%list_elem_of_singleton. unfold ahead. simpl. rewrite <-Hws.
      apply elem_of_app in Hb' as [Hb'| ->%list_elem_of_singleton].
      * specialize (Hbs b' Hb' x Hx). lia.
      * specialize (Hb x Hx). lia.
    + by intros x ->%list_elem_of_singleton.
    + intros b' [Hb'| ->%list_elem_of_singleton]%elem_of_app x Hx.
      * specialize (Hbs b' Hb' x Hx). lia.
      * specialize (Hb x Hx). lia.
    + exists bs'. split_and!; [done..|]. rewrite Hc, fmap_cons, concat_app. simpl.
      by rewrite <-app_assoc.
  - apply dec_stable in Hfresh. injection Hfresh as ->. rewrite push_last_snoc. cbn [mbind outcome_bind].
    apply bracketed_snoc in Hbr as (Hbr&Hlev&Habove).
    assert (∀ x, x ∈ b ++ [(pid, seat)] → wins_of e x.1 = ws) as Hall.
    { intros x [Hx| ->%list_elem_of_singleton]%elem_of_app; [by apply Hb|done]. }
    destruct (IH bs (b ++ [(pid, seat)]) ws) as (bs'&->&?&Hc); try done.
    + apply bracketed_snoc. split; [done|]. split.
      { intros x y Hx Hy. by rewrite !Hall. }
      intros b' Hb' x y Hx Hy. unfold ahead. rewrite (Hall y Hy). by apply Hbs with b'.
    + exists bs'. split_and!; [done..|]. rewrite Hc, fmap_cons, !concat_app. simpl.
      rewrite !app_nil_r. by rewrite <-!app_assoc.
Qed.

Lemma standings_brackets_ok :
  ∃ bs, standings_brackets e = Ok bs ∧ bracketed bs ∧ (concat bs).*1 ≡ₚ ids e.
Proof.
  unfold standings_brackets. rewrite ranked_players_ok. cbn [mbind outcome_bind].
  set (l := merge_sort by_wins_desc (imap rank (ids e))).
  assert (l ≡ₚ imap rank (ids e)) as Hl by apply merge_sort_Permutation.
  assert (Sorted by_wins_desc l) as Hs.
  { apply Sorted_merge_sort. intros x y. unfold by_wins_desc. lia. }
  assert (Forall graded l) as Hg.
  { rewrite Hl. apply Forall_lookup_2. intros i x. rewrite list_lookup_imap.
    by intros (pid&_&->)%fmap_Some. }
  assert ((λ x : N * N * N, x.1.1) <$> l ≡ₚ ids e) as Hids.
  { rewrite Hl, fmap_imap. apply reflexive_eq, list_eq. intros i.
    rewrite list_lookup_imap. unfold compose, rank. simpl. by destruct (ids e !! i). }
  clearbody l. destruct l as [|[[pid ws] seat] l].
  { exists []. split; [done|]. split; [by split; constructor|]. done. }
  apply Forall_cons in Hg as [Hws Hg']. unfold graded in Hws. simpl in Hws.
  cbn [group_by_wins]. rewrite bool_decide_eq_true_2 by done.
  change ([] ++ [[]]) with ([] ++ [@nil (N * N)]). rewrite push_last_snoc. cbn [mbind outcome_bind app].
  apply Sorted_StronglySorted in Hs; [|unfold by_wins_desc; intros ????; lia].
  apply StronglySorted_cons in Hs as [Htop Hs'].
  destruct (group_by_wins_spec l [] [(pid, seat)] (wins_of e pid)) as (bs'&Heq&?&Hc);
    [done|..].
  - by apply StronglySorted_Sorted.
  - rewrite <-Hws. exact Htop.
  - split; [|by repeat constructor]. repeat constructor.
    by intros x y ->%list_elem_of_singleton ->%list_elem_of_singleton.
  - by intros x ->%list_elem_of_singleton.
  - by intros ? ?%elem_of_nil.
  - exists bs'. rewrite Hws. split; [exact Heq|]. split; [done|]. rewrite Hc. simpl.
    rewrite <-list_fmap_compose. exact Hids.
Qed.
End ranking.

(** ** A Swiss round *)
Section rounds.
Context {Rng : Type} `{!PodRng Rng} `{!PodRngShuffles Rng}.

Lemma shuffle_brackets_perm bs (rng : Rng) : Forall2 (≡ₚ) (shuffle_brackets bs rng).1 bs.
Proof.
  revert rng. induction bs as [|b bs IH]; intros rng; [by constructor|]. cbn.
  pose proof (shuffle_perm b rng). destruct (shuffle b rng) as [b' rng'].
  specialize (IH rng'). destruct (shuffle_brackets bs rng') as [bs' rng'']. by constructor.
Qed.

(** Brackets in order, whatever the order inside them, are a pool in standings order. *)
Lemma bracketed_sorted e bs bs' :
  bracketed e bs → Forall2 (≡ₚ) bs' bs → StronglySorted (ahead e) (concat bs').*1.
Proof.
  intros [Hlev Hab] Hp. induction Hp as [|b' b bs' bs Hb Hp IH]; [constructor|].
  apply Forall_cons in Hlev as [Hl Hlev]. apply StronglySorted_cons in Hab as [Ha Hab].
  cbn [concat]. rewrite fmap_app, StronglySorted_app. split_and!.
  - intros x1 x2 (x&->&Hx)%list_elem_of_fmap (y&->&Hy)%list_elem_of_fmap.
    rewrite Hb in Hx. rewrite list_elem_of_In, in_concat in Hy. setoid_rewrite <-list_elem_of_In in Hy.
    destruct Hy as (c'&Hc'&Hy). apply list_elem_of_lookup in Hc' as [i Hc'].
    destruct (Forall2_lookup_l _ _ _ _ _ Hp Hc') as (c&Hc&Hcc). rewrite Hcc in Hy.
    rewrite Forall_forall in Ha. apply (Ha c); [by eapply list_elem_of_lookup_2|done..].
  - assert (∀ x y, x ∈ b' → y ∈ b' → wins_of e x.1 = wins_of e y.1) as Hl'.
    { intros x y. rewrite Hb. apply Hl. }
    clear -Hl'. induction b' as [|x b' IH]; [constructor|]. simpl. constructor.
    + apply IH. intros y z ??. apply Hl'; by right.
    + apply Forall_forall. intros ? (y&->&Hy)%list_elem_of_fmap. unfold ahead.
      rewrite (Hl' x y); [done|left|by right].
  - by apply IH.
Qed.

Definition met (ps : list DraftPairing) (a b : N) : Prop :=
  ∃ p, p ∈ ps ∧ (players p = (a, b) ∨ players p = (b, a)).
Lemma prior_pairs_met ps a b : (a, b) ∈ prior_pairs ps ↔ met ps a b.
Proof.
  unfold prior_pairs, met. rewrite elem_of_list_to_set, list_elem_of_bind. split.
  - intros (p&Hin&Hp). exists p. split; [done|]. destruct (players p) as [x y]; simpl in *.
    rewrite !elem_of_cons, elem_of_nil in Hin. destruct Hin as [[= -> ->]|[[= -> ->]|[]]]; auto.
  - intros (p&Hp&Hx). exists p. split; [|done]. rewrite !elem_of_cons.
    destruct Hx as [->| ->]; auto.
Qed.
Lemma prior_pairs_sym ps : both_ways (prior_pairs ps).
Proof. intros a b. rewrite !prior_pairs_met. unfold met. naive_solver. Qed.

(** The tables of a round are numbered, and all open. *)
Definition numbered (r : N) (ps : list DraftPairing) : Prop :=
  ∀ t p, ps !! t = Some p → round p = r ∧ table p = wrap 8 (N.of_nat t) ∧
    match_id p = pair_match_id r t ∧ pairing_status p = PairingStatus.Pending ∧ winner p = None.
Lemma seat_tables_players r M : players <$> seat_tables r M = M.
Proof.
  unfold seat_tables. apply list_eq. intros i. rewrite list_lookup_fmap, list_lookup_imap.
  by destruct (M !! i).
Qed.
Lemma seat_tables_numbered r M : numbered r (seat_tables r M).
Proof.
  intros t p. unfold seat_tables. rewrite list_lookup_imap. by intros (ps&_&->)%fmap_Some.
Qed.

Lemma generate_swiss_ok e r (rng : Rng) : length (seats e) < 256 →
  ∃ M bye pool, generate_swiss_pairings e r rng = Ok (seat_tables r M, bye) ∧
    pool ≡ₚ ids e ∧ StronglySorted (ahead e) pool ∧
    pool_paired (prior_pairs (pairings e)) pool M bye ∧
    (bye = None ↔ Nat.even (length pool) = true).
Proof.
  intros Hsmall. unfold generate_swiss_pairings.
  destruct (standings_brackets_ok e Hsmall) as (bs&->&Hbr&Hids). cbn [mbind outcome_bind].
  pose proof (shuffle_brackets_perm bs rng) as Hp.
  set (pool := (concat (shuffle_brackets bs rng).1).*1).
  destruct (pair_players_spec (prior_pairs (pairings e)) pool (prior_pairs_sym _))
    as (M&bye&->&HM&Hbye). cbn [mbind outcome_bind].
  exists M, bye, pool. split; [done|]. split_and!; try done.
  - rewrite <-Hids. unfold pool. apply fmap_Permutation.
    clear -Hp. induction Hp as [|b' b bs' bs Hb _ IH]; [done|]. cbn. by rewrite Hb, IH.
  - by eapply bracketed_sorted.
Qed.
End rounds.

(** C32. The search for a pairing without rematches is complete: it always ends within its
    fuel, and answers yes exactly when some pairing of the whole pool has no rematch, and
    then with such a pairing; with rematches allowed it pairs every even pool. *)
Theorem rematch_search_complete (prior : gset (N * N)) (pool : list N) :
  both_ways prior →
  (∃ b M, pair_pool_avoiding_rematches prior false pool = Some (b, M) ∧
    (b = true ↔ ∃ M', pairs_up pool M' ∧ rematch_free prior M') ∧
    (b = true → pairs_up pool M ∧ rematch_free prior M)) ∧
  (Nat.even (length pool) = true →
   ∃ M, pair_pool_avoiding_rematches prior true pool = Some (true, M) ∧ pairs_up pool M).
Proof.
  intros Hsym. split; [|by apply pair_rematches].
  destruct (pair_search prior false pool Hsym) as (b&M&->&Hout). exists b, M. split; [done|].
  destruct b.
  - destruct Hout as [HM Hf%acceptable_false]. split; [|done]. split; [|done]. intros _. by exists M.
  - split; [|done]. split; [done|]. intros (M'&HM'&Hf). destruct (Hout M' HM').
    by apply acceptable_false.
Qed.

(** A Swiss round of a pod pairs everybody: whatever the random source, the round is
    built, its tables are numbered and open, and it seats every player of the pod once,
    but for one bye exactly when their number is odd.  The players were taken in
    standings order (most match wins first), no two of them meet again unless every
    pairing would have a rematch, and the bye goes to the lowest player whose bye allows
    a round without rematches, or to the last if there is none. *)
Theorem swiss_round_pairs_everyone {Rng : Type} `{!PodRng Rng, !PodRngShuffles Rng}
    (e : PodEvent) (r : N) (rng : Rng) :
  length (seats e) < 256 →
  ∃ ps bye pool, generate_swiss_pairings e r rng = Ok (ps, bye) ∧ numbered r ps ∧
    pool ≡ₚ ids e ∧ StronglySorted (ahead e) pool ∧
    flat (players <$> ps) ++ option_list bye ≡ₚ ids e ∧
    (bye = None ↔ Nat.even (length (seats e)) = true) ∧
    pool_paired (prior_pairs (pairings e)) pool (players <$> ps) bye ∧
    ∀ a b, (a, b) ∈ prior_pairs (pairings e) ↔ met (pairings e) a b.
Proof.
  intros Hsmall. destruct (generate_swiss_ok e r rng Hsmall) as (M&bye&pool&->&Hids&Hs&Hp&Hbye).
  exists (seat_tables r M), bye, pool. rewrite seat_tables_players. split; [done|].
  split_and!; try done.
  - apply seat_tables_numbered.
  - by rewrite (pool_paired_seats _ _ _ _ Hp).
  - by rewrite Hbye, Hids, length_ids.
  - apply prior_pairs_met.
Qed.

(** ** An action on any session

    Whatever the history: no action of the event panics, none calls the session broken,
    and an accepted one leaves a session whose draft is over, with other records and
    pairings. *)
Section any_session.
Context {Rng : Type} `{!PodRng Rng}.
Definition not_broken (er : DraftError) : Prop := er ≠ InvalidSnapshot.
Definition answers {A} (m : outcome DraftError A) : Prop :=
  match m with Ok _ => True | Err er => not_broken er | Panic => False end.
Lemma answers_lift {A} (m : outcome DraftError A) (Q : A → DraftSession → Prop) s :
  answers m → (∀ a, Q a s) → safely not_broken (lift m) Q s.
Proof. intros Hm HQ. apply safely_lift; [by intros ->|by intros|by intros er ->]. Qed.

Lemma seat_player_id_some e seat : N.to_nat seat < length (seats e) →
  ∃ pid, seat_player_id e seat = Ok pid.
Proof.
  intros [st Hst]%lookup_lt_is_Some_2. unfold seat_player_id. rewrite Hst. by destruct st; eexists.
Qed.
Lemma pod_seat_count e : length (seats e) < 256 → seat_count e = N.of_nat (length (seats e)).
Proof. intros H. unfold seat_count. apply wrap_small. change (2 ^ 8)%N with 256%N. lia. Qed.
Lemma map_ok_some {A B} (f : A → outcome DraftError B) l :
  Forall (λ x, ∃ y, f x = Ok y) l → ∃ ys, map_ok f l = Ok ys.
Proof.
  induction 1 as [|x l [y Hy] _ [ys IH]]; [by exists []|]. exists (y :: ys). cbn. by rewrite Hy, IH.
Qed.
Lemma generate_swiss_answers e r (rng : Rng) : length (seats e) < 256 →
  answers (generate_swiss_pairings e r rng).
Proof.
  intros Hsmall. unfold generate_swiss_pairings.
  destruct (standings_brackets_ok e Hsmall) as (bs&->&_). cbn [mbind outcome_bind].
  destruct (pair_players_spec (prior_pairs (pairings e)) (concat (shuffle_brackets bs rng).1).*1
    (prior_pairs_sym _)) as (M&bye&->&_). done.
Qed.
Lemma generate_se_answers e r : length (seats e) < 256 → answers (generate_se_pairings e r).
Proof.
  intros Hsmall. unfold generate_se_pairings. destruct (r =? 1)%N; [|done].
  rewrite (pod_seat_count e Hsmall). set (n := length (seats e)) in *. cbv zeta.
  match goal with |- context [map_ok ?f ?l] => destruct (map_ok_some f l) as [ps ->]; [|done] end.
  apply Forall_fmap, Forall_seq. intros i Hi. cbn.
  assert (i < n)%nat as Hin.
  { pose proof (N.Div0.mul_div_le (N.of_nat n) 2). lia. }
  destruct (seat_player_id_some e (N.of_nat i)) as [p1 ->]; [fold n; lia|].
  destruct (seat_player_id_some e (N.of_nat n - 1 - N.of_nat i)) as [p2 ->]; [fold n; lia|]. by eexists.
Qed.
Lemma reported_winner_answers e mid ps seat : length (seats e) < 256 →
  answers (reported_winner e mid ps seat).
Proof.
  intros Hsmall. destruct seat as [seat|]; [|done]. cbn. rewrite (pod_seat_count e Hsmall).
  destruct (N.leb_spec (N.of_nat (length (seats e))) seat); [done|].
  destruct (seat_player_id_some e seat) as [pid ->]; [lia|]. cbn. by case_decide.
Qed.

Lemma event_status_after e sts : bool_decide (status e ∈ sts) = true →
  Forall (λ st, after_draft st = true) sts → settled e e.
Proof.
  intros H%bool_decide_eq_true Hall. apply settled_refl. rewrite Forall_forall in Hall. by apply Hall.
Qed.
Lemma generate_safely e : length (seats e) < 256 →
  safely not_broken (apply_generate_pairings (Rng := Rng)) (λ _ e', settled e e') e.
Proof.
  intros Hsmall. unfold apply_generate_pairings. apply safely_bind, safely_get. cbv zeta.
  apply safely_bind, safely_ensure; [|done]. intros Hst.
  pose proof (event_status_after e _ Hst ltac:(by repeat constructor)) as Hs.
  apply safely_bind, safely_ensure; [|done]. intros _.
  apply safely_bind, safely_ensure; [|done]. intros _.
  apply safely_bind, answers_lift.
  { destruct (tournament_format e); [by apply generate_swiss_answers|].
    pose proof (generate_se_answers e (next_pairing_round e) Hsmall) as H.
    by destruct (generate_se_pairings e (next_pairing_round e)). }
  intros [ps bye]. apply safely_bind, safely_modify, safely_bind, safely_modify, safely_bind,
    safely_modify, safely_bind, safely_modify, safely_ret.
  apply settled_round, settled_status; [|done].
  destruct bye; [apply settled_records|]; by apply settled_pairings.
Qed.
Lemma report_safely e mid seat : length (seats e) < 256 →
  safely not_broken (apply_report_match_result mid seat) (λ _ e', settled e e') e.
Proof.
  intros Hsmall. unfold apply_report_match_result. apply safely_bind, safely_get.
  apply safely_bind, safely_ensure; [|done]. intros Hst.
  pose proof (event_status_after e _ Hst ltac:(by repeat constructor)) as Hs.
  apply safely_bind, safely_lift;
    [by destruct (position _ _)| |by intros er; destruct (position _ _); [|intros [= <-]]].
  intros idx Hpos. destruct (position _ _) as [i|] eqn:Hi; [|done]. injection Hpos as ->.
  apply position_Some in Hi as (p&Hp&_). apply safely_bind, answers_lift; [by rewrite Hp|]. intros q.
  apply safely_bind, safely_ensure; [|done]. intros _.
  apply safely_bind, safely_ensure; [|done]. intros _. cbv zeta.
  apply safely_bind, answers_lift; [by apply reported_winner_answers|]. intros w.
  apply safely_bind, safely_modify, safely_bind, safely_modify, safely_bind, safely_modify,
    safely_bind, safely_get.
  match goal with |- context [round_done _ (pairings ?x)] => assert (settled e x) as Hx end.
  { apply settled_records, settled_pairings. clear Hst. by case_match; [apply settled_records|]. }
  destruct (round_done _ _); [|by apply safely_ret].
  apply safely_bind, safely_modify, safely_ret, settled_status; [done|].
  by destruct (tournament_over _ _ _).
Qed.
Lemma advance_round_safely e :
  safely not_broken apply_advance_round (λ _ e', settled e e') e.
Proof.
  unfold apply_advance_round. apply safely_bind, safely_get, safely_bind, safely_ensure; [|done].
  intros Hst%bool_decide_eq_true. apply safely_bind, safely_modify, safely_ret, settled_status; [|done].
  apply settled_refl. by rewrite Hst.
Qed.
Lemma event_action_safely e a : length (seats e) < 256 →
  safely not_broken (apply_event_action (Rng := Rng) a) (λ _ e', settled e e') e.
Proof.
  intros Hsmall. destruct a; [by apply generate_safely|by apply report_safely|].
  apply advance_round_safely.
Qed.
End any_session.

(** ** A sample pod *)
Definition FixedRng : Type := unit.
#[export] Instance fixed_rng : PodRng FixedRng :=
  {| seed_from_u64 := λ _, tt; shuffle := λ l r, (l, r) |}.
#[export] Instance fixed_rng_shuffles : PodRngShuffles FixedRng.
Proof. split. done. Qed.

Definition sample_pod (f : TournamentFormat.t) (n : nat) : PodEvent :=
  set_status DraftStatus.Deckbuilding
    (new_session (with_format f (example_config DraftKind.Premier (N.of_nat n) 3))
       (imap (λ i _, Human (N.of_nat i) "player") (replicate n ()))).

(** Four players, of whom the first two pairs have met. *)
Definition sample_prior : gset (N * N) := {[ (0, 1); (1, 0); (2, 3); (3, 2) ]}%N.
Lemma rematch_search_complete_witness :
  both_ways sample_prior ∧
  pair_pool_avoiding_rematches sample_prior false [0; 1; 2; 3]%N = Some (true, [(0, 2); (1, 3)]%N) ∧
  ∃ M, pairs_up [0; 1; 2; 3]%N M ∧ rematch_free sample_prior M.
Proof.
  assert (both_ways sample_prior) as Hsym.
  { intros a b. unfold sample_prior. set_solver. }
  split; [exact Hsym|]. split; [vm_compute; reflexivity|].
  destruct (rematch_search_complete sample_prior [0; 1; 2; 3]%N Hsym) as [(b&M&Heq&Hiff&_) _].
  apply Hiff. assert (pair_pool_avoiding_rematches sample_prior false [0; 1; 2; 3]%N =
    Some (true, [(0, 2); (1, 3)]%N)) as E by (vm_compute; reflexivity).
  rewrite E in Heq. by injection Heq as <-.
Defined.
Lemma swiss_round_pairs_everyone_witness :
  ∃ ps bye, generate_swiss_pairings (sample_pod TournamentFormat.Swiss 5) 1 (tt : FixedRng) =
    Ok (ps, bye) ∧ bye ≠ None.
Proof.
  assert (length (seats (sample_pod TournamentFormat.Swiss 5)) < 256) as Hsmall
    by (vm_compute; lia).
  destruct (swiss_round_pairs_everyone _ 1 (tt : FixedRng) Hsmall)
    as (ps&bye&pool&Heq&_&_&_&_&Hbye&_).
  exists ps, bye. split; [exact Heq|]. intros H. apply Hbye in H. discriminate H.
Defined.
