(* ===== verification/DraftDeck.v ===== *)
(** * Deck submission ([crates/draft-core/src])

    What a limited deck must satisfy ([validation.rs]), what the sets of a Commander draft
    concede at deck construction ([engine/src/game/deck_validation.rs]), and the submission
    of a deck to the session ([apply_submit_deck] of [session.rs]). *)
From S2P Require Import Prelude.
From S2P Require Import GameTypes.
From S2P Require Import DraftTypes.
Local Open Scope N_scope.

(** ** Cards that may be added *)
Definition STANDARD_BASIC_LANDS : list string :=
  ["Plains"; "Island"; "Swamp"; "Mountain"; "Forest"; "Wastes"; "Snow-Covered Plains";
   "Snow-Covered Island"; "Snow-Covered Swamp"; "Snow-Covered Mountain"; "Snow-Covered Forest"]%string.
Definition is_addable (a : DeckAddableCards) (card : string) : bool :=
  let standard := bool_decide (card ∈ STANDARD_BASIC_LANDS) in
  let custom := bool_decide (card ∈ addable_custom a) in
  match addable_policy a with
  | DeckAddableCardPolicy.StandardBasics => standard
  | DeckAddableCardPolicy.CustomOnly => custom
  | DeckAddableCardPolicy.StandardBasicsPlusCustom => standard || custom
  end.

(** ** What the sets of a draft concede *)
Record GrantableCommanderFiller := { filler_name : string; max_copies : N }.
Record PartnerGrant := { max_colors : N }.
Record DraftSetConcessions := {
  fillers : list GrantableCommanderFiller;
  partner_grant : option PartnerGrant;
}.
Definition no_concessions : DraftSetConcessions := {| fillers := []; partner_grant := None |}.
(** One filler joins those held: the larger cap of its name, or a new name. *)
Definition join_filler (held : list GrantableCommanderFiller) (f : GrantableCommanderFiller)
    : list GrantableCommanderFiller :=
  match position (λ h, String.eqb (filler_name h) (filler_name f)) held with
  | Some i => alter (λ h, {| filler_name := filler_name h;
                             max_copies := N.max (max_copies h) (max_copies f) |}) i held
  | None => held ++ [f]
  end.
Definition union_concessions (a b : DraftSetConcessions) : DraftSetConcessions := {|
  fillers := foldl join_filler (fillers a) (fillers b);
  partner_grant :=
    match partner_grant a, partner_grant b with
    | Some held, Some added => Some {| max_colors := N.max (max_colors held) (max_colors added) |}
    | Some held, None => Some held
    | None, added => added
    end |}.
Definition DRAFT_SET_CONCESSIONS : list (string * string * option N) :=
  [("CMR", "The Prismatic Piper", None); ("CMM", "The Prismatic Piper", Some 1);
   ("CLB", "Faceless One", None)]%string.
Definition GRANTABLE_FILLER_MAX_COPIES : N := 2.
Definition row_concessions (row : string * string * option N) : DraftSetConcessions := {|
  fillers := [{| filler_name := row.1.2; max_copies := GRANTABLE_FILLER_MAX_COPIES |}];
  partner_grant := (λ n, {| max_colors := n |}) <$> row.2 |}.
Definition draft_set_concessions_for (set_codes : list string) : DraftSetConcessions :=
  foldl union_concessions no_concessions (row_concessions <$>
    List.filter (λ row, existsb (λ named, same_code named row.1.1) set_codes)
      DRAFT_SET_CONCESSIONS).
Definition concession_set_codes (s : DraftSession) : list string :=
  match kind s with
  | DraftKind.CommanderDraft =>
      match source (config s) with
      | DraftSource.Set_ layout => actual_set_codes layout
      | DraftSource.Cube _ _ => []
      end
  | DraftKind.Quick | DraftKind.Premier | DraftKind.Traditional | DraftKind.Sealed
  | DraftKind.Winston => []
  end.
Definition session_concessions (s : DraftSession) : DraftSetConcessions :=
  draft_set_concessions_for (concession_set_codes s).

(** ** A limited deck against its pool *)
(** [*counts.entry(card).or_insert(0) += 1] for every card. *)
Definition multiset (cards : list string) : gmap string N :=
  foldl (λ m c, <[c := u32_add (default 0 (m !! c)) 1]> m) ∅ cards.
Definition copies (m : gmap string N) (card : string) : N := default 0 (m !! card).

Section deck.
Variables (main_deck pool : list string) (addable : DeckAddableCards) (min_deck_size : nat).
Variables (granted_fillers : list GrantableCommanderFiller) (commanders : list string).
Variable commanders_required : nat.

Definition pool_counts : gmap string N := multiset pool.
Definition deck_counts : gmap string N := multiset main_deck.
Definition designated_counts : gmap string N := multiset commanders.
Definition filler_errors (filler : GrantableCommanderFiller) (card : string) (requested : N)
    : list LimitedDeckError :=
  let pooled := copies pool_counts card in
  let added := requested - pooled in
  let designated := wrap 32 (N.of_nat (length (List.filter (String.eqb card) commanders))) in
  (if max_copies filler <? added
   then [FillerExceedsGrant card pooled added (max_copies filler)] else [])
  ++ (if designated <? added then [FillerNotUsedAsCommander card pooled added designated] else []).
Definition card_errors (card : string) (requested : N) : list LimitedDeckError :=
  match find_first (λ f, String.eqb (filler_name f) card) granted_fillers with
  | Some filler => filler_errors filler card requested
  | None =>
      if is_addable addable card then []
      else match pool_counts !! card with
           | None => [NotInPool card]
           | Some available =>
               if available <? requested then [ExceedsPoolCount card requested available] else []
           end
  end.
Definition designation_errors (card : string) (designated : N) : list LimitedDeckError :=
  let in_deck := copies deck_counts card in
  if in_deck <? designated then [CommanderNotInDeck card designated in_deck] else [].
(** The two middle groups come in the order a hash map is walked. *)
Definition deck_errors : list LimitedDeckError :=
  (if (length main_deck <? min_deck_size)%nat
   then [TooFewCards (length main_deck) min_deck_size] else [])
  ++ (map_to_list deck_counts ≫= λ x, card_errors x.1 x.2)
  ++ (map_to_list designated_counts ≫= λ x, designation_errors x.1 x.2)
  ++ (if (length commanders <? commanders_required)%nat
      then [TooFewCommanders (length commanders) commanders_required] else []).
Definition validate_limited_deck : outcome (list LimitedDeckError) () :=
  match deck_errors with [] => Ok tt | errors => Err errors end.
End deck.

(** ** The submission *)
Definition MAX_COMMANDER_DESIGNATIONS : nat := 2.
Definition human_count (s : DraftSession) : nat :=
  length (List.filter (λ st, match st with Human _ _ => true | Bot _ => false end) (seats s)).
Definition submitted_human_count (s : DraftSession) : nat :=
  length (List.filter (λ st, match st with
    | Human pid _ => bool_decide (is_Some (submitted_decks s !! pid)) | Bot _ => false end) (seats s)).
Definition apply_submit_deck (seat : N) (main_deck commanders : list string)
    (printings : list Printings.DeckPrinting) : stM DraftSession DraftError (list DraftDelta) :=
  s ← get;
  ensure (bool_decide (status s = DraftStatus.Deckbuilding))
    (InvalidTransition (status s) "SubmitDeck");;
  ensure (seat <? seat_count s) (SeatOutOfRange seat (seat_count s));;
  ensure (length commanders <=? MAX_COMMANDER_DESIGNATIONS)%nat
    (ValidationFailed [TooManyCommanders (length commanders) MAX_COMMANDER_DESIGNATIONS]);;
  pool ← lift (or_panic (pools s !! N.to_nat seat));
  lift match validate_limited_deck main_deck (name <$> pool) (addable_cards (config s))
               (min_deck_size (config s)) (fillers (session_concessions s)) commanders
               (N.to_nat (commanders_required (procedure (kind s)))) with
       | Ok _ => Ok tt
       | Err errors => Err (ValidationFailed errors)
       | Panic => Panic
       end;;
  st ← lift (or_panic (seats s !! N.to_nat seat));
  let player_id := match st with Human player_id _ => player_id | Bot _ => seat end in
  modify (λ s, set_submitted_decks (<[player_id := {| deck_seat := seat; submitted_main := main_deck;
    submitted_commanders := commanders; submitted_printings := printings |}]> (submitted_decks s)) s);;
  s ← get;
  if (human_count s <=? submitted_human_count s)%nat then
    let next_status := match post_draft_play (procedure (kind s)) with
                       | PostDraftPlay.CompleteImmediately => DraftStatus.Complete
                       | PostDraftPlay.TournamentPairings => DraftStatus.Pairing
                       end in
    modify (set_status next_status);;
    mret [DeckSubmitted seat; TransitionedTo next_status]
  else mret [DeckSubmitted seat].

(** ** A submission on any session *)
(** No error of a deck is an error of the session: a submission does not panic, never calls
    the session broken, and leaves a session whose draft is over. *)
Lemma submit_deck_safely s seat main_deck commanders printings :
  (length (seats s) < 256)%nat → length (pools s) = length (seats s) →
  safely (λ e, e ≠ InvalidSnapshot) (apply_submit_deck seat main_deck commanders printings)
    (λ _ s', settled s s') s.
Proof.
  intros Hsmall Hpools. unfold apply_submit_deck. apply safely_bind, safely_get.
  apply safely_bind, safely_ensure; [|done]. intros Hst%bool_decide_eq_true.
  assert (settled s s) as Hs by (apply settled_refl; by rewrite Hst).
  apply safely_bind, safely_ensure; [|done]. intros Hseat%N.ltb_lt.
  assert (N.to_nat seat < length (seats s))%nat as Hlt.
  { unfold seat_count in Hseat. rewrite wrap_small in Hseat by (change (2 ^ 8) with 256; lia). lia. }
  apply safely_bind, safely_ensure; [|done]. intros _.
  destruct (lookup_lt_is_Some_2 (pools s) (N.to_nat seat)) as [pool ->]; [lia|].
  destruct (lookup_lt_is_Some_2 (seats s) (N.to_nat seat)) as [st ->]; [done|].
  apply safely_bind, safely_lift; [done| |done]. intros pool' _. unfold validate_limited_deck.
  apply safely_bind, safely_lift; [by destruct (deck_errors _ _ _ _ _ _ _)| |
    by intros e; destruct (deck_errors _ _ _ _ _ _ _); [|intros [= <-]]].
  intros _ _. apply safely_bind, safely_lift; [done| |done]. intros st' _.
  apply safely_bind, safely_modify, safely_bind, safely_get.
  match goal with |- context [submitted_human_count ?x] => assert (settled s x) as Hx end.
  { by apply settled_decks. }
  destruct (_ <=? _)%nat; [|by apply safely_ret].
  apply safely_bind, safely_modify, safely_ret, settled_status; [done|].
  by destruct (post_draft_play _).
Qed.
