(* ===== verification/DraftApply.v ===== *)
(** * The draft reducer ([apply] and [apply_at] of [crates/draft-core/src/session.rs])

    The actions of a draft and the two entry points of the reducer: [apply] for the
    legacy flow, and [apply_at], whose first-in first-out operations run on a copy
    of the session that is committed only when it passes the snapshot check. *)
From S2P Require Import Prelude.
From S2P Require Import GameTypes.
From S2P Require Import DraftTypes.
From S2P Require Import DraftAdmission.
From S2P Require Import Winston.
From S2P Require Import DraftPick.
From S2P Require Import DraftPod.
From S2P Require Import DraftDeal.
From S2P Require Import Fifo.
From S2P Require Import DraftSnapshot.
From S2P Require Import PodEvent.
From S2P Require Import DraftDeck.
Local Open Scope N_scope.

(** [PodAction] holds the actions a pick-and-pass pod takes: [Pick],
    [PickWithDraftEffect], [ReplaceSeatWithBot] and [SetSeatConnected]; [EventAction] those
    of the event after the draft: [GeneratePairings], [ReportMatchResult] and
    [AdvanceRound]. *)
Inductive DraftAction :=
  | StartDraft
  | PodAction (a : pod_action)
  | Select (x : Selection)
  | Control (c : DraftControl.t)
  | AdvanceClock
  | SubmitDeck (seat : N) (main_deck commanders : list string)
      (printings : list Printings.DeckPrinting)
  | EventAction (a : event_action)
  | SharedStackDecision (seat pile : N) (decision : SharedStackPileDecision.t).

Definition is_fifo_only (a : DraftAction) : bool :=
  match a with Select _ | Control _ | AdvanceClock => true | _ => false end.

(** ** Equality of sessions *)
#[export] Instance DraftSeat_eq_dec : EqDecision DraftSeat.
Proof. solve_decision. Defined.
#[export] Instance SharedStackDecisionRecord_eq_dec : EqDecision SharedStackDecisionRecord.
Proof. solve_decision. Defined.
#[export] Instance SharedStackState_eq_dec : EqDecision SharedStackState.
Proof. solve_decision. Defined.
#[export] Instance DraftClock_eq_dec : EqDecision DraftClock.
Proof. solve_decision. Defined.
#[export] Instance DraftPrompt_eq_dec : EqDecision DraftPrompt.
Proof. solve_decision. Defined.
#[export] Instance QueuedDraftPack_eq_dec : EqDecision QueuedDraftPack.
Proof. solve_decision. Defined.
#[export] Instance FifoSeatState_eq_dec : EqDecision FifoSeatState.
Proof. solve_decision. Defined.
#[export] Instance DraftPackProvenance_eq_dec : EqDecision DraftPackProvenance.
Proof. solve_decision. Defined.
#[export] Instance DraftCardProvenance_eq_dec : EqDecision DraftCardProvenance.
Proof. solve_decision. Defined.
#[export] Instance DraftRemovalReason_eq_dec : EqDecision DraftRemovalReason.t.
Proof. solve_decision. Defined.
#[export] Instance RemovedDraftCard_eq_dec : EqDecision RemovedDraftCard.
Proof. solve_decision. Defined.
#[export] Instance DraftReviewState_eq_dec : EqDecision DraftReviewState.
Proof. solve_decision. Defined.
#[export] Instance DraftPauseReason_eq_dec : EqDecision DraftPauseReason.t.
Proof. solve_decision. Defined.
#[export] Instance DraftPausedState_eq_dec : EqDecision DraftPausedState.
Proof. solve_decision. Defined.
#[export] Instance FifoDraftState_eq_dec : EqDecision FifoDraftState.
Proof. solve_decision. Defined.
#[export] Instance DraftSelectionPolicy_eq_dec : EqDecision DraftSelectionPolicy.
Proof. solve_decision. Defined.
#[export] Instance PickClockPolicy_eq_dec : EqDecision PickClockPolicy.t.
Proof. solve_decision. Defined.
#[export] Instance DraftClockPolicy_eq_dec : EqDecision DraftClockPolicy.
Proof. solve_decision. Defined.
#[export] Instance SetLayout_eq_dec : EqDecision SetLayout.t.
Proof. solve_decision. Defined.
#[export] Instance DraftSource_eq_dec : EqDecision DraftSource.t.
Proof. solve_decision. Defined.
#[export] Instance DeckAddableCardPolicy_eq_dec : EqDecision DeckAddableCardPolicy.t.
Proof. solve_decision. Defined.
#[export] Instance DeckAddableCards_eq_dec : EqDecision DeckAddableCards.
Proof. solve_decision. Defined.
#[export] Instance DraftDeckSubmission_eq_dec : EqDecision DraftDeckSubmission.
Proof. solve_decision. Defined.
#[export] Instance DraftConfig_eq_dec : EqDecision DraftConfig.
Proof. solve_decision. Defined.
#[export] Instance DraftSession_eq_dec : EqDecision DraftSession.
Proof. solve_decision. Defined.

(** ** The reducer *)
Section reducer.
(** The two calls to the random source of [StartDraft], as in [DraftDeal], what the given
    pack source generates, if one is given, and the random source of the pairings. *)
Variable shuffle : list DraftCardInstance → list DraftCardInstance.
Variable random_seat : N → N.
Variable generated : option (outcome DraftError (list (list DraftPack))).
Context {Rng : Type} `{!PodRng Rng}.

(** [session::apply_existing] *)
Definition apply_existing (a : DraftAction) : stM DraftSession DraftError (list DraftDelta) :=
  match a with
  | Select _ | Control _ | AdvanceClock => throw IncompatibleFlow
  | StartDraft => apply_start_draft shuffle random_seat generated
  | PodAction a => apply_pod_action a
  | SubmitDeck seat main_deck commanders printings =>
      apply_submit_deck seat main_deck commanders printings
  | EventAction a => apply_event_action a
  | SharedStackDecision seat pile decision => apply_shared_stack_decision seat pile decision
  end.

(** [session::apply] *)
Definition apply (a : DraftAction) : stM DraftSession DraftError (list DraftDelta) :=
  s ← get;
  ensure (negb (bool_decide (flow (config s) = DraftFlow.FifoAsync))) ExplicitTimeRequired;;
  lift (validate_legacy_admission s);;
  ensure (negb (is_fifo_only a)) IncompatibleFlow;;
  apply_existing a.

(** The action on the copy. *)
Definition apply_fifo (a : DraftAction) (now_ms : N) : FifoM (list DraftDelta) :=
  match a with
  | StartDraft => start_fifo generated now_ms
  | Select x => select_fifo x HumanTiming
  | Control c => control c now_ms
  | AdvanceClock => advance now_ms
  | PodAction (Pick _ _) | PodAction (PickWithDraftEffect _ _ _)
  | SharedStackDecision _ _ _ => throw IncompatibleFlow
  | PodAction _ | SubmitDeck _ _ _ _ | EventAction _ => apply_existing a
  end.
(** The commit: nothing when nothing changed, else a new revision that passes the check. *)
Definition commit (session candidate : DraftSession) : outcome DraftError DraftSession :=
  if decide (candidate = session) then Ok session
  else
    f ← fifo_ref candidate;
    r ← increment (revision f);
    let candidate := set_fifo (Some (set_revision r f)) candidate in
    _ ← validate_persisted_snapshot candidate;
    Ok candidate.
Definition apply_fifo_at (a : DraftAction) (now_ms : N) (session : DraftSession)
    : outcome DraftError (list DraftDelta * DraftSession) :=
  _ ← validate_persisted_snapshot session;
  now_ms ← clamped_now session now_ms;
  f ← fifo_ref session;
  match apply_fifo a now_ms (set_fifo (Some (set_last_now_ms now_ms f)) session) with
  | (Ok deltas, candidate) =>
      session ← commit session candidate;
      Ok (deltas, session)
  | (Err e, _) => Err e
  | (Panic, _) => Panic
  end.
(** [session::apply_at]; a panic leaves the session as it was too. *)
Definition apply_at (a : DraftAction) (now_ms : N)
    : stM DraftSession DraftError (list DraftDelta) := λ session,
  match flow (config session) with
  | DraftFlow.LegacyBarrier => apply a session
  | DraftFlow.FifoAsync =>
      match apply_fifo_at a now_ms session with
      | Ok (deltas, session') => (Ok deltas, session')
      | Err e => (Err e, session)
      | Panic => (Panic, session)
      end
  end.

(** [DraftSession::new_fifo] *)
Definition new_fifo (c : DraftConfig) (sts : list DraftSeat) (id : string)
    : outcome DraftError DraftSession :=
  _ ← (if bool_decide (flow c = DraftFlow.FifoAsync) then Ok () else Err IncompatibleFlow);
  _ ← validate_fifo_config c (length sts) AdmissionContext.Configuration;
  _ ← refuse (negb (valid_draft_id id));
  let session := set_fifo (Some (fresh_fifo id (length sts))) (new_session c sts) in
  _ ← validate_fifo_snapshot session;
  Ok session.
End reducer.
