(* ===== verification/FifoManifest.v ===== *)
(** * The manifest of a first-in first-out draft

    What [start_fifo] registers about the generated packs: every pack under its own
    number with its seat, round and card ids, every card with its pack. *)
From S2P Require Import Prelude.
From S2P Require Import DraftTypes.
From S2P Require Import DraftAdmission.
From S2P Require Import Fifo.
Local Open Scope N_scope.

(** The number of the pack seat [i] opens in round [r]. *)
Definition pack_no (n r i : nat) : N := N.of_nat (r * n + i).

Lemma pack_no_inj n r i r' i' : (i < n)%nat → (i' < n)%nat →
  pack_no n r i = pack_no n r' i' → r = r' ∧ i = i'.
Proof.
  unfold pack_no. intros Hi Hi' H%Nat2N.inj.
  assert (r = r') as ->; [|lia].
  destruct (Nat.lt_trichotomy r r') as [Hr|[->|Hr]]; [|done|].
  - assert (S r * n ≤ r' * n)%nat by (apply Nat.mul_le_mono_r; lia). lia.
  - assert (S r' * n ≤ r * n)%nat by (apply Nat.mul_le_mono_r; lia). lia.
Qed.

Definition provenance (n r i : nat) (pack : DraftPack) : DraftPackProvenance := {|
  prov_pack_id := pack_no n r i; prov_opening_seat := N.of_nat i; prov_round := N.of_nat r;
  prov_original_size := N.of_nat (length pack); original_card_ids := instance_id <$> pack |}.

(** Cards a manifest holds for a round. *)
Definition supply_step (rnd : N) (p : DraftPackProvenance) (acc : N) : N :=
  if prov_round p =? rnd then acc + prov_original_size p else acc.
Definition supply_of (rnd : N) (ps : gmap N DraftPackProvenance) : N :=
  map_fold (λ _ p acc, supply_step rnd p acc) 0 ps.
Lemma supply_of_insert rnd id p ps : ps !! id = None →
  supply_of rnd (<[id := p]> ps) =
  supply_of rnd ps + if prov_round p =? rnd then prov_original_size p else 0.
Proof.
  intros H. unfold supply_of. rewrite map_fold_insert_L; [|intros|done]; unfold supply_step.
  - by destruct (_ =? _); [|lia].
  - repeat case_match; lia.
Qed.

(** ** Cards *)
Definition ids (cs : list DraftCardInstance) : list string := instance_id <$> cs.
Lemma elem_of_ids c cs : c ∈ cs → instance_id c ∈ ids cs.
Proof. apply list_elem_of_fmap_2. Qed.
Lemma ids_app a b : ids (a ++ b) = ids a ++ ids b.
Proof. apply fmap_app. Qed.

(** With distinct ids, an id names its card. *)
Lemma ids_inj cs a b : NoDup (ids cs) → a ∈ cs → b ∈ cs → instance_id a = instance_id b → a = b.
Proof.
  intros Hnd [i Hi]%list_elem_of_lookup [j Hj]%list_elem_of_lookup Heq.
  assert (i = j) as ->; [|congruence].
  apply (NoDup_lookup (ids cs) i j (instance_id a)); [done|..];
    unfold ids; rewrite list_lookup_fmap; [by rewrite Hi|rewrite Hj; cbn; congruence].
Qed.

Record cards_registered (pk : N) (pack : DraftPack) (C C' : gmap string DraftCardProvenance)
    : Prop := {
  cr_cards : ∀ c, c ∈ pack → C' !! instance_id c = Some {| card_pack_id := pk; prov_card := c |};
  cr_kept : ∀ id v, C !! id = Some v → C' !! id = Some v;
  cr_fresh : NoDup (ids pack) ∧ ∀ id, id ∈ ids pack → C !! id = None;
  cr_size : size C' = (size C + length pack)%nat;
  cr_valid : ∀ c, c ∈ pack → valid_draft_id (instance_id c) = true;
}.
Lemma register_cards_ok pk pack : ∀ C C',
  register_cards pk pack C = Ok C' → cards_registered pk pack C C'.
Proof.
  induction pack as [|c pack IH]; intros C C' H; cbn in H.
  { simplify_eq. split; try done; try (by intros ? ?%elem_of_nil); try (cbn; lia).
    split; [constructor|by intros ? ?%elem_of_nil]. }
  case_match eqn:Hc; [done|]. breflect. apply IH in H as [Hcs Hk [Hnd Hf] Hs Hv].
  assert (C !! instance_id c = None) as Hnone by by apply eq_None_not_Some.
  assert (∀ id, id ∈ ids pack → id ≠ instance_id c ∧ C !! id = None) as Hf'.
  { intros id Hid. specialize (Hf id Hid). rewrite lookup_insert_None in Hf. naive_solver. }
  split.
  - intros d [->|Hd]%elem_of_cons; [|by apply Hcs]. apply Hk. by rewrite lookup_insert_eq.
  - intros id v Hid. apply Hk. rewrite lookup_insert_ne; [done|]. intros <-. congruence.
  - cbn. split.
    + constructor; [|done]. intros Hin. by apply Hf' in Hin as [? _].
    + intros id [->|Hid]%elem_of_cons; [done|by apply Hf'].
  - rewrite Hs, map_size_insert_None by done. cbn. lia.
  - intros d [->|Hd]%elem_of_cons; [done|by apply Hv].
Qed.

(** ** Packs *)
(** The numbers in use: those of the earlier seats, and the earlier rounds of seat [i]. *)
Definition used (n i r : nat) (P : gmap N DraftPackProvenance) : Prop :=
  ∀ id, is_Some (P !! id) →
    ∃ r' i', id = pack_no n r' i' ∧ (i' < i ∨ i' = i ∧ r' < r)%nat.
Definition pack_at (row : list DraftPack) (r : nat) : DraftPack := default [] (row !! r).

Record row_registered (n i r : nat) (row : list DraftPack) (R R' : registry) : Prop := {
  rr_packs : ∀ k pack, row !! k = Some pack →
    R'.1 !! pack_no n (r + k) i = Some (provenance n (r + k) i pack) ∧
    (0 < length pack < 256)%nat;
  rr_kept : ∀ id v, R.1 !! id = Some v → R'.1 !! id = Some v;
  rr_used : used n i (r + length row) R'.1;
  rr_size : size R'.1 = (size R.1 + length row)%nat;
  rr_supply : ∀ k, (r ≤ k)%nat → supply_of (N.of_nat k) R'.1 =
    supply_of (N.of_nat k) R.1 + N.of_nat (length (pack_at row (k - r)));
  rr_supply' : ∀ k, (k < r)%nat → supply_of (N.of_nat k) R'.1 = supply_of (N.of_nat k) R.1;
  rr_cards : ∀ k pack c, row !! k = Some pack → c ∈ pack →
    R'.2 !! instance_id c = Some {| card_pack_id := pack_no n (r + k) i; prov_card := c |} ∧
    valid_draft_id (instance_id c) = true;
  rr_cards_kept : ∀ id v, R.2 !! id = Some v → R'.2 !! id = Some v;
  rr_fresh : NoDup (ids (concat row)) ∧ ∀ id, id ∈ ids (concat row) → R.2 !! id = None;
  rr_cards_size : size R'.2 = (size R.2 + length (concat row))%nat;
}.

Lemma register_row_ok n i row : ∀ r R R', (i < n)%nat → (i < 256)%nat →
  (r + length row ≤ 256)%nat →
  register_row n i r row R = Ok R' → used n i r R.1 → row_registered n i r row R R'.
Proof.
  induction row as [|pack row IH]; intros r [P C] [P' C'] Hi Hi8 Hr8 H Hused; cbn [register_row] in H.
  { simplify_eq. split; cbn; rewrite ?Nat.add_0_r; try done; try lia.
    - intros. unfold pack_at. rewrite lookup_nil. cbn. lia.
    - split; [constructor|by intros ? ?%elem_of_nil]. }
  cbn [length] in Hr8.
  apply outcome_bind_ok in H as (size&Hsize&H).
  destruct ((length pack <? 256)%nat && (0 <? length pack)%nat) eqn:Hlen; [|done].
  breflect. simplify_eq.
  apply outcome_bind_ok in H as (id&Hid&H). case_match; [|done]. simplify_eq.
  apply outcome_bind_ok in H as (C1&HC&H). apply register_cards_ok in HC.
  unfold expect_u8 in H. destruct (Nat.ltb_spec i 256); [|lia]. destruct (Nat.ltb_spec r 256); [|lia].
  cbn [mbind outcome_bind fst snd] in H, HC.
  change (N.of_nat (r * n + i)) with (pack_no n r i) in *.
  change {| prov_pack_id := _ |} with (provenance n r i pack) in H.
  assert (P !! pack_no n r i = None) as Hnone.
  { apply eq_None_not_Some. intros (r'&i'&Heq&Hlt)%Hused.
    apply pack_no_inj in Heq as [<- <-]; lia. }
  apply IH in H; [|done|done|lia|].
  2:{ intros id Hs. cbn [fst] in Hs. destruct (decide (id = pack_no n r i)) as [->|Hne].
      - exists r, i. split; [done|]. right. lia.
      - rewrite lookup_insert_ne in Hs by done. destruct (Hused id Hs) as (r'&i'&->&?).
        exists r', i'. split; [done|]. lia. }
  destruct H as [Hp Hk Hu Hs Hsup Hsup' Hc Hck [Hnd Hf] Hcs]. destruct HC as [HCc HCk [HCnd HCf] HCs HCv].
  cbn [fst snd] in *. rewrite map_size_insert_None in Hs by done.
  split; cbn [fst snd].
  - intros [|k] pack' Hk'; cbn in Hk'.
    + simplify_eq. rewrite Nat.add_0_r. split; [|lia]. apply Hk. by rewrite lookup_insert_eq.
    + rewrite Nat.add_succ_r. by apply Hp.
  - intros id v Hv. apply Hk. rewrite lookup_insert_ne; [done|]. intros <-. congruence.
  - replace (r + length (pack :: row))%nat with (S r + length row)%nat by (cbn; lia). done.
  - rewrite Hs. cbn. lia.
  - intros k Hk'. destruct (decide (k = r)) as [->|Hne].
    + rewrite Hsup' by lia. rewrite supply_of_insert by done. cbn.
      rewrite N.eqb_refl, Nat.sub_diag. done.
    + rewrite Hsup by lia. rewrite supply_of_insert by done. cbn.
      destruct (N.eqb_spec (N.of_nat r) (N.of_nat k)); [lia|].
      rewrite N.add_0_r. f_equal. f_equal. f_equal. unfold pack_at.
      replace (k - r)%nat with (S (k - S r)) by lia. done.
  - intros k Hk'. rewrite Hsup' by lia. rewrite supply_of_insert by done. cbn.
    destruct (N.eqb_spec (N.of_nat r) (N.of_nat k)); [lia|]. lia.
  - intros [|k] pack' c Hk' Hin; cbn in Hk'.
    + simplify_eq. rewrite Nat.add_0_r. split; [|by apply HCv]. apply Hck. by apply HCc.
    + rewrite Nat.add_succ_r. by eapply Hc.
  - intros id v Hv. by apply Hck, HCk.
  - cbn [concat]. rewrite ids_app. split.
    + apply NoDup_app. split_and!; [done| |done]. intros id Hid1 Hid2%Hf.
      apply list_elem_of_fmap in Hid1 as (c&->&Hc'). by rewrite (HCc c Hc') in Hid2.
    + intros id [Hid|Hid]%elem_of_app; [by apply HCf|]. apply Hf in Hid.
      apply eq_None_not_Some. intros [v Hv]. apply HCk in Hv. congruence.
  - rewrite Hcs, HCs. cbn [concat]. rewrite length_app. lia.
Qed.

(** ** A whole deal: the packs of every seat, by round *)
Definition deal_cards (deal : list (list DraftPack)) : list DraftCardInstance := concat (mjoin deal).
Definition round_cards (deal : list (list DraftPack)) (r : nat) : list DraftCardInstance :=
  concat ((λ row, pack_at row r) <$> deal).

Record manifest (n pc : nat) (deal : list (list DraftPack)) (R : registry) : Prop := {
  mf_seats : length deal = n;
  mf_rounds : ∀ i row, deal !! i = Some row → length row = pc;
  mf_packs : ∀ i row r pack, deal !! i = Some row → row !! r = Some pack →
    R.1 !! pack_no n r i = Some (provenance n r i pack) ∧ (0 < length pack < 256)%nat;
  mf_size : size R.1 = (n * pc)%nat;
  mf_supply : ∀ r, supply_of (N.of_nat r) R.1 = N.of_nat (length (round_cards deal r));
  mf_cards : ∀ i row r pack c, deal !! i = Some row → row !! r = Some pack → c ∈ pack →
    R.2 !! instance_id c = Some {| card_pack_id := pack_no n r i; prov_card := c |} ∧
    valid_draft_id (instance_id c) = true;
  mf_distinct : NoDup (ids (deal_cards deal));
  mf_cards_size : size R.2 = length (deal_cards deal);
}.

(** What registering the rows of the seats from [i] on adds. *)
Record rows_registered (n pc i : nat) (rows : list (list DraftPack)) (R R' : registry) : Prop := {
  ro_packs : ∀ j row r pack, rows !! j = Some row → row !! r = Some pack →
    R'.1 !! pack_no n r (i + j) = Some (provenance n r (i + j) pack) ∧ (0 < length pack < 256)%nat;
  ro_kept : ∀ id v, R.1 !! id = Some v → R'.1 !! id = Some v;
  ro_size : size R'.1 = (size R.1 + length rows * pc)%nat;
  ro_supply : ∀ r, supply_of (N.of_nat r) R'.1 =
    supply_of (N.of_nat r) R.1 + N.of_nat (length (round_cards rows r));
  ro_cards : ∀ j row r pack c, rows !! j = Some row → row !! r = Some pack → c ∈ pack →
    R'.2 !! instance_id c = Some {| card_pack_id := pack_no n r (i + j); prov_card := c |} ∧
    valid_draft_id (instance_id c) = true;
  ro_cards_kept : ∀ id v, R.2 !! id = Some v → R'.2 !! id = Some v;
  ro_fresh : NoDup (ids (deal_cards rows)) ∧ ∀ id, id ∈ ids (deal_cards rows) → R.2 !! id = None;
  ro_cards_size : size R'.2 = (size R.2 + length (deal_cards rows))%nat;
}.

Lemma used_next n i r (P : gmap N DraftPackProvenance) : used n i r P → used n (S i) 0 P.
Proof. intros H id Hid. destruct (H id Hid) as (r'&i'&->&?). exists r', i'. split; [done|lia]. Qed.

Lemma register_packs_rows n pc rows : ∀ i R R', (i + length rows ≤ n)%nat → (n ≤ 256)%nat →
  (pc ≤ 256)%nat → (∀ row, row ∈ rows → length row = pc) →
  register_packs n i rows R = Ok R' → used n i 0 R.1 → rows_registered n pc i rows R R'.
Proof.
  induction rows as [|row rows IH]; intros i R R' Hi Hn Hpc Hlens H Hused; cbn [register_packs] in H.
  { simplify_eq. split; try done; cbn; try lia; try (by intros; lia).
    split; [constructor|by intros ? ?%elem_of_nil]. }
  cbn [length] in Hi. apply outcome_bind_ok in H as (R1&Hrow&H).
  assert (length row = pc) as Hl by (apply Hlens; by left).
  apply register_row_ok in Hrow as [Hp Hk Hu Hs Hsup _ Hc Hck [Hnd Hf] Hcs]; [|lia..|done].
  apply IH in H as [Hp' Hk' Hs' Hsup' Hc' Hck' [Hnd' Hf'] Hcs']; [|lia|done|done| |by eapply used_next].
  2:{ intros row' Hin. apply Hlens. by right. }
  assert (deal_cards (row :: rows) = concat row ++ deal_cards rows) as Hdc
    by (unfold deal_cards; cbn; by rewrite concat_app).
  split.
  - intros [|j] row' r pack Hj Hr; cbn in Hj.
    + simplify_eq. rewrite Nat.add_0_r. apply Hp in Hr as [? ?]. split; [by apply Hk'|done].
    + rewrite Nat.add_succ_r. by eapply Hp'.
  - intros id v Hid. by apply Hk', Hk.
  - rewrite Hs', Hs. cbn. lia.
  - intros r. rewrite Hsup', Hsup by lia. rewrite Nat.sub_0_r. unfold round_cards. cbn.
    rewrite length_app. lia.
  - intros [|j] row' r pack c Hj Hr Hin; cbn in Hj.
    + simplify_eq. rewrite Nat.add_0_r. destruct (Hc _ _ _ Hr Hin) as [? ?]. split; [by apply Hck'|done].
    + rewrite Nat.add_succ_r. by eapply Hc'.
  - intros id v Hid. by apply Hck', Hck.
  - rewrite Hdc, ids_app. split.
    + apply NoDup_app. split_and!; [done| |done]. intros id Hid1 Hid2%Hf'.
      apply list_elem_of_fmap in Hid1 as (c&->&Hin).
      apply list_elem_of_In, in_concat in Hin as (pack&Hpk&Hin).
      apply list_elem_of_In, list_elem_of_lookup in Hpk as [r Hr]. apply list_elem_of_In in Hin.
      destruct (Hc _ _ _ Hr Hin) as [Hc0 _]. congruence.
    + intros id [Hid|Hid]%elem_of_app; [by apply Hf|]. apply Hf' in Hid.
      apply eq_None_not_Some. intros [v Hv]. apply Hck in Hv. congruence.
  - rewrite Hcs', Hcs, Hdc, length_app. lia.
Qed.

(** The registration of a whole deal. *)
Lemma register_packs_ok n pc deal R : length deal = n → (n ≤ 256)%nat → (pc ≤ 256)%nat →
  (∀ row, row ∈ deal → length row = pc) →
  register_packs n 0 deal (∅, ∅) = Ok R → manifest n pc deal R.
Proof.
  intros Hn Hn8 Hpc Hlens H.
  apply (register_packs_rows n pc) in H as [Hp _ Hs Hsup Hc _ [Hnd _] Hcs]; try done; [|lia|].
  2:{ intros id [v Hv]. cbn in Hv. by rewrite lookup_empty in Hv. }
  split; try done.
  - intros i row Hi. by apply Hlens, list_elem_of_lookup_2 with i.
  - rewrite Hs, Hn. done.
Qed.

(** ** Looking things up in a manifest *)
Section lookups.
Context {n pc : nat} {deal : list (list DraftPack)} {R : registry} (HM : manifest n pc deal R).

Lemma manifest_pack i r : (i < n)%nat → (r < pc)%nat →
  ∃ row pack, deal !! i = Some row ∧ row !! r = Some pack ∧
    R.1 !! pack_no n r i = Some (provenance n r i pack) ∧ (0 < length pack < 256)%nat.
Proof using HM.
  intros Hi Hr. destruct (lookup_lt_is_Some_2 deal i) as [row Hrow]; [by rewrite (mf_seats _ _ _ _ HM)|].
  destruct (lookup_lt_is_Some_2 row r) as [pack Hpack]; [by rewrite (mf_rounds _ _ _ _ HM i)|].
  exists row, pack. split_and!; [done|done|apply (mf_packs _ _ _ _ HM i row r pack)..]; done.
Qed.

Lemma deal_card_at c : c ∈ deal_cards deal →
  ∃ i row r pack, deal !! i = Some row ∧ row !! r = Some pack ∧ c ∈ pack ∧ (i < n)%nat ∧ (r < pc)%nat.
Proof using HM.
  unfold deal_cards. intros Hc.
  apply list_elem_of_In, in_concat in Hc as (pack&Hpk&Hc). apply list_elem_of_In in Hpk, Hc.
  apply list_elem_of_join in Hpk as (row&Hpk&Hrow).
  apply list_elem_of_lookup in Hrow as [i Hi]. apply list_elem_of_lookup in Hpk as [r Hr].
  exists i, row, r, pack. split_and!; try done.
  - apply lookup_lt_Some in Hi. by rewrite <-(mf_seats _ _ _ _ HM).
  - apply lookup_lt_Some in Hr. by rewrite <-(mf_rounds _ _ _ _ HM i row Hi).
Qed.

Lemma manifest_card c : c ∈ deal_cards deal →
  ∃ i r, (i < n)%nat ∧ (r < pc)%nat ∧
    R.2 !! instance_id c = Some {| card_pack_id := pack_no n r i; prov_card := c |} ∧
    valid_draft_id (instance_id c) = true.
Proof using HM.
  intros (i&row&r&pack&Hi&Hr&Hc&Hin&Hrn)%deal_card_at. exists i, r.
  split; [done|]. split; [done|]. by apply (mf_cards _ _ _ _ HM i row r pack c).
Qed.

Lemma pack_cards_dealt i row r pack c :
  deal !! i = Some row → row !! r = Some pack → c ∈ pack → c ∈ deal_cards deal.
Proof.
  intros Hi Hr Hc. unfold deal_cards. apply list_elem_of_In, in_concat. exists pack.
  split; apply list_elem_of_In; [|done]. apply list_elem_of_join. exists row.
  split; by eapply list_elem_of_lookup_2.
Qed.
End lookups.
