(* ===== verification/FifoInv.v ===== *)
(** * The invariant of a first-in first-out draft

    Where every card of the deal is, what the live packs, the returned effect cards
    and the removed cards are, how far each seat is, and how prompts, clocks and the
    status fit together. *)
From S2P Require Import Prelude.
From S2P Require Import DraftTypes.
From S2P Require Import DraftAdmission.
From S2P Require Import Fifo.
From S2P Require Import FifoManifest.
Local Open Scope N_scope.

(** Packs in the queues, with their cards. *)
Definition live (f : FifoDraftState) : list QueuedDraftPack := concat (queue <$> fifo_seats f).
Definition live_cards (f : FifoDraftState) : list DraftCardInstance := concat (q_pack <$> live f).

(** Steps taken this round, over all seats. *)
Definition round_steps (f : FifoDraftState) : nat :=
  sum_list_with (λ st, N.to_nat (round_completed_steps st)) (fifo_seats f).

Definition seats_n (s : DraftSession) : nat := length (seats s).
Definition packs_n (s : DraftSession) : nat := N.to_nat (pack_count (config s)).
(** The round of the live packs, the last one once the draft is over. *)
Definition rnd (s : DraftSession) : nat :=
  N.to_nat (N.min (current_pack_number s) (pack_count (config s) - 1)).
Definition policy_of (s : DraftSession) : PickClockPolicy.t := pick_clock (clock_policy (config s)).

(** ** The fields no draft operation changes *)
Record frame (s : DraftSession) (f : FifoDraftState) : Prop := {
  fr_fifo : fifo s = Some f;
  fr_flow : flow (config s) = DraftFlow.FifoAsync;
  fr_config : validate_fifo_config (config s) (seats_n s) AdmissionContext.Configuration = Ok ();
  fr_kind : kind s = config_kind (config s);
  fr_code : session_set_code s = config_set_code (config s);
  fr_id : valid_draft_id (session_id f) = true;
  fr_revision : revision f ≤ MAX_DRAFT_JSON_INTEGER;
  fr_now : last_now_ms f ≤ MAX_DRAFT_JSON_INTEGER;
  fr_seats : length (fifo_seats f) = seats_n s;
  fr_pools : length (pools s) = seats_n s;
  fr_packs : length (packs_by_seat s) = seats_n s;
  fr_current : current_pack s = replicate (seats_n s) None;
  fr_origins : current_pack_origins s = replicate (seats_n s) None;
  fr_connected : length (connected_seats s) = seats_n s;
  fr_picked : seats_picked_this_round s = replicate (seats_n s) false;
  fr_pick_number : pick_number s = 0;
  fr_shared : shared_stack s = None;
}.
Definition passing (s : DraftSession) : Prop :=
  distribution (procedure (kind s)) = PackDistribution.PickAndPass.

(** ** Where the cards are *)
(** A card of a live pack is of that pack, or was returned to it. *)
Definition card_home (f : FifoDraftState) (h : QueuedDraftPack) (c : DraftCardInstance) : Prop :=
  match returned_effects f !! instance_id c with
  | Some p => p = q_pack_id h ∧ draft_effect c = Some DraftEffect.AdditionalPick
  | None => ∃ v, fifo_cards f !! instance_id c = Some v ∧ card_pack_id v = q_pack_id h
  end.
(** The pack seat [i] opened this round, minus what was taken. *)
Record live_ok (deal : list (list DraftPack)) (s : DraftSession) (f : FifoDraftState)
    (h : QueuedDraftPack) : Prop := {
  lv_origin : ∃ i row pack, deal !! i = Some row ∧ row !! rnd s = Some pack ∧
    q_opening_seat h = N.of_nat i ∧ q_pack_id h = pack_no (seats_n s) (rnd s) i ∧
    q_original_size h = N.of_nat (length pack) ∧ (length (q_pack h) ≤ length pack)%nat ∧
    (length (q_pack h) = length pack ∨
     discard_threshold (selection_policy (config s)) < N.of_nat (length (q_pack h)));
  lv_round : q_round h = N.of_nat (rnd s);
  lv_some : q_pack h ≠ [];
  lv_home : Forall (card_home f h) (q_pack h);
}.
Definition reason_enabled (p : DraftSelectionPolicy) (r : DraftRemovalReason.t) : Prop :=
  match r with
  | DraftRemovalReason.Burn => 0 < burns_per_pick p
  | DraftRemovalReason.Threshold => 0 < discard_threshold p
  end.
Record removed_ok (s : DraftSession) (f : FifoDraftState) (x : RemovedDraftCard) : Prop := {
  rm_pack : ∃ p, fifo_packs f !! removed_pack x = Some p ∧ prov_round p ≤ N.of_nat (rnd s);
  rm_card : ∀ v, fifo_cards f !! removed_id x = Some v →
    removed_pack x = card_pack_id v ∨
    draft_effect (prov_card v) = Some DraftEffect.AdditionalPick;
  rm_reason : reason_enabled (selection_policy (config s)) (removed_reason x);
  rm_passing : passing s;
}.
Definition has_prompt (st : FifoSeatState) : N := if prompt st then 1 else 0.
Definition progress_ok (s : DraftSession) (deal : list (list DraftPack)) (i : nat)
    (st : FifoSeatState) (pool : list DraftCardInstance) : Prop :=
  let p := procedure (kind s) in
  match distribution p with
  | PackDistribution.PickAndPass =>
      generation st ≤ completed_steps st + has_prompt st ∧
      round_completed_steps st ≤ completed_steps st ∧
      completed_steps st ≤ N.of_nat (length pool) ≤ completed_steps st * cards_per_pick p
  | PackDistribution.AllAtOnce =>
      generation st = 0 ∧ completed_steps st = 0 ∧ round_completed_steps st = 0 ∧
      ∃ row, deal !! i = Some row ∧ pool = concat row
  | PackDistribution.SharedStackPiles _ => False
  end.

Record table (deal : list (list DraftPack)) (s : DraftSession) (f : FifoDraftState) : Prop := {
  tb_manifest : manifest (seats_n s) (packs_n s) deal (fifo_packs f, fifo_cards f);
  tb_sizes : ∀ row, deal !! 0%nat = Some row → pack_sizes s = (λ p, N.of_nat (length p)) <$> row;
  tb_cards : ∃ gone, ids gone = removed_id <$> removed f ∧
    concat (mjoin (packs_by_seat s)) ++ live_cards f ++ concat (pools s) ++ gone
      ≡ₚ deal_cards deal;
  tb_future : packs_by_seat s = drop (S (rnd s)) <$> deal;
  tb_live : Forall (live_ok deal s f) (live f);
  tb_origins : NoDup (q_opening_seat <$> live f);
  tb_returned : ∀ id p, returned_effects f !! id = Some p →
    ∃ h, h ∈ live f ∧ id ∈ ids (q_pack h);
  tb_removed : Forall (removed_ok s f) (removed f);
  tb_progress : ∀ i st pool, fifo_seats f !! i = Some st → pools s !! i = Some pool →
    progress_ok s deal i st pool;
  tb_supply : (round_steps f + length (live_cards f) ≤ length (round_cards deal (rnd s)))%nat;
}.

(** ** Prompts, clocks and the status *)
Definition scope_ok (pz : bool) (now duration : N) (c : DraftClockState) : Prop :=
  match c, pz with
  | Running d, false => d ≤ MAX_DRAFT_JSON_INTEGER ∧ d ≤ now + duration
  | Frozen r, true => r ≤ duration
  | _, _ => False
  end.
Definition clock_ok (policy : PickClockPolicy.t) (pz : bool) (now steps : N) (p : DraftPrompt)
    : Prop :=
  match pick_duration policy steps, prompt_clock p with
  | None, None => True
  | Some duration, Some c =>
      clock_target c = PickClock (prompt_id p) ∧ scope_ok pz now duration (clock_state c)
  | _, _ => False
  end.
(** A prompt for the front of the queue. *)
Record asks (sid : string) (policy : PickClockPolicy.t) (pz : bool) (now : N) (i : nat)
    (st : FifoSeatState) (h : QueuedDraftPack) (p : DraftPrompt) : Prop := {
  ask_id : prompt_id p = {| prompt_session := sid; prompt_seat := N.of_nat i;
                            prompt_generation := generation st |};
  ask_gen : 0 < generation st;
  ask_pack : prompt_pack p = q_pack_id h;
  ask_clock : clock_ok policy pz now (round_completed_steps st) p;
}.
Definition prompted (sid : string) (policy : PickClockPolicy.t) (pz : bool) (now : N) (i : nat)
    (st : FifoSeatState) : Prop :=
  match head (queue st) with
  | None => prompt st = None
  | Some h => ∃ p, prompt st = Some p ∧ asks sid policy pz now i st h p
  end.
Definition all_prompted (s : DraftSession) (f : FifoDraftState) (pz : bool) : Prop :=
  ∀ i st, fifo_seats f !! i = Some st →
    prompted (session_id f) (policy_of s) pz (last_now_ms f) i st.
Definition no_prompts (f : FifoDraftState) : Prop :=
  ∀ i st, fifo_seats f !! i = Some st → prompt st = None.

Record drafting (s : DraftSession) (f : FifoDraftState) (pz : bool) : Prop := {
  dr_passing : passing s;
  dr_round : current_pack_number s < pack_count (config s);
  dr_direction : pass_direction s = PassDirection.for_pack (current_pack_number s);
  dr_review : review f = None;
  dr_live : live f ≠ [];
  dr_prompts : all_prompted s f pz;
}.
Record reviewing (s : DraftSession) (f : FifoDraftState) (pz : bool) : Prop := {
  rv_passing : passing s;
  rv_round : current_pack_number s + 1 < pack_count (config s);
  rv_direction : pass_direction s = PassDirection.for_pack (current_pack_number s);
  rv_live : live f = [];
  rv_prompts : no_prompts f;
  rv_duration : review_duration_ms (clock_policy (config s)) ≠ 0;
  rv_review : ∃ c, review f = Some {| exhausted_round := current_pack_number s;
      review_next_round := current_pack_number s + 1;
      review_clock := {| clock_target := ReviewClock (current_pack_number s + 1);
                         clock_state := c |} |} ∧
    scope_ok pz (last_now_ms f) (review_duration_ms (clock_policy (config s))) c;
}.
Record drafted (s : DraftSession) (f : FifoDraftState) : Prop := {
  ov_round : current_pack_number s = pack_count (config s);
  ov_direction : passing s → pass_direction s = PassDirection.for_pack (pack_count (config s) - 1);
  ov_live : live f = [];
  ov_prompts : no_prompts f;
  ov_review : review f = None;
}.
Definition phase_ok (s : DraftSession) (f : FifoDraftState) : Prop :=
  match status s with
  | DraftStatus.Lobby => False
  | DraftStatus.Drafting => drafting s f false ∧ paused f = None
  | DraftStatus.Review => reviewing s f false ∧ paused f = None
  | DraftStatus.Paused => ∃ p, paused f = Some p ∧
      match paused_phase p with
      | DraftActivePhase.Drafting => drafting s f true
      | DraftActivePhase.Review => reviewing s f true
      end
  | _ => drafted s f ∧ paused f = None
  end.

Record started (deal : list (list DraftPack)) (s : DraftSession) (f : FifoDraftState) : Prop := {
  sr_frame : frame s f;
  sr_table : table deal s f;
  sr_phase : phase_ok s f;
}.
(** Before [StartDraft]. *)
Record in_lobby (s : DraftSession) (f : FifoDraftState) : Prop := {
  lb_frame : frame s f;
  lb_status : status s = DraftStatus.Lobby;
  lb_fresh : f = set_last_now_ms (last_now_ms f)
    (set_revision (revision f) (fresh_fifo (session_id f) (seats_n s)));
  lb_sizes : pack_sizes s = [];
  lb_number : current_pack_number s = 0;
  lb_pools : pools s = replicate (seats_n s) [];
  lb_packs : packs_by_seat s = replicate (seats_n s) [];
}.
Definition fifo_ok (s : DraftSession) : Prop :=
  ∃ f, in_lobby s f ∨ ∃ deal, started deal s f.

(** ** First consequences *)
Lemma frame_config s f : frame s f → fifo_config (config s) (seats_n s).
Proof. intros [_ _ H]. by apply validate_fifo_config_ok in H as [? _]. Qed.
Lemma frame_n s f : frame s f → (0 < seats_n s < 256)%nat ∧ pod_size (config s) = N.of_nat (seats_n s).
Proof. intros H. destruct (frame_config s f H). done. Qed.
Lemma frame_rounds s f : frame s f → (0 < packs_n s ≤ 8)%nat ∧ (rnd s < packs_n s)%nat.
Proof.
  intros H. destruct (frame_config s f H) as [_ _ Hp]. unfold MAX_PACK_COUNT in Hp.
  unfold rnd, packs_n. lia.
Qed.
Lemma rnd_current s : current_pack_number s < pack_count (config s) →
  rnd s = N.to_nat (current_pack_number s).
Proof. unfold rnd. lia. Qed.

Section table_facts.
Context {deal : list (list DraftPack)} {s : DraftSession} {f : FifoDraftState}.
Context (HT : table deal s f).

Lemma table_nodup : NoDup (ids (deal_cards deal)).
Proof using HT. apply (mf_distinct _ _ _ _ (tb_manifest _ _ _ HT)). Qed.
Lemma table_dealt c : c ∈ concat (mjoin (packs_by_seat s)) ++ live_cards f ++ concat (pools s) →
  c ∈ deal_cards deal.
Proof using HT.
  intros Hc. destruct (tb_cards _ _ _ HT) as (gone&_&<-). rewrite !elem_of_app in *. naive_solver.
Qed.
Lemma table_live_nodup : NoDup (ids (live_cards f ++ concat (pools s))).
Proof using HT.
  pose proof table_nodup as Hnd. destruct (tb_cards _ _ _ HT) as (gone&_&Hp).
  unfold ids in *. rewrite <-Hp in Hnd. rewrite !fmap_app in *.
  apply NoDup_app in Hnd as (_&_&Hnd). rewrite app_assoc in Hnd. by apply NoDup_app in Hnd as (?&_).
Qed.
End table_facts.

(** ** What the table looks at *)
Definition stats (st : FifoSeatState) : list QueuedDraftPack * (N * N * N * N) :=
  (queue st, (generation st, has_prompt st, completed_steps st, round_completed_steps st)).
Record same_table (s : DraftSession) (f : FifoDraftState) (s' : DraftSession) (f' : FifoDraftState)
    : Prop := {
  sm_config : config s' = config s;
  sm_kind : kind s' = kind s;
  sm_seats : seats_n s' = seats_n s;
  sm_packs_by_seat : packs_by_seat s' = packs_by_seat s;
  sm_pools : pools s' = pools s;
  sm_sizes : pack_sizes s' = pack_sizes s;
  sm_rnd : rnd s' = rnd s;
  sm_stats : stats <$> fifo_seats f' = stats <$> fifo_seats f;
  sm_packs : fifo_packs f' = fifo_packs f;
  sm_cards : fifo_cards f' = fifo_cards f;
  sm_removed : removed f' = removed f;
  sm_returned : returned_effects f' = returned_effects f;
}.
Section same_table.
Context {s s' : DraftSession} {f f' : FifoDraftState} (H : same_table s f s' f').
Lemma same_live : live f' = live f.
Proof using H.
  unfold live. f_equal. pose proof (f_equal (fmap fst) (sm_stats _ _ _ _ H)) as E.
  by rewrite <-!list_fmap_compose in E.
Qed.
Lemma same_steps : round_steps f' = round_steps f.
Proof using H.
  unfold round_steps. pose proof (f_equal (sum_list_with (λ x, N.to_nat x.2.2)) (sm_stats _ _ _ _ H)) as E.
  assert (∀ l, sum_list_with (λ x, N.to_nat x.2.2) (stats <$> l) =
    sum_list_with (λ st, N.to_nat (round_completed_steps st)) l) as Hs.
  { clear. induction l as [|st l IH]; cbn; [done|]. by rewrite IH. }
  by rewrite !Hs in E.
Qed.
Lemma same_seat i st' : fifo_seats f' !! i = Some st' →
  ∃ st, fifo_seats f !! i = Some st ∧ stats st' = stats st.
Proof using H.
  intros Hi. pose proof (f_equal (lookup i) (sm_stats _ _ _ _ H)) as E.
  rewrite !list_lookup_fmap, Hi in E. destruct (fifo_seats f !! i) as [st|]; [|done].
  exists st. split; [done|]. by apply (inj Some) in E.
Qed.
Lemma same_table_ok deal : table deal s f → table deal s' f'.
Proof using H.
  pose proof same_live as Hl. pose proof same_steps as Hs. pose proof same_seat as Hseat.
  destruct H as [E1 E2 E3 E4 E5 E6 E7 _ E8 E9 E10 E11]. intros [H1 H2 H3 H4 H5 H6 H7 H8 H9 H10].
  assert (live_cards f' = live_cards f) as Hlc by (unfold live_cards; by rewrite Hl).
  assert (seats_n s' = seats_n s ∧ packs_n s' = packs_n s) as [En Ep]
    by (unfold packs_n; by rewrite E1, E3).
  split; rewrite ?Hl, ?Hlc, ?Hs, ?En, ?Ep, ?E4, ?E5, ?E6, ?E7, ?E8, ?E9, ?E10, ?E11; try done.
  - eapply Forall_impl; [exact H5|]. intros h [A B C D].
    split; unfold card_home in *; rewrite ?En, ?E7, ?E1, ?E9, ?E11; done.
  - eapply Forall_impl; [exact H8|]. intros x [A B C D].
    split; unfold passing in *; rewrite ?E7, ?E1, ?E2, ?E8, ?E9; done.
  - intros i st' pool Hst' Hpool. destruct (Hseat i st' Hst') as (st&Hst&Hsame).
    pose proof (H9 i st pool Hst Hpool) as Hp. injection Hsame as _ G1 G2 G3 G4.
    unfold progress_ok in *. by rewrite E2, G1, G2, G3, G4.
Qed.
End same_table.
