(* ===== verification/FifoCheck.v ===== *)
(** * The snapshot check accepts every session of the invariant

    [validate_fifo_snapshot] goes through the manifest, the unopened packs, the live
    packs, the pools and the removed cards with the set of ids it has met; under the
    invariant of [FifoInv] no step of the walk refuses. *)
From S2P Require Import Prelude.
From S2P Require Import DraftTypes.
From S2P Require Import DraftAdmission.
From S2P Require Import DraftPick.
From S2P Require Import Fifo.
From S2P Require Import DraftSnapshot.
From S2P Require Import FifoManifest.
From S2P Require Import FifoInv.
Local Open Scope N_scope.

Lemma refuse_false b : b = false → refuse b = Ok ().
Proof. by intros ->. Qed.
(** One check that passes, then the rest. *)
Lemma refuse_bind {A} b (k : () → outcome DraftError A) : b = false → (refuse b ≫= k) = k ().
Proof. by intros ->. Qed.
Lemma differ_refl n : differ n n = false.
Proof. unfold differ. by rewrite Nat.eqb_refl. Qed.
Lemma differ_eq a b : a = b → differ a b = false.
Proof. intros ->. apply differ_refl. Qed.
Lemma existsb_false {A} (p : A → bool) l : (∀ x, x ∈ l → p x = false) → existsb p l = false.
Proof.
  intros H. apply not_true_iff_false. intros (x&Hx&Hp)%existsb_exists.
  apply list_elem_of_In in Hx. rewrite (H x Hx) in Hp. done.
Qed.

(** ** Owning a list of cards *)
Definition known (f : FifoDraftState) (c : DraftCardInstance) : Prop :=
  ∃ v, fifo_cards f !! instance_id c = Some v ∧ prov_card v = c.
Definition id_set (cs : list DraftCardInstance) : gset string := list_to_set (ids cs).
Lemma elem_of_id_set id cs : id ∈ id_set cs ↔ id ∈ ids cs.
Proof. unfold id_set. by rewrite elem_of_list_to_set. Qed.
Lemma id_set_snoc cs c : {[instance_id c]} ∪ id_set cs = id_set (cs ++ [c]).
Proof. unfold id_set, ids. rewrite fmap_app, list_to_set_app_L. cbn. set_solver. Qed.

Lemma owned_card_ok f cs c : known f c → instance_id c ∉ ids cs →
  validate_owned_card f (id_set cs) c = Ok (id_set (cs ++ [c])).
Proof.
  intros (v&Hv&Hc) Hid. unfold validate_owned_card. rewrite refuse_bind.
  - by rewrite id_set_snoc.
  - rewrite Hv, bool_decide_eq_true_2 by done. cbn. apply bool_decide_eq_false_2.
    by rewrite elem_of_id_set.
Qed.
Lemma owned_cards_ok f cs : ∀ done, Forall (known f) cs → NoDup (ids (done ++ cs)) →
  try_fold (validate_owned_card f) (id_set done) cs = Ok (id_set (done ++ cs)).
Proof.
  induction cs as [|c cs IH]; intros done Hk Hnd; cbn; [by rewrite app_nil_r|].
  inversion Hk as [|? ? Hc Hcs]; subst. rewrite owned_card_ok; [|done|].
  - rewrite IH; [by rewrite <-app_assoc|done|by rewrite <-app_assoc].
  - unfold ids in Hnd. rewrite fmap_app in Hnd. apply NoDup_app in Hnd as (_&Hd&_).
    intros Hin. by apply (Hd _ Hin); left.
Qed.
Lemma owned_pools_ok f ps : ∀ done, Forall (known f) (concat ps) → NoDup (ids (done ++ concat ps)) →
  try_fold (try_fold (validate_owned_card f)) (id_set done) ps = Ok (id_set (done ++ concat ps)).
Proof.
  induction ps as [|p ps IH]; intros done Hk Hnd; cbn; [by rewrite app_nil_r|].
  cbn in Hk. apply Forall_app in Hk as [Hp Hps]. cbn in Hnd. rewrite app_assoc in Hnd.
  rewrite owned_cards_ok; [|done|].
  - rewrite IH by done. by rewrite app_assoc.
  - unfold ids in *. rewrite fmap_app in Hnd. by apply NoDup_app in Hnd as (?&_).
Qed.

(** ** The walk over the live packs *)
Definition returned_in (f : FifoDraftState) (l : list string) : gset string :=
  list_to_set (filter (λ id, is_Some (returned_effects f !! id)) l).
Definition seen_at (f : FifoDraftState) (own : list DraftCardInstance)
    (hs : list QueuedDraftPack) (cs : list DraftCardInstance) : Seen := {|
  owned := id_set (own ++ cs);
  live_origins := list_to_set (q_opening_seat <$> hs);
  live_pack_ids := list_to_set (q_pack_id <$> hs);
  live_returns := returned_in f (ids cs) |}.

Lemma returned_in_snoc f l id : returned_in f (l ++ [id]) =
  if returned_effects f !! id then {[id]} ∪ returned_in f l else returned_in f l.
Proof.
  unfold returned_in. rewrite filter_app, list_to_set_app_L, filter_cons, filter_nil.
  destruct (returned_effects f !! id) eqn:E; case_decide as H; cbn.
  - set_solver.
  - by destruct H.
  - by destruct H.
  - set_solver.
Qed.

Lemma live_card_ok f h own hs cs c : known f c → instance_id c ∉ ids (own ++ cs) →
  card_home f h c →
  check_live_card f h (seen_at f own hs cs) c = Ok (seen_at f own hs (cs ++ [c])).
Proof.
  intros Hk Hid Hhome. unfold check_live_card. cbn [owned seen_at].
  rewrite owned_card_ok by done. cbn [mbind outcome_bind]. unfold card_home in Hhome.
  assert (∀ r, r = returned_in f (ids (cs ++ [c])) →
    {| owned := id_set ((own ++ cs) ++ [c]); live_origins := live_origins (seen_at f own hs cs);
       live_pack_ids := live_pack_ids (seen_at f own hs cs); live_returns := r |} =
    seen_at f own hs (cs ++ [c])) as Heq.
  { intros r ->. unfold seen_at. cbn. by rewrite app_assoc. }
  rewrite ids_app in Heq. cbn in Heq. rewrite returned_in_snoc in Heq.
  destruct (returned_effects f !! instance_id c) as [p|].
  - destruct Hhome as [-> He]. rewrite refuse_bind.
    + by rewrite Heq.
    + by rewrite N.eqb_refl, bool_decide_eq_true_2.
  - destruct Hhome as (v&Hv&Hp). rewrite Hv. cbn [or_panic mbind outcome_bind].
    rewrite refuse_bind; [by rewrite Heq|]. by rewrite Hp, N.eqb_refl.
Qed.
Lemma live_cards_ok f h own hs pack : ∀ cs, Forall (known f) pack →
  NoDup (ids (own ++ cs ++ pack)) → Forall (card_home f h) pack →
  try_fold (check_live_card f h) (seen_at f own hs cs) pack = Ok (seen_at f own hs (cs ++ pack)).
Proof.
  induction pack as [|c pack IH]; intros cs Hk Hnd Hh; cbn; [by rewrite app_nil_r|].
  inversion Hk; inversion Hh; subst. rewrite live_card_ok; [|done| |done].
  - rewrite IH; [by rewrite <-app_assoc|done| |done]. by rewrite <-app_assoc.
  - rewrite app_assoc in Hnd. unfold ids in Hnd. rewrite fmap_app in Hnd.
    apply NoDup_app in Hnd as (_&Hd&_). intros Hin. by apply (Hd _ Hin); left.
Qed.

Section walk.
Context {deal : list (list DraftPack)} {s : DraftSession} {f : FifoDraftState}.
Context (HF : frame s f) (HT : table deal s f).

Lemma known_dealt c : c ∈ deal_cards deal → known f c.
Proof using HT.
  intros (i&r&_&_&Hc&_)%(manifest_card (tb_manifest _ _ _ HT)). by eexists.
Qed.
Lemma known_all cs : (∀ c, c ∈ cs → c ∈ deal_cards deal) → Forall (known f) cs.
Proof using HT. intros H. apply Forall_forall. intros c Hc. by apply known_dealt, H. Qed.

Lemma live_pack_step own hs h : live_ok deal s f h → rnd s = N.to_nat (current_pack_number s) →
  q_opening_seat h ∉ q_opening_seat <$> hs → q_pack_id h ∉ q_pack_id <$> hs →
  Forall (known f) (q_pack h) → NoDup (ids (own ++ concat (q_pack <$> hs) ++ q_pack h)) →
  check_live_pack s f (seen_at f own hs (concat (q_pack <$> hs))) h =
    Ok (seen_at f own (hs ++ [h]) (concat (q_pack <$> hs ++ [h]))).
Proof using HF HT.
  intros [(i&row&pack&Hrow&Hpack&Ho&Hid&Hsz&Hle&Hth) Hr Hne Hhome] Hrnd Hnew Hnew' Hk Hnd.
  unfold check_live_pack. pose proof (tb_manifest _ _ _ HT) as HM.
  destruct (mf_packs _ _ _ _ HM i row (rnd s) pack Hrow Hpack) as [Hp Hlen].
  cbn [fst] in Hp. rewrite Hid, Hp. cbn [ok_or mbind outcome_bind].
  rewrite refuse_bind; [rewrite refuse_bind|].
  - unfold seen_at at 1. cbn [owned live_origins live_pack_ids live_returns].
    rewrite fmap_app, concat_app. cbn. rewrite app_nil_r.
    rewrite <-(live_cards_ok f h own (hs ++ [h])) by done.
    f_equal. unfold seen_at. f_equal; rewrite fmap_app, list_to_set_app_L; cbn; rewrite ?Hid; set_solver.
  - assert (length (q_pack h) ≠ 0%nat) by by destruct (q_pack h).
    rewrite Hsz. apply orb_false_iff. split; [apply orb_false_iff; split|].
    + apply N.eqb_neq. lia.
    + apply N.ltb_ge. lia.
    + apply andb_false_iff. destruct Hth as [Hth|Hth]; [left; apply N.ltb_ge; lia|].
      right. apply N.leb_gt. lia.
  - cbn [prov_opening_seat prov_round prov_original_size provenance seen_at live_origins live_pack_ids].
    rewrite Ho, Hr, Hsz, !N.eqb_refl. cbn.
    apply orb_false_iff. split; [apply orb_false_iff; split|].
    + rewrite Hrnd, N2Nat.id, N.eqb_refl. done.
    + apply bool_decide_eq_false_2. by rewrite elem_of_list_to_set, <-Ho.
    + apply bool_decide_eq_false_2. by rewrite elem_of_list_to_set, <-Hid.
Qed.

Lemma pack_ids_nodup hs : Forall (live_ok deal s f) hs → NoDup (q_opening_seat <$> hs) →
  NoDup (q_pack_id <$> hs).
Proof using HT.
  intros Hall Hnd. apply NoDup_fmap_2_strong with (f := q_pack_id).
  - intros h1 h2 H1 H2 Heq. rewrite Forall_forall in Hall.
    destruct (Hall h1 H1) as [(i&row&pack&Hi&_&Ho&Hid&_) _ _ _].
    destruct (Hall h2 H2) as [(i'&row'&pack'&Hi'&_&Ho'&Hid'&_) _ _ _].
    rewrite Hid, Hid' in Heq. apply pack_no_inj in Heq as [_ <-].
    + apply list_elem_of_lookup in H1 as [a Ha]. apply list_elem_of_lookup in H2 as [b Hb].
      assert (a = b) as ->; [|congruence].
      apply (NoDup_lookup _ a b (q_opening_seat h1) Hnd); rewrite list_lookup_fmap, ?Ha, ?Hb; cbn;
        congruence.
    + apply lookup_lt_Some in Hi. by rewrite (mf_seats _ _ _ _ (tb_manifest _ _ _ HT)) in Hi.
    + apply lookup_lt_Some in Hi'. by rewrite (mf_seats _ _ _ _ (tb_manifest _ _ _ HT)) in Hi'.
  - by eapply NoDup_fmap_1.
Qed.

Lemma live_packs_ok own : ∀ q hs, Forall (live_ok deal s f) (hs ++ q) →
  rnd s = N.to_nat (current_pack_number s) ∨ q = [] →
  NoDup (q_opening_seat <$> hs ++ q) → Forall (known f) (concat (q_pack <$> q)) →
  NoDup (ids (own ++ concat (q_pack <$> hs ++ q))) →
  try_fold (check_live_pack s f) (seen_at f own hs (concat (q_pack <$> hs))) q =
    Ok (seen_at f own (hs ++ q) (concat (q_pack <$> hs ++ q))).
Proof using HF HT.
  induction q as [|h q IH]; intros hs Hall Hr Hnd Hk Hown; cbn [try_fold]; [by rewrite app_nil_r|].
  destruct Hr as [Hr|?]; [|done].
  pose proof (pack_ids_nodup _ Hall Hnd) as Hnd'.
  cbn in Hk. apply Forall_app in Hk as [Hk1 Hk2].
  assert (∀ {A} (g : QueuedDraftPack → A), NoDup (g <$> hs ++ h :: q) →
    g h ∉ g <$> hs) as Hnew.
  { intros A g Hg Hin. rewrite fmap_app in Hg. cbn in Hg. apply NoDup_app in Hg as (_&Hd&_).
    by apply (Hd _ Hin); left. }
  rewrite live_pack_step; [|by rewrite Forall_app, Forall_cons in Hall; destruct_and?|done| | |done|].
  - replace (hs ++ h :: q) with ((hs ++ [h]) ++ q) in * by by rewrite <-app_assoc.
    apply IH; try done. by left.
  - by apply Hnew.
  - by apply Hnew.
  - rewrite fmap_app, concat_app in Hown. cbn in Hown. unfold ids in *.
    rewrite !fmap_app in *. rewrite !app_assoc in *. by apply NoDup_app in Hown as (?&_).
Qed.

Lemma live_take_S i st : fifo_seats f !! i = Some st →
  concat (queue <$> take (S i) (fifo_seats f)) =
  concat (queue <$> take i (fifo_seats f)) ++ queue st.
Proof.
  intros Hi. rewrite (take_S_r _ _ _ Hi), fmap_app, concat_app. cbn. by rewrite app_nil_r.
Qed.
Lemma live_split i st : fifo_seats f !! i = Some st →
  live f = concat (queue <$> take i (fifo_seats f)) ++ queue st
           ++ concat (queue <$> drop (S i) (fifo_seats f)).
Proof.
  intros Hi. unfold live. rewrite <-(take_drop_middle _ _ _ Hi) at 1.
  by rewrite fmap_app, concat_app.
Qed.

(** All that the walk asks of a seat beside its packs. *)
Lemma round_supply_ok : round_supply s f = N.of_nat (length (round_cards deal (rnd s))).
Proof using HT.
  rewrite <-(mf_supply _ _ _ _ (tb_manifest _ _ _ HT) (rnd s)).
  unfold round_supply, supply_of, supply_step, rnd. by rewrite N2Nat.id.
Qed.
Lemma head_metadata_at i st : fifo_seats f !! i = Some st →
  head_metadata s (N.of_nat i) = head (queue st).
Proof using HF. intros Hi. unfold head_metadata. by rewrite (fr_fifo _ _ HF), Nat2N.id; cbn; rewrite Hi. Qed.
Lemma seat_small i st : fifo_seats f !! i = Some st → expect_u8 i = Ok (N.of_nat i).
Proof using HF.
  intros Hi%lookup_lt_Some. rewrite (fr_seats _ _ HF) in Hi. destruct (frame_n _ _ HF) as [? _].
  unfold expect_u8. by destruct (Nat.ltb_spec i 256); [|lia].
Qed.

(** ** One seat *)
Lemma length_concat_le {A} k (L : list (list A)) : (∀ p, p ∈ L → (length p ≤ k)%nat) →
  (length (concat L) ≤ length L * k)%nat.
Proof.
  induction L as [|p L IH]; intros H; cbn; [lia|]. rewrite length_app.
  specialize (H p ltac:(by left)) as Hp. specialize (IH ltac:(intros q Hq; apply H; by right)). lia.
Qed.
Lemma join_concat {A} (L : list (list A)) : mjoin L = concat L.
Proof. induction L as [|l L IH]; cbn; [done|]. by rewrite <-IH. Qed.

Lemma deal_bound : (length (deal_cards deal) ≤ 255 * 8 * 255)%nat.
Proof using HF HT.
  destruct (frame_n _ _ HF) as [Hn _]. destruct (frame_rounds _ _ HF) as [Hp _].
  pose proof (tb_manifest _ _ _ HT) as HM. unfold deal_cards.
  assert (length (mjoin deal) ≤ seats_n s * packs_n s)%nat as H1.
  { rewrite join_concat, <-(mf_seats _ _ _ _ HM). apply length_concat_le.
    intros row [i Hi]%list_elem_of_lookup. by rewrite (mf_rounds _ _ _ _ HM i row Hi). }
  assert (length (concat (mjoin deal)) ≤ length (mjoin deal) * 255)%nat as H2.
  { apply length_concat_le. intros pack (row&Hpk&Hrow)%list_elem_of_join.
    apply list_elem_of_lookup in Hpk as [r Hr]. apply list_elem_of_lookup in Hrow as [i Hi].
    destruct (mf_packs _ _ _ _ HM i row r pack Hi Hr) as [_ ?]. lia. }
  assert (seats_n s * packs_n s ≤ 255 * 8)%nat by (apply Nat.mul_le_mono; lia). lia.
Qed.
Lemma deal_size : N.of_nat (length (deal_cards deal)) + 2 ≤ MAX_DRAFT_JSON_INTEGER.
Proof using HF HT. pose proof deal_bound. unfold MAX_DRAFT_JSON_INTEGER. lia. Qed.

Lemma pool_size i pool : pools s !! i = Some pool → (length pool ≤ length (deal_cards deal))%nat.
Proof using HT.
  intros Hi. destruct (tb_cards _ _ _ HT) as (gone&_&Hp). apply Permutation_length in Hp.
  rewrite <-Hp, !length_app. rewrite <-(take_drop_middle _ _ _ Hi), concat_app, !length_app. cbn.
  rewrite length_app. lia.
Qed.

Lemma seat_counters i st : fifo_seats f !! i = Some st →
  generation st ≤ completed_steps st + has_prompt st ∧
  round_completed_steps st ≤ completed_steps st ∧
  completed_steps st ≤ N.of_nat (length (deal_cards deal)).
Proof using HF HT.
  intros Hi. destruct (lookup_lt_is_Some_2 (pools s) i) as [pool Hpool].
  { rewrite (fr_pools _ _ HF), <-(fr_seats _ _ HF). by apply lookup_lt_Some in Hi. }
  pose proof (tb_progress _ _ _ HT i st pool Hi Hpool) as H. unfold progress_ok in H.
  pose proof (pool_size i pool Hpool). unfold has_prompt in *.
  destruct (distribution _); [destruct H as (?&?&?&?)|destruct H as (->&->&->&_)|done];
    split_and!; lia.
Qed.

Lemma queue_length i st : fifo_seats f !! i = Some st → (length (queue st) ≤ seats_n s)%nat.
Proof using HF HT.
  intros Hi. pose proof (tb_origins _ _ _ HT) as Hnd. pose proof (tb_live _ _ _ HT) as Hall.
  rewrite (live_split i st Hi) in Hnd, Hall. rewrite !fmap_app in Hnd.
  apply NoDup_app in Hnd as (_&_&Hnd). apply NoDup_app in Hnd as (Hnd&_).
  apply Forall_app in Hall as [_ Hall]. apply Forall_app in Hall as [Hall _].
  assert (q_opening_seat <$> queue st ⊆ N.of_nat <$> seq 0 (seats_n s)) as Hsub.
  { intros o (h&->&Hh)%list_elem_of_fmap. rewrite Forall_forall in Hall.
    destruct (Hall h Hh) as [(j&row&pack&Hj&_&->&_) _ _ _]. apply list_elem_of_fmap_2, elem_of_seq.
    apply lookup_lt_Some in Hj. rewrite (mf_seats _ _ _ _ (tb_manifest _ _ _ HT)) in Hj. lia. }
  pose proof (NoDup_submseteq _ _ Hnd Hsub) as Hle%submseteq_length.
  by rewrite !length_fmap, length_seq in Hle.
Qed.

(** Prompts and queues under the three phases the check tells apart. *)
Definition prompts_fit (live_drafting : bool) : Prop :=
  if live_drafting then
    rnd s = N.to_nat (current_pack_number s) ∧ all_prompted s f (is_someb (paused f))
  else live f = [] ∧ no_prompts f.

Lemma scope_check target pz duration now c : scope_ok pz now duration c →
  validate_scope {| clock_target := target; clock_state := c |} target pz duration now = Ok ().
Proof.
  intros H. unfold validate_scope. cbn. rewrite refuse_bind by by rewrite bool_decide_eq_true_2.
  destruct c, pz; try done; apply refuse_false, negb_false_iff; cbn in H.
  - apply andb_true_iff. split; [apply N.leb_le; lia|apply N.leb_le; lia].
  - by apply N.leb_le.
Qed.

Lemma prompt_check ld i st : fifo_seats f !! i = Some st → prompts_fit ld →
  check_prompt s f ld i st = Ok ().
Proof using HF.
  intros Hi Hfit. unfold check_prompt. rewrite (seat_small i st Hi). cbn [mbind outcome_bind].
  rewrite (head_metadata_at i st Hi). destruct ld.
  - destruct Hfit as [_ Hp]. specialize (Hp i st Hi). unfold prompted in Hp.
    destruct (head (queue st)) as [h|]; [|by rewrite Hp].
    destruct Hp as (p&->&[Hid Hg Hpk Hc]). cbn [ok_or mbind outcome_bind].
    rewrite refuse_bind.
    + unfold clock_ok in Hc. destruct (pick_duration _ _), (prompt_clock p) as [[tg c]|]; try done.
      cbn in Hc. destruct Hc as [-> Hc]. by apply scope_check.
    + rewrite Hid, Hpk. cbn. rewrite bool_decide_eq_true_2, Nat2N.id, differ_refl, !N.eqb_refl by done.
      cbn. rewrite orb_false_r, orb_false_r. apply N.eqb_neq. lia.
  - destruct Hfit as [_ Hp]. rewrite (Hp i st Hi). by destruct (head (queue st)).
Qed.

Lemma seat_check ld own i st : fifo_seats f !! i = Some st → prompts_fit ld →
  Forall (known f) (live_cards f) → NoDup (ids (own ++ live_cards f)) →
  let hs := concat (queue <$> take i (fifo_seats f)) in
  let hs' := concat (queue <$> take (S i) (fifo_seats f)) in
  check_seat s f ld (seen_at f own hs (concat (q_pack <$> hs))) (i, st) =
    Ok (seen_at f own hs' (concat (q_pack <$> hs'))).
Proof using HF HT.
  intros Hi Hfit Hk Hnd hs hs'. unfold check_seat.
  destruct (seat_counters i st Hi) as (Hg&Hr&Hc). pose proof deal_size as Hsize.
  assert (has_prompt st ≤ 1) as Hpr by (unfold has_prompt; by destruct (prompt st)).
  rewrite refuse_bind; [rewrite refuse_bind; [rewrite refuse_bind|]|].
  - unfold hs'. rewrite (live_take_S i st Hi). fold hs.
    pose proof (tb_live _ _ _ HT) as Hall. pose proof (tb_origins _ _ _ HT) as Hnd'.
    assert (live f = (hs ++ queue st) ++ concat (queue <$> drop (S i) (fifo_seats f))) as Hsplit
      by (rewrite (live_split i st Hi); unfold hs; by rewrite app_assoc).
    unfold live_cards in *. rewrite Hsplit in Hall, Hnd', Hk, Hnd.
    rewrite fmap_app, concat_app in Hk, Hnd. rewrite fmap_app in Hnd'.
    apply Forall_app in Hall as [Hall _]. apply NoDup_app in Hnd' as (Hnd'&_).
    apply Forall_app in Hk as [Hk _]. rewrite fmap_app, concat_app in Hk.
    apply Forall_app in Hk as [_ Hk].
    rewrite live_packs_ok; try done.
    + cbn [mbind outcome_bind]. by rewrite (prompt_check ld i st Hi Hfit).
    + destruct ld; [left; apply Hfit|right]. destruct Hfit as [Hl _]. rewrite Hsplit in Hl.
      apply app_nil in Hl as [Hl _]. by apply app_nil in Hl as [_ Hl].
    + unfold ids in *. rewrite app_assoc, fmap_app in Hnd. by apply NoDup_app in Hnd as (?&_).
  - apply orb_false_iff. split.
    + destruct ld; [done|]. destruct Hfit as [Hl _]. rewrite (live_split i st Hi) in Hl.
      apply app_nil in Hl as [_ Hl]. apply app_nil in Hl as [Hl _]. by rewrite Hl.
    + apply Nat.ltb_ge. by apply queue_length in Hi.
  - apply N.ltb_ge. rewrite round_supply_ok. pose proof (tb_supply _ _ _ HT) as Hs.
    assert (N.to_nat (round_completed_steps st) ≤ round_steps f)%nat; [|lia].
    unfold round_steps. rewrite <-(take_drop_middle _ _ _ Hi), sum_list_with_app. cbn. lia.
  - pose proof (mf_cards_size _ _ _ _ (tb_manifest _ _ _ HT)) as Hcs. cbn [snd] in Hcs. rewrite Hcs.
    repeat (apply orb_false_iff; split); apply N.ltb_ge; lia.
Qed.

Lemma seats_check ld own : prompts_fit ld →
  Forall (known f) (live_cards f) → NoDup (ids (own ++ live_cards f)) →
  try_fold (check_seat s f ld) (seen_at f own [] []) (imap pair (fifo_seats f)) =
    Ok (seen_at f own (live f) (live_cards f)).
Proof using HF HT.
  intros Hfit Hk Hnd.
  destruct (try_fold_inv (check_seat s f ld) (λ i w,
    w = seen_at f own (concat (queue <$> take i (fifo_seats f)))
          (concat (q_pack <$> concat (queue <$> take i (fifo_seats f)))))
    (imap pair (fifo_seats f)) (seen_at f own [] [])) as (w&->&->); [done| |].
  - intros i x w Hx ->. rewrite list_lookup_imap in Hx.
    destruct (fifo_seats f !! i) as [st|] eqn:Hi; [|done]. cbn in Hx. simplify_eq.
    eexists. split; [|done]. by apply seat_check.
  - rewrite length_imap, take_ge by done. done.
Qed.
End walk.
