(* ===== verification/FifoValid.v ===== *)
(** * Every session of the invariant is a valid snapshot

    The rest of [validate_fifo_snapshot] (the manifest, the unopened packs, the
    removed cards, the pools, the review), and the check as a whole. *)
From S2P Require Import Prelude.
From S2P Require Import DraftTypes.
From S2P Require Import DraftAdmission.
From S2P Require Import DraftPick.
From S2P Require Import Fifo.
From S2P Require Import DraftSnapshot.
From S2P Require Import FifoManifest.
From S2P Require Import FifoInv.
From S2P Require Import FifoCheck.
Local Open Scope N_scope.

Lemma NoDup_concat_elem {A} (L : list (list A)) l : NoDup (concat L) → l ∈ L → NoDup l.
Proof.
  induction L as [|k L IH]; intros Hnd Hl; [by apply elem_of_nil in Hl|].
  cbn in Hnd. apply NoDup_app in Hnd as (?&_&?). apply elem_of_cons in Hl as [->|Hl]; [done|by apply IH].
Qed.
Lemma ids_concat L : ids (concat L) = concat (ids <$> L).
Proof. induction L as [|l L IH]; cbn; [done|]. by rewrite ids_app, IH. Qed.

Section valid.
Context {deal : list (list DraftPack)} {s : DraftSession} {f : FifoDraftState}.
Context (HF : frame s f) (HT : table deal s f).
Local Abbreviation n := (seats_n s).
Local Abbreviation HM := (tb_manifest _ _ _ HT).

Lemma pod_is_n : N.to_nat (pod_size (config s)) = n.
Proof using HF. destruct (frame_n _ _ HF) as [_ ->]. lia. Qed.

(** ** The manifest *)
Definition earlier (r i : nat) (id : string) : Prop :=
  ∃ r' i' row pack, (r' < r ∨ r' = r ∧ i' < i)%nat ∧ deal !! i' = Some row ∧
    row !! r' = Some pack ∧ id ∈ ids pack.
Lemma earlier_next r i row pack id : deal !! i = Some row → row !! r = Some pack →
  earlier r (S i) id ↔ earlier r i id ∨ id ∈ ids pack.
Proof.
  intros Hi Hr. split.
  - intros (r'&i'&row'&pack'&Hlt&Hi'&Hr'&Hid).
    destruct (decide (r' = r ∧ i' = i)) as [[-> ->]|Hne]; [right; congruence|].
    left. exists r', i', row', pack'. split_and!; [lia|done..].
  - intros [(r'&i'&row'&pack'&Hlt&?)|Hid].
    + exists r', i', row', pack'. split; [lia|done].
    + exists r, i, row, pack. split_and!; [lia|done..].
Qed.
Lemma earlier_fresh r i row pack id : deal !! i = Some row → row !! r = Some pack →
  id ∈ ids pack → ¬ earlier r i id.
Proof using HF HT.
  intros Hi Hr Hid (r'&i'&row'&pack'&Hlt&Hi'&Hr'&Hid').
  apply list_elem_of_fmap in Hid as (c&->&Hc). apply list_elem_of_fmap in Hid' as (c'&Heq&Hc').
  destruct (mf_cards _ _ _ _ HM i row r pack c Hi Hr Hc) as [H1 _].
  destruct (mf_cards _ _ _ _ HM i' row' r' pack' c' Hi' Hr' Hc') as [H2 _].
  cbn [snd] in H1, H2. rewrite Heq in H1.
  assert (pack_no n r i = pack_no n r' i') as Hno by congruence.
  apply lookup_lt_Some in Hi, Hi'. rewrite (mf_seats _ _ _ _ HM) in Hi, Hi'.
  apply pack_no_inj in Hno as [<- <-]; lia.
Qed.

Lemma pack_nodup i row r pack : deal !! i = Some row → row !! r = Some pack → NoDup (ids pack).
Proof using HT.
  intros Hi Hr. pose proof (table_nodup HT) as Hnd. unfold deal_cards in Hnd.
  rewrite ids_concat in Hnd. apply (NoDup_concat_elem _ _ Hnd).
  apply list_elem_of_fmap_2, list_elem_of_join. exists row. split; by eapply list_elem_of_lookup_2.
Qed.

Lemma manifest_pack_check r i row pack catalog : deal !! i = Some row → row !! r = Some pack →
  (∀ id, id ∈ catalog ↔ earlier r i id) →
  ∃ catalog', check_manifest_pack s f r catalog i = Ok catalog' ∧
    ∀ id, id ∈ catalog' ↔ earlier r (S i) id.
Proof using HF HT.
  intros Hi Hr Hcat. unfold check_manifest_pack. pose proof pod_is_n as Hpod.
  assert (N.of_nat r * pod_size (config s) + N.of_nat i = pack_no n r i) as -> by (unfold pack_no; lia).
  destruct (mf_packs _ _ _ _ HM i row r pack Hi Hr) as [Hp Hlen]. cbn [fst] in Hp.
  rewrite Hp. cbn [ok_or mbind outcome_bind]. rewrite refuse_bind.
  2:{ cbn. rewrite length_fmap, Nat2N.id, differ_refl, !N.eqb_refl. cbn. rewrite orb_false_r.
      apply N.eqb_neq. lia. }
  assert ((if (i =? 0)%nat then
      n0 ← or_panic (pack_sizes s !! r); refuse (negb (n0 =? prov_original_size (provenance n r i pack)))
    else Ok ()) = Ok ()) as ->.
  { destruct (Nat.eqb_spec i 0) as [->|]; [|done].
    rewrite (tb_sizes _ _ _ HT row Hi), list_lookup_fmap, Hr. cbn.
    by rewrite N.eqb_refl. }
  cbn [mbind outcome_bind original_card_ids provenance].
  destruct (try_fold_inv (check_manifest_card f (pack_no n r i)) (λ j w,
    ∀ id, id ∈ w ↔ earlier r i id ∨ id ∈ take j (ids pack)) (ids pack) catalog) as (w&Hw&Hin).
  - intros id. rewrite Hcat, take_0. split; [by left|]. by intros [?|?%elem_of_nil].
  - intros j id w Hj Hin. unfold check_manifest_card.
    assert (id ∈ ids pack) as Hid by by eapply list_elem_of_lookup_2.
    pose proof Hid as (c&->&Hc)%list_elem_of_fmap.
    destruct (mf_cards _ _ _ _ HM i row r pack c Hi Hr Hc) as [Hcard Hval]. cbn [snd] in Hcard.
    rewrite Hcard. cbn [ok_or mbind outcome_bind]. rewrite refuse_bind.
    + eexists. split; [done|]. intros id. rewrite elem_of_union, elem_of_singleton, Hin.
      rewrite (take_S_r _ _ _ Hj), elem_of_app, list_elem_of_singleton. naive_solver.
    + cbn. rewrite Hval, N.eqb_refl, bool_decide_eq_true_2 by done. cbn.
      apply bool_decide_eq_false_2. rewrite Hin. intros [He|Ht].
      * by eapply earlier_fresh.
      * apply elem_of_take in Ht as (k&Hk&Hlt).
        pose proof (NoDup_lookup _ _ _ _ (pack_nodup i row r pack Hi Hr) Hj Hk). lia.
  - exists w. split; [done|]. intros id. rewrite Hin, take_ge by done. symmetry.
    by apply (earlier_next r i row).
Qed.

Lemma manifest_check : check_manifest s f = Ok (id_set (deal_cards deal)).
Proof using HF HT.
  unfold check_manifest. rewrite pod_is_n.
  destruct (try_fold_inv (λ catalog r, try_fold (check_manifest_pack s f r) catalog (seq 0 n))
    (λ r w, ∀ id, id ∈ w ↔ earlier r 0 id) (seq 0 (packs_n s)) ∅) as (w&Hw&Hin).
  - intros id. split; [by intros ?%elem_of_empty|]. intros (?&?&?&?&?&_). lia.
  - intros r x w Hx Hin. apply lookup_seq in Hx as [-> Hr]. cbn.
    destruct (try_fold_inv (check_manifest_pack s f r) (λ i w, ∀ id, id ∈ w ↔ earlier r i id)
      (seq 0 n) w Hin) as (w'&Hw'&Hin').
    + intros i x w1 Hx Hin1. apply lookup_seq in Hx as [-> Hi].
      destruct (manifest_pack HM i r) as (row&pack&Hrow&Hpack&_); [done..|].
      by eapply manifest_pack_check.
    + exists w'. split; [done|]. intros id. rewrite Hin', length_seq. split.
      * intros (r'&i'&row&pack&Hlt&H). exists r', i', row, pack. split; [lia|done].
      * intros (r'&i'&row&pack&Hlt&Hi&H). exists r', i', row, pack.
        pose proof (lookup_lt_Some _ _ _ Hi) as Hl. rewrite (mf_seats _ _ _ _ HM) in Hl.
        split; [lia|done].
  - fold (packs_n s) in *. rewrite Hw. f_equal. apply set_eq. intros id.
    rewrite Hin, length_seq, elem_of_id_set. split.
    + intros (r&i&row&pack&_&Hi&Hr&(c&->&Hc)%list_elem_of_fmap).
      by eapply elem_of_ids, pack_cards_dealt.
    + intros (c&->&Hc)%list_elem_of_fmap.
      apply (deal_card_at HM) in Hc as (i&row&r&pack&Hi&Hr&Hc&_&Hlt).
      exists r, i, row, pack. split_and!; [lia|done|done|by apply elem_of_ids].
Qed.
Lemma catalog_size : size (id_set (deal_cards deal)) = size (fifo_cards f).
Proof using HT.
  unfold id_set. rewrite size_list_to_set by apply (table_nodup HT).
  unfold ids. rewrite length_fmap. by rewrite <-(mf_cards_size _ _ _ _ HM).
Qed.

(** ** The unopened packs *)
Lemma future_known cs : (∀ c, c ∈ cs → c ∈ concat (mjoin (packs_by_seat s))) → Forall (known f) cs.
Proof using HT.
  intros H. apply (known_all HT). intros c Hc. apply (table_dealt HT), elem_of_app. left. by apply H.
Qed.
Lemma future_nodup : NoDup (ids (concat (mjoin (packs_by_seat s)))).
Proof using HT.
  pose proof (table_nodup HT) as Hnd. destruct (tb_cards _ _ _ HT) as (gone&_&Hperm).
  unfold ids in *. rewrite <-Hperm, fmap_app in Hnd. by apply NoDup_app in Hnd as (?&_).
Qed.
Lemma future_split i future : packs_by_seat s !! i = Some future →
  concat (mjoin (packs_by_seat s)) = (concat (mjoin (take i (packs_by_seat s))) ++ concat future)
    ++ concat (mjoin (drop (S i) (packs_by_seat s))).
Proof using.
  intros Hi. rewrite <-(take_drop_middle _ _ _ Hi) at 1. rewrite !join_concat, concat_app.
  cbn. by rewrite !concat_app, app_assoc.
Qed.
Lemma future_row_check k i row : deal !! i = Some row →
  packs_by_seat s !! i = Some (drop k row) →
  let before := concat (mjoin (take i (packs_by_seat s))) in
  try_fold (check_future_pack f (length (seats s)) k i) (id_set before) (imap pair (drop k row)) =
    Ok (id_set (before ++ concat (drop k row))).
Proof using HF HT.
  intros Hrow Hi before. pose proof (future_split i _ Hi) as Hall. fold before in Hall.
  pose proof future_nodup as Hnd'. rewrite Hall, ids_app in Hnd'. apply NoDup_app in Hnd' as (Hnd'&_).
  destruct (try_fold_inv (check_future_pack f (length (seats s)) k i) (λ o w,
    w = id_set (before ++ concat (take o (drop k row)))) (imap pair (drop k row)) (id_set before))
    as (w&->&->).
  - cbn. by rewrite app_nil_r.
  - intros o x w Hx ->. rewrite list_lookup_imap in Hx.
    destruct (drop k row !! o) as [pack|] eqn:Ho; [|done]. cbn in Hx. simplify_eq.
    eexists. split; [|done]. unfold check_future_pack.
    pose proof Ho as Ho'. rewrite lookup_drop in Ho'.
    destruct (mf_packs _ _ _ _ HM i row _ pack Hrow Ho') as [Hpk _]. cbn [fst] in Hpk.
    unfold pack_no, seats_n in Hpk. rewrite Hpk. cbn [or_panic mbind outcome_bind].
    rewrite refuse_bind by by (cbn; rewrite bool_decide_eq_true_2).
    rewrite (take_S_r _ _ _ Ho), concat_app. cbn [concat]. rewrite app_nil_r, app_assoc.
    apply owned_cards_ok.
    + apply future_known. intros c Hc. rewrite Hall. apply elem_of_app. left. apply elem_of_app. right.
      apply list_elem_of_In, in_concat. exists pack. split; [|by apply list_elem_of_In].
      by eapply list_elem_of_In, list_elem_of_lookup_2.
    + rewrite <-(take_drop_middle _ _ _ Ho) in Hnd'. rewrite concat_app in Hnd'. cbn in Hnd'.
      rewrite !app_assoc in Hnd'. rewrite ids_app in Hnd'. by apply NoDup_app in Hnd' as (?&_).
  - rewrite length_imap, take_ge by done. done.
Qed.
Lemma future_check : try_fold (check_future s f (N.of_nat (S (rnd s)))) ∅
  (imap pair (packs_by_seat s)) = Ok (id_set (concat (mjoin (packs_by_seat s)))).
Proof using HF HT.
  set (k := S (rnd s)). destruct (frame_rounds _ _ HF) as [Hp Hrnd].
  destruct (try_fold_inv (check_future s f (N.of_nat k)) (λ i w,
    w = id_set (concat (mjoin (take i (packs_by_seat s))))) (imap pair (packs_by_seat s)) ∅)
    as (w&->&->).
  - done.
  - intros i x w Hx ->. rewrite list_lookup_imap in Hx.
    destruct (packs_by_seat s !! i) as [future|] eqn:Hi; [|done]. cbn in Hx. simplify_eq.
    eexists. split; [|done]. unfold check_future.
    pose proof Hi as Hdrop. rewrite (tb_future _ _ _ HT), list_lookup_fmap in Hdrop.
    destruct (deal !! i) as [row|] eqn:Hrow; [|done]. cbn in Hdrop. simplify_eq.
    assert (length row = packs_n s) as Hlen by apply (mf_rounds _ _ _ _ HM i row Hrow).
    rewrite refuse_bind.
    2:{ apply differ_eq. rewrite length_drop, Hlen. unfold packs_n, k. lia. }
    rewrite Nat2N.id, future_row_check by done. rewrite (take_S_r _ _ _ Hi). do 2 f_equal.
    rewrite !join_concat, concat_app. cbn. by rewrite app_nil_r, concat_app.
  - rewrite length_imap, take_ge by done. done.
Qed.

(** ** Removed cards, pools and the review *)
Lemma removed_check own gone : ids gone = removed_id <$> removed f →
  (∀ c, c ∈ gone → c ∈ deal_cards deal) → NoDup (ids (own ++ gone)) →
  try_fold (check_removed s f (N.of_nat (S (rnd s)))) (id_set own) (removed f) =
    Ok (id_set (own ++ gone)).
Proof using HF HT.
  intros Hids Hdealt Hnd. pose proof (tb_removed _ _ _ HT) as Hall.
  destruct (try_fold_inv (check_removed s f (N.of_nat (S (rnd s)))) (λ i w,
    w = id_set (own ++ take i gone)) (removed f) (id_set own)) as (w&->&->).
  - by rewrite take_0, app_nil_r.
  - intros i x w Hx ->. rewrite Forall_lookup in Hall.
    destruct (Hall i x Hx) as [(p&Hp&Hr) Hcard Hreason Hpass].
    assert (∃ c, gone !! i = Some c ∧ instance_id c = removed_id x) as (c&Hc&Hid).
    { assert (ids gone !! i = Some (removed_id x)) as Hi
        by by rewrite Hids, list_lookup_fmap, Hx.
      unfold ids in Hi. rewrite list_lookup_fmap in Hi. destruct (gone !! i) as [c|]; [|done].
      cbn in Hi. exists c. split; [done|congruence]. }
    destruct (known_dealt HT c (Hdealt c (list_elem_of_lookup_2 _ _ _ Hc))) as (v&Hv&Hvc).
    rewrite Hid in Hv. unfold check_removed. rewrite Hv. cbn [ok_or mbind outcome_bind].
    rewrite Hp. rewrite refuse_bind.
    + unfold passing in Hpass. rewrite Hpass. rewrite refuse_bind.
      * eexists. split; [done|]. rewrite <-Hid, id_set_snoc, (take_S_r _ _ _ Hc). by rewrite app_assoc.
      * apply negb_false_iff. destruct (removed_reason x); by apply N.ltb_lt.
    + apply orb_false_iff. split; [apply orb_false_iff; split|].
      * destruct (Hcard v Hv) as [->| ->]; [by rewrite N.eqb_refl|].
        rewrite bool_decide_eq_true_2 by done. by rewrite andb_false_r.
      * apply N.leb_gt. lia.
      * apply bool_decide_eq_false_2. rewrite elem_of_id_set, <-Hid. intros Hin.
        rewrite <-(take_drop_middle _ _ _ Hc) in Hnd. rewrite app_assoc in Hnd.
        rewrite ids_app in Hnd. apply NoDup_app in Hnd as (_&Hd&_). by apply (Hd _ Hin); left.
  - rewrite <-(length_fmap removed_id), <-Hids. unfold ids. rewrite length_fmap.
    by rewrite take_ge.
Qed.

Lemma own_pool_check i row : deal !! i = Some row → foreign_card f i (concat row) = Ok false.
Proof using HT.
  intros Hi. assert (∀ cs, (∀ c, c ∈ cs → c ∈ concat row) → foreign_card f i cs = Ok false) as H.
  { induction cs as [|c cs IH]; intros Hcs; cbn; [done|].
    specialize (Hcs c ltac:(by left)) as Hc.
    apply list_elem_of_In, in_concat in Hc as (pack&Hpk&Hc).
    apply list_elem_of_In, list_elem_of_lookup in Hpk as [r Hr]. apply list_elem_of_In in Hc.
    destruct (mf_cards _ _ _ _ HM i row r pack c Hi Hr Hc) as [Hcard _]. cbn [snd] in Hcard.
    rewrite Hcard. cbn [or_panic mbind outcome_bind card_pack_id].
    destruct (mf_packs _ _ _ _ HM i row r pack Hi Hr) as [Hp _]. cbn [fst] in Hp.
    rewrite Hp. cbn [or_panic mbind outcome_bind prov_opening_seat provenance].
    rewrite Nat2N.id, differ_refl. apply IH. intros d Hd. apply Hcs. by right. }
  by apply H.
Qed.
Lemma pools_check : try_fold (λ _ x, check_pool s f x) ()
  (imap pair (zip (fifo_seats f) (pools s))) = Ok ().
Proof using HT.
  destruct (try_fold_inv (λ _ x, check_pool s f x) (λ _ _, True)
    (imap pair (zip (fifo_seats f) (pools s))) ()) as ([]&->&_); [done| |done].
  intros i x [] Hx _. exists (). split; [|done]. rewrite list_lookup_imap in Hx.
  destruct (zip (fifo_seats f) (pools s) !! i) as [[st pool]|] eqn:Hz; [|done].
  cbn in Hx. simplify_eq. apply lookup_zip_Some in Hz as [Hst Hpool].
  pose proof (tb_progress _ _ _ HT i st pool Hst Hpool) as H. unfold progress_ok in H.
  unfold check_pool. destruct (distribution _).
  - destruct H as (_&_&H1&H2). apply refuse_false, orb_false_iff.
    split; by apply N.ltb_ge.
  - destruct H as (->&->&->&row&Hrow&->). by rewrite own_pool_check.
  - done.
Qed.

(** ** The whole check *)
(** What the status says, in the terms of the check. *)
Inductive phase_fits : option DraftActivePhase.t → Prop :=
  | fits_drafting : drafting s f (is_someb (paused f)) → phase_fits (Some DraftActivePhase.Drafting)
  | fits_review : reviewing s f (is_someb (paused f)) → phase_fits (Some DraftActivePhase.Review)
  | fits_over : drafted s f → phase_fits None.

Lemma rnd_over : current_pack_number s = pack_count (config s) →
  N.of_nat (S (rnd s)) = pack_count (config s).
Proof using HF. intros H. destruct (frame_rounds _ _ HF). unfold packs_n, rnd in *. lia. Qed.
Lemma rnd_live : current_pack_number s < pack_count (config s) →
  N.of_nat (S (rnd s)) = current_pack_number s + 1.
Proof using. intros H. rewrite rnd_current by done. lia. Qed.

Lemma pack_sizes_length : length (pack_sizes s) = packs_n s.
Proof using HF HT.
  destruct (frame_n _ _ HF) as [Hn _].
  destruct (lookup_lt_is_Some_2 deal 0) as [row Hrow].
  { rewrite (mf_seats _ _ _ _ HM). lia. }
  rewrite (tb_sizes _ _ _ HT row Hrow), length_fmap. apply (mf_rounds _ _ _ _ HM 0%nat row Hrow).
Qed.

Lemma review_check phase : phase_fits phase →
  check_review s f (bool_decide (phase = Some DraftActivePhase.Review)) (N.of_nat (S (rnd s))) = Ok ().
Proof using.
  intros [[Hp Hr _ Hv _ _]|[_ Hr _ _ _ Hd (c&Hc&Hs)]|[Hr _ _ _ Hv]]; cbn.
  - unfold check_review. by rewrite Hv.
  - rewrite rnd_live by lia. unfold check_review. rewrite Hc. cbn.
    rewrite refuse_bind; [by apply scope_check|]. rewrite !N.eqb_refl. cbn.
    rewrite !orb_false_r. apply orb_false_iff. split; [by apply N.eqb_neq|apply N.leb_gt; lia].
  - unfold check_review. by rewrite Hv.
Qed.

Lemma phase_prompts phase : phase_fits phase →
  prompts_fit (s := s) (f := f) (bool_decide (phase = Some DraftActivePhase.Drafting)).
Proof using.
  intros [[Hp Hr _ _ _ Hpr]|[_ _ _ Hl Hpr _ _]|[_ _ Hl Hpr _]]; cbn; split; try done.
  by apply rnd_current.
Qed.

Lemma card_walk_check phase : phase_fits phase →
  ∃ own w, try_fold (check_future s f (N.of_nat (S (rnd s)))) ∅ (imap pair (packs_by_seat s)) = Ok own ∧
    try_fold (check_seat s f (bool_decide (phase = Some DraftActivePhase.Drafting)))
      {| owned := own; live_origins := ∅; live_pack_ids := ∅; live_returns := ∅ |}
      (imap pair (fifo_seats f)) = Ok w ∧
    w = seen_at f (concat (mjoin (packs_by_seat s))) (live f) (live_cards f) ∧
    (own' ← try_fold (try_fold (validate_owned_card f)) (owned w) (pools s);
     try_fold (check_removed s f (N.of_nat (S (rnd s)))) own' (removed f)) =
      Ok (id_set (deal_cards deal)).
Proof using HF HT.
  intros Hfit. destruct (tb_cards _ _ _ HT) as (gone&Hgone&Hperm).
  set (F := concat (mjoin (packs_by_seat s))) in *.
  assert (∀ c, c ∈ F ++ live_cards f ++ concat (pools s) ++ gone → c ∈ deal_cards deal) as Hin
    by (intros c Hc; by rewrite <-Hperm).
  assert (NoDup (ids (F ++ live_cards f ++ concat (pools s) ++ gone))) as Hnd.
  { pose proof (table_nodup HT) as Hnd. unfold ids in *. by rewrite Hperm. }
  eexists _, _. split; [apply future_check|]. fold F. split_and!; [|done|].
  - change {| owned := _; live_origins := _; live_pack_ids := _; live_returns := _ |} with
      (({| owned := id_set F; live_origins := ∅; live_pack_ids := ∅; live_returns := ∅ |}) : Seen).
    assert ({| owned := id_set F; live_origins := ∅; live_pack_ids := ∅; live_returns := ∅ |} =
      seen_at f F [] []) as -> by (unfold seen_at; by rewrite app_nil_r).
    apply (seats_check HF HT); [by apply phase_prompts| |].
    + apply (known_all HT). intros c Hc. apply Hin. rewrite !elem_of_app. tauto.
    + rewrite app_assoc, ids_app in Hnd. by apply NoDup_app in Hnd as (?&_).
  - cbn [owned seen_at]. rewrite owned_pools_ok.
    + cbn [mbind outcome_bind]. rewrite removed_check with (gone := gone); try done.
      * f_equal. unfold id_set, ids. apply list_to_set_perm_L. by rewrite <-!app_assoc, Hperm.
      * intros c Hc. apply Hin. rewrite !elem_of_app. tauto.
      * by rewrite <-!app_assoc.
    + apply (known_all HT). intros c Hc. apply Hin. rewrite !elem_of_app. tauto.
    + rewrite (app_assoc F), (app_assoc (F ++ _)), ids_app in Hnd. by apply NoDup_app in Hnd as (?&_).
Qed.

Lemma returns_check : differ (size (returned_in f (ids (live_cards f)))) (size (returned_effects f)) = false.
Proof using HT.
  apply differ_eq. rewrite <-(size_dom (D := gset string) (returned_effects f)). f_equal.
  apply set_eq. intros id. unfold returned_in.
  rewrite elem_of_list_to_set, list_elem_of_filter, elem_of_dom. split; [by intros [? _]|].
  intros [p Hp]. split; [by eexists|]. destruct (tb_returned _ _ _ HT id p Hp) as (h&Hh&Hid).
  apply list_elem_of_fmap in Hid as (c&->&Hc). apply elem_of_ids. unfold live_cards.
  apply list_elem_of_In, in_concat. exists (q_pack h).
  split; apply list_elem_of_In; [by apply list_elem_of_fmap_2|done].
Qed.

Lemma validate_started_ok phase : phase_fits phase → validate_started s f phase = Ok ().
Proof using HF HT.
  intros Hfit. pose proof (frame_rounds _ _ HF) as [Hpk _].
  assert (rnd s + 1 ≤ packs_n s)%nat as Hrnd by (destruct (frame_rounds _ _ HF); lia).
  assert ((if bool_decide (phase = Some DraftActivePhase.Drafting)
              || bool_decide (phase = Some DraftActivePhase.Review)
           then current_pack_number s + 1 else pack_count (config s)) = N.of_nat (S (rnd s))) as Hnext.
  { destruct Hfit as [[]|[]|[]]; cbn; [rewrite rnd_live by lia; done..|by rewrite rnd_over]. }
  unfold validate_started. rewrite Hnext. rewrite refuse_bind; cycle 1.
  { rewrite pack_sizes_length. rewrite (mf_size _ _ _ _ HM) || idtac.
    pose proof (mf_size _ _ _ _ HM) as Hsz. cbn [fst] in Hsz. rewrite Hsz.
    unfold seats_n, packs_n. by rewrite !differ_refl. }
  rewrite manifest_check. cbn [mbind outcome_bind].
  rewrite refuse_bind by by rewrite catalog_size, differ_refl.
  rewrite refuse_bind; cycle 1.
  { destruct Hfit as [[]|[]|[]]; try apply andb_false_r; unfold passing in *;
      by rewrite bool_decide_eq_false_2 by congruence. }
  rewrite refuse_bind; cycle 1.
  { destruct Hfit as [[]|[]|[]]; cbn; try done; apply N.leb_gt; lia. }
  rewrite refuse_bind; cycle 1.
  { destruct Hfit as [[]|[]|[]]; cbn; try done. apply negb_false_iff. by apply N.eqb_eq. }
  rewrite refuse_bind; cycle 1.
  { apply andb_false_iff. destruct Hfit as [[_ ? Hd]|[_ ? Hd]|[-> Hd]]; rewrite ?N.eqb_refl.
    1,2: right; apply negb_false_iff, bool_decide_eq_true_2;
      by destruct (N.eqb_spec (current_pack_number s) (pack_count (config s))); [lia|].
    destruct (bool_decide (distribution _ = _)) eqn:Hpass; [right|by left].
    apply bool_decide_eq_true in Hpass. apply negb_false_iff, bool_decide_eq_true_2. by apply Hd. }
  destruct (card_walk_check phase Hfit) as (own&w&Hfut&Hseats&Hw&Hown).
  rewrite Hfut. cbn [mbind outcome_bind]. rewrite Hseats. cbn [mbind outcome_bind].
  rewrite refuse_bind; cycle 1.
  { destruct Hfit as [[_ _ _ _ Hlive _]|[]|[]]; cbn; try done. rewrite Hw. cbn.
    destruct (live f) as [|h l]; [done|]. apply Nat.eqb_neq. intros Hsz%size_empty_inv.
    cbn in Hsz. set_solver. }
  rewrite refuse_bind by by (rewrite Hw; apply returns_check).
  destruct (try_fold (try_fold _) _ (pools s)) as [own'|e|]; try done.
  cbn [mbind outcome_bind] in Hown |- *. rewrite Hown. cbn [mbind outcome_bind].
  rewrite refuse_bind by by rewrite bool_decide_eq_true_2.
  rewrite pools_check. cbn [mbind outcome_bind]. by apply review_check.
Qed.
End valid.

(** ** Sessions of the invariant *)
Lemma SeatFlags_none n i : SeatFlags.get (replicate n false) i = false.
Proof.
  unfold SeatFlags.get, SeatFlags.t in *. destruct (_ !! _) eqn:E; [|done].
  by apply lookup_replicate in E as [-> _].
Qed.
Lemma replicate_none {A} n : existsb is_someb (replicate n (@None A)) = false.
Proof. induction n as [|n IH]; [done|exact IH]. Qed.

(** The part of the check both phases share. *)
Lemma frame_check s f ph :
  frame s f → active_phase s f = Ok ph →
  xorb (bool_decide (status s = DraftStatus.Paused)) (is_someb (paused f)) = false →
  (if bool_decide (status s = DraftStatus.Lobby) then refuse (lobby_dirty s f)
   else validate_started s f ph) = Ok () →
  validate_fifo_snapshot s = Ok ().
Proof.
  intros HF Hph Hpz Hk. pose proof HF as [Hf _ Hc Hkind Hcode Hid Hrev Hnow H1 H2 H3 H4 H5 H6 H7 H8 H9].
  unfold validate_fifo_snapshot.
  apply validate_fifo_config_ok in Hc as [_ Hc]. unfold seats_n in *. rewrite Hc.
  cbn [mbind outcome_bind]. rewrite refuse_bind by by rewrite !bool_decide_eq_true_2.
  unfold fifo_ref. rewrite Hf. cbn [ok_or mbind outcome_bind].
  rewrite refuse_bind; cycle 1.
  { rewrite Hid. apply orb_false_iff. split; by apply N.ltb_ge. }
  rewrite refuse_bind; cycle 1.
  { cbn. rewrite H1, H2, H3, H4, H5, H6, H7, !length_replicate, differ_refl. done. }
  rewrite refuse_bind; cycle 1.
  { rewrite H4, H5, H7, H8, H9, !replicate_none. cbn. rewrite !orb_false_r.
    apply existsb_false. intros. apply SeatFlags_none. }
  rewrite Hph. cbn [mbind outcome_bind]. rewrite Hpz. by rewrite refuse_bind.
Qed.

Lemma started_valid deal s f : started deal s f → validate_fifo_snapshot s = Ok ().
Proof.
  intros [HF HT HP]. unfold phase_ok in HP.
  assert (∃ ph, active_phase s f = Ok ph ∧ phase_fits (s := s) (f := f) ph ∧
    xorb (bool_decide (status s = DraftStatus.Paused)) (is_someb (paused f)) = false ∧
    bool_decide (status s = DraftStatus.Lobby) = false) as (ph&Hph&Hfit&Hpz&Hl).
  { unfold active_phase. destruct (status s) eqn:Hst; try done;
      (destruct HP as (p&Hz&HP) || destruct HP as [HP Hz]); rewrite Hz; cbn;
      (eexists; split_and!; [done| |done..]);
      try destruct (paused_phase p); constructor; by rewrite ?Hz. }
  apply (frame_check s f ph); try done. rewrite Hl.
  by apply (validate_started_ok HF HT).
Qed.

Lemma lobby_valid s f : in_lobby s f → validate_fifo_snapshot s = Ok ().
Proof.
  intros [HF Hst Hf Hsz Hcur Hpools Hpk].
  apply (frame_check s f None); try done.
  - unfold active_phase. by rewrite Hst.
  - rewrite Hst, Hf. done.
  - rewrite Hst. cbn. apply refuse_false. unfold lobby_dirty. rewrite Hf, Hsz, Hcur, Hpools, Hpk. cbn.
    repeat (apply orb_false_iff; split); try done; apply existsb_false;
      intros x [-> _]%elem_of_replicate; done.
Qed.

Lemma fifo_ok_valid s : fifo_ok s → validate_fifo_snapshot s = Ok ().
Proof. intros (f&[H|(deal&H)]); [by eapply lobby_valid|by eapply started_valid]. Qed.
