(* ===== verification/FifoSelect.v ===== *)
(** * Which selections are accepted, and where they move the cards

    The checks of [select_fifo] as one predicate: the prompt of the seat, its time,
    the draft-effect cards, and how many different cards of the pack are named. *)
From S2P Require Import Prelude.
From S2P Require Import DraftTypes.
From S2P Require Import DraftAdmission.
From S2P Require Import DraftPick.
From S2P Require Import Fifo.
From S2P Require Import FifoManifest.
From S2P Require Import FifoInv.
Local Open Scope N_scope.

(** Errors a selection can meet when nothing is wrong with the session. *)
Definition plain {A} (m : outcome DraftError A) : Prop :=
  match m with Ok _ => True | Err e => e ≠ InvalidSnapshot | Panic => False end.
Lemma plain_bind {A B} (m : outcome DraftError A) (g : A → outcome DraftError B) :
  plain m → (∀ a, m = Ok a → plain (g a)) → plain (m ≫= g).
Proof. destruct m; cbn; auto. Qed.

(** ** Effect cards *)
Definition effect_in (pool : list DraftCardInstance) (id : string) : Prop :=
  ∃ c, c ∈ pool ∧ instance_id c = id ∧ draft_effect c = Some DraftEffect.AdditionalPick.
Lemma effect_in_spec pool id : existsb (is_effect_card id) pool = true ↔ effect_in pool id.
Proof.
  rewrite existsb_exists. unfold effect_in, is_effect_card, has_id. split.
  - intros (c&Hc%list_elem_of_In&H). exists c. breflect. done.
  - intros (c&Hc%list_elem_of_In&H1&H2). exists c. split; [done|].
    by rewrite !bool_decide_eq_true_2.
Qed.
Lemma effect_in_spec_false pool id : existsb (is_effect_card id) pool = false ↔ ¬ effect_in pool id.
Proof. rewrite <-effect_in_spec. by destruct (existsb _ _). Qed.

Lemma check_effects_ok pool effects : ∀ before,
  check_effects (Some pool) before effects = Ok () ↔
  NoDup effects ∧ Forall (λ id, id ∉ before) effects ∧ Forall (effect_in pool) effects.
Proof.
  induction effects as [|id effects IH]; intros before; cbn.
  { split; [|done]. intros _. split_and!; constructor. }
  rewrite NoDup_cons, !Forall_cons. case_bool_decide as Hin; [naive_solver|].
  destruct (existsb (is_effect_card id) pool) eqn:He; cbn.
  - apply effect_in_spec in He. rewrite IH. setoid_rewrite not_elem_of_app.
    setoid_rewrite list_elem_of_singleton. rewrite !Forall_forall. split.
    + intros (Hnd&Hb&Hp). split_and!; try done; [|naive_solver].
      intros Hid. by apply (Hb id Hid).
    + intros ((Hid&Hnd)&(_&Hb)&(_&Hp)). split_and!; try done.
      intros x Hx. split; [by apply Hb|]. by intros ->.
  - apply effect_in_spec_false in He. naive_solver.
Qed.
Lemma check_effects_plain pool effects : ∀ before, plain (check_effects pool before effects).
Proof. induction effects as [|id effects IH]; intros before; cbn; [done|]. by repeat case_match. Qed.

(** ** Named cards *)
Lemma has_id_in id pack : existsb (has_id id) pack = true ↔ id ∈ ids pack.
Proof.
  rewrite existsb_exists. unfold has_id, ids. rewrite list_elem_of_fmap. split.
  - intros (c&Hc%list_elem_of_In&H%bool_decide_eq_true). by exists c.
  - intros (c&->&Hc%list_elem_of_In). exists c. split; [done|]. by apply bool_decide_eq_true_2.
Qed.
Definition nameable (effects : list string) (pack : DraftPack) (id : string) : Prop :=
  id ∉ effects ∧ id ∈ ids pack.
Lemma nameable_spec effects pack id :
  bool_decide (id ∈ effects) || negb (existsb (has_id id) pack) = false ↔ nameable effects pack id.
Proof.
  rewrite orb_false_iff, bool_decide_eq_false, negb_false_iff, has_id_in. done.
Qed.
Lemma check_ids_ok role effects pack l : ∀ sel sel',
  check_ids role effects pack l sel = Ok sel' ↔
  sel' = list_to_set l ∪ sel ∧ NoDup l ∧ Forall (λ id, id ∉ sel) l ∧ Forall (nameable effects pack) l.
Proof.
  induction l as [|id l IH]; intros sel sel'; cbn.
  { split.
    - intros [= ->]. split_and!; [set_solver|constructor..].
    - intros (->&_). f_equal. set_solver. }
  rewrite NoDup_cons, !Forall_cons. case_bool_decide as Hin; [naive_solver|].
  destruct (bool_decide (id ∈ effects) || _) eqn:Hn.
  { split; [done|]. intros (_&_&_&Hbad&_). apply nameable_spec in Hbad. congruence. }
  apply nameable_spec in Hn. rewrite IH. rewrite !Forall_forall. split.
  - intros (->&Hnd&Hs&Hp). split_and!; try done; [set_solver..|].
    intros x Hx. specialize (Hs x Hx). set_solver.
  - intros (->&(Hid&Hnd)&(_&Hs)&(_&Hp)). split_and!; try done; [set_solver|].
    intros x Hx. specialize (Hs x Hx). set_solver.
Qed.
Lemma check_ids_plain role effects pack l : ∀ sel, plain (check_ids role effects pack l sel).
Proof. induction l as [|id l IH]; intros sel; cbn; [done|]. by repeat case_match. Qed.
Lemma check_role_ok role effects pack l k sel sel' :
  check_role role effects pack l k sel = Ok sel' ↔ length l = k ∧
  sel' = list_to_set l ∪ sel ∧ NoDup l ∧ Forall (λ id, id ∉ sel) l ∧ Forall (nameable effects pack) l.
Proof.
  unfold check_role. destruct (Nat.eqb_spec (length l) k); cbn; [|naive_solver].
  rewrite check_ids_ok. naive_solver.
Qed.

(** ** What a step takes *)
Definition picks_due (s : DraftSession) (pack : DraftPack) (effects : list string) : nat :=
  match effects with
  | [] => Nat.min (N.to_nat (cards_per_pick (procedure (kind s)))) (length pack)
  | _ => draft_effect_step_size (procedure (kind s)) (length effects)
  end.
Definition burns_due (s : DraftSession) (pack : DraftPack) (picks : nat) : nat :=
  Nat.min (N.to_nat (burns_per_pick (selection_policy (config s)))) (length pack - picks).

(** ** Time *)
(** Nobody is late without a clock; a player must answer before the deadline, and
    the clock answers, for the pack it saw, once the deadline has come. *)
Definition in_time (timing : SelectionTiming) (now pack_id : N) (p : DraftPrompt) : Prop :=
  match timing, prompt_clock p with
  | HumanTiming, None => True
  | HumanTiming, Some c => ∃ d, clock_state c = Running d ∧ now < d
  | Expiry captured d, Some c => captured = pack_id ∧ clock_state c = Running d ∧ d ≤ now
  | Expiry _ _, None => False
  end.
Lemma admit_timing_ok timing now pack_id p :
  admit_timing timing now pack_id p = Ok () ↔ in_time timing now pack_id p.
Proof.
  unfold admit_timing, in_time. destruct timing as [|captured dl], (prompt_clock p) as [[tgt [d|d]]|]; cbn.
  - destruct (N.leb_spec d now); split; try done; [by intros (d'&[= <-]&?); lia|by exists d].
  - by split; [|intros (?&?&_)].
  - done.
  - destruct (N.eqb_spec captured pack_id), (N.ltb_spec now dl); cbn; try case_bool_decide;
      cbn; split; try done; try naive_solver lia.
  - naive_solver.
  - destruct (captured =? pack_id); [|done]. by rewrite bool_decide_eq_false_2.
Qed.

(** The conditions of [admit_selection]. *)
Record legal (s : DraftSession) (f : FifoDraftState) (x : Selection) (timing : SelectionTiming)
    (h : QueuedDraftPack) (st : FifoSeatState) (p : DraftPrompt) (pool : list DraftCardInstance)
    : Prop := {
  lg_status : status s = DraftStatus.Drafting;
  lg_state : fifo_seats f !! N.to_nat (sel_seat x) = Some st;
  lg_head : head (queue st) = Some h;
  lg_prompt : prompt st = Some p;
  lg_prompt_id : prompt_id p = sel_prompt x;
  lg_prompt_pack : prompt_pack p = q_pack_id h;
  lg_prompt_seat : prompt_seat (sel_prompt x) = sel_seat x;
  lg_session : prompt_session (sel_prompt x) = session_id f;
  lg_timing : in_time timing (last_now_ms f) (q_pack_id h) p;
  lg_pool : pools s !! N.to_nat (sel_seat x) = Some pool;
  lg_effects : NoDup (sel_effects x) ∧ Forall (effect_in pool) (sel_effects x);
  lg_picks : length (sel_picked x) = picks_due s (q_pack h) (sel_effects x);
  lg_enough : (picks_due s (q_pack h) (sel_effects x) ≤ length (q_pack h))%nat;
  lg_burns : length (sel_burned x) = burns_due s (q_pack h) (picks_due s (q_pack h) (sel_effects x));
  lg_distinct : NoDup (sel_picked x ++ sel_burned x);
  lg_named : Forall (nameable (sel_effects x) (q_pack h)) (sel_picked x ++ sel_burned x);
}.

Section admission.
Context {s : DraftSession} {f : FifoDraftState} (HF : frame s f).

Lemma head_pack_of seat st h : fifo_seats f !! N.to_nat seat = Some st → head (queue st) = Some h →
  head_pack s seat = Some (q_pack h) ∧ head_metadata s seat = Some h.
Proof using HF.
  intros Hst Hh. unfold head_pack, head_metadata.
  rewrite (fr_flow _ _ HF), (fr_fifo _ _ HF). cbn. rewrite Hst. cbn. by rewrite Hh.
Qed.

Lemma requirements_ok seat st h pool effects r :
  fifo_seats f !! N.to_nat seat = Some st → head (queue st) = Some h →
  pools s !! N.to_nat seat = Some pool →
  selection_requirements s seat effects = Ok r ↔
  NoDup effects ∧ Forall (effect_in pool) effects ∧
  (picks_due s (q_pack h) effects ≤ length (q_pack h))%nat ∧
  r = {| picks := picks_due s (q_pack h) effects;
         burns := burns_due s (q_pack h) (picks_due s (q_pack h) effects) |}.
Proof using HF.
  intros Hst Hh Hpool. destruct (head_pack_of seat st h Hst Hh) as [Hhp _].
  unfold selection_requirements. rewrite Hhp. cbn [ok_or mbind outcome_bind]. rewrite Hpool.
  assert (required_pick_count s seat = picks_due s (q_pack h) []) as Hreq
    by (unfold required_pick_count; by rewrite Hhp).
  split.
  - intros (u&Hc&H)%outcome_bind_ok. destruct u. apply check_effects_ok in Hc as (?&_&?).
    apply outcome_bind_ok in H as (k&Hk&[= <-]). destruct effects as [|e effects].
    + simplify_eq. rewrite Hreq. split_and!; try done. cbn. lia.
    + unfold picks_due. destruct (Nat.ltb_spec (length (q_pack h))
        (draft_effect_step_size (procedure (kind s)) (length (e :: effects)))); [done|].
      injection Hk as <-. by split_and!.
  - intros (Hnd&Hin&Hle&->).
    assert (check_effects (Some pool) [] effects = Ok ()) as ->.
    { apply check_effects_ok. split_and!; try done. apply Forall_forall. by intros ? _ ?%elem_of_nil. }
    cbn [mbind outcome_bind]. destruct effects as [|e effects]; [by rewrite Hreq|].
    unfold picks_due in Hle. destruct (Nat.ltb_spec (length (q_pack h))
      (draft_effect_step_size (procedure (kind s)) (length (e :: effects)))); [lia|done].
Qed.

Lemma admit_selection_ok x timing h :
  admit_selection s x timing = Ok h ↔ ∃ st p pool, legal s f x timing h st p pool.
Proof using HF.
  unfold admit_selection. split.
  - intros (u&H1&H)%outcome_bind_ok. case_bool_decide as Hst; [|done].
    apply outcome_bind_ok in H as (u2&H2&H). case_match eqn:Hseat; [|done]. breflect.
    apply outcome_bind_ok in H as (f'&Hf&H). unfold fifo_ref in Hf. rewrite (fr_fifo _ _ HF) in Hf.
    injection Hf as <-.
    apply outcome_bind_ok in H as (st&Hstate&H). destruct (fifo_seats f !! _) as [st'|] eqn:Hs; [|done].
    injection Hstate as ->.
    apply outcome_bind_ok in H as (h'&Hh&H). unfold head_metadata in Hh.
    rewrite (fr_fifo _ _ HF) in Hh. cbn in Hh. rewrite Hs in Hh. cbn in Hh.
    destruct (head (queue st)) as [h0|] eqn:Hhd; [|done]. injection Hh as ->.
    apply outcome_bind_ok in H as (p&Hp&H). destruct (prompt st) as [p'|] eqn:Hpr; [|done].
    injection Hp as ->.
    apply outcome_bind_ok in H as (u3&H3&H).
    match type of H3 with context [if ?b then _ else _] => destruct b eqn:Hchk; [done|] end. breflect.
    apply outcome_bind_ok in H as ([]&Htime&H). apply admit_timing_ok in Htime.
    destruct (lookup_lt_is_Some_2 (pools s) (N.to_nat (sel_seat x))) as [pool Hpool].
    { by rewrite (fr_pools _ _ HF). }
    apply outcome_bind_ok in H as (r&Hr&H).
    apply (requirements_ok _ st h' pool) in Hr as (?&?&?&->); [|done..]. cbn [picks burns] in H.
    apply outcome_bind_ok in H as (sel&Hsel&H). apply check_role_ok in Hsel as (?&->&?&_&?).
    apply outcome_bind_ok in H as (sel2&Hsel&H). apply check_role_ok in Hsel as (?&->&?&Hd&?).
    injection H as ->. exists st, p, pool. split; try done.
    + apply NoDup_app. split_and!; try done. rewrite Forall_forall in Hd. intros id H1' H2'.
      specialize (Hd id H2'). set_solver.
    + by apply Forall_app.
  - intros (st&p&pool&[Hst Hs Hhd Hpr Hid Hpk Hpseat Hsid Ht Hpool [He1 He2] Hpicks Hen Hburns Hnd Hnm]).
    rewrite bool_decide_eq_true_2 by done. cbn [mbind outcome_bind].
    pose proof (lookup_lt_Some _ _ _ Hpool) as Hlt. rewrite (fr_pools _ _ HF) in Hlt.
    unfold seats_n in Hlt. apply Nat.ltb_lt in Hlt as ->. cbn [mbind outcome_bind].
    unfold fifo_ref. rewrite (fr_fifo _ _ HF). cbn [ok_or mbind outcome_bind]. rewrite Hs.
    cbn [or_panic mbind outcome_bind]. destruct (head_pack_of _ st h Hs Hhd) as [_ ->].
    cbn [ok_or mbind outcome_bind]. rewrite Hpr. cbn [ok_or mbind outcome_bind].
    rewrite Hid, Hpk, Hsid, !bool_decide_eq_true_2 by done. rewrite Hpseat, !N.eqb_refl. cbn [negb orb].
    cbn [mbind outcome_bind]. apply admit_timing_ok in Ht. rewrite Ht. cbn [mbind outcome_bind].
    rewrite (proj2 (requirements_ok (sel_seat x) st h pool (sel_effects x) _ Hs Hhd Hpool)
      (conj He1 (conj He2 (conj Hen eq_refl)))). cbn [mbind outcome_bind picks burns].
    apply NoDup_app in Hnd as (Hn1&Hd&Hn2). apply Forall_app in Hnm as [Hm1 Hm2].
    rewrite (proj2 (check_role_ok _ _ _ _ _ _ (list_to_set (sel_picked x) ∪ ∅))); cycle 1.
    { split_and!; try done. apply Forall_forall. set_solver. }
    cbn [mbind outcome_bind].
    rewrite (proj2 (check_role_ok _ _ _ _ _ _
      (list_to_set (sel_burned x) ∪ (list_to_set (sel_picked x) ∪ ∅)))); [done|].
    split_and!; try done. apply Forall_forall. intros id Hin Hin'. specialize (Hd id). set_solver.
Qed.

Lemma admit_selection_plain x timing : plain (admit_selection s x timing).
Proof using HF.
  unfold admit_selection. apply plain_bind; [by case_bool_decide|]. intros _ _.
  apply plain_bind; [by case_match|]. intros ? Hlt. case_match eqn:Hseat; [|done]. breflect.
  unfold fifo_ref. rewrite (fr_fifo _ _ HF). cbn [ok_or]. apply plain_bind; [done|].
  intros f' [= <-]. destruct (lookup_lt_is_Some_2 (fifo_seats f) (N.to_nat (sel_seat x))) as [st Hst].
  { by rewrite (fr_seats _ _ HF). }
  rewrite Hst. apply plain_bind; [done|]. intros st' [= <-].
  apply plain_bind; [by destruct (head_metadata _ _)|]. intros h _.
  apply plain_bind; [by destruct (prompt st)|]. intros p _.
  apply plain_bind; [by case_match|]. intros _ _.
  apply plain_bind.
  { unfold admit_timing. apply plain_bind; [by repeat case_match|]. intros d _. by repeat case_match. }
  intros ? _. apply plain_bind.
  { unfold selection_requirements. apply plain_bind; [by destruct (head_pack _ _)|]. intros pk _.
    apply plain_bind; [apply check_effects_plain|]. intros _ _.
    apply plain_bind; [by repeat case_match|done]. }
  intros r _. unfold check_role.
  apply plain_bind; [case_match; [done|apply check_ids_plain]|]. intros sel _.
  apply plain_bind; [case_match; [done|apply check_ids_plain]|]. done.
Qed.
End admission.

(** * Where a selection moves the cards

    One accepted selection on the table of the draft: the picked cards to the pool,
    the burned cards out, the draft-effect cards back into the pack, a small
    remainder out, the rest on to the next seat.  The table invariant survives. *)
(** ** The maps of returned cards *)
Lemma lookup_forget {V} l : ∀ (m : gmap string V) id,
  forget l m !! id = if decide (id ∈ l) then None else m !! id.
Proof.
  induction l as [|x l IH]; intros m id; cbn.
  { case_decide as H; [by apply elem_of_nil in H|done]. }
  change (foldl _ _ _) with (forget l (delete x m)). rewrite IH.
  repeat case_decide; try set_solver.
  - assert (id = x) as -> by set_solver. by rewrite lookup_delete_eq.
  - rewrite lookup_delete_ne; [done|set_solver].
Qed.
Lemma lookup_assign {V} (v : V) l : ∀ (m : gmap string V) id,
  assign v l m !! id = if decide (id ∈ l) then Some v else m !! id.
Proof.
  induction l as [|x l IH]; intros m id; cbn.
  { case_decide as H; [by apply elem_of_nil in H|done]. }
  change (foldl _ _ _) with (assign v l (<[x := v]> m)). rewrite IH.
  repeat case_decide; try set_solver.
  - assert (id = x) as -> by set_solver. by rewrite lookup_insert_eq.
  - rewrite lookup_insert_ne; [done|set_solver].
Qed.

(** ** Returning the effect cards *)
Lemma return_effects_ok effects : ∀ pool pack,
  NoDup effects → Forall (effect_in pool) effects → NoDup (ids pool) →
  ∃ pool' ec, return_effects effects pool pack = Ok (pool', pack ++ ec) ∧ ids ec = effects ∧
    pool ≡ₚ ec ++ pool' ∧ pool' `sublist_of` pool ∧
    Forall (λ c, draft_effect c = Some DraftEffect.AdditionalPick) ec.
Proof.
  induction effects as [|id effects IH]; intros pool pack Hnd Hin Hids; cbn.
  { exists pool, []. rewrite app_nil_r. by split_and!. }
  apply NoDup_cons in Hnd as [Hid Hnd]. apply Forall_cons in Hin as [(c&Hc&Hci&He) Hin].
  destruct (position_id_elem id pool) as [i Hi].
  { rewrite <-Hci. by apply elem_of_ids. }
  rewrite Hi. apply position_id in Hi as (c'&Hc'&Hci').
  assert (c' = c) as ->.
  { apply (ids_inj pool); try done; [by eapply list_elem_of_lookup_2|congruence]. }
  cbn. rewrite remove_at_ok by by eapply lookup_lt_Some.
  rewrite (list_lookup_total_correct _ _ _ Hc'). cbn.
  pose proof (vec_remove_perm i pool c Hc') as Hperm.
  assert (NoDup (ids (vec_remove i pool))) as Hids'.
  { unfold ids in *. rewrite Hperm in Hids. by apply NoDup_cons in Hids as [_ ?]. }
  destruct (IH (vec_remove i pool) (pack ++ [c]) Hnd) as (pool'&ec&->&Hec&Hp&Hsub&Hall); [|done|].
  - rewrite Forall_forall in Hin |- *. intros id' Hid'. destruct (Hin id' Hid') as (d&Hd&Hdi&Hde).
    exists d. split_and!; try done. rewrite Hperm in Hd. apply elem_of_cons in Hd as [->|?]; [|done].
    congruence.
  - exists pool', (c :: ec). rewrite <-app_assoc. cbn. split_and!; [done|unfold ids in *; cbn; by rewrite Hci, Hec|..].
    + rewrite Hperm. cbn. by rewrite Hp.
    + etrans; [done|]. apply vec_remove_sublist.
    + by constructor.
Qed.

(** ** Queues *)
Definition with_pack (h : QueuedDraftPack) (pack : DraftPack) : QueuedDraftPack := {|
  q_pack_id := q_pack_id h; q_opening_seat := q_opening_seat h; q_round := q_round h;
  q_original_size := q_original_size h; q_pack := pack |}.
Definition push_back (h : QueuedDraftPack) (st : FifoSeatState) : FifoSeatState :=
  set_queue (queue st ++ [h]) st.
(** Everything of a seat but its queue. *)
Definition counts (st : FifoSeatState) : N * option DraftPrompt * N * N :=
  (generation st, prompt st, completed_steps st, round_completed_steps st).

Lemma live_set f i st st' l : fifo_seats f !! i = Some st → l = <[i := st']> (fifo_seats f) →
  queue st ++ concat (queue <$> l) ≡ₚ queue st' ++ live f.
Proof.
  intros Hi ->. unfold live. rewrite list_fmap_insert. apply concat_set.
  by rewrite list_lookup_fmap, Hi.
Qed.
Lemma live_popped f i st st' h q : fifo_seats f !! i = Some st → queue st = h :: q →
  queue st' = q → live f ≡ₚ h :: concat (queue <$> <[i := st']> (fifo_seats f)).
Proof.
  intros Hi Hq Hq'. pose proof (live_set f i st st' _ Hi eq_refl) as Hp. rewrite Hq, Hq' in Hp.
  apply (Permutation_app_inv_l q). rewrite <-Hp. solve_Permutation.
Qed.
Lemma live_pushed l j st h : l !! j = Some st →
  concat (queue <$> <[j := push_back h st]> l) ≡ₚ concat (queue <$> l) ++ [h].
Proof.
  intros Hj. rewrite list_fmap_insert. apply (Permutation_app_inv_l (queue st)).
  rewrite (concat_set (queue <$> l) j (queue st)) by by rewrite list_lookup_fmap, Hj.
  cbn. solve_Permutation.
Qed.

Definition steps_of (l : list (N * option DraftPrompt * N * N)) : nat :=
  sum_list_with (λ x, N.to_nat x.2) l.
Lemma round_steps_counts f : round_steps f = steps_of (counts <$> fifo_seats f).
Proof. unfold round_steps, steps_of. induction (fifo_seats f) as [|st l IH]; cbn; [done|]. by rewrite IH. Qed.

Lemma progress_counts s deal i st st' pool : counts st = counts st' →
  progress_ok s deal i st pool → progress_ok s deal i st' pool.
Proof. unfold counts, progress_ok, has_prompt. intros [= H1 H2 H3 H4]. by rewrite H1, H2, H3, H4. Qed.

(** ** The table after one selection *)
Section step.
Context {deal : list (list DraftPack)} {s : DraftSession} {f f' : FifoDraftState}.
Context (HF : frame s f) (HT : table deal s f) (Hpass : passing s).
Context (i : nat) (st st' : FifoSeatState) (h : QueuedDraftPack) (q others : list QueuedDraftPack)
  (pool pool' rest out : list DraftCardInstance) (rs : list RemovedDraftCard).
Context (Hst : fifo_seats f !! i = Some st) (Hpool : pools s !! i = Some pool).
Context (Hlive : live f ≡ₚ h :: others)
  (Hlive' : live f' ≡ₚ others ++ match rest with [] => [] | _ => [with_pack h rest] end).
Context (Hcards : q_pack h ++ pool ≡ₚ rest ++ pool' ++ out).
Context (Hless : (length rest < length (q_pack h))%nat).
Context (Hbig : rest = [] ∨ discard_threshold (selection_policy (config s)) < N.of_nat (length rest)).
Context (Hpacks : fifo_packs f' = fifo_packs f) (Hcat : fifo_cards f' = fifo_cards f).
Context (Hrem : removed f' = removed f ++ rs) (Hrs : removed_id <$> rs = ids out)
  (Hrs_ok : Forall (removed_ok s f) rs).
Context (Hcounts : counts <$> fifo_seats f' = counts <$> <[i := st']> (fifo_seats f)).
Context (Hgen : generation st' = generation st) (Hprompt : prompt st' = None)
  (Hcomp : completed_steps st' = completed_steps st + 1)
  (Hround : round_completed_steps st' = round_completed_steps st + 1).
Context (Hgrow : (length pool + 1 ≤ length pool')%nat)
  (Hcap : N.of_nat (length pool') ≤ N.of_nat (length pool) + cards_per_pick (procedure (kind s))).
Context (Hhome : Forall (card_home f' h) rest).
Context (Hsame : ∀ h' c, h' ∈ others → c ∈ q_pack h' →
  returned_effects f' !! instance_id c = returned_effects f !! instance_id c).
Context (Hret : ∀ id p, returned_effects f' !! id = Some p → id ∈ ids rest ∨
  (is_Some (returned_effects f !! id) ∧ id ∉ ids (q_pack h))).

Local Abbreviation s' := (set_pools (<[i := pool']> (pools s)) (set_fifo (Some f') s)).

Lemma step_home h' c : card_home f h' c → h' ∈ others → c ∈ q_pack h' → card_home f' h' c.
Proof using All.
  intros Hc Hh Hin. unfold card_home. rewrite (Hsame h' c Hh Hin), Hcat. done.
Qed.
Lemma step_live : Forall (live_ok deal s' f') (live f').
Proof using All.
  rewrite Hlive'. pose proof (tb_live _ _ _ HT) as Hall. rewrite Hlive in Hall.
  apply Forall_cons in Hall as [Hh Hall]. apply Forall_app. split.
  - rewrite Forall_forall in Hall |- *. intros h' Hin. destruct (Hall h' Hin) as [H1 H2 H3 H4].
    split; try done. rewrite Forall_forall in H4 |- *. intros c Hc. apply step_home; auto.
  - destruct rest as [|c rest']; [constructor|]. apply Forall_singleton.
    destruct Hh as [(k&row&pack&H1&H2&H3&H4&H5&H6&H7) Hr _ _]. split; cbn; try done.
    exists k, row, pack. split_and!; try done; [cbn in Hless; lia|]. right.
    destruct Hbig as [?|?]; [done|]. cbn in *. lia.
Qed.
Lemma step_supply : (round_steps f' + length (live_cards f') ≤ length (round_cards deal (rnd s')))%nat.
Proof using All.
  change (rnd s') with (rnd s). pose proof (tb_supply _ _ _ HT) as Hs.
  assert (length (live_cards f) = length (q_pack h) + length (concat (q_pack <$> others)))%nat as H1.
  { unfold live_cards. rewrite Hlive. cbn. by rewrite length_app. }
  assert (length (live_cards f') = length rest + length (concat (q_pack <$> others)))%nat as H2.
  { unfold live_cards. rewrite Hlive', fmap_app, concat_app, length_app.
    destruct rest; cbn; rewrite ?app_nil_r; cbn; lia. }
  rewrite (round_steps_counts f'), Hcounts.
  assert (steps_of (counts <$> <[i:=st']> (fifo_seats f)) = round_steps f + 1)%nat as H3.
  { rewrite round_steps_counts. pose proof (lookup_lt_Some _ _ _ Hst) as Hlt.
    rewrite insert_take_drop by done. rewrite <-(take_drop_middle _ _ _ Hst) at 3.
    unfold steps_of. rewrite !fmap_app, !sum_list_with_app. cbn. rewrite Hround. lia. }
  rewrite H3. lia.
Qed.
Lemma step_progress k stk pk : fifo_seats f' !! k = Some stk → pools s' !! k = Some pk →
  progress_ok s' deal k stk pk.
Proof using All.
  intros Hk Hp. assert (counts <$> (fifo_seats f' !! k) = counts <$> (<[i := st']> (fifo_seats f) !! k)) as Hc
    by by rewrite <-!list_lookup_fmap, Hcounts.
  rewrite Hk in Hc. cbn in Hp. destruct (decide (k = i)) as [->|Hne].
  - rewrite list_lookup_insert_eq in Hc by by eapply lookup_lt_Some.
    rewrite list_lookup_insert_eq in Hp by by eapply lookup_lt_Some.
    injection Hp as <-. apply (progress_counts _ _ _ st'); [cbn in Hc; congruence|].
    pose proof (tb_progress _ _ _ HT i st pool Hst Hpool) as H. unfold progress_ok in *.
    unfold passing in Hpass. cbn. rewrite Hpass in H |- *. destruct H as (H1&H2&H3&H4).
    unfold has_prompt in *. rewrite Hprompt, Hgen, Hcomp, Hround. destruct (prompt st); lia.
  - rewrite list_lookup_insert_ne in Hc by done. rewrite list_lookup_insert_ne in Hp by done.
    destruct (fifo_seats f !! k) as [st0|] eqn:H0; [|done]. cbn in Hc.
    apply (progress_counts _ _ _ st0); [congruence|]. by apply (tb_progress _ _ _ HT k st0 pk).
Qed.

Lemma table_step : table deal s' f'.
Proof using All.
  split.
  - rewrite Hpacks, Hcat. apply HT.
  - apply HT.
  - destruct (tb_cards _ _ _ HT) as (gone&Hgone&Hperm). exists (gone ++ out).
    rewrite Hrem, fmap_app, ids_app, Hgone, Hrs. split; [done|]. cbn.
    pose proof (concat_set (pools s) i pool pool' Hpool) as Hp.
    assert (q_pack h ++ live_cards f' ≡ₚ rest ++ live_cards f) as Hl.
    { unfold live_cards. rewrite Hlive, Hlive', fmap_app, concat_app. cbn.
      destruct rest; cbn; rewrite ?app_nil_r; solve_Permutation. }
    rewrite <-Hperm. apply (Permutation_app_inv_l (q_pack h ++ pool)).
    transitivity (concat (mjoin (packs_by_seat s)) ++ (q_pack h ++ live_cards f')
      ++ (pool ++ concat (<[i:=pool']> (pools s))) ++ gone ++ out); [solve_Permutation|].
    rewrite Hl, Hp, Hcards. solve_Permutation.
  - apply HT.
  - apply step_live.
  - rewrite Hlive', fmap_app. pose proof (tb_origins _ _ _ HT) as Hnd. rewrite Hlive in Hnd. cbn in Hnd.
    apply NoDup_cons in Hnd as [Hn Hnd]. destruct rest; cbn; [by rewrite app_nil_r|].
    apply NoDup_app. split_and!; [done| |apply NoDup_singleton].
    intros o Ho ->%list_elem_of_singleton. done.
  - intros id p Hid. destruct (Hret id p Hid) as [Hin|[[p0 H0] Hn]].
    + exists (with_pack h rest). split; [|done]. rewrite Hlive', elem_of_app. right.
      destruct rest; [by apply elem_of_nil in Hin|by left].
    + destruct (tb_returned _ _ _ HT id p0 H0) as (h'&Hh'&Hin). rewrite Hlive in Hh'.
      apply elem_of_cons in Hh' as [->|Hh']; [done|]. exists h'. split; [|done].
      rewrite Hlive', elem_of_app. by left.
  - rewrite Hrem. apply Forall_app. split.
    + eapply Forall_impl; [apply (tb_removed _ _ _ HT)|]. intros x [H1 H2 H3 H4].
      split; cbn; rewrite ?Hpacks, ?Hcat; done.
    + eapply Forall_impl; [exact Hrs_ok|]. intros x [H1 H2 H3 H4].
      split; cbn; rewrite ?Hpacks, ?Hcat; done.
  - apply step_progress.
  - apply step_supply.
Qed.
End step.
