(* ===== verification/FifoPrompt.v ===== *)
(** * Prompts, clocks and rounds of a first-in first-out draft

    The operations as computations that can only fail because a deadline would leave
    the range of exact JSON integers ([runs]), and what reconciling the prompts does
    to each seat. *)
From S2P Require Import Prelude.
From S2P Require Import DraftTypes.
From S2P Require Import DraftAdmission.
From S2P Require Import Fifo.
From S2P Require Import FifoManifest.
From S2P Require Import FifoInv.
From S2P Require Import FifoCheck.
From S2P Require Import FifoSelect.
Local Open Scope N_scope.

(** ** Computations that fail only when it is too late *)
Definition runs {A} (late : Prop) (m : FifoM A) (Q : A → DraftSession → Prop) (s : DraftSession)
    : Prop :=
  match m s with
  | (Ok a, s') => Q a s'
  | (Err e, _) => e = InvalidClockBounds ∧ late
  | (Panic, _) => False
  end.

Section runs.
Context {late : Prop}.
Lemma runs_bind {A B} (m : FifoM A) (g : A → FifoM B) Q s :
  runs late m (λ a s', runs late (g a) Q s') s → runs late (m ≫= g) Q s.
Proof. unfold runs, mbind, stM_bind. destruct (m s) as [[a|e|] s']; auto. Qed.
Lemma runs_mono {A} (m : FifoM A) (Q Q' : A → DraftSession → Prop) s :
  runs late m Q s → (∀ a s', Q a s' → Q' a s') → runs late m Q' s.
Proof. unfold runs. destruct (m s) as [[a|e|] s']; auto. Qed.
Lemma runs_ret {A} (a : A) (Q : A → DraftSession → Prop) s : Q a s → runs late (mret a) Q s.
Proof. done. Qed.
Lemma runs_modify g (Q : () → DraftSession → Prop) s : Q () (g s) → runs late (modify g) Q s.
Proof. done. Qed.
Lemma runs_get (Q : DraftSession → DraftSession → Prop) s : Q s s → runs late get Q s.
Proof. done. Qed.
Lemma runs_lift {A} (m : outcome DraftError A) a (Q : A → DraftSession → Prop) s :
  m = Ok a → Q a s → runs late (lift m) Q s.
Proof. by intros ->. Qed.
Lemma runs_modify_fifo g f (Q : () → DraftSession → Prop) s : fifo s = Some f →
  Q () (set_fifo (Some (g f)) s) → runs late (modify_fifo g) Q s.
Proof.
  intros Hf HQ. unfold runs, modify_fifo, mbind, stM_bind, get, lift, fifo_ref, put. by rewrite Hf.
Qed.
End runs.

Lemma runs_weaken {A} (late late' : Prop) (m : FifoM A) Q s :
  (late → late') → runs late m Q s → runs late' m Q s.
Proof. unfold runs. destruct (m s) as [[a|e|] s']; naive_solver. Qed.

(** No time is left for another clock. *)
Definition too_late (now : N) : Prop := MAX_DRAFT_JSON_INTEGER < now + MAX_DRAFT_DURATION_MS.

Lemma increment_ok v : v + 1 ≤ MAX_DRAFT_JSON_INTEGER → increment v = Ok (v + 1).
Proof.
  intros H. unfold increment, checked_json_add.
  destruct (N.ltb_spec (v + 1) (2 ^ 64)) as [_|Hlt].
  - by destruct (N.leb_spec (v + 1) MAX_DRAFT_JSON_INTEGER); [|lia].
  - unfold MAX_DRAFT_JSON_INTEGER in H. lia.
Qed.
Lemma checked_json_add_cases a b :
  (a + b ≤ MAX_DRAFT_JSON_INTEGER ∧ checked_json_add a b = Ok (a + b)) ∨
  (MAX_DRAFT_JSON_INTEGER < a + b ∧ checked_json_add a b = Err InvalidClockBounds).
Proof.
  unfold checked_json_add. destruct (N.leb_spec (a + b) MAX_DRAFT_JSON_INTEGER); [left|right].
  - split; [done|]. destruct (N.ltb_spec (a + b) (2 ^ 64)); [done|].
    unfold MAX_DRAFT_JSON_INTEGER in *. lia.
  - split; [done|]. by destruct (_ <? _).
Qed.

(** ** Durations *)
Definition fair_policy (policy : PickClockPolicy.t) : Prop :=
  ∀ steps d, pick_duration policy steps = Some d → 0 < d ≤ MAX_DRAFT_DURATION_MS.
Lemma config_fair s f : frame s f → fair_policy (policy_of s).
Proof.
  intros HF steps d. unfold policy_of, pick_duration. pose proof (fc_pick _ _ (frame_config s f HF)) as Hp.
  destruct (pick_clock _) as [|d'|]; intros H; simplify_eq; [by apply Hp|].
  assert (Forall (λ d, 0 < d ≤ MAX_DRAFT_DURATION_MS) SEAT_STEP_MS) as Hall.
  { unfold SEAT_STEP_MS, MAX_DRAFT_DURATION_MS. repeat constructor; lia. }
  by apply (Forall_lookup_1 _ _ _ _ Hall H).
Qed.

(** ** Reconciling the prompt of a seat *)
(** A seat whose prompt, if it has one, is for the front of its queue. *)
Definition ready (sid : string) (policy : PickClockPolicy.t) (now : N) (i : nat)
    (st : FifoSeatState) : Prop :=
  prompt st = None ∨ prompted sid policy false now i st.

Record reconciled (sid : string) (policy : PickClockPolicy.t) (now : N) (i : nat)
    (st st' : FifoSeatState) : Prop := {
  rc_prompted : prompted sid policy false now i st';
  rc_queue : queue st' = queue st;
  rc_completed : completed_steps st' = completed_steps st;
  rc_round : round_completed_steps st' = round_completed_steps st;
  rc_kept : ∀ p, prompt st = Some p → st' = st;
  rc_new : prompt st = None → queue st ≠ [] → generation st' = generation st + 1;
  rc_none : queue st = [] → prompt st' = None ∧ generation st' = generation st;
  rc_live : ∀ p c, prompt st = None → prompt st' = Some p → prompt_clock p = Some c →
    ∃ d, clock_state c = Running (now + d) ∧ 0 < d;
}.

Lemma reconcile_seat_ok sid policy now i st :
  fair_policy policy → (i < 256)%nat → generation st + 1 ≤ MAX_DRAFT_JSON_INTEGER →
  ready sid policy now i st →
  (∃ st', reconcile_seat sid policy now i st = Ok st' ∧ reconciled sid policy now i st st') ∨
  (reconcile_seat sid policy now i st = Err InvalidClockBounds ∧ too_late now).
Proof.
  intros Hfair Hi Hg Hready. unfold reconcile_seat.
  destruct (queue st) as [|h q] eqn:Hq; cbn [head].
  { left. eexists. split; [done|]. split; try done.
    - unfold prompted. cbn. by rewrite Hq.
    - intros p Hp. destruct Hready as [?|Hr]; [congruence|].
      unfold prompted in Hr. rewrite Hq in Hr. cbn in Hr. congruence.
    }
  destruct Hready as [Hnone|Hp]; cycle 1.
  { unfold prompted in Hp. rewrite Hq in Hp. cbn in Hp. destruct Hp as (p&Hp&Hask).
    left. rewrite Hp, (ask_pack _ _ _ _ _ _ _ _ Hask), N.eqb_refl. exists st. split; [done|].
    split; try done; try congruence. unfold prompted. rewrite Hq. cbn. by exists p. }
  rewrite Hnone, increment_ok by done. cbn [mbind outcome_bind].
  unfold expect_u8. destruct (Nat.ltb_spec i 256); [|lia]. cbn [mbind outcome_bind].
  set (id := {| prompt_session := sid; prompt_seat := N.of_nat i;
                prompt_generation := generation st + 1 |}).
  assert (∀ clock, clock_ok policy false now (round_completed_steps st)
      {| prompt_id := id; prompt_pack := q_pack_id h; prompt_clock := clock |} →
    (∀ c, clock = Some c → ∃ d, clock_state c = Running (now + d) ∧ 0 < d) →
    reconciled sid policy now i st (set_prompt (Some {| prompt_id := id;
      prompt_pack := q_pack_id h; prompt_clock := clock |}) (set_generation (generation st + 1) st)))
    as Hdone.
  { intros clock Hc Hl. split; try done; try congruence.
    - unfold prompted. cbn. rewrite Hq. cbn. eexists. split; [done|]. split; try done. cbn. lia.
    - intros p c _ [= <-]. cbn. apply Hl. }
  unfold clock_ok in Hdone. cbn [prompt_clock prompt_id] in Hdone.
  destruct (pick_duration policy (round_completed_steps st)) as [d|] eqn:Hd; cycle 1.
  { left. eexists. split; [done|]. by apply Hdone. }
  specialize (Hfair _ _ Hd) as [Hd0 Hd1]. unfold running, deadline.
  destruct (checked_json_add_cases now d) as [[Hle ->]|[Hlt ->]]; cbn.
  - left. eexists. split; [done|]. apply Hdone; [|intros c [= <-]; by exists d].
    split; [done|]. cbn. lia.
  - right. split; [done|]. unfold too_late. lia.
Qed.

Lemma reconcile_seats_ok sid policy now l : ∀ k,
  fair_policy policy → (k + length l ≤ 256)%nat →
  (∀ j st, l !! j = Some st → generation st + 1 ≤ MAX_DRAFT_JSON_INTEGER ∧
    ready sid policy now (k + j) st) →
  (∃ l', reconcile_seats sid policy now k l = Ok l' ∧ length l' = length l ∧
    ∀ j st, l !! j = Some st → ∃ st', l' !! j = Some st' ∧
      reconciled sid policy now (k + j) st st') ∨
  (reconcile_seats sid policy now k l = Err InvalidClockBounds ∧ too_late now).
Proof.
  induction l as [|st l IH]; intros k Hfair Hk Hall; cbn [reconcile_seats].
  { left. by exists []. }
  cbn in Hk. destruct (Hall 0%nat st eq_refl) as [Hg Hr]. rewrite Nat.add_0_r in Hr.
  destruct (reconcile_seat_ok sid policy now k st) as [(st'&->&Hst)|[-> Hl]]; try done; [lia| |by right].
  cbn [mbind outcome_bind].
  destruct (IH (S k)) as [(l'&->&Hlen&Hl')|[-> Hl]]; try done; [lia| | |by right].
  { intros j st0 Hj. rewrite Nat.add_succ_l, <-Nat.add_succ_r. by apply (Hall (S j)). }
  left. eexists. split; [done|]. cbn. split; [lia|]. intros [|j] st0 Hj; cbn in *.
  - simplify_eq. rewrite Nat.add_0_r. by eexists.
  - rewrite Nat.add_succ_r. by apply Hl'.
Qed.

(** ** Reconciling the session *)
(** The table does not look at prompts, but for the count of generations. *)
Lemma table_reseat deal s f l' : table deal s f → passing s →
  length l' = length (fifo_seats f) →
  (∀ j st, fifo_seats f !! j = Some st → ∃ st', l' !! j = Some st' ∧ queue st' = queue st ∧
    completed_steps st' = completed_steps st ∧
    round_completed_steps st' = round_completed_steps st ∧
    generation st' ≤ completed_steps st' + has_prompt st') →
  ∀ f', f' = set_fifo_seats l' f → table deal (set_fifo (Some f') s) f'.
Proof.
  intros HT Hpass Hlen Hall f' ->. set (f' := set_fifo_seats l' f).
  assert (live f' = live f) as Hlive.
  { unfold live. f_equal. apply list_eq. intros j. cbn. rewrite !list_lookup_fmap.
    destruct (fifo_seats f !! j) as [st|] eqn:Hj.
    - destruct (Hall j st Hj) as (st'&->&Hq&_). cbn. by rewrite Hq.
    - rewrite lookup_ge_None_2; [done|]. rewrite Hlen. by apply lookup_ge_None. }
  assert (round_steps f' = round_steps f) as Hsteps.
  { unfold round_steps. cbn. revert Hall Hlen. generalize (fifo_seats f). clear. intros l.
    revert l'. induction l as [|st l IH]; intros [|st' l'] Hall Hlen; try done.
    destruct (Hall 0%nat st eq_refl) as (st0&[= <-]&_&_&Hr&_). cbn. rewrite Hr. f_equal.
    apply IH; [|by injection Hlen]. intros j. apply (Hall (S j)). }
  destruct HT as [H1 H2 H3 H4 H5 H6 H7 H8 H9 H10]. split; try done; rewrite ?Hlive; try done.
  - unfold live_cards. rewrite Hlive. done.
  - eapply Forall_impl; [exact H5|]. intros h [A B C D]. by split.
  - eapply Forall_impl; [exact H8|]. intros h [A B C D]. by split.
  - intros i st' pool Hst' Hpool. cbn in Hst', Hpool.
    destruct (lookup_lt_is_Some_2 (fifo_seats f) i) as [st Hst].
    { rewrite <-Hlen. by eapply lookup_lt_Some. }
    destruct (Hall i st Hst) as (st0&Hst0&_&Hc&Hr&Hg). assert (st0 = st') as -> by congruence.
    pose proof (H9 i st pool Hst Hpool) as H. unfold progress_ok, passing in *. cbn.
    rewrite Hpass in H |- *. rewrite Hc, Hr in *. naive_solver.
  - unfold live_cards. rewrite Hlive, Hsteps. done.
Qed.

Lemma frame_fifo s f f' : frame s f → session_id f' = session_id f →
  revision f' ≤ MAX_DRAFT_JSON_INTEGER → last_now_ms f' ≤ MAX_DRAFT_JSON_INTEGER →
  length (fifo_seats f') = length (fifo_seats f) → frame (set_fifo (Some f') s) f'.
Proof. intros [] Hid ? ? Hlen. split; try done; cbn; by rewrite ?Hid, ?Hlen. Qed.

Lemma reconcile_prompts_ok deal s f : frame s f → table deal s f → passing s →
  (∀ j st, fifo_seats f !! j = Some st → ready (session_id f) (policy_of s) (last_now_ms f) j st) →
  runs (too_late (last_now_ms f)) (reconcile_prompts (last_now_ms f)) (λ _ s', ∃ l',
    let f' := set_fifo_seats l' f in
    s' = set_fifo (Some f') s ∧ frame s' f' ∧ table deal s' f' ∧ length l' = length (fifo_seats f) ∧
    ∀ j st, fifo_seats f !! j = Some st → ∃ st', l' !! j = Some st' ∧
      reconciled (session_id f) (policy_of s) (last_now_ms f) j st st') s.
Proof.
  intros HF HT Hpass Hready. unfold reconcile_prompts. apply runs_bind, runs_get.
  apply runs_bind. eapply runs_lift; [unfold fifo_ref; by rewrite (fr_fifo _ _ HF)|].
  fold (policy_of s). pose proof (deal_size HF HT) as Hsize.
  destruct (reconcile_seats_ok (session_id f) (policy_of s) (last_now_ms f) (fifo_seats f) 0)
    as [(l'&Heq&Hlen&Hall)|[Heq Hlate]].
  - by eapply config_fair.
  - rewrite (fr_seats _ _ HF). destruct (frame_n _ _ HF). lia.
  - intros j st Hj. split; [|by apply Hready].
    destruct (seat_counters HF HT j st Hj) as (Hg&_&Hc).
    destruct (lookup_lt_is_Some_2 (pools s) j) as [pool Hpool].
    { rewrite (fr_pools _ _ HF), <-(fr_seats _ _ HF). by eapply lookup_lt_Some. }
    assert (has_prompt st ≤ 1) by (unfold has_prompt; by destruct (prompt st)). lia.
  - apply runs_bind. eapply runs_lift; [done|].
    apply (runs_modify_fifo _ f); [by apply HF|]. exists l'. cbn zeta.
    split; [done|]. split; [|split; [|by split]].
    + eapply frame_fifo; try done; apply HF.
    + eapply table_reseat; try done. intros j st Hj.
      destruct (Hall j st Hj) as (st'&Hst'&[Hp Hq Hc Hr Hk Hn Hz _]). exists st'.
      split_and!; try done. destruct (seat_counters HF HT j st Hj) as (Hg&_&_).
      unfold has_prompt in *. destruct (prompt st) as [p|] eqn:Hpr.
      * rewrite (Hk p eq_refl), Hpr. done.
      * destruct (queue st) as [|h q] eqn:Hqe.
        -- destruct (Hz eq_refl) as [-> ->]. rewrite Hc. done.
        -- rewrite (Hn eq_refl) by done. unfold prompted in Hp. rewrite Hq in Hp. cbn in Hp.
           destruct Hp as (p&->&_). lia.
  - apply runs_bind. unfold runs, lift. rewrite Heq. done.
Qed.

(** * Opening and finishing a round

    A round opens with the next pack of every seat in its queue; when the last pack
    of a round is gone, the draft is over, or a review begins, or the next round
    opens at once. *)
(** ** The seat loop of [open_fifo_round] *)
Definition fresh_pack (n r i : nat) (pack : DraftPack) : QueuedDraftPack := {|
  q_pack_id := pack_no n r i; q_opening_seat := N.of_nat i; q_round := N.of_nat r;
  q_original_size := N.of_nat (length pack); q_pack := pack |}.
Definition open_seat (n r i : nat) (row : list DraftPack) (st : FifoSeatState) : FifoSeatState :=
  set_queue (queue st ++ [fresh_pack n r i (default [] (head row))]) (set_round_completed_steps 0 st).
Fixpoint open_rows (n r k : nat) (rows : list (list DraftPack)) (l : list FifoSeatState)
    : list FifoSeatState :=
  match rows, l with
  | row :: rows, st :: l => open_seat n r k row st :: open_rows n r (S k) rows l
  | _, _ => []
  end.
Fixpoint fresh_packs (n r k : nat) (rows : list (list DraftPack)) : list QueuedDraftPack :=
  match rows with
  | [] => []
  | row :: rows => fresh_pack n r k (default [] (head row)) :: fresh_packs n r (S k) rows
  end.

Lemma length_open_rows n r rows : ∀ k l, length rows = length l →
  length (open_rows n r k rows l) = length l.
Proof. induction rows as [|row rows IH]; intros k [|st l] H; cbn in *; try done. by rewrite IH by lia. Qed.
Lemma lookup_open_rows n r rows : ∀ k l j st', open_rows n r k rows l !! j = Some st' →
  ∃ row st, rows !! j = Some row ∧ l !! j = Some st ∧ st' = open_seat n r (k + j) row st.
Proof.
  induction rows as [|row rows IH]; intros k [|st l] [|j] st' H; cbn in *; try done.
  - simplify_eq. exists row, st. by rewrite Nat.add_0_r.
  - apply IH in H as (row'&st0&?&?&->). exists row', st0. by rewrite Nat.add_succ_r.
Qed.
Lemma lookup_open_rows_Some n r rows : ∀ k l j row st, rows !! j = Some row → l !! j = Some st →
  open_rows n r k rows l !! j = Some (open_seat n r (k + j) row st).
Proof.
  induction rows as [|row0 rows IH]; intros k [|st0 l] [|j] row st H1 H2; cbn in *; try done.
  - simplify_eq. by rewrite Nat.add_0_r.
  - rewrite Nat.add_succ_r. by apply (IH (S k)).

Qed.
Lemma queues_open_rows n r rows : ∀ k l, length rows = length l →
  concat (queue <$> l) = [] → concat (queue <$> open_rows n r k rows l) = fresh_packs n r k rows.
Proof.
  induction rows as [|row rows IH]; intros k [|st l] H Hq; cbn in *; try done.
  apply app_nil in Hq as [-> Hq]. cbn. by rewrite IH by (done || lia).
Qed.
Lemma steps_open_rows n r rows : ∀ k l,
  sum_list_with (λ st, N.to_nat (round_completed_steps st)) (open_rows n r k rows l) = 0%nat.
Proof. induction rows as [|row rows IH]; intros k [|st l]; cbn; try done. apply IH. Qed.
Lemma origins_fresh n r rows : ∀ k,
  q_opening_seat <$> fresh_packs n r k rows = N.of_nat <$> seq k (length rows).
Proof. induction rows as [|row rows IH]; intros k; cbn; [done|]. by rewrite IH. Qed.
Lemma lookup_fresh n r rows : ∀ k j h, fresh_packs n r k rows !! j = Some h →
  ∃ row, rows !! j = Some row ∧ h = fresh_pack n r (k + j) (default [] (head row)).
Proof.
  induction rows as [|row rows IH]; intros k [|j] h H; cbn in *; try done.
  - simplify_eq. exists row. by rewrite Nat.add_0_r.
  - apply IH in H as (row'&?&->). exists row'. by rewrite Nat.add_succ_r.
Qed.
Lemma cards_fresh n r rows : ∀ k,
  concat (q_pack <$> fresh_packs n r k rows) = concat ((λ row, default [] (head row)) <$> rows).
Proof. induction rows as [|row rows IH]; intros k; cbn; [done|]. by rewrite IH. Qed.

Lemma open_seats_ok rnd0 n (rows : list (list DraftPack)) : ∀ (A : list (list DraftPack)) C D s f late,
  fifo s = Some f → packs_by_seat s = A ++ rows → fifo_seats f = C ++ D →
  length A = length C → length rows = length D → pod_size (config s) = N.of_nat n →
  (∀ j row, rows !! j = Some row → ∃ pack row', row = pack :: row' ∧
     fifo_packs f !! pack_no n rnd0 (length A + j) =
       Some (provenance n rnd0 (length A + j) pack)) →
  let f' := set_fifo_seats (C ++ open_rows n rnd0 (length A) rows D) f in
  runs late (open_seats (N.of_nat rnd0) (seq (length A) (length rows)))
    (λ _ s', s' = set_fifo (Some f') (set_packs_by_seat (A ++ (tail <$> rows)) s)) s.
Proof.
  induction rows as [|row rows IH]; intros A C D s f late Hf Hrows Hseats HAC HBD Hpod Hall f'.
  { destruct D; [|done]. cbn. rewrite app_nil_r in *. unfold f'. rewrite <-Hrows. cbn.
    rewrite app_nil_r, <-Hseats. destruct s, f. cbn in *. by subst. }
  destruct D as [|st D]; [done|]. injection HBD as HBD.
  destruct (Hall 0%nat row eq_refl) as (pack&row'&->&Hpk). rewrite Nat.add_0_r in Hpk.
  cbn [open_seats seq length]. apply runs_bind, runs_get. apply runs_bind.
  eapply runs_lift; [by rewrite Hrows, list_lookup_middle|]. apply runs_bind, runs_modify.
  apply runs_bind. eapply runs_lift; [unfold fifo_ref; cbn; by rewrite Hf|].
  assert (N.of_nat rnd0 * pod_size (config s) + N.of_nat (length A) = pack_no n rnd0 (length A)) as Hno
    by (unfold pack_no; lia).
  rewrite Hno. apply runs_bind. eapply runs_lift; [by rewrite Hpk|]. apply runs_bind.
  eapply runs_lift; [by rewrite Hseats, HAC, list_lookup_middle|]. apply runs_bind.
  apply (runs_modify_fifo _ f); [done|].
  match goal with |- runs _ _ _ (set_fifo (Some ?x) ?y) =>
    set (f1 := x); set (s1 := set_fifo (Some f1) y) end.
  assert (packs_by_seat s1 = (A ++ [row']) ++ rows) as Hrows1.
  { cbn. rewrite Hrows, insert_app_r_alt, Nat.sub_diag by lia. cbn. by rewrite <-app_assoc. }
  assert (fifo_seats f1 = (C ++ [open_seat n rnd0 (length A) (pack :: row') st]) ++ D) as Hseats1.
  { cbn. rewrite Hseats, HAC, insert_app_r_alt, Nat.sub_diag by lia. cbn. by rewrite <-app_assoc. }
  specialize (IH (A ++ [row']) (C ++ [open_seat n rnd0 (length A) (pack :: row') st]) D s1 f1 late
    eq_refl Hrows1 Hseats1). rewrite !length_app in IH. cbn [length] in IH. rewrite Nat.add_1_r in IH.
  eapply runs_mono; [apply IH; try done; [lia|]|].
  - intros j row Hj. destruct (Hall (S j) row Hj) as (pack'&row''&->&Hpk'). exists pack', row''.
    split; [done|]. cbn [fifo_packs f1 set_fifo_seats].
    by rewrite Nat.add_succ_l, <-Nat.add_succ_r.
  - intros u s' ->. cbn [fmap list_fmap tail open_rows]. rewrite <-!app_assoc. done.
Qed.

(** ** Before a round is opened *)
(** The current round is set already, its packs are still closed. *)
Record before_round (deal : list (list DraftPack)) (s : DraftSession) (f : FifoDraftState) : Prop := {
  bf_manifest : manifest (seats_n s) (packs_n s) deal (fifo_packs f, fifo_cards f);
  bf_sizes : ∀ row, deal !! 0%nat = Some row → pack_sizes s = (λ p, N.of_nat (length p)) <$> row;
  bf_cards : ∃ gone, ids gone = removed_id <$> removed f ∧
    concat (mjoin (packs_by_seat s)) ++ concat (pools s) ++ gone ≡ₚ deal_cards deal;
  bf_future : packs_by_seat s = drop (rnd s) <$> deal;
  bf_live : live f = [];
  bf_returned : returned_effects f = ∅;
  bf_removed : Forall (removed_ok s f) (removed f);
  bf_progress : ∀ i st pool, fifo_seats f !! i = Some st → pools s !! i = Some pool →
    progress_ok s deal i st pool;
  bf_prompts : no_prompts f;
}.

Lemma no_live_no_returned deal s f : table deal s f → live f = [] → returned_effects f = ∅.
Proof.
  intros HT Hl. apply map_empty. intros id. apply eq_None_not_Some. intros [p Hp].
  destruct (tb_returned _ _ _ HT id p Hp) as (h&Hh&_). rewrite Hl in Hh. by apply elem_of_nil in Hh.
Qed.

Lemma heads_and_tails (rows : list (list DraftPack)) :
  concat (mjoin (tail <$> rows)) ++ concat ((λ row, default [] (head row)) <$> rows)
    ≡ₚ concat (mjoin rows).
Proof.
  induction rows as [|row rows IH]; [done|]. cbn. rewrite !concat_app, <-IH.
  destruct row as [|p row]; cbn; solve_Permutation.
Qed.

Section opened.
Context {deal : list (list DraftPack)} {s : DraftSession} {f : FifoDraftState}.
Context (HF : frame s f) (HB : before_round deal s f) (Hpass : passing s).
Local Abbreviation n := (seats_n s).
Local Abbreviation HM := (bf_manifest _ _ _ HB).

Lemma row_now i row : packs_by_seat s !! i = Some row →
  ∃ full pack rest, deal !! i = Some full ∧ row = pack :: rest ∧ full !! rnd s = Some pack ∧
    rest = drop (S (rnd s)) full.
Proof using HF HB.
  intros Hi. rewrite (bf_future _ _ _ HB), list_lookup_fmap in Hi.
  destruct (deal !! i) as [full|] eqn:Hfull; [|done]. cbn in Hi. injection Hi as <-.
  destruct (lookup_lt_is_Some_2 full (rnd s)) as [pack Hpack].
  { rewrite (mf_rounds _ _ _ _ HM i full Hfull). by apply (frame_rounds _ _ HF). }
  exists full, pack, (drop (S (rnd s)) full). split_and!; try done.
  by rewrite (drop_S full pack (rnd s) Hpack).
Qed.

Let f1 := set_fifo_seats (open_rows n (rnd s) 0 (packs_by_seat s) (fifo_seats f)) f.
Let s1 := set_fifo (Some f1) (set_packs_by_seat (tail <$> packs_by_seat s) s).

Lemma opened_live : live f1 = fresh_packs n (rnd s) 0 (packs_by_seat s).
Proof using HF HB.
  unfold live, f1. cbn. apply queues_open_rows.
  - by rewrite (fr_packs _ _ HF), (fr_seats _ _ HF).
  - apply (bf_live _ _ _ HB).
Qed.
Lemma opened_frame : frame s1 f1.
Proof using HF HB.
  pose proof HF as [? ? ? ? ? ? ? ? Hs ? Hp]. split; try done; cbn.
  - rewrite length_open_rows by congruence. done.
  - by rewrite length_fmap.
Qed.
Lemma opened_fresh h : h ∈ live f1 → live_ok deal s1 f1 h.
Proof using HF HB.
  rewrite opened_live. intros [j Hj]%list_elem_of_lookup.
  apply lookup_fresh in Hj as (row&Hrow&->). rewrite Nat.add_0_l.
  destruct (row_now j row Hrow) as (full&pack&rest&Hfull&->&Hpack&_). cbn [head default].
  destruct (mf_packs _ _ _ _ HM j full (rnd s) pack Hfull Hpack) as [_ Hlen]. split; try done.
  - exists j, full, pack. split_and!; try done. by left.
  - cbn. by destruct pack; cbn in Hlen; [lia|].
  - apply Forall_forall. intros c Hc. unfold card_home. cbn. rewrite (bf_returned _ _ _ HB), lookup_empty.
    destruct (mf_cards _ _ _ _ HM j full (rnd s) pack c Hfull Hpack Hc) as [Hcard _].
    by eexists.
Qed.
Lemma opened_round_cards : live_cards f1 = round_cards deal (rnd s).
Proof using HF HB.
  unfold live_cards. rewrite opened_live, cards_fresh. unfold round_cards.
  rewrite (bf_future _ _ _ HB), <-list_fmap_compose. f_equal. apply list_fmap_ext.
  intros i row Hi. cbn. unfold pack_at.
  destruct (lookup_lt_is_Some_2 row (rnd s)) as [pack Hpack].
  { rewrite (mf_rounds _ _ _ _ HM i row Hi). by apply (frame_rounds _ _ HF). }
  by rewrite Hpack, (drop_S row pack (rnd s) Hpack).
Qed.
Lemma opened_table : table deal s1 f1.
Proof using HF HB Hpass.
  split.
  - apply HB.
  - apply HB.
  - destruct (bf_cards _ _ _ HB) as (gone&Hgone&Hperm). exists gone. split; [done|].
    unfold live_cards. rewrite opened_live, cards_fresh, <-Hperm. cbn.
    rewrite <-(heads_and_tails (packs_by_seat s)). solve_Permutation.
  - cbn. change (rnd s1) with (rnd s). rewrite (bf_future _ _ _ HB), <-list_fmap_compose.
    apply list_fmap_ext. intros i row _. cbn. rewrite <-Nat.add_1_r, <-drop_drop.
    by destruct (drop (rnd s) row).
  - apply Forall_forall. intros h Hh. by apply opened_fresh.
  - rewrite opened_live, origins_fresh. apply NoDup_fmap_2; [apply _|]. apply NoDup_seq.
  - intros id p. cbn. rewrite (bf_returned _ _ _ HB), lookup_empty. done.
  - eapply Forall_impl; [apply (bf_removed _ _ _ HB)|]. intros x [A B C D]. by split.
  - intros i st' pool Hst' Hpool. cbn in Hst', Hpool. apply lookup_open_rows in Hst' as (row&st&_&Hst&->).
    pose proof (bf_progress _ _ _ HB i st pool Hst Hpool) as H. unfold progress_ok in *.
    unfold passing in Hpass. cbn. rewrite Hpass in H |- *. unfold has_prompt in *. cbn.
    destruct H as (?&?&?&?). split_and!; lia.
  - rewrite opened_round_cards. unfold round_steps, f1. cbn [fifo_seats set_fifo_seats].
    rewrite steps_open_rows. done.
Qed.
Lemma opened_no_prompts : no_prompts f1.
Proof using HF HB.
  intros i st' Hst'. cbn in Hst'. apply lookup_open_rows in Hst' as (row&st&_&Hst&->). cbn.
  by apply (bf_prompts _ _ _ HB i).
Qed.
Lemma opened_some : live f1 ≠ [].
Proof using HF HB.
  rewrite opened_live. destruct (frame_n _ _ HF) as [Hn _]. pose proof (fr_packs _ _ HF) as Hl.
  destruct (packs_by_seat s); [cbn in Hl; lia|done].
Qed.
End opened.
