(* ===== verification/FifoFlow.v ===== *)
(** * From one round to the next

    What [open_fifo_round] and [finish_fifo_round] establish, and how the seats and
    their prompts may evolve under any step of the flow. *)
From S2P Require Import Prelude.
From S2P Require Import DraftTypes.
From S2P Require Import DraftAdmission.
From S2P Require Import Fifo.
From S2P Require Import FifoManifest.
From S2P Require Import FifoInv.
From S2P Require Import FifoCheck.
From S2P Require Import FifoSelect.
From S2P Require Import FifoPrompt.
Local Open Scope N_scope.

(** ** How seats evolve *)
(** A clock that has not run out. *)
Definition fresh_clock (now : N) (p : DraftPrompt) : Prop :=
  ∀ c, prompt_clock p = Some c → ∃ d, clock_state c = Running d ∧ now < d.
(** Generations never go back, and a prompt is either kept or new: of a later
    generation, with time left. *)
Record seat_evolves (now : N) (st st' : FifoSeatState) : Prop := {
  se_gen : generation st ≤ generation st';
  se_prompt : ∀ p', prompt st' = Some p' →
    (prompt st = Some p' ∧ generation st' = generation st) ∨
    (generation st < generation st' ∧ fresh_clock now p');
}.
Lemma seat_evolves_refl now st : seat_evolves now st st.
Proof. split; [lia|]. by left. Qed.
Lemma seat_evolves_trans now st1 st2 st3 :
  seat_evolves now st1 st2 → seat_evolves now st2 st3 → seat_evolves now st1 st3.
Proof.
  intros [G1 P1] [G2 P2]. split; [lia|]. intros p Hp.
  destruct (P2 p Hp) as [[Hp2 Hg2]|[Hg2 Hf]]; [|right; split; [lia|done]].
  destruct (P1 p Hp2) as [[Hp1 Hg1]|[Hg1 Hf]]; [left; split; [done|congruence]|right; split; [lia|done]].
Qed.

(** Cards not drafted yet. *)
Definition cards_left (s : DraftSession) (f : FifoDraftState) : nat :=
  length (concat (mjoin (packs_by_seat s))) + length (live_cards f).

(** The statuses from the first pick to deck building. *)
Definition drafty (x : DraftStatus.t) : bool :=
  match x with
  | DraftStatus.Drafting | DraftStatus.Review | DraftStatus.Paused | DraftStatus.Deckbuilding => true
  | _ => false
  end.
Record evolves (s : DraftSession) (f : FifoDraftState) (s' : DraftSession) (f' : FifoDraftState)
    : Prop := {
  ev_config : config s' = config s;
  ev_kind : kind s' = kind s;
  ev_seats : seats s' = seats s;
  ev_session : session_id f' = session_id f;
  ev_revision : revision f' = revision f;
  ev_now : last_now_ms f' = last_now_ms f;
  ev_catalog : fifo_packs f' = fifo_packs f ∧ fifo_cards f' = fifo_cards f;
  ev_seat : ∀ j st, fifo_seats f !! j = Some st →
    ∃ st', fifo_seats f' !! j = Some st' ∧ seat_evolves (last_now_ms f) st st';
  ev_left : (cards_left s' f' ≤ cards_left s f)%nat;
  ev_status : drafty (status s) = true → drafty (status s') = true;
}.
Lemma evolves_trans s1 f1 s2 f2 s3 f3 :
  evolves s1 f1 s2 f2 → evolves s2 f2 s3 f3 → evolves s1 f1 s3 f3.
Proof.
  intros [A1 A2 A3 A4 A5 A6 [A7 A8] A9 A10 A11] [B1 B2 B3 B4 B5 B6 [B7 B8] B9 B10 B11].
  split; try congruence; [split; congruence| |lia|auto].
  intros j st Hj. destruct (A9 j st Hj) as (st2&H2&E2). destruct (B9 j st2 H2) as (st3&H3&E3).
  exists st3. split; [done|]. rewrite A6 in E3. by eapply seat_evolves_trans.
Qed.

(** Rounds come and go without touching pools and removed cards. *)
Record settles (s : DraftSession) (f : FifoDraftState) (s' : DraftSession) (f' : FifoDraftState)
    : Prop := {
  st_evolves : evolves s f s' f';
  st_pools : pools s' = pools s;
  st_removed : removed f' = removed f;
}.
Lemma settles_trans s1 f1 s2 f2 s3 f3 :
  settles s1 f1 s2 f2 → settles s2 f2 s3 f3 → settles s1 f1 s3 f3.
Proof. intros [A B C] [A' B' C']. split; [by eapply evolves_trans|congruence..]. Qed.

Lemma reconciled_evolves sid policy now j st st' :
  ready sid policy now j st → reconciled sid policy now j st st' → seat_evolves now st st'.
Proof.
  intros Hready [Hp Hq _ _ Hk Hn Hz Hl]. destruct (prompt st) as [p|] eqn:Hpr.
  { rewrite (Hk p eq_refl). apply seat_evolves_refl. }
  destruct (queue st) as [|h q] eqn:Hqe.
  - destruct (Hz eq_refl) as [Hnone Hg]. split; [by rewrite Hg|]. intros p'. by rewrite Hnone.
  - specialize (Hn eq_refl ltac:(done)). split; [lia|]. intros p' Hp'. right. split; [lia|].
    intros c Hc. destruct (Hl p' c eq_refl Hp' Hc) as (d&->&Hd). exists (now + d). split; [done|lia].
Qed.

Lemma live_reseated (l l' : list FifoSeatState) : length l' = length l →
  (∀ j st, l !! j = Some st → ∃ st', l' !! j = Some st' ∧ queue st' = queue st) →
  queue <$> l' = queue <$> l.
Proof.
  intros Hlen Hall. apply list_eq. intros j. rewrite !list_lookup_fmap.
  destruct (l !! j) as [st|] eqn:Hj.
  - destruct (Hall j st Hj) as (st'&->&Hq). cbn. by rewrite Hq.
  - rewrite (lookup_ge_None_2 l'); [done|]. rewrite Hlen. by apply lookup_ge_None.
Qed.

Lemma reconcile_settles s f l' : frame s f →
  (∀ j st, fifo_seats f !! j = Some st → ready (session_id f) (policy_of s) (last_now_ms f) j st) →
  length l' = length (fifo_seats f) →
  (∀ j st, fifo_seats f !! j = Some st → ∃ st', l' !! j = Some st' ∧
    reconciled (session_id f) (policy_of s) (last_now_ms f) j st st') →
  let f' := set_fifo_seats l' f in live f' = live f ∧ settles s f (set_fifo (Some f') s) f'.
Proof.
  intros HF Hready Hlen Hall f'.
  assert (live f' = live f) as Hlive.
  { unfold live. f_equal. apply live_reseated; [done|]. intros j st Hj.
    destruct (Hall j st Hj) as (st'&?&Hr). exists st'. split; [done|]. apply Hr. }
  split; [done|]. split; try done. split; try done.
  - intros j st Hj. destruct (Hall j st Hj) as (st'&?&Hr). exists st'. split; [done|].
    eapply reconciled_evolves; [by apply Hready|done].
  - unfold cards_left, live_cards. by rewrite Hlive.
Qed.

(** ** Opening a round *)
(** The session [open_fifo_round] starts its seat loop with. *)
Definition at_round (r : N) (s : DraftSession) (f : FifoDraftState) : DraftSession :=
  set_fifo (Some f) (set_status DraftStatus.Drafting
    (set_pass_direction (PassDirection.for_pack r) (set_current_pack_number r s))).

Lemma open_fifo_round_ok deal s f r : let f0 := set_review None f in let s0 := at_round r s f0 in
  fifo s = Some f → frame s0 f0 → before_round deal s0 f0 → passing s0 →
  r < pack_count (config s) → paused f = None →
  runs (too_late (last_now_ms f)) (open_fifo_round r (last_now_ms f))
    (λ _ s', ∃ f', started deal s' f' ∧ status s' = DraftStatus.Drafting ∧
      current_pack_number s' = r ∧ settles s0 f0 s' f') s.
Proof.
  intros f0 s0 Hf HF HB Hpass Hr Hpz. unfold open_fifo_round.
  do 3 (apply runs_bind, runs_modify). apply runs_bind. apply (runs_modify_fifo _ f); [done|].
  change (set_fifo _ _) with s0. apply runs_bind, runs_get. apply runs_bind.
  assert (N.of_nat (rnd s0) = r) as Hrnd by (rewrite rnd_current by done; cbn; lia).
  destruct (frame_n _ _ HF) as [Hn Hpod].
  rewrite <-Hrnd at 1. pose proof (fr_packs _ _ HF) as Hlp.
  assert (length (seats s0) = length (packs_by_seat s0)) as -> by by rewrite Hlp.
  eapply runs_mono.
  { apply (open_seats_ok (rnd s0) (seats_n s0) (packs_by_seat s0) [] [] (fifo_seats f0) s0 f0); try done.
    - rewrite Hlp. by rewrite (fr_seats _ _ HF).
    - intros j row Hj. destruct (row_now HF HB j row Hj) as (full&pack&rest&Hfull&->&Hpack&_).
      exists pack, rest. split; [done|].
      destruct (mf_packs _ _ _ _ (bf_manifest _ _ _ HB) j full _ pack Hfull Hpack) as [H _]. exact H. }
  intros u s1 ->. cbn [app length].
  pose proof (opened_frame HF HB) as HF1. pose proof (opened_table HF HB Hpass) as HT1.
  pose proof (opened_no_prompts HF HB) as HP1. pose proof (opened_some HF HB) as HL1.
  set (f1 := set_fifo_seats _ f0) in *. set (s1 := set_fifo (Some f1) _) in *.
  assert (∀ j st, fifo_seats f1 !! j = Some st →
    ready (session_id f1) (policy_of s1) (last_now_ms f1) j st) as Hready.
  { intros j st Hj. left. by apply (HP1 j). }
  eapply runs_mono; [apply (reconcile_prompts_ok deal s1 f1 HF1 HT1 Hpass Hready)|].
  intros u2 s2 (l'&Hs2&HF2&HT2&Hlen&Hall). set (f2 := set_fifo_seats l' f1) in *.
  destruct (reconcile_settles s1 f1 l' HF1 Hready Hlen Hall) as [Hlive2 Hset]. fold f2 in Hlive2, Hset.
  exists f2. subst s2. split; [split; try done|split; [done|split; [done|]]].
  - cbn. split; [|done]. split; try done; [by rewrite Hlive2|].
    intros j st Hj. cbn in Hj.
    destruct (lookup_lt_is_Some_2 (fifo_seats f1) j) as [st0 Hst0].
    { rewrite <-Hlen. by eapply lookup_lt_Some. }
    destruct (Hall j st0 Hst0) as (st'&Hst'&Hrc). assert (st' = st) as -> by congruence. apply Hrc.
  - eapply settles_trans; [|exact Hset]. split; try done. split; try done.
    + intros j st Hj. assert (∃ row, packs_by_seat s0 !! j = Some row) as [row Hrow].
      { apply lookup_lt_is_Some_2. rewrite Hlp, <-(fr_seats _ _ HF). by eapply lookup_lt_Some. }
      exists (open_seat (seats_n s0) (rnd s0) j row st). split; [|split; [done|by left]].
      cbn. by apply lookup_open_rows_Some.
    + assert (live_cards f1 = concat ((λ row, default [] (head row)) <$> packs_by_seat s0)) as Hlc.
      { unfold live_cards, f1. rewrite (opened_live HF HB). apply cards_fresh. }
      assert (live_cards f0 = []) as Hl0 by (unfold live_cards; by rewrite (bf_live _ _ _ HB)).
      pose proof (Permutation_length (heads_and_tails (packs_by_seat s0))) as Hp.
      rewrite length_app in Hp. unfold cards_left. rewrite Hlc, Hl0. cbn in *. lia.
Qed.

(** ** The middle of a round *)
(** A table between two steps: prompts may be missing, none is stale. *)
Record midround (deal : list (list DraftPack)) (s : DraftSession) (f : FifoDraftState) : Prop := {
  md_frame : frame s f;
  md_table : table deal s f;
  md_passing : passing s;
  md_status : status s = DraftStatus.Drafting;
  md_round : current_pack_number s < pack_count (config s);
  md_direction : pass_direction s = PassDirection.for_pack (current_pack_number s);
  md_review : review f = None;
  md_paused : paused f = None;
  md_ready : ∀ j st, fifo_seats f !! j = Some st →
    ready (session_id f) (policy_of s) (last_now_ms f) j st;
}.

Lemma before_next deal s f r : frame s f → table deal s f → passing s → live f = [] →
  no_prompts f → current_pack_number s < pack_count (config s) → r = current_pack_number s + 1 →
  r < pack_count (config s) →
  frame (at_round r s (set_review None f)) (set_review None f) ∧
  before_round deal (at_round r s (set_review None f)) (set_review None f).
Proof.
  intros HF HT Hpass Hl Hnp Hcur -> Hr. set (s0 := at_round _ _ _).
  assert (rnd s0 = S (rnd s)) as Hrnd by (rewrite !rnd_current by done; cbn; lia).
  split; [by destruct HF|].
  pose proof (no_live_no_returned deal s f HT Hl) as Hret.
  destruct HT as [H1 H2 H3 H4 H5 H6 H7 H8 H9 H10]. split; try done.
  - destruct H3 as (gone&Hg&Hp). exists gone. split; [done|]. unfold live_cards in Hp.
    by rewrite Hl in Hp.
  - cbn. by rewrite Hrnd, H4.
  - eapply Forall_impl; [exact H8|]. intros x [(p&Hp&Hle) B C D]. split; try done.
    exists p. split; [done|]. rewrite Hrnd. lia.
Qed.

(** ** Finishing a pick *)
Definition round_over (f : FifoDraftState) : bool :=
  negb (existsb (λ st, negb (length (queue st) =? 0)%nat) (fifo_seats f)).
Lemma round_over_live f : round_over f = true ↔ live f = [].
Proof.
  unfold round_over, live. rewrite negb_true_iff. induction (fifo_seats f) as [|st l IH]; cbn; [done|].
  destruct (queue st); cbn; [apply IH|done].
Qed.

Lemma round_to_drafted deal s f : frame s f → table deal s f → live f = [] → no_prompts f →
  pass_direction s = PassDirection.for_pack (current_pack_number s) → review f = None →
  paused f = None → current_pack_number s + 1 = pack_count (config s) →
  started deal (set_status DraftStatus.Deckbuilding
    (set_current_pack_number (current_pack_number s + 1) s)) f.
Proof.
  intros HF HT Hl Hnp Hdir Hrev Hpz Hend. split; [by destruct HF| |].
  - apply (same_table_ok (s := s) (f := f)); [|done]. split; try done. unfold rnd. cbn. lia.
  - cbn. split; [|done]. split; try done. intros _. cbn. rewrite Hdir. f_equal. lia.
Qed.
Lemma round_to_review deal s f d : frame s f → table deal s f → passing s → live f = [] → no_prompts f →
  pass_direction s = PassDirection.for_pack (current_pack_number s) →
  paused f = None → current_pack_number s + 1 < pack_count (config s) →
  review_duration_ms (clock_policy (config s)) ≠ 0 →
  d = last_now_ms f + review_duration_ms (clock_policy (config s)) → d ≤ MAX_DRAFT_JSON_INTEGER →
  let f' := set_review (Some {| exhausted_round := current_pack_number s;
    review_next_round := current_pack_number s + 1; review_clock := {|
      clock_target := ReviewClock (current_pack_number s + 1); clock_state := Running d |} |}) f in
  started deal (set_status DraftStatus.Review (set_fifo (Some f') s)) f'.
Proof.
  intros HF HT Hpass Hl Hnp Hdir Hpz Hmore Hdur -> Hd f'. split; [by destruct HF| |].
  - by apply (same_table_ok (s := s) (f := f)).
  - cbn. split; [|done]. split; try done. eexists. split; [done|]. cbn. lia.
Qed.

(** The queues of the seats. *)
Definition queues (f : FifoDraftState) : list (list QueuedDraftPack) := queue <$> fifo_seats f.
(** What follows a round whose last pack is used up. *)
Definition round_ended (s s' : DraftSession) : Prop :=
  let next := current_pack_number s + 1 in
  if next =? pack_count (config s) then
    status s' = DraftStatus.Deckbuilding ∧ current_pack_number s' = next
  else if review_duration_ms (clock_policy (config s)) =? 0 then
    status s' = DraftStatus.Drafting ∧ current_pack_number s' = next
  else status s' = DraftStatus.Review ∧ current_pack_number s' = current_pack_number s.
(** A round goes on as long as a pack is queued. *)
Definition goes_on (q : list (list QueuedDraftPack)) (s s' : DraftSession) (f' : FifoDraftState)
    : Prop :=
  match concat q with
  | [] => round_ended s s'
  | _ => queues f' = q ∧ status s' = DraftStatus.Drafting ∧
         current_pack_number s' = current_pack_number s
  end.
Lemma finish_fifo_round_ok deal s f : midround deal s f →
  runs (too_late (last_now_ms f)) (finish_fifo_round (last_now_ms f))
    (λ _ s', ∃ f', started deal s' f' ∧ settles s f s' f' ∧ goes_on (queues f) s s' f') s.
Proof.
  intros [HF HT Hpass Hst Hcur Hdir Hrev Hpz Hready]. unfold finish_fifo_round.
  apply runs_bind, runs_get. apply runs_bind.
  eapply runs_lift; [unfold fifo_ref; by rewrite (fr_fifo _ _ HF)|].
  assert (runs (too_late (last_now_ms f)) (reconcile_prompts (last_now_ms f)) (λ _ s', ∃ f',
    s' = set_fifo (Some f') s ∧ frame s' f' ∧ table deal s' f' ∧ queues f' = queues f ∧
    settles s f s' f' ∧ review f' = None ∧ paused f' = None ∧ all_prompted s' f' false) s) as Hrec.
  { eapply runs_mono; [by apply (reconcile_prompts_ok deal s f HF HT Hpass Hready)|].
    intros u s' (l'&->&HF'&HT'&Hlen&Hall). exists (set_fifo_seats l' f).
    destruct (reconcile_settles s f l' HF Hready Hlen Hall) as [_ Hset].
    split_and!; try done.
    { unfold queues. cbn. apply live_reseated; [done|]. intros j st Hj.
      destruct (Hall j st Hj) as (st'&?&Hr). exists st'. split; [done|]. apply Hr. }
    intros j st Hj. cbn in Hj.
    destruct (lookup_lt_is_Some_2 (fifo_seats f) j) as [st0 Hst0].
    { rewrite <-Hlen. by eapply lookup_lt_Some. }
    destruct (Hall j st0 Hst0) as (st'&Hst'&Hrc). assert (st' = st) as -> by congruence. apply Hrc. }
  destruct (existsb _ (fifo_seats f)) eqn:Hover; apply runs_bind;
    (eapply runs_mono; [exact Hrec|]); intros u s' (f'&->&HF'&HT'&Hq&Hset&Hrev'&Hpz'&Hall);
    assert (live f' = live f) as Hlive by (unfold live; fold (queues f'); by rewrite Hq).
  - assert (live f ≠ []) as Hl.
    { intros Hl%round_over_live. unfold round_over in Hl. by rewrite Hover in Hl. }
    apply runs_ret. exists f'. split; [split; try done|split; [done|]].
    + unfold phase_ok. cbn. rewrite Hst. split; [|done]. split; try done. by rewrite Hlive.
    + unfold goes_on. change (concat (queues f)) with (live f). by destruct (live f).
  - assert (live f = []) as Hl by (apply round_over_live; unfold round_over; by rewrite Hover).
    assert (no_prompts f') as Hnp.
    { intros j st Hj. specialize (Hall j st Hj). unfold prompted in Hall.
      rewrite Hl in Hlive. rewrite (live_split j st Hj) in Hlive.
      apply app_nil in Hlive as [_ Hn]. apply app_nil in Hn as [Hn _]. by rewrite Hn in Hall. }
    pose proof (frame_rounds _ _ HF) as [Hpk _]. unfold packs_n in Hpk.
    pose proof (ev_now _ _ _ _ (st_evolves _ _ _ _ Hset)) as Hnow.
    assert (∀ s1 s2 f2, round_ended s1 s2 → goes_on (queues f) s1 s2 f2) as Hgo.
    { intros s1 s2 f2. unfold goes_on. change (concat (queues f)) with (live f). by rewrite Hl. }
    rewrite <-Hlive in Hl. unfold round_ended in Hgo.
    apply runs_bind. eapply runs_lift.
    { destruct (N.ltb_spec (current_pack_number s + 1) 256); [done|lia]. }
    destruct (N.eqb_spec (current_pack_number s + 1) (pack_count (config s))) as [Hend|Hmore].
    + do 2 (apply runs_bind, runs_modify). apply runs_ret. exists f'.
      split; [by apply (round_to_drafted deal (set_fifo (Some f') s))|].
      split; [|apply Hgo; by rewrite (proj2 (N.eqb_eq _ _) Hend)].
      eapply settles_trans; [exact Hset|by repeat split; eauto using seat_evolves_refl].
    + set (s' := set_fifo (Some f') s) in *.
      destruct (N.eqb_spec (review_duration_ms (clock_policy (config s))) 0) as [Hd|Hd].
      * destruct (before_next deal s' f' (current_pack_number s + 1)) as [HF2 HB2]; try done.
        { cbn. lia. }
        apply runs_bind. rewrite <-Hnow. eapply runs_mono.
        { apply (open_fifo_round_ok deal s' f'); try done. cbn. lia. }
        intros u2 s2 (f2&Hs2&Hst2&Hcur2&Hset2). apply runs_ret. exists f2. split; [done|].
        split; [|apply Hgo; by rewrite (proj2 (N.eqb_neq _ _) Hmore), Hd].
        eapply settles_trans; [exact Hset|]. eapply settles_trans; [|exact Hset2].
        by repeat split; eauto using seat_evolves_refl.
      * pose proof (fc_review _ _ (frame_config s f HF)) as Hdur. apply runs_bind.
        unfold running, deadline. rewrite <-Hnow.
        destruct (checked_json_add_cases (last_now_ms f')
          (review_duration_ms (clock_policy (config s)))) as [[Hle Heq]|[Hlt Heq]]; cycle 1.
        { unfold runs, lift. rewrite Heq. cbn. split; [done|]. unfold too_late. lia. }
        eapply runs_lift; [by rewrite Heq|]. apply runs_bind.
        apply (runs_modify_fifo _ f'); [done|]. apply runs_bind, runs_modify. apply runs_ret.
        eexists. split; [|split; [|apply Hgo; by rewrite (proj2 (N.eqb_neq _ _) Hmore),
          (proj2 (N.eqb_neq _ _) Hd)]].
        { apply (round_to_review deal s' f' _ HF' HT'); try done. cbn. lia. }
        eapply settles_trans; [exact Hset|by repeat split; eauto using seat_evolves_refl].
Qed.
