(* ===== verification/FifoStep.v ===== *)
(** * A selection, from its admission to the next prompts

    The movement of cards of an accepted selection, the session it leaves between
    the pick and the end of the round check, and the whole of [select_fifo]. *)
From S2P Require Import Prelude.
From S2P Require Import DraftTypes.
From S2P Require Import DraftAdmission.
From S2P Require Import DraftPick.
From S2P Require Import Fifo.
From S2P Require Import FifoManifest.
From S2P Require Import FifoInv.
From S2P Require Import FifoCheck.
From S2P Require Import FifoSelect.
From S2P Require Import FifoPrompt.
From S2P Require Import FifoFlow.
Local Open Scope N_scope.

(** ** Cards out of the pack and the pool *)
(** What is left of a pack keeps its order. *)
Lemma ids_filter_nodup (P : DraftCardInstance → Prop) `{!∀ c, Decision (P c)} pack :
  NoDup (ids pack) → NoDup (ids (filter P pack)).
Proof. intros Hnd. eapply sublist_NoDup; [exact Hnd|]. apply fmap_sublist, sublist_filter. Qed.
Lemma vec_remove_id i c (pack : DraftPack) : NoDup (ids pack) → pack !! i = Some c →
  vec_remove i pack = filter (λ c', instance_id c' ≠ instance_id c) pack.
Proof.
  intros Hnd Hi. pose proof (take_drop_middle _ _ _ Hi) as E. rewrite <-E in Hnd |- * at 2.
  unfold ids in Hnd. rewrite fmap_app in Hnd. apply NoDup_app in Hnd as (_&H1&H2).
  apply NoDup_cons in H2 as [H2 _].
  rewrite filter_app, filter_cons_False by (intros H; by apply H).
  unfold vec_remove. f_equal; symmetry; apply filter_all, Forall_forall; intros c' Hc' Heq.
  - apply (H1 (instance_id c')); [by apply list_elem_of_fmap_2|]. rewrite Heq. by left.
  - apply H2. rewrite <-Heq. by apply list_elem_of_fmap_2.
Qed.
Lemma take_in_turn_rest l : ∀ (pack picked pack' : list DraftCardInstance), NoDup (ids pack) →
  take_in_turn l pack = Ok (picked, pack') →
  pack' = filter (λ c, instance_id c ∉ l) pack.
Proof.
  induction l as [|id l IH]; intros pack picked pack' Hnd; cbn.
  { intros [= _ <-]. symmetry. apply filter_all, Forall_forall. intros c _. apply not_elem_of_nil. }
  intros (i&Hi&H)%outcome_bind_ok. destruct (position (has_id id) pack) as [i'|] eqn:Hpos; [|done].
  injection Hi as ->. apply position_id in Hpos as (c&Hc&<-).
  apply outcome_bind_ok in H as ([c1 rest]&Hrem&H). unfold remove_at in Hrem. rewrite Hc in Hrem.
  cbn in Hrem. injection Hrem as <- <-.
  apply outcome_bind_ok in H as ([picked1 pack1]&Htake&[= _ <-]).
  rewrite (vec_remove_id i c pack Hnd Hc) in Htake.
  rewrite (IH _ _ _ (ids_filter_nodup _ pack Hnd) Htake).
  rewrite list_filter_filter. apply list_filter_iff. intros c'. rewrite not_elem_of_cons. tauto.
Qed.

Record movement (x : Selection) (h : QueuedDraftPack) (pool picked burned pack ec pool' :
    list DraftCardInstance) : Prop := {
  mv_picked : ∃ pack1, take_in_turn (sel_picked x) (q_pack h) = Ok (picked, pack1) ∧
    take_in_turn (sel_burned x) pack1 = Ok (burned, pack);
  mv_effects : return_effects (sel_effects x) pool pack = Ok (pool', pack ++ ec);
  mv_picked_ids : ids picked = sel_picked x;
  mv_burned_ids : ids burned = sel_burned x;
  mv_effect_ids : ids ec = sel_effects x;
  mv_pack : q_pack h ≡ₚ picked ++ burned ++ pack;
  mv_rest : pack = filter (λ c, instance_id c ∉ sel_picked x ++ sel_burned x) (q_pack h);
  mv_pool : pool ≡ₚ ec ++ pool';
  mv_extra : Forall (λ c, draft_effect c = Some DraftEffect.AdditionalPick) ec;
}.
Lemma movement_ok s f x timing h st p pool : legal s f x timing h st p pool →
  NoDup (ids (q_pack h)) → NoDup (ids pool) →
  ∃ picked burned pack ec pool', movement x h pool picked burned pack ec pool'.
Proof.
  intros HL Hnd Hnp. pose proof (lg_distinct _ _ _ _ _ _ _ _ HL) as Hd.
  apply NoDup_app in Hd as (Hd1&Hd2&Hd3).
  pose proof (lg_named _ _ _ _ _ _ _ _ HL) as Hn. apply Forall_app in Hn as [Hn1 Hn2].
  destruct (take_in_turn_ok (sel_picked x) (q_pack h)) as (picked&pack1&Ht1&Hi1&Hp1&_); [done| |].
  { eapply Forall_impl; [exact Hn1|]. by intros id [_ ?]. }
  destruct (take_in_turn_ok (sel_burned x) pack1) as (burned&pack&Ht2&Hi2&Hp2&_); [done| |].
  { rewrite Forall_forall in Hn2 |- *. intros id Hid. destruct (Hn2 id Hid) as [_ Hin].
    unfold ids in Hin. rewrite <-Hp1, fmap_app in Hin. apply elem_of_app in Hin as [Hin|?]; [|done].
    rewrite Hi1 in Hin. by destruct (Hd2 id Hin). }
  destruct (lg_effects _ _ _ _ _ _ _ _ HL) as [He1 He2].
  destruct (return_effects_ok (sel_effects x) pool pack He1 He2 Hnp) as (pool'&ec&Hr&Hec&Hpool&_&Hall).
  exists picked, burned, pack, ec, pool'. split; try done.
  - by exists pack1.
  - by rewrite <-Hp1, <-Hp2.
  - pose proof (take_in_turn_rest _ _ _ _ Hnd Ht1) as E1. rewrite E1 in Ht2.
    rewrite (take_in_turn_rest _ _ _ _ (ids_filter_nodup _ (q_pack h) Hnd) Ht2).
    rewrite list_filter_filter. apply list_filter_iff. intros c. rewrite not_elem_of_app. tauto.
Qed.

(** The session after [take_selection]. *)
Definition taken (x : Selection) (h : QueuedDraftPack) (f : FifoDraftState) : FifoDraftState :=
  set_returned_effects (assign (q_pack_id h) (sel_effects x)
      (forget (sel_picked x ++ sel_burned x) (returned_effects f)))
    (set_removed (removed f ++ removals (q_pack_id h) DraftRemovalReason.Burn (sel_burned x)) f).
Lemma take_selection_ok late x h s f pool picked burned pack ec pool' :
  fifo s = Some f → pools s !! N.to_nat (sel_seat x) = Some pool →
  movement x h pool picked burned pack ec pool' →
  runs late (take_selection x h) (λ rest s', rest = pack ++ ec ∧
    s' = set_pools (<[N.to_nat (sel_seat x) := pool' ++ picked]> (pools s))
           (set_fifo (Some (taken x h f)) s)) s.
Proof.
  intros Hf Hpool [(pack1&Ht1&Ht2) Hr _ _ _ _ _ _ _]. unfold take_selection.
  apply runs_bind. eapply runs_lift; [exact Ht1|]. apply runs_bind. eapply runs_lift; [exact Ht2|].
  apply runs_bind, runs_get. apply runs_bind. eapply runs_lift; [by rewrite Hpool|].
  apply runs_bind. eapply runs_lift; [exact Hr|]. apply runs_bind.
  apply (runs_modify_fifo _ f); [done|]. apply runs_bind, runs_modify. by apply runs_ret.
Qed.

(** ** The small remainder *)
Definition discarded (h : QueuedDraftPack) (l : list string) (f : FifoDraftState) : FifoDraftState :=
  set_returned_effects (forget l (returned_effects f))
    (set_removed (removed f ++ removals (q_pack_id h) DraftRemovalReason.Threshold l) f).
Lemma discarded_none h s f : fifo s = Some f → s = set_fifo (Some (discarded h [] f)) s.
Proof.
  intros Hf. unfold discarded. cbn. rewrite app_nil_r. destruct s, f. cbn in *. by subst.
Qed.
Lemma discard_remainder_ok late h s f pack : fifo s = Some f →
  runs late (discard_remainder h pack) (λ '(l, rest) s', ∃ disc, l = ids disc ∧ pack = rest ++ disc ∧
    (rest = [] ∧ (length disc ≤ N.to_nat (discard_threshold (selection_policy (config s))))%nat ∨
     disc = [] ∧ discard_threshold (selection_policy (config s)) < N.of_nat (length rest)) ∧
    s' = set_fifo (Some (discarded h (ids disc) f)) s) s.
Proof.
  intros Hf. unfold discard_remainder. apply runs_bind, runs_get.
  destruct (Nat.leb_spec (length pack) (N.to_nat (discard_threshold (selection_policy (config s))))).
  - apply runs_bind. apply (runs_modify_fifo _ f); [done|]. apply runs_ret. exists pack.
    split_and!; try done. by left.
  - apply runs_ret. exists []. rewrite app_nil_r. split_and!; try done; [right; split; [done|lia]|].
    by apply discarded_none.
Qed.

(** ** The pass *)
(** The neighbour the packs go to, in a pod of [n] seats. *)
Definition neighbour (d : PassDirection.t) (seat n : N) : N :=
  match d with
  | PassDirection.Left => (seat + 1) `mod` n
  | PassDirection.Right => (seat + (n - 1)) `mod` n
  end.
Lemma next_seat_ok {E} d cur n : 0 < n < 256 → cur < n →
  PassDirection.next_seat (E := E) d cur n = Ok (neighbour d cur n) ∧ neighbour d cur n < n.
Proof.
  intros Hn Hc. unfold PassDirection.next_seat, neighbour. destruct (N.eqb_spec n 0); [lia|].
  split; [|destruct d; apply N.mod_lt; lia]. destruct d; unfold wadd, wsub, wrap; do 2 f_equal.
  - apply N.mod_small. lia.
  - rewrite (N.mod_small (cur + n)) by lia.
    replace (cur + n + 2 ^ 16 - 1) with (cur + (n - 1) + 1 * 2 ^ 16) by lia.
    rewrite N.Div0.mod_add. apply N.mod_small. lia.
Qed.
(** The queues once a remainder was passed; nothing is passed of a pack used up. *)
Definition pass_on (d : PassDirection.t) (n seat : N) (h : QueuedDraftPack) (rest : DraftPack)
    (q : list (list QueuedDraftPack)) : list (list QueuedDraftPack) :=
  match rest with
  | [] => q
  | _ => alter (λ l, l ++ [with_pack h rest]) (N.to_nat (neighbour d seat n)) q
  end.
Record passed (h : QueuedDraftPack) (rest : DraftPack) (l l' : list FifoSeatState) : Prop := {
  ps_length : length l' = length l;
  ps_live : concat (queue <$> l') ≡ₚ
    concat (queue <$> l) ++ match rest with [] => [] | _ => [with_pack h rest] end;
  ps_counts : counts <$> l' = counts <$> l;
  ps_seat : ∀ j st', l' !! j = Some st' → ∃ st, l !! j = Some st ∧
    (st' = st ∨ st' = push_back (with_pack h rest) st);
}.
Lemma passed_nil h l : passed h [] l l.
Proof. split; try done; [by rewrite app_nil_r|]. intros j st H. exists st. by split; [|left]. Qed.
Lemma passed_to h rest l j st : rest ≠ [] → l !! j = Some st →
  passed h rest l (<[j := push_back (with_pack h rest) st]> l).
Proof.
  intros Hrest Hj. split.
  - by rewrite length_insert.
  - rewrite (live_pushed _ _ st) by done. by destruct rest.
  - rewrite list_fmap_insert. rewrite list_insert_id; [done|]. by rewrite list_lookup_fmap, Hj.
  - intros k st' Hk. destruct (decide (k = j)) as [->|Hne].
    + rewrite list_lookup_insert_eq in Hk by by eapply lookup_lt_Some. simplify_eq. exists st.
      by split; [|right].
    + rewrite list_lookup_insert_ne in Hk by done. exists st'. by split; [|left].
Qed.
Lemma pass_remainder_ok late seat h rest s f : fifo s = Some f →
  pod_size (config s) = N.of_nat (length (fifo_seats f)) → (length (fifo_seats f) < 256)%nat →
  seat < pod_size (config s) →
  runs late (pass_remainder seat h rest) (λ _ s', ∃ l', passed h rest (fifo_seats f) l' ∧
    queue <$> l' = pass_on (pass_direction s) (pod_size (config s)) seat h rest
                     (queue <$> fifo_seats f) ∧
    s' = set_fifo (Some (set_fifo_seats l' f)) s) s.
Proof.
  intros Hf Hpod Hn Hseat. unfold pass_remainder. destruct rest as [|c rest].
  - apply runs_ret. exists (fifo_seats f). split; [apply passed_nil|]. split; [done|].
    destruct s, f. cbn in *. by subst.
  - apply runs_bind, runs_get. apply runs_bind.
    destruct (next_seat_ok (E := DraftError) (pass_direction s) seat (pod_size (config s)))
      as (Hr&Hlt); [lia|done|]. set (r := neighbour _ _ _) in *.
    eapply runs_lift; [exact Hr|]. apply runs_bind.
    eapply runs_lift; [unfold fifo_ref; by rewrite Hf|]. apply runs_bind.
    destruct (lookup_lt_is_Some_2 (fifo_seats f) (N.to_nat r)) as [st Hst]; [lia|].
    eapply runs_lift; [by rewrite Hst|]. apply runs_bind.
    apply (runs_modify_fifo _ f); [done|]. apply runs_ret. eexists. split; [by apply passed_to|].
    split; [|done]. cbn [pass_on]. fold r. rewrite list_fmap_insert. cbn.
    apply list_eq. intros j. destruct (decide (j = N.to_nat r)) as [->|Hne].
    + rewrite list_lookup_alter_eq, list_lookup_insert_eq by (rewrite length_fmap; lia).
      by rewrite list_lookup_fmap, Hst.
    + by rewrite list_lookup_alter_ne, list_lookup_insert_ne.
Qed.

(** ** The table after a selection *)
Definition stepped (st : FifoSeatState) : FifoSeatState :=
  set_prompt None (set_round_completed_steps (round_completed_steps st + 1)
    (set_completed_steps (completed_steps st + 1) (set_queue (tail (queue st)) st))).

Lemma kind_picks k : distribution (procedure k) = PackDistribution.PickAndPass →
  0 < cards_per_pick (procedure k).
Proof. by destruct k. Qed.

Section selected.
Context {deal : list (list DraftPack)} {s : DraftSession} {f : FifoDraftState}.
Context (HF : frame s f) (HT : table deal s f) (Hpass : passing s).
Context {x : Selection} {timing : SelectionTiming} {h : QueuedDraftPack} {st : FifoSeatState}
  {p : DraftPrompt} {pool : list DraftCardInstance} (HL : legal s f x timing h st p pool).
Context {picked burned pack ec pool' rest disc : list DraftCardInstance}.
Context (HM : movement x h pool picked burned pack ec pool').
Context (Hsplit : pack ++ ec = rest ++ disc).
Context (Hdisc : rest = [] ∧ (length disc ≤ N.to_nat (discard_threshold (selection_policy (config s))))%nat ∨
  disc = [] ∧ discard_threshold (selection_policy (config s)) < N.of_nat (length rest)).
Context {l' : list FifoSeatState}.
Local Abbreviation i := (N.to_nat (sel_seat x)).
Context (HP : passed h rest (<[i := stepped st]> (fifo_seats f)) l').
Local Abbreviation f' := (set_fifo_seats l' (discarded h (ids disc)
  (set_fifo_seats (<[i := stepped st]> (fifo_seats f)) (taken x h f)))).
Local Abbreviation s' := (set_pools (<[i := pool' ++ picked]> (pools s)) (set_fifo (Some f') s)).

Lemma sel_queue : queue st = h :: tail (queue st).
Proof using HL. pose proof (lg_head _ _ _ _ _ _ _ _ HL) as Hh. by destruct (queue st); simplify_eq/=. Qed.
Lemma sel_in_live : h ∈ live f.
Proof using HL.
  rewrite (live_split i st (lg_state _ _ _ _ _ _ _ _ HL)), sel_queue. rewrite !elem_of_app. right. left. by left.
Qed.
Lemma sel_others : ∃ others, live f ≡ₚ h :: others ∧
  live f' ≡ₚ others ++ match rest with [] => [] | _ => [with_pack h rest] end.
Proof using HL HP.
  eexists. split.
  - apply (live_popped f i st (stepped st) h (tail (queue st))); [apply HL|apply sel_queue|done].
  - unfold live at 1. cbn. apply HP.
Qed.
Lemma sel_live_ok : live_ok deal s f h.
Proof using HT HL. pose proof (tb_live _ _ _ HT) as Hall. rewrite Forall_forall in Hall. apply Hall, sel_in_live. Qed.

(** The ids in play are distinct. *)
Lemma sel_distinct others : live f ≡ₚ h :: others →
  NoDup (ids (q_pack h) ++ ids (concat (q_pack <$> others)) ++ ids (concat (pools s))).
Proof using HT.
  intros Hlive. pose proof (table_live_nodup HT) as Hnd. unfold live_cards, ids in *.
  rewrite Hlive in Hnd. cbn in Hnd. rewrite !fmap_app in Hnd. by rewrite <-app_assoc in Hnd.
Qed.
Lemma sel_pool_sub c : c ∈ pool → c ∈ concat (pools s).
Proof using HL.
  intros Hc. apply list_elem_of_In, in_concat. exists pool. split; apply list_elem_of_In; [|done].
  eapply list_elem_of_lookup_2, HL.
Qed.
Lemma sel_nodup : NoDup (ids (q_pack h)) ∧ NoDup (ids pool) ∧ ∀ id, id ∈ ids (q_pack h) → id ∉ ids pool.
Proof using HT HL.
  assert (∃ others, live f ≡ₚ h :: others) as [others Ho].
  { pose proof sel_in_live as (l1&l2&->)%list_elem_of_split. exists (l1 ++ l2). solve_Permutation. }
  pose proof (sel_distinct others Ho) as Hnd. apply NoDup_app in Hnd as (H1&H2&H3).
  apply NoDup_app in H3 as (_&_&H4). split; [done|].
  split.
  - rewrite <-(take_drop_middle _ _ _ (lg_pool _ _ _ _ _ _ _ _ HL)), concat_app in H4. cbn in H4.
    unfold ids in *. rewrite !fmap_app in H4. apply NoDup_app in H4 as (_&_&H4). by apply NoDup_app in H4 as (?&_).
  - intros id Hid Hp. apply (H2 id Hid). rewrite elem_of_app. right.
    unfold ids in *. apply list_elem_of_fmap in Hp as (c&->&Hc). apply list_elem_of_fmap_2. by apply sel_pool_sub.
Qed.

(** How much a selection picks. *)
Lemma sel_picks : (length (sel_effects x) + 1 ≤ length (sel_picked x))%nat ∧
  (length (sel_picked x) ≤ length (sel_effects x) + N.to_nat (cards_per_pick (procedure (kind s))))%nat.
Proof using HT HL Hpass.
  clear HP Hdisc Hsplit HM. rewrite (lg_picks _ _ _ _ _ _ _ _ HL). pose proof (kind_picks (kind s) Hpass).
  assert (length (q_pack h) ≠ 0%nat) as Hne.
  { pose proof (lv_some _ _ _ _ sel_live_ok). by destruct (q_pack h). }
  unfold picks_due, draft_effect_step_size. destruct (sel_effects x) as [|e l]; cbn [length]; lia.
Qed.
Lemma sel_lengths : length (sel_picked x) = length picked ∧ length (sel_burned x) = length burned ∧
  length (sel_effects x) = length ec ∧
  length (q_pack h) = (length picked + length burned + length pack)%nat ∧
  length pool = (length ec + length pool')%nat.
Proof using HM.
  clear HP Hdisc Hsplit HL. destruct HM as [_ _ H1 H2 H3 H4 _ H5 _]. rewrite <-H1, <-H2, <-H3. unfold ids. rewrite !length_fmap.
  apply Permutation_length in H4, H5. rewrite !length_app in *. lia.
Qed.
Lemma sel_less : (length rest < length (q_pack h))%nat.
Proof using HT HL Hpass HM Hsplit.
  clear HP Hdisc. destruct sel_picks, sel_lengths as (?&?&?&?&?). apply (f_equal length) in Hsplit.
  rewrite !length_app in Hsplit. lia.
Qed.
Lemma sel_cards : q_pack h ++ pool ≡ₚ rest ++ (pool' ++ picked) ++ burned ++ disc.
Proof using HM Hsplit.
  rewrite (mv_pack _ _ _ _ _ _ _ _ HM), (mv_pool _ _ _ _ _ _ _ _ HM).
  transitivity (picked ++ burned ++ (pack ++ ec) ++ pool'); [by rewrite <-!app_assoc|].
  rewrite Hsplit. solve_Permutation.
Qed.

(** ** The removed cards *)
Lemma sel_dealt c : c ∈ q_pack h ++ pool → c ∈ deal_cards deal.
Proof using HT HL.
  intros Hc. apply (table_dealt HT). rewrite !elem_of_app in *. destruct Hc as [Hc|Hc].
  - right; left. unfold live_cards. apply list_elem_of_In, in_concat. exists (q_pack h).
    split; apply list_elem_of_In; [|done]. apply list_elem_of_fmap_2, sel_in_live.
  - right; right. by apply sel_pool_sub.
Qed.
Lemma sel_pack_known : ∃ v, fifo_packs f !! q_pack_id h = Some v ∧ prov_round v ≤ N.of_nat (rnd s).
Proof using HT HL.
  destruct sel_live_ok as [(k&row&pk&H1&H2&_&->&_) _ _ _].
  destruct (mf_packs _ _ _ _ (tb_manifest _ _ _ HT) k row (rnd s) pk H1 H2) as [H _].
  eexists. split; [exact H|]. done.
Qed.
Lemma sel_removed reason c : c ∈ burned ∨ c ∈ disc → reason_enabled (selection_policy (config s)) reason →
  removed_ok s f {| removed_id := instance_id c; removed_pack := q_pack_id h; removed_reason := reason |}.
Proof using HT HL Hpass HM Hsplit.
  intros Hc Hr. split; [apply sel_pack_known| |done|done].
  intros v Hv. cbn in *.
  assert (c ∈ q_pack h ∨ c ∈ ec) as Hin.
  { rewrite (mv_pack _ _ _ _ _ _ _ _ HM), !elem_of_app. destruct Hc as [?|Hc]; [by left; right; left|].
    assert (c ∈ pack ++ ec) as [?|?]%elem_of_app; [|by left; right; right|by right].
    rewrite Hsplit, elem_of_app. by right. }
  assert (prov_card v = c) as Hcard.
  { destruct (manifest_card (tb_manifest _ _ _ HT) c) as (?&?&_&_&Hv'&_).
    - apply sel_dealt. rewrite elem_of_app. destruct Hin as [?|?]; [by left|right].
      rewrite (mv_pool _ _ _ _ _ _ _ _ HM), elem_of_app. by left.
    - cbn in Hv'. rewrite Hv in Hv'. by injection Hv' as ->. }
  destruct Hin as [Hin|Hin].
  - pose proof (lv_home _ _ _ _ sel_live_ok) as Hh. rewrite Forall_forall in Hh. specialize (Hh c Hin).
    unfold card_home in Hh. destruct (returned_effects f !! instance_id c).
    + right. rewrite Hcard. apply Hh.
    + left. destruct Hh as (v'&Hv'&Hp). rewrite Hv in Hv'. by injection Hv' as ->.
  - right. rewrite Hcard. pose proof (mv_extra _ _ _ _ _ _ _ _ HM) as He. rewrite Forall_forall in He. by apply He.
Qed.
Lemma sel_removals : Forall (removed_ok s f)
  (removals (q_pack_id h) DraftRemovalReason.Burn (sel_burned x) ++
   removals (q_pack_id h) DraftRemovalReason.Threshold (ids disc)).
Proof using HT HL Hpass HM Hsplit Hdisc.
  unfold removals. apply Forall_app. split.
  - apply Forall_fmap, Forall_forall. intros id Hid. cbn.
    rewrite <-(mv_burned_ids _ _ _ _ _ _ _ _ HM) in Hid. apply list_elem_of_fmap in Hid as (c&->&Hc).
    apply sel_removed; [by left|]. pose proof (lg_burns _ _ _ _ _ _ _ _ HL) as Hb. cbn.
    destruct sel_lengths as (_&Hl&_). rewrite Hb in Hl. unfold burns_due in Hl.
    destruct burned; [by apply elem_of_nil in Hc|]. cbn in Hl. lia.
  - apply Forall_fmap, Forall_forall. intros id Hid. cbn. apply list_elem_of_fmap in Hid as (c&->&Hc).
    apply sel_removed; [by right|]. cbn. destruct disc; [by apply elem_of_nil in Hc|].
    destruct Hdisc as [[_ Hle]|[? _]]; [cbn in Hle; lia|done].
Qed.
Lemma sel_removed_ids : removed_id <$>
  (removals (q_pack_id h) DraftRemovalReason.Burn (sel_burned x) ++
   removals (q_pack_id h) DraftRemovalReason.Threshold (ids disc)) = ids (burned ++ disc).
Proof using HM.
  unfold removals. rewrite fmap_app, <-!list_fmap_compose, ids_app.
  rewrite <-(mv_burned_ids _ _ _ _ _ _ _ _ HM). unfold ids. rewrite <-!list_fmap_compose. done.
Qed.

(** ** The returned cards *)
Lemma sel_returned id : returned_effects f' !! id =
  if decide (id ∈ ids disc) then None
  else if decide (id ∈ sel_effects x) then Some (q_pack_id h)
  else if decide (id ∈ sel_picked x ++ sel_burned x) then None else returned_effects f !! id.
Proof. cbn. by rewrite lookup_forget, lookup_assign, lookup_forget. Qed.
Lemma sel_from_pack id : id ∈ sel_picked x ++ sel_burned x → id ∈ ids (q_pack h).
Proof using HL.
  intros Hid. pose proof (lg_named _ _ _ _ _ _ _ _ HL) as Hn. rewrite Forall_forall in Hn. by apply Hn.
Qed.
Lemma sel_from_pool id : id ∈ sel_effects x → id ∈ ids pool.
Proof using HM.
  rewrite <-(mv_effect_ids _ _ _ _ _ _ _ _ HM). unfold ids. intros Hid.
  rewrite (mv_pool _ _ _ _ _ _ _ _ HM), fmap_app, elem_of_app. by left.
Qed.
Lemma sel_disc_from id : id ∈ ids disc → id ∈ ids (q_pack h) ∨ id ∈ ids pool.
Proof using HM Hsplit.
  clear HP Hdisc. intros Hid.
  assert (id ∈ ids (pack ++ ec)) as Hin by (rewrite Hsplit, ids_app, elem_of_app; by right).
  rewrite ids_app, elem_of_app in Hin. unfold ids in *.
  rewrite (mv_pack _ _ _ _ _ _ _ _ HM), (mv_pool _ _ _ _ _ _ _ _ HM), !fmap_app, !elem_of_app. tauto.
Qed.
Lemma sel_pack_ids : NoDup (sel_picked x ++ sel_burned x ++ ids pack) ∧
  (∀ id, id ∈ ids (q_pack h) → id ∈ sel_picked x ++ sel_burned x ∨ id ∈ ids pack).
Proof using HT HL HM.
  destruct sel_nodup as (Hnd&_&_). rewrite <-(mv_picked_ids _ _ _ _ _ _ _ _ HM),
    <-(mv_burned_ids _ _ _ _ _ _ _ _ HM). unfold ids in *.
  rewrite (mv_pack _ _ _ _ _ _ _ _ HM), !fmap_app in Hnd. split; [done|].
  intros id. rewrite (mv_pack _ _ _ _ _ _ _ _ HM), !fmap_app, !elem_of_app. clear. tauto.
Qed.
Lemma sel_home : Forall (card_home f' h) rest.
Proof using HT HL HM Hsplit Hdisc.
  clear HP. destruct sel_nodup as (_&_&Hsep). destruct sel_pack_ids as [Hnd _]. pose proof sel_returned as Hret.
  pose proof sel_from_pool as Hfrom.
  destruct Hdisc as [[-> _]|[Hnone _]]; [constructor|]. rewrite Hnone, app_nil_r in Hsplit. rewrite <-Hsplit.
  rewrite Hnone in Hret.
  apply Forall_app. split; apply Forall_forall; intros c Hc; unfold card_home; rewrite Hnone, Hret.
  - assert (instance_id c ∈ ids (q_pack h)) as Hq.
    { unfold ids. rewrite (mv_pack _ _ _ _ _ _ _ _ HM), !fmap_app, !elem_of_app. right; right.
      by apply list_elem_of_fmap_2. }
    rewrite decide_False by apply not_elem_of_nil.
    rewrite decide_False by (intros H; apply Hfrom in H; by apply (Hsep _ Hq)).
    rewrite decide_False; cycle 1.
    { rewrite app_assoc in Hnd. apply NoDup_app in Hnd as (_&Hd&_). intros H. apply (Hd _ H).
      by apply elem_of_ids. }
    pose proof (lv_home _ _ _ _ sel_live_ok) as Hh. rewrite Forall_forall in Hh. apply Hh.
    rewrite (mv_pack _ _ _ _ _ _ _ _ HM), !elem_of_app. by right; right.
  - rewrite decide_False by apply not_elem_of_nil. rewrite decide_True.
    + split; [done|]. pose proof (mv_extra _ _ _ _ _ _ _ _ HM) as He. rewrite Forall_forall in He. by apply He.
    + rewrite <-(mv_effect_ids _ _ _ _ _ _ _ _ HM). by apply elem_of_ids.
Qed.
Lemma sel_same others h' c : live f ≡ₚ h :: others → h' ∈ others → c ∈ q_pack h' →
  returned_effects f' !! instance_id c = returned_effects f !! instance_id c.
Proof using HT HL HM Hsplit.
  intros Hlive Hh' Hc. pose proof (sel_distinct others Hlive) as Hnd.
  apply NoDup_app in Hnd as (_&H1&Hnd). apply NoDup_app in Hnd as (_&H2&_).
  assert (instance_id c ∈ ids (concat (q_pack <$> others))) as Hin.
  { apply elem_of_ids, list_elem_of_In, in_concat. exists (q_pack h').
    split; apply list_elem_of_In; [|done]. by apply list_elem_of_fmap_2. }
  assert (instance_id c ∉ ids (q_pack h)) as Hq.
  { intros H. apply (H1 _ H). rewrite elem_of_app. by left. }
  assert (instance_id c ∉ ids pool) as Hp.
  { intros (d&Hd&Hdp)%list_elem_of_fmap. apply (H2 _ Hin). rewrite Hd. by apply elem_of_ids, sel_pool_sub. }
  rewrite sel_returned. rewrite decide_False by (intros [H|H]%sel_disc_from; done).
  rewrite decide_False by (intros H; by apply sel_from_pool in H).
  by rewrite decide_False by (intros H; by apply sel_from_pack in H).
Qed.
Lemma sel_ret id v : returned_effects f' !! id = Some v → id ∈ ids rest ∨
  (is_Some (returned_effects f !! id) ∧ id ∉ ids (q_pack h)).
Proof using HT HL HM Hsplit.
  rewrite sel_returned. case_decide as Hd; [done|].
  assert (∀ id, id ∈ ids (pack ++ ec) → id ∉ ids disc → id ∈ ids rest) as Hrest.
  { intros id0. rewrite Hsplit, ids_app, elem_of_app. clear. tauto. }
  case_decide as He.
  - intros _. left. apply Hrest; [|done]. rewrite ids_app, elem_of_app, (mv_effect_ids _ _ _ _ _ _ _ _ HM).
    by right.
  - case_decide as Hpb; [done|]. intros Hv. destruct (decide (id ∈ ids (q_pack h))) as [Hq|Hq].
    + left. apply Hrest; [|done]. rewrite ids_app, elem_of_app. left.
      destruct sel_pack_ids as [_ Hin]. by destruct (Hin id Hq).
    + right. split; [by exists v|done].
Qed.

Lemma selected_table : table deal s' f'.
Proof using All.
  destruct sel_others as (others&Ho&Ho'). destruct sel_picks as [Hp1 Hp2].
  destruct sel_lengths as (Hl1&Hl2&Hl3&Hl4&Hl5).
  apply (table_step HF HT Hpass i st (stepped st) h (tail (queue st)) others pool (pool' ++ picked) rest
    (burned ++ disc) (removals (q_pack_id h) DraftRemovalReason.Burn (sel_burned x) ++
      removals (q_pack_id h) DraftRemovalReason.Threshold (ids disc))); try done.
  - apply HL.
  - apply HL.
  - apply sel_cards.
  - apply sel_less.
  - destruct Hdisc as [[? _]|[_ ?]]; [by left|by right].
  - cbn. by rewrite <-app_assoc.
  - apply sel_removed_ids.
  - apply sel_removals.
  - apply HP.
  - rewrite length_app. lia.
  - rewrite length_app. lia.
  - apply sel_home.
  - intros h' c. by apply sel_same.
  - intros id v. apply sel_ret.
Qed.
Lemma selected_seat j st' : l' !! j = Some st' → ∃ st0, fifo_seats f !! j = Some st0 ∧
  generation st' = generation st0 ∧
  ((j = i ∧ prompt st' = None) ∨
   (j ≠ i ∧ (st' = st0 ∨ st' = push_back (with_pack h rest) st0))).
Proof using HL HP.
  intros Hj. destruct (ps_seat _ _ _ _ HP j st' Hj) as (st0&Hst0&Hor).
  destruct (decide (j = i)) as [->|Hne].
  - rewrite list_lookup_insert_eq in Hst0 by (eapply lookup_lt_Some, HL). simplify_eq.
    exists st. split; [apply HL|]. split; [by destruct Hor as [->| ->]|]. left. split; [done|].
    by destruct Hor as [->| ->].
  - rewrite list_lookup_insert_ne in Hst0 by done. exists st0. split; [done|].
    split; [by destruct Hor as [->| ->]|]. by right.
Qed.
Lemma selected_midround : drafting s f false → paused f = None → midround deal s' f'.
Proof using All.
  intros [_ Hround Hdir Hrev _ Hall] Hpz. split; try done.
  - destruct HF as [F1 F2 F3 F4 F5 F6 F7 F8 F9 F10]. split; try done; cbn.
    + by rewrite (ps_length _ _ _ _ HP), length_insert.
    + by rewrite length_insert.
  - by apply selected_table.
  - apply HL.
  - intros j st' Hj. destruct (selected_seat j st' Hj) as (st0&Hst0&_&[[_ Hn]|[_ Hor]]); [by left|].
    specialize (Hall j st0 Hst0). unfold ready. destruct Hor as [->| ->]; [by right|].
    unfold prompted in *. cbn. destruct (queue st0) as [|h0 q0]; cbn in *; [by left|].
    right. destruct Hall as (p0&Hp0&Ha). exists p0. split; [done|]. destruct Ha. by split.
Qed.
Lemma selected_left : (cards_left s' f' < cards_left s f)%nat.
Proof using HL HT Hpass HM Hsplit Hdisc HP.
  destruct sel_others as (others&Ho&Ho'). pose proof sel_less as Hless.
  unfold cards_left, live_cards. rewrite Ho, Ho', fmap_app, concat_app, length_app. cbn [packs_by_seat set_pools set_fifo].
  cbn. rewrite length_app. destruct rest; cbn in *; rewrite ?app_nil_r; lia.
Qed.
Lemma selected_evolves : evolves s f s' f'.
Proof using HL HT Hpass HM Hsplit Hdisc HP.
  split; try done.
  - intros j st0 Hst0. destruct (lookup_lt_is_Some_2 l' j) as [st' Hst'].
    { rewrite (ps_length _ _ _ _ HP), length_insert. by eapply lookup_lt_Some. }
    exists st'. split; [done|]. destruct (selected_seat j st' Hst') as (st1&Hst1&Hg&Hor).
    simplify_eq. split; [by rewrite Hg|]. intros p' Hp'. left.
    destruct Hor as [[_ Hn]|[_ [->| ->]]]; [congruence|done..].
  - pose proof selected_left. lia.
Qed.
End selected.

(** ** The whole selection *)
(** Where the cards of an accepted selection go. *)
Record moves (s : DraftSession) (f : FifoDraftState) (x : Selection) (s' : DraftSession)
    (f' : FifoDraftState) (deltas : list DraftDelta) (h : QueuedDraftPack) (q : list QueuedDraftPack)
    (pool picked pool' ec rest disc : list DraftCardInstance) : Prop := {
  mo_queue : queues f !! N.to_nat (sel_seat x) = Some (h :: q);
  mo_pool : pools s !! N.to_nat (sel_seat x) = Some pool;
  (* the picked cards join the pool of the seat in the order named, the effect cards leave it *)
  mo_pools : pools s' = <[N.to_nat (sel_seat x) := pool' ++ picked]> (pools s);
  mo_picked : ids picked = sel_picked x ∧ Forall (λ c, c ∈ q_pack h) picked;
  mo_effects : ids ec = sel_effects x ∧ pool ≡ₚ ec ++ pool';
  (* the rest of the pack with the effect cards behind it is discarded if it is small *)
  mo_rest : filter (λ c, instance_id c ∉ sel_picked x ++ sel_burned x) (q_pack h) ++ ec = rest ++ disc;
  mo_threshold : let t := N.to_nat (discard_threshold (selection_policy (config s))) in
    (rest = [] ∧ (length disc ≤ t)%nat) ∨ (disc = [] ∧ (t < length rest)%nat);
  mo_removed : removed f' = removed f ++ removals (q_pack_id h) DraftRemovalReason.Burn (sel_burned x)
                            ++ removals (q_pack_id h) DraftRemovalReason.Threshold (ids disc);
  mo_answer : SelectionAccepted (sel_prompt x) (sel_seat x) (sel_picked x) (sel_burned x)
                (sel_effects x) (ids disc) ∈ deltas;
  (* and otherwise goes to the end of the queue of the neighbour *)
  mo_goes_on : goes_on (pass_on (pass_direction s) (pod_size (config s)) (sel_seat x) h rest
                          (<[N.to_nat (sel_seat x) := q]> (queues f))) s s' f';
}.
(** What an accepted selection does. *)
Record selects (s : DraftSession) (f : FifoDraftState) (x : Selection) (s' : DraftSession)
    (f' : FifoDraftState) (deltas : list DraftDelta) : Prop := {
  sl_evolves : evolves s f s' f';
  sl_left : (cards_left s' f' < cards_left s f)%nat;
  (* the prompt answered is gone for good *)
  sl_consumed : ∀ st' p', fifo_seats f' !! N.to_nat (sel_seat x) = Some st' →
    prompt st' = Some p' → prompt_generation (sel_prompt x) < generation st';
  sl_moves : ∃ h q pool picked pool' ec rest disc, moves s f x s' f' deltas h q pool picked pool' ec rest disc;
}.

Lemma count_step_ok st : completed_steps st + 1 ≤ MAX_DRAFT_JSON_INTEGER →
  round_completed_steps st ≤ completed_steps st → count_step st = Ok (stepped st).
Proof.
  intros H1 H2. unfold count_step. rewrite (increment_ok (completed_steps st)) by done.
  cbn [mbind outcome_bind]. rewrite (increment_ok (round_completed_steps st)) by lia. done.
Qed.

Lemma started_drafting deal s f : started deal s f → status s = DraftStatus.Drafting →
  drafting s f false ∧ paused f = None.
Proof. intros [_ _ H] Hs. unfold phase_ok in H. by rewrite Hs in H. Qed.

Lemma select_fifo_ok deal s f x timing h : started deal s f → admit_selection s x timing = Ok h →
  runs (too_late (last_now_ms f)) (select_fifo x timing)
    (λ d s', ∃ f', started deal s' f' ∧ selects s f x s' f' d) s.
Proof.
  intros HS Hadmit. pose proof (sr_frame _ _ _ HS) as HF. pose proof (sr_table _ _ _ HS) as HT.
  pose proof (proj1 (admit_selection_ok HF x timing h) Hadmit) as (st&p&pool&HL).
  destruct (started_drafting _ _ _ HS (lg_status _ _ _ _ _ _ _ _ HL)) as [HD Hpz].
  pose proof (dr_passing _ _ _ HD) as Hpass.
  destruct (sel_nodup HT HL) as (Hn1&Hn2&_).
  destruct (movement_ok s f x timing h st p pool HL Hn1 Hn2) as (picked&burned&pack&ec&pool'&HM).
  unfold select_fifo. apply runs_bind, runs_get. apply runs_bind. eapply runs_lift; [exact Hadmit|].
  apply runs_bind. eapply runs_mono.
  { by apply (take_selection_ok _ x h s f pool picked burned pack ec pool'); [apply HF|apply HL|]. }
  intros rest0 s1 [-> ->]. apply runs_bind, runs_get. apply runs_bind.
  eapply runs_lift; [done|]. apply runs_bind.
  eapply runs_lift; [cbn; by rewrite (lg_state _ _ _ _ _ _ _ _ HL)|]. apply runs_bind.
  destruct (seat_counters HF HT _ st (lg_state _ _ _ _ _ _ _ _ HL)) as (_&Hc1&Hc2).
  pose proof (deal_size HF HT) as Hsize.
  eapply runs_lift; [apply count_step_ok; lia|]. apply runs_bind.
  eapply runs_modify_fifo; [done|]. cbn [fifo_seats taken set_returned_effects set_removed].
  apply runs_bind. eapply runs_mono; [by eapply discard_remainder_ok|].
  intros [l rest] s2 (disc&->&Hsplit&Hdisc&->). apply runs_bind. destruct (frame_n _ _ HF) as [Hn Hpod].
  eapply runs_mono; [eapply pass_remainder_ok; [done|..]|].
  { cbn. by rewrite length_insert, (fr_seats _ _ HF). }
  { cbn. rewrite length_insert, (fr_seats _ _ HF). lia. }
  { cbn. pose proof (lookup_lt_Some _ _ _ (lg_state _ _ _ _ _ _ _ _ HL)) as Hlt.
    rewrite (fr_seats _ _ HF) in Hlt. lia. }
  intros deltas s3 (l'&HP&Hq&->). cbn [fifo_seats discarded set_returned_effects set_removed set_fifo_seats] in HP.
  match goal with |- runs _ _ _ (set_fifo (Some ?x) _) => set (f3 := x) end.
  set (s3 := set_pools (<[N.to_nat (sel_seat x) := pool' ++ picked]> (pools s)) (set_fifo (Some f3) s)).
  change (set_fifo (Some f3) _) with s3. cbn [config set_fifo set_pools] in Hdisc.
  pose proof (selected_midround HF HT Hpass HL HM Hsplit Hdisc HP HD Hpz) as Hmid.
  pose proof (selected_evolves HT Hpass HL HM Hsplit Hdisc HP) as Hev.
  pose proof (selected_left HT Hpass HL HM Hsplit Hdisc HP) as Hleft.
  fold f3 in Hmid, Hev, Hleft. fold s3 in Hmid, Hev, Hleft.
  apply runs_bind. unfold finish_pick_fifo. apply runs_bind, runs_get. apply runs_bind.
  eapply runs_lift; [done|]. apply runs_bind. eapply runs_mono; [by apply (finish_fifo_round_ok deal s3 f3)|].
  intros more s4 (f4&HS4&[He4 Hp4 Hr4]&Hgo). do 2 apply runs_ret. exists f4. split; [done|]. split.
  - by eapply evolves_trans.
  - pose proof (ev_left _ _ _ _ He4). lia.
  - intros st' p' Hst' Hp'.
    destruct (lookup_lt_is_Some_2 l' (N.to_nat (sel_seat x))) as [st3 Hst3].
    { rewrite (ps_length _ _ _ _ HP), length_insert. eapply lookup_lt_Some, HL. }
    destruct (selected_seat HL HP _ st3 Hst3) as (st0&Hst0&Hg&[[_ Hnone]|[? _]]); [|done].
    rewrite (lg_state _ _ _ _ _ _ _ _ HL) in Hst0. simplify_eq.
    destruct (ev_seat _ _ _ _ He4 _ st3 Hst3) as (st4&Hst4&[_ Hse]). assert (st4 = st') as -> by congruence.
    destruct (Hse p' Hp') as [[? _]|[Hlt _]]; [congruence|]. rewrite Hg in Hlt.
    pose proof (dr_prompts _ _ _ HD _ _ (lg_state _ _ _ _ _ _ _ _ HL)) as Hpr. unfold prompted in Hpr.
    rewrite (lg_head _ _ _ _ _ _ _ _ HL) in Hpr. destruct Hpr as (p0&Hp0&Hask).
    rewrite (lg_prompt _ _ _ _ _ _ _ _ HL) in Hp0. simplify_eq.
    rewrite <-(lg_prompt_id _ _ _ _ _ _ _ _ HL), (ask_id _ _ _ _ _ _ _ _ Hask). done.
  - exists h, (tail (queue st)), pool, picked, pool', ec, rest, disc. split; try done.
    + unfold queues. rewrite list_lookup_fmap, (lg_state _ _ _ _ _ _ _ _ HL). cbn. f_equal.
      by eapply sel_queue.
    + apply HL.
    + split; [apply HM|]. apply Forall_forall. intros c Hc.
      rewrite (mv_pack _ _ _ _ _ _ _ _ HM), elem_of_app. by left.
    + split; apply HM.
    + by rewrite <-(mv_rest _ _ _ _ _ _ _ _ HM).
    + cbn. destruct Hdisc as [?|[? ?]]; [by left|right; split; [done|lia]].
    + rewrite Hr4. cbn. by rewrite <-app_assoc.
    + rewrite !elem_of_app. right; right. by left.
    + replace (<[_ := _]> (queues f)) with (queue <$> <[N.to_nat (sel_seat x) := stepped st]> (fifo_seats f))
        by by rewrite list_fmap_insert.
      cbn in Hq. rewrite <-Hq. exact Hgo.
Qed.
