(* ===== verification/FifoClock.v ===== *)
(** * Time, pause and resume

    Moving the clock of a session forward, and freezing and thawing all of its
    clocks. *)
From S2P Require Import Prelude.
From S2P Require Import DraftTypes.
From S2P Require Import DraftAdmission.
From S2P Require Import Fifo.
From S2P Require Import FifoManifest.
From S2P Require Import FifoInv.
From S2P Require Import FifoCheck.
From S2P Require Import FifoSelect.
From S2P Require Import FifoPrompt.
From S2P Require Import FifoFlow.
Local Open Scope N_scope.

(** ** Time passes *)
Definition tick (now : N) (s : DraftSession) (f : FifoDraftState) : DraftSession :=
  set_fifo (Some (set_last_now_ms now f)) s.
Lemma scope_later pz now now' d c : now ≤ now' → scope_ok pz now d c → scope_ok pz now' d c.
Proof. unfold scope_ok. destruct c, pz; try done. lia. Qed.
Lemma prompted_later sid policy pz now now' i st : now ≤ now' →
  prompted sid policy pz now i st → prompted sid policy pz now' i st.
Proof.
  intros Hle. unfold prompted. destruct (head (queue st)); [|done]. intros (p&Hp&[A B C D]).
  exists p. split; [done|]. split; try done. unfold clock_ok in *. repeat case_match; try done.
  destruct D as [? D]. split; [done|]. by eapply scope_later.
Qed.

Lemma frame_tick s f now : frame s f → now ≤ MAX_DRAFT_JSON_INTEGER →
  frame (tick now s f) (set_last_now_ms now f).
Proof. intros [] ?. by split. Qed.
Lemma started_tick deal s f now : started deal s f → last_now_ms f ≤ now →
  now ≤ MAX_DRAFT_JSON_INTEGER → started deal (tick now s f) (set_last_now_ms now f).
Proof.
  intros [HF HT HP] Hle Hmax.
  assert (∀ pz, drafting s f pz → drafting (tick now s f) (set_last_now_ms now f) pz) as HD.
  { intros pz [A B C D E G]. split; try done. intros i st Hi. eapply prompted_later; [exact Hle|].
    by apply G. }
  assert (∀ pz, reviewing s f pz → reviewing (tick now s f) (set_last_now_ms now f) pz) as HR.
  { intros pz [A B C D E G (c&Hc&Hs)]. split; try done. exists c. split; [done|].
    by eapply scope_later. }
  split; [by apply frame_tick| |].
  - by apply (same_table_ok (s := s) (f := f)).
  - unfold phase_ok in *. cbn [status tick set_fifo paused set_last_now_ms].
    destruct (status s); try done; try (destruct HP; split; by auto);
      try (destruct HP as [[] ?]; by split).
    destruct HP as (p&Hp&HP). exists p. split; [done|]. destruct (paused_phase p); auto.
Qed.
Lemma lobby_tick s f now : in_lobby s f → now ≤ MAX_DRAFT_JSON_INTEGER →
  in_lobby (tick now s f) (set_last_now_ms now f).
Proof.
  intros [A B C D E G H] Hmax. split; try done; [by apply frame_tick|].
  cbn. rewrite C at 1. done.
Qed.

(** ** Every clock at once *)
(** What an update of the clocks does to the prompt of a seat. *)
Definition with_clock (p : DraftPrompt) (c : option DraftClock) : DraftPrompt :=
  {| prompt_id := prompt_id p; prompt_pack := prompt_pack p; prompt_clock := c |}.
Record reclocked (P : DraftClockState → DraftClockState → Prop) (st st' : FifoSeatState) : Prop := {
  rk_stats : stats st' = stats st;
  rk_prompt : match prompt st with
    | None => prompt st' = None
    | Some p => match prompt_clock p with
                | None => prompt st' = Some p
                | Some c => ∃ c', P (clock_state c) c' ∧
                    prompt st' = Some (with_clock p (Some {| clock_target := clock_target c;
                                                             clock_state := c' |}))
                end
    end;
}.
Section map_clocks.
Context (g : DraftClockState → outcome DraftError DraftClockState) (late : Prop).
Context (P : DraftClockState → DraftClockState → Prop) (ok : DraftClockState → Prop).
Context (Hg : ∀ c, ok c → (∃ c', g c = Ok c' ∧ P c c') ∨ (g c = Err InvalidClockBounds ∧ late)).

Definition clocked (st : FifoSeatState) : Prop :=
  ∀ p c, prompt st = Some p → prompt_clock p = Some c → ok (clock_state c).
Lemma map_seat_clock_ok st : clocked st →
  (∃ st', map_seat_clock g st = Ok st' ∧ reclocked P st st') ∨
  (map_seat_clock g st = Err InvalidClockBounds ∧ late).
Proof using Hg.
  intros Hc. unfold map_seat_clock. destruct (prompt st) as [[id pk [c|]]|] eqn:Hp.
  - destruct (Hg (clock_state c) (Hc _ c Hp eq_refl)) as [(c'&Heq&HP)|[Heq Hl]]; unfold map_clock;
      rewrite Heq; cbn; [left|by right].
    eexists. split; [done|]. split; [unfold stats, has_prompt; cbn; by rewrite Hp|].
    rewrite Hp. cbn. by exists c'.
  - left. eexists. split; [done|]. split; [done|]. by rewrite Hp.
  - left. eexists. split; [done|]. split; [done|]. by rewrite Hp.
Qed.
Lemma map_seat_clocks_ok l : (∀ j st, l !! j = Some st → clocked st) →
  (∃ l', map_seat_clocks g l = Ok l' ∧ Forall2 (reclocked P) l l') ∨
  (map_seat_clocks g l = Err InvalidClockBounds ∧ late).
Proof using Hg.
  induction l as [|st l IH]; intros Hall; cbn; [left; by exists []|].
  destruct (map_seat_clock_ok st (Hall 0%nat st eq_refl)) as [(st'&->&Hst)|[-> Hl]]; cbn; [|by right].
  destruct IH as [(l'&->&Hl')|[-> Hl]]; [intros j; apply (Hall (S j))| |by right].
  cbn. left. eexists. split; [done|]. by constructor.
Qed.

Lemma for_each_clock_ok s f : fifo s = Some f → (∀ j st, fifo_seats f !! j = Some st → clocked st) →
  (∀ r, review f = Some r → ok (clock_state (review_clock r))) →
  runs late (for_each_clock g) (λ _ s', ∃ l' rv, Forall2 (reclocked P) (fifo_seats f) l' ∧
    match review f with
    | None => rv = None
    | Some r => ∃ c', P (clock_state (review_clock r)) c' ∧ rv = Some {|
        exhausted_round := exhausted_round r; review_next_round := review_next_round r;
        review_clock := {| clock_target := clock_target (review_clock r); clock_state := c' |} |}
    end ∧ s' = set_fifo (Some (set_review rv (set_fifo_seats l' f))) s) s.
Proof using Hg.
  intros Hf Hall Hrev. unfold for_each_clock. apply runs_bind, runs_get. apply runs_bind.
  eapply runs_lift; [unfold fifo_ref; by rewrite Hf|]. apply runs_bind.
  destruct (map_seat_clocks_ok (fifo_seats f) Hall) as [(l'&Heq&Hl')|[Heq Hl]]; cycle 1.
  { unfold runs, lift. by rewrite Heq. }
  eapply runs_lift; [exact Heq|]. apply runs_bind. destruct (review f) as [r|] eqn:Hr.
  - destruct (Hg _ (Hrev r eq_refl)) as [(c'&Hc&HP)|[Hc Hl]]; cycle 1.
    { unfold runs, lift, map_clock. by rewrite Hc. }
    eapply runs_lift; [unfold map_clock; rewrite Hc; done|]. apply (runs_modify_fifo _ f); [done|].
    eexists l', _. split; [done|]. split; [|done]. by exists c'.
  - eapply runs_lift; [done|]. apply (runs_modify_fifo _ f); [done|]. by exists l', None.
Qed.
End map_clocks.

(** ** Pause and resume *)
Lemma reclocked_stats P l l' : Forall2 (reclocked P) l l' → stats <$> l' = stats <$> l.
Proof. induction 1 as [|st st' l l' [H _] _ IH]; cbn; [done|]. by rewrite H, IH. Qed.
Lemma reclocked_prompted P sid policy pz pz' now i st st' :
  (∀ c c' d, P c c' → scope_ok pz now d c → scope_ok pz' now d c') →
  reclocked P st st' → prompted sid policy pz now i st → prompted sid policy pz' now i st'.
Proof.
  intros HP [Hs Hpr]. injection Hs as Hq Hg _ _ Hr. unfold prompted. rewrite Hq.
  destruct (head (queue st)) as [h|]; [|by intros Hn; rewrite Hn in Hpr].
  intros (p&Hp&[A B C D]). rewrite Hp in Hpr. unfold clock_ok in D. rewrite <-Hr in D.
  destruct (prompt_clock p) as [c|] eqn:Hc.
  - destruct Hpr as (c'&HPc&->). eexists. split; [done|]. split; cbn; rewrite ?Hg; try done.
    unfold clock_ok. cbn. destruct (pick_duration _ _); [|done]. destruct D as [-> D]. split; [done|].
    cbn. by eapply HP.
  - exists p. split; [done|]. split; rewrite ?Hg; try done. unfold clock_ok. by rewrite Hc.
Qed.
Lemma reclocked_none P st st' : reclocked P st st' → prompt st = None → prompt st' = None.
Proof. intros [_ H] Hn. by rewrite Hn in H. Qed.

Definition frozen_as (now : N) (c c' : DraftClockState) : Prop :=
  ∃ d, c = Running d ∧ c' = Frozen (d - now).
Definition thawed_as (now : N) (c c' : DraftClockState) : Prop :=
  ∃ r, c = Frozen r ∧ c' = Running (now + r) ∧ now + r ≤ MAX_DRAFT_JSON_INTEGER.
Definition in_scope (pz : bool) (now : N) (c : DraftClockState) : Prop :=
  scope_ok pz now MAX_DRAFT_DURATION_MS c.
Lemma freeze_ok late now c : in_scope false now c →
  (∃ c', freeze now c = Ok c' ∧ frozen_as now c c') ∨ (freeze now c = Err InvalidClockBounds ∧ late).
Proof. destruct c as [d|r]; [|done]. intros _. left. eexists. split; [done|]. by exists d. Qed.
Lemma thaw_ok now c : in_scope true now c →
  (∃ c', thaw now c = Ok c' ∧ thawed_as now c c') ∨
  (thaw now c = Err InvalidClockBounds ∧ too_late now).
Proof.
  destruct c as [d|r]; [done|]. cbn. intros Hr. unfold deadline.
  destruct (checked_json_add_cases now r) as [[Hle ->]|[Hlt ->]]; cbn.
  - left. eexists. split; [done|]. by exists r.
  - right. split; [done|]. unfold too_late. lia.
Qed.
Lemma frozen_scope now d c c' : frozen_as now c c' → scope_ok false now d c → scope_ok true now d c'.
Proof. intros (e&->&->). cbn. lia. Qed.
Lemma thawed_scope now d c c' : thawed_as now c c' → scope_ok true now d c → scope_ok false now d c'.
Proof. intros (e&->&->&?). cbn. lia. Qed.
Lemma scope_wide pz now d c : d ≤ MAX_DRAFT_DURATION_MS → scope_ok pz now d c → in_scope pz now c.
Proof. unfold in_scope, scope_ok. destruct c, pz; try done; lia. Qed.

Lemma drafting_clocked s f pz : frame s f → drafting s f pz → ∀ j st, fifo_seats f !! j = Some st →
  clocked (in_scope pz (last_now_ms f)) st.
Proof.
  intros HF HD j st Hj p c Hp Hc. pose proof (dr_prompts _ _ _ HD j st Hj) as H. unfold prompted in H.
  destruct (head (queue st)); [|congruence]. destruct H as (p'&Hp'&[_ _ _ D]).
  rewrite Hp in Hp'. injection Hp' as <-. unfold clock_ok in D. rewrite Hc in D.
  destruct (pick_duration (policy_of s) (round_completed_steps st)) as [d|] eqn:Hd; [|done].
  destruct D as [_ D]. eapply scope_wide; [|exact D]. by apply (config_fair s f HF _ _ Hd).
Qed.
Lemma reviewing_clocked s f pz : frame s f → reviewing s f pz →
  (∀ j st, fifo_seats f !! j = Some st → clocked (in_scope pz (last_now_ms f)) st) ∧
  ∀ r, review f = Some r → in_scope pz (last_now_ms f) (clock_state (review_clock r)).
Proof.
  intros HF HR. split.
  - intros j st Hj p c Hp. by rewrite (rv_prompts _ _ _ HR j st Hj) in Hp.
  - intros r Hr. destruct (rv_review _ _ _ HR) as (c&Hc&Hs). rewrite Hr in Hc. injection Hc as ->.
    cbn. eapply scope_wide; [|exact Hs]. apply (fc_review _ _ (frame_config s f HF)).
Qed.

(** The clocks of an active phase, moved by [P] from one side of a pause to the other. *)
Section shift.
Context {deal : list (list DraftPack)} {s : DraftSession} {f : FifoDraftState}.
Context (P : DraftClockState → DraftClockState → Prop) (pz pz' : bool).
Context (HP : ∀ c c' d, P c c' → scope_ok pz (last_now_ms f) d c → scope_ok pz' (last_now_ms f) d c').
Context (HF : frame s f) (HT : table deal s f).
Context (l' : list FifoSeatState) (Hl : Forall2 (reclocked P) (fifo_seats f) l').
Context (rv : option DraftReviewState) (px : option DraftPausedState) (st : DraftStatus.t).
Local Abbreviation f' := (set_paused px (set_review rv (set_fifo_seats l' f))).
Local Abbreviation s' := (set_status st (set_fifo (Some f') s)).

Lemma shift_same : same_table s f s' f'.
Proof using Hl. split; try done. by eapply reclocked_stats. Qed.
Lemma shift_frame : frame s' f'.
Proof using HF Hl.
  destruct HF as [? ? ? ? ? ? ? ? Hs]. split; try done. cbn. rewrite <-(Forall2_length _ _ _ Hl). exact Hs.
Qed.
Lemma shift_seat j st' : l' !! j = Some st' →
  ∃ st0, fifo_seats f !! j = Some st0 ∧ reclocked P st0 st'.
Proof using Hl. intros Hj. by apply (Forall2_lookup_r _ _ _ _ _ Hl). Qed.
Lemma shift_drafting : drafting s f pz → rv = None → drafting s' f' pz'.
Proof using HP Hl.
  intros [A B C D E G] Hrv. split; try done.
  - by rewrite (same_live shift_same).
  - intros j st' Hj. destruct (shift_seat j st' Hj) as (st0&Hst0&Hr).
    eapply reclocked_prompted; [exact HP|exact Hr|]. by apply G.
Qed.
Lemma shift_reviewing r c' : reviewing s f pz → review f = Some r →
  P (clock_state (review_clock r)) c' → rv = Some {|
    exhausted_round := exhausted_round r; review_next_round := review_next_round r;
    review_clock := {| clock_target := clock_target (review_clock r); clock_state := c' |} |} →
  reviewing s' f' pz'.
Proof using HP Hl.
  intros [A B C D E G (c&Hc&Hs)] Hr Hc' Hrv. rewrite Hc in Hr. injection Hr as <-. cbn in *.
  split; try done.
  - by rewrite (same_live shift_same).
  - intros j st' Hj. destruct (shift_seat j st' Hj) as (st0&Hst0&Hrc).
    eapply reclocked_none; [exact Hrc|]. by apply (E j).
  - exists c'. split; [exact Hrv|]. by eapply HP.
Qed.
End shift.

(** What a pause or a resumption changes. *)
Record shifted (P : DraftClockState → DraftClockState → Prop) (s : DraftSession) (f : FifoDraftState)
    (s' : DraftSession) (f' : FifoDraftState) : Prop := {
  sh_seats : Forall2 (reclocked P) (fifo_seats f) (fifo_seats f');
  sh_review : match review f with
    | None => review f' = None
    | Some r => ∃ c', P (clock_state (review_clock r)) c' ∧ review f' = Some {|
        exhausted_round := exhausted_round r; review_next_round := review_next_round r;
        review_clock := {| clock_target := clock_target (review_clock r); clock_state := c' |} |}
    end;
  sh_rest : f' = set_paused (paused f') (set_review (review f') (set_fifo_seats (fifo_seats f') f)) ∧
    s' = set_status (status s') (set_fifo (Some f') s);
}.

Lemma pause_ok deal s f late reason : started deal s f →
  status s = DraftStatus.Drafting ∨ status s = DraftStatus.Review →
  runs late (control (DraftControl.Pause reason) (last_now_ms f)) (λ d s', ∃ f',
    started deal s' f' ∧ status s' = DraftStatus.Paused ∧ d = [TransitionedTo DraftStatus.Paused] ∧
    paused f' = Some {| paused_phase := match status s with DraftStatus.Review => DraftActivePhase.Review
                                        | _ => DraftActivePhase.Drafting end;
                        paused_reason := reason |} ∧
    shifted (frozen_as (last_now_ms f)) s f s' f') s.
Proof.
  intros [HF HT HP] Hst. unfold phase_ok in HP. unfold control.
  assert ((∀ j st, fifo_seats f !! j = Some st → clocked (in_scope false (last_now_ms f)) st) ∧
    ∀ r, review f = Some r → in_scope false (last_now_ms f) (clock_state (review_clock r))) as [Hc1 Hc2].
  { destruct Hst as [Hst|Hst]; rewrite Hst in HP; destruct HP as [HP _].
    - split; [by apply (drafting_clocked s f)|]. intros r. by rewrite (dr_review _ _ _ HP).
    - by apply (reviewing_clocked s f). }
  apply runs_bind, runs_bind, runs_get. apply runs_bind. eapply runs_lift.
  { instantiate (1 := match status s with DraftStatus.Review => DraftActivePhase.Review
                      | _ => DraftActivePhase.Drafting end). by destruct Hst as [-> | ->]. }
  apply runs_bind. eapply runs_mono.
  { apply (for_each_clock_ok (freeze (last_now_ms f)) late (frozen_as (last_now_ms f))
      (in_scope false (last_now_ms f)) (freeze_ok late (last_now_ms f)) s f); try done. apply HF. }
  intros u s1 (l'&rv&Hl&Hrv&->). apply runs_bind. eapply runs_modify_fifo; [done|].
  apply runs_modify. apply runs_bind, runs_get. apply runs_ret. eexists. split; [split|].
  - by apply (shift_frame (s := s) (frozen_as (last_now_ms f)) HF l' Hl).
  - eapply same_table_ok; [|exact HT]. by apply (shift_same (s := s) (frozen_as (last_now_ms f)) l' Hl).
  - cbn. eexists. split; [done|]. cbn.
    destruct Hst as [Hst|Hst]; rewrite Hst in HP |- *; destruct HP as [HP _]; cbn.
    + eapply (shift_drafting (s := s)); [|exact Hl|exact HP|].
      * intros c c' d. apply frozen_scope.
      * by rewrite (dr_review _ _ _ HP) in Hrv.
    + destruct (rv_review _ _ _ HP) as (c&Hc&_). rewrite Hc in Hrv. destruct Hrv as (c'&HPc&->).
      eapply (shift_reviewing (s := s)); [|exact Hl|exact HP|exact Hc|exact HPc|done].
      intros c0 c0' d. apply frozen_scope.
  - cbn. split_and!; try done.
Qed.

Lemma resume_ok deal s f : started deal s f → status s = DraftStatus.Paused →
  ∃ p, paused f = Some p ∧
  runs (too_late (last_now_ms f)) (control DraftControl.Resume (last_now_ms f)) (λ d s', ∃ f',
    started deal s' f' ∧ d = [TransitionedTo (status s')] ∧
    status s' = match paused_phase p with DraftActivePhase.Drafting => DraftStatus.Drafting
                                        | DraftActivePhase.Review => DraftStatus.Review end ∧
    paused f' = None ∧ shifted (thawed_as (last_now_ms f)) s f s' f') s.
Proof.
  intros [HF HT HP] Hst. unfold phase_ok in HP. rewrite Hst in HP. destruct HP as (p&Hp&HP).
  exists p. split; [done|].
  assert ((∀ j st, fifo_seats f !! j = Some st → clocked (in_scope true (last_now_ms f)) st) ∧
    ∀ r, review f = Some r → in_scope true (last_now_ms f) (clock_state (review_clock r))) as [Hc1 Hc2].
  { destruct (paused_phase p).
    - split; [by apply (drafting_clocked s f)|]. intros r. by rewrite (dr_review _ _ _ HP).
    - by apply (reviewing_clocked s f). }
  unfold control. apply runs_bind, runs_bind, runs_get. rewrite Hst. apply runs_bind, runs_ret.
  apply runs_bind. eapply runs_lift; [unfold fifo_ref; by rewrite (fr_fifo _ _ HF)|]. apply runs_bind.
  eapply runs_lift; [by rewrite Hp|]. apply runs_bind. eapply runs_mono.
  { apply (for_each_clock_ok (thaw (last_now_ms f)) _ (thawed_as (last_now_ms f))
      (in_scope true (last_now_ms f)) (thaw_ok (last_now_ms f)) s f); try done. apply HF. }
  intros u s1 (l'&rv&Hl&Hrv&->). apply runs_bind. eapply runs_modify_fifo; [done|].
  apply runs_modify. apply runs_bind, runs_get. apply runs_ret. eexists. split; [split|].
  - by apply (shift_frame (s := s) (thawed_as (last_now_ms f)) HF l' Hl).
  - eapply same_table_ok; [|exact HT]. by apply (shift_same (s := s) (thawed_as (last_now_ms f)) l' Hl).
  - cbn. destruct (paused_phase p); (split; [|done]).
    + eapply (shift_drafting (s := s)); [|exact Hl|exact HP|].
      * intros c c' d. apply thawed_scope.
      * by rewrite (dr_review _ _ _ HP) in Hrv.
    + destruct (rv_review _ _ _ HP) as (c&Hc&_). rewrite Hc in Hrv. destruct Hrv as (c'&HPc&->).
      eapply (shift_reviewing (s := s)); [|exact Hl|exact HP|exact Hc|exact HPc|done].
      intros c0 c0' d. apply thawed_scope.
  - cbn. split_and!; try done.
Qed.

(** Any other status is refused. *)
Lemma control_refused s c now : (∀ reason, c = DraftControl.Pause reason →
    status s ≠ DraftStatus.Drafting ∧ status s ≠ DraftStatus.Review) →
  (c = DraftControl.Resume → status s ≠ DraftStatus.Paused) →
  ∃ e, control c now s = (Err e, s) ∧ e ≠ InvalidSnapshot.
Proof.
  intros H1 H2. destruct c as [reason|]; cbn.
  - destruct (H1 reason eq_refl). destruct (status s) eqn:Hst; try done; eexists;
      unfold control, mbind, stM_bind, get, lift; cbn; rewrite Hst; done.
  - specialize (H2 eq_refl). destruct (status s) eqn:Hst; try done; eexists;
      unfold control, mbind, stM_bind, get, ensure; cbn; rewrite Hst; done.
Qed.
