(* ===== verification/FifoExpire.v ===== *)
(** * Expiry

    The selection made for a seat whose time is up is always admitted, and
    [AdvanceClock] leaves no overdue prompt and no overdue review behind. *)
From S2P Require Import Prelude.
From S2P Require Import DraftTypes.
From S2P Require Import DraftAdmission.
From S2P Require Import DraftPick.
From S2P Require Import Fifo.
From S2P Require Import FifoManifest.
From S2P Require Import FifoInv.
From S2P Require Import FifoCheck.
From S2P Require Import FifoSelect.
From S2P Require Import FifoPrompt.
From S2P Require Import FifoFlow.
From S2P Require Import FifoStep.
From S2P Require Import FifoClock.
Local Open Scope N_scope.

(** ** The selection made for a seat *)
Definition auto (s : DraftSession) (seat : N) (p : DraftPrompt) (h : QueuedDraftPack) : Selection :=
  let n := picks_due s (q_pack h) [] in
  {| sel_seat := seat; sel_prompt := prompt_id p; sel_picked := ids (take n (q_pack h));
     sel_burned := ids (take (burns_due s (q_pack h) n) (drop n (q_pack h))); sel_effects := [] |}.

Section auto.
Context {deal : list (list DraftPack)} {s : DraftSession} {f : FifoDraftState}.
Context (HS : started deal s f) (Hst : status s = DraftStatus.Drafting).
Context (j : nat) (st : FifoSeatState) (Hj : fifo_seats f !! j = Some st).
Context (p : DraftPrompt) (Hp : prompt st = Some p).

Lemma prompt_asks : ∃ h, head (queue st) = Some h ∧
  asks (session_id f) (policy_of s) false (last_now_ms f) j st h p.
Proof using HS Hst Hj Hp.
  destruct (started_drafting _ _ _ HS Hst) as [HD _]. pose proof (dr_prompts _ _ _ HD j st Hj) as H.
  unfold prompted in H. destruct (head (queue st)) as [h|]; [|congruence].
  destruct H as (p'&Hp'&Ha). exists h. split; [done|]. congruence.
Qed.

Lemma auto_legal h timing : head (queue st) = Some h →
  in_time timing (last_now_ms f) (q_pack_id h) p →
  ∃ pool, legal s f (auto s (N.of_nat j) p h) timing h st p pool.
Proof using HS Hst Hj Hp.
  intros Hh Ht. pose proof (sr_frame _ _ _ HS) as HF. pose proof (sr_table _ _ _ HS) as HT.
  destruct (lookup_lt_is_Some_2 (pools s) j) as [pool Hpool].
  { rewrite (fr_pools _ _ HF), <-(fr_seats _ _ HF). by eapply lookup_lt_Some. }
  destruct prompt_asks as (h'&Hh'&Hask). simplify_eq. destruct Hask as [Hid _ Hpk _].
  assert (NoDup (ids (q_pack h))) as Hnd.
  { assert (queue st = h :: tail (queue st)) as Hq by (destruct (queue st); simplify_eq/=; done).
    pose proof (table_live_nodup HT) as Hnd. unfold ids in *. rewrite fmap_app in Hnd.
    apply NoDup_app in Hnd as (Hnd&_). unfold live_cards in Hnd.
    rewrite (live_split j st Hj), Hq in Hnd. rewrite !fmap_app, concat_app, fmap_app in Hnd.
    apply NoDup_app in Hnd as (_&_&Hnd). cbn in Hnd. rewrite fmap_app in Hnd.
    by apply NoDup_app in Hnd as (?&_). }
  exists pool. set (n := picks_due s (q_pack h) []). unfold auto. fold n.
  assert (n ≤ length (q_pack h))%nat as Hn by (unfold n, picks_due; lia).
  assert (ids (take n (q_pack h)) ++ ids (take (burns_due s (q_pack h) n) (drop n (q_pack h)))
    ⊆+ ids (q_pack h)) as Hsub.
  { unfold ids. rewrite <-fmap_app. apply fmap_submseteq. transitivity (take n (q_pack h) ++ drop n (q_pack h)); [|by rewrite take_drop].
    apply submseteq_skips_l, sublist_submseteq, sublist_take. }
  split; cbn [sel_seat sel_prompt sel_picked sel_burned sel_effects]; rewrite ?Nat2N.id; try done.
  - by rewrite Hid.
  - by rewrite Hid.
  - split; constructor.
  - unfold ids. rewrite length_fmap, length_take. fold n. lia.
  - unfold ids. rewrite length_fmap, length_take, length_drop. fold n. unfold burns_due. lia.
  - apply submseteq_Permutation in Hsub as [k Hk]. rewrite Hk in Hnd. by apply NoDup_app in Hnd as (?&_).
  - apply Forall_forall. intros id Hin. split; [by apply not_elem_of_nil|]. by eapply elem_of_submseteq.
Qed.

Lemma auto_selection h : head (queue st) = Some h →
  legal_auto_selection s (N.of_nat j) = Some (auto s (N.of_nat j) p h).
Proof using HS Hst Hj Hp.
  intros Hh. pose proof (sr_frame _ _ _ HS) as HF. pose proof (sr_table _ _ _ HS) as HT.
  unfold legal_auto_selection.
  rewrite (fr_flow _ _ HF), Hst, (fr_fifo _ _ HF), Nat2N.id. cbn.
  rewrite Hj. cbn. rewrite Hp. cbn.
  destruct (lookup_lt_is_Some_2 (pools s) j) as [pool Hpool].
  { rewrite (fr_pools _ _ HF), <-(fr_seats _ _ HF). by eapply lookup_lt_Some. }
  destruct (head_pack_of HF (N.of_nat j) st h) as [Hpk _]; [by rewrite Nat2N.id|done|].
  assert (picks_due s (q_pack h) [] ≤ length (q_pack h))%nat as Hle by (unfold picks_due; lia).
  rewrite (proj2 (requirements_ok HF (N.of_nat j) st h pool [] _ ltac:(by rewrite Nat2N.id) Hh
    ltac:(by rewrite Nat2N.id)) (conj (NoDup_nil_2) (conj (Forall_nil_2 _) (conj Hle eq_refl)))).
  cbn [mbind option_bind picks burns]. rewrite Hpk. cbn [mbind option_bind].
  destruct (started_drafting _ _ _ HS Hst) as [HD _].
  pose proof (kind_picks _ (dr_passing _ _ _ HD)) as Hk.
  pose proof (tb_live _ _ _ HT) as Hall. rewrite Forall_forall in Hall.
  assert (h ∈ live f) as Hin.
  { rewrite (live_split j st Hj), !elem_of_app. right. left. by apply head_Some_elem_of. }
  pose proof (lv_some _ _ _ _ (Hall h Hin)) as Hne.
  destruct (Nat.eqb_spec (picks_due s (q_pack h) []) 0) as [H0|H0]; [|done].
  unfold picks_due in H0. destruct (q_pack h); [done|]. cbn in H0. lia.
Qed.
End auto.

(** ** One captured prompt *)
Definition current (c : Captured) (f : FifoDraftState) : Prop :=
  ∃ st, fifo_seats f !! N.to_nat (prompt_seat (cap_prompt c)) = Some st ∧ still_current c st = true.
Lemma still_current_spec c st : still_current c st = true ↔
  ∃ p k, prompt st = Some p ∧ prompt_clock p = Some k ∧ prompt_id p = cap_prompt c ∧
    prompt_pack p = cap_pack c ∧ clock_state k = Running (cap_deadline c).
Proof.
  unfold still_current. split.
  - destruct (prompt st) as [p|]; [|done]. intros H. breflect.
    destruct (prompt_clock p) as [k|] eqn:Hk; [|done]. breflect. exists p, k. by split_and!.
  - intros (p&k&->&->&->&->&->). rewrite N.eqb_refl, !bool_decide_eq_true_2 by done. done.
Qed.
Lemma evolves_refl s f : evolves s f s f.
Proof. split; try done. intros j st Hj. exists st. split; [done|apply seat_evolves_refl]. Qed.

(** Once a captured prompt is gone it stays away. *)
Lemma current_back s f s' f' c : length (fifo_seats f') = length (fifo_seats f) →
  evolves s f s' f' → cap_deadline c ≤ last_now_ms f → current c f' → current c f.
Proof.
  intros Hlen Hev Hd (st'&Hst'&Hc). apply still_current_spec in Hc as (p&k&Hp&Hk&Hid&Hpk&Hrun).
  destruct (lookup_lt_is_Some_2 (fifo_seats f) (N.to_nat (prompt_seat (cap_prompt c)))) as [st Hst].
  { rewrite <-Hlen. by eapply lookup_lt_Some. }
  destruct (ev_seat _ _ _ _ Hev _ st Hst) as (st0&Hst0&[_ Hse]). simplify_eq.
  exists st. split; [done|]. apply still_current_spec.
  destruct (Hse p Hp) as [[Hold _]|[_ Hfresh]]; [by exists p, k|].
  destruct (Hfresh k Hk) as (d&Hd'&Hlt). rewrite Hrun in Hd'. injection Hd' as <-. lia.
Qed.
Lemma current_drafting deal s f c : started deal s f → current c f → status s = DraftStatus.Drafting.
Proof.
  intros [HF HT HP] (st&Hst&Hc). apply still_current_spec in Hc as (p&k&Hp&Hk&_&_&Hrun).
  unfold phase_ok in HP.
  assert (∀ pz, drafting s f pz → pz = false) as HD.
  { intros pz HD. pose proof (drafting_clocked s f pz HF HD _ st Hst p k Hp Hk) as Hs.
    rewrite Hrun in Hs. by destruct pz. }
  destruct (status s); try done;
    try (destruct HP as [HR _]; assert (no_prompts f) as Hnp by apply HR; by rewrite (Hnp _ st Hst) in Hp).
  destruct HP as (q&_&HP). destruct (paused_phase q); [by apply HD in HP|].
  destruct HP as [_ _ _ _ Hnp]. rewrite (Hnp _ st Hst) in Hp. done.
Qed.

Lemma expire_one_ok deal s f c : started deal s f →
  (N.to_nat (prompt_seat (cap_prompt c)) < seats_n s)%nat → cap_deadline c ≤ last_now_ms f →
  runs (too_late (last_now_ms f)) (expire_one c) (λ _ s', ∃ f', started deal s' f' ∧
    evolves s f s' f' ∧ ¬ current c f' ∧ (current c f → (cards_left s' f' < cards_left s f)%nat)) s.
Proof.
  intros HS Hseat Hd. pose proof (sr_frame _ _ _ HS) as HF. unfold expire_one.
  apply runs_bind, runs_get. apply runs_bind.
  eapply runs_lift; [unfold fifo_ref; by rewrite (fr_fifo _ _ HF)|]. apply runs_bind.
  destruct (lookup_lt_is_Some_2 (fifo_seats f) (N.to_nat (prompt_seat (cap_prompt c)))) as [st Hst].
  { by rewrite (fr_seats _ _ HF). }
  eapply runs_lift; [by rewrite Hst|].
  destruct (still_current c st) eqn:Hcur; cycle 1.
  { apply runs_ret. exists f. split; [done|]. split; [apply evolves_refl|].
    assert (¬ current c f) as Hn by (intros (st0&Hst0&?); simplify_eq; congruence). done. }
  assert (status s = DraftStatus.Drafting) as Hs.
  { eapply (current_drafting _ _ _ c); [exact HS|]. by exists st. }
  pose proof Hcur as (p&k&Hp&Hk&Hid&Hpk&Hrun)%still_current_spec.
  destruct (prompt_asks HS Hs _ st Hst p Hp) as (h&Hh&Hask).
  rewrite <-(N2Nat.id (prompt_seat (cap_prompt c))).
  rewrite (auto_selection HS Hs _ st Hst p Hp h Hh).
  assert (in_time (Expiry (cap_pack c) (cap_deadline c)) (last_now_ms f) (q_pack_id h) p) as Htime.
  { unfold in_time. rewrite Hk, Hrun, <-Hpk, (ask_pack _ _ _ _ _ _ _ _ Hask). split_and!; [done..|lia]. }
  destruct (auto_legal HS Hs _ st Hst p Hp h _ Hh Htime) as [pool HL].
  eapply runs_mono.
  { apply (select_fifo_ok deal s f _ _ h HS). apply (admit_selection_ok HF). by exists st, p, pool. }
  intros d s' (f'&HS'&[Hev Hleft Hcons _]). exists f'. split_and!; try done.
  intros (st'&Hst'&Hc'). apply still_current_spec in Hc' as (p'&k'&Hp'&Hk'&Hid'&_&Hrun').
  cbn [auto sel_seat sel_prompt] in Hcons. rewrite N2Nat.id in Hcons.
  specialize (Hcons st' p' Hst' Hp'). destruct (ev_seat _ _ _ _ Hev _ st Hst) as (st0&Hst0&[_ Hse]).
  simplify_eq. destruct (Hse p' Hp') as [[Hold Hg]|[_ Hfresh]].
  - rewrite (ask_id _ _ _ _ _ _ _ _ Hask) in Hcons. cbn in Hcons. lia.
  - destruct (Hfresh k' Hk') as (d'&Hd'&Hlt). rewrite Hrun' in Hd'. injection Hd' as <-. lia.
Qed.

Lemma expire_all_ok deal l : ∀ s f, started deal s f →
  Forall (λ c, (N.to_nat (prompt_seat (cap_prompt c)) < seats_n s)%nat ∧
               cap_deadline c ≤ last_now_ms f) l →
  runs (too_late (last_now_ms f)) (expire_all l) (λ _ s', ∃ f', started deal s' f' ∧
    evolves s f s' f' ∧ Forall (λ c, ¬ current c f') l ∧
    (∀ c, head l = Some c → current c f → (cards_left s' f' < cards_left s f)%nat)) s.
Proof.
  induction l as [|c l IH]; intros s f HS Hall; cbn [expire_all].
  { apply runs_ret. exists f. split_and!; [done|apply evolves_refl|constructor|done]. }
  apply Forall_cons in Hall as [[Hseat Hd] Hall]. apply runs_bind.
  eapply runs_mono; [by apply (expire_one_ok deal s f c)|]. intros d s1 (f1&HS1&Hev1&Hn1&Hl1).
  pose proof (ev_now _ _ _ _ Hev1) as Hnow. apply runs_bind.
  eapply runs_weaken; [|eapply runs_mono; [apply (IH s1 f1 HS1)|]].
  - by rewrite Hnow.
  - eapply Forall_impl; [exact Hall|]. intros c' [H1 H2]. rewrite Hnow. split; [|done].
    unfold seats_n in *. by rewrite (ev_seats _ _ _ _ Hev1).
  - intros more s2 (f2&HS2&Hev2&Hn2&_). apply runs_ret. exists f2. split_and!; try done.
    + by eapply evolves_trans.
    + constructor; [|done]. intros Hc. apply Hn1. eapply current_back; [|exact Hev2| |exact Hc].
      * rewrite (fr_seats _ _ (sr_frame _ _ _ HS2)), (fr_seats _ _ (sr_frame _ _ _ HS1)).
        unfold seats_n. by rewrite (ev_seats _ _ _ _ Hev2).
      * by rewrite Hnow.
    + intros c0 [= <-] Hc. specialize (Hl1 Hc). pose proof (ev_left _ _ _ _ Hev2). lia.
Qed.

(** ** [AdvanceClock] *)
Definition quiet (now : N) (f : FifoDraftState) : Prop :=
  ∀ j st, fifo_seats f !! j = Some st → overdue now st = None.
Lemma overdue_spec now st c : overdue now st = Some c ↔
  still_current c st = true ∧ cap_deadline c ≤ now.
Proof.
  rewrite still_current_spec. unfold overdue. split.
  - destruct (prompt st) as [p|]; cbn; [|done]. destruct (prompt_clock p) as [k|] eqn:Hk; cbn; [|done].
    destruct (clock_state k) as [d|] eqn:Hd; [|done]. destruct (N.leb_spec d now); [|done].
    intros [= <-]. cbn. split; [|done]. by exists p, k.
  - intros [(p&k&->&Hk&Hid&Hpk&Hrun) Hle]. cbn. rewrite Hk. cbn. rewrite Hrun.
    destruct (N.leb_spec (cap_deadline c) now); [|lia]. rewrite Hid, Hpk. by destruct c.
Qed.
Definition review_due (now : N) (f : FifoDraftState) : bool :=
  match review f with
  | Some r => match clock_state (review_clock r) with Running d => d <=? now | Frozen _ => false end
  | None => false
  end.
(** What the passage of time does: prompts that are due are answered, a review that
    is due ends. *)
Record advances (s : DraftSession) (f : FifoDraftState) (s' : DraftSession) (f' : FifoDraftState)
    : Prop := {
  ad_evolves : evolves s f s' f';
  ad_drafting : status s = DraftStatus.Drafting → quiet (last_now_ms f) f' ∧
    (¬ quiet (last_now_ms f) f → (cards_left s' f' < cards_left s f)%nat);
  ad_review : status s = DraftStatus.Review → review_due (last_now_ms f) f = true →
    status s' = DraftStatus.Drafting ∧ current_pack_number s' = current_pack_number s + 1;
  ad_idle : (status s = DraftStatus.Drafting → quiet (last_now_ms f) f) →
    (status s = DraftStatus.Review → review_due (last_now_ms f) f = false) → s' = s;
}.

Section captured.
Context {deal : list (list DraftPack)} {s : DraftSession} {f : FifoDraftState}.
Context (HS : started deal s f) (Hst : status s = DraftStatus.Drafting).
Local Abbreviation now := (last_now_ms f).
Lemma captured_seat j st c : fifo_seats f !! j = Some st → overdue now st = Some c →
  prompt_seat (cap_prompt c) = N.of_nat j.
Proof using HS Hst.
  intros Hj [(p&k&Hp&_&<-&_)%still_current_spec _]%overdue_spec.
  destruct (prompt_asks HS Hst j st Hj p Hp) as (h&_&Hask). by rewrite (ask_id _ _ _ _ _ _ _ _ Hask).
Qed.
Lemma captured_all : Forall (λ c, (N.to_nat (prompt_seat (cap_prompt c)) < seats_n s)%nat ∧
  cap_deadline c ≤ now) (omap (overdue now) (fifo_seats f)).
Proof using HS Hst.
  apply Forall_forall. intros c (st&Hin&Hc)%list_elem_of_omap.
  apply list_elem_of_lookup in Hin as [j Hj]. rewrite (captured_seat j st c Hj Hc), Nat2N.id. split.
  - rewrite <-(fr_seats _ _ (sr_frame _ _ _ HS)). by eapply lookup_lt_Some.
  - by apply overdue_spec in Hc as [_ ?].
Qed.
Lemma captured_gone s' f' : length (fifo_seats f') = length (fifo_seats f) → evolves s f s' f' →
  Forall (λ c, ¬ current c f') (omap (overdue now) (fifo_seats f)) → quiet now f'.
Proof using HS Hst.
  intros Hlen Hev Hgone j st' Hj. destruct (overdue now st') as [c|] eqn:Hc; [exfalso|done].
  destruct (lookup_lt_is_Some_2 (fifo_seats f) j) as [st Hst0].
  { rewrite <-Hlen. by eapply lookup_lt_Some. }
  destruct (ev_seat _ _ _ _ Hev j st Hst0) as (st0&Hst1&[_ Hse]). simplify_eq.
  pose proof Hc as [Hcur Hle]%overdue_spec.
  pose proof Hcur as (p&k&Hp&Hk&Hid&Hpk&Hrun)%still_current_spec.
  destruct (Hse p Hp) as [[Hold _]|[_ Hfresh]]; cycle 1.
  { destruct (Hfresh k Hk) as (d&Hd&Hlt). rewrite Hrun in Hd. injection Hd as <-. lia. }
  assert (overdue now st = Some c) as Hov.
  { apply overdue_spec. split; [|done]. apply still_current_spec. by exists p, k. }
  rewrite Forall_forall in Hgone. apply (Hgone c).
  - apply list_elem_of_omap. exists st. split; [|done]. by eapply list_elem_of_lookup_2.
  - exists st'. split; [|done]. by rewrite (captured_seat j st c Hst0 Hov), Nat2N.id.
Qed.
Lemma captured_nil : omap (overdue now) (fifo_seats f) = [] ↔ quiet now f.
Proof.
  split.
  - intros Ho j st Hj. destruct (overdue now st) as [c|] eqn:Hc; [|done].
    assert (c ∈ omap (overdue now) (fifo_seats f)) as Hin.
    { apply list_elem_of_omap. exists st. split; [|done]. by eapply list_elem_of_lookup_2. }
    rewrite Ho in Hin. by apply elem_of_nil in Hin.
  - intros Hq. destruct (omap (overdue now) (fifo_seats f)) as [|c l] eqn:Ho; [done|].
    assert (c ∈ omap (overdue now) (fifo_seats f)) as Hin by (rewrite Ho; by left).
    apply list_elem_of_omap in Hin as (st&Hin&Hc). apply list_elem_of_lookup in Hin as [j Hj].
    by rewrite (Hq j st Hj) in Hc.
Qed.
Lemma captured_head : ¬ quiet now f → ∃ c, head (omap (overdue now) (fifo_seats f)) = Some c ∧ current c f.
Proof using HS Hst.
  intros Hq. destruct (omap (overdue now) (fifo_seats f)) as [|c l] eqn:Ho.
  - exfalso. by apply Hq, captured_nil.
  - exists c. split; [done|]. assert (c ∈ omap (overdue now) (fifo_seats f)) as Hin by (rewrite Ho; by left).
    apply list_elem_of_omap in Hin as (st&Hin&Hc). apply list_elem_of_lookup in Hin as [j Hj].
    exists st. rewrite (captured_seat j st c Hj Hc), Nat2N.id. split; [done|]. by apply overdue_spec in Hc as [? _].
Qed.
End captured.

Lemma advance_ok deal s f : started deal s f →
  runs (too_late (last_now_ms f)) (advance (last_now_ms f))
    (λ _ s', ∃ f', started deal s' f' ∧ advances s f s' f') s.
Proof.
  intros HS. pose proof (sr_frame _ _ _ HS) as HF. unfold advance. apply runs_bind, runs_get.
  assert (∀ d : list DraftDelta, (status s = DraftStatus.Drafting → False) →
    (status s = DraftStatus.Review → review_due (last_now_ms f) f = false) →
    runs (too_late (last_now_ms f)) (mret d)
      (λ _ s', ∃ f', started deal s' f' ∧ advances s f s' f') s) as Hidle.
  { intros d H1 H2. apply runs_ret. exists f. split; [done|]. split; try done; [apply evolves_refl|].
    intros Hr Hd. by rewrite (H2 Hr) in Hd. }
  destruct (status s) eqn:Hst; try (by apply Hidle).
  - apply runs_bind. eapply runs_lift; [unfold fifo_ref; by rewrite (fr_fifo _ _ HF)|].
    destruct (decide (omap (overdue (last_now_ms f)) (fifo_seats f) = [])) as [Hnil|Hsome].
    { rewrite Hnil. apply runs_ret. exists f. split; [done|].
      split; [apply evolves_refl| |by rewrite Hst|done].
      intros _. split; [by apply captured_nil|]. intros Hq. by apply captured_nil in Hnil. }
    eapply runs_mono; [apply (expire_all_ok deal _ s f HS), (captured_all HS Hst)|].
    intros d s' (f'&HS'&Hev&Hgone&Hleft). exists f'. split; [done|].
    assert (length (fifo_seats f') = length (fifo_seats f)) as Hlen.
    { rewrite (fr_seats _ _ (sr_frame _ _ _ HS')), (fr_seats _ _ HF). unfold seats_n.
      by rewrite (ev_seats _ _ _ _ Hev). }
    split; try (by rewrite Hst).
    + done.
    + intros _. split; [by eapply (captured_gone HS Hst s')|]. intros Hq.
      destruct (captured_head HS Hst Hq) as (c&Hc&Hcur). by apply (Hleft c).
    + intros Hq _. destruct Hsome. by apply captured_nil, Hq.
  - pose proof (sr_phase _ _ _ HS) as HP. unfold phase_ok in HP. rewrite Hst in HP. destruct HP as [HR Hpz].
    destruct (rv_review _ _ _ HR) as (c&Hc&Hscope). apply runs_bind.
    eapply runs_lift; [unfold fifo_ref; by rewrite (fr_fifo _ _ HF)|]. apply runs_bind.
    eapply runs_lift; [by rewrite Hc|]. unfold review_due in Hidle. rewrite Hc in Hidle.
    cbn [review_clock clock_state review_next_round] in *.
    destruct c as [d|r]; [|done]. destruct (N.leb_spec d (last_now_ms f)) as [Hle|Hlt]; [|by apply Hidle].
    pose proof (rv_round _ _ _ HR) as Hround.
    assert (current_pack_number s < pack_count (config s)) as Hcur by lia.
    destruct (before_next deal s f (current_pack_number s + 1) HF (sr_table _ _ _ HS)
      (rv_passing _ _ _ HR) (rv_live _ _ _ HR) (rv_prompts _ _ _ HR) Hcur eq_refl Hround) as [HF2 HB2].
    apply runs_bind. eapply runs_mono.
    { apply (open_fifo_round_ok deal s f); try done; [apply HF|apply HR]. }
    intros u s' (f'&HS'&Hs'&Hcur'&[Hev _ _]). apply runs_ret. exists f'. split; [done|]. split.
    + destruct Hev as [A1 A2 A3 A4 A5 A6 A7 A8 A9 A10]. split; try done. intros _. by apply A10.
    + by rewrite Hst.
    + intros _ _. by rewrite Hcur'.
    + intros _ Hd. exfalso. specialize (Hd Hst). unfold review_due in Hd. rewrite Hc in Hd. cbn in Hd.
      apply N.leb_gt in Hd. lia.
Qed.
