(* ===== verification/FifoPlay.v ===== *)
(** * Starting and playing a first-in first-out draft

    [start_fifo] either refuses the generated packs or registers every pack and
    every card of them and opens the first round (or, when all packs are dealt at
    once, hands out the pools).  Then every action of [apply_at] on a session of the
    invariant: what it can refuse, that it keeps the invariant, how the seats move on. *)
From S2P Require Import Prelude.
From S2P Require Import DraftTypes.
From S2P Require Import DraftAdmission.
From S2P Require Import DraftPick.
From S2P Require Import DraftPod.
From S2P Require Import Fifo.
From S2P Require Import DraftSnapshot.
From S2P Require Import PodEvent.
From S2P Require Import PodMatching.
From S2P Require Import DraftDeck.
From S2P Require Import DraftApply.
From S2P Require Import FifoManifest.
From S2P Require Import FifoInv.
From S2P Require Import FifoCheck.
From S2P Require Import FifoValid.
From S2P Require Import FifoSelect.
From S2P Require Import FifoPrompt.
From S2P Require Import FifoFlow.
From S2P Require Import FifoStep.
From S2P Require Import FifoClock.
From S2P Require Import FifoExpire.
Local Open Scope N_scope.

(** ** Registration does not panic *)
Definition calm {A} (m : outcome DraftError A) : Prop := m ≠ Panic.
Lemma calm_bind {A B} (m : outcome DraftError A) (g : A → outcome DraftError B) :
  calm m → (∀ a, calm (g a)) → calm (m ≫= g).
Proof. unfold calm. destruct m; cbn; auto. Qed.
Lemma expect_u8_calm n : (n < 256)%nat → calm (expect_u8 n).
Proof. intros H. unfold expect_u8, calm. by destruct (Nat.ltb_spec n 256); [|lia]. Qed.
Lemma register_cards_calm pk pack : ∀ C, calm (register_cards pk pack C).
Proof. induction pack as [|c pack IH]; intros C; cbn; [done|]. by case_match. Qed.
Lemma register_row_calm n i row : ∀ r R, (i < 256)%nat → (r + length row ≤ 256)%nat →
  calm (register_row n i r row R).
Proof.
  induction row as [|pack row IH]; intros r R Hi Hr; [done|]. cbn [register_row length] in *.
  apply calm_bind; [by case_match|intros size]. apply calm_bind; [by case_match|intros pid].
  apply calm_bind; [apply register_cards_calm|intros cs].
  apply calm_bind; [by apply expect_u8_calm|intros o].
  apply calm_bind; [apply expect_u8_calm; lia|intros r0]. apply IH; lia.
Qed.
Lemma register_packs_calm n rows : ∀ i R, (i + length rows ≤ 256)%nat →
  (∀ row, row ∈ rows → (length row ≤ 256)%nat) → calm (register_packs n i rows R).
Proof.
  induction rows as [|row rows IH]; intros i R Hi Hr; [done|]. cbn [register_packs length] in *.
  apply calm_bind.
  - apply register_row_calm; [lia|]. apply Hr. by left.
  - intros R'. apply IH; [lia|]. intros row' H. apply Hr. by right.
Qed.
Lemma expect_sizes_ok row : (∀ p, p ∈ row → (length p < 256)%nat) →
  expect_sizes row = Ok ((λ p, N.of_nat (length p)) <$> row).
Proof.
  induction row as [|p row IH]; intros H; cbn; [done|]. unfold expect_u8.
  specialize (H p ltac:(by left)) as Hp. destruct (Nat.ltb_spec (length p) 256); [|lia]. cbn.
  rewrite IH; [done|]. intros q Hq. apply H. by right.
Qed.

(** ** A deal that fits the session *)
Record fits (s : DraftSession) (deal : list (list DraftPack)) (R : registry) : Prop := {
  ft_seats : length deal = seats_n s;
  ft_rounds : ∀ row, row ∈ deal → length row = packs_n s;
  ft_register : register_packs (seats_n s) 0 deal (∅, ∅) = Ok R;
}.

Section start.
Context {s : DraftSession} {f : FifoDraftState} (HL : in_lobby s f).
Context {deal : list (list DraftPack)} {R : registry} (HD : fits s deal R).
Local Abbreviation HF := (lb_frame _ _ HL).

Lemma fits_manifest : manifest (seats_n s) (packs_n s) deal R.
Proof using HL HD.
  destruct HD as [H1 H2 H3]. destruct (frame_n _ _ HF) as [? _]. destruct (frame_rounds _ _ HF) as [? _].
  apply register_packs_ok; try done; lia.
Qed.
(** The session with its packs registered and handed out. *)
Definition dealt_fifo : FifoDraftState := set_fifo_packs R.1 (set_fifo_cards R.2 f).
Definition dealt (sizes : list N) : DraftSession :=
  set_packs_by_seat deal (set_pack_sizes sizes (set_fifo (Some dealt_fifo) s)).

Lemma dealt_manifest : manifest (seats_n s) (packs_n s) deal (fifo_packs dealt_fifo, fifo_cards dealt_fifo).
Proof using HL HD.
  pose proof fits_manifest as HM. unfold dealt_fifo. cbn. by rewrite <-surjective_pairing.
Qed.
Lemma first_sizes first : deal !! 0%nat = Some first →
  expect_sizes first = Ok ((λ p, N.of_nat (length p)) <$> first).
Proof using HL HD.
  intros H0. apply expect_sizes_ok. intros p [r Hr]%list_elem_of_lookup.
  by apply (mf_packs _ _ _ _ fits_manifest 0%nat first r p H0 Hr).
Qed.
Lemma lobby_seat j st : fifo_seats f !! j = Some st → st = fresh_fifo_seat.
Proof using HL.
  rewrite (lb_fresh _ _ HL). cbn. by intros [-> _]%lookup_replicate.
Qed.
Lemma lobby_pool j pool : pools s !! j = Some pool → pool = [].
Proof using HL. rewrite (lb_pools _ _ HL). by intros [-> _]%lookup_replicate. Qed.
Lemma lobby_live : live f = [].
Proof using HL.
  unfold live. rewrite (lb_fresh _ _ HL). cbn. by induction (seats_n s).
Qed.
Lemma lobby_concat_pools : concat (pools s) = [].
Proof using HL. rewrite (lb_pools _ _ HL). by induction (seats_n s). Qed.
Lemma dealt_frame sizes : frame (dealt sizes) dealt_fifo.
Proof using HL HD.
  destruct HF as [F1 F2 F3 F4 F5 F6 F7 F8 F9 F10]. split; try done. cbn. apply HD.
Qed.

(** Pick and pass: the first round opens. *)
Lemma dealt_before first : deal !! 0%nat = Some first → passing s →
  let s0 := at_round 0 (dealt ((λ p, N.of_nat (length p)) <$> first)) (set_review None dealt_fifo) in
  frame s0 (set_review None dealt_fifo) ∧ before_round deal s0 (set_review None dealt_fifo).
Proof using HL HD.
  intros Hfirst Hpass s0. pose proof (dealt_frame ((λ p, N.of_nat (length p)) <$> first)) as HF1.
  split; [by destruct HF1|].
  pose proof (lb_fresh _ _ HL) as Hfresh. pose proof (frame_rounds _ _ HF) as [Hp _].
  assert (rnd s0 = 0%nat) as Hrnd by (unfold rnd; cbn; lia).
  split.
  - apply dealt_manifest.
  - intros row Hrow. cbn. by simplify_eq.
  - exists []. split; [cbn; rewrite Hfresh; done|]. cbn.
    rewrite lobby_concat_pools, !app_nil_r. done.
  - rewrite Hrnd. cbn. transitivity (id <$> deal); [by rewrite list_fmap_id|by apply list_fmap_ext].
  - apply lobby_live.
  - cbn. by rewrite Hfresh.
  - cbn. rewrite Hfresh. constructor.
  - intros i st pool Hst Hpool. cbn in Hst, Hpool. apply lobby_seat in Hst as ->.
    apply lobby_pool in Hpool as ->. unfold progress_ok, passing in *. cbn. rewrite Hpass. cbn. lia.
  - intros i st Hst. by apply lobby_seat in Hst as ->.
Qed.

(** All at once: the pools are the deal. *)
Lemma dealt_at_once first : deal !! 0%nat = Some first →
  distribution (procedure (kind s)) = PackDistribution.AllAtOnce →
  started deal (set_status DraftStatus.Deckbuilding (set_current_pack_number (pack_count (config s))
    (set_packs_by_seat ((λ _, []) <$> deal) (set_pools ((λ row, concat row) <$> deal)
      (dealt ((λ p, N.of_nat (length p)) <$> first)))))) dealt_fifo.
Proof using HL HD.
  intros Hfirst Hd. set (s' := set_status _ _).
  pose proof (dealt_frame ((λ p, N.of_nat (length p)) <$> first)) as HF1.
  pose proof (lb_fresh _ _ HL) as Hfresh. pose proof (frame_rounds _ _ HF) as [Hp _].
  assert (rnd s' = Nat.pred (packs_n s)) as Hrnd by (unfold rnd, packs_n; cbn; lia).
  assert (live dealt_fifo = []) as Hlive by apply lobby_live.
  split.
  - destruct HF1 as [F1 F2 F3 F4 F5 F6 F7 F8 F9 F10]. split; try done; cbn; rewrite length_fmap; apply HD.
  - split; rewrite ?Hlive; try (by constructor).
    + apply dealt_manifest.
    + intros row Hrow. cbn. by simplify_eq.
    + exists []. split; [cbn; by rewrite Hfresh|]. unfold live_cards. rewrite Hlive. cbn.
      rewrite app_nil_r. unfold deal_cards. rewrite !join_concat.
      assert (concat (concat ((λ _, []) <$> deal)) = @nil DraftCardInstance) as ->.
      { clear. generalize deal as l. by induction l as [|row l IH]; cbn. }
      cbn. clear. generalize deal as l. induction l as [|row l IH]; cbn; [done|]. by rewrite concat_app, IH.
    + cbn. rewrite Hrnd. apply list_fmap_ext. intros i row Hrow.
      rewrite drop_ge; [done|]. rewrite (mf_rounds _ _ _ _ fits_manifest i row Hrow).
      unfold packs_n in *. lia.
    + intros id p. cbn. rewrite Hfresh. cbn. by rewrite lookup_empty.
    + cbn. rewrite Hfresh. constructor.
    + intros i st pool Hst Hpool. cbn in Hst, Hpool. apply lobby_seat in Hst as ->.
      rewrite list_lookup_fmap in Hpool. destruct (deal !! i) as [row|] eqn:Hi; [|done].
      injection Hpool as <-. unfold progress_ok. cbn. rewrite Hd. split_and!; try done.
      by exists row.
    + unfold live_cards. rewrite Hlive. cbn. unfold round_steps. cbn. rewrite Hfresh. cbn.
      assert (∀ n, sum_list_with (λ st, N.to_nat (round_completed_steps st))
        (replicate n fresh_fifo_seat) = 0%nat) as -> by (induction n; cbn; lia). lia.
  - cbn. split; [|cbn; by rewrite Hfresh]. split; try done.
    + unfold passing. cbn. by rewrite Hd.
    + intros i st Hst. by apply lobby_seat in Hst as ->.
    + cbn. by rewrite Hfresh.
Qed.
End start.

(** ** The handler *)
Lemma runs_ensure late c e (Q : () → DraftSession → Prop) s : c = true → Q () s →
  runs late (ensure c e) Q s.
Proof. by intros ->. Qed.

(** A deal that fits is dealt. *)
Lemma start_fifo_fits s f deal R : in_lobby s f → fits s deal R →
  runs (too_late (last_now_ms f)) (start_fifo (Some (Ok deal)) (last_now_ms f)) (λ d s', ∃ f',
    started deal s' f' ∧ session_id f' = session_id f ∧ revision f' = revision f ∧
    last_now_ms f' = last_now_ms f ∧ config s' = config s ∧ seats s' = seats s ∧
    DraftStarted ∈ d ∧
    status s' = match distribution (procedure (kind s)) with
                | PackDistribution.PickAndPass => DraftStatus.Drafting
                | _ => DraftStatus.Deckbuilding
                end) s.
Proof.
  intros HL HD. pose proof (lb_frame _ _ HL) as HF. unfold start_fifo.
  destruct (frame_n _ _ HF) as [Hn _]. destruct (frame_rounds _ _ HF) as [Hp _].
  apply runs_bind, runs_get. apply runs_bind, runs_ensure; [by rewrite bool_decide_eq_true, (lb_status _ _ HL)|].
  apply runs_bind. eapply runs_lift; [apply (fr_config _ _ HF)|].
  do 2 (apply runs_bind; eapply runs_lift; [done|]).
  apply runs_bind, runs_ensure.
  { rewrite (ft_seats _ _ _ HD), Nat.eqb_refl. cbn. apply forallb_forall. intros row Hrow%list_elem_of_In.
    by rewrite (ft_rounds _ _ _ HD row Hrow), Nat.eqb_refl. }
  apply runs_bind. eapply runs_lift; [unfold fifo_ref; by rewrite (fr_fifo _ _ HF)|].
  apply runs_bind. eapply runs_lift.
  { rewrite (lb_fresh _ _ HL). cbn. apply (ft_register _ _ _ HD). }
  destruct R as [ps cs] eqn:HR. apply runs_bind. apply (runs_modify_fifo _ f); [apply HF|].
  destruct (lookup_lt_is_Some_2 deal 0) as [first Hfirst]; [rewrite (ft_seats _ _ _ HD); lia|].
  apply runs_bind. eapply runs_lift; [by rewrite Hfirst|].
  apply runs_bind. eapply runs_lift; [by apply (first_sizes HL HD)|].
  do 2 (apply runs_bind, runs_modify).
  match goal with |- runs _ _ _ ?x => change x with
    (dealt (s := s) (f := f) (deal := deal) (R := (ps, cs)) ((λ p, N.of_nat (length p)) <$> first)) end.
  subst R. set (s1 := dealt _). set (f1 := dealt_fifo (f := f) (R := (ps, cs))).
  destruct (fc_dealt _ _ (frame_config s f HF)) as [Hdist|(Hdist&_)];
    rewrite <-(fr_kind _ _ HF) in Hdist; rewrite Hdist.
  - destruct (dealt_before HL HD first Hfirst Hdist) as [HF1 HB1]. apply runs_bind. eapply runs_mono.
    { change (last_now_ms f) with (last_now_ms f1).
      apply (open_fifo_round_ok deal s1 f1 0); try done.
      - change (config s1) with (config s). unfold packs_n in Hp. lia.
      - unfold f1. cbn. by rewrite (lb_fresh _ _ HL). }
    intros u s' (f'&HS'&Hst'&_&[Hev _ _]). apply runs_ret. exists f'. destruct Hev. split_and!; try done.
    by left.
  - do 4 (apply runs_bind, runs_modify). apply runs_ret. exists f1.
    split; [by apply (dealt_at_once HL HD first)|]. split_and!; try done. by left.
Qed.

(** Every other call is refused. *)
Lemma start_fifo_cases s f g : in_lobby s f → g ≠ Some Panic →
  (∃ deal R, g = Some (Ok deal) ∧ fits s deal R) ∨
  (∃ e s', start_fifo g (last_now_ms f) s = (Err e, s')).
Proof.
  intros HL Hg. pose proof (lb_frame _ _ HL) as HF.
  destruct (frame_n _ _ HF) as [Hn _]. destruct (frame_rounds _ _ HF) as [Hp _].
  destruct (start_fifo g (last_now_ms f) s) as [r s'] eqn:E.
  unfold start_fifo, mbind, stM_bind, get, lift in E.
  rewrite bool_decide_eq_true_2, (fr_config _ _ HF : validate_fifo_config _ (length (seats s)) _ = _) in E
    by apply HL.
  destruct g as [[deal|e|]|]; [|right; injection E as <- <-; by eexists _, s|done|
    right; injection E as <- <-; by eexists _, s].
  unfold ensure at 1 in E. cbn [mret stM_ret ok_or] in E.
  match type of E with context [ensure ?b _] => destruct b eqn:Hfit end;
    [|right; injection E as <- <-; by eexists _, s].
  breflect. unfold ensure, fifo_ref in E. rewrite (fr_fifo _ _ HF) in E. cbn [mret stM_ret ok_or] in E.
  match goal with H : forallb _ _ = true |- _ => rewrite forallb_forall in H; rename H into Hrows end.
  assert (∀ row, row ∈ deal → length row = packs_n s) as Hrounds.
  { intros row Hrow. apply list_elem_of_In, Hrows, Nat.eqb_eq in Hrow. done. }
  assert ((fifo_packs f, fifo_cards f) = (∅, ∅)) as Hempty by by rewrite (lb_fresh _ _ HL).
  rewrite Hempty in E.
  destruct (register_packs (length (seats s)) 0 deal (∅, ∅)) as [R|e|] eqn:HR.
  - left. by exists deal, R.
  - right. injection E as <- <-. by eexists _, s.
  - exfalso. eapply (register_packs_calm _ deal 0); [| |exact HR].
    + unfold seats_n in Hn. lia.
    + intros row Hrow. rewrite (Hrounds row Hrow). lia.
Qed.

(** ** Sessions of the invariant *)
Definition fifo_at (s : DraftSession) (f : FifoDraftState) : Prop :=
  in_lobby s f ∨ ∃ deal, started deal s f.
Lemma fifo_at_frame s f : fifo_at s f → frame s f.
Proof. intros [[]|[deal []]]; done. Qed.

(** Every card of the draft, by its id. *)
Definition all_ids (s : DraftSession) (f : FifoDraftState) : list string :=
  ids (concat (mjoin (packs_by_seat s)) ++ live_cards f ++ concat (pools s)) ++
  (removed_id <$> removed f).
Lemma started_ids deal s f : started deal s f → all_ids s f ≡ₚ ids (deal_cards deal).
Proof.
  intros [_ HT _]. destruct (tb_cards _ _ _ HT) as (gone&Hg&Hp). unfold all_ids, ids in *.
  rewrite <-Hp, <-Hg, !fmap_app, <-!app_assoc. done.
Qed.

(** ** How a seat moves on under any action *)
(** Generations never go back; a prompt of an old generation is the old prompt. *)
Record moves_on (st st' : FifoSeatState) : Prop := {
  mo_gen : generation st ≤ generation st';
  mo_prompt : ∀ p', prompt st' = Some p' → generation st' = generation st →
    ∃ p, prompt st = Some p ∧ prompt_id p = prompt_id p';
}.
Record follows (s : DraftSession) (f : FifoDraftState) (s' : DraftSession) (f' : FifoDraftState)
    : Prop := {
  fo_config : config s' = config s;
  fo_session : session_id f' = session_id f;
  fo_revision : revision f' = revision f;
  fo_now : last_now_ms f' = last_now_ms f;
  fo_seat : ∀ j st, fifo_seats f !! j = Some st →
    ∃ st', fifo_seats f' !! j = Some st' ∧ moves_on st st';
  fo_left : status s ≠ DraftStatus.Lobby → (cards_left s' f' ≤ cards_left s f)%nat;
}.
Lemma moves_on_refl st : moves_on st st.
Proof. split; [lia|]. intros p' Hp _. by exists p'. Qed.
Lemma moves_on_trans a b c : moves_on a b → moves_on b c → moves_on a c.
Proof.
  intros [G1 P1] [G2 P2]. split; [lia|]. intros p Hp Hg.
  destruct (P2 p Hp) as (p2&Hp2&<-); [lia|]. destruct (P1 p2 Hp2) as (p1&Hp1&<-); [lia|]. by exists p1.
Qed.
Lemma evolves_follows s f s' f' : evolves s f s' f' → follows s f s' f'.
Proof.
  intros [A B C D E G H I J]. split; try done. intros j st Hj. destruct (I j st Hj) as (st'&Hst'&[Hg Hp]).
  exists st'. split; [done|]. split; [done|]. intros p' Hp' Heq. destruct (Hp p' Hp') as [[? _]|[? _]]; [|lia].
  by exists p'.
Qed.
Lemma shifted_follows P s f s' f' : shifted P s f s' f' → follows s f s' f'.
Proof.
  intros [Hl _ [Hf Hs]]. rewrite Hs. split; try (by rewrite Hf).
  - intros j st Hj. destruct (Forall2_lookup_l _ _ _ _ _ Hl Hj) as (st'&Hst'&[Hstats Hp]).
    exists st'. split; [done|]. injection Hstats as _ Hg _ _ _. split; [lia|]. intros p' Hp' _.
    destruct (prompt st) as [p|]; [|congruence]. exists p. split; [done|].
    destruct (prompt_clock p); [destruct Hp as (c'&_&Hp)|]; rewrite Hp' in Hp; by injection Hp as ->.
  - intros _. unfold cards_left, live_cards, live. cbn.
    assert (queue <$> fifo_seats f' = queue <$> fifo_seats f) as ->; [|done].
    pose proof (f_equal (fmap fst) (reclocked_stats _ _ _ Hl)) as E. by rewrite <-!list_fmap_compose in E.
Qed.

(** ** The outcome of an action *)
Lemma runs_safely {A} late (P : DraftError → Prop) (m : FifoM A) (Q Q' : A → DraftSession → Prop) s :
  runs late m Q s → P InvalidClockBounds → (∀ a s', Q a s' → Q' a s') → safely P m Q' s.
Proof. unfold runs, safely. destruct (m s) as [[a|e|] s']; [auto| |done]. by intros [-> _]. Qed.

(** ** Seats replaced and connections *)
Section admin.
Context {s : DraftSession} {f : FifoDraftState}.
(** Once the draft is over, decks, pairings and results are no business of it. *)
Lemma fifo_at_settled s' : settled s s' → fifo_at s f → fifo_at s' f.
Proof.
  intros (st&decks&ms&ps&r&Hst&Hst'&->).
  intros [HL|[deal [A B C]]]; [by rewrite (lb_status _ _ HL) in Hst|right; exists deal].
  split; [by destruct A| |].
  - by apply (same_table_ok (s := s) (f := f)).
  - assert (drafted s f ∧ paused f = None) as [[] Hp].
    { unfold phase_ok in C. by destruct (status s). }
    unfold phase_ok. cbn. by destruct st.
Qed.
Lemma fifo_at_reseat l : length l = length (seats s) → fifo_at s f → fifo_at (set_seats l s) f.
Proof.
  intros Hlen. assert (seats_n (set_seats l s) = seats_n s) as Hn by done.
  assert (frame s f → frame (set_seats l s) f) as Hframe.
  { intros []. split; unfold seats_n in *; cbn; rewrite ?Hlen; done. }
  intros [[A B C D E G H]|[deal [A B C]]]; [left|right; exists deal].
  - split; unfold seats_n in *; cbn; rewrite ?Hlen; auto.
  - split; [by apply Hframe| |].
    + by apply (same_table_ok (s := s) (f := f)).
    + unfold phase_ok in *. cbn. destruct (status s); try done; try (destruct C as [[] ?]; by split).
      destruct C as (p&Hp&C). exists p. split; [done|]. destruct (paused_phase p), C; by split.
Qed.
Lemma fifo_at_connect l : length l = length (connected_seats s) → fifo_at s f →
  fifo_at (set_connected_seats l s) f.
Proof.
  intros Hlen.
  assert (frame s f → frame (set_connected_seats l s) f) as Hframe.
  { intros []. split; try done. cbn. by rewrite Hlen. }
  intros [[A B C D E G H]|[deal [A B C]]]; [left|right; exists deal].
  - split; auto.
  - split; [by apply Hframe| |].
    + by apply (same_table_ok (s := s) (f := f)).
    + unfold phase_ok in *. cbn. destruct (status s); try done; try (destruct C as [[] ?]; by split).
      destruct C as (p&Hp&C). exists p. split; [done|]. destruct (paused_phase p), C; by split.
Qed.
Lemma follows_admin s' : fifo s = Some f → config s' = config s → packs_by_seat s' = packs_by_seat s →
  follows s f s' f.
Proof.
  intros Hf Hc Hp. split; try done.
  - intros j st Hj. exists st. split; [done|apply moves_on_refl].
  - intros _. unfold cards_left. by rewrite Hp.
Qed.
End admin.

(** ** Every action *)
Section actions.
Variable shuffle : list DraftCardInstance → list DraftCardInstance.
Variable random_seat : N → N.
Variable generated : option (outcome DraftError (list (list DraftPack))).
Context {Rng : Type} `{!PodRng Rng}.
Hypothesis Hgen : generated ≠ Some Panic.
Local Abbreviation act := (apply_fifo shuffle random_seat generated).
(** No action calls the session broken, but for the packs [StartDraft] is given. *)
Definition fair_error (a : DraftAction) (e : DraftError) : Prop := e = InvalidSnapshot → a = StartDraft.
Definition next (s : DraftSession) (f : FifoDraftState) (s' : DraftSession) : Prop :=
  ∃ f', fifo_at s' f' ∧ follows s f s' f' ∧
    (status s ≠ DraftStatus.Lobby → all_ids s' f' ≡ₚ all_ids s f).
Lemma next_started deal s f s' f' : started deal s f → started deal s' f' → follows s f s' f' →
  next s f s'.
Proof.
  intros HS HS' Hf. exists f'. split; [right; by exists deal|]. split; [done|].
  intros _. by rewrite (started_ids _ _ _ HS), (started_ids _ _ _ HS').
Qed.

Lemma not_lobby deal s f : started deal s f → status s ≠ DraftStatus.Lobby.
Proof. intros [_ _ H] Hs. unfold phase_ok in H. by rewrite Hs in H. Qed.

Lemma start_safely s f : fifo_at s f →
  safely (fair_error StartDraft) (act StartDraft (last_now_ms f)) (λ _ s', next s f s') s.
Proof using Hgen.
  intros [HL|[deal HS]]; cbn [apply_fifo].
  - destruct (start_fifo_cases s f generated HL Hgen) as [(deal&R&->&HD)|(e&s'&Heq)].
    + eapply runs_safely; [by apply (start_fifo_fits s f deal R)|done|].
      intros d s' (f'&HS'&A&B&C&D&E&_&_). exists f'. split; [right; by exists deal|].
      split; [|by rewrite (lb_status _ _ HL)]. split; try done.
      * intros j st Hj. rewrite (lobby_seat HL j st Hj).
        destruct (lookup_lt_is_Some_2 (fifo_seats f') j) as [st' Hst'].
        { rewrite (fr_seats _ _ (sr_frame _ _ _ HS')). unfold seats_n. rewrite E.
          fold (seats_n s). rewrite <-(fr_seats _ _ (lb_frame _ _ HL)). by eapply lookup_lt_Some. }
        exists st'. split; [done|]. split; [cbn; lia|]. intros p' Hp' Hg. cbn in Hg. exfalso.
        pose proof (sr_phase _ _ _ HS') as HP. unfold phase_ok in HP.
        assert (∀ pz, ¬ drafting s' f' pz) as HD'.
        { intros pz HDr. pose proof (dr_prompts _ _ _ HDr j st' Hst') as Hpr. unfold prompted in Hpr.
          destruct (head (queue st')); [|congruence]. destruct Hpr as (p0&Hp0&[_ Hgq _ _]). lia. }
        assert (no_prompts f' → False) as HN.
        { intros Hn. by rewrite (Hn j st' Hst') in Hp'. }
        destruct (status s'); try done; try (destruct HP as [HP _]; by apply HN, HP);
          [destruct HP as [HP _]; by apply HD' in HP|].
        destruct HP as (q&_&HP). destruct (paused_phase q); [by apply HD' in HP|]. by apply HN, HP.
      * by rewrite (lb_status _ _ HL).
    + unfold safely. rewrite Heq. done.
  - assert (start_fifo generated (last_now_ms f) s =
      (Err (InvalidTransition (status s) "StartDraft"), s)) as Heq.
    { unfold start_fifo, mbind, stM_bind, get, ensure.
      rewrite bool_decide_eq_false_2 by by eapply not_lobby. done. }
    unfold safely. by rewrite Heq.
Qed.

Lemma select_safely s f x : fifo_at s f →
  safely (fair_error (Select x)) (act (Select x) (last_now_ms f)) (λ _ s', next s f s') s.
Proof.
  intros Hs. pose proof (fifo_at_frame _ _ Hs) as HF. cbn [apply_fifo].
  destruct (admit_selection s x HumanTiming) as [h|e|] eqn:Hadmit.
  - destruct Hs as [HL|[deal HS]].
    { apply (admit_selection_ok HF) in Hadmit as (st&p&pool&[Hst]). by rewrite (lb_status _ _ HL) in Hst. }
    eapply runs_safely; [by apply (select_fifo_ok deal s f x HumanTiming h)|done|].
    intros d s' (f'&HS'&[Hev]). eapply next_started; [done..|by apply evolves_follows].
  - pose proof (admit_selection_plain HF x HumanTiming) as Hp. rewrite Hadmit in Hp. cbn in Hp.
    assert (select_fifo x HumanTiming s = (Err e, s)) as Heq.
    { unfold select_fifo, mbind, stM_bind, get, lift. by rewrite Hadmit. }
    unfold safely. rewrite Heq. by intros ->.
  - pose proof (admit_selection_plain HF x HumanTiming) as Hp. by rewrite Hadmit in Hp.
Qed.

Lemma control_safely s f c : fifo_at s f →
  safely (fair_error (Control c)) (act (Control c) (last_now_ms f)) (λ _ s', next s f s') s.
Proof.
  intros Hs. cbn [apply_fifo].
  assert ((∀ reason, c = DraftControl.Pause reason →
      status s ≠ DraftStatus.Drafting ∧ status s ≠ DraftStatus.Review) →
    (c = DraftControl.Resume → status s ≠ DraftStatus.Paused) →
    safely (fair_error (Control c)) (control c (last_now_ms f)) (λ _ s', next s f s') s) as Hno.
  { intros H1 H2. destruct (control_refused s c (last_now_ms f) H1 H2) as (e&Heq&He).
    unfold safely. rewrite Heq. by intros ?. }
  destruct Hs as [HL|[deal HS]].
  { apply Hno; rewrite (lb_status _ _ HL); [by split|done]. }
  destruct c as [reason|].
  - destruct (decide (status s = DraftStatus.Drafting ∨ status s = DraftStatus.Review)) as [Hst|Hst].
    + eapply runs_safely; [by apply (pause_ok deal s f False reason HS)|done|].
      intros d s' (f'&HS'&_&_&_&Hsh). eapply next_started; [done..|by eapply shifted_follows].
    + apply Hno; [|done]. intros _ _. split; intros ?; apply Hst; auto.
  - destruct (decide (status s = DraftStatus.Paused)) as [Hst|Hst].
    + destruct (resume_ok deal s f HS Hst) as (p&_&Hr). eapply runs_safely; [exact Hr|done|].
      intros d s' (f'&HS'&_&_&_&Hsh). eapply next_started; [done..|by eapply shifted_follows].
    + by apply Hno.
Qed.

Lemma advance_safely s f : fifo_at s f →
  safely (fair_error AdvanceClock) (act AdvanceClock (last_now_ms f)) (λ _ s', next s f s') s.
Proof.
  intros Hs. cbn [apply_fifo]. destruct Hs as [HL|[deal HS]].
  - assert (advance (last_now_ms f) s = (Ok [], s)) as Heq.
    { unfold advance, mbind, stM_bind, get. by rewrite (lb_status _ _ HL). }
    unfold safely. rewrite Heq. exists f. split; [by left|]. split; [by apply evolves_follows, evolves_refl|done].
  - eapply runs_safely; [by apply (advance_ok deal s f)|done|].
    intros d s' (f'&HS'&[Hev _ _ _]). eapply next_started; [done..|by apply evolves_follows].
Qed.

Lemma admin_safely s f a : fifo_at s f → is_pick a = false →
  safely (fair_error (PodAction a)) (act (PodAction a) (last_now_ms f)) (λ _ s', next s f s') s.
Proof.
  intros Hs Ha. pose proof (fifo_at_frame _ _ Hs) as HF. destruct (frame_n _ _ HF) as [Hn _].
  assert (seat_count s = N.of_nat (seats_n s)) as Hcount.
  { unfold seat_count. apply wrap_small. fold (seats_n s). change (2 ^ 8) with 256. lia. }
  destruct a as [| |seat bot|seat connected]; try done.
  - unfold safely, apply_fifo, apply_existing, apply_pod_action, apply_replace_seat_with_bot,
      mbind, stM_bind, get, ensure. rewrite Hcount. destruct (N.ltb_spec seat (N.of_nat (seats_n s))); [|done].
    cbn. exists f. split; [apply fifo_at_reseat; [by rewrite length_insert|done]|].
    split; [|done]. apply follows_admin; try done. apply HF.
  - unfold safely, apply_fifo, apply_existing, apply_pod_action, apply_set_seat_connected,
      mbind, stM_bind, get, ensure, lift. rewrite Hcount.
    destruct (N.ltb_spec seat (N.of_nat (seats_n s))); [|done]. cbn [mret stM_ret].
    destruct (lookup_lt_is_Some_2 (seats s) (N.to_nat seat)) as [o ->]; [unfold seats_n in *; lia|].
    cbn [or_panic]. destruct o; [|done]. cbn. exists f.
    assert (length (SeatFlags.set seat connected (SeatFlags.ensure_len (N.of_nat (seats_n s)) true
      (connected_seats s))) = length (connected_seats s)) as Hlen.
    { unfold SeatFlags.set, SeatFlags.ensure_len, SeatFlags.t in *. rewrite length_insert.
      destruct (Nat.ltb_spec (length (connected_seats s)) (N.to_nat (N.of_nat (seats_n s)))); [|done].
      rewrite (fr_connected _ _ HF) in *. lia. }
    split; [by apply fifo_at_connect|]. split; [|done]. apply follows_admin; try done. apply HF.
Qed.

(** Deck submission and the event, which only run once the draft is over. *)
Lemma settled_safely s f a (m : FifoM (list DraftDelta)) : fifo_at s f →
  safely (λ e, e ≠ InvalidSnapshot) m (λ _ s', settled s s') s →
  safely (fair_error a) m (λ _ s', next s f s') s.
Proof.
  intros Hs Hm. eapply safely_mono; [exact Hm|intros e He E; by destruct (He E)|].
  intros d s1 Hsettled. exists f. split; [by apply (fifo_at_settled s1 Hsettled)|].
  pose proof (fr_fifo _ _ (fifo_at_frame _ _ Hs)) as Hf.
  destruct Hsettled as (st&decks&ms&ps&r&_&_&->). split; [by apply follows_admin|done].
Qed.

Lemma act_safely s f a : fifo_at s f →
  safely (fair_error a) (act a (last_now_ms f)) (λ _ s', next s f s') s.
Proof using Hgen.
  intros Hs. pose proof (fifo_at_frame _ _ Hs) as HF. destruct (frame_n _ _ HF) as [[_ Hn] _].
  destruct a as [|a|x|c| |seat deck cmd prt|a|seat pile d].
  - by apply start_safely.
  - destruct (is_pick a) eqn:Ha; [|by apply admin_safely]. by destruct a.
  - by apply select_safely.
  - by apply control_safely.
  - by apply advance_safely.
  - apply settled_safely; [done|]. apply submit_deck_safely; [done|by apply HF].
  - apply settled_safely; [done|]. by apply event_action_safely.
  - done.
Qed.
End actions.
