(* ===== verification/FifoGame.v ===== *)
(** * What the reducer promises about a first-in first-out draft

    [apply_at] on every session that can be reached from [new_fifo]: it never
    panics, what it refuses it leaves alone, what it accepts keeps the invariant and
    every card; selections, time, pause and resume do what they say; an answered
    prompt stays answered; every started draft can be played to its end. *)
From S2P Require Import Prelude.
From S2P Require Import DraftTypes.
From S2P Require Import DraftAdmission.
From S2P Require Import DraftPick.
From S2P Require Import DraftPod.
From S2P Require Import Fifo.
From S2P Require Import DraftSnapshot.
From S2P Require Import PodEvent.
From S2P Require Import PodMatching.
From S2P Require Import DraftApply.
From S2P Require Import FifoManifest.
From S2P Require Import FifoInv.
From S2P Require Import FifoCheck.
From S2P Require Import FifoValid.
From S2P Require Import FifoSelect.
From S2P Require Import FifoPrompt.
From S2P Require Import FifoFlow.
From S2P Require Import FifoStep.
From S2P Require Import FifoClock.
From S2P Require Import FifoExpire.
From S2P Require Import FifoPlay.
Local Open Scope N_scope.

(** ** The commit *)
Definition bump (s : DraftSession) (f : FifoDraftState) : DraftSession :=
  set_fifo (Some (set_revision (revision f + 1) f)) s.
Lemma fifo_at_bump s f : fifo_at s f → revision f + 1 ≤ MAX_DRAFT_JSON_INTEGER →
  fifo_at (bump s f) (set_revision (revision f + 1) f).
Proof.
  intros Hs Hr.
  assert (frame s f → frame (bump s f) (set_revision (revision f + 1) f)) as Hframe.
  { intros []. split; done. }
  destruct Hs as [[A B C D E G H]|[deal [A B C]]]; [left|right; exists deal].
  - split; auto. by rewrite C.
  - split; [by apply Hframe| |].
    + by apply (same_table_ok (s := s) (f := f)).
    + unfold phase_ok in *. cbn. destruct (status s); try done; try (destruct C as [[] ?]; by split).
      destruct C as (p&Hp&C). exists p. split; [done|]. destruct (paused_phase p), C; by split.
Qed.
Lemma fifo_at_valid s f : fifo_at s f → validate_persisted_snapshot s = Ok ().
Proof.
  intros Hs. unfold validate_persisted_snapshot. rewrite (fr_flow _ _ (fifo_at_frame _ _ Hs)).
  apply fifo_ok_valid. by exists f.
Qed.
Lemma commit_cases s s1 f1 : fifo_at s1 f1 →
  (s1 = s ∧ commit s s1 = Ok s) ∨
  (revision f1 + 1 ≤ MAX_DRAFT_JSON_INTEGER ∧ commit s s1 = Ok (bump s1 f1)) ∨
  (MAX_DRAFT_JSON_INTEGER < revision f1 + 1 ∧ commit s s1 = Err InvalidClockBounds).
Proof.
  intros Hs. unfold commit. case_decide as Heq; [by left|right].
  unfold fifo_ref. rewrite (fr_fifo _ _ (fifo_at_frame _ _ Hs)). cbn [ok_or mbind outcome_bind].
  destruct (checked_json_add_cases (revision f1) 1) as [[Hle Hinc]|[Hlt Hinc]]; unfold increment;
    rewrite Hinc; cbn [mbind outcome_bind]; [left|by right].
  split; [done|]. fold (bump s1 f1). by rewrite (fifo_at_valid _ _ (fifo_at_bump s1 f1 Hs Hle)).
Qed.

Section game.
Variable shuffle : list DraftCardInstance → list DraftCardInstance.
Variable random_seat : N → N.
Context {Rng : Type} `{!PodRng Rng}.

(** ** One call of [apply_at] *)
Section call.
Variable generated : option (outcome DraftError (list (list DraftPack))).
Local Abbreviation act := (apply_fifo shuffle random_seat generated).
Local Abbreviation apply_at := (apply_at shuffle random_seat generated).

Lemma apply_at_eq s f a now : fifo_at s f → now ≤ MAX_DRAFT_JSON_INTEGER →
  let now' := N.max now (last_now_ms f) in
  apply_at a now s = match act a now' (tick now' s f) with
                     | (Ok d, s1) => match commit s s1 with
                                     | Ok s' => (Ok d, s')
                                     | Err e => (Err e, s)
                                     | Panic => (Panic, s)
                                     end
                     | (Err e, _) => (Err e, s)
                     | (Panic, _) => (Panic, s)
                     end.
Proof.
  intros Hs Hnow now'. pose proof (fifo_at_frame _ _ Hs) as HF. unfold DraftApply.apply_at.
  rewrite (fr_flow _ _ HF). unfold apply_fifo_at. rewrite (fifo_at_valid _ _ Hs).
  cbn [mbind outcome_bind]. unfold clamped_now. destruct (N.ltb_spec MAX_DRAFT_JSON_INTEGER now); [lia|].
  unfold fifo_ref. rewrite (fr_fifo _ _ HF). cbn [ok_or mbind outcome_bind].
  fold now'. fold (tick now' s f). destruct (act a now' (tick now' s f)) as [[d|e|] s1]; try done.
  by destruct (commit s s1).
Qed.
Lemma apply_at_out_of_range s f a now : fifo_at s f → MAX_DRAFT_JSON_INTEGER < now →
  apply_at a now s = (Err InvalidClockBounds, s).
Proof.
  intros Hs Hnow. pose proof (fifo_at_frame _ _ Hs) as HF. unfold DraftApply.apply_at.
  rewrite (fr_flow _ _ HF). unfold apply_fifo_at. rewrite (fifo_at_valid _ _ Hs).
  cbn [mbind outcome_bind]. unfold clamped_now. by apply N.ltb_lt in Hnow as ->.
Qed.

(** What every accepted call keeps. *)
Record accepted (now : N) (s : DraftSession) (f : FifoDraftState) (s' : DraftSession)
    (f' : FifoDraftState) : Prop := {
  ac_at : fifo_at s' f';
  ac_session : session_id f' = session_id f;
  ac_config : config s' = config s;
  ac_now : last_now_ms f' = N.max now (last_now_ms f);
  ac_revision : (s' = s ∧ f' = f) ∨ revision f' = revision f + 1;
  ac_seat : ∀ j st, fifo_seats f !! j = Some st →
    ∃ st', fifo_seats f' !! j = Some st' ∧ moves_on st st';
  ac_cards : status s ≠ DraftStatus.Lobby → all_ids s' f' ≡ₚ all_ids s f;
  ac_left : status s ≠ DraftStatus.Lobby → (cards_left s' f' ≤ cards_left s f)%nat;
}.
Lemma fifo_at_tick s f now : fifo_at s f → now ≤ MAX_DRAFT_JSON_INTEGER → last_now_ms f ≤ now →
  fifo_at (tick now s f) (set_last_now_ms now f).
Proof.
  intros [HL|[deal HS]] H1 H2; [left; by apply lobby_tick|right; exists deal; by apply started_tick].
Qed.
Lemma next_accepted s f now s1 : fifo_at s f → last_now_ms f ≤ now →
  next (tick now s f) (set_last_now_ms now f) s1 →
  ∃ f1, fifo_at s1 f1 ∧ fifo s1 = Some f1 ∧ last_now_ms f1 = now ∧ revision f1 = revision f ∧
    (s1 = s → accepted now s f s f) ∧
    (revision f1 + 1 ≤ MAX_DRAFT_JSON_INTEGER →
     accepted now s f (bump s1 f1) (set_revision (revision f1 + 1) f1)).
Proof.
  intros Hs Hnow (f1&H1&[A B C D E G]&Hids). exists f1.
  pose proof (fr_fifo _ _ (fifo_at_frame _ _ H1)) as Hf1. split_and!; try done.
  - intros ->. pose proof (fr_fifo _ _ (fifo_at_frame _ _ Hs)) as Hf. simplify_eq. cbn in D.
    split; try done; [lia|by left].
  - intros Hr. split; try done.
    + by apply fifo_at_bump.
    + cbn in *. lia.
    + right. cbn in *. by rewrite C.
Qed.

Lemma apply_at_cases s f a now : fifo_at s f → generated ≠ Some Panic →
  (∃ e, apply_at a now s = (Err e, s) ∧ fair_error a e) ∨
  (∃ d s' f', apply_at a now s = (Ok d, s') ∧ accepted now s f s' f').
Proof.
  intros Hs Hgen. destruct (N.lt_ge_cases MAX_DRAFT_JSON_INTEGER now) as [Hmax|Hmax].
  { left. exists InvalidClockBounds. split; [by eapply apply_at_out_of_range|done]. }
  rewrite (apply_at_eq s f a now Hs Hmax). set (now' := N.max now (last_now_ms f)).
  pose proof (fr_now _ _ (fifo_at_frame _ _ Hs)) as Hn.
  assert (fifo_at (tick now' s f) (set_last_now_ms now' f)) as Ht.
  { apply fifo_at_tick; [done|unfold now'..]; lia. }
  pose proof (act_safely shuffle random_seat generated Hgen _ _ a Ht) as Hact. unfold safely in Hact.
  cbn [last_now_ms set_last_now_ms] in Hact.
  destruct (act a now' (tick now' s f)) as [[d|e|] s1]; [|left; by exists e|done].
  destruct (next_accepted s f now' s1 Hs ltac:(unfold now'; lia) Hact) as (f1&H1&_&Hn1&Hr1&Hsame&Hbump).
  assert (∀ s' f', accepted now' s f s' f' → accepted now s f s' f') as Hacc.
  { intros s' f' []. split; try done. unfold now' in *. lia. }
  destruct (commit_cases s s1 f1 H1) as [[-> ->]|[[Hle ->]|[Hlt ->]]].
  - right. exists d, s, f. split; [done|]. by apply Hacc, Hsame.
  - right. eexists d, _, _. split; [done|]. by apply Hacc, Hbump.
  - left. by exists InvalidClockBounds.
Qed.

(** With room for another revision and another clock, what runs is committed. *)
Lemma apply_at_runs s f a now Q : fifo_at s f → now ≤ MAX_DRAFT_JSON_INTEGER →
  let now' := N.max now (last_now_ms f) in
  revision f + 1 ≤ MAX_DRAFT_JSON_INTEGER → ¬ too_late now' →
  runs (too_late now') (act a now') Q (tick now' s f) →
  (∀ d s1, Q d s1 → ∃ f1, fifo_at s1 f1 ∧ revision f1 = revision f) →
  ∃ d s1 f1, apply_at a now s = (Ok d, if decide (s1 = s) then s else bump s1 f1) ∧ Q d s1 ∧
    fifo_at s1 f1.
Proof.
  intros Hs Hmax now' Hrev Hroom Hruns HQ. rewrite (apply_at_eq s f a now Hs Hmax). fold now'.
  unfold runs in Hruns. destruct (act a now' (tick now' s f)) as [[d|e|] s1]; [|by destruct Hruns|done].
  destruct (HQ d s1 Hruns) as (f1&H1&Hr1). exists d, s1, f1. split; [|done].
  unfold commit. case_decide; [done|].
  destruct (commit_cases s s1 f1 H1) as [[? _]|[[_ Hc]|[Hlt _]]]; [done| |lia].
  unfold commit in Hc. rewrite decide_False in Hc by done. by rewrite Hc.
Qed.
End call.
End game.

(** ** Sessions that can be reached *)
(** Any calls, accepted or not, with any pack source that does not panic. *)
Inductive fifo_path (s : DraftSession) : DraftSession → Prop :=
  | path_here : fifo_path s s
  | path_call {Rng : Type} `{!PodRng Rng} shuffle random_seat generated a now s1 r s2 :
      fifo_path s s1 → generated ≠ Some Panic →
      apply_at shuffle random_seat generated a now s1 = (r, s2) → fifo_path s s2.
Definition fifo_reachable (s : DraftSession) : Prop :=
  ∃ c sts id s0, new_fifo c sts id = Ok s0 ∧ fifo_path s0 s.

Lemma new_fifo_lobby c sts id s : new_fifo c sts id = Ok s →
  in_lobby s (fresh_fifo id (length sts)).
Proof.
  unfold new_fifo. intros (u1&H1&H)%outcome_bind_ok. case_bool_decide as Hflow; [|done].
  apply outcome_bind_ok in H as ([]&Hc&H). apply outcome_bind_ok in H as (u3&Hid&H).
  unfold refuse in Hid. destruct (valid_draft_id id) eqn:Hv; [|done].
  apply outcome_bind_ok in H as (u4&_&[= <-]).
  pose proof (validate_fifo_config_ok _ _ _ Hc) as [Hcfg _].
  assert (∀ b : bool, replicate (N.to_nat (wrap 8 (N.of_nat (length sts)))) b = replicate (length sts) b) as Hw.
  { intros b. rewrite wrap_small; [by rewrite Nat2N.id|]. destruct Hcfg. change (2 ^ 8) with 256. lia. }
  split; try done. split; try done; cbn; unfold SeatFlags.all_false, SeatFlags.all_true;
    rewrite ?Hw, ?length_replicate; done.
Qed.
Lemma fifo_at_path s0 s f0 : fifo_at s0 f0 → fifo_path s0 s → ∃ f, fifo_at s f.
Proof.
  intros H0. induction 1 as [|Rng ? sh rs g a now s1 r s2 _ [f1 H1] Hg Hcall]; [by exists f0|].
  destruct (apply_at_cases (Rng := Rng) sh rs g s1 f1 a now H1 Hg) as [(e&Heq&_)|(d&s'&f'&Heq&Hacc)];
    rewrite Heq in Hcall; injection Hcall as _ <-; [by exists f1|exists f'; apply Hacc].
Qed.
Lemma fifo_at_reachable s : fifo_reachable s → ∃ f, fifo_at s f.
Proof.
  intros (c&sts&id&s0&Hnew&Hp). eapply fifo_at_path; [|exact Hp]. left. by eapply new_fifo_lobby.
Qed.
Lemma path_trans s1 s2 s3 : fifo_path s1 s2 → fifo_path s2 s3 → fifo_path s1 s3.
Proof. intros H. induction 1; [done|by eapply path_call]. Qed.
Lemma reachable_call {Rng} `{!PodRng Rng} sh rs g s a now r s' : fifo_reachable s → g ≠ Some Panic →
  apply_at sh rs g a now s = (r, s') → fifo_reachable s'.
Proof.
  intros (c&sts&id&s0&Hnew&Hp) Hg Hcall. exists c, sts, id, s0. split; [done|]. by eapply path_call.
Qed.
Lemma fifo_of s f f' : fifo_at s f → fifo s = Some f' → f' = f.
Proof. intros H%fifo_at_frame. rewrite (fr_fifo _ _ H). by intros [= ->]. Qed.
Lemma fifo_at_started s f : fifo_at s f → status s ≠ DraftStatus.Lobby → ∃ deal, started deal s f.
Proof. intros [HL|H] Hs; [by destruct Hs; apply HL|done]. Qed.

(** *** What is refused leaves everything as it was *)
(** C3. On every session that can be reached from [new_fifo], whatever the action (a
    deck submission, the pairings, a match result and the next round included), the time,
    the random sources and the packs given (as long as the pack source does not panic
    itself): [apply_at] does not panic, the session it leaves passes the snapshot check, a
    refused action leaves the session exactly as it was, and only [StartDraft], for the
    packs it was given, can answer [InvalidSnapshot]. *)
Theorem fifo_reducer_safe {Rng} `{!PodRng Rng} sh rs g a now s r s' : fifo_reachable s → g ≠ Some Panic →
  apply_at sh rs g a now s = (r, s') →
  r ≠ Panic ∧ fifo_reachable s' ∧ validate_persisted_snapshot s' = Ok () ∧
  (is_ok r = false → s' = s) ∧ (r = Err InvalidSnapshot → a = StartDraft).
Proof.
  intros Hs Hg Hcall. pose proof (reachable_call _ _ _ _ _ _ _ _ Hs Hg Hcall) as Hs'.
  pose proof (fifo_at_reachable s' Hs') as [f' Hf']. destruct (fifo_at_reachable s Hs) as [f Hf].
  split; [|split; [done|split; [by eapply fifo_at_valid|]]];
    destruct (apply_at_cases sh rs g s f a now Hf Hg) as [(e&Heq&He)|(d&s1&f1&Heq&_)];
    rewrite Heq in Hcall; injection Hcall as <- <-; try done.
  split; [done|]. intros [= ->]. by apply He.
Qed.

(** *** No card is lost or made *)
(** Once a draft has started, no call of [apply_at] loses, makes or doubles a
    card: the ids of all unopened, queued, pooled and removed cards stay the same up
    to order and distinct, and cards only ever leave the packs. *)
Theorem fifo_cards_conserved {Rng} `{!PodRng Rng} sh rs g a now s r s' : fifo_reachable s → g ≠ Some Panic →
  status s ≠ DraftStatus.Lobby → apply_at sh rs g a now s = (r, s') →
  ∃ f f', fifo s = Some f ∧ fifo s' = Some f' ∧ NoDup (all_ids s f) ∧
    all_ids s' f' ≡ₚ all_ids s f ∧ (cards_left s' f' ≤ cards_left s f)%nat.
Proof.
  intros Hs Hg Hst Hcall. destruct (fifo_at_reachable s Hs) as [f Hf].
  pose proof (fr_fifo _ _ (fifo_at_frame _ _ Hf)) as Hff.
  destruct (fifo_at_started s f Hf Hst) as [deal HS].
  assert (NoDup (all_ids s f)) as Hnd.
  { rewrite (started_ids _ _ _ HS). apply (table_nodup (sr_table _ _ _ HS)). }
  destruct (apply_at_cases sh rs g s f a now Hf Hg) as [(e&Heq&_)|(d&s1&f1&Heq&Hacc)];
    rewrite Heq in Hcall; injection Hcall as <- <-.
  - by exists f, f.
  - exists f, f1. split_and!; try done; [apply (fr_fifo _ _ (fifo_at_frame _ _ (ac_at _ _ _ _ _ Hacc)))|..];
      by apply Hacc.
Qed.

(** *** Revisions and the clock *)
(** An accepted call keeps the session id and the configuration, never moves
    the clock back, and either leaves the session identical or counts its revision
    up by exactly one. *)
Theorem fifo_revision_counts {Rng} `{!PodRng Rng} sh rs g a now s d s' : fifo_reachable s → g ≠ Some Panic →
  apply_at sh rs g a now s = (Ok d, s') →
  ∃ f f', fifo s = Some f ∧ fifo s' = Some f' ∧
    session_id f' = session_id f ∧ config s' = config s ∧
    last_now_ms f' = N.max now (last_now_ms f) ∧
    (s' = s ∨ revision f' = revision f + 1).
Proof.
  intros Hs Hg Hcall. destruct (fifo_at_reachable s Hs) as [f Hf].
  destruct (apply_at_cases sh rs g s f a now Hf Hg) as [(e&Heq&_)|(d1&s1&f1&Heq&[A B C D E _ _ _])];
    rewrite Heq in Hcall; [done|]. injection Hcall as <- <-.
  exists f, f1. split_and!; try done.
  - apply (fr_fifo _ _ (fifo_at_frame _ _ Hf)).
  - apply (fr_fifo _ _ (fifo_at_frame _ _ A)).
  - destruct E as [[-> _]|E]; [by left|by right].
Qed.

(** ** Selections *)
Lemma tick_frame s f now : frame s f → now ≤ MAX_DRAFT_JSON_INTEGER →
  frame (tick now s f) (set_last_now_ms now f).
Proof. apply frame_tick. Qed.
Lemma select_admitted x timing s d s' : select_fifo x timing s = (Ok d, s') →
  ∃ h, admit_selection s x timing = Ok h.
Proof.
  unfold select_fifo, mbind, stM_bind, get, lift. destruct (admit_selection s x timing) as [h|e|]; [|done..].
  by exists h.
Qed.
(** What an accepted [Select] was and did. *)
Lemma select_call {Rng} `{!PodRng Rng} sh rs g x now s f d s' : fifo_at s f →
  apply_at sh rs g (Select x) now s = (Ok d, s') →
  let now' := N.max now (last_now_ms f) in let ft := set_last_now_ms now' f in
  now ≤ MAX_DRAFT_JSON_INTEGER ∧ ∃ deal h st p pool s1 f1, started deal s f ∧
    legal (tick now' s f) ft x HumanTiming h st p pool ∧ started deal s1 f1 ∧
    selects (tick now' s f) ft x s1 f1 d ∧ s' = bump s1 f1.
Proof.
  intros Hf Hcall now' ft. destruct (N.lt_ge_cases MAX_DRAFT_JSON_INTEGER now) as [Hmax|Hmax].
  { by rewrite (apply_at_out_of_range sh rs g s f _ now Hf Hmax) in Hcall. }
  split; [done|]. rewrite (apply_at_eq sh rs g s f _ now Hf Hmax) in Hcall. fold now' in Hcall.
  cbn [apply_fifo] in Hcall.
  destruct (select_fifo x HumanTiming (tick now' s f)) as [[d1|e|] s1] eqn:Hsel; [|done..].
  destruct (select_admitted _ _ _ _ _ Hsel) as [h Hadmit].
  pose proof (fr_now _ _ (fifo_at_frame _ _ Hf)) as Hn.
  assert (frame (tick now' s f) ft) as HF.
  { apply tick_frame; [by apply fifo_at_frame|unfold now'; lia]. }
  pose proof (proj1 (admit_selection_ok HF x HumanTiming h) Hadmit) as (st&p&pool&HL).
  destruct (fifo_at_started s f Hf) as [deal HS].
  { intros Hl. pose proof (lg_status _ _ _ _ _ _ _ _ HL) as Hst. cbn in Hst. by rewrite Hl in Hst. }
  assert (started deal (tick now' s f) ft) as HSt by (apply started_tick; [done|unfold now'; lia..]).
  pose proof (select_fifo_ok deal _ _ x HumanTiming h HSt Hadmit) as Hrun. unfold runs in Hrun.
  rewrite Hsel in Hrun. destruct Hrun as (f1&HS1&Hsl).
  exists deal, h, st, p, pool, s1, f1.
  assert (s1 ≠ s) as Hne.
  { intros ->. pose proof (sl_left _ _ _ _ _ _ Hsl) as Hlt.
    assert (f1 = f) as -> by (apply (fifo_of s); [done|apply (sr_frame _ _ _ HS1)]).
    unfold cards_left in Hlt. cbn in Hlt. by apply Nat.lt_irrefl in Hlt. }
  assert (fifo_at s1 f1) as H1 by (right; by exists deal).
  destruct (commit_cases s s1 f1 H1) as [[? _]|[[_ Hc]|[_ Hc]]]; [done| |]; rewrite Hc in Hcall; [|done].
  by injection Hcall as <- <-.
Qed.

(** A prompt answered before. *)
Definition answered (id : DraftPromptId) (f : FifoDraftState) : Prop :=
  ∀ st, fifo_seats f !! N.to_nat (prompt_seat id) = Some st →
    prompt_generation id ≤ generation st ∧
    ∀ p, prompt st = Some p → prompt_generation id < prompt_generation (prompt_id p).
Lemma prompt_of s f j st p : fifo_at s f → fifo_seats f !! j = Some st → prompt st = Some p →
  prompt_id p = {| prompt_session := session_id f; prompt_seat := N.of_nat j;
                   prompt_generation := generation st |}.
Proof.
  intros [HL|[deal [_ _ HP]]] Hj Hp.
  { apply (lobby_seat HL) in Hj as ->. done. }
  assert (∀ pz, drafting s f pz → prompt_id p = {| prompt_session := session_id f;
    prompt_seat := N.of_nat j; prompt_generation := generation st |}) as HD.
  { intros pz HD. pose proof (dr_prompts _ _ _ HD j st Hj) as Hpr. unfold prompted in Hpr.
    destruct (head (queue st)); [|congruence]. destruct Hpr as (p0&Hp0&[Hid _ _ _]). congruence. }
  assert (no_prompts f → False) as HN by (intros Hn; by rewrite (Hn j st Hj) in Hp).
  unfold phase_ok in HP. destruct (status s); try done;
    try (destruct HP as [HP _]; by eapply HD); try (destruct HP as [HP _]; exfalso; by apply HN, HP).
  destruct HP as (px&_&HP). destruct (paused_phase px); [by eapply HD|]. exfalso. by apply HN, HP.
Qed.
Lemma fifo_at_length s f s' f' : fifo_at s f → fifo_at s' f' → config s' = config s →
  length (fifo_seats f') = length (fifo_seats f).
Proof.
  intros H%fifo_at_frame H'%fifo_at_frame Hc. rewrite (fr_seats _ _ H), (fr_seats _ _ H').
  destruct (frame_n _ _ H) as [_ E], (frame_n _ _ H') as [_ E']. rewrite Hc in E'. lia.
Qed.
Lemma answered_step id now s f s' f' : fifo_at s f → accepted now s f s' f' →
  answered id f → answered id f'.
Proof.
  intros Hf Hacc Ha st' Hst'. pose proof (ac_at _ _ _ _ _ Hacc) as Hf'.
  destruct (lookup_lt_is_Some_2 (fifo_seats f) (N.to_nat (prompt_seat id))) as [st Hst].
  { rewrite <-(fifo_at_length s f s' f' Hf Hf' (ac_config _ _ _ _ _ Hacc)). by eapply lookup_lt_Some. }
  destruct (ac_seat _ _ _ _ _ Hacc _ st Hst) as (st0&Hst0&[Hg Hp]). simplify_eq.
  destruct (Ha st Hst) as [Hle Hpr]. split; [lia|]. intros p' Hp'.
  rewrite (prompt_of s' f' _ st' p' Hf' Hst' Hp'). cbn.
  destruct (decide (generation st' = generation st)) as [Heq|Hne]; [|lia].
  destruct (Hp p' Hp' Heq) as (p&Hpo&Hid). specialize (Hpr p Hpo). rewrite Hid in Hpr.
  by rewrite (prompt_of s' f' _ st' p' Hf' Hst' Hp') in Hpr.
Qed.
Lemma answered_path id s1 s2 f1 : fifo_at s1 f1 → answered id f1 → fifo_path s1 s2 →
  ∃ f2, fifo_at s2 f2 ∧ answered id f2.
Proof.
  intros H1 Ha. induction 1 as [|Rng ? sh rs g a now s2 r s3 _ (f2&H2&Ha2) Hg Hcall]; [by exists f1|].
  destruct (apply_at_cases (Rng := Rng) sh rs g s2 f2 a now H2 Hg) as [(e&Heq&_)|(d&s'&f'&Heq&Hacc)];
    rewrite Heq in Hcall; injection Hcall as _ <-; [by exists f2|].
  exists f'. split; [apply Hacc|by eapply answered_step].
Qed.

(** *** An answered prompt stays answered *)
(** C19. A prompt that was answered by an accepted [Select] is answered for good:
    after any further calls, a [Select] naming it again is refused and changes
    nothing. *)
Theorem fifo_prompt_answered_once {Rng Rng'} `{!PodRng Rng} `{!PodRng Rng'} sh rs g x now s d s1 s2
    sh' rs' g' x' now' :
  fifo_reachable s → g ≠ Some Panic → apply_at (Rng := Rng) sh rs g (Select x) now s = (Ok d, s1) →
  fifo_path s1 s2 → sel_prompt x' = sel_prompt x → g' ≠ Some Panic →
  ∃ e, apply_at (Rng := Rng') sh' rs' g' (Select x') now' s2 = (Err e, s2).
Proof.
  intros Hs Hg Hcall Hp Hsame Hg'. destruct (fifo_at_reachable s Hs) as [f Hf].
  destruct (select_call _ _ _ _ _ _ _ _ _ Hf Hcall)
    as (Hmax&deal&h&st&p&pool&t1&f1&HS&HL&HS1&Hsl&->).
  pose proof (fr_now _ _ (fifo_at_frame _ _ Hf)) as Hn.
  assert (fifo_at t1 f1) as Ht1 by (right; by exists deal).
  assert (answered (sel_prompt x) f1) as Ha.
  { intros st1 Hst1. rewrite (lg_prompt_seat _ _ _ _ _ _ _ _ HL) in Hst1.
    destruct (ev_seat _ _ _ _ (sl_evolves _ _ _ _ _ _ Hsl) _ st (lg_state _ _ _ _ _ _ _ _ HL))
      as (st0&Hst0&[Hge _]). simplify_eq.
    assert (prompt_generation (sel_prompt x) = generation st) as Hgen.
    { rewrite <-(lg_prompt_id _ _ _ _ _ _ _ _ HL).
      by rewrite (prompt_of s f _ st p Hf (lg_state _ _ _ _ _ _ _ _ HL) (lg_prompt _ _ _ _ _ _ _ _ HL)). }
    split; [lia|]. intros p1 Hp1. rewrite (prompt_of t1 f1 _ st1 p1 Ht1 Hst1 Hp1). cbn.
    by apply (sl_consumed _ _ _ _ _ _ Hsl st1 p1). }
  assert (fifo_at (bump t1 f1) (set_revision (revision f1 + 1) f1)) as Hb.
  { destruct (apply_at_cases (Rng := Rng) sh rs g s f (Select x) now Hf Hg)
      as [(e&Heq&_)|(d1&s'&f'&Heq&Hacc)]; rewrite Hcall in Heq; [done|]. injection Heq as <- <-.
    pose proof (ac_at _ _ _ _ _ Hacc) as Hat. by rewrite (fifo_of _ _ _ Hat eq_refl). }
  destruct (answered_path (sel_prompt x) _ s2 _ Hb Ha Hp) as (f2&Hf2&Ha2).
  destruct (apply_at_cases (Rng := Rng') sh' rs' g' s2 f2 (Select x') now' Hf2 Hg')
    as [(e&Heq&_)|(d2&s'&f'&Heq&_)];
    [by exists e|].
  destruct (select_call _ _ _ _ _ _ _ _ _ Hf2 Heq) as (_&deal2&h2&st2&p2&pool2&_&_&_&HL2&_).
  exfalso. pose proof (lg_state _ _ _ _ _ _ _ _ HL2) as Hst2. cbn in Hst2.
  rewrite <-(lg_prompt_seat _ _ _ _ _ _ _ _ HL2), Hsame in Hst2.
  destruct (Ha2 st2 Hst2) as [_ Hlt]. specialize (Hlt p2 (lg_prompt _ _ _ _ _ _ _ _ HL2)).
  rewrite (lg_prompt_id _ _ _ _ _ _ _ _ HL2), Hsame in Hlt. lia.
Qed.

(** ** Room for one more step *)
(** Another clock and another revision fit into the exact integers of JSON. *)
Definition room (now : N) (f : FifoDraftState) : Prop :=
  N.max now (last_now_ms f) + MAX_DRAFT_DURATION_MS ≤ MAX_DRAFT_JSON_INTEGER ∧
  revision f + 1 ≤ MAX_DRAFT_JSON_INTEGER.
Lemma room_runs {Rng} `{!PodRng Rng} sh rs g s f a now Q : fifo_at s f → room now f →
  let now' := N.max now (last_now_ms f) in
  runs (too_late now') (apply_fifo sh rs g a now') Q (tick now' s f) →
  (∀ d s1, Q d s1 → ∃ f1, fifo_at s1 f1 ∧ revision f1 = revision f) →
  ∃ d s1 f1, apply_at sh rs g a now s = (Ok d, if decide (s1 = s) then s else bump s1 f1) ∧ Q d s1 ∧
    fifo_at s1 f1.
Proof.
  intros Hf [H1 H2] now' Hruns HQ. unfold MAX_DRAFT_DURATION_MS in H1.
  apply (apply_at_runs sh rs g s f a now Q); try done; fold now'; [lia|].
  unfold too_late, MAX_DRAFT_DURATION_MS, now'. lia.
Qed.
Lemma room_tick deal s f now : started deal s f → room now f →
  let now' := N.max now (last_now_ms f) in started deal (tick now' s f) (set_last_now_ms now' f).
Proof.
  intros HS [H1 _] now'. apply started_tick; [done|unfold now'; lia|].
  unfold MAX_DRAFT_DURATION_MS in H1. unfold now'. lia.
Qed.

(** *** Which selections are accepted, and what they do *)
(** C12. With room for one more clock and revision, [Select] is accepted exactly when
    the draft runs, the prompt named is the seat's own, of its front pack and not
    expired, the effect cards are different [AdditionalPick] cards of the seat's
    pool, and the due numbers of different cards of the pack are named.  An accepted
    selection moves the picked cards to the pool and the effect cards out of it and
    records the burned cards; the rest of the pack, in order and with the effect cards
    behind it, is discarded if it is at most the threshold and goes to the end of the
    neighbour's queue otherwise; the other queues stay, until the last pack of the round
    is used up and the next round, a review or deck building begins.  The prompt is used
    up and the revision counted once. *)
Theorem fifo_select_spec {Rng} `{!PodRng Rng} sh rs g x now s f : fifo_reachable s → fifo s = Some f → room now f →
  let now' := N.max now (last_now_ms f) in let ft := set_last_now_ms now' f in
  ((∃ d s', apply_at sh rs g (Select x) now s = (Ok d, s')) ↔
   ∃ h st p pool, legal (tick now' s f) ft x HumanTiming h st p pool) ∧
  ∀ d s', apply_at sh rs g (Select x) now s = (Ok d, s') →
    ∃ s1 f1, selects (tick now' s f) ft x s1 f1 d ∧ s' = bump s1 f1.
Proof.
  intros Hs Hff Hroom now' ft. destruct (fifo_at_reachable s Hs) as [f0 Hf].
  pose proof (fifo_of _ _ _ Hf Hff) as <-. split; [split|].
  - intros (d&s'&Hcall). destruct (select_call _ _ _ _ _ _ _ _ _ Hf Hcall)
      as (_&deal&h&st&p&pool&_&_&_&HL&_). by exists h, st, p, pool.
  - intros (h&st&p&pool&HL). destruct (fifo_at_started s f Hf) as [deal HS].
    { intros Hl. pose proof (lg_status _ _ _ _ _ _ _ _ HL) as Hst. cbn in Hst. by rewrite Hl in Hst. }
    pose proof (room_tick deal s f now HS Hroom) as HSt. fold now' ft in HSt.
    assert (admit_selection (tick now' s f) x HumanTiming = Ok h) as Hadmit.
    { apply (admit_selection_ok (sr_frame _ _ _ HSt)). by exists st, p, pool. }
    destruct (room_runs sh rs g s f (Select x) now _ Hf Hroom
      (select_fifo_ok deal _ _ x HumanTiming h HSt Hadmit)) as (d&s1&f1&Hcall&_); [|by eexists _, _].
    intros d s1 (f1&HS1&Hsl). exists f1. split; [right; by exists deal|].
    apply (ev_revision _ _ _ _ (sl_evolves _ _ _ _ _ _ Hsl)).
  - intros d s' Hcall. destruct (select_call _ _ _ _ _ _ _ _ _ Hf Hcall)
      as (_&_&_&_&_&_&s1&f1&_&_&_&Hsl&Heq). by exists s1, f1.
Qed.

(** *** The passage of time *)
(** C27. With room for one more clock and revision, [AdvanceClock] is accepted in
    every started draft.  While drafting it answers every overdue prompt and leaves
    none overdue, taking cards off the table if there was one; a review that is due
    ends with the next round open; with nothing due only the clock moves. *)
Theorem fifo_advance_spec {Rng} `{!PodRng Rng} sh rs g now s f : fifo_reachable s → fifo s = Some f →
  status s ≠ DraftStatus.Lobby → room now f →
  let now' := N.max now (last_now_ms f) in let ft := set_last_now_ms now' f in
  ∃ d s1 f1, apply_at sh rs g AdvanceClock now s =
      (Ok d, if decide (s1 = s) then s else bump s1 f1) ∧
    fifo s1 = Some f1 ∧ advances (tick now' s f) ft s1 f1.
Proof.
  intros Hs Hff Hst Hroom now' ft. destruct (fifo_at_reachable s Hs) as [f0 Hf].
  pose proof (fifo_of _ _ _ Hf Hff) as <-. destruct (fifo_at_started s f Hf Hst) as [deal HS].
  pose proof (room_tick deal s f now HS Hroom) as HSt. fold now' ft in HSt.
  destruct (room_runs sh rs g s f AdvanceClock now _ Hf Hroom (advance_ok deal _ _ HSt))
    as (d&s1&f1&Hcall&(f2&HS2&Had)&H1).
  { intros d s1 (f1&HS1&Had). exists f1. split; [right; by exists deal|].
    apply (ev_revision _ _ _ _ (ad_evolves _ _ _ _ Had)). }
  exists d, s1, f1. pose proof (fr_fifo _ _ (fifo_at_frame _ _ H1)) as E1.
  pose proof (fr_fifo _ _ (sr_frame _ _ _ HS2)) as E2. rewrite E1 in E2. injection E2 as <-. done.
Qed.

(** *** A deal starts the draft *)
(** In the lobby, with room for a clock and a revision, [StartDraft] is accepted
    exactly for packs of the right shape whose sizes and card ids can be registered;
    then the cards of the session are exactly the cards of the packs, all distinct,
    and the first round is open (or, dealt all at once, deck building begins). *)
Theorem fifo_start_spec {Rng} `{!PodRng Rng} sh rs g now s f : fifo_reachable s → fifo s = Some f →
  status s = DraftStatus.Lobby → room now f → g ≠ Some Panic →
  (∃ deal R, g = Some (Ok deal) ∧ fits s deal R ∧
    ∃ d s1 f1, apply_at sh rs g StartDraft now s = (Ok d, bump s1 f1) ∧ fifo s1 = Some f1 ∧
      all_ids s1 f1 ≡ₚ ids (deal_cards deal) ∧ NoDup (ids (deal_cards deal)) ∧
      status s1 = match distribution (procedure (kind s)) with
                  | PackDistribution.PickAndPass => DraftStatus.Drafting
                  | _ => DraftStatus.Deckbuilding
                  end) ∨
  (∃ e, apply_at sh rs g StartDraft now s = (Err e, s) ∧
    ∀ deal R, g = Some (Ok deal) → ¬ fits s deal R).
Proof.
  intros Hs Hff Hst Hroom Hg. destruct (fifo_at_reachable s Hs) as [f0 Hf].
  pose proof (fifo_of _ _ _ Hf Hff) as <-. set (now' := N.max now (last_now_ms f)).
  assert (in_lobby s f) as HL.
  { destruct Hf as [HL|[deal HS]]; [done|]. by destruct (not_lobby _ _ _ HS). }
  destruct Hroom as [Hr1 Hr2]. assert (Hmax : now' ≤ MAX_DRAFT_JSON_INTEGER) by (unfold now'; lia).
  pose proof (lobby_tick s f now' HL Hmax) as HLt.
  destruct (start_fifo_cases _ _ g HLt Hg) as [(deal&R&->&HD)|(e&s'&Heq)]; [left|right].
  - exists deal, R. split; [done|]. split; [by destruct HD|].
    destruct (room_runs sh rs (Some (Ok deal)) s f StartDraft now _ Hf (conj Hr1 Hr2)
      (start_fifo_fits _ _ deal R HLt HD)) as (d&s1&f1&Hcall&(f2&HS2&_&_&_&_&_&_&Hs1)&H1).
    { intros d s1 (f1&HS1&_&Hrev&_). exists f1. split; [right; by exists deal|done]. }
    assert (fifo s1 = Some f1) as E1 by apply (fifo_at_frame _ _ H1).
    assert (f2 = f1) as -> by (apply (fifo_of s1); [done|apply (sr_frame _ _ _ HS2)]).
    exists d, s1, f1. rewrite decide_False in Hcall.
    + split_and!; try done; [by apply started_ids|apply (table_nodup (sr_table _ _ _ HS2))].
    + intros ->. by destruct (not_lobby _ _ _ HS2).
  - exists e. split.
    + rewrite (apply_at_eq sh rs g s f StartDraft now Hf ltac:(lia)). fold now'. cbn [apply_fifo].
      cbn [last_now_ms set_last_now_ms] in Heq. by rewrite Heq.
    + intros deal R -> HD.
      pose proof (start_fifo_fits (tick now' s f) (set_last_now_ms now' f) deal R HLt) as Hr.
      unfold runs in Hr. rewrite Heq in Hr. destruct Hr as [_ Hl]; [by destruct HD|].
      unfold too_late in Hl. cbn in Hl. unfold MAX_DRAFT_DURATION_MS, now' in *. lia.
Qed.

(** ** Pause and resume *)
Definition relayed (P Q : DraftClockState → DraftClockState → Prop) (c c' : DraftClockState) : Prop :=
  ∃ k, P c k ∧ Q k c'.
Lemma reclocked_relay P Q a b c : reclocked P a b → reclocked Q b c → reclocked (relayed P Q) a c.
Proof.
  intros [A1 A2] [B1 B2]. split; [congruence|]. destruct (prompt a) as [p|].
  - destruct (prompt_clock p) as [k|] eqn:Hk.
    + destruct A2 as (k1&HP&Hb). rewrite Hb in B2. cbn in B2. destruct B2 as (k2&HQ&Hc).
      exists k2. split; [by exists k1|]. rewrite Hc. done.
    + rewrite A2, Hk in B2. done.
  - by rewrite A2 in B2.
Qed.
Lemma reclocked_relay_all P Q l1 l2 l3 : Forall2 (reclocked P) l1 l2 → Forall2 (reclocked Q) l2 l3 →
  Forall2 (reclocked (relayed P Q)) l1 l3.
Proof.
  intros H. revert l3. induction H as [|a b l1 l2 Hab _ IH]; intros l3 H2; inversion H2; subst; constructor.
  - by eapply reclocked_relay.
  - by apply IH.
Qed.
(** A deadline [d] kept through a pause from [t1] to [t2]. *)
Definition postponed (t1 t2 : N) (c c' : DraftClockState) : Prop :=
  ∃ d, c = Running d ∧ c' = Running (t2 + (d - t1)).
Lemma relayed_postponed t1 t2 c c' : relayed (frozen_as t1) (thawed_as t2) c c' → postponed t1 t2 c c'.
Proof. intros (k&(d&->&->)&(r&[= <-]&->&_)). by exists d. Qed.
Lemma reclocked_mono (P Q : DraftClockState → DraftClockState → Prop) a b :
  (∀ c c', P c c' → Q c c') → reclocked P a b → reclocked Q a b.
Proof.
  intros H [A B]. split; [done|]. destruct (prompt a) as [p|]; [|done].
  destruct (prompt_clock p); [|done]. destruct B as (c'&?&?). exists c'. auto.
Qed.

Lemma pause_call {Rng} `{!PodRng Rng} sh rs g s f now reason : fifo_at s f → room now f →
  status s = DraftStatus.Drafting ∨ status s = DraftStatus.Review →
  let now' := N.max now (last_now_ms f) in
  ∃ d s1 f1, apply_at sh rs g (Control (DraftControl.Pause reason)) now s = (Ok d, bump s1 f1) ∧
    fifo_at s1 f1 ∧ status s1 = DraftStatus.Paused ∧
    paused f1 = Some {| paused_phase := match status s with DraftStatus.Review => DraftActivePhase.Review
                                        | _ => DraftActivePhase.Drafting end;
                        paused_reason := reason |} ∧
    shifted (frozen_as now') (tick now' s f) (set_last_now_ms now' f) s1 f1.
Proof.
  intros Hf Hroom Hst now'. destruct (fifo_at_started s f Hf) as [deal HS].
  { by destruct Hst as [-> | ->]. }
  pose proof (room_tick deal s f now HS Hroom) as HSt. fold now' in HSt.
  destruct (room_runs sh rs g s f (Control (DraftControl.Pause reason)) now _ Hf Hroom
    (pause_ok deal _ _ _ reason HSt Hst)) as (d&s1&f1&Hcall&(f2&HS2&Hs1&_&Hp&Hsh)&H1).
  { intros d s1 (f1&HS1&_&_&_&Hsh). exists f1. split; [right; by exists deal|].
    apply (fo_revision _ _ _ _ (shifted_follows _ _ _ _ _ Hsh)). }
  assert (f2 = f1) as -> by (apply (fifo_of s1); [done|apply (sr_frame _ _ _ HS2)]).
  exists d, s1, f1. rewrite decide_False in Hcall; [done|].
  intros ->. rewrite Hs1 in Hst. by destruct Hst.
Qed.
Lemma resume_call {Rng} `{!PodRng Rng} sh rs g s f now px : fifo_at s f → room now f →
  status s = DraftStatus.Paused → paused f = Some px →
  let now' := N.max now (last_now_ms f) in
  ∃ d s1 f1, apply_at sh rs g (Control DraftControl.Resume) now s = (Ok d, bump s1 f1) ∧
    fifo_at s1 f1 ∧ paused f1 = None ∧
    status s1 = match paused_phase px with DraftActivePhase.Drafting => DraftStatus.Drafting
                                        | DraftActivePhase.Review => DraftStatus.Review end ∧
    shifted (thawed_as now') (tick now' s f) (set_last_now_ms now' f) s1 f1.
Proof.
  intros Hf Hroom Hst Hpx now'. destruct (fifo_at_started s f Hf) as [deal HS]; [by rewrite Hst|].
  pose proof (room_tick deal s f now HS Hroom) as HSt. fold now' in HSt.
  destruct (resume_ok deal _ _ HSt Hst) as (px'&Hpx'&Hrun). cbn in Hpx'. simplify_eq.
  destruct (room_runs sh rs g s f (Control DraftControl.Resume) now _ Hf Hroom Hrun)
    as (d&s1&f1&Hcall&(f2&HS2&_&Hs1&Hp&Hsh)&H1).
  { intros d s1 (f1&HS1&_&_&_&Hsh). exists f1. split; [right; by exists deal|].
    apply (fo_revision _ _ _ _ (shifted_follows _ _ _ _ _ Hsh)). }
  assert (f2 = f1) as -> by (apply (fifo_of s1); [done|apply (sr_frame _ _ _ HS2)]).
  exists d, s1, f1. rewrite decide_False in Hcall; [done|].
  intros ->. rewrite Hst in Hs1. by destruct (paused_phase px).
Qed.

(** *** A pause costs no time *)
(** A pause at [t1] and a resumption at [t2] leave everything as it was but for
    the clock, the revision and the deadlines: every running clock, of a prompt or of
    a review, has the same time left as when the pause began. *)
Theorem fifo_pause_resume {Rng} `{!PodRng Rng} sh rs g s f reason now1 now2 : fifo_reachable s → fifo s = Some f →
  status s = DraftStatus.Drafting ∨ status s = DraftStatus.Review →
  let t1 := N.max now1 (last_now_ms f) in let t2 := N.max now2 t1 in
  t2 + MAX_DRAFT_DURATION_MS ≤ MAX_DRAFT_JSON_INTEGER → revision f + 2 ≤ MAX_DRAFT_JSON_INTEGER →
  ∃ d1 s1 d2 s2 f2,
    apply_at sh rs g (Control (DraftControl.Pause reason)) now1 s = (Ok d1, s1) ∧
    status s1 = DraftStatus.Paused ∧
    apply_at sh rs g (Control DraftControl.Resume) now2 s1 = (Ok d2, s2) ∧
    s2 = set_fifo (Some f2) s ∧
    f2 = set_last_now_ms t2 (set_revision (revision f + 2)
           (set_review (review f2) (set_paused None (set_fifo_seats (fifo_seats f2) f)))) ∧
    Forall2 (reclocked (postponed t1 t2)) (fifo_seats f) (fifo_seats f2) ∧
    match review f with
    | None => review f2 = None
    | Some r => ∃ c, postponed t1 t2 (clock_state (review_clock r)) c ∧ review f2 = Some {|
        exhausted_round := exhausted_round r; review_next_round := review_next_round r;
        review_clock := {| clock_target := clock_target (review_clock r); clock_state := c |} |}
    end.
Proof.
  intros Hs Hff Hst t1 t2 Ht Hrev. destruct (fifo_at_reachable s Hs) as [f0 Hf].
  pose proof (fifo_of _ _ _ Hf Hff) as <-.
  assert (t1 ≤ t2) as Hle by apply N.le_max_r.
  assert (room now1 f) as Hroom1 by (split; [fold t1|]; lia).
  destruct (pause_call sh rs g s f now1 reason Hf Hroom1 Hst) as (d1&s1&f1&Hc1&H1&Hst1&Hp1&Hsh1).
  fold t1 in Hsh1. set (fb := set_revision (revision f1 + 1) f1).
  pose proof (shifted_follows _ _ _ _ _ Hsh1) as [_ _ Er1 En1 _ _]. cbn in Er1, En1.
  assert (fifo_at (bump s1 f1) fb) as Hb by (apply fifo_at_bump; [done|lia]).
  assert (room now2 fb) as Hroom2.
  { split; cbn; [rewrite En1; fold t2; lia|lia]. }
  destruct (resume_call sh rs g (bump s1 f1) fb now2 _ Hb Hroom2 Hst1 Hp1)
    as (d2&s2&f2&Hc2&H2&Hp2&Hst2&Hsh2).
  assert (N.max now2 (last_now_ms fb) = t2) as Ht2 by (cbn; by rewrite En1). rewrite Ht2 in Hsh2.
  exists d1, (bump s1 f1), d2, (bump s2 f2), (set_revision (revision f2 + 1) f2).
  destruct Hsh1 as [Hl1 Hr1 [Ef1 Es1]], Hsh2 as [Hl2 Hr2 [Ef2 Es2]].
  cbn [fifo_seats review set_last_now_ms set_revision fb] in *.
  split; [done|]. split; [done|]. split; [done|].
  split; [|split; [|split]].
  - unfold bump. rewrite Es2. cbn. unfold bump. rewrite Es1. cbn.
    assert (status s2 = status s) as ->.
    { rewrite Hst2. cbn. by destruct Hst as [-> | ->]. }
    by destruct s.
  - rewrite Ef2, Hp2. unfold fb. rewrite Ef1. cbn.
    by assert (revision f + 1 + 1 = revision f + 2) as -> by lia.
  - eapply Forall2_impl; [by eapply reclocked_relay_all|]. intros a b.
    apply reclocked_mono, relayed_postponed.
  - destruct (review f) as [r|].
    + destruct Hr1 as (c1&HP1&Hr1). rewrite Hr1 in Hr2. cbn in Hr2. destruct Hr2 as (c2&HP2&Hr2).
      exists c2. split; [|done]. apply relayed_postponed. by exists c1.
    + by rewrite Hr1 in Hr2.
Qed.

(** ** Playing to the end *)
(** What is left to do: cards, then the way back to an open round. *)
Definition weight (x : DraftStatus.t) : nat :=
  match x with DraftStatus.Paused => 2 | DraftStatus.Review => 1 | _ => 0 end.
Definition to_do (s : DraftSession) (f : FifoDraftState) : nat := 3 * cards_left s f + weight (status s).
Lemma drafty_weight x : (weight x ≤ 2)%nat.
Proof. destruct x; cbn; lia. Qed.

(** The players' selections, the clock, and the resumption of a pause. *)
Definition playing (a : DraftAction) : bool :=
  match a with
  | Select _ | AdvanceClock | Control DraftControl.Resume => true
  | _ => false
  end.

Section drive.
Variable shuffle : list DraftCardInstance → list DraftCardInstance.
Variable random_seat : N → N.
Variable generated : option (outcome DraftError (list (list DraftPack))).
Context {Rng : Type} `{!PodRng Rng}.
Local Abbreviation call := (apply_at shuffle random_seat generated).

Definition active (x : DraftStatus.t) : bool :=
  match x with DraftStatus.Drafting | DraftStatus.Review | DraftStatus.Paused => true | _ => false end.

(** A step towards the end. *)
Definition forward (s : DraftSession) (f : FifoDraftState) : Prop :=
  ∃ a now d s' f', call a now s = (Ok d, s') ∧ playing a = true ∧ fifo_at s' f' ∧
    drafty (status s') = true ∧ (to_do s' f' < to_do s f)%nat ∧
    revision f' = revision f + 1 ∧ last_now_ms f' ≤ last_now_ms f + MAX_DRAFT_DURATION_MS.

Context {deal : list (list DraftPack)} {s : DraftSession} {f : FifoDraftState} (HS : started deal s f).
Context (Hrev : revision f + 1 ≤ MAX_DRAFT_JSON_INTEGER).
Context (Hnow : last_now_ms f + 2 * MAX_DRAFT_DURATION_MS ≤ MAX_DRAFT_JSON_INTEGER).
Local Abbreviation t := (last_now_ms f).

Lemma at_now : fifo_at s f.
Proof using HS. right. by exists deal. Qed.
Lemma room_now now : now ≤ t + MAX_DRAFT_DURATION_MS → room now f.
Proof using Hrev Hnow. intros H. split; [|done]. lia. Qed.
Lemma tick_same : tick t s f = s ∧ set_last_now_ms t f = f.
Proof using HS.
  clear Hrev Hnow. assert (set_last_now_ms t f = f) as E by by destruct f. split; [|done].
  unfold tick. rewrite E. pose proof (fr_fifo _ _ (sr_frame _ _ _ HS)) as Hf. destruct s. cbn in *. by subst.
Qed.

Lemma forward_paused : status s = DraftStatus.Paused → forward s f.
Proof using HS Hrev Hnow.
  intros Hst. pose proof (sr_phase _ _ _ HS) as HP. unfold phase_ok in HP. rewrite Hst in HP.
  destruct HP as (px&Hpx&_).
  destruct (resume_call shuffle random_seat generated s f t px at_now (room_now t ltac:(lia)) Hst Hpx)
    as (d&s1&f1&Hcall&H1&_&Hs1&Hsh).
  pose proof (shifted_follows _ _ _ _ _ Hsh) as [_ _ Er En _ El].
  rewrite N.max_id in En, Er, El. destruct tick_same as [E1 E2]. rewrite E1, E2 in El.
  specialize (El ltac:(by rewrite Hst)). cbn in Er, En.
  assert (to_do (bump s1 f1) (set_revision (revision f1 + 1) f1) < to_do s f)%nat as Hlt.
  { unfold to_do. change (cards_left (bump s1 f1) _) with (cards_left s1 f1).
    change (status (bump s1 f1)) with (status s1). rewrite Hs1, Hst.
    destruct (paused_phase px); cbn [weight]; lia. }
  exists (Control DraftControl.Resume), t, d, (bump s1 f1), (set_revision (revision f1 + 1) f1).
  split; [done|]. split; [done|]. split; [apply fifo_at_bump; [done|lia]|].
  split; [cbn; rewrite Hs1; by destruct (paused_phase px)|]. split; [exact Hlt|]. cbn. lia.
Qed.

Lemma forward_by a now s1 f1 d : playing a = true →
  call a now s = (Ok d, if decide (s1 = s) then s else bump s1 f1) → fifo_at s1 f1 →
  evolves (tick (N.max now t) s f) (set_last_now_ms (N.max now t) f) s1 f1 →
  now ≤ t + MAX_DRAFT_DURATION_MS → drafty (status s) = true → (to_do s1 f1 < to_do s f)%nat →
  forward s f.
Proof using HS Hrev Hnow.
  intros Ha Hcall H1 [_ _ _ _ Er En _ _ _ Ed] Hle Hdr Hlt. cbn in Er, En.
  rewrite decide_False in Hcall.
  - exists a, now, d, (bump s1 f1), (set_revision (revision f1 + 1) f1).
    split; [done|]. split; [done|]. split; [apply fifo_at_bump; [done|lia]|].
    split; [by apply Ed|]. split; [exact Hlt|]. cbn. lia.
  - intros ->. rewrite (fifo_of _ _ _ at_now (fr_fifo _ _ (fifo_at_frame _ _ H1))) in Hlt.
    by apply Nat.lt_irrefl in Hlt.
Qed.
Lemma forward_clock now : now ≤ t + MAX_DRAFT_DURATION_MS → drafty (status s) = true →
  (∀ s1 f1, advances (tick (N.max now t) s f) (set_last_now_ms (N.max now t) f) s1 f1 →
    (to_do s1 f1 < to_do s f)%nat) → forward s f.
Proof using HS Hrev Hnow.
  intros Hle Hdr Hlt. pose proof (room_now now Hle) as Hroom.
  destruct (room_runs shuffle random_seat generated s f AdvanceClock now _ at_now Hroom
    (advance_ok deal _ _ (room_tick deal s f now HS Hroom))) as (d&s1&f1&Hcall&(f2&HS2&Had)&H1).
  { intros d s1 (f1&HS1&Had). exists f1. split; [right; by exists deal|].
    apply (ev_revision _ _ _ _ (ad_evolves _ _ _ _ Had)). }
  assert (f2 = f1) as -> by (apply (fifo_of s1); [done|apply (sr_frame _ _ _ HS2)]).
  apply (forward_by AdvanceClock now s1 f1 d); try done; [apply Had|by apply Hlt].
Qed.

Lemma forward_review : status s = DraftStatus.Review → forward s f.
Proof using HS Hrev Hnow.
  intros Hst. pose proof (sr_phase _ _ _ HS) as HP. unfold phase_ok in HP. rewrite Hst in HP.
  destruct HP as [HR _]. destruct (rv_review _ _ _ HR) as (c&Hc&Hs). destruct c as [d|]; [|done].
  cbn in Hs. pose proof (fc_review _ _ (frame_config s f (sr_frame _ _ _ HS))) as Hdur.
  apply (forward_clock d); [lia|by rewrite Hst|]. intros s1 f1 [Hev _ Hrv _].
  destruct (Hrv Hst) as [Hs1 _].
  { unfold review_due. cbn. rewrite Hc. cbn. apply N.leb_le. lia. }
  pose proof (ev_left _ _ _ _ Hev) as Hl. unfold to_do. rewrite Hs1, Hst. cbn [weight].
  change (cards_left (tick _ s f) _) with (cards_left s f) in Hl. lia.
Qed.

(** A seat whose time is not up can always be played for. *)
Lemma quiet_admits : status s = DraftStatus.Drafting → quiet t f →
  ∃ x h, admit_selection s x HumanTiming = Ok h.
Proof using HS.
  intros Hst Hq. pose proof (sr_frame _ _ _ HS) as HF.
  destruct (started_drafting _ _ _ HS Hst) as [HD _]. pose proof (dr_live _ _ _ HD) as Hlive.
  destruct (live f) as [|h0 hs] eqn:Hl; [done|].
  assert (h0 ∈ live f) as Hin by (rewrite Hl; by left). unfold live in Hin.
  apply list_elem_of_In, in_concat in Hin as (q&Hq0&Hin). apply list_elem_of_In in Hq0, Hin.
  apply list_elem_of_fmap in Hq0 as (st&->&Hst0). apply list_elem_of_lookup in Hst0 as [j Hj].
  pose proof (dr_prompts _ _ _ HD j st Hj) as Hpr. unfold prompted in Hpr.
  destruct (queue st) as [|h rest] eqn:Hqueue; [by apply elem_of_nil in Hin|]. cbn in Hpr.
  destruct Hpr as (p&Hp&Hask). assert (head (queue st) = Some h) as Hh by by rewrite Hqueue.
  assert (in_time HumanTiming t (q_pack_id h) p) as Htime.
  { unfold in_time. specialize (Hq j st Hj). unfold overdue in Hq. rewrite Hp in Hq. cbn in Hq.
    destruct (prompt_clock p) as [k|] eqn:Hk; cbn in Hq |- *; [|done].
    pose proof (drafting_clocked s f false HF HD j st Hj p k Hp Hk) as Hsc.
    destruct (clock_state k) as [d|r]; [|done]. exists d. split; [done|].
    by destruct (N.leb_spec d t). }
  destruct (auto_legal HS Hst j st Hj p Hp h HumanTiming Hh Htime) as [pool HL].
  eexists _, h. apply (admit_selection_ok HF). by exists st, p, pool.
Qed.
Lemma forward_drafting : status s = DraftStatus.Drafting → forward s f.
Proof using HS Hrev Hnow.
  intros Hst. assert (N.max t t = t) as Hmax by apply N.max_id. destruct tick_same as [E1 E2].
  destruct (decide (omap (overdue t) (fifo_seats f) = [])) as [Hq|Hq]; rewrite captured_nil in Hq.
  - destruct (quiet_admits Hst Hq) as (x&h&Hx). pose proof (room_now t ltac:(lia)) as Hroom.
    assert (runs (too_late (N.max t t)) (apply_fifo shuffle random_seat generated (Select x) (N.max t t))
      (λ d s', ∃ f', started deal s' f' ∧ selects s f x s' f' d) (tick (N.max t t) s f)) as Hrun.
    { rewrite Hmax, E1. by apply (select_fifo_ok deal s f x HumanTiming h). }
    destruct (room_runs shuffle random_seat generated s f (Select x) t _ at_now Hroom Hrun)
      as (d&s1&f1&Hcall&(f2&HS2&Hsl)&H1).
    { intros d s1 (f1&HS1&Hsl). exists f1. split; [right; by exists deal|].
      apply (ev_revision _ _ _ _ (sl_evolves _ _ _ _ _ _ Hsl)). }
    assert (f2 = f1) as -> by (apply (fifo_of s1); [done|apply (sr_frame _ _ _ HS2)]).
    apply (forward_by (Select x) t s1 f1 d); try done; [|lia|by rewrite Hst|].
    + rewrite Hmax, E1, E2. apply Hsl.
    + pose proof (sl_left _ _ _ _ _ _ Hsl). unfold to_do. rewrite Hst. cbn [weight].
      pose proof (drafty_weight (status s1)). lia.
  - apply (forward_clock t); [lia|by rewrite Hst|]. rewrite Hmax, E1, E2. intros s1 f1 [_ Hd _ _].
    destruct (Hd Hst) as [_ Hlt]. specialize (Hlt Hq). unfold to_do. rewrite Hst. cbn [weight].
    pose proof (drafty_weight (status s1)). lia.
Qed.
Lemma forward_active : active (status s) = true → forward s f.
Proof using HS Hrev Hnow.
  destruct (status s) eqn:Hst; try done; intros _;
    [by apply forward_drafting|by apply forward_review|by apply forward_paused].
Qed.
End drive.

(** Calls made one after the other, all of them accepted. *)
Fixpoint play {Rng} `{!PodRng Rng} sh rs g (l : list (DraftAction * N)) (s : DraftSession) : option DraftSession :=
  match l with
  | [] => Some s
  | (a, now) :: l => match apply_at sh rs g a now s with
                     | (Ok _, s') => play sh rs g l s'
                     | _ => None
                     end
  end.
Lemma call_cards {Rng} `{!PodRng Rng} sh rs g s f a now d s' f' : fifo_at s f → g ≠ Some Panic →
  status s ≠ DraftStatus.Lobby → apply_at sh rs g a now s = (Ok d, s') → fifo_at s' f' →
  all_ids s' f' ≡ₚ all_ids s f.
Proof.
  intros Hf Hg Hst Hcall Hf'.
  destruct (apply_at_cases sh rs g s f a now Hf Hg) as [(e&Heq&_)|(d1&s1&f1&Heq&Hacc)];
    rewrite Hcall in Heq; [done|]. injection Heq as <- <-.
  pose proof (ac_at _ _ _ _ _ Hacc) as H1.
  rewrite (fifo_of _ _ _ H1 (fr_fifo _ _ (fifo_at_frame _ _ Hf'))). by apply Hacc.
Qed.
Lemma play_to_end {Rng} `{!PodRng Rng} sh rs g k : g ≠ Some Panic → ∀ s f, fifo_at s f → drafty (status s) = true →
  (to_do s f ≤ k)%nat → revision f + N.of_nat k + 1 ≤ MAX_DRAFT_JSON_INTEGER →
  last_now_ms f + (N.of_nat k + 2) * MAX_DRAFT_DURATION_MS ≤ MAX_DRAFT_JSON_INTEGER →
  ∃ l s' f', play sh rs g l s = Some s' ∧ Forall (λ x, playing x.1 = true) l ∧ (length l ≤ k)%nat ∧
    fifo_at s' f' ∧ status s' = DraftStatus.Deckbuilding ∧ all_ids s' f' ≡ₚ all_ids s f.
Proof.
  intros Hg. induction k as [|k IH]; intros s f Hf Hdr Hk Hrev Hnow.
  all: destruct (active (status s)) eqn:Hact;
    [|exists [], s, f; split_and!; try done; try (cbn; lia); by destruct (status s)].
  all: assert (status s ≠ DraftStatus.Lobby) as Hst by (intros Hl; by rewrite Hl in Hdr).
  all: destruct (fifo_at_started s f Hf Hst) as [deal HS].
  all: destruct (forward_active sh rs g HS) as (a&now&d&s1&f1&Hcall&Ha&H1&Hd1&Hlt&Hr1&Hn1);
    [lia|lia|done|].
  - lia.
  - destruct (IH s1 f1 H1 Hd1) as (l&s'&f'&Hplay&Hl&Hlen&Hs'&Hst'&Hids); [lia..|].
    exists ((a, now) :: l), s', f'. cbn [play]. rewrite Hcall.
    split_and!; try done; [by constructor|cbn; lia|].
    by rewrite Hids, (call_cards _ _ _ _ _ _ _ _ _ _ Hf Hg Hst Hcall H1).
Qed.
Lemma drafted_left deal s f : started deal s f → status s = DraftStatus.Deckbuilding → cards_left s f = 0%nat.
Proof.
  intros [HF HT HP] Hst. unfold phase_ok in HP. rewrite Hst in HP. destruct HP as [[Hr _ Hl _ _] _].
  unfold cards_left, live_cards. rewrite Hl, (tb_future _ _ _ HT). cbn. rewrite Nat.add_0_r.
  assert (mjoin (drop (S (rnd s)) <$> deal) = []) as ->; [|done].
  pose proof (mf_rounds _ _ _ _ (tb_manifest _ _ _ HT)) as Hrounds.
  pose proof (frame_rounds _ _ HF) as [Hp _].
  assert (∀ row, row ∈ deal → drop (S (rnd s)) row = []) as Hnil.
  { intros row [i Hi]%list_elem_of_lookup. apply drop_ge. rewrite (Hrounds i row Hi).
    unfold rnd, packs_n in *. rewrite Hr. lia. }
  clear -Hnil. induction deal as [|row deal IH]; [done|]. cbn. rewrite Hnil by by left.
  apply IH. intros row' H. apply Hnil. by right.
Qed.
Lemma to_do_bound deal s f : started deal s f → (to_do s f ≤ 3 * (255 * 8 * 255) + 2)%nat.
Proof.
  intros [HF HT HP]. pose proof (deal_bound HF HT) as Hb. destruct (tb_cards _ _ _ HT) as (gone&_&Hp).
  apply Permutation_length in Hp. rewrite !length_app in Hp. unfold to_do, cards_left.
  pose proof (drafty_weight (status s)). lia.
Qed.

(** *** Every draft comes to its end *)
(** C18. Every draft that has started can be brought to deck building by selections,
    the passage of time and, if paused, a resumption, in at most three steps for
    every card on the table and two more; then every card is in a pool or was
    removed.  The bounds on the clock (142,000 years) and the revision keep the
    numbers within the exact integers of JSON. *)
Theorem fifo_draft_finishes {Rng} `{!PodRng Rng} sh rs g s f : fifo_reachable s → g ≠ Some Panic → fifo s = Some f →
  active (status s) = true → last_now_ms f ≤ 2 ^ 52 → revision f ≤ 2 ^ 52 →
  ∃ l s' f', play sh rs g l s = Some s' ∧ Forall (λ x, playing x.1 = true) l ∧
    (length l ≤ to_do s f)%nat ∧ status s' = DraftStatus.Deckbuilding ∧ fifo s' = Some f' ∧
    cards_left s' f' = 0%nat ∧
    ids (concat (pools s')) ++ (removed_id <$> removed f') ≡ₚ all_ids s f.
Proof.
  intros Hs Hg Hff Hact Hnow Hrev. destruct (fifo_at_reachable s Hs) as [f0 Hf].
  pose proof (fifo_of _ _ _ Hf Hff) as <-.
  destruct (fifo_at_started s f Hf) as [deal HS]; [by intros Hl; rewrite Hl in Hact|].
  pose proof (to_do_bound deal s f HS) as Hb.
  destruct (play_to_end sh rs g (to_do s f) Hg s f Hf) as (l&s'&f'&Hplay&Hl&Hlen&Hf'&Hst'&Hids).
  - by destruct (status s).
  - done.
  - unfold MAX_DRAFT_JSON_INTEGER. lia.
  - unfold MAX_DRAFT_JSON_INTEGER, MAX_DRAFT_DURATION_MS. lia.
  - destruct (fifo_at_started s' f' Hf') as [deal' HS']; [by rewrite Hst'|].
    pose proof (drafted_left deal' s' f' HS' Hst') as Hleft.
    exists l, s', f'. split_and!; try done; [apply (fr_fifo _ _ (fifo_at_frame _ _ Hf'))|].
    rewrite <-Hids. unfold all_ids. unfold cards_left in Hleft.
    destruct (concat (mjoin (packs_by_seat s'))); [|done]. by destruct (live_cards f').
Qed.

(** ** A small draft *)
Module Witnesses.
(** Two seats, two rounds of three cards; a card is burned with every pick. *)
Definition small : DraftConfig := {|
  flow := DraftFlow.FifoAsync;
  selection_policy := {| burns_per_pick := 1; discard_threshold := 0 |};
  clock_policy := {| pick_clock := PickClockPolicy.SeatStep; review_duration_ms := 5000 |};
  source := DraftSource.Set_ (SetLayout.UniformByRound ["TST"]); config_set_code := "TST";
  config_kind := DraftKind.Quick; pod_size := 2; cards_per_pack := 3; pack_count := 2;
  min_deck_size := 40; rng_seed := 7; config_format := TournamentFormat.Swiss;
  addable_cards := standard_basics |}.
Definition boosters : list (list DraftPack) :=
  map (map (map example_card))
    [[["a"; "b"; "c"]; ["d"; "e"; "f"]]; [["g"; "h"; "i"]; ["j"; "k"; "l"]]].
Local Abbreviation call := (apply_at (Rng := FixedRng) (λ x, x) (λ _, 0) (Some (Ok boosters))).
Definition deltas (r : outcome DraftError (list DraftDelta)) : list DraftDelta :=
  match r with Ok d => d | _ => [] end.
Definition state (s : DraftSession) : FifoDraftState := default (fresh_fifo "" 0) (fifo s).
Definition lobby : DraftSession :=
  match new_fifo small [Human 0 "x"; Human 1 "y"] "sess" with
  | Ok s => s | _ => new_session small [] end.
Definition table : DraftSession := (call StartDraft 10 lobby).2.
Definition choice : Selection := {|
  sel_seat := 0; sel_prompt := {| prompt_session := "sess"; prompt_seat := 0; prompt_generation := 1 |};
  sel_picked := ["b"]; sel_burned := ["a"]; sel_effects := [] |}.
Definition picked : DraftSession := (call (Select choice) 20 table).2.

Lemma lobby_reachable : fifo_reachable lobby.
Proof.
  exists small, [Human 0 "x"; Human 1 "y"], "sess", lobby. split; [|apply path_here].
  vm_compute. reflexivity.
Qed.
Lemma call_reachable a now s : fifo_reachable s → fifo_reachable (call a now s).2.
Proof.
  intros Hs. apply (reachable_call (Rng := FixedRng) (λ x, x) (λ _, 0) (Some (Ok boosters)) s a now (call a now s).1 _ Hs);
    [done|apply surjective_pairing].
Qed.
Lemma table_reachable : fifo_reachable table.
Proof. apply call_reachable, lobby_reachable. Qed.

(** The clock picks for everybody, the decks are submitted, and the event is over: the
    actions after the draft are reached, and refuse a seat outside the pod. *)
Definition drafted_out : option DraftSession :=
  play (Rng := FixedRng) (λ x, x) (λ _, 0) (Some (Ok boosters))
    [(AdvanceClock, 100000); (AdvanceClock, 200000); (AdvanceClock, 300000); (AdvanceClock, 400000);
     (AdvanceClock, 500000); (AdvanceClock, 600000)] table.
Definition submit (seat : N) : DraftAction := SubmitDeck seat (replicate 40 "Plains") [] [].
Example decks_are_submitted :
  status <$> drafted_out = Some DraftStatus.Deckbuilding ∧
  status <$> (drafted_out ≫= play (Rng := FixedRng) (λ x, x) (λ _, 0) (Some (Ok boosters))
    [(submit 0, 600001); (submit 1, 600002)]) = Some DraftStatus.Complete ∧
  (λ s, (call (submit 2) 600001 s).1) <$> drafted_out = Some (Err (SeatOutOfRange 2 2)).
Proof. vm_compute. done. Qed.
Lemma fifo_reducer_safe_witness : is_ok (call (Select choice) 80000 table).1 = false ∧
  (call (Select choice) 80000 table).2 = table ∧ validate_persisted_snapshot table = Ok ().
Proof.
  assert (call (Select choice) 80000 table = (Err ExpiredPrompt, table)) as E by (vm_compute; reflexivity).
  destruct (fifo_reducer_safe (Rng := FixedRng) (λ x, x) (λ _, 0) (Some (Ok boosters)) (Select choice) 80000 table
    (Err ExpiredPrompt) table table_reachable ltac:(done) E) as (_&_&Hv&Hs&_).
  rewrite E. split; [reflexivity|]. split; [by apply Hs|exact Hv].
Defined.
Lemma fifo_cards_conserved_witness : is_ok (call (Select choice) 20 table).1 = true ∧
  ∃ f f', fifo table = Some f ∧ fifo picked = Some f' ∧ NoDup (all_ids table f) ∧
    all_ids picked f' ≡ₚ all_ids table f ∧ (cards_left picked f' ≤ cards_left table f)%nat.
Proof.
  split; [vm_compute; reflexivity|].
  apply (fifo_cards_conserved (Rng := FixedRng) (λ x, x) (λ _, 0) (Some (Ok boosters)) (Select choice) 20 table
    (call (Select choice) 20 table).1 picked table_reachable); [done|vm_compute; discriminate|].
  apply surjective_pairing.
Defined.
Lemma fifo_revision_counts_witness : ∃ f f', fifo table = Some f ∧ fifo picked = Some f' ∧
  session_id f' = session_id f ∧ config picked = config table ∧
  last_now_ms f' = N.max 20 (last_now_ms f) ∧ (picked = table ∨ revision f' = revision f + 1).
Proof.
  apply (fifo_revision_counts (Rng := FixedRng) (λ x, x) (λ _, 0) (Some (Ok boosters)) (Select choice) 20 table
    (deltas (call (Select choice) 20 table).1) picked
    table_reachable); [done|].
  vm_compute. reflexivity.
Defined.
Lemma fifo_prompt_answered_once_witness : ∃ e, call (Select choice) 30 picked = (Err e, picked).
Proof.
  apply (fifo_prompt_answered_once (Rng := FixedRng) (Rng' := FixedRng) (λ x, x) (λ _, 0) (Some (Ok boosters)) choice 20 table
    (deltas (call (Select choice) 20 table).1) picked picked
    (λ x, x) (λ _, 0) (Some (Ok boosters)) choice 30 table_reachable); [done| |apply path_here|done|done].
  vm_compute. reflexivity.
Defined.
Lemma fifo_select_spec_witness : ∃ h st p pool,
  legal (tick 20 table (state table)) (set_last_now_ms 20 (state table)) choice HumanTiming h st p pool.
Proof.
  apply (fifo_select_spec (Rng := FixedRng) (λ x, x) (λ _, 0) (Some (Ok boosters)) choice 20 table (state table)
    table_reachable); [vm_compute; reflexivity|split; vm_compute; discriminate|].
  exists (deltas (call (Select choice) 20 table).1), picked. vm_compute. reflexivity.
Defined.
Lemma fifo_advance_spec_witness : is_ok (call AdvanceClock 80000 table).1 = true ∧
  ∃ d s1 f1, call AdvanceClock 80000 table = (Ok d, if decide (s1 = table) then table else bump s1 f1) ∧
    fifo s1 = Some f1 ∧ advances (tick 80000 table (state table))
      (set_last_now_ms 80000 (state table)) s1 f1.
Proof.
  split; [vm_compute; reflexivity|].
  apply (fifo_advance_spec (Rng := FixedRng) (λ x, x) (λ _, 0) (Some (Ok boosters)) 80000 table (state table)
    table_reachable); [vm_compute; reflexivity|vm_compute; discriminate|split; vm_compute; discriminate].
Defined.
Lemma fifo_start_spec_witness : status table = DraftStatus.Drafting ∧
  ((∃ deal R, Some (Ok boosters) = Some (@Ok DraftError _ deal) ∧ fits lobby deal R ∧
    ∃ d s1 f1, call StartDraft 10 lobby = (Ok d, bump s1 f1) ∧ fifo s1 = Some f1 ∧
      all_ids s1 f1 ≡ₚ ids (deal_cards deal) ∧ NoDup (ids (deal_cards deal)) ∧
      status s1 = match distribution (procedure (kind lobby)) with
                  | PackDistribution.PickAndPass => DraftStatus.Drafting
                  | _ => DraftStatus.Deckbuilding
                  end) ∨
   (∃ e, call StartDraft 10 lobby = (Err e, lobby) ∧
    ∀ deal R, Some (Ok boosters) = Some (@Ok DraftError _ deal) → ¬ fits lobby deal R)).
Proof.
  split; [vm_compute; reflexivity|].
  apply (fifo_start_spec (Rng := FixedRng) (λ x, x) (λ _, 0) (Some (Ok boosters)) 10 lobby (state lobby)
    lobby_reachable); [vm_compute; reflexivity..|split; vm_compute; discriminate|done].
Defined.
Lemma fifo_pause_resume_witness : ∃ d1 s1 d2 s2 f2,
  call (Control (DraftControl.Pause DraftPauseReason.PausedByHost)) 100 table = (Ok d1, s1) ∧
  status s1 = DraftStatus.Paused ∧ call (Control DraftControl.Resume) 900 s1 = (Ok d2, s2) ∧
  s2 = set_fifo (Some f2) table ∧
  f2 = set_last_now_ms 900 (set_revision (revision (state table) + 2)
         (set_review (review f2) (set_paused None (set_fifo_seats (fifo_seats f2) (state table))))) ∧
  Forall2 (reclocked (postponed 100 900)) (fifo_seats (state table)) (fifo_seats f2) ∧
  match review (state table) with
  | None => review f2 = None
  | Some r => ∃ c, postponed 100 900 (clock_state (review_clock r)) c ∧ review f2 = Some {|
      exhausted_round := exhausted_round r; review_next_round := review_next_round r;
      review_clock := {| clock_target := clock_target (review_clock r); clock_state := c |} |}
  end.
Proof.
  apply (fifo_pause_resume (Rng := FixedRng) (λ x, x) (λ _, 0) (Some (Ok boosters)) table (state table)
    DraftPauseReason.PausedByHost 100 900 table_reachable); [vm_compute; reflexivity|..].
  - left. vm_compute. reflexivity.
  - vm_compute. discriminate.
  - vm_compute. discriminate.
Defined.
Lemma fifo_draft_finishes_witness : ∃ l s' f',
  play (Rng := FixedRng) (λ x, x) (λ _, 0) (Some (Ok boosters)) l table = Some s' ∧ Forall (λ x, playing x.1 = true) l ∧
  (length l ≤ to_do table (state table))%nat ∧ status s' = DraftStatus.Deckbuilding ∧
  fifo s' = Some f' ∧ cards_left s' f' = 0%nat ∧
  ids (concat (pools s')) ++ (removed_id <$> removed f') ≡ₚ all_ids table (state table).
Proof.
  apply (fifo_draft_finishes (Rng := FixedRng) (λ x, x) (λ _, 0) (Some (Ok boosters)) table (state table)
    table_reachable); [done|vm_compute; reflexivity..|vm_compute; discriminate|vm_compute; discriminate].
Defined.
End Witnesses.
