(* ===== verification/PodLife.v ===== *)
(** * The life of a pod's event

    The invariant of the event a pod plays after its draft, what a generated round and a
    reported result do to it, and that every action keeps it. *)
From S2P Require Import Prelude.
From S2P Require Import DraftTypes.
From S2P Require Import PodEvent.
From S2P Require Import PodMatching.
Local Open Scope nat_scope.

(** ** What a report leaves alone *)
Definition same_table (p q : DraftPairing) : Prop :=
  round q = round p ∧ table q = table p ∧ players q = players p ∧ match_id q = match_id p.
Definition complete (p : DraftPairing) : Prop := pairing_status p = PairingStatus.Complete.

Lemma same_table_refl p : same_table p p.
Proof. done. Qed.
Lemma set_result_same w p : same_table p (set_result w p).
Proof. done. Qed.
Lemma insert_same_table ps i p q :
  ps !! i = Some p → same_table p q → Forall2 same_table ps (<[i := q]> ps).
Proof.
  intros Hi Hpq. apply Forall2_same_length_lookup_2; [by rewrite length_insert|].
  intros j x y Hx Hy. apply list_lookup_insert_Some in Hy as [(<-&<-&_)|(_&Hy)].
  - by simplify_eq.
  - simplify_eq. apply same_table_refl.
Qed.
Lemma in_round_same r ps qs :
  Forall2 same_table ps qs → Forall2 same_table (in_round r ps) (in_round r qs).
Proof.
  unfold in_round. induction 1 as [|p q ps qs Hpq _ IH]; [constructor|]. rewrite !filter_cons.
  pose proof Hpq as (Hr&_). rewrite Hr. case_decide; [by constructor|done].
Qed.
Lemma same_players ps qs : Forall2 same_table ps qs → players <$> qs = players <$> ps.
Proof. induction 1 as [|p q ps qs (_&_&Hp&_) _ IH]; [done|]. by rewrite !fmap_cons, IH, Hp. Qed.

(** ** The invariant *)
Definition numbered_tables (r : N) (ps : list DraftPairing) : Prop :=
  ∀ t p, ps !! t = Some p → table p = wrap 8 (N.of_nat t) ∧ match_id p = pair_match_id r t.
Definition seats_players (e : PodEvent) (r : N) (ps : list DraftPairing) : Prop :=
  match tournament_format e with
  | TournamentFormat.Swiss => ∃ bye, flat (players <$> ps) ++ option_list bye ≡ₚ ids e
  | TournamentFormat.SingleElimination =>
      2 ^ N.to_nat r * length ps = length (ids e) ∧ NoDup (flat (players <$> ps)) ∧
      ∀ pid, pid ∈ flat (players <$> ps) → pid ∈ ids e
  end.
Definition result_ok (f : TournamentFormat.t) (p : DraftPairing) : Prop :=
  match pairing_status p, winner p with
  | PairingStatus.Pending, None => True
  | PairingStatus.Complete, Some w => w = (players p).1 ∨ w = (players p).2
  | PairingStatus.Complete, None => f = TournamentFormat.Swiss
  | _, _ => False
  end.
Definition finished_round (e : PodEvent) : bool := round_done (current_round e) (pairings e).
Definition over (e : PodEvent) : bool :=
  tournament_over (tournament_format e) (current_round e) (pairings e).
Definition status_ok (e : PodEvent) : Prop :=
  match status e with
  | DraftStatus.Deckbuilding => current_round e = 0%N
  | DraftStatus.Pairing => current_round e = 0%N ∨ finished_round e = true ∧ over e = false
  | DraftStatus.MatchInProgress => (1 <= current_round e)%N ∧ finished_round e = false
  | DraftStatus.RoundComplete =>
      (1 <= current_round e)%N ∧ finished_round e = true ∧ over e = false
  | DraftStatus.Complete => (1 <= current_round e)%N ∧ finished_round e = true ∧ over e = true
  | _ => False
  end.

Record event_ok (e : PodEvent) : Prop := {
  ok_legacy : validate_legacy_admission e = Ok tt;
  ok_kind : post_draft_play (procedure (kind e)) = PostDraftPlay.TournamentPairings;
  ok_pod : allows_pod_size (procedure (kind e)) (tournament_format e)
             (seat_count e) = true;
  ok_seats : length (seats e) < 256;
  ok_ids : NoDup (ids e);
  ok_bound : (current_round e <= 3)%N;
  ok_range : Forall (λ p, (1 <= round p <= current_round e)%N) (pairings e);
  ok_rounds : ∀ r, (1 <= r <= current_round e)%N →
    numbered_tables r (in_round r (pairings e)) ∧ seats_players e r (in_round r (pairings e));
  ok_results : Forall (result_ok (tournament_format e)) (pairings e);
  ok_past : Forall (λ p, (round p < current_round e)%N → complete p) (pairings e);
  ok_status : status_ok e;
}.

(** A draft whose event has not begun. *)
Record event_start (e : PodEvent) : Prop := {
  start_legacy : validate_legacy_admission e = Ok tt;
  start_kind : post_draft_play (procedure (kind e)) = PostDraftPlay.TournamentPairings;
  start_pod : allows_pod_size (procedure (kind e)) (tournament_format e)
                (seat_count e) = true;
  start_seats : length (seats e) < 256;
  start_ids : NoDup (ids e);
  start_status : status e ∈ [DraftStatus.Deckbuilding; DraftStatus.Pairing];
  start_pairings : pairings e = [];
  start_records : match_records e = ∅;
  start_round : current_round e = 0%N;
}.
Lemma event_start_ok e : event_start e → event_ok e.
Proof.
  intros [? ? ? ? ? Hst Hp Hrec Hr]. split; rewrite ?Hp, ?Hr; try done; try by constructor.
  - intros r. lia.
  - unfold status_ok. rewrite !elem_of_cons, elem_of_nil in Hst.
    destruct Hst as [->|[->|[]]]; [done|by left].
Qed.

(** The pods a kind admits: two to eight players, and for a bracket four or eight. *)
Lemma pod_sizes e : event_ok e →
  2 ≤ length (ids e) ≤ 8 ∧
  (tournament_format e = TournamentFormat.SingleElimination →
   length (ids e) = 4 ∨ length (ids e) = 8).
Proof.
  intros He. pose proof (ok_pod e He) as Hpod. pose proof (ok_kind e He) as Hk.
  pose proof (ok_seats e He) as Hs. rewrite length_ids.
  unfold allows_pod_size, allowed_pod_size_range, full_bracket, seat_count in Hpod.
  rewrite wrap_small in Hpod by (change (2 ^ 8)%N with 256%N; lia).
  rewrite (bool_decide_eq_true_2 _ Hk) in Hpod.
  destruct (kind e); try discriminate Hk; destruct (tournament_format e); simpl in Hpod;
    breflect; split; intros; try done; lia.
Qed.

Lemma in_round_elem r ps p : p ∈ in_round r ps ↔ p ∈ ps ∧ round p = r.
Proof. unfold in_round. rewrite list_elem_of_filter. tauto. Qed.
Lemma round_done_true r ps : round_done r ps = true ↔ Forall complete (in_round r ps).
Proof.
  unfold round_done. rewrite forallb_forall, Forall_forall. setoid_rewrite <-list_elem_of_In.
  by setoid_rewrite bool_decide_eq_true.
Qed.
Lemma finished_all e : event_ok e → finished_round e = true → Forall complete (pairings e).
Proof.
  intros He Hf. apply round_done_true in Hf. rewrite Forall_forall in Hf. apply Forall_forall.
  intros p Hp. pose proof (ok_range e He) as Hr. pose proof (ok_past e He) as Hpast.
  rewrite Forall_forall in Hr, Hpast.
  destruct (decide (round p = current_round e)); [by apply Hf, in_round_elem|].
  apply Hpast; [done|]. specialize (Hr p Hp). lia.
Qed.

(** ** Match ids *)
Lemma match_id_inj r r' t t' :
  (r <= 3)%N → (r' <= 3)%N → t < 4 → t' < 4 →
  pair_match_id r t = pair_match_id r' t' → r = r' ∧ t = t'.
Proof.
  intros Hr Hr' Ht Ht' Hid.
  set (rounds := N.of_nat <$> seq 0 4).
  assert (Forall (λ x, Forall (λ y, pair_match_id x.1 x.2 = pair_match_id y.1 y.2 → x = y)
    (cprod rounds (seq 0 4))) (cprod rounds (seq 0 4))) as Hall.
  { apply (bool_decide_unpack _). vm_compute. exact I. }
  rewrite Forall_forall in Hall.
  assert (∀ r t, (r <= 3)%N → t < 4 → (r, t) ∈ cprod rounds (seq 0 4)) as Hin.
  { intros x y Hx Hy. apply list_elem_of_cprod. split; [|by apply elem_of_seq; cbn; lia].
    apply list_elem_of_fmap. exists (N.to_nat x). split; [cbn; lia|by apply elem_of_seq; cbn in *; lia]. }
  clearbody rounds.
  specialize (Hall _ (Hin r t Hr Ht)). rewrite Forall_forall in Hall.
  specialize (Hall _ (Hin r' t' Hr' Ht') Hid). by injection Hall.
Qed.

(** Rounds are short: at most four tables. *)
Lemma round_tables e r : event_ok e → (1 <= r <= current_round e)%N →
  length (in_round r (pairings e)) ≤ 4.
Proof.
  intros He Hr. destruct (ok_rounds e He r Hr) as [_ Hseats].
  pose proof (pod_sizes e He) as [[_ Hle] _]. unfold seats_players in Hseats.
  assert (length (flat (players <$> in_round r (pairings e))) ≤ length (ids e)) as Hf.
  { destruct (tournament_format e).
    - destruct Hseats as [bye Hb]. apply Permutation_length in Hb. rewrite length_app in Hb. lia.
    - destruct Hseats as (_&Hnd&Hin). by apply submseteq_length, NoDup_submseteq. }
  rewrite length_flat, length_fmap in Hf. lia.
Qed.

(** A match id names one pairing. *)
Lemma match_id_unique e p q : event_ok e → p ∈ pairings e → q ∈ pairings e →
  match_id p = match_id q → p = q.
Proof.
  intros He Hp Hq Hid.
  assert (∀ p, p ∈ pairings e → ∃ t, t < 4 ∧ (round p <= 3)%N ∧
    match_id p = pair_match_id (round p) t ∧
    in_round (round p) (pairings e) !! t = Some p) as Hall.
  { intros x Hx. pose proof (ok_range e He) as Hr. rewrite Forall_forall in Hr.
    specialize (Hr x Hx). pose proof (ok_bound e He).
    assert (x ∈ in_round (round x) (pairings e)) as [t Ht]%list_elem_of_lookup
      by by apply in_round_elem.
    destruct (ok_rounds e He (round x) Hr) as [Hnum _]. destruct (Hnum t x Ht).
    exists t. pose proof (round_tables e (round x) He Hr). pose proof (lookup_lt_Some _ _ _ Ht).
    split_and!; try done; lia. }
  destruct (Hall p Hp) as (t&?&?&Hi&Hpt), (Hall q Hq) as (t'&?&?&Hi'&Hqt).
  rewrite Hi, Hi' in Hid. apply match_id_inj in Hid as [Hr ->]; [|done..].
  rewrite Hr in Hpt. congruence.
Qed.

(** ** Generating a round *)
Lemma in_round_app r ps qs : in_round r (ps ++ qs) = in_round r ps ++ in_round r qs.
Proof. apply filter_app. Qed.
Lemma in_round_same_round r ps : Forall (λ p, round p = r) ps → in_round r ps = ps.
Proof. apply filter_all. Qed.
Lemma in_round_other r ps : Forall (λ p, round p ≠ r) ps → in_round r ps = [].
Proof. apply filter_none. Qed.

Lemma chunk_pairs {A} k : ∀ l : list A, length l = 2 * k →
  ∃ M, chunks2 l = (λ p : A * A, [p.1; p.2]) <$> M ∧ (M ≫= λ p, [p.1; p.2]) = l ∧ length M = k.
Proof.
  induction k as [|k IH]; intros l Hl.
  { destruct l; [|done]. by exists []. }
  destruct l as [|x [|y l]]; simpl in Hl; [lia..|].
  destruct (IH l ltac:(lia)) as (M&HM&Hflat&Hk). exists ((x, y) :: M). split_and!.
  - simpl. by rewrite HM.
  - cbn. by rewrite Hflat.
  - simpl. by rewrite Hk.
Qed.
Lemma omap_imap_Some {A B} (l : list A) : ∀ f : nat → A → B, omap id (imap (λ i x, Some (f i x)) l) = imap f l.
Proof. induction l as [|x l IH]; intros f; [done|]. cbn. f_equal. apply IH. Qed.

(** Who advances from a finished round of a bracket. *)
Lemma winners_advance ps ws :
  NoDup (flat (players <$> ps)) →
  Forall2 (λ p w, w = (players p).1 ∨ w = (players p).2) ps ws →
  NoDup ws ∧ ∀ w, w ∈ ws → w ∈ flat (players <$> ps).
Proof.
  intros Hnd Hw. induction Hw as [|p w ps ws Hpw Hw IH]; [by split; [constructor|]|].
  cbn in Hnd. fold (flat (players <$> ps)) in Hnd.
  apply NoDup_cons in Hnd as [H1 Hnd]. apply NoDup_cons in Hnd as [H2 Hnd].
  destruct (IH Hnd) as [Hws Hin]. cbn. fold (flat (players <$> ps)). split.
  - constructor; [|done]. intros Hv%Hin. destruct Hpw as [->| ->]; [apply H1; by right|by apply H2].
  - intros v [->|Hv]%elem_of_cons; [destruct Hpw as [->| ->]; [left|right; left]|].
    do 2 right. by apply Hin.
Qed.

Lemma se_first_round e : event_ok e → tournament_format e = TournamentFormat.SingleElimination →
  ∃ M, generate_se_pairings e 1 = Ok (seat_tables 1 M) ∧ flat M ≡ₚ ids e.
Proof.
  intros He Hf. destruct (pod_sizes e He) as [_ Hsizes]. specialize (Hsizes Hf).
  assert (seat_count e = N.of_nat (length (ids e))) as Hn.
  { unfold seat_count. rewrite length_ids, wrap_small; [done|].
    pose proof (ok_seats e He). change (2 ^ 8)%N with 256%N. lia. }
  pose proof (seat_player_id_ok e) as Hseat. unfold generate_se_pairings.
  change (1 =? 1)%N with true. cbv iota. rewrite Hn.
  assert (∀ i k x y, ids e !! i = Some x → ids e !! k = Some y →
    (p1 ← seat_player_id e (N.of_nat i); p2 ← seat_player_id e (N.of_nat k);
     mret (p1, p2)) = (Ok (x, y) : outcome DraftError _)) as Hpair.
  { intros i k x y Hx Hy. rewrite (Hseat i x Hx). cbn [mbind outcome_bind]. by rewrite (Hseat k y Hy). }
  destruct Hsizes as [Hl|Hl]; rewrite Hl.
  - destruct (ids e) as [|a [|b [|c [|d [|]]]]]; try discriminate Hl.
    exists [(a, d); (b, c)]. split; [|cbn; solve_Permutation].
    erewrite map_ok_Ok; [done|]. repeat apply Forall2_cons_2; [..|apply Forall2_nil_2].
    + exact (Hpair 0 3 a d eq_refl eq_refl).
    + exact (Hpair 1 2 b c eq_refl eq_refl).
  - destruct (ids e) as [|a [|b [|c [|d [|e1 [|e2 [|e3 [|e4 [|]]]]]]]]]; try discriminate Hl.
    exists [(a, e4); (b, e3); (c, e2); (d, e1)]. split; [|cbn; solve_Permutation].
    erewrite map_ok_Ok; [done|]. repeat apply Forall2_cons_2; [..|apply Forall2_nil_2].
    + exact (Hpair 0 7 a e4 eq_refl eq_refl).
    + exact (Hpair 1 6 b e3 eq_refl eq_refl).
    + exact (Hpair 2 5 c e2 eq_refl eq_refl).
    + exact (Hpair 3 4 d e1 eq_refl eq_refl).
Qed.

(** The table of a later round of a bracket from the round before. *)
Lemma se_next_round e : event_ok e → tournament_format e = TournamentFormat.SingleElimination →
  (1 <= current_round e)%N → finished_round e = true → over e = false →
  ∃ M, generate_se_pairings e (current_round e + 1) = Ok (seat_tables (current_round e + 1) M) ∧
    2 * length M = length (in_round (current_round e) (pairings e)) ∧ NoDup (flat M) ∧
    ∀ pid, pid ∈ flat M → pid ∈ ids e.
Proof.
  intros He Hf Hcr Hfin Hover. set (cr := current_round e) in *.
  destruct (ok_rounds e He cr ltac:(lia)) as [_ Hseats]. unfold seats_players in Hseats.
  rewrite Hf in Hseats. destruct Hseats as (Hlen&Hnd&Hin).
  pose proof (finished_all e He Hfin) as Hall. pose proof (ok_bound e He) as Hb. fold cr in Hb.
  assert (∃ ws, Forall2 (λ p w, winner p = Some w) (in_round cr (pairings e)) ws ∧
    Forall2 (λ p w, w = (players p).1 ∨ w = (players p).2) (in_round cr (pairings e)) ws)
    as (ws&Hws&Hws').
  { assert (Forall (λ p, ∃ w, winner p = Some w ∧ (w = (players p).1 ∨ w = (players p).2))
      (in_round cr (pairings e))) as Hw.
    { apply Forall_forall. intros p [Hp _]%in_round_elem. pose proof (ok_results e He) as Hres.
      rewrite Forall_forall in Hres, Hall. specialize (Hres p Hp). specialize (Hall p Hp).
      unfold result_ok in Hres. rewrite Hall, Hf in Hres. destruct (winner p) as [w|]; [|done].
      by exists w. }
    clear -Hw. induction Hw as [|p ps (w&?&?) _ (ws&?&?)]; [by exists []|].
    exists (w :: ws). by split; constructor. }
  assert (length (ids e) = 4 ∨ length (ids e) = 8) as Hsizes by by apply pod_sizes.
  assert (length (in_round cr (pairings e)) ≠ 1) as Hne.
  { intros H1. unfold over, tournament_over in Hover. rewrite Hf in Hover. fold cr in Hover.
    by rewrite H1 in Hover. }
  assert (∃ k, length (in_round cr (pairings e)) = 2 * k) as [k Hk].
  { clear -Hlen Hsizes Hne Hcr Hb. revert Hlen Hne. generalize (length (in_round cr (pairings e))).
    intros n Hlen Hne. assert (cr = 1 ∨ cr = 2 ∨ cr = 3)%N as [Hc|[Hc|Hc]] by lia; rewrite Hc in Hlen;
      [change (2 ^ N.to_nat 1) with 2 in Hlen|change (2 ^ N.to_nat 2) with 4 in Hlen
      |change (2 ^ N.to_nat 3) with 8 in Hlen];
      (destruct Hsizes as [Hs|Hs]; rewrite Hs in Hlen); first [lia|exists 1; lia|exists 2; lia]. }
  assert (length ws = 2 * k) as Hwk by by rewrite <-Hk, (Forall2_length _ _ _ Hws).
  destruct (chunk_pairs k ws Hwk) as (M&HM&Hflat&HlM).
  destruct (winners_advance _ _ Hnd Hws') as [Hndw Hinw]. exists M. split_and!.
  - unfold generate_se_pairings. destruct (N.eqb_spec (cr + 1) 1); [lia|].
    assert (u8_sub (cr + 1) 1 = cr) as ->.
    { rewrite wsub_small by (change (2 ^ 8)%N with 256%N; lia). lia. }
    assert (filter (λ p, round p = cr ∧ pairing_status p = PairingStatus.Complete) (pairings e) = in_round cr (pairings e)) as Hprev.
    { apply filter_ext_in. rewrite Forall_forall in Hall. intros p Hp. specialize (Hall p Hp). unfold complete in Hall. tauto. }
    rewrite Hprev.
    assert (omap (λ p, result_winner p (match_records e)) (in_round cr (pairings e)) = ws) as ->.
    { clear -Hws. induction Hws as [|p w ps ws Hw _ IH]; [done|]. cbn. unfold result_winner at 1.
      by rewrite Hw, IH. }
    rewrite HM, imap_fmap. unfold mret, outcome_ret. f_equal.
    etrans; [|apply (omap_imap_Some M)]. f_equal. apply imap_ext. intros t [a b] _. done.
  - rewrite Hk, HlM. done.
  - by rewrite <-Hflat in Hndw.
  - intros pid Hpid. apply Hin, Hinw. by rewrite <-Hflat.
Qed.

Section life.
Context {Rng : Type} `{!PodRng Rng} `{!PodRngShuffles Rng}.

Lemma apply_event_legacy a e : validate_legacy_admission e = Ok tt →
  apply_event (Rng := Rng) a e = apply_event_action (Rng := Rng) a e.
Proof.
  intros Hleg. unfold apply_event. unfold_M. cbn. rewrite Hleg.
  assert (flow (config e) = DraftFlow.LegacyBarrier) as ->; [|done].
  unfold validate_legacy_admission in Hleg. by destruct (flow (config e)).
Qed.

(** The event once round [current_round e + 1] is paired. *)
Definition next_round (M : list (N * N)) (bye : option N) (e : PodEvent) : PodEvent :=
  let r := (current_round e + 1)%N in
  set_current_round r (set_status DraftStatus.MatchInProgress
    (match bye with
     | Some pid => set_match_records (ensure_match_record pid credit_bye (match_records e))
     | None => id
     end (set_pairings (pairings e ++ seat_tables r M) e))).
(** The players of the new round. *)
Definition new_seats (e : PodEvent) (M : list (N * N)) (bye : option N) : Prop :=
  match tournament_format e with
  | TournamentFormat.Swiss => flat M ++ option_list bye ≡ₚ ids e
  | TournamentFormat.SingleElimination => bye = None ∧
      2 ^ N.to_nat (current_round e + 1) * length M = length (ids e) ∧ NoDup (flat M) ∧
      ∀ pid, pid ∈ flat M → pid ∈ ids e
  end.
Definition may_pair (e : PodEvent) : Prop :=
  status e ∈ [DraftStatus.Deckbuilding; DraftStatus.Pairing; DraftStatus.RoundComplete].

Lemma may_pair_round e : event_ok e → may_pair e →
  current_round e = 0%N ∨
  (1 <= current_round e)%N ∧ finished_round e = true ∧ over e = false.
Proof.
  intros He Hst. pose proof (ok_status e He) as Hok. unfold status_ok in Hok. unfold may_pair in Hst.
  rewrite !elem_of_cons, elem_of_nil in Hst.
  destruct Hst as [Hst|[Hst|[Hst|[]]]]; rewrite Hst in Hok; [by left| |by right].
  destruct Hok as [?|?]; [by left|]. destruct (decide (current_round e = 0%N)); [by left|right].
  split; [lia|done].
Qed.
Lemma may_pair_small e : event_ok e → may_pair e → (current_round e < 3)%N.
Proof.
  intros He Hst. pose proof (ok_bound e He).
  destruct (may_pair_round e He Hst) as [->|(Hcr&Hfin&Hover)]; [done|].
  destruct (decide (current_round e = 3%N)) as [H3|]; [exfalso|lia].
  unfold over, tournament_over in Hover.
  destruct (ok_rounds e He (current_round e) ltac:(lia)) as [_ Hseats]. unfold seats_players in Hseats.
  pose proof (pod_sizes e He) as [_ Hs].
  destruct (tournament_format e); [by rewrite H3 in Hover|]. breflect.
  destruct Hseats as [Hlen _]. rewrite H3 in *. change (2 ^ N.to_nat 3) with 8 in Hlen.
  destruct (Hs eq_refl); lia.
Qed.

Lemma generate_ok e : event_ok e → may_pair e →
  ∃ M bye, apply_event (Rng := Rng) GeneratePairings e =
    (Ok [PairingsGenerated (current_round e + 1); TransitionedTo DraftStatus.MatchInProgress],
     next_round M bye e) ∧ new_seats e M bye ∧
    (tournament_format e = TournamentFormat.Swiss →
     ∃ pool, pool_paired (prior_pairs (pairings e)) pool M bye).
Proof.
  intros He Hst. pose proof (may_pair_small e He Hst) as Hsmall.
  pose proof (may_pair_round e He Hst) as Hround.
  assert (next_pairing_round e = current_round e + 1)%N as Hr.
  { apply wadd_small. change (2 ^ 8)%N with 256%N. lia. }
  set (rng := seed_from_u64 (Rng := Rng) (N.lxor (rng_seed (config e))
    (wmul 64 (current_round e + 1) 0xDEADBEEF))).
  assert (∃ M bye, match tournament_format e with
    | TournamentFormat.Swiss => generate_swiss_pairings e (current_round e + 1) rng
    | TournamentFormat.SingleElimination =>
        ps ← generate_se_pairings e (current_round e + 1); mret (ps, None)
    end = Ok (seat_tables (current_round e + 1) M, bye) ∧ new_seats e M bye ∧
    (tournament_format e = TournamentFormat.Swiss →
     ∃ pool, pool_paired (prior_pairs (pairings e)) pool M bye)) as (M&bye&Hgen&Hnew&Hpool).
  { unfold new_seats. destruct (tournament_format e) eqn:Hf.
    - destruct (generate_swiss_ok e (current_round e + 1) rng (ok_seats e He))
        as (M&bye&pool&->&Hids&_&Hp&_). exists M, bye. split_and!; [done| |by exists pool].
      by rewrite (pool_paired_seats _ _ _ _ Hp).
    - destruct Hround as [Hcr|(Hcr&Hfin&Hover)].
      + rewrite Hcr. change (0 + 1)%N with 1%N. destruct (se_first_round e He Hf) as (M&->&HM). exists M, None.
        split_and!; try done.
        * change (2 ^ N.to_nat 1) with 2. by rewrite <-length_flat, HM.
        * rewrite HM. apply (ok_ids e He).
        * intros pid. by rewrite HM.
      + destruct (se_next_round e He Hf Hcr Hfin Hover) as (M&->&HlM&?&?). exists M, None.
        split_and!; try done.
        destruct (ok_rounds e He (current_round e) ltac:(lia)) as [_ Hseats].
        unfold seats_players in Hseats. rewrite Hf in Hseats. destruct Hseats as [<- _].
        rewrite <-HlM, N2Nat.inj_add, Nat.pow_add_r. change (2 ^ N.to_nat 1) with 2. lia. }
  exists M, bye. split; [|done]. rewrite apply_event_legacy by apply He. cbn [apply_event_action].
  unfold apply_generate_pairings. etrans; [by apply stM_bind_run|]. cbv zeta.
  etrans; [apply (stM_bind_run _ _ _ tt), ensure_ok; split; [by apply bool_decide_eq_true_2|done]|].
  etrans; [apply (stM_bind_run _ _ _ tt), ensure_ok; split; [apply bool_decide_eq_true_2, He|done]|].
  etrans; [apply (stM_bind_run _ _ _ tt), ensure_ok; split; [apply He|done]|].
  rewrite Hr. fold rng. etrans; [apply stM_bind_run; unfold lift; by rewrite Hgen|].
  unfold next_round. unfold_M. by destruct bye.
Qed.

(** *** The new round keeps the invariant *)
Lemma validate_status (s s' : DraftSession) :
  config s' = config s → fifo s' = fifo s → status s' ≠ DraftStatus.Review →
  validate_legacy_admission s = Ok tt → validate_legacy_admission s' = Ok tt.
Proof.
  intros Hc Hf Hst. unfold validate_legacy_admission. rewrite Hc, Hf, (bool_decide_eq_false_2 _ Hst).
  destruct (flow (config s)), (fifo s), (bool_decide (status s = DraftStatus.Review)),
    (selection_policy_is_default (selection_policy (config s))),
    (clock_policy_is_default (clock_policy (config s))); done.
Qed.
Lemma next_round_fields M bye e :
  seats (next_round M bye e) = seats e ∧
  pairings (next_round M bye e) = pairings e ++ seat_tables (current_round e + 1) M ∧
  current_round (next_round M bye e) = (current_round e + 1)%N ∧
  tournament_format (next_round M bye e) = tournament_format e ∧
  status (next_round M bye e) = DraftStatus.MatchInProgress ∧
  kind (next_round M bye e) = kind e ∧
  (validate_legacy_admission e = Ok tt →
   validate_legacy_admission (next_round M bye e) = Ok tt).
Proof.
  unfold next_round. destruct bye; cbn; split_and!; try done; by apply validate_status.
Qed.
Lemma seat_tables_in_round r r' M :
  in_round r (seat_tables r' M) = if decide (r = r') then seat_tables r M else [].
Proof.
  pose proof (seat_tables_numbered r' M) as Hn. case_decide as Heq.
  - subst r'. apply in_round_same_round, Forall_lookup. intros t p Hp. by apply (Hn t).
  - apply in_round_other, Forall_lookup. intros t p Hp. destruct (Hn t p Hp) as [-> _]. done.
Qed.
Lemma in_round_future e r : event_ok e → (current_round e < r)%N → in_round r (pairings e) = [].
Proof.
  intros He Hr. apply in_round_other. eapply Forall_impl; [apply He|]. cbv beta. intros p. lia.
Qed.
Lemma new_seats_nonempty e M bye : event_ok e → new_seats e M bye → 1 ≤ length M.
Proof.
  intros He Hnew. pose proof (pod_sizes e He) as [[Hle _] _]. unfold new_seats in Hnew.
  destruct (tournament_format e).
  - apply Permutation_length in Hnew. rewrite length_app, length_flat in Hnew.
    destruct bye; simpl in Hnew; lia.
  - destruct Hnew as (_&Hlen&_). destruct M; simpl in *; lia.
Qed.

Lemma next_round_ok M bye e : event_ok e → may_pair e → new_seats e M bye →
  event_ok (next_round M bye e).
Proof.
  intros He Hst Hnew. pose proof (may_pair_small e He Hst) as Hsmall.
  destruct (next_round_fields M bye e) as (Hs&Hp&Hr&Hf&Hstat&Hk&Hv).
  assert (ids (next_round M bye e) = ids e) as Hids by by unfold ids; rewrite Hs.
  assert (Forall complete (pairings e)) as Hdone.
  { destruct (may_pair_round e He Hst) as [H0|(_&Hfin&_)]; [|by apply finished_all].
    eapply Forall_impl; [apply He|]. cbv beta. intros p. lia. }
  pose proof (seat_tables_numbered (current_round e + 1) M) as Hnum.
  assert (∀ p, p ∈ seat_tables (current_round e + 1) M →
    round p = (current_round e + 1)%N ∧ pairing_status p = PairingStatus.Pending ∧ winner p = None) as Hfresh.
  { intros p [t Ht]%list_elem_of_lookup. by destruct (Hnum t p Ht) as (?&?&?&?&?). }
  split; rewrite ?Hids, ?Hp, ?Hr, ?Hf, ?Hk.
  - apply Hv, He.
  - apply He.
  - unfold seat_count. rewrite Hs. apply He.
  - rewrite Hs. apply He.
  - apply He.
  - lia.
  - apply Forall_app. split.
    + eapply Forall_impl; [apply He|]. cbv beta. intros p. lia.
    + apply Forall_forall. intros p Hin. destruct (Hfresh p Hin) as [-> _]. lia.
  - intros r Hrr. rewrite in_round_app, seat_tables_in_round. unfold seats_players. rewrite Hf, Hids.
    case_decide as Hcur.
    + subst r. rewrite (in_round_future e) by (done || lia). cbn [app]. rewrite seat_tables_players.
      split.
      * intros t p Ht. by destruct (Hnum t p Ht) as (?&?&?&?&?).
      * unfold new_seats in Hnew. destruct (tournament_format e); [by exists bye|].
        unfold seat_tables. rewrite length_imap. apply Hnew.
    + rewrite app_nil_r. apply (ok_rounds e He). lia.
  - apply Forall_app. split; [apply He|]. apply Forall_forall. intros p Hin.
    destruct (Hfresh p Hin) as (_&Hpend&Hw). unfold result_ok. by rewrite Hpend, Hw.
  - apply Forall_app. split; [by eapply Forall_impl|]. apply Forall_forall. intros p Hin.
    destruct (Hfresh p Hin) as [-> _]. lia.
  - unfold status_ok, finished_round. rewrite Hstat, Hr, Hp. split; [lia|].
    rewrite <-not_true_iff_false, round_done_true, in_round_app, seat_tables_in_round, decide_True by done.
    rewrite (in_round_future e) by (done || lia). cbn [app].
    pose proof (new_seats_nonempty e M bye He Hnew). destruct M as [|x M]; [simpl in *; lia|].
    cbn. intros [Hx _]%Forall_cons. done.
Qed.

(** ** Reporting a result *)

(** The event once result [w] is recorded for pairing [idx], and what the code does when
    that finished the round. *)
Definition recorded (idx : nat) (p : DraftPairing) (w : option N) (e : PodEvent) : PodEvent :=
  let records :=
    if bool_decide (complete p)
    then undo_match_record_result (match_records e) (players p) (result_winner p (match_records e))
    else match_records e in
  set_match_records (apply_match_record_result records (players p) w)
    (set_pairings (<[idx := set_result w p]> (pairings e)) e).
Definition settle_round (e : PodEvent) : PodEvent :=
  if finished_round e
  then set_status (if over e then DraftStatus.Complete else DraftStatus.RoundComplete) e
  else e.

Definition may_report (e : PodEvent) : Prop :=
  status e ∈ [DraftStatus.MatchInProgress; DraftStatus.RoundComplete].
(** What an accepted report names: a pairing of the current round and one of its players
    (or nobody, for a draw, which a bracket does not take). *)
Record reportable (e : PodEvent) (mid : string) (winner_seat : option N) (idx : nat)
    (p : DraftPairing) (w : option N) : Prop := {
  rep_status : may_report e;
  rep_lookup : pairings e !! idx = Some p;
  rep_id : match_id p = mid;
  rep_round : round p = current_round e;
  rep_format : tournament_format e = TournamentFormat.SingleElimination → w ≠ None;
  rep_player : ∀ x, w = Some x → x = (players p).1 ∨ x = (players p).2;
  rep_seat : match winner_seat, w with
             | Some seat, Some x => ids e !! N.to_nat seat = Some x
             | None, None => True
             | _, _ => False
             end;
}.

Lemma reported_winner_cases e mid ps winner_seat : event_ok e →
  let named w := (∀ x, w = Some x → x = ps.1 ∨ x = ps.2) ∧
    match winner_seat, w with
    | Some seat, Some x => ids e !! N.to_nat seat = Some x
    | None, None => True
    | _, _ => False
    end in
  (∃ er, reported_winner e mid ps winner_seat = Err er ∧ ∀ w, ¬ named w) ∨
  ∃ w, reported_winner e mid ps winner_seat = Ok w ∧ named w.
Proof.
  intros He named. destruct winner_seat as [seat|]; [|right; by exists None]. cbn.
  pose proof (ok_seats e He) as Hs. unfold seat_count.
  rewrite wrap_small by (change (2 ^ 8)%N with 256%N; lia).
  destruct (N.leb_spec (N.of_nat (length (seats e))) seat) as [Hge|Hlt].
  { left. eexists. split; [done|]. intros [x|] [_ Hx]; [|done].
    apply lookup_lt_Some in Hx. rewrite length_ids in Hx. lia. }
  destruct (lookup_lt_is_Some_2 (ids e) (N.to_nat seat)) as [pid Hpid].
  { rewrite length_ids. lia. }
  pose proof (seat_player_id_ok e _ _ Hpid) as Hok. rewrite N2Nat.id in Hok. rewrite Hok.
  cbn [mbind outcome_bind]. case_decide as Hin; [right|left].
  - exists (Some pid). split; [done|]. split; [by intros x [= <-]|done].
  - eexists. split; [done|]. intros [x|] [Hpl Hx]; [|done].
    rewrite Hpid in Hx. injection Hx as ->. by apply Hin, Hpl.
Qed.

(** A report is accepted exactly when it names such a pairing and player. *)
Lemma report_cases e mid winner_seat : event_ok e →
  (∃ er, apply_event (Rng := Rng) (ReportMatchResult mid winner_seat) e = (Err er, e) ∧
     ∀ idx p w, ¬ reportable e mid winner_seat idx p w) ∨
  ∃ idx p w ds, reportable e mid winner_seat idx p w ∧
    apply_event (Rng := Rng) (ReportMatchResult mid winner_seat) e =
      (Ok ds, settle_round (recorded idx p w e)).
Proof.
  intros He. rewrite apply_event_legacy by apply He. cbn [apply_event_action].
  unfold apply_report_match_result. rewrite (stM_bind_run _ _ e e e) by done.
  destruct (decide (may_report e)) as [Hst|Hst]; cycle 1.
  { left. eexists. split; [apply stM_bind_err; unfold ensure; by rewrite bool_decide_eq_false_2|].
    intros ??? []. done. }
  rewrite (stM_bind_run _ _ e tt e) by (apply ensure_ok; split; [by apply bool_decide_eq_true_2|done]).
  destruct (position (λ p, String.eqb (match_id p) mid) (pairings e)) as [idx|] eqn:Hpos; cycle 1.
  { left. eexists. split; [by apply stM_bind_err|]. intros i q w [_ Hq Hid _ _ _ _].
    rewrite position_None in Hpos. specialize (Hpos q (list_elem_of_lookup_2 _ _ _ Hq)).
    by rewrite Hid, String.eqb_refl in Hpos. }
  apply position_Some in Hpos as (p&Hp&Hid%String.eqb_eq&_).
  assert (∀ i q w, reportable e mid winner_seat i q w → q = p) as Hsame.
  { intros i q w [_ Hq Hid' _ _ _ _]. apply (match_id_unique e); [done| | |congruence];
      by eapply list_elem_of_lookup_2. }
  rewrite (stM_bind_run _ _ e idx e) by done.
  rewrite (stM_bind_run _ _ e p e) by (unfold lift; by rewrite Hp).
  destruct (N.eqb_spec (round p) (current_round e)) as [Hr|Hr]; cycle 1.
  { left. eexists. split; [by apply stM_bind_err|]. intros i q w Hrep.
    pose proof (rep_round _ _ _ _ _ _ Hrep). by rewrite (Hsame i q w Hrep) in *. }
  rewrite (stM_bind_run _ _ e tt e) by done.
  destruct (bool_decide (tournament_format e = TournamentFormat.SingleElimination)
            && bool_decide (winner_seat = None)) eqn:Hsingle.
  { left. eexists. split; [by apply stM_bind_err|]. breflect. subst winner_seat.
    intros i q w []. destruct w; [done|]. by eapply rep_format0. }
  rewrite (stM_bind_run _ _ e tt e) by done. cbv zeta.
  destruct (reported_winner_cases e mid (players p) winner_seat He) as [(er&Her&Hno)|(w&Hw&Hpl&Hseat)].
  { left. eexists. split; [apply stM_bind_err; unfold lift; by rewrite Her|].
    intros i q w Hrep. apply (Hno w). rewrite <-(Hsame i q w Hrep). split; apply Hrep. }
  right. rewrite (stM_bind_run (lift (reported_winner e mid (players p) winner_seat)) _ e w e)
    by (unfold lift; by rewrite Hw).
  set (e' := recorded idx p w e).
  exists idx, p, w, (MatchResultRecorded mid winner_seat ::
    if finished_round e'
    then [TransitionedTo (if over e' then DraftStatus.Complete else DraftStatus.RoundComplete)]
    else []). split.
  - split; try done. intros Hf ->. rewrite Hf in Hsingle. destruct winner_seat; [done|].
    rewrite !bool_decide_eq_true_2 in Hsingle by done. done.
  - unfold settle_round. unfold_M. cbv beta iota zeta.
    match goal with |- context [round_done (current_round ?x)] => assert (x = e') as -> end.
    { unfold e', recorded, complete. by destruct (bool_decide (pairing_status p = PairingStatus.Complete)). }
    fold e'. fold (finished_round e'). fold (over e'). by destruct (finished_round e').
Qed.

(** *** A report keeps the invariant *)
Definition after_report (idx : nat) (p : DraftPairing) (w : option N) (e : PodEvent) : PodEvent :=
  settle_round (recorded idx p w e).
Lemma after_report_fields idx p w e :
  let e' := after_report idx p w e in
  pairings e' = <[idx := set_result w p]> (pairings e) ∧
  match_records e' = match_records (recorded idx p w e) ∧
  seats e' = seats e ∧ current_round e' = current_round e ∧
  tournament_format e' = tournament_format e ∧ kind e' = kind e ∧
  (validate_legacy_admission e = Ok tt → validate_legacy_admission e' = Ok tt) ∧
  status e' =
    if finished_round e' then if over e' then DraftStatus.Complete else DraftStatus.RoundComplete
    else status e.
Proof.
  unfold after_report, settle_round. destruct (finished_round (recorded idx p w e)) eqn:Hf; simpl.
  - split_and!; try done.
    + apply validate_status; [done..|]. cbn. by destruct (over _).
    + unfold finished_round, over in *. cbn in *. by rewrite Hf.
  - split_and!; try done. by rewrite Hf.
Qed.

Lemma report_same_tables e mid ws idx p w : reportable e mid ws idx p w →
  Forall2 same_table (pairings e) (<[idx := set_result w p]> (pairings e)).
Proof. intros Hrep. eapply insert_same_table; [apply Hrep|apply set_result_same]. Qed.

Lemma Forall_report (Q : DraftPairing → Prop) e mid ws idx p w : reportable e mid ws idx p w →
  Forall Q (pairings e) → Q (set_result w p) →
  Forall Q (<[idx := set_result w p]> (pairings e)).
Proof. intros _ Hall HQ. by apply Forall_insert. Qed.

Lemma report_keeps_ok e mid ws idx p w : event_ok e → reportable e mid ws idx p w →
  event_ok (after_report idx p w e).
Proof.
  intros He Hrep. pose proof (report_same_tables _ _ _ _ _ _ Hrep) as Hsame.
  destruct (after_report_fields idx p w e) as (Hp&_&Hs&Hr&Hf&Hk&Hv&Hst).
  assert (ids (after_report idx p w e) = ids e) as Hids by by unfold ids; rewrite Hs.
  assert (p ∈ pairings e) as Hin by by eapply list_elem_of_lookup_2, Hrep.
  pose proof (ok_range e He) as Hrange. pose proof (ok_past e He) as Hpast.
  rewrite Forall_forall in Hrange, Hpast.
  split; rewrite ?Hp, ?Hr, ?Hf, ?Hk, ?Hids; try apply He.
  - apply Hv, He.
  - unfold seat_count. rewrite Hs. apply He.
  - rewrite Hs. apply He.
  - apply (Forall_report _ _ _ _ _ _ _ Hrep); [apply He|]. cbn. by apply Hrange.
  - intros r Hrr. destruct (ok_rounds e He r Hrr) as [Hnum Hseats].
    pose proof (in_round_same r _ _ Hsame) as Hrd. split.
    + intros t q Hq. destruct (Forall2_lookup_r _ _ _ _ _ Hrd Hq) as (q0&Hq0&(_&->&_&->)).
      by apply Hnum.
    + unfold seats_players in *. rewrite Hf, Hids, (same_players _ _ Hrd), <-(Forall2_length _ _ _ Hrd).
      done.
  - apply (Forall_report _ _ _ _ _ _ _ Hrep); [apply He|]. unfold result_ok. cbn.
    pose proof (rep_player _ _ _ _ _ _ Hrep) as Hpl. pose proof (rep_format _ _ _ _ _ _ Hrep) as Hfm.
    destruct w; [by apply Hpl|]. destruct (tournament_format e); [done|]. by destruct Hfm.
  - apply (Forall_report _ _ _ _ _ _ _ Hrep); [apply He|]. done.
  - unfold status_ok. rewrite Hst, Hr.
    pose proof (Hrange p Hin) as Hcr. rewrite (rep_round _ _ _ _ _ _ Hrep) in Hcr.
    destruct (finished_round (after_report idx p w e)) eqn:Hfin.
    + destruct (over (after_report idx p w e)) eqn:Hov; (split; [lia|done]).
    + pose proof (rep_status _ _ _ _ _ _ Hrep) as Hmay. unfold may_report in Hmay.
      rewrite !elem_of_cons, elem_of_nil in Hmay. destruct Hmay as [->|[Hrc|[]]]; [split; [lia|done]|].
      exfalso. pose proof (ok_status e He) as Hok. unfold status_ok in Hok. rewrite Hrc in Hok.
      destruct Hok as (_&Hdone&_). apply (finished_all e He) in Hdone.
      apply not_true_iff_false in Hfin. apply Hfin, round_done_true. rewrite Hp.
      apply Forall_forall. intros q [Hq _]%in_round_elem.
      assert (Forall complete (<[idx := set_result w p]> (pairings e))) as Hall
        by by apply (Forall_report _ _ _ _ _ _ _ Hrep).
      rewrite Forall_forall in Hall. by apply Hall.
Qed.
End life.
