(* ===== verification/PodPlay.v ===== *)
(** * Playing a pod's event

    Over everything the actions of an event can reach: nothing panics, the invariant of
    [PodLife] holds, the event ends after its number of rounds and can always be brought
    there, and the match records tally the results, but for a correction of a drawn
    match. *)
From S2P Require Import Prelude.
From S2P Require Import DraftTypes.
From S2P Require Import PodEvent.
From S2P Require Import PodMatching.
From S2P Require Import PodLife.
Local Open Scope nat_scope.

Section play.
Context {Rng : Type} `{!PodRng Rng} `{!PodRngShuffles Rng}.

(** An accepted action. *)
Definition event_step (e e' : PodEvent) : Prop :=
  ∃ a ds, apply_event (Rng := Rng) a e = (Ok ds, e').
(** Rounds of an event: three for Swiss, and as many as halvings for a bracket. *)
Definition rounds_of (e : PodEvent) : N :=
  match tournament_format e with
  | TournamentFormat.Swiss => SWISS_ROUNDS
  | TournamentFormat.SingleElimination => N.log2 (N.of_nat (length (ids e)))
  end.

Lemma generate_refused e : event_ok e → ¬ may_pair e →
  apply_event (Rng := Rng) GeneratePairings e =
    (Err (InvalidTransition (status e) "GeneratePairings"), e).
Proof.
  intros He Hst. rewrite apply_event_legacy by apply He. cbn [apply_event_action].
  unfold apply_generate_pairings. rewrite (stM_bind_run _ _ e e e) by done. cbv zeta.
  apply stM_bind_err. unfold ensure. by rewrite bool_decide_eq_false_2.
Qed.

Lemma advance_cases e : event_ok e →
  apply_event (Rng := Rng) AdvanceRound e =
    if decide (status e = DraftStatus.RoundComplete)
    then (Ok [RoundAdvanced (next_pairing_round e)], set_status DraftStatus.Pairing e)
    else (Err (InvalidTransition (status e) "AdvanceRound"), e).
Proof.
  intros He. rewrite apply_event_legacy by apply He. cbn [apply_event_action].
  unfold apply_advance_round. unfold_M. case_decide as Hst.
  - by rewrite bool_decide_eq_true_2.
  - by rewrite bool_decide_eq_false_2.
Qed.
Lemma advance_keeps_ok e : event_ok e → status e = DraftStatus.RoundComplete →
  event_ok (set_status DraftStatus.Pairing e).
Proof.
  intros He Hst. pose proof (ok_status e He) as Hok. unfold status_ok in Hok. rewrite Hst in Hok.
  split; try apply He.
  - by eapply validate_status; [..|apply He].
  - right. apply Hok.
Qed.

(** Every action, accepted or refused. *)
Lemma event_action_ok a e : event_ok e → ∃ r e',
  apply_event (Rng := Rng) a e = (r, e') ∧ r ≠ Panic ∧ (∀ er, r = Err er → e' = e) ∧
  event_ok e' ∧ ids e' = ids e ∧ tournament_format e' = tournament_format e ∧
  (current_round e <= current_round e')%N.
Proof.
  intros He. destruct a as [|mid ws|].
  - destruct (decide (may_pair e)) as [Hst|Hst].
    + destruct (generate_ok (Rng := Rng) e He Hst) as (M&bye&->&Hnew&_).
      destruct (next_round_fields M bye e) as (Hs&_&Hr&Hf&_).
      eexists _, _. split; [done|]. split; [done|]. split; [done|].
      rewrite Hr, Hf. unfold ids. rewrite Hs. split_and!; try done; [|lia].
      by apply next_round_ok.
    + rewrite generate_refused by done. eexists _, _. split_and!; try done.
  - destruct (report_cases (Rng := Rng) e mid ws He) as [(er&->&_)|(idx&p&w&ds&Hrep&->)].
    + eexists _, _. split_and!; try done.
    + destruct (after_report_fields idx p w e) as (_&_&Hs&Hr&Hf&_).
      fold (after_report idx p w e). eexists _, _. split; [done|]. split; [done|]. split; [done|].
      rewrite Hr, Hf. unfold ids. rewrite Hs. split_and!; try done.
      by eapply report_keeps_ok.
  - rewrite advance_cases by done. case_decide.
    + eexists _, _. split_and!; try done. by apply advance_keeps_ok.
    + eexists _, _. by split_and!.
Qed.

Lemma event_step_ok e e' : event_ok e → event_step e e' →
  event_ok e' ∧ ids e' = ids e ∧ tournament_format e' = tournament_format e ∧
  (current_round e <= current_round e')%N.
Proof.
  intros He (a&ds&Ha). destruct (event_action_ok a e He) as (r&e1&Heq&_&_&H).
  rewrite Ha in Heq. by injection Heq as <- <-.
Qed.
Lemma event_steps_ok e e' : event_ok e → rtc event_step e e' →
  event_ok e' ∧ ids e' = ids e ∧ tournament_format e' = tournament_format e ∧
  (current_round e <= current_round e')%N.
Proof.
  intros He Hs. induction Hs as [e|e e1 e' Hs _ IH]; [done|].
  destruct (event_step_ok e e1 He Hs) as (He1&Hi&Hf&Hr). destruct (IH He1) as (?&Hi'&Hf'&?).
  rewrite Hi', Hf', Hi, Hf. split_and!; try done. lia.
Qed.

(** An event never goes past its last round, and is complete exactly there. *)
Lemma rounds_bound e : event_ok e → (current_round e <= rounds_of e)%N ∧
  (status e = DraftStatus.Complete → current_round e = rounds_of e).
Proof.
  intros He. pose proof (ok_bound e He) as Hb. pose proof (ok_status e He) as Hst.
  unfold rounds_of. destruct (tournament_format e) eqn:Hf.
  - split; [done|]. intros Hc. unfold status_ok in Hst. rewrite Hc in Hst.
    destruct Hst as (_&_&Hov). unfold over, tournament_over in Hov. rewrite Hf in Hov. breflect.
    unfold SWISS_ROUNDS in *. lia.
  - destruct (decide (current_round e = 0%N)) as [H0|H0].
    { rewrite H0. split; [lia|]. intros Hc. unfold status_ok in Hst. rewrite Hc, H0 in Hst. lia. }
    destruct (ok_rounds e He (current_round e) ltac:(lia)) as [_ Hseats].
    unfold seats_players in Hseats. rewrite Hf in Hseats. destruct Hseats as [Hlen _].
    rewrite <-Hlen. set (k := length (in_round _ _)) in *.
    assert (k ≠ 0) as Hk.
    { intros Hk. rewrite Hk in Hlen. pose proof (pod_sizes e He). lia. }
    assert (N.of_nat (2 ^ N.to_nat (current_round e) * k) =
      N.of_nat k * 2 ^ current_round e)%N as ->.
    { rewrite Nat2N.inj_mul, Nat2N.inj_pow, N2Nat.id. simpl. lia. }
    rewrite N.log2_mul_pow2 by lia. split; [lia|].
    intros Hc. unfold status_ok in Hst. rewrite Hc in Hst. destruct Hst as (_&_&Hov).
    unfold over, tournament_over in Hov. rewrite Hf in Hov. fold k in Hov. breflect.
    rewrite Hov. simpl. lia.
Qed.

(** *** Bringing an event to its end *)
Lemma round_players_ids e r p x : event_ok e → (1 <= r <= current_round e)%N →
  p ∈ in_round r (pairings e) → x = (players p).1 ∨ x = (players p).2 → x ∈ ids e.
Proof.
  intros He Hr Hp Hx. destruct (ok_rounds e He r Hr) as [_ Hseats].
  assert (x ∈ flat (players <$> in_round r (pairings e))) as Hin.
  { apply list_elem_of_bind. exists (players p). split; [|by apply list_elem_of_fmap_2].
    rewrite !elem_of_cons. tauto. }
  unfold seats_players in Hseats. destruct (tournament_format e).
  - destruct Hseats as [bye <-]. apply elem_of_app. by left.
  - by apply Hseats.
Qed.
Lemma current_range e p : event_ok e → p ∈ in_round (current_round e) (pairings e) →
  (1 <= current_round e)%N.
Proof.
  intros He [Hp Hr]%in_round_elem. pose proof (ok_range e He) as Hall.
  rewrite Forall_forall in Hall. specialize (Hall p Hp). lia.
Qed.

(** Any pairing of the current round can be reported for its first player. *)
Lemma report_first e p : event_ok e → may_report e →
  p ∈ in_round (current_round e) (pairings e) →
  ∃ idx w, pairings e !! idx = Some p ∧ event_step e (after_report idx p (Some w) e).
Proof.
  intros He Hst Hp. pose proof (current_range e p He Hp) as Hcr.
  assert ((players p).1 ∈ ids e) as [i Hi]%list_elem_of_lookup.
  { eapply (round_players_ids e (current_round e)); [done|lia|done|by left]. }
  apply in_round_elem in Hp as [Hp Hr]. apply list_elem_of_lookup in Hp as [idx Hidx].
  assert (reportable e (match_id p) (Some (N.of_nat i)) idx p (Some (players p).1)) as Hrep.
  { split; try done; [|by rewrite Nat2N.id]. intros x [= <-]. by left. }
  destruct (report_cases (Rng := Rng) e (match_id p) (Some (N.of_nat i)) He)
    as [(er&_&Hno)|(idx'&p'&w'&ds&Hrep'&Happ)]; [by destruct (Hno _ _ _ Hrep)|].
  assert (p' = p) as ->.
  { apply (match_id_unique e); [done|..];
      [eapply list_elem_of_lookup_2, Hrep'|by eapply list_elem_of_lookup_2|apply Hrep']. }
  pose proof (rep_seat _ _ _ _ _ _ Hrep') as Hw. destruct w' as [w'|]; [|done].
  exists idx', w'. split; [apply Hrep'|]. by exists (ReportMatchResult (match_id p) (Some (N.of_nat i))), ds.
Qed.

Definition open_pairings (e : PodEvent) : nat :=
  length (filter (λ p, pairing_status p ≠ PairingStatus.Complete) (pairings e)).
Lemma open_pairings_report ps idx p w : ps !! idx = Some p → ¬ complete p →
  length (filter (λ p, pairing_status p ≠ PairingStatus.Complete) (<[idx := set_result w p]> ps)) <
  length (filter (λ p, pairing_status p ≠ PairingStatus.Complete) ps).
Proof.
  intros Hidx Hp. rewrite <-(take_drop_middle ps idx p Hidx) at 2.
  rewrite insert_take_drop by (by eapply lookup_lt_Some).
  rewrite !filter_app, !filter_cons, !length_app, decide_False by (intros Hn; by apply Hn).
  rewrite decide_True by done. simpl. lia.
Qed.

Lemma round_can_finish n : ∀ e, open_pairings e ≤ n → event_ok e →
  status e = DraftStatus.MatchInProgress →
  ∃ e', rtc event_step e e' ∧ event_ok e' ∧ current_round e' = current_round e ∧
    (status e' = DraftStatus.RoundComplete ∨ status e' = DraftStatus.Complete).
Proof.
  induction n as [n IH] using lt_wf_ind. intros e Hn He Hst.
  pose proof (ok_status e He) as Hok. unfold status_ok in Hok. rewrite Hst in Hok.
  destruct Hok as [Hcr Hfin].
  assert (∃ p, p ∈ in_round (current_round e) (pairings e) ∧ ¬ complete p) as (p&Hp&Hopen).
  { unfold finished_round in Hfin. apply not_true_iff_false in Hfin. rewrite round_done_true in Hfin.
    apply not_Forall_Exists in Hfin; [|intros q; unfold complete; apply _].
    by apply Exists_exists in Hfin. }
  assert (may_report e) as Hmay by (unfold may_report; rewrite Hst; left).
  destruct (report_first e p He Hmay Hp) as (idx&w&Hidx&Hstep).
  destruct (event_step_ok e _ He Hstep) as (He'&_).
  destruct (after_report_fields idx p (Some w) e) as (Hps&_&_&Hr&_&_&_&Hst').
  pose proof (open_pairings_report _ _ _ (Some w) Hidx Hopen) as Hless.
  destruct (finished_round (after_report idx p (Some w) e)) eqn:Hf.
  - exists (after_report idx p (Some w) e). split; [by apply rtc_once|]. split; [done|]. split; [done|].
    rewrite Hst'. destruct (over _); [by right|by left].
  - rewrite Hst in Hst'.
    destruct (IH (open_pairings (after_report idx p (Some w) e))) with (after_report idx p (Some w) e)
      as (e'&Hs&?&Hr'&?); [unfold open_pairings in *; rewrite Hps; lia|done..|].
    exists e'. split; [by eapply rtc_l|]. rewrite Hr', Hr. done.
Qed.

Lemma pairing_finishes k : ∀ e, N.to_nat (3 - current_round e) ≤ k → event_ok e → may_pair e →
  ∃ e', rtc event_step e e' ∧ status e' = DraftStatus.Complete.
Proof.
  induction k as [|k IH]; intros e Hk He Hst; pose proof (may_pair_small e He Hst); [lia|].
  destruct (generate_ok (Rng := Rng) e He Hst) as (M&bye&Hgen&Hnew&_).
  assert (event_step e (next_round M bye e)) as Hstep by (eexists _, _; exact Hgen).
  destruct (next_round_fields M bye e) as (_&_&Hr&_&Hst'&_).
  destruct (round_can_finish _ (next_round M bye e) (reflexivity _)) as (e'&Hs&He'&Hr'&Hend);
    [by apply next_round_ok|done|].
  destruct Hend as [Hend|Hend].
  - destruct (IH e') as (e2&Hs2&Hc); [rewrite Hr', Hr; lia|done|unfold may_pair; rewrite Hend; do 2 right; left|].
    exists e2. split; [|done]. eapply rtc_l; [exact Hstep|]. by etrans.
  - exists e'. split; [|done]. by eapply rtc_l.
Qed.

Lemma event_finishes e : event_ok e →
  ∃ e', rtc event_step e e' ∧ status e' = DraftStatus.Complete.
Proof.
  intros He. pose proof (ok_status e He) as Hst. unfold status_ok in Hst.
  assert (∀ e, event_ok e → may_pair e →
    ∃ e', rtc event_step e e' ∧ status e' = DraftStatus.Complete) as Hpair.
  { intros e1 He1 H1. by eapply pairing_finishes. }
  destruct (status e) eqn:Hs; try done.
  - apply Hpair; [done|]. unfold may_pair. rewrite Hs. left.
  - apply Hpair; [done|]. unfold may_pair. rewrite Hs. right; left.
  - destruct (round_can_finish _ e (reflexivity _) He Hs) as (e1&Hs1&He1&_&[Hend|Hend]); [|by exists e1].
    destruct (Hpair e1 He1) as (e2&?&?); [unfold may_pair; rewrite Hend; do 2 right; left|].
    exists e2. split; [by etrans|done].
  - apply Hpair; [done|]. unfold may_pair. rewrite Hs. do 2 right; left.
  - by exists e.
Qed.

(** The end of a bracket: one final match, won by somebody of the pod. *)
Lemma final_match e : event_ok e → status e = DraftStatus.Complete →
  tournament_format e = TournamentFormat.SingleElimination →
  ∃ final w, in_round (current_round e) (pairings e) = [final] ∧ winner final = Some w ∧ w ∈ ids e.
Proof.
  intros He Hc Hf. pose proof (ok_status e He) as Hst. unfold status_ok in Hst. rewrite Hc in Hst.
  destruct Hst as (Hcr&Hfin&Hov). unfold over, tournament_over in Hov. rewrite Hf in Hov. breflect.
  destruct (in_round (current_round e) (pairings e)) as [|p [|]] eqn:Hr; try done.
  assert (p ∈ in_round (current_round e) (pairings e)) as Hp by (rewrite Hr; left).
  pose proof (finished_all e He Hfin) as Hall. rewrite Forall_forall in Hall.
  pose proof (ok_results e He) as Hres. rewrite Forall_forall in Hres.
  pose proof Hp as [Hin _]%in_round_elem. specialize (Hall p Hin). specialize (Hres p Hin).
  unfold result_ok in Hres. rewrite Hall, Hf in Hres. destruct (winner p) as [w|] eqn:Hw; [|done].
  exists p, w. split_and!; [done..|].
  eapply (round_players_ids e (current_round e)); [done|lia|exact Hp|done].
Qed.

(** C31. An event of a pod stays sound. Whatever its players and organizer do and whatever
    the random source answers, no action panics, a refused one changes nothing, and the
    invariant holds: every round seats each player at most once (in Swiss everybody but
    one bye, in a bracket half as many as the round before), its tables are numbered and
    only the current round can be open, a winner sits in the match won, and the status
    says whether the round and the event are over.  An event never has more than its
    rounds (three for Swiss, the halvings of the pod for a bracket); it is complete only
    there, with every match decided, and a bracket with a single final won by one of the
    pod. *)
Theorem pod_event_is_sound (e0 e : PodEvent) (a : event_action) :
  event_start e0 → rtc event_step e0 e →
  let res := apply_event (Rng := Rng) a e in
  res.1 ≠ Panic ∧ (∀ er, res.1 = Err er → res.2 = e) ∧ event_ok res.2 ∧
  (current_round res.2 <= rounds_of e0)%N ∧
  (status res.2 = DraftStatus.Complete →
   current_round res.2 = rounds_of e0 ∧ Forall complete (pairings res.2) ∧
   (tournament_format e0 = TournamentFormat.SingleElimination →
    ∃ final w, in_round (rounds_of e0) (pairings res.2) = [final] ∧ winner final = Some w ∧
      w ∈ ids e0)).
Proof.
  intros H0 Hs. destruct (event_steps_ok e0 e (event_start_ok e0 H0) Hs) as (He&Hi&Hf&_).
  destruct (event_action_ok a e He) as (r&e'&->&Hp&Hr&He'&Hi'&Hf'&_). cbn.
  destruct (rounds_bound e' He') as [Hb Hc].
  assert (rounds_of e' = rounds_of e0) as Heq.
  { unfold rounds_of. by rewrite Hi', Hf', Hi, Hf. }
  rewrite Heq in *. split_and!; try done. intros Hst. specialize (Hc Hst). split; [done|].
  split.
  - apply finished_all; [done|]. pose proof (ok_status e' He') as Hok. unfold status_ok in Hok.
    rewrite Hst in Hok. apply Hok.
  - intros Hse. rewrite <-Hc, <-Hi, <-Hi'. apply final_match; congruence.
Qed.

(** An event can always be brought to its end: from everything its actions can reach
    there are actions, all accepted, that complete it, after exactly its number of
    rounds. *)
Theorem pod_event_can_finish (e0 e : PodEvent) :
  event_start e0 → rtc event_step e0 e →
  ∃ e', rtc event_step e e' ∧ status e' = DraftStatus.Complete ∧
    current_round e' = rounds_of e0.
Proof.
  intros H0 Hs. destruct (event_steps_ok e0 e (event_start_ok e0 H0) Hs) as (He&Hi&Hf&_).
  destruct (event_finishes e He) as (e'&Hs'&Hc). exists e'. split; [done|]. split; [done|].
  destruct (event_steps_ok e e' He Hs') as (He'&Hi'&Hf'&_).
  destruct (rounds_bound e' He') as [_ Hr]. rewrite (Hr Hc). unfold rounds_of.
  by rewrite Hi', Hf', Hi, Hf.
Qed.
End play.

(** ** A sample event *)
Lemma sample_pod_start : event_start (sample_pod TournamentFormat.Swiss 4).
Proof. split; try done; [vm_compute; lia|by apply (bool_decide_unpack _)|left]. Qed.

(** Playing accepted actions. *)
Fixpoint play_event (l : list event_action) (e : PodEvent) : option PodEvent :=
  match l with
  | [] => Some e
  | a :: l =>
      match apply_event (Rng := FixedRng) a e with
      | (Ok _, e) => play_event l e
      | _ => None
      end
  end.
Lemma play_event_steps l : ∀ e e', play_event l e = Some e' →
  rtc (event_step (Rng := FixedRng)) e e'.
Proof.
  induction l as [|a l IH]; intros e e'; simpl; [by intros [= ->]|].
  destruct (apply_event a e) as [[ds| |] e1] eqn:Ha; try done. intros Hl.
  apply rtc_l with e1; [by exists a, ds|by apply IH].
Qed.

(** The first round of the sample, its results, and the second round. *)
Definition sample_actions : list event_action :=
  [GeneratePairings; ReportMatchResult "r1-t0" (Some 0%N); ReportMatchResult "r1-t1" None;
   AdvanceRound; GeneratePairings].
Definition sample_second : PodEvent :=
  default (sample_pod TournamentFormat.Swiss 4)
    (play_event sample_actions (sample_pod TournamentFormat.Swiss 4)).
Lemma sample_second_reached :
  rtc (event_step (Rng := FixedRng)) (sample_pod TournamentFormat.Swiss 4) sample_second.
Proof. apply (play_event_steps sample_actions). vm_compute. reflexivity. Qed.

Lemma pod_event_is_sound_witness :
  (apply_event (Rng := FixedRng) AdvanceRound sample_second).1 ≠ Panic ∧
  current_round sample_second = 2%N.
Proof.
  split; [|vm_compute; reflexivity].
  exact (proj1 (pod_event_is_sound (Rng := FixedRng) _ _ AdvanceRound sample_pod_start sample_second_reached)).
Defined.
Lemma pod_event_can_finish_witness :
  ∃ e', rtc (event_step (Rng := FixedRng)) sample_second e' ∧
    status e' = DraftStatus.Complete ∧ current_round e' = 3%N.
Proof.
  exact (pod_event_can_finish (Rng := FixedRng) _ _ sample_pod_start sample_second_reached).
Defined.
