(* ===== verification/PodRecords.v ===== *)
(** * Match records of a pod's event

    What the match records say of the results: as long as no drawn match between players
    with different numbers of match wins is reported again, the record of every player is
    the tally of the results and byes; a correction of such a draw takes a match win from
    the player who is ahead. *)
From S2P Require Import Prelude.
From S2P Require Import DraftTypes.
From S2P Require Import PodEvent.
From S2P Require Import PodMatching.
From S2P Require Import PodLife.
From S2P Require Import PodPlay.
Local Open Scope nat_scope.

(** ** One record *)
Definition rec_of (R : Records) (pid : N) : DraftMatchRecord :=
  default (fresh_record pid) (R !! pid).
Definition record_for (pid : N) (w l d b : nat) : DraftMatchRecord :=
  {| record_player := pid; wins := N.of_nat w; losses := N.of_nat l; draws := N.of_nat d;
     match_wins := N.of_nat (w + b); match_losses := N.of_nat l |}.

Lemma rec_of_ensure R player f pid :
  rec_of (ensure_match_record player f R) pid =
    if decide (player = pid) then f (rec_of R pid) else rec_of R pid.
Proof.
  unfold rec_of, ensure_match_record. case_decide as Hp.
  - subst. by rewrite lookup_insert_eq.
  - by rewrite lookup_insert_ne.
Qed.
Lemma rec_of_alter R player f pid : f (fresh_record player) = fresh_record player →
  rec_of (alter f player R) pid = if decide (player = pid) then f (rec_of R pid) else rec_of R pid.
Proof.
  intros Hf. unfold rec_of. case_decide as Hp.
  - subst. rewrite lookup_alter_eq. by destruct (R !! pid).
  - by rewrite lookup_alter_ne.
Qed.

(** ** What a pairing contributes to a player's record *)
Definition won_in (pid : N) (p : DraftPairing) : nat :=
  if decide (winner p = Some pid) then 1 else 0.
Definition lost_in (pid : N) (p : DraftPairing) : nat :=
  match winner p with
  | Some w => if decide (loser_of (players p) w = pid) then 1 else 0
  | None => 0
  end.
Definition drawn_in (pid : N) (p : DraftPairing) : nat :=
  if decide (pairing_status p = PairingStatus.Complete ∧ winner p = None ∧
             (pid = (players p).1 ∨ pid = (players p).2)) then 1 else 0.
Definition tally (f : N → DraftPairing → nat) (pid : N) (ps : list DraftPairing) : nat :=
  sum_list_with (f pid) ps.

Lemma tally_insert f pid ps i p q : ps !! i = Some p →
  tally f pid (<[i := q]> ps) + f pid p = tally f pid ps + f pid q.
Proof.
  intros Hi. unfold tally. rewrite <-(take_drop_middle ps i p Hi) at 2.
  rewrite insert_take_drop by (by eapply lookup_lt_Some).
  rewrite !sum_list_with_app. simpl. lia.
Qed.
Lemma tally_member f pid ps p : p ∈ ps → f pid p ≤ tally f pid ps.
Proof.
  unfold tally. induction ps as [|q ps IH]; [by intros ?%elem_of_nil|].
  simpl. intros [->|Hp]%elem_of_cons; [lia|]. specialize (IH Hp). lia.
Qed.
Lemma tally_app f pid ps qs : tally f pid (ps ++ qs) = tally f pid ps + tally f pid qs.
Proof. apply sum_list_with_app. Qed.
Lemma tally_le f pid ps : (∀ p, f pid p ≤ 1) → tally f pid ps ≤ length ps.
Proof.
  intros Hf. unfold tally. induction ps as [|p ps IH]; simpl; [lia|]. specialize (Hf p). lia.
Qed.
Lemma won_le pid p : won_in pid p ≤ 1.
Proof. unfold won_in. case_decide; lia. Qed.
Lemma lost_le pid p : lost_in pid p ≤ 1.
Proof. unfold lost_in. destruct (winner p); [case_decide|]; lia. Qed.
Lemma drawn_le pid p : drawn_in pid p ≤ 1.
Proof. unfold drawn_in. case_decide; lia. Qed.

Lemma u8_count n : n < 255 → u8_add (N.of_nat n) 1 = N.of_nat (n + 1).
Proof. intros. rewrite wadd_small; [lia|]. change (2 ^ 8)%N with 256%N. lia. Qed.

Lemma loser_ne (ps : N * N) w : ps.1 ≠ ps.2 → w = ps.1 ∨ w = ps.2 → loser_of ps w ≠ w.
Proof. destruct ps as [a b]. unfold loser_of. simpl. intros Hne [->| ->]; case_decide; congruence. Qed.

(** The player is the winner, the loser, one who drew, or none of them. *)
Ltac by_role :=
  repeat (case_decide; simplify_eq); try (exfalso; intuition congruence);
  unfold won, lost, drew, unwon, unlost, undrew, record_for; cbn;
  rewrite ?u8_count by lia; f_equal; lia.

(** Recording a result adds the contribution of the completed pairing. *)
Lemma apply_result_adds R p w pid a l d b :
  (players p).1 ≠ (players p).2 → (∀ x, w = Some x → x = (players p).1 ∨ x = (players p).2) →
  rec_of R pid = record_for pid a l d b → a + b < 255 → l < 255 → d < 255 →
  let q := set_result w p in
  rec_of (apply_match_record_result R (players p) w) pid =
    record_for pid (a + won_in pid q) (l + lost_in pid q) (d + drawn_in pid q) b.
Proof.
  intros Hne Hw Hrec Ha Hl Hd q. unfold q, won_in, lost_in, drawn_in. cbn [winner players set_result pairing_status].
  destruct w as [x|]; cbn [apply_match_record_result]; rewrite !rec_of_ensure, Hrec; [|by_role].
  assert (loser_of (players p) x ≠ x) as Hlx; [|by_role].
  by apply loser_ne, Hw.
Qed.

(** Undoing the result of a completed pairing takes its contribution back. *)
Lemma undo_result_subtracts R p pid a l d b :
  pairing_status p = PairingStatus.Complete → (players p).1 ≠ (players p).2 →
  (∀ x, winner p = Some x → x = (players p).1 ∨ x = (players p).2) →
  rec_of R pid = record_for pid (a + won_in pid p) (l + lost_in pid p) (d + drawn_in pid p) b →
  rec_of (undo_match_record_result R (players p) (winner p)) pid = record_for pid a l d b.
Proof.
  intros Hc Hne Hw Hrec. unfold won_in, lost_in, drawn_in in Hrec. rewrite Hc in Hrec.
  destruct (winner p) as [x|]; cbn [undo_match_record_result];
    rewrite !rec_of_alter, Hrec by done; [|by_role].
  assert (loser_of (players p) x ≠ x) as Hlx; [|by_role].
  by apply loser_ne, Hw.
Qed.

(** ** The tally of an event *)
Definition byes_of (e : PodEvent) (pid : N) : nat :=
  match tournament_format e with
  | TournamentFormat.Swiss =>
      length (filter (λ r, pid ∉ flat (players <$> in_round r (pairings e)))
        (N.of_nat <$> seq 1 (N.to_nat (current_round e))))
  | TournamentFormat.SingleElimination => 0
  end.
Definition records_tally (e : PodEvent) : Prop :=
  ∀ pid, pid ∈ ids e → rec_of (match_records e) pid =
    record_for pid (tally won_in pid (pairings e)) (tally lost_in pid (pairings e))
      (tally drawn_in pid (pairings e)) (byes_of e pid).

Lemma length_rounds ps : Forall (λ p, (1 <= round p <= 3)%N) ps →
  length ps = length (in_round 1 ps) + length (in_round 2 ps) + length (in_round 3 ps).
Proof.
  unfold in_round. induction 1 as [|p ps Hp _ IH]; [done|]. rewrite !filter_cons.
  assert (round p = 1 ∨ round p = 2 ∨ round p = 3)%N as [->|[->| ->]] by lia; simpl; lia.
Qed.
Lemma few_pairings e : event_ok e → length (pairings e) ≤ 12.
Proof.
  intros He. pose proof (ok_bound e He).
  assert (∀ r, (1 <= r)%N → length (in_round r (pairings e)) ≤ 4) as Hr.
  { intros r Hr. destruct (decide (r <= current_round e)%N); [by apply round_tables|].
    rewrite in_round_future by (done || lia). simpl. lia. }
  rewrite length_rounds.
  - pose proof (Hr 1%N). pose proof (Hr 2%N). pose proof (Hr 3%N). lia.
  - eapply Forall_impl; [apply He|]. cbv beta. intros p. lia.
Qed.
Lemma few_byes e pid : event_ok e → byes_of e pid ≤ 3.
Proof.
  intros He. pose proof (ok_bound e He). unfold byes_of. destruct (tournament_format e); [|lia].
  etrans; [apply length_filter|]. rewrite length_fmap, length_seq. lia.
Qed.
Lemma small_tally f pid e : (∀ p, f pid p ≤ 1) → event_ok e → tally f pid (pairings e) ≤ 12.
Proof. intros Hf He. etrans; [by apply tally_le|by apply few_pairings]. Qed.

(** The two players of a pairing are different. *)
Lemma players_distinct e p : event_ok e → p ∈ pairings e → (players p).1 ≠ (players p).2.
Proof.
  intros He Hp. pose proof (ok_range e He) as Hr. rewrite Forall_forall in Hr.
  destruct (ok_rounds e He (round p) (Hr p Hp)) as [_ Hseats].
  assert (NoDup (flat (players <$> in_round (round p) (pairings e)))) as Hnd.
  { unfold seats_players in Hseats. destruct (tournament_format e); [|apply Hseats].
    destruct Hseats as [bye Hb]. pose proof (ok_ids e He) as Hids. rewrite <-Hb in Hids.
    by apply NoDup_app in Hids as [? _]. }
  assert (p ∈ in_round (round p) (pairings e)) as (l1&l2&Heq)%list_elem_of_split
    by by apply in_round_elem.
  rewrite Heq, fmap_app, fmap_cons, flat_pairs_app in Hnd. apply NoDup_app in Hnd as (_&_&Hnd).
  cbn in Hnd. apply NoDup_cons in Hnd as [Hnd _]. intros H. rewrite H in Hnd. apply Hnd. left.
Qed.
Lemma winner_plays e p : event_ok e → p ∈ pairings e →
  ∀ x, winner p = Some x → x = (players p).1 ∨ x = (players p).2.
Proof.
  intros He Hp x Hx. pose proof (ok_results e He) as Hr. rewrite Forall_forall in Hr.
  specialize (Hr p Hp). unfold result_ok in Hr. rewrite Hx in Hr. by destruct (pairing_status p).
Qed.
Lemma open_contributes_nothing e p pid : event_ok e → p ∈ pairings e → ¬ complete p →
  won_in pid p = 0 ∧ lost_in pid p = 0 ∧ drawn_in pid p = 0.
Proof.
  intros He Hp Hc. pose proof (ok_results e He) as Hr. rewrite Forall_forall in Hr.
  specialize (Hr p Hp). unfold result_ok in Hr. unfold complete in Hc.
  assert (winner p = None) as Hw
    by (destruct (pairing_status p), (winner p); first [done|by destruct Hc]).
  unfold won_in, lost_in, drawn_in. rewrite Hw. split_and!; [done..|].
  by rewrite decide_False by naive_solver.
Qed.

(** With the stored winner, the record before a report is the tally of the other results. *)
Lemma previous_taken_back e p pid : event_ok e → p ∈ pairings e →
  rec_of (match_records e) pid = record_for pid (tally won_in pid (pairings e))
    (tally lost_in pid (pairings e)) (tally drawn_in pid (pairings e)) (byes_of e pid) →
  ∃ a l d, rec_of (if bool_decide (complete p)
      then undo_match_record_result (match_records e) (players p) (winner p)
      else match_records e) pid = record_for pid a l d (byes_of e pid) ∧
    a + won_in pid p = tally won_in pid (pairings e) ∧
    l + lost_in pid p = tally lost_in pid (pairings e) ∧
    d + drawn_in pid p = tally drawn_in pid (pairings e).
Proof.
  intros He Hp Htal. case_bool_decide as Hc.
  - pose proof (tally_member won_in pid _ p Hp). pose proof (tally_member lost_in pid _ p Hp).
    pose proof (tally_member drawn_in pid _ p Hp).
    exists (tally won_in pid (pairings e) - won_in pid p), (tally lost_in pid (pairings e) - lost_in pid p),
      (tally drawn_in pid (pairings e) - drawn_in pid p).
    split_and!; [|lia..]. apply undo_result_subtracts; [done| | |rewrite Htal; f_equal; lia].
    + by eapply players_distinct.
    + by eapply winner_plays.
  - destruct (open_contributes_nothing e p pid He Hp Hc) as (->&->&->).
    eexists _, _, _. split; [exact Htal|]. lia.
Qed.

(** ** Steps that keep the tally *)
Section play.
Context {Rng : Type} `{!PodRng Rng} `{!PodRngShuffles Rng}.

(** A report is judged by the stored winner, and not by one inferred from the records. *)
Definition tracked (a : event_action) (e : PodEvent) : Prop :=
  match a with
  | ReportMatchResult mid _ =>
      ∀ p, p ∈ pairings e → match_id p = mid → result_winner p (match_records e) = winner p
  | _ => True
  end.
Definition tracked_step (e e' : PodEvent) : Prop :=
  ∃ a ds, tracked a e ∧ apply_event (Rng := Rng) a e = (Ok ds, e').

Lemma report_keeps_tally e mid ws idx p w : event_ok e → reportable e mid ws idx p w →
  result_winner p (match_records e) = winner p → records_tally e →
  records_tally (after_report idx p w e).
Proof.
  intros He Hrep Htr Htal pid Hpid.
  destruct (after_report_fields idx p w e) as (Hps&Hrec&Hs&Hr&Hf&_).
  pose proof (report_same_tables _ _ _ _ _ _ Hrep) as Hsame.
  assert (ids (after_report idx p w e) = ids e) as Hids by by unfold ids; rewrite Hs.
  rewrite Hids in Hpid. specialize (Htal pid Hpid).
  pose proof (rep_lookup _ _ _ _ _ _ Hrep) as Hidx.
  assert (p ∈ pairings e) as Hp by by eapply list_elem_of_lookup_2.
  pose proof (players_distinct e p He Hp) as Hne. pose proof (winner_plays e p He Hp) as Hw.
  assert (byes_of (after_report idx p w e) pid = byes_of e pid) as ->.
  { unfold byes_of. rewrite Hf, Hr, Hps. destruct (tournament_format e); [|done]. f_equal.
    apply filter_ext_in. intros r _. by rewrite (same_players _ _ (in_round_same r _ _ Hsame)). }
  rewrite Hps, Hrec. unfold recorded. cbn [match_records set_match_records]. rewrite Htr.
  pose proof (tally_insert won_in pid _ _ _ (set_result w p) Hidx) as H1.
  pose proof (tally_insert lost_in pid _ _ _ (set_result w p) Hidx) as H2.
  pose proof (tally_insert drawn_in pid _ _ _ (set_result w p) Hidx) as H3.
  pose proof (small_tally won_in pid e (won_le pid) He). pose proof (few_byes e pid He).
  pose proof (small_tally lost_in pid e (lost_le pid) He).
  pose proof (small_tally drawn_in pid e (drawn_le pid) He).
  destruct (previous_taken_back e p pid He Hp Htal) as (a&l&d&Hbase&Ha&Hl&Hd).
  rewrite (apply_result_adds _ p w pid a l d (byes_of e pid)); [|done|apply Hrep|done|lia..].
  f_equal; lia.
Qed.

(** Byes are those the rounds leave out. *)
Lemma byes_next_round M bye e pid : event_ok e → new_seats e M bye → pid ∈ ids e →
  byes_of (next_round M bye e) pid =
    byes_of e pid + if decide (bye = Some pid) then 1 else 0.
Proof.
  intros He Hnew Hpid. destruct (next_round_fields M bye e) as (_&Hp&Hr&Hf&_).
  unfold byes_of. rewrite Hf, Hp, Hr. unfold new_seats in Hnew. destruct (tournament_format e); cycle 1.
  { destruct Hnew as [-> _]. by rewrite decide_False. }
  replace (N.to_nat (current_round e + 1)) with (N.to_nat (current_round e) + 1) by lia.
  rewrite seq_app, fmap_app, filter_app, length_app. f_equal.
  - f_equal. apply filter_ext_in. intros r (i&->&Hi%elem_of_seq)%list_elem_of_fmap.
    by rewrite in_round_app, seat_tables_in_round, decide_False, app_nil_r by lia.
  - cbn [seq fmap list_fmap].
    replace (N.of_nat (1 + N.to_nat (current_round e))) with (current_round e + 1)%N by lia.
    rewrite filter_cons, in_round_app, seat_tables_in_round.
    rewrite (decide_True (P := (current_round e + 1 = current_round e + 1)%N)) by done.
    rewrite in_round_future by (done || lia). cbn [app]. rewrite seat_tables_players.
    pose proof (ok_ids e He) as Hnd. rewrite <-Hnew in Hpid, Hnd.
    apply NoDup_app in Hnd as (_&Hdis&_). apply elem_of_app in Hpid.
    destruct bye as [x|]; cbn in *.
    + setoid_rewrite list_elem_of_singleton in Hdis. rewrite list_elem_of_singleton in Hpid.
      destruct (decide (x = pid)) as [->|Hne].
      * rewrite !decide_True; [done|done|]. intros Hin. by apply (Hdis pid).
      * rewrite !decide_False; [done|congruence|]. intros Hn. destruct Hpid as [?|?]; congruence.
    + rewrite elem_of_nil in Hpid. rewrite !decide_False; [done|done|]. intros Hn. tauto.
Qed.

Lemma next_round_keeps_tally M bye e : event_ok e → new_seats e M bye → records_tally e →
  records_tally (next_round M bye e).
Proof.
  intros He Hnew Htal pid Hpid.
  destruct (next_round_fields M bye e) as (Hs&Hp&_).
  assert (ids (next_round M bye e) = ids e) as Hids by by unfold ids; rewrite Hs.
  rewrite Hids in Hpid. specialize (Htal pid Hpid). rewrite (byes_next_round M bye e pid He Hnew Hpid).
  assert (∀ f, (∀ p, winner p = None → pairing_status p = PairingStatus.Pending → f pid p = 0) →
    tally f pid (pairings (next_round M bye e)) = tally f pid (pairings e)) as Hold.
  { intros f Hf. rewrite Hp, tally_app. enough (tally f pid (seat_tables (current_round e + 1) M) = 0) by lia.
    assert (∀ p, p ∈ seat_tables (current_round e + 1) M → f pid p = 0) as Hz.
    { intros p [t Ht]%list_elem_of_lookup. destruct (seat_tables_numbered _ _ t p Ht) as (_&_&_&?&?). auto. }
    unfold tally. revert Hz. generalize (seat_tables (current_round e + 1) M). intros ps Hz.
    induction ps as [|p ps IH]; [done|]. simpl. rewrite Hz, IH by (by left || by intros; apply Hz; right). done. }
  rewrite !Hold.
  2:{ intros p Hw Hst. unfold drawn_in. rewrite Hst. by rewrite decide_False by naive_solver. }
  2:{ intros p Hw _. unfold lost_in. by rewrite Hw. }
  2:{ intros p Hw _. unfold won_in. by rewrite Hw. }
  pose proof (small_tally won_in pid e (won_le pid) He). pose proof (few_byes e pid He).
  unfold next_round. destruct bye as [x|]; cbn [match_records set_match_records set_current_round set_status].
  - rewrite rec_of_ensure. cbn. rewrite Htal. destruct (decide (x = pid)) as [->|Hne].
    + rewrite decide_True by done. unfold credit_bye, record_for. cbn. rewrite u8_count by lia.
      f_equal; lia.
    + rewrite decide_False by congruence. f_equal; lia.
  - cbn. by rewrite Htal, Nat.add_0_r.
Qed.

Lemma tracked_step_tally e e' : event_ok e → tracked_step e e' → records_tally e → records_tally e'.
Proof.
  intros He (a&ds&Htr&Ha) Htal. destruct a as [|mid ws|]; simpl in Htr.
  - destruct (decide (may_pair e)) as [Hst|Hst]; [|by rewrite generate_refused in Ha].
    destruct (generate_ok (Rng := Rng) e He Hst) as (M&bye&Hgen&Hnew&_).
    rewrite Hgen in Ha. injection Ha as _ <-. by apply next_round_keeps_tally.
  - destruct (report_cases (Rng := Rng) e mid ws He) as [(er&Her&_)|(idx&p&w&ds'&Hrep&Hok)]; [congruence|].
    rewrite Hok in Ha. injection Ha as _ <-. eapply report_keeps_tally; [done|exact Hrep| |done].
    apply Htr; [eapply list_elem_of_lookup_2, Hrep|apply Hrep].
  - rewrite advance_cases in Ha by done. case_decide; [|done]. injection Ha as _ <-. exact Htal.
Qed.

Lemma start_tally e : event_start e → records_tally e.
Proof.
  intros He pid _. unfold rec_of, tally, byes_of.
  rewrite (start_records e He), (start_pairings e He), (start_round e He), lookup_empty.
  by destruct (tournament_format e).
Qed.
(** A report is not tracked only for a drawn match whose players are not level. *)
Lemma untracked_draw p R : result_winner p R = winner p ↔
  (complete p → winner p = None →
   match_wins_of R (players p).1 = match_wins_of R (players p).2).
Proof.
  unfold result_winner, infer_winner_from_records, complete.
  destruct (winner p) as [w|]; [by split|]. rewrite negb_if.
  case_bool_decide as Hc; [|naive_solver].
  destruct (N.compare_spec (match_wins_of R (players p).1) (match_wins_of R (players p).2));
    split; naive_solver lia.
Qed.

(** The match records tally the results: over any play of an event in which no match
    is reported again while it stands as a draw between players with different numbers
    of match wins, the record of every player counts the matches won, lost and drawn
    among the recorded results, and as match wins those won and the byes, corrections
    included.  (Everything else a report can meet has the stored winner, which is the
    one whose effect is undone.) *)
Theorem records_tally_results (e0 e : PodEvent) :
  event_start e0 → rtc tracked_step e0 e →
  records_tally e ∧
  ∀ p, result_winner p (match_records e) = winner p ↔
    (complete p → winner p = None →
     match_wins_of (match_records e) (players p).1 = match_wins_of (match_records e) (players p).2).
Proof.
  intros H0 Hs. split; [|intros p; apply untracked_draw].
  assert (event_ok e0 ∧ records_tally e0) as Hi by (split; [by apply event_start_ok|by apply start_tally]).
  clear H0. induction Hs as [|e e1 e' Hs _ IH]; [apply Hi|]. apply IH. destruct Hi as [He Ht].
  split; [|by eapply tracked_step_tally]. destruct Hs as (a&ds&_&Ha).
  eapply (event_step_ok (Rng := Rng)); [exact He|by exists a, ds].
Qed.
End play.

(** ** Correcting a drawn match *)
Definition sample_drawn : PodEvent :=
  (apply_event (Rng := FixedRng) (ReportMatchResult "r2-t0" None) sample_second).2.
Definition sample_drawn_again : PodEvent :=
  (apply_event (Rng := FixedRng) (ReportMatchResult "r2-t0" None) sample_drawn).2.

(** Reporting a draw again corrupts the standings.  In a reachable Swiss event a drawn
    match of the current round, between a player with one match win and one with none,
    is reported a second time with the very same result: the report is accepted, the
    pairings do not change, but the first player's match win is gone and both players'
    draws have gone up. *)
Theorem drawn_match_reported_again :
  ∃ e0 e e' p a b, event_start e0 ∧ rtc (event_step (Rng := FixedRng)) e0 e ∧
    p ∈ pairings e ∧ players p = (a, b) ∧ complete p ∧ winner p = None ∧
    (∃ ds, apply_event (Rng := FixedRng) (ReportMatchResult (match_id p) None) e = (Ok ds, e')) ∧
    pairings e' = pairings e ∧
    match_wins_of (match_records e) a = 1%N ∧ match_wins_of (match_records e') a = 0%N ∧
    (draws (rec_of (match_records e) a) < draws (rec_of (match_records e') a))%N ∧
    (draws (rec_of (match_records e) b) < draws (rec_of (match_records e') b))%N.
Proof.
  exists (sample_pod TournamentFormat.Swiss 4), sample_drawn, sample_drawn_again.
  exists (default (set_result None {| round := 0; table := 0; players := (0, 0)%N; match_id := "";
    pairing_status := PairingStatus.Pending; winner := None |}) (pairings sample_drawn !! 2)), 0%N, 2%N.
  split; [apply sample_pod_start|]. split.
  { eapply rtc_r; [exact sample_second_reached|]. exists (ReportMatchResult "r2-t0" None).
    eexists. vm_compute. reflexivity. }
  split; [apply (list_elem_of_lookup_2 _ 2); vm_compute; reflexivity|].
  split; [vm_compute; reflexivity|]. split; [vm_compute; reflexivity|].
  split; [vm_compute; reflexivity|]. split; [eexists; vm_compute; reflexivity|].
  split_and!; vm_compute; reflexivity.
Qed.

(** ** The sample event is tracked *)
Definition trackedb (a : event_action) (e : PodEvent) : bool :=
  match a with
  | ReportMatchResult mid _ =>
      forallb (λ p, negb (String.eqb (match_id p) mid)
        || bool_decide (result_winner p (match_records e) = winner p)) (pairings e)
  | _ => true
  end.
Lemma trackedb_sound a e : trackedb a e = true → tracked a e.
Proof.
  destruct a as [|mid ws|]; try done. simpl. rewrite forallb_forall. intros Hall p Hp <-.
  specialize (Hall p (proj1 (list_elem_of_In _ _) Hp)). rewrite String.eqb_refl in Hall.
  by apply bool_decide_eq_true in Hall.
Qed.
Fixpoint play_tracked (l : list event_action) (e : PodEvent) : option PodEvent :=
  match l with
  | [] => Some e
  | a :: l =>
      if trackedb a e then
        match apply_event (Rng := FixedRng) a e with
        | (Ok _, e) => play_tracked l e
        | _ => None
        end
      else None
  end.
Lemma play_tracked_steps l : ∀ e e', play_tracked l e = Some e' →
  rtc (tracked_step (Rng := FixedRng)) e e'.
Proof.
  induction l as [|a l IH]; intros e e'; simpl; [by intros [= ->]|].
  destruct (trackedb a e) eqn:Ht; [|done].
  destruct (apply_event a e) as [[ds| |] e1] eqn:Ha; try done. intros Hl.
  apply rtc_l with e1; [|by apply IH]. exists a, ds. split; [by apply trackedb_sound|done].
Qed.
Lemma records_tally_results_witness :
  records_tally sample_second ∧ match_wins_of (match_records sample_second) 0 = 1%N.
Proof.
  split; [|vm_compute; reflexivity].
  assert (rtc (tracked_step (Rng := FixedRng)) (sample_pod TournamentFormat.Swiss 4) sample_second)
    as Hs by (apply (play_tracked_steps sample_actions); vm_compute; reflexivity).
  exact (proj1 (records_tally_results (Rng := FixedRng) _ _ sample_pod_start Hs)).
Defined.
