(* ===== verification/Credentials.v ===== *)
(** * Tournament bearer credentials

    The credential part of [lobby-broker/src/tournament.rs] and the injected
    environment of [lobby-broker/src/env.rs]: minting, rotating and replaying a
    secret, the verdict on a presented one, and the length-checked byte
    comparison all of them use. *)
From Stdlib Require Import Ascii String.
From S2P Require Import Prelude.
Local Open Scope N_scope.

(** ** The injected environment

    The trait's methods take [&self] but answer from the outside world (a clock, a
    random source); [World] is the state of that outside world, and each call
    returns the next one.  Nothing is assumed of the answers: theorems that need
    fresh or non-empty tokens say so. *)
Class BrokerEnv (World : Type) : Type := {
  now_ms : World → N * World;
  new_token : World → string * World;
  new_game_code : World → string * World;
}.

(** ** Constants *)
Definition REGISTRATION_TIMEOUT_SECS : N := 300.
Definition IN_PROGRESS_ABANDON_SECS : N := 7 * 24 * 60 * 60.
Definition TERMINAL_RETENTION_SECS : N := 30 * 24 * 60 * 60.
Definition TOURNAMENT_CREDENTIAL_TTL_MS : N := IN_PROGRESS_ABANDON_SECS * 1000.

(** ** Data *)
Inductive TournamentRole := Organizer | Player.
Inductive CredentialVerdict := VAccepted | VExpired | VMismatch.
Record MintedCredential := { minted_secret : string; minted_expires_at_ms : N }.
Inductive RenewOutcome :=
  | Minted (m : MintedCredential)
  | Replayed (m : MintedCredential)
  | OExpired
  | OMismatch.
Inductive RenewKind := Mintable | Replayable | KExpired | KMismatch.
Record RotationRecord := { superseded_secret : string; rotation_nonce : string }.
Record TournamentCredential := {
  secret : string;
  expires_at_ms : N;
  last_rotation : option RotationRecord;
}.

#[export] Instance role_eq_dec : EqDecision TournamentRole.
Proof. solve_decision. Defined.
#[export] Instance verdict_eq_dec : EqDecision CredentialVerdict.
Proof. solve_decision. Defined.
#[export] Instance kind_eq_dec : EqDecision RenewKind.
Proof. solve_decision. Defined.
#[export] Instance minted_eq_dec : EqDecision MintedCredential.
Proof. solve_decision. Defined.
#[export] Instance renew_outcome_eq_dec : EqDecision RenewOutcome.
Proof. solve_decision. Defined.
#[export] Instance rotation_eq_dec : EqDecision RotationRecord.
Proof. solve_decision. Defined.
#[export] Instance credential_eq_dec : EqDecision TournamentCredential.
Proof. solve_decision. Defined.

(** ** The comparison of bytes *)
Definition as_bytes (s : string) : list N := N_of_ascii <$> list_ascii_of_string s.
Definition is_empty (s : string) : bool := String.eqb s EmptyString.

Definition constant_time_eq (a b : list N) : bool :=
  if negb (length a =? length b)%nat then false
  else
    let diff := foldl (λ diff '(x, y), N.lor diff (N.lxor x y)) 0 (zip a b) in
    diff =? 0.

(** ** Operations *)
Definition verdict (self : TournamentCredential) (presented : string) (now : N) :
    CredentialVerdict :=
  if is_empty (secret self) || is_empty presented then VMismatch
  else if negb (constant_time_eq (as_bytes (secret self)) (as_bytes presented)) then VMismatch
  else if expires_at_ms self <=? now then VExpired
  else VAccepted.

Definition accepts (self : TournamentCredential) (presented : string) (now : N) : bool :=
  bool_decide (verdict self presented now = VAccepted).

Definition renew_kind (self : TournamentCredential) (presented nonce : string) (now : N) :
    RenewKind :=
  match verdict self presented now with
  | VAccepted => Mintable
  | VExpired => KExpired
  | VMismatch =>
      match (if is_empty nonce then None else last_rotation self) with
      | Some record =>
          if constant_time_eq (as_bytes (superseded_secret record)) (as_bytes presented)
             && constant_time_eq (as_bytes (rotation_nonce record)) (as_bytes nonce)
          then if expires_at_ms self <=? now then KExpired else Replayable
          else KMismatch
      | None => KMismatch
      end
  end.

(** [impl PartialEq for TournamentCredential]. *)
Definition credential_eqb (self other : TournamentCredential) : bool :=
  (expires_at_ms self =? expires_at_ms other)
  && constant_time_eq (as_bytes (secret self)) (as_bytes (secret other)).

Section env.
Context {World : Type} `{!BrokerEnv World}.

Definition mint (env : World) : (TournamentCredential * MintedCredential) * World :=
  let '(secret, env) := new_token env in
  let '(now, env) := now_ms env in
  let expires_at_ms := u64_add now TOURNAMENT_CREDENTIAL_TTL_MS in
  (({| secret := secret; expires_at_ms := expires_at_ms; last_rotation := None |},
    {| minted_secret := secret; minted_expires_at_ms := expires_at_ms |}), env).

(** Takes [&mut self]: returns the updated credential beside the outcome. *)
Definition renew (self : TournamentCredential) (presented nonce : string) (env : World) :
    RenewOutcome * TournamentCredential * World :=
  let '(now, env) := now_ms env in
  match renew_kind self presented nonce now with
  | Mintable =>
      let '(fresh, env) := new_token env in
      let expires := u64_add now TOURNAMENT_CREDENTIAL_TTL_MS in
      let superseded := secret self in
      (Minted {| minted_secret := fresh; minted_expires_at_ms := expires |},
       {| secret := fresh;
          expires_at_ms := expires;
          last_rotation :=
            if is_empty nonce then None
            else Some {| superseded_secret := superseded; rotation_nonce := nonce |} |},
       env)
  | Replayable =>
      (Replayed {| minted_secret := secret self; minted_expires_at_ms := expires_at_ms self |},
       self, env)
  | KExpired => (OExpired, self, env)
  | KMismatch => (OMismatch, self, env)
  end.
End env.

(** ** The comparison decides equality *)
Lemma lor_fold_zero (l : list (N * N)) d :
  foldl (λ diff '(x, y), N.lor diff (N.lxor x y)) d l = 0 ↔
  d = 0 ∧ Forall (λ '(x, y), x = y) l.
Proof.
  revert d. induction l as [|[x y] l IH]; intros d; simpl.
  - rewrite Forall_nil. tauto.
  - rewrite IH, Forall_cons, N.lor_eq_0_iff, N.lxor_eq_0_iff. tauto.
Qed.

Lemma zip_pointwise_eq {A} (a b : list A) :
  length a = length b → Forall (λ '(x, y), x = y) (zip a b) ↔ a = b.
Proof.
  revert b. induction a as [|x a IH]; intros [|y b] Hlen; simplify_eq/=; [done|].
  rewrite Forall_cons, IH by lia. naive_solver.
Qed.

Lemma constant_time_eq_true a b : constant_time_eq a b = true ↔ a = b.
Proof.
  unfold constant_time_eq. destruct (length a =? length b)%nat eqn:E; simpl; breflect.
  - rewrite N.eqb_eq, lor_fold_zero, zip_pointwise_eq by done. tauto.
  - split; [done|]. by intros ->.
Qed.

#[local] Instance N_of_ascii_inj : Inj (=) (=) N_of_ascii.
Proof. intros x y H. by rewrite <-(ascii_N_embedding x), H, ascii_N_embedding. Qed.

Lemma as_bytes_inj s t : as_bytes s = as_bytes t ↔ s = t.
Proof.
  unfold as_bytes. split; [|by intros ->]. intros H.
  apply (inj (fmap N_of_ascii)) in H.
  rewrite <-(string_of_list_ascii_of_string s), H.
  apply string_of_list_ascii_of_string.
Qed.

Lemma bytes_eq_true s t : constant_time_eq (as_bytes s) (as_bytes t) = true ↔ s = t.
Proof. by rewrite constant_time_eq_true, as_bytes_inj. Qed.
Lemma bytes_eq_decide s t :
  constant_time_eq (as_bytes s) (as_bytes t) = bool_decide (s = t).
Proof.
  destruct (bool_decide_reflect (s = t)) as [->|Hne]; [by apply bytes_eq_true|].
  apply not_true_iff_false. by rewrite bytes_eq_true.
Qed.
Lemma is_empty_true s : is_empty s = true ↔ s = EmptyString.
Proof. apply String.eqb_eq. Qed.
Lemma is_empty_false s : is_empty s = false ↔ s ≠ EmptyString.
Proof. apply String.eqb_neq. Qed.

(** Two credentials compare equal, by the branch-free byte comparison that folds
    the differences of all bytes into one, exactly when their secrets and their
    expiry instants are equal; the record of the last rotation plays no part. *)
Theorem credential_eqb_spec (a b : TournamentCredential) :
  credential_eqb a b = true ↔ secret a = secret b ∧ expires_at_ms a = expires_at_ms b.
Proof.
  unfold credential_eqb. rewrite andb_true_iff, N.eqb_eq, bytes_eq_true. tauto.
Qed.

(** ** What a presented secret can do *)
Lemma verdict_accepted c p now :
  verdict c p now = VAccepted ↔ p = secret c ∧ p ≠ EmptyString ∧ now < expires_at_ms c.
Proof.
  unfold verdict. rewrite bytes_eq_decide.
  destruct (is_empty (secret c)) eqn:E1; simpl.
  { apply is_empty_true in E1. split; [done|]. rewrite E1. naive_solver. }
  destruct (is_empty p) eqn:E2; simpl.
  { apply is_empty_true in E2. naive_solver. }
  apply is_empty_false in E1, E2. case_bool_decide; simpl; [|naive_solver].
  destruct (N.leb_spec (expires_at_ms c) now); naive_solver lia.
Qed.
Lemma verdict_other c p now : p ≠ secret c → verdict c p now = VMismatch.
Proof.
  intros Hp. unfold verdict. rewrite bytes_eq_decide, bool_decide_eq_false_2 by congruence.
  by destruct (_ || _).
Qed.

(** The pair that replays the last rotation. *)
Definition replays (c : TournamentCredential) (p n : string) : Prop :=
  n ≠ EmptyString ∧
  last_rotation c = Some {| superseded_secret := p; rotation_nonce := n |}.

Lemma renew_kind_other c p n now :
  p ≠ secret c →
  (renew_kind c p n now = KMismatch ∧ ¬ replays c p n) ∨
  (replays c p n ∧
   renew_kind c p n now = if expires_at_ms c <=? now then KExpired else Replayable).
Proof.
  intros Hp. unfold renew_kind, replays. rewrite verdict_other by done.
  destruct (is_empty n) eqn:En.
  { apply is_empty_true in En. left. naive_solver. }
  apply is_empty_false in En.
  destruct (last_rotation c) as [[q k]|]; [|naive_solver]. simpl.
  rewrite !bytes_eq_decide. repeat case_bool_decide; simpl; naive_solver.
Qed.

Lemma renew_kind_mintable c p n now :
  renew_kind c p n now = Mintable ↔ verdict c p now = VAccepted.
Proof.
  destruct (decide (p = secret c)) as [->|Hp].
  - unfold renew_kind. destruct (verdict c (secret c) now) eqn:E; [naive_solver..|].
    split; [|done]. destruct (if is_empty n then _ else _); [|done].
    by repeat case_match.
  - rewrite verdict_other by done. split; [|done].
    destruct (renew_kind_other c p n now Hp) as [[->_]|[_ ->]]; [done|].
    by destruct (_ <=? _).
Qed.

Section renewals.
Context {World : Type} `{!BrokerEnv World}.
Implicit Types (c : TournamentCredential) (env : World).

(** A sequence of renewal requests against one credential. *)
Fixpoint renew_all c (reqs : list (string * string)) env :
    list RenewOutcome * TournamentCredential * World :=
  match reqs with
  | [] => ([], c, env)
  | (p, n) :: reqs' =>
      let '(o, c', env') := renew c p n env in
      let '(os, c'', env'') := renew_all c' reqs' env' in
      (o :: os, c'', env'')
  end.

(** A renewal that does not present the current secret. *)
Lemma renew_other c p n env :
  p ≠ secret c →
  ∃ o, renew c p n env = (o, c, (now_ms env).2) ∧
    match o with
    | Minted _ => False
    | Replayed m =>
        replays c p n ∧ minted_secret m = secret c ∧
        minted_expires_at_ms m = expires_at_ms c ∧ (now_ms env).1 < expires_at_ms c
    | OExpired => replays c p n ∧ expires_at_ms c <= (now_ms env).1
    | OMismatch => ¬ replays c p n
    end.
Proof.
  intros Hp. unfold renew. destruct (now_ms env) as [now env']. simpl.
  destruct (renew_kind_other c p n now Hp) as [[-> Hr]|[Hr ->]]; [by eauto|].
  destruct (N.leb_spec (expires_at_ms c) now); eexists; (split; [reflexivity|]); simpl; auto.
Qed.

(** A renewal that mints. *)
Lemma renew_mints c p n env m c' env' :
  renew c p n env = (Minted m, c', env') →
  p = secret c ∧ p ≠ EmptyString ∧ (now_ms env).1 < expires_at_ms c ∧
  secret c' = minted_secret m ∧ expires_at_ms c' = minted_expires_at_ms m ∧
  last_rotation c' =
    (if is_empty n then None else Some {| superseded_secret := p; rotation_nonce := n |}) ∧
  minted_secret m = (new_token (now_ms env).2).1.
Proof.
  unfold renew. destruct (now_ms env) as [now env1]. simpl.
  destruct (renew_kind c p n now) eqn:Hk; [|done..].
  apply renew_kind_mintable, verdict_accepted in Hk as (->&?&?).
  destruct (new_token env1) as [tok env2]. by intros [= <- <- <-].
Qed.

(** Whoever does not hold the current secret cannot take a credential over: any
    sequence of renewal requests, none of which presents the current secret, leaves
    the credential exactly as it was and mints nothing; what such a sequence may get
    back is the current secret, and only for a pair of superseded secret and
    non-empty nonce that is the very pair recorded by the last rotation. *)
Theorem takeover_safety c (reqs : list (string * string)) env :
  Forall (λ req, req.1 ≠ secret c) reqs →
  (renew_all c reqs env).1.2 = c ∧
  Forall2 (λ req o,
    match o with
    | Minted _ => False
    | Replayed m =>
        req.2 ≠ EmptyString ∧
        last_rotation c =
          Some {| superseded_secret := req.1; rotation_nonce := req.2 |} ∧
        minted_secret m = secret c
    | _ => True
    end) reqs (renew_all c reqs env).1.1.
Proof.
  intros Hreqs. revert env. induction Hreqs as [|[p n] reqs Hp _ IH]; intros env; simpl.
  { split; [done|constructor]. }
  destruct (renew_other c p n env Hp) as (o&->&Ho).
  specialize (IH (now_ms env).2). destruct (renew_all _ _ _) as [[os c'] env']. simpl in *.
  destruct IH as [-> IH]. split; [done|]. constructor; [|done].
  destruct o; [done| |done..]. destruct Ho as ([??]&?&_). naive_solver.
Qed.

(** A rotation whose reply was lost can be recovered and is not repeated: after a
    renewal with a non-empty nonce has minted a secret, presenting the superseded
    secret with the same nonce before the expiry returns the secret already minted and
    changes nothing, while any other nonce (the empty one included) is refused. *)
Theorem lost_reply_replays c p n env m c' env1 :
  renew c p n env = (Minted m, c', env1) →
  n ≠ EmptyString →
  minted_secret m ≠ p →
  ∀ env2,
    ((now_ms env2).1 < minted_expires_at_ms m →
     renew c' p n env2 = (Replayed m, c', (now_ms env2).2)) ∧
    ∀ n', n' ≠ n → renew c' p n' env2 = (OMismatch, c', (now_ms env2).2).
Proof.
  intros (->&Hp&_&Hs&He&Hr&_)%renew_mints Hn Hfresh env2.
  assert (secret c ≠ secret c') as Hne by congruence.
  apply is_empty_false in Hn as Hn'. rewrite Hn' in Hr.
  assert (replays c' (secret c) n) as Hrep by done.
  split.
  - intros Hlt. destruct (renew_other c' (secret c) n env2 Hne) as (o&->&Ho).
    destruct o as [|m'| |]; [done| |lia|done].
    destruct Ho as (_&?&?&_). do 3 f_equal. destruct m, m'; simpl in *; congruence.
  - intros n' Hne'. destruct (renew_other c' (secret c) n' env2 Hne) as (o&->&Ho).
    unfold replays in Ho. rewrite Hr in Ho. destruct o; naive_solver.
Qed.
End renewals.

(** ** A concrete environment *)

(** A clock reading and a token counter. *)
Record CounterEnv := { clock : N; counter : N }.
#[export] Instance counter_env : BrokerEnv CounterEnv := {
  now_ms env := (clock env, env);
  new_token env :=
    (("token-" +:+ pretty.pretty (counter env))%string,
     {| clock := clock env; counter := counter env + 1 |});
  new_game_code env :=
    (("GAME" +:+ pretty.pretty (counter env))%string,
     {| clock := clock env; counter := counter env + 1 |});
}.

Definition sample_credential : TournamentCredential :=
  {| secret := "new"; expires_at_ms := 1000;
     last_rotation := Some {| superseded_secret := "old"; rotation_nonce := "nonce" |} |}.

Lemma takeover_safety_witness :
  (renew_all sample_credential [("old", ""); ("old", "other"); ("old", "nonce")]%string
     {| clock := 5; counter := 0 |}).1.2 = sample_credential.
Proof.
  apply (takeover_safety sample_credential
    [("old", ""); ("old", "other"); ("old", "nonce")]%string {| clock := 5; counter := 0 |}).
  repeat constructor; simpl; discriminate.
Defined.

Lemma lost_reply_replays_witness :
  ∃ m c' env1,
    renew sample_credential "new" "again" {| clock := 5; counter := 0 |} = (Minted m, c', env1) ∧
    renew c' "new" "again" {| clock := 6; counter := 9 |} =
      (Replayed m, c', {| clock := 6; counter := 9 |}).
Proof.
  eexists _, _, _. split; [vm_compute; reflexivity|].
  refine (proj1 (lost_reply_replays sample_credential "new" "again"
    {| clock := 5; counter := 0 |} _ _ _ _ _ _ {| clock := 6; counter := 9 |}) _);
    first [reflexivity | discriminate].
Defined.
