(* ===== verification/TournamentTypes.v ===== *)
(** * Tournaments: data, gates and round counts

    The types of [lobby-broker/src/tournament.rs]: pod sizes and scoring with their
    validated constructors, statuses and action gates, pairings and their outcomes,
    the tournament record [TournamentMeta] with its derived queries, and the default
    round count.  Players are identified by their string key, error messages are the
    constructors of [TError]. *)
From Stdlib Require Import Ascii String.
From S2P Require Import Prelude.
From S2P Require Import Seats.
From S2P Require Import Credentials.
Local Open Scope N_scope.

(** ** Errors: one constructor per message *)
Inductive TError :=
  | ArityTooSmall (n : N)
  | ArityTooLarge (n : N)
  | ZeroWinPoints
  | TournamentNotFound
  | CodeInUse
  | SingleEliminationNotHeadToHead
  | ZeroTotalRounds
  | Bo3NotHeadToHead
  | NotAcceptingEntries
  | AlreadyJoined
  | CredentialExpired
  | InvalidToken
  | PlayerHasDropped
  | NotRunning
  | AlreadyFinished
  | NotStarted
  | RoundCeiling (total_rounds current_round : N)
  | UnresolvedPairing (id round : N)
  | PairingNotFound (id : N)
  | NotServerHosted (id : N)
  | ServerHosted (id : N)
  | PairingIsBye (id : N)
  | PairingIsForfeit (id : N)
  | NotHostable (id : N)
  | DrawnElimination (id : N)
  | PlayerNotIn
  | WinnerNotInPod
  | WinnerDropped
  | Bo3NotPair
  | Bo3Keys
  | Bo3Tally (wa wb : N)
  | Bo3Winner
  | SingleGameHasTally
  | BracketSize (n : nat)
  | BracketDecided
  | NoWinnerYet (id : N).

(** ** Pod sizes *)
Record MatchArity := { arity_value : N }.
#[export] Instance arity_eq_dec : EqDecision MatchArity.
Proof. solve_decision. Defined.

Definition HEAD_TO_HEAD : MatchArity := {| arity_value := 2 |}.
Definition COMMANDER_POD : MatchArity := {| arity_value := 4 |}.

Definition arity_new (n : N) : outcome TError MatchArity :=
  if n <? 2 then Err (ArityTooSmall n)
  else if 128 <? n then Err (ArityTooLarge n)
  else Ok {| arity_value := n |}.
(** [get] as a [usize]. *)
Definition seats_of (arity : MatchArity) : nat := N.to_nat (arity_value arity).
Definition short_pod_size (arity : MatchArity) : N := u8_sub (arity_value arity) 1.
(** [TryFrom<u8>] and [From<MatchArity> for u8], the wire form of the type. *)
Definition arity_try_from (n : N) : outcome TError MatchArity := arity_new n.
Definition arity_into (arity : MatchArity) : N := arity_value arity.

Definition arity_wf (arity : MatchArity) : Prop :=
  2 <= arity_value arity ∧ arity_value arity <= 128.

(** ** Scoring *)
Record ScoringPolicy := { win_points : N; draw_points : N; loss_points : N }.
Record RawScoringPolicy := { raw_win_points : N; raw_draw_points : N; raw_loss_points : N }.

Definition scoring_new (win draw loss : N) : outcome TError ScoringPolicy :=
  if win =? 0 then Err ZeroWinPoints
  else Ok {| win_points := win; draw_points := draw; loss_points := loss |}.
(** [2 * n - 1] in [u16], then the checked conversion to [u8] whose failure is a panic. *)
Definition scoring_default_for_arity (arity : MatchArity) : outcome TError ScoringPolicy :=
  let wide := wsub 16 (wmul 16 2 (arity_value arity)) 1 in
  if wide <? 2 ^ 8
  then Ok {| win_points := wide; draw_points := 1; loss_points := 0 |}
  else Panic.
Definition scoring_try_from (raw : RawScoringPolicy) : outcome TError ScoringPolicy :=
  scoring_new (raw_win_points raw) (raw_draw_points raw) (raw_loss_points raw).
Definition scoring_into (policy : ScoringPolicy) : RawScoringPolicy :=
  {| raw_win_points := win_points policy; raw_draw_points := draw_points policy;
     raw_loss_points := loss_points policy |}.

Definition scoring_wf (policy : ScoringPolicy) : Prop :=
  0 < win_points policy ∧ win_points policy < 2 ^ 8 ∧
  draw_points policy < 2 ^ 8 ∧ loss_points policy < 2 ^ 8.

(** ** Statuses, actions and gates *)
Inductive TournamentStatus := Registration | InProgress | Completed | Abandoned.
#[export] Instance status_eq_dec : EqDecision TournamentStatus.
Proof. solve_decision. Defined.
Definition is_terminal (status : TournamentStatus) : bool :=
  match status with
  | Registration | InProgress => false
  | Completed | Abandoned => true
  end.

Inductive TournamentAction := StartRound | EndTournament | Drop.
#[export] Instance action_eq_dec : EqDecision TournamentAction.
Proof. solve_decision. Defined.

Inductive ReportGate := GateOpen | GateNotRunning | GateBye | GateForfeit | GateHosted.
#[export] Instance gate_eq_dec : EqDecision ReportGate.
Proof. solve_decision. Defined.
Inductive ReportAuthority := SeatedPlayer | System.
#[export] Instance authority_eq_dec : EqDecision ReportAuthority.
Proof. solve_decision. Defined.

Record HostedMatch := { generation : N }.

Inductive BracketShape := Swiss | SingleElimination.
#[export] Instance bracket_eq_dec : EqDecision BracketShape.
Proof. solve_decision. Defined.

Inductive MatchType := Bo1 | Bo3.
#[export] Instance match_type_eq_dec : EqDecision MatchType.
Proof. solve_decision. Defined.

(** ** Pairings and outcomes *)
Abbreviation PairingId := N (only parsing).

Inductive PodOutcome :=
  | Decisive (winner : string) (game_wins : gmap string N)
  | Draw.
Inductive PairingOutcome :=
  | Bye
  | Forfeit (winner : string)
  | Reported (result : PodOutcome).
#[export] Instance pod_outcome_eq_dec : EqDecision PodOutcome.
Proof. solve_decision. Defined.
#[export] Instance pairing_outcome_eq_dec : EqDecision PairingOutcome.
Proof. solve_decision. Defined.

Record TournamentPairing := {
  id : PairingId;
  round : N;
  pairing_players : list string;
  pairing_outcome : option PairingOutcome;
}.
#[export] Instance pairing_eq_dec : EqDecision TournamentPairing.
Proof. solve_decision. Defined.

Definition with_outcome (o : option PairingOutcome) (p : TournamentPairing) :
    TournamentPairing :=
  {| id := id p; round := round p; pairing_players := pairing_players p;
     pairing_outcome := o |}.

Definition pairing_winner (p : TournamentPairing) : option string :=
  match pairing_outcome p with
  | Some Bye => head (pairing_players p)
  | Some (Forfeit winner) => Some winner
  | Some (Reported (Decisive winner _)) => Some winner
  | Some (Reported Draw) | None => None
  end.

Definition pairing_seats (p : TournamentPairing) (player_key : string) : bool :=
  existsb (String.eqb player_key) (pairing_players p).

Definition had_bye (player_key : string) (pairings : list TournamentPairing) : bool :=
  existsb (λ p,
    (length (pairing_players p) =? 1)%nat
    && bool_decide (head (pairing_players p) = Some player_key)
    && bool_decide (pairing_outcome p = Some Bye)) pairings.

Definition had_short_pod (player_key : string) (arity : MatchArity)
    (pairings : list TournamentPairing) : bool :=
  let short := N.to_nat (short_pod_size arity) in
  if (short <? 2)%nat then false
  else existsb (λ p,
    (length (pairing_players p) =? short)%nat && pairing_seats p player_key) pairings.

(** Every player this one has been seated with. *)
Definition prior_opponents (player_key : string) (pairings : list TournamentPairing) :
    gset string :=
  foldr (λ p out,
    if pairing_seats p player_key
    then list_to_set (filter (λ k, k ≠ player_key) (pairing_players p)) ∪ out
    else out) ∅ pairings.

(** ** Players, requests and the tournament record *)
Record TournamentPlayer := {
  player_key : string;
  player_token : TournamentCredential;
  display_name : string;
  dropped : bool;
}.
#[export] Instance player_eq_dec : EqDecision TournamentPlayer.
Proof. solve_decision. Defined.
Definition with_token (c : TournamentCredential) (p : TournamentPlayer) : TournamentPlayer :=
  {| player_key := player_key p; player_token := c; display_name := display_name p;
     dropped := dropped p |}.
Definition mark_dropped (p : TournamentPlayer) : TournamentPlayer :=
  {| player_key := player_key p; player_token := player_token p;
     display_name := display_name p; dropped := true |}.

Definition default_match_type (arity : MatchArity) : MatchType :=
  if decide (arity = HEAD_TO_HEAD) then Bo3 else Bo1.

Record CreateTournamentRequest := {
  req_name : string;
  req_arity : MatchArity;
  req_scoring : ScoringPolicy;
  req_bracket : BracketShape;
  req_total_rounds : option N;
  req_plus_rounds : option N;
  req_format : option GameFormat;
  req_match_type : option MatchType;
}.

Record TournamentMeta := {
  code : string;
  name : string;
  organizer_token : TournamentCredential;
  arity : MatchArity;
  scoring : ScoringPolicy;
  bracket : BracketShape;
  total_rounds_override : option N;
  resolved_total_rounds : option N;
  plus_rounds : option N;
  event_format : option GameFormat;
  match_type : MatchType;
  current_round : N;
  status : TournamentStatus;
  players : list TournamentPlayer;
  pairings : list TournamentPairing;
  hosted : gmap PairingId HostedMatch;
  created_at : N;
  last_activity_at : N;
}.

(** The assignments the handlers make, one per group of fields written together. *)
Definition set_organizer_token (c : TournamentCredential) (m : TournamentMeta) :=
  {| code := code m; name := name m; organizer_token := c; arity := arity m;
     scoring := scoring m; bracket := bracket m;
     total_rounds_override := total_rounds_override m;
     resolved_total_rounds := resolved_total_rounds m; plus_rounds := plus_rounds m;
     event_format := event_format m; match_type := match_type m;
     current_round := current_round m; status := status m; players := players m;
     pairings := pairings m; hosted := hosted m; created_at := created_at m;
     last_activity_at := last_activity_at m |}.
Definition set_players (ps : list TournamentPlayer) (m : TournamentMeta) :=
  {| code := code m; name := name m; organizer_token := organizer_token m;
     arity := arity m; scoring := scoring m; bracket := bracket m;
     total_rounds_override := total_rounds_override m;
     resolved_total_rounds := resolved_total_rounds m; plus_rounds := plus_rounds m;
     event_format := event_format m; match_type := match_type m;
     current_round := current_round m; status := status m; players := ps;
     pairings := pairings m; hosted := hosted m; created_at := created_at m;
     last_activity_at := last_activity_at m |}.
Definition set_pairings (ps : list TournamentPairing) (m : TournamentMeta) :=
  {| code := code m; name := name m; organizer_token := organizer_token m;
     arity := arity m; scoring := scoring m; bracket := bracket m;
     total_rounds_override := total_rounds_override m;
     resolved_total_rounds := resolved_total_rounds m; plus_rounds := plus_rounds m;
     event_format := event_format m; match_type := match_type m;
     current_round := current_round m; status := status m; players := players m;
     pairings := ps; hosted := hosted m; created_at := created_at m;
     last_activity_at := last_activity_at m |}.
Definition set_schedule (resolved : option N) (round : N) (m : TournamentMeta) :=
  {| code := code m; name := name m; organizer_token := organizer_token m;
     arity := arity m; scoring := scoring m; bracket := bracket m;
     total_rounds_override := total_rounds_override m;
     resolved_total_rounds := resolved; plus_rounds := plus_rounds m;
     event_format := event_format m; match_type := match_type m;
     current_round := round; status := status m; players := players m;
     pairings := pairings m; hosted := hosted m; created_at := created_at m;
     last_activity_at := last_activity_at m |}.
Definition set_hosted (h : gmap PairingId HostedMatch) (m : TournamentMeta) :=
  {| code := code m; name := name m; organizer_token := organizer_token m;
     arity := arity m; scoring := scoring m; bracket := bracket m;
     total_rounds_override := total_rounds_override m;
     resolved_total_rounds := resolved_total_rounds m; plus_rounds := plus_rounds m;
     event_format := event_format m; match_type := match_type m;
     current_round := current_round m; status := status m; players := players m;
     pairings := pairings m; hosted := h; created_at := created_at m;
     last_activity_at := last_activity_at m |}.
Definition set_status (st : TournamentStatus) (m : TournamentMeta) :=
  {| code := code m; name := name m; organizer_token := organizer_token m;
     arity := arity m; scoring := scoring m; bracket := bracket m;
     total_rounds_override := total_rounds_override m;
     resolved_total_rounds := resolved_total_rounds m; plus_rounds := plus_rounds m;
     event_format := event_format m; match_type := match_type m;
     current_round := current_round m; status := st; players := players m;
     pairings := pairings m; hosted := hosted m; created_at := created_at m;
     last_activity_at := last_activity_at m |}.
Definition touch (now : N) (m : TournamentMeta) :=
  {| code := code m; name := name m; organizer_token := organizer_token m;
     arity := arity m; scoring := scoring m; bracket := bracket m;
     total_rounds_override := total_rounds_override m;
     resolved_total_rounds := resolved_total_rounds m; plus_rounds := plus_rounds m;
     event_format := event_format m; match_type := match_type m;
     current_round := current_round m; status := status m; players := players m;
     pairings := pairings m; hosted := hosted m; created_at := created_at m;
     last_activity_at := now |}.

(** ** Round counts *)

(** [u64::next_power_of_two] and [trailing_zeros]. *)
Definition next_power_of_two (n : N) : N := if n <=? 1 then 1 else 2 ^ N.log2_up n.
Fixpoint pos_trailing_zeros (p : positive) : N :=
  match p with
  | xO q => 1 + pos_trailing_zeros q
  | _ => 0
  end.
Definition trailing_zeros (n : N) : N :=
  match n with N0 => 64 | Npos p => pos_trailing_zeros p end.

(** [while (1u64 << rounds) < target { rounds += 1 }]: the fuel bounds the passes. *)
Fixpoint doubling_rounds (fuel : nat) (target rounds : N) : option N :=
  match fuel with
  | O => None
  | S fuel =>
      if wrap 64 (N.shiftl 1 rounds) <? target
      then doubling_rounds fuel target (u32_add rounds 1)
      else Some rounds
  end.
(** Sixty-four passes are enough for every [u32] field ([doubling_rounds_log2]). *)
Definition doubling_fuel : nat := 64.

Definition default_total_rounds (bracket : BracketShape) (arity : MatchArity)
    (player_count : N) : N :=
  match bracket with
  | SingleElimination => trailing_zeros (next_power_of_two player_count)
  | Swiss =>
      if decide (arity = HEAD_TO_HEAD)
      then default 0 (doubling_rounds doubling_fuel (N.max player_count 8) 0)
      else if player_count <=? 16 then 2
      else if player_count <=? 24 then 3
      else if player_count <=? 32 then 4
      else 5
  end.

(** [u32::saturating_add]. *)
Definition u32_saturating_add (a b : N) : N := N.min (a + b) (2 ^ 32 - 1).

(** ** Queries of the record *)
Definition active_players (m : TournamentMeta) : list TournamentPlayer :=
  filter (λ p, dropped p = false) (players m).
Definition active_player_count (m : TournamentMeta) : N :=
  wrap 32 (N.of_nat (length (active_players m))).

Definition total_rounds (m : TournamentMeta) : N :=
  match total_rounds_override m with
  | Some r => r
  | None =>
      match resolved_total_rounds m with
      | Some r => r
      | None =>
          u32_saturating_add
            (default_total_rounds (bracket m) (arity m) (active_player_count m))
            (default 0 (plus_rounds m))
      end
  end.

Definition find_player (m : TournamentMeta) (key : string) : option TournamentPlayer :=
  find_first (λ p, String.eqb (player_key p) key) (players m).
Definition find_pairing (m : TournamentMeta) (pid : PairingId) : option TournamentPairing :=
  find_first (λ p, id p =? pid) (pairings m).
Definition is_pending (p : TournamentPairing) : bool := bool_decide (pairing_outcome p = None).
Definition first_unresolved_pairing (m : TournamentMeta) : option TournamentPairing :=
  find_first is_pending (pairings m).

(** A [BTreeSet] of actions, in the derived order. *)
Definition open_actions (m : TournamentMeta) : list TournamentAction :=
  if is_terminal (status m) then []
  else if decide (status m = Registration) then [StartRound; Drop]
  else [StartRound; EndTournament; Drop].
Definition admits (m : TournamentMeta) (a : TournamentAction) : bool :=
  bool_decide (a ∈ open_actions m).

Definition is_hosted_eligible (m : TournamentMeta) (p : TournamentPairing) : bool :=
  bool_decide (bracket m = Swiss) && bool_decide (arity m = HEAD_TO_HEAD)
  && bool_decide (match_type m = Bo3) && (length (pairing_players p) =? 2)%nat.

Definition report_gate (m : TournamentMeta) (p : TournamentPairing) : ReportGate :=
  if is_terminal (status m) then GateNotRunning
  else match pairing_outcome p with
  | Some Bye => GateBye
  | Some (Forfeit _) => GateForfeit
  | Some (Reported _) | None =>
      if bool_decide (is_Some (hosted m !! id p)) then GateHosted else GateOpen
  end.

(** ** Lemmas: validated constructors *)
Lemma arity_new_ok n a :
  arity_new n = Ok a ↔ 2 <= n ∧ n <= 128 ∧ a = {| arity_value := n |}.
Proof.
  unfold arity_new. destruct (N.ltb_spec n 2), (N.ltb_spec 128 n); split; naive_solver lia.
Qed.
Lemma short_pod_size_wf a : arity_wf a → short_pod_size a = arity_value a - 1.
Proof.
  intros [??]. unfold short_pod_size. apply wsub_small; [lia|].
  change (2 ^ 8) with 256. lia.
Qed.
Lemma seats_of_wf a : arity_wf a → (2 <= seats_of a)%nat.
Proof. unfold seats_of. intros [??]. lia. Qed.
Lemma scoring_default_ok a :
  arity_wf a →
  scoring_default_for_arity a =
    Ok {| win_points := 2 * arity_value a - 1; draw_points := 1; loss_points := 0 |}.
Proof.
  intros [H1 H2]. unfold scoring_default_for_arity.
  rewrite wmul_small by (change (2 ^ 16) with 65536; lia).
  rewrite wsub_small by (change (2 ^ 16) with 65536; lia).
  by rewrite (proj2 (N.ltb_lt _ _)) by (change (2 ^ 8) with 256; lia).
Qed.

(** C38. The validated constructor accepts exactly the pod sizes 2 to 128, what it
    accepts survives the wire form unchanged, and for every pod size it accepts the
    default scoring is computed without panicking, is itself a valid policy, survives
    its own wire form, and gives [2n - 1] points for a win: the largest size is the
    largest whose win points fit a byte. *)
Theorem arity_and_scoring_validated (n : N) :
  match arity_new n with
  | Ok a =>
      2 <= n <= 128 ∧ arity_into a = n ∧ arity_try_from (arity_into a) = Ok a ∧
      ∃ policy, scoring_default_for_arity a = Ok policy ∧ scoring_wf policy ∧
        win_points policy = 2 * n - 1 ∧
        scoring_try_from (scoring_into policy) = Ok policy
  | Err _ => n < 2 ∨ 2 ^ 8 <= 2 * n - 1
  | Panic => False
  end.
Proof.
  destruct (arity_new n) as [a|e|] eqn:E.
  - pose proof E as (?&?&->)%arity_new_ok. split_and!; [done..|].
    eexists. split; [by apply scoring_default_ok|]. simpl. split_and!; [|done|].
    + unfold scoring_wf. simpl. lia.
    + unfold scoring_try_from, scoring_new. simpl.
      by rewrite (proj2 (N.eqb_neq _ _)) by lia.
  - unfold arity_new in E.
    destruct (N.ltb_spec n 2); [by left|]. destruct (N.ltb_spec 128 n); [|done].
    right. change (2 ^ 8) with 256. lia.
  - unfold arity_new in E. by repeat case_match.
Qed.

(** ** Lemmas: round counts *)
Lemma trailing_zeros_pow2 k : trailing_zeros (2 ^ k) = k.
Proof.
  induction k as [|k IH] using N.peano_ind; [done|].
  rewrite N.pow_succ_r'. destruct (2 ^ k) as [|p] eqn:E.
  { by apply N.pow_nonzero in E. }
  change (1 + pos_trailing_zeros p = N.succ k).
  change (pos_trailing_zeros p = k) in IH. lia.
Qed.

Lemma doubling_rounds_log2 fuel target r :
  1 < target → target <= 2 ^ 32 → r <= N.log2_up target →
  (N.to_nat (N.log2_up target - r) < fuel)%nat →
  doubling_rounds fuel target r = Some (N.log2_up target).
Proof.
  intros Ht1 Ht2. revert r. induction fuel as [|fuel IH]; intros r Hr Hf; [lia|]. simpl.
  assert (N.log2_up target <= 32) as Hl.
  { etrans; [by apply N.log2_up_le_mono|]. by rewrite N.log2_up_pow2 by lia. }
  rewrite N.shiftl_1_l, wrap_small by (apply N.pow_lt_mono_r; lia).
  destruct (N.ltb_spec (2 ^ r) target) as [Hlt|Hge].
  - assert (r < N.log2_up target) by (apply N.log2_up_lt_pow2; lia).
    rewrite wadd_small by (change (2 ^ 32) with 4294967296 in *; lia).
    apply IH; lia.
  - f_equal. apply N.le_antisymm; [done|]. apply N.log2_up_le_pow2; lia.
Qed.

Lemma swiss_rounds_log2 n :
  n < 2 ^ 32 →
  doubling_rounds doubling_fuel (N.max n 8) 0 = Some (N.log2_up (N.max n 8)).
Proof.
  intros Hn. apply doubling_rounds_log2; [lia|lia|lia|].
  assert (N.log2_up (N.max n 8) <= 32).
  { etrans; [apply (N.log2_up_le_mono _ (2 ^ 32)); lia|].
    by rewrite N.log2_up_pow2 by lia. }
  unfold doubling_fuel. lia.
Qed.

(** [r] rounds are the fewest that separate a field of [n]. *)
Definition fewest_rounds (n r : N) : Prop := n <= 2 ^ r ∧ ∀ r', n <= 2 ^ r' → r <= r'.

Lemma fewest_rounds_log2 n : 0 < n → fewest_rounds n (N.log2_up n).
Proof.
  intros Hn. split.
  - destruct (decide (n = 1)) as [->|]; [done|].
    by apply N.log2_up_spec; lia.
  - intros r' Hr'. destruct (decide (n = 1)) as [->|]; [apply N.le_0_l|].
    apply N.log2_up_le_pow2; lia.
Qed.

(** The default round count of every field a [u32] can count is computed by a loop
    that ends within its 64 passes, and is the fewest rounds [r] with [2^r] at least
    the field: for a bracket exactly (no round for a field below two), for
    head-to-head Swiss with the field taken as at least eight (hence at least three
    rounds); for pods it is the published table, between two and five rounds. *)
Theorem default_rounds_spec (a : MatchArity) (n : N) :
  n < 2 ^ 32 →
  fewest_rounds (N.max n 1) (default_total_rounds SingleElimination a n) ∧
  (a = HEAD_TO_HEAD →
   is_Some (doubling_rounds doubling_fuel (N.max n 8) 0) ∧
   fewest_rounds (N.max n 8) (default_total_rounds Swiss a n) ∧
   3 <= default_total_rounds Swiss a n <= 32) ∧
  (a ≠ HEAD_TO_HEAD →
   2 <= default_total_rounds Swiss a n <= 5 ∧
   ∀ n', n <= n' → default_total_rounds Swiss a n <= default_total_rounds Swiss a n').
Proof.
  intros Hn. split_and!.
  - unfold default_total_rounds, next_power_of_two.
    destruct (N.leb_spec n 1) as [H|H].
    + replace (N.max n 1) with 1 by lia. by apply fewest_rounds_log2.
    + rewrite trailing_zeros_pow2. replace (N.max n 1) with n by lia.
      apply fewest_rounds_log2. lia.
  - intros ->. unfold default_total_rounds. rewrite decide_True by done.
    rewrite swiss_rounds_log2 by done. simpl. split; [done|]. split.
    { apply fewest_rounds_log2. lia. }
    split.
    + change 3 with (N.log2_up 8). apply N.log2_up_le_mono. lia.
    + etrans; [|exact (eq_ind_r (λ k, k <= 32) (N.le_refl 32) (N.log2_up_pow2 32 (N.le_0_l _)))]. apply N.log2_up_le_mono.
      change (2 ^ 32) with 4294967296 in *. lia.
  - intros Ha. unfold default_total_rounds. rewrite decide_False by done. split.
    + repeat case_match; lia.
    + intros n' Hn'. rewrite ?decide_False by done.
      destruct (N.leb_spec n 16), (N.leb_spec n 24), (N.leb_spec n 32),
        (N.leb_spec n' 16), (N.leb_spec n' 24), (N.leb_spec n' 32); lia.
Qed.

Lemma default_rounds_spec_witness :
  1025 < 2 ^ 32 ∧ fewest_rounds (N.max 1025 1) (default_total_rounds SingleElimination HEAD_TO_HEAD 1025).
Proof. split; [lia|]. refine (proj1 (default_rounds_spec HEAD_TO_HEAD 1025 _)). lia. Defined.
