(* ===== verification/SwissPairing.v ===== *)
(** * Building a Swiss round

    The round construction of [lobby-broker/src/tournament.rs]: how a field splits
    into pods and byes ([partition_round]), who takes the byes and the short pods
    ([select_fair]), the greedy assignment that avoids rematches and the exchange
    repair after it ([greedy_assign], [repair_rematches]), and the whole round
    ([build_swiss_round]).  Players are their keys; the list of players comes in
    standings order. *)
From Stdlib Require Import String.
From S2P Require Import Prelude.
From S2P Require Import TournamentTypes.

(** ** Partition of the field *)
Record RoundPartition := { full_pods : nat; short_pods : nat; byes : nat }.

(** [for short_pods in 0..seats]: full pods and short pods seating exactly [seated]. *)
Fixpoint try_short_pods (seats short_size seated : nat) (candidates : list nat) :
    option (nat * nat) :=
  match candidates with
  | [] => None
  | short_pods :: rest =>
      if seated <? short_pods * short_size then None
      else
        let remainder := seated - short_pods * short_size in
        if remainder mod seats =? 0 then Some (remainder / seats, short_pods)
        else try_short_pods seats short_size seated rest
  end.

(** [for byes in 0..=n]. *)
Fixpoint try_byes (seats short_size n : nat) (candidates : list nat) : RoundPartition :=
  match candidates with
  | [] => {| full_pods := 0; short_pods := 0; byes := n |}
  | b :: rest =>
      match try_short_pods seats short_size (n - b) (seq 0 seats) with
      | Some (full, short) =>
          if short_size <? 2
          then {| full_pods := full; short_pods := 0; byes := b + short |}
          else {| full_pods := full; short_pods := short; byes := b |}
      | None => try_byes seats short_size n rest
      end
  end.

Definition partition_round (n : nat) (arity : MatchArity) : RoundPartition :=
  try_byes (seats_of arity) (N.to_nat (short_pod_size arity)) n (seq 0 (S n)).

(** ** Who has met whom *)
Abbreviation Faced := (gmap string (gset string)).

Definition faced_pairing (faced : Faced) (p : TournamentPairing) : Faced :=
  foldl (λ faced seat,
    <[seat := default ∅ (faced !! seat)
              ∪ list_to_set (filter (λ other, other ≠ seat) (pairing_players p))]> faced)
    faced (pairing_players p).
Definition faced_map (history : list TournamentPairing) : Faced :=
  foldl faced_pairing ∅ (filter (λ p, 1 < length (pairing_players p)) history).

Definition have_faced (faced : Faced) (a b : string) : bool :=
  match faced !! a with
  | Some seen => bool_decide (b ∈ seen)
  | None => false
  end.

(** ** The fairness selector *)

(** The first loop, over the enumerated pool from the bottom. *)
Fixpoint choose_eligible (count : nat) (already : string → bool)
    (entries : list (nat * string)) (chosen : list nat) : list nat :=
  match entries with
  | [] => chosen
  | (index, key) :: rest =>
      if length chosen =? count then chosen
      else choose_eligible count already rest
             (if already key then chosen else chosen ++ [index])
  end.
(** The second loop fills the rest from the bottom. *)
Fixpoint fill_chosen (count : nat) (indices chosen : list nat) : list nat :=
  match indices with
  | [] => chosen
  | index :: rest =>
      if length chosen =? count then chosen
      else fill_chosen count rest
             (if bool_decide (index ∈ chosen) then chosen else chosen ++ [index])
  end.
(** Removing at each index in turn; [remove] panics out of range. *)
Fixpoint remove_each {E} (indices : list nat) (pool : list string) :
    outcome E (list string * list string) :=
  match indices with
  | [] => mret ([], pool)
  | index :: rest =>
      key ← or_panic (pool !! index);
      '(picked, pool) ← remove_each rest (vec_remove index pool);
      mret (key :: picked, pool)
  end.

Definition choose_fair (pool : list string) (count : nat) (already : string → bool) :
    list nat :=
  let chosen := choose_eligible count already (reverse (imap pair pool)) [] in
  if length chosen <? count
  then fill_chosen count (reverse (seq 0 (length pool))) chosen
  else chosen.

(** The picked players and what is left of the pool. *)
Definition select_fair {E} (pool : list string) (count : nat) (already : string → bool) :
    outcome E (list string * list string) :=
  let chosen := merge_sort le (choose_fair pool count already) in
  '(picked, pool) ← remove_each (reverse chosen) pool;
  mret (reverse picked, pool).

(** ** Greedy assignment *)
Section pods.
Variable faced : Faced.

(** [for right in pod.iter().skip(i + 1)] for every seat. *)
Fixpoint pod_conflicts (pod : list string) : nat :=
  match pod with
  | [] => 0
  | key :: rest =>
      length (filter (λ other, have_faced faced key other = true) rest) + pod_conflicts rest
  end.

(** [while pod.len() < size && !remaining.is_empty()], [room] being what the pod lacks. *)
Fixpoint fill_pod {E} (room : nat) (pod remaining : list string) :
    outcome E (list string * list string) :=
  match room, remaining with
  | O, _ | _, [] => mret (pod, remaining)
  | S room, _ =>
      let index :=
        match pod with
        | [] => 0
        | _ => default 0 (position (λ candidate,
                 forallb (λ seated, negb (have_faced faced seated candidate)) pod) remaining)
        end in
      candidate ← or_panic (remaining !! index);
      fill_pod room (pod ++ [candidate]) (vec_remove index remaining)
  end.
Fixpoint greedy_assign {E} (remaining : list string) (sizes : list nat) :
    outcome E (list (list string)) :=
  match sizes with
  | [] => mret []
  | size :: sizes =>
      '(pod, remaining) ← fill_pod size [] remaining;
      pods ← greedy_assign remaining sizes;
      mret (pod :: pods)
  end.

(** ** Exchange repair *)

(** The pods after the exchange of seat [x] of pod [i] with seat [y] of pod [j], when
    those seats exist. *)
Definition exchange (pods : list (list string)) (i j x y : nat) : option (list (list string)) :=
  pi ← pods !! i; pj ← pods !! j;
  moved_out ← pi !! x; moved_in ← pj !! y;
  Some (<[j := <[y := moved_out]> pj]> (<[i := <[x := moved_in]> pi]> pods)).

Definition pair_conflicts (pods : list (list string)) (i j : nat) : nat :=
  pod_conflicts (default [] (pods !! i)) + pod_conflicts (default [] (pods !! j)).

(** The first exchange, in the order of the four loops, that lowers the conflicts of
    its two pods; [None] when no pod carrying a rematch has one. *)
Definition improves (pods : list (list string)) (i j x y : nat) : option (list (list string)) :=
  pods' ← exchange pods i j x y;
  if pair_conflicts pods' i j <? pair_conflicts pods i j then Some pods' else None.

Fixpoint first_some {A B} (f : A → option B) (l : list A) : option B :=
  match l with
  | [] => None
  | a :: l => match f a with Some b => Some b | None => first_some f l end
  end.

Definition search (pods : list (list string)) : option (list (list string)) :=
  first_some (λ i,
    let pi := default [] (pods !! i) in
    if pod_conflicts pi =? 0 then None
    else first_some (λ j,
      if i =? j then None
      else first_some (λ x,
        first_some (λ y, improves pods i j x y)
          (seq 0 (length (default [] (pods !! j)))))
        (seq 0 (length pi)))
      (seq 0 (length pods)))
    (seq 0 (length pods)).

(** [loop { .. if !improved { break } }]; [None] when the fuel runs out. *)
Fixpoint repair_loop (fuel : nat) (pods : list (list string)) : option (list (list string)) :=
  match fuel with
  | O => None
  | S fuel =>
      match search pods with
      | Some pods' => repair_loop fuel pods'
      | None => Some pods
      end
  end.

Definition total_conflicts (pods : list (list string)) : nat :=
  sum_list (pod_conflicts <$> pods).

(** Every accepted exchange lowers the total, so one pass more than the total is
    enough. *)
Definition repair_rematches (pods : list (list string)) : option (list (list string)) :=
  repair_loop (S (total_conflicts pods)) pods.
End pods.

(** ** The round *)

(** Pairings of one round with consecutive ids. *)
Fixpoint number_pairings (next_id round : N)
    (seatings : list (list string * option PairingOutcome)) : list TournamentPairing :=
  match seatings with
  | [] => []
  | (seated, o) :: rest =>
      {| id := next_id; round := round; pairing_players := seated; pairing_outcome := o |}
      :: number_pairings (u32_add next_id 1) round rest
  end.

Definition build_swiss_round (standings_order : list string) (arity : MatchArity)
    (history : list TournamentPairing) (round first_id : N) :
    outcome TError (list TournamentPairing) :=
  let partition := partition_round (length standings_order) arity in
  let seats := seats_of arity in
  let short_size := N.to_nat (short_pod_size arity) in
  '(bye_players, pool) ←
    select_fair standings_order (byes partition) (λ key, had_bye key history);
  '(short_players, pool) ←
    select_fair pool (short_pods partition * short_size)
      (λ key, had_short_pod key arity history);
  let order := pool ++ short_players in
  let sizes :=
    vec_resize (full_pods partition + short_pods partition) short_size
      (replicate (full_pods partition) seats) in
  let faced := faced_map history in
  pods ← greedy_assign faced order sizes;
  pods ← or_panic (repair_rematches faced pods);
  mret (number_pairings first_id round
          (((λ pod, (pod, None)) <$> pods) ++
           ((λ player, ([player], Some Bye)) <$> bye_players))).

(** ** Lemmas: the partition *)
Section partition.
Implicit Types (k ss m n f s b : nat).

Lemma try_short_pods_spec k ss m a c :
  0 < k →
  match try_short_pods k ss m (seq a c) with
  | Some (f, s) =>
      a ≤ s < a + c ∧ m = f * k + s * ss ∧
      ∀ f' s', a ≤ s' < s → m ≠ f' * k + s' * ss
  | None => ∀ f' s', a ≤ s' < a + c → m ≠ f' * k + s' * ss
  end.
Proof.
  intros Hk. revert a. induction c as [|c IH]; intros a; simpl; [intros; lia|].
  destruct (Nat.ltb_spec m (a * ss)) as [Hlt|Hge].
  { intros f' s' Hs Heq. assert (a * ss ≤ s' * ss) by (apply Nat.mul_le_mono_r; lia). lia. }
  destruct (Nat.eqb_spec ((m - a * ss) mod k) 0) as [Hmod|Hmod].
  { split_and!; [lia|lia| |intros; lia].
    apply Nat.Div0.div_exact in Hmod. lia. }
  assert (∀ f', m ≠ f' * k + a * ss) as Hno.
  { intros f' ->. apply Hmod. rewrite Nat.add_sub. apply Nat.Div0.mod_mul. }
  specialize (IH (S a)). destruct (try_short_pods _ _ _ _) as [[f s]|].
  - destruct IH as (?&?&Hmin). split_and!; [lia..|done|].
    intros f' s' Hs. destruct (decide (s' = a)) as [->|]; [apply Hno|apply Hmin; lia].
  - intros f' s' Hs. destruct (decide (s' = a)) as [->|]; [apply Hno|apply IH; lia].
Qed.

(** [k] short pods can be traded for [k - 1] full ones. *)
Lemma fewer_short_pods k f s :
  0 < k → ∃ f' s', s' < k ∧ s' ≤ s ∧ f * k + s * (k - 1) = f' * k + s' * (k - 1).
Proof.
  intros Hk. exists (f + s / k * (k - 1)), (s mod k).
  pose proof (Nat.mod_upper_bound s k ltac:(lia)).
  pose proof (Nat.div_mod_eq s k). split_and!; [lia|nia|nia].
Qed.

Lemma try_byes_spec k n a c :
  2 ≤ k → n < a + c → (∀ f s b, b < a → f * k + s * (k - 1) + b ≠ n) → a ≤ n →
  ∃ f s b,
    try_byes k (k - 1) n (seq a c) =
      (if k - 1 <? 2 then {| full_pods := f; short_pods := 0; byes := b + s |}
       else {| full_pods := f; short_pods := s; byes := b |}) ∧
    s < k ∧ b ≤ n ∧ f * k + s * (k - 1) + b = n ∧
    ∀ f' s' b', f' * k + s' * (k - 1) + b' = n → b ≤ b' ∧ (b' = b → s ≤ s').
Proof.
  intros Hk. revert a. induction c as [|c IH]; intros a Hn Hlow Ha; [lia|]. simpl.
  pose proof (try_short_pods_spec k (k - 1) (n - a) 0 k ltac:(lia)) as Hspec.
  destruct (try_short_pods k (k - 1) (n - a) (seq 0 k)) as [[f s]|].
  - destruct Hspec as (?&?&Hmin). exists f, s, a. split_and!; [done|lia|lia|lia|].
    intros f' s' b' Heq. split.
    + destruct (decide (b' < a)); [exfalso; by eapply Hlow|lia].
    + intros ->. destruct (decide (s' < s)); [|lia].
      exfalso. apply (Hmin f' s'); lia.
  - assert (∀ f s, f * k + s * (k - 1) + a ≠ n) as Hno.
    { intros f s Heq. destruct (fewer_short_pods k f s ltac:(lia)) as (f'&s'&?&?&?).
      apply (Hspec f' s'); lia. }
    assert (a ≠ n) by (intros ->; apply (Hno 0 0); lia).
    apply IH; [lia| |lia].
    intros f s b Hb. destruct (decide (b = a)) as [->|]; [apply Hno|apply Hlow; lia].
Qed.

Lemma partition_round_eq n arity :
  arity_wf arity →
  ∃ f s b, let k := seats_of arity in
    partition_round n arity =
      (if k - 1 <? 2 then {| full_pods := f; short_pods := 0; byes := b + s |}
       else {| full_pods := f; short_pods := s; byes := b |}) ∧
    s < k ∧ f * k + s * (k - 1) + b = n ∧
    ∀ f' s' b', f' * k + s' * (k - 1) + b' = n → b ≤ b' ∧ (b' = b → s ≤ s').
Proof.
  intros Ha. pose proof (seats_of_wf _ Ha) as Hk.
  unfold partition_round. rewrite short_pod_size_wf by done.
  replace (N.to_nat (arity_value arity - 1)) with (seats_of arity - 1)
    by (unfold seats_of; lia).
  destruct (try_byes_spec (seats_of arity) n 0 (S n)) as (f&s&b&?&?&?&?&?);
    [lia|lia|intros; lia|lia|]. by exists f, s, b.
Qed.

(** A field of at least [(k - 1) * (k - 2)] splits into pods of [k] and [k - 1]. *)
Lemma field_splits k n :
  2 ≤ k → (k - 1) * (k - 2) ≤ n → ∃ f s, f * k + s * (k - 1) = n.
Proof.
  intros Hk Hn. pose proof (Nat.div_mod_eq n k) as Hd.
  pose proof (Nat.mod_upper_bound n k ltac:(lia)) as Hm.
  set (q := n / k) in *. set (r := n mod k) in *.
  destruct (decide (r = 0)) as [Hr|Hr]; [exists q, 0; nia|].
  (* [k - r] short pods; the quotient is large enough to take the rest *)
  assert (k - r ≤ S q) by nia.
  exists (S q - (k - r)), (k - r). nia.
Qed.
End partition.

(** The split of a field is exact and the fairest one: for every field and pod
    size, full pods, pods one seat short and byes together seat every player exactly
    once; no other split has fewer byes, and none with as few byes has fewer short
    pods; a field of at least [(k - 1) * (k - 2)] players has no bye at all; and
    head-to-head there is no short pod and a bye exactly for an odd field. *)
Theorem partition_round_fairest (n : nat) (arity : MatchArity) :
  arity_wf arity →
  let k := seats_of arity in
  let p := partition_round n arity in
  full_pods p * k + short_pods p * (k - 1) + byes p = n ∧
  (2 < k →
   (∀ f s b, f * k + s * (k - 1) + b = n →
      byes p ≤ b ∧ (b = byes p → short_pods p ≤ s)) ∧
   ((k - 1) * (k - 2) ≤ n → byes p = 0)) ∧
  (k = 2 → short_pods p = 0 ∧ byes p = n mod 2).
Proof.
  intros Ha k p. subst k p.
  destruct (partition_round_eq n arity Ha) as (f&s&b&->&Hs&Heq&Hmin).
  pose proof (seats_of_wf _ Ha). set (k := seats_of arity) in *.
  destruct (Nat.ltb_spec (k - 1) 2) as [Hk|Hk]; cbn [full_pods short_pods byes].
  - assert (k = 2) as Hk2 by lia. rewrite Hk2 in *. split_and!; [lia|lia|].
    intros _. split; [done|].
    destruct (Hmin (n / 2) (n mod 2) 0) as [Hb Hle].
    { pose proof (Nat.div_mod_eq n 2). lia. }
    assert (b = 0) as -> by lia.
    pose proof (Nat.mod_unique n 2 f s ltac:(lia) ltac:(lia)). lia.
  - split_and!; [lia| |lia]. intros _. split.
    + intros f' s' b' H'. destruct (Hmin _ _ _ H'). auto.
    + intros Hn. destruct (field_splits k n) as (f'&s'&H'); [lia|done|].
      destruct (Hmin f' s' 0); lia.
Qed.

Lemma partition_round_fairest_witness :
  byes (partition_round 9 COMMANDER_POD) = 0 ∧ short_pods (partition_round 9 COMMANDER_POD) = 3.
Proof.
  destruct (partition_round_fairest 9 COMMANDER_POD) as (_&[Hmin Hno]&_);
    [split; vm_compute; discriminate | vm_compute; lia | ].
  split; [apply Hno; vm_compute; lia | vm_compute; reflexivity].
Defined.
