(* ===== verification/SwissSelect.v ===== *)
(** * The fairness selector of a Swiss round

    What [SwissPairing.select_fair] picks: the chosen indices are a prefix of the pool
    read from the bottom with the eligible players first, the picked players keep
    their order, and removing them never leaves the pool's range. *)
From Stdlib Require Import String.
From S2P Require Import Prelude.
From S2P Require Import TournamentTypes.
From S2P Require Import SwissPairing.

(** ** Lists of indices *)
Section indices.
Context {A : Type}.
Implicit Types (l pool : list A) (cs : list nat) (d : A).

Definition pick d pool (i : nat) : A := default d (pool !! i).

Lemma imap_pair_seq d pool : imap pair pool = (λ i, (i, pick d pool i)) <$> seq 0 (length pool).
Proof.
  apply list_eq. intros i. rewrite list_lookup_imap, list_lookup_fmap. unfold pick.
  destruct (pool !! i) as [x|] eqn:Hx.
  - rewrite lookup_seq_lt by (by eapply lookup_lt_Some). simpl. by rewrite Hx.
  - rewrite lookup_seq_ge; [done|]. by apply lookup_ge_None.
Qed.

(** The picks at increasing indices keep the order of the pool. *)
Lemma pick_sublist d pool cs :
  StronglySorted lt cs → Forall (λ i, i < length pool) cs →
  (pick d pool <$> cs) `sublist_of` pool.
Proof.
  revert pool. induction cs as [|c cs IH] using rev_ind; intros pool Hs Hf.
  { apply sublist_nil_l. }
  apply StronglySorted_app in Hs as (Hlt&Hs&_). apply Forall_app in Hf as [Hf Hc].
  rewrite Forall_singleton in Hc. destruct (lookup_lt_is_Some_2 _ _ Hc) as [x Hx].
  rewrite fmap_app. simpl.
  trans (take c pool ++ x :: drop (S c) pool); [|by rewrite take_drop_middle].
  apply sublist_app.
  - replace (pick d pool <$> cs) with (pick d (take c pool) <$> cs).
    + apply IH; [done|]. apply Forall_forall. intros i Hi. rewrite length_take.
      rewrite Forall_forall in Hf. specialize (Hf i Hi).
      specialize (Hlt i c Hi ltac:(left)). lia.
    + apply list_fmap_ext. intros i j Hj. unfold pick. rewrite lookup_take_lt; [done|].
      apply Hlt; [by eapply list_elem_of_lookup_2|left].
  - unfold pick. rewrite Hx. simpl. apply sublist_skip, sublist_nil_l.
Qed.

Lemma sorted_le_lt cs : StronglySorted le cs → NoDup cs → StronglySorted lt cs.
Proof.
  induction 1 as [|c cs _ IH Hc]; intros Hnd; [constructor|].
  apply NoDup_cons in Hnd as [Hni Hnd]. constructor; [auto|].
  apply Forall_forall. intros i Hi. rewrite Forall_forall in Hc.
  specialize (Hc i Hi). destruct (decide (i = c)) as [->|]; [done|lia].
Qed.
End indices.

(** ** Removing at decreasing indices *)
Lemma remove_each_spec {E} (pool : list string) (cs : list nat) :
  StronglySorted lt cs → Forall (λ i, i < length pool) cs →
  ∃ rest, remove_each (E := E) (reverse cs) pool =
      Ok (reverse (pick EmptyString pool <$> cs), rest) ∧
    (pick EmptyString pool <$> cs) ++ rest ≡ₚ pool ∧ rest `sublist_of` pool.
Proof.
  revert pool. induction cs as [|c cs IH] using rev_ind; intros pool Hs Hf.
  { exists pool. by split_and!. }
  apply StronglySorted_app in Hs as (Hlt&Hs&_). apply Forall_app in Hf as [Hf Hc].
  rewrite Forall_singleton in Hc. destruct (lookup_lt_is_Some_2 _ _ Hc) as [x Hx].
  assert (∀ i, i ∈ cs → i < c) as Hlt' by (intros; apply Hlt; [done|left]).
  destruct (IH (vec_remove c pool)) as (rest&Heq&Hperm&Hsub); [done| |].
  { apply Forall_forall. intros i Hi%Hlt'. rewrite length_vec_remove by done. lia. }
  assert (pick EmptyString (vec_remove c pool) <$> cs = pick EmptyString pool <$> cs) as Hpick.
  { apply list_fmap_ext. intros j i Hi%list_elem_of_lookup_2%Hlt'. unfold pick.
    by rewrite lookup_vec_remove, decide_True by done. }
  rewrite Hpick in Heq, Hperm. exists rest. split_and!.
  - rewrite reverse_snoc. simpl. rewrite Hx. simpl. rewrite Heq. simpl.
    rewrite fmap_app, reverse_app. simpl. unfold pick at 2. by rewrite Hx.
  - rewrite fmap_app, <-app_assoc. simpl. unfold pick at 2. rewrite Hx. simpl.
    rewrite <-Permutation_middle, Hperm. symmetry. by apply vec_remove_perm.
  - etrans; [done|]. unfold vec_remove.
    trans (take c pool ++ x :: drop (S c) pool); [|by rewrite take_drop_middle].
    apply sublist_app; [done|]. by apply sublist_cons.
Qed.

(** ** The chosen indices *)
Section choose.
Variables (count : nat) (already : string → bool).

Lemma choose_eligible_eq entries chosen :
  length chosen ≤ count →
  choose_eligible count already entries chosen =
  chosen ++ take (count - length chosen) (filter (λ e, already e.2 = false) entries).*1.
Proof.
  revert chosen. induction entries as [|[i key] entries IH]; intros chosen Hc; simpl.
  { by rewrite take_nil, app_nil_r. }
  destruct (Nat.eqb_spec (length chosen) count) as [->|Hne].
  { by rewrite Nat.sub_diag, app_nil_r. }
  rewrite filter_cons. simpl. destruct (already key) eqn:E; simpl.
  - by rewrite IH by lia.
  - rewrite IH by (rewrite length_app; simpl; lia). rewrite <-app_assoc. simpl. f_equal.
    rewrite length_app. simpl.
    replace (count - length chosen) with (S (count - (length chosen + 1))) by lia. done.
Qed.

Lemma fill_chosen_eq indices chosen :
  NoDup indices → length chosen ≤ count →
  fill_chosen count indices chosen =
  chosen ++ take (count - length chosen) (filter (λ i, i ∉ chosen) indices).
Proof.
  revert chosen. induction indices as [|i indices IH]; intros chosen Hnd Hc; simpl.
  { by rewrite filter_nil, take_nil, app_nil_r. }
  apply NoDup_cons in Hnd as [Hi Hnd].
  destruct (Nat.eqb_spec (length chosen) count) as [->|Hne].
  { by rewrite Nat.sub_diag, app_nil_r. }
  rewrite filter_cons. case_bool_decide as Hin.
  - rewrite decide_False by (intros []; done). by rewrite IH by (done || lia).
  - rewrite decide_True by done.
    rewrite IH by (try done; rewrite length_app; simpl; lia).
    rewrite <-app_assoc. simpl. f_equal. rewrite length_app. simpl.
    replace (count - length chosen) with (S (count - (length chosen + 1))) by lia. simpl.
    f_equal. f_equal. apply filter_ext_in. intros j Hj. rewrite elem_of_app.
    assert (j ≠ i) by congruence. set_solver.
Qed.

Definition eligible (pool : list string) (i : nat) : Prop :=
  already (pick EmptyString pool i) = false.
#[local] Instance eligible_dec pool i : Decision (eligible pool i).
Proof. unfold eligible. apply _. Defined.

(** The pool's indices from the bottom, the eligible ones first. *)
Definition bottom_up (pool : list string) : list nat :=
  let indices := reverse (seq 0 (length pool)) in
  filter (eligible pool) indices ++ filter (λ i, ¬ eligible pool i) indices.

Lemma choose_fair_prefix pool :
  choose_fair pool count already = take count (bottom_up pool).
Proof.
  unfold choose_fair, bottom_up. rewrite (imap_pair_seq EmptyString), <-fmap_reverse.
  set (R := reverse (seq 0 (length pool))).
  assert (NoDup R) by (unfold R; rewrite reverse_Permutation; apply NoDup_seq).
  rewrite choose_eligible_eq by (simpl; lia). simpl. rewrite Nat.sub_0_r, filter_fmap_list.
  rewrite <-list_fmap_compose. unfold compose. simpl. rewrite list_fmap_id.
  change (λ x, already (pick EmptyString pool x) = false) with (eligible pool).
  set (e := filter (eligible pool) R).
  destruct (Nat.ltb_spec (length (take count e)) count) as [Hlt|Hge].
  - rewrite length_take in Hlt. rewrite take_ge by lia.
    rewrite fill_chosen_eq by (done || lia). rewrite take_app, (take_ge e) by lia. f_equal.
    f_equal. apply filter_ext_in. intros i Hi. subst e.
    rewrite list_elem_of_filter. tauto.
  - rewrite length_take in Hge. by rewrite take_app_le by lia.
Qed.
End choose.

(** ** What the selector guarantees *)
Section fairness.
Variables (count : nat) (already : string → bool).

(** [i] is picked before [j]: an eligible player before one who is not, and among
    equals the one standing lower. *)
Definition prefer (pool : list string) (i j : nat) : Prop :=
  (already (pick EmptyString pool i) = false ∧ already (pick EmptyString pool j) = true) ∨
  (already (pick EmptyString pool i) = already (pick EmptyString pool j) ∧ j < i).

Lemma reverse_seq_sorted n : StronglySorted gt (reverse (seq 0 n)).
Proof.
  induction n as [|n IH]; [constructor|]. rewrite seq_S, reverse_snoc. simpl.
  constructor; [done|]. apply Forall_forall. intros i.
  rewrite elem_of_reverse, elem_of_seq. lia.
Qed.

Lemma bottom_up_perm pool : bottom_up already pool ≡ₚ seq 0 (length pool).
Proof. unfold bottom_up. by rewrite filter_app_complement, reverse_Permutation. Qed.

Lemma bottom_up_sorted pool : StronglySorted (prefer pool) (bottom_up already pool).
Proof.
  assert (∀ (P : nat → Prop) `{!∀ i, Decision (P i)} l,
    (∀ i j, P i → P j →
      already (pick EmptyString pool i) = already (pick EmptyString pool j)) →
    StronglySorted gt l → StronglySorted (prefer pool) (filter P l)) as Hsame.
  { intros P ? l HP. induction 1 as [|i l _ IH Hi]; [constructor|].
    rewrite filter_cons. case_decide as HPi; [|done]. constructor; [done|].
    rewrite Forall_forall in *. intros j [HPj Hj]%list_elem_of_filter.
    right. split; [by apply HP|]. by apply Hi. }
  unfold bottom_up, eligible. apply StronglySorted_app. split_and!.
  - intros i j [Hi _]%list_elem_of_filter [Hj _]%list_elem_of_filter.
    left. split; [done|]. by destruct (already (pick _ _ j)).
  - apply Hsame; [congruence|apply reverse_seq_sorted].
  - apply Hsame; [|apply reverse_seq_sorted].
    intros i j. by do 2 destruct (already _).
Qed.

(** The chosen indices: as many as asked for, and preferred to all others. *)
Lemma choose_fair_spec pool :
  let cs := choose_fair pool count already in
  NoDup cs ∧ Forall (λ i, i < length pool) cs ∧
  length cs = Nat.min count (length pool) ∧
  ∀ i j, i ∈ cs → j < length pool → j ∉ cs → prefer pool i j.
Proof.
  intros cs. subst cs. rewrite choose_fair_prefix. set (l := bottom_up already pool).
  pose proof (bottom_up_perm pool) as Hp. fold l in Hp.
  assert (NoDup l) as Hnd by (rewrite Hp; apply NoDup_seq).
  assert (length l = length pool) as Hlen by (by rewrite Hp, length_seq).
  rewrite <-(take_drop count l) in Hnd. apply NoDup_app in Hnd as (Hnd&_&_).
  split_and!; [done| |by rewrite length_take, Hlen|].
  - apply Forall_forall. intros i Hi. assert (i ∈ l) as Hl.
    { rewrite <-(take_drop count l), elem_of_app. by left. }
    rewrite Hp, elem_of_seq in Hl. lia.
  - intros i j Hi Hj Hnj. pose proof (bottom_up_sorted pool) as Hs. fold l in Hs.
    rewrite <-(take_drop count l) in Hs. apply StronglySorted_app in Hs as (Hs&_&_).
    apply Hs; [done|]. assert (j ∈ l) as Hl by (rewrite Hp, elem_of_seq; lia).
    rewrite <-(take_drop count l), elem_of_app in Hl. by destruct Hl.
Qed.

(** The selector never leaves the pool's range; picked and left players make up the
    pool, both in pool order, and nobody is picked ahead of a player preferred to
    them. *)
Lemma select_fair_spec {E} pool :
  ∃ picked rest, select_fair (E := E) pool count already = Ok (picked, rest) ∧
    length picked = Nat.min count (length pool) ∧
    picked ++ rest ≡ₚ pool ∧ picked `sublist_of` pool ∧ rest `sublist_of` pool ∧
    (NoDup pool → ∀ i j x y, pool !! i = Some x → pool !! j = Some y →
       x ∈ picked → y ∈ rest → prefer pool i j).
Proof.
  unfold select_fair. destruct (choose_fair_spec pool) as (Hnd&Hf&Hlen&Hpref).
  set (cs := merge_sort le _). pose proof (merge_sort_Permutation le (choose_fair pool count already)) as Hp.
  fold cs in Hp. assert (StronglySorted lt cs) as Hs.
  { apply sorted_le_lt; [|by rewrite Hp]. apply StronglySorted_merge_sort; [apply _|].
    intros i j. lia. }
  assert (Forall (λ i, i < length pool) cs) as Hf' by (by rewrite Hp).
  destruct (remove_each_spec (E := E) pool cs Hs Hf') as (rest&Heq&Hperm&Hsub).
  rewrite Heq. simpl. rewrite reverse_involutive. eexists _, rest.
  split_and!; [done| |done|by apply pick_sublist|done|].
  - by rewrite length_fmap, Hp.
  - intros Hndp i j x y Hi Hj Hx Hy. apply Hpref.
    + apply list_elem_of_fmap in Hx as (i'&->&Hi'). rewrite <-Hp.
      rewrite Forall_forall in Hf'. destruct (lookup_lt_is_Some_2 _ _ (Hf' _ Hi')) as [z Hz].
      unfold pick in Hi. rewrite Hz in Hi. by rewrite (NoDup_lookup pool i i' z) by done.
    + by eapply lookup_lt_Some.
    + rewrite <-Hp. intros Hin. rewrite <-Hperm in Hndp.
      apply NoDup_app in Hndp as (_&Hdisj&_). apply (Hdisj y); [|done].
      apply list_elem_of_fmap. exists j. split; [|done]. unfold pick. by rewrite Hj.
Qed.
End fairness.
