(* ===== verification/SwissRound.v ===== *)
(** * A whole Swiss round

    The proofs about [SwissPairing.build_swiss_round]: the greedy assignment fills
    every pod, each accepted exchange of the repair lowers the number of rematches
    (so the repair ends), and the round seats every active player exactly once, in
    pods of the partition's sizes, with the byes and the short pods going to the
    players the fairness rule names. *)
From Stdlib Require Import String.
From S2P Require Import Prelude.
From S2P Require Import TournamentTypes.
From S2P Require Import SwissPairing.
From S2P Require Import SwissSelect.

(** ** Who has met whom *)
Section faced.
Implicit Types (faced : Faced) (history : list TournamentPairing).

Lemma have_faced_insert faced a b c s :
  have_faced (<[c := s]> faced) a b = true ↔
  (a = c ∧ b ∈ s) ∨ (a ≠ c ∧ have_faced faced a b = true).
Proof.
  unfold have_faced. destruct (decide (a = c)) as [->|Hne].
  - rewrite lookup_insert_eq, bool_decide_eq_true. tauto.
  - rewrite lookup_insert_ne by congruence. naive_solver.
Qed.
Lemma have_faced_default faced a b :
  have_faced faced a b = true ↔ b ∈ default (∅ : gset string) (faced !! a).
Proof.
  unfold have_faced. destruct (faced !! a); simpl; [by rewrite bool_decide_eq_true|].
  set_solver.
Qed.

Lemma faced_pairing_iff faced p a b :
  have_faced (faced_pairing faced p) a b = true ↔
  have_faced faced a b = true ∨ (a ∈ pairing_players p ∧ b ∈ pairing_players p ∧ b ≠ a).
Proof.
  unfold faced_pairing. generalize (pairing_players p) at 2 3 as seats.
  intros seats. revert faced. induction seats as [|c seats IH]; intros faced; simpl.
  { set_solver. }
  rewrite IH, have_faced_insert, elem_of_union, <-have_faced_default.
  rewrite elem_of_list_to_set, list_elem_of_filter, elem_of_cons. clear IH.
  destruct (decide (a = c)); naive_solver.
Qed.

Lemma faced_map_iff history a b :
  have_faced (faced_map history) a b = true ↔
  a ≠ b ∧ ∃ p, p ∈ history ∧ a ∈ pairing_players p ∧ b ∈ pairing_players p.
Proof.
  unfold faced_map.
  assert (∀ ps faced, have_faced (foldl faced_pairing faced ps) a b = true ↔
    have_faced faced a b = true ∨
    (b ≠ a ∧ ∃ p, p ∈ ps ∧ a ∈ pairing_players p ∧ b ∈ pairing_players p)) as Hfold.
  { induction ps as [|p ps IH]; intros faced; simpl; [set_solver|].
    rewrite IH, faced_pairing_iff, exists_elem_cons. clear IH. naive_solver. }
  rewrite Hfold. split.
  - intros [?|(?&p&[? ?]%list_elem_of_filter&?)]; [done|]. eauto 10.
  - intros (?&p&Hp&Ha&Hb). right. split; [done|]. exists p. split_and!; [|done..].
    apply list_elem_of_filter. split; [|done].
    destruct (pairing_players p) as [|x [|y l]]; simpl; [set_solver|set_solver|lia].
Qed.

(** The relation the pairing code caches agrees with the scan of [prior_opponents]. *)
Lemma prior_opponents_iff history a b :
  b ∈ prior_opponents a history ↔ have_faced (faced_map history) a b = true.
Proof.
  rewrite faced_map_iff.
  induction history as [|p history IH]; simpl.
  { split; [by intros ?%elem_of_empty|]. by intros (_&?&?%elem_of_nil&_). }
  rewrite exists_elem_cons.
  assert (pairing_seats p a = true ↔ a ∈ pairing_players p) as Hseats.
  { unfold pairing_seats. rewrite existsb_exists. setoid_rewrite String.eqb_eq.
    setoid_rewrite <-list_elem_of_In. naive_solver. }
  destruct (pairing_seats p a).
  - rewrite elem_of_union, elem_of_list_to_set, list_elem_of_filter, IH.
    destruct Hseats as [Hseats _]. specialize (Hseats eq_refl). intuition congruence.
  - rewrite IH. destruct Hseats as [_ Hseats].
    assert (a ∉ pairing_players p) by (intros ?%Hseats; done). tauto.
Qed.
End faced.

(** ** The greedy assignment fills every pod *)
Section greedy.
Context {E : Type} (faced : Faced).
Implicit Types (pod remaining order : list string).

Lemma fill_pod_spec room pod remaining :
  ∃ pod' rest, fill_pod (E := E) faced room pod remaining = Ok (pod', rest) ∧
    pod' ++ rest ≡ₚ pod ++ remaining ∧
    length pod' = length pod + Nat.min room (length remaining).
Proof.
  revert pod remaining. induction room as [|room IH]; intros pod remaining.
  { eexists _, _. split; [by destruct remaining|]. split; [done|lia]. }
  destruct remaining as [|r remaining].
  { eexists _, _. split; [done|]. split; [done|simpl; lia]. }
  cbn [fill_pod]. set (index := match pod with [] => 0 | _ => _ end).
  assert (index < length (r :: remaining)) as Hi.
  { subst index. destruct pod; [apply Nat.lt_0_succ|].
    match goal with |- default 0 ?o < _ => destruct o as [i|] eqn:Ho end;
      [by apply position_lt in Ho|apply Nat.lt_0_succ]. }
  destruct (lookup_lt_is_Some_2 _ _ Hi) as [c Hc]. rewrite Hc. simpl.
  destruct (IH (pod ++ [c]) (vec_remove index (r :: remaining))) as (pod'&rest&Heq&Hp&Hlen).
  exists pod', rest. split; [done|]. split.
  - rewrite Hp, <-app_assoc. simpl. by rewrite <-vec_remove_perm.
  - rewrite Hlen, length_app, length_vec_remove by done. simpl. lia.
Qed.

Lemma greedy_assign_spec order sizes :
  sum_list sizes ≤ length order →
  ∃ pods rest, greedy_assign (E := E) faced order sizes = Ok pods ∧
    length <$> pods = sizes ∧ concat pods ++ rest ≡ₚ order.
Proof.
  revert order. induction sizes as [|size sizes IH]; intros order Hsum; simpl.
  { by exists [], order. }
  simpl in Hsum. destruct (fill_pod_spec size [] order) as (pod&rest&->&Hp&Hlen).
  simpl in Hlen. apply Permutation_length in Hp as Hl. rewrite length_app in Hl. simpl in Hl.
  simpl. destruct (IH rest) as (pods&rest'&->&Hsizes&Hperm); [lia|].
  exists (pod :: pods), rest'. simpl. split_and!; [done|f_equal; [lia|done]|].
  by rewrite <-app_assoc, Hperm.
Qed.

Lemma greedy_assign_exact order sizes :
  sum_list sizes = length order →
  ∃ pods, greedy_assign (E := E) faced order sizes = Ok pods ∧
    length <$> pods = sizes ∧ concat pods ≡ₚ order.
Proof.
  intros Hsum. destruct (greedy_assign_spec order sizes) as (pods&rest&?&Hs&Hp); [lia|].
  exists pods. split_and!; [done..|].
  assert (length (concat pods) = sum_list sizes) as Hc.
  { rewrite <-Hs. clear. induction pods as [|p pods IH]; simpl; [done|].
    by rewrite length_app, IH. }
  apply Permutation_length in Hp as Hl. rewrite length_app in Hl.
  destruct rest; simpl in Hl; [by rewrite app_nil_r in Hp|lia].
Qed.
End greedy.

(** ** The exchange repair *)
Lemma sum_list_insert (l : list nat) i a b :
  l !! i = Some a → sum_list (<[i := b]> l) + a = sum_list l + b.
Proof.
  revert i. induction l as [|x l IH]; intros [|i] Hi; simplify_eq/=; [lia|].
  specialize (IH i Hi). lia.
Qed.
Lemma insert_perm {A} (l : list A) i a b :
  l !! i = Some a → a :: <[i := b]> l ≡ₚ b :: l.
Proof.
  revert i. induction l as [|x l IH]; intros [|i] Hi; simplify_eq/=.
  - constructor.
  - trans (x :: a :: <[i:=b]> l); [constructor|]. rewrite (IH i Hi). constructor.
Qed.

Section repair.
Variable faced : Faced.
Implicit Types (pods : list (list string)) (i j x y : nat).

Lemma exchange_Some pods i j x y pods' :
  exchange pods i j x y = Some pods' ↔
  ∃ pi pj a b, pods !! i = Some pi ∧ pods !! j = Some pj ∧ pi !! x = Some a ∧
    pj !! y = Some b ∧ pods' = <[j := <[y := a]> pj]> (<[i := <[x := b]> pi]> pods).
Proof.
  unfold exchange. destruct (pods !! i) as [pi|]; [|naive_solver].
  destruct (pods !! j) as [pj|]; [|naive_solver]. simpl.
  destruct (pi !! x) as [a|] eqn:?; [|naive_solver]. simpl.
  destruct (pj !! y) as [b|] eqn:?; naive_solver.
Qed.

(** An exchange keeps every pod's size and all the players. *)
Lemma exchange_shape pods i j x y pods' :
  i ≠ j → exchange pods i j x y = Some pods' →
  length <$> pods' = length <$> pods ∧ concat pods' ≡ₚ concat pods.
Proof.
  intros Hij (pi&pj&a&b&Hi&Hj&Ha&Hb&->)%exchange_Some.
  assert ((<[i := <[x := b]> pi]> pods) !! j = Some pj) as Hj'
    by (by rewrite list_lookup_insert_ne).
  split.
  - apply list_eq. intros k. rewrite !list_lookup_fmap.
    destruct (decide (k = j)) as [->|].
    { rewrite list_lookup_insert_eq by (by eapply lookup_lt_Some).
      rewrite Hj. simpl. by rewrite length_insert. }
    rewrite list_lookup_insert_ne by done. destruct (decide (k = i)) as [->|].
    { rewrite list_lookup_insert_eq by (by eapply lookup_lt_Some).
      rewrite Hi. simpl. by rewrite length_insert. }
    by rewrite list_lookup_insert_ne.
  - apply (Permutation_app_inv_l pj). rewrite (concat_set _ j pj) by done.
    apply (Permutation_app_inv_l pi). rewrite Permutation_app_swap_app.
    rewrite (concat_set pods i pi) by done.
    rewrite !app_assoc. apply Permutation_app_tail.
    apply (Permutation_cons_inv (a := a)), (Permutation_cons_inv (a := b)).
    trans ((b :: <[y := a]> pj) ++ (a :: <[x := b]> pi)).
    { solve_Permutation. }
    rewrite (insert_perm pj y b a), (insert_perm pi x a b) by done. solve_Permutation.
Qed.

Lemma exchange_total pods i j x y pods' :
  i ≠ j → exchange pods i j x y = Some pods' →
  total_conflicts faced pods' + pair_conflicts faced pods i j =
  total_conflicts faced pods + pair_conflicts faced pods' i j.
Proof.
  intros Hij (pi&pj&a&b&Hi&Hj&Ha&Hb&->)%exchange_Some.
  unfold total_conflicts, pair_conflicts. rewrite Hi, Hj. simpl.
  rewrite !list_fmap_insert.
  rewrite list_lookup_insert_ne, list_lookup_insert_eq by (done || by eapply lookup_lt_Some).
  rewrite list_lookup_insert_eq by (rewrite length_insert; by eapply lookup_lt_Some). simpl.
  set (c := pod_conflicts faced) in *.
  pose proof (sum_list_insert (c <$> pods) i (c pi) (c (<[x:=b]> pi))) as H1.
  rewrite list_lookup_fmap, Hi in H1. specialize (H1 eq_refl).
  pose proof (sum_list_insert (<[i := c (<[x:=b]> pi)]> (c <$> pods)) j (c pj)
    (c (<[y:=a]> pj))) as H2.
  rewrite list_lookup_insert_ne, list_lookup_fmap, Hj in H2 by done.
  specialize (H2 eq_refl). lia.
Qed.

Lemma first_some_Some {A B} (f : A → option B) l b :
  first_some f l = Some b → ∃ a, a ∈ l ∧ f a = Some b.
Proof.
  induction l as [|a l IH]; simpl; [done|]. destruct (f a) eqn:E.
  - intros [= ->]. exists a. split; [left|done].
  - intros (c&?&?)%IH. exists c. split; [by right|done].
Qed.
Lemma first_some_None {A B} (f : A → option B) l :
  first_some f l = None ↔ ∀ a, a ∈ l → f a = None.
Proof.
  induction l as [|a l IH]; simpl; [set_solver|].
  destruct (f a) eqn:E; [|rewrite IH]; setoid_rewrite elem_of_cons; naive_solver.
Qed.

Lemma search_Some pods pods' :
  search faced pods = Some pods' →
  ∃ i j x y, i ≠ j ∧ exchange pods i j x y = Some pods' ∧
    pair_conflicts faced pods' i j < pair_conflicts faced pods i j.
Proof.
  unfold search. intros (i&_&Hi)%first_some_Some.
  destruct (_ =? 0); [done|]. apply first_some_Some in Hi as (j&_&Hj).
  destruct (Nat.eqb_spec i j); [done|].
  apply first_some_Some in Hj as (x&_&(y&_&Hy)%first_some_Some).
  unfold improves in Hy. exists i, j, x, y.
  destruct (exchange pods i j x y) as [q|]; [|done]. simpl in Hy.
  destruct (Nat.ltb_spec (pair_conflicts faced q i j) (pair_conflicts faced pods i j));
    [|done]. by simplify_eq.
Qed.

(** Nothing is left to improve. *)
Definition settled pods : Prop :=
  ∀ i j x y pods', i ≠ j → pod_conflicts faced (default [] (pods !! i)) ≠ 0 →
    exchange pods i j x y = Some pods' →
    total_conflicts faced pods ≤ total_conflicts faced pods'.

Lemma search_None pods : search faced pods = None → settled pods.
Proof.
  unfold search. rewrite first_some_None. intros Hs i j x y pods' Hij Hc Hex.
  pose proof (exchange_total _ _ _ _ _ _ Hij Hex) as Htot.
  pose proof Hex as (pi&pj&a&b&Hi&Hj&Ha&Hb&_)%exchange_Some.
  specialize (Hs i). rewrite elem_of_seq in Hs. rewrite Hi in Hs, Hc. simpl in *.
  apply Nat.eqb_neq in Hc. rewrite Hc, first_some_None in Hs.
  specialize (Hs ltac:(apply lookup_lt_Some in Hi; lia) j). rewrite elem_of_seq in Hs.
  rewrite (proj2 (Nat.eqb_neq _ _)), first_some_None, Hj in Hs by done.
  specialize (Hs ltac:(apply lookup_lt_Some in Hj; lia) x). rewrite elem_of_seq in Hs.
  specialize (Hs ltac:(apply lookup_lt_Some in Ha; lia)). rewrite first_some_None in Hs.
  specialize (Hs y). rewrite elem_of_seq in Hs. simpl in Hs.
  specialize (Hs ltac:(apply lookup_lt_Some in Hb; lia)).
  unfold improves in Hs. rewrite Hex in Hs. simpl in Hs.
  destruct (Nat.ltb_spec (pair_conflicts faced pods' i j) (pair_conflicts faced pods i j));
    [done|lia].
Qed.

Lemma search_lowers pods pods' :
  search faced pods = Some pods' →
  total_conflicts faced pods' < total_conflicts faced pods ∧
  length <$> pods' = length <$> pods ∧ concat pods' ≡ₚ concat pods.
Proof.
  intros (i&j&x&y&Hij&Hex&Hlt)%search_Some.
  pose proof (exchange_total _ _ _ _ _ _ Hij Hex). split; [lia|].
  by eapply exchange_shape.
Qed.

Lemma repair_loop_total fuel pods :
  total_conflicts faced pods < fuel →
  ∃ pods', repair_loop faced fuel pods = Some pods' ∧
    length <$> pods' = length <$> pods ∧ concat pods' ≡ₚ concat pods ∧
    total_conflicts faced pods' ≤ total_conflicts faced pods ∧ settled pods'.
Proof.
  revert pods. induction fuel as [|fuel IH]; intros pods Hfuel; [lia|]. simpl.
  destruct (search faced pods) as [pods1|] eqn:Hs.
  - apply search_lowers in Hs as (Hlt&Hlen&Hp).
    destruct (IH pods1 ltac:(lia)) as (pods2&?&?&Hp2&?&?).
    exists pods2. split_and!; [done|congruence|by rewrite Hp2|lia|done].
  - exists pods. split_and!; [done..|]. by apply search_None.
Qed.
End repair.

(** C28. The repair of rematches ends: whatever the pods and whatever the history, the
    loop of exchanges stops within one pass more than the number of rematches it
    starts with; it keeps every pod's size and every player, never adds a rematch, and
    stops only when no exchange out of a pod that has a rematch would lower their
    number. *)
Theorem repair_rematches_total (faced : Faced) (pods : list (list string)) :
  ∃ pods', repair_rematches faced pods = Some pods' ∧
    length <$> pods' = length <$> pods ∧ concat pods' ≡ₚ concat pods ∧
    total_conflicts faced pods' ≤ total_conflicts faced pods ∧ settled faced pods'.
Proof. apply repair_loop_total. lia. Qed.

(** ** The round *)
Lemma number_pairings_lookup next r seatings i :
  (next < 2 ^ 32)%N →
  number_pairings next r seatings !! i =
  (λ s, {| id := wrap 32 (next + N.of_nat i); round := r;
           pairing_players := s.1; pairing_outcome := s.2 |}) <$> seatings !! i.
Proof.
  revert next i. induction seatings as [|[s o] seatings IH]; intros next [|i] Hn; simpl;
    try done.
  - by rewrite N.add_0_r, wrap_small.
  - rewrite IH by apply wrap_lt. destruct (seatings !! i); [|done]. simpl.
    unfold wadd. rewrite wrap_add_l.
    by replace (next + 1 + N.of_nat i)%N with (next + N.of_nat (S i))%N by lia.
Qed.
Lemma number_pairings_players next r seatings :
  pairing_players <$> number_pairings next r seatings = seatings.*1.
Proof.
  revert next. induction seatings as [|[s o] seatings IH]; intros next; simpl; [done|].
  by rewrite IH.
Qed.
Lemma number_pairings_outcomes next r seatings :
  pairing_outcome <$> number_pairings next r seatings = seatings.*2.
Proof.
  revert next. induction seatings as [|[s o] seatings IH]; intros next; simpl; [done|].
  by rewrite IH.
Qed.

Section round_spec.
Variables (order : list string) (a : MatchArity) (history : list TournamentPairing).
Hypothesis Ha : arity_wf a.

Let k := seats_of a.
Let part := partition_round (length order) a.
Let byed key := had_bye key history.
Let shorted key := had_short_pod key a history.

(** The round in terms of its stages. *)
Lemma build_swiss_round_stages r first :
  ∃ lone pool short rest pods,
    build_swiss_round order a history r first =
      Ok (number_pairings first r
            (((λ pod, (pod, None)) <$> pods) ++ ((λ p, ([p], Some Bye)) <$> lone))) ∧
    select_fair (E := TError) order (byes part) byed = Ok (lone, pool) ∧
    select_fair (E := TError) pool (short_pods part * (k - 1)) shorted = Ok (short, rest) ∧
    length lone = byes part ∧ length short = short_pods part * (k - 1) ∧
    length rest = full_pods part * k ∧
    length <$> pods = replicate (full_pods part) k ++ replicate (short_pods part) (k - 1) ∧
    concat pods ++ lone ≡ₚ order ∧ settled (faced_map history) pods.
Proof.
  destruct (partition_round_eq (length order) a Ha) as (f&s&b&Hpart&Hs&Heq&_).
  fold part k in Hpart, Heq, Hs. pose proof (seats_of_wf _ Ha) as Hk. fold k in Hk.
  assert (full_pods part * k + short_pods part * (k - 1) + byes part = length order) as Hsum.
  { rewrite Hpart. destruct (Nat.ltb_spec (k - 1) 2); cbn [full_pods short_pods byes]; nia. }
  clear Hpart Heq Hs. unfold build_swiss_round. fold part k.
  replace (N.to_nat (short_pod_size a)) with (k - 1)
    by (rewrite short_pod_size_wf by done; unfold k, seats_of; lia).
  destruct (select_fair_spec (byes part) byed (E := TError) order)
    as (lone&pool&Hl&Hll&Hlp&_).
  destruct (select_fair_spec (short_pods part * (k - 1)) shorted (E := TError) pool)
    as (short&rest&Hsh&Hshl&Hshp&_).
  apply Permutation_length in Hlp as Hlen1, Hshp as Hlen2. rewrite length_app in Hlen1, Hlen2.
  set (sizes := vec_resize _ _ _).
  assert (sizes = replicate (full_pods part) k ++ replicate (short_pods part) (k - 1)) as Hsizes.
  { subst sizes. unfold vec_resize. rewrite length_replicate.
    rewrite take_ge by (rewrite length_replicate; lia). do 2 f_equal. lia. }
  destruct (greedy_assign_exact (E := TError) (faced_map history) (rest ++ short) sizes)
    as (pods&Hgreedy&Hpl&Hpp).
  { rewrite Hsizes, length_app.
    assert (∀ n m, sum_list (replicate n m) = n * m) as Hrep.
    { intros n m. induction n as [|n IH]; simpl; lia. }
    assert (∀ l l', sum_list (l ++ l') = sum_list l + sum_list l') as Happ.
    { intros l l'. induction l as [|x l IH]; simpl; lia. }
    rewrite Happ, !Hrep. lia. }
  destruct (repair_loop_total (faced_map history)
    (S (total_conflicts (faced_map history) pods)) pods ltac:(lia))
    as (pods'&Hrep&Hlen&Hperm&_&Hset).
  exists lone, pool, short, rest, pods'. split_and!; [|done|done|lia|lia|lia| | |done].
  - subst byed shorted. cbv beta. rewrite Hl. cbn [mbind outcome_bind].
    rewrite Hsh. cbn [mbind outcome_bind]. rewrite Hgreedy. cbn [mbind outcome_bind].
    unfold repair_rematches. by rewrite Hrep.
  - by rewrite Hlen, Hpl.
  - rewrite Hperm, Hpp, <-Hlp, <-Hshp. solve_Permutation.
Qed.
End round_spec.

Lemma short_pods_head_to_head n a :
  arity_wf a → short_pods (partition_round n a) ≠ 0 → 2 < seats_of a.
Proof.
  intros Ha. destruct (partition_round_eq n a Ha) as (f&s&b&->&_).
  destruct (Nat.ltb_spec (seats_of a - 1) 2); [by cbn [short_pods]|lia].
Qed.

(** Pods have at least two seats, byes one. *)
Lemma round_seatings_outcome a n (pods : list (list string)) (lone : list string) i s :
  arity_wf a → let part := partition_round n a in
  length <$> pods =
    replicate (full_pods part) (seats_of a) ++ replicate (short_pods part) (seats_of a - 1) →
  (((λ pod, (pod, None)) <$> pods) ++ ((λ p, ([p], Some Bye)) <$> lone)) !! i = Some s →
  s.2 = (if length s.1 =? 1 then Some Bye else None) ∧
  (s.2 = Some Bye ↔ ∃ p, p ∈ lone ∧ s.1 = [p]).
Proof.
  intros Ha part Hlen Hs. apply list_elem_of_lookup_2, elem_of_app in Hs as [Hs|Hs].
  - apply list_elem_of_fmap in Hs as (pod&->&Hpod). simpl.
    assert (1 < length pod) as Hl.
    { apply (list_elem_of_fmap_2 length) in Hpod. rewrite Hlen, elem_of_app in Hpod.
      pose proof (seats_of_wf a Ha). destruct Hpod as [Hp|Hp]; apply elem_of_replicate in Hp.
      - lia.
      - destruct Hp as [-> Hne]. pose proof (short_pods_head_to_head n a Ha Hne). lia. }
    destruct (Nat.eqb_spec (length pod) 1); [lia|]. split; [done|]. split; [done|].
    intros (p&_&->). simpl in Hl. lia.
  - apply list_elem_of_fmap in Hs as (p&->&Hp). simpl. split; [done|]. naive_solver.
Qed.

(** A Swiss round is always built, and seats everybody once: for every field, pod
    size and history the round exists, its pairings together hold exactly the active
    players, each once; the pods come first and have the sizes of the partition, the
    byes come last; ids count up from the first one given; and a pairing is already
    resolved, as a bye, exactly when it seats a single player. *)
Theorem build_swiss_round_seats (order : list string) (a : MatchArity)
    (history : list TournamentPairing) (r first : N) :
  arity_wf a → (first < 2 ^ 32)%N →
  let part := partition_round (length order) a in
  ∃ ps, build_swiss_round order a history r first = Ok ps ∧
    concat (pairing_players <$> ps) ≡ₚ order ∧
    length <$> (pairing_players <$> ps) =
      replicate (full_pods part) (seats_of a) ++
      replicate (short_pods part) (seats_of a - 1) ++ replicate (byes part) 1 ∧
    ∀ i q, ps !! i = Some q →
      id q = wrap 32 (first + N.of_nat i) ∧ round q = r ∧
      pairing_outcome q = if length (pairing_players q) =? 1 then Some Bye else None.
Proof.
  intros Ha Hf part.
  destruct (build_swiss_round_stages order a history Ha r first)
    as (lone&pool&short&rest&pods&Heq&_&_&Hlone&_&_&Hlen&Hperm&_).
  eexists. split; [done|]. rewrite number_pairings_players. split_and!.
  - rewrite fmap_app, <-!list_fmap_compose, concat_app. unfold compose. simpl.
    rewrite list_fmap_id.
    assert (concat ((λ p, [p]) <$> lone) = lone) as ->; [|done].
    clear. induction lone as [|p l IH]; [done|]. cbn. f_equal. exact IH.
  - fold part in Hlen, Hlone.
    rewrite !fmap_app, <-!list_fmap_compose, (app_assoc (replicate _ _)), <-Hlen. f_equal.
    rewrite <-Hlone. clear. induction lone as [|p l IH]; [done|]. simpl. by f_equal.
  - intros i q Hq. rewrite number_pairings_lookup in Hq by done.
    apply fmap_Some in Hq as (s&Hs&->). simpl. split_and!; [done..|].
    by eapply round_seatings_outcome.
Qed.

Lemma build_swiss_round_seats_witness :
  ∃ ps, build_swiss_round ["a"; "b"; "c"; "d"; "e"]%string HEAD_TO_HEAD [] 1 0 = Ok ps ∧
    concat (pairing_players <$> ps) ≡ₚ ["a"; "b"; "c"; "d"; "e"]%string.
Proof.
  destruct (build_swiss_round_seats ["a"; "b"; "c"; "d"; "e"]%string HEAD_TO_HEAD [] 1 0)
    as (ps&?&?&_); [split; vm_compute; discriminate | vm_compute; reflexivity |].
  by exists ps.
Defined.

(** Byes and rematches in a Swiss round: whoever gets a bye was preferred for it to
    everyone who does not, that is, either had none before while the other did, or the
    two are equal in that respect and the bye goes to the lower in the standings; and
    the pods leave no exchange out of a pod with a rematch that would lower the number
    of repeated pairs, two players having met exactly when some earlier pairing seated
    both. *)
Theorem swiss_round_fair (order : list string) (a : MatchArity)
    (history : list TournamentPairing) (r first : N) ps :
  arity_wf a → (first < 2 ^ 32)%N → NoDup order →
  build_swiss_round order a history r first = Ok ps →
  let part := partition_round (length order) a in
  let lone x := ∃ q, q ∈ ps ∧ pairing_outcome q = Some Bye ∧ pairing_players q = [x] in
  (∀ i j x y, order !! i = Some x → order !! j = Some y → lone x → ¬ lone y →
    (had_bye x history = false ∧ had_bye y history = true) ∨
    (had_bye x history = had_bye y history ∧ j < i)) ∧
  settled (faced_map history)
    (take (full_pods part + short_pods part) (pairing_players <$> ps)) ∧
  (∀ x y, have_faced (faced_map history) x y = true ↔
    x ≠ y ∧ ∃ p, p ∈ history ∧ x ∈ pairing_players p ∧ y ∈ pairing_players p).
Proof.
  intros Ha Hf Hnd Hps part lone. subst lone.
  destruct (build_swiss_round_stages order a history Ha r first)
    as (lone&pool&short&rest&pods&Heq&Hsel&_&Hlone&_&_&Hlen&Hperm&Hset).
  rewrite Heq in Hps. injection Hps as <-. fold part in Hlen, Hsel.
  assert (∀ x, (∃ q, q ∈ number_pairings first r
      (((λ pod, (pod, None)) <$> pods) ++ ((λ p, ([p], Some Bye)) <$> lone)) ∧
      pairing_outcome q = Some Bye ∧ pairing_players q = [x]) ↔ x ∈ lone) as Halone.
  { intros x. split.
    - intros (q&[i Hq]%list_elem_of_lookup&Ho&Hx). rewrite number_pairings_lookup in Hq by done.
      apply fmap_Some in Hq as (s&Hs&->). simpl in Ho, Hx.
      eapply round_seatings_outcome in Hs as [_ Hs]; [|done..].
      apply Hs in Ho as (p&?&?). congruence.
    - intros [i Hx]%list_elem_of_lookup.
      eexists. split.
      + apply (list_elem_of_lookup_2 _ (length pods + i)).
        rewrite number_pairings_lookup by done.
        rewrite lookup_app_r by (rewrite length_fmap; lia).
        rewrite length_fmap, list_lookup_fmap.
        replace (length pods + i - length pods) with i by lia. by rewrite Hx.
      + done. }
  split_and!.
  - intros i j x y Hi Hj. rewrite !Halone. intros Hx Hy.
    destruct (select_fair_spec (byes part) (λ key, had_bye key history) (E := TError) order)
      as (lone'&pool'&Hsel'&_&Hp&_&_&Hfair).
    rewrite Hsel in Hsel'. injection Hsel' as <- <-.
    assert (y ∈ pool) as Hyp.
    { assert (y ∈ lone ++ pool) as Hin by (rewrite Hp; by eapply list_elem_of_lookup_2).
      apply elem_of_app in Hin. by destruct Hin. }
    specialize (Hfair Hnd i j x y Hi Hj Hx Hyp). unfold prefer, pick in Hfair.
    by rewrite Hi, Hj in Hfair.
  - rewrite number_pairings_players, fmap_app, <-list_fmap_compose. unfold compose. simpl.
    rewrite list_fmap_id. rewrite take_app_length'; [done|].
    rewrite <-(length_fmap length), Hlen, length_app, !length_replicate. done.
  - intros x y. apply faced_map_iff.
Qed.

Definition met_pairing : TournamentPairing :=
  {| id := 0; round := 1; pairing_players := ["a"; "b"]%string;
     pairing_outcome := Some (Reported Draw) |}.
Definition bye_pairing : TournamentPairing :=
  {| id := 1; round := 1; pairing_players := ["c"]%string; pairing_outcome := Some Bye |}.

Lemma swiss_round_fair_witness :
  ∃ ps, build_swiss_round ["a"; "b"; "c"]%string HEAD_TO_HEAD [met_pairing; bye_pairing] 2 2
    = Ok ps ∧
  settled (faced_map [met_pairing; bye_pairing]) (take 1 (pairing_players <$> ps)).
Proof.
  eexists. split; [vm_compute; reflexivity|].
  refine (proj1 (proj2 (swiss_round_fair ["a"; "b"; "c"]%string HEAD_TO_HEAD
    [met_pairing; bye_pairing] 2 2 _ _ _ _ _))).
  - split; vm_compute; discriminate.
  - vm_compute; reflexivity.
  - apply (bool_decide_unpack _). vm_compute. exact I.
  - vm_compute. reflexivity.
Defined.
