(* ===== verification/Standings.v ===== *)
(** * Standings and result validation

    The standings of [lobby-broker/src/tournament.rs]: the per-player records scanned
    from the pairing history, the tiebreak percentages (computed in binary64, here the
    bit-exact [SpecFloat] of the standard library), the ranking, and the validation of
    a reported result. *)
From Stdlib Require Import String.
From Stdlib Require Import Floats.SpecFloat.
From S2P Require Import Prelude.
From S2P Require Import Credentials.
From S2P Require Import TournamentTypes.
Local Open Scope N_scope.

(** ** Binary64 *)
Module F64.
Definition prec : Z := 53.
Definition emax : Z := 1024.
Definition of_u32 (n : N) : spec_float := binary_normalize prec emax (Z.of_N n) 0 false.
Definition add := SFadd prec emax.
Definition sub := SFsub prec emax.
Definition mul := SFmul prec emax.
Definition div := SFdiv prec emax.
Definition is_nan (x : spec_float) : bool := match x with S754_nan => true | _ => false end.
(** [f64::max]: a NaN argument is ignored. *)
Definition max (x y : spec_float) : spec_float :=
  match SFcompare x y with
  | Some Lt => y
  | Some _ => x
  | None => if is_nan x then y else x
  end.
Definition zero : spec_float := S754_zero false.
(** [partial_cmp(..).unwrap_or(Equal)]. *)
Definition cmp (x y : spec_float) : comparison := default Eq (SFcompare x y).
End F64.

(** ** Tiebreak data *)
Inductive TiebreakOrder := OrderHeadToHead | OrderMultiplayer.
Definition order_for_arity (a : MatchArity) : TiebreakOrder :=
  if decide (a = HEAD_TO_HEAD) then OrderHeadToHead else OrderMultiplayer.

Inductive Tiebreaks :=
  | HeadToHead (opponents_match_win_pct game_win_pct opponents_game_win_pct : spec_float)
  | Multiplayer (match_win_pct opponents_avg_match_points opponents_match_win_pct : spec_float).
Definition tiebreak_keys (t : Tiebreaks) : list spec_float :=
  match t with
  | HeadToHead a b c => [a; b; c]
  | Multiplayer a b c => [a; b; c]
  end.

Record TournamentStanding := {
  row_player_key : string;
  row_display_name : string;
  row_dropped : bool;
  row_match_points : N;
  row_matches_played : N;
  row_byes : N;
  row_tiebreaks : Tiebreaks;
}.

(** ** Player records *)
Record PlayerRecord := {
  match_points : N;
  matches_played : N;
  record_byes : N;
  record_game_wins : N;
  games_played : N;
  opponents : list string;
}.
Definition empty_record : PlayerRecord :=
  {| match_points := 0; matches_played := 0; record_byes := 0; record_game_wins := 0;
     games_played := 0; opponents := [] |}.

(** [record.f += n], in [u32]. *)
Definition add_to_record (points played byes wins games : N) (r : PlayerRecord) : PlayerRecord :=
  {| match_points := u32_add (match_points r) points;
     matches_played := u32_add (matches_played r) played;
     record_byes := u32_add (record_byes r) byes;
     record_game_wins := u32_add (record_game_wins r) wins;
     games_played := u32_add (games_played r) games;
     opponents := opponents r |}.

Definition credited (policy : ScoringPolicy) (winner key : string) : N :=
  if String.eqb winner key then win_points policy else loss_points policy.
(** The sum of the values of the tally. *)
Definition tally_games (game_wins : gmap string N) : N :=
  foldr (λ w total, u32_add w total) 0 (map_to_list game_wins).*2.

Definition score_outcome (policy : ScoringPolicy) (o : PairingOutcome) (key : string)
    (r : PlayerRecord) : PlayerRecord :=
  match o with
  | Bye => add_to_record (win_points policy) 0 1 2 2 r
  | Forfeit winner => add_to_record (credited policy winner key) 1 0 0 0 r
  | Reported Draw => add_to_record (draw_points policy) 1 0 0 0 r
  | Reported (Decisive winner game_wins) =>
      if decide (game_wins = ∅)
      then add_to_record (credited policy winner key) 1 0
             (if String.eqb winner key then 1 else 0) 1 r
      else add_to_record (credited policy winner key) 1 0
             (default 0 (game_wins !! key)) (tally_games game_wins) r
  end.
Definition meet_opponents (p : TournamentPairing) (key : string) (r : PlayerRecord) :
    PlayerRecord :=
  if (1 <? length (pairing_players p))%nat
  then {| match_points := match_points r; matches_played := matches_played r;
          record_byes := record_byes r; record_game_wins := record_game_wins r;
          games_played := games_played r;
          opponents := opponents r ++ filter (λ other, other ≠ key) (pairing_players p) |}
  else r.
Definition score_seat (policy : ScoringPolicy) (p : TournamentPairing) (o : PairingOutcome)
    (key : string) (r : PlayerRecord) : PlayerRecord :=
  meet_opponents p key (score_outcome policy o key r).

Abbreviation Records := (gmap string PlayerRecord).

Definition score_pairing (policy : ScoringPolicy) (records : Records) (p : TournamentPairing) :
    Records :=
  match pairing_outcome p with
  | None => records
  | Some o => foldl (λ rs key, alter (score_seat policy p o key) key rs) records (pairing_players p)
  end.
Definition player_records (m : TournamentMeta) : Records :=
  foldl (score_pairing (scoring m))
    (list_to_map ((λ p, (player_key p, empty_record)) <$> players m)) (pairings m).

(** ** Percentages *)
Definition tiebreak_floor (policy : ScoringPolicy) : spec_float :=
  F64.div (F64.of_u32 1) (F64.of_u32 (win_points policy)).
Definition match_win_pct (policy : ScoringPolicy) (r : PlayerRecord) : spec_float :=
  let floor := tiebreak_floor policy in
  if matches_played r =? 0 then floor
  else
    let per_win := F64.of_u32 (win_points policy) in
    let earned := F64.sub (F64.of_u32 (match_points r))
                    (F64.mul (F64.of_u32 (record_byes r)) per_win) in
    let possible := F64.mul (F64.of_u32 (matches_played r)) per_win in
    F64.max (F64.div earned possible) floor.
Definition game_win_pct (policy : ScoringPolicy) (r : PlayerRecord) : spec_float :=
  let floor := tiebreak_floor policy in
  if games_played r =? 0 then floor
  else F64.max (F64.div (F64.of_u32 (record_game_wins r)) (F64.of_u32 (games_played r))) floor.
Definition opponents_average (r : PlayerRecord) (records : Records) (empty : spec_float)
    (value : PlayerRecord → spec_float) : spec_float :=
  let met := omap (λ key, records !! key) (opponents r) in
  let total := foldl (λ total o, F64.add total (value o)) F64.zero met in
  let count := foldl (λ count _, u32_add count 1) 0 met in
  if count =? 0 then empty else F64.div total (F64.of_u32 count).

(** ** The ranking *)
Definition row_of (m : TournamentMeta) (records : Records) (p : TournamentPlayer) :
    outcome TError TournamentStanding :=
  r ← or_panic (records !! player_key p);
  let policy := scoring m in
  let floor := tiebreak_floor policy in
  let tiebreaks :=
    match order_for_arity (arity m) with
    | OrderHeadToHead =>
        HeadToHead (opponents_average r records floor (match_win_pct policy))
          (game_win_pct policy r)
          (opponents_average r records floor (game_win_pct policy))
    | OrderMultiplayer =>
        Multiplayer (match_win_pct policy r)
          (opponents_average r records F64.zero (λ o, F64.of_u32 (match_points o)))
          (opponents_average r records floor (match_win_pct policy))
    end in
  mret {| row_player_key := player_key p; row_display_name := display_name p;
          row_dropped := dropped p; row_match_points := match_points r;
          row_matches_played := matches_played r; row_byes := record_byes r;
          row_tiebreaks := tiebreaks |}.

(** The first key that tells two rows apart. *)
Definition compare_keys (xs ys : list spec_float) : comparison :=
  default Eq (find_first (λ c, negb (bool_decide (c = Eq))) (zip_with F64.cmp xs ys)).
Definition then_with (c d : comparison) : comparison := match c with Eq => d | _ => c end.
Definition compare_rows (x y : TournamentStanding) : comparison :=
  then_with (row_match_points y ?= row_match_points x)
    (then_with (compare_keys (tiebreak_keys (row_tiebreaks y)) (tiebreak_keys (row_tiebreaks x)))
       (String.compare (row_player_key x) (row_player_key y))).
Definition row_le (x y : TournamentStanding) : Prop := compare_rows x y ≠ Gt.
#[export] Instance row_le_dec : RelDecision row_le.
Proof. intros x y. unfold row_le. apply _. Defined.

(** Evaluating a fallible function over a list, left to right. *)
Fixpoint try_map {E A B} (f : A → outcome E B) (l : list A) : outcome E (list B) :=
  match l with
  | [] => mret []
  | x :: l => y ← f x; ys ← try_map f l; mret (y :: ys)
  end.

(** [sort_by] is a stable merge sort, like [merge_sort]. *)
Definition standings (m : TournamentMeta) : outcome TError (list TournamentStanding) :=
  rows ← try_map (row_of m (player_records m)) (players m);
  mret (merge_sort row_le rows).

(** ** Validation of a reported result *)
Definition validate_match_result (p : TournamentPairing) (result : PodOutcome)
    (players : list TournamentPlayer) (mt : MatchType) : outcome TError unit :=
  match result with
  | Draw => mret tt
  | Decisive winner game_wins =>
      if negb (existsb (String.eqb winner) (pairing_players p)) then Err WinnerNotInPod
      else if existsb (λ q, String.eqb (player_key q) winner && dropped q) players
      then Err WinnerDropped
      else match mt with
      | Bo3 =>
          match pairing_players p with
          | [a; b] =>
              match game_wins !! a, game_wins !! b with
              | Some wa, Some wb =>
                  if negb (size game_wins =? 2)%nat then Err Bo3Keys
                  else if negb (existsb (λ t, bool_decide (t = (wa, wb)))
                                  [(2, 0); (2, 1); (0, 2); (1, 2)])
                  then Err (Bo3Tally wa wb)
                  else if negb (String.eqb winner (if wb <? wa then a else b))
                  then Err Bo3Winner
                  else mret tt
              | _, _ => Err Bo3Keys
              end
          | _ => Err Bo3NotPair
          end
      | Bo1 => if decide (game_wins = ∅) then mret tt else Err SingleGameHasTally
      end
  end.

(** ** Lemmas: records *)
Section records.
Variable policy : ScoringPolicy.
Implicit Types (p : TournamentPairing) (records : Records) (key : string).

(** One pairing's effect on the record of one player. *)
Definition score_for key (r : PlayerRecord) p : PlayerRecord :=
  match pairing_outcome p with
  | Some o => if decide (key ∈ pairing_players p) then score_seat policy p o key r else r
  | None => r
  end.

Lemma score_pairing_lookup records p key :
  NoDup (pairing_players p) →
  score_pairing policy records p !! key = (λ r, score_for key r p) <$> records !! key.
Proof.
  unfold score_pairing, score_for. destruct (pairing_outcome p) as [o|].
  2: { intros _. by destruct (records !! key). }
  generalize (score_seat policy p o) as f. intros f Hnd.
  revert records. induction Hnd as [|k l Hk _ IH]; intros records; simpl.
  { by destruct (records !! key). }
  rewrite IH. destruct (decide (k = key)) as [->|Hne].
  - rewrite lookup_alter_eq. destruct (records !! key) as [r|]; [|done]. simpl.
    by rewrite decide_False, decide_True by (done || by left).
  - rewrite lookup_alter_ne by done. destruct (records !! key) as [r|]; [|done]. simpl.
    f_equal. apply decide_ext. rewrite elem_of_cons. naive_solver.
Qed.

Lemma score_pairings_lookup ps records key :
  Forall (λ p, NoDup (pairing_players p)) ps →
  foldl (score_pairing policy) records ps !! key =
  (λ r, foldl (score_for key) r ps) <$> records !! key.
Proof.
  intros Hps. revert records. induction Hps as [|p ps Hp _ IH]; intros records; simpl.
  { by destruct (records !! key). }
  rewrite IH, score_pairing_lookup by done. by destruct (records !! key).
Qed.

(** The points, matches and byes one pairing gives one player. *)
Definition outcome_points (o : PairingOutcome) key : N :=
  match o with
  | Bye => win_points policy
  | Forfeit winner | Reported (Decisive winner _) => credited policy winner key
  | Reported Draw => draw_points policy
  end.
Definition seated_in key p : Prop := key ∈ pairing_players p.
#[local] Instance seated_in_dec key p : Decision (seated_in key p).
Proof. unfold seated_in. apply _. Defined.
Definition pairing_points key p : N :=
  match pairing_outcome p with
  | Some o => if decide (seated_in key p) then outcome_points o key else 0
  | None => 0
  end.
Definition pairing_played key p : N :=
  match pairing_outcome p with
  | Some Bye | None => 0
  | Some _ => if decide (seated_in key p) then 1 else 0
  end.
Definition pairing_byes key p : N :=
  match pairing_outcome p with
  | Some Bye => if decide (seated_in key p) then 1 else 0
  | _ => 0
  end.
Definition total (f : TournamentPairing → N) (ps : list TournamentPairing) : N :=
  foldr (λ p n, f p + n) 0 ps.

(** A counter of the record that each pairing raises by its own contribution. *)
Definition counts (f : PlayerRecord → N) (g : TournamentPairing → N) key : Prop :=
  ∀ r p, f r < 2 ^ 32 → f (score_for key r p) = wrap 32 (f r + g p).

Lemma counts_total f g key r ps :
  counts f g key → f r < 2 ^ 32 →
  f (foldl (score_for key) r ps) = wrap 32 (f r + total g ps).
Proof.
  intros Hc. revert r. induction ps as [|p ps IH]; intros r Hr; simpl.
  { by rewrite N.add_0_r, wrap_small. }
  rewrite IH; rewrite (Hc r p Hr); [|apply wrap_lt].
  by rewrite wrap_add_l, N.add_assoc.
Qed.

Ltac count_cases :=
  intros r p Hr; unfold score_for, pairing_points, pairing_played, pairing_byes, seated_in,
    score_seat, meet_opponents, score_outcome;
  destruct (pairing_outcome p) as [[| |[??|]]|]; repeat case_decide; repeat case_match;
  rewrite ?N.add_0_r, ?wrap_small by done; try done;
  simpl; unfold wadd; rewrite ?N.add_0_r; try done; by apply wrap_small.

Lemma points_counts key : counts match_points (pairing_points key) key.
Proof. count_cases. Qed.
Lemma played_counts key : counts matches_played (pairing_played key) key.
Proof. count_cases. Qed.
Lemma byes_counts key : counts record_byes (pairing_byes key) key.
Proof. count_cases. Qed.
End records.

Lemma player_records_lookup m key :
  Forall (λ p, NoDup (pairing_players p)) (pairings m) →
  player_records m !! key =
  if decide (key ∈ player_key <$> players m)
  then Some (foldl (score_for (scoring m) key) empty_record (pairings m)) else None.
Proof.
  intros Hps. unfold player_records. rewrite score_pairings_lookup by done.
  assert ((list_to_map ((λ p, (player_key p, empty_record)) <$> players m) : Records) !! key =
    if decide (key ∈ player_key <$> players m) then Some empty_record else None) as ->.
  { clear. induction (players m) as [|p l IH]; [done|].
    rewrite !fmap_cons, list_to_map_cons.
    destruct (decide (player_key p = key)) as [->|Hne].
    - rewrite lookup_insert_eq, decide_True by left. done.
    - rewrite lookup_insert_ne, IH by done. apply decide_ext. rewrite elem_of_cons.
      naive_solver. }
  by case_decide.
Qed.

(** ** Lemmas: the ranking *)
Lemma sf_compare_antisym x y : F64.cmp y x = CompOpp (F64.cmp x y).
Proof.
  unfold F64.cmp, SFcompare.
  destruct x as [sx|sx| |sx mx ex], y as [sy|sy| |sy my ey]; try destruct sx; try destruct sy;
    try done; simpl;
    rewrite (Z.compare_antisym ex ey); destruct (ex ?= ey)%Z; simpl; try done;
    by rewrite (Pos.compare_cont_antisym mx my Eq).
Qed.

Lemma compare_keys_antisym xs ys : compare_keys ys xs = CompOpp (compare_keys xs ys).
Proof.
  unfold compare_keys. revert ys. induction xs as [|x xs IH]; intros [|y ys]; try done.
  simpl. rewrite (sf_compare_antisym x y). specialize (IH ys).
  by destruct (F64.cmp x y).
Qed.
Lemma compare_rows_antisym x y : compare_rows y x = CompOpp (compare_rows x y).
Proof.
  unfold compare_rows. rewrite (N.compare_antisym (row_match_points y)).
  rewrite (compare_keys_antisym (tiebreak_keys (row_tiebreaks y))).
  rewrite (String.compare_antisym (row_player_key y)).
  destruct (row_match_points y ?= row_match_points x); simpl; try done.
  by destruct (compare_keys _ _).
Qed.
#[export] Instance row_le_total : Total row_le.
Proof.
  intros x y. unfold row_le. rewrite (compare_rows_antisym x y).
  destruct (compare_rows x y); simpl; [by left..|by right].
Qed.

Lemma row_le_points x y : row_le x y → row_match_points y <= row_match_points x.
Proof.
  unfold row_le, compare_rows, N.le. intros Hle Hgt.
  by rewrite Hgt in Hle.
Qed.

Lemma sorted_points rows :
  Sorted row_le rows →
  StronglySorted (λ x y, row_match_points y <= row_match_points x) rows.
Proof.
  intros Hs. apply Sorted_StronglySorted; [intros x y z ??; lia|].
  induction Hs as [|x rows Hs IH Hx]; constructor; [done|].
  destruct Hx; constructor. by apply row_le_points.
Qed.

Lemma try_map_ok {E A B} (f : A → outcome E B) l (g : A → B) :
  (∀ x, x ∈ l → f x = Ok (g x)) → try_map f l = Ok (g <$> l).
Proof.
  induction l as [|x l IH]; intros Hf; simpl; [done|].
  rewrite Hf by left. simpl. rewrite IH by (intros; apply Hf; by right). done.
Qed.

(** A row, its record being there. *)
Lemma row_of_spec m p :
  Forall (λ q, NoDup (pairing_players q)) (pairings m) → p ∈ players m →
  ∃ row, row_of m (player_records m) p = Ok row ∧
    row_player_key row = player_key p ∧ row_dropped row = dropped p ∧
    row_display_name row = display_name p ∧
    row_match_points row =
      wrap 32 (total (pairing_points (scoring m) (player_key p)) (pairings m)) ∧
    row_matches_played row = wrap 32 (total (pairing_played (player_key p)) (pairings m)) ∧
    row_byes row = wrap 32 (total (pairing_byes (player_key p)) (pairings m)).
Proof.
  intros Hnd Hp. unfold row_of. rewrite player_records_lookup by done.
  rewrite decide_True by (apply list_elem_of_fmap; eauto). simpl.
  set (r := foldl _ _ _).
  eexists. split; [done|]. simpl. split_and!; try done.
  - exact (counts_total _ _ _ (player_key p) empty_record (pairings m) (points_counts _ _) eq_refl).
  - exact (counts_total _ _ _ (player_key p) empty_record (pairings m) (played_counts _ _) eq_refl).
  - exact (counts_total _ _ _ (player_key p) empty_record (pairings m) (byes_counts _ _) eq_refl).
Qed.

Definition row_default (m : TournamentMeta) (p : TournamentPlayer) : TournamentStanding :=
  match row_of m (player_records m) p with
  | Ok row => row
  | _ => {| row_player_key := player_key p; row_display_name := display_name p;
            row_dropped := dropped p; row_match_points := 0; row_matches_played := 0;
            row_byes := 0; row_tiebreaks := HeadToHead F64.zero F64.zero F64.zero |}
  end.

Lemma standings_rows m :
  Forall (λ q, NoDup (pairing_players q)) (pairings m) →
  standings m = Ok (merge_sort row_le (row_default m <$> players m)).
Proof.
  intros Hnd. unfold standings. rewrite (try_map_ok _ _ (row_default m)); [done|].
  intros p Hp. unfold row_default. by destruct (row_of_spec m p Hnd Hp) as (row&->&_).
Qed.
Lemma row_default_spec m p :
  Forall (λ q, NoDup (pairing_players q)) (pairings m) → p ∈ players m →
  row_player_key (row_default m p) = player_key p ∧
  row_dropped (row_default m p) = dropped p.
Proof.
  intros Hnd Hp. unfold row_default.
  by destruct (row_of_spec m p Hnd Hp) as (row&->&?&?&_).
Qed.

(** The standings are a function of the recorded history: whenever no pairing seats
    a player twice they are computed without panicking; every entrant has one row,
    which carries the sum (in 32-bit arithmetic) of the points of the resolved
    pairings that seat the player, under the event's scoring, and their matches and
    byes; the rows come by match points, highest first, and neighbouring rows never
    stand in the wrong order for the tiebreaks and the key either. *)
Theorem standings_from_history (m : TournamentMeta) :
  Forall (λ q, NoDup (pairing_players q)) (pairings m) →
  ∃ rows, standings m = Ok rows ∧
    (row_player_key <$> rows) ≡ₚ (player_key <$> players m) ∧
    StronglySorted (λ x y, row_match_points y <= row_match_points x) rows ∧
    Sorted row_le rows ∧
    ∀ row, row ∈ rows →
      row_match_points row =
        wrap 32 (total (pairing_points (scoring m) (row_player_key row)) (pairings m)) ∧
      row_matches_played row =
        wrap 32 (total (pairing_played (row_player_key row)) (pairings m)) ∧
      row_byes row = wrap 32 (total (pairing_byes (row_player_key row)) (pairings m)).
Proof.
  intros Hnd. rewrite standings_rows by done. eexists. split; [done|].
  set (rows := merge_sort _ _).
  assert (rows ≡ₚ row_default m <$> players m) as Hp by apply merge_sort_Permutation.
  assert (Sorted row_le rows) as Hs by (apply Sorted_merge_sort; apply _).
  split_and!; [|by apply sorted_points|done|].
  - rewrite Hp, <-list_fmap_compose.
    replace (row_player_key ∘ row_default m <$> players m)
      with (player_key <$> players m); [done|].
    apply list_fmap_ext. intros i p Hi%list_elem_of_lookup_2. symmetry.
    by apply row_default_spec.
  - intros row. rewrite Hp. intros (p&->&Hin)%list_elem_of_fmap.
    unfold row_default. destruct (row_of_spec m p Hnd Hin) as (row&->&->&_&_&?&?&?). done.
Qed.

Definition drawn_event : TournamentMeta :=
  {| code := "T"; name := "event";
     organizer_token := {| secret := "s"; expires_at_ms := 1; last_rotation := None |};
     arity := HEAD_TO_HEAD; scoring := {| win_points := 3; draw_points := 1; loss_points := 0 |};
     bracket := Swiss; total_rounds_override := None; resolved_total_rounds := Some 3;
     plus_rounds := None; event_format := None; match_type := Bo3; current_round := 1;
     status := InProgress;
     players :=
       (λ k, {| player_key := k; display_name := k; dropped := false;
                player_token := {| secret := k; expires_at_ms := 1; last_rotation := None |} |})
       <$> ["a"; "b"; "c"];
     pairings :=
       [{| id := 0; round := 1; pairing_players := ["a"; "b"];
           pairing_outcome := Some (Reported (Decisive "b" (<["a" := 1]> {["b" := 2]}))) |};
        {| id := 1; round := 1; pairing_players := ["c"]; pairing_outcome := Some Bye |}];
     hosted := ∅; created_at := 0; last_activity_at := 0 |}%string.

Lemma standings_from_history_witness :
  ∃ rows, standings drawn_event = Ok rows ∧
    (row_player_key <$> rows) ≡ₚ ["a"; "b"; "c"]%string ∧
    row_match_points <$> rows = [3; 3; 0].
Proof.
  destruct (standings_from_history drawn_event) as (rows&Heq&Hp&_).
  - apply (bool_decide_unpack _). vm_compute. exact I.
  - exists rows. split_and!; [done|exact Hp|]. vm_compute in Heq. by injection Heq as <-.
Defined.

(** ** Lemmas: validation *)
Lemma size_two_map (g : gmap string N) a b wa wb :
  a ≠ b → g !! a = Some wa → g !! b = Some wb →
  size g = 2%nat ↔ g = <[a := wa]> {[b := wb]}.
Proof.
  intros Hab Ha Hb. split.
  - intros Hs. assert (delete a g !! b = Some wb) as Hb' by (by rewrite lookup_delete_ne).
    assert (size (delete a g) = Nat.pred (size g)) as H1
      by (apply map_size_delete_Some; eauto).
    assert (size (delete b (delete a g)) = Nat.pred (size (delete a g))) as H2
      by (apply map_size_delete_Some; eauto).
    assert (delete b (delete a g) = ∅) as He by (apply map_size_empty_inv; lia).
    rewrite <-(insert_delete_id g a wa Ha), <-(insert_delete_id (delete a g) b wb Hb'), He.
    done.
  - intros ->. rewrite map_size_insert_None by (by rewrite lookup_singleton_ne).
    by rewrite map_size_singleton.
Qed.

Lemma existsb_elem (P : string → bool) l : existsb P l = true ↔ ∃ x, x ∈ l ∧ P x = true.
Proof. rewrite existsb_exists. setoid_rewrite list_elem_of_In. done. Qed.
Lemma seats_elem k (l : list string) : existsb (String.eqb k) l = true ↔ k ∈ l.
Proof. rewrite existsb_elem. setoid_rewrite String.eqb_eq. naive_solver. Qed.

Definition has_dropped (ps : list TournamentPlayer) (key : string) : Prop :=
  ∃ q, q ∈ ps ∧ player_key q = key ∧ dropped q = true.
Lemma has_dropped_existsb ps key :
  existsb (λ q, String.eqb (player_key q) key && dropped q) ps = true ↔ has_dropped ps key.
Proof.
  rewrite existsb_exists. unfold has_dropped. setoid_rewrite list_elem_of_In.
  setoid_rewrite andb_true_iff. setoid_rewrite String.eqb_eq. done.
Qed.

(** The legal shape of a result, by the event's match type. *)
Definition legal_result (p : TournamentPairing) (res : PodOutcome)
    (ps : list TournamentPlayer) (mt : MatchType) : Prop :=
  match res with
  | Draw => True
  | Decisive winner wins =>
      winner ∈ pairing_players p ∧ ¬ has_dropped ps winner ∧
      match mt with
      | Bo1 => wins = ∅
      | Bo3 => ∃ loser games, pairing_players p ≡ₚ [winner; loser] ∧ games <= 1 ∧
                 wins = <[winner := 2]> {[loser := games]}
      end
  end.

Definition bo3_tally (wa wb : N) : bool :=
  existsb (λ t, bool_decide (t = (wa, wb))) [(2, 0); (2, 1); (0, 2); (1, 2)].
Lemma bo3_tally_true wa wb :
  bo3_tally wa wb = true ↔ (wa = 2 ∧ wb <= 1) ∨ (wb = 2 ∧ wa <= 1).
Proof.
  unfold bo3_tally. simpl. rewrite !orb_true_iff, !bool_decide_eq_true.
  split; [naive_solver lia|].
  intros [[-> H]|[-> H]]; (assert (wa = 0 ∨ wa = 1) as [-> | ->] by lia) ||
    (assert (wb = 0 ∨ wb = 1) as [-> | ->] by lia); auto 10.
Qed.

(** The Bo3 branch, for the two players of the pairing. *)
Definition bo3_check (a b winner : string) (wins : gmap string N) : Prop :=
  ∃ wa wb, wins !! a = Some wa ∧ wins !! b = Some wb ∧ size wins = 2%nat ∧
    bo3_tally wa wb = true ∧ winner = (if wb <? wa then a else b).

Lemma bo3_check_iff a b winner wins :
  a ≠ b →
  bo3_check a b winner wins ↔
  ∃ loser games, [a; b] ≡ₚ [winner; loser] ∧ games <= 1 ∧
    wins = <[winner := 2]> {[loser := games]}.
Proof.
  intros Hab. unfold bo3_check. setoid_rewrite bo3_tally_true. split.
  - intros (wa&wb&Ha&Hb&Hs&Ht&->). apply (size_two_map _ a b wa wb) in Hs; [|done..].
    destruct Ht as [[-> Hle]|[-> Hle]].
    + rewrite (proj2 (N.ltb_lt _ _)) by lia. by exists b, wb.
    + rewrite (proj2 (N.ltb_ge _ _)) by lia. exists a, wa. split_and!; [by constructor|done|].
      rewrite Hs. rewrite <-!insert_empty. by rewrite insert_insert_ne.
  - intros (loser&games&Hp&Hle&->).
    assert ((winner = a ∧ loser = b) ∨ (winner = b ∧ loser = a)) as [[-> ->]|[-> ->]].
    { assert (winner ∈ [a; b]) as Hw by (rewrite Hp; left).
      assert (loser ∈ [a; b]) as Hl by (rewrite Hp; right; left).
      assert (NoDup [winner; loser]) as Hnd.
      { rewrite <-Hp. repeat constructor; rewrite ?list_elem_of_singleton; set_solver. }
      apply NoDup_cons in Hnd as [Hne _]. set_solver. }
    + exists 2, games. rewrite lookup_insert_eq, lookup_insert_ne, lookup_singleton_eq by done.
      rewrite (proj2 (N.ltb_lt _ _)) by lia. split_and!; [done|done| |by left|done].
      by eapply size_two_map; [exact Hab|rewrite ?lookup_insert_eq; done|
        rewrite lookup_insert_ne, lookup_singleton_eq by done; done|].
    + exists games, 2. rewrite lookup_insert_eq, lookup_insert_ne, lookup_singleton_eq by done.
      rewrite (proj2 (N.ltb_ge _ _)) by lia. split_and!; [done|done| |by right|done].
      rewrite map_size_insert_None by (by rewrite lookup_singleton_ne).
      by rewrite map_size_singleton.
Qed.

Lemma bo3_branch a b winner wins :
  (match wins !! a, wins !! b with
   | Some wa, Some wb =>
       if negb (size wins =? 2)%nat then Err Bo3Keys
       else if negb (bo3_tally wa wb) then Err (Bo3Tally wa wb)
       else if negb (String.eqb winner (if wb <? wa then a else b)) then Err Bo3Winner
       else mret tt
   | _, _ => Err Bo3Keys
   end : outcome TError unit) = Ok tt ↔ bo3_check a b winner wins.
Proof.
  unfold bo3_check. destruct (wins !! a) as [wa|]; [|naive_solver].
  destruct (wins !! b) as [wb|]; [|naive_solver].
  destruct (Nat.eqb_spec (size wins) 2) as [Hs|Hs]; simpl.
  2: { split; [done|]. by intros (?&?&_&_&?&_). }
  destruct (bo3_tally wa wb) eqn:Ht; simpl.
  2: { split; [done|]. intros (?&?&[= <-]&[= <-]&_&?&_). congruence. }
  destruct (String.eqb_spec winner (if wb <? wa then a else b)) as [->|Hw]; simpl.
  - split; [|done]. intros _. by exists wa, wb.
  - split; [done|]. by intros (?&?&[= <-]&[= <-]&_&_&?).
Qed.

Lemma validate_ok p res ps mt :
  NoDup (pairing_players p) →
  validate_match_result p res ps mt = Ok tt ↔ legal_result p res ps mt.
Proof.
  intros Hnd. destruct res as [winner wins|]; [|done]. simpl.
  destruct (existsb (String.eqb winner) (pairing_players p)) eqn:Hw; simpl.
  2: { split; [done|]. intros [Hin _]. apply seats_elem in Hin. congruence. }
  apply seats_elem in Hw.
  destruct (existsb _ ps) eqn:Hd.
  { apply has_dropped_existsb in Hd. split; [done|]. tauto. }
  assert (¬ has_dropped ps winner) as Hnd'.
  { intros Hx%has_dropped_existsb. congruence. }
  destruct mt; [case_decide; naive_solver|].
  destruct (pairing_players p) as [|a [|b [|c l]]] eqn:Hp.
  1,2,4: split; [done|]; intros (_&_&loser&games&Hperm&_);
    apply Permutation_length in Hperm; simpl in Hperm; lia.
  assert (a ≠ b) as Hab.
  { apply NoDup_cons in Hnd as [Hn _]. intros ->. apply Hn. left. }
  etrans; [apply bo3_branch|]. rewrite bo3_check_iff by done. tauto.
Qed.

Lemma validate_total p res ps mt : validate_match_result p res ps mt ≠ Panic.
Proof. unfold validate_match_result. by repeat case_match. Qed.

(** A reported result is accepted exactly when it is legal: a draw always; a decided
    single game exactly when its winner sits in the pairing and has not dropped and no
    game tally is given; a decided best-of-three exactly when, besides, the pairing is
    the winner and one opponent and the tally gives the winner two games and the
    opponent none or one, and names nobody else; everything else is refused with an
    error, never with a panic. *)
Theorem validate_match_result_legal (p : TournamentPairing) (res : PodOutcome)
    (ps : list TournamentPlayer) (mt : MatchType) :
  NoDup (pairing_players p) →
  (validate_match_result p res ps mt = Ok tt ↔ legal_result p res ps mt) ∧
  ((∃ e, validate_match_result p res ps mt = Err e) ↔ ¬ legal_result p res ps mt).
Proof.
  intros Hnd. rewrite <-validate_ok by done. split; [done|].
  pose proof (validate_total p res ps mt).
  destruct (validate_match_result p res ps mt) as [[]|e|]; naive_solver.
Qed.

Lemma validate_match_result_legal_witness :
  validate_match_result
    {| id := 0; round := 1; pairing_players := ["a"; "b"]; pairing_outcome := None |}
    (Decisive "a" (<["a" := 2]> {["b" := 1]})) [] Bo3 = Ok tt ∧
  ∃ e, validate_match_result
    {| id := 0; round := 1; pairing_players := ["a"; "b"]; pairing_outcome := None |}
    (Decisive "z" ∅) [] Bo3 = Err e.
Proof.
  split.
  - apply validate_match_result_legal; [apply (bool_decide_unpack _); vm_compute; exact I|].
    split; [left|]. split; [by intros (q&?%elem_of_nil&_)|].
    exists "b"%string, 1. done.
  - apply validate_match_result_legal; [apply (bool_decide_unpack _); vm_compute; exact I|].
    intros [Hz _]. apply seats_elem in Hz. discriminate.
Defined.
