(* ===== verification/Brackets.v ===== *)
(** * Single-elimination brackets

    [build_single_elimination_round] of [lobby-broker/src/tournament.rs]: the seeded
    first round, whose empty slots become byes of the top seeds, and the later rounds,
    which pair the winners of adjacent matches. *)
From Stdlib Require Import String.
From S2P Require Import Prelude.
From S2P Require Import TournamentTypes.
From S2P Require Import Standings.

Definition SINGLE_ELIMINATION_MIN_PLAYERS : nat := 2.
Definition SINGLE_ELIMINATION_MAX_PLAYERS : nat := 8.

Definition bracket_slots (n : nat) : nat := N.to_nat (next_power_of_two (N.of_nat n)).

(** The first round: slot [i] against slot [slots - 1 - i]. *)
Definition seeded_pods (order : list string) : outcome TError (list (list string)) :=
  let n := length order in
  if negb ((SINGLE_ELIMINATION_MIN_PLAYERS <=? n) && (n <=? SINGLE_ELIMINATION_MAX_PLAYERS))
  then Err (BracketSize n)
  else
    let slots := bracket_slots n in
    try_map (λ i,
      top ← or_panic (order !! i);
      mret (match order !! (slots - 1 - i) with
            | Some lower_seed => [top; lower_seed]
            | None => [top]
            end)) (seq 0 (slots / 2)).

Definition advancing (p : TournamentPairing) : outcome TError string :=
  ok_or (pairing_winner p) (NoWinnerYet (id p)).

(** A later round: the winners of the round before, two by two. *)
Definition advanced_pods (history : list TournamentPairing) (r : N) :
    outcome TError (list (list string)) :=
  let previous := filter (λ p, round p = (r - 1)%N) history in
  if length previous <? 2 then Err BracketDecided
  else winners ← try_map advancing previous; mret (chunks2 winners).

Definition build_single_elimination_round (order : list string)
    (history : list TournamentPairing) (r first_id : N) :
    outcome TError (list TournamentPairing) :=
  pods ← if (r <=? 1)%N then seeded_pods order else advanced_pods history r;
  mret (imap (λ offset players,
    {| id := u32_add first_id (wrap 32 (N.of_nat offset)); round := r;
       pairing_players := players;
       pairing_outcome := if length players =? 1 then Some Bye else None |}) pods).

(** ** Lemmas *)
Lemma try_map_inv {E A B} (f : A → outcome E B) l ys :
  try_map f l = Ok ys → Forall2 (λ x y, f x = Ok y) l ys.
Proof.
  revert ys. induction l as [|x l IH]; intros ys; simpl.
  { intros [= <-]. constructor. }
  destruct (f x) as [y| |] eqn:Hx; simpl; [|done..].
  destruct (try_map f l) as [zs| |] eqn:Hl; simpl; [|done..].
  intros [= <-]. constructor; [done|]. by apply IH.
Qed.

Lemma bracket_depth n :
  SINGLE_ELIMINATION_MIN_PLAYERS ≤ n ≤ SINGLE_ELIMINATION_MAX_PLAYERS →
  ∃ d : nat, default_total_rounds SingleElimination HEAD_TO_HEAD (N.of_nat n) = N.of_nat (S d) ∧
    bracket_slots n = 2 * 2 ^ d ∧ 2 ^ d < n ≤ 2 * 2 ^ d.
Proof.
  unfold SINGLE_ELIMINATION_MIN_PLAYERS, SINGLE_ELIMINATION_MAX_PLAYERS. intros Hn.
  destruct (decide (n = 2)) as [->|]; [by exists 0; split_and!; vm_compute; try lia|].
  destruct (decide (n ≤ 4)) as [|].
  { exists 1. assert (n = 3 ∨ n = 4) as [-> | ->] by lia; split_and!; vm_compute; lia || done. }
  exists 2. assert (n = 5 ∨ n = 6 ∨ n = 7 ∨ n = 8) as [-> |[-> |[-> | ->]]] by lia;
    split_and!; vm_compute; lia || done.
Qed.

(** The pairing made of one pod. *)
Definition pod_pairing (r first : N) (offset : nat) (players : list string) :
    TournamentPairing :=
  {| id := u32_add first (wrap 32 (N.of_nat offset)); round := r;
     pairing_players := players;
     pairing_outcome := if length players =? 1 then Some Bye else None |}.

Lemma build_first_round order history r first :
  (r <= 1)%N →
  build_single_elimination_round order history r first =
  imap (pod_pairing r first) <$> seeded_pods order.
Proof.
  intros Hr. unfold build_single_elimination_round.
  rewrite (proj2 (N.leb_le _ _)) by done. by destruct (seeded_pods order).
Qed.
Lemma build_later_round order history r first :
  (1 < r)%N →
  build_single_elimination_round order history r first =
  imap (pod_pairing r first) <$> advanced_pods history r.
Proof.
  intros Hr. unfold build_single_elimination_round.
  rewrite (proj2 (N.leb_gt _ _)) by done. by destruct (advanced_pods history r).
Qed.

Lemma imap_players r first pods :
  pairing_players <$> imap (pod_pairing r first) pods = pods.
Proof.
  rewrite fmap_imap. unfold compose. simpl.
  apply list_eq. intros i. rewrite list_lookup_imap. by destruct (pods !! i).
Qed.

Lemma seeded_pods_ok order d :
  SINGLE_ELIMINATION_MIN_PLAYERS ≤ length order ≤ SINGLE_ELIMINATION_MAX_PLAYERS →
  bracket_slots (length order) = 2 * 2 ^ d → 2 ^ d < length order →
  seeded_pods order = Ok ((λ i, option_list (order !! i) ++
    option_list (order !! (2 * 2 ^ d - 1 - i))) <$> seq 0 (2 ^ d)).
Proof.
  intros [H1 H2] Hslots Hd. unfold seeded_pods.
  rewrite (proj2 (Nat.leb_le _ _) H1), (proj2 (Nat.leb_le _ _) H2), Hslots.
  cbn [andb negb]. replace (2 * 2 ^ d / 2) with (2 ^ d)
    by (rewrite Nat.mul_comm, Nat.div_mul by lia; done).
  apply try_map_ok. intros i Hi%elem_of_seq.
  destruct (lookup_lt_is_Some_2 order i ltac:(lia)) as [top Htop]. rewrite Htop.
  by destruct (order !! (2 * 2 ^ d - 1 - i)).
Qed.

Lemma seeded_pods_perm order pods :
  SINGLE_ELIMINATION_MIN_PLAYERS ≤ length order ≤ SINGLE_ELIMINATION_MAX_PLAYERS →
  seeded_pods order = Ok pods → concat pods ≡ₚ order.
Proof.
  unfold SINGLE_ELIMINATION_MIN_PLAYERS, SINGLE_ELIMINATION_MAX_PLAYERS.
  destruct order as [|a [|b [|c [|d [|e [|f [|g [|h [|i l]]]]]]]]]; simpl; try lia;
    intros _; vm_compute; intros [= <-]; vm_compute; solve_Permutation.
Qed.

(** The first round of a bracket: exactly the fields of two to eight players are
    accepted; every player is seated once; the bracket has half as many pairings as
    the next power of two has slots; slot [i] meets slot [slots - 1 - i], and where
    that slot lies past the field the pairing is a resolved bye, so the byes go to the
    highest seeds and to nobody else. *)
Theorem first_bracket_round (order : list string) (history : list TournamentPairing) (r first : N) :
  (r <= 1)%N →
  let n := length order in let slots := bracket_slots n in
  if (2 <=? n) && (n <=? 8) then
    ∃ ps, build_single_elimination_round order history r first = Ok ps ∧
      concat (pairing_players <$> ps) ≡ₚ order ∧ 2 * length ps = slots ∧
      n ≤ slots < 2 * n ∧
      ∀ i q, ps !! i = Some q → ∃ top, order !! i = Some top ∧
        pairing_players q = top :: option_list (order !! (slots - 1 - i)) ∧
        pairing_outcome q = if i <? slots - n then Some Bye else None
  else build_single_elimination_round order history r first = Err (BracketSize n).
Proof.
  intros Hr n slots. rewrite build_first_round by done.
  destruct (Nat.leb_spec 2 n) as [H2|H2], (Nat.leb_spec n 8) as [H8|H8]; cbn [andb].
  2-4: unfold seeded_pods; fold n; unfold SINGLE_ELIMINATION_MIN_PLAYERS,
    SINGLE_ELIMINATION_MAX_PLAYERS;
    first [rewrite (proj2 (Nat.leb_gt n 8)) by lia | rewrite (proj2 (Nat.leb_gt 2 n)) by lia];
    rewrite ?andb_false_r; done.
  assert (SINGLE_ELIMINATION_MIN_PLAYERS ≤ n ≤ SINGLE_ELIMINATION_MAX_PLAYERS) as Hn by done.
  destruct (bracket_depth n Hn) as (d&_&Hslots&Hd).
  pose proof (seeded_pods_ok order d Hn Hslots ltac:(lia)) as Hpods.
  rewrite Hpods. simpl. eexists. split; [done|].
  rewrite imap_players. subst slots. rewrite Hslots. split_and!.
  - by apply seeded_pods_perm.
  - rewrite length_imap, length_fmap, length_seq. done.
  - lia.
  - lia.
  - intros i q Hq. rewrite list_lookup_imap, list_lookup_fmap in Hq.
    destruct (decide (i < 2 ^ d)) as [Hi|Hi].
    2: { by rewrite lookup_seq_ge in Hq by lia. }
    rewrite lookup_seq_lt in Hq by done. simpl in Hq.
    destruct (lookup_lt_is_Some_2 order i ltac:(fold n; lia)) as [top Htop].
    rewrite Htop in Hq. injection Hq as <-. exists top. split_and!; [done|done|]. simpl.
    rewrite !Nat.add_0_r.
    destruct (order !! (2 ^ d + 2 ^ d - 1 - i)) as [low|] eqn:Hlow; simpl.
    + apply lookup_lt_Some in Hlow. fold n in Hlow.
      destruct (Nat.ltb_spec i (2 ^ d + 2 ^ d - n)); [lia|done].
    + apply lookup_ge_None in Hlow. fold n in Hlow.
      destruct (Nat.ltb_spec i (2 ^ d + 2 ^ d - n)); [done|lia].
Qed.

Lemma first_bracket_round_witness :
  ∃ ps, build_single_elimination_round ["a"; "b"; "c"]%string [] 1 0 = Ok ps ∧
    concat (pairing_players <$> ps) ≡ₚ ["a"; "b"; "c"]%string.
Proof.
  destruct (first_bracket_round ["a"; "b"; "c"]%string [] 1 0) as (ps&?&?&_);
    [vm_compute; discriminate|]. by exists ps.
Defined.

(** ** Playing a bracket out *)

(** [q] is pairing [p] with a winner among its players. *)
Definition decided_as (p q : TournamentPairing) : Prop :=
  round q = round p ∧ pairing_players q = pairing_players p ∧
  ∃ w, pairing_winner q = Some w ∧ w ∈ pairing_players p.

(** Rounds are built one after the other, each pairing being decided somehow. *)
Inductive bracket_play (order : list string) : N → list TournamentPairing → Prop :=
  | bracket_start : bracket_play order 0 []
  | bracket_round r history first ps qs :
      bracket_play order r history →
      build_single_elimination_round order history (r + 1) first = Ok ps →
      Forall2 decided_as ps qs →
      bracket_play order (r + 1) (history ++ qs).

Section play.
Variable order : list string.
Hypothesis Hn : SINGLE_ELIMINATION_MIN_PLAYERS ≤ length order ≤ SINGLE_ELIMINATION_MAX_PLAYERS.
Variable d : nat.
Hypothesis Hslots : bracket_slots (length order) = 2 * 2 ^ d.
Hypothesis Hd : 2 ^ d < length order.

Definition last_round (r : N) (history : list TournamentPairing) : list TournamentPairing :=
  filter (λ p, round p = r) history.

(** After round [r > 0] of [d + 1], [2 ^ (d + 1 - r)] matches have just been decided. *)
Definition play_inv (r : N) (history : list TournamentPairing) : Prop :=
  (r <= N.of_nat (S d))%N ∧ Forall (λ p, (round p <= r)%N) history ∧
  ((0 < r)%N →
    length (last_round r history) = 2 ^ (S d - N.to_nat r) ∧
    Forall (λ p, ∃ w, pairing_winner p = Some w ∧ w ∈ order) (last_round r history)).

Lemma advanced_pods_next r history :
  (0 < r)%N → play_inv r history →
  (if decide (r = N.of_nat (S d))
   then advanced_pods history (r + 1) = Err BracketDecided
   else ∃ pods, advanced_pods history (r + 1) = Ok pods ∧
     length pods = 2 ^ (S d - N.to_nat (r + 1)) ∧ Forall (λ k, k ∈ order) (concat pods)).
Proof.
  intros Hr (Hle&_&Hlast). destruct (Hlast Hr) as [Hlen Hw]. unfold advanced_pods.
  rewrite N.add_sub. fold (last_round r history). case_decide as Hend.
  - rewrite Hlen. replace (S d - N.to_nat r) with 0 by lia. done.
  - assert (S d - N.to_nat r = S (S d - N.to_nat (r + 1))) as Hexp by lia.
    rewrite Hexp in Hlen. simpl in Hlen.
    pose proof (Nat.pow_nonzero 2 (S d - N.to_nat (r + 1)) ltac:(lia)) as Hnz.
    rewrite (proj2 (Nat.ltb_ge _ _)) by (change 2 with (1 + 1); lia).
    assert (try_map advancing (last_round r history) =
      Ok ((λ p, default EmptyString (pairing_winner p)) <$> last_round r history)) as ->.
    { apply try_map_ok. intros p Hp. rewrite Forall_forall in Hw.
      destruct (Hw p Hp) as (w&Heq&_). unfold advancing. by rewrite Heq. }
    simpl. eexists. split; [done|]. rewrite concat_chunks2. split.
    + apply length_chunks2. rewrite length_fmap, Hlen. lia.
    + apply Forall_fmap. eapply Forall_impl; [exact Hw|].
      intros p (w&Heq&Hin). simpl. by rewrite Heq.
Qed.

Lemma build_next r history first :
  play_inv r history →
  (if decide (r = N.of_nat (S d))
   then build_single_elimination_round order history (r + 1) first = Err BracketDecided
   else ∃ ps, build_single_elimination_round order history (r + 1) first = Ok ps ∧
     length ps = 2 ^ (S d - N.to_nat (r + 1)) ∧
     Forall (λ p, round p = (r + 1)%N ∧ ∀ k, k ∈ pairing_players p → k ∈ order) ps).
Proof.
  intros Hinv.
  assert (∀ pods, Forall (λ k, k ∈ order) (concat pods) →
    Forall (λ p, round p = (r + 1)%N ∧ ∀ k, k ∈ pairing_players p → k ∈ order)
      (imap (pod_pairing (r + 1) first) pods)) as Hpods.
  { intros pods Hf. apply Forall_lookup. intros i p Hp.
    rewrite list_lookup_imap in Hp. apply fmap_Some in Hp as (pod&Hpod&->).
    split; [done|]. simpl. intros k Hk. rewrite Forall_forall in Hf. apply Hf.
    apply list_elem_of_In, in_concat. exists pod.
    rewrite <-!list_elem_of_In. split; [by eapply list_elem_of_lookup_2|done]. }
  destruct (decide (r = 0%N)) as [->|Hr].
  - rewrite decide_False by lia.
    rewrite build_first_round by lia.
    pose proof (seeded_pods_ok order d Hn Hslots Hd) as Heq. rewrite Heq. simpl.
    eexists. split; [done|]. split.
    + rewrite length_imap, length_fmap, length_seq. f_equal. lia.
    + apply Hpods. apply Forall_forall. intros k Hk.
      by rewrite (seeded_pods_perm order _ Hn Heq) in Hk.
  - pose proof (advanced_pods_next r history ltac:(lia) Hinv) as Hadv.
    rewrite build_later_round by lia. case_decide; [by rewrite Hadv|].
    destruct Hadv as (pods&->&Hlen&Hf). simpl. eexists. split; [done|].
    rewrite length_imap. split; [done|]. by apply Hpods.
Qed.

Lemma play_inv_holds r history : bracket_play order r history → play_inv r history.
Proof.
  induction 1 as [|r history first ps qs _ IH Hbuild Hdec].
  { split_and!; [lia|constructor|lia]. }
  pose proof (build_next r history first IH) as Hnext.
  case_decide as Hend; [congruence|]. destruct Hnext as (ps'&Hps&Hlen&Hf).
  rewrite Hbuild in Hps. injection Hps as <-. destruct IH as (Hle&Hold&_).
  assert (Forall (λ q, round q = (r + 1)%N ∧ ∃ w, pairing_winner q = Some w ∧ w ∈ order) qs)
    as Hqs.
  { clear -Hdec Hf. induction Hdec as [|p q ps qs (Hr&_&w&?&?) _ IH]; [constructor|].
    apply Forall_cons in Hf as [[Hp Hk] Hf]. constructor; [|by apply IH].
    split; [congruence|]. eauto. }
  assert (last_round (r + 1) (history ++ qs) = qs) as Hlast.
  { unfold last_round. rewrite filter_app, (filter_none _ history), (filter_all _ qs); [done| |].
    - eapply Forall_impl; [exact Hqs|]. naive_solver.
    - eapply Forall_impl; [exact Hold|]. simpl. intros. lia. }
  unfold play_inv. rewrite Hlast. split_and!; [lia| |].
  - apply Forall_app. split; (eapply Forall_impl; [done|]); simpl; intros; [lia|naive_solver lia].
  - intros _. split; [by rewrite <-(Forall2_length _ _ _ Hdec)|].
    eapply Forall_impl; [exact Hqs|]. naive_solver.
Qed.
End play.

(** A bracket runs for exactly its default number of rounds: for every field of two
    to eight players and however each match is decided, every round up to that number
    can be built and no round after it; the matches halve from round to round, so the
    last round is a single match; and whoever advances entered the event. *)
Theorem bracket_plays_out (order : list string) (r : N) (history : list TournamentPairing) :
  SINGLE_ELIMINATION_MIN_PLAYERS ≤ length order ≤ SINGLE_ELIMINATION_MAX_PLAYERS →
  bracket_play order r history →
  let rounds := default_total_rounds SingleElimination HEAD_TO_HEAD (N.of_nat (length order)) in
  (r <= rounds)%N ∧
  ((r < rounds)%N → ∀ first, ∃ ps,
    build_single_elimination_round order history (r + 1) first = Ok ps) ∧
  (r = rounds →
    (∀ first, build_single_elimination_round order history (r + 1) first = Err BracketDecided) ∧
    ∃ final w, filter (λ p, round p = r) history = [final] ∧
      pairing_winner final = Some w ∧ w ∈ order).
Proof.
  intros Hn Hplay rounds. destruct (bracket_depth _ Hn) as (d&Hrounds&Hslots&Hd).
  subst rounds. rewrite Hrounds.
  pose proof (play_inv_holds order Hn d Hslots ltac:(lia) r history Hplay) as Hinv.
  pose proof (λ first, build_next order Hn d Hslots ltac:(lia) r history first Hinv) as Hnext.
  pose proof Hinv as (Hle&_&Hlast). split_and!; [done| |].
  - intros Hlt first. specialize (Hnext first). rewrite decide_False in Hnext by lia.
    destruct Hnext as (ps&?&_). by exists ps.
  - intros ->. split.
    { intros first. specialize (Hnext first). by rewrite decide_True in Hnext. }
    destruct (Hlast ltac:(lia)) as [Hlen Hw]. unfold last_round in Hlen, Hw.
    replace (S d - N.to_nat (N.of_nat (S d))) with 0 in Hlen by lia. simpl in Hlen.
    destruct (filter _ history) as [|final [|]]; [done| |done].
    apply Forall_singleton in Hw as (w&?&?). by exists final, w.
Qed.

Lemma bracket_plays_out_witness :
  ∃ history, bracket_play ["a"; "b"]%string 1 history ∧
    ∀ first, build_single_elimination_round ["a"; "b"]%string history 2 first = Err BracketDecided.
Proof.
  pose (final := {| id := 0; round := 1; pairing_players := ["a"; "b"]%string;
    pairing_outcome := Some (Forfeit "a"%string) |}).
  assert (bracket_play ["a"; "b"]%string (0 + 1) ([] ++ [final])) as Hplay.
  { eapply (bracket_round _ 0%N [] 0%N); [constructor|vm_compute; reflexivity|].
    constructor; [|constructor]. split; [done|]. split; [done|].
    exists "a"%string. split; [done|left]. }
  exists [final]. split; [exact Hplay|].
  refine (proj1 (proj2 (proj2 (bracket_plays_out _ _ _ _ Hplay)) _)).
  - split; vm_compute; lia.
  - vm_compute. reflexivity.
Defined.
