(* ===== verification/Tournament.v ===== *)
(** * The tournament manager

    [TournamentManager] of [lobby-broker/src/tournament.rs]: the registry of
    tournaments and its handlers, as programs of a state monad over the registry and
    the injected environment.  Every handler keeps the order of the code's reads of the
    clock, guards and writes. *)
From Stdlib Require Import String.
From S2P Require Import Prelude.
From S2P Require Import Credentials.
From S2P Require Import TournamentTypes.
From S2P Require Import SwissPairing.
From S2P Require Import Standings.
From S2P Require Import Brackets.
Local Open Scope N_scope.

Abbreviation TournamentManager := (gmap string TournamentMeta) (only parsing).

Inductive TournamentExpiryEvent :=
  | EvDeleted (tcode : string)
  | EvAbandoned (tcode : string).

Section manager.
Context {World : Type} `{!BrokerEnv World}.

Definition TM := stM (TournamentManager * World) TError.

(** ** The environment and the registry *)
Definition env_now : TM N := λ s, let '(now, env) := now_ms s.2 in (Ok now, (s.1, env)).
(** [env.now_ms() / 1000]. *)
Definition now_secs : TM N := ms ← env_now; mret (ms / 1000).
Definition env_mint : TM (TournamentCredential * MintedCredential) := λ s,
  let '(c, env) := mint s.2 in (Ok c, (s.1, env)).
Definition env_renew (c : TournamentCredential) (presented nonce : string) :
    TM (RenewOutcome * TournamentCredential) := λ s,
  let '(o, c', env) := renew c presented nonce s.2 in (Ok (o, c'), (s.1, env)).
Definition tournaments : TM TournamentManager := λ s, (Ok s.1, s).
Definition meta_mut (tcode : string) : TM TournamentMeta :=
  ts ← tournaments; lift (ok_or (ts !! tcode) TournamentNotFound).
Definition store (tcode : string) (m : TournamentMeta) : TM unit :=
  modify (λ s, (<[tcode := m]> s.1, s.2)).

(** ** Creation and entry *)
Definition create_tournament (tcode : string) (req : CreateTournamentRequest) :
    TM MintedCredential :=
  ts ← tournaments;
  ensure (bool_decide (ts !! tcode = None)) CodeInUse;;
  ensure (negb (bool_decide (req_bracket req = SingleElimination)
                && bool_decide (req_arity req ≠ HEAD_TO_HEAD)))
    SingleEliminationNotHeadToHead;;
  ensure (bool_decide (req_total_rounds req ≠ Some 0)) ZeroTotalRounds;;
  ensure (negb (bool_decide (req_match_type req = Some Bo3)
                && bool_decide (req_arity req ≠ HEAD_TO_HEAD)))
    Bo3NotHeadToHead;;
  let mt := default (default_match_type (req_arity req)) (req_match_type req) in
  now ← now_secs;
  '(token, minted) ← env_mint;
  store tcode
    {| code := tcode; name := req_name req; organizer_token := token;
       arity := req_arity req; scoring := req_scoring req; bracket := req_bracket req;
       total_rounds_override := req_total_rounds req; resolved_total_rounds := None;
       plus_rounds := req_plus_rounds req; event_format := req_format req;
       match_type := mt; current_round := 0; status := Registration; players := [];
       pairings := []; hosted := ∅; created_at := now; last_activity_at := now |};;
  mret minted.

Definition join_tournament (tcode key display : string) : TM MintedCredential :=
  now ← now_secs;
  '(token, minted) ← env_mint;
  m ← meta_mut tcode;
  ensure (bool_decide (status m = Registration)) NotAcceptingEntries;;
  ensure (bool_decide (find_player m key = None)) AlreadyJoined;;
  store tcode (touch now (set_players
    (players m ++ [{| player_key := key; player_token := token; display_name := display;
                      dropped := false |}]) m));;
  mret minted.

(** ** Credentials *)
Definition renew_answer (o : RenewOutcome) : outcome TError MintedCredential :=
  match o with
  | Minted minted | Replayed minted => Ok minted
  | OExpired => Err CredentialExpired
  | OMismatch => Err InvalidToken
  end.
Definition renewable (k : RenewKind) : bool :=
  match k with Mintable | Replayable => true | KExpired | KMismatch => false end.

Definition renew_credential (tcode : string) (role : TournamentRole)
    (presented nonce : string) : TM MintedCredential :=
  now ← env_now;
  m ← meta_mut tcode;
  match role with
  | Organizer =>
      '(o, c) ← env_renew (organizer_token m) presented nonce;
      store tcode (set_organizer_token c m);;
      lift (renew_answer o)
  | Player =>
      let kind p := renew_kind (player_token p) presented nonce now in
      match position (λ p, renewable (kind p)) (players m) with
      | None =>
          throw (if existsb (λ p, bool_decide (kind p = KExpired)) (players m)
                 then CredentialExpired else InvalidToken)
      | Some idx =>
          p ← lift (or_panic (players m !! idx));
          ensure (negb (dropped p)) PlayerHasDropped;;
          '(o, c) ← env_renew (player_token p) presented nonce;
          store tcode (set_players (<[idx := with_token c p]> (players m)) m);;
          lift (renew_answer o)
      end
  end.

(** ** Pairing a round *)
Definition max_id (ps : list TournamentPairing) : option PairingId :=
  foldr (λ p o, Some (match o with Some k => N.max (id p) k | None => id p end)) None ps.
Definition next_id (m : TournamentMeta) : PairingId :=
  match max_id (pairings m) with Some k => u32_add k 1 | None => 0 end.

(** The keys of the players still in, best first. *)
Definition active_order (m : TournamentMeta) : outcome TError (list string) :=
  (λ rows : list TournamentStanding,
     row_player_key <$> filter (λ row, row_dropped row = false) rows) <$> standings m.

Definition build_round (m : TournamentMeta) (order : list string) (r : N) :
    outcome TError (list TournamentPairing) :=
  match bracket m with
  | Swiss => build_swiss_round order (arity m) (pairings m) r (next_id m)
  | SingleElimination => build_single_elimination_round order (pairings m) r (next_id m)
  end.

(** The record once [generated] is round [r]. *)
Definition with_round (generated : list TournamentPairing) (r total now : N)
    (m : TournamentMeta) : TournamentMeta :=
  let resolved :=
    if bool_decide (r = 1) && bool_decide (total_rounds_override m = None)
       && bool_decide (resolved_total_rounds m = None)
    then Some total else resolved_total_rounds m in
  touch now (set_status InProgress
    (set_schedule resolved r (set_pairings (pairings m ++ generated) m))).

Definition generate_pairings (tcode : string) : TM (list PairingId) :=
  now ← now_secs;
  m ← meta_mut tcode;
  ensure (admits m StartRound) NotRunning;;
  let total := total_rounds m in
  ensure (current_round m <? total) (RoundCeiling total (current_round m));;
  match first_unresolved_pairing m with
  | Some pending => throw (UnresolvedPairing (id pending) (round pending))
  | None =>
      let r := u32_add (current_round m) 1 in
      order ← lift (active_order m);
      generated ← lift (build_round m order r);
      store tcode (with_round generated r total now m);;
      mret (id <$> generated)
  end.

(** ** Results *)
Definition gate_check (pid : PairingId) (gate : ReportGate) (authority : ReportAuthority) :
    outcome TError unit :=
  match gate with
  | GateOpen => if decide (authority = System) then Err (NotServerHosted pid) else mret tt
  | GateHosted => if decide (authority = SeatedPlayer) then Err (ServerHosted pid) else mret tt
  | GateNotRunning => Err NotRunning
  | GateBye => Err (PairingIsBye pid)
  | GateForfeit => Err (PairingIsForfeit pid)
  end.

Definition report_result_with_authority (tcode : string) (pid : PairingId)
    (res : PodOutcome) (authority : ReportAuthority) : TM unit :=
  now ← now_secs;
  m ← meta_mut tcode;
  index ← lift (ok_or (position (λ p, id p =? pid) (pairings m)) (PairingNotFound pid));
  p ← lift (or_panic (pairings m !! index));
  lift (gate_check pid (report_gate m p) authority);;
  lift (validate_match_result p res (players m) (match_type m));;
  ensure (negb (bool_decide (bracket m = SingleElimination) && bool_decide (res = Draw)))
    (DrawnElimination pid);;
  store tcode (touch now (set_pairings
    (<[index := with_outcome (Some (Reported res)) p]> (pairings m)) m)).
Definition report_result (tcode : string) (pid : PairingId) (res : PodOutcome) : TM unit :=
  report_result_with_authority tcode pid res SeatedPlayer.
Definition report_result_system (tcode : string) (pid : PairingId) (res : PodOutcome) : TM unit :=
  report_result_with_authority tcode pid res System.

(** ** Hosting *)
Definition hosting_gate (pid : PairingId) (gate : ReportGate) : outcome TError unit :=
  match gate with
  | GateOpen | GateHosted => mret tt
  | GateNotRunning => Err NotRunning
  | GateBye => Err (PairingIsBye pid)
  | GateForfeit => Err (PairingIsForfeit pid)
  end.
Definition next_generation (m : TournamentMeta) (pid : PairingId) : N :=
  match hosted m !! pid with
  | Some h => u32_saturating_add (generation h) 1
  | None => 1
  end.
Definition begin_hosting (tcode : string) (pid : PairingId) : TM N :=
  now ← now_secs;
  m ← meta_mut tcode;
  p ← lift (ok_or (find_pairing m pid) (PairingNotFound pid));
  ensure (is_hosted_eligible m p) (NotHostable pid);;
  lift (hosting_gate pid (report_gate m p));;
  let g := next_generation m pid in
  store tcode (touch now (set_hosted (<[pid := {| generation := g |}]> (hosted m)) m));;
  mret g.
Definition hosting_generation (ts : TournamentManager) (tcode : string) (pid : PairingId) :
    option N :=
  m ← ts !! tcode; h ← hosted m !! pid; Some (generation h).

(** ** Drops, completion and expiry *)
Definition dropped_keys (ps : list TournamentPlayer) : list string :=
  player_key <$> filter (λ p, dropped p = true) ps.
(** The settlement of one pairing when [key] drops; [gone] are all dropped players. *)
Definition settle_pairing (gone : list string) (key : string) (p : TournamentPairing) :
    TournamentPairing :=
  if negb (is_pending p) || negb (pairing_seats p key) then p
  else match filter (λ k, k ∉ gone) (pairing_players p) with
  | [survivor] => with_outcome (Some (Forfeit survivor)) p
  | _ => p
  end.
Definition with_drop (idx : nat) (p : TournamentPlayer) (key : string) (m : TournamentMeta) :
    TournamentMeta :=
  let ps := <[idx := mark_dropped p]> (players m) in
  set_pairings (settle_pairing (dropped_keys ps) key <$> pairings m) (set_players ps m).
Definition drop_player (tcode key : string) : TM unit :=
  now ← now_secs;
  m ← meta_mut tcode;
  ensure (admits m Drop) NotRunning;;
  idx ← lift (ok_or (position (λ p, String.eqb (player_key p) key) (players m)) PlayerNotIn);
  p ← lift (or_panic (players m !! idx));
  store tcode (touch now (with_drop idx p key m)).

Definition complete_tournament (tcode : string) : TM unit :=
  now ← now_secs;
  m ← meta_mut tcode;
  ensure (admits m EndTournament)
    (if is_terminal (status m) then AlreadyFinished else NotStarted);;
  match first_unresolved_pairing m with
  | Some pending => throw (UnresolvedPairing (id pending) (round pending))
  | None => store tcode (touch now (set_status Completed m))
  end.

(** What a sweep at [now] makes of one tournament. *)
Definition expire (now : N) (tcode : string) (m : TournamentMeta) :
    option TournamentMeta * option TournamentExpiryEvent :=
  let idle := now - last_activity_at m in
  match status m with
  | Registration =>
      if REGISTRATION_TIMEOUT_SECS <? idle then (None, Some (EvDeleted tcode))
      else (Some m, None)
  | InProgress =>
      if IN_PROGRESS_ABANDON_SECS <? idle
      then (Some (touch now (set_status Abandoned m)), Some (EvAbandoned tcode))
      else (Some m, None)
  | Completed | Abandoned =>
      if TERMINAL_RETENTION_SECS <? idle then (None, Some (EvDeleted tcode))
      else (Some m, None)
  end.
(** [retain] visits the map in an unspecified order; the events are listed in the
    order of [map_to_list]. *)
Definition check_expired : TM (list TournamentExpiryEvent) :=
  now ← now_secs;
  ts ← tournaments;
  modify (λ s, (map_imap (λ tcode m, (expire now tcode m).1) ts, s.2));;
  mret (omap (λ '(tcode, m), (expire now tcode m).2) (map_to_list ts)).
End manager.
