(* ===== verification/TournamentSteps.v ===== *)
(** * The life of a tournament as a state machine

    [meta_step] lists what can happen to one tournament; every handler of [Tournament],
    in any environment and any registry, either refuses and leaves the registry as it
    was or performs one of these steps on the tournament it names. *)
From Stdlib Require Import String.
From S2P Require Import Prelude.
From S2P Require Import Credentials.
From S2P Require Import TournamentTypes.
From S2P Require Import Standings.
From S2P Require Import Brackets.
From S2P Require Import Tournament.
Local Open Scope N_scope.

(** ** Steps of one tournament *)
Definition fresh_tournament (tcode : string) (req : CreateTournamentRequest)
    (token : TournamentCredential) (now : N) : TournamentMeta :=
  {| code := tcode; name := req_name req; organizer_token := token;
     arity := req_arity req; scoring := req_scoring req; bracket := req_bracket req;
     total_rounds_override := req_total_rounds req; resolved_total_rounds := None;
     plus_rounds := req_plus_rounds req; event_format := req_format req;
     match_type := default (default_match_type (req_arity req)) (req_match_type req);
     current_round := 0; status := Registration; players := [];
     pairings := []; hosted := ∅; created_at := now; last_activity_at := now |}.

Definition creatable (req : CreateTournamentRequest) : Prop :=
  (req_bracket req = SingleElimination → req_arity req = HEAD_TO_HEAD) ∧
  req_total_rounds req ≠ Some 0 ∧
  (req_match_type req = Some Bo3 → req_arity req = HEAD_TO_HEAD).

(** ** Calls *)
Inductive Call :=
  | CallCreate (tcode : string) (req : CreateTournamentRequest)
  | CallJoin (tcode key display : string)
  | CallRenew (tcode : string) (role : TournamentRole) (presented nonce : string)
  | CallPair (tcode : string)
  | CallReport (tcode : string) (pid : PairingId) (res : PodOutcome) (authority : ReportAuthority)
  | CallHost (tcode : string) (pid : PairingId)
  | CallDrop (tcode key : string)
  | CallComplete (tcode : string)
  | CallExpire.

(** The tournament a call names. *)
Definition call_code (c : Call) : option string :=
  match c with
  | CallCreate t _ | CallJoin t _ _ | CallRenew t _ _ _ | CallPair t | CallReport t _ _ _
  | CallHost t _ | CallDrop t _ | CallComplete t => Some t
  | CallExpire => None
  end.

Section steps.
Context {World : Type} `{!BrokerEnv World}.
Implicit Types (ts : TournamentManager) (env : World).

(** [c'] is [c] after an accepted renewal. *)
Definition renewed (c c' : TournamentCredential) (presented nonce : string) : Prop :=
  ∃ o minted env env', renew c presented nonce env = (o, c', env') ∧ renew_answer o = Ok minted.

Inductive meta_step (m : TournamentMeta) : Call → TournamentMeta → Prop :=
  | StepJoin t key token display now :
      status m = Registration → find_player m key = None →
      meta_step m (CallJoin t key display) (touch now (set_players
        (players m ++ [{| player_key := key; player_token := token;
                          display_name := display; dropped := false |}]) m))
  | StepRenewOrganizer t presented nonce c :
      renewed (organizer_token m) c presented nonce →
      meta_step m (CallRenew t Organizer presented nonce) (set_organizer_token c m)
  | StepRenewPlayer t presented nonce idx p c :
      players m !! idx = Some p → dropped p = false →
      renewed (player_token p) c presented nonce →
      meta_step m (CallRenew t Player presented nonce)
        (set_players (<[idx := with_token c p]> (players m)) m)
  | StepPair t order generated now :
      is_terminal (status m) = false →
      current_round m < total_rounds m →
      first_unresolved_pairing m = None →
      active_order m = Ok order →
      build_round m order (u32_add (current_round m) 1) = Ok generated →
      meta_step m (CallPair t)
        (with_round generated (u32_add (current_round m) 1) (total_rounds m) now m)
  | StepReport t index p res authority now :
      pairings m !! index = Some p →
      gate_check (id p) (report_gate m p) authority = Ok tt →
      validate_match_result p res (players m) (match_type m) = Ok tt →
      (bracket m = SingleElimination → res ≠ Draw) →
      meta_step m (CallReport t (id p) res authority) (touch now (set_pairings
        (<[index := with_outcome (Some (Reported res)) p]> (pairings m)) m))
  | StepHost t p now :
      p ∈ pairings m →
      is_hosted_eligible m p = true →
      hosting_gate (id p) (report_gate m p) = Ok tt →
      meta_step m (CallHost t (id p)) (touch now (set_hosted
        (<[id p := {| generation := next_generation m (id p) |}]> (hosted m)) m))
  | StepDrop t idx p now :
      is_terminal (status m) = false → players m !! idx = Some p →
      meta_step m (CallDrop t (player_key p)) (touch now (with_drop idx p (player_key p) m))
  | StepComplete t now :
      status m = InProgress → first_unresolved_pairing m = None →
      meta_step m (CallComplete t) (touch now (set_status Completed m))
  | StepAbandon now :
      status m = InProgress → IN_PROGRESS_ABANDON_SECS < now - last_activity_at m →
      meta_step m CallExpire (touch now (set_status Abandoned m)).

Definition run_call (c : Call) : TM (World := World) unit :=
  match c with
  | CallCreate t req => create_tournament t req;; mret tt
  | CallJoin t key display => join_tournament t key display;; mret tt
  | CallRenew t role presented nonce => renew_credential t role presented nonce;; mret tt
  | CallPair t => generate_pairings t;; mret tt
  | CallReport t pid res authority => report_result_with_authority t pid res authority
  | CallHost t pid => begin_hosting t pid;; mret tt
  | CallDrop t key => drop_player t key
  | CallComplete t => complete_tournament t
  | CallExpire => check_expired;; mret tt
  end.

(** What a call does to the registry, as a relation. *)
Inductive registry_step ts : Call → TournamentManager → Prop :=
  | RegCreate t req token now :
      ts !! t = None → creatable req →
      registry_step ts (CallCreate t req) (<[t := fresh_tournament t req token now]> ts)
  | RegStep c t m m' :
      call_code c = Some t → ts !! t = Some m → meta_step m c m' →
      registry_step ts c (<[t := m']> ts)
  | RegExpire now :
      registry_step ts CallExpire (map_imap (λ tcode m, (expire now tcode m).1) ts).

(** ** The handlers perform the steps *)

(** From registry [ts], the program refuses and changes nothing, or makes a step of [c]. *)
Definition steps_from {A} ts (c : Call) (prog : TM (World := World) A) : Prop :=
  ∀ env o ts' env', prog (ts, env) = (o, (ts', env')) →
    match o with Ok _ => registry_step ts c ts' | _ => ts' = ts end.

Local Ltac run_out H :=
  cbv [ensure lift throw mbind stM_bind mret stM_ret store modify fst snd] in H;
  injection H as <- <- <-; try done.

Section rules.
Context {A B : Type} (ts : TournamentManager) (c : Call).
Implicit Types (f : A → TM (World := World) B).

(** A read of the environment. *)
Lemma from_env (prog : TM (World := World) A) f :
  (∀ env, ∃ a env', prog (ts, env) = (Ok a, (ts, env')) ∧ steps_from ts c (f a)) →
  steps_from ts c (prog ≫= f).
Proof.
  intros Hp env o ts' env' Heq. destruct (Hp env) as (a&env1&Hrun&Hf).
  rewrite (stM_bind_run _ _ _ _ _ Hrun) in Heq. by eapply Hf.
Qed.
Lemma from_ensure b e (prog : TM (World := World) B) :
  (b = true → steps_from ts c prog) → steps_from ts c (ensure b e;; prog).
Proof.
  intros Hp env o ts' env' Heq. destruct b; [by eapply Hp|].
  run_out Heq.
Qed.
Lemma from_lift (x : outcome TError A) f :
  (∀ a, x = Ok a → steps_from ts c (f a)) → steps_from ts c (lift x ≫= f).
Proof.
  intros Hf env o ts' env' Heq. destruct x as [a|e|]; [exact (Hf a eq_refl env o ts' env' Heq)|..];
    run_out Heq.
Qed.
End rules.

Section more_rules.
Context {B : Type} (ts : TournamentManager) (c : Call).

Lemma from_now (f : N → TM (World := World) B) :
  (∀ now, steps_from ts c (f now)) → steps_from ts c (now_secs ≫= f).
Proof.
  intros Hf. apply from_env. intros env. unfold now_secs, env_now. unfold_M. simpl.
  destruct (now_ms env). by eexists _, _.
Qed.
Lemma from_clock (f : N → TM (World := World) B) :
  (∀ now, steps_from ts c (f now)) → steps_from ts c (env_now ≫= f).
Proof.
  intros Hf. apply from_env. intros env. unfold env_now. simpl.
  destruct (now_ms env). by eexists _, _.
Qed.
Lemma from_mint (f : TournamentCredential * MintedCredential → TM (World := World) B) :
  (∀ x, steps_from ts c (f x)) → steps_from ts c (env_mint ≫= f).
Proof.
  intros Hf. apply from_env. intros env. unfold env_mint. simpl.
  destruct (mint env). by eexists _, _.
Qed.
Lemma from_renew k presented nonce
    (f : RenewOutcome * TournamentCredential → TM (World := World) B) :
  (∀ o k' env env', renew k presented nonce env = (o, k', env') → steps_from ts c (f (o, k'))) →
  steps_from ts c (env_renew k presented nonce ≫= f).
Proof.
  intros Hf. apply from_env. intros env. unfold env_renew. simpl.
  destruct (renew k presented nonce env) as [[o k'] env'] eqn:E.
  eexists _, _. split; [done|]. by eapply Hf.
Qed.
Lemma from_tournaments (f : TournamentManager → TM (World := World) B) :
  steps_from ts c (f ts) → steps_from ts c (tournaments ≫= f).
Proof. intros Hf. apply from_env. intros env. by eexists _, _. Qed.
Lemma from_meta t (f : TournamentMeta → TM (World := World) B) :
  (∀ m, ts !! t = Some m → steps_from ts c (f m)) → steps_from ts c (meta_mut t ≫= f).
Proof.
  intros Hf env o ts' env' Heq. unfold meta_mut, tournaments in Heq.
  destruct (ts !! t) as [m|] eqn:Ht.
  - eapply (Hf m eq_refl env). rewrite <-Heq. unfold_M. simpl. by rewrite Ht.
  - unfold_M in Heq. simpl in Heq. rewrite Ht in Heq. run_out Heq.
Qed.
Lemma from_throw e : steps_from ts c (throw e : TM (World := World) B).
Proof. intros env o ts' env' Heq. run_out Heq. Qed.
Lemma from_store_ret t m (b : B) :
  registry_step ts c (<[t := m]> ts) → steps_from ts c (store t m;; mret b).
Proof. intros Hs env o ts' env' Heq. run_out Heq. Qed.
Lemma from_store t m :
  registry_step ts c (<[t := m]> ts) → steps_from ts c (store (World := World) t m).
Proof. intros Hs env o ts' env' Heq. run_out Heq. Qed.
(** Storing, then answering with an outcome decided before. *)
Lemma from_store_lift t m (x : outcome TError B) :
  match x with Ok _ => registry_step ts c (<[t := m]> ts) | _ => <[t := m]> ts = ts end →
  steps_from ts c (store t m;; lift x).
Proof. intros Hs env o ts' env' Heq. destruct x; by run_out Heq. Qed.
Lemma from_ignore (prog : TM (World := World) B) :
  steps_from ts c prog → steps_from ts c (prog;; mret tt).
Proof.
  intros Hp env o ts' env' Heq. unfold mbind, stM_bind in Heq.
  destruct (prog (ts, env)) as [[b|e|] [ts1 env1]] eqn:E; specialize (Hp _ _ _ _ E);
    by injection Heq as <- <- <-.
Qed.
End more_rules.

Lemma position_lookup {A} (P : A → bool) l i :
  position P l = Some i → ∃ x, l !! i = Some x ∧ P x = true.
Proof. intros (x&?&?&_)%position_Some. eauto. Qed.

Lemma set_organizer_token_id m : set_organizer_token (organizer_token m) m = m.
Proof. by destruct m. Qed.
Lemma set_players_id m : set_players (players m) m = m.
Proof. by destruct m. Qed.
Lemma with_token_id p : with_token (player_token p) p = p.
Proof. by destruct p. Qed.
Lemma renew_answer_ok (k k' : TournamentCredential) presented nonce o minted env env' :
  renew k presented nonce env = (o, k', env') → renew_answer o = Ok minted →
  renewed k k' presented nonce.
Proof. intros. by exists o, minted, env, env'. Qed.
Lemma renew_answer_other (k k' : TournamentCredential) presented nonce o env env' :
  renew k presented nonce env = (o, k', env') →
  (∀ minted, renew_answer o ≠ Ok minted) → k' = k.
Proof.
  unfold renew. destruct (now_ms env) as [now env1].
  destruct (renew_kind k presented nonce now).
  - destruct (new_token env1). intros [= <- _ _] Ho. by destruct (Ho _ eq_refl).
  - intros [= <- <- _] _. done.
  - intros [= _ <- _] _. done.
  - intros [= _ <- _] _. done.
Qed.

Lemma create_steps ts t req : steps_from ts (CallCreate t req) (create_tournament t req).
Proof.
  unfold create_tournament. apply from_tournaments.
  apply from_ensure. intros Hfree. apply from_ensure. intros Hse.
  apply from_ensure. intros Hr. apply from_ensure. intros Hbo3.
  apply from_now. intros now. apply from_mint.
  intros [token minted]. apply from_store_ret. breflect.
  apply (RegCreate _ _ _ token now); [done|].
  split_and!; [|done|]; intros Hreq; apply dec_stable; intros Ha.
  - by rewrite !bool_decide_eq_true_2 in Hse.
  - by rewrite !bool_decide_eq_true_2 in Hbo3.
Qed.

Lemma join_steps ts t key display :
  steps_from ts (CallJoin t key display) (join_tournament t key display).
Proof.
  unfold join_tournament. apply from_now. intros now. apply from_mint.
  intros [token minted]. apply from_meta. intros m Hm.
  do 2 (apply from_ensure; intros ?). apply from_store_ret. breflect.
  eapply RegStep; [done..|]. by apply StepJoin.
Qed.

Lemma renew_steps ts t role presented nonce :
  steps_from ts (CallRenew t role presented nonce) (renew_credential t role presented nonce).
Proof.
  unfold renew_credential. apply from_clock. intros now. apply from_meta. intros m Hm.
  destruct role.
  - apply from_renew. intros o k env env' Hk. apply from_store_lift.
    destruct (renew_answer o) as [minted| |] eqn:Ho.
    + eapply RegStep; [done..|]. apply StepRenewOrganizer. by eapply renew_answer_ok.
    + rewrite (renew_answer_other _ _ _ _ _ _ _ Hk) by (by rewrite Ho).
      by rewrite set_organizer_token_id, insert_id.
    + rewrite (renew_answer_other _ _ _ _ _ _ _ Hk) by (by rewrite Ho).
      by rewrite set_organizer_token_id, insert_id.
  - destruct (position _ _) as [idx|]; [|apply from_throw].
    apply from_lift. intros p Hp. apply from_ensure. intros Hd. breflect.
    unfold or_panic in Hp. destruct (players m !! idx) as [q|] eqn:Hq; [|done].
    injection Hp as ->.
    apply from_renew. intros o k env env' Hk. apply from_store_lift.
    destruct (renew_answer o) as [minted| |] eqn:Ho.
    + eapply RegStep; [done..|]. apply StepRenewPlayer; [done..|]. by eapply renew_answer_ok.
    + rewrite (renew_answer_other _ _ _ _ _ _ _ Hk) by (by rewrite Ho).
      by rewrite with_token_id, list_insert_id, set_players_id, insert_id.
    + rewrite (renew_answer_other _ _ _ _ _ _ _ Hk) by (by rewrite Ho).
      by rewrite with_token_id, list_insert_id, set_players_id, insert_id.
Qed.

Lemma admits_nonterminal m a : admits m a = true → is_terminal (status m) = false.
Proof.
  unfold admits, open_actions. rewrite bool_decide_eq_true.
  destruct (is_terminal (status m)); [by intros ?%elem_of_nil|done].
Qed.
Lemma admits_end m : admits m EndTournament = true → status m = InProgress.
Proof.
  intros Ha. pose proof (admits_nonterminal _ _ Ha) as Ht.
  unfold admits, open_actions in Ha. rewrite Ht, bool_decide_eq_true in Ha.
  destruct (status m); try done. exfalso. clear Ht. revert Ha. vm_compute.
  intros [?|Ha]%elem_of_cons; [done|]. by apply list_elem_of_singleton in Ha.
Qed.

Lemma pair_steps ts t : steps_from ts (CallPair t) (generate_pairings t).
Proof.
  unfold generate_pairings. apply from_now. intros now. apply from_meta. intros m Hm.
  apply from_ensure. intros Ha. apply from_ensure. intros Hlt. breflect.
  destruct (first_unresolved_pairing m) eqn:Hu; [apply from_throw|].
  apply from_lift. intros order Ho. apply from_lift. intros generated Hg.
  apply from_store_ret. eapply RegStep; [done..|].
  by eapply StepPair; [by eapply admits_nonterminal|..].
Qed.

Lemma report_steps ts t pid res authority :
  steps_from ts (CallReport t pid res authority)
    (report_result_with_authority t pid res authority).
Proof.
  unfold report_result_with_authority. apply from_now. intros now.
  apply from_meta. intros m Hm. apply from_lift. intros index Hi.
  destruct (position _ _) as [i|] eqn:Hpos; [|done]. injection Hi as ->.
  apply position_lookup in Hpos as (p&Hp&Hid). breflect. subst pid.
  apply from_lift. intros q Hq. rewrite Hp in Hq. injection Hq as <-.
  apply from_lift. intros [] Hgate. apply from_lift. intros [] Hval.
  apply from_ensure. intros Hdraw. apply from_store. eapply RegStep; [done..|].
  apply (StepReport _ _ index p); [done..|]. intros Hb ->.
  by rewrite Hb in Hdraw.
Qed.

Lemma host_steps ts t pid : steps_from ts (CallHost t pid) (begin_hosting t pid).
Proof.
  unfold begin_hosting. apply from_now. intros now. apply from_meta. intros m Hm.
  apply from_lift. intros p Hp. destruct (find_pairing m pid) as [q|] eqn:Hq; [|done].
  injection Hp as ->. apply find_first_Some in Hq as [Hin Hid]. breflect. subst pid.
  apply from_ensure. intros He. apply from_lift. intros [] Hgate.
  apply from_store_ret. eapply RegStep; [done..|]. by apply StepHost.
Qed.

Lemma drop_steps ts t key : steps_from ts (CallDrop t key) (drop_player t key).
Proof.
  unfold drop_player. apply from_now. intros now. apply from_meta. intros m Hm.
  apply from_ensure. intros Ha%admits_nonterminal. apply from_lift. intros idx Hi.
  destruct (position _ _) as [i|] eqn:Hpos; [|done]. injection Hi as ->.
  apply position_lookup in Hpos as (p&Hp&Hkey%String.eqb_eq). subst key.
  apply from_lift. intros q Hq. rewrite Hp in Hq. injection Hq as <-.
  apply from_store. eapply RegStep; [done..|]. by apply StepDrop.
Qed.

Lemma complete_steps ts t : steps_from ts (CallComplete t) (complete_tournament t).
Proof.
  unfold complete_tournament. apply from_now. intros now. apply from_meta. intros m Hm.
  apply from_ensure. intros Ha%admits_end.
  destruct (first_unresolved_pairing m) eqn:Hu; [apply from_throw|].
  apply from_store. eapply RegStep; [done..|]. by apply StepComplete.
Qed.

Lemma expire_steps ts : steps_from ts CallExpire check_expired.
Proof.
  unfold check_expired. apply from_now. intros now. apply from_tournaments.
  intros env o ts' env' Heq. cbv [modify mbind stM_bind mret stM_ret fst snd] in Heq.
  injection Heq as <- <- <-. apply RegExpire.
Qed.

Lemma run_call_steps ts c : steps_from ts c (run_call c).
Proof.
  destruct c; simpl; try apply from_ignore.
  - apply create_steps.
  - apply join_steps.
  - apply renew_steps.
  - apply pair_steps.
  - apply report_steps.
  - apply host_steps.
  - apply drop_steps.
  - apply complete_steps.
  - apply expire_steps.
Qed.
End steps.

(** C15. The manager refines the life of a tournament: in any environment and from any
    registry, a call either answers with an error and leaves every tournament as it
    was, or creates the tournament it names with that code unused, or performs exactly
    one step of the state machine [meta_step], the step of that call, on the tournament
    it names and touches no other, or is the sweep, which decides each tournament by
    [expire]. *)
Theorem handlers_refine_steps {World : Type} `{!BrokerEnv World} (c : Call)
    (ts ts' : TournamentManager) (env env' : World) o :
  run_call c (ts, env) = (o, (ts', env')) →
  match o with
  | Ok _ => registry_step (World := World) ts c ts'
  | Err _ | Panic => ts' = ts
  end.
Proof. intros H. pose proof (run_call_steps ts c env o ts' env' H). by destruct o. Qed.

Definition sample_request : CreateTournamentRequest :=
  {| req_name := "event"; req_arity := HEAD_TO_HEAD;
     req_scoring := {| win_points := 3; draw_points := 1; loss_points := 0 |};
     req_bracket := Swiss; req_total_rounds := None; req_plus_rounds := None;
     req_format := None; req_match_type := None |}.

Lemma handlers_refine_steps_witness :
  ∃ ts', run_call (CallCreate "T" sample_request) (∅, {| clock := 5000; counter := 0 |}) =
      (Ok tt, (ts', {| clock := 5000; counter := 1 |})) ∧
    registry_step (World := CounterEnv) ∅ (CallCreate "T" sample_request) ts'.
Proof.
  eexists. split; [vm_compute; reflexivity|].
  eapply (handlers_refine_steps (CallCreate "T" sample_request) ∅ _
    {| clock := 5000; counter := 0 |} {| clock := 5000; counter := 1 |} (Ok tt)).
  vm_compute. reflexivity.
Defined.
