(* ===== verification/TournamentInv.v ===== *)
(** * The invariant of a tournament

    What holds of every tournament the manager can reach: its configuration is
    consistent, its entrants are distinct, its history seats entrants at most once a
    round and only the current round can be open, no round exceeds the schedule, and
    every open Swiss pairing still has two players who can win it. *)
From Stdlib Require Import String.
From S2P Require Import Prelude.
From S2P Require Import Credentials.
From S2P Require Import TournamentTypes.
From S2P Require Import SwissPairing.
From S2P Require Import SwissSelect.
From S2P Require Import SwissRound.
From S2P Require Import Standings.
From S2P Require Import Brackets.
From S2P Require Import Tournament.
From S2P Require Import TournamentSteps.
Local Open Scope N_scope.

Definition player_keys (m : TournamentMeta) : list string := player_key <$> players m.
Definition gone_keys (m : TournamentMeta) : list string := dropped_keys (players m).
(** The players of a pairing who are still in. *)
Definition still_in (gone : list string) (p : TournamentPairing) : list string :=
  filter (λ k, k ∉ gone) (pairing_players p).
Definition pending (p : TournamentPairing) : Prop := pairing_outcome p = None.
#[export] Instance pending_dec p : Decision (pending p).
Proof. unfold pending. apply _. Defined.
Definition round_players (r : N) (ps : list TournamentPairing) : list string :=
  concat (pairing_players <$> filter (λ p, round p = r) ps).

(** One pairing of a history whose latest round is [current]. *)
Record pairing_wf (keys : list string) (current : N) (p : TournamentPairing) : Prop := {
  pw_round : 1 <= round p <= current;
  pw_open : pending p → round p = current;
  pw_known : ∀ k, k ∈ pairing_players p → k ∈ keys;
  pw_seated : pairing_players p ≠ [];
  pw_bye : pairing_outcome p = Some Bye ↔ length (pairing_players p) = 1%nat;
  pw_winner : ∀ w, pairing_winner p = Some w → w ∈ pairing_players p;
}.

Record meta_wf (m : TournamentMeta) : Prop := {
  wf_arity : arity_wf (arity m);
  wf_bracket : bracket m = SingleElimination → arity m = HEAD_TO_HEAD;
  wf_match : match_type m = Bo3 → arity m = HEAD_TO_HEAD;
  wf_override32 : ∀ r, total_rounds_override m = Some r → r < 2 ^ 32;
  wf_resolved32 : ∀ r, resolved_total_rounds m = Some r → r < 2 ^ 32;
  wf_keys : NoDup (player_keys m);
  wf_start : status m = Registration ↔ current_round m = 0;
  wf_latched : current_round m ≠ 0 →
    is_Some (total_rounds_override m) ∨ is_Some (resolved_total_rounds m);
  wf_ceiling : current_round m <= total_rounds m;
  wf_pairings : Forall (pairing_wf (player_keys m) (current_round m)) (pairings m);
  wf_once : ∀ r, NoDup (round_players r (pairings m));
  wf_ids : ∀ i p, pairings m !! i = Some p → N.of_nat i < 2 ^ 32 → id p = N.of_nat i;
  wf_completed : status m = Completed → first_unresolved_pairing m = None;
  wf_swiss_open : bracket m = Swiss → ∀ p, p ∈ pairings m → pending p →
    (2 ≤ length (still_in (gone_keys m) p))%nat;
  wf_generations : ∀ pid h, hosted m !! pid = Some h → 1 <= generation h < 2 ^ 32;
}.

(** ** Histories that differ in outcomes only *)
Definition same_seats (p q : TournamentPairing) : Prop :=
  id q = id p ∧ round q = round p ∧ pairing_players q = pairing_players p.

Lemma same_seats_refl p : same_seats p p.
Proof. done. Qed.
Lemma same_seats_outcome o p : same_seats p (with_outcome o p).
Proof. done. Qed.

Lemma Forall2_insert_one {A} (R : A → A → Prop) `{!Reflexive R} (l : list A) i x y :
  l !! i = Some x → R x y → Forall2 R l (<[i := y]> l).
Proof.
  intros Hi HR. rewrite <-(list_insert_id l i x) at 1 by done.
  apply Forall2_insert; [|done]. by apply Forall_Forall2_diag, Forall_true.
Qed.
#[export] Instance same_seats_reflexive : Reflexive same_seats.
Proof. intros p. apply same_seats_refl. Qed.
#[export] Instance same_seats_transitive : Transitive same_seats.
Proof. intros p q s (?&?&?) (?&?&?). unfold same_seats. split_and!; congruence. Qed.

Section histories.
Variables (ps qs : list TournamentPairing).
Hypothesis Hsame : Forall2 same_seats ps qs.

Lemma same_round_players r : round_players r qs = round_players r ps.
Proof.
  unfold round_players. induction Hsame as [|p q ps' qs' (_&Hr&Hp) Hrest IH]; [done|].
  rewrite !filter_cons, Hr. case_decide; [|by apply IH]. rewrite !fmap_cons, Hp.
  cbn [concat]. by rewrite (IH Hrest).
Qed.
Lemma same_ids :
  (∀ i p, ps !! i = Some p → N.of_nat i < 2 ^ 32 → id p = N.of_nat i) →
  ∀ i q, qs !! i = Some q → N.of_nat i < 2 ^ 32 → id q = N.of_nat i.
Proof.
  intros Hids i q Hq Hi. destruct (Forall2_lookup_r _ _ _ _ _ Hsame Hq) as (p&Hp&(Hid&_)).
  rewrite Hid. by apply Hids.
Qed.
End histories.

Lemma first_unresolved_None m :
  first_unresolved_pairing m = None ↔ ∀ p, p ∈ pairings m → ¬ pending p.
Proof.
  unfold first_unresolved_pairing. rewrite find_first_None. unfold is_pending, pending.
  split; intros H p Hp; specialize (H p Hp).
  - by apply bool_decide_eq_false in H.
  - by apply bool_decide_eq_false.
Qed.
Lemma is_pending_true p : is_pending p = true ↔ pending p.
Proof. apply bool_decide_eq_true. Qed.
Lemma pairing_seats_true p k : pairing_seats p k = true ↔ k ∈ pairing_players p.
Proof. apply seats_elem. Qed.

(** A history with no entries above round [current] gains round [current + 1]. *)
Lemma round_players_app r ps qs :
  round_players r (ps ++ qs) = round_players r ps ++ round_players r qs.
Proof. unfold round_players. by rewrite filter_app, fmap_app, concat_app. Qed.
Lemma round_players_other r ps :
  Forall (λ p, round p ≠ r) ps → round_players r ps = [].
Proof. intros H. unfold round_players. by rewrite filter_none. Qed.
Lemma round_players_all r ps :
  Forall (λ p, round p = r) ps → round_players r ps = concat (pairing_players <$> ps).
Proof. intros H. unfold round_players. by rewrite filter_all. Qed.

(** A record is bound to its round by the round's distinctness. *)
Lemma round_players_nodup r ps p :
  NoDup (round_players r ps) → p ∈ ps → round p = r → NoDup (pairing_players p).
Proof.
  unfold round_players. intros Hnd Hp Hr.
  assert (p ∈ filter (λ p, round p = r) ps) as Hin by (by apply list_elem_of_filter).
  apply list_elem_of_split in Hin as (l1&l2&Heq). rewrite Heq, fmap_app, concat_app in Hnd.
  apply NoDup_app in Hnd as (_&_&Hnd). rewrite fmap_cons in Hnd. cbn [concat] in Hnd.
  by apply NoDup_app in Hnd as (?&_).
Qed.

(** ** Ids *)
Lemma max_id_spec ps :
  match max_id ps with
  | None => ps = []
  | Some k => (∃ p, p ∈ ps ∧ id p = k) ∧ ∀ p, p ∈ ps → id p <= k
  end.
Proof.
  induction ps as [|p ps IH]; [done|]. simpl. destruct (max_id ps) as [k|].
  - destruct IH as [(q&Hq&Hk) Hmax]. split.
    + destruct (N.max_spec (id p) k) as [[_ ->]|[_ ->]].
      * exists q. split; [by right|done].
      * exists p. split; [left|done].
    + intros q' [->|Hq']%elem_of_cons; [lia|]. specialize (Hmax q' Hq'). lia.
  - subst ps. split; [exists p; split; [left|done]|].
    intros q [->|Hq]%elem_of_cons; [lia|]. by apply elem_of_nil in Hq.
Qed.

Lemma next_id_length m :
  (∀ i p, pairings m !! i = Some p → N.of_nat i < 2 ^ 32 → id p = N.of_nat i) →
  N.of_nat (length (pairings m)) < 2 ^ 32 →
  next_id m = N.of_nat (length (pairings m)).
Proof.
  intros Hids Hlen. unfold next_id. pose proof (max_id_spec (pairings m)) as Hmax.
  destruct (max_id (pairings m)) as [k|]; [|by rewrite Hmax].
  destruct Hmax as [(p&[i Hi]%list_elem_of_lookup&Hk) Hmax].
  pose proof (lookup_lt_Some _ _ _ Hi) as Hil.
  destruct (lookup_lt_is_Some_2 (pairings m) (length (pairings m) - 1) ltac:(lia)) as [q Hq].
  pose proof (Hids _ _ Hq ltac:(lia)) as Hidq.
  pose proof (Hmax q ltac:(by eapply list_elem_of_lookup_2)) as Hle.
  pose proof (Hids _ _ Hi ltac:(lia)) as Hidp.
  rewrite wadd_small by lia. lia.
Qed.

Lemma next_id_lt m : next_id m < 2 ^ 32.
Proof.
  unfold next_id. destruct (max_id _); [apply wrap_lt|done].
Qed.

(** ** The active players, in standings order *)
Lemma dropped_keys_elem ps k :
  k ∈ dropped_keys ps ↔ ∃ p, p ∈ ps ∧ player_key p = k ∧ dropped p = true.
Proof.
  unfold dropped_keys. rewrite list_elem_of_fmap. setoid_rewrite list_elem_of_filter.
  naive_solver.
Qed.

Lemma wf_pairing_nodup m p : meta_wf m → p ∈ pairings m → NoDup (pairing_players p).
Proof. intros Hm Hp. by eapply (round_players_nodup (round p)); [apply wf_once|..]. Qed.
Lemma wf_all_nodup m : meta_wf m → Forall (λ p, NoDup (pairing_players p)) (pairings m).
Proof. intros Hm. apply Forall_forall. intros p. by apply wf_pairing_nodup. Qed.
Lemma wf_pairing m p :
  meta_wf m → p ∈ pairings m → pairing_wf (player_keys m) (current_round m) p.
Proof. intros Hm. apply Forall_forall, wf_pairings, Hm. Qed.

Lemma active_order_ok m :
  meta_wf m → ∃ order, active_order m = Ok order ∧
    order ≡ₚ player_key <$> active_players m.
Proof.
  intros Hm. unfold active_order. rewrite standings_rows by (by apply wf_all_nodup).
  eexists. split; [done|]. rewrite merge_sort_Permutation. rewrite filter_fmap_list.
  rewrite <-list_fmap_compose. unfold active_players.
  rewrite (filter_ext_in _ (λ p, dropped p = false)).
  2: { intros p Hp. pose proof (row_default_spec m p (wf_all_nodup m Hm) Hp) as [_ Hd].
       by rewrite Hd. }
  replace (row_player_key ∘ row_default m <$> filter (λ p, dropped p = false) (players m))
    with (player_key <$> filter (λ p, dropped p = false) (players m)); [done|].
  apply list_fmap_ext. intros i p Hi%list_elem_of_lookup_2.
  apply list_elem_of_filter in Hi as [_ Hi]. symmetry.
  by apply row_default_spec; [apply wf_all_nodup|].
Qed.

Lemma active_order_spec m order :
  meta_wf m → active_order m = Ok order →
  NoDup order ∧ ∀ k, k ∈ order ↔ k ∈ player_keys m ∧ k ∉ gone_keys m.
Proof.
  intros Hm Hord. destruct (active_order_ok m Hm) as (order'&Heq&Hp).
  rewrite Hord in Heq. injection Heq as <-.
  assert (player_key <$> active_players m `sublist_of` player_keys m) as Hsub.
  { apply fmap_sublist, sublist_filter. }
  assert (∀ p q, p ∈ players m → q ∈ players m → player_key p = player_key q → p = q) as Hinj.
  { intros p q [i Hi]%list_elem_of_lookup [j Hj]%list_elem_of_lookup Hk.
    assert (i = j) as ->; [|congruence].
    eapply (NoDup_lookup (player_keys m)); [apply wf_keys, Hm|..];
      unfold player_keys; rewrite list_lookup_fmap; [by rewrite Hi|by rewrite Hj, Hk]. }
  split.
  - rewrite Hp. eapply sublist_NoDup; [|done]. apply wf_keys, Hm.
  - intros k. rewrite Hp, list_elem_of_fmap. unfold active_players, player_keys, gone_keys.
    setoid_rewrite list_elem_of_filter. rewrite list_elem_of_fmap, dropped_keys_elem. split.
    + intros (p&->&Hd&Hin). split; [by exists p|]. intros (q&Hq&Hk&Hdq).
      rewrite (Hinj q p) in Hdq by done. congruence.
    + intros [(p&->&Hin) Hno]. exists p. split; [done|]. split; [|done].
      destruct (dropped p) eqn:Hd; [|done]. destruct Hno. by exists p.
Qed.

(** ** What a newly built round looks like *)
Record round_built (m : TournamentMeta) (r : N) (gen : list TournamentPairing) : Prop := {
  rb_round : Forall (λ p, round p = r) gen;
  rb_once : NoDup (concat (pairing_players <$> gen));
  rb_known : ∀ p k, p ∈ gen → k ∈ pairing_players p → k ∈ player_keys m;
  rb_seated : ∀ p, p ∈ gen → pairing_players p ≠ [];
  rb_outcome : ∀ p, p ∈ gen →
    pairing_outcome p = if (length (pairing_players p) =? 1)%nat then Some Bye else None;
  rb_ids : ∀ i p, gen !! i = Some p → id p = wrap 32 (next_id m + N.of_nat i);
  rb_open : bracket m = Swiss → ∀ p k, p ∈ gen → k ∈ pairing_players p → k ∉ gone_keys m;
}.

Lemma elem_of_concat_players p k ps :
  p ∈ ps → k ∈ pairing_players p → k ∈ concat (pairing_players <$> ps).
Proof.
  intros Hp Hk. apply list_elem_of_In, in_concat. exists (pairing_players p).
  rewrite <-!list_elem_of_In. split; [|done]. apply list_elem_of_fmap. by exists p.
Qed.

Lemma swiss_round_built m order r gen :
  meta_wf m → active_order m = Ok order →
  build_swiss_round order (arity m) (pairings m) r (next_id m) = Ok gen →
  round_built m r gen ∧ concat (pairing_players <$> gen) ≡ₚ order.
Proof.
  intros Hm Hord Hgen. destruct (active_order_spec m order Hm Hord) as [Hnd Hin].
  pose proof (wf_arity _ Hm) as Ha. pose proof (seats_of_wf _ Ha) as Hk.
  destruct (build_swiss_round_stages order (arity m) (pairings m) Ha r (next_id m))
    as (lone&pool&short&rest&pods&Heq&_&_&Hlone&_&_&Hlen&Hperm&_).
  rewrite Hgen in Heq. injection Heq as ->.
  set (seatings := _ ++ _). pose proof (next_id_lt m) as Hid.
  assert (∀ i p, number_pairings (next_id m) r seatings !! i = Some p →
    ∃ s, seatings !! i = Some s ∧ id p = wrap 32 (next_id m + N.of_nat i) ∧ round p = r ∧
      pairing_players p = s.1 ∧ pairing_outcome p = s.2) as Hlook.
  { intros i p Hp. rewrite number_pairings_lookup in Hp by done.
    apply fmap_Some in Hp as (s&Hs&->). by exists s. }
  assert (concat (pairing_players <$> number_pairings (next_id m) r seatings) ≡ₚ order) as Hc.
  { rewrite number_pairings_players. subst seatings.
    rewrite fmap_app, <-!list_fmap_compose, concat_app. unfold compose. simpl.
    rewrite list_fmap_id.
    assert (concat ((λ p, [p]) <$> lone) = lone) as ->; [|done].
    clear. induction lone as [|p l IH]; [done|]. cbn. f_equal. exact IH. }
  assert (∀ p k, p ∈ number_pairings (next_id m) r seatings → k ∈ pairing_players p →
    k ∈ order) as Hseat.
  { intros p k Hp Hkp. rewrite <-Hc. by eapply elem_of_concat_players. }
  split; [|done]. split.
  - apply Forall_lookup. intros i p Hp. by destruct (Hlook i p Hp) as (s&_&_&?&_).
  - by rewrite Hc.
  - intros p k Hp Hkp. by apply Hin, (Hseat p).
  - intros p [i Hp]%list_elem_of_lookup. destruct (Hlook i p Hp) as (s&Hs&_&_&->&_).
    apply list_elem_of_lookup_2, elem_of_app in Hs as [Hs|Hs].
    + apply list_elem_of_fmap in Hs as (pod&->&Hpod). simpl. intros ->.
      apply (list_elem_of_fmap_2 length) in Hpod. rewrite Hlen, elem_of_app in Hpod.
      destruct Hpod as [Hp'|Hp']; apply elem_of_replicate in Hp' as [Hp' _]; simpl in Hp'; lia.
    + by apply list_elem_of_fmap in Hs as (k&->&_).
  - intros p [i Hp]%list_elem_of_lookup. destruct (Hlook i p Hp) as (s&Hs&_&_&->&->).
    by eapply round_seatings_outcome in Hs as [-> _].
  - intros i p Hp. by destruct (Hlook i p Hp) as (s&_&?&_).
  - intros _ p k Hp Hkp. by apply Hin, (Hseat p).
Qed.

Lemma winners_distinct (ps : list TournamentPairing) ws :
  NoDup (concat (pairing_players <$> ps)) →
  Forall2 (λ p w, advancing p = Ok w) ps ws →
  (∀ p w, p ∈ ps → pairing_winner p = Some w → w ∈ pairing_players p) →
  NoDup ws ∧ ∀ w, w ∈ ws → w ∈ concat (pairing_players <$> ps).
Proof.
  intros Hnd Hws. induction Hws as [|p w ps ws Hw _ IH]; intros Hin.
  { split; [constructor|]. by intros w ?%elem_of_nil. }
  rewrite fmap_cons in *. cbn [concat] in *. apply NoDup_app in Hnd as (_&Hdisj&Hnd).
  destruct IH as [IH1 IH2]; [done|by intros; apply Hin; [right|]|].
  unfold advancing in Hw. destruct (pairing_winner p) as [w'|] eqn:Hpw; [|done].
  injection Hw as ->. pose proof (Hin p w ltac:(left) Hpw) as Hwp. split.
  - constructor; [|done]. intros Hwin. by apply (Hdisj w), IH2.
  - intros x [->|Hx]%elem_of_cons; rewrite elem_of_app; [by left|right; by apply IH2].
Qed.

Lemma seeded_pods_nonempty order pods :
  seeded_pods order = Ok pods → Forall (λ p, p ≠ []) pods ∧ concat pods ≡ₚ order.
Proof.
  intros Heq. assert (SINGLE_ELIMINATION_MIN_PLAYERS ≤ length order ≤
    SINGLE_ELIMINATION_MAX_PLAYERS)%nat as Hn.
  { unfold seeded_pods in Heq.
    destruct (Nat.leb_spec SINGLE_ELIMINATION_MIN_PLAYERS (length order)); [|done].
    destruct (Nat.leb_spec (length order) SINGLE_ELIMINATION_MAX_PLAYERS); done. }
  split; [|by apply seeded_pods_perm].
  destruct (bracket_depth _ Hn) as (d&_&Hslots&Hd).
  rewrite (seeded_pods_ok order d) in Heq by (done || lia). injection Heq as <-.
  apply Forall_fmap, Forall_forall. intros i Hi%elem_of_seq. simpl.
  destruct (lookup_lt_is_Some_2 order i ltac:(lia)) as [top ->]. done.
Qed.

Lemma bracket_pods m order r pods :
  meta_wf m → active_order m = Ok order →
  (if r <=? 1 then seeded_pods order else advanced_pods (pairings m) r) = Ok pods →
  NoDup (concat pods) ∧ (∀ k, k ∈ concat pods → k ∈ player_keys m) ∧
  Forall (λ p, p ≠ []) pods.
Proof.
  intros Hm Hord Hpods. destruct (active_order_spec m order Hm Hord) as [Hnd Hin].
  destruct (r <=? 1).
  - apply seeded_pods_nonempty in Hpods as [Hne Hp]. rewrite Hp. split_and!; [done| |done].
    intros k. rewrite Hp. by intros [? _]%Hin.
  - unfold advanced_pods in Hpods. set (prev := filter _ _) in Hpods.
    destruct (length prev <? 2)%nat; [done|].
    destruct (try_map advancing prev) as [ws| |] eqn:Hws; [|done..].
    injection Hpods as <-. rewrite concat_chunks2.
    apply try_map_inv in Hws.
    destruct (winners_distinct prev ws) as [Hwnd Hwin].
    + apply (wf_once _ Hm (r - 1)).
    + done.
    + intros p w [_ Hp]%list_elem_of_filter. apply (pw_winner _ _ _ (wf_pairing m p Hm Hp)).
    + split_and!; [done| |apply chunks2_nonempty].
      intros k Hk%Hwin%list_elem_of_In%in_concat. destruct Hk as (l&Hl&Hk).
      apply list_elem_of_In, list_elem_of_fmap in Hl as (p&->&Hp).
      apply list_elem_of_filter in Hp as [_ Hp].
      apply (pw_known _ _ _ (wf_pairing m p Hm Hp)). by apply list_elem_of_In.
Qed.

Lemma bracket_round_built m order r gen :
  meta_wf m → bracket m = SingleElimination → active_order m = Ok order →
  build_single_elimination_round order (pairings m) r (next_id m) = Ok gen →
  round_built m r gen.
Proof.
  intros Hm Hb Hord Hgen. unfold build_single_elimination_round in Hgen.
  destruct (if r <=? 1 then _ else _) as [pods| |] eqn:Hpods; [|done..].
  injection Hgen as <-. fold (pod_pairing r (next_id m)).
  destruct (bracket_pods m order r pods Hm Hord Hpods) as (Hnd&Hknown&Hne).
  assert (∀ i p, imap (pod_pairing r (next_id m)) pods !! i = Some p →
    ∃ pod, pods !! i = Some pod ∧ p = pod_pairing r (next_id m) i pod) as Hlook.
  { intros i p Hp. rewrite list_lookup_imap in Hp. apply fmap_Some in Hp as (pod&?&->).
    by exists pod. }
  split.
  - apply Forall_lookup. intros i p Hp. by destruct (Hlook i p Hp) as (pod&_&->).
  - by rewrite imap_players.
  - intros p k Hp Hk. apply Hknown. rewrite <-(imap_players r (next_id m) pods).
    by eapply elem_of_concat_players.
  - intros p [i Hp]%list_elem_of_lookup. destruct (Hlook i p Hp) as (pod&Hpod&->).
    rewrite Forall_forall in Hne. apply (Hne pod). by eapply list_elem_of_lookup_2.
  - intros p [i Hp]%list_elem_of_lookup. by destruct (Hlook i p Hp) as (pod&_&->).
  - intros i p Hp. destruct (Hlook i p Hp) as (pod&_&->). simpl.
    unfold wadd. by rewrite wrap_add_r.
  - congruence.
Qed.

Lemma round_built_ok m order r gen :
  meta_wf m → active_order m = Ok order → build_round m order r = Ok gen →
  round_built m r gen.
Proof.
  intros Hm Hord Hgen. unfold build_round in Hgen. destruct (bracket m) eqn:Hb.
  - by eapply swiss_round_built.
  - by eapply bracket_round_built.
Qed.
