(* ===== verification/TournamentLife.v ===== *)
(** * Reachable tournaments

    Every step keeps the invariant of [TournamentInv], so every tournament a manager
    can reach satisfies it; what follows from it for rounds, results, hosting, drops
    and expiry. *)
From Stdlib Require Import String.
From S2P Require Import Prelude.
From S2P Require Import Credentials.
From S2P Require Import TournamentTypes.
From S2P Require Import SwissPairing.
From S2P Require Import SwissSelect.
From S2P Require Import SwissRound.
From S2P Require Import Standings.
From S2P Require Import Brackets.
From S2P Require Import Tournament.
From S2P Require Import TournamentSteps.
From S2P Require Import TournamentInv.
Local Open Scope N_scope.

(** ** Small consequences of the invariant *)
Section wf.
Variable m : TournamentMeta.
Hypothesis Hm : meta_wf m.

Lemma total_rounds_lt : total_rounds m < 2 ^ 32.
Proof.
  unfold total_rounds. destruct (total_rounds_override m) eqn:Ho; [by apply (wf_override32 _ Hm)|].
  destruct (resolved_total_rounds m) eqn:Hr; [by apply (wf_resolved32 _ Hm)|].
  unfold u32_saturating_add. change (2 ^ 32) with 4294967296. lia.
Qed.
Lemma next_round : current_round m < total_rounds m →
  u32_add (current_round m) 1 = current_round m + 1.
Proof. intros H. pose proof total_rounds_lt. apply wadd_small. lia. Qed.
Lemma no_round_no_pairings : current_round m = 0 → pairings m = [].
Proof.
  intros H0. pose proof (wf_pairings _ Hm) as Hps. rewrite H0 in Hps.
  destruct (pairings m) as [|p ps]; [done|].
  apply Forall_cons in Hps as [Hp _]. apply pw_round in Hp. lia.
Qed.
End wf.

Lemma pairing_wf_mono keys keys' current p :
  (∀ k, k ∈ keys → k ∈ keys') → pairing_wf keys current p → pairing_wf keys' current p.
Proof. intros Hk []. split; auto. Qed.

(** ** Steps that change outcomes and players' flags only *)
Lemma wf_outcomes m ps qs now :
  meta_wf m →
  player_key <$> ps = player_keys m →
  Forall2 same_seats (pairings m) qs →
  Forall (pairing_wf (player_keys m) (current_round m)) qs →
  (status m = Completed → ∀ p, p ∈ qs → ¬ pending p) →
  (bracket m = Swiss → ∀ p, p ∈ qs → pending p →
    (2 ≤ length (still_in (dropped_keys ps) p))%nat) →
  meta_wf (touch now (set_pairings qs (set_players ps m))).
Proof.
  intros Hm Hps Hsame Hqs Hst Hopen.
  assert (current_round m <= total_rounds (touch now (set_pairings qs (set_players ps m)))) as Hc.
  { pose proof (wf_ceiling _ Hm) as Hceil. destruct (decide (current_round m = 0)); [lia|].
    destruct (wf_latched _ Hm n) as [[r Hr]|[r Hr]]; unfold total_rounds in *; simpl in *;
      rewrite Hr in *; [done|]. by destruct (total_rounds_override m). }
  destruct Hm. split; simpl; auto.
  - unfold player_keys. simpl. by rewrite Hps.
  - unfold player_keys. simpl. by rewrite Hps.
  - intros r. by rewrite (same_round_players _ _ Hsame).
  - by eapply same_ids.
  - intros Hcomp. apply first_unresolved_None. by apply Hst.
Qed.

(** The forfeit of one pairing, if any. *)
Lemma settle_pairing_cases gone key p :
  (settle_pairing gone key p = p ∧
    (pending p → key ∈ pairing_players p → length (still_in gone p) ≠ 1%nat)) ∨
  (∃ survivor, settle_pairing gone key p = with_outcome (Some (Forfeit survivor)) p ∧
    pending p ∧ key ∈ pairing_players p ∧ still_in gone p = [survivor]).
Proof.
  unfold settle_pairing. destruct (is_pending p) eqn:Hp; simpl.
  2: { left. split; [done|]. intros Hpend%is_pending_true. congruence. }
  apply is_pending_true in Hp. destruct (pairing_seats p key) eqn:Hs; simpl.
  2: { left. split; [done|]. intros _ Hk%pairing_seats_true. congruence. }
  apply pairing_seats_true in Hs. fold (still_in gone p).
  destruct (still_in gone p) as [|s [|s' l]] eqn:Hstill.
  - left. split; [done|]. simpl. lia.
  - right. by exists s.
  - left. split; [done|]. simpl. lia.
Qed.

Lemma settle_same gone key ps :
  Forall2 same_seats ps (settle_pairing gone key <$> ps).
Proof.
  induction ps as [|p ps IH]; constructor; [|done].
  destruct (settle_pairing_cases gone key p) as [[-> _]|(s&->&_)]; done.
Qed.

Lemma wf_settled keys current gone key p :
  pairing_wf keys current p → pairing_wf keys current (settle_pairing gone key p).
Proof.
  intros Hp. destruct (settle_pairing_cases gone key p) as [[-> _]|(s&->&Hpend&Hk&Hs)]; [done|].
  destruct Hp as [H1 H2 H3 H4 H5 H6]. split; simpl; auto.
  - split; [done|]. intros Hl%H5. unfold pending in Hpend. congruence.
  - intros w [= <-]. assert (s ∈ still_in gone p) as Hin by (rewrite Hs; left).
    by apply list_elem_of_filter in Hin as [_ ?].
Qed.

(** Who is out after player [idx] drops. *)
Lemma drop_keys m idx p :
  players m !! idx = Some p →
  player_key <$> <[idx := mark_dropped p]> (players m) = player_keys m.
Proof.
  intros Hp. rewrite list_fmap_insert. apply list_insert_id.
  unfold player_keys. by rewrite list_lookup_fmap, Hp.
Qed.
Lemma drop_gone m idx p k :
  players m !! idx = Some p →
  k ∈ dropped_keys (<[idx := mark_dropped p]> (players m)) →
  k ∈ gone_keys m ∨ k = player_key p.
Proof.
  intros Hp (q&Hq&<-&Hd)%dropped_keys_elem.
  apply list_elem_of_lookup in Hq as [j Hj].
  apply list_lookup_insert_Some in Hj as [(_&<-&_)|[_ Hj]]; [by right|].
  left. apply dropped_keys_elem. exists q. split_and!; [by eapply list_elem_of_lookup_2|done..].
Qed.

(** Losing one name costs a list of distinct players at most one. *)
Lemma filter_one_more (gone gone' l : list string) key :
  NoDup l → (∀ k, k ∈ gone' → k ∈ gone ∨ k = key) →
  (length (filter (λ k, k ∉ gone) l) ≤ S (length (filter (λ k, k ∉ gone') l)))%nat ∧
  (key ∉ l → (length (filter (λ k, k ∉ gone) l) ≤ length (filter (λ k, k ∉ gone') l))%nat).
Proof.
  intros Hnd Hgone. induction Hnd as [|k l Hk Hnd IH]; [simpl; split; lia|].
  destruct IH as [IH1 IH2]. rewrite !filter_cons. rewrite not_elem_of_cons.
  destruct (decide (k = key)) as [->|Hne].
  - specialize (IH2 Hk). split; [repeat case_decide; simpl; lia|]. by intros [? _].
  - assert (k ∉ gone → k ∉ gone') by (intros ? [?|?]%Hgone; done).
    repeat case_decide; simpl; (split; [|intros [_ Hl]; specialize (IH2 Hl)]; lia || tauto).
Qed.

(** ** Preservation, step by step *)
Lemma wf_join m key token display now :
  meta_wf m → status m = Registration → find_player m key = None →
  meta_wf (touch now (set_players
    (players m ++ [{| player_key := key; player_token := token;
                      display_name := display; dropped := false |}]) m)).
Proof.
  intros Hm Hst Hnew. pose proof (proj1 (wf_start _ Hm) Hst) as H0.
  pose proof (no_round_no_pairings m Hm H0) as Hps.
  destruct Hm. split; simpl; rewrite ?Hps, ?H0; auto; try lia.
  - unfold player_keys in *. simpl. rewrite fmap_app. apply NoDup_app. split_and!; [done| |].
    + intros k Hk Hk'. apply list_elem_of_singleton in Hk'. simpl in Hk'. subst k.
      apply list_elem_of_fmap in Hk as (p&Hp&Hin). unfold find_player in Hnew.
      rewrite find_first_None in Hnew. specialize (Hnew p Hin).
      by rewrite <-Hp, String.eqb_refl in Hnew.
    + apply NoDup_singleton.
  - rewrite Hst. done.
  - intros r. constructor.
  - by intros i p.
  - intros _ p ?%elem_of_nil. done.
Qed.

Lemma wf_renew_player m idx p c :
  meta_wf m → players m !! idx = Some p →
  meta_wf (set_players (<[idx := with_token c p]> (players m)) m).
Proof.
  intros Hm Hp. set (ps := <[idx := _]> _).
  assert (player_key <$> ps = player_keys m) as Hk.
  { subst ps. rewrite list_fmap_insert. apply list_insert_id.
    unfold player_keys. by rewrite list_lookup_fmap, Hp. }
  assert (∀ k, k ∈ dropped_keys ps → k ∈ gone_keys m) as Hgone.
  { intros k (q&Hq&<-&Hd)%dropped_keys_elem. apply list_elem_of_lookup in Hq as [j Hj].
    apply dropped_keys_elem. apply list_lookup_insert_Some in Hj as [(_&<-&_)|[_ Hj]].
    - exists p. split_and!; [by eapply list_elem_of_lookup_2|done..].
    - exists q. split_and!; [by eapply list_elem_of_lookup_2|done..]. }
  replace (set_players ps m) with
    (touch (last_activity_at m) (set_pairings (pairings m) (set_players ps m))) by done.
  apply wf_outcomes; [done|done| |apply wf_pairings, Hm| |].
  - apply Forall_Forall2_diag, Forall_true, same_seats_refl.
  - intros Hc. apply first_unresolved_None. by apply (wf_completed _ Hm).
  - intros Hb q Hq Hpend. pose proof (wf_swiss_open _ Hm Hb q Hq Hpend) as H2.
    etrans; [exact H2|]. apply sublist_length. unfold still_in.
    assert (filter (λ k, k ∉ gone_keys m) (pairing_players q) =
      filter (λ k, k ∉ gone_keys m) (filter (λ k, k ∉ dropped_keys ps) (pairing_players q))) as ->.
    { rewrite list_filter_filter_l; [done|]. intros k Hn Hd. by apply Hn, Hgone. }
    apply sublist_filter.
Qed.

Lemma wf_report m index p res authority now :
  meta_wf m → pairings m !! index = Some p →
  gate_check (id p) (report_gate m p) authority = Ok tt →
  validate_match_result p res (players m) (match_type m) = Ok tt →
  meta_wf (touch now (set_pairings
    (<[index := with_outcome (Some (Reported res)) p]> (pairings m)) m)).
Proof.
  intros Hm Hp Hgate Hval. pose proof (list_elem_of_lookup_2 _ _ _ Hp) as Hin.
  pose proof (wf_pairing m p Hm Hin) as Hpw.
  apply validate_ok in Hval; [|by eapply wf_pairing_nodup].
  replace (set_pairings (<[index:=_]> (pairings m)) m) with
    (set_pairings (<[index:=with_outcome (Some (Reported res)) p]> (pairings m))
      (set_players (players m) m)) by (by rewrite set_players_id).
  apply wf_outcomes; [done|done| | | |].
  - by apply (Forall2_insert_one same_seats _ _ p).
  - apply Forall_insert; [apply wf_pairings, Hm|]. destruct Hpw as [H1 H2 H3 H4 H5 H6].
    split; simpl; auto.
    + intros Hpend. done.
    + split; [done|]. intros Hl%H5. unfold report_gate in Hgate.
      rewrite Hl in Hgate. by destruct (is_terminal _).
    + intros w Hw. destruct res as [winner wins|]; [|done]. injection Hw as <-.
      by destruct Hval as [? _].
  - intros Hst. unfold report_gate in Hgate. by rewrite Hst in Hgate.
  - intros Hb q Hq Hpend. apply list_elem_of_lookup in Hq as [j Hj].
    apply list_lookup_insert_Some in Hj as [(_&<-&_)|[_ Hj]]; [done|].
    apply (wf_swiss_open _ Hm Hb); [by eapply list_elem_of_lookup_2|done].
Qed.

Lemma wf_drop m idx p now :
  meta_wf m → is_terminal (status m) = false → players m !! idx = Some p →
  meta_wf (touch now (with_drop idx p (player_key p) m)).
Proof.
  intros Hm Hst Hp. unfold with_drop. set (ps := <[idx := _]> _).
  apply wf_outcomes; [done|by apply drop_keys|apply settle_same| | |].
  - apply Forall_fmap. eapply Forall_impl; [apply wf_pairings, Hm|].
    intros q Hq. by apply wf_settled.
  - intros Hc. by rewrite Hc in Hst.
  - intros Hb q Hq Hpend. apply list_elem_of_fmap in Hq as (q0&->&Hq0).
    destruct (settle_pairing_cases (dropped_keys ps) (player_key p) q0)
      as [[Heq Hne]|(s&Heq&_)]; rewrite Heq in *; [|done].
    pose proof (wf_swiss_open _ Hm Hb q0 Hq0 Hpend) as H2.
    destruct (filter_one_more (gone_keys m) (dropped_keys ps) (pairing_players q0) (player_key p))
      as [H3 H4]; [by eapply wf_pairing_nodup|intros k; by apply drop_gone|].
    unfold still_in in *.
    destruct (decide (player_key p ∈ pairing_players q0)) as [Hk|Hk].
    + specialize (Hne Hpend Hk). lia.
    + specialize (H4 Hk). lia.
Qed.

(** ** A paired round keeps the invariant *)
Section paired.
Variables (m : TournamentMeta) (gen : list TournamentPairing) (now : N).
Hypothesis Hm : meta_wf m.
Hypothesis Hlive : is_terminal (status m) = false.
Hypothesis Hlt : current_round m < total_rounds m.
Hypothesis Hdone : first_unresolved_pairing m = None.
Hypothesis Hgen : round_built m (current_round m + 1) gen.

Lemma old_rounds r : current_round m < r → Forall (λ p, round p ≠ r) (pairings m).
Proof.
  intros Hr. apply Forall_forall. intros p Hp <-.
  pose proof (pw_round _ _ _ (wf_pairing m p Hm Hp)). lia.
Qed.

Lemma paired_once r : NoDup (round_players r (pairings m ++ gen)).
Proof.
  rewrite round_players_app. destruct (decide (r = current_round m + 1)) as [->|Hr].
  - rewrite round_players_other by (apply old_rounds; lia). simpl.
    rewrite round_players_all by apply Hgen. apply Hgen.
  - rewrite (round_players_other r gen), app_nil_r; [apply (wf_once _ Hm)|].
    eapply Forall_impl; [apply Hgen|]. simpl. congruence.
Qed.

Lemma paired_wf :
  Forall (pairing_wf (player_keys m) (current_round m + 1)) (pairings m ++ gen).
Proof.
  apply Forall_app. split; apply Forall_forall; intros p Hp.
  - pose proof (wf_pairing m p Hm Hp) as [H1 H2 H3 H4 H5 H6]. split; auto; [lia|].
    intros Hpend. by destruct (proj1 (first_unresolved_None m) Hdone p Hp).
  - destruct Hgen as [G1 G2 G3 G4 G5 G6 G7]. rewrite Forall_forall in G1.
    pose proof (G1 p Hp) as Hr. specialize (G5 p Hp).
    destruct (Nat.eqb_spec (length (pairing_players p)) 1) as [Hl|Hl].
    + split; auto; [lia|by intros; apply (G3 p)|by rewrite G5|].
      intros w. unfold pairing_winner. rewrite G5.
      destruct (pairing_players p); [done|]. intros [= ->]. left.
    + split; auto; [lia|by intros; apply (G3 p)|rewrite G5; split; [done|lia]|].
      intros w. unfold pairing_winner. by rewrite G5.
Qed.

Lemma paired_ids i p :
  (pairings m ++ gen) !! i = Some p → N.of_nat i < 2 ^ 32 → id p = N.of_nat i.
Proof.
  intros [Hi|[Hlen Hi]]%lookup_app_Some H32; [by apply (wf_ids _ Hm)|].
  rewrite (rb_ids _ _ _ Hgen _ _ Hi).
  rewrite next_id_length; [|apply (wf_ids _ Hm)|lia]. rewrite wrap_small; lia.
Qed.

Lemma paired_open p :
  bracket m = Swiss → p ∈ pairings m ++ gen → pending p →
  (2 ≤ length (still_in (gone_keys m) p))%nat.
Proof.
  intros Hb [Hp|Hp]%elem_of_app Hpend.
  { by destruct (proj1 (first_unresolved_None m) Hdone p Hp). }
  unfold still_in. rewrite filter_all.
  - pose proof (rb_outcome _ _ _ Hgen p Hp) as Ho. unfold pending in Hpend.
    pose proof (rb_seated _ _ _ Hgen p Hp) as Hne.
    destruct (Nat.eqb_spec (length (pairing_players p)) 1); [congruence|].
    destruct (pairing_players p) as [|x [|y l]]; simpl in *; [done|lia|lia].
  - apply Forall_forall. intros k Hk. by apply (rb_open _ _ _ Hgen Hb p).
Qed.

Lemma paired_schedule :
  let m' := with_round gen (current_round m + 1) (total_rounds m) now m in
  total_rounds m' = total_rounds m ∧
  (is_Some (total_rounds_override m) ∨ is_Some (resolved_total_rounds m')) ∧
  (∀ r, resolved_total_rounds m' = Some r → r < 2 ^ 32).
Proof.
  unfold with_round. unfold total_rounds at 1. simpl.
  pose proof (total_rounds_lt m Hm) as Htot.
  destruct (total_rounds_override m) as [o|] eqn:Ho.
  { rewrite (bool_decide_eq_false_2 (Some o = None)) by done. rewrite andb_false_r. simpl.
    split_and!; [by unfold total_rounds; rewrite Ho|by left|apply (wf_resolved32 _ Hm)]. }
  destruct (resolved_total_rounds m) as [s|] eqn:Hs.
  { rewrite (bool_decide_eq_false_2 (Some s = None)) by done. rewrite andb_false_r. simpl.
    split_and!; [by unfold total_rounds; rewrite Ho, Hs|by right|].
    intros r [= <-]. by apply (wf_resolved32 _ Hm). }
  assert (current_round m = 0) as H0.
  { destruct (decide (current_round m = 0)) as [|Hne]; [done|].
    destruct (wf_latched _ Hm Hne) as [[x Hx]|[x Hx]]; congruence. }
  rewrite H0. simpl. split_and!; [done|by right|]. intros r [= <-]. done.
Qed.

Lemma wf_paired : meta_wf (with_round gen (current_round m + 1) (total_rounds m) now m).
Proof.
  destruct paired_schedule as (Htot&Hlatch&H32).
  split; rewrite ?Htot; try exact H32; try exact (wf_arity _ Hm);
    try exact (wf_bracket _ Hm); try exact (wf_match _ Hm); try exact (wf_override32 _ Hm);
    try exact (wf_keys _ Hm); try exact (wf_generations _ Hm).
  - simpl. split; [done|lia].
  - intros _. exact Hlatch.
  - simpl. lia.
  - exact paired_wf.
  - exact paired_once.
  - exact paired_ids.
  - done.
  - intros Hb p. by apply paired_open.
Qed.
End paired.

(** ** Every step keeps the invariant *)
Lemma wf_host m pid now :
  meta_wf m →
  meta_wf (touch now (set_hosted (<[pid := {| generation := next_generation m pid |}]> (hosted m)) m)).
Proof.
  intros Hm. split; try apply Hm.
  intros k h. simpl. rewrite lookup_insert_Some. intros [[_ <-]|[_ Hh]].
  - simpl. unfold next_generation, u32_saturating_add.
    destruct (hosted m !! pid) as [h|] eqn:Hh; [|done].
    pose proof (wf_generations _ Hm _ _ Hh). change (2 ^ 32) with 4294967296 in *. lia.
  - by apply (wf_generations _ Hm k).
Qed.

Section preservation.
Context {World : Type} `{!BrokerEnv World}.

Lemma meta_step_wf m c m' :
  meta_wf m → meta_step (World := World) m c m' → meta_wf m'.
Proof.
  intros Hm Hstep. destruct Hstep.
  - by apply wf_join.
  - split; apply Hm.
  - by apply wf_renew_player.
  - pose proof (next_round m Hm ltac:(done)) as Hr. rewrite Hr in *.
    apply wf_paired; [done..|]. by eapply round_built_ok.
  - by eapply wf_report.
  - by apply wf_host.
  - by apply wf_drop.
  - split; try apply Hm; [|done].
    simpl. pose proof (wf_start _ Hm) as Hs. split; [done|].
    intros Hz%Hs. congruence.
  - split; try apply Hm; [|done].
    simpl. pose proof (wf_start _ Hm) as Hs. split; [done|].
    intros Hz%Hs. congruence.
Qed.

(** What a caller may pass: arities and round counts are values of their Rust types. *)
Definition call_wf (c : Call) : Prop :=
  match c with
  | CallCreate _ req =>
      arity_wf (req_arity req) ∧ ∀ r, req_total_rounds req = Some r → r < 2 ^ 32
  | _ => True
  end.

Lemma wf_fresh t req token now :
  call_wf (CallCreate t req) → creatable req → meta_wf (fresh_tournament t req token now).
Proof.
  intros [Ha H32] (Hb&Hr&Hbo3). split; simpl; try done; try lia.
  - destruct (req_match_type req) as [mt|]; simpl; [intros ->; auto|].
    unfold default_match_type. by case_decide.
  - constructor.
  - intros r. constructor.
  - intros _ p ?%elem_of_nil. done.
Qed.

Definition registry_wf (ts : TournamentManager) : Prop := map_Forall (λ _, meta_wf) ts.

Lemma expire_step now t m m' :
  (expire now t m).1 = Some m' → m' = m ∨ meta_step (World := World) m CallExpire m'.
Proof.
  unfold expire. destruct (status m) eqn:Hst; repeat case_match; simpl; intros [= <-];
    try (by left). right. breflect. by apply StepAbandon.
Qed.

Lemma registry_step_wf ts c ts' :
  registry_wf ts → call_wf c → registry_step (World := World) ts c ts' → registry_wf ts'.
Proof.
  intros Hts Hc Hstep. destruct Hstep as [t req token now Hfree Hreq|c t m m' _ Ht Hm|now].
  - apply map_Forall_insert_2; [by apply wf_fresh|done].
  - apply map_Forall_insert_2; [|done]. eapply meta_step_wf; [|done]. by apply (Hts t).
  - intros t m'. rewrite map_lookup_imap. intros (m&Ht&Hm)%bind_Some.
    apply expire_step in Hm as [->|Hm]; [by apply (Hts t)|].
    eapply meta_step_wf; [|done]. by apply (Hts t).
Qed.

(** Registries a manager can reach, in any environment, whatever its callers do. *)
Inductive reachable : TournamentManager → Prop :=
  | reach_new : reachable ∅
  | reach_call c o ts env ts' env' :
      reachable ts → call_wf c →
      run_call (World := World) c (ts, env) = (o, (ts', env')) → reachable ts'.

Lemma reachable_wf ts : reachable ts → registry_wf ts.
Proof.
  induction 1 as [|c o ts env ts' env' _ IH Hc Hrun]; [by apply map_Forall_empty|].
  pose proof (run_call_steps ts c env o ts' env' Hrun) as Hs.
  destruct o; [by eapply registry_step_wf|by subst..].
Qed.
End preservation.
