(* ===== verification/TournamentSafety.v ===== *)
(** * Safety of the tournament manager

    Over everything a manager can reach: no call panics, the invariant holds, the
    recorded history is durable, and a change of a result is the server's for a hosted
    pairing, a seated player's otherwise, or the forfeit of a drop. *)
From Stdlib Require Import String.
From S2P Require Import Prelude.
From S2P Require Import Credentials.
From S2P Require Import TournamentTypes.
From S2P Require Import SwissPairing.
From S2P Require Import SwissSelect.
From S2P Require Import SwissRound.
From S2P Require Import Standings.
From S2P Require Import Brackets.
From S2P Require Import Tournament.
From S2P Require Import TournamentSteps.
From S2P Require Import TournamentInv.
From S2P Require Import TournamentLife.
Local Open Scope N_scope.

(** ** No call panics *)
Lemma build_round_no_panic m order r :
  meta_wf m → active_order m = Ok order → build_round m order r ≠ Panic.
Proof.
  intros Hm Hord. unfold build_round. destruct (bracket m).
  - destruct (build_swiss_round_stages order (arity m) (pairings m) (wf_arity _ Hm) r (next_id m))
      as (lone&pool&short&rest&pods&->&_). done.
  - unfold build_single_elimination_round. destruct (r <=? 1).
    + destruct (decide (SINGLE_ELIMINATION_MIN_PLAYERS ≤ length order ≤
        SINGLE_ELIMINATION_MAX_PLAYERS)%nat) as [Hn|Hn].
      * destruct (bracket_depth _ Hn) as (d&_&Hslots&Hd).
        by rewrite (seeded_pods_ok order d) by (done || lia).
      * unfold seeded_pods.
        destruct (Nat.leb_spec SINGLE_ELIMINATION_MIN_PLAYERS (length order)); [|done].
        by destruct (Nat.leb_spec (length order) SINGLE_ELIMINATION_MAX_PLAYERS); [lia|].
    + unfold advanced_pods. destruct (_ <? 2)%nat; [done|].
      assert (∀ ps, try_map advancing ps ≠ Panic) as Hadv.
      { induction ps as [|p ps IH]; simpl; [done|]. unfold advancing, ok_or.
        destruct (pairing_winner p); simpl; [|done]. by destruct (try_map _ ps). }
      specialize (Hadv (filter (λ p, round p = r - 1) (pairings m))).
      by destruct (try_map _ _).
Qed.

Section quiet.
Context {World : Type} `{!BrokerEnv World}.
Variable ts : TournamentManager.

Definition quiet {A} (prog : TM (World := World) A) : Prop :=
  ∀ env, (prog (ts, env)).1 ≠ Panic.

Section rules.
Context {A B : Type}.
Implicit Types (f : A → TM (World := World) B).

Lemma quiet_bind (prog : TM (World := World) A) f :
  (∀ env, match prog (ts, env) with
          | (Ok a, (ts1, _)) => ts1 = ts ∧ quiet (f a)
          | (Err _, _) => True
          | (Panic, _) => False
          end) → quiet (prog ≫= f).
Proof.
  intros Hp env. specialize (Hp env). unfold mbind, stM_bind.
  destruct (prog (ts, env)) as [[a|e|] [ts1 env1]]; [|done..].
  destruct Hp as [-> Hf]. apply Hf.
Qed.
Lemma quiet_lift (x : outcome TError A) f :
  x ≠ Panic → (∀ a, x = Ok a → quiet (f a)) → quiet (lift x ≫= f).
Proof. intros Hx Hf. apply quiet_bind. intros env. destruct x; simpl; auto. Qed.
End rules.

Lemma quiet_ensure {B} b e (prog : TM (World := World) B) :
  (b = true → quiet prog) → quiet (ensure b e;; prog).
Proof. intros Hp. apply quiet_bind. intros env. destruct b; simpl; auto. Qed.
Lemma quiet_now {B} (f : N → TM (World := World) B) :
  (∀ now, quiet (f now)) → quiet (now_secs ≫= f).
Proof.
  intros Hf. apply quiet_bind. intros env. unfold now_secs, env_now. unfold_M. simpl.
  destruct (now_ms env). auto.
Qed.
Lemma quiet_clock {B} (f : N → TM (World := World) B) :
  (∀ now, quiet (f now)) → quiet (env_now ≫= f).
Proof.
  intros Hf. apply quiet_bind. intros env. unfold env_now. simpl. destruct (now_ms env). auto.
Qed.
Lemma quiet_mint {B} (f : TournamentCredential * MintedCredential → TM (World := World) B) :
  (∀ x, quiet (f x)) → quiet (env_mint ≫= f).
Proof.
  intros Hf. apply quiet_bind. intros env. unfold env_mint. simpl. destruct (mint env). auto.
Qed.
Lemma quiet_renew {B} k presented nonce
    (f : RenewOutcome * TournamentCredential → TM (World := World) B) :
  (∀ x, quiet (f x)) → quiet (env_renew k presented nonce ≫= f).
Proof.
  intros Hf. apply quiet_bind. intros env. unfold env_renew. simpl.
  destruct (renew k presented nonce env) as [[o k'] env']. auto.
Qed.
Lemma quiet_tournaments {B} (f : TournamentManager → TM (World := World) B) :
  quiet (f ts) → quiet (tournaments ≫= f).
Proof. intros Hf. apply quiet_bind. by intros env. Qed.
Lemma quiet_meta {B} t (f : TournamentMeta → TM (World := World) B) :
  (∀ m, ts !! t = Some m → quiet (f m)) → quiet (meta_mut t ≫= f).
Proof.
  intros Hf. apply quiet_bind. intros env. unfold meta_mut, tournaments. unfold_M. simpl.
  destruct (ts !! t); [auto|done].
Qed.
End quiet.

Lemma renew_answer_no_panic o : renew_answer o ≠ Panic.
Proof. by destruct o. Qed.

Lemma run_call_no_panic {World : Type} `{!BrokerEnv World} ts c (env : World) :
  registry_wf ts → (run_call c (ts, env)).1 ≠ Panic.
Proof.
  intros Hts. revert env. change (quiet ts (run_call (World := World) c)).
  assert (∀ A (prog : TM (World := World) A), quiet ts prog → quiet ts (prog;; mret tt)) as Hig.
  { intros A prog Hp env. specialize (Hp env). unfold mbind, stM_bind.
    by destruct (prog (ts, env)) as [[a|e|] [ts1 env1]]. }
  destruct c; simpl; try apply Hig; clear Hig.
  - apply quiet_tournaments. do 4 (apply quiet_ensure; intros _).
    apply quiet_now. intros now. apply quiet_mint. by intros [].
  - apply quiet_now. intros now. apply quiet_mint. intros [token minted].
    apply quiet_meta. intros m _. do 2 (apply quiet_ensure; intros _). done.
  - apply quiet_clock. intros now. apply quiet_meta. intros m _. destruct role.
    + apply quiet_renew. intros [o k]. intros env. apply renew_answer_no_panic.
    + cbv zeta. destruct (position _ _) as [idx|] eqn:Hpos; [|done].
      apply position_lt in Hpos. destruct (lookup_lt_is_Some_2 _ _ Hpos) as [p Hp].
      apply quiet_lift; [by rewrite Hp|]. intros q _. apply quiet_ensure. intros _.
      apply quiet_renew. intros [o k]. intros env. apply renew_answer_no_panic.
  - apply quiet_now. intros now. apply quiet_meta. intros m Hm%Hts.
    do 2 (apply quiet_ensure; intros _). destruct (first_unresolved_pairing m); [done|].
    destruct (active_order_ok m Hm) as (order&Hord&_).
    apply quiet_lift; [by rewrite Hord|]. intros order' Hord'.
    apply quiet_lift; [by apply build_round_no_panic|]. by intros gen _.
  - apply quiet_now. intros now. apply quiet_meta. intros m _.
    apply quiet_lift; [by destruct (position _ _)|]. intros index Hpos.
    destruct (position _ _) as [i|] eqn:Hp; [|done]. injection Hpos as ->.
    apply position_lt in Hp. destruct (lookup_lt_is_Some_2 _ _ Hp) as [p Hpp].
    apply quiet_lift; [by rewrite Hpp|]. intros q _.
    apply quiet_lift; [unfold gate_check; by repeat case_match|]. intros _ _.
    apply quiet_lift; [apply validate_total|]. intros _ _.
    by apply quiet_ensure.
  - apply quiet_now. intros now. apply quiet_meta. intros m _.
    apply quiet_lift; [by destruct (find_pairing m pid)|]. intros p _.
    apply quiet_ensure. intros _.
    apply quiet_lift; [by destruct (report_gate m p)|]. by intros _ _.
  - apply quiet_now. intros now. apply quiet_meta. intros m _. apply quiet_ensure. intros _.
    apply quiet_lift; [by destruct (position _ _)|]. intros idx Hpos.
    destruct (position _ _) as [i|] eqn:Hp; [|done]. injection Hpos as ->.
    apply position_lt in Hp. destruct (lookup_lt_is_Some_2 _ _ Hp) as [p Hpp].
    apply quiet_lift; [by rewrite Hpp|]. by intros q _.
  - apply quiet_now. intros now. apply quiet_meta. intros m _. apply quiet_ensure. intros _.
    by destruct (first_unresolved_pairing m).
  - apply quiet_now. intros now. by apply quiet_tournaments.
Qed.

(** ** The properties *)
Section safety.
Context {World : Type} `{!BrokerEnv World}.

(** C8. Whatever its callers do and whatever the clock and the token source answer, a
    manager stays healthy: in every reachable registry no call panics, a refused call
    changes nothing, and every tournament satisfies the invariant, that is: its
    configuration is consistent, its entrants are distinct, it never has more rounds
    than scheduled, every round seats entrants at most once each, only the current
    round can hold an unresolved pairing, a pairing is a bye exactly when it has one
    seat, a winner always sits in the pairing won, ids number the history, a completed
    event has no unresolved pairing, and an unresolved Swiss pairing still has two
    players who have not dropped. *)
Theorem manager_stays_healthy (c : Call) (ts ts' : TournamentManager) (env env' : World) o :
  reachable (World := World) ts → call_wf c →
  run_call c (ts, env) = (o, (ts', env')) →
  o ≠ Panic ∧ (∀ e, o = Err e → ts' = ts) ∧ registry_wf ts ∧ registry_wf ts'.
Proof.
  intros Hr Hc Hrun. pose proof (reachable_wf ts Hr) as Hts. split_and!.
  - intros ->. apply (run_call_no_panic ts c env Hts). by rewrite Hrun.
  - intros e ->. exact (run_call_steps ts c env _ _ _ Hrun).
  - done.
  - apply reachable_wf. by eapply reach_call.
Qed.

(** How one step may change one recorded pairing. *)
Definition outcome_change (m m' : TournamentMeta) (c : Call) (p q : TournamentPairing) : Prop :=
  is_terminal (status m) = false ∧
  ((∃ t res authority, c = CallReport t (id p) res authority ∧
      pairing_outcome q = Some (Reported res) ∧
      (authority = System ↔ is_Some (hosted m !! id p)) ∧
      (pending p ∨ ∃ old, pairing_outcome p = Some (Reported old))) ∨
   (∃ t key survivor, c = CallDrop t key ∧ pending p ∧ key ∈ pairing_players p ∧
      pairing_outcome q = Some (Forfeit survivor))) ∧
  (∀ w, pairing_winner q = Some w → w ∈ pairing_players q ∧ w ∉ gone_keys m').

Lemma gate_authority m p authority :
  gate_check (id p) (report_gate m p) authority = Ok tt →
  is_terminal (status m) = false ∧ (authority = System ↔ is_Some (hosted m !! id p)) ∧
  (pending p ∨ ∃ old, pairing_outcome p = Some (Reported old)).
Proof.
  unfold report_gate, pending. destruct (is_terminal (status m)); [done|].
  destruct (pairing_outcome p) as [[| |old]|]; try done;
    case_bool_decide as Hh; simpl; case_decide; try done; intros _;
    (split; [done|]); (split; [|eauto]); destruct authority; naive_solver.
Qed.

Lemma not_dropped_gone m w : ¬ has_dropped (players m) w ↔ w ∉ gone_keys m.
Proof. unfold gone_keys. rewrite dropped_keys_elem. done. Qed.

Lemma step_outcomes m c m' i p :
  meta_wf m → meta_step (World := World) m c m' → pairings m !! i = Some p →
  ∃ q, pairings m' !! i = Some q ∧ same_seats p q ∧ (q = p ∨ outcome_change m m' c p q).
Proof.
  intros Hm Hstep Hi. destruct Hstep as
    [t key token display now Hst Hnew|t presented nonce k Hk|t presented nonce idx x k Hx Hd Hk
    |t order gen now Hst Hlt Hun Hord Hgen|t index x res authority now Hx Hgate Hval Hse
    |t x now Hx He Hgate|t idx x now Hst Hx|t now Hst Hun|now Hst Hidle];
    simpl; try (exists p; by split_and!; [..|left]).
  - exists p. split_and!; [|done|by left]. by apply lookup_app_l_Some.
  - destruct (decide (index = i)) as [->|Hne].
    2: { exists p. rewrite list_lookup_insert_ne by done. by split_and!; [..|left]. }
    rewrite Hx in Hi. injection Hi as <-.
    rewrite list_lookup_insert_eq by (by eapply lookup_lt_Some).
    eexists. split_and!; [done|done|]. right.
    apply gate_authority in Hgate as (Hlive&Hauth&Hopen). split; [done|]. split.
    { left. by exists t, res, authority. }
    apply validate_ok in Hval; [|eapply wf_pairing_nodup; [done|]; by eapply list_elem_of_lookup_2].
    intros w Hw. destruct res as [winner wins|]; [|done]. injection Hw as <-.
    destruct Hval as (Hin&Hnd&_). split; [done|]. by apply not_dropped_gone in Hnd.
  - rewrite list_lookup_fmap, Hi. simpl. eexists. split; [done|].
    destruct (settle_pairing_cases
      (dropped_keys (<[idx := mark_dropped x]> (players m))) (player_key x) p)
      as [[-> _]|(s&->&Hpend&Hk&Hs)]; [by split; [|left]|].
    split; [done|]. right. split; [done|]. split.
    { right. by exists t, (player_key x), s. }
    intros w [= <-]. assert (s ∈ still_in (dropped_keys (<[idx := mark_dropped x]> (players m))) p)
      as Hin by (rewrite Hs; left).
    by apply list_elem_of_filter in Hin as [? ?].
Qed.

Lemma step_hosted m c m' pid h :
  meta_wf m → meta_step (World := World) m c m' → hosted m !! pid = Some h →
  ∃ h', hosted m' !! pid = Some h' ∧ generation h <= generation h' ∧
    (h' ≠ h → ∃ t, c = CallHost t pid).
Proof.
  intros Hm Hstep Hh. destruct Hstep; simpl; try (by exists h).
  destruct (decide (id p = pid)) as [<-|Hne].
  - rewrite lookup_insert_eq. eexists. split; [done|]. simpl.
    unfold next_generation. rewrite Hh. unfold u32_saturating_add.
    pose proof (wf_generations _ Hm _ _ Hh). change (2 ^ 32) with 4294967296 in *.
    split; [lia|]. intros _. by exists t.
  - rewrite lookup_insert_ne by done. by exists h.
Qed.

Lemma step_gone m c m' k :
  meta_step (World := World) m c m' → k ∈ gone_keys m → k ∈ gone_keys m'.
Proof.
  intros Hstep (p&Hp&<-&Hd)%dropped_keys_elem. unfold gone_keys.
  apply list_elem_of_lookup in Hp as [i Hi].
  assert (∀ idx q0 q, players m !! idx = Some q0 → player_key q = player_key q0 →
    (dropped q0 = true → dropped q = true) →
    player_key p ∈ dropped_keys (<[idx := q]> (players m))) as Hins.
  { intros idx q0 q Hq0 Hk Hdq. apply dropped_keys_elem.
    destruct (decide (idx = i)) as [->|Hne].
    - exists q. rewrite Hi in Hq0. injection Hq0 as <-. split_and!; [|done|auto].
      apply (list_elem_of_lookup_2 _ i). by rewrite list_lookup_insert_eq by (by eapply lookup_lt_Some).
    - exists p. split_and!; [|done..]. apply (list_elem_of_lookup_2 _ i).
      by rewrite list_lookup_insert_ne. }
  assert (player_key p ∈ dropped_keys (players m)) as Hold.
  { apply dropped_keys_elem. exists p. split_and!; [by eapply list_elem_of_lookup_2|done..]. }
  destruct Hstep; simpl; try exact Hold.
  - apply dropped_keys_elem in Hold as (x&Hx&?&?). apply dropped_keys_elem. exists x.
    rewrite elem_of_app. auto.
  - by eapply Hins.
  - by eapply Hins.
Qed.

Lemma step_terminal m c m' :
  meta_step (World := World) m c m' → is_terminal (status m) = true →
  status m' = status m ∧ pairings m' = pairings m ∧ hosted m' = hosted m ∧
  player_keys m' = player_keys m ∧ last_activity_at m' = last_activity_at m.
Proof.
  intros Hstep Ht. destruct Hstep as
    [t key token display now Hst Hnew|t presented nonce k Hk|t presented nonce idx x k Hx Hd Hk
    |t order gen now Hst Hlt Hun Hord Hgen|t index x res authority now Hx Hgate Hval Hse
    |t x now Hx He Hgate|t idx x now Hst Hx|t now Hst Hun|now Hst Hidle];
    try (rewrite Hst in Ht; discriminate).
  - done.
  - simpl. split_and!; try done. unfold player_keys. simpl. rewrite list_fmap_insert.
    apply list_insert_id. by rewrite list_lookup_fmap, Hx.
  - apply gate_authority in Hgate as [Hlive _]. congruence.
  - unfold report_gate in Hgate. by rewrite Ht in Hgate.
Qed.

(** Steps of one tournament, by any calls. *)
Definition any_step (m m' : TournamentMeta) : Prop :=
  ∃ c, meta_step (World := World) m c m'.

Definition settled_for_good (m : TournamentMeta) (p : TournamentPairing) : Prop :=
  is_terminal (status m) = true ∨ pairing_outcome p = Some Bye ∨
  ∃ w, pairing_outcome p = Some (Forfeit w).

Lemma step_settled m c m' i p :
  meta_wf m → meta_step (World := World) m c m' → pairings m !! i = Some p →
  ∃ q, pairings m' !! i = Some q ∧ same_seats p q ∧ (¬ pending p → ¬ pending q) ∧
    (settled_for_good m p → q = p ∧ settled_for_good m' q).
Proof.
  intros Hm Hstep Hi.
  assert (settled_for_good m p → pairings m' !! i = Some p → settled_for_good m' p) as Hkeep.
  { intros [Ht|Ho] _; [|by right]. left. destruct (step_terminal _ _ _ Hstep Ht) as [-> _]. done. }
  destruct (step_outcomes m c m' i p Hm Hstep Hi) as (q&Hq&Hsame&[->|Hch]).
  { exists p. split_and!; [done..|]. intros Hp. split; [done|by apply Hkeep]. }
  destruct Hch as (Hlive&Hch&_). exists q. split_and!; [done|done| |].
  - intros Hp. destruct Hch as [(t&res&a&_&Ho&_)|(t&k&w&_&Hpend&_)]; [|done].
    unfold pending. by rewrite Ho.
  - intros [Ht|Ho]; [congruence|]. exfalso. unfold pending in Hch.
    destruct Hch as [(t&res&a&_&_&_&[Hpend|[old Hold]])|(t&k&w&_&Hpend&_)];
      destruct Ho as [Ho|[x Ho]]; congruence.
Qed.

(** C30. The history of an event is durable. However a tournament goes on, its pairings
    stay at their places with their ids, rounds and seats, a resolved one never
    becomes open again, a bye or a forfeit and, once the event is over, every outcome
    is never altered; a server-hosted pairing stays hosted and its generation never
    falls; a player who dropped stays dropped; and the status of an event that is over
    never changes again. *)
Theorem history_is_durable (m m' : TournamentMeta) :
  meta_wf m → rtc any_step m m' →
  (∀ i p, pairings m !! i = Some p → ∃ q, pairings m' !! i = Some q ∧ same_seats p q ∧
     (¬ pending p → ¬ pending q) ∧ (settled_for_good m p → q = p)) ∧
  (∀ pid h, hosted m !! pid = Some h →
     ∃ h', hosted m' !! pid = Some h' ∧ generation h <= generation h') ∧
  (∀ k, k ∈ gone_keys m → k ∈ gone_keys m') ∧
  (is_terminal (status m) = true → status m' = status m).
Proof.
  intros Hm Hsteps. induction Hsteps as [m|m m1 m2 [c Hstep] _ IH].
  { split_and!; auto; intros; eexists; split_and!; eauto using same_seats_refl, N.le_refl. }
  destruct IH as (IH1&IH2&IH3&IH4); [by eapply meta_step_wf|]. split_and!.
  - intros i p Hi. destruct (step_settled _ _ _ _ _ Hm Hstep Hi) as (q&Hq&(?&?&?)&Hr&Hs).
    destruct (IH1 i q Hq) as (q2&Hq2&(?&?&?)&Hr2&Hs2). exists q2.
    split_and!; [done|unfold same_seats; split_and!; congruence|auto|].
    intros [-> Hset]%Hs. by apply Hs2.
  - intros pid h Hh. destruct (step_hosted _ _ _ _ _ Hm Hstep Hh) as (h1&Hh1&?&_).
    destruct (IH2 pid h1 Hh1) as (h2&?&?). exists h2. split; [done|lia].
  - intros k Hk. eapply IH3, step_gone; done.
  - intros Ht. destruct (step_terminal _ _ _ Hstep Ht) as [Hst _].
    rewrite IH4; [done|]. by rewrite Hst.
Qed.
End safety.

Lemma registry_step_meta {World : Type} `{!BrokerEnv World} ts c ts' t m m' :
  registry_step (World := World) ts c ts' → ts !! t = Some m → ts' !! t = Some m' →
  m' = m ∨ meta_step (World := World) m c m'.
Proof.
  intros Hstep Ht Ht'. destruct Hstep as [t0 req token now Hfree _|c t0 m0 m0' _ Ht0 Hs|now].
  - rewrite lookup_insert_ne in Ht' by congruence. left. congruence.
  - destruct (decide (t0 = t)) as [->|Hne].
    + rewrite lookup_insert_eq in Ht'. right. simplify_eq. done.
    + rewrite lookup_insert_ne in Ht' by done. left. congruence.
  - rewrite map_lookup_imap, Ht in Ht'. simpl in Ht'. by apply (expire_step now t).
Qed.

(** C17. Who can write a result. From any reachable registry, when a call changes the
    outcome of a recorded pairing, the event was still running, the seats stay the
    same, and either the call was a report for that very pairing, by the server exactly
    when the pairing is server-hosted, over a pairing that was open or held an earlier
    report; or it was a drop of a player seated in it, over a pairing that was open,
    and the outcome is a forfeit; and whoever is credited sits in the pairing and has
    not dropped. *)
Theorem result_authority {World : Type} `{!BrokerEnv World} (c : Call)
    (ts ts' : TournamentManager) (env env' : World) o t m m' i p q :
  reachable (World := World) ts →
  run_call c (ts, env) = (o, (ts', env')) →
  ts !! t = Some m → ts' !! t = Some m' →
  pairings m !! i = Some p → pairings m' !! i = Some q →
  same_seats p q ∧
  (pairing_outcome q ≠ pairing_outcome p → outcome_change m m' c p q).
Proof.
  intros Hr Hrun Ht Ht' Hi Hq. pose proof (reachable_wf ts Hr t m Ht) as Hm.
  pose proof (run_call_steps ts c env o ts' env' Hrun) as Hs.
  assert (m' = m ∨ meta_step (World := World) m c m') as [->|Hstep].
  { destruct o; [by eapply registry_step_meta|subst; left; congruence..]. }
  - rewrite Hi in Hq. injection Hq as <-. split; [done|]. by intros [].
  - destruct (step_outcomes m c m' i p Hm Hstep Hi) as (q'&Hq'&Hsame&Hch).
    rewrite Hq in Hq'. injection Hq' as <-. split; [done|].
    intros Hne. destruct Hch as [->|Hch]; [done|exact Hch].
Qed.

(** ** A concrete event *)
Section script.
Context {World : Type} `{!BrokerEnv World}.

(** The registry and the environment after a list of calls. *)
Fixpoint run_calls (cs : list Call) (s : TournamentManager * World) : TournamentManager * World :=
  match cs with
  | [] => s
  | c :: cs => run_calls cs (run_call c s).2
  end.

Lemma run_calls_reachable cs ts env :
  reachable (World := World) ts → Forall call_wf cs → reachable (World := World) (run_calls cs (ts, env)).1.
Proof.
  intros Hts Hcs. revert ts env Hts. induction Hcs as [|c cs Hc _ IH]; intros ts env Hts;
    simpl; [done|].
  destruct (run_call c (ts, env)) as [o [ts' env']] eqn:E. simpl. apply IH.
  by eapply reach_call.
Qed.
End script.

(** A Swiss event of two: created, joined twice, paired, reported. *)
Definition sample_play : list Call :=
  [CallCreate "T" sample_request; CallJoin "T" "a" "Ann"; CallJoin "T" "b" "Bob";
   CallPair "T";
   CallReport "T" 0 (Decisive "a" (<["a" := 2]> {["b" := 1]})) SeatedPlayer]%string.
Definition sample_after (n : nat) : gmap string TournamentMeta * CounterEnv :=
  run_calls (take n sample_play) (∅, {| clock := 5000; counter := 0 |}).
Definition sample_event (n : nat) : TournamentMeta :=
  default drawn_event ((sample_after n).1 !! "T"%string).

Lemma sample_reachable n : reachable (World := CounterEnv) (sample_after n).1.
Proof.
  apply run_calls_reachable; [constructor|]. apply Forall_take.
  repeat constructor; simpl; discriminate || (intros ? ?; discriminate).
Qed.
Lemma sample_event_lookup n :
  (2 ≤ n ≤ 5)%nat → (sample_after n).1 !! "T"%string = Some (sample_event n).
Proof.
  intros Hn. assert (n = 2 ∨ n = 3 ∨ n = 4 ∨ n = 5)%nat as [-> |[-> |[-> | ->]]] by lia;
    vm_compute; reflexivity.
Qed.
Lemma sample_wf n : (2 ≤ n ≤ 5)%nat → meta_wf (sample_event n).
Proof.
  intros Hn. eapply reachable_wf; [apply (sample_reachable n)|by apply sample_event_lookup].
Qed.

Lemma manager_stays_healthy_witness :
  ∃ o ts' env', run_call (CallDrop "T" "b") (sample_after 4) = (o, (ts', env')) ∧
    o ≠ Panic ∧ registry_wf ts'.
Proof.
  destruct (run_call (CallDrop "T" "b") (sample_after 4)) as [o [ts' env']] eqn:E.
  exists o, ts', env'. split; [done|].
  destruct (manager_stays_healthy (CallDrop "T" "b") (sample_after 4).1 ts' (sample_after 4).2
    env' o (sample_reachable 4) I) as (H1&_&_&H2).
  - rewrite <-surjective_pairing. exact E.
  - exact (conj H1 H2).
Defined.

Lemma result_authority_witness :
  ∃ p q, pairings (sample_event 4) !! 0%nat = Some p ∧ pairings (sample_event 5) !! 0%nat = Some q ∧
    outcome_change (sample_event 4) (sample_event 5)
      (CallReport "T" 0 (Decisive "a" (<["a" := 2]> {["b" := 1]})) SeatedPlayer) p q.
Proof.
  eexists _, _. split; [vm_compute; reflexivity|]. split; [vm_compute; reflexivity|].
  refine (proj2 (result_authority
    (CallReport "T" 0 (Decisive "a" (<["a" := 2]> {["b" := 1]})) SeatedPlayer)
    (sample_after 4).1 (sample_after 5).1 (sample_after 4).2 (sample_after 5).2 (Ok tt) "T"
    (sample_event 4) (sample_event 5) 0%nat _ _ (sample_reachable 4) _ _ _ _ _) _).
  - vm_compute. reflexivity.
  - apply sample_event_lookup. lia.
  - apply sample_event_lookup. lia.
  - vm_compute. reflexivity.
  - vm_compute. reflexivity.
  - discriminate.
Defined.

Lemma history_is_durable_witness :
  ∃ m', any_step (World := CounterEnv) (sample_event 5) m' ∧
    status m' = Completed ∧
    ∃ q, pairings m' !! 0%nat = Some q ∧ ¬ pending q.
Proof.
  assert (any_step (World := CounterEnv) (sample_event 5)
    (touch 9 (set_status Completed (sample_event 5)))) as Hstep.
  { exists (CallComplete "T"). apply StepComplete; vm_compute; reflexivity. }
  eexists. split; [exact Hstep|]. split; [done|].
  destruct (history_is_durable (World := CounterEnv) (sample_event 5) _
    (sample_wf 5 ltac:(lia)) (rtc_once _ _ Hstep)) as (Hps&_).
  assert (∃ p, pairings (sample_event 5) !! 0%nat = Some p ∧ ¬ pending p) as (p&Hp&Hn).
  { vm_compute. eexists. split; [reflexivity|discriminate]. }
  destruct (Hps 0%nat p Hp) as (q&Hq&_&Hr&_). exists q. split; [exact Hq|].
  exact (Hr Hn).
Defined.
