(* ===== verification/TournamentProgress.v ===== *)
(** * Progress of the tournament manager

    How a round is paired from any healthy registry, and that a running Swiss event
    can always be brought to its end. *)
From Stdlib Require Import String.
From S2P Require Import Prelude.
From S2P Require Import Credentials.
From S2P Require Import TournamentTypes.
From S2P Require Import SwissPairing.
From S2P Require Import SwissSelect.
From S2P Require Import SwissRound.
From S2P Require Import Standings.
From S2P Require Import Brackets.
From S2P Require Import Tournament.
From S2P Require Import TournamentSteps.
From S2P Require Import TournamentInv.
From S2P Require Import TournamentLife.
From S2P Require Import TournamentSafety.
Local Open Scope N_scope.

Section progress.
Context {World : Type} `{!BrokerEnv World}.
Implicit Types (ts : TournamentManager) (env : World).

(** ** Running handlers *)
Definition secs env : N := (now_ms env).1 / 1000.
Definition later env : World := (now_ms env).2.

Lemma run_now {B} ts env (f : N → TM (World := World) B) :
  (now_secs ≫= f) (ts, env) = f (secs env) (ts, later env).
Proof.
  unfold secs, later, now_secs, env_now. unfold_M. simpl. by destruct (now_ms env).
Qed.
Lemma run_meta {B} ts env t m (f : TournamentMeta → TM (World := World) B) :
  ts !! t = Some m → (meta_mut t ≫= f) (ts, env) = f m (ts, env).
Proof. intros Ht. unfold meta_mut, tournaments. unfold_M. simpl. by rewrite Ht. Qed.

(** ** Pairing a round *)
Lemma admits_start m : admits m StartRound = negb (is_terminal (status m)).
Proof. unfold admits, open_actions. by destruct (status m). Qed.
Lemma admits_drop m : admits m Drop = negb (is_terminal (status m)).
Proof. unfold admits, open_actions. by destruct (status m). Qed.

(** C37. Pairing a Swiss round: for a tournament of any healthy registry the call answers
    with the most permanent obstacle there is (the event is over, the schedule is
    exhausted, a pairing is unresolved) and otherwise always succeeds: the history
    gains one new round whose pairings hold exactly the players still in, each once,
    the event is running, its round advances by one and its schedule is the one the
    call was checked against. *)
Theorem pairing_a_round ts env t m :
  registry_wf ts → ts !! t = Some m → bracket m = Swiss →
  let r := generate_pairings t (ts, env) in
  if is_terminal (status m) then r.1 = Err NotRunning
  else if total_rounds m <=? current_round m
  then r.1 = Err (RoundCeiling (total_rounds m) (current_round m))
  else match first_unresolved_pairing m with
  | Some p => r.1 = Err (UnresolvedPairing (id p) (round p)) ∧ pending p
  | None =>
      ∃ gen m', r.1 = Ok (id <$> gen) ∧ r.2.1 = <[t := m']> ts ∧
        pairings m' = pairings m ++ gen ∧ Forall (λ p, round p = current_round m + 1) gen ∧
        concat (pairing_players <$> gen) ≡ₚ player_key <$> active_players m ∧
        status m' = InProgress ∧ current_round m' = current_round m + 1 ∧
        total_rounds m' = total_rounds m ∧ players m' = players m
  end.
Proof.
  intros Hts Ht Hb r. pose proof (Hts t m Ht) as Hm. subst r. unfold generate_pairings.
  rewrite run_now, (run_meta _ _ _ _ _ Ht), admits_start.
  destruct (is_terminal (status m)) eqn:Hst; [done|]. cbn [negb].
  destruct (N.leb_spec (total_rounds m) (current_round m)) as [Hle|Hlt].
  { by rewrite (proj2 (N.ltb_ge _ _)) by done. }
  rewrite (proj2 (N.ltb_lt _ _)) by done.
  destruct (first_unresolved_pairing m) as [p|] eqn:Hu.
  { split; [done|]. apply find_first_Some in Hu as [_ Hp]. by apply is_pending_true. }
  destruct (active_order_ok m Hm) as (order&Hord&Hperm).
  pose proof (wf_arity _ Hm) as Ha. pose proof (next_round m Hm Hlt) as Hnext.
  destruct (build_swiss_round_stages order (arity m) (pairings m) Ha
    (current_round m + 1) (next_id m)) as (lone&pool&short&rest&pods&Hgen&_).
  set (gen := number_pairings _ _ _) in Hgen.
  destruct (swiss_round_built m order _ gen Hm Hord Hgen) as [Hbuilt Hc].
  exists gen, (with_round gen (current_round m + 1) (total_rounds m) (secs env) m).
  unfold build_round. rewrite Hb, Hnext, Hord. cbn [ensure lift mbind stM_bind mret stM_ret].
  unfold ensure. cbn [mbind stM_bind mret stM_ret lift]. unfold mbind, stM_bind, lift, mret, stM_ret.
  rewrite Hgen. split_and!; try done; [apply Hbuilt|by rewrite Hc|].
  by destruct (paired_schedule m gen (secs env) Hm).
Qed.

(** ** A Swiss event can be finished *)
Definition authority_for (m : TournamentMeta) (p : TournamentPairing) : ReportAuthority :=
  if bool_decide (is_Some (hosted m !! id p)) then System else SeatedPlayer.

Definition after_draw (m : TournamentMeta) (i : nat) (p : TournamentPairing) (now : N) :
    TournamentMeta :=
  touch now (set_pairings (<[i := with_outcome (Some (Reported Draw)) p]> (pairings m)) m).

Lemma report_draw ts env t m i p :
  registry_wf ts → ts !! t = Some m → bracket m = Swiss → is_terminal (status m) = false →
  N.of_nat (length (pairings m)) < 2 ^ 32 →
  pairings m !! i = Some p → pending p →
  run_call (CallReport t (id p) Draw (authority_for m p)) (ts, env) =
    (Ok tt, (<[t := after_draw m i p (secs env)]> ts, later env)).
Proof.
  intros Hts Ht Hb Hst Hlen Hi Hpend. pose proof (Hts t m Ht) as Hm.
  cbn [run_call]. unfold report_result_with_authority.
  rewrite run_now, (run_meta _ _ _ _ _ Ht).
  assert (position (λ q, id q =? id p) (pairings m) = Some i) as Hpos.
  { apply position_Some. exists p. split_and!; [done|apply N.eqb_refl|].
    intros j q Hj Hq. apply N.eqb_neq. pose proof (lookup_lt_Some _ _ _ Hi).
    rewrite (wf_ids _ Hm _ _ Hi), (wf_ids _ Hm _ _ Hq) by lia. lia. }
  rewrite Hpos. unfold mbind, stM_bind, lift, ok_or, or_panic. rewrite Hi.
  assert (gate_check (id p) (report_gate m p) (authority_for m p) = Ok tt) as ->.
  { unfold report_gate, authority_for, pending in *. rewrite Hst, Hpend.
    by case_bool_decide. }
  rewrite Hb. done.
Qed.

Definition open_count (ps : list TournamentPairing) : nat := length (filter pending ps).

Lemma open_count_insert ps i p q :
  ps !! i = Some p → pending p → ¬ pending q →
  open_count ps = S (open_count (<[i := q]> ps)).
Proof.
  intros Hi Hp Hq. unfold open_count. rewrite <-(take_drop_middle ps i p Hi) at 1.
  rewrite insert_take_drop by (by eapply lookup_lt_Some).
  rewrite !filter_app, !filter_cons, !length_app, decide_True, decide_False by done.
  simpl. lia.
Qed.

(** The calls of the finish: a report of a draw per open pairing, then the completion. *)
Definition finishing_call (t : string) (c : Call) : Prop :=
  c = CallComplete t ∨ ∃ pid authority, c = CallReport t pid Draw authority.

Lemma finish_from n : ∀ ts env t m,
  registry_wf ts → ts !! t = Some m → bracket m = Swiss → status m = InProgress →
  N.of_nat (length (pairings m)) < 2 ^ 32 → open_count (pairings m) = n →
  ∃ cs m', Forall (finishing_call t) cs ∧ length cs = S n ∧
    (run_calls cs (ts, env)).1 !! t = Some m' ∧ status m' = Completed ∧
    Forall (λ p, ¬ pending p) (pairings m') ∧ Forall2 same_seats (pairings m) (pairings m').
Proof.
  induction n as [|n IH]; intros ts env t m Hts Ht Hb Hst Hlen Hn.
  - assert (first_unresolved_pairing m = None) as Hu.
    { apply first_unresolved_None. intros p Hp Hpend.
      assert (p ∈ filter pending (pairings m)) as Hin by (by apply list_elem_of_filter).
      apply length_zero_iff_nil in Hn. rewrite Hn in Hin. by apply elem_of_nil in Hin. }
    exists [CallComplete t], (touch (secs env) (set_status Completed m)).
    split_and!; [repeat constructor; by left|done| |done| |].
    + cbn [run_calls run_call]. unfold complete_tournament.
      rewrite run_now, (run_meta _ _ _ _ _ Ht).
      assert (admits m EndTournament = true) as -> by (unfold admits, open_actions; by rewrite Hst).
      rewrite Hu. simpl. by rewrite lookup_insert_eq.
    + apply Forall_forall. intros p. by apply (proj1 (first_unresolved_None m)).
    + apply Forall_Forall2_diag, Forall_true, same_seats_refl.
  - destruct (filter pending (pairings m)) as [|p l] eqn:Hf; unfold open_count in Hn;
      rewrite Hf in Hn; [done|].
    assert (p ∈ filter pending (pairings m)) as Hp by (rewrite Hf; left).
    apply list_elem_of_filter in Hp as [Hpend [i Hi]%list_elem_of_lookup].
    assert (is_terminal (status m) = false) as Hlive by (by rewrite Hst).
    pose proof (report_draw ts env t m i p Hts Ht Hb Hlive Hlen Hi Hpend) as Hrun.
    pose proof (run_call_steps ts _ env _ _ _ Hrun) as Hstep. cbn in Hstep.
    set (m1 := after_draw m i p (secs env)) in *.
    destruct (IH (<[t := m1]> ts) (later env) t m1) as (cs&m'&Hcs&Hl&Hrest&Hc&Hd&Hs); try done.
    + exact (registry_step_wf (World := World) ts
        (CallReport t (id p) Draw (authority_for m p)) _ Hts I Hstep).
    + by rewrite lookup_insert_eq.
    + simpl. by rewrite length_insert.
    + simpl. assert (open_count (pairings m) = S n) as Hn' by (unfold open_count; by rewrite Hf).
      rewrite (open_count_insert (pairings m) i p (with_outcome (Some (Reported Draw)) p))
        in Hn' by done. by injection Hn'.
    + exists (CallReport t (id p) Draw (authority_for m p) :: cs), m'.
      split_and!; [|simpl; lia| |done|done|].
      * constructor; [|done]. right. by eexists _, _.
      * cbn [run_calls]. by rewrite Hrun.
      * assert (Forall2 same_seats (pairings m) (pairings m1)) as H1
          by (by apply (Forall2_insert_one same_seats _ _ p)).
        by etrans.
Qed.

(** C29. A Swiss event never gets stuck: from any reachable registry, every unresolved
    pairing of a running Swiss event still seats two players who have not dropped, and
    whatever the environment there are calls, one report per unresolved pairing (made
    with the authority its hosting asks for) and then the completion, that end the
    event with every pairing resolved and no seat changed.  (Ids are unique below
    [2 ^ 32] pairings.) *)
Theorem swiss_event_can_finish ts env t m :
  reachable (World := World) ts → ts !! t = Some m → bracket m = Swiss →
  status m = InProgress → N.of_nat (length (pairings m)) < 2 ^ 32 →
  (∀ p, p ∈ pairings m → pending p → (2 ≤ length (still_in (gone_keys m) p))%nat) ∧
  ∃ cs m', Forall (finishing_call t) cs ∧ length cs = S (open_count (pairings m)) ∧
    (run_calls cs (ts, env)).1 !! t = Some m' ∧ status m' = Completed ∧
    Forall (λ p, ¬ pending p) (pairings m') ∧ Forall2 same_seats (pairings m) (pairings m').
Proof.
  intros Hr Ht Hb Hst Hlen. pose proof (reachable_wf ts Hr) as Hts. split.
  - by apply (wf_swiss_open _ (Hts t m Ht)).
  - by apply finish_from.
Qed.
End progress.

Lemma pairing_a_round_witness :
  ∃ gen m', (generate_pairings "T" (sample_after 3)).1 = Ok (id <$> gen) ∧
    concat (pairing_players <$> gen) ≡ₚ ["a"; "b"]%string ∧
    pairings m' = gen ∧ current_round m' = 1.
Proof.
  assert ((sample_after 3).1 !! "T"%string = Some (sample_event 3)) as Ht
    by (apply sample_event_lookup; lia).
  assert (bracket (sample_event 3) = Swiss) as Hb by (vm_compute; reflexivity).
  pose proof (pairing_a_round (sample_after 3).1 (sample_after 3).2 "T" (sample_event 3)
    (reachable_wf _ (sample_reachable 3)) Ht Hb) as H.
  rewrite <-surjective_pairing in H. cbv zeta in H.
  assert (is_terminal (status (sample_event 3)) = false) as E1 by (vm_compute; reflexivity).
  assert ((total_rounds (sample_event 3) <=? current_round (sample_event 3)) = false) as E2
    by (vm_compute; reflexivity).
  assert (first_unresolved_pairing (sample_event 3) = None) as E3 by (vm_compute; reflexivity).
  rewrite E1, E2, E3 in H. destruct H as (gen&m'&Hok&_&Hps&_&Hperm&_&Hcur&_).
  exists gen, m'. split; [exact Hok|]. split.
  - etrans; [exact Hperm|]. vm_compute. reflexivity.
  - split; [exact Hps|exact Hcur].
Defined.

Lemma swiss_event_can_finish_witness :
  ∃ cs m', (run_calls cs (sample_after 4)).1 !! "T"%string = Some m' ∧ status m' = Completed.
Proof.
  assert ((sample_after 4).1 !! "T"%string = Some (sample_event 4)) as Ht
    by (apply sample_event_lookup; lia).
  assert (bracket (sample_event 4) = Swiss) as Hb by (vm_compute; reflexivity).
  assert (status (sample_event 4) = InProgress) as Hst by (vm_compute; reflexivity).
  assert (N.of_nat (length (pairings (sample_event 4))) < 2 ^ 32) as Hlen
    by (vm_compute; reflexivity).
  destruct (swiss_event_can_finish (sample_after 4).1 (sample_after 4).2 "T" (sample_event 4)
    (sample_reachable 4) Ht Hb Hst Hlen) as (_&cs&m'&_&_&H1&H2&_).
  exists cs, m'. rewrite <-surjective_pairing in H1. exact (conj H1 H2).
Defined.
