(* ===== verification/TournamentLimits.v ===== *)
(** * Expiry, and the limits of the manager

    What the expiry sweep does to every tournament, and four behaviours the handlers
    have at their edges: a single-elimination event that drops stall for good, a
    credential that lapses under a live event and can then never be renewed, a second
    drop that still counts as activity, and the saturating host generation. *)
From Stdlib Require Import String.
From S2P Require Import Prelude.
From S2P Require Import Credentials.
From S2P Require Import TournamentTypes.
From S2P Require Import Standings.
From S2P Require Import Brackets.
From S2P Require Import Tournament.
From S2P Require Import TournamentSteps.
From S2P Require Import TournamentInv.
From S2P Require Import TournamentLife.
From S2P Require Import TournamentSafety.
From S2P Require Import TournamentProgress.
Local Open Scope N_scope.

(** ** The sweep *)

(** How long a tournament of each status may stay idle. *)
Definition idle_window (st : TournamentStatus) : N :=
  match st with
  | Registration => 300
  | InProgress => 604800
  | Completed | Abandoned => 2592000
  end.
Definition idle (now : N) (m : TournamentMeta) : N := now - last_activity_at m.

Section sweep.
Context {World : Type} `{!BrokerEnv World}.

Definition swept (now : N) (m : TournamentMeta) : option TournamentMeta :=
  if idle now m <=? idle_window (status m) then Some m
  else if bool_decide (status m = InProgress)
  then Some (touch now (set_status Abandoned m)) else None.

Lemma expire_swept now t m :
  (expire now t m).1 = swept now m ∧
  (expire now t m).2 =
    match swept now m with
    | Some m' => if bool_decide (status m' = status m) then None else Some (EvAbandoned t)
    | None => Some (EvDeleted t)
    end.
Proof.
  unfold expire, swept. fold (idle now m). destruct (status m) eqn:Hst; cbn [idle_window];
    repeat match goal with
    | |- context [(?a <? idle now m)] => destruct (N.ltb_spec a (idle now m))
    | |- context [(idle now m <=? ?a)] => destruct (N.leb_spec (idle now m) a)
    end; simpl; rewrite ?Hst; try done;
    unfold REGISTRATION_TIMEOUT_SECS, IN_PROGRESS_ABANDON_SECS, TERMINAL_RETENTION_SECS in *; lia.
Qed.

Lemma check_expired_run (ts : TournamentManager) (env : World) :
  check_expired (ts, env) =
  (Ok (omap (λ '(t, m), (expire (secs env) t m).2) (map_to_list ts)),
   (map_imap (λ t m, (expire (secs env) t m).1) ts, later env)).
Proof.
  unfold check_expired. etrans; [exact (run_now ts env _)|]. done.
Qed.

(** What the sweep keeps, it keeps again at the same instant. *)
Lemma swept_again now t m m' :
  swept now m = Some m' → expire now t m' = (Some m', None).
Proof.
  intros Hm'. destruct (expire_swept now t m') as [E1 E2].
  rewrite (surjective_pairing (expire now t m')), E1, E2.
  assert (swept now m' = Some m') as ->; [|by rewrite bool_decide_eq_true_2].
  unfold swept in *. destruct (idle now m <=? idle_window (status m)) eqn:E.
  - injection Hm' as <-. by rewrite E.
  - destruct (bool_decide (status m = InProgress)); [|done]. injection Hm' as <-.
    unfold idle. simpl. rewrite N.sub_diag. done.
Qed.

(** The events of a sweep are those of its tournaments. *)
Lemma elem_of_sweep_events now (ts : TournamentManager) e :
  e ∈ omap (λ '(t, m), (expire now t m).2) (map_to_list ts) ↔
  ∃ t m, ts !! t = Some m ∧ (expire now t m).2 = Some e.
Proof.
  rewrite list_elem_of_omap. split.
  - intros ([t m]&Hin%elem_of_map_to_list&He). eauto.
  - intros (t&m&Hin&He). exists (t, m). by rewrite elem_of_map_to_list.
Qed.

(** The sweep applies the three lifecycle rules to every tournament and to nothing
    else: one that has been idle no longer than its status allows (five minutes of
    registration, seven days in progress, thirty days once over) is kept untouched; an
    event in progress that has been idle longer is marked abandoned, its history kept
    and its retention starting over; any other is removed; the sweep reports exactly
    the removals and the abandonments; and sweeping again at the same instant removes,
    abandons and reports nothing. *)
Theorem sweep_follows_lifecycle (ts ts1 ts2 : TournamentManager) (env env1 env2 : World) evs evs2 :
  check_expired (ts, env) = (Ok evs, (ts1, env1)) →
  check_expired (ts1, env2) = (Ok evs2, (ts2, later env2)) →
  secs env2 = secs env →
  (∀ t, ts1 !! t = m ← ts !! t; swept (secs env) m) ∧
  (∀ t, EvDeleted t ∈ evs ↔ is_Some (ts !! t) ∧ ts1 !! t = None) ∧
  (∀ t, EvAbandoned t ∈ evs ↔
     ∃ m m', ts !! t = Some m ∧ ts1 !! t = Some m' ∧ status m' ≠ status m) ∧
  ts2 = ts1 ∧ evs2 = [].
Proof.
  rewrite !check_expired_run. intros [= <- <- _] [= Hevs2 Hts2] Hsecs. rewrite Hsecs in *.
  set (now := secs env) in *.
  assert (∀ t, map_imap (λ t m, (expire now t m).1) ts !! t = m ← ts !! t; swept now m) as Hts1.
  { intros t. rewrite map_lookup_imap. destruct (ts !! t) as [m|]; [|done]. simpl.
    apply expire_swept. }
  split_and!.
  - exact Hts1.
  - intros t. rewrite elem_of_sweep_events, Hts1. split.
    + intros (t'&m&Ht&He). destruct (expire_swept now t' m) as [_ He']. rewrite He' in He.
      destruct (swept now m) as [m'|] eqn:Hs; [by case_bool_decide|].
      injection He as ->. rewrite Ht. simpl. rewrite Hs. eauto.
    + intros [[m Ht] Hs]. rewrite Ht in Hs. simpl in Hs. exists t, m. split; [done|].
      destruct (expire_swept now t m) as [_ ->]. by rewrite Hs.
  - intros t. rewrite elem_of_sweep_events. setoid_rewrite Hts1. split.
    + intros (t'&m&Ht&He). destruct (expire_swept now t' m) as [_ He']. rewrite He' in He.
      destruct (swept now m) as [m'|] eqn:Hs; [|done].
      case_bool_decide as Hst; [done|]. injection He as ->. exists m, m'.
      rewrite Ht. simpl. done.
    + intros (m&m'&Ht&Hs&Hst). rewrite Ht in Hs. simpl in Hs. exists t, m. split; [done|].
      destruct (expire_swept now t m) as [_ ->]. rewrite Hs.
      by rewrite bool_decide_eq_false_2.
  - rewrite <-Hts2. apply map_eq. intros t. rewrite map_lookup_imap.
    destruct (map_imap _ ts !! t) as [m'|] eqn:Ht; [|done]. simpl.
    rewrite Hts1 in Ht. apply bind_Some in Ht as (m&Hm&Hs). by rewrite (swept_again now t m m' Hs).
  - rewrite <-Hevs2. destruct (omap _ _) as [|e l] eqn:He; [done|].
    assert (e ∈ e :: l) as Hin by left. rewrite <-He in Hin.
    apply list_elem_of_omap in Hin as ([t m']&Hin%elem_of_map_to_list&Heq).
    rewrite Hts1 in Hin. apply bind_Some in Hin as (m&Hm&Hs).
    rewrite (swept_again now t m m' Hs) in Heq. done.
Qed.
End sweep.

(** Long after the sample event's last activity. *)
Definition much_later : CounterEnv := {| clock := 700000000; counter := 9 |}.

Lemma sweep_follows_lifecycle_witness :
  ∃ evs ts1, check_expired ((sample_after 4).1, much_later) = (Ok evs, (ts1, much_later)) ∧
    EvAbandoned "T" ∈ evs.
Proof.
  pose proof (check_expired_run (sample_after 4).1 much_later) as E1.
  pose proof (check_expired_run
    (map_imap (λ t m, (expire (secs much_later) t m).1) (sample_after 4).1) much_later) as E2.
  eexists _, _. split; [exact E1|].
  pose proof (sweep_follows_lifecycle _ _ _ _ _ _ _ _ E1 E2 eq_refl) as H.
  refine (proj2 (proj1 (proj2 (proj2 H)) "T"%string) _).
  assert ((sample_after 4).1 !! "T"%string = Some (sample_event 4)) as Ht
    by (apply sample_event_lookup; lia).
  exists (sample_event 4), (touch 700000 (set_status Abandoned (sample_event 4))).
  split; [exact Ht|]. split; [vm_compute; reflexivity|vm_compute; discriminate].
Defined.

(** ** A bracket that drops have stalled *)

(** An open match of a bracket both of whose players have dropped. *)
Definition stalled (m : TournamentMeta) (i : nat) (p : TournamentPairing) : Prop :=
  bracket m = SingleElimination ∧ pairings m !! i = Some p ∧ pending p ∧
  ∀ k, k ∈ pairing_players p → k ∈ gone_keys m.

Section stalled.
Context {World : Type} `{!BrokerEnv World}.

Lemma stalled_step m c m' i p :
  meta_wf m → stalled m i p → meta_step (World := World) m c m' →
  stalled m' i p ∧ status m' ≠ Completed ∧ current_round m' = current_round m.
Proof.
  intros Hm (Hb&Hi&Hpend&Hgone) Hstep.
  assert (∀ k, k ∈ pairing_players p → k ∈ gone_keys m') as Hgone'
    by (intros k Hk; by eapply step_gone, Hgone).
  assert (first_unresolved_pairing m ≠ None) as Hopen.
  { intros Hn. apply (proj1 (first_unresolved_None m) Hn p); [|done].
    by eapply list_elem_of_lookup_2. }
  assert (status m ≠ Completed) as Hst by (intros Hc; by apply Hopen, (wf_completed _ Hm)).
  pose proof (step_outcomes m c m' i p Hm Hstep Hi) as (q&Hq&Hsame&Hch).
  assert (q = p) as ->.
  { destruct Hch as [|(_&Hch&Hw)]; [done|]. exfalso.
    assert (∀ w, pairing_winner q = Some w → False) as Hno.
    { intros w Hwin. destruct (Hw w Hwin) as [Hin Hn]. apply Hn, Hgone'.
      by destruct Hsame as (_&_&<-). }
    destruct Hch as [(t&res&a&Hc&Ho&_)|(t&k&s&Hc&_&_&Ho)].
    - destruct res as [w wins|]; [apply (Hno w); unfold pairing_winner; by rewrite Ho|].
      inversion Hstep; subst; simplify_eq; naive_solver.
    - apply (Hno s). unfold pairing_winner. by rewrite Ho. }
  assert (bracket m' = SingleElimination) as Hb' by (by destruct Hstep).
  split; [by split_and!|]. destruct Hstep; done.
Qed.

Lemma stalled_forever m m' i p :
  meta_wf m → status m ≠ Completed → stalled m i p → rtc (any_step (World := World)) m m' →
  stalled m' i p ∧ status m' ≠ Completed ∧ current_round m' = current_round m.
Proof.
  intros Hm Hst Hs Hsteps. induction Hsteps as [m|m m1 m2 [c Hstep] _ IH]; [auto|].
  destruct (stalled_step m c m1 i p Hm Hs Hstep) as (Hs1&Hst1&Hcur).
  destruct IH as (Hs2&Hst2&Hcur2); [by eapply meta_step_wf|done..|].
  split_and!; [done..|congruence].
Qed.
End stalled.

Definition bracket_request : CreateTournamentRequest :=
  {| req_name := "bracket"; req_arity := HEAD_TO_HEAD;
     req_scoring := {| win_points := 3; draw_points := 1; loss_points := 0 |};
     req_bracket := SingleElimination; req_total_rounds := None; req_plus_rounds := None;
     req_format := None; req_match_type := Some Bo1 |}.
(** Four players; both semifinal winners drop before the final is paired. *)
Definition stalling_play : list Call :=
  [CallCreate "T" bracket_request; CallJoin "T" "a" "Ann"; CallJoin "T" "b" "Bob";
   CallJoin "T" "c" "Cat"; CallJoin "T" "d" "Dan"; CallPair "T";
   CallReport "T" 0 (Decisive "a" ∅) SeatedPlayer;
   CallReport "T" 1 (Decisive "b" ∅) SeatedPlayer;
   CallDrop "T" "a"; CallDrop "T" "b"; CallPair "T"]%string.
Definition stalled_registry : gmap string TournamentMeta :=
  (run_calls stalling_play (∅, {| clock := 5000; counter := 0 |})).1.
Definition stalled_event : TournamentMeta := default drawn_event (stalled_registry !! "T"%string).

Lemma stalled_reachable : reachable (World := CounterEnv) stalled_registry.
Proof.
  apply run_calls_reachable; [constructor|].
  repeat constructor; simpl; discriminate || (intros ? ?; discriminate).
Qed.
Lemma stalled_lookup : stalled_registry !! "T"%string = Some stalled_event.
Proof. vm_compute. reflexivity. Qed.

Lemma stalled_is_stalled : ∃ p, stalled stalled_event 2 p.
Proof.
  eexists. split; [vm_compute; reflexivity|]. split; [vm_compute; reflexivity|].
  split; [vm_compute; reflexivity|]. intros k Hk. vm_compute in Hk.
  assert (gone_keys stalled_event = ["a"; "b"]%string) as -> by (vm_compute; reflexivity).
  exact Hk.
Qed.

(** Drops can stall a bracket for good.  Ordinary calls lead a manager to a running
    single-elimination event with an open match both of whose players have dropped
    (two semifinal winners who drop before the final is paired); and from there
    nothing any caller does in any environment, however often, resolves that match,
    completes the event or pairs another round. *)
Theorem bracket_can_stall :
  ∃ ts m i p, reachable (World := CounterEnv) ts ∧ ts !! "T"%string = Some m ∧
    status m = InProgress ∧ stalled m i p ∧
    ∀ (World : Type) (env : BrokerEnv World) m',
      rtc (any_step (World := World)) m m' →
      stalled m' i p ∧ status m' ≠ Completed ∧ current_round m' = current_round m.
Proof.
  destruct stalled_is_stalled as [p Hp].
  exists stalled_registry, stalled_event, 2%nat, p.
  assert (status stalled_event = InProgress) as Hst by (vm_compute; reflexivity).
  split; [exact stalled_reachable|]. split; [exact stalled_lookup|].
  split; [exact Hst|]. split; [exact Hp|]. intros World env m' Hsteps.
  eapply stalled_forever; [|by rewrite Hst|exact Hp|exact Hsteps].
  exact (reachable_wf (World := CounterEnv) _ stalled_reachable _ _ stalled_lookup).
Qed.

(** ** A credential that lapses under a live event *)
Definition day : N := 24 * 60 * 60 * 1000.

(** Two entrants join at the start; the round is paired on the fifth day. *)
Definition slow_registry : gmap string TournamentMeta :=
  (run_calls [CallPair "T"%string] ((sample_after 3).1, {| clock := 5 * day; counter := 9 |})).1.
Definition slow_event : TournamentMeta := default drawn_event (slow_registry !! "T"%string).

Lemma slow_reachable : reachable (World := CounterEnv) slow_registry.
Proof. apply run_calls_reachable; [apply sample_reachable|]. by constructor. Qed.
Lemma slow_lookup : slow_registry !! "T"%string = Some slow_event.
Proof. vm_compute. reflexivity. Qed.

(** A lapsed credential stays lapsed: renewing it never mints nor replays. *)
Lemma lapsed_forever {World : Type} `{!BrokerEnv World} c p n (env : World) :
  expires_at_ms c <= (now_ms env).1 →
  renew c p n env = (OExpired, c, (now_ms env).2) ∨
  renew c p n env = (OMismatch, c, (now_ms env).2).
Proof.
  intros He. unfold renew. destruct (now_ms env) as [now env']. simpl in *.
  destruct (renew_kind c p n now) eqn:Hk; auto; exfalso.
  - apply renew_kind_mintable, verdict_accepted in Hk. lia.
  - destruct (decide (p = secret c)) as [->|Hp].
    + unfold renew_kind in Hk. destruct (verdict c (secret c) now); [done..|].
      rewrite (proj2 (N.leb_le _ _) He) in Hk. by repeat case_match.
    + destruct (renew_kind_other c p n now Hp) as [[Hk' _]|[_ Hk']]; [congruence|].
      rewrite (proj2 (N.leb_le _ _) He) in Hk'. congruence.
Qed.

(** A credential can lapse under a live event, and a lapsed one is lost. There is a
    reachable event that is in progress and three days from being idle long enough to
    be abandoned (the sweep keeps it as it is), whose organizer's exact secret is
    already refused as expired; and from that instant on no renewal of it succeeds,
    whatever secret and nonce are presented. *)
Theorem credential_lapses_under_live_event :
  ∃ ts m now, reachable (World := CounterEnv) ts ∧ ts !! "T"%string = Some m ∧
    status m = InProgress ∧ swept (now / 1000 + 3 * 24 * 60 * 60) m = Some m ∧
    verdict (organizer_token m) (secret (organizer_token m)) now = VExpired ∧
    ∀ (World : Type) (env : BrokerEnv World) (e : World) presented nonce,
      now <= (now_ms e).1 →
      ∃ o, renew (organizer_token m) presented nonce e = (o, organizer_token m, (now_ms e).2) ∧
        ∀ minted, renew_answer o ≠ Ok minted.
Proof.
  exists slow_registry, slow_event, (8 * day).
  split; [exact slow_reachable|]. split; [exact slow_lookup|].
  split; [vm_compute; reflexivity|]. split; [vm_compute; reflexivity|].
  split; [vm_compute; reflexivity|]. intros World env e presented nonce Hnow.
  assert (expires_at_ms (organizer_token slow_event) <= 8 * day) as He
    by (vm_compute; discriminate).
  destruct (lapsed_forever (organizer_token slow_event) presented nonce e) as [H|H];
    [lia|exists OExpired|exists OMismatch]; by split.
Qed.

(** ** A second drop is accepted *)

(** Dropping an entrant who has already dropped succeeds and counts as activity. *)
Lemma redrop_is_activity :
  ∃ ts ts' m m', reachable (World := CounterEnv) ts ∧
    run_call (CallDrop "T" "b") (ts, much_later) = (Ok tt, (ts', much_later)) ∧
    ts !! "T"%string = Some m ∧ ts' !! "T"%string = Some m' ∧
    "b"%string ∈ gone_keys m ∧ last_activity_at m < last_activity_at m'.
Proof.
  set (s := run_calls [CallDrop "T" "b"]%string (sample_after 4)).
  exists s.1, (run_calls [CallDrop "T" "b"]%string (s.1, much_later)).1.
  eexists _, _. split.
  { subst s. rewrite (surjective_pairing (sample_after 4)).
    apply run_calls_reachable; [apply sample_reachable|]. by constructor. }
  split; [vm_compute; reflexivity|]. split; [vm_compute; reflexivity|].
  split; [vm_compute; reflexivity|]. split; [vm_compute; left|vm_compute; reflexivity].
Qed.

(** ** Host generations *)

(** A re-host raises the generation by one, until it reaches the top of its range, where
    a further re-host repeats it. *)
Lemma generation_saturates m pid h :
  meta_wf m → hosted m !! pid = Some h →
  next_generation m pid =
    if generation h =? 2 ^ 32 - 1 then generation h else generation h + 1.
Proof.
  intros Hm Hh. pose proof (wf_generations _ Hm _ _ Hh). unfold next_generation.
  rewrite Hh. unfold u32_saturating_add. change (2 ^ 32) with 4294967296 in *.
  destruct (N.eqb_spec (generation h) (4294967296 - 1)); lia.
Qed.
