(* ===== verification/LobbyWire.v ===== *)
(** * Frames of the lobby

    The data of [lobby-broker/src/protocol.rs] that clients send and that a listing
    shows, with the engine types they carry ([starter_decks.rs],
    [types/card_printing.rs], [types/match_config.rs] and [types/format.rs] under
    [engine/src/]).  A Rust [String] is a [string], one character a byte. *)
From Stdlib Require Import String.
From S2P Require Import Prelude.
From S2P Require Import GameTypes.
From S2P Require Import Seats.
From S2P Require Import TournamentTypes.
From S2P Require Import Credentials.
Export GameTypes.Printings.
Local Open Scope N_scope.

(** ** Carried engine types *)
Inductive LoopDetectionMode := LoopOff | LoopOn | LoopInteractive.
Record MatchConfig := { mc_match_type : MatchType; mc_loop_detection : LoopDetectionMode }.

(** The overrides are a [BTreeMap]: the list of its entries in key order. *)
Record RangeOfInfluenceConfig := {
  default_range : N;
  player_overrides : list (N * N);
}.
(** The fields of [FormatConfig] that the lobby reads: those of [Seats], and two more. *)
Record FormatSettings := {
  fs_config : FormatConfig;
  fs_range_of_influence : option RangeOfInfluenceConfig;
  fs_allow_debug_actions : bool;
}.

Inductive CommanderBracketTier := Exhibition | Core | Upgraded | Optimized | Cedh.
Record DeckData := {
  main_deck : list string;
  sideboard : list string;
  commander : list string;
  companion : list string;
  attraction_deck : list string;
  planar_deck : list string;
  scheme_deck : list string;
  contraption_deck : list string;
  sticker_sheets : list string;
  signature_spell : list string;
  bracket_tier : CommanderBracketTier;
  printings : list DeckPrinting;
}.
(** [DeckData::default()] *)
Definition empty_deck : DeckData :=
  {| main_deck := []; sideboard := []; commander := []; companion := [];
     attraction_deck := []; planar_deck := []; scheme_deck := []; contraption_deck := [];
     sticker_sheets := []; signature_spell := []; bracket_tier := Core; printings := [] |}.

(** ** A row of the lobby *)
Record DraftLobbyMetadata := {
  d_set_code : string;
  d_draft_kind : string;
  d_cube_name : option string;
}.

Record LobbyGame := {
  g_game_code : string;
  g_host_name : string;
  g_created_at : N;
  g_has_password : bool;
  g_host_version : string;
  g_host_build_commit : string;
  g_current_players : N;
  g_max_players : N;
  g_format : option GameFormat;
  g_room_name : option string;
  g_is_p2p : bool;
  g_is_sandbox : bool;
  g_is_ranked : bool;
  g_draft_metadata : option DraftLobbyMetadata;
}.

(** ** What a client sends *)
Abbreviation TournamentRequestId := N (only parsing).

(** The fields of [CreateGameWithSettings]. *)
Record CreateGameSettings := {
  c_deck : DeckData;
  c_display_name : string;
  c_public : bool;
  c_password : option string;
  c_timer_seconds : option N;
  c_player_count : N;
  c_match_config : MatchConfig;
  c_format_config : option FormatSettings;
  c_room_name : option string;
  c_host_peer_id : option string;
  c_draft_metadata : option DraftLobbyMetadata;
  c_start_when_full : bool;
  c_ranked : bool;
  c_requested_code : option string;
}.

(** The fields of [CreateTournament]: a request whose scoring may be left out. *)
Record CreateTournamentFrame := {
  ct_name : string;
  ct_arity : MatchArity;
  ct_scoring : option ScoringPolicy;
  ct_bracket : BracketShape;
  ct_total_rounds : option N;
  ct_plus_rounds : option N;
  ct_format : option GameFormat;
  ct_match_type : option MatchType;
}.

Module Client.
Inductive Message :=
  | ClientHello (client_version build_commit : string) (protocol_version : N)
      (lobby_protocol_version : option N)
  | SubscribeLobby
  | UnsubscribeLobby
  | CreateGameWithSettings (settings : CreateGameSettings)
  | JoinGameWithPassword (game_code : string) (deck : DeckData) (display_name : string)
      (password reservation_token : option string)
  | LookupJoinTarget (game_code : string) (password : option string) (reserve : bool)
      (display_name release_reservation_token : option string)
  | Ping (timestamp : N)
  | UpdateLobbyMetadata (game_code : string) (current_players max_players : N)
      (consumed_reservation_tokens : list string)
  | UnregisterLobby (game_code : string)
  | CreateTournament (frame : CreateTournamentFrame)
  | JoinTournament (code player_key display_name : string)
  | GetTournament (code : string)
  | StartTournamentRound (code organizer_token : string)
      (request_id : option TournamentRequestId)
  | ReportMatchResult (code : string) (pairing_id : PairingId) (player_token : string)
      (reported : PodOutcome) (request_id : option TournamentRequestId)
  | DropFromTournament (code player_token : string) (request_id : option TournamentRequestId)
  | EndTournament (code organizer_token : string) (request_id : option TournamentRequestId)
  | RenewTournamentCredential (code : string) (role : TournamentRole)
      (token rotation_nonce : string).

(** [LobbyClientMessage::tournament_request_id] *)
Definition tournament_request_id (msg : Message) : option TournamentRequestId :=
  match msg with
  | StartTournamentRound _ _ request_id
  | ReportMatchResult _ _ _ _ request_id
  | DropFromTournament _ _ request_id
  | EndTournament _ _ request_id => request_id
  | ClientHello _ _ _ _ | SubscribeLobby | UnsubscribeLobby | CreateGameWithSettings _
  | JoinGameWithPassword _ _ _ _ _ | LookupJoinTarget _ _ _ _ _ | Ping _
  | UpdateLobbyMetadata _ _ _ _ | UnregisterLobby _ | CreateTournament _
  | JoinTournament _ _ _ | RenewTournamentCredential _ _ _ _ | GetTournament _ => None
  end.
End Client.
