(* ===== verification/Validation.v ===== *)
(** * Bounds on what a client may send

    The checks every inbound lobby frame passes before a handler sees it:
    [lobby-broker/src/validation.rs] and [inbound_guard.rs], with the deck and format
    checks of the engine they call ([validate_deck_printings_bounds] of
    [types/card_printing.rs], [validate_for_player_count] of [types/format.rs]). *)
From Stdlib Require Import Ascii String.
From S2P Require Import Prelude.
From S2P Require Import Text.
From S2P Require Import Seats.
From S2P Require Import TournamentTypes.
From S2P Require Import LobbyWire.
Local Open Scope N_scope.

(** ** Limits *)
Definition MAX_DISPLAY_NAME_LEN : N := 20.
Definition MAX_ROOM_NAME_LEN : N := 40.
Definition MAX_PASSWORD_LEN : N := 128.
Definition MAX_GAME_CODE_LEN : N := 64.
Definition MINTED_GAME_CODE_LEN : N := 6.
Definition MAX_TOKEN_LEN : N := 128.
Definition MAX_TIMER_SECONDS : N := 86400.
Definition MAX_PLAYER_COUNT : N := 8.
Definition MAX_CONSUMED_TOKENS : N := 64.
Definition MAX_DRAFT_SET_CODE_LEN : N := 32.
Definition MAX_DRAFT_SET_LABEL_LEN : N := 6 + 8 * (MAX_DRAFT_SET_CODE_LEN + 1).
Definition MAX_DRAFT_KIND_LEN : N := 32.
Definition MAX_GAME_WINS_ENTRIES : N := 128.
Definition MAX_MAIN_DECK_ENTRIES : N := 500.
Definition MAX_SIDEBOARD_ENTRIES : N := 100.
Definition MAX_COMMANDER_ENTRIES : N := 4.
Definition MAX_PLANAR_DECK_ENTRIES : N := 200.
Definition MAX_SCHEME_DECK_ENTRIES : N := 200.
Definition MAX_COMPANION_ENTRIES : N := 4.
Definition MAX_SIGNATURE_SPELL_ENTRIES : N := 4.
Definition MAX_ATTRACTION_DECK_ENTRIES : N := 200.
Definition MAX_CONTRAPTION_DECK_ENTRIES : N := 200.
Definition MAX_DECK_PRINTING_ENTRIES : N := 2048.
Definition MAX_DECK_CARD_NAME_LEN : N := 256.
Definition MAX_PRINTING_SET_CODE_LEN : N := 32.
Definition MAX_PRINTING_COLLECTOR_NUMBER_LEN : N := 32.

(** The constant assertion beside the deck ceilings. *)
Example printings_cover_a_full_deck :
  MAX_MAIN_DECK_ENTRIES + MAX_SIDEBOARD_ENTRIES + MAX_COMMANDER_ENTRIES
  + MAX_COMPANION_ENTRIES + MAX_ATTRACTION_DECK_ENTRIES + MAX_PLANAR_DECK_ENTRIES
  + MAX_SCHEME_DECK_ENTRIES + MAX_CONTRAPTION_DECK_ENTRIES + MAX_SIGNATURE_SPELL_ENTRIES
  <= MAX_DECK_PRINTING_ENTRIES.
Proof. done. Qed.

(** ** Errors: one constructor per message, naming the field it complains of *)
Inductive Field :=
  | Fld (name : string)
  | Dot (f : Field) (name : string)
  | At (f : Field) (index : nat).
#[export] Instance field_eq_dec : EqDecision Field.
Proof. solve_decision. Defined.

Inductive FieldError :=
  | MustNotBeEmpty (f : Field)
  | TooManyCharacters (f : Field) (max : N)
  | TooManyBytes (f : Field) (max : N)
  | ControlCharacters (f : Field)
  | BadRequestedCode
  | PlayerCountRange
  | TimerTooLong
  | MaxPlayersRange
  | CurrentPlayersRange
  | CurrentAboveMax
  | TooManyEntries (f : Field) (max : N)
  | BothRoundCounts
  | OutsideSeatRange (player_count min max : N)
  | ArchenemyOutsideTable (player_count : N)
  | RangeTooWide (max_radius player_count : N)
  | OverrideOutsideTable (player player_count : N)
  | OverrideTooWide (player max_radius player_count : N)
  | RangeNotSupported.
#[export] Instance field_error_eq_dec : EqDecision FieldError.
Proof. solve_decision. Defined.

Abbreviation check := (outcome FieldError unit) (only parsing).
Definition refuse_if (c : bool) (e : FieldError) : check := if c then Err e else Ok tt.
(** [if let Some(x) = o { f(x)?; }] *)
Definition when_some {A} (o : option A) (f : A → check) : check :=
  match o with Some x => f x | None => Ok tt end.
(** [for (i, x) in xs.iter().enumerate() { f(i, x)?; }] *)
Definition check_all {A} (f : nat → A → check) (xs : list A) : check :=
  try_fold (λ _ '(i, x), f i x) tt (zip (seq 0 (length xs)) xs).

(** ** Labels and tokens *)
Section text.
Local Open Scope nat_scope.
(** [char::is_control]: the C0 range, DEL, and the C1 range, which UTF-8 writes as the
    byte 194 followed by 128 to 159. *)
Fixpoint has_control (s : bytes) : bool :=
  match s with
  | [] => false
  | x :: s' =>
      let n := nat_of_ascii x in
      (n <? 32) || (n =? 127)
      || ((n =? 194) && match s' with
                        | y :: _ => (128 <=? nat_of_ascii y) && (nat_of_ascii y <=? 159)
                        | [] => false
                        end)
      || has_control s'
  end.
(** [chars().count()]: the bytes of valid UTF-8 that do not continue a character. *)
Definition continues (x : ascii) : bool :=
  let n := nat_of_ascii x in (128 <=? n) && (n <? 192).
Definition chars_count (s : bytes) : nat := length (List.filter (λ x, negb (continues x)) s).
Definition is_ascii_uppercase (x : ascii) : bool :=
  let n := nat_of_ascii x in (65 <=? n) && (n <=? 90).
Definition is_ascii_digit (x : ascii) : bool :=
  let n := nat_of_ascii x in (48 <=? n) && (n <=? 57).
End text.

Definition byte_len (s : string) : N := N.of_nat (String.length s).
Definition has_control_char (value : string) : bool := has_control (of_string value).
Definition char_len (value : string) : N := N.of_nat (chars_count (of_string value)).
(** [value.trim().is_empty()] *)
Definition is_blank (value : string) : bool := bool_decide (trim (of_string value) = []).

Definition validate_required_label (f : Field) (value : string) (max : N) : check :=
  refuse_if (is_blank value) (MustNotBeEmpty f);;
  refuse_if (max <? char_len value) (TooManyCharacters f max);;
  refuse_if (has_control_char value) (ControlCharacters f).
Definition validate_optional_label (f : Field) (value : option string) (max : N) : check :=
  match value with
  | Some value => if is_blank value then Ok tt else validate_required_label f value max
  | None => Ok tt
  end.
Definition validate_token (f : Field) (value : string) (max : N) : check :=
  refuse_if (max <? byte_len value) (TooManyBytes f max);;
  refuse_if (has_control_char value) (ControlCharacters f).
Definition validate_optional_token (f : Field) (value : option string) (max : N) : check :=
  when_some value (λ value, validate_token f value max).
Definition validate_requested_game_code (code : string) : check :=
  if (byte_len code =? MINTED_GAME_CODE_LEN)
     && forallb (λ c, is_ascii_uppercase c || is_ascii_digit c) (of_string code)
  then Ok tt else Err BadRequestedCode.

(** ** The fields of each frame *)
Definition validate_create_game_settings_fields (s : CreateGameSettings) : check :=
  validate_required_label (Fld "display_name") (c_display_name s) MAX_DISPLAY_NAME_LEN;;
  validate_optional_label (Fld "room_name") (c_room_name s) MAX_ROOM_NAME_LEN;;
  validate_optional_token (Fld "password") (c_password s) MAX_PASSWORD_LEN;;
  validate_optional_token (Fld "host_peer_id") (c_host_peer_id s) MAX_TOKEN_LEN;;
  when_some (c_requested_code s) validate_requested_game_code;;
  refuse_if ((c_player_count s =? 0) || (MAX_PLAYER_COUNT <? c_player_count s))
    PlayerCountRange;;
  when_some (c_timer_seconds s) (λ secs, refuse_if (MAX_TIMER_SECONDS <? secs) TimerTooLong);;
  when_some (c_draft_metadata s) (λ draft,
    let f := Fld "draft_metadata" in
    validate_token (Dot f "set_code") (d_set_code draft) MAX_DRAFT_SET_LABEL_LEN;;
    validate_token (Dot f "draft_kind") (d_draft_kind draft) MAX_DRAFT_KIND_LEN;;
    validate_optional_label (Dot f "cube_name") (d_cube_name draft) MAX_ROOM_NAME_LEN).

Definition validate_join_game_with_password_fields (game_code display_name : string)
    (password reservation_token : option string) : check :=
  validate_token (Fld "game_code") game_code MAX_GAME_CODE_LEN;;
  validate_required_label (Fld "display_name") display_name MAX_DISPLAY_NAME_LEN;;
  validate_optional_token (Fld "password") password MAX_PASSWORD_LEN;;
  validate_optional_token (Fld "reservation_token") reservation_token MAX_TOKEN_LEN.

Definition validate_lookup_join_target_fields (game_code : string)
    (password display_name release_reservation_token : option string) : check :=
  validate_token (Fld "game_code") game_code MAX_GAME_CODE_LEN;;
  validate_optional_token (Fld "password") password MAX_PASSWORD_LEN;;
  validate_optional_label (Fld "display_name") display_name MAX_DISPLAY_NAME_LEN;;
  validate_optional_token (Fld "release_reservation_token") release_reservation_token
    MAX_TOKEN_LEN.

Definition validate_update_lobby_metadata_fields (game_code : string)
    (current_players max_players : N) (consumed : list string) : check :=
  validate_token (Fld "game_code") game_code MAX_GAME_CODE_LEN;;
  refuse_if ((max_players =? 0) || (MAX_PLAYER_COUNT <? max_players)) MaxPlayersRange;;
  refuse_if (MAX_PLAYER_COUNT <? current_players) CurrentPlayersRange;;
  refuse_if (max_players <? current_players) CurrentAboveMax;;
  refuse_if (MAX_CONSUMED_TOKENS <? N.of_nat (length consumed))
    (TooManyEntries (Fld "consumed_reservation_tokens") MAX_CONSUMED_TOKENS);;
  check_all (λ _ token, validate_token (Fld "consumed_reservation_token") token MAX_TOKEN_LEN)
    consumed.

Definition validate_unregister_lobby_fields (game_code : string) : check :=
  validate_token (Fld "game_code") game_code MAX_GAME_CODE_LEN.

Definition validate_create_tournament_fields (f : CreateTournamentFrame) : check :=
  validate_required_label (Fld "name") (ct_name f) MAX_ROOM_NAME_LEN;;
  refuse_if (bool_decide (is_Some (ct_total_rounds f))
             && bool_decide (is_Some (ct_plus_rounds f))) BothRoundCounts.
Definition validate_join_tournament_fields (code player_key display_name : string) : check :=
  validate_token (Fld "code") code MAX_GAME_CODE_LEN;;
  validate_token (Fld "player_key") player_key MAX_TOKEN_LEN;;
  validate_required_label (Fld "display_name") display_name MAX_DISPLAY_NAME_LEN.
Definition validate_get_tournament_fields (code : string) : check :=
  validate_token (Fld "code") code MAX_GAME_CODE_LEN.
Definition validate_start_tournament_round_fields (code organizer_token : string) : check :=
  validate_token (Fld "code") code MAX_GAME_CODE_LEN;;
  validate_token (Fld "organizer_token") organizer_token MAX_TOKEN_LEN.
Definition validate_report_match_result_fields (code player_token : string)
    (reported : PodOutcome) : check :=
  validate_token (Fld "code") code MAX_GAME_CODE_LEN;;
  validate_token (Fld "player_token") player_token MAX_TOKEN_LEN;;
  match reported with
  | Decisive winner game_wins =>
      validate_token (Dot (Fld "outcome") "winner") winner MAX_TOKEN_LEN;;
      refuse_if (MAX_GAME_WINS_ENTRIES <? N.of_nat (size game_wins))
        (TooManyEntries (Dot (Fld "outcome") "game_wins") MAX_GAME_WINS_ENTRIES);;
      check_all (λ _ kw, validate_token (Dot (Fld "outcome") "game_wins key") kw.1
                           MAX_TOKEN_LEN) (map_to_list game_wins)
  | Draw => Ok tt
  end.
Definition validate_drop_from_tournament_fields (code player_token : string) : check :=
  validate_token (Fld "code") code MAX_GAME_CODE_LEN;;
  validate_token (Fld "player_token") player_token MAX_TOKEN_LEN.
Definition validate_end_tournament_fields (code organizer_token : string) : check :=
  validate_token (Fld "code") code MAX_GAME_CODE_LEN;;
  validate_token (Fld "organizer_token") organizer_token MAX_TOKEN_LEN.
Definition validate_renew_tournament_credential_fields (code token rotation_nonce : string) :
    check :=
  validate_token (Fld "code") code MAX_GAME_CODE_LEN;;
  validate_token (Fld "token") token MAX_TOKEN_LEN;;
  validate_token (Fld "rotation_nonce") rotation_nonce MAX_TOKEN_LEN.

Definition validate_lobby_message (msg : Client.Message) : check :=
  match msg with
  | Client.ClientHello client_version build_commit _ _ =>
      validate_token (Fld "client_version") client_version MAX_TOKEN_LEN;;
      validate_token (Fld "build_commit") build_commit MAX_TOKEN_LEN
  | Client.CreateGameWithSettings s => validate_create_game_settings_fields s
  | Client.JoinGameWithPassword game_code _ display_name password reservation_token =>
      validate_join_game_with_password_fields game_code display_name password
        reservation_token
  | Client.LookupJoinTarget game_code password _ display_name release_reservation_token =>
      validate_lookup_join_target_fields game_code password display_name
        release_reservation_token
  | Client.UpdateLobbyMetadata game_code current_players max_players consumed =>
      validate_update_lobby_metadata_fields game_code current_players max_players consumed
  | Client.UnregisterLobby game_code => validate_unregister_lobby_fields game_code
  | Client.CreateTournament f => validate_create_tournament_fields f
  | Client.JoinTournament code player_key display_name =>
      validate_join_tournament_fields code player_key display_name
  | Client.GetTournament code => validate_get_tournament_fields code
  | Client.StartTournamentRound code organizer_token _ =>
      validate_start_tournament_round_fields code organizer_token
  | Client.ReportMatchResult code _ player_token reported _ =>
      validate_report_match_result_fields code player_token reported
  | Client.DropFromTournament code player_token _ =>
      validate_drop_from_tournament_fields code player_token
  | Client.EndTournament code organizer_token _ =>
      validate_end_tournament_fields code organizer_token
  | Client.RenewTournamentCredential code _ token rotation_nonce =>
      validate_renew_tournament_credential_fields code token rotation_nonce
  | Client.SubscribeLobby | Client.UnsubscribeLobby | Client.Ping _ => Ok tt
  end.

(** ** Decks and formats *)
Definition validate_card_name (f : Field) (name : string) : check :=
  refuse_if (bool_decide (name = ""%string)) (MustNotBeEmpty f);;
  refuse_if (MAX_DECK_CARD_NAME_LEN <? byte_len name)
    (TooManyBytes f MAX_DECK_CARD_NAME_LEN);;
  refuse_if (has_control_char name) (ControlCharacters f).
Definition validate_deck_list (f : Field) (cards : list string) (max_entries : N) : check :=
  refuse_if (max_entries <? N.of_nat (length cards)) (TooManyEntries f max_entries);;
  check_all (λ index name, validate_card_name (At f index) name) cards.
Definition validate_deck_printings_bounds (f : Field) (printings : list DeckPrinting) : check :=
  refuse_if (MAX_DECK_PRINTING_ENTRIES <? N.of_nat (length printings))
    (TooManyEntries f MAX_DECK_PRINTING_ENTRIES);;
  check_all (λ index entry,
    refuse_if (MAX_DECK_CARD_NAME_LEN <? byte_len (printing_name entry))
      (TooManyBytes (Dot (At f index) "name") MAX_DECK_CARD_NAME_LEN);;
    refuse_if (MAX_PRINTING_SET_CODE_LEN <? byte_len (printing_set_code (printing_of entry)))
      (TooManyBytes (Dot (Dot (At f index) "printing") "set_code") MAX_PRINTING_SET_CODE_LEN);;
    refuse_if (MAX_PRINTING_COLLECTOR_NUMBER_LEN
               <? byte_len (collector_number (printing_of entry)))
      (TooManyBytes (Dot (Dot (At f index) "printing") "collector_number")
         MAX_PRINTING_COLLECTOR_NUMBER_LEN)) printings.
Definition validate_deck_payload (f : Field) (deck : DeckData) : check :=
  validate_deck_list (Dot f "main_deck") (main_deck deck) MAX_MAIN_DECK_ENTRIES;;
  validate_deck_list (Dot f "sideboard") (sideboard deck) MAX_SIDEBOARD_ENTRIES;;
  validate_deck_list (Dot f "commander") (commander deck) MAX_COMMANDER_ENTRIES;;
  validate_deck_list (Dot f "planar_deck") (planar_deck deck) MAX_PLANAR_DECK_ENTRIES;;
  validate_deck_list (Dot f "scheme_deck") (scheme_deck deck) MAX_SCHEME_DECK_ENTRIES;;
  validate_deck_list (Dot f "companion") (companion deck) MAX_COMPANION_ENTRIES;;
  validate_deck_list (Dot f "attraction_deck") (attraction_deck deck)
    MAX_ATTRACTION_DECK_ENTRIES;;
  validate_deck_list (Dot f "contraption_deck") (contraption_deck deck)
    MAX_CONTRAPTION_DECK_ENTRIES;;
  validate_deck_list (Dot f "signature_spell") (signature_spell deck)
    MAX_SIGNATURE_SPELL_ENTRIES;;
  validate_deck_printings_bounds (Dot f "printings") (printings deck).

(** [u8::clamp] *)
Definition clamp (x lo hi : N) : N := N.min (N.max x lo) hi.

Definition validate_for_player_count (fs : FormatSettings) (player_count : N) : check :=
  let f := fs_config fs in
  refuse_if ((player_count <? min_players f) || (max_players f <? player_count))
    (OutsideSeatRange player_count (min_players f) (max_players f));;
  match topology f with
  | OneVsMany archenemy _ =>
      refuse_if (player_count <=? archenemy) (ArchenemyOutsideTable player_count)
  | IndividualSeats | FixedTeams _ _ _ => Ok tt
  end;;
  when_some (fs_range_of_influence fs) (λ range,
    let max_radius := player_count / 2 in
    refuse_if (max_radius <? default_range range) (RangeTooWide max_radius player_count);;
    check_all (λ _ '(player, radius),
      refuse_if (player_count <=? player) (OverrideOutsideTable player player_count);;
      refuse_if (max_radius <? radius) (OverrideTooWide player max_radius player_count))
      (player_overrides range)).
Definition reject_unimplemented_range_of_influence (fs : FormatSettings) : check :=
  refuse_if (bool_decide (is_Some (fs_range_of_influence fs))) RangeNotSupported.

(** ** The guard *)
Definition guard_create_game_settings_inbound (s : CreateGameSettings) : check :=
  validate_create_game_settings_fields s;;
  when_some (c_format_config s) (λ format_config,
    validate_for_player_count format_config (clamp (c_player_count s) 2 MAX_PLAYER_COUNT);;
    reject_unimplemented_range_of_influence format_config);;
  validate_deck_payload (Fld "deck") (c_deck s).
Definition guard_join_game_with_password_inbound (game_code : string) (deck : DeckData)
    (display_name : string) (password reservation_token : option string) : check :=
  validate_join_game_with_password_fields game_code display_name password reservation_token;;
  validate_deck_payload (Fld "deck") deck.
Definition guard_inbound (msg : Client.Message) : check :=
  match msg with
  | Client.CreateGameWithSettings s => guard_create_game_settings_inbound s
  | Client.JoinGameWithPassword game_code deck display_name password reservation_token =>
      guard_join_game_with_password_inbound game_code deck display_name password
        reservation_token
  | _ => validate_lobby_message msg
  end.

(** ** The checks as conditions *)
Lemma check_seq (c d : check) : (c;; d) = Ok tt ↔ c = Ok tt ∧ d = Ok tt.
Proof. destruct c as [[]|e|]; simpl; naive_solver. Qed.
Lemma refuse_if_ok c e : refuse_if c e = Ok tt ↔ c = false.
Proof. by destruct c. Qed.
Lemma when_some_ok {A} (o : option A) f : when_some o f = Ok tt ↔ ∀ x, o = Some x → f x = Ok tt.
Proof. destruct o; simpl; naive_solver. Qed.

(** A check answers: it is never a panic. *)
Definition answers (c : check) : Prop := c ≠ Panic.
Lemma answers_ok : answers (Ok tt).
Proof. done. Qed.
Lemma answers_err e : answers (Err e).
Proof. done. Qed.
Lemma answers_seq (c d : check) : answers c → answers d → answers (c;; d).
Proof. by destruct c. Qed.
Lemma answers_refuse c e : answers (refuse_if c e).
Proof. by destruct c. Qed.
Lemma answers_when {A} (o : option A) f : (∀ x, answers (f x)) → answers (when_some o f).
Proof. destruct o; simpl; eauto using answers_ok. Qed.
Lemma answers_all {A} f (xs : list A) : (∀ i x, answers (f i x)) → answers (check_all f xs).
Proof.
  intros Hf. unfold check_all. generalize (zip (seq 0 (length xs)) xs). intros l.
  induction l as [|[i x] l IH]; simpl; [done|].
  specialize (Hf i x). by destruct (f i x) as [[]|e|].
Qed.
Ltac answering :=
  repeat first [apply answers_ok | apply answers_err | apply answers_refuse
               | apply answers_seq | apply answers_when; intros ?
               | apply answers_all; intros ? ? | case_match].

Lemma guard_answers msg : answers (guard_inbound msg).
Proof.
  destruct msg; simpl; unfold guard_create_game_settings_inbound,
    guard_join_game_with_password_inbound, validate_create_game_settings_fields,
    validate_optional_label, validate_requested_game_code, validate_for_player_count,
    validate_update_lobby_metadata_fields, validate_report_match_result_fields;
    cbv zeta; answering.
Qed.

(** ** What an accepted field satisfies *)
Definition label_within (max : N) (value : string) : Prop := char_len value <= max.
Definition token_within (max : N) (value : string) : Prop := byte_len value <= max.
Definition opt_within (P : string → Prop) (value : option string) : Prop :=
  ∀ s, value = Some s → P s.
(** An optional label may also be blank, of any length. *)
Definition blank_or_within (max : N) (value : string) : Prop :=
  is_blank value = true ∨ label_within max value.

Lemma token_ok f v max : validate_token f v max = Ok tt → token_within max v.
Proof.
  unfold validate_token, token_within. rewrite check_seq, !refuse_if_ok, N.ltb_ge. tauto.
Qed.
Lemma label_ok f v max : validate_required_label f v max = Ok tt → label_within max v.
Proof.
  unfold validate_required_label, label_within.
  rewrite !check_seq, !refuse_if_ok, N.ltb_ge. tauto.
Qed.
Lemma optional_token_ok f v max :
  validate_optional_token f v max = Ok tt → opt_within (token_within max) v.
Proof. intros Hv s ->. by eapply token_ok. Qed.
Lemma optional_label_ok f v max :
  validate_optional_label f v max = Ok tt → opt_within (blank_or_within max) v.
Proof.
  intros Hv s ->. simpl in Hv. unfold blank_or_within.
  destruct (is_blank s); [by left|right]. by eapply label_ok.
Qed.

Record draft_bounded (d : DraftLobbyMetadata) : Prop := {
  db_set_code : token_within MAX_DRAFT_SET_LABEL_LEN (d_set_code d);
  db_draft_kind : token_within MAX_DRAFT_KIND_LEN (d_draft_kind d);
  db_cube_name : opt_within (blank_or_within MAX_ROOM_NAME_LEN) (d_cube_name d);
}.
Record settings_bounded (s : CreateGameSettings) : Prop := {
  sb_display_name : label_within MAX_DISPLAY_NAME_LEN (c_display_name s);
  sb_room_name : opt_within (blank_or_within MAX_ROOM_NAME_LEN) (c_room_name s);
  sb_password : opt_within (token_within MAX_PASSWORD_LEN) (c_password s);
  sb_peer : opt_within (token_within MAX_TOKEN_LEN) (c_host_peer_id s);
  sb_timer : ∀ secs, c_timer_seconds s = Some secs → secs <= MAX_TIMER_SECONDS;
  sb_draft : ∀ d, c_draft_metadata s = Some d → draft_bounded d;
}.
Lemma settings_ok s : validate_create_game_settings_fields s = Ok tt → settings_bounded s.
Proof.
  unfold validate_create_game_settings_fields. rewrite !check_seq.
  intros (Hn&Hr&Hp&Hh&_&_&Ht&Hd).
  pose proof (proj1 (when_some_ok _ _) Ht) as Ht'. pose proof (proj1 (when_some_ok _ _) Hd) as Hd'.
  split.
  - by eapply label_ok.
  - by eapply optional_label_ok.
  - by eapply optional_token_ok.
  - by eapply optional_token_ok.
  - intros secs Hs. specialize (Ht' secs Hs). by apply refuse_if_ok, N.ltb_ge in Ht'.
  - intros d Hs. specialize (Hd' d Hs). rewrite !check_seq in Hd'.
    destruct Hd' as (H1&H2&H3). split; [by eapply token_ok..|by eapply optional_label_ok].
Qed.

(** Trimming takes a piece of the text out. *)
Lemma strip_suffix fuel ws s : ∃ a, s = a ++ strip fuel ws s.
Proof.
  revert s. induction fuel as [|fuel IH]; intros s; simpl; [by exists []|].
  destruct (find_first _ _) as [w|]; [|by exists []].
  destruct (IH (drop (length w) s)) as [a Ha]. exists (take (length w) s ++ a).
  by rewrite <-app_assoc, <-Ha, take_drop.
Qed.
Lemma trim_infix s : ∃ a b, s = a ++ trim s ++ b.
Proof.
  unfold trim, trim_start, trim_end.
  destruct (strip_suffix (length s) whitespace s) as [a Ha].
  set (t := strip (length s) whitespace s) in *.
  destruct (strip_suffix (length t) (reverse <$> whitespace) (reverse t)) as [b Hb].
  exists a, (reverse b). rewrite <-reverse_app, <-Hb, reverse_involutive. done.
Qed.
Lemma chars_count_app s s' : chars_count (s ++ s') = (chars_count s + chars_count s')%nat.
Proof. unfold chars_count. by rewrite List.filter_app, length_app. Qed.
Lemma byte_len_bytes s : byte_len s = N.of_nat (length (of_string s)).
Proof. unfold byte_len. f_equal. induction s as [|c s IH]; simpl; [done|by rewrite IH]. Qed.
Lemma char_len_trim s : char_len (string_of_list_ascii (trim (of_string s))) <= char_len s.
Proof.
  unfold char_len, of_string. rewrite list_ascii_of_string_of_list_ascii.
  destruct (trim_infix (of_string s)) as (a&b&Hs). unfold of_string in Hs.
  rewrite Hs at 2. rewrite !chars_count_app. lia.
Qed.
Lemma byte_len_trim s : byte_len (string_of_list_ascii (trim (of_string s))) <= byte_len s.
Proof.
  rewrite !byte_len_bytes. unfold of_string. rewrite list_ascii_of_string_of_list_ascii.
  destruct (trim_infix (of_string s)) as (a&b&Hs). unfold of_string in Hs.
  rewrite Hs at 2. rewrite !length_app. lia.
Qed.
