(* ===== verification/Lobby.v ===== *)
(** * The lobby: waiting games, their reservations and identities

    [LobbyManager] of [lobby-broker/src/lobby.rs] and the ownership checks of
    [reservation_auth.rs].  A method that takes [&mut self] returns the new manager; one
    that reads the clock or mints a token takes the environment and returns the next
    one.  A [HashMap] iterates in the order of [map_to_list]. *)
From Stdlib Require Import String.
From S2P Require Import Prelude.
From S2P Require Import Seats.
From S2P Require Import Credentials.
From S2P Require Import LobbyWire.
Local Open Scope N_scope.

Definition PUBLIC_SEAT_RESERVATION_MS : N := 120000.
Definition LIVENESS_REFRESH_SECS : N := 60.

(** ** Data *)
Record RegisterGameRequest := {
  r_host_name : string;
  r_public : bool;
  r_password : option string;
  r_timer_seconds : option N;
  r_host_version : string;
  r_host_build_commit : string;
  r_current_players : N;
  r_max_players : N;
  r_format_config : option FormatSettings;
  r_match_config : MatchConfig;
  r_room_name : option string;
  r_host_peer_id : string;
  r_draft_metadata : option DraftLobbyMetadata;
  r_ranked : bool;
}.

Record JoinTargetInfo := {
  j_host_peer_id : string;
  j_max_players : N;
  j_current_players : N;
  j_format_config : option FormatSettings;
  j_match_config : MatchConfig;
  j_is_p2p : bool;
  j_reservation_token : option string;
  j_reservation_expires_at_ms : option N;
  j_draft_metadata : option DraftLobbyMetadata;
}.

Record LobbyReservation := {
  res_token : string;
  res_display_name : string;
  res_expires_at_ms : option N;
}.

Record LobbyRegistration := { reg_game_code : string; reg_generation : N }.
#[export] Instance registration_eq_dec : EqDecision LobbyRegistration.
Proof. solve_decision. Defined.

Inductive ExpiryConsumption := Removed | AlreadyGone | Superseded.

Inductive HostPresence := Present | Away.
#[export] Instance presence_eq_dec : EqDecision HostPresence.
Proof. solve_decision. Defined.

Inductive ListingDelta :=
  | DeltaAdded (game : LobbyGame)
  | DeltaUpdated (game : LobbyGame)
  | DeltaRemoved
  | DeltaUnlisted.

Record LobbyGameMeta := {
  e_host_presence : HostPresence;
  e_host_name : string;
  e_created_at : N;
  e_last_seen : N;
  e_generation : N;
  e_password : option string;
  e_has_password : bool;
  e_timer_seconds : option N;
  e_public : bool;
  e_host_version : string;
  e_host_build_commit : string;
  e_current_players : N;
  e_max_players : N;
  e_format_config : option FormatSettings;
  e_match_config : MatchConfig;
  e_room_name : option string;
  e_host_peer_id : string;
  e_draft_metadata : option DraftLobbyMetadata;
  e_ranked : bool;
  e_reservations : gmap string LobbyReservation;
}.

Record LobbyManager := {
  games : gmap string LobbyGameMeta;
  lobby_next_generation : N;
}.
(** [LobbyManagerSnapshot]: the same two fields, of any stored value. *)
Record LobbyManagerSnapshot := {
  snap_games : gmap string LobbyGameMeta;
  snap_next_generation : N;
}.

(** Errors: one constructor per message. *)
Inductive LobbyError :=
  | NotInLobby (game_code : string)
  | SeatsTaken (game_code : string)
  | PasswordNeeded
  | WrongPassword.

(** ** The assignments the methods make *)
Definition set_reservations (rs : gmap string LobbyReservation) (e : LobbyGameMeta) :=
  {| e_host_presence := e_host_presence e; e_host_name := e_host_name e;
     e_created_at := e_created_at e; e_last_seen := e_last_seen e;
     e_generation := e_generation e; e_password := e_password e;
     e_has_password := e_has_password e; e_timer_seconds := e_timer_seconds e;
     e_public := e_public e; e_host_version := e_host_version e;
     e_host_build_commit := e_host_build_commit e;
     e_current_players := e_current_players e; e_max_players := e_max_players e;
     e_format_config := e_format_config e; e_match_config := e_match_config e;
     e_room_name := e_room_name e; e_host_peer_id := e_host_peer_id e;
     e_draft_metadata := e_draft_metadata e; e_ranked := e_ranked e;
     e_reservations := rs |}.
Definition set_seats (current max : N) (e : LobbyGameMeta) :=
  {| e_host_presence := e_host_presence e; e_host_name := e_host_name e;
     e_created_at := e_created_at e; e_last_seen := e_last_seen e;
     e_generation := e_generation e; e_password := e_password e;
     e_has_password := e_has_password e; e_timer_seconds := e_timer_seconds e;
     e_public := e_public e; e_host_version := e_host_version e;
     e_host_build_commit := e_host_build_commit e;
     e_current_players := current; e_max_players := max;
     e_format_config := e_format_config e; e_match_config := e_match_config e;
     e_room_name := e_room_name e; e_host_peer_id := e_host_peer_id e;
     e_draft_metadata := e_draft_metadata e; e_ranked := e_ranked e;
     e_reservations := e_reservations e |}.
Definition set_last_seen (now : N) (e : LobbyGameMeta) :=
  {| e_host_presence := e_host_presence e; e_host_name := e_host_name e;
     e_created_at := e_created_at e; e_last_seen := now;
     e_generation := e_generation e; e_password := e_password e;
     e_has_password := e_has_password e; e_timer_seconds := e_timer_seconds e;
     e_public := e_public e; e_host_version := e_host_version e;
     e_host_build_commit := e_host_build_commit e;
     e_current_players := e_current_players e; e_max_players := e_max_players e;
     e_format_config := e_format_config e; e_match_config := e_match_config e;
     e_room_name := e_room_name e; e_host_peer_id := e_host_peer_id e;
     e_draft_metadata := e_draft_metadata e; e_ranked := e_ranked e;
     e_reservations := e_reservations e |}.
Definition set_host (presence : HostPresence) (version build_commit : string)
    (e : LobbyGameMeta) :=
  {| e_host_presence := presence; e_host_name := e_host_name e;
     e_created_at := e_created_at e; e_last_seen := e_last_seen e;
     e_generation := e_generation e; e_password := e_password e;
     e_has_password := e_has_password e; e_timer_seconds := e_timer_seconds e;
     e_public := e_public e; e_host_version := version;
     e_host_build_commit := build_commit;
     e_current_players := e_current_players e; e_max_players := e_max_players e;
     e_format_config := e_format_config e; e_match_config := e_match_config e;
     e_room_name := e_room_name e; e_host_peer_id := e_host_peer_id e;
     e_draft_metadata := e_draft_metadata e; e_ranked := e_ranked e;
     e_reservations := e_reservations e |}.

Definition with_games (gs : gmap string LobbyGameMeta) (l : LobbyManager) : LobbyManager :=
  {| games := gs; lobby_next_generation := lobby_next_generation l |}.
(** [if let Some(meta) = self.games.get_mut(code) { f(meta) }] *)
Definition update_entry (game_code : string) (f : LobbyGameMeta → LobbyGameMeta)
    (l : LobbyManager) : LobbyManager := with_games (alter f game_code (games l)) l.

Definition lobby_new : LobbyManager := {| games := ∅; lobby_next_generation := 0 |}.

(** [impl From<LobbyManagerSnapshot> for LobbyManager]; [max] over no entry is absent. *)
Definition from_snapshot (s : LobbyManagerSnapshot) : LobbyManager :=
  let gs := (λ e, set_last_seen (N.max (e_last_seen e) (e_created_at e)) e)
              <$> snap_games s in
  {| games := gs;
     lobby_next_generation :=
       N.max (map_fold (λ _ e seed, N.max (u64_add (e_generation e) 1) seed) 0 gs)
         (snap_next_generation s) |}.
(** [Serialize]. *)
Definition to_snapshot (l : LobbyManager) : LobbyManagerSnapshot :=
  {| snap_games := games l; snap_next_generation := lobby_next_generation l |}.

(** ** Rows *)
Definition listed (e : LobbyGameMeta) : bool :=
  e_public e && bool_decide (e_host_presence e = Present).
(** [(current + reservations.len() as u32).min(max)] *)
Definition reservation_count (e : LobbyGameMeta) : N :=
  wrap 32 (N.of_nat (size (e_reservations e))).
Definition occupied (e : LobbyGameMeta) : N :=
  u32_add (e_current_players e) (reservation_count e).
Definition shown_players (e : LobbyGameMeta) : N := N.min (occupied e) (e_max_players e).

Definition meta_to_lobby_game (game_code : string) (e : LobbyGameMeta) : LobbyGame :=
  {| g_game_code := game_code;
     g_host_name := e_host_name e;
     g_created_at := e_created_at e;
     g_has_password := e_has_password e;
     g_host_version := e_host_version e;
     g_host_build_commit := e_host_build_commit e;
     g_current_players := shown_players e;
     g_max_players := e_max_players e;
     g_format := (λ fc, format (fs_config fc)) <$> e_format_config e;
     g_room_name := e_room_name e;
     g_is_p2p := negb (is_empty (e_host_peer_id e));
     g_is_sandbox :=
       match e_format_config e with Some fc => fs_allow_debug_actions fc | None => false end;
     g_is_ranked := e_ranked e;
     g_draft_metadata := e_draft_metadata e |}.

Definition public_game (l : LobbyManager) (game_code : string) : option LobbyGame :=
  e ← games l !! game_code;
  if listed e then Some (meta_to_lobby_game game_code e) else None.
Definition public_games (l : LobbyManager) : list LobbyGame :=
  (λ '(game_code, e), meta_to_lobby_game game_code e)
    <$> filter (λ ce, listed ce.2 = true) (map_to_list (games l)).

(** ** Queries *)
Definition has_game (l : LobbyManager) (game_code : string) : bool :=
  bool_decide (is_Some (games l !! game_code)).
Definition lobby_len (l : LobbyManager) : nat := size (games l).
Definition lobby_is_empty (l : LobbyManager) : bool := bool_decide (games l = ∅).
Definition host_build_commit (l : LobbyManager) (game_code : string) : option string :=
  e_host_build_commit <$> games l !! game_code.
Definition seated_player_count (l : LobbyManager) (game_code : string) : option N :=
  e_current_players <$> games l !! game_code.
Definition timer_seconds (l : LobbyManager) (game_code : string) : option N :=
  e ← games l !! game_code; e_timer_seconds e.
Definition verify_password (l : LobbyManager) (game_code : string) (password : option string) :
    LobbyError + unit :=
  match games l !! game_code with
  | None => inl (NotInLobby game_code)
  | Some e =>
      match e_password e, password with
      | None, _ => inr tt
      | Some _, None => inl PasswordNeeded
      | Some expected, Some provided =>
          if String.eqb expected provided then inr tt else inl WrongPassword
      end
  end.
Definition join_target_info (l : LobbyManager) (game_code : string) : option JoinTargetInfo :=
  e ← games l !! game_code;
  Some {| j_host_peer_id := e_host_peer_id e;
          j_max_players := e_max_players e;
          j_current_players := shown_players e;
          j_format_config := e_format_config e;
          j_match_config := e_match_config e;
          j_is_p2p := negb (is_empty (e_host_peer_id e));
          j_reservation_token := None;
          j_reservation_expires_at_ms := None;
          j_draft_metadata := e_draft_metadata e |}.
Definition is_current (l : LobbyManager) (registration : LobbyRegistration) : bool :=
  match games l !! reg_game_code registration with
  | Some e => e_generation e =? reg_generation registration
  | None => false
  end.

(** ** Changes that read no clock *)
Definition unregister_game (game_code : string) (l : LobbyManager) : LobbyManager :=
  with_games (delete game_code (games l)) l.
Definition unregister_registration (registration : LobbyRegistration) (l : LobbyManager) :
    bool * LobbyManager :=
  if is_current l registration
  then (true, unregister_game (reg_game_code registration) l)
  else (false, l).
Definition unregister_expired (expired : LobbyRegistration) (l : LobbyManager) :
    ExpiryConsumption * LobbyManager :=
  match unregister_registration expired l with
  | (true, l) => (Removed, l)
  | (false, l) =>
      (if has_game l (reg_game_code expired) then Superseded else AlreadyGone, l)
  end.

Definition release_reservation (game_code token : string) (l : LobbyManager) :
    bool * LobbyManager :=
  match games l !! game_code with
  | None => (false, l)
  | Some e =>
      (bool_decide (is_Some (e_reservations e !! token)),
       update_entry game_code (λ e, set_reservations (delete token (e_reservations e)) e) l)
  end.
Fixpoint release_reservations (reservations : list (string * string)) (l : LobbyManager) :
    bool * LobbyManager :=
  match reservations with
  | [] => (false, l)
  | (game_code, token) :: reservations =>
      let '(released, l) := release_reservation game_code token l in
      let '(changed, l) := release_reservations reservations l in
      (released || changed, l)
  end.
Definition consume_reservation (game_code token : string) (l : LobbyManager) :
    bool * LobbyManager :=
  match games l !! game_code with
  | None => (false, l)
  | Some e =>
      match e_reservations e !! token with
      | None => (false, l)
      | Some _ =>
          (true, update_entry game_code (λ e,
             set_seats (N.min (u32_add (e_current_players e) 1) (e_max_players e))
               (e_max_players e)
               (set_reservations (delete token (e_reservations e)) e)) l)
      end
  end.
Definition set_max_players (game_code : string) (max : N) (l : LobbyManager) : LobbyManager :=
  update_entry game_code (λ e, set_seats (e_current_players e) max e) l.
Definition mark_host_away (game_code : string) (l : LobbyManager) : LobbyManager :=
  update_entry game_code (λ e, set_host Away (e_host_version e) (e_host_build_commit e) e) l.
Definition mark_host_returned (game_code version build_commit : string) (l : LobbyManager) :
    LobbyManager :=
  update_entry game_code (set_host Present version build_commit) l.
Definition listing_delta (game_code : string) (mutate : LobbyManager → LobbyManager)
    (l : LobbyManager) : ListingDelta * LobbyManager :=
  let before := bool_decide (is_Some (public_game l game_code)) in
  let l := mutate l in
  (match before, public_game l game_code with
   | true, None => DeltaRemoved
   | false, Some g => DeltaAdded g
   | true, Some g => DeltaUpdated g
   | false, None => DeltaUnlisted
   end, l).

(** ** Changes that read the clock or mint a token *)
Definition active (now : N) (r : LobbyReservation) : bool :=
  match res_expires_at_ms r with Some expires => now <? expires | None => true end.
(** [cleanup_expired_for]; its answer, whether anything went, is the count's change. *)
Definition cleanup_expired_for (now : N) (e : LobbyGameMeta) : LobbyGameMeta :=
  set_reservations (filter (λ kr, active now kr.2 = true) (e_reservations e)) e.

Section env.
Context {World : Type} `{!BrokerEnv World}.

(** [env.now_ms() / 1000] *)
Definition clock_secs (env : World) : N * World :=
  let '(now, env) := now_ms env in (now / 1000, env).

Definition register_game (game_code : string) (req : RegisterGameRequest) (l : LobbyManager)
    (env : World) : LobbyRegistration * LobbyManager * World :=
  let '(created_at, env) := clock_secs env in
  let generation := lobby_next_generation l in
  let e :=
    {| e_host_presence := Present; e_host_name := r_host_name req;
       e_created_at := created_at; e_last_seen := created_at;
       e_generation := generation; e_password := r_password req;
       e_has_password := bool_decide (is_Some (r_password req));
       e_timer_seconds := r_timer_seconds req; e_public := r_public req;
       e_host_version := r_host_version req;
       e_host_build_commit := r_host_build_commit req;
       e_current_players := r_current_players req; e_max_players := r_max_players req;
       e_format_config := r_format_config req; e_match_config := r_match_config req;
       e_room_name := r_room_name req; e_host_peer_id := r_host_peer_id req;
       e_draft_metadata := r_draft_metadata req; e_ranked := r_ranked req;
       e_reservations := ∅ |} in
  ({| reg_game_code := game_code; reg_generation := generation |},
   {| games := <[game_code := e]> (games l);
      lobby_next_generation := u64_add (lobby_next_generation l) 1 |},
   env).

Definition cleanup_expired_reservations (game_code : string) (l : LobbyManager) (env : World) :
    bool * LobbyManager * World :=
  let '(now, env) := now_ms env in
  match games l !! game_code with
  | None => (false, l, env)
  | Some e =>
      let e' := cleanup_expired_for now e in
      (negb (size (e_reservations e) =? size (e_reservations e'))%nat,
       update_entry game_code (cleanup_expired_for now) l, env)
  end.

Definition reserve_seat (game_code display_name : string) (l : LobbyManager) (env : World) :
    (LobbyError + LobbyReservation) * LobbyManager * World :=
  let '(now, env) := now_ms env in
  match games l !! game_code with
  | None => (inl (NotInLobby game_code), l, env)
  | Some e =>
      let e := cleanup_expired_for now e in
      let l := update_entry game_code (cleanup_expired_for now) l in
      if (0 <? e_max_players e) && (e_max_players e <=? occupied e)
      then (inl (SeatsTaken game_code), l, env)
      else
        let '(token, env) := new_token env in
        let reservation :=
          {| res_token := token; res_display_name := display_name;
             res_expires_at_ms := Some (u64_add now PUBLIC_SEAT_RESERVATION_MS) |} in
        (inr reservation,
         update_entry game_code (λ e,
           set_reservations (<[token := reservation]> (e_reservations e)) e) l, env)
  end.

Definition has_active_reservation (game_code token : string) (l : LobbyManager)
    (env : World) : bool * LobbyManager * World :=
  match games l !! game_code with
  | None => (false, l, env)
  | Some e =>
      let '(now, env) := now_ms env in
      (bool_decide (is_Some (e_reservations (cleanup_expired_for now e) !! token)),
       update_entry game_code (cleanup_expired_for now) l, env)
  end.

Definition set_current_players (game_code : string) (current : N) (l : LobbyManager)
    (env : World) : LobbyManager * World :=
  let '(now, env) := now_ms env in
  (update_entry game_code (λ e,
     let e := cleanup_expired_for now e in set_seats current (e_max_players e) e) l, env).

Definition check_expired_lobby (timeout_secs : N) (l : LobbyManager) (env : World) :
    list LobbyRegistration * World :=
  let '(now, env) := clock_secs env in
  ((λ '(game_code, e), {| reg_game_code := game_code; reg_generation := e_generation e |})
     <$> filter (λ ce, timeout_secs < now - e_last_seen ce.2) (map_to_list (games l)),
   env).

Definition liveness_refresh_due (registration : LobbyRegistration) (l : LobbyManager)
    (env : World) : bool * World :=
  let '(now, env) := clock_secs env in
  (is_current l registration
   && match games l !! reg_game_code registration with
      | Some e => LIVENESS_REFRESH_SECS <=? now - e_last_seen e
      | None => false
      end, env).
Definition refresh_liveness (registration : LobbyRegistration) (l : LobbyManager)
    (env : World) : bool * LobbyManager * World :=
  let '(due, env) := liveness_refresh_due registration l env in
  if negb due then (false, l, env)
  else
    let '(now, env) := clock_secs env in
    (true, update_entry (reg_game_code registration) (set_last_seen now) l, env).
End env.

(** ** Reservations and the connection that holds them ([reservation_auth.rs]) *)
Definition conn_holds_reservation (reservations : list (string * string))
    (game_code token : string) : bool :=
  existsb (λ '(code, held), String.eqb code game_code && String.eqb held token) reservations.
(** [reservations.retain(|(code, t)| code != game_code || t != token)] *)
Definition forget_reservation (game_code token : string)
    (reservations : list (string * string)) : list (string * string) :=
  filter (λ ct, ct ≠ (game_code, token)) reservations.

Inductive ReservationRelease := RReleased | RNotHeld | RNotFound.
Definition release_owned_reservation (game_code token : string) (l : LobbyManager)
    (reservations : list (string * string)) :
    ReservationRelease * LobbyManager * list (string * string) :=
  if negb (conn_holds_reservation reservations game_code token)
  then (RNotHeld, l, reservations)
  else match release_reservation game_code token l with
  | (true, l) => (RReleased, l, forget_reservation game_code token reservations)
  | (false, l) => (RNotFound, l, reservations)
  end.

Inductive ReservationConsume := CConsumed | CNotHeld | CNotFound.
Definition consume_owned_reservation (game_code token : string) (l : LobbyManager)
    (reservations : list (string * string)) :
    ReservationConsume * LobbyManager * list (string * string) :=
  if negb (conn_holds_reservation reservations game_code token)
  then (CNotHeld, l, reservations)
  else match consume_reservation game_code token l with
  | (true, l) => (CConsumed, l, forget_reservation game_code token reservations)
  | (false, l) => (CNotFound, l, reservations)
  end.
