(* ===== verification/BrokerTypes.v ===== *)
(** * What the broker keeps and says

    Of [lobby-broker/src/protocol.rs] the token-free views of a tournament and the
    server's frames; of [broker.rs] the state of a connection, the ordered effects a
    shell performs, and which subscriber may see which row.  An error's prose is a
    constructor of [ErrorText]. *)
From Stdlib Require Import String Floats.SpecFloat.
From S2P Require Import Prelude.
From S2P Require Import Seats.
From S2P Require Import Credentials.
From S2P Require Import TournamentTypes.
From S2P Require Import SwissPairing.
From S2P Require Import Standings.
From S2P Require Import Tournament.
From S2P Require Import LobbyWire.
From S2P Require Import Validation.
From S2P Require Import Lobby.
Local Open Scope N_scope.

(** ** Views of a tournament *)
Record PlayerSummary := { v_player_key : string; v_display_name : string; v_dropped : bool }.
Record PairingView := {
  v_id : PairingId;
  v_round : N;
  v_players : list PlayerSummary;
  v_outcome : option PairingOutcome;
  v_report_gate : ReportGate;
}.
Record TournamentSummary := {
  s_code : string;
  s_name : string;
  s_arity : MatchArity;
  s_bracket : BracketShape;
  s_status : TournamentStatus;
  s_player_count : N;
  s_current_round : N;
  s_total_rounds : N;
  s_created_at : N;
  s_scoring : ScoringPolicy;
  s_open_actions : list TournamentAction;
  s_format : option GameFormat;
  s_match_type : MatchType;
}.
Record TournamentView := {
  v_summary : TournamentSummary;
  v_entrants : list PlayerSummary;
  v_pairings : list PairingView;
  v_standings : list TournamentStanding;
}.

Definition player_summary (p : TournamentPlayer) : PlayerSummary :=
  {| v_player_key := player_key p; v_display_name := display_name p;
     v_dropped := dropped p |}.
Definition tournament_summary (m : TournamentMeta) : TournamentSummary :=
  {| s_code := code m; s_name := name m; s_arity := arity m; s_bracket := bracket m;
     s_status := status m; s_player_count := active_player_count m;
     s_current_round := current_round m; s_total_rounds := total_rounds m;
     s_created_at := created_at m; s_scoring := scoring m;
     s_open_actions := open_actions m; s_format := event_format m;
     s_match_type := match_type m |}.
(** A seat naming no entrant renders its bare key. *)
Definition seat_summary (m : TournamentMeta) (key : string) : PlayerSummary :=
  match find_player m key with
  | Some p => player_summary p
  | None => {| v_player_key := key; v_display_name := key; v_dropped := false |}
  end.
Definition pairing_view (m : TournamentMeta) (p : TournamentPairing) : PairingView :=
  {| v_id := id p; v_round := round p; v_players := seat_summary m <$> pairing_players p;
     v_outcome := pairing_outcome p; v_report_gate := report_gate m p |}.
(** Computing the standings is the part that could panic. *)
Definition tournament_view_of (m : TournamentMeta) : outcome TError TournamentView :=
  rows ← standings m;
  mret {| v_summary := tournament_summary m; v_entrants := player_summary <$> players m;
          v_pairings := pairing_view m <$> pairings m; v_standings := rows |}.

(** ** Errors *)
Inductive ServerErrorCode := DeckRejectedCode | GameNotFoundCode | CodeInUseCode.
Inductive ErrorText :=
  | HostPeerIdRequired
  | HelloRequired
  | LobbyFull
  | GameCodeInUse (game_code : string)
  | AlreadyHosting
  | BuildMismatch (host guest : string)
  | GameNotFound (game_code : string)
  | LobbyRefused (e : LobbyError)
  | FullModeGame (game_code : string)
  | NotOwnedReservation
  | ReservationGone
  | GameFull (game_code : string)
  | AlreadyReserved
  | NotHostUpdate
  | NotHostUnregister
  | TournamentsFull
  | CreatedUnreadable
  | JoinedUnreadable
  | TournamentMissing (code : string)
  | OrganizerExpired (code : string)
  | OrganizerInvalid (code : string)
  | PlayerExpired (code : string)
  | PlayerInvalid (code : string)
  | PlayerGone (code : string)
  | NotSeatedHere (reporter : string) (pid : PairingId)
  | PairingMissing (pid : PairingId) (code : string)
  | TournamentRefused (e : TError)
  | FrameRefused (e : FieldError).

(** ** What the server sends *)
Inductive ServerMode := FullMode | LobbyOnly.

Module Server.
Inductive Message :=
  | ServerHello (server_version build_commit : string) (protocol_version : N)
      (mode : ServerMode) (lobby_protocol_version : option N)
  | GameCreated (game_code player_token : string)
  | Error (message : ErrorText) (code : option ServerErrorCode)
  | LobbyUpdate (games : list LobbyGame)
  | LobbyGameAdded (game : LobbyGame)
  | LobbyGameUpdated (game : LobbyGame)
  | LobbyGameRemoved (game_code : string)
  | PlayerCount (count : N)
  | PasswordRequired (game_code : string)
  | JoinTarget (game_code : string) (is_p2p : bool) (format_config : option FormatSettings)
      (match_config : MatchConfig) (player_count filled_seats : N)
      (reservation_token : option string) (reservation_expires_at_ms : option N)
      (draft_metadata : option DraftLobbyMetadata)
  | Pong (timestamp : N)
  | PeerInfo (game_code host_peer_id : string) (format_config : option FormatSettings)
      (match_config : MatchConfig) (player_count filled_seats : N)
      (reservation_token : option string)
  | TournamentCreated (code organizer_token : string) (expires_at_ms : N)
      (view : TournamentView)
  | TournamentJoined (code player_token : string) (expires_at_ms : N) (view : TournamentView)
  | TournamentUpdate (code : string) (view : TournamentView)
  | TournamentRemoved (code : string)
  | TournamentListUpdate (tournaments : list TournamentSummary)
  | TournamentActionAck (request_id : TournamentRequestId) (code : string)
      (view : TournamentView)
  | TournamentActionRejected (request_id : TournamentRequestId) (message : ErrorText)
  | TournamentCredentialRenewed (code : string) (role : TournamentRole) (token : string)
      (expires_at_ms : N).
End Server.

Inductive Outbound :=
  | ToSelf (msg : Server.Message)
  | ToSubscribers (msg : Server.Message)
  | AddSubscriber
  | RemoveSubscriber
  | SendPlayerCountToSelf.

Definition error (message : ErrorText) : Outbound := ToSelf (Server.Error message None).
Definition error_with_code (code : ServerErrorCode) (message : ErrorText) : Outbound :=
  ToSelf (Server.Error message (Some code)).

(** The refusal of one gated tournament action. *)
Definition settle_rejection (request_id : option TournamentRequestId) (message : ErrorText) :
    Outbound :=
  match request_id with
  | Some request_id => ToSelf (Server.TournamentActionRejected request_id message)
  | None => error message
  end.

(** ** A connection *)
Record ClientHelloInfo := { client_version : string; build_commit : string }.
Record ConnState := {
  client_hello : option ClientHelloInfo;
  subscribed : bool;
  host_game : option LobbyRegistration;
  reservations : list (string * string);
  organized_tournaments : list string;
  joined_tournaments : list string;
}.
(** [ConnState::default()] *)
Definition conn_default : ConnState :=
  {| client_hello := None; subscribed := false; host_game := None; reservations := [];
     organized_tournaments := []; joined_tournaments := [] |}.
Definition hello_build_commit (c : ConnState) : string :=
  match client_hello c with Some h => build_commit h | None => EmptyString end.

Definition set_client_hello (h : ClientHelloInfo) (c : ConnState) : ConnState :=
  {| client_hello := Some h; subscribed := subscribed c; host_game := host_game c;
     reservations := reservations c; organized_tournaments := organized_tournaments c;
     joined_tournaments := joined_tournaments c |}.
Definition set_subscribed (b : bool) (c : ConnState) : ConnState :=
  {| client_hello := client_hello c; subscribed := b; host_game := host_game c;
     reservations := reservations c; organized_tournaments := organized_tournaments c;
     joined_tournaments := joined_tournaments c |}.
Definition set_host_game (r : option LobbyRegistration) (c : ConnState) : ConnState :=
  {| client_hello := client_hello c; subscribed := subscribed c; host_game := r;
     reservations := reservations c; organized_tournaments := organized_tournaments c;
     joined_tournaments := joined_tournaments c |}.
Definition set_conn_reservations (rs : list (string * string)) (c : ConnState) : ConnState :=
  {| client_hello := client_hello c; subscribed := subscribed c; host_game := host_game c;
     reservations := rs; organized_tournaments := organized_tournaments c;
     joined_tournaments := joined_tournaments c |}.
Definition set_organized (l : list string) (c : ConnState) : ConnState :=
  {| client_hello := client_hello c; subscribed := subscribed c; host_game := host_game c;
     reservations := reservations c; organized_tournaments := l;
     joined_tournaments := joined_tournaments c |}.
Definition set_joined (l : list string) (c : ConnState) : ConnState :=
  {| client_hello := client_hello c; subscribed := subscribed c; host_game := host_game c;
     reservations := reservations c; organized_tournaments := organized_tournaments c;
     joined_tournaments := l |}.

(** ** Builds and rows *)
Inductive BuildCommitCheck := Allow | Reject (host guest : string).
Definition check_build_commit (host_commit guest_commit : string) : BuildCommitCheck :=
  if negb (is_empty guest_commit) && negb (is_empty host_commit)
     && negb (String.eqb host_commit guest_commit)
  then Reject host_commit guest_commit else Allow.
Definition lobby_row_visible_to (game : LobbyGame) (viewer : string) : bool :=
  match check_build_commit (g_host_build_commit game) viewer with
  | Allow => true
  | Reject _ _ => false
  end.

Inductive RowDelta := RowAdded | RowUpdated.
Inductive RowDelivery := Deliver | Withhold | Retract.
Definition row_delivery (delta : RowDelta) (game : LobbyGame) (viewer : string) : RowDelivery :=
  match lobby_row_visible_to game viewer, delta with
  | true, _ => Deliver
  | false, RowAdded => Withhold
  | false, RowUpdated => Retract
  end.
Definition lobby_frame_for_viewer (msg : Server.Message) (viewer : string) :
    option Server.Message :=
  let deliver delta game :=
    match row_delivery delta game viewer with
    | Deliver => Some msg
    | Withhold => None
    | Retract => Some (Server.LobbyGameRemoved (g_game_code game))
    end in
  match msg with
  | Server.LobbyGameAdded game => deliver RowAdded game
  | Server.LobbyGameUpdated game => deliver RowUpdated game
  | Server.ServerHello _ _ _ _ _ | Server.GameCreated _ _ | Server.Error _ _
  | Server.LobbyUpdate _ | Server.LobbyGameRemoved _ | Server.PlayerCount _
  | Server.PasswordRequired _ | Server.JoinTarget _ _ _ _ _ _ _ _ _ | Server.Pong _
  | Server.PeerInfo _ _ _ _ _ _ _ | Server.TournamentCreated _ _ _ _
  | Server.TournamentJoined _ _ _ _ | Server.TournamentUpdate _ _
  | Server.TournamentRemoved _ | Server.TournamentListUpdate _
  | Server.TournamentActionAck _ _ _ | Server.TournamentActionRejected _ _
  | Server.TournamentCredentialRenewed _ _ _ _ => Some msg
  end.
