(* ===== verification/Broker.v ===== *)
(** * The broker: one frame in, ordered effects out

    [Broker] of [lobby-broker/src/broker.rs], every handler.  The lobby handlers cannot
    fail and are functions of the broker, the connection and the environment; the
    tournament handlers are programs of the error monad over the broker and the
    environment, whose errors are the refusals.  Effects are listed in the order the
    shell must perform them. *)
From Stdlib Require Import Ascii String.
From S2P Require Import Prelude.
From S2P Require Import Text.
From S2P Require Import Seats.
From S2P Require Import Credentials.
From S2P Require Import TournamentTypes.
From S2P Require Import Tournament.
From S2P Require Import LobbyWire.
From S2P Require Import Validation.
From S2P Require Import Lobby.
From S2P Require Import BrokerTypes.
Local Open Scope N_scope.

Definition MAX_LOBBY_ENTRIES : nat := 200.
Definition MAX_TOURNAMENT_ENTRIES : nat := 200.
Definition MAX_CONN_TOURNAMENT_ENTRIES : nat := 50.

Record Broker := { lobby : LobbyManager; registry : TournamentManager }.
Definition broker_new : Broker := {| lobby := lobby_new; registry := ∅ |}.
Definition with_lobby (l : LobbyManager) (b : Broker) : Broker :=
  {| lobby := l; registry := registry b |}.
Definition with_registry (ts : TournamentManager) (b : Broker) : Broker :=
  {| lobby := lobby b; registry := ts |}.
Definition broker_is_empty (b : Broker) : bool :=
  lobby_is_empty (lobby b) && bool_decide (registry b = ∅).

(** ** Lists of tournaments *)
Definition code_le (x y : TournamentSummary) : Prop :=
  String.compare (s_code x) (s_code y) ≠ Gt.
#[export] Instance code_le_dec : RelDecision code_le.
Proof. intros x y. unfold code_le. apply _. Defined.
Definition tournament_summaries (b : Broker) : list TournamentSummary :=
  merge_sort code_le (tournament_summary ∘ snd <$> map_to_list (registry b)).
Definition tournament_list_update (b : Broker) : Outbound :=
  ToSubscribers (Server.TournamentListUpdate (tournament_summaries b)).
Definition tournament_view (b : Broker) (tcode : string) : outcome TError (option TournamentView) :=
  match registry b !! tcode with
  | Some m => Some <$> tournament_view_of m
  | None => Ok None
  end.

(** ** Gated actions *)
Inductive ListRowEffect := RowChanged | RowUnchanged.
Record GatedEffect := { ge_code : string; ge_view : TournamentView; ge_list_row : ListRowEffect }.

Definition settle_gated (b : Broker) (request_id : option TournamentRequestId)
    (effect : ErrorText + GatedEffect) : list Outbound :=
  match effect with
  | inl reason => [settle_rejection request_id reason]
  | inr effect =>
      match request_id with
      | Some request_id =>
          [ToSelf (Server.TournamentActionAck request_id (ge_code effect) (ge_view effect))]
      | None => []
      end
      ++ [ToSubscribers (Server.TournamentUpdate (ge_code effect) (ge_view effect))]
      ++ match ge_list_row effect with
         | RowChanged => [tournament_list_update b]
         | RowUnchanged => []
         end
  end.

(** [while list.len() >= MAX { list.remove(0) }], then [push]. *)
Definition push_conn_tournament (entries : list string) (entry : string) : list string :=
  drop (length entries - (MAX_CONN_TOURNAMENT_ENTRIES - 1)) entries ++ [entry].

(** ** Rows a change announces *)
Definition announce_update (l : LobbyManager) (game_code : string) : list Outbound :=
  match public_game l game_code with
  | Some game => [ToSubscribers (Server.LobbyGameUpdated game)]
  | None => []
  end.
Definition announce_added (l : LobbyManager) (game_code : string) : list Outbound :=
  match public_game l game_code with
  | Some game => [ToSubscribers (Server.LobbyGameAdded game)]
  | None => []
  end.

Definition heartbeat_reply (timestamp : N) : Server.Message := Server.Pong timestamp.
Definition stateless_reply (conn : ConnState) (msg : Client.Message) : option Server.Message :=
  match msg with
  | Client.Ping timestamp =>
      if decide (host_game conn = None) then Some (heartbeat_reply timestamp) else None
  | _ => None
  end.

(** The trimmed text of a field, [None] when absent or blank. *)
Definition trimmed (value : option string) : option string :=
  value ← value;
  let t := trim (of_string value) in
  if decide (t = []) then None else Some (string_of_list_ascii t).

Definition hosts_current (b : Broker) (conn : ConnState) (game_code : string) : bool :=
  match host_game conn with
  | Some r => String.eqb (reg_game_code r) game_code && is_current (lobby b) r
  | None => false
  end.

(** The gates a join and a lookup share: not one's own game, the same build, a listing
    there, its password. *)
Definition join_gates (b : Broker) (conn : ConnState) (game_code : string)
    (password : option string) : list Outbound + JoinTargetInfo :=
  if hosts_current b conn game_code then inl [error AlreadyHosting]
  else
    let guest_commit := hello_build_commit conn in
    let host_commit := default EmptyString (host_build_commit (lobby b) game_code) in
    match check_build_commit host_commit guest_commit with
    | Reject host guest => inl [error (BuildMismatch host guest)]
    | Allow =>
        match join_target_info (lobby b) game_code with
        | None => inl [error_with_code GameNotFoundCode (GameNotFound game_code)]
        | Some info =>
            match verify_password (lobby b) game_code password with
            | inr _ => inr info
            | inl PasswordNeeded => inl [ToSelf (Server.PasswordRequired game_code)]
            | inl e => inl [error (LobbyRefused e)]
            end
        end
    end.

Definition handle_join (b : Broker) (conn : ConnState) (game_code : string)
    (password reservation_token : option string) : list Outbound * (Broker * ConnState) :=
  match join_gates b conn game_code password with
  | inl out => (out, (b, conn))
  | inr info =>
      if negb (j_is_p2p info) then ([error (FullModeGame game_code)], (b, conn))
      else
        let consumed :=
          match reservation_token with
          | Some token =>
              let '(r, l, rs) :=
                consume_owned_reservation game_code token (lobby b) (reservations conn) in
              (Some r, with_lobby l b, set_conn_reservations rs conn)
          | None => (None, b, conn)
          end in
        let '(r, b, conn) := consumed in
        match r with
        | Some CNotHeld => ([error NotOwnedReservation], (b, conn))
        | Some CNotFound => ([error ReservationGone], (b, conn))
        | _ =>
            let consumed_token := match r with Some _ => reservation_token | None => None end in
            if (0 <? j_max_players info) && (j_max_players info <=? j_current_players info)
               && bool_decide (consumed_token = None)
            then ([error (GameFull game_code)], (b, conn))
            else
              ([ToSelf (Server.PeerInfo game_code (j_host_peer_id info) (j_format_config info)
                  (j_match_config info) (wrap 8 (j_max_players info))
                  (wrap 8 (j_current_players info)) consumed_token)], (b, conn))
        end
  end.

(** [conn.host_game.take_if(|r| r.game_code() == game_code)] *)
Definition take_host_game_if (conn : ConnState) (game_code : string) :
    option (LobbyRegistration * ConnState) :=
  r ← host_game conn;
  if String.eqb (reg_game_code r) game_code then Some (r, set_host_game None conn) else None.

Definition announce_removed (gone : bool) (game_code : string) : list Outbound :=
  if gone then [ToSubscribers (Server.LobbyGameRemoved game_code)] else [].

Definition handle_unregister (b : Broker) (conn : ConnState) (game_code : string) :
    list Outbound * (Broker * ConnState) :=
  match take_host_game_if conn game_code with
  | None => ([error NotHostUnregister], (b, conn))
  | Some (registration, conn) =>
      let '(gone, l) := unregister_registration registration (lobby b) in
      (announce_removed gone game_code, (with_lobby l b, conn))
  end.

(** Taking down the registration a connection holds, if it holds one. *)
Definition drop_host_game (b : Broker) (conn : ConnState) :
    list Outbound * (Broker * ConnState) :=
  match host_game conn with
  | None => ([], (b, conn))
  | Some registration =>
      let '(gone, l) := unregister_registration registration (lobby b) in
      (announce_removed gone (reg_game_code registration),
       (with_lobby l b, set_host_game None conn))
  end.

Definition on_disconnect (b : Broker) (conn : ConnState) :
    list Outbound * (Broker * ConnState) :=
  let '(changed, l) := release_reservations (reservations conn) (lobby b) in
  let out :=
    if changed then mjoin (announce_update l ∘ fst <$> reservations conn) else [] in
  let '(out', (b, conn)) :=
    drop_host_game (with_lobby l b) (set_conn_reservations [] conn) in
  let out'' := if subscribed conn then [RemoveSubscriber] else [] in
  (out ++ out' ++ out'', (b, set_subscribed false conn)).

Section env.
Context {World : Type} `{!BrokerEnv World}.

Definition host_liveness_refresh_due (b : Broker) (conn : ConnState) (env : World) :
    bool * World :=
  match host_game conn with
  | Some r => liveness_refresh_due r (lobby b) env
  | None => (false, env)
  end.

(** ** Lobby handlers *)
Definition handle_create_game (b : Broker) (conn : ConnState) (s : CreateGameSettings)
    (env : World) : list Outbound * (Broker * ConnState * World) :=
  match trimmed (c_host_peer_id s), client_hello conn with
  | None, _ => ([error HostPeerIdRequired], (b, conn, env))
  | Some _, None => ([error HelloRequired], (b, conn, env))
  | Some peer_id, Some hello =>
      let '(out, (b, conn)) := drop_host_game b conn in
      if (MAX_LOBBY_ENTRIES <=? lobby_len (lobby b))%nat
      then (out ++ [error LobbyFull], (b, conn, env))
      else
        let claimed :=
          match c_requested_code s with
          | Some code => if has_game (lobby b) code then inl code else inr (code, env)
          | None => inr (new_game_code env)
          end in
        match claimed with
        | inl code => (out ++ [error_with_code CodeInUseCode (GameCodeInUse code)], (b, conn, env))
        | inr (game_code, env) =>
            let '(player_token, env) := new_token env in
            let pc := clamp (c_player_count s) 2 6 in
            let '(registration, l, env) := register_game game_code
              {| r_host_name := c_display_name s; r_public := c_public s;
                 r_password := c_password s; r_timer_seconds := c_timer_seconds s;
                 r_host_version := client_version hello;
                 r_host_build_commit := build_commit hello;
                 r_current_players := 1; r_max_players := pc;
                 r_format_config := c_format_config s;
                 r_match_config := c_match_config s;
                 r_room_name := trimmed (c_room_name s); r_host_peer_id := peer_id;
                 r_draft_metadata := c_draft_metadata s; r_ranked := c_ranked s |}
              (lobby b) env in
            (out ++ [ToSelf (Server.GameCreated game_code player_token)]
                 ++ (if c_public s then announce_added l game_code else []),
             (with_lobby l b, set_host_game (Some registration) conn, env))
        end
  end.

(** [conn.reservations.retain(..)] of [handle_lookup]: drops this game's lapsed entries
    and tells whether one is still active. *)
Fixpoint retain_active (game_code : string) (rs : list (string * string)) (l : LobbyManager)
    (env : World) : list (string * string) * bool * LobbyManager * World :=
  match rs with
  | [] => ([], false, l, env)
  | (code, token) :: rs =>
      if negb (String.eqb code game_code) then
        let '(kept, any, l, env) := retain_active game_code rs l env in
        ((code, token) :: kept, any, l, env)
      else
        let '(act, l, env) := has_active_reservation code token l env in
        let '(kept, any, l, env) := retain_active game_code rs l env in
        (if act then (code, token) :: kept else kept, act || any, l, env)
  end.

(** The answer of a lookup, from the information gathered. *)
Definition join_target_reply (game_code : string) (info : JoinTargetInfo) (counted : bool)
    (reservation_token : option string) (expires_at_ms : option N) : Outbound :=
  let extra :=
    if bool_decide (is_Some reservation_token) && negb counted then 1 else 0 in
  ToSelf (Server.JoinTarget game_code (j_is_p2p info) (j_format_config info)
    (j_match_config info) (wrap 8 (j_max_players info))
    (wrap 8 (N.min (u32_add (j_current_players info) extra) (j_max_players info)))
    reservation_token expires_at_ms (j_draft_metadata info)).

(** The optional reservation of a lookup: [info] was read before. *)
Definition lookup_reserve (b : Broker) (conn : ConnState) (game_code : string)
    (display_name : option string) (info : JoinTargetInfo) (env : World) :
    list Outbound * (Broker * ConnState * World) :=
  let '(kept, any, l, env) := retain_active game_code (reservations conn) (lobby b) env in
  let conn := set_conn_reservations kept conn in
  if any then ([error AlreadyReserved], (with_lobby l b, conn, env))
  else
    let '(r, l, env) := reserve_seat game_code (default "Player"%string display_name) l env in
    match r with
    | inl e => ([error (LobbyRefused e)], (with_lobby l b, conn, env))
    | inr reservation =>
        let token := res_token reservation in
        let conn := set_conn_reservations (reservations conn ++ [(game_code, token)]) conn in
        let '(info, counted) :=
          match join_target_info l game_code with
          | Some latest => (latest, true)
          | None => (info, false)
          end in
        (announce_update l game_code
           ++ [join_target_reply game_code info counted (Some token)
                 (res_expires_at_ms reservation)],
         (with_lobby l b, conn, env))
    end.

Definition handle_lookup (b : Broker) (conn : ConnState) (game_code : string)
    (password : option string) (reserve : bool)
    (display_name release_reservation_token : option string) (env : World) :
    list Outbound * (Broker * ConnState * World) :=
  match join_gates b conn game_code password with
  | inl out => (out, (b, conn, env))
  | inr info =>
      let '(released, b, conn) :=
        match release_reservation_token with
        | Some token =>
            let '(r, l, rs) :=
              release_owned_reservation game_code token (lobby b) (reservations conn) in
            (Some r, with_lobby l b, set_conn_reservations rs conn)
        | None => (None, b, conn)
        end in
      match released with
      | Some RNotHeld => ([error NotOwnedReservation], (b, conn, env))
      | _ =>
          let out :=
            match released with
            | Some RReleased => announce_update (lobby b) game_code
            | _ => []
            end in
          if reserve then
            let '(out', st) := lookup_reserve b conn game_code display_name info env in
            (out ++ out', st)
          else if (0 <? j_max_players info) && (j_max_players info <=? j_current_players info)
          then (out ++ [error (GameFull game_code)], (b, conn, env))
          else (out ++ [join_target_reply game_code info false None None], (b, conn, env))
      end
  end.

(** [for token in tokens { consumed |= consume(token) }] *)
Fixpoint consume_all (game_code : string) (tokens : list string) (l : LobbyManager) :
    bool * LobbyManager :=
  match tokens with
  | [] => (false, l)
  | token :: tokens =>
      let '(consumed, l) := consume_reservation game_code token l in
      let '(any, l) := consume_all game_code tokens l in
      (consumed || any, l)
  end.

Definition handle_update_metadata (b : Broker) (conn : ConnState) (game_code : string)
    (current_players max_players : N) (consumed_reservation_tokens : list string)
    (env : World) : list Outbound * (Broker * ConnState * World) :=
  match host_game conn with
  | Some registration =>
      if negb (String.eqb (reg_game_code registration) game_code)
      then ([error NotHostUpdate], (b, conn, env))
      else if negb (is_current (lobby b) registration) then ([], (b, conn, env))
      else
        let '(consumed, l) := consume_all game_code consumed_reservation_tokens (lobby b) in
        let max_players := N.max max_players 1 in
        let floor :=
          if consumed then default 0 (seated_player_count l game_code) else 0 in
        let target := N.min (N.max current_players floor) max_players in
        let '(l, env) := set_current_players game_code target l env in
        let l := set_max_players game_code max_players l in
        (announce_update l game_code, (with_lobby l b, conn, env))
  | None => ([error NotHostUpdate], (b, conn, env))
  end.

Definition handle_subscribe (b : Broker) (conn : ConnState) :
    list Outbound * (Broker * ConnState) :=
  let conn := set_subscribed true conn in
  let viewer := hello_build_commit conn in
  ([AddSubscriber;
    ToSelf (Server.LobbyUpdate
      (filter (λ g, lobby_row_visible_to g viewer = true) (public_games (lobby b))));
    ToSelf (Server.TournamentListUpdate (tournament_summaries b));
    SendPlayerCountToSelf], (b, conn)).

(** ** Tournament handlers *)

(** A program over the broker and the environment whose errors are refusals. *)
Definition BM (A : Type) : Type := stM (Broker * World) ErrorText A.
Definition broker : BM Broker := λ s, (Ok s.1, s).
Definition env_now_ms : BM N := λ s,
  let '(now, env) := now_ms s.2 in (Ok now, (s.1, env)).
Definition env_game_code : BM string := λ s,
  let '(code, env) := new_game_code s.2 in (Ok code, (s.1, env)).
(** A reply of the manager, its error kept as the text of the refusal. *)
Definition refusal {A} (x : outcome TError A) : outcome ErrorText A :=
  match x with Ok a => Ok a | Err e => Err (TournamentRefused e) | Panic => Panic end.
Definition manager {A} (prog : TM (World := World) A) : BM A := λ s,
  let '(o, (ts, env)) := prog (registry s.1, s.2) in
  (refusal o, (with_registry ts s.1, env)).
(** [let Some(view) = self.tournament_view(&code) else { return Err(missing) }] *)
Definition view_or (missing : ErrorText) (tcode : string) : BM TournamentView :=
  b ← broker;
  v ← lift (refusal (tournament_view b tcode));
  lift (ok_or v missing).

Definition authorize_organizer (tcode presented : string) : BM unit :=
  b ← broker;
  m ← lift (ok_or (registry b !! tcode) (TournamentMissing tcode));
  now ← env_now_ms;
  lift match verdict (organizer_token m) presented now with
       | VAccepted => Ok tt
       | VExpired => Err (OrganizerExpired tcode)
       | VMismatch => Err (OrganizerInvalid tcode)
       end.

Definition authorize_player (tcode presented : string) : BM string :=
  b ← broker;
  m ← lift (ok_or (registry b !! tcode) (TournamentMissing tcode));
  now ← env_now_ms;
  let verdict_of p := verdict (player_token p) presented now in
  match find_first (λ p, bool_decide (verdict_of p = VAccepted)) (players m) with
  | None =>
      throw (if existsb (λ p, bool_decide (verdict_of p = VExpired)) (players m)
             then PlayerExpired tcode else PlayerInvalid tcode)
  | Some p =>
      ensure (negb (dropped p)) (PlayerGone tcode);;
      mret (player_key p)
  end.

Definition handle_create_tournament (conn : ConnState) (f : CreateTournamentFrame) :
    BM (list Outbound * ConnState) :=
  b ← broker;
  ensure (size (registry b) <? MAX_TOURNAMENT_ENTRIES)%nat TournamentsFull;;
  tcode ← env_game_code;
  scoring ← lift (refusal match ct_scoring f with
                          | Some s => Ok s
                          | None => scoring_default_for_arity (ct_arity f)
                          end);
  minted ← manager (create_tournament tcode
    {| req_name := ct_name f; req_arity := ct_arity f; req_scoring := scoring;
       req_bracket := ct_bracket f; req_total_rounds := ct_total_rounds f;
       req_plus_rounds := ct_plus_rounds f; req_format := ct_format f;
       req_match_type := ct_match_type f |});
  view ← view_or CreatedUnreadable tcode;
  b ← broker;
  mret ([ToSelf (Server.TournamentCreated tcode (minted_secret minted)
                   (minted_expires_at_ms minted) view);
         tournament_list_update b],
        set_organized (push_conn_tournament (organized_tournaments conn) tcode) conn).

Definition handle_join_tournament (conn : ConnState) (tcode key display : string) :
    BM (list Outbound * ConnState) :=
  minted ← manager (join_tournament tcode key display);
  view ← view_or JoinedUnreadable tcode;
  b ← broker;
  mret ([ToSelf (Server.TournamentJoined tcode (minted_secret minted)
                   (minted_expires_at_ms minted) view);
         ToSubscribers (Server.TournamentUpdate tcode view);
         tournament_list_update b],
        set_joined (push_conn_tournament (joined_tournaments conn) tcode) conn).

Definition handle_renew_tournament_credential (tcode : string) (role : TournamentRole)
    (token nonce : string) : BM (list Outbound) :=
  minted ← manager (renew_credential tcode role token nonce);
  mret [ToSelf (Server.TournamentCredentialRenewed tcode role (minted_secret minted)
                  (minted_expires_at_ms minted))].

Definition handle_get_tournament (tcode : string) : BM (list Outbound) :=
  view ← view_or (TournamentMissing tcode) tcode;
  mret [ToSelf (Server.TournamentUpdate tcode view)].

Definition handle_start_tournament_round (tcode token : string) : BM GatedEffect :=
  authorize_organizer tcode token;;
  manager (generate_pairings tcode);;
  view ← view_or (TournamentMissing tcode) tcode;
  mret {| ge_code := tcode; ge_view := view; ge_list_row := RowChanged |}.

Definition handle_report_match_result (tcode : string) (pid : PairingId) (token : string)
    (res : PodOutcome) : BM GatedEffect :=
  reporter ← authorize_player tcode token;
  b ← broker;
  let seated :=
    m ← registry b !! tcode; p ← find_pairing m pid;
    Some (existsb (String.eqb reporter) (pairing_players p)) in
  match seated with
  | Some true => mret tt
  | Some false => throw (NotSeatedHere reporter pid)
  | None => throw (PairingMissing pid tcode)
  end;;
  manager (report_result tcode pid res);;
  view ← view_or (TournamentMissing tcode) tcode;
  mret {| ge_code := tcode; ge_view := view; ge_list_row := RowUnchanged |}.

Definition handle_drop_from_tournament (tcode token : string) : BM GatedEffect :=
  key ← authorize_player tcode token;
  manager (drop_player tcode key);;
  view ← view_or (TournamentMissing tcode) tcode;
  mret {| ge_code := tcode; ge_view := view; ge_list_row := RowChanged |}.

Definition handle_end_tournament (tcode token : string) : BM GatedEffect :=
  authorize_organizer tcode token;;
  manager (complete_tournament tcode);;
  view ← view_or (TournamentMissing tcode) tcode;
  mret {| ge_code := tcode; ge_view := view; ge_list_row := RowChanged |}.

(** ** Dispatch

    The answer to a frame: the effects, or a panic of the code below. *)
Definition Answer : Type := option (list Outbound) * (Broker * ConnState * World).

Definition lobby_answer (r : list Outbound * (Broker * ConnState)) (env : World) : Answer :=
  let '(out, (b, conn)) := r in (Some out, (b, conn, env)).
Definition env_answer (r : list Outbound * (Broker * ConnState * World)) : Answer :=
  (Some r.1, r.2).
(** A handler of its own reply: a refusal is a plain error. *)
Definition plain (prog : BM (list Outbound * ConnState)) (b : Broker) (conn : ConnState)
    (env : World) : Answer :=
  match prog (b, env) with
  | (Ok (out, conn'), (b, env)) => (Some out, (b, conn', env))
  | (Err reason, (b, env)) => (Some [error reason], (b, conn, env))
  | (Panic, (b, env)) => (None, (b, conn, env))
  end.
Definition gated (request_id : option TournamentRequestId) (prog : BM GatedEffect)
    (b : Broker) (conn : ConnState) (env : World) : Answer :=
  match prog (b, env) with
  | (Ok effect, (b, env)) => (Some (settle_gated b request_id (inr effect)), (b, conn, env))
  | (Err reason, (b, env)) => (Some (settle_gated b request_id (inl reason)), (b, conn, env))
  | (Panic, (b, env)) => (None, (b, conn, env))
  end.

Definition dispatch (b : Broker) (conn : ConnState) (msg : Client.Message) (env : World) :
    Answer :=
  match msg with
  | Client.ClientHello client_version build_commit _ _ =>
      (Some [], (b, set_client_hello {| client_version := client_version;
                                        build_commit := build_commit |} conn, env))
  | Client.SubscribeLobby => lobby_answer (handle_subscribe b conn) env
  | Client.UnsubscribeLobby => (Some [RemoveSubscriber], (b, set_subscribed false conn, env))
  | Client.CreateGameWithSettings s => env_answer (handle_create_game b conn s env)
  | Client.JoinGameWithPassword game_code _ _ password reservation_token =>
      lobby_answer (handle_join b conn game_code password reservation_token) env
  | Client.LookupJoinTarget game_code password reserve display_name release =>
      env_answer (handle_lookup b conn game_code password reserve display_name release env)
  | Client.Ping timestamp => (Some [ToSelf (heartbeat_reply timestamp)], (b, conn, env))
  | Client.UpdateLobbyMetadata game_code current max tokens =>
      env_answer (handle_update_metadata b conn game_code current max tokens env)
  | Client.UnregisterLobby game_code => lobby_answer (handle_unregister b conn game_code) env
  | Client.CreateTournament f => plain (handle_create_tournament conn f) b conn env
  | Client.JoinTournament code key display =>
      plain (handle_join_tournament conn code key display) b conn env
  | Client.GetTournament code =>
      plain (out ← handle_get_tournament code; mret (out, conn)) b conn env
  | Client.RenewTournamentCredential code role token nonce =>
      plain (out ← handle_renew_tournament_credential code role token nonce;
             mret (out, conn)) b conn env
  | Client.StartTournamentRound code token request_id =>
      gated request_id (handle_start_tournament_round code token) b conn env
  | Client.ReportMatchResult code pid token res request_id =>
      gated request_id (handle_report_match_result code pid token res) b conn env
  | Client.DropFromTournament code token request_id =>
      gated request_id (handle_drop_from_tournament code token) b conn env
  | Client.EndTournament code token request_id =>
      gated request_id (handle_end_tournament code token) b conn env
  end.

(** The refresh of the sender's own listing, before the guard. *)
Definition refresh_host (b : Broker) (conn : ConnState) (env : World) : Broker * World :=
  match host_game conn with
  | Some registration =>
      let '(_, l, env) := refresh_liveness registration (lobby b) env in
      (with_lobby l b, env)
  | None => (b, env)
  end.

Definition handle (b : Broker) (conn : ConnState) (msg : Client.Message) (env : World) :
    Answer :=
  match stateless_reply conn msg with
  | Some reply => (Some [ToSelf reply], (b, conn, env))
  | None =>
      let '(b, env) := refresh_host b conn env in
      let request_id := Client.tournament_request_id msg in
      match guard_inbound msg with
      | Err reason => (Some [settle_rejection request_id (FrameRefused reason)], (b, conn, env))
      | Panic => (None, (b, conn, env))
      | Ok _ => dispatch b conn msg env
      end
  end.

(** ** Sweeps *)
Record ReapOutcome := {
  lobby_removed : list string;
  superseded : nat;
  tournament_outbounds : list Outbound;
}.
Definition into_outbounds (o : ReapOutcome) : list Outbound :=
  ((λ game_code, ToSubscribers (Server.LobbyGameRemoved game_code)) <$> lobby_removed o)
    ++ tournament_outbounds o.

Fixpoint consume_expired (handled : list LobbyRegistration) (l : LobbyManager) :
    list string * nat * LobbyManager :=
  match handled with
  | [] => ([], 0%nat, l)
  | expired :: handled =>
      let '(what, l) := unregister_expired expired l in
      let '(removed, superseded, l) := consume_expired handled l in
      match what with
      | Removed | AlreadyGone => (reg_game_code expired :: removed, superseded, l)
      | Superseded => (removed, S superseded, l)
      end
  end.

(** What one lifecycle event sends. *)
Definition expiry_outbound (b : Broker) (event : TournamentExpiryEvent) :
    outcome TError Outbound :=
  match event with
  | EvDeleted tcode => Ok (ToSubscribers (Server.TournamentRemoved tcode))
  | EvAbandoned tcode =>
      view ← tournament_view b tcode;
      mret (ToSubscribers match view with
                          | Some view => Server.TournamentUpdate tcode view
                          | None => Server.TournamentRemoved tcode
                          end)
  end.
Fixpoint expiry_outbounds (b : Broker) (events : list TournamentExpiryEvent) :
    outcome TError (list Outbound) :=
  match events with
  | [] => Ok []
  | event :: events =>
      out ← expiry_outbound b event;
      outs ← expiry_outbounds b events;
      mret (out :: outs)
  end.

Definition reap_expired_handled (handled : list LobbyRegistration) : BM ReapOutcome :=
  b ← broker;
  let '(removed, superseded, l) := consume_expired handled (lobby b) in
  modify (λ s, (with_lobby l s.1, s.2));;
  events ← manager check_expired;
  b ← broker;
  outs ← lift (refusal (expiry_outbounds b events));
  mret {| lobby_removed := removed; superseded := superseded;
          tournament_outbounds :=
            outs ++ if decide (events = []) then [] else [tournament_list_update b] |}.

Definition env_check_expired (timeout_secs : N) : BM (list LobbyRegistration) := λ s,
  let '(expired, env) := check_expired_lobby timeout_secs (lobby s.1) s.2 in
  (Ok expired, (s.1, env)).
Definition reap_expired (timeout_secs : N) : BM (list Outbound) :=
  expired ← env_check_expired timeout_secs;
  outcome ← reap_expired_handled expired;
  mret (into_outbounds outcome).
End env.
