(* ===== verification/BrokerTournament.v ===== *)
(** * Tournaments behind the broker

    What a frame can do to the tournament registry, composed with the life of a
    tournament ([TournamentSteps]): the handlers of [Broker] as triples over the broker
    and the environment, the authority each step needs, and the settlement of gated
    actions. *)
From Stdlib Require Import String.
From S2P Require Import Prelude.
From S2P Require Import Credentials.
From S2P Require Import TournamentTypes.
From S2P Require Import Standings.
From S2P Require Import Tournament.
From S2P Require Import TournamentSteps.
From S2P Require Import TournamentInv.
From S2P Require Import TournamentLife.
From S2P Require Import TournamentSafety.
From S2P Require Import LobbyWire.
From S2P Require Import Validation.
From S2P Require Import Lobby.
From S2P Require Import BrokerTypes.
From S2P Require Import Broker.
Local Open Scope N_scope.

(** A call of a healthy registry does not panic, whether or not its value is used. *)
Lemma quiet_call {World : Type} `{!BrokerEnv World} ts c :
  registry_wf ts → quiet ts (run_call (World := World) c).
Proof. intros Hwf env. by apply run_call_no_panic. Qed.
Lemma quiet_used {World : Type} `{!BrokerEnv World} {A} ts (prog : TM (World := World) A) :
  quiet ts (prog;; mret tt) → quiet ts prog.
Proof.
  intros Hq env. specialize (Hq env). unfold mbind, stM_bind in Hq.
  by destruct (prog (ts, env)) as [[a|e|] [ts1 env1]].
Qed.

(** ** Views exist in a healthy registry *)
Lemma view_of_wf m : meta_wf m → ∃ v, tournament_view_of m = Ok v.
Proof.
  intros Hm. unfold tournament_view_of.
  rewrite standings_rows by (by apply wf_all_nodup). by eexists.
Qed.

Section triples.
Context {World : Type} `{!BrokerEnv World}.
Implicit Types (b : Broker) (env : World).

(** From [b] in [env], the program does not panic, answers so that [Q] holds, or refuses
    with an error leaving a broker so that [E] holds. *)
Definition yields {A} (prog : BM (World := World) A) b env
    (Q : A → Broker → World → Prop) (E : ErrorText → Broker → Prop) : Prop :=
  match prog (b, env) with
  | (Ok a, (b', env')) => Q a b' env'
  | (Err e, (b', _)) => E e b'
  | (Panic, _) => False
  end.

Section rules.
Context {A B : Type} (b : Broker) (env : World).
Implicit Types (Q : A → Broker → World → Prop) (E : ErrorText → Broker → Prop).

Lemma yields_ret a Q E : Q a b env → yields (mret a) b env Q E.
Proof. done. Qed.
Lemma yields_throw e Q E : E e b → yields (throw e) b env Q E.
Proof. done. Qed.
Lemma yields_bind (m : BM (World := World) B) (f : B → BM (World := World) A) Q E :
  yields m b env (λ x b1 env1, yields (f x) b1 env1 Q E) E → yields (m ≫= f) b env Q E.
Proof.
  unfold yields, mbind, stM_bind. by destruct (m (b, env)) as [[x|e|] [b1 env1]].
Qed.
Lemma yields_lift (x : outcome ErrorText A) Q E :
  x ≠ Panic → (∀ a, x = Ok a → Q a b env) → (∀ e, x = Err e → E e b) →
  yields (lift x) b env Q E.
Proof. intros ? HQ HE. unfold yields, lift. destruct x; simpl; [by apply HQ|by apply HE|done]. Qed.
Lemma yields_mono (m : BM (World := World) A) Q Q' E E' :
  yields m b env Q E → (∀ a b' env', Q a b' env' → Q' a b' env') →
  (∀ e b', E e b' → E' e b') → yields m b env Q' E'.
Proof.
  intros Hm HQ HE. unfold yields in *.
  destruct (m (b, env)) as [[x|e|] [b1 env1]]; [by apply HQ|by apply HE|done].
Qed.
End rules.

Lemma yields_broker b env (Q : Broker → Broker → World → Prop) E :
  Q b b env → yields broker b env Q E.
Proof. done. Qed.
Lemma yields_ensure b env c e (Q : unit → Broker → World → Prop) E :
  (c = true → Q tt b env) → (c = false → E e b) → yields (ensure c e) b env Q E.
Proof. intros. unfold ensure. destruct c; [apply yields_ret|apply yields_throw]; auto. Qed.
Lemma yields_now b env (Q : N → Broker → World → Prop) E :
  Q (now_ms env).1 b (now_ms env).2 → yields env_now_ms b env Q E.
Proof. unfold yields, env_now_ms. simpl. by destruct (now_ms env). Qed.
Lemma yields_game_code b env (Q : string → Broker → World → Prop) E :
  Q (new_game_code env).1 b (new_game_code env).2 → yields env_game_code b env Q E.
Proof. unfold yields, env_game_code. simpl. by destruct (new_game_code env). Qed.

(** A call of the manager steps the registry, or is refused and changes nothing. *)
Lemma yields_manager {A} b env c (prog : TM (World := World) A)
    (Q : A → Broker → World → Prop) (E : ErrorText → Broker → Prop) :
  registry_wf (registry b) → steps_from (registry b) c prog →
  quiet (registry b) prog →
  (∀ a ts' env', registry_step (World := World) (registry b) c ts' →
     Q a (with_registry ts' b) env') →
  (∀ e, E (TournamentRefused e) b) →
  yields (manager prog) b env Q E.
Proof.
  intros Hwf Hs Hq HQ HE. unfold yields, manager. simpl. specialize (Hq env).
  destruct (prog (registry b, env)) as [[a|e|] [ts' env']] eqn:Hrun; simpl.
  - apply HQ. by apply (Hs env (Ok a) ts' env').
  - rewrite (Hs env (Err e) ts' env' Hrun). destruct b. apply HE.
  - by destruct Hq.
Qed.

Lemma yields_view b env missing t m (Q : TournamentView → Broker → World → Prop) E :
  registry_wf (registry b) → registry b !! t = Some m →
  (∀ v, tournament_view_of m = Ok v → Q v b env) →
  yields (view_or missing t) b env Q E.
Proof.
  intros Hwf Hm HQ. destruct (view_of_wf m (Hwf _ _ Hm)) as [v Hv].
  apply yields_bind, yields_broker. unfold tournament_view. rewrite Hm, Hv. simpl.
  apply yields_bind. apply (yields_lift _ _ (Ok (Some v))); [done| |done].
  intros ? [= <-]. apply (yields_lift _ _ (Ok v)); [done| |done]. intros ? [= <-]. auto.
Qed.

(** After a step naming [t], the tournament is there. *)
Lemma stepped_lookup ts c ts' t :
  registry_step (World := World) ts c ts' → call_code c = Some t → is_Some (ts' !! t).
Proof.
  intros Hs Hc. destruct Hs as [t' req token now _ _|c t' m m' Hc' _ _|now]; simplify_eq/=;
    rewrite ?lookup_insert_eq; eauto.
Qed.
End triples.

(** ** Authority *)
Definition organizes (ts : TournamentManager) (now : N) (t token : string) : Prop :=
  ∃ m, ts !! t = Some m ∧ verdict (organizer_token m) token now = VAccepted.
Definition plays (ts : TournamentManager) (now : N) (t token key : string) : Prop :=
  ∃ m p, ts !! t = Some m ∧ p ∈ players m ∧ player_key p = key ∧ dropped p = false ∧
    verdict (player_token p) token now = VAccepted.
Definition seated_in (ts : TournamentManager) (t : string) (pid : PairingId) (key : string) :
    Prop :=
  ∃ m p, ts !! t = Some m ∧ find_pairing m pid = Some p ∧ key ∈ pairing_players p.

(** The step a frame may make of a registry, by what it carries at [now]. *)
Inductive granted (ts : TournamentManager) (now : N) : Client.Message → Call → Prop :=
  | GrantCreate f t scoring :
      (size ts < MAX_TOURNAMENT_ENTRIES)%nat →
      default scoring (ct_scoring f) = scoring →
      granted ts now (Client.CreateTournament f) (CallCreate t
        {| req_name := ct_name f; req_arity := ct_arity f; req_scoring := scoring;
           req_bracket := ct_bracket f; req_total_rounds := ct_total_rounds f;
           req_plus_rounds := ct_plus_rounds f; req_format := ct_format f;
           req_match_type := ct_match_type f |})
  | GrantJoin t key display :
      granted ts now (Client.JoinTournament t key display) (CallJoin t key display)
  | GrantRenew t role token nonce :
      granted ts now (Client.RenewTournamentCredential t role token nonce)
        (CallRenew t role token nonce)
  | GrantPair t token rid :
      organizes ts now t token →
      granted ts now (Client.StartTournamentRound t token rid) (CallPair t)
  | GrantReport t pid token res rid key :
      plays ts now t token key → seated_in ts t pid key →
      granted ts now (Client.ReportMatchResult t pid token res rid)
        (CallReport t pid res SeatedPlayer)
  | GrantDrop t token rid key :
      plays ts now t token key →
      granted ts now (Client.DropFromTournament t token rid) (CallDrop t key)
  | GrantEnd t token rid :
      organizes ts now t token →
      granted ts now (Client.EndTournament t token rid) (CallComplete t).

(** A gated effect shows the tournament it names as it now stands. *)
Definition shows (b : Broker) (t : string) (row : ListRowEffect) (e : GatedEffect) : Prop :=
  ge_code e = t ∧ ge_list_row e = row ∧
  ∃ m, registry b !! t = Some m ∧ tournament_view_of m = Ok (ge_view e).

(** [b'] is [b] after step [c] of its registry. *)
Definition steps_to {World : Type} `{!BrokerEnv World} (b : Broker) (c : Call) (b' : Broker) :
    Prop :=
  lobby b' = lobby b ∧ registry_step (World := World) (registry b) c (registry b').

Section handlers.
Context {World : Type} `{!BrokerEnv World}.
Variables (b : Broker) (env : World).
Hypothesis Hwf : registry_wf (registry b).
Implicit Types (t token : string).

Local Abbreviation now := ((now_ms env).1).
Local Abbreviation unchanged := (λ (_ : ErrorText) b', b' = b).

Lemma organizer_yields t token (Q : unit → Broker → World → Prop) :
  (∀ env', organizes (registry b) now t token → Q tt b env') →
  yields (authorize_organizer t token) b env Q unchanged.
Proof using Type.
  intros HQ. apply yields_bind, yields_broker. apply yields_bind, yields_lift.
  { by destruct (registry b !! t). }
  2: { by intros. }
  intros m Hm. destruct (registry b !! t) as [m'|] eqn:Ht; [|done]. injection Hm as ->.
  apply yields_bind, yields_now. apply yields_lift; [by destruct (verdict _ _ _)| |done].
  intros [] Hv. apply HQ. exists m. split; [done|]. by destruct (verdict _ _ _).
Qed.

Lemma player_yields t token (Q : string → Broker → World → Prop) :
  (∀ key env', plays (registry b) now t token key → Q key b env') →
  yields (authorize_player t token) b env Q unchanged.
Proof using Type.
  intros HQ. apply yields_bind, yields_broker. apply yields_bind, yields_lift.
  { by destruct (registry b !! t). }
  2: { by intros. }
  intros m Hm. destruct (registry b !! t) as [m'|] eqn:Ht; [|done]. injection Hm as ->.
  apply yields_bind, yields_now. cbv zeta.
  destruct (find_first _ _) as [p|] eqn:Hp; [|by apply yields_throw].
  apply find_first_Some in Hp as [Hin Hv]. breflect.
  apply yields_bind, yields_ensure; [|done]. intros Hd. breflect.
  apply yields_ret. apply HQ. by exists m, p.
Qed.

(** A call of the manager naming [t], and what follows. *)
Lemma manager_yields {A B} c t (prog : TM (World := World) A)
    (f : A → BM (World := World) B) env0 (Q : B → Broker → World → Prop) :
  call_wf c → call_code c = Some t →
  steps_from (registry b) c prog → quiet (registry b) prog →
  (∀ a b' env' m, steps_to (World := World) b c b' → registry_wf (registry b') →
     registry b' !! t = Some m → yields (f a) b' env' Q unchanged) →
  yields (manager prog ≫= f) b env0 Q unchanged.
Proof using Hwf.
  intros Hc Ht Hs Hq Hf. apply yields_bind. eapply yields_manager; [done..| |done].
  intros a ts' env' Hstep. destruct (stepped_lookup _ _ _ _ Hstep Ht) as [m Hm].
  eapply Hf; [done| |done]. by eapply registry_step_wf.
Qed.

Lemma effect_yields {A} c t row (prog : TM (World := World) A) env0
    (Q : GatedEffect → Broker → World → Prop) :
  call_wf c → call_code c = Some t →
  steps_from (registry b) c prog → quiet (registry b) prog →
  (∀ e b' env', steps_to (World := World) b c b' → shows b' t row e → Q e b' env') →
  yields (manager prog;; v ← view_or (TournamentMissing t) t;
          mret {| ge_code := t; ge_view := v; ge_list_row := row |}) b env0 Q unchanged.
Proof using Hwf.
  intros Hc Ht Hs Hq HQ. eapply manager_yields; [done..|].
  intros _ b' env' m Hst Hwf' Hm. apply yields_bind. eapply yields_view; [done..|].
  intros v Hv. apply yields_ret, HQ; [done|]. by split_and!; [..|exists m].
Qed.

(** ** The handlers *)
Local Abbreviation gated_yields msg prog t row :=
  (yields prog b env (λ e b' _,
     ∃ c, granted (registry b) now msg c ∧ steps_to (World := World) b c b' ∧
          shows b' t row e) unchanged).

Lemma start_round_yields t token rid :
  gated_yields (Client.StartTournamentRound t token rid)
    (handle_start_tournament_round t token) t RowChanged.
Proof using Hwf.
  apply yields_bind, organizer_yields. intros env' Ho.
  eapply (effect_yields (CallPair t));
    [done..|apply pair_steps|by apply quiet_used, (quiet_call _ (CallPair t))|].
  intros e b' env'' Hst Hsh. exists (CallPair t). by split_and!; [by constructor|..].
Qed.
Lemma end_tournament_yields t token rid :
  gated_yields (Client.EndTournament t token rid)
    (handle_end_tournament t token) t RowChanged.
Proof using Hwf.
  apply yields_bind, organizer_yields. intros env' Ho.
  eapply (effect_yields (CallComplete t));
    [done..|apply complete_steps|by apply (quiet_call _ (CallComplete t))|].
  intros e b' env'' Hst Hsh. exists (CallComplete t). by split_and!; [by constructor|..].
Qed.
Lemma drop_yields t token rid :
  gated_yields (Client.DropFromTournament t token rid)
    (handle_drop_from_tournament t token) t RowChanged.
Proof using Hwf.
  apply yields_bind, player_yields. intros key env' Hp.
  eapply (effect_yields (CallDrop t key));
    [done..|apply drop_steps|by apply (quiet_call _ (CallDrop t key))|].
  intros e b' env'' Hst Hsh. exists (CallDrop t key). by split_and!; [by econstructor|..].
Qed.
Lemma report_yields t pid token res rid :
  gated_yields (Client.ReportMatchResult t pid token res rid)
    (handle_report_match_result t pid token res) t RowUnchanged.
Proof using Hwf.
  apply yields_bind, player_yields. intros key env' Hp.
  apply yields_bind, yields_broker. cbv zeta.
  apply yields_bind.
  destruct Hp as (m&p&Hm&Hp). rewrite Hm. simpl.
  destruct (find_pairing m pid) as [q|] eqn:Hq; [|by apply yields_throw]. simpl.
  destruct (existsb _ _) eqn:Hs; [|by apply yields_throw]. apply yields_ret.
  eapply (effect_yields (CallReport t pid res SeatedPlayer));
    [done..|apply report_steps|by apply (quiet_call _ (CallReport t pid res SeatedPlayer))|].
  intros e b' env'' Hst Hsh. exists (CallReport t pid res SeatedPlayer).
  split_and!; [|done..]. apply (GrantReport _ _ _ _ _ _ _ key); [by exists m, p|].
  exists m, q. split_and!; [done..|]. by apply pairing_seats_true.
Qed.

(** The ungated ones: their own reply, and the registry stepped or not. *)
Local Abbreviation plain_yields msg prog :=
  (yields prog b env (λ _ b' _,
     lobby b' = lobby b ∧
     (registry b' = registry b ∨
      ∃ c, call_wf c ∧ granted (registry b) now msg c ∧ steps_to (World := World) b c b'))
     unchanged).

Lemma create_yields conn f :
  arity_wf (ct_arity f) → (∀ r, ct_total_rounds f = Some r → r < 2 ^ 32) →
  plain_yields (Client.CreateTournament f) (handle_create_tournament conn f).
Proof using Hwf.
  intros Ha Hr. apply yields_bind, yields_broker. apply yields_bind, yields_ensure; [|done].
  intros Hsize%Nat.ltb_lt. apply yields_bind, yields_game_code.
  apply yields_bind, yields_lift.
  { destruct (ct_scoring f); [done|]. by rewrite scoring_default_ok. }
  2: { destruct (ct_scoring f); [done|]. by rewrite scoring_default_ok. }
  intros scoring Hsc. set (t := (new_game_code env).1) in *.
  match goal with |- context [create_tournament t ?r] => set (req := r) end.
  assert (call_wf (CallCreate t req)) as Hc by done.
  eapply (manager_yields (CallCreate t req));
    [done..|apply create_steps|by apply quiet_used, (quiet_call _ (CallCreate t req))|].
  intros minted b' env' m Hst Hwf' Hm. apply yields_bind. eapply yields_view; [done..|].
  intros v Hv. apply yields_bind, yields_broker. apply yields_ret. split; [apply Hst|].
  right. exists (CallCreate t req). split_and!; [done| |done].
  apply GrantCreate; [done|]. destruct (ct_scoring f); by simplify_eq/=.
Qed.
Lemma join_yields conn t key display :
  plain_yields (Client.JoinTournament t key display)
    (handle_join_tournament conn t key display).
Proof using Hwf.
  eapply (manager_yields (CallJoin t key display));
    [done..|apply join_steps|by apply quiet_used, (quiet_call _ (CallJoin t key display))|].
  intros minted b' env' m Hst Hwf' Hm. apply yields_bind. eapply yields_view; [done..|].
  intros v Hv. apply yields_bind, yields_broker. apply yields_ret. split; [apply Hst|].
  right. exists (CallJoin t key display). by split_and!; [|constructor|].
Qed.
Lemma renew_yields t role token nonce :
  plain_yields (Client.RenewTournamentCredential t role token nonce)
    (handle_renew_tournament_credential t role token nonce).
Proof using Hwf.
  eapply (manager_yields (CallRenew t role token nonce));
    [done..|apply renew_steps
    |by apply quiet_used, (quiet_call _ (CallRenew t role token nonce))|].
  intros minted b' env' m Hst Hwf' Hm. apply yields_ret. split; [apply Hst|].
  right. exists (CallRenew t role token nonce). by split_and!; [|constructor|].
Qed.
Lemma get_yields t :
  plain_yields (Client.GetTournament t) (handle_get_tournament t).
Proof using Hwf.
  apply yields_bind.
  destruct (registry b !! t) as [m|] eqn:Hm.
  - eapply yields_view; [done..|]. intros v Hv. apply yields_ret. auto.
  - apply yields_bind, yields_broker. unfold tournament_view. rewrite Hm. done.
Qed.
End handlers.

(** ** Lobby frames leave the registry alone *)
Local Ltac walk := repeat first [progress simplify_eq/= | case_match].

Section lobby_frames.
Context {World : Type} `{!BrokerEnv World}.
Implicit Types (b : Broker) (conn : ConnState) (env : World).

Lemma refresh_registry b conn env : registry (refresh_host b conn env).1 = registry b.
Proof. unfold refresh_host. by walk. Qed.
Lemma drop_host_registry b conn : registry (drop_host_game b conn).2.1 = registry b.
Proof. unfold drop_host_game. by walk. Qed.
Lemma join_registry b conn g p t : registry (handle_join b conn g p t).2.1 = registry b.
Proof. unfold handle_join. by walk. Qed.
Lemma unregister_registry b conn g : registry (handle_unregister b conn g).2.1 = registry b.
Proof. unfold handle_unregister. by walk. Qed.
Lemma disconnect_registry b conn : registry (on_disconnect b conn).2.1 = registry b.
Proof.
  unfold on_disconnect. destruct (release_reservations _ _) as [changed l].
  pose proof (drop_host_registry (with_lobby l b) (set_conn_reservations [] conn)) as Hd.
  by destruct (drop_host_game _ _) as [out' [b' conn']].
Qed.
Lemma update_registry b conn g c m ts env :
  registry (handle_update_metadata b conn g c m ts env).2.1.1 = registry b.
Proof. unfold handle_update_metadata. by walk. Qed.
Lemma lookup_reserve_registry b conn g d info env :
  registry (lookup_reserve b conn g d info env).2.1.1 = registry b.
Proof.
  unfold lookup_reserve. destruct (retain_active _ _ _ _) as [[[kept any] l] env1].
  destruct any; [done|]. destruct (reserve_seat _ _ _ _) as [[[e|res] l'] env2]; [done|].
  by destruct (join_target_info _ _).
Qed.
Lemma lookup_registry b conn g p r d t env :
  registry (handle_lookup b conn g p r d t env).2.1.1 = registry b.
Proof.
  unfold handle_lookup. destruct (join_gates b conn g p) as [out|info]; [done|].
  destruct (match t with Some _ => _ | None => _ end) as [[rel b1] conn1] eqn:E.
  assert (registry b1 = registry b) as <- by by walk.
  pose proof (lookup_reserve_registry b1 conn1 g d info env) as Hr.
  destruct (lookup_reserve b1 conn1 g d info env) as [out' st].
  by destruct rel as [[]|], r; try done; destruct (_ && _).
Qed.
Lemma create_game_registry b conn s env :
  registry (handle_create_game b conn s env).2.1.1 = registry b.
Proof.
  unfold handle_create_game. destruct (trimmed _) as [peer|]; [|done].
  destruct (client_hello conn) as [hello|]; [|done].
  pose proof (drop_host_registry b conn) as Hd.
  destruct (drop_host_game b conn) as [out [b1 conn1]]. cbv zeta.
  destruct (_ <=? _)%nat; [done|].
  destruct (match c_requested_code s with Some _ => _ | None => _ end) as [|[code env1]]; [done|].
  destruct (new_token env1) as [token env2].
  by destruct (register_game _ _ _ _) as [[reg l] env3].
Qed.
End lobby_frames.

(** ** Frames *)

(** Values of their Rust types: a pod size is validated when it is read, a count is a
    [u32]. *)
Definition frame_wf (msg : Client.Message) : Prop :=
  match msg with
  | Client.CreateTournament f =>
      arity_wf (ct_arity f) ∧ ∀ r, ct_total_rounds f = Some r → r < 2 ^ 32
  | _ => True
  end.

(** The tournament a gated action names, and whether its row in the list may change. *)
Definition gated_action (msg : Client.Message) : option (string * ListRowEffect) :=
  match msg with
  | Client.StartTournamentRound t _ _ | Client.DropFromTournament t _ _
  | Client.EndTournament t _ _ => Some (t, RowChanged)
  | Client.ReportMatchResult t _ _ _ _ => Some (t, RowUnchanged)
  | _ => None
  end.

Section frames.
Context {World : Type} `{!BrokerEnv World}.
Implicit Types (b : Broker) (conn : ConnState) (env : World).

(** The one settlement of a gated action: done and shown, or refused and nothing done. *)
Definition settled (ts : TournamentManager) conn (rid : option TournamentRequestId)
    (t : string) (row : ListRowEffect) (a : Answer (World := World)) : Prop :=
  let b' := a.2.1.1 in
  a.2.1.2 = conn ∧
  ((∃ m view, registry b' !! t = Some m ∧ tournament_view_of m = Ok view ∧
      (∃ c, registry_step (World := World) ts c (registry b')) ∧
      a.1 = Some (match rid with
                  | Some rid => [ToSelf (Server.TournamentActionAck rid t view)]
                  | None => []
                  end
                  ++ [ToSubscribers (Server.TournamentUpdate t view)]
                  ++ match row with
                     | RowChanged => [tournament_list_update b']
                     | RowUnchanged => []
                     end)) ∨
   (registry b' = ts ∧ ∃ reason, a.1 = Some [settle_rejection rid reason])).

(** The clock a handler reads: after the refresh of the sender's own listing. *)
Definition frame_time b conn env : N := (now_ms (refresh_host b conn env).2).1.

(** What an answer did: all its effects are there, and the registry is as it was or
    made a granted step. *)
Definition answered (ts : TournamentManager) (now : N) (msg : Client.Message)
    (a : Answer (World := World)) : Prop :=
  is_Some a.1 ∧
  (registry a.2.1.1 = ts ∨
   ∃ c, call_wf c ∧ granted ts now msg c ∧
        registry_step (World := World) ts c (registry a.2.1.1)).

Lemma plain_answered b conn env now msg prog :
  yields prog b env (λ (_ : list Outbound * ConnState) b' _,
     lobby b' = lobby b ∧
     (registry b' = registry b ∨
      ∃ c, call_wf c ∧ granted (registry b) now msg c ∧ steps_to (World := World) b c b'))
    (λ _ b', b' = b) →
  answered (registry b) now msg (plain prog b conn env).
Proof.
  unfold yields, plain, answered.
  destruct (prog (b, env)) as [[[out conn']|e|] [b' env']]; simpl; [|by intros ->; eauto|done].
  intros (_&[->|(c&?&?&_&?)]); split; eauto 6.
Qed.
Lemma gated_answered b conn env now msg rid t row prog :
  yields prog b env (λ e b' _,
     ∃ c, granted (registry b) now msg c ∧ steps_to (World := World) b c b' ∧ shows b' t row e)
    (λ _ b', b' = b) →
  (∀ c, granted (registry b) now msg c → call_wf c) →
  answered (registry b) now msg (gated rid prog b conn env).
Proof.
  unfold yields, gated, answered. intros Hy Hc.
  destruct (prog (b, env)) as [[e|e|] [b' env']]; simpl in *; [|subst; eauto|done].
  destruct Hy as (c&Hg&[_ ?]&_). split; eauto 6.
Qed.

Lemma dispatch_answered b conn msg env :
  registry_wf (registry b) → frame_wf msg →
  answered (registry b) (now_ms env).1 msg (dispatch b conn msg env).
Proof.
  intros Hwf Hmsg.
  assert (∀ r e, registry r.2.1 = registry b →
    answered (registry b) (now_ms env).1 msg (lobby_answer (World := World) r e)) as Hl.
  { intros [out [b1 conn1]] e Hr. split; [by eexists|by left]. }
  assert (∀ r, registry r.2.1.1 = registry b →
    answered (registry b) (now_ms env).1 msg (env_answer (World := World) r)) as He.
  { intros [out [[b1 conn1] e]] Hr. split; [by eexists|by left]. }
  destruct msg; simpl;
    try (apply Hl); try (apply He); try (by split; [eexists|left]);
    auto using create_game_registry, join_registry, lookup_registry, update_registry,
      unregister_registry; simpl in Hmsg.
  - apply plain_answered. apply create_yields; [done|apply Hmsg..].
  - apply plain_answered. by apply join_yields.
  - apply plain_answered. apply yields_bind.
    eapply yields_mono; [by apply get_yields| |done]. intros out b' env' Hq. exact Hq.
  - eapply gated_answered; [by apply start_round_yields|]. by inversion 1.
  - eapply gated_answered; [by apply report_yields|]. by inversion 1.
  - eapply gated_answered; [by apply drop_yields|]. by inversion 1.
  - eapply gated_answered; [by apply end_tournament_yields|]. by inversion 1.
  - apply plain_answered. apply yields_bind.
    eapply yields_mono; [by apply renew_yields| |done]. intros out b' env' Hq. exact Hq.
Qed.

Lemma gated_settled b conn env now msg rid t row prog :
  yields prog b env (λ e b' _,
     ∃ c, granted (registry b) now msg c ∧ steps_to (World := World) b c b' ∧ shows b' t row e)
    (λ _ b', b' = b) →
  settled (registry b) conn rid t row (gated rid prog b conn env).
Proof.
  unfold yields, gated, settled. intros Hy.
  destruct (prog (b, env)) as [[e|e|] [b' env']]; simpl in *; [| |done]; split; [done| |done|].
  - left. destruct Hy as (c&_&[_ ?]&<-&<-&m&?&?). exists m, (ge_view e).
    split_and!; [done|done|by exists c|]. by destruct rid.
  - right. subst. split; [done|]. by exists e.
Qed.

(** The parts of [handle] before dispatch. *)
Lemma handle_cases b conn msg env :
  (gated_action msg = None ∧
   ∃ reply, handle b conn msg env = (Some [ToSelf reply], (b, conn, env))) ∨
  (∃ reason, handle b conn msg env =
     (Some [settle_rejection (Client.tournament_request_id msg) (FrameRefused reason)],
      ((refresh_host b conn env).1, conn, (refresh_host b conn env).2))) ∨
  (guard_inbound msg = Ok tt ∧ handle b conn msg env =
     dispatch (refresh_host b conn env).1 conn msg (refresh_host b conn env).2).
Proof.
  unfold handle. destruct (stateless_reply conn msg) as [reply|] eqn:Hreply.
  { left. split; [by destruct msg|by exists reply]. }
  destruct (refresh_host b conn env) as [b1 env1]. simpl. right.
  pose proof (guard_answers msg) as Hg.
  destruct (guard_inbound msg) as [[]|e|]; [by right|left; by exists e|done].
Qed.

Lemma handle_answered b conn msg env :
  registry_wf (registry b) → frame_wf msg →
  answered (registry b) (frame_time b conn env) msg (handle b conn msg env).
Proof.
  intros Hwf Hmsg. pose proof (refresh_registry b conn env) as Hr.
  destruct (handle_cases b conn msg env) as [(_&reply&->)|[(e&->)|(_&->)]].
  - by split; [eexists|left].
  - by split; [eexists|left].
  - unfold frame_time. rewrite <-Hr. apply dispatch_answered; [by rewrite Hr|done].
Qed.
End frames.

(** C9. A tournament moves only on authority.  Whatever a frame carries, whoever sends it
    and whatever the clock and the token source answer, the broker does not panic, and
    either every tournament is as it was or the registry made one step of the life of
    tournaments ([TournamentSteps]) that the frame is entitled to: a round or an end
    with the organizer's own credential, unexpired; a result with the unexpired
    credential of an entrant who has not dropped and sits in that very pairing; a drop
    of the entrant whose unexpired credential was shown and nobody else; an entry, a
    creation within the cap, a renewal.  A result is never entered with the authority
    of the server. *)
Theorem tournament_authority {World : Type} `{!BrokerEnv World} (b b' : Broker)
    (conn conn' : ConnState) (msg : Client.Message) (env env' : World) o :
  registry_wf (registry b) → frame_wf msg →
  handle b conn msg env = (o, (b', conn', env')) →
  (∃ out, o = Some out) ∧
  (registry b' = registry b ∨
   ∃ c, granted (registry b) (frame_time b conn env) msg c ∧
        registry_step (World := World) (registry b) c (registry b')).
Proof.
  intros Hwf Hmsg Heq. pose proof (handle_answered b conn msg env Hwf Hmsg) as [Ho Hs].
  rewrite Heq in Ho, Hs. destruct Ho as [out Ho]. split; [by exists out|].
  destruct Hs as [?|(c&_&?&?)]; eauto.
Qed.

(** Every gated action is settled exactly once, to its own request: a frame that
    starts a round, reports a result, drops or ends is answered either by one
    acknowledgement carrying the frame's request id (none when it sent none), then the
    updated tournament to every subscriber, then the list unless only a result moved,
    with the registry having stepped and the view being the tournament as it now
    stands; or by one refusal carrying the request id (a plain error when it sent
    none), with every tournament as it was.  The connection is not changed. *)
Theorem gated_settlement {World : Type} `{!BrokerEnv World} (b : Broker)
    (conn : ConnState) (msg : Client.Message) (env : World) t row :
  registry_wf (registry b) → gated_action msg = Some (t, row) →
  settled (registry b) conn (Client.tournament_request_id msg) t row
    (handle b conn msg env).
Proof.
  intros Hwf Hg. pose proof (refresh_registry b conn env) as Hr.
  destruct (handle_cases b conn msg env) as [(?&_)|[(e&->)|(_&->)]]; [congruence| |].
  { split; [done|]. right. split; [done|]. by exists (FrameRefused e). }
  rewrite <-Hr in Hwf |- *. destruct msg; simplify_eq/=; eapply gated_settled.
  - by apply (start_round_yields _ _ Hwf _ _ None).
  - by apply (report_yields _ _ Hwf _ _ _ _ None).
  - by apply (drop_yields _ _ Hwf _ _ None).
  - by apply (end_tournament_yields _ _ Hwf _ _ None).
Qed.

(** ** A report by a seated entrant *)
Definition sample_hall : Broker := {| lobby := lobby_new; registry := (sample_after 4).1 |}.
Definition sample_report : Client.Message :=
  Client.ReportMatchResult "T" 0 "token-1" (Decisive "a" (<["a" := 2]> {["b" := 1]})) None.
Definition sample_clock : CounterEnv := {| clock := 6000; counter := 9 |}.
Definition sample_reported := handle sample_hall conn_default sample_report sample_clock.

Lemma answer_eta {World : Type} (a : Answer (World := World)) :
  a = (a.1, (a.2.1.1, a.2.1.2, a.2.2)).
Proof. by destruct a as [? [[??]?]]. Qed.

Lemma tournament_authority_witness :
  registry sample_reported.2.1.1 ≠ registry sample_hall ∧
  ∃ c, granted (registry sample_hall) 6000 sample_report c ∧
    registry_step (World := CounterEnv) (registry sample_hall) c
      (registry sample_reported.2.1.1).
Proof.
  assert (registry sample_reported.2.1.1 ≠ registry sample_hall) as Hne.
  { intros H. apply (f_equal (λ ts, last_activity_at <$>
      (ts : TournamentManager) !! "T"%string)) in H. vm_compute in H. discriminate. }
  split; [exact Hne|].
  assert (registry_wf (registry sample_hall)) as Hwf
    by exact (reachable_wf (World := CounterEnv) _ (sample_reachable 4)).
  destruct (handle sample_hall conn_default sample_report sample_clock)
    as [o [[b' conn'] env']] eqn:E.
  assert (sample_reported = (o, (b', conn', env'))) as Hr by exact E.
  rewrite Hr in Hne |- *. cbn [fst snd] in Hne |- *.
  destruct (tournament_authority sample_hall b' conn_default conn' sample_report sample_clock env' o
    Hwf I E)
    as [_ [H|H]]; [by destruct Hne|exact H].
Defined.
Lemma gated_settlement_witness :
  ∃ o, sample_reported.1 = Some o ∧
    settled (registry sample_hall) conn_default None "T" RowUnchanged sample_reported.
Proof.
  destruct sample_reported.1 as [o|] eqn:E; [|vm_compute in E; discriminate].
  exists o. split; [reflexivity|].
  apply (gated_settlement sample_hall conn_default sample_report sample_clock "T" RowUnchanged);
    [|reflexivity].
  apply (reachable_wf (World := CounterEnv)), (sample_reachable 4).
Defined.
