(* ===== verification/BrokerLobby.v ===== *)
(** * The life of a lobby

    [lobby_step] lists what can happen to the registry of waiting games and what each
    needs: a clock that was read, a reservation that is held, a registration that is
    still the one listed.  Every lobby handler of [Broker] performs a sequence of these
    steps that its sender is entitled to. *)
From Stdlib Require Import Ascii String.
From S2P Require Import Prelude.
From S2P Require Import Text.
From S2P Require Import Seats.
From S2P Require Import Credentials.
From S2P Require Import Tournament.
From S2P Require Import LobbyWire.
From S2P Require Import Validation.
From S2P Require Import Lobby.
From S2P Require Import BrokerTypes.
From S2P Require Import Broker.
Local Open Scope N_scope.

(** ** Bounded entries *)
Record entry_bounded (e : LobbyGameMeta) : Prop := {
  eb_host_name : label_within MAX_DISPLAY_NAME_LEN (e_host_name e);
  eb_room_name : opt_within (label_within MAX_ROOM_NAME_LEN) (e_room_name e);
  eb_password : opt_within (token_within MAX_PASSWORD_LEN) (e_password e);
  eb_timer : ∀ secs, e_timer_seconds e = Some secs → secs <= MAX_TIMER_SECONDS;
  eb_version : token_within MAX_TOKEN_LEN (e_host_version e);
  eb_commit : token_within MAX_TOKEN_LEN (e_host_build_commit e);
  eb_peer : token_within MAX_TOKEN_LEN (e_host_peer_id e);
  eb_draft : ∀ d, e_draft_metadata e = Some d → draft_bounded d;
}.

(** Counts within a byte, so that no sum or cast of them is ever out of range. *)
Record entry_seats (e : LobbyGameMeta) : Prop := {
  es_max : 1 <= e_max_players e <= MAX_PLAYER_COUNT;
  es_current : e_current_players e <= e_max_players e;
  es_reserved : (size (e_reservations e) <= N.to_nat MAX_PLAYER_COUNT)%nat;
  es_present : e_host_presence e = Present;
  es_password : e_has_password e = bool_decide (is_Some (e_password e));
  es_p2p : e_host_peer_id e ≠ EmptyString;
  es_tokens : ∀ k r, e_reservations e !! k = Some r →
    res_token r = k ∧ is_Some (res_expires_at_ms r);
}.

Definition entry_wf (e : LobbyGameMeta) : Prop := entry_bounded e ∧ entry_seats e.

Record lobby_wf (l : LobbyManager) : Prop := {
  lw_entries : map_Forall (λ _, entry_wf) (games l);
  lw_size : (size (games l) <= MAX_LOBBY_ENTRIES)%nat;
  lw_old : ∀ g e, games l !! g = Some e → e_generation e < lobby_next_generation l;
  lw_distinct : ∀ g g' e e', games l !! g = Some e → games l !! g' = Some e' →
    e_generation e = e_generation e' → g = g';
}.

Lemma occupied_exact e :
  entry_seats e → occupied e = e_current_players e + N.of_nat (size (e_reservations e)).
Proof.
  intros [[_ Hm] Hc Hr _ _ _ _]. unfold occupied, reservation_count, MAX_PLAYER_COUNT in *.
  rewrite wrap_small by lia. apply wadd_small. lia.
Qed.
Lemma shown_at_most_max e : shown_players e <= e_max_players e.
Proof. unfold shown_players. lia. Qed.

(** ** The steps *)

(** What the sender of a frame may act on: the reservations it holds, the registration
    it holds, the one it is issued, the readings of the clock while it is served, and the
    code the broker mints for it. *)
Record sender := {
  may_use : string → string → Prop;
  may_host : LobbyRegistration → Prop;
  is_issued : LobbyRegistration → Prop;
  time_read : N → Prop;
  code_minted : string → Prop;
}.

Section steps.
Variable who : sender.

(** The sender hosts the listing now under [g]. *)
Definition hosts (l : LobbyManager) (g : string) : Prop :=
  ∃ r, may_host who r ∧ reg_game_code r = g ∧ is_current l r = true.

Inductive lobby_step (l : LobbyManager) : LobbyManager → Prop :=
  | StepPrune g now :
      time_read who now → lobby_step l (update_entry g (cleanup_expired_for now) l)
  | StepRelease g k :
      may_use who g k → lobby_step l (release_reservation g k l).2
  | StepConsume g k :
      may_use who g k ∨ hosts l g → lobby_step l (consume_reservation g k l).2
  | StepReserve g e r :
      games l !! g = Some e → e_max_players e = 0 ∨ occupied e < e_max_players e →
      may_use who g (res_token r) → is_Some (res_expires_at_ms r) →
      lobby_step l (update_entry g (λ e,
        set_reservations (<[res_token r := r]> (e_reservations e)) e) l)
  | StepSeats g current max :
      hosts l g → current <= max → 1 <= max <= MAX_PLAYER_COUNT →
      lobby_step l (update_entry g (set_seats current max) l)
  | StepSeen g now :
      hosts l g → time_read who now → lobby_step l (update_entry g (set_last_seen now) l)
  | StepRemove g :
      hosts l g → lobby_step l (unregister_game g l).

(** The registration of a new listing under a free code, or one the broker chose. *)
Inductive lobby_register (l : LobbyManager) : LobbyManager → Prop :=
  | Register g e :
      entry_wf e → e_reservations e = ∅ → e_generation e = lobby_next_generation l →
      is_issued who {| reg_game_code := g; reg_generation := e_generation e |} →
      (size (games l) < MAX_LOBBY_ENTRIES)%nat →
      games l !! g = None ∨ code_minted who g →
      lobby_register l {| games := <[g := e]> (games l);
                          lobby_next_generation := u64_add (lobby_next_generation l) 1 |}.

Definition lobby_steps : LobbyManager → LobbyManager → Prop := rtc lobby_step.
(** What one frame does: steps, then at most one registration. *)
Definition lobby_run (l l' : LobbyManager) : Prop :=
  ∃ l1, lobby_steps l l1 ∧ (l' = l1 ∨ lobby_register l1 l').
End steps.

(** A sender with more to act on can do as much. *)
Definition sender_le (w w' : sender) : Prop :=
  (∀ g k, may_use w g k → may_use w' g k) ∧ (∀ r, may_host w r → may_host w' r) ∧
  (∀ r, is_issued w r → is_issued w' r) ∧
  (∀ now, time_read w now → time_read w' now) ∧ (∀ g, code_minted w g → code_minted w' g).
Lemma hosts_mono w w' l g : sender_le w w' → hosts w l g → hosts w' l g.
Proof. intros (?&Hh&_) (r&?&?). exists r. auto. Qed.
Lemma lobby_step_mono w w' l l' : sender_le w w' → lobby_step w l l' → lobby_step w' l l'.
Proof.
  intros Hw Hs. pose proof Hw as (Hu&Hh&Hi&Ht&Hc). destruct Hs; try (constructor; eauto using hosts_mono; fail).
  - apply StepConsume. naive_solver eauto using hosts_mono.
  - eapply StepReserve; eauto.
Qed.
Lemma lobby_steps_mono w w' l l' : sender_le w w' → lobby_steps w l l' → lobby_steps w' l l'.
Proof. intros Hw. apply rtc_subrel. intros ??. by apply lobby_step_mono. Qed.
Lemma lobby_run_mono w w' l l' : sender_le w w' → lobby_run w l l' → lobby_run w' l l'.
Proof.
  intros Hw (l1&Hs&Hr). exists l1. split; [by eapply lobby_steps_mono|].
  destruct Hr as [|Hr]; [by left|right]. destruct Hw as (_&_&?&_&?).
  destruct Hr; constructor; naive_solver.
Qed.
Lemma lobby_run_steps w l l' : lobby_steps w l l' → lobby_run w l l'.
Proof. intros. exists l'. auto. Qed.
Lemma lobby_run_after w l l1 l' : lobby_steps w l l1 → lobby_run w l1 l' → lobby_run w l l'.
Proof. intros Hs (l2&?&?). exists l2. split; [by etrans; [apply Hs|]|done]. Qed.

(** ** Every step keeps the invariant *)
Lemma lookup_update l g f h :
  games (update_entry g f l) !! h = if decide (g = h) then f <$> games l !! h else games l !! h.
Proof.
  simpl. case_decide as Hg; [subst; by rewrite lookup_alter_eq|by rewrite lookup_alter_ne].
Qed.

Lemma update_wf l g f :
  lobby_wf l →
  (∀ e, games l !! g = Some e → entry_wf e → entry_wf (f e) ∧ e_generation (f e) = e_generation e) →
  lobby_wf (update_entry g f l).
Proof.
  intros [He Hs Ho Hd] Hf.
  assert (∀ h e', games (update_entry g f l) !! h = Some e' →
    entry_wf e' ∧ ∃ e, games l !! h = Some e ∧ e_generation e' = e_generation e) as Hl.
  { intros h e'. rewrite lookup_update. case_decide as Hg; [subst h|].
    - intros (e&Hge&->)%fmap_Some. destruct (Hf e Hge (He _ _ Hge)). eauto.
    - intros Hh. split; [by apply (He _ _ Hh)|eauto]. }
  split.
  - intros h e' Hh. by apply Hl in Hh as [? _].
  - simpl. by rewrite <-size_dom, dom_alter_L, size_dom.
  - intros h e' Hh. apply Hl in Hh as (_&e&Hh&->). by apply (Ho h).
  - intros h h' e1 e2 H1 H2 Heq. apply Hl in H1 as (_&e3&H1&E1), H2 as (_&e4&H2&E2).
    apply (Hd _ _ _ _ H1 H2). congruence.
Qed.

Lemma map_size_insert_le {A} k (x : A) (m : gmap string A) : (size (<[k := x]> m) <= S (size m))%nat.
Proof. rewrite map_size_insert. case_match; unfold id; lia. Qed.

(** Entries that differ in what a step may write. *)
Lemma bounded_reservations rs e : entry_bounded e → entry_bounded (set_reservations rs e).
Proof. intros []. by split. Qed.
Lemma bounded_seats c m e : entry_bounded e → entry_bounded (set_seats c m e).
Proof. intros []. by split. Qed.
Lemma bounded_seen now e : entry_bounded e → entry_bounded (set_last_seen now e).
Proof. intros []. by split. Qed.
#[export] Hint Resolve bounded_reservations bounded_seats bounded_seen : core.

Lemma wf_fewer rs e :
  entry_wf e → rs ⊆ e_reservations e → entry_wf (set_reservations rs e).
Proof.
  intros [Hb [????? ? Ht]] Hrs. split; [by auto|]. split; simpl; try done.
  - etrans; [|done]. by apply map_subseteq_size.
  - intros k r Hk. apply Ht. by eapply lookup_weaken.
Qed.
Lemma wf_prune now e : entry_wf e → entry_wf (cleanup_expired_for now e).
Proof. intros He. apply wf_fewer; [done|]. apply map_filter_subseteq. Qed.
Lemma wf_seats c m e :
  entry_wf e → c <= m → 1 <= m <= MAX_PLAYER_COUNT → entry_wf (set_seats c m e).
Proof. intros [Hb []] ??. split; [by auto|]. by split. Qed.
Lemma wf_seen now e : entry_wf e → entry_wf (set_last_seen now e).
Proof. intros [Hb []]. split; [by auto|]. by split. Qed.
Lemma wf_reserve r e :
  entry_wf e → e_max_players e = 0 ∨ occupied e < e_max_players e →
  is_Some (res_expires_at_ms r) →
  entry_wf (set_reservations (<[res_token r := r]> (e_reservations e)) e).
Proof.
  intros [Hb He] Hocc Hr. rewrite (occupied_exact e He) in Hocc.
  destruct He as [Hm Hc Hs ? ? ? Ht]. destruct Hocc as [|Hocc]; [lia|].
  split; [by auto|]. split; simpl; try done.
  - pose proof (map_size_insert_le (res_token r) r (e_reservations e)).
    unfold MAX_PLAYER_COUNT in *. lia.
  - intros k r'. rewrite lookup_insert_Some. intros [[<- <-]|[_ Hk]]; [done|by apply Ht].
Qed.

Lemma release_as_update g k l :
  (release_reservation g k l).2 =
  update_entry g (λ e, set_reservations (delete k (e_reservations e)) e) l.
Proof.
  unfold release_reservation. destruct (games l !! g) eqn:Hg; [done|].
  destruct l as [gs n]. unfold update_entry, with_games. simpl in *. by rewrite alter_id by (intros ?; rewrite Hg; done).
Qed.
Lemma consume_cases g k l :
  (consume_reservation g k l).2 = l ∨
  ∃ e r, games l !! g = Some e ∧ e_reservations e !! k = Some r ∧
    (consume_reservation g k l).2 = update_entry g (λ e,
      set_seats (N.min (u32_add (e_current_players e) 1) (e_max_players e)) (e_max_players e)
        (set_reservations (delete k (e_reservations e)) e)) l.
Proof.
  unfold consume_reservation. destruct (games l !! g) as [e|] eqn:Hg; [|by left].
  destruct (e_reservations e !! k) as [r|] eqn:Hk; [|by left]. right. by exists e, r.
Qed.

Lemma lobby_step_wf who l l' :
  lobby_wf l → lobby_step who l l' → lobby_wf l'.
Proof.
  intros Hl Hs. destruct Hs as [g now _|g k _|g k _|g e r Hg Hocc _ Hr|g c m _ Hc Hm
    |g now _ _|g (r&_&<-&Hcur)].
  - apply update_wf; [done|]. intros e _ He. split; [by apply wf_prune|done].
  - rewrite release_as_update. apply update_wf; [done|]. intros e _ He.
    split; [|done]. apply wf_fewer; [done|apply delete_subseteq].
  - destruct (consume_cases g k l) as [->|(e&r&_&_&->)]; [done|].
    apply update_wf; [done|]. intros e' _ He'. split; [|done].
    apply wf_seats; [apply wf_fewer; [done|apply delete_subseteq]|lia|apply He'].
  - apply update_wf; [done|]. intros e' He' Hwf. simplify_eq. split; [|done].
    by apply wf_reserve.
  - apply update_wf; [done|]. intros e _ He. split; [by apply wf_seats|done].
  - apply update_wf; [done|]. intros e _ He. split; [by apply wf_seen|done].
  - destruct Hl as [H1 H2 H3 H4]. split; simpl.
    + by apply map_Forall_delete.
    + rewrite map_size_delete. case_match; unfold id; lia.
    + intros h e [_ Hh]%lookup_delete_Some. by apply (H3 h).
    + intros h h' e e' [_ Hh]%lookup_delete_Some [_ Hh']%lookup_delete_Some. by apply H4.
Qed.
Lemma lobby_steps_wf who l l' : lobby_wf l → lobby_steps who l l' → lobby_wf l'.
Proof. intros Hl Hs. induction Hs; eauto using lobby_step_wf. Qed.
Lemma lobby_step_next who l l' :
  lobby_step who l l' → lobby_next_generation l' = lobby_next_generation l.
Proof.
  intros Hs. destruct Hs; try done.
  - by rewrite release_as_update.
  - by destruct (consume_cases g k l) as [->|(e&r&_&_&->)].
Qed.
Lemma lobby_steps_next who l l' :
  lobby_steps who l l' → lobby_next_generation l' = lobby_next_generation l.
Proof.
  intros Hs. induction Hs as [|l l1 l' Hs _ IH]; [done|].
  by rewrite IH, (lobby_step_next who l l1).
Qed.

Lemma lobby_register_wf who l l' :
  lobby_wf l → lobby_next_generation l < 2 ^ 64 - 1 → lobby_register who l l' → lobby_wf l'.
Proof.
  intros [H1 H2 H3 H4] Hgen [g e He _ Hge _ Hsize _].
  assert (u64_add (lobby_next_generation l) 1 = lobby_next_generation l + 1) as Hnext.
  { apply wadd_small. lia. }
  split; simpl; rewrite ?Hnext.
  - by apply map_Forall_insert_2.
  - pose proof (map_size_insert_le g e (games l)). lia.
  - intros h e'. rewrite lookup_insert_Some. intros [[_ <-]|[_ Hh%H3]]; lia.
  - intros h h' e1 e2. rewrite !lookup_insert_Some.
    intros [[<- <-]|[_ E1]] [[<- <-]|[_ E2]] Heq; try done.
    + apply H3 in E2. lia.
    + apply H3 in E1. lia.
    + by apply (H4 _ _ _ _ E1 E2).
Qed.
Lemma lobby_run_wf who l l' :
  lobby_wf l → lobby_next_generation l < 2 ^ 64 - 1 → lobby_run who l l' → lobby_wf l'.
Proof.
  intros Hl Hgen (l1&Hs&Hr). pose proof (lobby_steps_wf _ _ _ Hl Hs) as Hl1.
  destruct Hr as [->|Hr]; [done|]. eapply lobby_register_wf; [done| |done].
  by rewrite (lobby_steps_next _ _ _ Hs).
Qed.

(** ** The handlers perform the steps *)
Section handlers.
Context {World : Type} `{!BrokerEnv World}.
Implicit Types (b : Broker) (conn : ConnState) (env : World).

(** What the environment becomes as it is read. *)
Inductive env_read env : World → Prop :=
  | read_now : env_read env (now_ms env).2
  | read_token : env_read env (new_token env).2
  | read_code : env_read env (new_game_code env).2.
Definition env_after : World → World → Prop := rtc env_read.

(** The clock, in milliseconds or seconds, as read after [env]. *)
Definition reads_time env (now : N) : Prop :=
  ∃ env', env_after env env' ∧ ((now_ms env').1 = now ∨ (now_ms env').1 / 1000 = now).
Definition mints_code env (g : string) : Prop :=
  ∃ env', env_after env env' ∧ (new_game_code env').1 = g.

(** A connection [conn] that is [conn'] afterwards, served in [env]; [mint] tells whether
    the broker may choose a code for it. *)
Definition sender_of (mint : bool) conn conn' env : sender :=
  {| may_use g k := (g, k) ∈ reservations conn ∨ (g, k) ∈ reservations conn';
     may_host r := host_game conn = Some r;
     is_issued r := host_game conn' = Some r;
     time_read := reads_time env;
     code_minted g := mint = true ∧ mints_code env g |}.

Lemma env_after_now env : env_after env (now_ms env).2.
Proof. apply rtc_once, read_now. Qed.
Lemma env_after_token env : env_after env (new_token env).2.
Proof. apply rtc_once, read_token. Qed.
Lemma env_after_code env : env_after env (new_game_code env).2.
Proof. apply rtc_once, read_code. Qed.
Lemma reads_time_later env env' now : env_after env env' → reads_time env' now → reads_time env now.
Proof. intros ? (e&?&?). exists e. split; [by etrans|done]. Qed.
Lemma mints_code_later env env' g : env_after env env' → mints_code env' g → mints_code env g.
Proof. intros ? (e&?&?). exists e. split; [by etrans|done]. Qed.
Lemma sender_later mint conn conn' env env' :
  env_after env env' → sender_le (sender_of mint conn conn' env') (sender_of mint conn conn' env).
Proof.
  intros He. split_and!; simpl; [done..|by intros; eapply reads_time_later|].
  intros g [??]. split; [done|]. by eapply mints_code_later.
Qed.
Lemma reads_now env : reads_time env (now_ms env).1.
Proof. exists env. split; [done|by left]. Qed.
Lemma reads_secs env : reads_time env ((now_ms env).1 / 1000).
Proof. exists env. split; [done|by right]. Qed.

Lemma clock_secs_run env : clock_secs env = ((now_ms env).1 / 1000, (now_ms env).2).
Proof. unfold clock_secs. by destruct (now_ms env). Qed.

Section with_sender.
Variable who : sender.

Lemma unregister_steps r l :
  may_host who r → lobby_steps who l (unregister_registration r l).2.
Proof.
  intros Hr. unfold unregister_registration. destruct (is_current l r) eqn:Hc; [|done].
  apply rtc_once, StepRemove. by exists r.
Qed.

Lemma has_active_steps g k l env :
  (∀ now, reads_time env now → time_read who now) →
  let '(act, l', env') := has_active_reservation g k l env in
  lobby_steps who l l' ∧ env_after env env' ∧
  (∀ h, is_Some (games l' !! h) ↔ is_Some (games l !! h)).
Proof.
  intros Ht. unfold has_active_reservation.
  destruct (games l !! g) as [e|] eqn:Hg; [|done].
  pose proof (env_after_now env) as Ha. pose proof (reads_now env) as Hr.
  destruct (now_ms env) as [now env']. split_and!; [|done|].
  - apply rtc_once, StepPrune, Ht, Hr.
  - intros h. rewrite lookup_update. case_decide; [|done]. by rewrite fmap_is_Some.
Qed.

Lemma retain_steps g rs l env :
  (∀ now, reads_time env now → time_read who now) →
  let '(kept, any, l', env') := retain_active g rs l env in
  lobby_steps who l l' ∧ env_after env env' ∧ kept ⊆+ rs ∧
  (any = false → ∀ k, (g, k) ∉ kept) ∧
  (∀ h k, h ≠ g → (h, k) ∈ rs → (h, k) ∈ kept).
Proof.
  revert l env. induction rs as [|[h k] rs IH]; intros l env Ht; simpl.
  { split_and!; [done..|by intros _ k ?%elem_of_nil|done]. }
  destruct (String.eqb_spec h g) as [->|Hne]; simpl.
  - pose proof (has_active_steps g k l env Ht) as Ha.
    destruct (has_active_reservation g k l env) as [[act l1] env1].
    destruct Ha as (Hl1&He1&_). specialize (IH l1 env1 ltac:(eauto using reads_time_later)).
    destruct (retain_active g rs l1 env1) as [[[kept any] l2] env2].
    destruct IH as (Hl2&He2&Hk&Hn&Ho). split_and!; [by etrans..| | |].
    + destruct act; [by constructor|]. by apply submseteq_cons.
    + intros Ha'. destruct act; [done|]. by apply Hn.
    + intros h k' Hne [|Hin]%elem_of_cons; [by simplify_eq|].
      destruct act; [right|]; by apply Ho.
  - specialize (IH l env Ht). destruct (retain_active g rs l env) as [[[kept any] l2] env2].
    destruct IH as (Hl2&He2&Hk&Hn&Ho). split_and!; [done..|by constructor| |].
    + intros Ha k' [|Hin]%elem_of_cons; [by simplify_eq|]. by apply (Hn Ha k').
    + intros h' k' Hne' [[= -> ->]|Hin]%elem_of_cons; [by left|]. right. by apply Ho.
Qed.

Lemma reserve_steps g name l env :
  (∀ now, reads_time env now → time_read who now) →
  let '(r, l', env') := reserve_seat g name l env in
  (∀ res, r = inr res → may_use who g (res_token res)) →
  lobby_steps who l l' ∧ env_after env env'.
Proof.
  intros Ht. unfold reserve_seat.
  pose proof (env_after_now env) as Ha. pose proof (reads_now env) as Hr.
  destruct (now_ms env) as [now env1]. simpl in Ha, Hr.
  destruct (games l !! g) as [e|] eqn:Hg; [|by split].
  assert (lobby_step who l (update_entry g (cleanup_expired_for now) l)) as Hp
    by apply StepPrune, Ht, Hr.
  destruct (_ && _) eqn:Hfull; [by split; [apply rtc_once|]|].
  pose proof (env_after_token env1) as Hk. destruct (new_token env1) as [token env2].
  simpl in Hk. intros Huse. split; [|by etrans].
  eapply rtc_l; [exact Hp|]. apply rtc_once.
  set (e' := cleanup_expired_for now e) in *.
  match goal with |- context [<[token := ?r]> _] => set (res := r) in * end.
  apply (StepReserve who _ g e' res).
  - rewrite lookup_update, decide_True by done. by rewrite Hg.
  - apply andb_false_iff in Hfull as [H0%N.ltb_ge|H0%N.leb_gt]; [left; lia|by right].
  - by apply Huse.
  - by eexists.
Qed.

Lemma current_update g f l r :
  (∀ e, e_generation (f e) = e_generation e) →
  is_current (update_entry g f l) r = is_current l r.
Proof.
  intros Hf. unfold is_current. rewrite lookup_update. case_decide; [|done].
  destruct (games l !! reg_game_code r); simpl; by rewrite ?Hf.
Qed.
Lemma current_consume g h k l :
  hosts who l g → hosts who (consume_reservation h k l).2 g.
Proof.
  intros (r&?&?&Hc). exists r. split_and!; [done..|].
  destruct (consume_cases h k l) as [->|(e&res&_&_&->)]; [done|].
  by rewrite current_update.
Qed.
Lemma consume_all_steps g ks l :
  hosts who l g →
  lobby_steps who l (consume_all g ks l).2 ∧ hosts who (consume_all g ks l).2 g.
Proof.
  revert l. induction ks as [|k ks IH]; intros l Hh; simpl; [by split|].
  pose proof (StepConsume who l g k (or_intror Hh)) as Hs.
  pose proof (current_consume g g k l Hh) as Hh1.
  destruct (consume_reservation g k l) as [c l1]. simpl in *.
  specialize (IH l1 Hh1). destruct (consume_all g ks l1) as [any l2]. simpl in *.
  destruct IH. split; [|done]. by eapply rtc_l.
Qed.
Lemma release_all_steps rs l :
  (∀ g k, (g, k) ∈ rs → may_use who g k) → lobby_steps who l (release_reservations rs l).2.
Proof.
  revert l. induction rs as [|[g k] rs IH]; intros l Hu; simpl; [done|].
  pose proof (StepRelease who l g k (Hu g k ltac:(left))) as Hs.
  destruct (release_reservation g k l) as [r l1]. simpl in Hs.
  specialize (IH l1 (λ g k H, Hu g k (list_elem_of_further _ _ _ H))).
  destruct (release_reservations rs l1) as [c l2]. simpl in *. by eapply rtc_l.
Qed.
End with_sender.

Lemma update_twice g f f' l :
  update_entry g f (update_entry g f' l) = update_entry g (f ∘ f') l.
Proof. unfold update_entry, with_games. simpl. by rewrite alter_alter_eq. Qed.

Lemma holds_elem rs g k : conn_holds_reservation rs g k = true → (g, k) ∈ rs.
Proof.
  unfold conn_holds_reservation. rewrite existsb_exists.
  intros ([h k']&Hin&[->%String.eqb_eq ->%String.eqb_eq]%andb_true_iff).
  by apply list_elem_of_In.
Qed.

(** What no lobby frame but a hello changes. *)
Definition kept conn : option ClientHelloInfo * list string * list string :=
  (client_hello conn, organized_tournaments conn, joined_tournaments conn).

(** ** The handlers *)
Lemma refresh_steps mint b conn conn' env :
  lobby_steps (sender_of mint conn conn' env) (lobby b) (lobby (refresh_host b conn env).1) ∧
  env_after env (refresh_host b conn env).2.
Proof.
  unfold refresh_host. destruct (host_game conn) as [r|] eqn:Hr; [|done].
  unfold refresh_liveness, liveness_refresh_due. rewrite clock_secs_run.
  pose proof (env_after_now env) as Ha. set (env1 := (now_ms env).2) in *.
  destruct (_ && _) eqn:Hdue; simpl; [|done]. apply andb_true_iff in Hdue as [Hc _].
  rewrite clock_secs_run. simpl. split; [|by etrans; [done|apply env_after_now]].
  apply rtc_once, StepSeen; [exists r; split_and!; [done..]|].
  eapply reads_time_later; [done|apply reads_secs].
Qed.

Lemma drop_host_steps who b conn :
  (∀ r, host_game conn = Some r → may_host who r) →
  let '(out, (b', conn')) := drop_host_game b conn in
  lobby_steps who (lobby b) (lobby b') ∧ reservations conn' = reservations conn ∧
  host_game conn' = None ∧ kept conn' = kept conn.
Proof.
  intros Hr. unfold drop_host_game. destruct (host_game conn) as [r|] eqn:Hh; [|done].
  pose proof (unregister_steps who r (lobby b) (Hr r eq_refl)) as Hs.
  by destruct (unregister_registration r (lobby b)) as [gone l].
Qed.

Lemma unregister_frame_steps mint b conn g env :
  let '(out, (b', conn')) := handle_unregister b conn g in
  lobby_steps (sender_of mint conn conn' env) (lobby b) (lobby b') ∧
  reservations conn' = reservations conn ∧ kept conn' = kept conn.
Proof.
  unfold handle_unregister, take_host_game_if.
  destruct (host_game conn) as [r|] eqn:Hr; simpl; [|done].
  destruct (String.eqb _ _); [|done].
  pose proof (unregister_steps (sender_of mint conn (set_host_game None conn) env) r (lobby b)
    Hr) as Hs.
  by destruct (unregister_registration r (lobby b)) as [gone l].
Qed.

(** A connection that closes: it reads no clock and is issued nothing. *)
Definition leaver conn : sender :=
  {| may_use g k := (g, k) ∈ reservations conn; may_host r := host_game conn = Some r;
     is_issued _ := False; time_read _ := False; code_minted _ := False |}.
Lemma disconnect_steps b conn :
  let '(out, (b', conn')) := on_disconnect b conn in
  lobby_steps (leaver conn) (lobby b) (lobby b') ∧
  host_game conn' = None ∧ reservations conn' = [] ∧ subscribed conn' = false.
Proof.
  unfold on_disconnect.
  pose proof (release_all_steps (leaver conn) (reservations conn) (lobby b) (λ _ _ H, H)) as Hs.
  destruct (release_reservations _ _) as [changed l]. simpl in Hs.
  pose proof (drop_host_steps (leaver conn) (with_lobby l b) (set_conn_reservations [] conn)
    (λ _ H, H)) as Hd.
  destruct (drop_host_game _ _) as [out' [b1 conn1]]. simpl in *.
  destruct Hd as (Hl&Hr&Hh&_). split_and!; [by etrans; [apply Hs|]|done..].
Qed.

Lemma join_game_steps mint b conn g p t env :
  let '(out, (b', conn')) := handle_join b conn g p t in
  lobby_steps (sender_of mint conn conn' env) (lobby b) (lobby b') ∧
  host_game conn' = host_game conn ∧ kept conn' = kept conn.
Proof.
  unfold handle_join. destruct (join_gates b conn g p) as [|info]; [done|].
  destruct (negb _); [done|]. destruct t as [k|].
  - unfold consume_owned_reservation. destruct (conn_holds_reservation _ _ _) eqn:Hh; simpl.
    + apply holds_elem in Hh.
      assert (∀ conn', lobby_step (sender_of mint conn conn' env) (lobby b)
        (consume_reservation g k (lobby b)).2) as Hs by (intros; apply StepConsume; by do 2 left).
      destruct (consume_reservation g k (lobby b)) as [[] l]; simpl in *.
      * destruct (_ && _); (split; [by apply rtc_once|done]).
      * split; [by apply rtc_once|done].
    + done.
  - destruct (_ && _); done.
Qed.

Lemma update_frame_steps mint b conn g c m ks env :
  m <= MAX_PLAYER_COUNT →
  let '(out, (b', conn', env')) := handle_update_metadata b conn g c m ks env in
  lobby_steps (sender_of mint conn conn' env) (lobby b) (lobby b') ∧ env_after env env' ∧
  conn' = conn.
Proof.
  intros Hm. unfold handle_update_metadata. destruct (host_game conn) as [r|] eqn:Hr; [|done].
  destruct (String.eqb_spec (reg_game_code r) g) as [Hg|]; [|done]. simpl.
  destruct (is_current (lobby b) r) eqn:Hc; simpl; [|done].
  set (who := sender_of mint conn conn env).
  assert (hosts who (lobby b) g) as Hh by (exists r; split_and!; [done..]).
  destruct (consume_all_steps who g ks (lobby b) Hh) as [Hs Hh1].
  destruct (consume_all g ks (lobby b)) as [consumed l]. simpl in *.
  unfold set_current_players.
  pose proof (env_after_now env) as Ha. pose proof (reads_now env) as Ht.
  destruct (now_ms env) as [now env1]. simpl in *. split_and!; [|done..].
  etrans; [exact Hs|]. eapply rtc_l; [by apply (StepPrune who l g now)|].
  match goal with |- context [set_seats ?t] => set (target := t) end.
  assert (∀ l, set_max_players g (N.max m 1) (update_entry g (λ e,
      set_seats target (e_max_players (cleanup_expired_for now e)) (cleanup_expired_for now e)) l)
    = update_entry g (set_seats target (N.max m 1)) (update_entry g (cleanup_expired_for now) l))
    as ->.
  { intros l0. unfold set_max_players. by rewrite !update_twice. }
  apply rtc_once, StepSeats.
  - destruct Hh1 as (r'&?&?&?). exists r'. by rewrite current_update.
  - subst target. lia.
  - unfold MAX_PLAYER_COUNT in *. lia.
Qed.

Lemma lookup_reserve_steps mint b conn g d info env :
  let '(out, (b', conn', env')) := lookup_reserve b conn g d info env in
  lobby_steps (sender_of mint conn conn' env) (lobby b) (lobby b') ∧ env_after env env' ∧
  host_game conn' = host_game conn ∧ kept conn' = kept conn.
Proof.
  unfold lookup_reserve.
  pose proof (λ conn', retain_steps (sender_of mint conn conn' env) g (reservations conn)
    (lobby b) env (λ _ H, H)) as Hret.
  destruct (retain_active g (reservations conn) (lobby b) env) as [[[kept any] l] env1].
  destruct any.
  { destruct (Hret (set_conn_reservations kept conn)) as (?&?&_). by split_and!. }
  pose proof (λ conn', reserve_steps (sender_of mint conn conn' env) g
    (default "Player"%string d) l env1) as Hres.
  destruct (reserve_seat g (default "Player"%string d) l env1) as [[[e|res] l2] env2].
  - destruct (Hret (set_conn_reservations kept conn)) as (?&He1&_).
    destruct (Hres (set_conn_reservations kept conn)) as [??]; [|done|].
    { intros now. by apply reads_time_later. }
    split_and!; [by etrans|by etrans|done..].
  - set (conn2 := set_conn_reservations (kept ++ [(g, res_token res)])
      (set_conn_reservations kept conn)).
    destruct (Hret conn2) as (?&He1&_). destruct (Hres conn2) as [??].
    { intros now. by apply reads_time_later. }
    { intros ? [= <-]. right. simpl. apply elem_of_app. right. by left. }
    destruct (join_target_info l2 g); split_and!; try done; by etrans.
Qed.

Lemma lookup_steps mint b conn g p r d t env :
  let '(out, (b', conn', env')) := handle_lookup b conn g p r d t env in
  lobby_steps (sender_of mint conn conn' env) (lobby b) (lobby b') ∧ env_after env env' ∧
  host_game conn' = host_game conn ∧ kept conn' = kept conn.
Proof.
  unfold handle_lookup. destruct (join_gates b conn g p) as [|info]; [done|].
  destruct (match t with Some _ => _ | None => _ end) as [[rel b1] conn1] eqn:E.
  assert ((∀ conn', lobby_steps (sender_of mint conn conn' env) (lobby b) (lobby b1)) ∧
    (host_game conn1 = host_game conn ∧ kept conn1 = kept conn) ∧
    (∀ gk, gk ∈ reservations conn1 → gk ∈ reservations conn)) as (Hs&[Hh Hc]&Hsub).
  { destruct t as [k|]; [|by simplify_eq]. unfold release_owned_reservation in E.
    destruct (conn_holds_reservation _ _ _) eqn:Hk; simpl in E;
      [|by simplify_eq/=; split_and!].
    apply holds_elem in Hk.
    assert (∀ conn', lobby_step (sender_of mint conn conn' env) (lobby b)
      (release_reservation g k (lobby b)).2) as Hs by (intros; apply StepRelease; by left).
    destruct (release_reservation g k (lobby b)) as [[] l]; simplify_eq/=;
      split_and!; try done; intros; [by apply rtc_once| |by apply rtc_once].
    by apply list_elem_of_filter in H as [_ ?]. }
  clear E.
  assert (lobby_steps (sender_of mint conn conn1 env) (lobby b) (lobby b1) ∧
    env_after env env ∧ host_game conn1 = host_game conn ∧
    kept conn1 = kept conn) as Hstop by by split_and!.
  pose proof (lookup_reserve_steps mint b1 conn1 g d info env) as Hr.
  destruct (lookup_reserve b1 conn1 g d info env) as [out' [[b' conn'] env']].
  assert (lobby_steps (sender_of mint conn conn' env) (lobby b) (lobby b') ∧
    env_after env env' ∧ host_game conn' = host_game conn ∧
    kept conn' = kept conn) as Hgo.
  { destruct Hr as (Hl&He&Hh'&Hc'). split_and!; [|done|congruence..].
    etrans; [apply Hs|]. eapply lobby_steps_mono; [|done].
    split_and!; simpl; [|rewrite Hh|..]; naive_solver. }
  destruct rel as [[]|], r; try done; by destruct (_ && _).
Qed.

(** A connection whose hello passed the guard, its lists of tournaments short. *)
Definition hello_bounded conn : Prop :=
  ∀ h, client_hello conn = Some h →
    token_within MAX_TOKEN_LEN (client_version h) ∧ token_within MAX_TOKEN_LEN (build_commit h).
Definition lists_short conn : Prop :=
  (length (organized_tournaments conn) ≤ MAX_CONN_TOURNAMENT_ENTRIES)%nat ∧
  (length (joined_tournaments conn) ≤ MAX_CONN_TOURNAMENT_ENTRIES)%nat.
Definition conn_bounded conn : Prop := hello_bounded conn ∧ lists_short conn.

Lemma kept_bounded conn conn' :
  kept conn' = kept conn → conn_bounded conn → conn_bounded conn'.
Proof. unfold kept, conn_bounded, hello_bounded, lists_short. intros [= -> -> ->]. done. Qed.
Lemma push_short l t : (length (push_conn_tournament l t) ≤ MAX_CONN_TOURNAMENT_ENTRIES)%nat.
Proof.
  unfold push_conn_tournament, MAX_CONN_TOURNAMENT_ENTRIES. rewrite length_app, length_drop.
  simpl. lia.
Qed.

Lemma trimmed_some v t :
  trimmed v = Some t → ∃ s, v = Some s ∧ t = string_of_list_ascii (trim (of_string s)) ∧
    t ≠ EmptyString.
Proof.
  unfold trimmed. destruct v as [s|]; [|done]. simpl. case_decide as Hne; [done|].
  intros [= <-]. exists s. split_and!; [done..|]. by destruct (trim (of_string s)).
Qed.
Lemma trimmed_label max v :
  opt_within (blank_or_within max) v → opt_within (label_within max) (trimmed v).
Proof.
  intros Hv t (s&->&->&Hne)%trimmed_some.
  destruct (Hv s eq_refl) as [Hb|Hl].
  - apply bool_decide_eq_true in Hb. by rewrite Hb in Hne.
  - unfold label_within in *. etrans; [apply char_len_trim|done].
Qed.
Lemma trimmed_token max v t :
  opt_within (token_within max) v → trimmed v = Some t → token_within max t.
Proof.
  intros Hv (s&->&->&_)%trimmed_some. unfold token_within.
  etrans; [apply byte_len_trim|by apply Hv].
Qed.

Lemma register_run g req l env :
  register_game g req l env =
  (let '(now, env') := now_ms env in
   let e :=
     {| e_host_presence := Present; e_host_name := r_host_name req;
        e_created_at := now / 1000; e_last_seen := now / 1000;
        e_generation := lobby_next_generation l; e_password := r_password req;
        e_has_password := bool_decide (is_Some (r_password req));
        e_timer_seconds := r_timer_seconds req; e_public := r_public req;
        e_host_version := r_host_version req;
        e_host_build_commit := r_host_build_commit req;
        e_current_players := r_current_players req; e_max_players := r_max_players req;
        e_format_config := r_format_config req; e_match_config := r_match_config req;
        e_room_name := r_room_name req; e_host_peer_id := r_host_peer_id req;
        e_draft_metadata := r_draft_metadata req; e_ranked := r_ranked req;
        e_reservations := ∅ |} in
   ({| reg_game_code := g; reg_generation := lobby_next_generation l |},
    {| games := <[g := e]> (games l);
       lobby_next_generation := u64_add (lobby_next_generation l) 1 |}, env')).
Proof. unfold register_game, clock_secs. by destruct (now_ms env). Qed.

Lemma create_game_steps mint b conn s env :
  settings_bounded s → hello_bounded conn →
  (c_requested_code s = None → mint = true) →
  let '(out, (b', conn', env')) := handle_create_game b conn s env in
  lobby_run (sender_of mint conn conn' env) (lobby b) (lobby b') ∧ env_after env env' ∧
  kept conn' = kept conn ∧ reservations conn' = reservations conn.
Proof.
  intros Hs Hhello Hmint. unfold handle_create_game.
  destruct (trimmed (c_host_peer_id s)) as [peer|] eqn:Hpeer;
    [|by split_and!; [apply lobby_run_steps|..]].
  destruct (client_hello conn) as [hello|] eqn:Hh; [|by split_and!; [apply lobby_run_steps|..]].
  pose proof (λ who, drop_host_steps who b conn) as Hd.
  destruct (drop_host_game b conn) as [out [b1 conn1]]. cbv zeta.
  assert (∀ conn', lobby_steps (sender_of mint conn conn' env) (lobby b) (lobby b1)) as Hl.
  { intros conn'. by apply (Hd (sender_of mint conn conn' env)). }
  destruct (Hd (sender_of mint conn conn env) (λ _ H, H)) as (_&Hr&_&Hc). clear Hd.
  destruct (Nat.leb_spec MAX_LOBBY_ENTRIES (lobby_len (lobby b1))) as [|Hsize];
    [by split_and!; [apply lobby_run_steps|..]; try congruence|].
  destruct (match c_requested_code s with Some _ => _ | None => _ end) as [|[g env1]] eqn:Hg;
    [by split_and!; [apply lobby_run_steps|..]; try congruence|].
  assert (env_after env env1 ∧ (games (lobby b1) !! g = None ∨ mint = true ∧ mints_code env g))
    as [He1 Hfree].
  { destruct (c_requested_code s) as [g'|].
    - unfold has_game in Hg. case_bool_decide as Hin; [done|]. simplify_eq.
      split; [done|left]. by apply eq_None_not_Some.
    - injection Hg as Hg. split; [|right; split; [by apply Hmint|]].
      + pose proof (env_after_code env) as He. by rewrite Hg in He.
      + exists env. by rewrite Hg. }
  pose proof (env_after_token env1) as He2. destruct (new_token env1) as [token env2].
  rewrite register_run.
  pose proof (env_after_now env2) as He3. destruct (now_ms env2) as [now env3]. simpl in *.
  split_and!; [|by repeat (etrans; [done|])|exact Hc|exact Hr].
  exists (lobby b1). split; [apply Hl|right].
  match goal with |- context [<[g := ?x]> _] => set (e := x) end.
  apply (Register _ _ g e); [|done..].
  destruct Hs as [H1 H2 H3 H4 H5 H6]. destruct (Hhello hello Hh) as [H7 H8].
  split; split; simpl; try done.
  - by apply trimmed_label.
  - by eapply trimmed_token.
  - unfold clamp, MAX_PLAYER_COUNT. lia.
  - unfold clamp. lia.
  - rewrite map_size_empty. lia.
  - by apply trimmed_some in Hpeer as (?&_&_&?).
Qed.

(** ** Frames *)

(** May the broker choose a code for this frame? *)
Definition mints (msg : Client.Message) : bool :=
  match msg with
  | Client.CreateGameWithSettings s => bool_decide (c_requested_code s = None)
  | _ => false
  end.

(** Tournament programs keep the lobby, and of a connection change its lists only. *)
Definition keeps_lobby {A} (prog : BM (World := World) A) : Prop :=
  ∀ b env, lobby (prog (b, env)).2.1 = lobby b.
Lemma keeps_bind {A B} (m : BM (World := World) A) (f : A → BM (World := World) B) :
  keeps_lobby m → (∀ a, keeps_lobby (f a)) → keeps_lobby (m ≫= f).
Proof.
  intros Hm Hf b env. specialize (Hm b env). unfold mbind, stM_bind.
  destruct (m (b, env)) as [[a|e|] [b' env']]; simpl in *; try done. by rewrite Hf.
Qed.
Lemma keeps_lift {A} (x : outcome ErrorText A) : keeps_lobby (lift x).
Proof. done. Qed.
Lemma keeps_ensure c e : keeps_lobby (ensure c e).
Proof. by destruct c. Qed.
Lemma keeps_read {A} (read : World → A * World) :
  keeps_lobby (λ s, let '(a, env) := read s.2 in (Ok a, (s.1, env))).
Proof. intros b env. simpl. by destruct (read env). Qed.
Lemma keeps_manager {A} (prog : TM (World := World) A) : keeps_lobby (manager prog).
Proof.
  intros b env. unfold manager. simpl. by destruct (prog (registry b, env)) as [o [ts env']].
Qed.

Ltac keeping :=
  repeat first [apply keeps_manager | apply keeps_lift | apply keeps_ensure | done
               | apply keeps_read | apply keeps_bind; [|intros ?] | case_match].

Definition conn_same conn conn' : Prop :=
  client_hello conn' = client_hello conn ∧ host_game conn' = host_game conn ∧
  reservations conn' = reservations conn ∧ (lists_short conn → lists_short conn').

(** What every value a program returns satisfies. *)
Definition returns {A} (P : A → Prop) (prog : BM (World := World) A) : Prop :=
  ∀ s a s', prog s = (Ok a, s') → P a.
Lemma returns_bind {A B} (P : B → Prop) (m : BM (World := World) A) f :
  (∀ a, returns P (f a)) → returns P (m ≫= f).
Proof. intros Hf s b s' (a&s1&_&Ha)%stM_bind_ok. by eapply Hf. Qed.
Lemma returns_ret {A} (P : A → Prop) a : P a → returns P (mret a).
Proof. intros Ha s a' s' [= <- _]. done. Qed.

Definition lobby_same b conn (a : Answer (World := World)) : Prop :=
  lobby a.2.1.1 = lobby b ∧ conn_same conn a.2.1.2.

Lemma plain_same b conn env prog :
  keeps_lobby prog → returns (λ r, conn_same conn r.2) prog →
  lobby_same b conn (plain prog b conn env).
Proof.
  intros Hk Hr. specialize (Hk b env). unfold plain.
  destruct (prog (b, env)) as [[[out conn']|e|] [b' env']] eqn:E; split; simpl in *; try done.
  by apply (Hr _ _ _ E).
Qed.
Lemma gated_same b conn env rid prog :
  keeps_lobby prog → lobby_same b conn (gated rid prog b conn env).
Proof.
  intros Hk. specialize (Hk b env). unfold gated.
  by destruct (prog (b, env)) as [[e|e|] [b' env']].
Qed.
Lemma tournament_frames_same b conn msg env :
  match msg with
  | Client.CreateTournament _ | Client.JoinTournament _ _ _ | Client.GetTournament _
  | Client.StartTournamentRound _ _ _ | Client.ReportMatchResult _ _ _ _ _
  | Client.DropFromTournament _ _ _ | Client.EndTournament _ _ _
  | Client.RenewTournamentCredential _ _ _ _ => lobby_same b conn (dispatch b conn msg env)
  | _ => True
  end.
Proof.
  destruct msg; try done; simpl;
    (apply plain_same || apply gated_same);
    try (unfold handle_create_tournament, handle_join_tournament, handle_get_tournament,
      handle_renew_tournament_credential, handle_start_tournament_round,
      handle_report_match_result, handle_drop_from_tournament, handle_end_tournament,
      authorize_organizer, authorize_player, view_or; keeping; fail);
    repeat first [apply returns_ret; split_and!; done | apply returns_bind; intros ?];
    apply returns_ret; (split_and!; [done..|intros [??]; split; simpl; [|]; try done]);
    apply push_short.
Qed.

(** A metadata frame the guard accepts names at most eight seats. *)
Lemma guard_update g c m ks :
  guard_inbound (Client.UpdateLobbyMetadata g c m ks) = Ok tt → m <= MAX_PLAYER_COUNT.
Proof.
  simpl. unfold validate_update_lobby_metadata_fields. rewrite !check_seq, !refuse_if_ok.
  intros (_&[_ H%N.ltb_ge]%orb_false_iff&_). done.
Qed.
Lemma guard_create s :
  guard_inbound (Client.CreateGameWithSettings s) = Ok tt → settings_bounded s.
Proof.
  simpl. unfold guard_create_game_settings_inbound. rewrite !check_seq.
  intros (Hs&_). by apply settings_ok.
Qed.
Lemma guard_hello cv bc p l :
  guard_inbound (Client.ClientHello cv bc p l) = Ok tt →
  token_within MAX_TOKEN_LEN cv ∧ token_within MAX_TOKEN_LEN bc.
Proof. simpl. rewrite check_seq. intros [??]. split; by eapply token_ok. Qed.

Definition performed b conn msg env (a : Answer (World := World)) : Prop :=
  lobby_run (sender_of (mints msg) conn a.2.1.2 env) (lobby b) (lobby a.2.1.1) ∧
  conn_bounded a.2.1.2.

Lemma same_performed b conn msg env a :
  conn_bounded conn → lobby_same b conn a → performed b conn msg env a.
Proof.
  intros [Hh Hs] [Hl (Hc&_&_&Hs')]. split; [apply lobby_run_steps; by rewrite Hl|].
  split; [|by auto]. unfold hello_bounded. by rewrite Hc.
Qed.

Lemma dispatch_performed b conn msg env :
  conn_bounded conn → guard_inbound msg = Ok tt →
  performed b conn msg env (dispatch b conn msg env).
Proof.
  intros Hhello Hg. pose proof (tournament_frames_same b conn msg env) as Ht.
  destruct msg; simpl in Ht; try (by apply same_performed); clear Ht; simpl.
  - split; [by apply lobby_run_steps|]. split; [|apply Hhello].
    intros h [= <-]. by apply guard_hello in Hg.
  - pose proof (create_game_steps (mints (Client.CreateGameWithSettings settings)) b conn settings env
      (guard_create _ Hg) (proj1 Hhello)) as Hc.
    destruct (handle_create_game b conn settings env) as [out [[b' conn'] env']].
    destruct Hc as (Hs&_&Hc&_); [intros Hn; simpl; by rewrite Hn|].
    split; [done|]. by eapply kept_bounded.
  - pose proof (join_game_steps (mints Client.SubscribeLobby) b conn game_code password
      reservation_token env) as Hs.
    destruct (handle_join b conn game_code password reservation_token) as [out [b' conn']].
    destruct Hs as (Hs&_&Hc). split; [by apply lobby_run_steps|]. by eapply kept_bounded.
  - pose proof (lookup_steps (mints Client.SubscribeLobby) b conn game_code password reserve
      display_name release_reservation_token env) as Hs.
    destruct (handle_lookup b conn game_code password reserve display_name
      release_reservation_token env) as [out [[b' conn'] env']].
    destruct Hs as (Hs&_&_&Hc). split; [by apply lobby_run_steps|]. by eapply kept_bounded.
  - pose proof (update_frame_steps (mints Client.SubscribeLobby) b conn game_code
      current_players max_players consumed_reservation_tokens env (guard_update _ _ _ _ Hg)) as Hs.
    destruct (handle_update_metadata b conn game_code current_players max_players
      consumed_reservation_tokens env) as [out [[b' conn'] env']].
    destruct Hs as (Hs&_&->). split; [by apply lobby_run_steps|done].
  - pose proof (unregister_frame_steps (mints Client.SubscribeLobby) b conn game_code env) as Hs.
    destruct (handle_unregister b conn game_code) as [out [b' conn']].
    destruct Hs as (Hs&_&Hc). split; [by apply lobby_run_steps|]. by eapply kept_bounded.
Qed.

Lemma performed_later b b1 conn msg env env1 a :
  lobby_steps (sender_of (mints msg) conn a.2.1.2 env) (lobby b) (lobby b1) →
  env_after env env1 → performed b1 conn msg env1 a → performed b conn msg env a.
Proof.
  intros Hs He [Ha Hh]. split; [|done]. eapply lobby_run_after; [exact Hs|].
  eapply lobby_run_mono; [|done]. by apply sender_later.
Qed.

Lemma handle_performed b conn msg env :
  conn_bounded conn → performed b conn msg env (handle b conn msg env).
Proof.
  intros Hh. unfold handle. destruct (stateless_reply conn msg);
    [by split; [apply lobby_run_steps|]|].
  pose proof (λ conn', refresh_steps (mints msg) b conn conn' env) as Hr.
  destruct (refresh_host b conn env) as [b1 env1].
  pose proof (guard_answers msg) as Hg. cbv zeta.
  destruct (guard_inbound msg) as [[]|e|] eqn:E; [| |done].
  - eapply performed_later; [apply Hr|apply (Hr conn)|by apply dispatch_performed].
  - split; [apply lobby_run_steps, Hr|done].
Qed.
End handlers.

(** ** What a frame leaves alone *)

(** [e'] is [e] but for reservations of the sender's own or lapsed, and for seats taken by
    the sender's own reservations. *)
Record guest_change (who : sender) (g : string) (e e' : LobbyGameMeta) : Prop := {
  gc_rest : e' = set_seats (e_current_players e') (e_max_players e)
                   (set_reservations (e_reservations e') e);
  gc_tokens : ∀ k, e_reservations e' !! k = e_reservations e !! k ∨ may_use who g k ∨
    e_reservations e' !! k = None ∧
      ∃ r now, e_reservations e !! k = Some r ∧ time_read who now ∧ active now r = false;
  gc_seats : e_current_players e' = e_current_players e ∨
    e_current_players e <= e_current_players e' <= e_max_players e ∧ ∃ k, may_use who g k;
}.

Section ownership.
Variable who : sender.

Lemma guest_refl g e : guest_change who g e e.
Proof. split; [by destruct e|by left|by left]. Qed.
Lemma guest_trans g e1 e2 e3 :
  guest_change who g e1 e2 → guest_change who g e2 e3 → guest_change who g e1 e3.
Proof.
  intros [R1 T1 S1] [R2 T2 S2].
  assert (e_max_players e2 = e_max_players e1) as Hm by by rewrite R1.
  split.
  - by rewrite R2, R1.
  - intros k. destruct (T2 k) as [E2|[?|(E2&r&now&H2&?&?)]]; [|by auto|].
    + destruct (T1 k) as [E1|[?|(E1&r&now&?)]]; [left; congruence|by auto|].
      right. right. split; [congruence|by exists r, now].
    + destruct (T1 k) as [E1|[?|(E1&_)]]; [|by auto|congruence].
      right. right. split; [done|]. exists r, now. by rewrite <-E1.
  - rewrite Hm in S2. destruct S1 as [S1|[? ?]], S2 as [S2|[? ?]]; rewrite ?S1 in *;
      [left; congruence|right; by split|right; split; [lia|done]..].
Qed.

(** Steps by one who does not host [e] change it as a guest. *)
Lemma step_guest l l' g e :
  e_current_players e <= e_max_players e <= MAX_PLAYER_COUNT → games l !! g = Some e →
  (∀ r, may_host who r → reg_game_code r = g → reg_generation r ≠ e_generation e) →
  lobby_step who l l' → ∃ e', games l' !! g = Some e' ∧ guest_change who g e e'.
Proof.
  intros He Hg Hno Hs.
  assert (∀ h, hosts who l h → h ≠ g) as Hne.
  { intros h (r&Hr&Hc&Hcur) ->. apply (Hno r Hr Hc). unfold is_current in Hcur.
    rewrite Hc, Hg in Hcur. symmetry. by apply N.eqb_eq. }
  assert (∀ h f, (h = g → guest_change who g e (f e)) →
    ∃ e', games (update_entry h f l) !! g = Some e' ∧ guest_change who g e e') as Hup.
  { intros h f Hf. rewrite lookup_update. case_decide as Hh; [|eauto using guest_refl].
    rewrite Hg. simpl. eauto. }
  destruct Hs as [h now Ht|h k Hk|h k Hk|h e1 r Hh Hocc Hk Hr|h c m Hh|h now Hh|h Hh].
  - apply Hup. intros ->. split; simpl; [done| |by left].
    intros k. destruct (e_reservations e !! k) as [r|] eqn:Hk.
    + destruct (active now r) eqn:Ha; [by left; apply map_lookup_filter_Some|].
      right. right. split; [|by exists r, now].
      apply map_lookup_filter_None. right. intros r' Hr'. simpl. congruence.
    + left. apply map_lookup_filter_None. by left.
  - rewrite release_as_update. apply Hup. intros ->. split; simpl; [done| |by left].
    intros k'. destruct (decide (k' = k)) as [->|]; [auto|].
    left. by rewrite lookup_delete_ne.
  - destruct (consume_cases h k l) as [->|(e1&r&Hh&Hr&->)]; [eauto using guest_refl|].
    apply Hup. intros ->. rewrite Hg in Hh. injection Hh as <-.
    assert (may_use who g k) as Hu by (destruct Hk as [|Hk]; [done|by destruct (Hne g)]).
    split; simpl; [done| |].
    + intros k'. destruct (decide (k' = k)) as [->|]; [auto|].
      left. by rewrite lookup_delete_ne.
    + right. split; [|by exists k].
      unfold MAX_PLAYER_COUNT in *. rewrite wadd_small; lia.
  - apply Hup. intros ->. split; simpl; [done| |by left].
    intros k'. destruct (decide (k' = res_token r)) as [->|]; [auto|].
    left. by rewrite lookup_insert_ne.
  - apply Hup. intros ->. by destruct (Hne g).
  - apply Hup. intros ->. by destruct (Hne g).
  - exists e. split; [|apply guest_refl]. simpl. by rewrite lookup_delete_ne by eauto.
Qed.

Lemma guest_host g e e' :
  guest_change who g e e' →
  e_generation e' = e_generation e ∧ e_max_players e' = e_max_players e ∧
  (e_current_players e <= e_max_players e → e_current_players e' <= e_max_players e).
Proof.
  intros [R _ S]. rewrite R at 1 2. split_and!; [done..|].
  intros. destruct S as [->|[[??]?]]; done.
Qed.

Lemma steps_guest l l' g e :
  e_current_players e <= e_max_players e <= MAX_PLAYER_COUNT → games l !! g = Some e →
  (∀ r, may_host who r → reg_game_code r = g → reg_generation r ≠ e_generation e) →
  lobby_steps who l l' → ∃ e', games l' !! g = Some e' ∧ guest_change who g e e'.
Proof.
  intros He Hg Hno Hs. revert e He Hg Hno.
  induction Hs as [|l l1 l' Hs _ IH]; intros e He Hg Hno; [eauto using guest_refl|].
  destruct (step_guest l l1 g e He Hg Hno Hs) as (e1&Hg1&Hc1).
  destruct (guest_host _ _ _ Hc1) as (Hgen&Hmax&Hcur). destruct He as [He1 He2].
  destruct (IH e1) as (e'&Hg'&Hc'); [rewrite Hmax; auto|done|by rewrite Hgen|].
  exists e'. split; [done|]. by eapply guest_trans.
Qed.

Lemma run_guest l l' g e :
  e_current_players e <= e_max_players e <= MAX_PLAYER_COUNT → games l !! g = Some e →
  (∀ r, may_host who r → reg_game_code r = g → reg_generation r ≠ e_generation e) →
  lobby_run who l l' →
  (∃ e', games l' !! g = Some e' ∧ guest_change who g e e') ∨ code_minted who g.
Proof.
  intros He Hg Hno (l1&Hs&Hr). destruct (steps_guest l l1 g e He Hg Hno Hs) as (e1&Hg1&Hc1).
  destruct Hr as [->|Hr]; [eauto|]. destruct Hr as [h eh _ _ _ _ _ Hfree]. simpl.
  destruct (decide (h = g)) as [->|]; [destruct Hfree; [congruence|by right]|].
  left. exists e1. by rewrite lookup_insert_ne.
Qed.
End ownership.
