(* ===== verification/BrokerSystem.v ===== *)
(** * Many connections to one broker

    The broker with all its connections as a transition system: a connection opens, sends
    a frame, closes, or a sweep reaps what has gone stale; the clock and the random
    sources are arbitrary.  The invariant of what is reachable, and what one connection
    can do to another's listing. *)
From Stdlib Require Import String.
From S2P Require Import Prelude.
From S2P Require Import Credentials.
From S2P Require Import TournamentTypes.
From S2P Require Import Tournament.
From S2P Require Import TournamentSteps.
From S2P Require Import TournamentInv.
From S2P Require Import TournamentLife.
From S2P Require Import TournamentSafety.
From S2P Require Import LobbyWire.
From S2P Require Import Validation.
From S2P Require Import Lobby.
From S2P Require Import BrokerTypes.
From S2P Require Import Broker.
From S2P Require Import BrokerTournament.
From S2P Require Import BrokerLobby.
Local Open Scope N_scope.

(** ** Sweeps *)
Section sweeps.
Context {World : Type} `{!BrokerEnv World}.
Implicit Types (b : Broker) (env : World).

Lemma unregister_expired_games r l g e :
  games (unregister_expired r l).2 !! g = Some e ↔
  games l !! g = Some e ∧ r ≠ {| reg_game_code := g; reg_generation := e_generation e |}.
Proof.
  unfold unregister_expired, unregister_registration, is_current.
  destruct (games l !! reg_game_code r) as [e'|] eqn:Hr.
  - destruct (N.eqb_spec (e_generation e') (reg_generation r)) as [Hgen|Hgen]; simpl.
    + rewrite lookup_delete_Some. split; intros [H1 H2]; split; try done.
      * intros ->. by apply H1.
      * intros <-. destruct r. simpl in *. congruence.
    + split; [|by intros [? _]]. intros Hg. split; [done|]. intros ->. simpl in *. congruence.
  - simpl. split; [|by intros [? _]]. intros Hg. split; [done|]. intros ->. simpl in *. congruence.
Qed.
Lemma unregister_expired_next r l :
  lobby_next_generation (unregister_expired r l).2 = lobby_next_generation l.
Proof. unfold unregister_expired, unregister_registration. by destruct (is_current l r). Qed.

Lemma unregister_expired_what r l :
  let '(what, l') := unregister_expired r l in
  match what with
  | Removed | AlreadyGone => games l' !! reg_game_code r = None
  | Superseded => is_Some (games l' !! reg_game_code r)
  end.
Proof.
  unfold unregister_expired, unregister_registration, is_current.
  destruct (games l !! reg_game_code r) as [e|] eqn:Hr.
  - destruct (e_generation e =? reg_generation r); simpl; [by rewrite lookup_delete_eq|].
    unfold has_game. rewrite bool_decide_eq_true_2; by rewrite Hr.
  - simpl. unfold has_game. rewrite bool_decide_eq_false_2; [done|].
    rewrite Hr. by apply is_Some_None.
Qed.

(** A sweep removes exactly the registrations handed in that are still the ones listed,
    and reports the codes handed in under which nothing is listed any more. *)
Lemma consume_expired_games handled l :
  let '(removed, superseded, l') := consume_expired handled l in
  lobby_next_generation l' = lobby_next_generation l ∧
  (∀ g e, games l' !! g = Some e ↔ games l !! g = Some e ∧
    {| reg_game_code := g; reg_generation := e_generation e |} ∉ handled) ∧
  (∀ g, g ∈ removed ↔ (∃ r, r ∈ handled ∧ reg_game_code r = g) ∧ games l' !! g = None).
Proof.
  revert l. induction handled as [|r handled IH]; intros l; simpl.
  { split_and!; [done|..].
    - intros g e. split; [|by intros [? _]]. split; [done|apply not_elem_of_nil].
    - intros g. split; [by intros ?%elem_of_nil|by intros [(r&?%elem_of_nil&_) _]]. }
  pose proof (unregister_expired_games r l) as Hr.
  pose proof (unregister_expired_next r l) as Hn.
  pose proof (unregister_expired_what r l) as Hw.
  destruct (unregister_expired r l) as [what l1]. simpl in Hr, Hn. specialize (IH l1).
  destruct (consume_expired handled l1) as [[removed sup] l2]. destruct IH as (Hn2&IH&IHr).
  assert (∀ g, games l1 !! g = None → games l2 !! g = None) as Hnone.
  { intros g Hg. apply eq_None_not_Some. intros [e [He _]%IH]. congruence. }
  assert (∀ g e, games l2 !! g = Some e ↔ games l !! g = Some e ∧
    {| reg_game_code := g; reg_generation := e_generation e |} ∉ r :: handled) as Hgames.
  { intros g e. rewrite IH, Hr, not_elem_of_cons. naive_solver. }
  assert ((∃ e, games l1 !! reg_game_code r = Some e) → games l2 !! reg_game_code r = None →
    ∃ r', r' ∈ handled ∧ reg_game_code r' = reg_game_code r) as Hsup.
  { intros [e He] H2. destruct (decide
      ({| reg_game_code := reg_game_code r; reg_generation := e_generation e |} ∈ handled)).
    - by eexists.
    - assert (games l2 !! reg_game_code r = Some e) by (by apply IH). congruence. }
  set (all := r :: handled) in *.
  assert (∀ g, (∃ r', r' ∈ all ∧ reg_game_code r' = g) ↔
    g = reg_game_code r ∨ ∃ r', r' ∈ handled ∧ reg_game_code r' = g) as Hall.
  { intros g. subst all. setoid_rewrite elem_of_cons. naive_solver. }
  destruct what; (split_and!; [congruence|done|]); intros g; rewrite Hall, ?elem_of_cons, IHr;
    naive_solver.
Qed.

Lemma sublobby_wf l l' :
  lobby_wf l → lobby_next_generation l' = lobby_next_generation l →
  games l' ⊆ games l → lobby_wf l'.
Proof.
  intros [H1 H2 H3 H4] Hn Hsub.
  assert (∀ g e, games l' !! g = Some e → games l !! g = Some e) as Hl
    by (intros; by eapply lookup_weaken).
  split.
  - intros g e Hg. by apply (H1 g e), Hl.
  - etrans; [|exact H2]. by apply map_subseteq_size.
  - intros g e Hg. rewrite Hn. by apply (H3 g), Hl.
  - intros g g' e e' Hg Hg'. by apply (H4 g g' e e'); apply Hl.
Qed.

(** A registered game stale at [now], in seconds. *)
Definition stale (timeout now : N) (e : LobbyGameMeta) : Prop := timeout < now - e_last_seen e.

Lemma expired_elem timeout l env g e :
  games l !! g = Some e →
  {| reg_game_code := g; reg_generation := e_generation e |} ∈ (check_expired_lobby timeout l env).1
  ↔ stale timeout ((now_ms env).1 / 1000) e.
Proof.
  intros Hg. unfold check_expired_lobby. rewrite clock_secs_run. simpl.
  rewrite list_elem_of_fmap. split.
  - intros ([g' e']&[= -> Hgen]&[Hs Hin%elem_of_map_to_list]%list_elem_of_filter).
    by simplify_eq.
  - intros Hs. exists (g, e). split; [done|]. apply list_elem_of_filter. split; [done|].
    by apply elem_of_map_to_list.
Qed.

Lemma expired_entry timeout l env r :
  r ∈ (check_expired_lobby timeout l env).1 →
  ∃ e, games l !! reg_game_code r = Some e ∧ stale timeout ((now_ms env).1 / 1000) e.
Proof.
  unfold check_expired_lobby. rewrite clock_secs_run. simpl.
  intros ([g e]&->&[Hs Hin%elem_of_map_to_list]%list_elem_of_filter)%list_elem_of_fmap.
  by exists e.
Qed.

(** The registry after a sweep, and its events. *)
Definition swept (now : N) (ts : TournamentManager) : TournamentManager :=
  map_imap (λ t m, (expire now t m).1) ts.
Definition sweep_events (now : N) (ts : TournamentManager) : list TournamentExpiryEvent :=
  omap (λ '(t, m), (expire now t m).2) (map_to_list ts).

Lemma sweep_run ts env :
  check_expired (ts, env) =
  (Ok (sweep_events ((now_ms env).1 / 1000) ts),
   (swept ((now_ms env).1 / 1000) ts, (now_ms env).2)).
Proof.
  unfold check_expired, now_secs, env_now. unfold_M. simpl. by destruct (now_ms env).
Qed.

(** A message about tournaments. *)
Definition about_tournaments (o : Outbound) : Prop :=
  match o with
  | ToSubscribers (Server.TournamentRemoved _) | ToSubscribers (Server.TournamentUpdate _ _)
  | ToSubscribers (Server.TournamentListUpdate _) => True
  | _ => False
  end.

Lemma expiry_outbounds_ok b events :
  registry_wf (registry b) →
  ∃ outs, expiry_outbounds b events = Ok outs ∧ Forall about_tournaments outs.
Proof.
  intros Hwf. induction events as [|ev events (outs&Ho&Hall)]; simpl; [by exists []|].
  assert (∃ o, expiry_outbound b ev = Ok o ∧ about_tournaments o) as (o&->&Hab).
  { destruct ev as [t|t]; simpl; [by eexists|]. unfold tournament_view.
    destruct (registry b !! t) as [m|] eqn:Hm; [|by eexists].
    destruct (view_of_wf m (Hwf _ _ Hm)) as [v ->]. by eexists. }
  rewrite Ho. simpl. exists (o :: outs). by split; [|constructor].
Qed.

(** What a sweep does to both registries, and what it announces. *)
Lemma reap_handled_run b handled env removed sup l :
  registry_wf (registry b) → consume_expired handled (lobby b) = (removed, sup, l) →
  let ts := swept ((now_ms env).1 / 1000) (registry b) in
  registry_wf ts ∧
  ∃ outs, Forall about_tournaments outs ∧
    reap_expired_handled handled (b, env) =
    (Ok {| lobby_removed := removed; superseded := sup; tournament_outbounds := outs |},
     ({| lobby := l; registry := ts |}, (now_ms env).2)).
Proof.
  intros Hwf Hc ts.
  assert (registry_wf ts) as Hts.
  { eapply (registry_step_wf (World := World) _ CallExpire); [exact Hwf|done|apply RegExpire]. }
  split; [done|]. set (b' := {| lobby := l; registry := ts |}).
  destruct (expiry_outbounds_ok b' (sweep_events ((now_ms env).1 / 1000) (registry b)) Hts)
    as (outs&Ho&Hall).
  eexists. split; cycle 1.
  - unfold reap_expired_handled, broker, manager. unfold_M. simpl. rewrite Hc. simpl.
    rewrite sweep_run. simpl.
    change (with_registry _ (with_lobby l b)) with b'. rewrite Ho. simpl. done.
  - apply Forall_app. split; [done|]. case_decide; [done|]. by repeat constructor.
Qed.

(** A sweep drops the listings that are stale when it starts, keeps the others, and
    announces it. *)
Lemma reap_expired_run timeout b env :
  registry_wf (registry b) →
  let env1 := (now_ms env).2 in
  ∃ outs l, reap_expired timeout (b, env) =
      (Ok outs, ({| lobby := l; registry := swept ((now_ms env1).1 / 1000) (registry b) |},
                 (now_ms env1).2)) ∧
    games l ⊆ games (lobby b) ∧
    lobby_next_generation l = lobby_next_generation (lobby b) ∧
    (∀ g e, games l !! g = Some e ↔
      games (lobby b) !! g = Some e ∧ ¬ stale timeout ((now_ms env).1 / 1000) e) ∧
    (∀ g, ToSubscribers (Server.LobbyGameRemoved g) ∈ outs ↔
      ∃ e, games (lobby b) !! g = Some e ∧ stale timeout ((now_ms env).1 / 1000) e) ∧
    Forall (λ o, about_tournaments o ∨ ∃ g, o = ToSubscribers (Server.LobbyGameRemoved g)) outs.
Proof.
  intros Hwf env1. unfold reap_expired, env_check_expired. unfold_M. simpl.
  pose proof (expired_elem timeout (lobby b) env) as Hex.
  assert (check_expired_lobby timeout (lobby b) env =
    ((check_expired_lobby timeout (lobby b) env).1, env1)) as ->.
  { unfold check_expired_lobby. by rewrite clock_secs_run. }
  set (handled := (check_expired_lobby timeout (lobby b) env).1) in *.
  pose proof (consume_expired_games handled (lobby b)) as Hc.
  destruct (consume_expired handled (lobby b)) as [[removed sup] l] eqn:E.
  destruct Hc as (Hn&Hl&Hrem).
  destruct (reap_handled_run b handled env1 removed sup l Hwf E) as (_&outs&Hall&Hrun).
  fold env1. rewrite Hrun. simpl.
  eexists _, l. split_and!; [done| |done|..|]; cycle 3.
  { unfold into_outbounds. simpl. apply Forall_app. split.
    - apply Forall_fmap, Forall_true. intros g. right. by exists g.
    - eapply Forall_impl; [exact Hall|]. auto. }
  - apply map_subseteq_spec. by intros g e [? _]%Hl.
  - intros g e. rewrite Hl. split; intros [Hg H]; (split; [done|]); by rewrite (Hex g e Hg) in *.
  - intros g. unfold into_outbounds. simpl. rewrite elem_of_app, list_elem_of_fmap. split.
    + intros [(h&[= <-]&[(r&Hr&<-)_]%Hrem)|Hin]; [by eapply expired_entry|].
      by rewrite Forall_forall in Hall; apply Hall in Hin.
    + intros (e&Hg&Hs). left. exists g. split; [done|]. apply (Hex g e Hg) in Hs.
      apply Hrem. split; [by eexists|]. apply eq_None_not_Some. intros [e' [He' Hno]%Hl].
      by simplify_eq.
Qed.
End sweeps.

(** ** The stamp a frame leaves *)
Section stamps.
Context {World : Type} `{!BrokerEnv World}.
Implicit Types (b : Broker) (conn : ConnState) (env : World).

(** None, the old one, or the identity just issued. *)
Definition stamped b conn (b' : Broker) conn' : Prop :=
  (host_game conn' = None ∨ host_game conn' = host_game conn) ∧
    lobby_next_generation (lobby b') = lobby_next_generation (lobby b) ∨
  (∃ g, host_game conn' =
     Some {| reg_game_code := g; reg_generation := lobby_next_generation (lobby b) |}) ∧
    lobby_next_generation (lobby b') = u64_add (lobby_next_generation (lobby b)) 1.

Lemma drop_host_next b conn :
  lobby_next_generation (lobby (drop_host_game b conn).2.1) = lobby_next_generation (lobby b) ∧
  host_game (drop_host_game b conn).2.2 = None.
Proof.
  unfold drop_host_game, unregister_registration.
  destruct (host_game conn) as [r|] eqn:Hr; [|by split]. by destruct (is_current (lobby b) r).
Qed.
Lemma create_stamped b conn s env :
  stamped b conn (handle_create_game b conn s env).2.1.1 (handle_create_game b conn s env).2.1.2.
Proof.
  unfold handle_create_game. destruct (trimmed _) as [peer|]; [|left; auto].
  destruct (client_hello conn) as [hello|]; [|left; auto].
  pose proof (drop_host_next b conn) as [Hd Hh].
  destruct (drop_host_game b conn) as [out [b1 conn1]]. simpl in Hd, Hh. cbv zeta.
  destruct (_ <=? _)%nat; [left; auto|].
  destruct (match c_requested_code s with Some _ => _ | None => _ end) as [|[g env1]];
    [left; auto|].
  destruct (new_token env1) as [token env2]. rewrite register_run.
  destruct (now_ms env2) as [now env3]. right. simpl. rewrite Hd. split; [by exists g|done].
Qed.

Lemma performed_next b conn conn' b' mint env :
  lobby_steps (sender_of mint conn conn' env) (lobby b) (lobby b') →
  host_game conn' = None ∨ host_game conn' = host_game conn → stamped b conn b' conn'.
Proof. intros Hs Hh. left. split; [done|]. by eapply lobby_steps_next. Qed.

Lemma dispatch_stamped b conn msg env :
  guard_inbound msg = Ok tt →
  stamped b conn (dispatch b conn msg env).2.1.1 (dispatch b conn msg env).2.1.2.
Proof.
  intros Hg. pose proof (tournament_frames_same b conn msg env) as Ht.
  assert (∀ a : Answer (World := World), lobby_same b conn a → stamped b conn a.2.1.1 a.2.1.2)
    as Hsame.
  { intros a [Hl (_&Hh&_)]. left. rewrite Hl. auto. }
  destruct msg; simpl in Ht; try (by apply Hsame); clear Ht; simpl.
  - left. auto.
  - pose proof (create_stamped b conn settings env) as Hc.
    by destruct (handle_create_game b conn settings env) as [out [[b' conn'] env']].
  - pose proof (join_game_steps true b conn game_code password reservation_token env) as Hs.
    destruct (handle_join b conn game_code password reservation_token) as [out [b' conn']].
    destruct Hs as (Hs&Hh&_). eapply performed_next; eauto.
  - pose proof (lookup_steps true b conn game_code password reserve
      display_name release_reservation_token env) as Hs.
    destruct (handle_lookup b conn game_code password reserve display_name
      release_reservation_token env) as [out [[b' conn'] env']].
    destruct Hs as (Hs&_&Hh&_). eapply performed_next; eauto.
  - pose proof (update_frame_steps true b conn game_code
      current_players max_players consumed_reservation_tokens env (guard_update _ _ _ _ Hg)) as Hs.
    destruct (handle_update_metadata b conn game_code current_players max_players
      consumed_reservation_tokens env) as [out [[b' conn'] env']].
    destruct Hs as (Hs&_&->). eapply performed_next; eauto.
  - pose proof (unregister_frame_steps true b conn game_code env) as Hs.
    assert (host_game (handle_unregister b conn game_code).2.2 = None ∨
      host_game (handle_unregister b conn game_code).2.2 = host_game conn) as Hh.
    { unfold handle_unregister, take_host_game_if.
      destruct (host_game conn) as [r|] eqn:Hr; simpl; [|auto].
      destruct (String.eqb _ _); simpl; [|auto]. left.
      by destruct (unregister_registration r (lobby b)). }
    destruct (handle_unregister b conn game_code) as [out [b' conn']].
    destruct Hs as (Hs&_). eapply performed_next; eauto.
Qed.
Lemma refresh_next b conn env :
  lobby_next_generation (lobby (refresh_host b conn env).1) = lobby_next_generation (lobby b).
Proof.
  eapply lobby_steps_next. by apply (refresh_steps true b conn conn env).
Qed.
Lemma handle_stamped b conn msg env :
  stamped b conn (handle b conn msg env).2.1.1 (handle b conn msg env).2.1.2.
Proof.
  pose proof (refresh_next b conn env) as Hn.
  destruct (handle_cases b conn msg env) as [(_&reply&->)|[(e&->)|(Hg&->)]].
  - left. auto.
  - left. auto.
  - pose proof (dispatch_stamped (refresh_host b conn env).1 conn msg
      (refresh_host b conn env).2 Hg) as Hd.
    unfold stamped in *. by rewrite Hn in Hd.
Qed.
End stamps.

(** ** The system *)
Record System := { sys_broker : Broker; sys_conns : gmap N ConnState }.
Definition sys_new : System := {| sys_broker := broker_new; sys_conns := ∅ |}.

Section system.
Context {World : Type} `{!BrokerEnv World}.

(** Connections are numbered by the shell; [env] is what the clock and the random sources
    answer meanwhile. *)
Inductive Label :=
  | LConnect (i : N)
  | LFrame (i : N) (msg : Client.Message) (env : World)
  | LClose (i : N)
  | LSweep (timeout : N) (env : World).

Definition sys_step (s : System) (l : Label) : option (list Outbound * System) :=
  match l with
  | LConnect i =>
      match sys_conns s !! i with
      | Some _ => None
      | None => Some ([], {| sys_broker := sys_broker s;
                             sys_conns := <[i := conn_default]> (sys_conns s) |})
      end
  | LFrame i msg env =>
      conn ← sys_conns s !! i;
      let '(out, (b, conn', _)) := handle (sys_broker s) conn msg env in
      out ← out;
      Some (out, {| sys_broker := b; sys_conns := <[i := conn']> (sys_conns s) |})
  | LClose i =>
      conn ← sys_conns s !! i;
      let '(out, (b, _)) := on_disconnect (sys_broker s) conn in
      Some (out, {| sys_broker := b; sys_conns := delete i (sys_conns s) |})
  | LSweep timeout env =>
      match reap_expired timeout (sys_broker s, env) with
      | (Ok out, (b, _)) => Some (out, {| sys_broker := b; sys_conns := sys_conns s |})
      | _ => None
      end
  end.

Definition label_wf (l : Label) : Prop :=
  match l with LFrame _ msg _ => frame_wf msg | _ => True end.
(** What [n] steps from the start can reach. *)
Inductive sys_reach : N → System → Prop :=
  | sys_reach_new : sys_reach 0 sys_new
  | sys_reach_step n s l out s' :
      sys_reach n s → label_wf l → sys_step s l = Some (out, s') → sys_reach (n + 1) s'.

Record sys_wf (n : N) (s : System) : Prop := {
  sw_registry : registry_wf (registry (sys_broker s));
  sw_tournaments : (size (registry (sys_broker s)) ≤ MAX_TOURNAMENT_ENTRIES)%nat;
  sw_lobby : lobby_wf (lobby (sys_broker s));
  sw_next : lobby_next_generation (lobby (sys_broker s)) <= n;
  sw_conns : ∀ i c, sys_conns s !! i = Some c → conn_bounded c;
  sw_issued : ∀ i c r, sys_conns s !! i = Some c → host_game c = Some r →
    reg_generation r < lobby_next_generation (lobby (sys_broker s));
  sw_stamps : ∀ i j ci cj r, sys_conns s !! i = Some ci → sys_conns s !! j = Some cj →
    host_game ci = Some r → host_game cj = Some r → i = j;
}.

Lemma sys_wf_new : sys_wf 0 sys_new.
Proof.
  split; simpl; try done; try (by intros; simplify_map_eq).
  - rewrite map_size_empty. lia.
  - split; simpl; try done; try (by intros; simplify_map_eq). rewrite map_size_empty. lia.
Qed.

(** Granted steps keep the registry within its cap. *)
Lemma granted_size ts now msg c ts' :
  (size ts ≤ MAX_TOURNAMENT_ENTRIES)%nat → granted ts now msg c →
  registry_step (World := World) ts c ts' → (size ts' ≤ MAX_TOURNAMENT_ENTRIES)%nat.
Proof.
  intros Hs Hg Hr. destruct Hr as [t req token now' Hfree Hreq|c t m m' _ Ht _|now'].
  - rewrite (map_size_insert_None _ _ _ Hfree). inversion Hg; subst. lia.
  - rewrite map_size_insert_Some; [done|by eexists].
  - inversion Hg.
Qed.
Lemma swept_size now ts : (size (swept now ts) ≤ size ts)%nat.
Proof.
  rewrite <-!size_dom. apply subseteq_size. unfold swept.
  intros t [m Hm]%elem_of_dom. rewrite map_lookup_imap in Hm.
  apply bind_Some in Hm as (m0&Hm0&_). by apply elem_of_dom_2 in Hm0.
Qed.

(** One connection's state and the broker replaced together. *)
Lemma conn_step_wf n s i conn b' conn' :
  sys_wf n s → n < 2 ^ 64 - 1 → sys_conns s !! i = Some conn →
  registry_wf (registry b') → (size (registry b') ≤ MAX_TOURNAMENT_ENTRIES)%nat →
  lobby_wf (lobby b') → conn_bounded conn' → stamped (sys_broker s) conn b' conn' →
  sys_wf (n + 1) {| sys_broker := b'; sys_conns := <[i := conn']> (sys_conns s) |}.
Proof.
  intros [Hr Ht Hl Hn Hc Hi Hst] Hbig Hconn Hr' Ht' Hl' Hc' Hstamp.
  set (l := lobby (sys_broker s)) in *.
  assert (lobby_next_generation l <= lobby_next_generation (lobby b') <= n + 1 ∧
    ∀ r, host_game conn' = Some r → host_game conn = Some r ∨
      lobby_next_generation l <= reg_generation r < lobby_next_generation (lobby b'))
    as [Hgen Hnew].
  { destruct Hstamp as [[Hh ->]|[[g Hh] ->]]; fold l.
    - split; [lia|]. intros r Hr1. destruct Hh as [Hh|Hh]; rewrite Hh in Hr1; [done|by left].
    - rewrite wadd_small by lia. split; [lia|]. intros r Hr1. rewrite Hh in Hr1.
      injection Hr1 as <-. right. simpl. fold l. lia. }
  split; simpl; try done; [lia|..].
  - intros j c. rewrite lookup_insert_Some. intros [[<- <-]|[_ Hj]]; [done|by eapply Hc].
  - intros j c r. rewrite lookup_insert_Some. intros [[<- <-]|[_ Hj]] Hh.
    + apply Hnew in Hh as [Hh|]; [|lia]. pose proof (Hi _ _ _ Hconn Hh). lia.
    + pose proof (Hi _ _ _ Hj Hh). lia.
  - assert (∀ j cj r, j ≠ i → sys_conns s !! j = Some cj → host_game cj = Some r →
      host_game conn' = Some r → False) as Hno.
    { intros j cj r Hne Hj Hhj Hh. apply Hnew in Hh as [Hh|[Hold _]].
      - by apply Hne, (Hst j i cj conn r).
      - pose proof (Hi _ _ _ Hj Hhj). lia. }
    intros j k cj ck r. rewrite !lookup_insert_Some.
    intros [[<- <-]|[Hne Hj]] [[<- <-]|[Hne' Hk]] Hhj Hhk; [done|..].
    + by destruct (Hno k ck r).
    + by destruct (Hno j cj r).
    + by eapply Hst.
Qed.

(** Dropping connections, and listings or tournaments. *)
Lemma smaller_wf n s b' conns' :
  sys_wf n s → registry_wf (registry b') →
  (size (registry b') ≤ MAX_TOURNAMENT_ENTRIES)%nat → lobby_wf (lobby b') →
  lobby_next_generation (lobby b') = lobby_next_generation (lobby (sys_broker s)) →
  conns' ⊆ sys_conns s →
  sys_wf (n + 1) {| sys_broker := b'; sys_conns := conns' |}.
Proof.
  intros [Hr Ht Hl Hn Hc Hi Hst] ??? Hgen Hsub.
  assert (∀ i c, conns' !! i = Some c → sys_conns s !! i = Some c) as Hl'
    by (intros; by eapply lookup_weaken).
  split; simpl; rewrite ?Hgen; try done; [lia|naive_solver..|].
  intros i j ci cj r Hi' Hj'. eapply Hst; by apply Hl'.
Qed.

Lemma sys_step_wf n s l out s' :
  sys_wf n s → n < 2 ^ 64 - 1 → label_wf l → sys_step s l = Some (out, s') → sys_wf (n + 1) s'.
Proof.
  intros Hwf Hbig Hlab Hs. pose proof Hwf as [Hr Ht Hl Hn Hc Hi Hst].
  destruct l as [i|i msg env|i|timeout env]; simpl in Hs.
  - destruct (sys_conns s !! i) as [|] eqn:Hi0; [done|]. injection Hs as <- <-.
    split; simpl; try done; [lia|..].
    + intros j c. rewrite lookup_insert_Some. intros [[<- <-]|[_ Hj]]; [|by eapply Hc].
      split; [by intros ? [=]|]. split; simpl; unfold MAX_CONN_TOURNAMENT_ENTRIES; lia.
    + intros j c r. rewrite lookup_insert_Some. intros [[<- <-]|[_ Hj]]; [done|by eapply Hi].
    + intros j k cj ck r. rewrite !lookup_insert_Some.
      intros [[<- <-]|[_ Hj]] [[<- <-]|[_ Hk]]; try done. by eapply Hst.
  - destruct (sys_conns s !! i) as [conn|] eqn:Hconn; [|done]. simpl in Hs.
    pose proof (handle_answered (sys_broker s) conn msg env Hr Hlab) as [_ Ha].
    pose proof (handle_performed (sys_broker s) conn msg env (Hc _ _ Hconn)) as [Hp Hb].
    pose proof (handle_stamped (sys_broker s) conn msg env) as Hstamp.
    destruct (handle (sys_broker s) conn msg env) as [o [[b' conn'] env']].
    destruct o as [o|]; [|done]. simpl in *. injection Hs as <- <-.
    eapply conn_step_wf; try done.
    + destruct Ha as [->|(c&Hcw&_&Hst')]; [done|]. by eapply registry_step_wf.
    + destruct Ha as [->|(c&_&Hg&Hst')]; [done|]. by eapply granted_size.
    + eapply lobby_run_wf; [done| |done]. lia.
  - destruct (sys_conns s !! i) as [conn|] eqn:Hconn; [|done]. simpl in Hs.
    pose proof (disconnect_registry (sys_broker s) conn) as Hreg.
    pose proof (disconnect_steps (sys_broker s) conn) as Hd.
    destruct (on_disconnect (sys_broker s) conn) as [o [b' conn']]. simpl in *.
    destruct Hd as [Hd _]. injection Hs as <- <-.
    eapply smaller_wf; [done|by rewrite Hreg..| | |apply delete_subseteq].
    + by eapply lobby_steps_wf.
    + by eapply lobby_steps_next.
  - destruct (reap_expired_run timeout (sys_broker s) env Hr) as (outs&l'&Hrun&Hl'&Hnext&_&_&_).
    cbv zeta in Hrun. rewrite Hrun in Hs. simpl in Hs. injection Hs as <- <-.
    eapply smaller_wf; try done; simpl.
    + eapply (registry_step_wf (World := World) _ CallExpire); [exact Hr|done|apply RegExpire].
    + etrans; [apply swept_size|done].
    + by eapply sublobby_wf.
Qed.

Lemma sys_reach_wf n s : sys_reach n s → n < 2 ^ 64 → sys_wf n s.
Proof.
  induction 1 as [|n s l out s' Hs IH Hl Hstep]; intros Hn; [apply sys_wf_new|].
  eapply sys_step_wf; [apply IH; lia|lia|done|done].
Qed.

(** Running labels, for samples. *)
Fixpoint sys_run (ls : list Label) (s : System) : option System :=
  match ls with
  | [] => Some s
  | l :: ls => r ← sys_step s l; sys_run ls r.2
  end.
Lemma sys_run_reach n ls s s' :
  sys_reach n s → Forall label_wf ls → sys_run ls s = Some s' →
  sys_reach (n + N.of_nat (length ls)) s'.
Proof.
  intros Hs Hls. revert n s Hs. induction Hls as [|l ls Hl _ IH]; intros n s Hs; simpl.
  - intros [= <-]. by rewrite N.add_0_r.
  - intros ([out s1]&Hstep&Hrun)%bind_Some.
    replace (n + _) with (n + 1 + N.of_nat (length ls)) by lia.
    apply (IH (n + 1) s1); [|done]. by eapply sys_reach_step.
Qed.
End system.
