(* ===== verification/BrokerSafety.v ===== *)
(** * What holds of every reachable broker

    Bounds and totality, what others can do to a listing, the heartbeat that keeps it,
    and the snapshot that outlives the process. *)
From Stdlib Require Import Ascii String.
From S2P Require Import Prelude.
From S2P Require Import Text.
From S2P Require Import Credentials.
From S2P Require Import TournamentTypes.
From S2P Require Import Tournament.
From S2P Require Import TournamentSteps.
From S2P Require Import TournamentInv.
From S2P Require Import TournamentLife.
From S2P Require Import TournamentSafety.
From S2P Require Import LobbyWire.
From S2P Require Import Validation.
From S2P Require Import Lobby.
From S2P Require Import BrokerTypes.
From S2P Require Import Broker.
From S2P Require Import BrokerTournament.
From S2P Require Import BrokerLobby.
From S2P Require Import BrokerSystem.
Local Open Scope N_scope.

Section safety.
Context {World : Type} `{!BrokerEnv World}.

(** ** A host and the others *)

(** Connection [i] hosts the listing [e] under the code of [r]. *)
Record hosting (s : System) (i : N) (r : LobbyRegistration) (e : LobbyGameMeta) : Prop := {
  ho_conn : ∃ c, sys_conns s !! i = Some c ∧ host_game c = Some r;
  ho_entry : games (lobby (sys_broker s)) !! reg_game_code r = Some e;
  ho_current : e_generation e = reg_generation r;
}.

Lemma hosting_current s i r e c :
  hosting s i r e → sys_conns s !! i = Some c →
  host_game c = Some r ∧ is_current (lobby (sys_broker s)) r = true.
Proof.
  intros [(c'&Hc&Hr) He Hg] Hi. simplify_eq. split; [done|].
  unfold is_current. rewrite He. by apply N.eqb_eq.
Qed.

(** What a step by another than [i] may do to the listing [e] under [g]. *)
Definition tolerated (i : N) (g : string) (s s' : System) (l : Label (World := World))
    (e e' : LobbyGameMeta) : Prop :=
  match l with
  | LConnect _ | LSweep _ _ => e' = e
  | LFrame j msg env => j ≠ i ∧ ∃ cj cj', sys_conns s !! j = Some cj ∧
      sys_conns s' !! j = Some cj' ∧ guest_change (sender_of (mints msg) cj cj' env) g e e'
  | LClose j => j ≠ i ∧ ∃ cj, sys_conns s !! j = Some cj ∧ guest_change (leaver cj) g e e'
  end.

(** Not by [i], not a sweep that finds the listing stale, not a code minted twice. *)
Definition by_others (i : N) (g : string) (e : LobbyGameMeta) (l : Label (World := World)) : Prop :=
  match l with
  | LConnect _ => True
  | LFrame j msg env => j ≠ i ∧ (mints msg = true → ¬ mints_code env g)
  | LClose j => j ≠ i
  | LSweep timeout env => ¬ stale timeout ((now_ms env).1 / 1000) e
  end.

Lemma others_tolerated n s l out s' i r e :
  sys_wf n s → sys_step s l = Some (out, s') → hosting s i r e →
  by_others i (reg_game_code r) e l →
  ∃ e', hosting s' i r e' ∧ tolerated i (reg_game_code r) s s' l e e'.
Proof.
  intros Hwf Hstep Hho Hby. pose proof Hho as [(c&Hc&Hr) He Hgen].
  pose proof Hwf as [Hreg _ Hl _ Hconns _ Hst].
  assert (e_current_players e <= e_max_players e <= MAX_PLAYER_COUNT) as Hseats.
  { destruct (lw_entries _ Hl _ _ He) as [_ []]. by split; [|lia]. }
  assert (∀ j cj r', j ≠ i → sys_conns s !! j = Some cj → host_game cj = Some r' →
    reg_game_code r' = reg_game_code r → reg_generation r' ≠ e_generation e) as Hno.
  { intros j cj r' Hne Hj Hr' Hcode Hg. apply Hne, (Hst j i cj c r'); try done.
    rewrite Hr. f_equal. destruct r, r'. simpl in *. congruence. }
  assert (∀ e', e_generation e' = e_generation e →
    games (lobby (sys_broker s')) !! reg_game_code r = Some e' →
    (∃ c', sys_conns s' !! i = Some c' ∧ host_game c' = Some r) → hosting s' i r e') as Hkeep.
  { intros e' Hg' He' Hc'. split; [done..|congruence]. }
  destruct l as [j|j msg env|j|timeout env]; simpl in Hstep, Hby.
  - destruct (sys_conns s !! j) eqn:Hj; [done|]. injection Hstep as <- <-.
    exists e. split; [|done]. apply Hkeep; [done..|]. exists c. simpl.
    split; [|done]. rewrite lookup_insert_ne; [done|congruence].
  - destruct Hby as [Hne Hmint].
    destruct (sys_conns s !! j) as [cj|] eqn:Hj; [|done]. simpl in Hstep.
    pose proof (handle_performed (sys_broker s) cj msg env (Hconns _ _ Hj)) as [Hp _].
    destruct (handle (sys_broker s) cj msg env) as [o [[b' cj'] env']].
    destruct o as [o|]; [|done]. simpl in *. injection Hstep as <- <-.
    destruct (run_guest (sender_of (mints msg) cj cj' env) _ _ _ _ Hseats He (λ r', Hno j cj r' Hne Hj) Hp)
      as [(e'&He'&Hch)|[Hm Hg]]; [|by destruct (Hmint Hm)].
    destruct (guest_host _ _ _ _ Hch) as (Hg'&_).
    exists e'. split; [apply Hkeep; simpl; [done..|]|].
    + exists c. split; [|done]. by rewrite lookup_insert_ne.
    + split; [done|]. exists cj, cj'. simpl. by rewrite lookup_insert_eq.
  - destruct (sys_conns s !! j) as [cj|] eqn:Hj; [|done]. simpl in Hstep.
    pose proof (disconnect_steps (sys_broker s) cj) as Hd.
    destruct (on_disconnect (sys_broker s) cj) as [o [b' cj']]. injection Hstep as <- <-.
    destruct Hd as [Hd _].
    destruct (steps_guest (leaver cj) _ _ _ _ Hseats He (λ r', Hno j cj r' Hby Hj) Hd)
      as (e'&He'&Hch). destruct (guest_host _ _ _ _ Hch) as (Hg'&_).
    exists e'. split; [apply Hkeep; simpl; [done..|]|split; eauto].
    exists c. split; [|done]. by rewrite lookup_delete_ne.
  - destruct (reap_expired_run timeout (sys_broker s) env Hreg) as (outs&l'&Hrun&_&_&Hl'&_).
    cbv zeta in Hrun. rewrite Hrun in Hstep. simpl in Hstep. injection Hstep as <- <-.
    exists e. split; [|done]. apply Hkeep; [done| |by exists c]. by apply Hl'.
Qed.

(** A change that others may make leaves the time the host was last seen. *)
Lemma tolerated_seen i g s s' l e e' :
  tolerated i g s s' l e e' → e_last_seen e' = e_last_seen e.
Proof.
  destruct l; simpl; [by intros ->| | |by intros ->].
  - intros (_&cj&cj'&_&_&[Hrest _ _]). by rewrite Hrest.
  - intros (_&cj&_&[Hrest _ _]). by rewrite Hrest.
Qed.

(** ** The heartbeat *)

(** A ping from the host of a listing is answered, and refreshes the listing. *)
Lemma ping_run s i r e ts env :
  hosting s i r e → (now_ms env).1 / 1000 <= (now_ms (now_ms env).2).1 / 1000 →
  ∃ s' e', sys_step s (LFrame i (Client.Ping ts) env) = Some ([ToSelf (Server.Pong ts)], s') ∧
    hosting s' i r e' ∧
    e' = set_last_seen (e_last_seen e') e ∧
    (now_ms env).1 / 1000 < e_last_seen e' + LIVENESS_REFRESH_SECS.
Proof.
  intros Hho Hclock. pose proof Hho as [(c&Hc&Hr) He Hgen].
  destruct (hosting_current _ _ _ _ _ Hho Hc) as [_ Hcur].
  simpl. rewrite Hc. simpl. unfold handle, stateless_reply. rewrite decide_False by congruence.
  unfold refresh_host. rewrite Hr. unfold refresh_liveness, liveness_refresh_due.
  rewrite clock_secs_run, Hcur, He. simpl.
  assert (<[i := c]> (sys_conns s) = sys_conns s) as Hsame by by apply insert_id.
  destruct (N.leb_spec LIVENESS_REFRESH_SECS ((now_ms env).1 / 1000 - e_last_seen e))
    as [Hdue|Hfresh]; simpl.
  - rewrite clock_secs_run. simpl. eexists _, (set_last_seen ((now_ms (now_ms env).2).1 / 1000) e). split; [done|].
    split_and!; [|done|simpl; unfold LIVENESS_REFRESH_SECS; lia].
    split; simpl; [rewrite Hsame; by exists c| |done].
    by rewrite lookup_alter_eq, He.
  - eexists _, e. split; [done|]. split_and!; [|by destruct e|].
    + split; simpl; [rewrite Hsame; by exists c|done..].
    + unfold LIVENESS_REFRESH_SECS in *. lia.
Qed.

(** One step while connection [i] is silent: not a code minted twice, and a sweep only in
    good time after the host was heard from at [t]. *)
Inductive silent_step (i : N) (g : string) (t : N) (s s' : System) : Prop :=
  | silent l out :
      sys_step s l = Some (out, s') → label_wf l →
      match l with
      | LConnect _ => True
      | LFrame j msg env => j ≠ i ∧ (mints msg = true → ¬ mints_code env g)
      | LClose j => j ≠ i
      | LSweep timeout env =>
          (now_ms env).1 / 1000 + LIVENESS_REFRESH_SECS <= t + timeout
      end → silent_step i g t s s'.

Lemma silent_keeps n s s' i r e t :
  sys_wf n s → hosting s i r e → t < e_last_seen e + LIVENESS_REFRESH_SECS →
  silent_step i (reg_game_code r) t s s' →
  ∃ e', hosting s' i r e' ∧ e_last_seen e' = e_last_seen e.
Proof.
  intros Hwf Hho Ht [l out Hstep Hlab Hl].
  destruct (others_tolerated n s l out s' i r e Hwf Hstep Hho) as (e'&Hho'&Htol).
  { destruct l; simpl in *; [done..|]. unfold stale, LIVENESS_REFRESH_SECS in *. lia. }
  exists e'. split; [done|]. by eapply tolerated_seen.
Qed.
Lemma silent_run k n s s' i r e t :
  sys_wf n s → n + N.of_nat k < 2 ^ 64 → hosting s i r e →
  t < e_last_seen e + LIVENESS_REFRESH_SECS →
  relations.nsteps (silent_step i (reg_game_code r) t) k s s' →
  ∃ e', hosting s' i r e' ∧ e_last_seen e' = e_last_seen e.
Proof.
  intros Hwf Hn Hho Ht Hk. revert n e Hwf Hn Hho Ht.
  induction Hk as [s|k s s1 s' Hs _ IH]; intros n e Hwf Hn Hho Ht; [by exists e|].
  destruct (silent_keeps n s s1 i r e t Hwf Hho Ht Hs) as (e1&Hho1&Hseen).
  destruct (IH (n + 1) e1) as (e'&?&?); [|lia|done|lia|].
  - destruct Hs as [l out Hstep Hlab _]. eapply sys_step_wf; [done|lia|done|done].
  - exists e'. split; [done|congruence].
Qed.
End safety.

(** ** Snapshots *)
Definition seed (gs : gmap string LobbyGameMeta) : N :=
  map_fold (λ _ e seed, N.max (u64_add (e_generation e) 1) seed) 0 gs.
Lemma seed_ge gs g e :
  (∀ g e, gs !! g = Some e → e_generation e < 2 ^ 64 - 1) →
  gs !! g = Some e → e_generation e < seed gs.
Proof.
  unfold seed. revert g e.
  apply (map_fold_weak_ind (λ n m, ∀ g e,
    (∀ g e, m !! g = Some e → e_generation e < 2 ^ 64 - 1) →
    m !! g = Some e → e_generation e < n)); [by intros g e _ []%lookup_empty_Some|].
  intros h x m n Hh IH g e Hb. rewrite lookup_insert_Some.
  pose proof (Hb h x (lookup_insert_eq _ _ _)) as Hx. rewrite wadd_small by lia.
  intros [[<- <-]|[Hne Hg]]; [lia|].
  assert (e_generation e < n); [|lia]. apply (IH g); [|done].
  intros g' e' Hg'. apply (Hb g' e'). rewrite lookup_insert_ne; [done|congruence].
Qed.
Lemma seed_le gs n :
  n < 2 ^ 64 → (∀ g e, gs !! g = Some e → e_generation e < n) → seed gs <= n.
Proof.
  intros Hn. unfold seed.
  apply (map_fold_weak_ind (λ k m, (∀ g e, m !! g = Some e → e_generation e < n) → k <= n));
    [lia|].
  intros h x m k Hh IH Hb. pose proof (Hb h x (lookup_insert_eq _ _ _)) as Hx.
  rewrite wadd_small by lia. assert (k <= n); [|lia]. apply IH.
  intros g' e' Hg'. apply (Hb g' e'). rewrite lookup_insert_ne; [done|congruence].
Qed.

(** A restored entry. *)
Definition reload (e : LobbyGameMeta) : LobbyGameMeta :=
  set_last_seen (N.max (e_last_seen e) (e_created_at e)) e.
Lemma restored_games s g : games (from_snapshot s) !! g = reload <$> snap_games s !! g.
Proof. simpl. by rewrite lookup_fmap. Qed.
Lemma restored_next l :
  lobby_wf l → lobby_next_generation l < 2 ^ 64 →
  lobby_next_generation (from_snapshot (to_snapshot l)) = lobby_next_generation l.
Proof.
  intros Hl Hn. simpl. apply N.max_r. apply (seed_le (reload <$> games l)); [done|].
  intros g e. rewrite lookup_fmap. intros (e0&Hg&->)%fmap_Some. exact (lw_old _ Hl g e0 Hg).
Qed.
Lemma restored_wf l :
  lobby_wf l → lobby_next_generation l < 2 ^ 64 → lobby_wf (from_snapshot (to_snapshot l)).
Proof.
  intros Hl Hn.
  assert (∀ g e, games (from_snapshot (to_snapshot l)) !! g = Some e →
    ∃ e0, games l !! g = Some e0 ∧ e = reload e0) as Hg.
  { intros g e. rewrite restored_games. intros (e0&?&?)%fmap_Some. by exists e0. }
  split.
  - intros g e (e0&He0&->)%Hg. apply wf_seen. by apply (lw_entries _ Hl g).
  - change (size (reload <$> games l) ≤ MAX_LOBBY_ENTRIES)%nat. rewrite map_size_fmap. apply Hl.
  - intros g e (e0&He0&->)%Hg. rewrite restored_next by done. exact (lw_old _ Hl g e0 He0).
  - intros g h e1 e2 (e3&H1&->)%Hg (e4&H2&->)%Hg. exact (lw_distinct _ Hl _ _ _ _ H1 H2).
Qed.

(** C39. The broker never exceeds its limits.  In every state that any number of
    connections can reach, whatever they send and whatever the clock and the random
    sources answer: at most 200 listings and 200 tournaments; every listing's texts
    within their limits, one to eight seats, no more players than seats, at most eight
    reservations, so that the byte and word arithmetic on them is exact and the count
    shown never exceeds the seats; and at most fifty entries in each of a connection's
    lists. *)
Theorem broker_bounded {World : Type} `{!BrokerEnv World} n s :
  sys_reach (World := World) n s → n < 2 ^ 64 →
  (size (games (lobby (sys_broker s))) ≤ 200)%nat ∧
  (size (registry (sys_broker s)) ≤ 200)%nat ∧
  (∀ g e, games (lobby (sys_broker s)) !! g = Some e →
     entry_bounded e ∧ 1 <= e_max_players e <= 8 ∧ e_current_players e <= e_max_players e ∧
     (size (e_reservations e) ≤ 8)%nat ∧
     occupied e = e_current_players e + N.of_nat (size (e_reservations e)) ∧
     g_current_players (meta_to_lobby_game g e) <= e_max_players e) ∧
  (∀ i c, sys_conns s !! i = Some c →
     (length (organized_tournaments c) ≤ 50)%nat ∧ (length (joined_tournaments c) ≤ 50)%nat).
Proof.
  intros Hs Hn. destruct (sys_reach_wf n s Hs Hn) as [_ Ht Hl _ Hc _ _].
  split_and!; [by apply Hl|done| |].
  - intros g e He. destruct (lw_entries _ Hl _ _ He) as [Hb Hseats].
    pose proof Hseats as [?? Hr _ _ _ _].
    split_and!; try done; try apply Hseats; [by apply occupied_exact|apply shown_at_most_max].
  - intros i c Hi. destruct (Hc i c Hi) as [_ [??]]. by split.
Qed.

(** C11. The broker always answers.  In every reachable state a frame of an open
    connection is answered, whatever it carries and whatever its sender did before; a
    connection can close, and a sweep completes and announces exactly the listings that
    are stale: no handler panics. *)
Theorem broker_always_answers {World : Type} `{!BrokerEnv World} n s :
  sys_reach (World := World) n s → n < 2 ^ 64 →
  (∀ i c msg (env : World), sys_conns s !! i = Some c → frame_wf msg →
     is_Some (sys_step s (LFrame i msg env))) ∧
  (∀ i c, sys_conns s !! i = Some c → is_Some (sys_step (World := World) s (LClose i))) ∧
  (∀ timeout (env : World), ∃ out s', sys_step s (LSweep timeout env) = Some (out, s') ∧
     ∀ g, ToSubscribers (Server.LobbyGameRemoved g) ∈ out ↔
       ∃ e, games (lobby (sys_broker s)) !! g = Some e ∧
            stale timeout ((now_ms env).1 / 1000) e).
Proof.
  intros Hs Hn. destruct (sys_reach_wf n s Hs Hn) as [Hr _ _ _ _ _ _]. split_and!.
  - intros i c msg env Hi Hmsg. simpl. rewrite Hi. simpl.
    destruct (handle_answered (sys_broker s) c msg env Hr Hmsg) as [[o Ho] _].
    destruct (handle (sys_broker s) c msg env) as [o' [[b' c'] env']]. simpl in Ho.
    rewrite Ho. simpl. by eexists.
  - intros i c Hi. simpl. rewrite Hi. simpl.
    destruct (on_disconnect (sys_broker s) c) as [o [b' c']]. by eexists.
  - intros timeout env.
    destruct (reap_expired_run timeout (sys_broker s) env Hr) as (outs&l&Hrun&_&_&_&Hout&_).
    cbv zeta in Hrun. simpl. rewrite Hrun. by eexists _, _.
Qed.

(** C6. A listing is its host's.  While connection [i] holds the registration under which
    a game is listed, no other connection holds it, and a step by anyone else (opening or
    closing a connection, any frame, a sweep that does not find the listing stale) leaves
    it listed and [i] its host, changed at most in reservations of the sender's own or
    lapsed ones, and in seats taken by the sender's own reservations: unless the broker
    itself minted the same code for the sender's new game. *)
Theorem listing_is_its_hosts {World : Type} `{!BrokerEnv World} n s
    (l : Label (World := World)) out s' i r e :
  sys_reach (World := World) n s → n < 2 ^ 64 → sys_step s l = Some (out, s') →
  hosting s i r e → by_others i (reg_game_code r) e l →
  (∀ j c, sys_conns s !! j = Some c → host_game c = Some r → j = i) ∧
  ∃ e', hosting s' i r e' ∧ tolerated i (reg_game_code r) s s' l e e'.
Proof.
  intros Hs Hn Hstep Hho Hby. pose proof (sys_reach_wf n s Hs Hn) as Hwf.
  split; [|by eapply others_tolerated]. intros j c Hj Hr.
  destruct Hho as [(ci&Hi&Hri) _ _]. by eapply (sw_stamps _ _ Hwf).
Qed.

(** C10. A heartbeat keeps a listing.  A host whose ping is served at time [t] stays the
    host of its listing through any steps of the others, as long as the sweeps run no
    later than their timeout after [t] less the minute by which a refresh may lag, and no
    code is minted twice: the slack of the rate-limited refresh never costs a live host
    its listing. *)
Theorem heartbeat_keeps_listing {World : Type} `{!BrokerEnv World} n s i r e ts
    (env : World) k s' :
  sys_reach (World := World) n s → n + 1 + N.of_nat k < 2 ^ 64 → hosting s i r e →
  (now_ms env).1 / 1000 <= (now_ms (now_ms env).2).1 / 1000 →
  ∃ s1, sys_step s (LFrame i (Client.Ping ts) env) = Some ([ToSelf (Server.Pong ts)], s1) ∧
    (relations.nsteps
       (silent_step i (reg_game_code r) ((now_ms env).1 / 1000)) k s1 s' →
     ∃ e', hosting s' i r e').
Proof.
  intros Hs Hn Hho Hclock. pose proof (sys_reach_wf n s Hs ltac:(lia)) as Hwf.
  destruct (ping_run s i r e ts env Hho Hclock) as (s1&e1&Hstep&Hho1&_&Hseen).
  exists s1. split; [done|]. intros Hk.
  assert (sys_wf (n + 1) s1) as Hwf1 by (eapply sys_step_wf; [done|lia| |done]; done).
  destruct (silent_run k (n + 1) s1 s' i r e1 _ Hwf1 Hn Hho1 Hseen Hk) as (e'&?&_).
  by exists e'.
Qed.

(** C40. The lobby survives a restart.  Reading back what was written, every reachable
    registry keeps its listings, the counter of generations and with it who hosts what
    and every row shown; only a listing last seen before it was created is brought up to
    its creation, and a second restart changes nothing at all.  And a snapshot of any
    older build, whatever counter it carries, is restored with a counter above every
    generation it lists, so that no identity is ever issued twice. *)
Theorem lobby_survives_restart {World : Type} `{!BrokerEnv World} n s :
  sys_reach (World := World) n s → n < 2 ^ 64 →
  let l := lobby (sys_broker s) in
  let l' := from_snapshot (to_snapshot l) in
  (lobby_wf l' ∧ lobby_next_generation l' = lobby_next_generation l ∧
   (∀ r, is_current l' r = is_current l r) ∧
   (∀ g, public_game l' g = public_game l g) ∧
   ((∀ g e, games l !! g = Some e → e_created_at e <= e_last_seen e) → l' = l) ∧
   from_snapshot (to_snapshot l') = l') ∧
  (∀ sn, (∀ g e, snap_games sn !! g = Some e → e_generation e < 2 ^ 64 - 1) →
     ∀ g e, games (from_snapshot sn) !! g = Some e →
       e_generation e < lobby_next_generation (from_snapshot sn)).
Proof.
  intros Hs Hn l l'. destruct (sys_reach_wf n s Hs Hn) as [_ _ Hl Hnext _ _ _].
  fold l in Hl, Hnext. assert (lobby_next_generation l < 2 ^ 64) as Hlt by lia.
  pose proof (restored_wf l Hl Hlt) as Hl'. pose proof (restored_next l Hl Hlt) as Hn'.
  assert (∀ k : LobbyManager, lobby_wf k → lobby_next_generation k < 2 ^ 64 →
    (∀ g e, games k !! g = Some e → e_created_at e <= e_last_seen e) →
    from_snapshot (to_snapshot k) = k) as Hid.
  { intros k Hk Hkn Hseen. pose proof (restored_next k Hk Hkn) as Hkn'.
    pose proof (restored_games (to_snapshot k)) as Hkg.
    destruct (from_snapshot (to_snapshot k)) as [gs next]; destruct k as [ks kn].
    simpl in *. subst next. f_equal. apply map_eq. intros g. rewrite Hkg.
    destruct (ks !! g) as [e|] eqn:He; [|done]. simpl. unfold reload.
    rewrite N.max_l by by eapply Hseen. by destruct e. }
  split; [split_and!|].
  - done.
  - done.
  - intros r. unfold is_current, l'. rewrite restored_games. simpl.
    by destruct (games l !! reg_game_code r).
  - intros g. unfold public_game, l'. rewrite restored_games. simpl.
    by destruct (games l !! g).
  - by apply Hid.
  - apply Hid; [done|unfold l'; by rewrite Hn'|]. intros g e. unfold l'. rewrite restored_games.
    intros (e0&_&->)%fmap_Some. simpl. lia.
  - intros sn Hb g e Hg. simpl. apply N.lt_le_trans with (seed (reload <$> snap_games sn));
      [|apply N.le_max_l].
    apply (seed_ge (reload <$> snap_games sn) g); [|by rewrite lookup_fmap, <-restored_games].
    intros g' e'. rewrite lookup_fmap. intros (e0&He0&->)%fmap_Some. exact (Hb g' e0 He0).
Qed.


(** ** What the guard lets through *)

(** An optional label may be blank at any length, and [handle_create_game] stores and
    broadcasts [cube_name] as it came. *)
Definition blank_cube (n : nat) : DraftLobbyMetadata :=
  {| d_set_code := "SET"; d_draft_kind := "cube";
     d_cube_name := Some (string_of_list_ascii (replicate n " "%char)) |}.
Lemma strip_blanks n : strip n whitespace (replicate n " "%char) = [].
Proof.
  induction n as [|n IH]; [done|].
  assert (find_first (λ w, starts_with w (" "%char :: replicate n " "%char)) whitespace =
    Some [" "%char]) as Hf by (destruct n; vm_compute; reflexivity).
  cbn [strip replicate]. rewrite Hf. cbn [length drop]. by rewrite drop_0.
Qed.
Lemma blank_cube_accepted (f : Field) (n : nat) (max : N) :
  validate_optional_label f (d_cube_name (blank_cube n)) max = Ok tt ∧
  String.length (default EmptyString (d_cube_name (blank_cube n))) = n.
Proof.
  split.
  - simpl. unfold is_blank, of_string.
    rewrite list_ascii_of_string_of_list_ascii.
    unfold trim, trim_start. rewrite length_replicate, strip_blanks. done.
  - simpl. induction n as [|n IH]; simpl; [done|by f_equal].
Qed.

(** ** A sample: a host, and a guest who takes a seat *)
Definition sample_settings : CreateGameSettings :=
  {| c_deck := empty_deck; c_display_name := "Ann"; c_public := true; c_password := None;
     c_timer_seconds := None; c_player_count := 4;
     c_match_config := {| mc_match_type := Bo1; mc_loop_detection := LoopOff |};
     c_format_config := None; c_room_name := Some "Table"; c_host_peer_id := Some "peer-ann";
     c_draft_metadata := None; c_start_when_full := false; c_ranked := false;
     c_requested_code := Some "ABCDEF" |}%string.
Definition at_time (now : N) : CounterEnv := {| clock := now; counter := now |}.
Definition sample_labels : list (Label (World := CounterEnv)) :=
  [LConnect 1; LFrame 1 (Client.ClientHello "1.0" "abc" 1 None) (at_time 1000);
   LFrame 1 (Client.CreateGameWithSettings sample_settings) (at_time 2000);
   LConnect 2; LFrame 2 (Client.ClientHello "1.0" "abc" 1 None) (at_time 3000);
   LFrame 2 Client.SubscribeLobby (at_time 3500);
   LFrame 2 (Client.LookupJoinTarget "ABCDEF" None true (Some "Bob") None) (at_time 4000)]%string.
Definition sample_system : System := default sys_new (sys_run sample_labels sys_new).
Definition sample_registration : LobbyRegistration :=
  {| reg_game_code := "ABCDEF"; reg_generation := 0 |}.
Definition sample_listing : option LobbyGameMeta :=
  games (lobby (sys_broker sample_system)) !! "ABCDEF"%string.

Lemma sample_system_reach : sys_reach (World := CounterEnv) 7 sample_system.
Proof.
  apply (sys_run_reach 0 sample_labels sys_new); [constructor|by repeat constructor|].
  unfold sample_system. destruct (sys_run sample_labels sys_new) eqn:E; [done|].
  vm_compute in E. discriminate.
Qed.
Lemma sample_hosting : ∃ e, sample_listing = Some e ∧ e_current_players e = 1 ∧
  size (e_reservations e) = 1%nat ∧ e_last_seen e = 2 ∧
  hosting sample_system 1 sample_registration e.
Proof.
  eexists. split; [vm_compute; reflexivity|]. split_and!; [reflexivity..|].
  split; [|vm_compute; reflexivity|reflexivity].
  eexists. split; vm_compute; reflexivity.
Qed.

Lemma broker_bounded_witness :
  sys_reach (World := CounterEnv) 7 sample_system ∧
  ∃ e, sample_listing = Some e ∧ size (e_reservations e) = 1%nat ∧
    occupied e = e_current_players e + N.of_nat (size (e_reservations e)).
Proof.
  split; [exact sample_system_reach|]. destruct sample_hosting as (e&He&_&Hr&_).
  exists e. split_and!; [done..|].
  by apply (broker_bounded 7 sample_system sample_system_reach ltac:(lia)) in He
    as (_&_&_&_&?&_).
Defined.
Lemma broker_always_answers_witness :
  is_Some (sys_step sample_system
    (LFrame 2 (Client.JoinGameWithPassword "ABCDEF" empty_deck "Bob" None (Some "token-4000"))
       (at_time 5000)))%string.
Proof.
  destruct (broker_always_answers (World := CounterEnv) 7 sample_system sample_system_reach
    ltac:(lia)) as [Hframe _].
  destruct (sys_conns sample_system !! 2) as [c|] eqn:Hc; [|vm_compute in Hc; discriminate].
  by apply (Hframe 2 c).
Defined.

Definition sample_joined : option (list Outbound * System) :=
  sys_step sample_system
    (LFrame 2 (Client.JoinGameWithPassword "ABCDEF" empty_deck "Bob" None (Some "token-4000"))
       (at_time 5000))%string.
Lemma listing_is_its_hosts_witness :
  ∃ out s' e', sample_joined = Some (out, s') ∧ e_current_players e' = 2 ∧
    size (e_reservations e') = 0%nat ∧ hosting s' 1 sample_registration e'.
Proof.
  destruct sample_joined as [[out s']|] eqn:E; [|vm_compute in E; discriminate].
  destruct sample_hosting as (e&_&_&_&_&Hho).
  destruct (listing_is_its_hosts 7 sample_system _ out s' 1 sample_registration e
    sample_system_reach ltac:(lia) E Hho) as (_&e'&Hho'&_).
  { split; [done|]. intros ?. discriminate. }
  exists out, s', e'. split; [reflexivity|].
  assert (games (lobby (sys_broker s')) !! "ABCDEF"%string =
    default None ((λ r, games (lobby (sys_broker r.2)) !! "ABCDEF"%string) <$> sample_joined)) as Hs
    by by rewrite E.
  pose proof (ho_entry _ _ _ _ Hho') as Hg. simpl in Hg. rewrite Hg in Hs.
  vm_compute in Hs. injection Hs as ->.
  split; [reflexivity|]. split; [reflexivity|]. exact Hho'.
Defined.

Lemma heartbeat_keeps_listing_witness :
  ∃ s1 s', sys_step sample_system (LFrame 1 (Client.Ping 7) (at_time 90000)) =
      Some ([ToSelf (Server.Pong 7)], s1) ∧
    sys_step (World := CounterEnv) s1 (LSweep 300 (at_time 310000)) = Some ([], s') ∧
    ∃ e', hosting s' 1 sample_registration e'.
Proof.
  destruct sample_hosting as (e&_&_&_&_&Hho).
  set (r := sys_step sample_system (LFrame 1 (Client.Ping 7) (at_time 90000))).
  set (r' := s1 ← snd <$> r; sys_step (World := CounterEnv) s1 (LSweep 300 (at_time 310000))).
  destruct r' as [[out s']|] eqn:E; [|vm_compute in E; discriminate].
  destruct (heartbeat_keeps_listing 7 sample_system 1 sample_registration e 7 (at_time 90000) 1
    s' sample_system_reach ltac:(lia) Hho ltac:(vm_compute; discriminate)) as (s1&Hs1&Hk).
  subst r'. unfold r in E. rewrite Hs1 in E. cbn [fmap option_fmap option_map mbind option_bind snd] in E.
  exists s1, s'. split; [exact Hs1|].
  assert (out = []) as ->.
  { assert (Some out = fst <$> (s1 ← snd <$> r;
      sys_step (World := CounterEnv) s1 (LSweep 300 (at_time 310000)))) as Ho.
    { unfold r. rewrite Hs1. cbn [fmap option_fmap option_map mbind option_bind snd].
      by rewrite E. }
    vm_compute in Ho. by injection Ho. }
  split; [exact E|]. apply Hk. eapply nsteps_once.
  eapply silent; [exact E|done|]. vm_compute. discriminate.
Defined.

Lemma lobby_survives_restart_witness :
  ∃ e, sample_listing = Some e ∧
    public_game (from_snapshot (to_snapshot (lobby (sys_broker sample_system)))) "ABCDEF" =
      Some (meta_to_lobby_game "ABCDEF" e).
Proof.
  destruct sample_hosting as (e&He&_). exists e. split; [done|].
  destruct (lobby_survives_restart (World := CounterEnv) 7 sample_system sample_system_reach
    ltac:(lia)) as [(_&_&_&Hrow&_) _].
  rewrite Hrow. unfold sample_listing in He. vm_compute in He. injection He as <-.
  vm_compute. reflexivity.
Defined.

(** A code the broker mints is not checked against the listings: a second host whose mint
    repeats a listed code takes the listing over, and the first is host of nothing. *)
Definition minted_settings : CreateGameSettings :=
  {| c_deck := empty_deck; c_display_name := "Eve"; c_public := true; c_password := None;
     c_timer_seconds := None; c_player_count := 2;
     c_match_config := {| mc_match_type := Bo1; mc_loop_detection := LoopOff |};
     c_format_config := None; c_room_name := None; c_host_peer_id := Some "peer-eve";
     c_draft_metadata := None; c_start_when_full := false; c_ranked := false;
     c_requested_code := None |}%string.
Lemma minted_code_takes_a_listing :
  ∃ s e, sys_run [LConnect 1; LFrame 1 (Client.ClientHello "1.0" "abc" 1 None) (at_time 1);
      LFrame 1 (Client.CreateGameWithSettings minted_settings) (at_time 7);
      LConnect 2; LFrame 2 (Client.ClientHello "1.0" "abc" 1 None) (at_time 1);
      LFrame 2 (Client.CreateGameWithSettings minted_settings) (at_time 7)]%string sys_new = Some s ∧
    games (lobby (sys_broker s)) !! "GAME7"%string = Some e ∧
    (host_game <$> sys_conns s !! 1 =
       Some (Some {| reg_game_code := "GAME7"; reg_generation := 0 |}))%string ∧
    e_generation e = 1.
Proof.
  eexists _, _. split; [vm_compute; reflexivity|]. split; [vm_compute; reflexivity|].
  split; [vm_compute; reflexivity|]. vm_compute. reflexivity.
Qed.
