(* ===== verification/BrokerReplica.v ===== *)
(** * What a subscriber sees

    A subscriber keeps rows by code: an added or updated row replaces, a removal deletes,
    each frame first projected for its build by [lobby_frame_for_viewer].  Whatever the
    others do, the rows kept are the listed games of its build; only the number of players
    may be overstated, for codes whose reservations lapsed unannounced. *)
From Stdlib Require Import String.
From S2P Require Import Prelude.
From S2P Require Import Credentials.
From S2P Require Import TournamentTypes.
From S2P Require Import Tournament.
From S2P Require Import TournamentSteps.
From S2P Require Import TournamentInv.
From S2P Require Import TournamentLife.
From S2P Require Import TournamentSafety.
From S2P Require Import LobbyWire.
From S2P Require Import Validation.
From S2P Require Import Lobby.
From S2P Require Import BrokerTypes.
From S2P Require Import Broker.
From S2P Require Import BrokerTournament.
From S2P Require Import BrokerLobby.
From S2P Require Import BrokerSystem.
From S2P Require Import BrokerSafety.
Local Open Scope N_scope.

(** ** The subscriber's copy *)
Local Abbreviation Rows := (gmap string LobbyGame).

Definition hear_frame (viewer : string) (rows : Rows) (msg : Server.Message) : Rows :=
  match lobby_frame_for_viewer msg viewer with
  | Some (Server.LobbyUpdate games) => list_to_map ((λ g, (g_game_code g, g)) <$> games)
  | Some (Server.LobbyGameAdded g) | Some (Server.LobbyGameUpdated g) =>
      <[g_game_code g := g]> rows
  | Some (Server.LobbyGameRemoved code) => delete code rows
  | _ => rows
  end.
(** What reaches a subscriber that is not the sender. *)
Definition hear (viewer : string) (rows : Rows) (o : Outbound) : Rows :=
  match o with ToSubscribers msg => hear_frame viewer rows msg | _ => rows end.
Definition hear_all (viewer : string) : Rows → list Outbound → Rows := foldl (hear viewer).

(** The row listed under a code, for a viewer. *)
Definition shows (viewer : string) (l : LobbyManager) (g : string) : option LobbyGame :=
  row ← public_game l g; if lobby_row_visible_to row viewer then Some row else None.

Definition with_count (n : N) (r : LobbyGame) : LobbyGame :=
  {| g_game_code := g_game_code r; g_host_name := g_host_name r;
     g_created_at := g_created_at r; g_has_password := g_has_password r;
     g_host_version := g_host_version r; g_host_build_commit := g_host_build_commit r;
     g_current_players := n; g_max_players := g_max_players r; g_format := g_format r;
     g_room_name := g_room_name r; g_is_p2p := g_is_p2p r; g_is_sandbox := g_is_sandbox r;
     g_is_ranked := g_is_ranked r; g_draft_metadata := g_draft_metadata r |}.

(** The row [old] overstates the players of [now], within its seats. *)
Definition overstates (old now : LobbyGame) : Prop :=
  ∃ n, old = with_count n now ∧ g_current_players now <= n <= g_max_players now.
Definition agrees (stale : Prop) (old now : option LobbyGame) : Prop :=
  old = now ∨ stale ∧ ∃ r r', old = Some r ∧ now = Some r' ∧ overstates r r'.

(** The copy is exact outside [D], and overstates at most inside. *)
Definition tracks (viewer : string) (rows : Rows) (l : LobbyManager) (D : gset string) : Prop :=
  ∀ g, agrees (g ∈ D) (rows !! g) (shows viewer l g).
(** Hearing [out] takes a copy of [l], exact outside [D], to one of [l'] exact outside
    [D']. *)
Definition informs (D : gset string) (l : LobbyManager) (out : list Outbound)
    (D' : gset string) (l' : LobbyManager) : Prop :=
  ∀ viewer rows, tracks viewer rows l D → tracks viewer (hear_all viewer rows out) l' D'.

Lemma agrees_mono (P Q : Prop) o o' : (P → Q) → agrees P o o' → agrees Q o o'.
Proof. unfold agrees. naive_solver. Qed.
Lemma informs_app D l o D1 l1 o' D2 l2 :
  informs D l o D1 l1 → informs D1 l1 o' D2 l2 → informs D l (o ++ o') D2 l2.
Proof. intros H1 H2 v m Hm. unfold hear_all. rewrite foldl_app. by apply H2, H1. Qed.
Lemma informs_mono D D' E E' l o l' :
  D ⊆ D' → E' ⊆ E → informs D' l o E' l' → informs D l o E l'.
Proof.
  intros HD HE Hi v m Hm g. eapply agrees_mono; [apply HE|]. apply Hi.
  intros h. eapply agrees_mono; [apply HD|apply Hm].
Qed.
Lemma informs_refl D l : informs D l [] D l.
Proof. by intros v m. Qed.

(** Messages that say nothing of a lobby row. *)
Definition neutral (o : Outbound) : Prop :=
  match o with
  | ToSubscribers (Server.LobbyUpdate _) | ToSubscribers (Server.LobbyGameAdded _)
  | ToSubscribers (Server.LobbyGameUpdated _) | ToSubscribers (Server.LobbyGameRemoved _) => False
  | _ => True
  end.
Lemma hear_neutral v rows out : Forall neutral out → hear_all v rows out = rows.
Proof.
  revert rows. induction out as [|o out IH]; intros rows Ho; [done|].
  apply Forall_cons in Ho as [Ho Hout]. simpl. rewrite IH by done.
  destruct o as [|msg| | |]; try done. by destruct msg.
Qed.
Lemma informs_neutral D l out D' l' o :
  Forall neutral o → informs D l out D' l' → informs D l (out ++ o) D' l'.
Proof.
  intros Ho Hi. eapply informs_app; [exact Hi|]. intros v m Hm. by rewrite hear_neutral.
Qed.
Lemma informs_after D l o D' l' out :
  Forall neutral o → informs D l out D' l' → informs D l (o ++ out) D' l'.
Proof.
  intros Ho Hi. eapply informs_app; [|exact Hi]. intros v m Hm. by rewrite hear_neutral.
Qed.
(** Nothing that matters said, and every row as it was. *)
Lemma informs_same D l l' o :
  Forall neutral o → (∀ g, public_game l' g = public_game l g) → informs D l o D l'.
Proof.
  intros Ho Hs v m Hm g. rewrite hear_neutral by done. unfold shows. rewrite Hs. apply Hm.
Qed.

(** ** Rows under a change of one listing *)
Lemma public_update_ne l g f h : g ≠ h → public_game (update_entry g f l) h = public_game l h.
Proof. intros Hne. unfold public_game. by rewrite lookup_update, decide_False. Qed.
Lemma public_code l g r : public_game l g = Some r → g_game_code r = g.
Proof.
  unfold public_game. intros (e&_&He)%bind_Some. case_match; by simplify_eq.
Qed.
Lemma shows_code v l g r : shows v l g = Some r → g_game_code r = g.
Proof.
  unfold shows. intros (r'&Hr&Hv)%bind_Some. case_match; simplify_eq. by eapply public_code.
Qed.

Lemma visible_count n r v : lobby_row_visible_to (with_count n r) v = lobby_row_visible_to r v.
Proof. done. Qed.
Lemma overstates_trans a b c : overstates a b → overstates b c → overstates a c.
Proof. intros (n&->&?) (k&->&?). exists n. simpl in *. split; [done|lia]. Qed.

(** A row changed silently at [g], to one the old one overstates. *)
Lemma informs_lower D l l' g :
  (∀ h, h ≠ g → public_game l' h = public_game l h) →
  (public_game l' g = public_game l g ∨
   ∃ r r', public_game l g = Some r ∧ public_game l' g = Some r' ∧ overstates r r') →
  informs D l [] (D ∪ {[g]}) l'.
Proof.
  intros Hne Hg v m Hm h. simpl. specialize (Hm h). destruct (decide (h = g)) as [->|Hh].
  - destruct Hg as [Hg|(r&r'&Hr&Hr'&Ho)].
    + unfold shows in *. rewrite Hg. eapply agrees_mono; [|exact Hm]. set_solver.
    + unfold shows in *. rewrite Hr in Hm. rewrite Hr'. simpl in *.
      pose proof Ho as (n&->&_). rewrite visible_count in Hm.
      destruct (lobby_row_visible_to r' v).
      * right. split; [set_solver|]. destruct Hm as [->|(_&x&y&Hx&[= <-]&Hxy)].
        -- by eexists _, _.
        -- eexists x, r'. split_and!; [done..|]. by eapply overstates_trans.
      * destruct Hm as [->|(_&x&y&_&[=]&_)]. by left.
  - unfold shows in *. rewrite Hne by done. eapply agrees_mono; [|exact Hm]. set_solver.
Qed.

(** The row now listed is announced: the copy is exact there again. *)
Lemma informs_announce D l l' g :
  (∀ h, h ≠ g → public_game l' h = public_game l h) →
  (public_game l' g = None → public_game l g = None) →
  informs D l (announce_update l' g) (D ∖ {[g]}) l'.
Proof.
  intros Hne Hg v m Hm h. unfold announce_update.
  destruct (public_game l' g) as [r|] eqn:Hr.
  - pose proof (public_code _ _ _ Hr) as Hc. simpl. unfold hear_frame. simpl.
    unfold row_delivery. destruct (decide (h = g)) as [->|Hh].
    + left. unfold shows. rewrite Hr. simpl.
      destruct (lobby_row_visible_to r v); simpl; rewrite Hc; [by rewrite lookup_insert_eq|].
      by rewrite lookup_delete_eq.
    + specialize (Hm h). unfold shows in *. rewrite (Hne h Hh).
      eapply agrees_mono; [intros Hin; apply elem_of_difference; split;
        [exact Hin|by apply not_elem_of_singleton]|].
      destruct (lobby_row_visible_to r v); simpl; rewrite Hc;
        [by rewrite lookup_insert_ne|by rewrite lookup_delete_ne].
  - simpl. specialize (Hm h). destruct (decide (h = g)) as [->|Hh].
    + left. unfold shows in *. rewrite Hr. rewrite (Hg eq_refl) in Hm. simpl in *.
      by destruct Hm as [->|(_&x&y&_&[=]&_)].
    + unfold shows in *. rewrite (Hne h Hh). eapply agrees_mono; [|exact Hm]. set_solver.
Qed.

(** A listing removed and its removal announced; or added where nothing was listed. *)
Lemma informs_removed D l g :
  informs D l (announce_removed true g) D (unregister_game g l).
Proof.
  intros v m Hm h. simpl. unfold hear_frame. simpl. specialize (Hm h).
  destruct (decide (h = g)) as [->|Hh].
  - left. unfold shows, public_game. simpl. by rewrite !lookup_delete_eq.
  - unfold shows, public_game in *. simpl. by rewrite !lookup_delete_ne.
Qed.
Lemma informs_added D l l' g :
  (∀ h, h ≠ g → public_game l' h = public_game l h) → public_game l g = None →
  informs D l (announce_added l' g) D l'.
Proof.
  intros Hne Hg v m Hm h. unfold announce_added. specialize (Hm h).
  destruct (decide (h = g)) as [->|Hh].
  - unfold shows in *. rewrite Hg in Hm. simpl in Hm.
    assert (m !! g = None) as Hmg by by destruct Hm as [->|(_&x&y&_&[=]&_)].
    left. destruct (public_game l' g) as [r|] eqn:Hr; [|done].
    pose proof (public_code _ _ _ Hr) as Hc. simpl. unfold hear_frame. simpl.
    unfold row_delivery. destruct (lobby_row_visible_to r v); simpl; [|done].
    by rewrite Hc, lookup_insert_eq.
  - unfold shows in *. rewrite (Hne h Hh).
    destruct (public_game l' g) as [r|] eqn:Hr; [|done].
    pose proof (public_code _ _ _ Hr) as Hc. simpl. unfold hear_frame. simpl.
    unfold row_delivery. destruct (lobby_row_visible_to r v); simpl; [|done].
    by rewrite Hc, lookup_insert_ne.
Qed.

(** Changes to one listing that never raise the count shown. *)
Lemma update_unlisted l g f h :
  games l !! g = None → public_game (update_entry g f l) h = public_game l h.
Proof.
  intros Hg. unfold public_game. rewrite lookup_update. case_decide; [|done]. by subst; rewrite Hg.
Qed.
Lemma public_entry l g e :
  games l !! g = Some e →
  public_game l g = if listed e then Some (meta_to_lobby_game g e) else None.
Proof. intros He. unfold public_game. by rewrite He. Qed.
Lemma public_updated l g f e :
  games l !! g = Some e →
  public_game (update_entry g f l) g =
    if listed (f e) then Some (meta_to_lobby_game g (f e)) else None.
Proof.
  intros He. unfold public_game. rewrite lookup_update, decide_True by done. by rewrite He.
Qed.
Lemma fewer_overstates g e rs :
  entry_wf e → rs ⊆ e_reservations e →
  overstates (meta_to_lobby_game g e) (meta_to_lobby_game g (set_reservations rs e)).
Proof.
  intros He Hrs. exists (shown_players e). split; [done|].
  pose proof (wf_fewer rs e He Hrs) as He'. simpl. unfold shown_players.
  rewrite (occupied_exact e), (occupied_exact (set_reservations rs e)) by (apply He || apply He').
  pose proof (map_subseteq_size _ _ Hrs). simpl. lia.
Qed.
Lemma informs_fewer D l g (f : gmap string LobbyReservation → gmap string LobbyReservation) :
  lobby_wf l → (∀ rs, f rs ⊆ rs) →
  informs D l [] (D ∪ {[g]}) (update_entry g (λ e, set_reservations (f (e_reservations e)) e) l).
Proof.
  intros Hl Hf. apply informs_lower.
  - intros h Hh. by apply public_update_ne.
  - destruct (games l !! g) as [e|] eqn:He; [|left; by apply update_unlisted].
    rewrite (public_entry _ _ _ He), (public_updated _ _ _ _ He).
    change (listed (set_reservations _ e)) with (listed e).
    destruct (listed e); [|by left]. right. eexists _, _. split_and!; [done..|].
    apply fewer_overstates; [by apply (lw_entries _ Hl g)|apply Hf].
Qed.
Lemma informs_prune D l g now :
  lobby_wf l → informs D l [] (D ∪ {[g]}) (update_entry g (cleanup_expired_for now) l).
Proof.
  intros Hl. apply (informs_fewer D l g (filter (λ kr, active now kr.2 = true))); [done|].
  intros rs. apply map_filter_subseteq.
Qed.
(** Where nothing is listed the copy is exact. *)
Lemma informs_absent E D l l' o g :
  games l' !! g = None → informs E l o (D ∪ {[g]}) l' → informs E l o D l'.
Proof.
  intros Hg Hi v m Hm h. specialize (Hi v m Hm h).
  destruct (decide (h = g)) as [->|Hh]; [|eapply agrees_mono; [|exact Hi]; set_solver].
  unfold shows, public_game in *. rewrite Hg in *. simpl in *.
  destruct Hi as [->|(_&x&y&_&[=]&_)]. by left.
Qed.
(** So it is where every seat is taken. *)
Lemma informs_full E D l l' o g e :
  games l' !! g = Some e → e_max_players e <= occupied e →
  informs E l o (D ∪ {[g]}) l' → informs E l o D l'.
Proof.
  intros Hg Hfull Hi v m Hm h. specialize (Hi v m Hm h).
  destruct (decide (h = g)) as [->|Hh]; [|eapply agrees_mono; [|exact Hi]; set_solver].
  destruct Hi as [Hi|(_&x&y&Hx&Hy&n&->&Hn1&Hn2)]; [by left|]. left. rewrite Hx, Hy. f_equal.
  unfold shows in Hy. rewrite (public_entry _ _ _ Hg) in Hy.
  apply bind_Some in Hy as (r&Hr&Hy). destruct (listed e); simplify_eq.
  destruct (lobby_row_visible_to _ _); simplify_eq/=. unfold shown_players in Hn1.
  replace n with (shown_players e) by (unfold shown_players; lia). done.
Qed.

(** A seat taken by a reservation was already counted. *)
Lemma consume_same l g k h :
  lobby_wf l → public_game (consume_reservation g k l).2 h = public_game l h.
Proof.
  intros Hl. destruct (consume_cases g k l) as [->|(e&r&He&Hr&->)]; [done|].
  destruct (decide (h = g)) as [->|Hh]; [|by apply public_update_ne].
  rewrite (public_entry _ _ _ He), (public_updated _ _ _ _ He).
  destruct (lw_entries _ Hl _ _ He) as [Hb Hs].
  assert (entry_wf (set_reservations (delete k (e_reservations e)) e)) as Hw
    by (apply wf_fewer; [done|apply delete_subseteq]).
  pose proof Hs as [Hmax Hcur Hres _ _ _ _].
  assert (size (delete k (e_reservations e)) = size (e_reservations e) - 1)%nat as Hsize.
  { rewrite map_size_delete_Some by (by eexists). lia. }
  assert (size (e_reservations e) ≠ 0)%nat as Hne.
  { intros H0%map_size_empty_inv. rewrite H0 in Hr. by apply lookup_empty_Some in Hr. }
  unfold listed. simpl. destruct (_ && _); [|done]. f_equal.
  assert (shown_players (set_seats (N.min (u32_add (e_current_players e) 1) (e_max_players e))
    (e_max_players e) (set_reservations (delete k (e_reservations e)) e)) = shown_players e)
    as Hshown.
  { unfold MAX_PLAYER_COUNT in *. unfold shown_players. rewrite (occupied_exact e) by done.
    rewrite wadd_small by lia. rewrite occupied_exact.
    - simpl. rewrite Hsize. lia.
    - apply wf_seats; [done|lia|unfold MAX_PLAYER_COUNT; lia]. }
  unfold meta_to_lobby_game. by rewrite Hshown.
Qed.
Lemma release_none l g k h :
  (release_reservation g k l).1 = false →
  public_game (release_reservation g k l).2 h = public_game l h.
Proof.
  unfold release_reservation. destruct (games l !! g) as [e|] eqn:Hg; [|done]. simpl.
  intros Hk%bool_decide_eq_false. destruct (decide (h = g)) as [->|Hh];
    [|by apply public_update_ne].
  rewrite (public_entry _ _ _ Hg), (public_updated _ _ _ _ Hg).
  assert (set_reservations (delete k (e_reservations e)) e = e) as Hid.
  { rewrite delete_id by by apply eq_None_not_Some. by destruct e. }
  cbn beta. by rewrite Hid.
Qed.
Lemma informs_release D l g k :
  lobby_wf l → informs D l [] (D ∪ {[g]}) (release_reservation g k l).2.
Proof.
  intros Hl. rewrite release_as_update. apply (informs_fewer D l g (delete k)); [done|].
  intros rs. apply delete_subseteq.
Qed.
Lemma release_wf l g k : lobby_wf l → lobby_wf (release_reservation g k l).2.
Proof.
  intros Hl. rewrite release_as_update. apply update_wf; [done|]. intros e _ He.
  split; [|done]. apply wf_fewer; [done|apply delete_subseteq].
Qed.
Lemma prune_wf l g now : lobby_wf l → lobby_wf (update_entry g (cleanup_expired_for now) l).
Proof. intros Hl. apply update_wf; [done|]. intros e _ He. split; [by apply wf_prune|done]. Qed.

(** Announcing what is listed anyway does no harm. *)
Lemma announce_harmless D l g : informs D l (announce_update l g) (D ∖ {[g]}) l.
Proof. by apply informs_announce. Qed.
Lemma informs_announced E D l o l' g :
  informs E l o (D ∪ {[g]}) l' → informs E l (o ++ announce_update l' g) D l'.
Proof.
  intros Hi. eapply informs_app; [exact Hi|].
  eapply informs_mono; [reflexivity| |apply announce_harmless]. set_solver.
Qed.

(** A change of the listing under [g] only, which keeps whether it is listed. *)
Definition local (g : string) (l l' : LobbyManager) : Prop :=
  (∀ h, h ≠ g → public_game l' h = public_game l h) ∧
  (public_game l' g = None → public_game l g = None).
Lemma local_refl g l : local g l l.
Proof. by split. Qed.
Lemma local_trans g l1 l2 l3 : local g l1 l2 → local g l2 l3 → local g l1 l3.
Proof.
  intros [H1 H1'] [H2 H2']. split; [|by auto]. intros h Hh. by rewrite H2, H1.
Qed.
Lemma local_update g f l : (∀ e, listed (f e) = listed e) → local g l (update_entry g f l).
Proof.
  intros Hf. split; [intros h Hh; by apply public_update_ne|].
  destruct (games l !! g) as [e|] eqn:He; [|by rewrite update_unlisted].
  rewrite (public_entry _ _ _ He), (public_updated _ _ _ _ He), Hf. by destruct (listed e).
Qed.
Lemma local_consume g k l : local g l (consume_reservation g k l).2.
Proof.
  destruct (consume_cases g k l) as [->|(e&r&_&_&->)]; [apply local_refl|].
  by apply local_update.
Qed.
Lemma local_consume_all g ks l : local g l (consume_all g ks l).2.
Proof.
  revert l. induction ks as [|k ks IH]; intros l; simpl; [apply local_refl|].
  pose proof (local_consume g k l) as Hc. destruct (consume_reservation g k l) as [c l1].
  specialize (IH l1). destruct (consume_all g ks l1) as [any l2]. by eapply local_trans.
Qed.
(** Such a change, announced. *)
Lemma informs_local E D l l' g :
  local g l l' → E ⊆ D ∪ {[g]} → informs E l (announce_update l' g) D l'.
Proof.
  intros [Hne Hg] HE. eapply informs_mono; [exact HE| |by apply informs_announce]. set_solver.
Qed.

(** ** The handlers *)
Section handlers.
Context {World : Type} `{!BrokerEnv World}.
Implicit Types (b : Broker) (conn : ConnState) (env : World).

Lemma seen_same l g now h : public_game (update_entry g (set_last_seen now) l) h = public_game l h.
Proof.
  destruct (decide (h = g)) as [->|Hh]; [|by apply public_update_ne].
  destruct (games l !! g) as [e|] eqn:He; [|by apply update_unlisted].
  by rewrite (public_entry _ _ _ He), (public_updated _ _ _ _ He).
Qed.
Lemma refresh_same b conn env g :
  public_game (lobby (refresh_host b conn env).1) g = public_game (lobby b) g.
Proof.
  unfold refresh_host, refresh_liveness. destruct (host_game conn) as [r|]; [|done].
  destruct (liveness_refresh_due r (lobby b) env) as [[] env1]; simpl; [|done].
  rewrite clock_secs_run. simpl. apply seen_same.
Qed.

Lemma informs_unregistered D l r :
  informs D l (announce_removed (unregister_registration r l).1 (reg_game_code r)) D
    (unregister_registration r l).2.
Proof.
  unfold unregister_registration. destruct (is_current l r); [apply informs_removed|].
  apply informs_refl.
Qed.
Lemma drop_host_informs D b conn :
  informs D (lobby b) (drop_host_game b conn).1 D (lobby (drop_host_game b conn).2.1).
Proof.
  unfold drop_host_game. destruct (host_game conn) as [r|]; [|apply informs_refl].
  pose proof (informs_unregistered D (lobby b) r) as Hi.
  by destruct (unregister_registration r (lobby b)) as [gone l].
Qed.
Lemma unregister_informs D b conn g :
  informs D (lobby b) (handle_unregister b conn g).1 D (lobby (handle_unregister b conn g).2.1).
Proof.
  unfold handle_unregister, take_host_game_if.
  destruct (host_game conn) as [r|]; [|by apply informs_same; [repeat constructor|]]. simpl.
  destruct (String.eqb_spec (reg_game_code r) g) as [<-|];
    [|by apply informs_same; [repeat constructor|]].
  pose proof (informs_unregistered D (lobby b) r) as Hi.
  by destruct (unregister_registration r (lobby b)) as [gone l].
Qed.

(** A listing under the code is replaced only when the broker minted it again. *)
Definition mint_fresh l (s : CreateGameSettings) env : Prop :=
  c_requested_code s = None → games l !! (new_game_code env).1 = None.

Lemma drop_host_absent b conn g :
  games (lobby b) !! g = None → games (lobby (drop_host_game b conn).2.1) !! g = None.
Proof.
  intros Hg. unfold drop_host_game, unregister_registration.
  destruct (host_game conn) as [r|]; [|done]. destruct (is_current (lobby b) r); [|done]. simpl.
  by apply lookup_delete_None; right.
Qed.
Lemma create_informs D b conn s env :
  mint_fresh (lobby b) s env →
  informs D (lobby b) (handle_create_game b conn s env).1 D
    (lobby (handle_create_game b conn s env).2.1.1).
Proof.
  intros Hmint. unfold handle_create_game.
  destruct (trimmed _) as [peer|]; [|by apply informs_same; [repeat constructor|]].
  destruct (client_hello conn) as [hello|]; [|by apply informs_same; [repeat constructor|]].
  pose proof (drop_host_informs D b conn) as Hd.
  pose proof (λ g, drop_host_absent b conn g) as Hn.
  destruct (drop_host_game b conn) as [out [b1 conn1]]. simpl in Hd, Hn. cbv zeta.
  destruct (_ <=? _)%nat; [by apply informs_neutral; [repeat constructor|]|].
  destruct (match c_requested_code s with Some _ => _ | None => _ end) as [|[g env1]] eqn:Hg;
    [by apply informs_neutral; [repeat constructor|]|].
  assert (games (lobby b1) !! g = None) as Hfree.
  { unfold mint_fresh in Hmint. destruct (c_requested_code s) as [g'|].
    - unfold has_game in Hg. case_bool_decide; [done|]. simplify_eq.
      by apply eq_None_not_Some.
    - injection Hg as Hg. apply Hn. specialize (Hmint eq_refl). by rewrite Hg in Hmint. }
  destruct (new_token env1) as [token env2]. rewrite register_run.
  destruct (now_ms env2) as [now env3]. simpl.
  eapply informs_app; [exact Hd|]. apply (informs_after _ _ [_]); [repeat constructor|].
  match goal with |- context [<[g := ?x]> _] => set (e := x) end.
  assert (∀ h, h ≠ g → public_game {| games := <[g := e]> (games (lobby b1));
      lobby_next_generation := u64_add (lobby_next_generation (lobby b1)) 1 |} h =
    public_game (lobby b1) h) as Hne.
  { intros h Hh. unfold public_game. simpl. by rewrite lookup_insert_ne. }
  assert (public_game (lobby b1) g = None) as Hnone by (unfold public_game; by rewrite Hfree).
  destruct (c_public s) eqn:Hpub; [by apply informs_added|].
  apply informs_same; [constructor|]. intros h. destruct (decide (h = g)) as [->|Hh]; [|by apply Hne].
  rewrite Hnone. unfold public_game. simpl. rewrite lookup_insert_eq. simpl.
  unfold listed. simpl. done.
Qed.

Lemma gates_neutral b conn g p out : join_gates b conn g p = inl out → Forall neutral out.
Proof. unfold join_gates. intros Hg. repeat case_match; simplify_eq; repeat constructor. Qed.
Lemma join_informs D b conn g p t :
  lobby_wf (lobby b) →
  informs D (lobby b) (handle_join b conn g p t).1 D (lobby (handle_join b conn g p t).2.1).
Proof.
  intros Hl. apply informs_same.
  - unfold handle_join. destruct (join_gates b conn g p) as [out|info] eqn:Hg.
    + by eapply gates_neutral.
    + destruct (negb _); [repeat constructor|].
      destruct (match t with Some _ => _ | None => _ end) as [[r b1] conn1].
      destruct r as [[]|]; [|repeat constructor..|]; destruct (_ && _); repeat constructor.
  - intros h. unfold handle_join. destruct (join_gates b conn g p) as [|info]; [done|].
    destruct (negb _); [done|]. destruct t as [k|]; [|by destruct (_ && _)].
    unfold consume_owned_reservation. destruct (conn_holds_reservation _ _ _); [|done]. simpl.
    pose proof (consume_same (lobby b) g k h Hl) as Hc.
    destruct (consume_reservation g k (lobby b)) as [[] l]; simpl in *; [|done].
    by destruct (_ && _).
Qed.

Lemma active_informs D l g k env :
  lobby_wf l →
  let '(act, l', env') := has_active_reservation g k l env in
  informs D l [] (D ∪ {[g]}) l' ∧ lobby_wf l'.
Proof.
  intros Hl. unfold has_active_reservation. destruct (games l !! g) as [e|].
  - destruct (now_ms env) as [now env']. split; [by apply informs_prune|by apply prune_wf].
  - split; [|done]. eapply informs_mono; [reflexivity| |apply informs_refl]. set_solver.
Qed.
Lemma retain_informs D g rs l env :
  lobby_wf l →
  let '(kept, any, l', env') := retain_active g rs l env in
  informs D l [] (D ∪ {[g]}) l' ∧ lobby_wf l'.
Proof.
  revert D l env. induction rs as [|[h k] rs IH]; intros D l env Hl; simpl.
  { split; [|done]. eapply informs_mono; [reflexivity| |apply informs_refl]. set_solver. }
  destruct (String.eqb_spec h g) as [->|Hne]; simpl.
  - pose proof (active_informs D l g k env Hl) as Ha.
    destruct (has_active_reservation g k l env) as [[act l1] env1]. destruct Ha as [Ha Hl1].
    specialize (IH (D ∪ {[g]}) l1 env1 Hl1). destruct (retain_active g rs l1 env1) as [[[kept any] l2] env2].
    destruct IH as [Hi Hl2]. split; [|done].
    apply (informs_app _ _ [] (D ∪ {[g]}) l1); [done|].
    eapply informs_mono; [reflexivity| |exact Hi]. set_solver.
  - specialize (IH D l env Hl). by destruct (retain_active g rs l env) as [[[kept any] l2] env2].
Qed.

Lemma reserve_informs D g name l env :
  lobby_wf l →
  let '(r, l', env') := reserve_seat g name l env in
  informs (D ∪ {[g]}) l match r with inl _ => [] | inr _ => announce_update l' g end D l'.
Proof.
  intros Hl. unfold reserve_seat. destruct (now_ms env) as [now env1].
  destruct (games l !! g) as [e|] eqn:Hg.
  - destruct (_ && _) eqn:Hfull.
    + eapply (informs_full _ _ _ _ _ g (cleanup_expired_for now e)).
      * by rewrite lookup_update, decide_True, Hg.
      * by apply andb_true_iff in Hfull as [_ Hfull%N.leb_le].
      * eapply informs_mono; [reflexivity| |by apply informs_prune]. set_solver.
    + destruct (new_token env1) as [token env2]. apply informs_local; [|done].
      eapply local_trans; by apply local_update.
  - eapply informs_absent; [exact Hg|]. apply informs_refl.
Qed.

(** The refusal that prunes without a word: the sender already holds a reservation. *)
Definition says_already (o : Outbound) : bool :=
  match o with ToSelf (Server.Error AlreadyReserved _) => true | _ => false end.
Definition lapsed (g : string) (out : list Outbound) : gset string :=
  if existsb says_already out then {[g]} else ∅.

Lemma lookup_reserve_informs D b conn g d info env :
  lobby_wf (lobby b) →
  let '(out, (b', conn', env')) := lookup_reserve b conn g d info env in
  informs D (lobby b) out (D ∪ lapsed g out)
    (lobby b').
Proof.
  intros Hl. unfold lookup_reserve.
  pose proof (retain_informs D g (reservations conn) (lobby b) env Hl) as Hr.
  destruct (retain_active g (reservations conn) (lobby b) env) as [[[kept any] l] env1].
  destruct Hr as [Hr Hl1]. destruct any.
  { apply (informs_neutral _ _ []); [repeat constructor|exact Hr]. }
  pose proof (reserve_informs D g (default "Player"%string d) l env1 Hl1) as Hres.
  destruct (reserve_seat g (default "Player"%string d) l env1) as [[[e|res] l2] env2].
  - simpl. eapply informs_mono; [reflexivity|apply union_subseteq_l|].
    apply (informs_neutral _ _ []); [repeat constructor|].
    apply (informs_app _ _ [] _ _ [] _ _ Hr Hres).
  - assert (∀ o, Forall neutral o →
      informs D (lobby b) (announce_update l2 g ++ o) D l2) as Ho.
    { intros o Ho. apply informs_neutral; [done|].
      apply (informs_app _ _ [] _ _ (announce_update l2 g) _ _ Hr Hres). }
    destruct (join_target_info l2 g) as [latest|]; simpl;
      (eapply informs_mono; [reflexivity|apply union_subseteq_l|]; apply Ho; repeat constructor).
Qed.

Lemma lookup_informs D b conn g p r d t env :
  lobby_wf (lobby b) →
  let '(out, (b', conn', env')) := handle_lookup b conn g p r d t env in
  informs D (lobby b) out (D ∪ lapsed g out)
    (lobby b').
Proof.
  intros Hl. unfold handle_lookup. destruct (join_gates b conn g p) as [out|info] eqn:Hgate.
  { eapply informs_mono; [reflexivity|apply union_subseteq_l|].
    apply informs_same; [by eapply gates_neutral|done]. }
  destruct (match t with Some _ => _ | None => _ end) as [[rel b1] conn1] eqn:E.
  set (pre := match rel with Some RReleased => announce_update (lobby b1) g | _ => [] end).
  assert (informs D (lobby b) pre D (lobby b1) ∧ lobby_wf (lobby b1)) as [Hpre Hl1].
  { destruct t as [k|]; [|by simplify_eq; split; [apply informs_refl|]].
    unfold release_owned_reservation in E.
    destruct (conn_holds_reservation _ _ _) eqn:Hk; simpl in E;
      [|by simplify_eq/=; split; [apply informs_refl|]].
    pose proof (release_none (lobby b) g k) as Hnone.
    pose proof (informs_release D (lobby b) g k Hl) as Hrel.
    pose proof (release_wf (lobby b) g k Hl) as Hwf.
    destruct (release_reservation g k (lobby b)) as [[] l]; simplify_eq/=.
    - split; [|done]. apply (informs_announced _ _ _ [] _ _ Hrel).
    - split; [|done]. apply informs_same; [constructor|]. intros h. by apply Hnone. }
  assert (∀ o, Forall neutral o → informs D (lobby b) (pre ++ o)
    (D ∪ lapsed g (pre ++ o)) (lobby b1)) as Hstop.
  { intros o Ho. eapply informs_mono; [reflexivity|apply union_subseteq_l|].
    by apply informs_neutral. }
  assert (∀ o, lapsed g (pre ++ o) = lapsed g o) as Hno.
  { intros o. subst pre. destruct rel as [[]|]; try done. unfold announce_update.
    by destruct (public_game _ _). }
  pose proof (lookup_reserve_informs D b1 conn1 g d info env Hl1) as Hr.
  destruct (lookup_reserve b1 conn1 g d info env) as [out' [[b' conn'] env']].
  assert (informs D (lobby b) (pre ++ out')
    (D ∪ lapsed g (pre ++ out')) (lobby b')) as Hgo.
  { rewrite Hno. eapply informs_app; [exact Hpre|exact Hr]. }
  destruct rel as [[]|];
    [|apply (Hstop [error NotOwnedReservation]); repeat constructor|..];
    clearbody pre; (destruct r; [exact Hgo|]); destruct (_ && _);
    apply Hstop; repeat constructor.
Qed.

Lemma update_informs D b conn g c m ks env :
  informs D (lobby b) (handle_update_metadata b conn g c m ks env).1 D
    (lobby (handle_update_metadata b conn g c m ks env).2.1.1).
Proof.
  unfold handle_update_metadata.
  destruct (host_game conn) as [r|]; [|by apply informs_same; [repeat constructor|]].
  destruct (negb _); [by apply informs_same; [repeat constructor|]|].
  destruct (negb _); [by apply informs_same; [repeat constructor|]|].
  pose proof (local_consume_all g ks (lobby b)) as Hc.
  destruct (consume_all g ks (lobby b)) as [consumed l]. simpl in Hc.
  unfold set_current_players. destruct (now_ms env) as [now env1]. simpl.
  apply informs_local; [|set_solver]. eapply local_trans; [exact Hc|].
  eapply local_trans; by apply local_update.
Qed.

Lemma release_all_informs D rs l :
  lobby_wf l →
  let '(changed, l') := release_reservations rs l in
  informs D l [] (D ∪ list_to_set (fst <$> rs)) l' ∧
  (changed = false → ∀ h, public_game l' h = public_game l h) ∧ lobby_wf l'.
Proof.
  revert D l. induction rs as [|[g k] rs IH]; intros D l Hl; simpl.
  { split_and!; [|done|done]. eapply informs_mono; [reflexivity| |apply informs_refl]. set_solver. }
  pose proof (informs_release D l g k Hl) as Hr. pose proof (release_wf l g k Hl) as Hl1.
  pose proof (release_none l g k) as Hn.
  destruct (release_reservation g k l) as [rel l1]. simpl in Hr, Hl1, Hn.
  specialize (IH (D ∪ {[g]}) l1 Hl1). destruct (release_reservations rs l1) as [changed l2].
  destruct IH as (Hi&Hsame&Hl2). split_and!; [| |done].
  - apply (informs_app _ _ [] (D ∪ {[g]}) l1); [done|].
    eapply informs_mono; [reflexivity| |exact Hi]. set_solver.
  - intros [Hrel Hch]%orb_false_iff h. rewrite Hsame by done. by apply Hn.
Qed.
Lemma announce_all D gs l :
  informs (D ∪ list_to_set gs) l (mjoin (announce_update l <$> gs)) D l.
Proof.
  induction gs as [|g gs IH]; simpl.
  { eapply informs_mono; [|reflexivity|apply informs_refl]. set_solver. }
  eapply informs_app; [|exact IH].
  eapply informs_mono; [reflexivity| |apply announce_harmless]. set_solver.
Qed.
Lemma disconnect_informs D b conn :
  lobby_wf (lobby b) →
  informs D (lobby b) (on_disconnect b conn).1 D (lobby (on_disconnect b conn).2.1).
Proof.
  intros Hl. unfold on_disconnect.
  pose proof (release_all_informs D (reservations conn) (lobby b) Hl) as Hr.
  destruct (release_reservations _ _) as [changed l]. destruct Hr as (Hi&Hsame&_).
  pose proof (drop_host_informs D (with_lobby l b) (set_conn_reservations [] conn)) as Hd.
  destruct (drop_host_game _ _) as [out' [b' conn']]. simpl in *.
  eapply informs_app; [|apply informs_neutral; [|exact Hd]; destruct (subscribed conn'); by repeat constructor].
  destruct changed; [|apply informs_same; [constructor|by apply Hsame]].
  rewrite list_fmap_compose. apply (informs_app _ _ [] _ _ _ _ _ Hi). apply announce_all.
Qed.

(** ** Tournament frames and the sweep *)
Lemma plain_neutral b conn env prog out :
  returns (λ r, Forall neutral r.1) prog →
  (plain prog b conn env).1 = Some out → Forall neutral out.
Proof.
  intros Hr. unfold plain.
  destruct (prog (b, env)) as [[[o conn']|e|] [b' env']] eqn:E; simpl; intros [= <-];
    [by apply (Hr _ _ _ E)|by repeat constructor].
Qed.
Lemma gated_neutral b conn env rid prog out :
  (gated rid prog b conn env).1 = Some out → Forall neutral out.
Proof.
  unfold gated, settle_gated.
  destruct (prog (b, env)) as [[e|e|] [b' env']]; simpl; intros [= <-];
    destruct rid; try destruct (ge_list_row e); by repeat constructor.
Qed.
Lemma returns_then {A B} (P : A → Prop) (Q : B → Prop) (m : BM (World := World) A) f :
  returns P m → (∀ a, P a → returns Q (f a)) → returns Q (m ≫= f).
Proof. intros Hm Hf s b s' (a&s1&Ha&Hb)%stM_bind_ok. eapply Hf; [by eapply Hm|done]. Qed.
Lemma tournament_neutral b conn msg env out :
  match msg with
  | Client.CreateTournament _ | Client.JoinTournament _ _ _ | Client.GetTournament _
  | Client.StartTournamentRound _ _ _ | Client.ReportMatchResult _ _ _ _ _
  | Client.DropFromTournament _ _ _ | Client.EndTournament _ _ _
  | Client.RenewTournamentCredential _ _ _ _ =>
      (dispatch b conn msg env).1 = Some out → Forall neutral out
  | _ => True
  end.
Proof.
  destruct msg; try done; simpl; try (by apply gated_neutral); apply plain_neutral;
    try (eapply (returns_then (Forall neutral)); [|intros a Ha; by apply returns_ret]);
    repeat first [apply returns_bind; intros ? | apply returns_ret; simpl];
    by repeat constructor.
Qed.

Lemma refusal_neutral rid e : Forall neutral [settle_rejection rid e].
Proof. by destruct rid; repeat constructor. Qed.

(** The codes a frame may leave overstated. *)
Definition may_lapse (msg : Client.Message) (out : list Outbound) : gset string :=
  match msg with Client.LookupJoinTarget g _ _ _ _ => lapsed g out | _ => ∅ end.
(** No listed code is minted for the frame. *)
Definition mints_fresh (l : LobbyManager) (msg : Client.Message) env : Prop :=
  mints msg = true → ∀ g, mints_code env g → games l !! g = None.

Lemma dispatch_informs D b conn msg env out :
  lobby_wf (lobby b) → mints_fresh (lobby b) msg env →
  (dispatch b conn msg env).1 = Some out →
  informs D (lobby b) out (D ∪ may_lapse msg out) (lobby (dispatch b conn msg env).2.1.1).
Proof.
  intros Hl Hmint.
  pose proof (tournament_frames_same b conn msg env) as Ht.
  pose proof (tournament_neutral b conn msg env out) as Hn.
  assert (∀ o (a : Answer (World := World)),
    lobby_same b conn a → Forall neutral o → informs D (lobby b) o (D ∪ ∅) (lobby a.2.1.1)) as Hs.
  { intros o a [Hsame _] Ho. rewrite Hsame, right_id_L by apply _. by apply informs_same. }
  destruct msg; cbn [may_lapse]; try (intros Hout; apply Hs; by auto); rewrite ?(right_id_L ∅ (∪));
    simpl; clear Ht Hn Hs.
  - intros [= <-]. apply informs_refl.
  - intros [= <-]. by apply informs_same; [repeat constructor|].
  - intros [= <-]. by apply informs_same; [repeat constructor|].
  - intros [= <-]. apply create_informs. intros Hnone. apply Hmint.
    + simpl. by rewrite bool_decide_eq_true_2.
    + by exists env.
  - pose proof (join_informs D b conn game_code password reservation_token Hl) as Hj.
    destruct (handle_join b conn game_code password reservation_token) as [o [b' conn']].
    by intros [= <-].
  - pose proof (lookup_informs D b conn game_code password reserve display_name
      release_reservation_token env Hl) as Hk.
    destruct (handle_lookup b conn game_code password reserve display_name
      release_reservation_token env) as [o [[b' conn'] env']]. by intros [= <-].
  - intros [= <-]. by apply informs_same; [repeat constructor|].
  - intros [= <-]. apply update_informs.
  - pose proof (unregister_informs D b conn game_code) as Hu.
    destruct (handle_unregister b conn game_code) as [o [b' conn']]. by intros [= <-].
Qed.

Lemma handle_informs D b conn msg env out :
  lobby_wf (lobby b) → mints_fresh (lobby b) msg env → (handle b conn msg env).1 = Some out →
  informs D (lobby b) out (D ∪ may_lapse msg out) (lobby (handle b conn msg env).2.1.1).
Proof.
  intros Hl Hmint. pose proof (refresh_same b conn env) as Hr.
  pose proof (refresh_steps true b conn conn env) as [Hsteps Henv].
  assert (∀ o l', (∀ g, public_game l' g = public_game (lobby b) g) → Forall neutral o →
    informs D (lobby b) o (D ∪ may_lapse msg o) l') as Hs.
  { intros o l' Hsame Ho. eapply informs_mono; [reflexivity|apply union_subseteq_l|].
    by apply informs_same. }
  destruct (handle_cases b conn msg env) as [(_&reply&->)|[(e&->)|(_&->)]]; simpl.
  - intros [= <-]. by apply Hs; [|repeat constructor].
  - intros [= <-]. apply Hs; [done|apply refusal_neutral].
  - intros Hout.
    assert (∀ g, games (lobby b) !! g = None →
      games (lobby (refresh_host b conn env).1) !! g = None) as Habs.
    { unfold refresh_host, refresh_liveness. destruct (host_game conn) as [r|]; [|done].
      destruct (liveness_refresh_due r (lobby b) env) as [[] env1]; simpl; [|done].
      rewrite clock_secs_run. simpl. intros g Hg. by rewrite lookup_alter_None. }
    eapply (informs_app D (lobby b) [] D).
    + apply (informs_same D (lobby b) (lobby (refresh_host b conn env).1) []); [constructor|done].
    + apply dispatch_informs; [by eapply lobby_steps_wf| |done].
      intros Hm g Hg. apply Habs, Hmint; [done|]. by eapply mints_code_later.
Qed.

Definition removal (o : Outbound) : Prop :=
  about_tournaments o ∨ ∃ g, o = ToSubscribers (Server.LobbyGameRemoved g).
Lemma hear_removal v rows o g :
  removal o → hear v rows o !! g = rows !! g ∨ hear v rows o !! g = None.
Proof.
  intros [Ho|[h ->]]; [left; destruct o as [|msg| | |]; try done; by destruct msg|].
  unfold hear, hear_frame. simpl. destruct (decide (h = g)) as [->|];
    [right; by rewrite lookup_delete_eq|left; by rewrite lookup_delete_ne].
Qed.
Lemma hear_removals v rows out g :
  Forall removal out →
  (rows !! g = None ∨ ToSubscribers (Server.LobbyGameRemoved g) ∈ out →
     hear_all v rows out !! g = None) ∧
  (ToSubscribers (Server.LobbyGameRemoved g) ∉ out → hear_all v rows out !! g = rows !! g).
Proof.
  intros Hout. revert rows. induction Hout as [|o out Ho _ IH]; intros rows.
  { split; [|done]. by intros [?|?%elem_of_nil]. }
  destruct (IH (hear v rows o)) as [IH1 IH2]. rewrite elem_of_cons. simpl. split.
  - intros [Hg|[<-|Hin]]; apply IH1; [|left|by right].
    + left. destruct (hear_removal v rows o g Ho) as [->|?]; done.
    + unfold hear, hear_frame. simpl. by rewrite lookup_delete_eq.
  - intros [Hne Hnin]%Decidable.not_or. rewrite IH2 by done.
    destruct Ho as [Ho|[h ->]]; [destruct o as [|msg| | |]; try done; by destruct msg|].
    unfold hear, hear_frame. simpl. rewrite lookup_delete_ne; [done|]. by intros ->.
Qed.

Lemma sweep_informs D timeout b env out s' :
  registry_wf (registry b) → reap_expired timeout (b, env) = (Ok out, s') →
  informs D (lobby b) out D (lobby s'.1).
Proof.
  intros Hwf Hrun.
  destruct (reap_expired_run timeout b env Hwf) as (outs&l&Hr&_&_&Hl&Hout&Hall).
  cbv zeta in Hr. rewrite Hr in Hrun. simplify_eq/=. intros v m Hm g.
  destruct (hear_removals v m out g Hall) as [Hgone Hkept].
  destruct (games (lobby b) !! g) as [e|] eqn:He.
  - destruct (decide (timeout < (now_ms env).1 / 1000 - e_last_seen e)) as [Hs|Hs].
    + rewrite Hgone by (right; apply Hout; by exists e). left.
      assert (games l !! g = None) as Hnone.
      { apply eq_None_not_Some. intros [e' [He' Hn]%Hl]. by simplify_eq. }
      unfold shows, public_game. by rewrite Hnone.
    + rewrite Hkept by (intros (e'&He'&?)%Hout; by simplify_eq).
      assert (games l !! g = Some e) as Hsome by by apply Hl.
      specialize (Hm g). unfold shows, public_game in *. by rewrite Hsome, He in *.
  - assert (games l !! g = None) as Hnone.
    { apply eq_None_not_Some. intros [e' [He' _]%Hl]. congruence. }
    specialize (Hm g). unfold shows, public_game in *. rewrite He in Hm. rewrite Hnone.
    simpl in *. destruct Hm as [Hm|(_&x&y&_&[=]&_)]. left. apply Hgone. by left.
Qed.

(** ** The subscription *)
Lemma listed_rows l v g :
  (list_to_map ((λ r, (g_game_code r, r)) <$>
    filter (λ r, lobby_row_visible_to r v = true) (public_games l)) : Rows) !! g =
  shows v l g.
Proof.
  assert (∀ r, r ∈ public_games l ↔ public_game l (g_game_code r) = Some r) as Hin.
  { intros r. unfold public_games. rewrite list_elem_of_fmap. split.
    - intros ([h e]&->&[Hls He%elem_of_map_to_list]%list_elem_of_filter). simpl in *.
      by rewrite (public_entry _ _ _ He), Hls.
    - unfold public_game. intros (e&He&Hr)%bind_Some. destruct (listed e) eqn:Hls; [|done].
      exists (g_game_code r, e). split; [by injection Hr|]. apply list_elem_of_filter.
      split; [done|]. by apply elem_of_map_to_list. }
  set (rows := filter _ (public_games l)).
  assert (NoDup (public_games l)) as Hnd.
  { unfold public_games. apply NoDup_fmap_2_strong; [|apply NoDup_filter, NoDup_map_to_list].
    intros [g1 e1] [g2 e2] [_ H1%elem_of_map_to_list]%list_elem_of_filter
      [_ H2%elem_of_map_to_list]%list_elem_of_filter Heq.
    apply (f_equal g_game_code) in Heq. simpl in *. by simplify_eq. }
  assert (NoDup (((λ r, (g_game_code r, r)) <$> rows).*1)) as Hnd'.
  { rewrite <-list_fmap_compose. apply NoDup_fmap_2_strong; [|by apply NoDup_filter].
    intros r1 r2 [_ H1%Hin]%list_elem_of_filter [_ H2%Hin]%list_elem_of_filter Heq.
    simpl in Heq. congruence. }
  apply option_eq. intros r. rewrite <-elem_of_list_to_map by done.
  rewrite list_elem_of_fmap. unfold shows. rewrite bind_Some. split.
  - intros (r'&[= -> <-]&[Hv Hr]%list_elem_of_filter). apply Hin in Hr.
    exists r. by rewrite Hr, Hv.
  - intros (r'&Hr&Hv). destruct (lobby_row_visible_to r' v) eqn:Hvis; simplify_eq.
    pose proof (public_code _ _ _ Hr) as Hc. exists r. split; [by rewrite Hc|].
    apply list_elem_of_filter. split; [done|]. apply Hin. by rewrite Hc.
Qed.
End handlers.

(** ** Watching the lobby *)
Section watching.
Context {World : Type} `{!BrokerEnv World}.

(** The codes a step may leave overstated, and the frames whose minted code is free. *)
Definition step_lapse (l : Label (World := World)) (out : list Outbound) : gset string :=
  match l with LFrame _ msg _ => may_lapse msg out | _ => ∅ end.
Definition step_fresh (s : System) (l : Label (World := World)) : Prop :=
  match l with
  | LFrame _ msg env => mints_fresh (lobby (sys_broker s)) msg env
  | _ => True
  end.

Lemma step_informs n s l out s' D :
  sys_wf n s → step_fresh s l → sys_step s l = Some (out, s') →
  informs D (lobby (sys_broker s)) out (D ∪ step_lapse l out) (lobby (sys_broker s')).
Proof.
  intros [Hreg _ Hl _ _ _ _] Hf Hstep.
  destruct l as [i|i msg env|i|timeout env]; simpl in *.
  - destruct (sys_conns s !! i); simplify_eq. rewrite right_id_L by apply _. apply informs_refl.
  - destruct (sys_conns s !! i) as [c|]; [|done]. simpl in Hstep.
    pose proof (handle_informs D (sys_broker s) c msg env) as Hi.
    destruct (handle (sys_broker s) c msg env) as [o [[b' c'] env']].
    destruct o as [o|]; simplify_eq/=. by apply Hi.
  - destruct (sys_conns s !! i) as [c|]; [|done]. simpl in Hstep.
    pose proof (disconnect_informs D (sys_broker s) c Hl) as Hi.
    destruct (on_disconnect (sys_broker s) c) as [o [b' c']]. simplify_eq/=.
    by rewrite right_id_L by apply _.
  - destruct (reap_expired timeout (sys_broker s, env)) as [[o|e|] [b' env']] eqn:E; simplify_eq/=.
    rewrite right_id_L by apply _. by apply (sweep_informs D timeout _ env out (b', env')).
Qed.

(** A subscriber of build [viewer]: it starts from the list its subscription was answered
    with, and hears what every later step broadcasts.  [D] collects the codes for which
    somebody was told it already holds a reservation. *)
Inductive watching (viewer : string) : N → System → gmap string LobbyGame → gset string → Prop :=
  | watch_start n s i c env out s' listed rows :
      sys_reach n s → sys_conns s !! i = Some c → hello_build_commit c = viewer →
      sys_step s (LFrame i Client.SubscribeLobby env) = Some (out, s') →
      ToSelf (Server.LobbyUpdate listed) ∈ out →
      watching viewer (n + 1) s' (hear_frame viewer rows (Server.LobbyUpdate listed)) ∅
  | watch_step n s rows D l out s' :
      watching viewer n s rows D → label_wf l → step_fresh s l →
      sys_step s l = Some (out, s') →
      watching viewer (n + 1) s' (hear_all viewer rows out) (D ∪ step_lapse l out).

Lemma watching_reach viewer n s rows D : watching viewer n s rows D → sys_reach n s.
Proof. induction 1; eapply sys_reach_step; eauto; done. Qed.

Lemma subscribe_lists b c env out viewer listed rows :
  guard_inbound Client.SubscribeLobby = Ok tt → hello_build_commit c = viewer →
  (handle b c Client.SubscribeLobby env).1 = Some out →
  ToSelf (Server.LobbyUpdate listed) ∈ out →
  tracks viewer (hear_frame viewer rows (Server.LobbyUpdate listed))
    (lobby (handle b c Client.SubscribeLobby env).2.1.1) ∅.
Proof.
  intros _ Hv. pose proof (refresh_same b c env) as Hr.
  destruct (handle_cases b c Client.SubscribeLobby env) as [(_&reply&H)|[(e&H)|(_&H)]].
  - unfold handle in H. simpl in H. by destruct (refresh_host b c env).
  - unfold handle in H. simpl in H. by destruct (refresh_host b c env).
  - rewrite H. simpl. intros [= <-] Hin.
    assert (listed = filter (λ g, lobby_row_visible_to g viewer = true)
      (public_games (lobby (refresh_host b c env).1))) as ->.
    { rewrite !elem_of_cons in Hin. destruct Hin as [[=]|[[= ->]|[[=]|[[=]|?%elem_of_nil]]]]; [|done].
      by rewrite <-Hv. }
    intros g. left. unfold hear_frame. simpl. apply listed_rows.
Qed.
End watching.

(** C7. A subscriber sees the lobby.  A subscriber that starts from the list it was
    answered with, and applies to it every row broadcast as projected for its build,
    holds at any moment exactly the listed games its build may join, whatever all the
    connections and the sweeps do: no row is missing, none is left over and none is
    stale, except that the count of players of a code in [D], for which somebody was told
    it already holds a reservation, may still include seats whose reservations have
    lapsed, never more than the seats there are.  The one assumption is that a code the
    broker mints is not listed already. *)
Theorem subscriber_tracks {World : Type} `{!BrokerEnv World} viewer n s rows D :
  watching (World := World) viewer n s rows D → n < 2 ^ 64 →
  (∀ g, g ∉ D → rows !! g = shows viewer (lobby (sys_broker s)) g) ∧
  (∀ g, rows !! g = shows viewer (lobby (sys_broker s)) g ∨
     ∃ old now, rows !! g = Some old ∧ shows viewer (lobby (sys_broker s)) g = Some now ∧
       overstates old now).
Proof.
  intros Hw Hn. assert (tracks viewer rows (lobby (sys_broker s)) D) as Ht.
  { induction Hw as [n s i c env out s' listed rows Hs Hc Hv Hstep Hin
                    |n s rows D l out s' Hw IH Hl Hf Hstep].
    - simpl in Hstep. rewrite Hc in Hstep. simpl in Hstep.
      pose proof (subscribe_lists (sys_broker s) c env out viewer listed rows eq_refl Hv) as Hsub.
      destruct (handle (sys_broker s) c Client.SubscribeLobby env) as [o [[b' c'] env']].
      destruct o as [o|]; simplify_eq/=. by apply Hsub.
    - pose proof (sys_reach_wf n s (watching_reach _ _ _ _ _ Hw) ltac:(lia)) as Hwf.
      apply (step_informs n s l out s' D Hwf Hf Hstep). apply IH. lia. }
  split; intros g; specialize (Ht g).
  - intros Hg. by destruct Ht as [?|[? _]].
  - destruct Ht as [?|(_&?)]; auto.
Qed.

Definition sample_before : System := default sys_new (sys_run (take 5 sample_labels) sys_new).
Definition sample_subscription : option (list Outbound * System) :=
  sys_step sample_before (LFrame 2 Client.SubscribeLobby (at_time 3500)).
Definition sample_lookup (s : System) : option (list Outbound * System) :=
  sys_step s (LFrame 2 (Client.LookupJoinTarget "ABCDEF" None true (Some "Bob") None)
                (at_time 4000))%string.

Lemma sample_before_reach : sys_reach (World := CounterEnv) 5 sample_before.
Proof.
  apply (sys_run_reach 0 (take 5 sample_labels) sys_new); [constructor|by repeat constructor|].
  unfold sample_before. destruct (sys_run (take 5 sample_labels) sys_new) eqn:E; [done|].
  vm_compute in E. discriminate.
Qed.
Lemma sample_watching :
  ∃ rows s, watching (World := CounterEnv) "abc" 7 s rows ∅ ∧
    g_current_players <$> shows "abc" (lobby (sys_broker s)) "ABCDEF" = Some 2.
Proof.
  destruct sample_subscription as [[out s]|] eqn:E; [|vm_compute in E; discriminate].
  destruct (sample_lookup s) as [[out' s']|] eqn:E'; cycle 1.
  { assert (is_Some (r ← sample_subscription; sample_lookup r.2)) as [? H]
      by (vm_compute; by eexists).
    rewrite E in H. change (sample_lookup s = Some x) in H. congruence. }
  destruct (sys_conns sample_before !! 2) as [c|] eqn:Hc; [|vm_compute in Hc; discriminate].
  assert (hello_build_commit <$> sys_conns sample_before !! 2 = Some "abc"%string) as Hv
    by (vm_compute; reflexivity).
  rewrite Hc in Hv. injection Hv as Hv.
  assert (fst <$> sample_subscription = Some out) as Ho by by rewrite E.
  assert (fst <$> (r ← sample_subscription; sample_lookup r.2) = Some out') as Ho'.
  { rewrite E. change (fst <$> sample_lookup s = Some out'). by rewrite E'. }
  vm_compute in Ho, Ho'. injection Ho as Ho. injection Ho' as Ho'.
  exists (hear_all "abc" (hear_frame "abc" ∅ (Server.LobbyUpdate
    (match out !! 1%nat with Some (ToSelf (Server.LobbyUpdate gs)) => gs | _ => [] end))) out'), s'.
  split.
  - assert (∅ ∪ step_lapse (World := CounterEnv) (LFrame 2 (Client.LookupJoinTarget "ABCDEF" None
      true (Some "Bob") None) (at_time 4000)) out' = ∅)%string as Hnone.
    { subst out'. apply (left_id_L ∅ (∪)). }
    rewrite <-Hnone. apply (watch_step "abc" 6 s); [|done|done|exact E'].
    apply (watch_start "abc" 5 sample_before 2 c (at_time 3500) out s);
      [exact sample_before_reach|exact Hc|exact Hv|exact E|].
    subst out. simpl. right. by left.
  - assert (g_current_players <$> (r ← (r ← sample_subscription; sample_lookup r.2);
      shows "abc" (lobby (sys_broker r.2)) "ABCDEF") = Some 2) as Hs by (vm_compute; reflexivity).
    rewrite E in Hs.
    change (g_current_players <$> (r ← sample_lookup s;
      shows "abc" (lobby (sys_broker r.2)) "ABCDEF") = Some 2) in Hs.
    rewrite E' in Hs. exact Hs.
Qed.

Lemma subscriber_tracks_witness :
  ∃ rows s row, watching (World := CounterEnv) "abc" 7 s rows ∅ ∧
    rows !! "ABCDEF"%string = Some row ∧ g_current_players row = 2.
Proof.
  destruct sample_watching as (rows&s&Hw&Hs).
  destruct (subscriber_tracks "abc" 7 s rows ∅ Hw ltac:(lia)) as [Hexact _].
  specialize (Hexact "ABCDEF"%string (not_elem_of_empty _)). rewrite <-Hexact in Hs.
  destruct (rows !! "ABCDEF"%string) as [row|] eqn:Hrow; [|discriminate].
  exists rows, s, row. split; [exact Hw|]. split; [exact Hrow|]. by injection Hs.
Defined.
