(* ===== verification/Topology.v ===== *)
(** * Seats at a running game: turn order, teams and priority

    Who sits where, who is on whose team, and in which order players act:
    [engine/src/game/topology.rs], the seat functions of [players.rs], the bookkeeping of
    priority passes in [priority.rs], the contest for the first turn in [engine.rs] and a
    player's departure in [elimination.rs].  [GameState] has the fields of the record of
    that name which these read or write; a [PlayerId] is its number.  The format and its
    topology are those of [Seats].  Indices into [seat_order] are remainders by its length
    and so in range ([turn_order_index_lt]). *)
From S2P Require Import Prelude.
From S2P Require Import Seats.
Local Open Scope N_scope.

(** ** Data *)
Inductive TurnDirection := Normal | Reversed.
Inductive SeatDirection := Left | Right.
Inductive PlayerRelation := RelController | RelOpponent | RelAll.
Inductive AggregateFunction := AggMax | AggMin | AggSum.
Inductive PlayerStatus := Active | PhasedOut.
Inductive SeatAdmission := Living | IncludingDeparted.
Inductive ControllerRef :=
  | You | Opponent | ScopedPlayer | TargetPlayer | TargetOpponent
  | ParentTargetController | EventTargetController | ParentTargetOwner
  | DefendingPlayer | ChosenPlayer (index : N) | DeclaredPlayer (group : N)
  | SourceChosenPlayer | TriggeringPlayer | EnchantedPlayer | ActivePlayer
  | SpecificPlayer (id : N).

Record Player := {
  player_id : N;
  is_eliminated : bool;
  status : PlayerStatus;
  life : Z;
  poison_counters : N;
}.
Record GameState := {
  players : list Player;
  seat_order : list N;
  format_config : FormatConfig;
  turn_direction : TurnDirection;
  active_player : N;
  priority_player : N;
  priority_passes : gset N;
  priority_pass_count : N;
  eliminated_players : list N;
}.
Definition with_players (ps : list Player) (gone : list N) (s : GameState) : GameState :=
  {| players := ps; seat_order := seat_order s; format_config := format_config s;
     turn_direction := turn_direction s; active_player := active_player s;
     priority_player := priority_player s; priority_passes := priority_passes s;
     priority_pass_count := priority_pass_count s; eliminated_players := gone |}.
Definition with_priority (holder : N) (passes : gset N) (count : N) (s : GameState) : GameState :=
  {| players := players s; seat_order := seat_order s; format_config := format_config s;
     turn_direction := turn_direction s; active_player := active_player s;
     priority_player := holder; priority_passes := passes;
     priority_pass_count := count; eliminated_players := eliminated_players s |}.
Definition with_turn (active : N) (dir : TurnDirection) (order : list N) (s : GameState) : GameState :=
  {| players := players s; seat_order := order; format_config := format_config s;
     turn_direction := dir; active_player := active;
     priority_player := priority_player s; priority_passes := priority_passes s;
     priority_pass_count := priority_pass_count s; eliminated_players := eliminated_players s |}.

(** ** Players ([players.rs]) *)
Definition is_alive (s : GameState) (player : N) : bool :=
  existsb (λ p, (player_id p =? player) && negb (is_eliminated p)) (players s).
Definition is_phased_out (p : Player) : bool :=
  match status p with PhasedOut => true | Active => false end.
Definition player_exists_for_choice (s : GameState) (player : N) : bool :=
  is_alive s player
  && negb (existsb (λ p, (player_id p =? player) && is_phased_out p) (players s)).

Definition turn_order_index (start_idx offset len : nat) (dir : TurnDirection) : nat :=
  match dir with
  | Normal => (start_idx + offset) `mod` len
  | Reversed => (start_idx + len - offset `mod` len) `mod` len
  end%nat.

(** [seat_order[idx]]. *)
Definition seat_at (s : GameState) (idx : nat) : N := nth idx (seat_order s) 0.
(** [seat_order.iter().position(|&id| id == player).unwrap_or(0)]. *)
Definition seat_index (s : GameState) (player : N) : nat :=
  default 0%nat (position (λ id, id =? player) (seat_order s)).

Definition next_player (s : GameState) (current : N) : N :=
  let len := length (seat_order s) in
  if (len =? 0)%nat then current else
  let current_idx := seat_index s current in
  default current (find_first (is_alive s)
    ((λ offset, seat_at s ((current_idx + offset) `mod` len)%nat) <$> seq 1 len)).

Definition previous_player (s : GameState) (current : N) : N :=
  let len := length (seat_order s) in
  if (len =? 0)%nat then current else
  let current_idx := seat_index s current in
  default current (find_first (is_alive s)
    ((λ offset, seat_at s ((current_idx + len - offset `mod` len) `mod` len)%nat)
       <$> seq 1 len)).

Definition next_player_in_turn_order (s : GameState) (current : N) : N :=
  match turn_direction s with
  | Normal => next_player s current
  | Reversed => previous_player s current
  end.

Definition neighbor (s : GameState) (controller : N) (direction : SeatDirection) : N :=
  match direction with
  | Left => next_player s controller
  | Right => previous_player s controller
  end.

(** ** Teams ([topology.rs]) *)
Definition has_shared_team_turns (t : FormatTopology) : bool :=
  match t with
  | FixedTeams _ _ SharedTeamTurns | OneVsMany _ SharedTeamTurns => true
  | _ => false
  end.
Definition is_two_headed_giant_family (f : GameFormat) : bool :=
  match f with TwoHeadedGiant | TwoHeadedGiantCommander => true | _ => false end.
Local Abbreviation topo s := (topology (format_config s)).

Definition team_id (s : GameState) (player : N) : N :=
  match topo s with
  | IndividualSeats => player
  | FixedTeams team_size _ _ => player / team_size
  | OneVsMany archenemy _ => if player =? archenemy then 0 else 1
  end.

Definition admits (a : SeatAdmission) (s : GameState) (player : N) : bool :=
  match a with Living => is_alive s player | IncludingDeparted => true end.

Definition team_members_admitting (s : GameState) (player : N) (a : SeatAdmission) : list N :=
  match topo s with
  | IndividualSeats => filter (λ id, (id =? player) && admits a s id) (seat_order s)
  | FixedTeams _ team_count _ =>
      let team := team_id s player in
      if team_count <=? team then []
      else filter (λ id, (team_id s id =? team) && admits a s id) (player_id <$> players s)
  | OneVsMany archenemy _ =>
      if player =? archenemy
      then filter (λ id, (id =? archenemy) && admits a s id) (seat_order s)
      else filter (λ id, negb (id =? archenemy) && admits a s id) (seat_order s)
  end.
Definition team_members (s : GameState) (player : N) : list N :=
  team_members_admitting s player Living.

Definition teammates (s : GameState) (player : N) : list N :=
  match topo s with
  | IndividualSeats => []
  | FixedTeams _ _ _ | OneVsMany _ _ =>
      filter (λ id, negb (id =? player)) (team_members s player)
  end.

Definition is_opponent (s : GameState) (player other : N) : bool :=
  negb (player =? other) && negb (team_id s player =? team_id s other).
Definition team_dedup_key : GameState → N → N := team_id.
Definition archenemy (s : GameState) : option N :=
  match topo s with OneVsMany a _ => Some a | _ => None end.

Definition has_shared_life (s : GameState) (player : N) : bool :=
  if is_two_headed_giant_family (format (format_config s)) then true
  else match format (format_config s) with
       | ArchenemyCommander => negb (bool_decide (Some player = archenemy s))
       | _ => false
       end.
Definition has_shared_poison (s : GameState) (_player : N) : bool :=
  is_two_headed_giant_family (format (format_config s)).
Definition shared_life_members (s : GameState) (player : N) : list N :=
  if has_shared_life s player then team_members s player
  else if is_alive s player then [player] else [].
Definition shared_poison_members (s : GameState) (player : N) : list N :=
  if has_shared_poison s player then team_members s player
  else if is_alive s player then [player] else [].
Definition shared_life_dedup_key (s : GameState) (player : N) : N :=
  if has_shared_life s player then team_id s player
  else if bool_decide (Some player = archenemy s)
          && match format (format_config s) with ArchenemyCommander => true | _ => false end
  then team_id s player
  else player.

Definition opponents (s : GameState) (player : N) : list N :=
  filter (λ id, is_opponent s player id && is_alive s id) (seat_order s).
Definition choosable_opponents (s : GameState) (player : N) : list N :=
  filter (player_exists_for_choice s) (opponents s player).
Definition matches_relation (s : GameState) (player controller : N) (relation : PlayerRelation)
    : bool :=
  match relation with
  | RelController => player =? controller
  | RelOpponent => is_opponent s controller player
  | RelAll => true
  end.

(** The loop of [nearest_opponent]: [None] when the fuel ends it. *)
Fixpoint nearest_opponent_walk (fuel : nat) (s : GameState) (controller candidate : N)
    (direction : SeatDirection) : option (option N) :=
  match fuel with
  | O => None
  | S fuel =>
      if candidate =? controller then Some None
      else if is_opponent s controller candidate then Some (Some candidate)
      else nearest_opponent_walk fuel s controller (neighbor s candidate direction) direction
  end.
Definition nearest_opponent (fuel : nat) (s : GameState) (controller : N)
    (direction : SeatDirection) : option (option N) :=
  nearest_opponent_walk fuel s controller (neighbor s controller direction) direction.

(** ** Orders of action *)

(** The seats met from [start_idx] in turn order. *)
Definition seats_from (s : GameState) (start_idx : nat) (offsets : list nat) : list N :=
  (λ offset, seat_at s (turn_order_index start_idx offset (length (seat_order s))
                          (turn_direction s))) <$> offsets.

(** [seen.insert(key)] in a loop: the first element of every key. *)
Fixpoint first_per_key (key : N → N) (seen : gset N) (l : list N) : list N :=
  match l with
  | [] => []
  | x :: l =>
      if bool_decide (key x ∈ seen) then first_per_key key seen l
      else x :: first_per_key key ({[ key x ]} ∪ seen) l
  end.

Definition apnap_choice_groups_admitting (s : GameState) (start_player : N) (a : SeatAdmission)
    : list (list N) :=
  let len := length (seat_order s) in
  let start_idx := seat_index s start_player in
  let candidates := filter (admits a s) (seats_from s start_idx (seq 0 len)) in
  if negb (has_shared_team_turns (topo s)) then (λ candidate, [candidate]) <$> candidates
  else (λ candidate, team_members_admitting s candidate a)
         <$> first_per_key (team_dedup_key s) ∅ candidates.
Definition apnap_choice_groups_from (s : GameState) (start_player : N) : list (list N) :=
  apnap_choice_groups_admitting s start_player Living.
Definition apnap_choice_groups (s : GameState) : list (list N) :=
  apnap_choice_groups_from s (active_player s).
Definition apnap_order_admitting (s : GameState) (start_player : N) (a : SeatAdmission) : list N :=
  concat (apnap_choice_groups_admitting s start_player a).
(** [apnap_order_from] of [topology.rs]; the one of [players.rs] is below. *)
Definition team_apnap_order_from (s : GameState) (start_player : N) : list N :=
  concat (apnap_choice_groups_from s start_player).
Definition apnap_team_rank (s : GameState) (player : N) : nat :=
  let groups := apnap_choice_groups s in
  default (length groups) (position (λ group, existsb (N.eqb player) group) groups).

Definition apnap_order_from (s : GameState) (starting_with : option ControllerRef)
    (controller : N) : list N :=
  if (length (seat_order s) =? 0)%nat then [] else
  let start_player :=
    match starting_with with
    | Some You => controller
    | Some (SpecificPlayer id) => id
    | None
    | Some (Opponent | ScopedPlayer | TargetPlayer | TargetOpponent | DeclaredPlayer _
           | ParentTargetController | EventTargetController | ParentTargetOwner
           | DefendingPlayer | SourceChosenPlayer | ChosenPlayer _ | TriggeringPlayer
           | EnchantedPlayer | ActivePlayer) => active_player s
    end in
  if has_shared_team_turns (topo s) then team_apnap_order_from s start_player
  else filter (is_alive s)
         (seats_from s (seat_index s start_player) (seq 0 (length (seat_order s)))).
Definition apnap_order (s : GameState) : list N := apnap_order_from s None (active_player s).

(** [apnap_order_from] of [effects/vote.rs]: the voters from a starting player. *)
Definition vote_order_from (s : GameState) (start : N) : list N :=
  let n := length (seat_order s) in
  if (n =? 0)%nat then []
  else filter (is_alive s) (seats_from s (seat_index s start) (seq 0 n)).

(** ** Turns and priority *)
Definition normalize_shared_turn_recipient (s : GameState) (player : N) : N :=
  if negb (has_shared_team_turns (topo s)) then player
  else default player (head (team_members s player)).
Definition priority_pass_representative (s : GameState) (player : N) : N :=
  if negb (has_shared_team_turns (topo s)) then player
  else normalize_shared_turn_recipient s player.
Definition canonical_priority_representatives (s : GameState) (ps : list N) : gset N :=
  list_to_set (filter (is_alive s) (priority_pass_representative s <$> ps)).

Definition next_turn_representative (s : GameState) (current : N) : N :=
  if negb (has_shared_team_turns (topo s)) then next_player_in_turn_order s current else
  let len := length (seat_order s) in
  if (len =? 0)%nat then normalize_shared_turn_recipient s current else
  let current_team := team_id s current in
  let current_idx := seat_index s current in
  match find_first (λ candidate, is_alive s candidate && negb (team_id s candidate =? current_team))
          (seats_from s current_idx (seq 1 len)) with
  | Some candidate => normalize_shared_turn_recipient s candidate
  | None => normalize_shared_turn_recipient s current
  end.

Definition priority_pass_participants (s : GameState) : list N :=
  let participants := apnap_order s in
  if negb (has_shared_team_turns (topo s)) then participants
  else foldl (λ reps rep, if existsb (N.eqb rep) reps then reps else reps ++ [rep]) []
         (priority_pass_representative s <$> participants).

Definition next_priority_player (s : GameState) (current : N) : N :=
  let canonical_current := priority_pass_representative s current in
  let participants := priority_pass_participants s in
  let len := length participants in
  match position (λ id, id =? canonical_current) participants with
  | None => next_player_in_turn_order s canonical_current
  | Some current_idx =>
      default (next_player_in_turn_order s canonical_current)
        (find_first (λ candidate, negb (bool_decide (candidate ∈ priority_passes s)))
           ((λ offset, nth ((current_idx + offset) `mod` len) participants 0) <$> seq 1 len))
  end.

Definition clear_priority_passes (s : GameState) : GameState :=
  with_priority (priority_player s) ∅ 0 s.
Definition reset_priority (s : GameState) : GameState :=
  clear_priority_passes (with_priority (active_player s) (priority_passes s)
    (priority_pass_count s) s).

(** The branch [handle_priority_pass_with_limit] takes once the pass is recorded: either
    all have passed, and the top of the stack resolves or the phase ends; or somebody
    receives priority. *)
Inductive PassVerdict := AllPassed | PassedTo (next : N).
Definition handle_priority_pass (current_seat : N) (s : GameState) : PassVerdict * GameState :=
  let canonical_seat := priority_pass_representative s current_seat in
  let s := with_priority (priority_player s) ({[ canonical_seat ]} ∪ priority_passes s)
             (u8_add (priority_pass_count s) 1) s in
  let living_count := length (priority_pass_participants s) in
  if (living_count <=? size (priority_passes s))%nat
  then (AllPassed, clear_priority_passes s)
  else
    let next := next_priority_player s canonical_seat in
    (PassedTo next, with_priority next (priority_passes s) (priority_pass_count s) s).

(** ** Reversal, departure, the first turn *)
Definition reverse_turn_order (s : GameState) : GameState :=
  with_turn (active_player s)
    match turn_direction s with Normal => Reversed | Reversed => Normal end (seat_order s) s.

Inductive PlayerLeaveError := UnknownPlayer | AlreadyEliminated.
Definition with_eliminated (p : Player) : Player :=
  {| player_id := player_id p; is_eliminated := true; status := status p;
     life := life p; poison_counters := poison_counters p |}.
Definition apply_resolved_player_leave (player : N) (s : GameState)
    : outcome PlayerLeaveError unit * GameState :=
  match position (λ p, player_id p =? player) (players s) with
  | None => (Err UnknownPlayer, s)
  | Some i =>
      match players s !! i with
      | None => (Panic, s)
      | Some p =>
          if is_eliminated p then (Err AlreadyEliminated, s) else
          (Ok tt, with_players (<[i := with_eliminated p]> (players s))
                    (if existsb (N.eqb player) (eliminated_players s) then eliminated_players s
                     else eliminated_players s ++ [player]) s)
      end
  end.

(** [Vec::rotate_left]. *)
Definition rotate_left {A} (idx : nat) (l : list A) : list A := drop idx l ++ take idx l.
(** What [start_game_with_starting_player] does to these fields. *)
Definition begin_first_turn (starting_player : N) (s : GameState) : GameState :=
  let starting_player := default starting_player (archenemy s) in
  let order := match position (λ p, p =? starting_player) (seat_order s) with
               | Some idx => rotate_left idx (seat_order s)
               | None => seat_order s
               end in
  with_priority starting_player (priority_passes s) (priority_pass_count s)
    (with_turn starting_player (turn_direction s) order s).

(** [build_contest_rounds]: [roll_round] is the closure that draws from the game's random
    source, here a function of the source that returns the rolls and the next source. *)
Definition FIRST_PLAYER_CONTEST_MAX_ROUNDS : nat := 16.
Section contest.
Context {Rng : Type}.
Variable roll_round : Rng → list N → list (N * N) * Rng.

Definition max_roll (rolls : list (N * N)) : option N :=
  match rolls with
  | [] => None
  | r :: rolls => Some (foldr (λ x m, N.max x.2 m) r.2 rolls)
  end.
Definition top_group (m : N) (rolls : list (N * N)) : list N :=
  fst <$> filter (λ r, r.2 =? m) rolls.

(** The rounds of the loop; the starting player when one was found, and the contenders
    left otherwise. *)
Fixpoint contest_loop (n : nat) (contenders : list N) (rng : Rng)
    : outcome unit (list (list (N * N)) * (N + list N)) :=
  match n with
  | O => Ok ([], inr contenders)
  | S n =>
      let '(rolls, rng) := roll_round rng contenders in
      match max_roll rolls with
      | None => Panic
      | Some m =>
          match top_group m rolls with
          | [winner] => Ok ([rolls], inl winner)
          | top => '(rounds, r) ← contest_loop n top rng; mret (rolls :: rounds, r)
          end
      end
  end.
Definition build_contest_rounds (order : list N) (rng : Rng)
    : outcome unit (list (list (N * N)) * N) :=
  '(rounds, r) ← contest_loop FIRST_PLAYER_CONTEST_MAX_ROUNDS order rng;
  match r with
  | inl winner => mret (rounds, winner)
  | inr contenders => winner ← or_panic (min_by (λ seat, seat) contenders); mret (rounds, winner)
  end.
End contest.

(** ** Shared totals ([players.rs]) *)

(** An [i32] sum wraps. *)
Definition i32_wrap (x : Z) : Z := ((x + 2 ^ 31) mod 2 ^ 32 - 2 ^ 31)%Z.
Definition i32_sum (l : list Z) : Z := foldl (λ a x, i32_wrap (a + x)) 0%Z l.
Definition u32_sum (l : list N) : N := foldl u32_add 0 l.
Definition player_of (s : GameState) (id : N) : option Player :=
  find_first (λ p, player_id p =? id) (players s).
Definition team_life_total (s : GameState) (player : N) : Z :=
  i32_sum (life <$> omap (player_of s) (shared_life_members s player)).
Definition team_poison_total (s : GameState) (player : N) : N :=
  u32_sum (poison_counters <$> omap (player_of s) (shared_poison_members s player)).

Definition Z_max (l : list Z) : option Z :=
  match l with [] => None | x :: l => Some (foldl Z.max x l) end.
Definition Z_min (l : list Z) : option Z :=
  match l with [] => None | x :: l => Some (foldl Z.min x l) end.
Definition aggregate_over_teams (s : GameState) (ps : list N) (aggregate : AggregateFunction) : Z :=
  let team_totals := team_life_total s <$> first_per_key (shared_life_dedup_key s) ∅ ps in
  match aggregate with
  | AggMax => default 0%Z (Z_max team_totals)
  | AggMin => default 0%Z (Z_min team_totals)
  | AggSum => i32_sum team_totals
  end.

(** ** A new game *)

(** [FormatConfig::starting_life_for_player], the format's [starting_life] being an
    argument; a quotient of [i32] truncates. *)
Definition starting_life_for_player (config : FormatConfig) (starting_life : Z) (player : N)
    (player_count : nat) : Z :=
  match topology config with
  | IndividualSeats => starting_life
  | FixedTeams team_size _ _ => Z.quot starting_life (Z.of_N team_size)
  | OneVsMany arch _ =>
      match format config with
      | ArchenemyCommander =>
          if player =? arch then 60%Z
          else Z.quot 60 (Z.of_nat (Nat.max (player_count - 1) 1))
      | _ => if player =? arch then 40%Z else 20%Z
      end
  end.
(** [GameState::new] on these fields. *)
Definition game_new (config : FormatConfig) (starting_life : Z) (player_count : N) : GameState :=
  let ids := N.of_nat <$> seq 0 (N.to_nat player_count) in
  let starting_player := default 0 match topology config with
                                   | OneVsMany arch _ => Some arch
                                   | _ => None
                                   end in
  {| players := (λ i, {| player_id := i; is_eliminated := false; status := Active;
                         life := starting_life_for_player config starting_life i
                                   (N.to_nat player_count);
                         poison_counters := 0 |}) <$> ids;
     seat_order := ids; format_config := config; turn_direction := Normal;
     active_player := starting_player; priority_player := starting_player;
     priority_passes := ∅; priority_pass_count := 0; eliminated_players := [] |}.
