(* ===== verification/TurnOrder.v ===== *)
(** * The order in which players act

    The walks round the table of [Topology]: a ring of seats in a direction, the living
    players of it, teams as a partition of them, turns as steps along it. *)
From S2P Require Import Prelude.
From S2P Require Import Seats.
From S2P Require Import Topology.
Local Open Scope N_scope.

(** ** A table of players *)
Record table_wf (s : GameState) : Prop := {
  tw_players : NoDup (player_id <$> players s);
  tw_seats : seat_order s ≡ₚ player_id <$> players s;
  tw_width : (length (players s) < 256)%nat;
  (** a format of fixed teams seats its two teams of two *)
  tw_teams : ∀ size count t, topology (format_config s) = FixedTeams size count t →
    Forall (λ id, id < 4) (seat_order s);
}.
Local Abbreviation shared s := (has_shared_team_turns (topology (format_config s))).
Definition living (s : GameState) : list N := filter (is_alive s) (seat_order s).

Lemma tw_nodup s : table_wf s → NoDup (seat_order s).
Proof. intros [H1 H2 _ _]. by rewrite H2. Qed.
Lemma alive_seated s p : table_wf s → is_alive s p → p ∈ seat_order s.
Proof.
  intros Hw Ha. rewrite (tw_seats _ Hw). apply Is_true_eq_true, existsb_exists in Ha.
  destruct Ha as (q&Hq&[<-%N.eqb_eq _]%andb_prop). apply list_elem_of_fmap.
  exists q. split; [done|]. by apply list_elem_of_In.
Qed.
Lemma elem_of_living s p : table_wf s → p ∈ living s ↔ is_alive s p.
Proof.
  intros Hw. unfold living. rewrite list_elem_of_filter. split; [by intros []|].
  intros. split; [done|]. by apply alive_seated.
Qed.
Lemma living_nodup s : table_wf s → NoDup (living s).
Proof. intros. by apply NoDup_filter, tw_nodup. Qed.

(** ** Rings *)
Section ring.
Implicit Types (l : list N) (dir : TurnDirection) (i k o : nat).

Definition ring (l : list N) (dir : TurnDirection) (i : nat) : list N :=
  (λ o, nth (turn_order_index i o (length l) dir) l 0) <$> seq 0 (length l).

Lemma turn_order_index_lt i o n dir : (0 < n)%nat → (turn_order_index i o n dir < n)%nat.
Proof. intros. destruct dir; apply Nat.mod_upper_bound; lia. Qed.

Lemma nth_Some l i x : nth i l 0 = x → (i < length l)%nat → l !! i = Some x.
Proof. intros <- [y Hy]%lookup_lt_is_Some. by rewrite (nth_lookup_Some _ _ _ _ Hy). Qed.

Lemma length_ring l dir i : length (ring l dir i) = length l.
Proof. unfold ring. by rewrite length_fmap, length_seq. Qed.

Lemma ring_lookup l dir i o :
  (o < length l)%nat → ring l dir i !! o = l !! turn_order_index i o (length l) dir.
Proof.
  intros Ho. unfold ring. rewrite list_lookup_fmap, lookup_seq_lt by done. simpl.
  symmetry. apply nth_Some; [done|]. apply turn_order_index_lt. lia.
Qed.

Lemma ring_normal l i : (i < length l)%nat → ring l Normal i = rotate_left i l.
Proof.
  intros Hi. apply list_eq_same_length with (n := length l);
    [unfold rotate_left; rewrite length_app, length_drop, length_take; lia|by rewrite length_ring|].
  intros o x y Ho. rewrite ring_lookup by done. unfold rotate_left. simpl.
  destruct (decide (o < length l - i)%nat).
  - rewrite lookup_app_l by (rewrite length_drop; lia). rewrite lookup_drop.
    rewrite Nat.mod_small by lia. congruence.
  - rewrite lookup_app_r by (rewrite length_drop; lia). rewrite length_drop.
    rewrite lookup_take_lt by lia.
    replace (i + o)%nat with (o - (length l - i) + 1 * length l)%nat by lia.
    rewrite Nat.Div0.mod_add, Nat.mod_small by lia. congruence.
Qed.

(** The other way round: the same first seat, and the rest reversed. *)
Lemma ring_reversed l i :
  (i < length l)%nat →
  ring l Reversed i = take 1 (ring l Normal i) ++ reverse (drop 1 (ring l Normal i)).
Proof.
  intros Hi. apply list_eq_same_length with (n := length l);
    [rewrite length_app, length_reverse, length_drop, length_take, length_ring; lia
    |by rewrite length_ring|].
  intros o x y Ho. rewrite ring_lookup by done. simpl.
  rewrite (Nat.mod_small o) by done. destruct o as [|o].
  - rewrite lookup_app_l by (rewrite length_take, length_ring; lia).
    rewrite lookup_take_lt by lia. rewrite ring_lookup by lia. simpl.
    replace (i + length l - 0)%nat with (i + 0 + 1 * length l)%nat by lia.
    rewrite Nat.Div0.mod_add. congruence.
  - rewrite lookup_app_r by (rewrite length_take; lia).
    rewrite length_take, length_ring. replace (S o - 1 `min` length l)%nat with o by lia.
    rewrite reverse_lookup by (rewrite length_drop, length_ring; lia).
    rewrite length_drop, length_ring, lookup_drop, ring_lookup by lia. simpl.
    replace (i + S (length l - 1 - S o))%nat with (i + length l - S o)%nat by lia.
    congruence.
Qed.

Lemma ring_perm l dir i : (i < length l)%nat → ring l dir i ≡ₚ l.
Proof.
  intros Hi. assert (ring l Normal i ≡ₚ l) as Hn.
  { rewrite ring_normal by done. unfold rotate_left.
    by rewrite Permutation_app_comm, take_drop. }
  destruct dir; [done|]. rewrite ring_reversed by done.
  by rewrite reverse_Permutation, take_drop.
Qed.

(** Starting further along the ring rotates it. *)
Lemma ring_rotate l dir i k :
  (k < length l)%nat →
  ring l dir (turn_order_index i k (length l) dir) = rotate_left k (ring l dir i).
Proof.
  intros Hk. apply list_eq_same_length with (n := length l);
    [unfold rotate_left; rewrite length_app, length_drop, length_take, length_ring; lia
    |by rewrite length_ring|].
  intros o x y Ho. rewrite ring_lookup by done. unfold rotate_left.
  assert (∀ m, (m < length l)%nat → (m = k + o \/ m + length l = k + o)%nat →
    turn_order_index (turn_order_index i k (length l) dir) o (length l) dir
      = turn_order_index i m (length l) dir) as Hidx.
  { intros m Hm Hmo. destruct dir; simpl.
    - rewrite Nat.Div0.add_mod_idemp_l. destruct Hmo as [->|Hmo]; [f_equal; lia|].
      replace (i + k + o)%nat with (i + m + 1 * length l)%nat by lia.
      by rewrite Nat.Div0.mod_add.
    - rewrite (Nat.mod_small k), (Nat.mod_small o), (Nat.mod_small m) by done.
      rewrite <-Nat.add_sub_assoc by lia. rewrite Nat.Div0.add_mod_idemp_l.
      destruct Hmo as [->|Hmo].
      + replace (i + length l - k + (length l - o))%nat
          with (i + length l - (k + o) + 1 * length l)%nat by lia.
        by rewrite Nat.Div0.mod_add.
      + f_equal. lia. }
  destruct (decide (o < length l - k)%nat).
  - rewrite lookup_app_l by (rewrite length_drop, length_ring; lia).
    rewrite lookup_drop, ring_lookup by lia. rewrite (Hidx (k + o)%nat) by lia. congruence.
  - rewrite lookup_app_r by (rewrite length_drop, length_ring; lia).
    rewrite length_drop, length_ring, lookup_take_lt, ring_lookup by lia.
    rewrite (Hidx (o - (length l - k))%nat) by lia. congruence.
Qed.

(** The walk that starts one seat further and comes back to its start. *)
Lemma walk_eq l dir i :
  (λ o, nth (turn_order_index i o (length l) dir) l 0) <$> seq 1 (length l)
    = drop 1 (ring l dir i) ++ take 1 (ring l dir i).
Proof.
  unfold ring. destruct (length l) as [|n] eqn:Hn; [done|]. rewrite seq_S.
  rewrite fmap_app. change (seq 0 (S n)) with (0%nat :: seq 1 n). rewrite fmap_cons.
  cbn [drop take]. f_equal. change (1 + n)%nat with (S n). cbn [fmap list_fmap]. f_equal. f_equal.
  destruct dir; cbn [turn_order_index].
  - replace (i + S n)%nat with (i + 0 + 1 * S n)%nat by lia. by rewrite Nat.Div0.mod_add.
  - by rewrite Nat.Div0.mod_same, Nat.Div0.mod_0_l.
Qed.
End ring.

(** ** The living players from a seat on *)
Lemma find_first_head {A} (p : A → bool) l : find_first p l = head (filter p l).
Proof.
  induction l as [|x l IH]; [done|]. rewrite filter_cons. simpl.
  rewrite IH. case_decide as Hx; [by rewrite (Is_true_true_1 _ Hx)|].
  destruct (p x); [by destruct Hx|done].
Qed.
Lemma filter_split {A} (P : A → Prop) `{!∀ x, Decision (P x)} l A1 x B1 :
  filter P l = A1 ++ x :: B1 →
  ∃ l1 l2, l = l1 ++ x :: l2 ∧ filter P l1 = A1 ∧ filter P l2 = B1.
Proof.
  revert A1. induction l as [|y l IH]; intros A1; [by destruct A1|].
  rewrite filter_cons. case_decide as Hy.
  - destruct A1 as [|a A1]; intros [= -> Hl].
    + by exists [], l.
    + destruct (IH _ Hl) as (l1&l2&->&<-&<-). exists (a :: l1), l2.
      by rewrite filter_cons, decide_True.
  - intros (l1&l2&->&<-&<-)%IH. exists (y :: l1), l2. by rewrite filter_cons, decide_False.
Qed.

Section walk.
Context (s : GameState) (Hw : table_wf s).
Implicit Types (dir : TurnDirection) (p x : N).

Definition living_from (dir : TurnDirection) (p : N) : list N :=
  filter (is_alive s) (ring (seat_order s) dir (seat_index s p)).
(** One step along the living players. *)
Definition step (dir : TurnDirection) (p : N) : N :=
  match dir with Normal => next_player s p | Reversed => previous_player s p end.

Lemma seat_index_lt p : seat_order s ≠ [] → (seat_index s p < length (seat_order s))%nat.
Proof.
  intros Hne. unfold seat_index. destruct (position _ _) as [i|] eqn:Hi.
  - by apply position_lt in Hi.
  - destruct (seat_order s); [done|]. simpl. lia.
Qed.
Lemma seat_index_Some p : p ∈ seat_order s → seat_order s !! seat_index s p = Some p.
Proof.
  intros Hp. unfold seat_index. destruct (position _ _) as [i|] eqn:Hi.
  - apply position_Some in Hi as (x&Hx&->%N.eqb_eq&_). done.
  - rewrite position_None in Hi. specialize (Hi p Hp). by rewrite N.eqb_refl in Hi.
Qed.
Lemma seated_nonempty p : p ∈ seat_order s → seat_order s ≠ [].
Proof. intros Hp Hn. rewrite Hn in Hp. by apply elem_of_nil in Hp. Qed.
Lemma ring_head dir p :
  p ∈ seat_order s →
  ring (seat_order s) dir (seat_index s p)
    = p :: drop 1 (ring (seat_order s) dir (seat_index s p)).
Proof.
  intros Hp. pose proof (seat_index_lt p (seated_nonempty p Hp)) as Hlt.
  assert (ring (seat_order s) dir (seat_index s p) !! 0%nat = Some p) as H0.
  { rewrite ring_lookup by lia. rewrite <-(seat_index_Some p Hp). f_equal.
    destruct dir; simpl turn_order_index.
    - rewrite Nat.add_0_r. by apply Nat.mod_small.
    - rewrite Nat.Div0.mod_0_l, Nat.sub_0_r.
      rewrite <-(Nat.mul_1_l (length _)) at 1. rewrite Nat.Div0.mod_add. by apply Nat.mod_small. }
  destruct (ring _ _ _); simplify_eq/=. done.
Qed.

Lemma living_from_perm dir p : living_from dir p ≡ₚ living s.
Proof.
  unfold living_from, living. destruct (seat_order s) as [|q l] eqn:Hl; [done|].
  rewrite <-Hl. rewrite ring_perm; [done|]. apply seat_index_lt. by rewrite Hl.
Qed.
Lemma living_from_nodup dir p : NoDup (living_from dir p).
Proof. rewrite living_from_perm. by apply living_nodup. Qed.
Lemma elem_of_living_from dir p x : x ∈ living_from dir p ↔ is_alive s x.
Proof. rewrite living_from_perm. by apply elem_of_living. Qed.

Lemma living_from_head dir p :
  is_alive s p → living_from dir p = p :: drop 1 (living_from dir p).
Proof.
  intros Ha. unfold living_from. rewrite ring_head by (by apply alive_seated).
  by rewrite filter_cons, decide_True.
Qed.

(** Starting from a later player rotates the order. *)
Lemma living_from_rotate dir p x A1 B1 :
  living_from dir p = A1 ++ x :: B1 → living_from dir x = x :: B1 ++ A1.
Proof.
  unfold living_from at 1. intros Hx. assert (is_alive s x) as Ha.
  { rewrite <-(elem_of_living_from dir p). unfold living_from. rewrite Hx. set_solver. }
  apply filter_split in Hx as (l1&l2&Hr&HA&HB).
  assert (seat_order s ≠ []) as Hne by (by eapply seated_nonempty, alive_seated).
  pose proof (seat_index_lt p Hne) as Hp.
  assert (length l1 < length (seat_order s))%nat as Hl.
  { rewrite <-(length_ring (seat_order s) dir (seat_index s p)), Hr, length_app. simpl. lia. }
  assert (seat_index s x = turn_order_index (seat_index s p) (length l1)
    (length (seat_order s)) dir) as Hidx.
  { eapply NoDup_lookup; [by apply tw_nodup|apply seat_index_Some; by apply alive_seated|].
    rewrite <-ring_lookup by done. by rewrite Hr, list_lookup_middle. }
  unfold living_from. rewrite Hidx, ring_rotate, Hr by done. unfold rotate_left.
  rewrite drop_app_length, take_app_length. simpl.
  rewrite filter_cons, decide_True by done. by rewrite filter_app, HA, HB.
Qed.

Lemma step_eq dir p :
  step dir p = default p (find_first (is_alive s)
    (drop 1 (ring (seat_order s) dir (seat_index s p))
      ++ take 1 (ring (seat_order s) dir (seat_index s p)))).
Proof.
  rewrite <-walk_eq.
  destruct dir; unfold step, next_player, previous_player;
    (destruct (seat_order s) as [|q l] eqn:Hl; [done|]); simpl length; simpl Nat.eqb;
    cbv iota zeta; unfold seat_at; by rewrite Hl.
Qed.

(** A living player is followed by the next of the order, a departed one by its first. *)
Lemma step_living dir p :
  is_alive s p → step dir p = default p (head (drop 1 (living_from dir p))).
Proof.
  intros Ha. rewrite step_eq, find_first_head.
  pose proof (ring_head dir p (alive_seated _ _ Hw Ha)) as Hr. unfold living_from.
  set (r := ring _ _ _) in *. rewrite Hr. cbn [drop take].
  rewrite filter_app, !filter_cons, !decide_True by done. cbn [drop].
  rewrite !drop_0. by destruct (filter _ (drop 1 r)).
Qed.
Lemma step_departed dir p :
  p ∈ seat_order s → ¬ is_alive s p → step dir p = default p (head (living_from dir p)).
Proof.
  intros Hp Ha. rewrite step_eq, find_first_head.
  pose proof (ring_head dir p Hp) as Hr. unfold living_from.
  set (r := ring _ _ _) in *. rewrite Hr. cbn [drop take].
  rewrite filter_app, !filter_cons, !decide_False by done. by rewrite app_nil_r, drop_0.
Qed.

(** From a living player the steps visit the order and come back. *)
Lemma step_iter dir p k x :
  is_alive s p → living_from dir p !! k = Some x → Nat.iter k (step dir) p = x.
Proof.
  intros Ha. revert x. induction k as [|k IH]; intros x Hx.
  { rewrite living_from_head in Hx by done. by injection Hx. }
  destruct (living_from dir p !! k) as [y|] eqn:Hy.
  2: { apply lookup_ge_None in Hy. apply lookup_lt_Some in Hx. lia. }
  simpl. rewrite (IH y eq_refl).
  assert (is_alive s y) as Hya by (by eapply elem_of_living_from, list_elem_of_lookup_2).
  apply take_drop_middle in Hy as Hsplit. rewrite step_living by done.
  rewrite (living_from_rotate dir p y (take k (living_from dir p)) (drop (S k) (living_from dir p)))
    by done. simpl.
  destruct (drop (S k) (living_from dir p)) as [|z d] eqn:Hd.
  - apply (f_equal length) in Hd. rewrite length_drop in Hd. apply lookup_lt_Some in Hx.
    simpl in Hd. lia.
  - apply (f_equal (λ l, l !! 0%nat)) in Hd. rewrite lookup_drop, Nat.add_0_r, Hx in Hd.
    by injection Hd as ->.
Qed.
Lemma step_iter_back dir p :
  is_alive s p → Nat.iter (length (living_from dir p)) (step dir) p = p.
Proof.
  intros Ha. pose proof (living_from_head dir p Ha) as Hh.
  set (n := (length (living_from dir p) - 1)%nat).
  assert (length (living_from dir p) = S n) as Hn.
  { subst n. rewrite Hh. simpl. lia. }
  destruct (lookup_lt_is_Some_2 (living_from dir p) n) as [y Hy]; [lia|].
  rewrite Hn. simpl. rewrite (step_iter dir p n y Ha Hy).
  assert (is_alive s y) as Hya by (by eapply elem_of_living_from, list_elem_of_lookup_2).
  rewrite step_living by done. apply take_drop_middle in Hy as Hsplit.
  rewrite (living_from_rotate dir p y (take n (living_from dir p)) []).
  2: { rewrite <-Hsplit at 1. f_equal. f_equal. apply drop_ge. lia. }
  simpl. rewrite Hh. destruct n; simpl; [|done].
  rewrite Hh in Hy. by injection Hy.
Qed.

(** The other direction is the inverse. *)
Definition flip (dir : TurnDirection) : TurnDirection :=
  match dir with Normal => Reversed | Reversed => Normal end.
Lemma living_from_flip dir p :
  is_alive s p → living_from (flip dir) p = p :: reverse (drop 1 (living_from dir p)).
Proof.
  intros Ha. assert (∀ p, is_alive s p →
    living_from Reversed p = p :: reverse (drop 1 (living_from Normal p))) as Hr.
  { clear p Ha. intros p Ha. unfold living_from.
    rewrite ring_reversed by (apply seat_index_lt; by eapply seated_nonempty, alive_seated).
    rewrite (ring_head Normal p) by (by apply alive_seated). cbn [take drop app].
    rewrite take_0, !drop_0. cbn [app].
    rewrite !filter_cons, !decide_True by done. cbn [drop]. by rewrite drop_0, filter_reverse. }
  destruct dir; [by apply Hr|]. rewrite (Hr p Ha). cbn [flip drop].
  rewrite drop_0. by rewrite reverse_involutive, <-living_from_head.
Qed.
Lemma step_flip dir p : is_alive s p → step (flip dir) (step dir p) = p.
Proof.
  intros Ha. pose proof (living_from_head dir p Ha) as Hh.
  rewrite (step_living dir p Ha). destruct (drop 1 (living_from dir p)) as [|y r].
  - simpl. rewrite step_living by done. rewrite living_from_flip by done.
    rewrite Hh. done.
  - simpl. assert (is_alive s y) as Hya.
    { apply (elem_of_living_from dir p). rewrite Hh. set_solver. }
    rewrite step_living, living_from_flip by done.
    rewrite (living_from_rotate dir p y [p] r Hh). cbn [drop app]. rewrite ?drop_0.
    by rewrite reverse_snoc.
Qed.
End walk.

(** ** Firsts of a key *)
Lemma elem_of_concat {A} (L : list (list A)) x : x ∈ concat L ↔ ∃ l, x ∈ l ∧ l ∈ L.
Proof.
  rewrite list_elem_of_In, in_concat. setoid_rewrite list_elem_of_In. naive_solver.
Qed.
Lemma concat_singletons {A} (l : list A) : concat ((λ x, [x]) <$> l) = l.
Proof. induction l as [|x l IH]; [done|]. cbn. by f_equal. Qed.

Section first_per_key.
Context (key : N → N).

Lemma elem_of_first_per_key seen l x :
  x ∈ first_per_key key seen l → x ∈ l ∧ key x ∉ seen.
Proof.
  revert seen. induction l as [|y l IH]; intros seen; simpl; [by intros ?%elem_of_nil|].
  case_bool_decide; [intros []%IH; set_solver|].
  rewrite elem_of_cons. intros [->|[]%IH]; set_solver.
Qed.
Lemma first_per_key_nodup seen l : NoDup (key <$> first_per_key key seen l).
Proof.
  revert seen. induction l as [|y l IH]; intros seen; simpl; [constructor|].
  case_bool_decide; [apply IH|]. rewrite fmap_cons. constructor; [|apply IH].
  intros (x&Hx&[_ Hk]%elem_of_first_per_key)%list_elem_of_fmap. set_solver.
Qed.
Lemma first_per_key_complete seen l x :
  x ∈ l → key x ∉ seen → ∃ y, y ∈ first_per_key key seen l ∧ key y = key x.
Proof.
  revert seen. induction l as [|y l IH]; intros seen; simpl; [by intros ?%elem_of_nil|].
  intros Hx Hk. case_bool_decide as Hy.
  - apply IH; [|done]. apply elem_of_cons in Hx as [->|]; done.
  - destruct (decide (key x = key y)) as [->|Hne]; [exists y; set_solver|].
    apply elem_of_cons in Hx as [->|Hx]; [done|].
    destruct (IH ({[ key y ]} ∪ seen) Hx) as (z&?&?); [set_solver|]. exists z. set_solver.
Qed.

(** Collecting everybody of each key splits a list into its classes. *)
Lemma per_key_partition (members : N → list N) l :
  NoDup l → (∀ x, x ∈ l → NoDup (members x)) →
  (∀ x y, x ∈ l → y ∈ members x ↔ y ∈ l ∧ key y = key x) →
  concat (members <$> first_per_key key ∅ l) ≡ₚ l.
Proof.
  intros Hl Hnd Hm. apply NoDup_Permutation; [|done|].
  - pose proof (first_per_key_nodup ∅ l) as Hk.
    assert (∀ x, x ∈ first_per_key key ∅ l → x ∈ l) as Hin
      by (by intros x []%elem_of_first_per_key).
    induction (first_per_key key ∅ l) as [|x r IH]; simpl; [constructor|].
    rewrite fmap_cons, NoDup_cons in Hk. destruct Hk as [Hx Hk].
    apply NoDup_app. split_and!; [apply Hnd, Hin; left| |apply IH; [done|set_solver]].
    intros y Hy (ms&Hy2&(z&->&Hz)%list_elem_of_fmap)%elem_of_concat.
    apply Hm in Hy as [_ Hy]; [|apply Hin; left].
    apply Hm in Hy2 as [_ Hy2]; [|apply Hin; by right].
    apply Hx. rewrite <-Hy, Hy2. by apply list_elem_of_fmap_2.
  - intros y. rewrite elem_of_concat. split.
    + intros (ms&Hy&(z&->&[Hz _]%elem_of_first_per_key)%list_elem_of_fmap).
      by apply (Hm z y Hz) in Hy as [].
    + intros Hy. destruct (first_per_key_complete ∅ l y Hy) as (z&Hz&Hk); [set_solver|].
      exists (members z). split; [|by apply list_elem_of_fmap_2].
      apply Hm; [by apply elem_of_first_per_key in Hz as []|done].
Qed.
End first_per_key.

(** ** Teams *)
Section teams.
Context (s : GameState) (Hw : table_wf s).
Implicit Types (p x y : N) (a : SeatAdmission).

Definition admitted (a : SeatAdmission) : list N := filter (admits a s) (seat_order s).

Lemma individual_topology : shared s = false → topology (format_config s) = IndividualSeats.
Proof.
  unfold topology. by destruct (format (format_config s)), (team_based (format_config s)).
Qed.

Lemma team_members_spec a p :
  p ∈ seat_order s →
  NoDup (team_members_admitting s p a) ∧
  ∀ x, x ∈ team_members_admitting s p a ↔ x ∈ admitted a ∧ team_id s x = team_id s p.
Proof.
  intros Hp. unfold team_members_admitting, admitted.
  pose proof (tw_teams s Hw) as Hteams. pose proof (tw_nodup s Hw) as Hnd.
  assert (∀ q, team_id s q = match topology (format_config s) with
    | IndividualSeats => q | FixedTeams k _ _ => q / k
    | OneVsMany arch _ => if q =? arch then 0 else 1 end) as Hid by done.
  destruct (topology (format_config s)) as [|k c t|arch t] eqn:Ht.
  - split; [by apply NoDup_filter|]. intros x. rewrite !list_elem_of_filter, !Hid, andb_True.
    rewrite Is_true_true, N.eqb_eq. naive_solver.
  - destruct (topology_fixed _ _ _ _ Ht) as [-> ->]. specialize (Hteams _ _ _ eq_refl).
    rewrite Forall_forall in Hteams. specialize (Hteams p Hp).
    assert (team_id s p < 2) as Hlt by (rewrite Hid; apply N.Div0.div_lt_upper_bound; lia).
    rewrite (proj2 (N.leb_gt 2 (team_id s p)) Hlt).
    split; [by apply NoDup_filter, Hw|].
    intros x. rewrite !list_elem_of_filter, <-(tw_seats s Hw), andb_True.
    rewrite Is_true_true, N.eqb_eq. tauto.
  - rewrite !Hid. destruct (N.eqb_spec p arch) as [->|Hne].
    + split; [by apply NoDup_filter|]. intros x.
      rewrite !list_elem_of_filter, !Hid, andb_True, Is_true_true.
      destruct (N.eqb_spec x arch); naive_solver.
    + split; [by apply NoDup_filter|]. intros x.
      rewrite !list_elem_of_filter, !Hid, andb_True, negb_True, Is_true_true.
      destruct (N.eqb_spec x arch); naive_solver.
Qed.

Lemma admitted_living : admitted Living = living s.
Proof. done. Qed.
Lemma elem_of_team_members p x :
  is_alive s p → x ∈ team_members s p ↔ is_alive s x ∧ team_id s x = team_id s p.
Proof.
  intros Hp. unfold team_members.
  rewrite (proj2 (team_members_spec Living p (alive_seated _ _ Hw Hp))).
  by rewrite admitted_living, elem_of_living.
Qed.

(** The representative of a living player: a living player of its team, the same for all. *)
Lemma representative_spec p :
  is_alive s p →
  let r := priority_pass_representative s p in
  is_alive s r ∧ team_id s r = team_id s p ∧
  (∀ q, is_alive s q → team_id s q = team_id s p → priority_pass_representative s q = r).
Proof.
  intros Hp. unfold priority_pass_representative, normalize_shared_turn_recipient.
  destruct (shared s) eqn:Hsh; simpl.
  - pose proof (elem_of_team_members p) as Hm. destruct (team_members s p) as [|r l] eqn:Hl.
    { exfalso. apply (elem_of_nil p). by apply Hm. }
    simpl. destruct (proj1 (Hm r Hp) ltac:(left)). split_and!; [done..|].
    intros q Hq Ht. enough (team_members s q = team_members s p) as -> by by rewrite Hl.
    unfold team_members, team_members_admitting. unfold team_id in Ht |- *.
    destruct (topology (format_config s)) as [|k c t|arch t]; [by rewrite Ht|by rewrite Ht|].
    by destruct (q =? arch), (p =? arch).
  - split_and!; [done..|]. intros q _. unfold team_id.
    by rewrite (individual_topology Hsh).
Qed.

Lemma apnap_groups_eq p a :
  apnap_choice_groups_admitting s p a =
    let candidates := filter (admits a s)
      (ring (seat_order s) (turn_direction s) (seat_index s p)) in
    if negb (shared s) then (λ candidate, [candidate]) <$> candidates
    else (λ candidate, team_members_admitting s candidate a)
           <$> first_per_key (team_id s) ∅ candidates.
Proof. done. Qed.

Lemma candidates_perm p a :
  filter (admits a s) (ring (seat_order s) (turn_direction s) (seat_index s p)) ≡ₚ admitted a.
Proof.
  unfold admitted. destruct (seat_order s) as [|q l] eqn:Hl; [done|]. rewrite <-Hl.
  rewrite ring_perm; [done|]. apply seat_index_lt. by rewrite Hl.
Qed.

Lemma apnap_members_partition p a :
  concat (apnap_choice_groups_admitting s p a) ≡ₚ admitted a.
Proof.
  rewrite apnap_groups_eq. cbn zeta. rewrite <-(candidates_perm p a).
  pose proof (candidates_perm p a) as Hperm. set (c := filter _ (ring _ _ _)) in *.
  assert (NoDup c) as Hnd by (rewrite Hperm; by apply NoDup_filter, tw_nodup).
  assert (∀ x, x ∈ c → x ∈ seat_order s) as Hseat.
  { intros x. rewrite Hperm. unfold admitted. by rewrite list_elem_of_filter; intros []. }
  destruct (shared s); simpl.
  - apply per_key_partition; [done|..].
    + intros x Hx. by apply team_members_spec, Hseat.
    + intros x y Hx. rewrite (proj2 (team_members_spec a x (Hseat x Hx))). by rewrite Hperm.
  - by rewrite concat_singletons.
Qed.
End teams.

(** ** The order of action *)
Section order.
Context (s : GameState) (Hw : table_wf s).
Implicit Types (p x y : N) (a : SeatAdmission).

Lemma apnap_group_spec p a g :
  g ∈ apnap_choice_groups_admitting s p a →
  ∃ x, x ∈ g ∧ ∀ y, y ∈ g ↔ y ∈ admitted s a ∧ team_id s y = team_id s x.
Proof.
  rewrite apnap_groups_eq. cbn zeta. pose proof (candidates_perm s p a) as Hperm.
  set (c := filter _ (ring _ _ _)) in *. destruct (shared s) eqn:Hsh; simpl.
  - intros (x&->&[Hx _]%elem_of_first_per_key)%list_elem_of_fmap. exists x.
    rewrite Hperm in Hx.
    assert (x ∈ seat_order s) as Hseat by (by apply list_elem_of_filter in Hx as []).
    pose proof (proj2 (team_members_spec s Hw a x Hseat)) as Hm. by rewrite Hm.
  - intros (x&->&Hx)%list_elem_of_fmap. exists x. split; [by left|]. intros y.
    rewrite list_elem_of_singleton. unfold team_id. rewrite (individual_topology s Hsh).
    rewrite Hperm in Hx. naive_solver.
Qed.

Lemma apnap_group_first p a :
  p ∈ seat_order s → admits a s p →
  ∃ g rest, apnap_choice_groups_admitting s p a = g :: rest ∧ p ∈ g.
Proof.
  intros Hp Ha. rewrite apnap_groups_eq. cbn zeta. rewrite ring_head by done.
  rewrite filter_cons, decide_True by done. destruct (shared s) eqn:Hsh; simpl.
  - eexists _, _. split; [done|]. apply team_members_spec; [done..|]. split; [|done].
    by apply list_elem_of_filter.
  - eexists _, _. split; [done|]. by left.
Qed.

Lemma apnap_order_from_eq p c :
  apnap_order_from s (Some (SpecificPlayer p)) c = team_apnap_order_from s p.
Proof.
  unfold apnap_order_from, team_apnap_order_from, apnap_choice_groups_from.
  destruct (Nat.eqb_spec (length (seat_order s)) 0) as [H0|_].
  { apply length_zero_iff_nil in H0. rewrite apnap_groups_eq. unfold ring. rewrite H0. simpl.
    by destruct (shared s). }
  destruct (shared s) eqn:Hsh; [done|]. rewrite apnap_groups_eq, Hsh. simpl negb. cbv iota zeta.
  change (filter (admits Living s) _) with (living_from s (turn_direction s) p).
  change (filter (is_alive s) _) with (living_from s (turn_direction s) p).
  by rewrite concat_singletons.
Qed.

Lemma team_order_living_from p :
  shared s = false → team_apnap_order_from s p = living_from s (turn_direction s) p.
Proof.
  intros Hsh. unfold team_apnap_order_from, apnap_choice_groups_from.
  rewrite apnap_groups_eq, Hsh. simpl.
  change (filter (admits Living s) _) with (living_from s (turn_direction s) p).
  by rewrite concat_singletons.
Qed.

Lemma next_turn_individual p :
  shared s = false → next_turn_representative s p = step s (turn_direction s) p.
Proof.
  intros Hsh. unfold next_turn_representative, next_player_in_turn_order. by rewrite Hsh.
Qed.

Lemma representative_shared p :
  shared s = true → priority_pass_representative s p = normalize_shared_turn_recipient s p.
Proof. unfold priority_pass_representative. by intros ->. Qed.

(** Teams taking turns: the next living seat of another team. *)
Lemma next_turn_shared p :
  shared s = true → is_alive s p →
  let next := next_turn_representative s p in
  is_alive s next ∧ priority_pass_representative s next = next ∧
  ((∃ y, is_alive s y ∧ team_id s y ≠ team_id s p) → team_id s next ≠ team_id s p) ∧
  ((∀ y, is_alive s y → team_id s y = team_id s p) → team_id s next = team_id s p).
Proof.
  intros Hsh Hp. cbn zeta.
  assert (seat_order s ≠ []) as Hne by (by eapply seated_nonempty, alive_seated).
  unfold next_turn_representative. rewrite Hsh. simpl negb. cbv iota.
  destruct (Nat.eqb_spec (length (seat_order s)) 0) as [H0|_].
  { by apply length_zero_iff_nil in H0. }
  unfold seats_from, seat_at. rewrite walk_eq.
  set (other := λ candidate, is_alive s candidate && negb (team_id s candidate =? team_id s p)).
  set (w := drop 1 _ ++ _).
  assert (w ≡ₚ seat_order s) as Hperm.
  { subst w. rewrite Permutation_app_comm, take_drop. by apply ring_perm, seat_index_lt. }
  assert (∀ q, is_alive s q → let r := normalize_shared_turn_recipient s q in
    is_alive s r ∧ priority_pass_representative s r = r ∧ team_id s r = team_id s q) as Hrep.
  { intros q Hq. rewrite <-representative_shared by done.
    destruct (representative_spec s Hw q Hq) as (Hr&Ht&Hall).
    split_and!; [done| |done]. by apply Hall. }
  destruct (find_first other w) as [c|] eqn:Hf.
  - apply find_first_Some in Hf as [Hc [Hca Hct%negb_true_iff%N.eqb_neq]%andb_prop].
    destruct (Hrep c) as (H1&H2&H3); [by rewrite Hca|]. split_and!; [done..| |].
    + by rewrite H3.
    + intros Hall. destruct Hct. apply Hall. by rewrite Hca.
  - destruct (Hrep p Hp) as (H1&H2&H3). split_and!; [done..| |done].
    rewrite find_first_None in Hf. intros (y&Hy&Hty). exfalso.
    specialize (Hf y). rewrite Hperm in Hf. specialize (Hf (alive_seated _ _ Hw Hy)).
    unfold other in Hf. rewrite (Is_true_true_1 _ Hy) in Hf. simpl in Hf.
    by apply negb_false_iff, N.eqb_eq in Hf.
Qed.

(** There are two sides. *)
Lemma two_sides p x y :
  shared s = true → p ∈ seat_order s → x ∈ seat_order s → y ∈ seat_order s →
  team_id s x ≠ team_id s p → team_id s y ≠ team_id s x → team_id s y = team_id s p.
Proof.
  intros Hsh Hp Hx Hy. pose proof (tw_teams s Hw) as Hteams. unfold team_id.
  destruct (topology (format_config s)) as [|k c t|arch t] eqn:Ht; [done| |].
  - destruct (topology_fixed _ _ _ _ Ht) as [-> ->]. specialize (Hteams _ _ _ eq_refl).
    rewrite Forall_forall in Hteams.
    assert (∀ q, q ∈ seat_order s → q / 2 < 2) as Hd.
    { intros q Hq. apply N.Div0.div_lt_upper_bound. specialize (Hteams q Hq). lia. }
    pose proof (Hd p Hp). pose proof (Hd x Hx). pose proof (Hd y Hy).
    generalize dependent (p / 2). generalize dependent (x / 2). generalize dependent (y / 2). lia.
  - destruct (p =? arch), (x =? arch), (y =? arch); done.
Qed.
End order.
