(* ===== verification/TableRules.v ===== *)
(** * What the seats of a game promise

    The theorems on turn order, teams, opponents, shared totals and the contest for the
    first turn, over the tables of [TurnOrder]. *)
From S2P Require Import Prelude.
From S2P Require Import Seats.
From S2P Require Import Topology.
From S2P Require Import TurnOrder.
Local Open Scope N_scope.
Local Abbreviation shared s := (has_shared_team_turns (topology (format_config s))).

(** ** Shared totals *)
Section totals.
Local Open Scope Z_scope.

Lemma i32_wrap_add_l a b : i32_wrap (i32_wrap a + b) = i32_wrap (a + b).
Proof.
  unfold i32_wrap. f_equal.
  replace ((a + 2 ^ 31) mod 2 ^ 32 - 2 ^ 31 + b + 2 ^ 31) with ((a + 2 ^ 31) mod 2 ^ 32 + b) by lia.
  rewrite Z.add_mod_idemp_l by done. f_equal. lia.
Qed.
Lemma i32_sum_eq l : i32_sum l = i32_wrap (foldr Z.add 0 l).
Proof.
  unfold i32_sum. assert (∀ a, foldl (λ a x, i32_wrap (a + x)) (i32_wrap a) l
    = i32_wrap (a + foldr Z.add 0 l)) as Hfold.
  { induction l as [|x l IH]; intros a; simpl; [by rewrite Z.add_0_r|].
    rewrite i32_wrap_add_l, IH. f_equal. lia. }
  change 0 with (i32_wrap 0) at 1. rewrite Hfold. done.
Qed.
Lemma sum_perm (l k : list Z) : l ≡ₚ k → foldr Z.add 0 l = foldr Z.add 0 k.
Proof. induction 1; simpl; lia. Qed.
Lemma sum_app (l k : list Z) : foldr Z.add 0 (l ++ k) = foldr Z.add 0 l + foldr Z.add 0 k.
Proof. induction l as [|x l IH]; simpl; lia. Qed.
(** Wrapping early or late makes no difference. *)
Lemma i32_sum_concat (L : list (list Z)) : i32_sum (i32_sum <$> L) = i32_sum (concat L).
Proof.
  rewrite !i32_sum_eq. induction L as [|l L IH]; [done|]. cbn [fmap list_fmap foldr concat].
  rewrite sum_app. rewrite i32_sum_eq, i32_wrap_add_l.
  rewrite (Z.add_comm (foldr Z.add 0 l)), <-i32_wrap_add_l.
  change (i32_sum <$> L) with (fmap i32_sum L) in IH. rewrite IH, i32_wrap_add_l.
  f_equal. lia.
Qed.
End totals.

Section teams_total.
Context (s : GameState) (Hw : table_wf s).

Lemma elem_of_shared_life_members p x :
  is_alive s p →
  x ∈ shared_life_members s p
    ↔ is_alive s x ∧ shared_life_dedup_key s x = shared_life_dedup_key s p.
Proof.
  intros Hp. unfold shared_life_members, shared_life_dedup_key, has_shared_life.
  pose proof (elem_of_team_members s Hw p x Hp) as Hm.
  destruct (is_two_headed_giant_family _) eqn:H2; [done|].
  assert (∀ q, (if is_alive s q then [q] else []) = filter (is_alive s) [q]) as Hone.
  { intros q. rewrite filter_cons, filter_nil. case_decide; by destruct (is_alive s q). }
  destruct (format (format_config s)) eqn:Hf;
    try (rewrite !andb_false_r, Hone, list_elem_of_filter, list_elem_of_singleton;
         naive_solver).
  unfold archenemy. unfold topology in Hm |- *. unfold team_id in Hm |- *.
  unfold topology in Hm |- *. rewrite Hf in *.
  set (arch := default 0 (archenemy_player (format_config s))) in *.
  rewrite !andb_true_r.
  destruct (bool_decide_reflect (Some p = Some arch)) as [[= ->]|Hpa];
    destruct (bool_decide_reflect (Some x = Some arch)) as [[= ->]|Hxa]; simpl;
    rewrite ?Hone, ?list_elem_of_filter, ?list_elem_of_singleton, ?Hm, ?N.eqb_refl;
    repeat (rewrite (proj2 (N.eqb_neq _ _)) by congruence); naive_solver.
Qed.

Lemma shared_life_members_nodup p : is_alive s p → NoDup (shared_life_members s p).
Proof.
  intros Hp. unfold shared_life_members. destruct (has_shared_life s p).
  - by apply team_members_spec, alive_seated.
  - destruct (is_alive s p); [apply NoDup_singleton|constructor].
Qed.

(** The lives of players by their numbers. *)
Lemma player_of_elem p : p ∈ players s → player_of s (player_id p) = Some p.
Proof.
  intros Hp. unfold player_of. rewrite find_first_position.
  destruct (position _ _) as [i|] eqn:Hi; simpl.
  - apply position_Some in Hi as (q&Hq&Heq%N.eqb_eq&_). rewrite Hq. f_equal.
    apply list_elem_of_lookup in Hp as [j Hj].
    pose proof (NoDup_lookup _ i j (player_id p) (tw_players s Hw)) as Hij.
    rewrite !list_lookup_fmap, Hq, Hj in Hij. simpl in Hij. rewrite Heq in Hij.
    rewrite Hij in Hq by done. congruence.
  - rewrite position_None in Hi. specialize (Hi p Hp). by rewrite N.eqb_refl in Hi.
Qed.
Lemma living_players : living s ≡ₚ player_id <$> filter (λ p, is_eliminated p = false) (players s).
Proof.
  unfold living. rewrite (tw_seats s Hw), filter_fmap_list. apply fmap_Permutation.
  erewrite filter_ext_in; [done|]. intros p Hp. unfold is_alive.
  rewrite Is_true_true, existsb_exists. split.
  - intros (q&Hq%list_elem_of_In&[Heq%N.eqb_eq He%negb_true_iff]%andb_prop).
    apply player_of_elem in Hp, Hq. rewrite Heq in Hq. congruence.
  - intros He. exists p. rewrite N.eqb_refl, He. by apply list_elem_of_In in Hp.
Qed.
Lemma lives_of_living :
  life <$> omap (player_of s) (living s)
    ≡ₚ life <$> filter (λ p, is_eliminated p = false) (players s).
Proof.
  rewrite living_players. apply fmap_Permutation. apply reflexive_eq.
  assert (∀ p, p ∈ filter (λ p, is_eliminated p = false) (players s) → p ∈ players s) as Hin.
  { by intros p []%list_elem_of_filter. }
  induction (filter _ (players s)) as [|p l IH]; [done|]. cbn.
  rewrite (player_of_elem p) by (apply Hin; left). f_equal. apply IH.
  intros q Hq. apply Hin. by right.
Qed.
End teams_total.

(** A shared life total is counted once.  Summing life over the living players of a
    game, in whatever order they are walked, adds every living player's own life exactly
    once, however lives are shared: each side that shares its life contributes one total,
    read the same from any of its members, and that total is the sum over its members. *)
Theorem team_totals_once s ps :
  table_wf s → ps ≡ₚ living s →
  aggregate_over_teams s ps AggSum
    = i32_sum (life <$> filter (λ p, is_eliminated p = false) (players s)) ∧
  (∀ p q, is_alive s p → is_alive s q →
    shared_life_dedup_key s p = shared_life_dedup_key s q →
    team_life_total s p = team_life_total s q) ∧
  (∀ p, is_alive s p → has_shared_life s p = true →
    team_life_total s p = i32_sum (life <$> omap (player_of s) (team_members s p))) ∧
  (∀ p, is_alive s p → has_shared_life s p = false →
    team_life_total s p = i32_sum (life <$> omap (player_of s) [p])).
Proof.
  intros Hw Hps. unfold team_life_total.
  assert (∀ l k, l ≡ₚ k → i32_sum (life <$> omap (player_of s) l)
    = i32_sum (life <$> omap (player_of s) k)) as Hsum.
  { intros l k Hlk. rewrite !i32_sum_eq. by rewrite (sum_perm _ _ (fmap_Permutation _ _ _ (omap_Permutation _ _ _ Hlk))). }
  split_and!.
  - unfold aggregate_over_teams, team_life_total.
    set (key := shared_life_dedup_key s).
    assert (concat (shared_life_members s <$> first_per_key key ∅ ps) ≡ₚ living s) as Hpart.
    { rewrite <-Hps. apply per_key_partition.
      - rewrite Hps. by apply living_nodup.
      - intros x Hx. rewrite Hps, elem_of_living in Hx by done. by apply shared_life_members_nodup.
      - intros x y Hx. rewrite Hps, elem_of_living in Hx by done.
        rewrite (elem_of_shared_life_members s Hw x y Hx), Hps, elem_of_living by done. done. }
    transitivity (i32_sum (life <$> omap (player_of s)
      (concat (shared_life_members s <$> first_per_key key ∅ ps)))).
    + generalize (first_per_key key ∅ ps). intros l.
      transitivity (i32_sum (i32_sum <$> ((λ p, life <$> omap (player_of s) (shared_life_members s p)) <$> l))).
      { by rewrite <-list_fmap_compose. }
      rewrite i32_sum_concat. f_equal. induction l as [|x l IH]; [done|]. cbn.
      rewrite omap_app, fmap_app. f_equal. exact IH.
    + rewrite (Hsum _ _ Hpart), !i32_sum_eq. f_equal.
      apply sum_perm, lives_of_living; done.
  - intros p q Hp Hq Hk. apply Hsum. apply NoDup_Permutation;
      [by apply shared_life_members_nodup..|].
    intros x. rewrite !elem_of_shared_life_members by done. by rewrite Hk.
  - intros p Hp Hs. unfold shared_life_members. by rewrite Hs.
  - intros p Hp Hs. unfold shared_life_members. rewrite Hs. by rewrite (Is_true_true_1 _ Hp).
Qed.

(** C24. The order in which players act.  In any game, from any seat and in either
    direction, the groups that choose together hold every admitted player exactly once;
    each group is one whole side, never empty; and the group of the starting player, if
    it is admitted, comes first.  Where nobody shares turns, the order is the walk round
    the table, and it is the one every ordering routine of the engine agrees on. *)
Theorem apnap_groups s start a :
  table_wf s →
  let groups := apnap_choice_groups_admitting s start a in
  concat groups ≡ₚ filter (admits a s) (seat_order s) ∧
  NoDup (concat groups) ∧
  (∀ g, g ∈ groups → ∃ x, x ∈ g ∧
     ∀ y, y ∈ g ↔ (y ∈ seat_order s ∧ admits a s y) ∧ team_id s y = team_id s x) ∧
  (start ∈ seat_order s → admits a s start →
     ∃ g rest, groups = g :: rest ∧ start ∈ g) ∧
  (a = Living → ∀ c, apnap_order_from s (Some (SpecificPlayer start)) c = concat groups) ∧
  (shared s = false → a = Living →
     concat groups = vote_order_from s start ∧
     concat groups = living_from s (turn_direction s) start).
Proof.
  intros Hw groups. pose proof (apnap_members_partition s Hw start a) as Hperm.
  split_and!.
  - exact Hperm.
  - subst groups. rewrite Hperm. by apply NoDup_filter, tw_nodup.
  - intros g Hg. destruct (apnap_group_spec s Hw start a g Hg) as (x&Hx&Hiff).
    exists x. split; [done|]. intros y. rewrite Hiff. unfold admitted.
    rewrite list_elem_of_filter. tauto.
  - by apply apnap_group_first.
  - intros -> c. by rewrite apnap_order_from_eq.
  - intros Hsh ->. pose proof (team_order_living_from s start Hsh) as Heq.
    unfold team_apnap_order_from, apnap_choice_groups_from in Heq. split; [|done].
    subst groups. rewrite Heq. unfold vote_order_from, living_from.
    destruct (Nat.eqb_spec (length (seat_order s)) 0) as [H0|_]; [|done].
    apply length_zero_iff_nil in H0. unfold ring. by rewrite H0.
Qed.

(** C25. Turns go round the table.  Where turns are not shared, taking turns from a living
    player visits the living players in the order in which they act, each once, and
    returns; reversing the turn order gives the turn back to whoever had it before; after
    a player who has left, the next turn is that of the first living player after that
    seat.  Where turns are shared, the next turn is taken by the living representative
    of the other side, and then by that of the side before, as long as both have living
    players. *)
Theorem turns_go_round s p :
  table_wf s → p ∈ seat_order s →
  (shared s = false → is_alive s p →
     let order := apnap_order_from s (Some (SpecificPlayer p)) p in
     order ≡ₚ filter (is_alive s) (seat_order s) ∧
     (∀ k x, order !! k = Some x → Nat.iter k (next_turn_representative s) p = x) ∧
     Nat.iter (length order) (next_turn_representative s) p = p ∧
     next_turn_representative (reverse_turn_order s) (next_turn_representative s p) = p) ∧
  (shared s = false → ¬ is_alive s p →
     next_turn_representative s p
       = default p (head (apnap_order_from s (Some (SpecificPlayer p)) p))) ∧
  (shared s = true → is_alive s p →
     let next := next_turn_representative s p in
     is_alive s next ∧ priority_pass_representative s next = next ∧
     ((∃ y, is_alive s y ∧ team_id s y ≠ team_id s p) →
        team_id s next ≠ team_id s p ∧
        team_id s (next_turn_representative s next) = team_id s p) ∧
     ((∀ y, is_alive s y → team_id s y = team_id s p) → team_id s next = team_id s p)).
Proof.
  intros Hw Hp. split_and!.
  - intros Hsh Ha. cbn zeta. rewrite apnap_order_from_eq, team_order_living_from by done.
    assert (∀ k x, Nat.iter k (next_turn_representative s) x
      = Nat.iter k (step s (turn_direction s)) x) as Hiter.
    { intros k x. induction k as [|k IH]; [done|]. simpl. by rewrite IH, next_turn_individual. }
    setoid_rewrite Hiter. split_and!.
    + by apply living_from_perm.
    + intros k x. by apply step_iter.
    + by apply step_iter_back.
    + rewrite !next_turn_individual by done.
      change (step (reverse_turn_order s) (turn_direction (reverse_turn_order s)))
        with (step s (flip (turn_direction s))). by apply step_flip.
  - intros Hsh Ha. rewrite apnap_order_from_eq, team_order_living_from by done.
    rewrite next_turn_individual by done. by apply step_departed.
  - intros Hsh Ha. cbn zeta.
    destruct (next_turn_shared s Hw p Hsh Ha) as (Hn&Hr&Hother&Hsame).
    set (next := next_turn_representative s p) in *. split_and!; [done..| |done].
    intros Hex. specialize (Hother Hex). split; [done|].
    destruct (next_turn_shared s Hw next Hsh Hn) as (Hn2&_&Hother2&_).
    eapply (two_sides s Hw p next); [done..| | | |].
    + by apply alive_seated.
    + by apply alive_seated.
    + done.
    + apply Hother2. exists p. split; [done|]. intros Heq. by apply Hother.
Qed.

(** The lobby and the game put a seat on the same team: the index a lobby shows for a seat
    is the team the game plays it on. *)
Theorem lobby_teams_agree s i x :
  i < 256 → seat_team_info (format_config s) i = Some x → team_index x = team_id s i.
Proof.
  intros Hi Hx. destruct (seat_team_info_spec (format_config s) i Hi) as [_ Hspec].
  unfold team_id. destruct (topology (format_config s)) as [|k c t|arch t] eqn:Ht.
  - congruence.
  - destruct (topology_fixed _ _ _ _ Ht) as [-> ->]. rewrite Hspec in Hx.
    destruct (i <? 4); simplify_eq. done.
  - rewrite Hspec in Hx. repeat case_match; simplify_eq; done.
Qed.

(** ** The nearest opponent *)
Definition way (d : SeatDirection) : TurnDirection :=
  match d with Left => Normal | Right => Reversed end.
Lemma neighbor_step s p d : neighbor s p d = step s (way d) p.
Proof. by destruct d. Qed.

Lemma nearest_walk_spec s c d x l1 l2 fuel :
  table_wf s → living_from s (way d) c = c :: l1 ++ x :: l2 →
  (length l2 + 2 ≤ fuel)%nat →
  nearest_opponent_walk fuel s c x d = Some (find_first (is_opponent s c) (x :: l2)).
Proof.
  intros Hw. revert x l1 fuel. induction l2 as [|y l2 IH]; intros x l1 fuel Hl Hf;
    destruct fuel as [|fuel]; simpl in Hf; try lia; simpl.
  all: pose proof (living_from_nodup s Hw (way d) c) as Hnd; rewrite Hl in Hnd.
  all: destruct (N.eqb_spec x c) as [->|Hxc]; [exfalso; apply NoDup_cons in Hnd as [Hc _]; set_solver|].
  all: destruct (is_opponent s c x) eqn:Ho; [done|].
  all: assert (is_alive s x) as Hx by (rewrite <-(elem_of_living_from s Hw (way d) c), Hl; set_solver).
  all: rewrite neighbor_step, step_living by done.
  all: rewrite (living_from_rotate s Hw (way d) c x (c :: l1) _ Hl); cbn [drop app].
  all: rewrite ?drop_0; cbn [head default from_option app].
  - destruct fuel as [|fuel]; [lia|]. simpl. by rewrite N.eqb_refl.
  - apply (IH y (l1 ++ [x])); [|lia]. rewrite Hl. by rewrite <-app_assoc.
Qed.

(** The nearest opponent of a living player is found within one walk round the table: the
    first opponent among the living players met that way.  The walk of a player who has
    left never ends when nobody alive is an opponent. *)
Theorem nearest_opponent_spec s c d :
  table_wf s → c ∈ seat_order s →
  (is_alive s c → ∀ fuel, (length (seat_order s) < fuel)%nat →
     nearest_opponent fuel s c d
       = Some (find_first (is_opponent s c) (drop 1 (living_from s (way d) c)))) ∧
  (¬ is_alive s c → (∃ x, is_alive s x) → (∀ x, is_alive s x → is_opponent s c x = false) →
     ∀ fuel, nearest_opponent fuel s c d = None).
Proof.
  intros Hw Hc. unfold nearest_opponent. rewrite neighbor_step. split.
  - intros Ha fuel Hf. pose proof (living_from_head s Hw (way d) c Ha) as Hh.
    rewrite step_living by done. destruct (drop 1 (living_from s (way d) c)) as [|x l] eqn:Hl.
    + simpl. destruct fuel; [lia|]. simpl. by rewrite N.eqb_refl.
    + simpl default. apply (nearest_walk_spec s c d x [] l); [done..|].
      pose proof (living_from_perm s (way d) c) as Hp. apply Permutation_length in Hp.
      rewrite Hh in Hp. simpl in Hp. unfold living in Hp.
      pose proof (length_filter (is_alive s) (seat_order s)). lia.
  - intros Ha (x&Hx) Hall.
    assert (∀ fuel q, is_alive s q → nearest_opponent_walk fuel s c q d = None) as Hwalk.
    { induction fuel as [|fuel IH]; intros q Hq; [done|]. simpl.
      destruct (N.eqb_spec q c) as [->|_]; [done|]. rewrite (Hall q Hq). apply IH.
      rewrite neighbor_step, step_living by done.
      pose proof (living_from_head s Hw (way d) q Hq) as Hh.
      destruct (drop 1 (living_from s (way d) q)) as [|y l]; [done|]. simpl.
      rewrite <-(elem_of_living_from s Hw (way d) q), Hh. set_solver. }
    intros fuel. apply Hwalk. rewrite step_departed by done.
    pose proof (elem_of_living_from s Hw (way d) c) as Hin.
    destruct (living_from s (way d) c) as [|y l]; simpl.
    + apply Hin in Hx. by apply elem_of_nil in Hx.
    + apply Hin. left.
Qed.

(** ** The contest for the first turn *)
Section contest.
Context {Rng : Type} (roll_round : Rng → list N → list (N * N) * Rng).

(** A round rolls once for each contender, in order. *)
Hypothesis rolls_contenders : ∀ rng cs, fst <$> (roll_round rng cs).1 = cs.

(** The tied highest rollers of a round. *)
Definition tied_top (rolls : list (N * N)) : list N :=
  match max_roll rolls with Some m => top_group m rolls | None => [] end.

Lemma max_roll_spec rolls m :
  max_roll rolls = Some m → (∃ x, (x, m) ∈ rolls) ∧ ∀ x r, (x, r) ∈ rolls → r <= m.
Proof.
  destruct rolls as [|[y r0] rolls]; [done|]. simpl. intros [= <-].
  induction rolls as [|[z r] rolls [[x Hx] IH]]; simpl.
  { split; [exists y; by left|]. intros x r. rewrite list_elem_of_singleton. by intros [= -> ->]. }
  split.
  - destruct (N.max_spec_le r (foldr (λ x m, N.max x.2 m) r0 rolls)) as [[_ ->]|[_ ->]].
    + exists x. revert Hx. rewrite !elem_of_cons. tauto.
    + exists z. rewrite !elem_of_cons. tauto.
  - intros x' r'. rewrite !elem_of_cons. intros [[= -> ->]|[[= -> ->]|H]].
    + specialize (IH y r0 ltac:(left)). lia.
    + lia.
    + specialize (IH x' r' ltac:(by right)). lia.
Qed.
Lemma tied_top_spec rolls x :
  x ∈ tied_top rolls ↔ ∃ r, (x, r) ∈ rolls ∧ ∀ y r', (y, r') ∈ rolls → r' <= r.
Proof.
  unfold tied_top, top_group. destruct (max_roll rolls) as [m|] eqn:Hm.
  - apply max_roll_spec in Hm as [[z Hz] Hmax]. rewrite list_elem_of_fmap. split.
    + intros ([y r]&->&[Hr Hy]%list_elem_of_filter).
      apply Is_true_true, N.eqb_eq in Hr. simpl in Hr. subst m. by exists r.
    + intros (r&Hx&Hr). exists (x, r). split; [done|]. apply list_elem_of_filter.
      split; [|done]. apply Is_true_true, N.eqb_eq. simpl.
      specialize (Hr z m Hz). specialize (Hmax x r Hx). lia.
  - split; [by intros ?%elem_of_nil|]. intros (r&Hx&_). destruct rolls as [|[]]; [|done].
    by apply elem_of_nil in Hx.
Qed.

(** Rounds in which the tied top of each are the contenders of the next, from [cs]. *)
Fixpoint contest_rounds (cs : list N) (rounds : list (list (N * N))) : Prop :=
  match rounds with
  | [] => True
  | r :: rounds => fst <$> r = cs ∧ (rounds = [] ∨ ∃ x y l, tied_top r = x :: y :: l) ∧
                   contest_rounds (tied_top r) rounds
  end.

Lemma contest_loop_spec n cs rng :
  cs ≠ [] →
  ∃ rounds r, contest_loop roll_round n cs rng = Ok (rounds, r) ∧
    contest_rounds cs rounds ∧ (length rounds ≤ n)%nat ∧
    match r with
    | inl w => ∃ last_round, last rounds = Some last_round ∧ tied_top last_round = [w]
    | inr tied => length rounds = n ∧ tied ≠ [] ∧
        tied = default cs (tied_top <$> last rounds)
    end.
Proof.
  revert cs rng. induction n as [|n IH]; intros cs rng Hcs; simpl.
  { by exists [], (inr cs). }
  pose proof (rolls_contenders rng cs) as Hr. destruct (roll_round rng cs) as [rolls rng'].
  simpl in Hr. destruct (max_roll rolls) as [m|] eqn:Hm.
  2: { destruct rolls; [|done]. by destruct cs. }
  assert (top_group m rolls = tied_top rolls) as Htop by (unfold tied_top; by rewrite Hm).
  rewrite Htop. assert (tied_top rolls ≠ []) as Hne.
  { apply max_roll_spec in Hm as [[z Hz] Hmax]. intros Hnil.
    apply (elem_of_nil z). rewrite <-Hnil. apply tied_top_spec. by exists m. }
  destruct (tied_top rolls) as [|w [|w2 l]] eqn:Ht; [done| |].
  - exists [rolls], (inl w). split_and!; [done| |simpl; lia|by exists rolls].
    cbn [contest_rounds]. split_and!; [done|by left|done].
  - destruct (IH (w :: w2 :: l) rng' ltac:(done)) as (rounds&r&->&Hrounds&Hlen&Hend).
    simpl. exists (rolls :: rounds), r. split_and!; [done| |simpl; lia|].
    + cbn [contest_rounds]. rewrite Ht. split_and!; [done|right; by eexists _, _, _|done].
    + destruct r as [win|left].
      * destruct Hend as (lr&Hlr&Hw). exists lr. split; [|done].
        destruct rounds; [done|]. exact Hlr.
      * destruct Hend as (Hn&Hnn&->). split_and!; [simpl; lia|done|].
        rewrite last_cons. destruct (last rounds); simpl; [done|by rewrite Ht].
Qed.

Lemma contest_rounds_within cs rounds r x :
  contest_rounds cs rounds → r ∈ rounds → x ∈ tied_top r → x ∈ cs.
Proof.
  revert cs. induction rounds as [|r' rounds IH]; intros cs Hc Hr Hx; [by apply elem_of_nil in Hr|].
  destruct Hc as (<-&_&Hc).
  assert (∀ y, y ∈ tied_top r' → y ∈ fst <$> r') as Hsub.
  { intros y (k&Hy&_)%tied_top_spec. apply list_elem_of_fmap. by exists (y, k). }
  apply elem_of_cons in Hr as [->|Hr]; [by apply Hsub|]. by apply Hsub, (IH _ Hc).
Qed.

(** The contest for the first turn ends and is fair.  Whatever is rolled, between one
    and sixteen rounds are played: the first by every seat, each later one by exactly
    those tied for the highest roll of the one before.  The winner is the only highest
    roller of the last round, or, after sixteen ties, the least seat still tied. *)
Theorem contest_sound order rng :
  order ≠ [] →
  ∃ rounds winner last_round,
    build_contest_rounds roll_round order rng = Ok (rounds, winner) ∧
    (1 ≤ length rounds ≤ 16)%nat ∧ contest_rounds order rounds ∧
    last rounds = Some last_round ∧ winner ∈ order ∧ winner ∈ tied_top last_round ∧
    (tied_top last_round = [winner] ∨
     length rounds = 16%nat ∧ ∀ y, y ∈ tied_top last_round → winner <= y).
Proof.
  intros Ho. unfold build_contest_rounds.
  destruct (contest_loop_spec 16 order rng Ho) as (rounds&r&Heq&Hr&Hlen&Hend).
  unfold FIRST_PLAYER_CONTEST_MAX_ROUNDS. rewrite Heq. simpl.
  destruct r as [w|tied].
  - destruct Hend as (lr&Hl&Ht). exists rounds, w, lr.
    assert (w ∈ tied_top lr) as Hw by (rewrite Ht; by left).
    split_and!; [done| |lia|done|done| |done|by left].
    + destruct rounds; [done|]. simpl. lia.
    + eapply contest_rounds_within; [done|by apply last_Some_elem_of|done].
  - destruct Hend as (Hn&Hne&Htied). destruct (last rounds) as [lr|] eqn:Hl.
    2: { apply last_None in Hl. by subst rounds. }
    simpl in Htied. subst tied.
    destruct (min_by (λ seat, seat) (tied_top lr)) as [w|] eqn:Hmin.
    2: { by apply min_by_None in Hmin. }
    apply min_by_Some in Hmin as [Hw Hmin]. exists rounds, w, lr. simpl.
    split_and!; [done|lia|lia|done|done| |done|by right].
    eapply contest_rounds_within; [done|by apply last_Some_elem_of|done].
Qed.
End contest.
