(* ===== verification/Priority.v ===== *)
(** * Priority, departures and the life of a table

    Passing priority ([priority.rs]) over the orders of [TurnOrder], what a departure
    changes ([elimination.rs]), and that every table a game reaches is well formed. *)
From S2P Require Import Prelude.
From S2P Require Import Seats.
From S2P Require Import Topology.
From S2P Require Import TurnOrder.
From S2P Require Import TableRules.
Local Open Scope N_scope.
Local Abbreviation shared s := (has_shared_team_turns (topology (format_config s))).

(** ** Who has priority in turn *)
Lemma dedup_foldl (l acc : list N) :
  NoDup acc →
  let r := foldl (λ reps rep, if existsb (N.eqb rep) reps then reps else reps ++ [rep]) acc l in
  NoDup r ∧ ∀ x, x ∈ r ↔ x ∈ acc ∨ x ∈ l.
Proof.
  revert acc. induction l as [|y l IH]; intros acc Hacc; simpl.
  { split; [done|]. intros x. rewrite elem_of_nil. tauto. }
  assert (existsb (N.eqb y) acc = true ↔ y ∈ acc) as Hy.
  { rewrite existsb_exists. setoid_rewrite list_elem_of_In. split.
    - by intros (z&Hz&->%N.eqb_eq).
    - intros Hz. exists y. by rewrite N.eqb_refl. }
  destruct (existsb (N.eqb y) acc).
  - destruct (IH acc Hacc) as [Hn Hiff]. split; [done|]. intros x. rewrite Hiff, elem_of_cons.
    assert (y ∈ acc) by by apply Hy. naive_solver.
  - assert (y ∉ acc) as Hna by (intros Hn; by apply Hy in Hn).
    destruct (IH (acc ++ [y])) as [Hn Hiff].
    { apply NoDup_app. split_and!; [done|set_solver|apply NoDup_singleton]. }
    split; [done|]. intros x. rewrite Hiff. set_solver.
Qed.

Section participants.
Context (s : GameState) (Hw : table_wf s).

Lemma apnap_order_eq : apnap_order s = team_apnap_order_from s (active_player s).
Proof. rewrite <-(apnap_order_from_eq s _ (active_player s)). done. Qed.
Lemma apnap_order_living : apnap_order s ≡ₚ living s.
Proof. rewrite apnap_order_eq. by apply (apnap_members_partition s Hw _ Living). Qed.

Lemma participants_spec :
  NoDup (priority_pass_participants s) ∧
  ∀ x, x ∈ priority_pass_participants s
    ↔ is_alive s x ∧ priority_pass_representative s x = x.
Proof.
  pose proof apnap_order_living as Hperm. unfold priority_pass_participants.
  destruct (shared s) eqn:Hsh; simpl negb; cbv iota.
  - destruct (dedup_foldl (priority_pass_representative s <$> apnap_order s) []) as [Hn Hiff];
      [constructor|]. split; [done|]. intros x. rewrite Hiff, elem_of_nil, list_elem_of_fmap.
    setoid_rewrite Hperm. setoid_rewrite elem_of_living; [|done]. split.
    + intros [[]|(y&->&Hy)]. destruct (representative_spec s Hw y Hy) as (Hr&Ht&Hall).
      split; [done|]. by apply Hall.
    + intros [Hx Hr]. right. by exists x.
  - rewrite Hperm. split; [by apply living_nodup|]. intros x. rewrite Hperm, elem_of_living by done.
    unfold priority_pass_representative. rewrite Hsh. simpl. tauto.
Qed.

Lemma representative_participates x :
  is_alive s x → priority_pass_representative s x ∈ priority_pass_participants s.
Proof.
  intros Hx. apply participants_spec. destruct (representative_spec s Hw x Hx) as (?&?&Hall).
  split; [done|]. by apply Hall.
Qed.
End participants.

(** One pass, when those before in the round have passed: the next is asked, and after the
    last the round is over. *)
Lemma pass_one s i C h D :
  table_wf s → (i < length (priority_pass_participants s))%nat →
  rotate_left i (priority_pass_participants s) = C ++ h :: D →
  priority_passes s = list_to_set C →
  let s' := with_priority (priority_player s) (list_to_set (C ++ [h]))
              (u8_add (priority_pass_count s) 1) s in
  handle_priority_pass h s =
    match D with
    | [] => (AllPassed, clear_priority_passes s')
    | next :: _ => (PassedTo next, with_priority next (list_to_set (C ++ [h]))
                                     (u8_add (priority_pass_count s) 1) s)
    end.
Proof.
  intros Hw Hi Hrot Hpasses. cbn zeta. destruct (participants_spec s Hw) as [Hnd Hiff].
  set (P := priority_pass_participants s) in *.
  assert (C ++ h :: D ≡ₚ P) as Hperm.
  { rewrite <-Hrot. unfold rotate_left. by rewrite Permutation_app_comm, take_drop. }
  assert (NoDup (C ++ h :: D)) as Hr by by rewrite Hperm.
  assert (h ∈ P) as Hh by (rewrite <-Hperm; set_solver).
  destruct (proj1 (Hiff h) Hh) as [_ Hrep].
  assert (({[ h ]} ∪ priority_passes s : gset N) = list_to_set (C ++ [h])) as Hset.
  { rewrite Hpasses. apply set_eq. intros x. set_solver. }
  assert (size (list_to_set (C ++ [h]) : gset N) = S (length C)) as Hsize.
  { rewrite size_list_to_set; [rewrite length_app; simpl; lia|].
    apply NoDup_app in Hr as (Hc&Hdis&_). apply NoDup_app.
    split_and!; [done| |apply NoDup_singleton]. intros x Hx ->%list_elem_of_singleton.
    apply (Hdis h Hx). left. }
  assert (length P = length C + S (length D))%nat as Hlen.
  { rewrite <-Hperm, length_app. done. }
  unfold handle_priority_pass. rewrite Hrep, Hset.
  change (priority_pass_participants (with_priority _ _ _ s)) with P.
  cbn [priority_passes with_priority priority_player priority_pass_count]. rewrite Hsize, Hlen.
  destruct D as [|next D]; simpl length.
  { destruct (Nat.leb_spec (length C + 1) (S (length C))); [done|lia]. }
  destruct (Nat.leb_spec (length C + S (S (length D))) (S (length C))); [lia|].
  assert (next_priority_player (with_priority (priority_player s) (list_to_set (C ++ [h]))
            (u8_add (priority_pass_count s) 1) s) h = next) as ->; [|done].
  unfold next_priority_player.
  change (priority_pass_representative (with_priority _ _ _ s) h)
    with (priority_pass_representative s h). rewrite Hrep.
  change (priority_pass_participants (with_priority _ _ _ s)) with P.
  destruct (position (λ id, id =? h) P) as [k|] eqn:Hk.
  2: { rewrite position_None in Hk. specialize (Hk h Hh). by rewrite N.eqb_refl in Hk. }
  apply position_Some in Hk as (x&Hk&->%N.eqb_eq&_).
  assert (k < length P)%nat as Hkl by by apply lookup_lt_Some in Hk.
  pose proof (walk_eq P Normal k) as Hwalk. cbn [turn_order_index] in Hwalk. rewrite Hwalk.
  assert (k = turn_order_index i (length C) (length P) Normal) as ->.
  { eapply NoDup_lookup; [exact Hnd|exact Hk|]. rewrite <-ring_lookup by lia.
    rewrite ring_normal, Hrot by done. by rewrite list_lookup_middle. }
  rewrite ring_rotate, ring_normal, Hrot by lia. unfold rotate_left at 1 2.
  rewrite drop_app_length, take_app_length. cbn [app drop take]. rewrite ?drop_0, ?take_0.
  cbn [app]. simpl. rewrite bool_decide_eq_false_2; [done|].
  cbn [priority_passes with_priority]. rewrite elem_of_list_to_set, elem_of_app.
  apply NoDup_app in Hr as (_&Hdis&Hr). apply NoDup_cons in Hr as [Hhd _].
  intros [Hx|Hx%list_elem_of_singleton]; [apply (Hdis _ Hx); set_solver|set_solver].
Qed.

(** Those asked for priority while everybody passes, from the holder on, and whether the
    round then ended. *)
Fixpoint pass_run (n : nat) (holder : N) (s : GameState) : list N * bool :=
  match n with
  | O => ([], false)
  | S n =>
      match handle_priority_pass holder s with
      | (AllPassed, _) => ([holder], true)
      | (PassedTo next, s') => let '(asked, over) := pass_run n next s' in (holder :: asked, over)
      end
  end.

Lemma pass_run_spec s i C h D :
  table_wf s → (i < length (priority_pass_participants s))%nat →
  rotate_left i (priority_pass_participants s) = C ++ h :: D →
  priority_passes s = list_to_set C →
  pass_run (S (length D)) h s = (h :: D, true).
Proof.
  revert s C h. induction D as [|next D IH]; intros s C h Hw Hi Hrot Hp.
  - cbn [pass_run length]. by rewrite (pass_one s i C h []).
  - cbn [length]. set (n := S (length D)) in *. cbn [pass_run].
    rewrite (pass_one s i C h (next :: D)) by done. cbv zeta.
    rewrite (IH _ (C ++ [h]) next); [done| | | |done].
    + by destruct Hw.
    + done.
    + rewrite <-app_assoc. exact Hrot.
Qed.

(** What recording one pass answers. *)
Lemma pass_verdict s seat :
  table_wf s → is_alive s seat →
  (∀ x, x ∈ priority_passes s → x ∈ priority_pass_participants s) →
  let passed := {[ priority_pass_representative s seat ]} ∪ priority_passes s in
  ((handle_priority_pass seat s).1 = AllPassed
     ↔ ∀ x, is_alive s x → priority_pass_representative s x ∈ passed) ∧
  (∀ next, (handle_priority_pass seat s).1 = PassedTo next →
     is_alive s next ∧ priority_pass_representative s next = next ∧ next ∉ passed).
Proof.
  intros Hw Hseat Hsub passed. destruct (participants_spec s Hw) as [Hnd Hiff].
  pose proof (representative_participates s Hw seat Hseat) as Hr.
  set (r := priority_pass_representative s seat) in *.
  set (P := priority_pass_participants s) in *.
  assert (passed ⊆ list_to_set P) as Hps by set_solver.
  assert (size (list_to_set P : gset N) = length P) as HP by by apply size_list_to_set.
  assert (length P ≤ size passed ↔ ∀ x, is_alive s x →
    priority_pass_representative s x ∈ passed)%nat as Hall.
  { split.
    - intros Hle x Hx. assert (passed ≡ list_to_set P) as ->.
      { apply set_subseteq_size_equiv; [done|]. by rewrite HP. }
      apply elem_of_list_to_set. by apply representative_participates.
    - intros Hx. rewrite <-HP. apply subseteq_size. intros y Hy%elem_of_list_to_set.
      apply Hiff in Hy as [Hy Hyr]. rewrite <-Hyr. by apply Hx. }
  unfold handle_priority_pass. fold r.
  change (priority_pass_participants (with_priority _ _ _ s)) with P.
  cbn [priority_passes with_priority]. fold passed.
  destruct (Nat.leb_spec (length P) (size passed)) as [Hle|Hgt].
  { split; [|done]. split; [|done]. by rewrite <-Hall. }
  split; [split; [done|rewrite <-Hall; lia]|]. cbn [fst]. intros next [= Hn].
  unfold next_priority_player in Hn.
  change (priority_pass_representative (with_priority _ _ _ s) r)
    with (priority_pass_representative s r) in Hn.
  rewrite (proj2 (proj1 (Hiff r) Hr)) in Hn.
  change (priority_pass_participants (with_priority _ _ _ s)) with P in Hn.
  destruct (position (λ id, id =? r) P) as [k|] eqn:Hk.
  2: { rewrite position_None in Hk. specialize (Hk r Hr). by rewrite N.eqb_refl in Hk. }
  pose proof (position_lt _ _ _ Hk) as Hkl.
  pose proof (walk_eq P Normal k) as Hwalk. cbn [turn_order_index] in Hwalk.
  rewrite Hwalk in Hn. cbn [priority_passes with_priority] in Hn.
  assert (drop 1 (ring P Normal k) ++ take 1 (ring P Normal k) ≡ₚ P) as Hperm.
  { by rewrite Permutation_app_comm, take_drop, ring_perm. }
  destruct (find_first _ _) as [c|] eqn:Hf.
  - apply find_first_Some in Hf as [Hc Hnp]. simpl in Hn. subst c.
    rewrite Hperm in Hc. apply Hiff in Hc as [??]. split_and!; [done..|].
    by apply negb_true_iff, bool_decide_eq_false in Hnp.
  - exfalso. rewrite find_first_None in Hf. setoid_rewrite Hperm in Hf.
    assert (list_to_set P ⊆ passed) as Hsub2.
    { intros y Hy%elem_of_list_to_set. specialize (Hf y Hy).
      by apply negb_false_iff, bool_decide_eq_true in Hf. }
    apply subseteq_size in Hsub2. lia.
Qed.

(** A pass keeps every recorded pass one of a participant. *)
Lemma pass_recorded s seat :
  table_wf s → is_alive s seat →
  (∀ x, x ∈ priority_passes s → x ∈ priority_pass_participants s) →
  let s' := (handle_priority_pass seat s).2 in
  priority_pass_participants s' = priority_pass_participants s ∧
  ∀ x, x ∈ priority_passes s' → x ∈ priority_pass_participants s'.
Proof.
  intros Hw Hseat Hsub. pose proof (representative_participates s Hw seat Hseat) as Hr.
  unfold handle_priority_pass. destruct (_ <=? _)%nat; cbn [snd]; (split; [done|]); intros x.
  - unfold clear_priority_passes. cbn [priority_passes with_priority]. by intros ?%elem_of_empty.
  - cbn [priority_passes with_priority]. intros [->%elem_of_singleton|Hx]%elem_of_union; [done|by apply Hsub].
Qed.

(** C20. Priority goes round once.  From any participant, with no pass recorded, if
    everybody passes then every living player, or the representative of every side where
    sides act together, is asked exactly once, in the order in which they act, and only
    then is the round over.  In any state in which every recorded pass is of a player who
    still takes part, a pass ends the round exactly when no living player is left who has
    not passed, and otherwise priority goes to a living player who has not.  That condition
    holds with no pass recorded and every pass keeps it; a departure can end it (see
    [departed_pass_still_counts]), and nothing is claimed of a round a passed player left. *)
Theorem priority_goes_round s :
  table_wf s →
  let order := priority_pass_participants s in
  (∀ i h, order !! i = Some h → priority_passes s = ∅ →
     pass_run (length order) h s = (rotate_left i order, true)) ∧
  (∀ x, is_alive s x → priority_pass_representative s x ∈ order) ∧
  NoDup order ∧
  (∀ seat, is_alive s seat → (∀ x, x ∈ priority_passes s → x ∈ order) →
     let passed := {[ priority_pass_representative s seat ]} ∪ priority_passes s in
     ((handle_priority_pass seat s).1 = AllPassed
        ↔ ∀ x, is_alive s x → priority_pass_representative s x ∈ passed) ∧
     (∀ next, (handle_priority_pass seat s).1 = PassedTo next →
        is_alive s next ∧ priority_pass_representative s next = next ∧ next ∉ passed) ∧
     (let s' := (handle_priority_pass seat s).2 in
      priority_pass_participants s' = order ∧ ∀ x, x ∈ priority_passes s' → x ∈ order)).
Proof.
  intros Hw order. destruct (participants_spec s Hw) as [Hnd Hiff]. split_and!.
  - intros i h Hi Hp. assert (i < length order)%nat as Hlt by by apply lookup_lt_Some in Hi.
    apply take_drop_middle in Hi as Hsplit.
    assert (rotate_left i order = h :: drop (S i) order ++ take i order) as Hrot.
    { unfold rotate_left. by rewrite (drop_S _ _ _ Hi). }
    assert (length order = S (length (drop (S i) order ++ take i order))) as Hlen.
    { rewrite length_app, length_drop, length_take. lia. }
    rewrite Hlen, Hrot. by apply (pass_run_spec s i []).
  - intros x. by apply representative_participates.
  - done.
  - intros seat Hseat Hsub passed.
    destruct (pass_verdict s seat Hw Hseat Hsub) as [H1 H2].
    destruct (pass_recorded s seat Hw Hseat Hsub) as [H3 H4].
    split; [exact H1|]. split; [exact H2|]. split; [exact H3|].
    intros x Hx. unfold order. rewrite <-H3. by apply H4.
Qed.

(** ** Departures *)
Lemma leave_spec s p :
  table_wf s → is_alive s p →
  ∃ s', apply_resolved_player_leave p s = (Ok tt, s') ∧
    (∀ x, is_alive s' x = is_alive s x && negb (x =? p)) ∧
    player_id <$> players s' = player_id <$> players s ∧
    seat_order s' = seat_order s ∧ format_config s' = format_config s ∧
    turn_direction s' = turn_direction s ∧ active_player s' = active_player s ∧
    priority_player s' = priority_player s ∧ priority_passes s' = priority_passes s.
Proof.
  intros Hw Hp. unfold apply_resolved_player_leave.
  apply Is_true_eq_true, existsb_exists in Hp.
  destruct Hp as (q&Hq%list_elem_of_In&[Hqp%N.eqb_eq He%negb_true_iff]%andb_prop).
  assert (player_of s p = Some q) as Hpos by (rewrite <-Hqp; by apply player_of_elem).
  unfold player_of in Hpos. rewrite find_first_position in Hpos.
  destruct (position _ _) as [i|] eqn:Hi; [|done]. simpl in Hpos. rewrite Hpos, He.
  eexists. split; [done|]. cbn [players with_players seat_order format_config turn_direction
    active_player priority_player priority_passes].
  pose proof (take_drop_middle _ _ _ Hpos) as Hsplit.
  split_and!; try done.
  - intros x. unfold is_alive. cbn [players with_players].
    rewrite insert_take_drop by (by eapply lookup_lt_Some). rewrite <-Hsplit at 3.
    rewrite !existsb_app. simpl. rewrite He, !andb_false_r, !andb_true_r, Hqp. simpl.
    destruct (N.eqb_spec p x) as [<-|Hne].
    + rewrite N.eqb_refl, andb_false_r.
      assert (∀ j y, players s !! j = Some y → j ≠ i → (player_id y =? p) = false) as Hother.
      { intros j y Hj Hji. apply N.eqb_neq. intros Heq. apply Hji.
        eapply (NoDup_lookup (player_id <$> players s) _ _ p); [apply Hw|..];
          rewrite list_lookup_fmap, ?Hj, ?Hpos; simpl; congruence. }
      apply orb_false_iff. split; apply not_true_iff_false; rewrite existsb_exists;
        intros (y&[j Hj]%list_elem_of_In%list_elem_of_lookup&[Hy%N.eqb_eq _]%andb_prop).
      * pose proof (lookup_lt_Some _ _ _ Hj) as Hlt. rewrite length_take in Hlt.
        rewrite lookup_take_lt in Hj by lia.
        specialize (Hother j y Hj ltac:(lia)). apply N.eqb_neq in Hother. done.
      * rewrite lookup_drop in Hj. specialize (Hother _ y Hj ltac:(lia)).
        apply N.eqb_neq in Hother. done.
    + destruct (N.eqb_spec x p); [congruence|]. by rewrite andb_true_r.
  - rewrite list_fmap_insert. apply list_insert_id. by rewrite list_lookup_fmap, Hpos.
Qed.

Lemma same_table_wf s s' :
  player_id <$> players s' = player_id <$> players s →
  seat_order s' ≡ₚ seat_order s → format_config s' = format_config s →
  table_wf s → table_wf s'.
Proof.
  intros Hp Hs Hf [H1 H2 H3 H4]. split.
  - by rewrite Hp.
  - by rewrite Hs, Hp.
  - apply (f_equal length) in Hp. rewrite !length_fmap in Hp. by rewrite Hp.
  - intros k c t. rewrite Hf, Hs. apply H4.
Qed.

(** The order after a departure is the order before without the one who left. *)
Lemma order_without s p s' x :
  table_wf s → shared s = false → apply_resolved_player_leave p s = (Ok tt, s') → is_alive s p →
  team_apnap_order_from s' x = filter (λ y, y ≠ p) (team_apnap_order_from s x).
Proof.
  intros Hw Hsh Hl Hp. destruct (leave_spec s p Hw Hp) as (s2&Heq&Ha&Hids&Hs&Hf&Hd&_).
  rewrite Heq in Hl. injection Hl as <-.
  rewrite !team_order_living_from by (by rewrite ?Hf). unfold living_from, seat_index.
  rewrite Hs, Hd, list_filter_filter. apply filter_ext_in. intros y _.
  rewrite Ha, andb_True, negb_True. destruct (N.eqb_spec y p); naive_solver.
Qed.

(** A pass outlives its player.  With three players left, all having passed nothing: the
    holder passes and leaves the game, and the next player's pass then ends the round,
    so that the third, who is alive and has never been asked, gets no priority.  The set
    of passes keeps the pass of the player who left, and only its size is compared. *)
Theorem departed_pass_still_counts s a b c :
  table_wf s → shared s = false → priority_passes s = ∅ →
  apnap_order s = [a; b; c] →
  ∃ s1 s2 s3,
    handle_priority_pass a s = (PassedTo b, s1) ∧
    apply_resolved_player_leave a s1 = (Ok tt, s2) ∧
    priority_pass_participants s2 = [b; c] ∧
    handle_priority_pass b s2 = (AllPassed, s3) ∧
    is_alive s2 c ∧ c ∉ priority_passes s2.
Proof.
  intros Hw Hsh Hempty Hord.
  assert (priority_pass_participants s = [a; b; c]) as Hparts.
  { unfold priority_pass_participants. by rewrite Hsh. }
  assert (NoDup [a; b; c]) as Hnd by (rewrite <-Hparts; by apply participants_spec).
  apply NoDup_cons in Hnd as [Ha [Hb _]%NoDup_cons].
  assert (∀ x, x ∈ [a; b; c] → is_alive s x) as Hliving.
  { intros x. rewrite <-Hord, apnap_order_living, elem_of_living by done. done. }
  pose proof (pass_one s 0 [] a [b; c] Hw) as H1. rewrite Hparts in H1.
  specialize (H1 ltac:(simpl; lia) eq_refl Hempty). cbn zeta in H1. simpl app in H1.
  set (s1 := with_priority b _ _ s) in H1.
  assert (table_wf s1) as Hw1 by (by apply (same_table_wf s)).
  destruct (leave_spec s1 a Hw1 (Hliving a ltac:(set_solver)))
    as (s2&Hl&Halive&Hids&Hs&Hf&_&Hact&_&Hpasses).
  assert (table_wf s2) as Hw2 by (apply (same_table_wf s1); [done|by rewrite Hs|done|done]).
  assert (shared s2 = false) as Hsh2 by by rewrite Hf.
  assert (apnap_order s2 = [b; c]) as Hord2.
  { rewrite apnap_order_eq, Hact.
    rewrite (order_without s1 a s2 _ Hw1 Hsh Hl (Hliving a ltac:(set_solver))).
    change (team_apnap_order_from s1 (active_player s1))
      with (team_apnap_order_from s (active_player s)).
    rewrite <-apnap_order_eq, Hord, !filter_cons.
    rewrite decide_False by tauto. rewrite !decide_True by set_solver. done. }
  assert (priority_pass_participants s2 = [b; c]) as Hparts2.
  { unfold priority_pass_participants. by rewrite Hsh2. }
  destruct (handle_priority_pass b s2) as [v s3] eqn:H3. exists s1, s2, s3.
  assert (is_alive s2 c) as Hc.
  { rewrite Halive. apply andb_True. split; [apply Hliving; set_solver|].
    apply negb_True. destruct (N.eqb_spec c a) as [->|]; [set_solver|by intros []]. }
  split_and!; [exact H1|exact Hl|done| |done|].
  - pose proof H3 as Heq3. rewrite Heq3. f_equal.
    unfold handle_priority_pass, priority_pass_representative in H3. rewrite Hsh2 in H3.
    simpl negb in H3. cbv iota zeta in H3.
    change (priority_pass_participants (with_priority _ _ _ s2))
      with (priority_pass_participants s2) in H3.
    cbn [priority_passes with_priority] in H3. rewrite Hparts2, Hpasses in H3.
    assert (size ({[b]} ∪ priority_passes s1) = 2%nat) as Hsize.
    { cbn [s1 with_priority priority_passes]. rewrite size_union by set_solver.
      rewrite !size_list_to_set by (apply NoDup_singleton). rewrite size_singleton. done. }
    rewrite Hsize in H3. simpl in H3. by injection H3 as <- _.
  - rewrite Hpasses. set_solver.
Qed.

(** ** Every table of a game *)

Inductive table_step : GameState → GameState → Prop :=
  | step_first_turn p s : table_step s (begin_first_turn p s)
  | step_pass p s : table_step s (handle_priority_pass p s).2
  | step_grant s : table_step s (reset_priority s)
  | step_reverse s : table_step s (reverse_turn_order s)
  | step_leave p s : table_step s (apply_resolved_player_leave p s).2
  | step_turn p s : table_step s (with_turn (next_turn_representative s p) (turn_direction s)
                                    (seat_order s) s).

(** Every table is well formed: seats are a permutation of the players, whose numbers are
    distinct, through starts, passes, reversals, departures and turns. *)
Theorem reachable_table config starting_life n s :
  n < 256 → (∀ k c t, topology config = FixedTeams k c t → n <= 4) →
  rtc table_step (game_new config starting_life n) s → table_wf s.
Proof.
  intros Hn Hteams Hr.
  assert (table_wf (game_new config starting_life n)) as Hnew.
  { assert (∀ m, NoDup (N.of_nat <$> seq 0 m)) as Hnd
      by (intros m; apply NoDup_fmap_2; [apply _|apply NoDup_seq]).
    split; cbn [game_new players seat_order format_config]; rewrite <-?list_fmap_compose.
    - apply (NoDup_fmap_2 N.of_nat), NoDup_seq.
    - apply reflexive_eq. by apply list_fmap_ext.
    - rewrite !length_fmap, length_seq. lia.
    - intros k c t Ht. specialize (Hteams k c t Ht). apply Forall_forall.
      intros x (i&->&Hi%elem_of_seq)%list_elem_of_fmap. lia. }
  induction Hr as [s|s1 s2 s3 Hstep Hr IH] in Hnew |- *; [done|]. apply IH. clear IH Hr.
  destruct Hstep as [p s|p s|s|s|p s|p s].
  - apply (same_table_wf s); [done| |done|done]. unfold begin_first_turn. cbn.
    destruct (position _ _); [|done]. unfold rotate_left.
    by rewrite Permutation_app_comm, take_drop.
  - unfold handle_priority_pass. case_match; by apply (same_table_wf s).
  - by apply (same_table_wf s).
  - by apply (same_table_wf s).
  - unfold apply_resolved_player_leave.
    destruct (position _ _) as [i|]; [|done]. destruct (players s !! i) as [q|] eqn:Hq; [|done].
    destruct (is_eliminated q); [done|]. apply (same_table_wf s); [|done..]. cbn.
    rewrite list_fmap_insert. apply list_insert_id. by rewrite list_lookup_fmap, Hq.
  - by apply (same_table_wf s).
Qed.

(** A side that shares its life begins with the total its format prints. *)
Lemma commander_sides_start n a p config l :
  format config = ArchenemyCommander → archenemy_player config = Some a →
  2 <= n <= 6 → a < n → p < n →
  team_life_total (game_new config l n) p = 60%Z.
Proof.
  destruct config as [f mn mx tb ar]. simpl. intros -> ->. intros Hn Ha Hp.
  assert (n = 2 ∨ n = 3 ∨ n = 4 ∨ n = 5 ∨ n = 6) as Hcases by lia.
  assert (a = 0 ∨ a = 1 ∨ a = 2 ∨ a = 3 ∨ a = 4 ∨ a = 5) as Hacases by lia.
  assert (p = 0 ∨ p = 1 ∨ p = 2 ∨ p = 3 ∨ p = 4 ∨ p = 5) as Hpcases by lia.
  destruct Hcases as [->|[->|[->|[->| ->]]]],
    Hacases as [->|[->|[->|[->|[->| ->]]]]], Hpcases as [->|[->|[->|[->|[->| ->]]]]];
    try lia; reflexivity.
Qed.

(** ** Witnesses *)
Definition sample_config (f : GameFormat) (teams : bool) : FormatConfig :=
  {| format := f; min_players := 2; max_players := 6; team_based := teams;
     archenemy_player := None |}.
(** Four players, play having reversed and the second having left. *)
Definition sample_free_for_all : GameState :=
  (apply_resolved_player_leave 1
     (reverse_turn_order (begin_first_turn 2
        (game_new (sample_config FreeForAll false) 40 4)))).2.
(** Two teams of two, the second player taking the first turn. *)
Definition sample_teams : GameState :=
  begin_first_turn 1 (game_new (sample_config TwoHeadedGiant true) 30 4).

Lemma sample_free_for_all_wf : table_wf sample_free_for_all.
Proof.
  apply (reachable_table (sample_config FreeForAll false) 40%Z 4); [lia|done|].
  eapply rtc_l; [apply (step_first_turn 2)|]. eapply rtc_l; [apply step_reverse|].
  apply rtc_once, step_leave.
Qed.
Lemma sample_teams_wf : table_wf sample_teams.
Proof.
  apply (reachable_table (sample_config TwoHeadedGiant true) 30%Z 4); [lia|intros; lia|].
  apply rtc_once, step_first_turn.
Qed.

Lemma team_totals_once_witness :
  aggregate_over_teams sample_teams [1; 2; 3; 0] AggSum = 60%Z ∧
  team_life_total sample_teams 2 = team_life_total sample_teams 3 ∧
  team_life_total sample_teams 2 = 30%Z.
Proof.
  assert ([1; 2; 3; 0] ≡ₚ living sample_teams) as Hps by reflexivity.
  destruct (team_totals_once sample_teams [1; 2; 3; 0] sample_teams_wf Hps)
    as (Hsum&Hsame&Htotal&_).
  split_and!.
  - rewrite Hsum. reflexivity.
  - apply Hsame; [exact I|exact I|reflexivity].
  - rewrite Htotal; [reflexivity|exact I|reflexivity].
Defined.

Lemma apnap_groups_witness :
  apnap_choice_groups_admitting sample_teams 3 Living = [[2; 3]; [0; 1]] ∧
  concat (apnap_choice_groups_admitting sample_teams 3 Living) ≡ₚ
    filter (admits Living sample_teams) (seat_order sample_teams) ∧
  ∃ g rest, apnap_choice_groups_admitting sample_teams 3 Living = g :: rest ∧ 3 ∈ g.
Proof.
  destruct (apnap_groups sample_teams 3 Living sample_teams_wf) as (Hperm&_&_&Hfirst&_).
  split_and!; [reflexivity|exact Hperm|].
  apply Hfirst; [|exact I]. apply list_elem_of_In. vm_compute. tauto.
Defined.

Lemma turns_go_round_witness :
  Nat.iter 3 (next_turn_representative sample_free_for_all) 2 = 2 ∧
  next_turn_representative sample_free_for_all 1 = 0 ∧
  team_id sample_teams (next_turn_representative sample_teams
    (next_turn_representative sample_teams 1)) = team_id sample_teams 1.
Proof.
  assert (2 ∈ seat_order sample_free_for_all ∧ 1 ∈ seat_order sample_free_for_all ∧
    1 ∈ seat_order sample_teams) as (H2&H1&Ht)
    by (rewrite !list_elem_of_In; vm_compute; tauto).
  split_and!.
  - destruct (turns_go_round _ 2 sample_free_for_all_wf H2) as (Hround&_&_).
    destruct (Hround eq_refl I) as (_&_&Hback&_). exact Hback.
  - destruct (turns_go_round _ 1 sample_free_for_all_wf H1) as (_&Hleft&_).
    rewrite Hleft; [reflexivity|reflexivity|intros []].
  - destruct (turns_go_round _ 1 sample_teams_wf Ht) as (_&_&Hteams).
    destruct (Hteams eq_refl I) as (_&_&Hother&_). apply Hother. by exists 2.
Defined.

Lemma priority_goes_round_witness :
  pass_run 3 0 sample_free_for_all = ([0; 3; 2], true) ∧
  NoDup (priority_pass_participants sample_teams) ∧
  (handle_priority_pass 3 sample_teams).1 = PassedTo 0.
Proof.
  destruct (priority_goes_round _ sample_free_for_all_wf) as (Hrun&_).
  destruct (priority_goes_round _ sample_teams_wf) as (_&_&Hnd&_).
  split_and!; [|exact Hnd|reflexivity].
  exact (Hrun 1%nat 0 eq_refl eq_refl).
Defined.

Definition sample_three : GameState :=
  begin_first_turn 1 (game_new (sample_config Commander false) 40 3).
Lemma departed_pass_still_counts_witness :
  ∃ s1 s2 s3,
    handle_priority_pass 1 sample_three = (PassedTo 2, s1) ∧
    apply_resolved_player_leave 1 s1 = (Ok tt, s2) ∧
    handle_priority_pass 2 s2 = (AllPassed, s3) ∧ is_alive s2 0.
Proof.
  assert (table_wf sample_three) as Hw.
  { apply (reachable_table (sample_config Commander false) 40%Z 3); [lia|done|].
    apply rtc_once, step_first_turn. }
  destruct (departed_pass_still_counts sample_three 1 2 0 Hw eq_refl eq_refl eq_refl)
    as (s1&s2&s3&H1&H2&_&H3&H4&_).
  exists s1, s2, s3. exact (conj H1 (conj H2 (conj H3 H4))).
Defined.
(** Everybody always rolls the source's value for its seat. *)
Definition sample_roll (rng : N) (cs : list N) : list (N * N) * N :=
  ((λ c, (c, if c =? rng then 20 else 7)) <$> cs, rng + 1).
Lemma contest_sound_witness :
  build_contest_rounds sample_roll [0; 1; 2] 5
    = Ok (replicate 16 [(0, 7); (1, 7); (2, 7)], 0) ∧
  ∃ rounds winner last_round,
    build_contest_rounds sample_roll [0; 1; 2] 5 = Ok (rounds, winner) ∧
    last rounds = Some last_round ∧ winner ∈ tied_top last_round.
Proof.
  split; [vm_compute; reflexivity|].
  assert (∀ rng cs, fst <$> (sample_roll rng cs).1 = cs) as Hroll.
  { intros rng cs. cbn. rewrite <-list_fmap_compose. induction cs; [done|]. cbn. by f_equal. }
  destruct (contest_sound sample_roll Hroll [0; 1; 2] 5 ltac:(discriminate))
    as (rounds&winner&lr&H1&_&_&H4&_&H6&_).
  exists rounds, winner, lr. exact (conj H1 (conj H4 H6)).
Defined.
