(* ===== verification/ObjectMap.v ===== *)
(** * The store of game objects: shared between copies, written apart

    [ObjectMap] of [engine/src/types/object_map.rs].  A copy of a game shares every object
    with the original; a write copies the one object it reaches.  The allocations behind
    the [Arc]s are a heap; several maps live over it at once.

    The persistent map of the [im] library is the class [ImMap] with the laws of a map;
    [Arc::make_mut] writes in place when the strong count is one and copies otherwise, and
    of the count only that a count of one means no other owner is assumed. *)
From S2P Require Import Prelude.
Local Open Scope N_scope.

(** An allocation. *)
Record Loc := { loc_id : N }.
#[global] Instance Loc_eq_dec : EqDecision Loc.
Proof. solve_decision. Defined.
#[global] Instance Loc_countable : Countable Loc.
Proof. by apply (inj_countable' loc_id (λ n, {| loc_id := n |})); intros []. Defined.
#[global] Program Instance Loc_infinite : Infinite Loc :=
  inj_infinite (λ n : N, {| loc_id := n |}) (λ l, Some (loc_id l)) _.
Next Obligation. done. Qed.

(** ** [im::HashMap] from object ids to allocations *)
Class ImMap (M : Type) := {
  im_new : M;
  im_view : M → gmap N Loc;
  im_insert : N → Loc → M → M;
  im_remove : N → M → M;
  im_clear : M → M;
  (** the iteration order *)
  im_keys : M → list N;
  im_ptr_eq : M → M → bool;
  (** what a mutable lookup does to the path it walks *)
  im_unshare : M → M;
  (** writing the value slot of a present key *)
  im_set : N → Loc → M → M;
}.
Class ImMapLaws (M : Type) `{!ImMap M} : Prop := {
  view_new : im_view im_new = ∅;
  view_insert i l m : im_view (im_insert i l m) = <[i := l]> (im_view m);
  view_remove i m : im_view (im_remove i m) = delete i (im_view m);
  view_clear m : im_view (im_clear m) = ∅;
  view_unshare m : im_view (im_unshare m) = im_view m;
  view_set i l m : is_Some (im_view m !! i) → im_view (im_set i l m) = <[i := l]> (im_view m);
  keys_nodup m : NoDup (im_keys m);
  keys_view m i : i ∈ im_keys m ↔ is_Some (im_view m !! i);
  ptr_eq_refl m : im_ptr_eq m m = true;
  ptr_eq_view m m' : im_ptr_eq m m' = true → im_view m = im_view m';
}.

Section store.
Context {GameObject : Type} {M : Type} `{!ImMap M}.
Local Abbreviation Heap := (gmap Loc GameObject).

(** The heap and the maps over it, by the owner that holds each. *)
Record Store := { heap : gmap Loc GameObject; maps : gmap N M }.
Definition set_map (h : N) (m : M) (s : Store) : Store :=
  {| heap := heap s; maps := <[h := m]> (maps s) |}.
Definition set_heap (hp : gmap Loc GameObject) (s : Store) : Store :=
  {| heap := hp; maps := maps s |}.
Definition map_of (s : Store) (h : N) : M := default im_new (maps s !! h).

(** [Arc::new]. *)
Definition arc_new (o : GameObject) (hp : gmap Loc GameObject) : Loc * gmap Loc GameObject :=
  let l := fresh (dom hp : gset Loc) in (l, <[l := o]> hp).

(** Whether the strong count of the allocation under an id of a map is one. *)
Variable strong_count_is_one : Store → N → N → bool.

(** ** Reading *)
Definition object_len (m : M) : nat := length (im_keys m).
Definition is_empty (m : M) : bool := (object_len m =? 0)%nat.
Definition contains_key (m : M) (id : N) : bool := bool_decide (is_Some (im_view m !! id)).
Definition object_get (hp : gmap Loc GameObject) (m : M) (id : N) : option GameObject :=
  im_view m !! id ≫= λ l, hp !! l.
(** [Index]: panics when the id is absent. *)
Definition object_index (hp : gmap Loc GameObject) (m : M) (id : N) : outcome Empty_set GameObject :=
  or_panic (object_get hp m id).
Definition object_iter (hp : gmap Loc GameObject) (m : M) : list (N * GameObject) :=
  omap (λ id, (λ o, (id, o)) <$> object_get hp m id) (im_keys m).
Definition object_keys (m : M) : list N := im_keys m.
Definition object_values (hp : gmap Loc GameObject) (m : M) : list GameObject :=
  snd <$> object_iter hp m.

Definition map_ptr_eq (m m' : M) : bool := im_ptr_eq m m'.
Definition shares_object_with (m m' : M) (id : N) : bool :=
  match im_view m !! id, im_view m' !! id with
  | Some mine, Some theirs => bool_decide (mine = theirs)
  | _, _ => false
  end.
(** [other.get(id).is_none_or(|theirs| !Arc::ptr_eq(mine, theirs))]. *)
Definition rewritten_in (m m' : M) (id : N) : bool :=
  match im_view m' !! id with
  | None => true
  | Some theirs => negb (bool_decide (im_view m !! id = Some theirs))
  end.
Definition unshared_ids (m m' : M) : gset N :=
  if map_ptr_eq m m' then ∅ else
  let rewritten := filter (rewritten_in m m') (im_keys m) in
  let added := filter (λ id, negb (contains_key m id)) (im_keys m') in
  list_to_set (rewritten ++ added).

(** ** Writing *)

(** [Arc::make_mut] on the slot of [id] followed by the caller's write [f], whose value is
    returned; [None] when the id is absent. *)
Definition object_get_mut {R} (h id : N) (f : GameObject → R * GameObject) (s : Store)
    : option R * Store :=
  let m := im_unshare (map_of s h) in
  match im_view m !! id with
  | None => (None, set_map h m s)
  | Some l =>
      match heap s !! l with
      | None => (None, set_map h m s)
      | Some o =>
          let '(r, o') := f o in
          if strong_count_is_one s h id
          then (Some r, set_map h m (set_heap (<[l := o']> (heap s)) s))
          else let '(l', hp) := arc_new o' (heap s) in
               (Some r, set_map h (im_set id l' m) (set_heap hp s))
      end
  end.
(** [IndexMut]: panics when the id is absent and never inserts. *)
Definition object_index_mut {R} (h id : N) (f : GameObject → R * GameObject) (s : Store)
    : outcome Empty_set R * Store :=
  let '(r, s') := object_get_mut h id f s in (or_panic r, s').

(** The replaced object is returned: moved out of its allocation or copied. *)
Definition object_insert (h id : N) (o : GameObject) (s : Store) : option GameObject * Store :=
  let m := map_of s h in
  let '(l, hp) := arc_new o (heap s) in
  (object_get (heap s) m id, set_map h (im_insert id l m) (set_heap hp s)).
Definition object_remove (h id : N) (s : Store) : option GameObject * Store :=
  let m := map_of s h in
  (object_get (heap s) m id, set_map h (im_remove id m) s).
Definition object_clear (h : N) (s : Store) : Store := set_map h (im_clear (map_of s h)) s.
Definition object_clone (h h' : N) (s : Store) : Store := set_map h' (map_of s h) s.
Definition object_drop (h : N) (s : Store) : Store :=
  {| heap := heap s; maps := delete h (maps s) |}.
(** A new map of the entries of [ids] in ascending order, held by [h']. *)
Definition restricted_to (h : N) (ids : list N) (h' : N) (s : Store) : Store :=
  let m := map_of s h in
  set_map h' (foldl (λ acc id, match im_view m !! id with
                               | Some l => im_insert id l acc
                               | None => acc
                               end) im_new ids) s.
Definition object_from_iter (h : N) (l : list (N * GameObject)) (s : Store) : Store :=
  foldl (λ s e, (object_insert h e.1 e.2 s).2) (set_map h im_new s) l.

(** A loop over [iter_mut], [update] carrying the state it captures. *)
Definition visit {A} (h : N) (update : A → N → GameObject → A * GameObject) (acc : A * Store)
    (id : N) : A * Store :=
  let '(a, s) := acc in
  let '(r, s') := object_get_mut h id (update a id) s in
  (default a r, s').
Definition for_iter_mut {A} (h : N) (update : A → N → GameObject → A * GameObject)
    (a : A) (s : Store) : A * Store :=
  foldl (visit h update) (a, s) (im_keys (map_of s h)).
(** [needs] reads, [update] may write what it captures. *)
Definition update_where {A} (h : N) (needs : N → GameObject → bool)
    (update : A → N → GameObject → A * GameObject) (a : A) (s : Store) : A * Store :=
  let matching := fst <$> filter (λ e, needs e.1 e.2) (object_iter (heap s) (map_of s h)) in
  foldl (visit h update) (a, s) matching.

(** [migrate] on every object of a freshly read map, stopping at the first error. *)
Fixpoint migrate_all {E} (h : N) (migrate : GameObject → outcome E GameObject) (ids : list N)
    (s : Store) : outcome E unit * Store :=
  match ids with
  | [] => (Ok tt, s)
  | id :: ids =>
      match object_get_mut h id (λ o, match migrate o with
                                      | Ok o' => (Ok tt, o')
                                      | Err e => (Err e, o)
                                      | Panic => (Panic, o)
                                      end) s with
      | (None, s) | (Some (Ok _), s) => migrate_all h migrate ids s
      | (Some (Err e), s) => (Err e, s)
      | (Some Panic, s) => (Panic, s)
      end
  end.
Definition deserialize_with_migration {E} (h : N) (entries : list (N * GameObject))
    (migrate : GameObject → outcome E GameObject) (s : Store) : outcome E unit * Store :=
  let s := object_from_iter h entries s in
  match migrate_all h migrate (im_keys (map_of s h)) s with
  | (Ok _, s) => (Ok tt, s)
  | (e, s) => (e, object_drop h s)
  end.
End store.
