(* ===== verification/ObjectStore.v ===== *)
(** * Copies of a store are independent

    What the copy-on-write store of [ObjectMap] promises: each map behaves as a map of its
    own, whatever is shared underneath, and what it says about sharing is right. *)
From S2P Require Import Prelude.
From S2P Require Import ObjectMap.
Local Open Scope N_scope.

Section store.
Context {GameObject : Type} {M : Type} `{!ImMap M, !ImMapLaws M}.
Local Abbreviation Store := (@Store GameObject M).
Variable strong_count_is_one : Store → N → N → bool.

(** An allocation whose strong count is one has no other owner. *)
Hypothesis sole_owner : ∀ s h id l h' m' j,
  strong_count_is_one s h id = true → im_view (map_of s h) !! id = Some l →
  h' ≠ h → maps s !! h' = Some m' → im_view m' !! j ≠ Some l.
Local Abbreviation get_mut := (object_get_mut strong_count_is_one).
Local Abbreviation visit := (visit strong_count_is_one).

Implicit Types (s : Store) (m : M) (h id : N).

(** ** Well-formed stores *)
Local Abbreviation slot s h id := (im_view (map_of s h) !! id).
Record store_ok (s : Store) : Prop := {
  so_live : ∀ h id l, slot s h id = Some l → is_Some (heap s !! l);
  so_key : ∀ h id h' id' l, slot s h id = Some l → slot s h' id' = Some l → id = id';
}.
(** What a map holds. *)
Definition contents (s : Store) (h : N) : gmap N GameObject :=
  omap (λ l, heap s !! l) (im_view (map_of s h)).

Lemma contents_lookup s h id : contents s h !! id = object_get (heap s) (map_of s h) id.
Proof. unfold contents. by rewrite lookup_omap. Qed.
Lemma contents_Some s h id :
  store_ok s → is_Some (contents s h !! id) ↔ is_Some (slot s h id).
Proof.
  intros Hok. rewrite contents_lookup. unfold object_get. split.
  - intros [o (l&Hl&_)%bind_Some]. by exists l.
  - intros [l Hl]. rewrite Hl. by apply (so_live s Hok h id).
Qed.
Lemma map_of_set h m s h' : map_of (set_map h m s) h' = if decide (h' = h) then m else map_of s h'.
Proof.
  unfold map_of. cbn. case_decide as Hh; [by rewrite Hh, lookup_insert_eq|].
  by rewrite lookup_insert_ne by done.
Qed.
Lemma slot_owner s h id l : slot s h id = Some l → ∃ m, maps s !! h = Some m ∧ map_of s h = m.
Proof.
  unfold map_of. destruct (maps s !! h) as [m|]; [by exists m|]. simpl. by rewrite view_new.
Qed.
Lemma fresh_loc (hp : gmap Loc GameObject) : hp !! (fresh (dom hp : gset Loc)) = None.
Proof. apply not_elem_of_dom. apply is_fresh. Qed.

(** A step that only rewrites one map over a heap that grows or changes in place. *)
Lemma store_step s h m hp :
  store_ok s →
  (∀ id l, im_view m !! id = Some l → is_Some (hp !! l)) →
  (∀ id l, im_view m !! id = Some l →
     slot s h id = Some l ∨ (∃ h0, slot s h0 id = Some l) ∨ heap s !! l = None) →
  (∀ id id' l, im_view m !! id = Some l → im_view m !! id' = Some l → id = id') →
  (∀ l, is_Some (heap s !! l) → is_Some (hp !! l)) →
  store_ok (set_map h m (set_heap hp s)).
Proof.
  intros Hok Hlive Hfrom Hinj Hgrow.
  assert (∀ h0 id0 l, slot s h0 id0 = Some l → ∀ id, im_view m !! id = Some l → id = id0) as Hkey.
  { intros h0 id0 l H0 id Hid. destruct (Hfrom id l Hid) as [H1|[[h1 H1]|H1]].
    - by eapply so_key.
    - by eapply so_key.
    - apply (so_live s Hok) in H0. rewrite H1 in H0. by destruct H0. }
  split.
  - intros h' id l. rewrite map_of_set. cbn [heap set_map set_heap]. case_decide; [by apply Hlive|].
    change (map_of (set_heap hp s) h') with (map_of s h'). intros Hl. by eapply Hgrow, so_live.
  - intros h1 id1 h2 id2 l. rewrite !map_of_set.
    change (map_of (set_heap hp s)) with (map_of s).
    repeat case_decide; [by apply Hinj|intros; by eapply Hkey|intros; symmetry; by eapply Hkey|].
    by apply so_key.
Qed.
Lemma contents_other s h m hp h' :
  h' ≠ h → (∀ id l, slot s h' id = Some l → hp !! l = heap s !! l) →
  contents (set_map h m (set_heap hp s)) h' = contents s h'.
Proof.
  intros Hne Hheap. apply map_eq. intros id. rewrite !contents_lookup, map_of_set, decide_False by done.
  unfold object_get. cbn. change (map_of (set_heap hp s) h') with (map_of s h').
  destruct (slot s h' id) as [l|] eqn:Hl; [|done]. simpl. by eapply Hheap.
Qed.

(** ** Writing one object *)
Lemma get_mut_spec {R} h id (f : GameObject → R * GameObject) s :
  store_ok s →
  let '(r, s') := get_mut h id f s in
  store_ok s' ∧
  r = (λ o, (f o).1) <$> contents s h !! id ∧
  contents s' h = match contents s h !! id with
                  | Some o => <[id := (f o).2]> (contents s h)
                  | None => contents s h
                  end ∧
  (∀ h', h' ≠ h → contents s' h' = contents s h' ∧ map_of s' h' = map_of s h') ∧
  (∀ j, j ≠ id → slot s' h j = slot s h j) ∧
  (∀ h', h' ≠ h → is_Some (contents s h !! id) → slot s' h id ≠ slot s h' id).
Proof.
  intros Hok. unfold object_get_mut. rewrite view_unshare.
  destruct (slot s h id) as [l|] eqn:Hl.
  2: { assert (contents s h !! id = None) as Hn.
       { rewrite contents_lookup. unfold object_get. by rewrite Hl. }
       rewrite Hn. change (set_map h (im_unshare (map_of s h)) s)
         with (set_map h (im_unshare (map_of s h)) (set_heap (heap s) s)).
       split_and!; [|done| | | |].
       - apply store_step; [done|..| |done].
         + intros j l. rewrite view_unshare. by apply so_live.
         + intros j l. rewrite view_unshare. by left.
         + intros i j l. rewrite view_unshare. intros. by eapply so_key.
       - apply map_eq. intros j. rewrite !contents_lookup, map_of_set, decide_True by done.
         unfold object_get. by rewrite view_unshare.
       - intros h' Hne. rewrite map_of_set, decide_False by done. split; [|done].
         by apply contents_other.
       - intros j _. rewrite map_of_set, decide_True by done. by rewrite view_unshare.
       - intros h' _ []. congruence. }
  destruct (so_live s Hok h id l Hl) as [o Ho]. rewrite Ho.
  assert (contents s h !! id = Some o) as Hc.
  { rewrite contents_lookup. unfold object_get. by rewrite Hl. }
  rewrite Hc. destruct (f o) as [r o'] eqn:Hf.
  destruct (strong_count_is_one s h id) eqn:Hone.
  - assert (∀ h', h' ≠ h → ∀ j, slot s h' j ≠ Some l) as Hsole.
    { intros h' Hne j Hj. destruct (slot_owner s h' j l Hj) as (m'&Hm'&Hmap).
      rewrite Hmap in Hj. by eapply (sole_owner s h id l h' m' j). }
    split_and!; [|cbn; by rewrite Hf| | | |].
    + apply store_step; [done|..].
      * intros j k. rewrite view_unshare. intros Hk%(so_live s Hok).
        destruct (decide (k = l)) as [->|]; [by rewrite lookup_insert_eq|].
        by rewrite lookup_insert_ne.
      * intros j k. rewrite view_unshare. by left.
      * intros i j k. rewrite view_unshare. intros. by eapply so_key.
      * intros k Hk. destruct (decide (k = l)) as [->|]; [by rewrite lookup_insert_eq|].
        by rewrite lookup_insert_ne.
    + apply map_eq. intros j. rewrite contents_lookup, map_of_set, decide_True by done.
      unfold object_get. rewrite view_unshare. cbn [heap set_map set_heap].
      destruct (decide (j = id)) as [->|Hj].
      * rewrite Hl, lookup_insert_eq. simpl. by rewrite lookup_insert_eq.
      * rewrite lookup_insert_ne by done. rewrite contents_lookup. unfold object_get.
        destruct (slot s h j) as [k|] eqn:Hk; [|done]. simpl.
        rewrite lookup_insert_ne; [done|]. intros <-. apply Hj. by eapply so_key.
    + intros h' Hne. rewrite map_of_set, decide_False by done. split; [|done].
      apply contents_other; [done|]. intros j k Hk. rewrite lookup_insert_ne; [done|].
      intros <-. by apply (Hsole h' Hne j).
    + intros j _. rewrite map_of_set, decide_True by done. by rewrite view_unshare.
    + intros h' Hne _. rewrite map_of_set, decide_True by done. rewrite view_unshare, Hl.
      intros Heq. by apply (Hsole h' Hne id).
  - simpl. set (l' := fresh _). pose proof (fresh_loc (heap s)) as Hfresh. fold l' in Hfresh.
    assert (∀ h0 j k, slot s h0 j = Some k → k ≠ l') as Hnew.
    { intros h0 j k Hk ->. apply (so_live s Hok) in Hk. rewrite Hfresh in Hk. by destruct Hk. }
    assert (im_view (im_set id l' (im_unshare (map_of s h))) = <[id := l']> (im_view (map_of s h)))
      as Hview by (rewrite view_set; rewrite view_unshare; [done|by rewrite Hl]).
    split_and!; [|cbn; by rewrite Hf| | | |].
    + apply store_step; [done|..].
      * intros j k. rewrite Hview. destruct (decide (j = id)) as [->|].
        -- rewrite lookup_insert_eq. intros [= <-]. by rewrite lookup_insert_eq.
        -- rewrite lookup_insert_ne by done. intros Hk.
           rewrite lookup_insert_ne by (symmetry; by eapply Hnew). by eapply so_live.
      * intros j k. rewrite Hview. destruct (decide (j = id)) as [->|].
        -- rewrite lookup_insert_eq. intros [= <-]. by right; right.
        -- rewrite lookup_insert_ne by done. by left.
      * intros i j k. rewrite Hview, !lookup_insert. repeat case_decide; simplify_eq; try done.
        -- intros [= <-] Hk. by destruct (Hnew _ _ _ Hk).
        -- intros Hk [= <-]. by destruct (Hnew _ _ _ Hk).
        -- by apply so_key.
      * intros k Hk. rewrite lookup_insert. by case_decide.
    + apply map_eq. intros j. rewrite contents_lookup, map_of_set, decide_True by done.
      unfold object_get. rewrite Hview. cbn [heap set_map set_heap].
      destruct (decide (j = id)) as [->|Hj].
      * rewrite !lookup_insert_eq. simpl. by rewrite lookup_insert_eq.
      * rewrite !lookup_insert_ne by done. rewrite contents_lookup. unfold object_get.
        destruct (slot s h j) as [k|] eqn:Hk; [|done]. simpl.
        rewrite lookup_insert_ne; [done|]. symmetry. by eapply Hnew.
    + intros h' Hne. rewrite map_of_set, decide_False by done. split; [|done].
      apply contents_other; [done|]. intros j k Hk. rewrite lookup_insert_ne; [done|].
      symmetry. by eapply Hnew.
    + intros j Hj. rewrite map_of_set, decide_True by done.
      by rewrite Hview, lookup_insert_ne by done.
    + intros h' Hne _. rewrite map_of_set, decide_True by done. rewrite Hview, lookup_insert_eq.
      intros Heq. symmetry in Heq. by destruct (Hnew _ _ _ Heq).
Qed.

(** ** The other operations *)

(** [h] holds [c] now; the other maps are what they were. *)
Definition becomes (s s' : Store) (h : N) (c : gmap N GameObject) : Prop :=
  store_ok s' ∧ contents s' h = c ∧
  ∀ h', h' ≠ h → contents s' h' = contents s h' ∧ map_of s' h' = map_of s h'.

(** A map of allocations that are already owned under the same keys. *)
Lemma becomes_shared s h m :
  store_ok s → (∀ id l, im_view m !! id = Some l → ∃ h0, slot s h0 id = Some l) →
  becomes s (set_map h m s) h (omap (λ l, heap s !! l) (im_view m)).
Proof.
  intros Hok Hm. change (set_map h m s) with (set_map h m (set_heap (heap s) s)). split_and!.
  - apply store_step; [done|..| |done].
    + intros id l (h0&H0)%Hm. by eapply so_live.
    + intros id l ?%Hm. by right; left.
    + intros i j l (h1&H1)%Hm (h2&H2)%Hm. by eapply so_key.
  - unfold contents. by rewrite map_of_set, decide_True.
  - intros h' Hne. rewrite map_of_set, decide_False by done. split; [|done]. by apply contents_other.
Qed.

Lemma insert_spec h id o s :
  store_ok s →
  (object_insert h id o s).1 = contents s h !! id ∧
  becomes s (object_insert h id o s).2 h (<[id := o]> (contents s h)).
Proof.
  intros Hok. unfold object_insert. simpl. split; [by rewrite contents_lookup|].
  set (l' := fresh _). pose proof (fresh_loc (heap s)) as Hfresh. fold l' in Hfresh.
  assert (∀ h0 j k, slot s h0 j = Some k → k ≠ l') as Hnew.
  { intros h0 j k Hk ->. apply (so_live s Hok) in Hk. rewrite Hfresh in Hk. by destruct Hk. }
  split_and!.
  - apply store_step; [done|..].
    + intros j k. rewrite view_insert, lookup_insert. case_decide; simplify_eq.
      * intros [= <-]. by rewrite lookup_insert_eq.
      * intros Hk. rewrite lookup_insert_ne by (symmetry; by eapply Hnew). by eapply so_live.
    + intros j k. rewrite view_insert, lookup_insert. case_decide; [|by left].
      intros [= <-]. by right; right.
    + intros i j k. rewrite view_insert, !lookup_insert. repeat case_decide; simplify_eq; try done.
      * intros [= <-] Hk. by destruct (Hnew _ _ _ Hk).
      * intros Hk [= <-]. by destruct (Hnew _ _ _ Hk).
      * by apply so_key.
    + intros k Hk. rewrite lookup_insert. by case_decide.
  - apply map_eq. intros j. rewrite contents_lookup, map_of_set, decide_True by done.
    unfold object_get. rewrite view_insert. cbn [heap set_map set_heap].
    rewrite !lookup_insert. case_decide; simpl; [by rewrite lookup_insert_eq|].
    rewrite contents_lookup. unfold object_get.
    destruct (slot s h j) as [k|] eqn:Hk; [|done]. simpl.
    rewrite lookup_insert_ne; [done|]. symmetry. by eapply Hnew.
  - intros h' Hne. rewrite map_of_set, decide_False by done. split; [|done].
    apply contents_other; [done|]. intros j k Hk. rewrite lookup_insert_ne; [done|].
    symmetry. by eapply Hnew.
Qed.

Lemma remove_spec h id s :
  store_ok s →
  (object_remove h id s).1 = contents s h !! id ∧
  becomes s (object_remove h id s).2 h (delete id (contents s h)).
Proof.
  intros Hok. unfold object_remove. simpl. split; [by rewrite contents_lookup|].
  replace (delete id (contents s h))
    with (omap (λ l, heap s !! l) (im_view (im_remove id (map_of s h)))).
  - apply becomes_shared; [done|]. intros j l. rewrite view_remove, lookup_delete_Some.
    intros [_ H]. by exists h.
  - rewrite view_remove. unfold contents. by rewrite omap_delete.
Qed.
Lemma clear_spec h s : store_ok s → becomes s (object_clear h s) h ∅.
Proof.
  intros Hok. unfold object_clear.
  replace (∅ : gmap N GameObject) with (omap (λ l, heap s !! l) (im_view (im_clear (map_of s h)))).
  - apply becomes_shared; [done|]. intros j l. by rewrite view_clear.
  - by rewrite view_clear, omap_empty.
Qed.
Lemma clone_spec h h' s :
  store_ok s → becomes s (object_clone h h' s) h' (contents s h).
Proof. intros Hok. apply becomes_shared; [done|]. intros j l Hl. by exists h. Qed.
Lemma drop_spec h s : store_ok s → becomes s (object_drop h s) h ∅.
Proof.
  intros Hok. assert (∀ h', map_of (object_drop h s) h' = if decide (h' = h) then im_new else map_of s h')
    as Hmap.
  { intros h'. unfold map_of. cbn. rewrite lookup_delete. repeat case_decide; simplify_eq; done. }
  split_and!.
  - split.
    + intros h' id l. rewrite Hmap. case_decide; [by rewrite view_new|]. by apply so_live.
    + intros h1 id1 h2 id2 l. rewrite !Hmap. repeat case_decide; rewrite ?view_new; try done.
      by apply so_key.
  - unfold contents. by rewrite Hmap, decide_True, view_new, omap_empty.
  - intros h' Hne. unfold contents. by rewrite Hmap, decide_False.
Qed.
Lemma restricted_view m ids :
  ∀ acc i, im_view (foldl (λ acc id, match im_view m !! id with
                                 | Some l => im_insert id l acc
                                 | None => acc
                                 end) acc ids) !! i
    = if bool_decide (i ∈ ids) then match im_view m !! i with
                                    | Some l => Some l
                                    | None => im_view acc !! i
                                    end
      else im_view acc !! i.
Proof.
  induction ids as [|j ids IH]; intros acc i; simpl; [done|]. rewrite IH.
  destruct (decide (i = j)) as [->|Hne].
  - rewrite (bool_decide_eq_true_2 (j ∈ j :: ids)) by left.
    destruct (im_view m !! j); rewrite ?view_insert, ?lookup_insert_eq; by case_bool_decide.
  - rewrite (bool_decide_ext (i ∈ j :: ids) (i ∈ ids)) by set_solver.
    destruct (im_view m !! j); [|done]. by rewrite view_insert, lookup_insert_ne by done.
Qed.
Lemma restrict_spec h ids h' s :
  store_ok s →
  becomes s (restricted_to h ids h' s) h' (filter (λ e, e.1 ∈ ids) (contents s h)).
Proof.
  intros Hok. unfold restricted_to. set (m := foldl _ _ _).
  assert (∀ i, im_view m !! i = if bool_decide (i ∈ ids) then slot s h i else None) as Hm.
  { intros i. unfold m. rewrite restricted_view, view_new, lookup_empty.
    case_bool_decide; [by case_match|done]. }
  replace (filter _ (contents s h)) with (omap (λ l, heap s !! l) (im_view m)).
  - apply becomes_shared; [done|]. intros j l. rewrite Hm. case_bool_decide; [|done].
    by exists h.
  - apply map_eq. intros i. rewrite lookup_omap, Hm, map_lookup_filter, contents_lookup.
    unfold object_get. case_bool_decide.
    + destruct (slot s h i) as [l|]; [|done]. simpl. destruct (heap s !! l); [|done]. simpl.
      by rewrite option_guard_True.
    + destruct (slot s h i ≫= _); [|done]. simpl. by rewrite option_guard_False.
Qed.
Lemma becomes_trans s1 s2 s3 h c2 c3 :
  becomes s1 s2 h c2 → becomes s2 s3 h c3 → becomes s1 s3 h c3.
Proof.
  intros (_&_&H12) (Hok&Hc&H23). split_and!; [done..|]. intros h' Hne.
  destruct (H12 h' Hne) as [<- <-]. by apply H23.
Qed.
Lemma from_iter_spec h l s :
  store_ok s →
  becomes s (object_from_iter h l s) h (foldl (λ c e, <[e.1 := e.2]> c) ∅ l).
Proof.
  intros Hok. unfold object_from_iter.
  assert (becomes s (set_map h im_new s) h ∅) as Hnew.
  { replace (∅ : gmap N GameObject) with (omap (λ l, heap s !! l) (im_view (im_new : M)))
      by (by rewrite view_new, omap_empty).
    apply becomes_shared; [done|]. intros j k. by rewrite view_new. }
  revert Hnew. generalize (∅ : gmap N GameObject). generalize (set_map h im_new s).
  induction l as [|[id o] l IH]; intros s0 c Hb; simpl; [done|]. apply IH.
  eapply becomes_trans; [done|]. destruct Hb as (Hok0&<-&_). by apply insert_spec.
Qed.

(** ** Loops *)

(** What a visit does to a plain map. *)
Definition plain_visit {A} (update : A → N → GameObject → A * GameObject)
    (acc : A * gmap N GameObject) (id : N) : A * gmap N GameObject :=
  let '(a, c) := acc in
  match c !! id with
  | Some o => let '(a', o') := update a id o in (a', <[id := o']> c)
  | None => (a, c)
  end.
Lemma visit_spec {A} h (update : A → N → GameObject → A * GameObject) a s id :
  store_ok s →
  let '(a', s') := visit h update (a, s) id in
  becomes s s' h (plain_visit update (a, contents s h) id).2 ∧
  a' = (plain_visit update (a, contents s h) id).1 ∧
  (∀ j, j ≠ id → slot s' h j = slot s h j).
Proof.
  intros Hok. unfold ObjectMap.visit.
  pose proof (get_mut_spec h id (update a id) s Hok) as Hspec.
  destruct (get_mut h id (update a id) s) as [r s'].
  destruct Hspec as (Hok'&->&Hc&Hothers&Hslots&_). simpl.
  destruct (contents s h !! id) as [o|]; simpl; [destruct (update a id o) as [a' o']|];
    by split_and!.
Qed.
Lemma visits_spec {A} h (update : A → N → GameObject → A * GameObject) ids a s :
  store_ok s →
  let '(a', s') := foldl (visit h update) (a, s) ids in
  let '(a2, c2) := foldl (plain_visit update) (a, contents s h) ids in
  a' = a2 ∧ becomes s s' h c2 ∧ (∀ j, j ∉ ids → slot s' h j = slot s h j).
Proof.
  revert a s. induction ids as [|id ids IH]; intros a s Hok.
  { cbn. split_and!; by try done. }
  cbn [foldl]. pose proof (visit_spec h update a s id Hok) as Hv.
  destruct (visit h update (a, s) id) as [a1 s1]. destruct Hv as (Hb&Ha&Hs).
  pose proof Hb as (Hok1&Hc1&_). specialize (IH a1 s1 Hok1).
  rewrite (surjective_pairing (plain_visit update (a, contents s h) id)), <-Ha, <-Hc1.
  destruct (foldl (visit h update) (a1, s1) ids) as [a' s'].
  destruct (foldl (plain_visit update) (a1, contents s1 h) ids) as [a2 c2].
  destruct IH as (->&Hb2&Hs2). split_and!; [done| |].
  - by eapply becomes_trans.
  - intros j Hj. rewrite Hs2, Hs by set_solver. done.
Qed.

(** A loop whose updates capture nothing rewrites each object visited, in any order. *)
Lemma plain_visits_pure (upd : N → GameObject → GameObject) ids c :
  NoDup ids →
  (foldl (plain_visit (λ (_ : unit) id o, (tt, upd id o))) (tt, c) ids).2
    = map_imap (λ id o, Some (if bool_decide (id ∈ ids) then upd id o else o)) c.
Proof.
  intros Hnd. apply map_eq. intros i. rewrite map_lookup_imap. revert c.
  induction Hnd as [|id ids Hid Hnd IH]; intros c; cbn [foldl].
  { simpl. by destruct (c !! i). }
  assert (plain_visit (λ (_ : unit) id o, (tt, upd id o)) (tt, c) id
    = (tt, match c !! id with Some o => <[id := upd id o]> c | None => c end)) as ->.
  { unfold plain_visit. by destruct (c !! id). }
  rewrite IH. destruct (decide (i = id)) as [->|Hne].
  - rewrite (bool_decide_eq_false_2 (id ∈ ids)), (bool_decide_eq_true_2 (id ∈ id :: ids)) by set_solver.
    destruct (c !! id) as [o|] eqn:Ho; [by rewrite lookup_insert_eq|by rewrite Ho].
  - rewrite (bool_decide_ext (i ∈ id :: ids) (i ∈ ids)) by set_solver.
    destruct (c !! id); [by rewrite lookup_insert_ne by done|done].
Qed.

Lemma elem_of_keys s h id : store_ok s → id ∈ im_keys (map_of s h) ↔ is_Some (contents s h !! id).
Proof. intros Hok. by rewrite keys_view, contents_Some. Qed.

(** The loops of [update_where] and [iter_mut] on what the map holds. *)
Lemma elem_of_matching s h (needs : N → GameObject → bool) id :
  store_ok s →
  id ∈ fst <$> filter (λ e, needs e.1 e.2) (object_iter (heap s) (map_of s h))
    ↔ ∃ o, contents s h !! id = Some o ∧ needs id o = true.
Proof.
  intros Hok. unfold object_iter. rewrite list_elem_of_fmap. split.
  - intros ([i o]&->&[Hn Hi]%list_elem_of_filter). simpl in Hn |- *. exists o.
    apply list_elem_of_omap in Hi as (j&_&Hj). rewrite <-contents_lookup in Hj.
    destruct (contents s h !! j) as [o'|] eqn:Ho; simplify_eq/=. split; [done|].
    by apply Is_true_true.
  - intros (o&Ho&Hn). exists (id, o). split; [done|]. apply list_elem_of_filter.
    split; [by apply Is_true_true|]. apply list_elem_of_omap. exists id.
    rewrite <-contents_lookup, Ho. split; [|done]. apply elem_of_keys; [done|]. by exists o.
Qed.
Definition wanted (c : gmap N GameObject) (needs : N → GameObject → bool) (id : N) : bool :=
  match c !! id with Some o => needs id o | None => false end.
Lemma matching_eq s h (needs : N → GameObject → bool) :
  store_ok s →
  fst <$> filter (λ e, needs e.1 e.2) (object_iter (heap s) (map_of s h))
    = filter (wanted (contents s h) needs) (im_keys (map_of s h)).
Proof.
  intros _. unfold object_iter. induction (im_keys (map_of s h)) as [|id ids IH]; [done|].
  assert (wanted (contents s h) needs id = match object_get (heap s) (map_of s h) id with
    | Some o => needs id o | None => false end) as Hw
    by (unfold wanted; by rewrite contents_lookup).
  cbn [omap list_omap]. rewrite (filter_cons _ id ids).
  destruct (object_get (heap s) (map_of s h) id) as [o|] eqn:Ho; simpl.
  - rewrite filter_cons. simpl. rewrite Hw. case_decide; [|done]. rewrite fmap_cons. simpl.
    by f_equal.
  - rewrite Hw. done.
Qed.

(** ** Many maps, any history *)
Inductive StoreOp :=
  | OpWrite (h id : N) (f : GameObject → GameObject)
  | OpInsert (h id : N) (o : GameObject)
  | OpRemove (h id : N)
  | OpClear (h : N)
  | OpClone (h h' : N)
  | OpDrop (h : N)
  | OpRestrict (h : N) (ids : list N) (h' : N)
  | OpFromIter (h : N) (l : list (N * GameObject))
  | OpIterMut (h : N) (upd : N → GameObject → GameObject)
  | OpUpdateWhere (h : N) (needs : N → GameObject → bool) (upd : N → GameObject → GameObject).
Local Abbreviation pure_update upd := (λ (_ : unit) id o, (tt, upd id o)).

(** What the operation returns and the store after it; a write returns what it replaced. *)
Definition run_op (op : StoreOp) (s : Store) : option GameObject * Store :=
  match op with
  | OpWrite h id f => get_mut h id (λ o, (o, f o)) s
  | OpInsert h id o => object_insert h id o s
  | OpRemove h id => object_remove h id s
  | OpClear h => (None, object_clear h s)
  | OpClone h h' => (None, object_clone h h' s)
  | OpDrop h => (None, object_drop h s)
  | OpRestrict h ids h' => (None, restricted_to h ids h' s)
  | OpFromIter h l => (None, object_from_iter h l s)
  | OpIterMut h upd => (None, (for_iter_mut strong_count_is_one h (pure_update upd) tt s).2)
  | OpUpdateWhere h needs upd =>
      (None, (update_where strong_count_is_one h needs (pure_update upd) tt s).2)
  end.

(** The same on maps that share nothing. *)
Local Abbreviation Plain := (N → gmap N GameObject).
Definition put (h : N) (c : gmap N GameObject) (p : Plain) : Plain :=
  λ h', if decide (h' = h) then c else p h'.
Definition spec_op (op : StoreOp) (p : Plain) : option GameObject * Plain :=
  match op with
  | OpWrite h id f => (p h !! id, put h (alter f id (p h)) p)
  | OpInsert h id o => (p h !! id, put h (<[id := o]> (p h)) p)
  | OpRemove h id => (p h !! id, put h (delete id (p h)) p)
  | OpClear h => (None, put h ∅ p)
  | OpClone h h' => (None, put h' (p h) p)
  | OpDrop h => (None, put h ∅ p)
  | OpRestrict h ids h' => (None, put h' (filter (λ e, e.1 ∈ ids) (p h)) p)
  | OpFromIter h l => (None, put h (foldl (λ c e, <[e.1 := e.2]> c) ∅ l) p)
  | OpIterMut h upd => (None, put h (map_imap (λ id o, Some (upd id o)) (p h)) p)
  | OpUpdateWhere h needs upd =>
      (None, put h (map_imap (λ id o, Some (if needs id o then upd id o else o)) (p h)) p)
  end.
Fixpoint run_all {S} (step : StoreOp → S → option GameObject * S) (ops : list StoreOp) (s : S)
    : list (option GameObject) * S :=
  match ops with
  | [] => ([], s)
  | op :: ops => let '(r, s) := step op s in
                 let '(rs, s) := run_all step ops s in (r :: rs, s)
  end.

Lemma becomes_put s s' h c :
  becomes s s' h c → ∀ h', contents s' h' = put h c (contents s) h'.
Proof. intros (_&Hc&Ho) h'. unfold put. case_decide; [by subst|]. by apply Ho. Qed.

Lemma run_op_spec op s :
  store_ok s →
  (run_op op s).1 = (spec_op op (contents s)).1 ∧ store_ok (run_op op s).2 ∧
  ∀ h, contents (run_op op s).2 h = (spec_op op (contents s)).2 h.
Proof.
  intros Hok.
  assert (∀ h c s' (r r' : option GameObject) p', r = r' → becomes s s' h c → p' = put h c (contents s) →
    r = r' ∧ store_ok s' ∧ ∀ h', contents s' h' = p' h') as Hput.
  { intros h c s' r r' p' Hr Hb ->. split_and!; [done|apply Hb|]. by apply becomes_put. }
  assert (∀ h upd ids, NoDup ids →
    becomes s (foldl (visit h (pure_update upd)) (tt, s) ids).2 h
      (map_imap (λ id o, Some (if bool_decide (id ∈ ids) then upd id o else o)) (contents s h)))
    as Hloop.
  { intros h upd ids Hnd. rewrite <-plain_visits_pure by done.
    pose proof (visits_spec h (pure_update upd) ids tt s Hok) as Hv.
    destruct (foldl (visit h _) _ ids) as [a' s'], (foldl (plain_visit _) _ ids) as [a2 c2].
    by destruct Hv as (_&Hb&_). }
  destruct op; cbn [run_op spec_op fst snd].
  - pose proof (get_mut_spec h id (λ o, (o, f o)) s Hok) as Hspec.
    destruct (get_mut h id _ s) as [r s']. destruct Hspec as (Hok'&->&Hc&Ho&_).
    apply (Hput h (alter f id (contents s h))); [by destruct (contents s h !! id)| |done].
    refine (conj Hok' (conj _ Ho)). cbn [snd]. rewrite Hc. apply map_eq. intros j. destruct (decide (j = id)) as [->|Hj].
    + rewrite lookup_alter_eq. destruct (contents s h !! id) as [o|] eqn:Hcid; simpl;
        [by rewrite lookup_insert_eq|done].
    + rewrite lookup_alter_ne by done.
      destruct (contents s h !! id); [by rewrite lookup_insert_ne by done|done].
  - destruct (insert_spec h id o s Hok). by eapply Hput.
  - destruct (remove_spec h id s Hok). by eapply Hput.
  - by eapply Hput; [|apply clear_spec|].
  - by eapply Hput; [|apply clone_spec|].
  - by eapply Hput; [|apply drop_spec|].
  - by eapply Hput; [|apply restrict_spec|].
  - by eapply Hput; [|apply from_iter_spec|].
  - eapply Hput; [done|apply Hloop, keys_nodup|]. f_equal. apply map_eq. intros i.
    rewrite !map_lookup_imap. destruct (contents s h !! i) as [o|] eqn:Ho; [|done]. simpl.
    rewrite bool_decide_eq_true_2; [done|]. apply elem_of_keys; [done|]. by exists o.
  - unfold update_where. eapply Hput; [done|apply Hloop|].
    + rewrite matching_eq by done. apply NoDup_filter, keys_nodup.
    + f_equal. apply map_eq. intros i. rewrite !map_lookup_imap.
      destruct (contents s h !! i) as [o|] eqn:Ho; [|done]. simpl. f_equal.
      pose proof (elem_of_matching s h needs i Hok) as Hm. rewrite Ho in Hm.
      destruct (needs i o) eqn:Hn.
      * rewrite bool_decide_eq_true_2; [done|]. apply Hm. by exists o.
      * rewrite bool_decide_eq_false_2; [done|]. intros (?&[= <-]&?)%Hm. congruence.
Qed.

Lemma spec_op_ext op p p' :
  (∀ h, p h = p' h) →
  (spec_op op p).1 = (spec_op op p').1 ∧ ∀ h, (spec_op op p).2 h = (spec_op op p').2 h.
Proof.
  intros Hp. destruct op; cbn; rewrite ?Hp; split; try done; intros h0; unfold put;
    case_decide; by rewrite ?Hp.
Qed.

(** C33. Sharing is invisible.  Over any history of writes, insertions, removals, copies,
    restrictions, loops and drops, on any number of maps that share their objects in any
    way, every operation returns and every map holds exactly what it would if no two maps
    shared anything: what one map writes, no other sees. *)
Theorem sharing_is_invisible ops s :
  store_ok s →
  (run_all run_op ops s).1 = (run_all spec_op ops (contents s)).1 ∧
  store_ok (run_all run_op ops s).2 ∧
  ∀ h, contents (run_all run_op ops s).2 h = (run_all spec_op ops (contents s)).2 h.
Proof.
  assert (∀ s p, store_ok s → (∀ h, contents s h = p h) →
    (run_all run_op ops s).1 = (run_all spec_op ops p).1 ∧
    store_ok (run_all run_op ops s).2 ∧
    ∀ h, contents (run_all run_op ops s).2 h = (run_all spec_op ops p).2 h) as Hall.
  { clear s. induction ops as [|op ops IH]; intros s p Hok Hp; [done|]. cbn [run_all].
    destruct (run_op_spec op s Hok) as (Hr&Hok'&Hc).
    destruct (spec_op_ext op (contents s) p Hp) as [Hr2 Hc2].
    destruct (run_op op s) as [r s'], (spec_op op p) as [r2 p2]. cbn [fst snd] in *.
    destruct (IH s' p2 Hok') as (Hrs&Hok2&Hcs); [intros h; by rewrite Hc|].
    destruct (run_all run_op ops s') as [rs s2], (run_all spec_op ops p2) as [rs2 p3].
    cbn [fst snd] in *. split_and!; [congruence|done|done]. }
  intros Hok. by apply Hall.
Qed.

(** ** What sharing says *)
Lemma elem_of_unshared m m' id :
  id ∈ unshared_ids m m' ↔ im_view m !! id ≠ im_view m' !! id.
Proof.
  unfold unshared_ids, map_ptr_eq. destruct (im_ptr_eq m m') eqn:Hp.
  { apply ptr_eq_view in Hp. rewrite Hp. set_solver. }
  rewrite elem_of_list_to_set, elem_of_app, !list_elem_of_filter, !keys_view.
  unfold rewritten_in, contains_key.
  destruct (im_view m !! id) as [l|] eqn:Hl, (im_view m' !! id) as [l'|] eqn:Hl';
    repeat case_bool_decide; simplify_eq; simpl; split; try (by eauto); try tauto;
    try (intros _; left; by eauto); try (intros _; right; by eauto);
    try (intros [[[] _]|[[] _]]); intros [[_ [? [=]]]|[_ [? [=]]]].
Qed.

(** Writes to one map. *)
Inductive Write :=
  | WriteAt (id : N) (f : GameObject → GameObject)
  | WriteInsert (id : N) (o : GameObject)
  | WriteRemove (id : N).
Definition written (w : Write) : N :=
  match w with WriteAt id _ | WriteInsert id _ | WriteRemove id => id end.
Definition write_op (h : N) (w : Write) : StoreOp :=
  match w with
  | WriteAt id f => OpWrite h id f
  | WriteInsert id o => OpInsert h id o
  | WriteRemove id => OpRemove h id
  end.

Lemma write_slots h h' w s :
  store_ok s → h' ≠ h →
  let s' := (run_op (write_op h w) s).2 in
  store_ok s' ∧ (∀ id, slot s' h' id = slot s h' id) ∧
  (∀ id, id ≠ written w → slot s' h id = slot s h id) ∧
  (∀ id, is_Some (slot s h' id) → slot s h id ≠ slot s h' id → slot s' h id ≠ slot s h' id) ∧
  (is_Some (slot s h' (written w)) → slot s' h (written w) ≠ slot s h' (written w)).
Proof.
  intros Hok Hne. assert (∀ s1 s2 : Store, (∀ h0, h0 ≠ h → map_of s2 h0 = map_of s1 h0) →
    ∀ id, slot s2 h' id = slot s1 h' id) as Hmap by (intros s1 s2 Ho id; by rewrite Ho).
  assert (∀ s', (∀ id, id ≠ written w → slot s' h id = slot s h id) →
    (is_Some (slot s h' (written w)) → slot s' h (written w) ≠ slot s h' (written w)) →
    ∀ id, is_Some (slot s h' id) → slot s h id ≠ slot s h' id → slot s' h id ≠ slot s h' id) as Hkeep.
  { intros s' Hs Hw id Hid Hd. destruct (decide (id = written w)) as [->|]; [by apply Hw|].
    by rewrite Hs. }
  destruct w as [id f|id o|id]; cbn [write_op run_op written] in *.
  - pose proof (get_mut_spec h id (λ o, (o, f o)) s Hok) as Hspec.
    destruct (get_mut h id _ s) as [r s']. destruct Hspec as (Hok'&_&Hc&Ho&Hs&Hd). cbn [snd].
    assert (is_Some (slot s h' id) → slot s' h id ≠ slot s h' id) as Hw.
    { intros Hsome. destruct (decide (is_Some (slot s h id))) as [Hi|Hi].
      - apply Hd; [done|]. by apply contents_Some.
      - intros Heq. rewrite <-Heq, <-contents_Some in Hsome by done. apply Hi.
        rewrite <-contents_Some by done. rewrite Hc in Hsome.
        destruct (contents s h !! id) eqn:E; [by eexists|]. rewrite E in Hsome. by destruct Hsome. }
    split_and!; [done| |done|by apply Hkeep|done].
    intros j. apply (Hmap s s'). intros h0 Hh0. by apply Ho.
  - destruct (insert_spec h id o s Hok) as [_ Hb]. destruct Hb as (Hok'&Hc&Ho).
    set (s' := (object_insert h id o s).2) in *.
    assert (∀ j, slot s' h j = if decide (j = id) then Some (fresh (dom (heap s) : gset Loc))
      else slot s h j) as Hslots.
    { intros j. unfold s', object_insert. cbn [snd arc_new]. rewrite map_of_set, decide_True by done.
      rewrite view_insert, lookup_insert. repeat case_decide; simplify_eq; done. }
    assert (is_Some (slot s h' id) → slot s' h id ≠ slot s h' id) as Hw.
    { intros _ Heq. rewrite Hslots, decide_True in Heq by done. symmetry in Heq.
      apply (so_live s Hok) in Heq. rewrite fresh_loc in Heq. by destruct Heq. }
    assert (∀ j, j ≠ id → slot s' h j = slot s h j) as Hs
      by (intros j Hj; by rewrite Hslots, decide_False).
    split_and!; [done| |done|by apply Hkeep|done].
    intros j. apply (Hmap s s'). intros h0 Hh0. by apply Ho.
  - destruct (remove_spec h id s Hok) as [_ Hb]. destruct Hb as (Hok'&Hc&Ho).
    set (s' := (object_remove h id s).2) in *.
    assert (∀ j, slot s' h j = if decide (j = id) then None else slot s h j) as Hslots.
    { intros j. unfold s', object_remove. cbn [snd]. rewrite map_of_set, decide_True by done.
      rewrite view_remove, lookup_delete. repeat case_decide; simplify_eq; done. }
    assert (is_Some (slot s h' id) → slot s' h id ≠ slot s h' id) as Hw.
    { intros [l Hl]. by rewrite Hslots, decide_True, Hl by done. }
    assert (∀ j, j ≠ id → slot s' h j = slot s h j) as Hs
      by (intros j Hj; by rewrite Hslots, decide_False).
    split_and!; [done| |done|by apply Hkeep|done].
    intros j. apply (Hmap s s'). intros h0 Hh0. by apply Ho.
Qed.

(** Writes to one map replace the objects they name in it and leave every other map alone. *)
Lemma writes_slots h h' ws s1 :
  store_ok s1 → h' ≠ h →
  let s2 := (run_all run_op (write_op h <$> ws) s1).2 in
  store_ok s2 ∧ (∀ id, slot s2 h' id = slot s1 h' id) ∧
  (∀ id, id ∉ written <$> ws → slot s2 h id = slot s1 h id) ∧
  (∀ id, is_Some (slot s1 h' id) → (slot s1 h id ≠ slot s1 h' id ∨ id ∈ written <$> ws) →
     slot s2 h id ≠ slot s1 h' id) ∧
  ∀ h0, h0 ≠ h → contents s2 h0 = contents s1 h0.
Proof.
  intros Hok1 Hne. revert s1 Hok1. induction ws as [|w ws IH]; intros s1 Hok1.
  { cbn. split_and!; try done. intros id _ [?|?%elem_of_nil]; done. }
  rewrite fmap_cons. cbn [run_all].
  pose proof (write_slots h h' w s1 Hok1 Hne) as (Hok2&H1&H2&H3&H4).
  destruct (run_op_spec (write_op h w) s1 Hok1) as (_&_&Hcw).
  destruct (run_op (write_op h w) s1) as [r s2]. cbn [snd] in *.
  destruct (IH s2 Hok2) as (Hok3&G1&G2&G3&G4).
  destruct (run_all run_op (write_op h <$> ws) s2) as [rs s3]. cbn [snd] in *.
  split_and!; [done| | | |].
  - intros id. by rewrite G1.
  - intros id. rewrite fmap_cons, not_elem_of_cons. intros [Hx Hn]. by rewrite G2, H2.
  - intros id Hid Hor. rewrite <-H1. apply G3; [by rewrite H1|]. rewrite H1.
    rewrite fmap_cons, elem_of_cons in Hor. destruct Hor as [Hd|[->|Hw]]; [left; by apply H3| |by right].
    left. by apply H4.
  - intros h0 Hh0. rewrite G4 by done. rewrite Hcw. destruct w; cbn; unfold put; by rewrite decide_False.
Qed.

(** C34. The difference of two copies is what was written.  Copy a map and then write,
    insert and remove in the original, any number of times: the copy holds what it held;
    the ids reported as unshared are all among those written, and contain every id the
    copy holds that was; on every other id the two agree. *)
Theorem copies_differ_where_written h h' ws s :
  store_ok s → h' ≠ h →
  let s1 := object_clone h h' s in
  let s2 := (run_all run_op (write_op h <$> ws) s1).2 in
  contents s2 h' = contents s h ∧
  (∀ id, id ∈ unshared_ids (map_of s2 h) (map_of s2 h') → id ∈ written <$> ws) ∧
  (∀ id, id ∈ written <$> ws → is_Some (contents s h !! id) →
     id ∈ unshared_ids (map_of s2 h) (map_of s2 h')) ∧
  (∀ id, id ∉ unshared_ids (map_of s2 h) (map_of s2 h') →
     contents s2 h !! id = contents s2 h' !! id ∧
     shares_object_with (map_of s2 h) (map_of s2 h') id = contains_key (map_of s2 h) id).
Proof.
  intros Hok Hne. cbn zeta. destruct (clone_spec h h' s Hok) as (Hok1&Hc1&_).
  set (s1 := object_clone h h' s) in *.
  assert (∀ id, slot s1 h id = slot s1 h' id) as Hsame.
  { intros id. unfold s1, object_clone. rewrite !map_of_set, decide_False by done.
    by rewrite decide_True. }
  set (s2 := (run_all run_op (write_op h <$> ws) s1).2).
  destruct (writes_slots h h' ws s1 Hok1 Hne) as (Hok2&Hcopy&Hrest&Hdiff&Hothers). fold s2 in Hok2, Hcopy, Hrest, Hdiff, Hothers.
  split_and!.
  - by rewrite Hothers.
  - intros id Hid. rewrite elem_of_unshared, Hcopy in Hid.
    destruct (decide (id ∈ written <$> ws)) as [|Hn]; [done|]. rewrite Hrest in Hid by done.
    by destruct Hid.
  - intros id Hid Hsome. rewrite elem_of_unshared, Hcopy. apply Hdiff; [|by right].
    rewrite <-Hc1 in Hsome. by apply contents_Some.
  - intros id Hid. assert (slot s2 h id = slot s2 h' id) as Heq.
    { rewrite elem_of_unshared in Hid. destruct (decide (slot s2 h id = slot s2 h' id)); [done|].
      by destruct Hid. }
    split.
    + rewrite !contents_lookup. unfold object_get. by rewrite Heq.
    + unfold shares_object_with, contains_key. rewrite Heq. destruct (slot s2 h' id); [|done].
      by rewrite !bool_decide_eq_true_2.
Qed.

Lemma plain_visits_contract {A} (needs : N → GameObject → bool)
    (update : A → N → GameObject → A * GameObject) ids a (c0 c : gmap N GameObject) :
  (∀ a id o, needs id o = false → update a id o = (a, o)) →
  NoDup ids → (∀ id, id ∈ ids → c !! id = c0 !! id) →
  foldl (plain_visit update) (a, c) ids
    = foldl (plain_visit update) (a, c) (filter (wanted c0 needs) ids).
Proof.
  intros Hneeds Hnd. revert a c. induction Hnd as [|id ids Hid Hnd IH]; intros a c Hc; [done|].
  rewrite filter_cons. cbn [foldl].
  assert (∀ a' c', (∀ j, j ≠ id → c' !! j = c !! j) →
    foldl (plain_visit update) (a', c') ids
      = foldl (plain_visit update) (a', c') (filter (wanted c0 needs) ids)) as Hrec.
  { intros a' c' Hc'. apply IH. intros j Hj. rewrite Hc' by set_solver. apply Hc. by right. }
  pose proof (Hc id ltac:(left)) as Hcid.
  destruct (plain_visit update (a, c) id) as [a' c'] eqn:Hvisit.
  pose proof Hvisit as Hv. unfold plain_visit in Hv.
  assert (∀ j, j ≠ id → c' !! j = c !! j) as Hc'.
  { intros j Hj. destruct (c !! id); [|by simplify_eq]. destruct (update a id g).
    simplify_eq. by rewrite lookup_insert_ne. }
  case_decide as Hw.
  - cbn [foldl]. rewrite Hvisit. by apply Hrec.
  - unfold wanted in Hw. rewrite <-Hcid in Hw. destruct (c !! id) as [o|] eqn:Ho.
    + assert (needs id o = false) as Hn by (by destruct (needs id o)).
      rewrite (Hneeds a id o Hn) in Hv. simplify_eq. rewrite insert_id by done.
      by apply Hrec.
    + simplify_eq. by apply Hrec.
Qed.

(** A guarded sweep equals the full sweep and shares what it skips.  When an object
    that is not needed would be left alone, together with what the sweep captures,
    visiting only the needed ones ends with the same captured state and the same objects
    as visiting all, in every map; every object not needed stays the one allocation it
    was; and when none is needed the store is not touched at all. *)
Theorem update_where_contract {A} h (needs : N → GameObject → bool)
    (update : A → N → GameObject → A * GameObject) a s :
  store_ok s →
  (∀ a id o, needs id o = false → update a id o = (a, o)) →
  let swept := update_where strong_count_is_one h needs update a s in
  let all := for_iter_mut strong_count_is_one h update a s in
  swept.1 = all.1 ∧
  (∀ h', contents swept.2 h' = contents all.2 h') ∧
  (∀ id, (∀ o, contents s h !! id = Some o → needs id o = false) →
     slot swept.2 h id = slot s h id) ∧
  ((∀ id o, contents s h !! id = Some o → needs id o = false) → swept = (a, s)).
Proof.
  intros Hok Hneeds. cbn zeta. unfold update_where, for_iter_mut.
  rewrite matching_eq by done. set (keys := im_keys (map_of s h)).
  pose proof (visits_spec h update keys a s Hok) as Hall.
  pose proof (visits_spec h update (filter (wanted (contents s h) needs) keys) a s Hok) as Hsome.
  rewrite <-(plain_visits_contract needs update keys a (contents s h) (contents s h)) in Hsome
    by (done || apply keys_nodup).
  destruct (foldl (visit h update) (a, s) keys) as [a1 s1].
  destruct (foldl (visit h update) (a, s) (filter _ keys)) as [a2 s2] eqn:Hswept.
  destruct (foldl (plain_visit update) (a, contents s h) keys) as [a3 c3].
  destruct Hall as (->&(_&Hc1&Ho1)&_), Hsome as (->&(_&Hc2&Ho2)&Hs2). cbn [fst snd].
  split_and!; [done| | |].
  - intros h'. destruct (decide (h' = h)) as [->|Hne]; [by rewrite Hc1, Hc2|].
    destruct (Ho1 h' Hne) as [-> _], (Ho2 h' Hne) as [-> _]. done.
  - intros id Hid. apply Hs2. rewrite list_elem_of_filter. unfold wanted.
    intros [Hw _]. destruct (contents s h !! id) as [o|]; [|done]. by rewrite (Hid o eq_refl) in Hw.
  - intros Hnone. rewrite filter_none in Hswept; [by simplify_eq/=|].
    apply Forall_forall. intros id _ Hw. unfold wanted in Hw.
    destruct (contents s h !! id) as [o|] eqn:Ho; [|done]. by rewrite (Hnone id o Ho) in Hw.
Qed.
End store.

(** ** Witnesses *)
Module StoreSample.
#[local] Instance im_gmap : ImMap (gmap N Loc) := {
  im_new := ∅; im_view m := m; im_insert i l m := <[i := l]> m; im_remove i m := delete i m;
  im_clear _ := ∅; im_keys m := elements (dom m : gset N);
  im_ptr_eq m m' := bool_decide (m = m'); im_unshare m := m; im_set i l m := <[i := l]> m }.
#[local] Instance im_gmap_laws : ImMapLaws (gmap N Loc).
Proof.
  split; try done.
  - intros m. change (NoDup (elements (dom m : gset N))). apply NoDup_elements.
  - intros m i. change (i ∈ elements (dom m : gset N) ↔ is_Some (m !! i)).
    by rewrite elem_of_elements, elem_of_dom.
  - intros m. by apply bool_decide_eq_true_2.
  - intros m m'. by intros ?%bool_decide_eq_true.
Qed.
Definition alone (s : @Store N (gmap N Loc)) (h id : N) : bool :=
  bool_decide (map_Forall (λ h' m', h' = h ∨
    map_Forall (λ _ l, Some l ≠ im_view (map_of s h) !! id) m') (maps s)).
Lemma alone_sole_owner s h id l h' m' j :
  alone s h id = true → im_view (map_of s h) !! id = Some l →
  h' ≠ h → maps s !! h' = Some m' → im_view m' !! j ≠ Some l.
Proof.
  intros Ha%bool_decide_eq_true Hl Hne Hm Hj.
  destruct (Ha h' m' Hm) as [|Hall]; [done|]. by apply (Hall j l Hj).
Qed.
Definition empty_store : @Store N (gmap N Loc) := {| heap := ∅; maps := ∅ |}.
Lemma empty_store_ok : store_ok empty_store.
Proof.
  assert (∀ h id, im_view (map_of empty_store h) !! id = None) as Hnone by done.
  split; intros h id; intros; by rewrite Hnone in *.
Qed.
Definition two_objects : @Store N (gmap N Loc) :=
  object_from_iter 0 [(1, 10); (2, 20)] empty_store.
Lemma two_objects_ok : store_ok two_objects.
Proof. by apply (from_iter_spec 0 [(1, 10); (2, 20)] empty_store empty_store_ok). Qed.
End StoreSample.
#[local] Existing Instances StoreSample.im_gmap StoreSample.im_gmap_laws.
Local Abbreviation sample_run := (run_all (run_op StoreSample.alone)).

Lemma sharing_is_invisible_witness :
  let s := (sample_run [OpClone 0 1; OpWrite 0 1 (λ o, o + 5); OpRemove 1 2] StoreSample.two_objects).2 in
  contents s 0 !! 1 = Some 15 ∧ contents s 1 !! 1 = Some 10 ∧ contents s 0 !! 2 = Some 20.
Proof.
  destruct (sharing_is_invisible StoreSample.alone StoreSample.alone_sole_owner
    [OpClone 0 1; OpWrite 0 1 (λ o, o + 5); OpRemove 1 2] StoreSample.two_objects
    StoreSample.two_objects_ok) as (_&_&Hc).
  cbn zeta. rewrite !Hc. vm_compute. done.
Defined.
Lemma copies_differ_where_written_witness :
  let s1 := object_clone 0 1 StoreSample.two_objects in
  let s2 := (sample_run (write_op 0 <$> [WriteAt 1 (λ o, o)]) s1).2 in
  1 ∈ unshared_ids (map_of s2 0) (map_of s2 1) ∧ contents s2 1 !! 1 = Some 10.
Proof.
  destruct (copies_differ_where_written StoreSample.alone StoreSample.alone_sole_owner 0 1
    [WriteAt 1 (λ o, o)] StoreSample.two_objects StoreSample.two_objects_ok ltac:(done))
    as (Hc&_&Hin&_).
  cbn zeta. split.
  - apply Hin; [by left|]. exists 10. reflexivity.
  - rewrite Hc. reflexivity.
Defined.
Lemma update_where_contract_witness :
  let update := λ (a id o : N), if 15 <=? o then (a + 1, 0) else (a, o) in
  let s := object_clone 0 1 StoreSample.two_objects in
  (update_where StoreSample.alone 0 (λ _ o, 15 <=? o) update 7 s).1
    = (for_iter_mut StoreSample.alone 0 update 7 s).1 ∧
  (update_where StoreSample.alone 0 (λ _ o, 15 <=? o) update 7 s).1 = 8.
Proof.
  cbn zeta. assert (store_ok (object_clone 0 1 StoreSample.two_objects)) as Hok.
  { by apply (clone_spec 0 1 StoreSample.two_objects StoreSample.two_objects_ok). }
  destruct (update_where_contract StoreSample.alone StoreSample.alone_sole_owner 0
    (λ _ o, 15 <=? o) (λ a id o, if 15 <=? o then (a + 1, 0) else (a, o)) 7
    (object_clone 0 1 StoreSample.two_objects) Hok) as (Heq&_).
  - intros a id o Ho. by rewrite Ho.
  - split; [exact Heq|]. vm_compute. reflexivity.
Defined.
