(* ===== verification/Takeback.v ===== *)
(** * Taking back: voted rollback of a game

    [TakebackLedger] of [engine/src/game/takeback.rs]: the snapshots a table may return to,
    the open vote, its voters and its resolution.  [GameState] has the fields of the record
    of that name that the ledger reads, and the rest of the game, carried unread.  A method
    that takes [&mut self] or [&mut GameState] returns it.

    [rekey_after_trusted_restore] withdraws or re-issues the pre-cast shortcut offer of a
    restored state: of the fields here it writes the prompt and the rest, and what it writes
    there is the function [rekeyed]. *)
From S2P Require Import Prelude.
Local Open Scope N_scope.

Definition MAX_TAKEBACK_HISTORY : nat := 12.
Definition MAX_TURN_REWIND_HISTORY : nat := 5.

(** ** Data *)
Inductive GameAction :=
  | Concede (player_id : N)
  | CancelAutoPass | SetPhaseStops | SetPriorityPassingMode | SetPriorityYield
  | SetMayTriggerAutoChoice | SetReplacementAutoChoice | UnActionSetEnabled
  | SetTriggerOrderTemplate | ReorderHand
  | OtherAction.
Definition is_actor_scoped_preference (a : GameAction) : bool :=
  match a with
  | CancelAutoPass | SetPhaseStops | SetPriorityPassingMode | SetPriorityYield
  | SetMayTriggerAutoChoice | SetReplacementAutoChoice | UnActionSetEnabled
  | SetTriggerOrderTemplate | ReorderHand => true
  | Concede _ | OtherAction => false
  end.
Definition is_concession (a : GameAction) : bool :=
  match a with Concede _ => true | _ => false end.

Inductive WaitingFor := PhysicalContest | GameOver | Prompt.
Inductive GameEvent := TurnStarted (turn_number : N) | OtherEvent.
Inductive ActionDisposition := Applied | Reversed.
Definition is_applied (d : ActionDisposition) : bool :=
  match d with Applied => true | Reversed => false end.
Record ActionResult := { events : list GameEvent; disposition : ActionDisposition }.

Inductive RewindTarget := LastAction | TurnStart (turn_number : N).
Inductive TakebackResolution := Approved | Declined | Cancelled | Withdrawn.
Inductive TakebackOutcome := Pending | Resolved (r : TakebackResolution).
Record RewindOption := { ro_turn_number : N; ro_active_player : N }.
Record TakebackVote := { tv_requester : N; tv_voters : list N }.
Inductive TakebackError :=
  | ContestRunning | GameEnded | AlreadyPending | NotHumanRequester | NoOwnAction
  | NoTurnRewind | TurnUnavailable
  | NoPending | NotHumanResponder | NotAVoter | NotTheRequester.

Section ledger.
Context {Rest : Type}.

Record GameState := {
  seats : list N;
  eliminated_players : list N;
  turn_number : N;
  active_player : N;
  game_number : N;
  waiting_for : WaitingFor;
  state_revision : N;
  rest : Rest;
}.
Definition with_revision (r : N) (s : GameState) : GameState :=
  {| seats := seats s; eliminated_players := eliminated_players s;
     turn_number := turn_number s; active_player := active_player s;
     game_number := game_number s; waiting_for := waiting_for s;
     state_revision := r; rest := rest s |}.
Definition bump_state_revision (s : GameState) : GameState :=
  with_revision (u64_add (state_revision s) 1) s.

Record PendingTakeback := {
  requested_by : N;
  target_state : GameState;
  target_at : N;
  approvals : gset N;
  history_truncate_len : nat;
}.
Record TakebackCapture := {
  snapshot : option GameState;
  eliminated_before : list N;
}.
Record TakebackPoint := { tp_actor : N; tp_at : N; tp_state : GameState }.
Record TurnPoint := { tn_at : N; tn_state : GameState }.
Record TakebackLedger := {
  history : list TakebackPoint;
  turn_history : option (list TurnPoint);
  pending : option PendingTakeback;
  ledger_game_number : N;
  clock : N;
  noop_concessions : gmap N N;
}.
Definition set_history h (l : TakebackLedger) : TakebackLedger :=
  {| history := h; turn_history := turn_history l; pending := pending l;
     ledger_game_number := ledger_game_number l; clock := clock l;
     noop_concessions := noop_concessions l |}.
Definition set_turn_history t (l : TakebackLedger) : TakebackLedger :=
  {| history := history l; turn_history := t; pending := pending l;
     ledger_game_number := ledger_game_number l; clock := clock l;
     noop_concessions := noop_concessions l |}.
Definition set_pending p (l : TakebackLedger) : TakebackLedger :=
  {| history := history l; turn_history := turn_history l; pending := p;
     ledger_game_number := ledger_game_number l; clock := clock l;
     noop_concessions := noop_concessions l |}.
Definition set_game_number g (l : TakebackLedger) : TakebackLedger :=
  {| history := history l; turn_history := turn_history l; pending := pending l;
     ledger_game_number := g; clock := clock l; noop_concessions := noop_concessions l |}.
Definition set_clock c (l : TakebackLedger) : TakebackLedger :=
  {| history := history l; turn_history := turn_history l; pending := pending l;
     ledger_game_number := ledger_game_number l; clock := c;
     noop_concessions := noop_concessions l |}.
Definition set_noop_concessions n (l : TakebackLedger) : TakebackLedger :=
  {| history := history l; turn_history := turn_history l; pending := pending l;
     ledger_game_number := ledger_game_number l; clock := clock l; noop_concessions := n |}.

Definition ledger_new (game_number : N) : TakebackLedger :=
  {| history := []; turn_history := None; pending := None; ledger_game_number := game_number;
     clock := 0; noop_concessions := ∅ |}.
Definition with_turn_rewind (game_number : N) : TakebackLedger :=
  set_turn_history (Some []) (ledger_new game_number).

Definition is_human_seat (s : GameState) (player : N) (ai_seats : list N) : bool :=
  bool_decide (player ∈ seats s) && negb (bool_decide (player ∈ ai_seats)).

(** ** Recording *)
Definition capture (s : GameState) (action : option GameAction) : TakebackCapture :=
  let records := match action with
                 | None => true
                 | Some a => negb (is_actor_scoped_preference a)
                 end in
  {| snapshot := if records then Some s else None;
     eliminated_before := eliminated_players s |}.

(** A ring of bounded length. *)
Definition ring_push {A} (limit : nat) (x : A) (ring : list A) : list A :=
  (if (limit <=? length ring)%nat then drop 1 ring else ring) ++ [x].

Definition record_point (actor : N) (pre_state : GameState) (l : TakebackLedger) : TakebackLedger :=
  match pending l with
  | Some _ => l
  | None => set_history (ring_push MAX_TAKEBACK_HISTORY
              {| tp_actor := actor; tp_at := clock l; tp_state := pre_state |} (history l)) l
  end.

Definition retire (l : TakebackLedger) : TakebackLedger :=
  set_noop_concessions ∅
    (set_turn_history ((λ _, []) <$> turn_history l) (set_history [] l)).

(** [events.iter().rev().find_map(..)]. *)
Definition last_turn_started (es : list GameEvent) : option N :=
  last (omap (λ e, match e with TurnStarted n => Some n | OtherEvent => None end) es).

Definition record_turn_point (es : list GameEvent) (s : GameState) (l : TakebackLedger)
    : TakebackLedger :=
  match turn_history l with
  | None => l
  | Some ring =>
      match last_turn_started es with
      | None => l
      | Some started =>
          if negb (started =? turn_number s) then l
          else set_turn_history (Some (ring_push MAX_TURN_REWIND_HISTORY
                 {| tn_at := clock l; tn_state := s |} ring)) l
      end
  end.

Definition observe_transition (es : list GameEvent) (post_state : GameState)
    (l : TakebackLedger) : TakebackLedger :=
  let l := set_clock (u64_add (clock l) 1) l in
  let l := if negb (game_number post_state =? ledger_game_number l)
           then retire (set_game_number (game_number post_state) l)
           else l in
  record_turn_point es post_state l.

Definition observe_match_forfeit (l : TakebackLedger)
    : option TakebackResolution * TakebackLedger :=
  ((λ _, Withdrawn) <$> pending l, retire (set_pending None l)).

(** ** Admission *)
Definition refuse_while_pending (l : TakebackLedger) : bool := negb (bool_decide (is_Some (pending l))).
Definition admit_action (a : GameAction) (l : TakebackLedger) : bool :=
  if is_concession a then true else refuse_while_pending l.

(** ** The vote *)
Definition not_conceded_since (target_at : N) (l : TakebackLedger) (seat : N) : bool :=
  match noop_concessions l !! seat with None => true | Some at_ => at_ <? target_at end.
Definition voters (p : PendingTakeback) (s : GameState) (ai_seats : list N) (l : TakebackLedger)
    : gset N :=
  let candidates := filter (λ seat, seat ≠ requested_by p ∧ seat ∉ ai_seats) (seats s) in
  let current := filter (λ seat, seat ∉ eliminated_players s) candidates in
  if bool_decide (current ≠ []) then list_to_set current
  else list_to_set (filter (λ seat,
    seat ∉ eliminated_players (target_state p) ∧ not_conceded_since (target_at p) l seat)
    candidates).

(** The prompt and the rest of a state after its shortcut offer is keyed anew. *)
Variable rekeyed : GameState → WaitingFor * Rest.
Definition rekey_after_trusted_restore (s : GameState) : GameState :=
  {| seats := seats s; eliminated_players := eliminated_players s;
     turn_number := turn_number s; active_player := active_player s;
     game_number := game_number s; waiting_for := (rekeyed s).1;
     state_revision := state_revision s; rest := (rekeyed s).2 |}.
(** The target [s], installed in place of a state of the given revision. *)
Definition install (replaced_revision : N) (s : GameState) : GameState :=
  rekey_after_trusted_restore (bump_state_revision (with_revision replaced_revision s)).

Definition try_resolve (s : GameState) (ai_seats : list N) (l : TakebackLedger)
    : option TakebackOutcome * (GameState * TakebackLedger) :=
  match pending l with
  | None => (None, (s, l))
  | Some p =>
      if negb (bool_decide (voters p s ai_seats l ⊆ approvals p)) then (None, (s, l))
      else
        let l := set_pending None l in
        let s := install (state_revision s) (target_state p) in
        let l := set_history (take (history_truncate_len p) (history l)) l in
        let l := set_noop_concessions
                   (filter (λ e, e.2 < target_at p) (noop_concessions l)) l in
        let restored_turn := turn_number s in
        let l := set_turn_history
                   (filter (λ point, turn_number (tn_state point) <= restored_turn)
                      <$> turn_history l) l in
        (Some (Resolved Approved), (s, l))
  end.

Definition record_human_action (s : GameState) (actor : N) (cap : TakebackCapture)
    (action : GameAction) (result : ActionResult) (ai_seats : list N) (l : TakebackLedger)
    : option TakebackResolution * (GameState * TakebackLedger) :=
  let l := match snapshot cap with
           | Some snap =>
               if negb (is_actor_scoped_preference action) && is_applied (disposition result)
               then record_point actor snap l else l
           | None => l
           end in
  let '(resolution, installed, (s, l)) :=
    if is_concession action then
      let departed := existsb (λ player, negb (bool_decide (player ∈ eliminated_before cap)))
                        (eliminated_players s) in
      if departed then
        ((λ _, Withdrawn) <$> pending l, false, (s, retire (set_pending None l)))
      else
        let l := match noop_concessions l !! actor with
                 | Some _ => l
                 | None => set_noop_concessions (<[actor := clock l]> (noop_concessions l)) l
                 end in
        match pending l with
        | Some p =>
            if requested_by p =? actor then (Some Cancelled, false, (s, set_pending None l))
            else match try_resolve s ai_seats l with
                 | (Some (Resolved r), sl) => (Some r, true, sl)
                 | (_, sl) => (None, false, sl)
                 end
        | None => (None, false, (s, l))
        end
    else (None, false, (s, l)) in
  let l := if (installed : bool) then set_clock (u64_add (clock l) 1) l
           else observe_transition (events result) s l in
  (resolution, (s, l)).

(** [rposition]: the last index. *)
Definition rposition {A} (f : A → bool) (l : list A) : option nat :=
  (λ i, length l - 1 - i)%nat <$> position f (reverse l).
(** [partition_point] of a list whose matches come first. *)
Fixpoint partition_point {A} (f : A → bool) (l : list A) : nat :=
  match l with
  | [] => 0
  | x :: l => if f x then S (partition_point f l) else 0
  end.

Definition request_target (player : N) (target : RewindTarget) (l : TakebackLedger)
    : TakebackError + (GameState * N * nat) :=
  match target with
  | LastAction =>
      match rposition (λ point, tp_actor point =? player) (history l) with
      | None => inl NoOwnAction
      | Some index =>
          match history l !! index with
          | Some point => inr (tp_state point, tp_at point, index)
          | None => inl NoOwnAction
          end
      end
  | TurnStart n =>
      match turn_history l with
      | None => inl NoTurnRewind
      | Some ring =>
          match find_first (λ point, turn_number (tn_state point) =? n) ring with
          | None => inl TurnUnavailable
          | Some point =>
              inr (tn_state point, tn_at point,
                   partition_point (λ entry, turn_number (tp_state entry) <? n) (history l))
          end
      end
  end.

Definition request (s : GameState) (player : N) (target : RewindTarget) (ai_seats : list N)
    (l : TakebackLedger) : (TakebackError + TakebackOutcome) * (GameState * TakebackLedger) :=
  match waiting_for s with
  | PhysicalContest => (inl ContestRunning, (s, l))
  | GameOver => (inl GameEnded, (s, l))
  | Prompt =>
      match pending l with
      | Some _ => (inl AlreadyPending, (s, l))
      | None =>
          if negb (is_human_seat s player ai_seats) then (inl NotHumanRequester, (s, l)) else
          match request_target player target l with
          | inl e => (inl e, (s, l))
          | inr (target_state, target_at, len) =>
              let l := set_pending (Some {| requested_by := player; target_state := target_state;
                         target_at := target_at; approvals := {[ player ]};
                         history_truncate_len := len |}) l in
              let '(outcome, sl) := try_resolve s ai_seats l in
              (inr (default Pending outcome), sl)
          end
      end
  end.

Definition respond (s : GameState) (player : N) (approve : bool) (ai_seats : list N)
    (l : TakebackLedger) : (TakebackError + TakebackOutcome) * (GameState * TakebackLedger) :=
  match pending l with
  | None => (inl NoPending, (s, l))
  | Some p =>
      if negb (is_human_seat s player ai_seats) then (inl NotHumanResponder, (s, l))
      else if negb (bool_decide (player ∈ voters p s ai_seats l)) then (inl NotAVoter, (s, l))
      else if negb approve then (inr (Resolved Declined), (s, set_pending None l))
      else
        let p := {| requested_by := requested_by p; target_state := target_state p;
                    target_at := target_at p; approvals := {[ player ]} ∪ approvals p;
                    history_truncate_len := history_truncate_len p |} in
        let '(outcome, sl) := try_resolve s ai_seats (set_pending (Some p) l) in
        (inr (default Pending outcome), sl)
  end.

Definition cancel (player : N) (l : TakebackLedger) : (TakebackError + unit) * TakebackLedger :=
  match pending l with
  | Some p => if requested_by p =? player then (inr tt, set_pending None l)
              else (inl NotTheRequester, l)
  | None => (inl NoPending, l)
  end.

(** ** What hosts announce *)
Definition rewind_options (l : TakebackLedger) : list RewindOption :=
  (λ point, {| ro_turn_number := turn_number (tn_state point);
               ro_active_player := active_player (tn_state point) |})
    <$> default [] (turn_history l).
Definition is_pending (l : TakebackLedger) : bool := bool_decide (is_Some (pending l)).
Definition pending_vote (s : GameState) (ai_seats : list N) (l : TakebackLedger)
    : option TakebackVote :=
  (λ p, {| tv_requester := requested_by p;
           tv_voters := merge_sort N.le (elements (voters p s ai_seats l)) |}) <$> pending l.
Definition turn_history_len (l : TakebackLedger) : nat :=
  match turn_history l with None => 0 | Some ring => length ring end.
End ledger.

(** [offers_turn_rewind] and [takeback_ledger_for] of [server-core/src/takeback.rs]. *)
Inductive HostingMode := Shared | SingleUser.
Definition offers_turn_rewind (hosting : HostingMode) : bool :=
  match hosting with SingleUser => true | Shared => false end.
Definition takeback_ledger_for {Rest} (hosting : HostingMode) (game_number : N)
    : @TakebackLedger Rest :=
  if offers_turn_rewind hosting then with_turn_rewind game_number else ledger_new game_number.
