(* ===== verification/TakebackSafety.v ===== *)
(** * No one is rolled back against their will

    A session: a game, its takeback ledger, and everything that can happen to the two.
    What the engine does in a transition is arbitrary, within what it promises about turn
    and game numbers ([transition_ok]). *)
From S2P Require Import Prelude.
From S2P Require Import Takeback.
Local Open Scope N_scope.

(** ** Rings *)
#[local] Arguments ring_push : simpl never.
Lemma elem_of_list_drop {A} (x : A) n l : x ∈ drop n l → x ∈ l.
Proof. intros Hx. rewrite <-(take_drop n l), elem_of_app. by right. Qed.
Lemma elem_of_list_take {A} (x : A) n l : x ∈ take n l → x ∈ l.
Proof. intros Hx. rewrite <-(take_drop n l), elem_of_app. by left. Qed.
Lemma sorted_filter {A} (R : relation N) (f : A → N) (P : A → Prop) `{!∀ x, Decision (P x)} l :
  StronglySorted R (f <$> l) → StronglySorted R (f <$> filter P l).
Proof.
  induction l as [|x l IH]; [done|]. rewrite fmap_cons, StronglySorted_cons, filter_cons.
  intros [Hx Hl]. case_decide; [|by apply IH]. rewrite fmap_cons, StronglySorted_cons.
  split; [|by apply IH]. rewrite Forall_fmap, Forall_forall in Hx |- *.
  intros y [_ Hy]%list_elem_of_filter. by apply Hx.
Qed.
Lemma ring_push_bounded {A} limit (x : A) ring :
  (0 < limit)%nat → (length ring ≤ limit)%nat → (length (ring_push limit x ring) ≤ limit)%nat.
Proof.
  intros H0 Hl. unfold ring_push. rewrite length_app. simpl.
  destruct (Nat.leb_spec limit (length ring)); rewrite ?length_drop; lia.
Qed.
Lemma elem_of_ring_push {A} limit (x y : A) ring :
  y ∈ ring_push limit x ring → y ∈ ring ∨ y = x.
Proof.
  unfold ring_push. rewrite elem_of_app, list_elem_of_singleton. intros [Hy|]; [left|by right].
  destruct (_ <=? _)%nat; [|done]. by eapply elem_of_list_drop.
Qed.
Lemma sorted_drop {A} (R : relation A) n l : StronglySorted R l → StronglySorted R (drop n l).
Proof.
  intros Hl. rewrite <-(take_drop n l) in Hl. by apply StronglySorted_app in Hl as (_&_&?).
Qed.
Lemma sorted_take {A} (R : relation A) n l : StronglySorted R l → StronglySorted R (take n l).
Proof.
  intros Hl. rewrite <-(take_drop n l) in Hl. by apply StronglySorted_app in Hl as (_&?&_).
Qed.
Lemma sorted_snoc {A} (R : relation A) l x :
  StronglySorted R l → (∀ y, y ∈ l → R y x) → StronglySorted R (l ++ [x]).
Proof.
  intros Hl Hx. apply StronglySorted_app. split_and!; [|done|repeat constructor].
  intros y z Hy ->%list_elem_of_singleton. by apply Hx.
Qed.
Lemma sorted_ring_push {A} (R : relation N) (f : A → N) limit x ring :
  StronglySorted R (f <$> ring) → (∀ y, y ∈ ring → R (f y) (f x)) →
  StronglySorted R (f <$> ring_push limit x ring).
Proof.
  intros Hs Hx. unfold ring_push. rewrite fmap_app. apply sorted_snoc.
  - destruct (_ <=? _)%nat; [|done]. rewrite fmap_drop. by apply sorted_drop.
  - intros y (z&->&Hz)%list_elem_of_fmap. apply Hx.
    destruct (_ <=? _)%nat; [by eapply elem_of_list_drop|done].
Qed.

Lemma existsb_false_elem {A} (f : A → bool) l x : existsb f l = false → x ∈ l → f x = false.
Proof.
  intros Hf Hx. apply not_true_is_false. intros Ht.
  assert (existsb f l = true) by (apply existsb_exists; exists x; by rewrite <-list_elem_of_In).
  congruence.
Qed.
Lemma rposition_Some {A} (f : A → bool) l i :
  rposition f l = Some i →
  ∃ x, l !! i = Some x ∧ f x = true ∧
    ∀ j y, (i < j)%nat → l !! j = Some y → f y = false.
Proof.
  unfold rposition. intros (k&Hk&Hi)%fmap_Some. subst i.
  pose proof (position_lt _ _ _ Hk) as Hlt. rewrite length_reverse in Hlt.
  apply position_Some in Hk as (x&Hx&Hf&Hbefore). exists x.
  rewrite reverse_lookup in Hx by done. split_and!; [|done|].
  - by replace (length l - 1 - k)%nat with (length l - S k)%nat by lia.
  - intros j y Hj Hy. pose proof (lookup_lt_Some _ _ _ Hy).
    apply (Hbefore (length l - S j)%nat); [lia|]. rewrite reverse_lookup by lia.
    by replace (length l - S (length l - S j))%nat with j by lia.
Qed.
(** On a list in order of [f] the prefix is exact. *)
Lemma partition_point_spec {A} (f : A → N) n l i x :
  StronglySorted N.le (f <$> l) → l !! i = Some x →
  (i < partition_point (λ x, (f x <? n)%N) l)%nat ↔ f x < n.
Proof.
  revert i. induction l as [|y l IH]; intros i; [done|].
  rewrite fmap_cons, StronglySorted_cons. intros [Hy Hl]. simpl.
  destruct (N.ltb_spec (f y) n) as [Hn|Hn]; destruct i as [|i]; simpl.
  - intros [= <-]. split; [done|lia].
  - intros Hx. rewrite <-(IH i) by done. lia.
  - intros [= <-]. split; lia.
  - intros Hx. rewrite Forall_fmap, Forall_forall in Hy.
    specialize (Hy x (list_elem_of_lookup_2 _ _ _ Hx)). cbn in Hy. split; lia.
Qed.

Section session.
Context {Rest : Type}.
Local Abbreviation GameState := (@GameState Rest).
Local Abbreviation TakebackLedger := (@TakebackLedger Rest).
Local Abbreviation PendingTakeback := (@PendingTakeback Rest).
Variable rekeyed : GameState → WaitingFor * Rest.
Variable ai_seats : list N.
Implicit Types (g post : GameState) (l : TakebackLedger).

(** ** Steps *)
Record Session := {
  game : GameState;
  ledger : TakebackLedger;
  (** the seats that have answered yes since the open vote was asked for *)
  answers : gset N;
  (** the states the game has been in *)
  past : list GameState;
}.
Definition enter (g : GameState) (l : TakebackLedger) (a : gset N) (s : Session) : Session :=
  {| game := g; ledger := l; answers := a; past := g :: past s |}.
Inductive Label :=
  | LAct (actor : N) (action : GameAction) (result : ActionResult) (post : GameState)
  | LObserve (es : list GameEvent) (post : GameState)
  | LForfeit (post : GameState)
  | LRequest (player : N) (target : RewindTarget)
  | LRespond (player : N) (approve : bool)
  | LCancel (player : N).

(** How the step ended an open vote, if it did, and the session after it; [None] when the
    step is refused admission. *)
Definition session_step (lb : Label) (s : Session) : option (option TakebackResolution * Session) :=
  let ended o := match o with Resolved r => Some r | Pending => None end in
  match lb with
  | LAct actor action result post =>
      if negb (admit_action action (ledger s)) then None else
      let '(r, (g, l)) := record_human_action rekeyed post actor
                            (capture (game s) (Some action)) action result ai_seats (ledger s) in
      Some (r, enter g l (answers s) s)
  | LObserve es post =>
      if negb (refuse_while_pending (ledger s)) then None else
      Some (None, enter post (observe_transition es post (ledger s)) (answers s) s)
  | LForfeit post =>
      let '(r, l) := observe_match_forfeit (ledger s) in Some (r, enter post l (answers s) s)
  | LRequest player target =>
      match request rekeyed (game s) player target ai_seats (ledger s) with
      | (inl _, _) => None
      | (inr o, (g, l)) => Some (ended o, enter g l ∅ s)
      end
  | LRespond player approve =>
      match respond rekeyed (game s) player approve ai_seats (ledger s) with
      | (inl _, _) => None
      | (inr o, (g, l)) =>
          Some (ended o, enter g l (if approve then {[ player ]} ∪ answers s else answers s) s)
      end
  | LCancel player =>
      match cancel player (ledger s) with
      | (inl _, _) => None
      | (inr _, l) => Some (Some Cancelled, enter (game s) l (answers s) s)
      end
  end.

(** What the engine promises of a transition: within a game turns do not go back, and a
    turn announced by the transition and come to rest in is later than the one before. *)
Definition transition_ok (g : GameState) (es : list GameEvent) (post : GameState) : Prop :=
  seats post = seats g ∧
  (game_number post = game_number g →
     turn_number g <= turn_number post ∧
     (last_turn_started es = Some (turn_number post) → turn_number g < turn_number post)).
Definition no_departure (g post : GameState) : Prop :=
  ∀ x, x ∈ eliminated_players post → x ∈ eliminated_players g.
Definition label_ok (s : Session) (lb : Label) : Prop :=
  match lb with
  | LAct _ action result post =>
      transition_ok (game s) (events result) post ∧
      (** a concession after which nobody has left starts no other game *)
      (is_concession action = true → no_departure (game s) post →
         game_number post = game_number (game s))
  | LObserve es post => transition_ok (game s) es post
  | LForfeit post => transition_ok (game s) [] post ∧ game_number post = game_number (game s)
  | _ => True
  end.

Inductive reachable (g0 : GameState) (rewind : bool) : Session → Prop :=
  | reach_start :
      reachable g0 rewind
        {| game := g0; answers := ∅; past := [g0];
           ledger := if rewind then with_turn_rewind (game_number g0)
                     else ledger_new (game_number g0) |}
  | reach_step lb r s s' :
      reachable g0 rewind s → label_ok s lb → session_step lb s = Some (r, s') →
      reachable g0 rewind s'.

(** ** Invariant *)
Local Abbreviation turns h := ((λ p, turn_number (tp_state p)) <$> h).
Local Abbreviation ring_turns t := ((λ p, turn_number (tn_state p)) <$> t).
Definition same_game (g g' : GameState) : Prop :=
  game_number g' = game_number g ∧ seats g' = seats g.

Record ledger_ok (g : GameState) (l : TakebackLedger) : Prop := {
  lo_history_len : (length (history l) ≤ MAX_TAKEBACK_HISTORY)%nat;
  lo_ring_len : (turn_history_len l ≤ MAX_TURN_REWIND_HISTORY)%nat;
  lo_game : ledger_game_number l = game_number g;
  lo_history_game : ∀ p, p ∈ history l → same_game g (tp_state p);
  lo_ring_game : ∀ t p, turn_history l = Some t → p ∈ t → same_game g (tn_state p);
  lo_history_sorted : StronglySorted N.le (turns (history l));
  lo_history_past : ∀ p, p ∈ history l → turn_number (tp_state p) <= turn_number g;
  lo_ring_sorted : ∀ t, turn_history l = Some t → StronglySorted N.lt (ring_turns t);
  lo_ring_past : ∀ t p, turn_history l = Some t → p ∈ t → turn_number (tn_state p) <= turn_number g;
}.

(** The vote [p] asks to go back to just before the requester's latest action, or to the
    start of a recorded turn; what history it would keep comes before that. *)
Definition target_recorded (l : TakebackLedger) (p : PendingTakeback) : Prop :=
  (∃ point, history l !! history_truncate_len p = Some point ∧
     tp_state point = target_state p ∧ tp_actor point = requested_by p ∧
     ∀ j later, (history_truncate_len p < j)%nat → history l !! j = Some later →
       tp_actor later ≠ requested_by p) ∨
  (∀ i point, history l !! i = Some point →
     (i < history_truncate_len p)%nat ↔ turn_number (tp_state point) < turn_number (target_state p)).

Record vote_sound (g : GameState) (l : TakebackLedger) (a : gset N) (p : PendingTakeback)
    : Prop := {
  vo_requester : requested_by p ∈ seats g ∧ requested_by p ∉ ai_seats;
  vo_target_game : same_game g (target_state p);
  vo_target_past : turn_number (target_state p) <= turn_number g;
  vo_target : target_recorded l p;
  vo_approvals : approvals p = {[ requested_by p ]} ∪ a;
}.
(** What may be gone back to is what was. *)
Definition from_past (seen : list GameState) (l : TakebackLedger) : Prop :=
  (∀ p, p ∈ history l → tp_state p ∈ seen) ∧
  (∀ t p, turn_history l = Some t → p ∈ t → tn_state p ∈ seen) ∧
  (∀ p, pending l = Some p → target_state p ∈ seen).
Record session_ok (s : Session) : Prop := {
  so_now : game s ∈ past s;
  so_past : from_past (past s) (ledger s);
  so_ledger : ledger_ok (game s) (ledger s);
  so_vote : ∀ p, pending (ledger s) = Some p → vote_sound (game s) (ledger s) (answers s) p;
  (** an open vote waits for somebody *)
  so_open : ∀ p, pending (ledger s) = Some p →
    ¬ voters p (game s) ai_seats (ledger s) ⊆ approvals p;
}.

(** ** The ledger through a transition *)
Lemma ledger_ok_ext g l l' :
  history l' = history l → turn_history l' = turn_history l →
  ledger_game_number l' = ledger_game_number l → ledger_ok g l → ledger_ok g l'.
Proof.
  intros Hh Ht Hg []. split; unfold turn_history_len in *; rewrite ?Hh, ?Ht, ?Hg; done.
Qed.
Lemma ledger_ok_move g post l :
  ledger_ok g l → same_game g post → turn_number g <= turn_number post → ledger_ok post l.
Proof.
  intros [] [Hg Hs] Ht. split; try done; try congruence.
  - intros p Hp. destruct (lo_history_game0 p Hp). split; congruence.
  - intros t p H1 H2. destruct (lo_ring_game0 t p H1 H2). split; congruence.
  - intros p Hp. specialize (lo_history_past0 p Hp). lia.
  - intros t p H1 H2. specialize (lo_ring_past0 t p H1 H2). lia.
Qed.
Lemma record_point_ok actor g l :
  ledger_ok g l → ledger_ok g (record_point actor g l).
Proof.
  intros Hok. pose proof Hok as []. unfold record_point. destruct (pending l); [done|].
  split; try done; cbn [history set_history].
  - apply ring_push_bounded; [unfold MAX_TAKEBACK_HISTORY; lia|done].
  - intros p [Hp| ->]%elem_of_ring_push; [by apply lo_history_game0|done].
  - apply sorted_ring_push; [done|]. by apply lo_history_past0.
  - intros p [Hp| ->]%elem_of_ring_push; [by apply lo_history_past0|cbn; lia].
Qed.
Lemma retire_ok g l : ledger_ok g l → ledger_ok g (retire l).
Proof.
  intros []. unfold retire. split; try done; cbn.
  - lia.
  - unfold turn_history_len. cbn. destruct (turn_history l); cbn; lia.
  - by intros p ?%elem_of_nil.
  - intros t p. destruct (turn_history l); cbn; [|done]. intros [= <-] ?%elem_of_nil. done.
  - constructor.
  - by intros p ?%elem_of_nil.
  - intros t. destruct (turn_history l); cbn; [|done]. intros [= <-]. constructor.
  - intros t p. destruct (turn_history l); cbn; [|done]. intros [= <-] ?%elem_of_nil. done.
Qed.
Lemma record_turn_point_ok es g l :
  ledger_ok g l →
  (∀ t p, turn_history l = Some t → p ∈ t → last_turn_started es = Some (turn_number g) →
     turn_number (tn_state p) < turn_number g) →
  ledger_ok g (record_turn_point es g l).
Proof.
  intros Hok Hlater. pose proof Hok as []. unfold record_turn_point.
  destruct (turn_history l) as [ring|] eqn:Hr; [|done].
  destruct (last_turn_started es) as [started|] eqn:Hs; [|done].
  destruct (N.eqb_spec started (turn_number g)) as [->|]; [|done]. simpl.
  assert (∀ p, p ∈ ring_push MAX_TURN_REWIND_HISTORY {| tn_at := clock l; tn_state := g |} ring →
    p ∈ ring ∨ tn_state p = g) as Hin.
  { intros p [Hp| ->]%elem_of_ring_push; [by left|by right]. }
  split; try done; cbn [turn_history set_turn_history history ledger_game_number].
  - unfold turn_history_len in *. cbn [turn_history set_turn_history].
    rewrite Hr in lo_ring_len0. apply ring_push_bounded; [unfold MAX_TURN_REWIND_HISTORY; lia|done].
  - intros t p [= <-] [Hp| ->]%Hin; [by eapply lo_ring_game0|done].
  - intros t [= <-]. apply sorted_ring_push; [by apply lo_ring_sorted0|].
    intros p Hp. by eapply Hlater.
  - intros t p [= <-] [Hp| ->]%Hin; [by eapply lo_ring_past0|lia].
Qed.

Lemma observe_ok es g post l :
  ledger_ok g l → transition_ok g es post →
  ledger_ok post (observe_transition es post l) ∧
  pending (observe_transition es post l) = pending l ∧
  (game_number post = game_number g →
     history (observe_transition es post l) = history l ∧
     noop_concessions (observe_transition es post l) = noop_concessions l).
Proof.
  intros Hok [Hseats Hturn]. unfold observe_transition.
  set (l1 := set_clock (u64_add (clock l) 1) l).
  assert (ledger_ok g l1) as Hok1 by (by apply (ledger_ok_ext g l)).
  assert (∀ es g l, pending (record_turn_point es g l) = pending l ∧
    history (record_turn_point es g l) = history l ∧
    noop_concessions (record_turn_point es g l) = noop_concessions l) as Hrec.
  { intros es' g' l'. unfold record_turn_point. by repeat case_match. }
  change (ledger_game_number l1) with (ledger_game_number l). rewrite (lo_game _ _ Hok).
  destruct (N.eqb_spec (game_number post) (game_number g)) as [Heq|Hne]; simpl negb; cbv iota.
  - destruct (Hturn Heq) as [Hle Hlt]. split_and!.
    + apply record_turn_point_ok; [by apply (ledger_ok_move g)|].
      intros t p Ht Hp Hs. specialize (Hlt Hs). pose proof (lo_ring_past _ _ Hok1 t p Ht Hp). lia.
    + by destruct (Hrec es post l1) as (->&_&_).
    + by destruct (Hrec es post l1) as (_&->&->).
  - set (l2 := retire (set_game_number (game_number post) l1)).
    assert (∀ t, turn_history l2 = Some t → t = []) as Hnil.
    { intros t. cbn. by destruct (turn_history l); cbn; intros [= <-]. }
    split_and!.
    + apply record_turn_point_ok.
      * split; try done; cbn; try lia; try (intros p ?%elem_of_nil; done);
          try (intros t p ->%Hnil ?%elem_of_nil; done); try constructor.
        -- unfold turn_history_len. cbn. destruct (turn_history l); cbn; lia.
        -- intros t ->%Hnil. constructor.
      * by intros t p ->%Hnil ?%elem_of_nil.
    + by destruct (Hrec es post l2) as (->&_&_).
    + done.
Qed.
(** ** Installing a target *)
Definition rolled_back (p : PendingTakeback) (l : TakebackLedger) : TakebackLedger :=
  set_turn_history (filter (λ point, turn_number (tn_state point) <= turn_number (target_state p))
                      <$> turn_history l)
    (set_noop_concessions (filter (λ e, e.2 < target_at p) (noop_concessions l))
       (set_history (take (history_truncate_len p) (history l)) (set_pending None l))).

Lemma try_resolve_spec p g l :
  pending l = Some p →
  (¬ voters p g ai_seats l ⊆ approvals p ∧ try_resolve rekeyed g ai_seats l = (None, (g, l))) ∨
  (voters p g ai_seats l ⊆ approvals p ∧
   try_resolve rekeyed g ai_seats l
   = (Some (Resolved Approved),
      (install rekeyed (state_revision g) (target_state p), rolled_back p l))).
Proof.
  intros Hp. unfold try_resolve. rewrite Hp. case_bool_decide; [right|left]; done.
Qed.

Lemma kept_before l p g i point :
  ledger_ok g l → target_recorded l p →
  history l !! i = Some point → (i < history_truncate_len p)%nat →
  turn_number (tp_state point) <= turn_number (target_state p).
Proof.
  intros Hok [(at_&Hat&<-&_)|Hpre] Hi Hlt; [|apply (Hpre i point Hi) in Hlt; lia].
  apply (sorted_lookup N.le (turns (history l)) i (history_truncate_len p));
    [apply (lo_history_sorted _ _ Hok)|by rewrite list_lookup_fmap, Hi|
     by rewrite list_lookup_fmap, Hat|done].
Qed.
Lemma rolled_back_ok p g l r :
  ledger_ok g l → same_game g (target_state p) → target_recorded l p →
  ledger_ok (install rekeyed r (target_state p)) (rolled_back p l).
Proof.
  intros Hok [Hg Hs] Hrec. pose proof Hok as [].
  assert (∀ t q, turn_history (rolled_back p l) = Some t → q ∈ t →
    ∃ t', turn_history l = Some t' ∧ q ∈ t' ∧
      turn_number (tn_state q) <= turn_number (target_state p)) as Hring.
  { intros t q (t'&Ht'&->)%fmap_Some [Hle Hq]%list_elem_of_filter. by exists t'. }
  split.
  - cbn. rewrite length_take. lia.
  - unfold turn_history_len in *. cbn. destruct (turn_history l); cbn; [|lia].
    etrans; [apply length_filter|done].
  - cbn. by rewrite Hg.
  - intros q Hq%elem_of_list_take. destruct (lo_history_game0 q Hq). split; cbn; congruence.
  - intros t q Ht Hq. destruct (Hring t q Ht Hq) as (t'&Ht'&Hq'&_).
    destruct (lo_ring_game0 t' q Ht' Hq'). split; cbn; congruence.
  - cbn. rewrite fmap_take. by apply sorted_take.
  - cbn. intros q (i&Hi)%list_elem_of_lookup. apply lookup_take_Some in Hi as [Hi Hlt].
    by apply (kept_before l p g i).
  - intros t (t'&Ht'&->)%fmap_Some. apply sorted_filter. by apply lo_ring_sorted0.
  - intros t q Ht Hq. by destruct (Hring t q Ht Hq) as (_&_&_&?).
Qed.
Lemma rolled_back_past seen p l :
  from_past seen l → from_past seen (rolled_back p l).
Proof.
  intros (Hh&Hr&_). split_and!; [|intros t q (t'&Ht'&->)%fmap_Some|done].
  - cbn. intros q Hq%elem_of_list_take. by apply Hh.
  - intros [_ Hq]%list_elem_of_filter. by apply (Hr t').
Qed.

(** Who has agreed when every voter has. *)
Lemma voters_answer p g l a x :
  voters p g ai_seats l ⊆ approvals p → approvals p = {[ requested_by p ]} ∪ a →
  x ∈ seats g → x ≠ requested_by p → x ∉ ai_seats →
  (x ∉ eliminated_players g → x ∈ a) ∧
  ((∀ y, y ∈ seats g → y ≠ requested_by p → y ∉ ai_seats → y ∈ eliminated_players g) →
   x ∉ eliminated_players (target_state p) → x ∈ a ∨ x ∈ dom (noop_concessions l)).
Proof.
  intros Hsub Ha Hseat Hne Hai. unfold voters in Hsub.
  set (candidates := filter _ (seats g)) in Hsub.
  assert (∀ y, y ∈ candidates ↔ (y ≠ requested_by p ∧ y ∉ ai_seats) ∧ y ∈ seats g) as Hc.
  { intros y. unfold candidates. by rewrite list_elem_of_filter. }
  assert (x ∈ candidates) as Hx by by apply Hc.
  assert (x ∈ approvals p → x ∈ a) as Hin by (rewrite Ha; set_solver).
  case_bool_decide as Hcur.
  - split.
    + intros He. apply Hin, Hsub, elem_of_list_to_set, list_elem_of_filter. done.
    + intros Hall. destruct Hcur. apply elem_of_nil_inv. intros y.
      rewrite list_elem_of_filter, Hc. naive_solver.
  - split.
    + intros He. assert (x ∈ filter (λ y, y ∉ eliminated_players g) candidates) as Hy
        by by apply list_elem_of_filter.
      rewrite Hcur in Hy. by apply elem_of_nil in Hy.
    + intros _ He. destruct (noop_concessions l !! x) as [n|] eqn:Hn.
      { right. apply elem_of_dom. by rewrite Hn. }
      left. apply Hin, Hsub, elem_of_list_to_set, list_elem_of_filter. split; [|done].
      split; [done|]. unfold not_conceded_since. by rewrite Hn.
Qed.

(** ** Steps keep the invariant *)
Lemma refused_while_pending l : refuse_while_pending l = true → pending l = None.
Proof.
  unfold refuse_while_pending. rewrite negb_true_iff, bool_decide_eq_false.
  by intros ?%eq_None_not_Some.
Qed.
(** [s'] is [s] rolled back from the state [g]: to a state the same game was in, at nobody's
    objection.  Every other human still in the game has said yes; when there is none, every
    other human who was in the game then, but for seats that have conceded to no effect. *)
Definition unanimous (s : Session) (g : GameState) (conceded : gset N) (s' : Session) : Prop :=
  ∃ requester target,
    (requester ∈ seats g ∧ requester ∉ ai_seats) ∧
    target ∈ past s ∧ same_game g target ∧ turn_number target <= turn_number g ∧
    game s' = install rekeyed (state_revision g) target ∧ pending (ledger s') = None ∧
    ∀ x, x ∈ seats g → x ≠ requester → x ∉ ai_seats →
      (x ∉ eliminated_players g → x ∈ answers s') ∧
      ((∀ y, y ∈ seats g → y ≠ requester → y ∉ ai_seats → y ∈ eliminated_players g) →
       x ∉ eliminated_players target → x ∈ answers s' ∨ x ∈ conceded).

Lemma from_past_cons g seen l : from_past seen l → from_past (g :: seen) l.
Proof.
  intros (Hh&Hr&Hp). split_and!; [intros p ?|intros t p ??|intros p ?]; right;
    [by apply Hh|by eapply Hr|by apply Hp].
Qed.
Lemma session_ok_closed s g l a :
  pending l = None → ledger_ok g l → from_past (past s) l → session_ok (enter g l a s).
Proof.
  intros Hp Hok Hpast. split; cbn; [left|by apply from_past_cons|done| |]; congruence.
Qed.
Lemma resolved_session s g l a p o g' l' :
  pending l = Some p → ledger_ok g l → from_past (past s) l → vote_sound g l a p →
  try_resolve rekeyed g ai_seats l = (o, (g', l')) →
  (o = None ∧ g' = g ∧ l' = l ∧ ¬ voters p g ai_seats l ⊆ approvals p ∧
   session_ok (enter g l a s)) ∨
  (o = Some (Resolved Approved) ∧ ledger_ok g' l' ∧ from_past (past s) l' ∧ pending l' = None ∧
   ∀ l'', pending l'' = None →
     unanimous s g (dom (noop_concessions l)) (enter g' l'' a s)).
Proof.
  intros Hp Hok Hpast [[Hin Hai] ????] Hr. destruct (try_resolve_spec p g l Hp) as [[Hopen E]|[Hall E]];
    rewrite E in Hr; simplify_eq.
  - left. split_and!; [done..|]. split; cbn; [left|by apply from_past_cons|done| |];
      intros ? [= <-]%(eq_trans (eq_sym Hp)); done.
  - right. split_and!; [done|by apply (rolled_back_ok p g)|by apply rolled_back_past|done|].
    intros l'' Hl''. exists (requested_by p), (target_state p).
    split_and!; try done; try (by apply Hpast). by intros; eapply voters_answer.
Qed.

Lemma observe_past es post seen l :
  from_past seen l → post ∈ seen → from_past seen (observe_transition es post l).
Proof.
  intros Hl Hpost. unfold observe_transition.
  assert (∀ l, from_past seen l → from_past seen (record_turn_point es post l)) as Hrec.
  { intros l1 Hl1. unfold record_turn_point. repeat case_match; try done.
    destruct Hl1 as (Hh&Hr&Hp). split_and!; [done| |done]. cbn [turn_history set_turn_history]. intros t p [= <-] [Hq| ->]%elem_of_ring_push; [|done].
    by eapply Hr. }
  apply Hrec. case_match; [|done]. split_and!; cbn; [by intros p ?%elem_of_nil| |apply Hl].
  intros t p (?&_&->)%fmap_Some. by intros ?%elem_of_nil.
Qed.
Lemma vote_moves g post l l' a p :
  vote_sound g l a p → same_game g post → turn_number g <= turn_number post →
  history l' = history l → vote_sound post l' a p.
Proof.
  intros [[Hr Hai] [Hg Hs] Ht Htg Ha] [Hg' Hs'] Ht' Hh. split; [|split| | |done].
  - by rewrite Hs'.
  - congruence.
  - congruence.
  - lia.
  - unfold target_recorded. by rewrite Hh.
Qed.
Lemma observed_session s es post l a :
  ledger_ok (game s) l → from_past (past s) l → transition_ok (game s) es post →
  (∀ p, pending l = Some p → game_number post = game_number (game s) ∧
     vote_sound (game s) l a p ∧ ¬ voters p post ai_seats l ⊆ approvals p) →
  session_ok (enter post (observe_transition es post l) a s).
Proof.
  intros Hok Hpast Htr Hvote. destruct (observe_ok es (game s) post l Hok Htr) as (Hok'&Hp&Hh).
  split; cbn; [left| |done| |].
  - apply observe_past; [by apply from_past_cons|left].
  - rewrite Hp. intros p Hpend. destruct (Hvote p Hpend) as (Hg&Hs&_).
    destruct (Hh Hg) as [Hh' _], Htr as [Hseats Hturn].
    apply (vote_moves (game s) post l); try done. by apply Hturn.
  - rewrite Hp. intros p Hpend. destruct (Hvote p Hpend) as (Hg&_&Hopen).
    destruct (Hh Hg) as [_ Hn]. unfold voters, not_conceded_since in *. by rewrite Hn.
Qed.
Lemma request_target_spec player target g l seen ts ta len :
  ledger_ok g l → from_past seen l → request_target player target l = inr (ts, ta, len) →
  same_game g ts ∧ turn_number ts <= turn_number g ∧ ts ∈ seen ∧
  ∀ p l', requested_by p = player → target_state p = ts → history_truncate_len p = len →
    history l' = history l → target_recorded l' p.
Proof.
  intros Hok (Hh&Hr&_). unfold request_target. destruct target as [|n].
  - destruct (rposition _ _) as [i|] eqn:Hpos; [|done].
    apply rposition_Some in Hpos as (point&Hi&Hact&Hafter). rewrite Hi. intros [= <- <- <-].
    pose proof (list_elem_of_lookup_2 _ _ _ Hi) as Hin.
    split_and!; [by apply (lo_history_game _ _ Hok)|by apply (lo_history_past _ _ Hok)|
      by apply Hh|].
    intros p l' Hp Ht Hlen Hl'. left. exists point. rewrite Hl', Hlen, Hp. split_and!; [done..| |].
    + by apply N.eqb_eq.
    + intros j later Hj Hlater. by apply N.eqb_neq, (Hafter j).
  - destruct (turn_history l) as [ring|] eqn:Hring; [|done].
    destruct (find_first _ ring) as [point|] eqn:Hf; [|done]. intros [= <- <- <-].
    apply find_first_Some in Hf as [Hin Hn%N.eqb_eq].
    split_and!; [by apply (lo_ring_game _ _ Hok ring)|by apply (lo_ring_past _ _ Hok ring)|
      by apply (Hr ring)|].
    intros p l' _ Ht Hlen Hl'. right. intros i entry. rewrite Hl', Hlen, Ht, Hn. intros Hi.
    apply (partition_point_spec (λ e, turn_number (tp_state e))); [|done].
    apply (lo_history_sorted _ _ Hok).
Qed.

(** What a step finds the game to be: what a transition made of it, or what it was. *)
Definition observed (lb : Label) (s : Session) : GameState :=
  match lb with
  | LAct _ _ _ post | LObserve _ post | LForfeit post => post
  | _ => game s
  end.
(** Seats whose concession has removed nobody, the one conceding now included. *)
Definition conceded (lb : Label) (s : Session) : gset N :=
  dom (noop_concessions (ledger s)) ∪
  match lb with LAct actor _ _ _ => {[ actor ]} | _ => ∅ end.
Definition step_sound (lb : Label) (s : Session) (r : option TakebackResolution) (s' : Session)
    : Prop :=
  session_ok s' ∧
  match r with
  | Some Approved => unanimous s (observed lb s) (conceded lb s) s'
  | _ => game s' = observed lb s
  end.

Lemma unanimous_mono s g c c' s' : c ⊆ c' → unanimous s g c s' → unanimous s g c' s'.
Proof.
  intros Hc (q&t&?&?&?&?&?&?&Hall). exists q, t. split_and!; naive_solver.
Qed.
(** The end of a request and of an approval: the vote [p] is put to resolution. *)
Lemma vote_step lb s l a p :
  observed lb s = game s → noop_concessions l = noop_concessions (ledger s) →
  pending l = Some p → ledger_ok (game s) l → from_past (past s) l →
  vote_sound (game s) l a p →
  match try_resolve rekeyed (game s) ai_seats l with
  | (o, (g', l')) =>
      step_sound lb s (match default Pending o with Resolved r => Some r | Pending => None end)
        (enter g' l' a s)
  end.
Proof.
  intros Ho Hn Hp Hok Hpast Hv.
  destruct (try_resolve _ _ _ _) as [o [g' l']] eqn:E.
  destruct (resolved_session s _ l a p o g' l' Hp Hok Hpast Hv E)
    as [(->&->&->&_&Hs)|(->&Hok'&Hpast'&Hp'&Hun)]; unfold step_sound; simpl.
  - split; [done|]. by rewrite Ho.
  - rewrite Ho. split; [by apply session_ok_closed|].
    apply (unanimous_mono _ _ (dom (noop_concessions l))); [|by apply Hun].
    unfold conceded. rewrite Hn. set_solver.
Qed.

Lemma request_step s player target r s' :
  session_ok s → session_step (LRequest player target) s = Some (r, s') →
  step_sound (LRequest player target) s r s'.
Proof.
  intros [Hnow Hpast Hok _ _]. cbn. unfold request.
  destruct (waiting_for (game s)); [done..|].
  destruct (pending (ledger s)) eqn:Hp; [done|].
  destruct (is_human_seat (game s) player ai_seats) eqn:Hhuman; [|done]. simpl negb. cbv iota.
  destruct (request_target _ _ _) as [|[[ts ta] len]] eqn:Ht; [done|].
  destruct (request_target_spec _ _ _ _ _ _ _ _ Hok Hpast Ht) as (Hg&Hle&Hin&Hrec).
  set (p := {| requested_by := player; target_state := ts; target_at := ta;
               approvals := {[ player ]}; history_truncate_len := len |}).
  set (l := set_pending (Some p) (ledger s)).
  pose proof (vote_step (LRequest player target) s l ∅ p) as Hstep.
  destruct (try_resolve _ _ _ _) as [o [g' l']]. intros [= <- <-].
  apply Hstep; try done.
  - by apply (ledger_ok_ext _ (ledger s)).
  - destruct Hpast as (?&?&?). split_and!; [done..|]. by intros ? [= <-].
  - apply andb_true_iff in Hhuman as [H1%bool_decide_eq_true H2%negb_true_iff].
    apply bool_decide_eq_false in H2. split; [done..| |set_solver]. by apply Hrec.
Qed.
Lemma respond_step s player approve r s' :
  session_ok s → session_step (LRespond player approve) s = Some (r, s') →
  step_sound (LRespond player approve) s r s'.
Proof.
  intros [Hnow Hpast Hok Hvote _]. cbn. unfold respond.
  destruct (pending (ledger s)) as [p|] eqn:Hp; [|done].
  destruct (is_human_seat _ _ _); [|done]. destruct (bool_decide _); [|done].
  simpl negb. cbv iota. specialize (Hvote p eq_refl).
  destruct approve; cbv iota beta; simpl negb; cbv iota.
  - set (p' := {| requested_by := requested_by p; target_state := target_state p;
                  target_at := target_at p; approvals := {[ player ]} ∪ approvals p;
                  history_truncate_len := history_truncate_len p |}).
    set (l := set_pending (Some p') (ledger s)).
    pose proof (vote_step (LRespond player true) s l ({[ player ]} ∪ answers s) p') as Hstep.
    destruct (try_resolve _ _ _ _) as [o [g' l']]. intros [= <- <-].
    apply Hstep; try done.
    + by apply (ledger_ok_ext _ (ledger s)).
    + destruct Hpast as (?&?&Hpp). split_and!; [done..|]. intros ? [= <-]. exact (Hpp p Hp).
    + destruct Hvote as [???? Ha]. split; [assumption..|]. cbn. rewrite Ha. set_solver.
  - intros [= <- <-]. split; [|done]. apply session_ok_closed; [done| |].
    + by apply (ledger_ok_ext _ (ledger s)).
    + destruct Hpast as (?&?&_). by split_and!.
Qed.
(** The takeback point of an action. *)
Definition with_point (s : Session) (actor : N) (action : GameAction) (d : ActionDisposition)
    (l : TakebackLedger) : TakebackLedger :=
  match snapshot (capture (game s) (Some action)) with
  | Some snap => if negb (is_actor_scoped_preference action) && is_applied d
                 then record_point actor snap l else l
  | None => l
  end.
Lemma with_point_ok s actor action d :
  session_ok s →
  let l := with_point s actor action d (ledger s) in
  ledger_ok (game s) l ∧ from_past (past s) l ∧ pending l = pending (ledger s) ∧
  noop_concessions l = noop_concessions (ledger s) ∧
  (∀ p, pending l = Some p → vote_sound (game s) l (answers s) p).
Proof.
  intros [Hnow Hpast Hok Hvote _]. cbv zeta. unfold with_point.
  destruct (snapshot _) as [snap|] eqn:Hsnap; [|done]. destruct (_ && _); [|done].
  assert (snap = game s) as ->.
  { unfold capture in Hsnap. cbn in Hsnap. by destruct (negb _); simplify_eq/=. }
  split; [by apply record_point_ok|]. unfold record_point.
  destruct (pending (ledger s)) as [p|] eqn:Hp; cbn; rewrite ?Hp.
  - split_and!; try done; apply Hpast.
  - split_and!; try done. destruct Hpast as (Hh&Hr&_). split_and!; [|done|cbn; congruence].
    cbn [history set_history]. by intros q [Hq| ->]%elem_of_ring_push; [apply Hh|].
Qed.

Lemma quiet_step lb s es post l a r :
  observed lb s = post → r ≠ Some Approved → pending l = None →
  ledger_ok (game s) l → from_past (past s) l → transition_ok (game s) es post →
  step_sound lb s r (enter post (observe_transition es post l) a s).
Proof.
  intros Ho Hr Hp Hok Hpast Htr. split.
  - apply observed_session; try done. congruence.
  - by destruct r as [[]|]; rewrite ?Ho.
Qed.
Lemma set_pending_ok g seen l :
  ledger_ok g l → from_past seen l →
  ledger_ok g (set_pending None l) ∧ from_past seen (set_pending None l).
Proof.
  intros Hok (?&?&_). split; [by apply (ledger_ok_ext _ l)|by split_and!].
Qed.
Lemma retire_past seen l : from_past seen l → from_past seen (retire l).
Proof.
  intros (_&_&Hp). split_and!; cbn; [by intros p ?%elem_of_nil| |done].
  intros t p (?&_&->)%fmap_Some. by intros ?%elem_of_nil.
Qed.

(** A concession after which nobody has left. *)
Lemma concession_step s actor action result post l r s' :
  let lb := LAct actor action result post in
  ledger_ok (game s) l → from_past (past s) l →
  (∀ p, pending l = Some p → vote_sound (game s) l (answers s) p) →
  dom (noop_concessions l) ⊆ conceded lb s →
  transition_ok (game s) (events result) post → game_number post = game_number (game s) →
  (∃ resolution installed g l',
    match pending l with
    | Some p =>
        if requested_by p =? actor then (Some Cancelled, false, (post, set_pending None l))
        else match try_resolve rekeyed post ai_seats l with
             | (Some (Resolved r), sl) => (Some r, true, sl)
             | (_, sl) => (None, false, sl)
             end
    | None => (None, false, (post, l))
    end = (resolution, installed, (g, l')) ∧ r = resolution ∧
    s' = enter g (if (installed : bool) then set_clock (u64_add (clock l') 1) l'
                  else observe_transition (events result) g l') (answers s) s) →
  step_sound lb s r s'.
Proof.
  intros lb Hok Hpast Hvote Hdom Htr Hg (resolution&installed&g&l'&E&->&->).
  destruct (pending l) as [p|] eqn:Hp; [|simplify_eq; by apply quiet_step].
  destruct (requested_by p =? actor).
  { simplify_eq. destruct (set_pending_ok _ _ _ Hok Hpast). by apply quiet_step. }
  pose proof Htr as [Hseats Hturn]. destruct (Hturn Hg) as [Hle _].
  assert (same_game (game s) post) as Hsame by done.
  pose proof (vote_moves _ post l l _ p (Hvote p eq_refl) Hsame Hle eq_refl) as Hsound.
  pose proof (ledger_ok_move _ post l Hok Hsame Hle) as Hok'.
  destruct (try_resolve _ _ _ _) as [o [g1 l1]] eqn:Hres.
  destruct (resolved_session s post l (answers s) p o g1 l1 Hp Hok' Hpast Hsound Hres)
    as [(->&->&->&Hopen&_)|(->&Hok1&Hpast1&Hp1&Hun)]; simplify_eq/=; split; try done.
  - apply observed_session; try done. rewrite Hp. intros ? [= <-]. by split_and!; [|apply Hvote|].
  - apply session_ok_closed; [done| |done]. by apply (ledger_ok_ext _ l').
  - by apply (unanimous_mono _ _ (dom (noop_concessions l))); [|apply Hun].
Qed.
Lemma act_step s actor action result post r s' :
  let lb := LAct actor action result post in
  session_ok s → label_ok s lb → session_step lb s = Some (r, s') → step_sound lb s r s'.
Proof.
  intros lb Hs [Htr Hsame].
  destruct (with_point_ok s actor action (disposition result) Hs) as (Hok&Hpast&Hp&Hn&Hvote).
  cbn [session_step lb]. destruct (admit_action action (ledger s)) eqn:Hadm; [|done].
  simpl negb. cbv iota. unfold record_human_action.
  change (match snapshot _ with Some _ => _ | None => _ end)
    with (with_point s actor action (disposition result) (ledger s)).
  set (l := with_point _ _ _ _ _) in *. destruct (is_concession action) eqn:Hc.
  - destruct (existsb _ _) eqn:Hdep.
    { intros [= <- <-]. destruct (set_pending_ok _ _ _ Hok Hpast) as [H1 H2].
      apply quiet_step; try done; [by destruct (pending l)|by apply retire_ok|by apply retire_past]. }
    set (l1 := match noop_concessions l !! actor with None => _ | Some _ => l end).
    assert (history l1 = history l ∧ turn_history l1 = turn_history l ∧ pending l1 = pending l ∧
      ledger_game_number l1 = ledger_game_number l ∧
      dom (noop_concessions l1) ⊆ dom (noop_concessions l) ∪ {[ actor ]}) as (H1&H2&H3&H4&H5).
    { unfold l1. destruct (_ !! actor); cbn; split_and!; try done; set_solver. }
    intros E. apply (concession_step s actor action result post l1).
    + by apply (ledger_ok_ext _ l).
    + unfold from_past. by rewrite H1, H2, H3.
    + rewrite H3. intros p Hpend. destruct (Hvote p Hpend). split; try done.
      unfold target_recorded. by rewrite H1.
    + unfold conceded. cbn. by rewrite <-Hn.
    + done.
    + apply Hsame; [done|]. intros x Hx.
      pose proof (existsb_false_elem _ _ _ Hdep Hx) as He. cbn in He.
      by apply negb_false_iff, bool_decide_eq_true in He.
    + destruct (match pending l1 with Some _ => _ | None => _ end)
        as [[resolution installed] [g l']].
      exists resolution, installed, g, l'. by simplify_eq.
  - intros [= <- <-]. apply quiet_step; try done. rewrite Hp. unfold admit_action in Hadm.
    rewrite Hc in Hadm. by apply refused_while_pending.
Qed.

Lemma session_step_sound lb s r s' :
  session_ok s → label_ok s lb → session_step lb s = Some (r, s') → step_sound lb s r s'.
Proof.
  intros Hs Hl. destruct lb as [actor action result post|es post|post|player target|player approve|player].
  - by apply act_step.
  - destruct Hs as [_ Hpast Hok _ _]. cbn.
    destruct (refuse_while_pending (ledger s)) eqn:Hp; [|done]. intros [= <- <-].
    apply quiet_step; try done. by apply refused_while_pending.
  - destruct Hs as [_ Hpast Hok _ _], Hl as [[Hseats Hturn] Hg]. cbn. intros [= <- <-].
    destruct (set_pending_ok _ _ _ Hok Hpast) as [H1 H2].
    assert (ledger_ok post (retire (set_pending None (ledger s)))) as Hok'.
    { apply (ledger_ok_move (game s)); [by apply retire_ok|done|by apply Hturn]. }
    split; [by apply session_ok_closed; [|done|apply retire_past]|].
    by destruct (pending (ledger s)).
  - by apply request_step.
  - by apply respond_step.
  - destruct Hs as [_ Hpast Hok _ _]. cbn. unfold cancel.
    destruct (pending (ledger s)) as [p|] eqn:Hp; [|done]. destruct (_ =? _); [|done].
    intros [= <- <-]. destruct (set_pending_ok _ _ _ Hok Hpast).
    split; [by apply session_ok_closed|done].
Qed.
Lemma new_ledger_ok g (rewind : bool) :
  ledger_ok g (if rewind then with_turn_rewind (game_number g) else ledger_new (game_number g)).
Proof.
  destruct rewind; split; unfold turn_history_len; cbn; try lia; try done;
    try (by intros p ?%elem_of_nil); try (by intros t p [= <-] ?%elem_of_nil);
    try constructor; intros t [= <-]; constructor.
Qed.
Lemma reachable_ok g0 rewind s : reachable g0 rewind s → session_ok s.
Proof.
  induction 1 as [|lb r s s' _ IH Hl Hst].
  - split; cbn; [left| | |by destruct rewind..].
    + unfold from_past. destruct rewind; cbn; split_and!; try done;
        try (by intros p ?%elem_of_nil). by intros t p [= <-] ?%elem_of_nil.
    + apply new_ledger_ok.
  - by apply (session_step_sound lb s r s').
Qed.
(** ** Theorems *)
(** C26. At every point of a session the ledger is bounded (twelve actions, five turns), the
    turns on offer are in order and distinct, each snapshot is a state of the game being
    played that the game was really in, and an open vote is genuine: a human seat asked, its
    target lies in this game's past, its approvals are the requester and the seats that said
    yes, and it waits for a voter who has not. *)
Theorem takeback_session_ok g0 rewind s :
  reachable g0 rewind s →
  (length (history (ledger s)) ≤ MAX_TAKEBACK_HISTORY)%nat ∧
  (turn_history_len (ledger s) ≤ MAX_TURN_REWIND_HISTORY)%nat ∧
  StronglySorted N.lt (ro_turn_number <$> rewind_options (ledger s)) ∧
  (∀ p, p ∈ history (ledger s) → same_game (game s) (tp_state p) ∧ tp_state p ∈ past s) ∧
  (∀ t p, turn_history (ledger s) = Some t → p ∈ t →
     same_game (game s) (tn_state p) ∧ tn_state p ∈ past s) ∧
  (∀ p, pending (ledger s) = Some p →
     vote_sound (game s) (ledger s) (answers s) p ∧ target_state p ∈ past s ∧
     ∃ x, x ∈ voters p (game s) ai_seats (ledger s) ∧ x ∉ approvals p).
Proof.
  intros [_ (Hh&Hr&Hp) Hok Hvote Hopen]%reachable_ok. split_and!.
  - apply Hok.
  - apply Hok.
  - unfold rewind_options. pose proof (lo_ring_sorted _ _ Hok) as Hsorted.
    destruct (turn_history (ledger s)) as [ring|]; [|constructor].
    specialize (Hsorted ring eq_refl). by rewrite <-list_fmap_compose.
  - intros p Hin. split; [by apply (lo_history_game _ _ Hok)|by apply Hh].
  - intros t p Ht Hin. split; [by apply (lo_ring_game _ _ Hok t)|by apply (Hr t)].
  - intros p Hpend. split_and!; [by apply Hvote|by apply Hp|]. specialize (Hopen p Hpend).
    destruct (decide (set_Exists (λ x, x ∉ approvals p) (voters p (game s) ai_seats (ledger s))))
      as [(x&?&?)|Hno]; [by exists x|]. destruct Hopen. intros x Hx.
    apply dec_stable. intros ?. apply Hno. by exists x.
Qed.

(** C21. The game goes back only when nobody objects: when a step rolls it back, what is
    installed is a state this same game was in, under a fresh revision; every other human
    still in the game has said yes to this very request; with none left, every other human
    who was in the game at the target has, but for seats whose concession removed nobody.
    Any other step leaves the game as the engine made it. *)
Theorem rollback_is_unanimous g0 rewind s lb r s' :
  reachable g0 rewind s → label_ok s lb → session_step lb s = Some (r, s') →
  match r with
  | Some Approved => unanimous s (observed lb s) (conceded lb s) s'
  | _ => game s' = observed lb s
  end.
Proof. intros Hr%reachable_ok Hl Hst. by apply (session_step_sound lb s r s' Hr Hl Hst). Qed.
End session.

(** ** A session of two humans and an AI *)
Module TakebackSample.
Definition table (turn : N) (rev : N) : @GameState unit :=
  {| seats := [0; 1; 2]; eliminated_players := []; turn_number := turn; active_player := 0;
     game_number := 1; waiting_for := Prompt; state_revision := rev; rest := () |}.
Definition rekeyed (s : @GameState unit) : WaitingFor * unit := (waiting_for s, rest s).
Definition played : Label :=
  LAct 0 OtherAction {| events := [TurnStarted 2]; disposition := Applied |} (table 2 8).
Definition start : @Session unit :=
  {| game := table 1 7; answers := ∅; past := [table 1 7]; ledger := with_turn_rewind 1 |}.
Definition run (lbs : list Label) : option (list (option TakebackResolution) * @Session unit) :=
  foldl (λ acc lb, '(rs, s) ← acc; '(r, s') ← session_step rekeyed [2] lb s;
                   Some (rs ++ [r], s')) (Some ([], start)) lbs.
Definition asked : @Session unit :=
  default start (snd <$> run [played; LRequest 0 LastAction]).
Example approved_run :
  run [played; LRequest 0 LastAction; LRespond 1 true]
  = Some ([None; None; Some Approved],
          {| game := table 1 9; answers := {[1]};
             past := [table 1 9; table 2 8; table 2 8; table 1 7];
             ledger := {| history := []; turn_history := Some []; pending := None;
                          ledger_game_number := 1; clock := 1; noop_concessions := ∅ |} |}).
Proof. vm_compute. reflexivity. Qed.
Lemma played_ok : label_ok start played.
Proof. repeat split; vm_compute; intros; congruence. Qed.
Lemma asked_reachable : reachable rekeyed [2] (table 1 7) true asked.
Proof.
  assert (reachable rekeyed [2] (table 1 7) true start) as H0 by constructor.
  destruct (session_step rekeyed [2] played start) as [[r1 s1]|] eqn:E1; [|done].
  pose proof (reach_step _ _ _ _ _ _ _ _ H0 played_ok E1) as H1.
  destruct (session_step rekeyed [2] (LRequest 0 LastAction) s1) as [[r2 s2]|] eqn:E2;
    [|by revert E2; injection E1 as <- <-].
  pose proof (reach_step _ _ _ _ (LRequest 0 LastAction) _ _ _ H1 I E2) as H2.
  assert (asked = s2) as ->; [|done]. unfold asked, run. cbn [foldl mbind option_bind].
  by rewrite E1; cbn [mbind option_bind]; rewrite E2.
Qed.
End TakebackSample.

Lemma takeback_session_ok_witness :
  pending (ledger TakebackSample.asked) ≠ None ∧
  ∀ p, pending (ledger TakebackSample.asked) = Some p →
    ∃ x, x ∈ voters p (game TakebackSample.asked) [2] (ledger TakebackSample.asked) ∧
         x ∉ approvals p.
Proof.
  split; [by vm_compute|]. intros p Hp.
  pose proof (takeback_session_ok TakebackSample.rekeyed [2] _ _ _ TakebackSample.asked_reachable)
    as (_&_&_&_&_&Hv). by destruct (Hv p Hp) as (_&_&?).
Defined.
Lemma rollback_is_unanimous_witness :
  ∃ s', session_step TakebackSample.rekeyed [2] (LRespond 1 true) TakebackSample.asked
        = Some (Some Approved, s') ∧
    unanimous TakebackSample.rekeyed [2] TakebackSample.asked (game TakebackSample.asked)
      (conceded (LRespond 1 true) TakebackSample.asked) s'.
Proof.
  eexists. split; [vm_compute; reflexivity|].
  apply (rollback_is_unanimous TakebackSample.rekeyed [2] _ _ _ (LRespond 1 true) (Some Approved) _
           TakebackSample.asked_reachable I).
  vm_compute. reflexivity.
Defined.
