(* ===== verification/ManaShards.v ===== *)
(** * What each symbol of a mana cost asks for

    The payment requirement of a symbol, its promotion under a permission to pay life, and
    the announcement of Phyrexian symbols, of [engine/src/game/mana_payment.rs].  No pool is
    read here. *)
From S2P Require Import Prelude.
From S2P Require Import ManaSymbols.
From S2P Require Import ManaCosts.
Local Open Scope N_scope.

(** ** Requirements *)
Inductive ShardRequirement :=
  | Single (m : ManaType.t)
  | Hybrid (a b : ManaType.t)
  | Phyrexian (m : ManaType.t)
  | TwoGenericHybrid (m : ManaType.t)
  | Snow
  | TwoOrMoreColorSource
  | X
  | ColorlessHybrid (m : ManaType.t)
  | HybridPhyrexian (a b : ManaType.t)
  | TwoGenericHybridPhyrexian (m : ManaType.t).

Definition shard_to_mana_type (shard : ManaCostShard.t) : ShardRequirement :=
  match shard with
  | ManaCostShard.White => Single ManaType.White
  | ManaCostShard.Blue => Single ManaType.Blue
  | ManaCostShard.Black => Single ManaType.Black
  | ManaCostShard.Red => Single ManaType.Red
  | ManaCostShard.Green => Single ManaType.Green
  | ManaCostShard.Colorless => Single ManaType.Colorless
  | ManaCostShard.Snow => Snow
  | ManaCostShard.TwoOrMoreColorSource => TwoOrMoreColorSource
  | ManaCostShard.X => X
  | ManaCostShard.WhiteBlue => Hybrid ManaType.White ManaType.Blue
  | ManaCostShard.WhiteBlack => Hybrid ManaType.White ManaType.Black
  | ManaCostShard.BlueBlack => Hybrid ManaType.Blue ManaType.Black
  | ManaCostShard.BlueRed => Hybrid ManaType.Blue ManaType.Red
  | ManaCostShard.BlackRed => Hybrid ManaType.Black ManaType.Red
  | ManaCostShard.BlackGreen => Hybrid ManaType.Black ManaType.Green
  | ManaCostShard.RedWhite => Hybrid ManaType.Red ManaType.White
  | ManaCostShard.RedGreen => Hybrid ManaType.Red ManaType.Green
  | ManaCostShard.GreenWhite => Hybrid ManaType.Green ManaType.White
  | ManaCostShard.GreenBlue => Hybrid ManaType.Green ManaType.Blue
  | ManaCostShard.TwoWhite => TwoGenericHybrid ManaType.White
  | ManaCostShard.TwoBlue => TwoGenericHybrid ManaType.Blue
  | ManaCostShard.TwoBlack => TwoGenericHybrid ManaType.Black
  | ManaCostShard.TwoRed => TwoGenericHybrid ManaType.Red
  | ManaCostShard.TwoGreen => TwoGenericHybrid ManaType.Green
  | ManaCostShard.PhyrexianWhite => Phyrexian ManaType.White
  | ManaCostShard.PhyrexianBlue => Phyrexian ManaType.Blue
  | ManaCostShard.PhyrexianBlack => Phyrexian ManaType.Black
  | ManaCostShard.PhyrexianRed => Phyrexian ManaType.Red
  | ManaCostShard.PhyrexianGreen => Phyrexian ManaType.Green
  | ManaCostShard.PhyrexianWhiteBlue => HybridPhyrexian ManaType.White ManaType.Blue
  | ManaCostShard.PhyrexianWhiteBlack => HybridPhyrexian ManaType.White ManaType.Black
  | ManaCostShard.PhyrexianBlueBlack => HybridPhyrexian ManaType.Blue ManaType.Black
  | ManaCostShard.PhyrexianBlueRed => HybridPhyrexian ManaType.Blue ManaType.Red
  | ManaCostShard.PhyrexianBlackRed => HybridPhyrexian ManaType.Black ManaType.Red
  | ManaCostShard.PhyrexianBlackGreen => HybridPhyrexian ManaType.Black ManaType.Green
  | ManaCostShard.PhyrexianRedWhite => HybridPhyrexian ManaType.Red ManaType.White
  | ManaCostShard.PhyrexianRedGreen => HybridPhyrexian ManaType.Red ManaType.Green
  | ManaCostShard.PhyrexianGreenWhite => HybridPhyrexian ManaType.Green ManaType.White
  | ManaCostShard.PhyrexianGreenBlue => HybridPhyrexian ManaType.Green ManaType.Blue
  | ManaCostShard.ColorlessWhite => ColorlessHybrid ManaType.White
  | ManaCostShard.ColorlessBlue => ColorlessHybrid ManaType.Blue
  | ManaCostShard.ColorlessBlack => ColorlessHybrid ManaType.Black
  | ManaCostShard.ColorlessRed => ColorlessHybrid ManaType.Red
  | ManaCostShard.ColorlessGreen => ColorlessHybrid ManaType.Green
  end.

Definition mana_type_to_color (m : ManaType.t) : option ManaColor.t :=
  match m with
  | ManaType.White => Some ManaColor.White
  | ManaType.Blue => Some ManaColor.Blue
  | ManaType.Black => Some ManaColor.Black
  | ManaType.Red => Some ManaColor.Red
  | ManaType.Green => Some ManaColor.Green
  | ManaType.Colorless => None
  end.
Definition mana_type_to_color_fallback (m : ManaType.t) : ManaColor.t :=
  match m with
  | ManaType.White => ManaColor.White
  | ManaType.Blue => ManaColor.Blue
  | ManaType.Black => ManaColor.Black
  | ManaType.Red => ManaColor.Red
  | ManaType.Green => ManaColor.Green
  | ManaType.Colorless => ManaColor.White
  end.

(** The player may pay life for mana of this type. *)
Definition life_pays (life_colors : LifePaymentColors.t) (m : ManaType.t) : bool :=
  match mana_type_to_color m with
  | Some c => LifePaymentColors.contains life_colors c
  | None => false
  end.
Definition effective_shard_requirement (req : ShardRequirement)
    (life_colors : LifePaymentColors.t) : ShardRequirement :=
  if LifePaymentColors.is_empty life_colors then req else
  match req with
  | Single m => if life_pays life_colors m then Phyrexian m else req
  | Hybrid a b =>
      if life_pays life_colors a || life_pays life_colors b then HybridPhyrexian a b else req
  | TwoGenericHybrid m => if life_pays life_colors m then TwoGenericHybridPhyrexian m else req
  | Phyrexian _ | HybridPhyrexian _ _ | ColorlessHybrid _ | Snow | X | TwoOrMoreColorSource
  | TwoGenericHybridPhyrexian _ => req
  end.
Definition requirement_under (life_colors : LifePaymentColors.t) (shard : ManaCostShard.t)
    : ShardRequirement := effective_shard_requirement (shard_to_mana_type shard) life_colors.

Definition is_phyrexian_requirement (req : ShardRequirement) : bool :=
  match req with
  | Phyrexian _ | HybridPhyrexian _ _ | TwoGenericHybridPhyrexian _ => true
  | _ => false
  end.
Definition is_native_phyrexian_shard (shard : ManaCostShard.t) : bool :=
  match shard_to_mana_type shard with
  | Phyrexian _ | HybridPhyrexian _ _ => true
  | _ => false
  end.
Definition cost_has_life_payable_shard (cost : ManaCost.t) (life_colors : LifePaymentColors.t)
    : bool :=
  match cost with
  | ManaCost.Cost shards _ =>
      existsb (λ shard, is_phyrexian_requirement (requirement_under life_colors shard)) shards
  | _ => false
  end.

Inductive PaymentClassification := Unambiguous | NeedsHybridChoice | NeedsPhyrexianChoice.
Fixpoint classify_shards (shards : list ManaCostShard.t) : PaymentClassification :=
  match shards with
  | [] => Unambiguous
  | shard :: shards =>
      match shard_to_mana_type shard with
      | Hybrid _ _ | TwoGenericHybrid _ | ColorlessHybrid _ => NeedsHybridChoice
      | Phyrexian _ | HybridPhyrexian _ _ | TwoGenericHybridPhyrexian _ => NeedsPhyrexianChoice
      | Single _ | Snow | X | TwoOrMoreColorSource => classify_shards shards
      end
  end.
Definition classify_payment (cost : ManaCost.t) : PaymentClassification :=
  match cost with ManaCost.Cost shards _ => classify_shards shards | _ => Unambiguous end.

Definition shard_single_color (shard : ManaCostShard.t) : option ManaColor.t :=
  match shard with
  | ManaCostShard.White => Some ManaColor.White
  | ManaCostShard.Blue => Some ManaColor.Blue
  | ManaCostShard.Black => Some ManaColor.Black
  | ManaCostShard.Red => Some ManaColor.Red
  | ManaCostShard.Green => Some ManaColor.Green
  | _ => None
  end.
Definition land_subtype_to_mana_type (subtype : string) : option ManaType.t :=
  if (subtype =? "Plains")%string then Some ManaType.White
  else if (subtype =? "Island")%string then Some ManaType.Blue
  else if (subtype =? "Swamp")%string then Some ManaType.Black
  else if (subtype =? "Mountain")%string then Some ManaType.Red
  else if (subtype =? "Forest")%string then Some ManaType.Green
  else None.

(** ** Demand: the coloured symbols still to be paid, in the order WUBRG

    [[u32; 5]]: a list of five counters. *)
Definition ColorDemand := list N.
Definition no_demand : ColorDemand := [0; 0; 0; 0; 0].
Definition mana_type_to_demand_index (m : ManaType.t) : option nat :=
  match m with
  | ManaType.White => Some 0%nat
  | ManaType.Blue => Some 1%nat
  | ManaType.Black => Some 2%nat
  | ManaType.Red => Some 3%nat
  | ManaType.Green => Some 4%nat
  | ManaType.Colorless => None
  end.
Definition demand_at (demand : ColorDemand) (i : nat) : N := default 0 (demand !! i).
Definition demand_one (m : ManaType.t) (demand : ColorDemand) : ColorDemand :=
  match mana_type_to_demand_index m with
  | Some i => alter (λ n, u32_add n 1) i demand
  | None => demand
  end.
Definition accumulate_shard_demand (demand : ColorDemand) (shard : ManaCostShard.t)
    : ColorDemand :=
  match shard_to_mana_type shard with
  | Single m => demand_one m demand
  | Hybrid a b | HybridPhyrexian a b => demand_one b (demand_one a demand)
  | TwoGenericHybrid m | Phyrexian m | ColorlessHybrid m | TwoGenericHybridPhyrexian m =>
      demand_one m demand
  | Snow | X | TwoOrMoreColorSource => demand
  end.
Definition outer_cost_color_demand (cost : ManaCost.t) : ColorDemand :=
  match cost with
  | ManaCost.Cost shards _ => fold_left accumulate_shard_demand shards no_demand
  | _ => no_demand
  end.

(** ** The order in which symbols are paid *)
Definition phyrexian_at (shards : list ManaCostShard.t) (life_colors : LifePaymentColors.t)
    (i : nat) : bool :=
  match shards !! i with
  | Some shard => is_phyrexian_requirement (requirement_under life_colors shard)
  | None => false
  end.
(** The indices run below the length, so [shards[i]] never fails. *)
Definition phyrexian_deferred_order (shards : list ManaCostShard.t)
    (life_colors : LifePaymentColors.t) : list nat :=
  List.filter (λ i, negb (phyrexian_at shards life_colors i)) (seq 0 (length shards))
  ++ List.filter (phyrexian_at shards life_colors) (seq 0 (length shards)).

(** ** Announcing Phyrexian symbols *)
Inductive ShardChoice := PayMana | PayLife.
#[export] Instance ShardChoice_eq_dec : EqDecision ShardChoice.
Proof. solve_decision. Defined.
Inductive ShardOptions := ManaOrLife | ManaOnly | LifeOnly.
Record PhyrexianShard := { ps_shard_index : nat; ps_color : ManaColor.t; ps_options : ShardOptions }.
Record ActivationShardChoice := {
  shard_index : nat;
  shard : ManaCostShard.t;
  choice : ShardChoice;
}.

(** What the filter over the symbols keeps, and the choices used up so far. *)
Fixpoint drop_life_paid (life_colors : LifePaymentColors.t) (choices : list ShardChoice)
    (choice_index : nat) (shards : list ManaCostShard.t) : list ManaCostShard.t :=
  match shards with
  | [] => []
  | shard :: shards =>
      if negb (is_phyrexian_requirement (requirement_under life_colors shard))
      then shard :: drop_life_paid life_colors choices choice_index shards
      else
        let keep := negb (bool_decide (choices !! choice_index = Some PayLife)) in
        let rest := drop_life_paid life_colors choices (S choice_index) shards in
        if keep then shard :: rest else rest
  end.
Definition mana_cost_for_phyrexian_choices (cost : ManaCost.t) (choices : list ShardChoice)
    (life_colors : LifePaymentColors.t) : ManaCost.t :=
  match cost with
  | ManaCost.Cost shards generic =>
      ManaCost.Cost (drop_life_paid life_colors choices 0 shards) generic
  | _ => cost
  end.

Definition native_phyrexian_shards (cost : ManaCost.t) : list (nat * ManaCostShard.t) :=
  match cost with
  | ManaCost.Cost shards _ =>
      List.filter (λ x, is_native_phyrexian_shard x.2) (imap pair shards)
  | _ => []
  end.
Definition all_life_announcement (cost : ManaCost.t) : list ActivationShardChoice :=
  (λ '(i, s), {| shard_index := i; shard := s; choice := PayLife |})
    <$> native_phyrexian_shards cost.

Definition phyrexian_mana_equivalent (s : ManaCostShard.t) : option ManaCostShard.t :=
  match s with
  | ManaCostShard.PhyrexianWhite => Some ManaCostShard.White
  | ManaCostShard.PhyrexianBlue => Some ManaCostShard.Blue
  | ManaCostShard.PhyrexianBlack => Some ManaCostShard.Black
  | ManaCostShard.PhyrexianRed => Some ManaCostShard.Red
  | ManaCostShard.PhyrexianGreen => Some ManaCostShard.Green
  | ManaCostShard.PhyrexianWhiteBlue => Some ManaCostShard.WhiteBlue
  | ManaCostShard.PhyrexianWhiteBlack => Some ManaCostShard.WhiteBlack
  | ManaCostShard.PhyrexianBlueBlack => Some ManaCostShard.BlueBlack
  | ManaCostShard.PhyrexianBlueRed => Some ManaCostShard.BlueRed
  | ManaCostShard.PhyrexianBlackRed => Some ManaCostShard.BlackRed
  | ManaCostShard.PhyrexianBlackGreen => Some ManaCostShard.BlackGreen
  | ManaCostShard.PhyrexianRedWhite => Some ManaCostShard.RedWhite
  | ManaCostShard.PhyrexianRedGreen => Some ManaCostShard.RedGreen
  | ManaCostShard.PhyrexianGreenWhite => Some ManaCostShard.GreenWhite
  | ManaCostShard.PhyrexianGreenBlue => Some ManaCostShard.GreenBlue
  | _ => None
  end.

Definition native_phyrexian_announcement_options (cost : ManaCost.t) : list PhyrexianShard :=
  match cost with
  | ManaCost.Cost shards _ =>
      omap (λ '(i, s),
        match shard_to_mana_type s with
        | Phyrexian color | HybridPhyrexian color _ =>
            Some {| ps_shard_index := i; ps_color := mana_type_to_color_fallback color;
                    ps_options := ManaOrLife |}
        | _ => None
        end) (imap pair shards)
  | _ => []
  end.

Definition native_announcement_matches (cost : ManaCost.t) (records : list ActivationShardChoice)
    : bool :=
  let domain := native_phyrexian_shards cost in
  (length domain =? length records)%nat
  && forallb (λ '(index, s),
       match List.filter (λ r, (shard_index r =? index)%nat) records with
       | [r] => bool_decide (shard r = s)
       | _ => false
       end) domain.

Definition native_phyrexian_payment_view (cost : ManaCost.t) (native : list ActivationShardChoice)
    : ManaCost.t :=
  match cost with
  | ManaCost.Cost shards generic =>
      ManaCost.Cost (imap (λ index s,
        match choice <$> find_first
                (λ r, (shard_index r =? index)%nat && bool_decide (shard r = s)) native with
        | Some PayMana => default s (phyrexian_mana_equivalent s)
        | Some PayLife | None => s
        end) shards) generic
  | _ => cost
  end.

Definition native_selected_mana (cost : ManaCost.t) (native : list ActivationShardChoice)
    : ManaCost.t :=
  match native_phyrexian_payment_view cost native with
  | ManaCost.Cost shards generic =>
      ManaCost.Cost (snd <$> List.filter (λ x : nat * ManaCostShard.t,
        negb (existsb (λ r, (shard_index r =? x.1)%nat && bool_decide (choice r = PayLife)) native))
        (imap pair shards)) generic
  | view => view
  end.

(** [shards[index]] of [view] fails when the view is shorter than the locked cost. *)
Definition phyrexian_shaped (shards : list ManaCostShard.t) (life_colors : LifePaymentColors.t)
    (index : nat) : outcome unit bool :=
  s ← or_panic (shards !! index); mret (is_phyrexian_requirement (requirement_under life_colors s)).
Definition phyrexian_choice_vector (raw view : ManaCost.t) (life_colors : LifePaymentColors.t)
    (native selected : list ActivationShardChoice) : outcome unit (option (list ShardChoice)) :=
  match raw, view with
  | ManaCost.Cost raw_shards _, ManaCost.Cost shards _ =>
      let names_locked_symbol r := bool_decide (raw_shards !! shard_index r = Some (shard r)) in
      if negb (forallb names_locked_symbol native) || negb (forallb names_locked_symbol selected)
      then mret None else
      lost ← try_fold (λ lost r,
        if (lost : bool) then Ok true
        else if bool_decide (choice r = PayLife)
             then negb <$> phyrexian_shaped shards life_colors (shard_index r)
             else Ok false) false selected;
      if (lost : bool) then mret None else
      mret (Some ((λ index,
        let announced := choice <$> find_first (λ r, (shard_index r =? index)%nat) native in
        if bool_decide (announced = Some PayLife) then PayLife
        else default PayMana
               (choice <$> find_first (λ r, (shard_index r =? index)%nat) selected))
        <$> List.filter (phyrexian_at shards life_colors) (seq 0 (length shards))))
  | _, _ => mret (Some [])
  end.
