(* ===== verification/ManaPayment.v ===== *)
(** * Paying a mana cost from a pool

    The payment solver of [engine/src/game/mana_payment.rs]: which unit each kind of symbol
    takes, the payment of a whole cost with its hybrid and Phyrexian decisions, the dry run
    that finds what the pool leaves to be paid, and the options of Phyrexian symbols.

    A function that takes [&mut ManaPool] is a program of the state monad over the pool; a
    function that clones the pool runs it on the clone. *)
From S2P Require Import Prelude.
From S2P Require Import ManaSymbols.
From S2P Require Import ManaCosts.
From S2P Require Import ManaRestrictions.
From S2P Require Import ManaUnits.
From S2P Require Import ManaPool.
From S2P Require Import ManaShards.
Local Open Scope N_scope.

Inductive ManaSpendPermission := AnyColor | AnyTypeOrColor.
Definition allows_payment_as (permission : ManaSpendPermission) (required : ManaType.t) : bool :=
  match permission with
  | AnyColor => negb (bool_decide (required = ManaType.Colorless))
  | AnyTypeOrColor => true
  end.
(** [mana_spend_permission.is_some_and(|p| p.allows_payment_as(m))] *)
Definition permits_as (permission : option ManaSpendPermission) (m : ManaType.t) : bool :=
  is_some_and permission (λ p, allows_payment_as p m).

Inductive PaymentError := InsufficientMana | InvalidCost.
Record LifePayment := { amount : Z }.
Record CostPermissionContext := {
  mana_spend_permission : option ManaSpendPermission;
  max_life : N;
  life_colors : LifePaymentColors.t;
}.
Definition no_permissions : CostPermissionContext :=
  {| mana_spend_permission := None; max_life := 0; life_colors := LifePaymentColors.EMPTY |}.

Section payment.
Context {KeywordKind ManaSpellGrant : Type}.
Context `{EqDecision KeywordKind, EqDecision ManaSpellGrant}.
Local Abbreviation ManaUnit := (ManaUnit KeywordKind ManaSpellGrant).
Local Abbreviation ManaShape := (ManaShape KeywordKind ManaSpellGrant).
Local Abbreviation ManaPool := (ManaPool KeywordKind ManaSpellGrant).
Local Abbreviation Ctx := (option (PaymentContext KeywordKind)).
Local Abbreviation payM := (stM ManaPool PaymentError).

(** ** Eligible units *)
Definition mana_unit_permits_payment_context (u : ManaShape) (ctx : PaymentContext KeywordKind)
    : bool :=
  if negb (permits_actual_mana_type ctx (sh_color u)) then false
  else if match ctx with
          | Spell meta => cant_spend_mana meta && negb (shape_is_convoke_payment u)
          | _ => false
          end then false
  else forallb (λ r, allows r ctx) (sh_restrictions u).
Definition ctx_permits_unit (ctx : PaymentContext KeywordKind) (u : ManaShape) : bool :=
  mana_unit_permits_payment_context u ctx.
Definition spell_permits_unit (spell : Ctx) (u : ManaShape) : bool :=
  match spell with Some ctx => ctx_permits_unit ctx u | None => true end.

(** ** Taking one unit *)
(** [a.or_else(|| b)] on queries of the pool. *)
Definition or_found {A} (a b : outcome unit (option A)) : outcome unit (option A) :=
  o ← a; match o with Some x => mret (Some x) | None => b end.
Definition pinned (p : ManaPool) (pins : list N) (pred : ManaShape → bool)
    : outcome unit (option (N * ManaShape)) := mret (first_pinned_where p pins pred).

Definition spend_selected (select : ManaPool → outcome unit (option (N * ManaShape)))
    : payM (option ManaUnit) := λ p,
  match select p with
  | Ok (Some (slot, _)) =>
      match swap_remove p slot with
      | Ok (u, p') => (Ok (Some u), p')
      | _ => (Panic, p)
      end
  | Ok None => (Ok None, p)
  | _ => (Panic, p)
  end.
(** [if let Some(unit) = a { return Some(unit); } b] *)
Definition or_spend (a b : payM (option ManaUnit)) : payM (option ManaUnit) :=
  o ← a; match o with Some u => mret (Some u) | None => b end.
(** [.ok_or(PaymentError::InsufficientMana)?] *)
Definition require (a : payM (option ManaUnit)) : payM ManaUnit :=
  o ← a; match o with Some u => mret u | None => throw InsufficientMana end.

Definition spend_color_prefer_non_z (c : ManaType.t) (pins : list N) (allows : ManaShape → bool)
    : payM (option ManaUnit) :=
  spend_selected (λ p,
    or_found (pinned p pins (λ u, bool_decide (sh_color u = c) && allows u))
      (or_found
        (first_where p (λ u, bool_decide (sh_color u = c) && negb (sh_two_or_more u) && allows u))
        (first_where p (λ u, bool_decide (sh_color u = c) && allows u)))).

Definition spend_eligible (c : ManaType.t) (spell : Ctx) (pins : list N)
    : payM (option ManaUnit) :=
  match spell with
  | Some ctx => spend_color_prefer_non_z c pins (λ u,
      if bool_decide (c = ManaType.Colorless) && shape_is_convoke_payment u then false
      else ctx_permits_unit ctx u)
  | None => spend_color_prefer_non_z c pins (λ u,
      negb (bool_decide (c = ManaType.Colorless) && shape_is_convoke_payment u))
  end.

Definition eligible_color_count (p : ManaPool) (c : ManaType.t) (spell : Ctx) : nat :=
  count_where p (λ m, bool_decide (sh_color m = c) && negb (shape_is_convoke_payment m)
                      && spell_permits_unit spell m).

Definition five_colors : list ManaType.t :=
  [ManaType.White; ManaType.Blue; ManaType.Black; ManaType.Red; ManaType.Green].

(** Spending one of [count] units would touch what the outer cost still needs. *)
Definition would_dip_into_reserve (demand : option ColorDemand) (c : ManaType.t) (count : nat)
    : bool :=
  match demand, mana_type_to_demand_index c with
  | Some d, Some i => N.of_nat count <=? demand_at d i
  | _, _ => false
  end.
(** [(dip, count) < (best_dip, best_count)] *)
Definition rank_lt (a b : bool * nat) : bool :=
  match a.1, b.1 with
  | false, true => true
  | true, false => false
  | _, _ => (a.2 <? b.2)%nat
  end.
Definition best_color (p : ManaPool) (colors : list ManaType.t) (spell : Ctx)
    (demand : option ColorDemand) : option ManaType.t :=
  fst <$> fold_left (λ best c,
    let count := eligible_color_count p c spell in
    if (0 <? count)%nat then
      let rank := (would_dip_into_reserve demand c count, count) in
      match best with
      | None => Some (c, rank)
      | Some (_, best_rank) => if rank_lt rank best_rank then Some (c, rank) else best
      end
    else best) colors None.

Definition scarcest_color (p : ManaPool) : option ManaType.t :=
  fst <$> fold_left (λ best c,
    let count := count_where p (λ u, bool_decide (sh_color u = c)
                                     && negb (shape_is_convoke_payment u)) in
    if (0 <? count)%nat then
      match best with
      | None => Some (c, count)
      | Some (_, best_count) => if (count <? best_count)%nat then Some (c, count) else best
      end
    else best) five_colors None.

Definition spend_any_unit (pins : list N) : payM (option ManaUnit) :=
  p ← get;
  if is_empty p then mret None else
  or_spend (spend_selected (λ p, pinned p pins (λ u, negb (shape_is_convoke_payment u))))
    (or_spend (spend_eligible ManaType.Colorless None pins)
       (p ← get;
        match scarcest_color p with
        | Some c => spend_color_prefer_non_z c pins (λ u, negb (shape_is_convoke_payment u))
        | None => mret None
        end)).

(** A pinned unit, of any colour, that may pay a generic symbol. *)
Definition spend_pinned_generic (spell : Ctx) (pins : list N) : payM (option ManaUnit) :=
  spend_selected (λ p,
    pinned p pins (λ u, negb (shape_is_convoke_payment u) && spell_permits_unit spell u)).

Definition spend_any_eligible (spell : Ctx) (demand : option ColorDemand) (pins : list N)
    : payM (option ManaUnit) :=
  or_spend (spend_pinned_generic spell pins)
    (match spell with
     | Some ctx =>
         or_spend (spend_eligible ManaType.Colorless (Some ctx) pins)
           (p ← get;
            match best_color p five_colors (Some ctx) demand with
            | Some c => spend_color_prefer_non_z c pins
                          (λ u, negb (shape_is_convoke_payment u) && ctx_permits_unit ctx u)
            | None => mret None
            end)
     | None => spend_any_unit pins
     end).

Definition spend_pinned_among (colors : list ManaType.t) (spell : Ctx) (pins : list N)
    : payM (option ManaUnit) :=
  spend_selected (λ p, pinned p pins (λ u,
    bool_decide (sh_color u ∈ colors) && negb (shape_is_convoke_payment u)
    && spell_permits_unit spell u)).

Definition spend_any_for_required_colors (required_colors : list ManaType.t) (spell : Ctx)
    (demand : option ColorDemand) (pins : list N) : payM (option ManaUnit) :=
  or_spend (spend_pinned_among required_colors spell pins)
    (foldr (λ c next, or_spend (spend_eligible c spell pins) next)
       (spend_any_eligible spell demand pins) required_colors).

Definition spend_restricted_x_generic_eligible (allowed_colors : list ManaType.t) (spell : Ctx)
    (any_color : bool) (demand : option ColorDemand) (pins : list N) : payM (option ManaUnit) :=
  if any_color then spend_any_for_required_colors allowed_colors spell demand pins else
  or_spend (spend_pinned_among allowed_colors spell pins)
    (match allowed_colors with
     | [c] => spend_eligible c spell pins
     | _ =>
         p ← get;
         match best_color p allowed_colors spell demand with
         | Some c => spend_eligible c spell pins
         | None => mret None
         end
     end).

Definition spend_generic_eligible (spell : Ctx) (demand : option ColorDemand) (pins : list N)
    : payM (option ManaUnit) :=
  or_spend (spend_pinned_generic spell pins)
    (or_spend
      (spend_selected (λ p, match spell with
         | Some ctx => first_where p (λ u, shape_is_convoke_payment u && ctx_permits_unit ctx u)
         | None => first_where p shape_is_convoke_payment
         end))
      (spend_any_eligible spell demand pins)).

Definition is_spendable (p : ManaPool) (spell : Ctx) (demand : ColorDemand) (u : ManaShape)
    : bool :=
  if shape_is_convoke_payment u then false
  else if match spell with Some ctx => negb (ctx_permits_unit ctx u) | None => false end
  then false
  else match mana_type_to_demand_index (sh_color u) with
       | None => true
       | Some i => (demand_at demand i =? 0)
                   || (demand_at demand i <? N.of_nat (eligible_color_count p (sh_color u) spell))
       end.
Definition spend_generic_non_demanded (spell : Ctx) (demand : option ColorDemand)
    (pins : list N) : payM (option ManaUnit) :=
  match demand with
  | None => spend_generic_eligible spell None pins
  | Some demand =>
      or_spend
        (spend_selected (λ p,
           first_where p (λ u, shape_is_convoke_payment u && spell_permits_unit spell u)))
        (spend_selected (λ p,
           or_found (first_where p (λ u, negb (sh_two_or_more u) && is_spendable p spell demand u))
             (first_where p (is_spendable p spell demand))))
  end.

Definition spend_snow_unit (spell : Ctx) (pins : list N) : payM (option ManaUnit) :=
  spend_selected (λ p,
    or_found (pinned p pins (λ u, is_snow u && spell_permits_unit spell u))
      (match spell with
       | Some ctx => first_where p (λ m, is_snow m && ctx_permits_unit ctx m)
       | None => first_where p is_snow
       end)).
Definition spend_two_or_more_color_source_eligible (spell : Ctx) (pins : list N)
    : payM (option ManaUnit) :=
  spend_selected (λ p,
    or_found (pinned p pins (λ u, sh_two_or_more u && spell_permits_unit spell u))
      (match spell with
       | Some ctx => first_where p (λ u, sh_two_or_more u && ctx_permits_unit ctx u)
       | None => first_where p sh_two_or_more
       end)).

(** ** Which half of a hybrid symbol *)
Definition canonical_hybrid_key (a b : ManaType.t) : ManaType.t * ManaType.t :=
  let a_idx := default 0%nat (mana_type_to_demand_index a) in
  let b_idx := default 0%nat (mana_type_to_demand_index b) in
  if (a_idx <=? b_idx)%nat then (a, b) else (b, a).

Definition auto_pay_hybrid (p : ManaPool) (a b : ManaType.t) (hand_demand : option ColorDemand)
    (remaining_hybrid_shards : nat) : ManaType.t :=
  let count_a := count_color p a in
  let count_b := count_color p b in
  let by_pool :=
    if (remaining_hybrid_shards <=? count_a)%nat && (remaining_hybrid_shards <=? count_b)%nat
    then if (count_b <=? count_a)%nat then a else b
    else if (remaining_hybrid_shards <=? count_a)%nat then a
    else if (remaining_hybrid_shards <=? count_b)%nat then b
    else if (count_b <=? count_a)%nat then a else b in
  if (count_a =? 0)%nat then b
  else if (count_b =? 0)%nat then a
  else match hand_demand with
       | Some demand =>
           let wanted m := match mana_type_to_demand_index m with
                       | Some i => demand_at demand i | None => 0 end in
           if negb (wanted a =? wanted b) then if wanted a <? wanted b then a else b else by_pool
       | None => by_pool
       end.

Definition count_remaining_hybrid_shards (shards : list ManaCostShard.t) (start : nat)
    (a b : ManaType.t) : nat :=
  length (List.filter (λ s,
    match shard_to_mana_type s with
    | Hybrid x y | HybridPhyrexian x y =>
        (bool_decide (x = a) && bool_decide (y = b))
        || (bool_decide (x = b) && bool_decide (y = a))
    | _ => false
    end) (drop start shards)).

Definition Preferred := list (ManaType.t * ManaType.t * ManaType.t).
Definition select_hybrid_payment_color (p : ManaPool) (a b : ManaType.t)
    (hand_demand : option ColorDemand) (remaining_hybrid_shards : nat) (preferred : Preferred)
    : ManaType.t * Preferred :=
  let key := canonical_hybrid_key a b in
  let same (x : ManaType.t * ManaType.t * ManaType.t) := bool_decide (x.1 = key) in
  match find_first (λ x, same x && (0 <? count_color p x.2)%nat) preferred with
  | Some x => (x.2, preferred)
  | None =>
      let c := auto_pay_hybrid p a b hand_demand remaining_hybrid_shards in
      (c, match position same preferred with
          | Some i => <[i := (key, c)]> preferred
          | None => preferred ++ [(key, c)]
          end)
  end.

(** ** Paying one symbol *)
Record Tally := {
  spent : list ManaUnit;
  life_payments : list LifePayment;
  choice_cursor : nat;
  preferred_hybrid_colors : Preferred;
}.
Definition tally_start : Tally :=
  {| spent := []; life_payments := []; choice_cursor := 0; preferred_hybrid_colors := [] |}.
Definition push_units (us : list ManaUnit) (t : Tally) : Tally :=
  {| spent := spent t ++ us; life_payments := life_payments t; choice_cursor := choice_cursor t;
     preferred_hybrid_colors := preferred_hybrid_colors t |}.
Definition push_life (t : Tally) : Tally :=
  {| spent := spent t; life_payments := life_payments t ++ [{| amount := 2 |}];
     choice_cursor := choice_cursor t; preferred_hybrid_colors := preferred_hybrid_colors t |}.
Definition set_preferred (pr : Preferred) (t : Tally) : Tally :=
  {| spent := spent t; life_payments := life_payments t; choice_cursor := choice_cursor t;
     preferred_hybrid_colors := pr |}.
(** The explicit choice of the next Phyrexian symbol, if the caller made one. *)
Definition next_choice (choices : option (list ShardChoice)) (t : Tally)
    : option ShardChoice * Tally :=
  let explicit_choice := choices ≫= λ cs, cs !! choice_cursor t in
  (explicit_choice,
   match explicit_choice with
   | Some _ => {| spent := spent t; life_payments := life_payments t;
                  choice_cursor := S (choice_cursor t);
                  preferred_hybrid_colors := preferred_hybrid_colors t |}
   | None => t
   end).

(** Two generic units, or none and the pool as it was. *)
Definition two_or_none (a : payM (option ManaUnit)) : payM (option (list ManaUnit)) := λ p,
  match (o ← a; match o with
                | Some u => o' ← a; mret ((λ u', [u; u']) <$> o')
                | None => mret None
                end) p with
  | (Ok (Some us), p') => (Ok (Some us), p')
  | (Ok None, _) => (Ok None, p)
  | (o, p') => (o, p')
  end.
Definition two_required (a : payM (option ManaUnit)) : payM (list ManaUnit) :=
  u ← require a; u' ← require a; mret [u; u'].

Section solver.
Variables (shards : list ManaCostShard.t) (generic : N).
Variables (hand_demand : option ColorDemand) (spell : Ctx).
Variables (permission : option ManaSpendPermission) (phyrexian_choices : option (list ShardChoice)).
Variables (lifes : LifePaymentColors.t) (pins : list N).

Definition any_color : bool := bool_decide (is_Some permission).

Definition spend_hybrid (idx : nat) (a b : ManaType.t) (t : Tally)
    : payM (option ManaUnit * Tally) :=
  if any_color then o ← spend_any_for_required_colors [a; b] spell None pins; mret (o, t)
  else
    p ← get;
    let '(c, pr) := select_hybrid_payment_color p a b hand_demand
                      (count_remaining_hybrid_shards shards idx a b) (preferred_hybrid_colors t) in
    o ← spend_eligible c spell pins; mret (o, set_preferred pr t).
Definition spend_one_color (c : ManaType.t) : payM (option ManaUnit) :=
  if any_color then spend_any_for_required_colors [c] spell None pins
  else spend_eligible c spell pins.
(** One coloured unit, else two generic ones. *)
Definition pay_two_generic_hybrid (c : ManaType.t) : payM (list ManaUnit) :=
  if any_color then u ← require (spend_any_for_required_colors [c] spell None pins); mret [u]
  else
    o ← spend_eligible c spell pins;
    match o with
    | Some u => mret [u]
    | None => two_required (spend_generic_eligible spell None pins)
    end.
Definition auto_two_generic_hybrid (c : ManaType.t) : payM (option (list ManaUnit)) :=
  if any_color then
    o ← spend_any_for_required_colors [c] spell None pins; mret ((λ u, [u]) <$> o)
  else
    o ← spend_eligible c spell pins;
    match o with
    | Some u => mret (Some [u])
    | None => two_or_none (spend_generic_eligible spell None pins)
    end.
Definition can_spare : payM bool :=
  p ← get; mret (generic <? N.of_nat (total p)).

Definition require_pair (a : payM (option ManaUnit * Tally)) : payM (ManaUnit * Tally) :=
  '(o, t) ← a; match o with Some u => mret (u, t) | None => throw InsufficientMana end.

Definition pay_requirement (idx : nat) (req : ShardRequirement) (t : Tally) : payM Tally :=
  match req with
  | Single m =>
      u ← require (if permits_as permission m
                   then spend_any_for_required_colors [m] spell None pins
                   else spend_eligible m spell pins);
      mret (push_units [u] t)
  | Hybrid a b => '(u, t) ← require_pair (spend_hybrid idx a b t); mret (push_units [u] t)
  | Phyrexian c =>
      let '(explicit_choice, t) := next_choice phyrexian_choices t in
      match explicit_choice with
      | Some PayLife => mret (push_life t)
      | Some PayMana => u ← require (spend_one_color c); mret (push_units [u] t)
      | None =>
          spare ← can_spare;
          o ← (if (spare : bool) then spend_one_color c else mret None);
          match o with Some u => mret (push_units [u] t) | None => mret (push_life t) end
      end
  | TwoGenericHybrid c => us ← pay_two_generic_hybrid c; mret (push_units us t)
  | Snow => u ← require (spend_snow_unit spell pins); mret (push_units [u] t)
  | TwoOrMoreColorSource =>
      u ← require (spend_two_or_more_color_source_eligible spell pins); mret (push_units [u] t)
  | X => mret t
  | ColorlessHybrid c =>
      u ← require (if any_color
                   then spend_any_for_required_colors [ManaType.Colorless; c] spell None pins
                   else or_spend (spend_eligible ManaType.Colorless spell pins)
                          (spend_eligible c spell pins));
      mret (push_units [u] t)
  | HybridPhyrexian a b =>
      let '(explicit_choice, t) := next_choice phyrexian_choices t in
      match explicit_choice with
      | Some PayLife => mret (push_life t)
      | Some PayMana => '(u, t) ← require_pair (spend_hybrid idx a b t); mret (push_units [u] t)
      | None =>
          spare ← can_spare;
          '(o, t) ← (if (spare : bool) then spend_hybrid idx a b t else mret (None, t));
          match o with Some u => mret (push_units [u] t) | None => mret (push_life t) end
      end
  | TwoGenericHybridPhyrexian c =>
      let '(explicit_choice, t) := next_choice phyrexian_choices t in
      match explicit_choice with
      | Some PayLife => mret (push_life t)
      | Some PayMana => us ← pay_two_generic_hybrid c; mret (push_units us t)
      | None =>
          spare ← can_spare;
          o ← (if (spare : bool) then auto_two_generic_hybrid c else mret None);
          match o with Some us => mret (push_units us t) | None => mret (push_life t) end
      end
  end.
Definition pay_shard (idx : nat) (t : Tally) : payM Tally :=
  match shards !! idx with
  | Some s => pay_requirement idx (requirement_under lifes s) t
  | None => panic
  end.
Fixpoint pay_shards (order : list nat) (t : Tally) : payM Tally :=
  match order with
  | [] => mret t
  | idx :: order => t ← pay_shard idx t; pay_shards order t
  end.

(** ** Paying the generic part *)
Definition restricted_x : list ManaType.t * N :=
  match spell with
  | Some (Spell meta) =>
      match spend_only_on_x_colors meta with
      | Some colors => (ManaType.from_color <$> colors,
                        N.min generic (spend_only_on_x_generic_count meta))
      | None => ([], 0)
      end
  | _ => ([], 0)
  end.
Fixpoint pay_repeatedly (n : nat) (a : payM (option ManaUnit)) (t : Tally) : payM Tally :=
  match n with
  | O => mret t
  | S n => u ← require a; pay_repeatedly n a (push_units [u] t)
  end.
Definition pay_generic (t : Tally) : payM Tally :=
  let '(types, count) := restricted_x in
  t ← pay_repeatedly (N.to_nat count)
        (spend_restricted_x_generic_eligible types spell any_color hand_demand pins) t;
  pay_repeatedly (N.to_nat (generic - count)) (spend_generic_eligible spell hand_demand pins) t.
End solver.

(** ** Paying a whole cost *)
Definition Payment := (list ManaUnit * list LifePayment)%type.
Definition pay_cost_with_demand_and_choices_once (cost : ManaCost.t)
    (hand_demand : option ColorDemand) (spell : Ctx) (permission : option ManaSpendPermission)
    (phyrexian_choices : option (list ShardChoice)) (lifes : LifePaymentColors.t) (pins : list N)
    : payM Payment :=
  match cost with
  | ManaCost.Cost shards generic =>
      t ← pay_shards shards generic hand_demand spell permission phyrexian_choices lifes pins
            (phyrexian_deferred_order shards lifes) tally_start;
      t ← pay_generic generic hand_demand spell permission pins t;
      mret (spent t, life_payments t)
  | _ => mret ([], [])
  end.

Definition select_mana_payment (p : ManaPool) (cost : ManaCost.t)
    (hand_demand : option ColorDemand) (spell : Ctx) (permission : option ManaSpendPermission)
    (phyrexian_choices : option (list ShardChoice)) (lifes : LifePaymentColors.t) (pins : list N)
    : outcome PaymentError Payment :=
  let once demand := run (pay_cost_with_demand_and_choices_once cost demand spell permission
                            phyrexian_choices lifes pins) p in
  match once hand_demand with
  | Err InsufficientMana => if bool_decide (is_Some hand_demand) then once None
                            else Err InsufficientMana
  | o => o
  end.

(** [seen.insert(pip)] of every pip but zero. *)
Fixpoint duplicate_pip (seen : list N) (us : list ManaUnit) : option N :=
  match us with
  | [] => None
  | u :: us =>
      if negb (pip_id u =? 0) then
        if bool_decide (pip_id u ∈ seen) then Some (pip_id u)
        else duplicate_pip (pip_id u :: seen) us
      else duplicate_pip seen us
  end.
Definition remove_exact_mana_units (us : list ManaUnit) : stM ManaPool ExactManaRemovalError () :=
  match duplicate_pip [] us with
  | Some pip => throw (DuplicatePip pip)
  | None => p ← get; lift (run (remove_exact us) p);; remove_exact us
  end.

(** [.map_err(|_| PaymentError::InsufficientMana)] *)
Definition as_insufficient (m : stM ManaPool ExactManaRemovalError ()) : payM () := λ p,
  match m p with
  | (Ok x, p) => (Ok x, p)
  | (Err _, p) => (Err InsufficientMana, p)
  | (Panic, p) => (Panic, p)
  end.
Definition pay_cost_with_demand_and_choices (cost : ManaCost.t)
    (hand_demand : option ColorDemand) (spell : Ctx) (permission : option ManaSpendPermission)
    (phyrexian_choices : option (list ShardChoice)) (lifes : LifePaymentColors.t) (pins : list N)
    : payM Payment :=
  p ← get;
  payment ← lift (select_mana_payment p cost hand_demand spell permission phyrexian_choices
                    lifes pins);
  as_insufficient (remove_exact_mana_units payment.1);; mret payment.
Definition pay_cost_with_demand (cost : ManaCost.t) (hand_demand : option ColorDemand)
    (spell : Ctx) (permission : option ManaSpendPermission) : payM Payment :=
  pay_cost_with_demand_and_choices cost hand_demand spell permission None
    LifePaymentColors.EMPTY [].
Definition pay_from_pool (cost : ManaCost.t) : payM Payment :=
  pay_cost_with_demand cost None None None.

Definition can_pay_for_spell (p : ManaPool) (cost : ManaCost.t) (spell : Ctx)
    (permissions : CostPermissionContext) : outcome unit bool :=
  match select_mana_payment p cost None spell (mana_spend_permission permissions) None
          (life_colors permissions) [] with
  | Ok (_, lifes) => Ok (N.of_nat (length lifes) <=? max_life permissions)
  | Err _ => Ok false
  | Panic => Panic
  end.
Definition can_pay (p : ManaPool) (cost : ManaCost.t) : outcome unit bool :=
  can_pay_for_spell p cost None no_permissions.
End payment.
