(* ===== verification/ManaPlan.v ===== *)
(** * Planning a payment: the residual cost and the Phyrexian options

    [reduce_cost_by_pool] and [compute_phyrexian_shards] of
    [engine/src/game/mana_payment.rs], dry runs of the payment on a clone of the pool. *)
From S2P Require Import Prelude.
From S2P Require Import ManaSymbols.
From S2P Require Import ManaCosts.
From S2P Require Import ManaRestrictions.
From S2P Require Import ManaUnits.
From S2P Require Import ManaPool.
From S2P Require Import ManaShards.
From S2P Require Import ManaPayment.
Local Open Scope N_scope.

Section plan.
Context {KeywordKind ManaSpellGrant : Type}.
Context `{EqDecision KeywordKind, EqDecision ManaSpellGrant}.
Local Abbreviation ManaUnit := (ManaUnit KeywordKind ManaSpellGrant).
Local Abbreviation ManaPool := (ManaPool KeywordKind ManaSpellGrant).
Local Abbreviation Ctx := (option (PaymentContext KeywordKind)).
Local Abbreviation payM := (stM ManaPool PaymentError).

(** [.is_some()] of a unit spent, of two units spent. *)
Definition was_paid (a : payM (option ManaUnit)) : payM bool :=
  o ← a; mret (bool_decide (is_Some o)).
Definition were_paid (a : payM (option (list ManaUnit))) : payM bool :=
  o ← a; mret (bool_decide (is_Some o)).

(** ** The residual cost *)
Section reduce.
Variables (spell : Ctx) (permission : option ManaSpendPermission) (demand : option ColorDemand).
Local Abbreviation any := (any_color permission).

Definition reduce_shard (s : ManaCostShard.t) : payM bool :=
  match shard_to_mana_type s with
  | Single c | Phyrexian c =>
      was_paid (if permits_as permission c then spend_any_for_required_colors [c] spell None []
                else spend_eligible c spell [])
  | Hybrid a b | HybridPhyrexian a b =>
      was_paid (if any then spend_any_for_required_colors [a; b] spell None []
                else or_spend (spend_eligible a spell []) (spend_eligible b spell []))
  | ColorlessHybrid c =>
      was_paid (if any then spend_any_for_required_colors [ManaType.Colorless; c] spell None []
                else or_spend (spend_eligible ManaType.Colorless spell [])
                       (spend_eligible c spell []))
  | TwoGenericHybrid c | TwoGenericHybridPhyrexian c =>
      if any then was_paid (spend_any_for_required_colors [c] spell None [])
      else
        o ← spend_eligible c spell [];
        match o with
        | Some _ => mret true
        | None => were_paid (two_or_none (spend_generic_non_demanded spell demand []))
        end
  | Snow => was_paid (spend_snow_unit spell [])
  | TwoOrMoreColorSource => was_paid (spend_two_or_more_color_source_eligible spell [])
  | X => mret false
  end.
Fixpoint reduce_shards (shards : list ManaCostShard.t) : payM (list ManaCostShard.t) :=
  match shards with
  | [] => mret []
  | s :: shards =>
      paid ← reduce_shard s;
      residual ← reduce_shards shards;
      mret (if (paid : bool) then residual else s :: residual)
  end.
(** At most [n] units, stopping at the first that cannot be had: how many. *)
Fixpoint spend_up_to (n : nat) (a : payM (option ManaUnit)) : payM nat :=
  match n with
  | O => mret 0%nat
  | S n => o ← a; match o with Some _ => k ← spend_up_to n a; mret (S k) | None => mret 0%nat end
  end.
Definition reduce_generic (generic : N) : payM N :=
  let '(types, count) := restricted_x generic spell in
  k ← spend_up_to (N.to_nat count)
        (spend_restricted_x_generic_eligible types spell any demand []);
  if (k =? N.to_nat count)%nat then
    j ← spend_up_to (N.to_nat (generic - count)) (spend_generic_non_demanded spell demand []);
    mret (generic - N.of_nat k - N.of_nat j)
  else mret (generic - N.of_nat k).
End reduce.

Definition reduce_cost_by_pool (p : ManaPool) (cost : ManaCost.t) (spell : Ctx)
    (permission : option ManaSpendPermission) (demand : option ColorDemand)
    : outcome PaymentError ManaCost.t :=
  match cost with
  | ManaCost.Cost shards generic =>
      run (residual_shards ← reduce_shards spell permission demand shards;
           residual_generic ← reduce_generic spell permission demand generic;
           mret (if bool_decide (residual_shards = []) && (residual_generic =? 0)
                 then ManaCost.NoCost else ManaCost.Cost residual_shards residual_generic)) p
  | _ => Ok cost
  end.

(** ** Options of the Phyrexian symbols *)
(** Whether the pool, left as it is, could pay. *)
Definition probe (a : payM bool) : payM bool := λ p, ((a p).1, p).
Definition sim_any_for_required_colors_available (spell : Ctx) (colors : list ManaType.t)
    : payM bool := probe (was_paid (spend_any_for_required_colors colors spell None [])).
Definition sim_color_available (spell : Ctx) (c : ManaType.t) : payM bool :=
  probe (was_paid (spend_eligible c spell [])).
Definition sim_phyrexian_mana_available (spell : Ctx) (any_color : bool) (c : ManaType.t)
    : payM bool :=
  if any_color then sim_any_for_required_colors_available spell [c]
  else sim_color_available spell c.
(** [a || b], the right operand evaluated only when needed. *)
Definition or_else (a b : payM bool) : payM bool := x ← a; if (x : bool) then mret true else b.

Section options.
Variables (shards : list ManaCostShard.t) (generic : N) (spell : Ctx).
Variables (permission : option ManaSpendPermission) (lifes : LifePaymentColors.t).
Local Abbreviation any := (any_color permission).

Record Sim := {
  results : list PhyrexianShard;
  sim_preferred : Preferred;
  life_budget : N;
}.
Definition shard_options (mana_available can_spare : bool) (life_budget : N) : ShardOptions :=
  match mana_available && can_spare, 0 <? life_budget with
  | true, true => ManaOrLife
  | true, false => ManaOnly
  | false, true => LifeOnly
  | false, false => ManaOnly
  end.
Definition push_result (r : PhyrexianShard) (s : Sim) : Sim :=
  {| results := results s ++ [r]; sim_preferred := sim_preferred s;
     life_budget := life_budget s |}.
Definition with_sim_preferred (pr : Preferred) (s : Sim) : Sim :=
  {| results := results s; sim_preferred := pr; life_budget := life_budget s |}.
Definition use_life (s : Sim) : Sim :=
  {| results := results s; sim_preferred := sim_preferred s; life_budget := life_budget s - 1 |}.

(** A strict hybrid, and the mana side of a hybrid Phyrexian symbol: spent if it can be. *)
Definition sim_hybrid (idx : nat) (a b : ManaType.t) (s : Sim) : payM Sim :=
  if any then spend_any_for_required_colors [a; b] spell None [];; mret s
  else
    p ← get;
    let '(c, pr) := select_hybrid_payment_color p a b None
                      (count_remaining_hybrid_shards shards idx a b) (sim_preferred s) in
    spend_eligible c spell [];; mret (with_sim_preferred pr s).
(** The entry of a Phyrexian symbol, and what the simulation commits for it. *)
Definition offer (idx : nat) (c : ManaType.t) (available : payM bool) (commit : Sim → payM Sim)
    (s : Sim) : payM Sim :=
  mana_available ← available;
  spare ← can_spare generic;
  let options := shard_options mana_available spare (life_budget s) in
  let s := push_result {| ps_shard_index := idx; ps_color := mana_type_to_color_fallback c;
                          ps_options := options |} s in
  match options with
  | ManaOnly => commit s
  | LifeOnly => mret (use_life s)
  | ManaOrLife => mret s
  end.

Definition sim_requirement (idx : nat) (req : ShardRequirement) (s : Sim) : payM Sim :=
  match req with
  | Single m =>
      (if permits_as permission m then spend_any_for_required_colors [m] spell None []
       else spend_eligible m spell []);; mret s
  | Hybrid a b => sim_hybrid idx a b s
  | Phyrexian c =>
      offer idx c (sim_phyrexian_mana_available spell any c)
        (λ s, spend_one_color spell permission [] c;; mret s) s
  | TwoGenericHybrid c =>
      if any then spend_any_for_required_colors [c] spell None [];; mret s
      else
        o ← spend_eligible c spell [];
        match o with
        | Some _ => mret s
        | None => spend_generic_eligible spell None [];; spend_generic_eligible spell None [];;
                  mret s
        end
  | Snow => spend_snow_unit spell [];; mret s
  | TwoOrMoreColorSource => spend_two_or_more_color_source_eligible spell [];; mret s
  | X => mret s
  | ColorlessHybrid c =>
      if any then spend_any_for_required_colors [ManaType.Colorless; c] spell None [];; mret s
      else or_spend (spend_eligible ManaType.Colorless spell []) (spend_eligible c spell []);;
           mret s
  | HybridPhyrexian a b =>
      offer idx a
        (if any then sim_any_for_required_colors_available spell [a; b]
         else or_else (sim_color_available spell a) (sim_color_available spell b))
        (sim_hybrid idx a b) s
  | TwoGenericHybridPhyrexian c =>
      offer idx c
        (or_else
           (if any then sim_any_for_required_colors_available spell [c]
            else sim_color_available spell c)
           (probe (were_paid (two_or_none (spend_generic_eligible spell None [])))))
        (λ s, if any then spend_any_for_required_colors [c] spell None [];; mret s
              else auto_two_generic_hybrid spell permission [] c;; mret s) s
  end.
Fixpoint sim_shards (order : list nat) (s : Sim) : payM Sim :=
  match order with
  | [] => mret s
  | idx :: order =>
      s ← match shards !! idx with
          | Some shard => sim_requirement idx (requirement_under lifes shard) s
          | None => panic
          end;
      sim_shards order s
  end.
End options.

Definition compute_phyrexian_shards (p : ManaPool) (cost : ManaCost.t) (spell : Ctx)
    (permissions : CostPermissionContext) : outcome PaymentError (list PhyrexianShard) :=
  match cost with
  | ManaCost.Cost shards generic =>
      results <$> run (sim_shards shards generic spell (mana_spend_permission permissions)
                         (life_colors permissions)
                         (phyrexian_deferred_order shards (life_colors permissions))
                         {| results := []; sim_preferred := [];
                            life_budget := max_life permissions |}) p
  | _ => Ok []
  end.
End plan.
