(* ===== verification/PaymentSpend.v ===== *)
(** * What each spend takes from the pool

    Every function that spends one unit is described by the property of the units it takes:
    when the pool holds one it takes such a unit, and nothing but that unit; when it holds
    none it answers [None] and leaves the pool alone. *)
From S2P Require Import Prelude.
From S2P Require Import ManaSymbols.
From S2P Require Import ManaCosts.
From S2P Require Import ManaRestrictions.
From S2P Require Import ManaUnits.
From S2P Require Import ManaPool.
From S2P Require Import ManaPoolOrder.
From S2P Require Import ManaPoolVec.
From S2P Require Import ManaShards.
From S2P Require Import ManaPayment.
Local Open Scope N_scope.

Section spends.
Context {KeywordKind ManaSpellGrant : Type}.
Context `{EqDecision KeywordKind, EqDecision ManaSpellGrant}.
Local Abbreviation ManaUnit := (ManaUnit KeywordKind ManaSpellGrant).
Local Abbreviation ManaShape := (ManaShape KeywordKind ManaSpellGrant).
Local Abbreviation ManaPool := (ManaPool KeywordKind ManaSpellGrant).
Local Abbreviation Ctx := (option (PaymentContext KeywordKind)).
Local Abbreviation payM := (stM ManaPool PaymentError).
Implicit Types (p : ManaPool) (u : ManaUnit) (spell : Ctx) (pins : list N).

Lemma find_first_ext {A} (f g : A → bool) l :
  (∀ x, f x = g x) → find_first f l = find_first g l.
Proof. intros Hfg. induction l as [|x l IH]; simpl; [done|]. by rewrite Hfg, IH. Qed.

(** ** Programs over well-formed pools *)
(** [m] never panics, fails for want of mana only, and its answers satisfy [Q]. *)
Definition pays_to {A} (m : payM A) (p : ManaPool) (Q : A → ManaPool → Prop) : Prop :=
  match m p with
  | (Ok a, p') => pool_wf p' ∧ Q a p'
  | (Err e, _) => e = InsufficientMana
  | (Panic, _) => False
  end.
Lemma pays_ret {A} (a : A) p (Q : A → ManaPool → Prop) :
  pool_wf p → Q a p → pays_to (mret a) p Q.
Proof. done. Qed.
Lemma pays_bind {A B} (m : payM A) (f : A → payM B) p Q R :
  pays_to m p Q → (∀ a p', pool_wf p' → Q a p' → pays_to (f a) p' R) →
  pays_to (m ≫= f) p R.
Proof.
  unfold pays_to, mbind, stM_bind. destruct (m p) as [[a|e|] p']; [|done..].
  intros [Hwf HQ] Hf. by apply Hf.
Qed.
Lemma pays_get p (Q : ManaPool → ManaPool → Prop) : pool_wf p → Q p p → pays_to get p Q.
Proof. done. Qed.
Lemma pays_mono {A} (m : payM A) p (Q R : A → ManaPool → Prop) :
  pays_to m p Q → (∀ a p', Q a p' → R a p') → pays_to m p R.
Proof. unfold pays_to. destruct (m p) as [[] ?]; naive_solver. Qed.

(** ** Spends *)
(** [p'] is [p] without the units [us]. *)
Definition debited (p : ManaPool) (us : list ManaUnit) (p' : ManaPool) : Prop :=
  pool_wf p' ∧ units p ≡ₚ us ++ units p' ∧ same_stamps p p'.
(** [P]: what a unit taken satisfies.  [A]: units that are taken when there are any. *)
Definition takes (m : payM (option ManaUnit)) (P A : ManaUnit → Prop) : Prop := ∀ p, pool_wf p →
  (∃ u p', m p = (Ok (Some u), p') ∧ P u ∧ debited p [u] p') ∨
  (m p = (Ok None, p) ∧ ∀ u, u ∈ units p → ¬ A u).

Lemma takes_mono m (P A P' A' : ManaUnit → Prop) :
  takes m P A → (∀ u, P u → P' u) → (∀ u, A' u → A u) → takes m P' A'.
Proof.
  intros Hm HP HA p Hwf. destruct (Hm p Hwf) as [(u&p'&E&Hu&Hd)|[E Hn]]; [left|right].
  - exists u, p'. auto.
  - split; [done|]. intros u Hu Hu'. by apply (Hn u Hu), HA.
Qed.
Lemma takes_or m m' P A P' A' :
  takes m P A → takes m' P' A' → takes (or_spend m m') (λ u, P u ∨ P' u) (λ u, A u ∨ A' u).
Proof.
  intros Hm Hm' p Hwf. unfold or_spend, mbind, stM_bind.
  destruct (Hm p Hwf) as [(u&p'&->&Hu&Hd)|[-> Hn]].
  - left. exists u, p'. auto.
  - destruct (Hm' p Hwf) as [(u&p'&E&Hu&Hd)|[E Hn']]; [left|right].
    + exists u, p'. auto.
    + split; [done|]. intros u Hu [?|?]; [by apply (Hn u)|by apply (Hn' u)].
Qed.
Lemma takes_none (P : ManaUnit → Prop) : takes (mret None) P (λ _, False).
Proof. intros p _. right. split; [done|]. by intros ? _ []. Qed.
Lemma takes_get (f : ManaPool → payM (option ManaUnit)) P (A : ManaUnit → Prop) :
  (∀ p, pool_wf p → takes (f p) P (λ u, A u ∧ u ∈ units p)) →
  takes (p ← get; f p) P A.
Proof.
  intros Hf p Hwf. unfold get, mbind, stM_bind.
  destruct (Hf p Hwf p Hwf) as [?|[E Hn]]; [by left|right]. split; [done|].
  intros u Hu HA. by apply (Hn u).
Qed.

(** The unit a query finds. *)
Definition finds (select : ManaPool → outcome unit (option (N * ManaShape)))
    (P : ManaUnit → bool) : Prop := ∀ p, pool_wf p →
  select p = Ok (found <$> find_first (λ x, P x.2) (slotted_units p)).
Lemma takes_selected select (P : ManaUnit → bool) :
  finds select P → takes (spend_selected select) P P.
Proof.
  intros Hs p Hwf. unfold spend_selected. rewrite (Hs p Hwf).
  pose proof (swap_remove_found p P Hwf) as Hf.
  destruct (position P (units p)) as [i|] eqn:Hi.
  - destruct Hf as (slot&u&p'&Hff&Hu&Hsw&[Hwf' Hun]&Hst). left. exists u, p'. rewrite Hff. cbn.
    rewrite Hsw. apply position_Some in Hi as (u'&Hu'&HP&_). simplify_eq.
    split; [done|]. split; [by rewrite HP|]. split; [done|]. split; [|done].
    rewrite Hun. by apply vec_swap_remove_perm.
  - rewrite Hf. right. split; [done|]. intros u Hu HP.
    by rewrite (proj1 (position_None _ _) Hi u Hu) in HP.
Qed.
Lemma finds_where pred : finds (λ p, first_where p pred) (λ u, pred (shape_of u)).
Proof. intros p Hwf. rewrite first_where_spec by apply Hwf. done. Qed.
Lemma finds_ext select P P' : (∀ u, P u = P' u) → finds select P → finds select P'.
Proof.
  intros HP Hs p Hwf. rewrite Hs by done. do 2 f_equal. apply find_first_ext.
  intros x. apply HP.
Qed.
Lemma takes_pinned pins pred :
  takes (spend_selected (λ p, pinned p pins pred)) (λ u, pred (shape_of u)) (λ _, False).
Proof.
  apply (takes_mono _ (λ u, bool_decide (pip_id u ∈ pins) && pred (shape_of u))
           (λ u, bool_decide (pip_id u ∈ pins) && pred (shape_of u))); [|naive_solver|done].
  apply takes_selected. intros p Hwf. unfold pinned. by rewrite first_pinned_where_spec by apply Hwf.
Qed.
(** A query preferred to another. *)
Lemma or_found_ok {A} (o : option A) b :
  or_found (Ok o) b = match o with Some x => Ok (Some x) | None => b end.
Proof. by destruct o. Qed.
Lemma takes_or_found select1 select2 (P : ManaUnit → bool) (Q : ManaUnit → Prop) :
  takes (spend_selected select1) P Q → takes (spend_selected select2) P P →
  (∀ p, pool_wf p → ∃ o, select1 p = Ok o) →
  takes (spend_selected (λ p, or_found (select1 p) (select2 p))) P P.
Proof.
  intros H1 H2 Hok p Hwf. destruct (Hok p Hwf) as [o Ho].
  specialize (H1 p Hwf). specialize (H2 p Hwf). unfold spend_selected in *.
  rewrite Ho in H1 |- *. rewrite or_found_ok. destruct o as [[slot sh]|]; [|done].
  left. destruct H1 as [H1|[E _]]; [done|].
  by destruct (swap_remove p slot) as [[]| |].
Qed.
Lemma takes_pinned_or pins pred select (P : ManaUnit → bool) :
  finds select P → (∀ u, pred (shape_of u) = P u) →
  takes (spend_selected (λ p, or_found (pinned p pins pred) (select p))) P P.
Proof.
  intros Hs HP. apply (takes_or_found _ _ P (λ _, False)).
  - eapply takes_mono; [apply takes_pinned| |done]. intros u. by rewrite <-HP.
  - by apply takes_selected.
  - intros p _. by eexists.
Qed.
(** A first choice within the kind looked for. *)
Lemma takes_preferring pins pred pred1 (P : ManaUnit → bool) :
  (∀ u, pred (shape_of u) = P u) → (∀ sh, pred1 sh = true → pred sh = true) →
  takes (spend_selected (λ p, or_found (pinned p pins pred)
           (or_found (first_where p pred1) (first_where p pred)))) P P.
Proof.
  intros HP Hsub.
  apply (takes_or_found _ (λ p, or_found (first_where p pred1) (first_where p pred)) P (λ _, False)).
  - eapply takes_mono; [apply takes_pinned| |done]. intros u. by rewrite <-HP.
  - apply (takes_or_found _ _ P (λ u, pred1 (shape_of u))).
    + eapply takes_mono; [apply takes_selected, finds_where| |done]. intros u.
      rewrite <-HP. intros Hu%Is_true_true. by apply Is_true_true, Hsub.
    + apply takes_selected. apply (finds_ext _ (λ u, pred (shape_of u))); [done|apply finds_where].
    + intros p Hwf. eexists. apply finds_where. done.
  - intros p _. by eexists.
Qed.

(** ** The spends of the solver *)
Section context.
Context (spell : Ctx) (pins : list N).

Definition convoke (u : ManaUnit) : bool := shape_is_convoke_payment (shape_of u).
Definition permits (u : ManaUnit) : bool := spell_permits_unit spell (shape_of u).
(** [u] may pay for mana of type [c]. *)
Definition pays_color (c : ManaType.t) (u : ManaUnit) : bool :=
  bool_decide (color u = c) && negb (bool_decide (c = ManaType.Colorless) && convoke u)
  && permits u.
(** [u] is mana, rather than a creature tapped for convoke. *)
Definition is_mana (u : ManaUnit) : bool := negb (convoke u) && permits u.

Lemma takes_color c (allows : ManaShape → bool) :
  takes (spend_color_prefer_non_z c pins allows)
    (λ u, bool_decide (color u = c) && allows (shape_of u))
    (λ u, bool_decide (color u = c) && allows (shape_of u)).
Proof.
  apply takes_preferring; [done|]. intros sh. rewrite !andb_true_iff. tauto.
Qed.
Lemma takes_eligible c : takes (spend_eligible c spell pins) (pays_color c) (pays_color c).
Proof.
  assert (∀ allows, (∀ u, bool_decide (color u = c) && allows (shape_of u) = pays_color c u) →
    takes (spend_color_prefer_non_z c pins allows) (pays_color c) (pays_color c)) as Hgen.
  { intros allows Ha. eapply takes_mono; [apply takes_color|..]; intros u; cbn beta; by rewrite Ha. }
  unfold spend_eligible, pays_color, permits, convoke in *.
  destruct spell as [ctx|]; apply Hgen; intros u; simpl;
    destruct (bool_decide (color u = c)); simpl; [|done| |done].
  - by destruct (_ && shape_is_convoke_payment _).
  - by rewrite andb_true_r.
Qed.

Lemma count_where_pos p pred :
  (0 < count_where p pred)%nat ↔ ∃ u, u ∈ units p ∧ pred (shape_of u) = true.
Proof.
  rewrite count_where_spec. split.
  - intros Hl. destruct (List.filter _ _) as [|u l] eqn:E; [simpl in Hl; lia|].
    exists u. apply (elem_of_List_filter (λ u, pred (shape_of u))). rewrite E. left.
  - intros (u&Hu). apply (elem_of_List_filter (λ u, pred (shape_of u))) in Hu.
    destruct (List.filter _ _); [by apply elem_of_nil in Hu|simpl; lia].
Qed.

(** A fold that keeps some colour once it has met one with units. *)
Lemma keeps_some {B} (f : option (ManaType.t * B) → ManaType.t → option (ManaType.t * B))
    (good : ManaType.t → Prop) cs best :
  (∀ b c, good c → is_Some (f b c)) →
  (∀ b c, is_Some b → is_Some (f b c)) →
  (∀ b c x, f b c = Some x → (x.1 = c ∧ good c) ∨ b = Some x) →
  (is_Some best ∨ (∃ c, c ∈ cs ∧ good c) → is_Some (fold_left f cs best)) ∧
  (∀ x, fold_left f cs best = Some x → (x.1 ∈ cs ∧ good x.1) ∨ best = Some x).
Proof.
  intros Hgood Hkeep Hfrom. revert best. induction cs as [|c cs IH]; intros best; simpl.
  { split; [|by right]. intros [?|(c&Hc&_)]; [done|by apply elem_of_nil in Hc]. }
  destruct (IH (f best c)) as [IH1 IH2]. split.
  - intros Hb. apply IH1. destruct Hb as [?|(c'&[->|Hc]%elem_of_cons&Hg)]; [left; by apply Hkeep|left; by apply Hgood|].
    right. by exists c'.
  - intros x [[Hx Hg]|Hx]%IH2; [left; split; [by right|done]|].
    apply Hfrom in Hx as [[-> Hg]|Hx]; [left; split; [left|done]|by right].
Qed.

Lemma best_color_spec p cs demand :
  match best_color p cs spell demand with
  | Some c => c ∈ cs ∧ ∃ u, u ∈ units p ∧ color u = c ∧ is_mana u
  | None => ∀ u, u ∈ units p → color u ∈ cs → ¬ is_mana u
  end.
Proof.
  unfold best_color.
  set (good c := (0 < eligible_color_count p c spell)%nat).
  set (f := λ best c, _).
  destruct (keeps_some f good cs None) as [H1 H2].
  - intros b c Hc%Nat.ltb_lt. unfold f. rewrite Hc. by destruct b as [[? ?]|]; [case_match|].
  - intros b c [x ->]. unfold f. destruct (_ <? _)%nat; [|by eexists]. destruct x. by case_match.
  - intros b c x. unfold f. destruct (_ <? _)%nat eqn:Hc; [|by right]. apply Nat.ltb_lt in Hc.
    destruct b as [[c' r]|]; [case_match|]; [|by right|]; intros [= <-]; by left.
  - destruct (fold_left f cs None) as [x|]; simpl.
    + destruct (H2 x eq_refl) as [[Hx Hg]|?]; [|done]. split; [done|].
      apply count_where_pos in Hg as (u&Hu&Hg). exists u. split; [done|].
      apply andb_true_iff in Hg as [[Hc Hn]%andb_true_iff Hp].
      apply bool_decide_eq_true in Hc. split; [done|]. apply Is_true_true.
      unfold is_mana, convoke, permits. by rewrite Hn, Hp.
    + intros u Hu Hc Hm. destruct H1 as [? [=]]. right. exists (color u). split; [done|].
      apply count_where_pos. exists u. split; [done|]. unfold is_mana, permits, convoke in Hm.
      rewrite bool_decide_true by done. by apply Is_true_true in Hm.
Qed.
End context.

Lemma scarcest_color_spec p :
  match scarcest_color p with
  | Some c => c ∈ five_colors ∧ ∃ u, u ∈ units p ∧ color u = c ∧ ¬ convoke u
  | None => ∀ u, u ∈ units p → color u ∈ five_colors → ¬ ¬ convoke u
  end.
Proof.
  unfold scarcest_color.
  set (good c := (0 < count_where p (λ m, bool_decide (sh_color m = c)
                                          && negb (shape_is_convoke_payment m)))%nat).
  set (f := λ best c, _).
  destruct (keeps_some f good five_colors None) as [H1 H2].
  - intros b c Hc%Nat.ltb_lt. unfold f. rewrite Hc. by destruct b as [[? ?]|]; [case_match|].
  - intros b c [x ->]. unfold f. destruct (_ <? _)%nat; [|by eexists]. destruct x. by case_match.
  - intros b c x. unfold f. destruct (_ <? _)%nat eqn:Hc; [|by right]. apply Nat.ltb_lt in Hc.
    destruct b as [[c' r]|]; [case_match|]; [|by right|]; intros [= <-]; by left.
  - destruct (fold_left f five_colors None) as [x|]; simpl.
    + destruct (H2 x eq_refl) as [[Hx Hg]|?]; [|done]. split; [done|].
      apply count_where_pos in Hg as (u&Hu&[Hc Hn%negb_true_iff]%andb_true_iff).
      exists u. apply bool_decide_eq_true in Hc. split_and!; [done..|]. unfold convoke. rewrite Hn. by intros [].
    + intros u Hu Hc. destruct (convoke u) eqn:Hcv; [naive_solver|]. exfalso.
      destruct H1 as [? [=]]. right. exists (color u). split; [done|].
      apply count_where_pos. exists u. split; [done|]. rewrite bool_decide_true by done.
      unfold convoke in Hcv. by rewrite Hcv.
Qed.
Section context.
Context (spell : Ctx) (pins : list N).
Local Abbreviation pays_color := (pays_color spell).
Local Abbreviation permits := (permits spell).
Local Abbreviation is_mana := (is_mana spell).
Implicit Types c : ManaType.t.

Lemma colors_five c : c ∈ five_colors ∨ c = ManaType.Colorless.
Proof. unfold five_colors. destruct c; set_solver. Qed.
Lemma mana_colorless u : is_mana u → color u = ManaType.Colorless → pays_color ManaType.Colorless u.
Proof.
  unfold is_mana, pays_color. rewrite !andb_True. intros [? ?] ->.
  split_and!; [by rewrite bool_decide_true|by rewrite bool_decide_true|done].
Qed.
Lemma color_is_mana c u :
  is_mana u → color u = c → pays_color c u.
Proof.
  unfold is_mana, pays_color. rewrite !andb_True. intros [Hc ?] <-.
  split_and!; [by rewrite bool_decide_true| |done]. destruct (bool_decide _); simpl; done.
Qed.
Lemma pays_permits c u : pays_color c u → permits u.
Proof. unfold pays_color. rewrite !andb_True. tauto. Qed.
Lemma mana_permits u : is_mana u → permits u.
Proof. unfold is_mana. rewrite !andb_True. tauto. Qed.
Lemma colorless_is_mana u : pays_color ManaType.Colorless u → is_mana u.
Proof.
  unfold is_mana, pays_color. rewrite !andb_True. intros [[_ Hc] ?].
  by rewrite bool_decide_true in Hc by done.
Qed.

(** The unit of a colour that a query of the pool chose. *)
Lemma takes_best (query : ManaPool → option ManaType.t) (cs : list ManaType.t)
    (spend : ManaType.t → payM (option ManaUnit)) (P A : ManaUnit → Prop) :
  (∀ p, match query p with
        | Some c => c ∈ cs ∧ ∃ u, u ∈ units p ∧ color u = c ∧ A u
        | None => ∀ u, u ∈ units p → color u ∈ cs → ¬ A u
        end) →
  (∀ c, c ∈ cs → takes (spend c) P (λ u, A u ∧ color u = c)) →
  takes (p ← get; match query p with Some c => spend c | None => mret None end) P
    (λ u, A u ∧ color u ∈ cs).
Proof.
  intros Hq Hs p Hwf. unfold get, mbind, stM_bind. specialize (Hq p).
  destruct (query p) as [c|].
  - destruct Hq as (Hc&u&Hu&Hcu&HA).
    destruct (Hs c Hc p Hwf) as [?|[_ Hn]]; [by left|]. by destruct (Hn u).
  - right. split; [done|]. intros u Hu [? ?]. by apply (Hq u).
Qed.

End context.

Lemma takes_any_unit pins : takes (spend_any_unit pins) (is_mana None) (is_mana None).
Proof.
  assert (takes (or_spend (spend_selected (λ p, pinned p pins (λ m, negb (shape_is_convoke_payment m))))
      (or_spend (spend_eligible ManaType.Colorless None pins)
         (p ← get; match scarcest_color p with
                   | Some c => spend_color_prefer_non_z c pins (λ m, negb (shape_is_convoke_payment m))
                   | None => mret None
                   end))) (is_mana None) (is_mana None)) as Ht.
  { eapply takes_mono; [apply takes_or; [apply takes_pinned|]; apply takes_or;
      [apply (takes_eligible None)
      |apply (takes_best _ five_colors _ (is_mana None) (λ u, ¬ convoke u))]|..].
    - apply scarcest_color_spec.
    - intros c _. eapply takes_mono; [apply takes_color|..]; intros u; cbn beta.
      + unfold is_mana, permits. rewrite !andb_True. intros [_ ?]. done.
      + rewrite !andb_True, bool_decide_spec. intros [? ?]. split; [done|]. by apply negb_True.
    - intros u [Hu|[Hu|Hu]]; [|by apply colorless_is_mana|done].
      unfold is_mana, permits. rewrite andb_True. by split.
    - intros u Hu. right. destruct (colors_five (color u)).
      + right. split; [|done]. unfold is_mana in Hu. rewrite andb_True, negb_True in Hu. tauto.
      + left. by apply mana_colorless. }
  apply takes_get. intros p _. destruct (is_empty p) eqn:Hemp.
  - eapply takes_mono; [apply (takes_none (is_mana None))|done|]. intros u [_ Hu].
    apply bool_decide_eq_true in Hemp. apply list_elem_of_fmap in Hu as (x&_&Hx).
    rewrite elem_of_slotted, Hemp in Hx. by apply elem_of_nil in Hx.
  - eapply takes_mono; [exact Ht|done|]. by intros u [? _].
Qed.
Section context.
Context (spell : Ctx) (pins : list N).
Local Abbreviation pays_color := (pays_color spell).
Local Abbreviation permits := (permits spell).
Local Abbreviation is_mana := (is_mana spell).
Implicit Types c : ManaType.t.

Lemma takes_any_eligible demand : takes (spend_any_eligible spell demand pins) is_mana is_mana.
Proof.
  assert (takes (spend_pinned_generic spell pins) is_mana (λ _, False)) as Hpin by apply takes_pinned.
  assert (∀ u, is_mana u → color u ∈ five_colors ∨ pays_color ManaType.Colorless u) as Hsplit.
  { intros u Hu. destruct (colors_five (color u)); [by left|right; by apply mana_colorless]. }
  unfold spend_any_eligible. destruct spell as [ctx|] eqn:Hsp; cycle 1.
  - eapply takes_mono; [apply takes_or; [exact Hpin|apply takes_any_unit]|naive_solver|by right].
  - eapply takes_mono; [apply takes_or; [exact Hpin|]; apply takes_or;
      [apply (takes_eligible (Some ctx))|apply (takes_best _ five_colors _ (spends.is_mana (Some ctx)) (spends.is_mana (Some ctx)))]|..].
    + intros p. apply best_color_spec.
    + intros c _. eapply takes_mono; [apply takes_color|..]; intros u; cbn beta; unfold is_mana, permits, convoke.
      * rewrite !andb_True. tauto.
      * rewrite !andb_True, bool_decide_spec. tauto.
    + intros u [?|[?|?]]; [done|by apply colorless_is_mana|done].
    + intros u Hu. right. destruct (Hsplit u Hu); [by right|by left].
Qed.

(** [u] pays for one of the types [cs], or stands for any under a permission. *)
Definition pays_as (cs : list ManaType.t) (any : bool) (u : ManaUnit) : Prop :=
  (∃ c, c ∈ cs ∧ pays_color c u) ∨ (any ∧ is_mana u).
Lemma pays_as_permits cs any u : pays_as cs any u → permits u.
Proof. intros [(c&_&?)|[_ ?]]; [by eapply pays_permits|by apply mana_permits]. Qed.

Lemma takes_eligible_as c any :
  takes (spend_eligible c spell pins) (pays_as [c] any) (pays_as [c] false).
Proof.
  eapply takes_mono; [apply takes_eligible|..]; intros u.
  - intros Hu. left. exists c. by rewrite list_elem_of_singleton.
  - by intros [(c'&->%list_elem_of_singleton&?)|[[] _]].
Qed.
Lemma takes_pinned_among cs :
  takes (spend_pinned_among cs spell pins) (pays_as cs false) (λ _, False).
Proof.
  eapply takes_mono; [apply takes_pinned| |done]. intros u. cbn beta.
  rewrite !andb_True, bool_decide_spec. intros [[Hc Hn] Hp]. left. exists (color u).
  split; [done|]. apply color_is_mana; [|done]. unfold spends.is_mana. by rewrite andb_True.
Qed.
Lemma takes_required cs demand :
  takes (spend_any_for_required_colors cs spell demand pins) (pays_as cs true) (pays_as cs true).
Proof.
  assert (∀ cs', (∀ c, c ∈ cs' → c ∈ cs) →
    takes (foldr (λ c next, or_spend (spend_eligible c spell pins) next)
             (spend_any_eligible spell demand pins) cs') (pays_as cs true) (pays_as cs' true)) as Hfold.
  { intros cs'. induction cs' as [|c cs' IH]; intros Hsub; simpl.
    - eapply takes_mono; [apply takes_any_eligible|by right|].
      by intros u [(?&?%elem_of_nil&_)|[_ ?]].
    - eapply takes_mono; [apply takes_or; [apply takes_eligible|apply IH]|..].
      + intros c' ?. apply Hsub. by right.
      + intros u [Hu|?]; [|done]. left. exists c. split; [apply Hsub; left|done].
      + intros u [(c'&[->|?]%elem_of_cons&Hu)|?]; [by left|right; left; by exists c'|right; by right]. }
  eapply takes_mono; [apply takes_or; [apply takes_pinned_among|by apply Hfold]|..].
  - intros u [[(c&?&?)|[[] _]]|?]; [left; by exists c|done].
  - by right.
Qed.
(** Mana of the colours a cost allows on its generic part. *)
Lemma takes_restricted cs any demand :
  takes (spend_restricted_x_generic_eligible cs spell any demand pins)
    (pays_as cs any) (λ u, is_mana u ∧ (color u ∈ cs ∨ any)).
Proof.
  unfold spend_restricted_x_generic_eligible. destruct any.
  { eapply takes_mono; [apply takes_required|done|]. intros u [? _]. by right. }
  assert (takes (match cs with
     | [c] => spend_eligible c spell pins
     | _ => p ← get; match best_color p cs spell demand with
                     | Some c => spend_eligible c spell pins | None => mret None end
     end) (pays_as cs false) (λ u, is_mana u ∧ color u ∈ cs)) as Hrest.
  { assert (∀ c, c ∈ cs → takes (spend_eligible c spell pins) (pays_as cs false)
      (λ u, is_mana u ∧ color u = c)) as Hone.
    { intros c Hc. eapply takes_mono; [apply takes_eligible|..]; intros u.
      - intros Hu. left. by exists c.
      - intros [? ?]. by apply color_is_mana. }
    assert (takes (p ← get; match best_color p cs spell demand with
                     | Some c => spend_eligible c spell pins | None => mret None end)
        (pays_as cs false) (λ u, is_mana u ∧ color u ∈ cs)) as Hbest.
    { apply takes_best; [|done]. intros p. apply best_color_spec. }
    destruct cs as [|c [|c' cs]]; [exact Hbest| |exact Hbest].
    eapply takes_mono; [apply Hone; left|done|]. cbn beta. intros u.
    by rewrite list_elem_of_singleton. }
  eapply takes_mono; [apply takes_or; [apply takes_pinned_among|exact Hrest]|..].
  - by intros u [?|?].
  - intros u [? [?|[]]]. by right.
Qed.

Lemma takes_generic demand : takes (spend_generic_eligible spell demand pins) permits permits.
Proof.
  eapply takes_mono; [apply takes_or; [apply takes_pinned|]; apply takes_or;
    [apply (takes_selected _ (λ u, convoke u && permits u))|apply takes_any_eligible]|..].
  - intros p Hwf. unfold spends.permits, convoke.
    destruct spell; rewrite finds_where by done; f_equal.
    f_equal. apply find_first_ext. intros x. by rewrite andb_true_r.
  - intros u. cbn beta. unfold spends.is_mana. rewrite !andb_True. tauto.
  - intros u Hu. right. cbn beta. unfold spends.is_mana. rewrite !andb_True, negb_True.
    destruct (convoke u); simpl; tauto.
Qed.
Lemma takes_non_demanded demand :
  takes (spend_generic_non_demanded spell demand pins) permits
    (λ u, permits u ∧ demand = None).
Proof.
  unfold spend_generic_non_demanded. destruct demand as [d|].
  - assert (takes (spend_selected (λ p,
      or_found (first_where p (λ m, negb (sh_two_or_more m) && is_spendable p spell d m))
        (first_where p (is_spendable p spell d)))) permits (λ _, False)) as Hspend.
    { intros p Hwf.
      assert (∀ m : ManaShape, is_spendable p spell d m = true → spell_permits_unit spell m = true)
        as Hsp.
      { intros m. unfold is_spendable. destruct (shape_is_convoke_payment m); [done|].
        destruct spell as [ctx|]; simpl; [|done]. by destruct (ctx_permits_unit ctx m). }
      pose proof (takes_preferring [] (is_spendable p spell d)
        (λ m, negb (sh_two_or_more m) && is_spendable p spell d m)
        (λ u, is_spendable p spell d (shape_of u)) (λ _, eq_refl)) as Ht.
      destruct (Ht ltac:(intros m ?%andb_true_iff; tauto) p Hwf) as [(u&p'&E&Hu&Hd)|[E _]].
      - left. exists u, p'. split; [exact E|]. split; [|done].
        by apply Is_true_true, Hsp, Is_true_true.
      - right. split; [exact E|]. by intros ? _ []. }
    eapply takes_mono; [apply takes_or; [apply takes_selected, finds_where|exact Hspend]|..].
    + intros u [Hu|?]; [|done]. cbn beta in Hu. rewrite andb_True in Hu. apply Hu.
    + by intros u [_ ?].
  - eapply takes_mono; [apply takes_generic|done|]. by intros u [? _].
Qed.

Definition pays_snow (u : ManaUnit) : bool := is_snow (shape_of u) && permits u.
Definition pays_two_or_more (u : ManaUnit) : bool := sh_two_or_more (shape_of u) && permits u.
Lemma takes_snow : takes (spend_snow_unit spell pins) pays_snow pays_snow.
Proof.
  apply takes_pinned_or; [|done]. intros p Hwf. unfold pays_snow, spends.permits.
  destruct spell; rewrite finds_where by done; do 2 f_equal.
  apply find_first_ext. intros x. by rewrite andb_true_r.
Qed.
Lemma takes_two_or_more :
  takes (spend_two_or_more_color_source_eligible spell pins) pays_two_or_more pays_two_or_more.
Proof.
  apply takes_pinned_or; [|done]. intros p Hwf. unfold pays_two_or_more, spends.permits.
  destruct spell; rewrite finds_where by done; do 2 f_equal.
  apply find_first_ext. intros x. by rewrite andb_true_r.
Qed.
End context.
End spends.
