(* ===== verification/PaymentSound.v ===== *)
(** * Legal payments, and that the solver makes them

    What it is to pay a cost: each symbol is paid by units it admits, or by life where it
    may be, and the generic part by as many units as it asks.  A payment the solver
    selects is legal, its units come from the pool, and they can be removed from it. *)
From S2P Require Import Prelude.
From S2P Require Import ManaSymbols.
From S2P Require Import ManaCosts.
From S2P Require Import ManaRestrictions.
From S2P Require Import ManaUnits.
From S2P Require Import ManaPool.
From S2P Require Import ManaPoolOrder.
From S2P Require Import ManaPoolVec.
From S2P Require Import ManaShards.
From S2P Require Import ManaPayment.
From S2P Require Import PaymentSpend.
Local Open Scope N_scope.

Section sound.
Context {KeywordKind ManaSpellGrant : Type}.
Context `{EqDecision KeywordKind, EqDecision ManaSpellGrant}.
Local Abbreviation ManaUnit := (ManaUnit KeywordKind ManaSpellGrant).
Local Abbreviation ManaPool := (ManaPool KeywordKind ManaSpellGrant).
Local Abbreviation Ctx := (option (PaymentContext KeywordKind)).
Local Abbreviation payM := (stM ManaPool PaymentError).
Local Abbreviation Tally := (@Tally KeywordKind ManaSpellGrant).
Implicit Types (p : ManaPool) (u : ManaUnit) (t : Tally).

(** ** Legal payments *)
Section legal.
Variables (spell : Ctx) (permission : option ManaSpendPermission) (lifes : LifePaymentColors.t).
Local Abbreviation any := (any_color permission).

Definition one_of (P : ManaUnit → Prop) (us : list ManaUnit) : Prop := ∃ u, us = [u] ∧ P u.
Definition mana_meets (req : ShardRequirement) (us : list ManaUnit) : Prop :=
  match req with
  | Single m => one_of (pays_as spell [m] (permits_as permission m)) us
  | Phyrexian c => one_of (pays_as spell [c] any) us
  | Hybrid a b | HybridPhyrexian a b => one_of (pays_as spell [a; b] any) us
  | ColorlessHybrid c => one_of (pays_as spell [ManaType.Colorless; c] any) us
  | TwoGenericHybrid c | TwoGenericHybridPhyrexian c =>
      one_of (pays_as spell [c] any) us ∨ (length us = 2%nat ∧ Forall (permits spell) us)
  | Snow => one_of (pays_snow spell) us
  | TwoOrMoreColorSource => one_of (pays_two_or_more spell) us
  | X => us = []
  end.
Definition meets (req : ShardRequirement) (us : list ManaUnit) (life : nat) : Prop :=
  (life = 0%nat ∧ mana_meets req us) ∨
  (is_phyrexian_requirement req ∧ life = 1%nat ∧ us = []).

(** The symbols of a cost, each with the units and the life paid for it. *)
Definition shards_paid (shards : list ManaCostShard.t) (parts : list (list ManaUnit * nat)) : Prop :=
  Forall2 (λ s x, meets (requirement_under lifes s) x.1 x.2) shards parts.
(** [xs] pays what the cost restricts to some colours, [gs] the rest of its generic part. *)
Definition generic_paid (generic : N) (xs gs : list ManaUnit) : Prop :=
  let '(types, count) := restricted_x generic spell in
  Forall (pays_as spell types any) xs ∧ N.of_nat (length xs) = count ∧
  Forall (permits spell) gs ∧ N.of_nat (length gs) = generic - count.
Definition legal_payment (cost : ManaCost.t) (us : list ManaUnit) (life : nat) : Prop :=
  match cost with
  | ManaCost.Cost shards generic => ∃ parts xs gs,
      shards_paid shards parts ∧ generic_paid generic xs gs ∧
      us ≡ₚ concat parts.*1 ++ xs ++ gs ∧ life = sum_list parts.*2
  | _ => us = [] ∧ life = 0%nat
  end.
(** The same, saying which units and how much life each symbol is paid with. *)
Definition payment_parts (cost : ManaCost.t) (us : list ManaUnit) (life : nat)
    (parts : list (list ManaUnit * nat)) : Prop :=
  match cost with
  | ManaCost.Cost shards generic => ∃ xs gs,
      shards_paid shards parts ∧ generic_paid generic xs gs ∧
      us ≡ₚ concat parts.*1 ++ xs ++ gs ∧ life = sum_list parts.*2
  | _ => parts = [] ∧ us = [] ∧ life = 0%nat
  end.
Lemma payment_parts_legal cost us life parts :
  payment_parts cost us life parts → legal_payment cost us life.
Proof. destruct cost; [by intros [_ ?]|intros (xs&gs&?); by exists parts, xs, gs|by intros [_ ?]..]. Qed.
End legal.

(** ** Debits *)
Lemma debited_nil p : pool_wf p → debited p [] p.
Proof. done. Qed.
Lemma debited_app p us p1 vs p2 :
  debited p us p1 → debited p1 vs p2 → debited p (us ++ vs) p2.
Proof.
  intros (_&H1&?&?) (?&H2&?&?). split; [done|]. split; [by rewrite H1, H2, app_assoc|].
  split; congruence.
Qed.

Definition taken (P : ManaUnit → Prop) p (o : option ManaUnit) p' : Prop :=
  match o with Some u => P u ∧ debited p [u] p' | None => p' = p end.
Lemma takes_pays m P A p : takes m P A → pool_wf p → pays_to m p (taken P p).
Proof.
  intros Hm Hwf. unfold pays_to. destruct (Hm p Hwf) as [(u&p'&->&Hu&Hd)|[-> _]]; [|done].
  split; [apply Hd|done].
Qed.
Lemma require_pays m P A p :
  takes m P A → pool_wf p → pays_to (require m) p (λ u p', P u ∧ debited p [u] p').
Proof.
  intros Hm Hwf. eapply pays_bind; [by eapply takes_pays|].
  intros [u|] p' Hwf' Ht; [by apply pays_ret|done].
Qed.

(** ** One symbol *)
Section symbol.
Variables (shards : list ManaCostShard.t) (generic : N).
Variables (hand_demand : option ColorDemand) (spell : Ctx).
Variables (permission : option ManaSpendPermission) (phyrexian_choices : option (list ShardChoice)).
Variables (pins : list N).
Local Abbreviation any := (any_color permission).

(** A remembered half belongs to its pair. *)
Definition preferred_ok (pr : Preferred) : Prop :=
  ∀ x, x ∈ pr → x.2 = x.1.1 ∨ x.2 = x.1.2.
Lemma canonical_key a b : canonical_hybrid_key a b = (a, b) ∨ canonical_hybrid_key a b = (b, a).
Proof. unfold canonical_hybrid_key. case_match; [by left|by right]. Qed.
Lemma auto_pay_hybrid_half p a b d n : auto_pay_hybrid p a b d n ∈ [a; b].
Proof. unfold auto_pay_hybrid. repeat case_match; set_solver. Qed.
Lemma select_hybrid_half p a b d n pr :
  preferred_ok pr →
  (select_hybrid_payment_color p a b d n pr).1 ∈ [a; b] ∧
  preferred_ok (select_hybrid_payment_color p a b d n pr).2.
Proof.
  intros Hpr. unfold select_hybrid_payment_color.
  assert (∀ c, c = (canonical_hybrid_key a b).1 ∨ c = (canonical_hybrid_key a b).2 ↔ c ∈ [a; b]) as Hkey.
  { intros c. destruct (canonical_key a b) as [-> | ->]; set_solver. }
  destruct (find_first _ pr) as [x|] eqn:Hf; simpl.
  - apply find_first_Some in Hf as [Hx [Hk%bool_decide_eq_true _]%andb_true_iff].
    split; [|done]. apply Hkey. rewrite <-Hk. by apply Hpr.
  - set (c := auto_pay_hybrid p a b d n).
    assert (c ∈ [a; b]) as Hc by apply auto_pay_hybrid_half. split; [done|].
    intros x Hx. assert (x ∈ pr ∨ x = (canonical_hybrid_key a b, c)) as [?| ->]; [|by apply Hpr|].
    + destruct (position _ pr) as [i|]; [|by rewrite elem_of_app, list_elem_of_singleton in Hx].
      apply list_elem_of_lookup in Hx as [j Hj]. apply list_lookup_insert_Some in Hj as [(_&->&_)|[_ Hj]];
        [by right|left; by eapply list_elem_of_lookup_2].
    + by apply Hkey.
Qed.

(** The explicit choice at a position, and the life it asks for. *)
Definition explicit_choice (k : nat) : option ShardChoice := phyrexian_choices ≫= λ cs, cs !! k.
Definition life_of (c : ShardChoice) : nat := if bool_decide (c = PayLife) then 1 else 0.
Definition next_explicit (t : Tally) : option ShardChoice :=
  phyrexian_choices ≫= λ cs, cs !! choice_cursor t.
(** The symbol [req] is paid by [us] and [n] times two life. *)
Record paid_from (req : ShardRequirement) p (t : Tally) (us : list ManaUnit) (n : nat)
    (t' : Tally) p' : Prop := {
  pf_spent : spent t' = spent t ++ us;
  pf_life : life_payments t' = life_payments t ++ replicate n {| amount := 2 |};
  pf_debited : debited p us p';
  pf_meets : meets spell permission req us n;
  pf_preferred : preferred_ok (preferred_hybrid_colors t');
  pf_cursor : choice_cursor t' =
    match is_phyrexian_requirement req, next_explicit t with
    | true, Some _ => S (choice_cursor t)
    | _, _ => choice_cursor t
    end;
  pf_chosen c : is_phyrexian_requirement req → next_explicit t = Some c →
    n = life_of c;
}.

Lemma takes_one_color c :
  takes (spend_one_color spell permission pins c)
    (pays_as spell [c] any : ManaUnit → Prop) (pays_as spell [c] false).
Proof.
  unfold spend_one_color. destruct any; [|apply takes_eligible_as].
  eapply takes_mono; [apply takes_required|done|].
  intros u [?|[[] _]]. by left.
Qed.
Definition same_but_preferred (t t' : Tally) : Prop :=
  spent t' = spent t ∧ life_payments t' = life_payments t ∧
  choice_cursor t' = choice_cursor t ∧ preferred_ok (preferred_hybrid_colors t').
Lemma spend_hybrid_pays idx a b t p :
  pool_wf p → preferred_ok (preferred_hybrid_colors t) →
  pays_to (spend_hybrid shards hand_demand spell permission pins idx a b t) p (λ ot p',
    same_but_preferred t ot.2 ∧ taken (pays_as spell [a; b] any) p ot.1 p').
Proof.
  intros Hwf Hpr. unfold spend_hybrid. destruct any.
  - eapply pays_bind; [by eapply takes_pays; [apply takes_required|]|].
    intros o p' Hwf' Ht. by apply pays_ret.
  - eapply pays_bind; [by apply (pays_get _ (λ q q', q = p ∧ q' = p))|].
    intros q q' _ [-> ->].
    pose proof (select_hybrid_half p a b hand_demand (count_remaining_hybrid_shards shards idx a b)
      _ Hpr) as [Hc Hpr'].
    destruct (select_hybrid_payment_color _ _ _ _ _ _) as [c pr]. simpl in *.
    eapply pays_bind; [by eapply takes_pays; [apply takes_eligible|]|].
    intros o p' Hwf' Ht. apply pays_ret; [done|]. split; [done|].
    destruct o as [u|]; [|done]. destruct Ht as [Hu ?]. split; [|done]. left. by exists c.
Qed.
Lemma two_generic_pays p demand :
  pool_wf p → pays_to (two_required (spend_generic_eligible spell demand pins)) p
    (λ us p', length us = 2%nat ∧ Forall (permits spell) us ∧ debited p us p').
Proof.
  intros Hwf. pose proof (takes_generic (ManaSpellGrant:=ManaSpellGrant) spell pins demand) as Hg.
  eapply pays_bind; [by eapply require_pays|]. intros u p1 Hwf1 [Hu Hd1].
  eapply pays_bind; [by eapply require_pays|]. intros v p2 Hwf2 [Hv Hd2].
  apply pays_ret; [done|]. split_and!; [done| |by apply (debited_app _ [u] p1 [v])].
  by repeat constructor.
Qed.
Lemma two_or_none_pays p m (P A : ManaUnit → Prop) :
  takes m P A → pool_wf p → pays_to (two_or_none m) p (λ o p',
    match o with
    | Some us => length us = 2%nat ∧ Forall P us ∧ debited p us p'
    | None => p' = p
    end).
Proof.
  intros Hm Hwf. unfold two_or_none, pays_to, mbind, stM_bind, mret, stM_ret.
  destruct (Hm p Hwf) as [(u&p1&->&Hu&Hd1)|[-> _]]; [|done].
  destruct (Hm p1 (proj1 Hd1)) as [(v&p2&->&Hv&Hd2)|[-> _]]; simpl; [|done].
  pose proof (debited_app _ [u] p1 [v] p2 Hd1 Hd2) as Hd. split; [apply Hd|].
  split_and!; [done| |done]. by repeat constructor.
Qed.
Lemma pay_two_generic_hybrid_pays c p :
  pool_wf p → pays_to (pay_two_generic_hybrid spell permission pins c) p
    (λ us p', mana_meets spell permission (TwoGenericHybrid c) us ∧ debited p us p').
Proof.
  intros Hwf. unfold pay_two_generic_hybrid. cbn [mana_meets]. destruct any.
  - eapply pays_bind; [by eapply require_pays; [apply takes_required|]|].
    intros u p' Hwf' [Hu Hd]. apply pays_ret; [done|]. split; [|done]. left. by exists u.
  - eapply pays_bind; [by eapply takes_pays; [apply (takes_eligible_as _ _ _ false)|]|].
    intros [u|] p' Hwf' Ht.
    + destruct Ht as [Hu Hd]. apply pays_ret; [done|]. split; [|done]. left. by exists u.
    + unfold taken in Ht. subst p'. eapply pays_mono; [by apply two_generic_pays|].
      intros us p' (?&?&?). split; [by right|done].
Qed.
Lemma auto_two_generic_hybrid_pays c p :
  pool_wf p → pays_to (auto_two_generic_hybrid spell permission pins c) p
    (λ o p', match o with
             | Some us => mana_meets spell permission (TwoGenericHybrid c) us ∧ debited p us p'
             | None => p' = p
             end).
Proof.
  intros Hwf. unfold auto_two_generic_hybrid. cbn [mana_meets]. destruct any.
  - eapply pays_bind; [by eapply takes_pays; [apply takes_required|]|].
    intros [u|] p' Hwf' Ht; apply pays_ret; try done.
    destruct Ht as [Hu Hd]. split; [|done]. left. by exists u.
  - eapply pays_bind; [by eapply takes_pays; [apply (takes_eligible_as _ _ _ false)|]|].
    intros [u|] p' Hwf' Ht.
    + destruct Ht as [Hu Hd]. apply pays_ret; [done|]. split; [|done]. left. by exists u.
    + unfold taken in Ht. subst p'.
      eapply pays_mono; [by eapply two_or_none_pays; [apply takes_generic|]|].
      intros [us|] p' H1; [|done]. destruct H1 as (?&?&?). split; [by right|done].
Qed.

Local Abbreviation pay_req :=
  (pay_requirement shards generic hand_demand spell permission phyrexian_choices pins).

(** A strict symbol: units, no life, no choice. *)
Lemma paid_strict req p t us t1 p' :
  is_phyrexian_requirement req = false → same_but_preferred t t1 →
  mana_meets spell permission req us → debited p us p' →
  paid_from req p t us 0 (push_units us t1) p'.
Proof.
  intros Hreq (Hs&Hl&Hc&Hp) Hm Hd. split; simpl; try done.
  - by rewrite Hs.
  - by rewrite Hl, app_nil_r.
  - by left.
  - by rewrite Hreq.
  - by rewrite Hreq.
Qed.
(** A Phyrexian symbol paid with mana or with life, the tally past its choice. *)
Lemma paid_choice_mana req p t us t1 p' :
  is_phyrexian_requirement req = true →
  same_but_preferred (next_choice phyrexian_choices t).2 t1 →
  next_explicit t ≠ Some PayLife →
  mana_meets spell permission req us → debited p us p' →
  paid_from req p t us 0 (push_units us t1) p'.
Proof.
  intros Hreq (Hs&Hl&Hc&Hp) Hne Hm Hd. unfold next_choice in Hs, Hl, Hc. fold (next_explicit t) in *.
  simpl in *. split; simpl; rewrite ?Hreq, ?Hs, ?Hl, ?Hc, ?app_nil_r; try done.
  - by destruct (next_explicit t).
  - by destruct (next_explicit t); rewrite ?app_nil_r.
  - by left.
  - by destruct (next_explicit t).
  - intros c _ Hnext. unfold life_of. rewrite bool_decide_false; [done|]. naive_solver.
Qed.
Lemma paid_choice_life req p t t1 :
  is_phyrexian_requirement req = true → pool_wf p →
  same_but_preferred (next_choice phyrexian_choices t).2 t1 →
  next_explicit t ≠ Some PayMana →
  paid_from req p t [] 1 (push_life t1) p.
Proof.
  intros Hreq Hwf (Hs&Hl&Hc&Hp) Hne. unfold next_choice in Hs, Hl, Hc. fold (next_explicit t) in *.
  simpl in *. split; simpl; rewrite ?Hreq, ?Hs, ?Hl, ?Hc, ?app_nil_r; try done.
  - by destruct (next_explicit t).
  - by destruct (next_explicit t).
  - right. by rewrite Hreq.
  - by destruct (next_explicit t).
  - intros c _ Hnext. destruct c; [by destruct Hne|]. done.
Qed.
Lemma next_choice_preferred t :
  preferred_ok (preferred_hybrid_colors t) →
  preferred_ok (preferred_hybrid_colors (next_choice phyrexian_choices t).2).
Proof. unfold next_choice. simpl. by destruct (phyrexian_choices ≫= _). Qed.

(** The mana and life branches shared by the Phyrexian symbols. *)
Lemma pays_phyrexian req p t (mana : Tally → payM (list ManaUnit * Tally))
    (auto : Tally → payM (option (list ManaUnit) * Tally)) :
  is_phyrexian_requirement req = true → pool_wf p → preferred_ok (preferred_hybrid_colors t) →
  (∀ t, preferred_ok (preferred_hybrid_colors t) → pays_to (mana t) p (λ ut p',
     same_but_preferred t ut.2 ∧ mana_meets spell permission req ut.1 ∧ debited p ut.1 p')) →
  (∀ t, preferred_ok (preferred_hybrid_colors t) → pays_to (auto t) p (λ ot p',
     same_but_preferred t ot.2 ∧ match ot.1 with
       | Some us => mana_meets spell permission req us ∧ debited p us p' | None => p' = p end)) →
  let t1 := (next_choice phyrexian_choices t).2 in
  pays_to (match (next_choice phyrexian_choices t).1 with
     | Some PayLife => mret (push_life t1)
     | Some PayMana => '(us, t2) ← mana t1; mret (push_units us t2)
     | None =>
         spare ← can_spare generic;
         '(o, t2) ← (if (spare : bool) then auto t1 else mret (None, t1));
         match o with Some us => mret (push_units us t2) | None => mret (push_life t2) end
     end) p (λ t' p', ∃ us n, paid_from req p t us n t' p').
Proof.
  intros Hreq Hwf Hpr Hmana Hauto t1.
  pose proof (next_choice_preferred t Hpr) as Hpr1. fold t1 in Hpr1.
  assert (same_but_preferred t1 t1) as Hrefl by done.
  change ((next_choice phyrexian_choices t).1) with (next_explicit t).
  destruct (next_explicit t) as [[]|] eqn:Hn.
  - eapply pays_bind; [by apply Hmana|]. intros [us t2] p' Hwf' (Hs&Hm&Hd).
    apply pays_ret; [done|]. exists us, 0%nat. apply paid_choice_mana; try done. congruence.
  - apply pays_ret; [done|]. exists [], 1%nat. apply paid_choice_life; try done. congruence.
  - eapply pays_bind; [by apply (pays_bind get _ _ (λ q q', q' = p) (λ _ q', q' = p));
      [apply pays_get|intros q q' _ ->; apply pays_ret]|].
    intros spare q _ ->. destruct spare.
    + eapply pays_bind; [by apply Hauto|]. intros [[us|] t2] p' Hwf' [Hs Ho]; simpl in *.
      * apply pays_ret; [done|]. exists us, 0%nat. apply paid_choice_mana; try done; [congruence|tauto..].
      * subst p'. apply pays_ret; [done|]. exists [], 1%nat. apply paid_choice_life; try done. congruence.
    + eapply pays_bind; [by apply (pays_ret _ _ (λ ot q', ot = (None, t1) ∧ q' = p))|].
      intros [o t2] q _ [[= -> ->] ->]. apply pays_ret; [done|]. exists [], 1%nat.
      apply paid_choice_life; try done. congruence.
Qed.

Lemma pays_ext {A} (m m' : payM A) p Q : m' p = m p → pays_to m p Q → pays_to m' p Q.
Proof. unfold pays_to. by intros ->. Qed.
Lemma pays_strict req p t us_t :
  is_phyrexian_requirement req = false → preferred_ok (preferred_hybrid_colors t) →
  pays_to us_t p (λ ut p', same_but_preferred t ut.2 ∧
    mana_meets spell permission req ut.1 ∧ debited p ut.1 p') →
  pays_to ('(us, t1) ← us_t; mret (push_units us t1)) p (λ t' p', ∃ us n, paid_from req p t us n t' p').
Proof.
  intros Hreq Hpr Hm. eapply pays_bind; [exact Hm|].
  intros [us t1] p' Hwf' (Hs&Hmm&Hd). apply pays_ret; [done|]. exists us, 0%nat. by apply paid_strict.
Qed.
(** A unit required for a strict symbol. *)
Lemma pays_strict_unit req p t m P A :
  is_phyrexian_requirement req = false → preferred_ok (preferred_hybrid_colors t) → pool_wf p →
  takes m P A → (∀ u, P u → mana_meets spell permission req [u]) →
  pays_to (u ← require m; mret (push_units [u] t)) p (λ t' p', ∃ us n, paid_from req p t us n t' p').
Proof.
  intros Hreq Hpr Hwf Hm HP.
  apply (pays_ext ('(us, t1) ← (u ← require m; mret ([u], t)); mret (push_units us t1))).
  { unfold mbind, stM_bind. by destruct (require m p) as [[]]. }
  apply pays_strict; [done..|]. eapply pays_bind; [by eapply require_pays|].
  intros u p' Hwf' [Hu Hd]. apply pays_ret; [done|]. split; [done|]. split; [by apply HP|done].
Qed.

Section requirement.
Context (idx : nat) (t : Tally) (p : ManaPool).
Context (Hwf : pool_wf p) (Hpr : preferred_ok (preferred_hybrid_colors t)).
Local Abbreviation symbol_paid req :=
  (pays_to (pay_req idx req t) p (λ t' p', ∃ us n, paid_from req p t us n t' p')).

Lemma required_hybrid_pays a b t1 :
  preferred_ok (preferred_hybrid_colors t1) →
  pays_to ('(u, t2) ← require_pair (spend_hybrid shards hand_demand spell permission pins idx a b t1);
           mret ([u], t2)) p
    (λ ut p', same_but_preferred t1 ut.2 ∧
       mana_meets spell permission (Hybrid a b) ut.1 ∧ debited p ut.1 p').
Proof using Hwf.
  intros Hpr1. unfold require_pair. eapply pays_bind.
  - eapply pays_bind; [by apply (spend_hybrid_pays idx a b t1)|].
    intros [[u|] t2] p' Hwf' [Hs Ho]; [|done].
    apply (pays_ret (u, t2) p' (λ ut q, same_but_preferred t1 ut.2 ∧
      taken (pays_as spell [a; b] any) p (Some ut.1) q)); done.
  - intros [u t2] p' Hwf' [Hs [Hu Hd]]. apply pays_ret; [done|]. split; [done|].
    split; [by exists u|done].
Qed.
Lemma pay_single m : symbol_paid (Single m).
Proof using Hwf Hpr.
  cbn [pay_requirement].
  destruct (permits_as permission m) eqn:Hm; eapply pays_strict_unit; try done;
    [apply takes_required| |apply takes_eligible_as|]; intros u Hu; exists u; by rewrite Hm.
Qed.
Lemma pay_colorless_hybrid c : symbol_paid (ColorlessHybrid c).
Proof using Hwf Hpr.
  cbn [pay_requirement].
  assert (takes (if any
                 then spend_any_for_required_colors [ManaType.Colorless; c] spell None pins
                 else or_spend (spend_eligible ManaType.Colorless spell pins)
                        (spend_eligible c spell pins))
    (pays_as spell [ManaType.Colorless; c] any : ManaUnit → Prop) (λ _, False)) as Ht.
  { destruct any; [by eapply takes_mono; [apply takes_required|..]|].
    eapply takes_mono; [apply takes_or; apply takes_eligible| |done].
    intros u [Hu|Hu]; left; [exists ManaType.Colorless|exists c]; (split; [set_solver|done]). }
  eapply pays_strict_unit; try done. intros u Hu. by exists u.
Qed.
Lemma pay_hybrid a b : symbol_paid (Hybrid a b).
Proof using Hwf Hpr.
  cbn [pay_requirement].
  eapply pays_ext; [|apply (pays_strict (Hybrid a b) p t _ eq_refl Hpr (required_hybrid_pays a b t Hpr))].
  unfold mbind, stM_bind. by destruct (require_pair _ p) as [[[]| |]].
Qed.
Lemma pay_two_generic c : symbol_paid (TwoGenericHybrid c).
Proof using Hwf Hpr.
  cbn [pay_requirement].
  eapply pays_ext; [|apply (pays_strict (TwoGenericHybrid c) p t
    (us ← pay_two_generic_hybrid spell permission pins c; mret (us, t)) eq_refl Hpr)].
  - unfold mbind, stM_bind. by destruct (pay_two_generic_hybrid _ _ _ _ p) as [[]].
  - eapply pays_bind; [by apply pay_two_generic_hybrid_pays|].
    intros us p' Hwf' [Hm Hd]. by apply pays_ret.
Qed.
Lemma pay_phyrexian c : symbol_paid (Phyrexian c).
Proof using Hwf Hpr.
  cbn [pay_requirement].
  eapply pays_ext; [|apply (pays_phyrexian (Phyrexian c) p t
    (λ t, u ← require (spend_one_color spell permission pins c); mret ([u], t))
    (λ t, o ← spend_one_color spell permission pins c; mret ((λ u, [u]) <$> o, t)))]; try done.
  - destruct (next_choice _ t) as [[[]|] t1]; simpl; unfold mbind, stM_bind; try done.
    + by destruct (require _ p) as [[]].
    + destruct (can_spare generic p) as [[[]| |] q]; try done.
      by destruct (spend_one_color _ _ _ _ q) as [[[]| |]].
  - intros t1 Hpr1. eapply pays_bind; [by eapply require_pays; [apply takes_one_color|]|].
    intros u p' Hwf' [Hu Hd]. apply pays_ret; [done|]. split; [done|]. split; [by exists u|done].
  - intros t1 Hpr1. eapply pays_bind; [by eapply takes_pays; [apply takes_one_color|]|].
    intros [u|] p' Hwf' Ho; apply pays_ret; try done.
    destruct Ho as [Hu Hd]. split; [done|]. split; [by exists u|done].
Qed.
Lemma pay_hybrid_phyrexian a b : symbol_paid (HybridPhyrexian a b).
Proof using Hwf Hpr.
  cbn [pay_requirement].
  eapply pays_ext; [|apply (pays_phyrexian (HybridPhyrexian a b) p t
    (λ t, '(u, t) ← require_pair (spend_hybrid shards hand_demand spell permission pins idx a b t);
          mret ([u], t))
    (λ t, '(o, t) ← spend_hybrid shards hand_demand spell permission pins idx a b t;
          mret ((λ u, [u]) <$> o, t)))]; try done.
  - destruct (next_choice _ t) as [[[]|] t1]; simpl; unfold mbind, stM_bind; try done.
    + by destruct (require_pair _ p) as [[[]| |]].
    + destruct (can_spare generic p) as [[[]| |] q]; try done.
      by destruct (spend_hybrid _ _ _ _ _ _ _ _ _ q) as [[[[]]| |]].
  - intros t1 Hpr1. by apply (required_hybrid_pays a b).
  - intros t1 Hpr1. eapply pays_bind; [by apply (spend_hybrid_pays idx a b t1)|].
    intros [[u|] t2] p' Hwf' [Hs Ho]; apply pays_ret; try done.
    destruct Ho as [Hu Hd]. split; [done|]. split; [by exists u|done].
Qed.
Lemma pay_two_generic_phyrexian c : symbol_paid (TwoGenericHybridPhyrexian c).
Proof using Hwf Hpr.
  cbn [pay_requirement].
  eapply pays_ext; [|apply (pays_phyrexian (TwoGenericHybridPhyrexian c) p t
    (λ t, us ← pay_two_generic_hybrid spell permission pins c; mret (us, t))
    (λ t, o ← auto_two_generic_hybrid spell permission pins c; mret (o, t)))]; try done.
  - destruct (next_choice _ t) as [[[]|] t1]; simpl; unfold mbind, stM_bind; try done.
    + by destruct (pay_two_generic_hybrid _ _ _ _ p) as [[]].
    + destruct (can_spare generic p) as [[[]| |] q]; try done.
      by destruct (auto_two_generic_hybrid _ _ _ _ q) as [[[]| |]].
  - intros t1 Hpr1. eapply pays_bind; [by apply pay_two_generic_hybrid_pays|].
    intros us p' Hwf' [Hm Hd]. by apply pays_ret.
  - intros t1 Hpr1. eapply pays_bind; [by apply auto_two_generic_hybrid_pays|].
    intros o p' Hwf' Ho. by apply pays_ret.
Qed.
Lemma pay_requirement_pays req : symbol_paid req.
Proof using Hwf Hpr.
  destruct req.
  - apply pay_single.
  - apply pay_hybrid.
  - apply pay_phyrexian.
  - apply pay_two_generic.
  - cbn [pay_requirement]. eapply pays_strict_unit; try done; [apply takes_snow|]. intros u Hu. by exists u.
  - cbn [pay_requirement]. eapply pays_strict_unit; try done; [apply takes_two_or_more|].
    intros u Hu. by exists u.
  - apply pays_ret; [done|]. exists [], 0%nat. split; rewrite ?app_nil_r; try done. by left.
  - apply pay_colorless_hybrid.
  - apply pay_hybrid_phyrexian.
  - apply pay_two_generic_phyrexian.
Qed.
End requirement.

(** ** All the symbols, and the generic part *)
Variable lifes : LifePaymentColors.t.
Definition phyrexian_indices (order : list nat) : list nat :=
  List.filter (phyrexian_at shards lifes) order.
Definition life_chosen (cs : list ShardChoice) : nat :=
  length (List.filter (λ c, bool_decide (c = PayLife)) cs).

(** [n] is the life chosen for symbol [i], the symbols of [order] taking the choices from
    [cursor] on. *)
Definition as_chosen (order : list nat) (cursor i n : nat) : Prop :=
  ∀ k c, phyrexian_indices order !! k = Some i → explicit_choice (cursor + k) = Some c → n = life_of c.
Lemma elem_of_indices i order : i ∈ phyrexian_indices order → i ∈ order.
Proof. unfold phyrexian_indices. by intros [? _]%elem_of_List_filter. Qed.
Lemma explicit_before j k c : explicit_choice k = Some c → (j ≤ k)%nat → is_Some (explicit_choice j).
Proof.
  unfold explicit_choice. destruct phyrexian_choices as [cs|]; [|done]. cbn.
  intros Hk%lookup_lt_Some Hj. apply lookup_lt_is_Some_2. lia.
Qed.
(** The first symbol paid takes the choice at the cursor, the others those behind it. *)
Lemma as_chosen_first i order req t us n t' p p' :
  i ∉ order → phyrexian_at shards lifes i = is_phyrexian_requirement req →
  paid_from req p t us n t' p' → as_chosen (i :: order) (choice_cursor t) i n.
Proof.
  intros Hi Hph Hpaid k c Hk Hc. unfold phyrexian_indices in Hk. cbn [List.filter] in Hk.
  rewrite Hph in Hk. destruct (is_phyrexian_requirement req) eqn:Hreq.
  - destruct k as [|k]; cbn in Hk.
    + rewrite Nat.add_0_r in Hc. apply (pf_chosen _ _ _ _ _ _ _ Hpaid); [by rewrite Hreq|done].
    + destruct Hi. by eapply elem_of_indices, list_elem_of_lookup_2.
  - destruct Hi. by eapply elem_of_indices, list_elem_of_lookup_2.
Qed.
Lemma as_chosen_later i order req t us n t' p p' (parts : list (list ManaUnit * nat)) :
  i ∉ order → phyrexian_at shards lifes i = is_phyrexian_requirement req →
  paid_from req p t us n t' p' →
  Forall2 (λ j x, as_chosen order (choice_cursor t') j x.2) order parts →
  Forall2 (λ j x, as_chosen (i :: order) (choice_cursor t) j x.2) order parts.
Proof.
  intros Hi Hph Hpaid Hall. apply Forall2_same_length_lookup_2; [by eapply Forall2_length|].
  intros o j x Hj Hx. destruct (Forall2_lookup_l _ _ _ _ _ Hall Hj) as (x'&Hx'&Hch). simplify_eq.
  assert (j ≠ i) as Hne by (intros ->; apply Hi; by eapply list_elem_of_lookup_2).
  pose proof (pf_cursor _ _ _ _ _ _ _ Hpaid) as Hcur.
  intros k c Hk Hc. unfold phyrexian_indices in Hk. cbn [List.filter] in Hk. rewrite Hph in Hk.
  destruct (is_phyrexian_requirement req).
  - destruct k as [|k]; cbn in Hk; [congruence|].
    destruct (explicit_before (choice_cursor t) _ _ Hc) as [c' Hc']; [lia|].
    change (next_explicit t) with (explicit_choice (choice_cursor t)) in Hcur. rewrite Hc' in Hcur. apply (Hch k c Hk).
    rewrite Hcur. by rewrite Nat.add_succ_comm.
  - apply (Hch k c Hk). by rewrite Hcur.
Qed.

Lemma pay_shards_pays order t p :
  NoDup order → pool_wf p → preferred_ok (preferred_hybrid_colors t) →
  (∀ i, i ∈ order → (i < length shards)%nat) →
  pays_to (pay_shards shards generic hand_demand spell permission phyrexian_choices lifes pins order t) p
    (λ t' p', ∃ parts,
      Forall2 (λ i x, ∃ s, shards !! i = Some s ∧
                 meets spell permission (requirement_under lifes s) x.1 x.2) order parts ∧
      Forall2 (λ i x, as_chosen order (choice_cursor t) i x.2) order parts ∧
      spent t' = spent t ++ concat parts.*1 ∧
      life_payments t' = life_payments t ++ replicate (sum_list parts.*2) {| amount := 2 |} ∧
      debited p (concat parts.*1) p' ∧
      ∀ cs, phyrexian_choices = Some cs →
        (choice_cursor t + length (phyrexian_indices order) ≤ length cs)%nat →
        sum_list parts.*2 =
          life_chosen (take (length (phyrexian_indices order)) (drop (choice_cursor t) cs))).
Proof.
  intros Hnd. revert t p. induction Hnd as [|i order Hi Hnd IH]; intros t p Hwf Hpr Hin; cbn [pay_shards].
  { apply pays_ret; [done|]. exists []. simpl. rewrite !app_nil_r.
    split_and!; [constructor|constructor|done..]. }
  destruct (lookup_lt_is_Some_2 shards i) as [s Hs]; [apply Hin; left|].
  unfold pay_shard. rewrite Hs.
  eapply pays_bind; [by apply pay_requirement_pays|]. intros t1 p1 Hwf1 (us&n&Hpaid).
  pose proof Hpaid as [Hsp Hlf Hd Hm Hpr1 Hcur Hch].
  eapply pays_mono; [apply (IH t1 p1 Hwf1 Hpr1); intros j Hj; apply Hin; by right|].
  intros t' p' (parts&Hparts&Hchosen&Hsp'&Hlf'&Hd'&Hcs'). exists ((us, n) :: parts).
  cbn [fmap list_fmap fst snd]. cbn [concat sum_list].
  assert (phyrexian_at shards lifes i = is_phyrexian_requirement (requirement_under lifes s)) as Hat
    by (unfold phyrexian_at; by rewrite Hs).
  split_and!.
  - constructor; [by exists s|done].
  - constructor; [by eapply as_chosen_first|by eapply as_chosen_later].
  - by rewrite Hsp', Hsp, app_assoc.
  - by rewrite Hlf', Hlf, replicate_add, app_assoc.
  - by eapply debited_app.
  - intros cs Hcs Hlen. unfold phyrexian_indices in *. cbn [List.filter] in *.
    unfold phyrexian_at at 1 in Hlen. unfold phyrexian_at at 1. rewrite Hs in Hlen |- *.
    unfold next_explicit in Hcur, Hch. rewrite Hcs in Hcur, Hch. cbn [mbind option_bind] in Hcur, Hch.
    destruct (is_phyrexian_requirement (requirement_under lifes s)) eqn:Hph;
      try rewrite Hph in Hcur, Hch, Hm.
    + cbn [length] in Hlen |- *.
      destruct (lookup_lt_is_Some_2 cs (choice_cursor t)) as [c Hc]; [lia|]. rewrite Hc in Hcur, Hch.
      rewrite (drop_S _ _ _ Hc). cbn [take]. rewrite (Hch c I eq_refl), (Hcs' cs Hcs), Hcur by (rewrite Hcur; lia).
      unfold life_chosen, life_of. cbn [List.filter]. by destruct (bool_decide _).
    + rewrite (Hcs' cs Hcs), Hcur by (rewrite Hcur; lia). unfold meets in Hm. rewrite Hph in Hm.
      destruct Hm as [[-> _]|[[] _]]. done.
Qed.

Lemma pay_repeatedly_pays n m (P A : ManaUnit → Prop) t p :
  takes m P A → pool_wf p →
  pays_to (pay_repeatedly n m t) p (λ t' p', ∃ us, length us = n ∧ Forall P us ∧
    spent t' = spent t ++ us ∧ life_payments t' = life_payments t ∧ debited p us p').
Proof.
  intros Hm. revert t p. induction n as [|n IH]; intros t p Hwf; cbn [pay_repeatedly].
  { apply pays_ret; [done|]. exists []. by rewrite app_nil_r. }
  eapply pays_bind; [by eapply require_pays|]. intros u p1 Hwf1 [Hu Hd].
  eapply pays_mono; [by apply IH|]. intros t' p' (us&Hl&HP&Hs&Hlf&Hd'). exists (u :: us).
  split_and!; [by rewrite <-Hl|by constructor| |done|by apply (debited_app _ [u] p1 us)].
  rewrite Hs. cbn [push_units spent]. by rewrite <-app_assoc.
Qed.
Lemma pay_generic_pays t p :
  pool_wf p →
  pays_to (pay_generic generic hand_demand spell permission pins t) p (λ t' p', ∃ xs gs,
    generic_paid spell permission generic xs gs ∧ spent t' = spent t ++ xs ++ gs ∧
    life_payments t' = life_payments t ∧ debited p (xs ++ gs) p').
Proof.
  intros Hwf. unfold pay_generic, generic_paid. destruct (restricted_x generic spell) as [types count].
  eapply pays_bind; [by eapply pay_repeatedly_pays; [apply takes_restricted|]|].
  intros t1 p1 Hwf1 (xs&Hxl&Hxs&Hs1&Hl1&Hd1).
  eapply pays_mono; [by eapply pay_repeatedly_pays; [apply takes_generic|]|].
  intros t2 p2 (gs&Hgl&Hgs&Hs2&Hl2&Hd2). exists xs, gs.
  split_and!; try done; [lia|lia|by rewrite Hs2, Hs1, app_assoc|congruence|by eapply debited_app].
Qed.
End symbol.

(** ** Whole costs *)
Lemma filter_partition {A} (f : A → bool) (l : list A) :
  List.filter (λ x, negb (f x)) l ++ List.filter f l ≡ₚ l.
Proof.
  induction l as [|x l IH]; [done|]. simpl. destruct (f x); simpl; [|by constructor].
  rewrite <-Permutation_middle. by constructor.
Qed.
Lemma filter_filtered {A} (f : A → bool) (l : list A) :
  List.filter f (List.filter (λ x, negb (f x)) l) = [] ∧
  List.filter f (List.filter f l) = List.filter f l.
Proof.
  induction l as [|x l [IH1 IH2]]; [done|]. simpl.
  destruct (f x) eqn:Hx; simpl; rewrite ?Hx; split; congruence.
Qed.
Definition symbols (shards : list ManaCostShard.t) : list nat := seq 0 (length shards).
Lemma deferred_order_perm shards lifes : phyrexian_deferred_order shards lifes ≡ₚ symbols shards.
Proof. apply filter_partition. Qed.
Lemma deferred_order_NoDup shards lifes : NoDup (phyrexian_deferred_order shards lifes).
Proof. rewrite deferred_order_perm. apply NoDup_seq. Qed.
Lemma Forall2_and_both {A B} (P Q : A → B → Prop) l k :
  Forall2 P l k → Forall2 Q l k → Forall2 (λ x y, P x y ∧ Q x y) l k.
Proof. intros HP. induction HP; inversion 1; constructor; auto. Qed.
Lemma deferred_phyrexian shards lifes :
  phyrexian_indices shards lifes (phyrexian_deferred_order shards lifes)
  = phyrexian_indices shards lifes (symbols shards).
Proof.
  unfold phyrexian_indices, phyrexian_deferred_order. rewrite List.filter_app.
  destruct (filter_filtered (phyrexian_at shards lifes) (symbols shards)) as [H1 H2].
  unfold symbols in *. by rewrite H1, H2.
Qed.
(** Parts in the order of payment are parts in the order of the cost. *)
Lemma parts_in_order {B} (P : nat → ManaCostShard.t → B → Prop) shards order (parts : list B) :
  order ≡ₚ symbols shards → Forall2 (λ i x, ∃ s, shards !! i = Some s ∧ P i s x) order parts →
  ∃ parts', parts ≡ₚ parts' ∧ length shards = length parts' ∧
    ∀ i s x, shards !! i = Some s → parts' !! i = Some x → P i s x.
Proof.
  intros Ho Hp. destruct (Permutation_Forall2 Ho Hp) as (parts'&Hperm&Hall). exists parts'.
  split; [done|]. pose proof (Forall2_length _ _ _ Hall) as Hlen. unfold symbols in *.
  rewrite length_seq in Hlen. split; [done|]. intros i s x Hs Hx. destruct (Forall2_lookup_r _ _ _ _ _ Hall Hx) as (j&Hj&s'&Hs'&HP).
  apply lookup_seq in Hj as [-> _]. simpl in Hs'. by simplify_eq.
Qed.

Section whole.
Variables (cost : ManaCost.t) (spell : Ctx) (permission : option ManaSpendPermission).
Variables (phyrexian_choices : option (list ShardChoice)) (lifes : LifePaymentColors.t) (pins : list N).

(** Life is paid for exactly the symbols chosen for it, when every symbol has a choice. *)
Definition choices_honoured (n : nat) : Prop :=
  ∀ shards generic cs, cost = ManaCost.Cost shards generic → phyrexian_choices = Some cs →
    (length (phyrexian_indices shards lifes (symbols shards)) ≤ length cs)%nat →
    n = life_chosen (take (length (phyrexian_indices shards lifes (symbols shards))) cs).
(** The choices go to the symbols that life can pay in the order of the cost: each such
    symbol that has one is paid by life when it says so, and without life when it does not. *)
Definition paid_as_chosen (lives : list nat) : Prop :=
  match cost with
  | ManaCost.Cost shards _ => ∀ k i c,
      phyrexian_indices shards lifes (symbols shards) !! k = Some i →
      explicit_choice phyrexian_choices k = Some c → lives !! i = Some (life_of c)
  | _ => True
  end.
Definition chosen_payment (us : list ManaUnit) (life : nat) : Prop := ∃ parts,
  payment_parts spell permission lifes cost us life parts ∧ paid_as_chosen parts.*2.
Lemma chosen_legal us life : chosen_payment us life → legal_payment spell permission lifes cost us life.
Proof. intros (parts&H&_). by eapply payment_parts_legal. Qed.
Definition sound_payment (pay : Payment) p p' : Prop :=
  chosen_payment pay.1 (length pay.2) ∧
  Forall (λ l, amount l = 2%Z) pay.2 ∧ debited p pay.1 p' ∧ choices_honoured (length pay.2).

Lemma once_pays hand_demand p :
  pool_wf p →
  pays_to (pay_cost_with_demand_and_choices_once cost hand_demand spell permission
             phyrexian_choices lifes pins) p (λ pay p', sound_payment pay p p').
Proof.
  intros Hwf. unfold pay_cost_with_demand_and_choices_once, sound_payment, choices_honoured.
  unfold chosen_payment, paid_as_chosen.
  destruct cost as [|shards generic| | |];
    try (apply pays_ret; [done|]; split; [by exists []|]; split; [constructor|];
         split; [by apply debited_nil|done]).
  eapply pays_bind.
  { apply pay_shards_pays; [apply deferred_order_NoDup|done|by intros x ?%elem_of_nil|].
    intros i Hi. rewrite deferred_order_perm in Hi. apply elem_of_seq in Hi. lia. }
  intros t p1 Hwf1 (parts&Hparts&Hchosen&Hsp&Hlf&Hd&Hch). eapply pays_bind; [by apply pay_generic_pays|].
  intros t' p2 Hwf2 (xs&gs&Hgen&Hsp'&Hlf'&Hd'). apply pays_ret; [done|]. cbn [fst snd].
  rewrite Hlf', Hlf, Hsp', Hsp. cbn [tally_start spent life_payments app].
  destruct (parts_in_order (λ i s x, meets spell permission (requirement_under lifes s) x.1 x.2 ∧
      as_chosen shards phyrexian_choices lifes (phyrexian_deferred_order shards lifes) 0 i x.2)
    shards _ parts (deferred_order_perm shards lifes)) as (parts'&Hperm&Hsame&Hall).
  { eapply Forall2_impl; [exact (Forall2_and_both _ _ _ _ Hparts Hchosen)|].
    intros i x [(s&Hs&Hm) Hc]. by exists s. }
  rewrite length_replicate. split_and!.
  - exists parts'. split; [exists xs, gs; split_and!; [|done|..]|].
    + apply Forall2_same_length_lookup_2; [done|]. intros i s x Hs Hx. by apply (Hall i s x).
    + apply Permutation_app_tail. by rewrite Hperm.
    + by rewrite Hperm.
    + intros k i c Hk Hc. rewrite list_lookup_fmap.
      destruct (lookup_lt_is_Some_2 shards i) as [s Hs].
      { apply list_elem_of_lookup_2, elem_of_indices, elem_of_seq in Hk. lia. }
      destruct (lookup_lt_is_Some_2 parts' i) as [x Hx]; [rewrite <-Hsame; by eapply lookup_lt_Some|].
      rewrite Hx. cbn. f_equal. apply (proj2 (Hall i s x Hs Hx) k c); [|done]. by rewrite deferred_phyrexian.
  - apply Forall_replicate. done.
  - by eapply debited_app.
  - intros shards' generic' cs [= <- <-] Hcs Hlen. rewrite <-deferred_phyrexian in Hlen |- *.
    by rewrite (Hch cs Hcs) by done.
Qed.
Lemma run_pays {A} (m : payM A) p (Q : A → ManaPool → Prop) :
  pays_to m p Q →
  match run m p with
  | Ok a => ∃ p', Q a p' | Err e => e = InsufficientMana | Panic => False
  end.
Proof. unfold pays_to, run. destruct (m p) as [[a|e|] p']; [|done..]. intros [_ ?]. by exists p'. Qed.
Lemma select_pays hand_demand p :
  pool_wf p →
  match select_mana_payment p cost hand_demand spell permission phyrexian_choices lifes pins with
  | Ok pay => ∃ p', sound_payment pay p p'
  | Err e => e = InsufficientMana
  | Panic => False
  end.
Proof.
  intros Hwf. unfold select_mana_payment. cbv zeta.
  pose proof (run_pays _ p _ (once_pays hand_demand p Hwf)) as H1.
  pose proof (run_pays _ p _ (once_pays None p Hwf)) as H2.
  destruct (run _ p) as [pay|[]|] eqn:E; [done| |done..].
  by destruct (bool_decide (is_Some hand_demand)).
Qed.
End whole.
End sound.
