(* ===== verification/PaymentRules.v ===== *)
(** * What the payment solver guarantees, and where it stops

    A selected payment is legal and comes from the pool; paying is all or nothing; for costs
    of coloured, colourless and generic symbols the solver finds a payment whenever there is
    one; beyond them it can refuse a cost that could be paid. *)
From S2P Require Import Prelude.
From S2P Require Import Text.
From S2P Require Import GameTypes.
From S2P Require Import ManaSymbols.
From S2P Require Import ManaCosts.
From S2P Require Import ManaRestrictions.
From S2P Require Import ManaUnits.
From S2P Require Import ManaPool.
From S2P Require Import ManaPoolOrder.
From S2P Require Import ManaPoolVec.
From S2P Require Import ManaShards.
From S2P Require Import ManaPayment.
From S2P Require Import PaymentSpend.
From S2P Require Import PaymentSound.
Local Open Scope N_scope.

Section rules.
Context {KeywordKind ManaSpellGrant : Type}.
Context `{EqDecision KeywordKind, EqDecision ManaSpellGrant}.
Local Abbreviation ManaUnit := (ManaUnit KeywordKind ManaSpellGrant).
Local Abbreviation ManaPool := (ManaPool KeywordKind ManaSpellGrant).
Local Abbreviation Ctx := (option (PaymentContext KeywordKind)).
Local Abbreviation payM := (stM ManaPool PaymentError).
Local Abbreviation Tally := (@Tally KeywordKind ManaSpellGrant).
Implicit Types (p : ManaPool) (u : ManaUnit) (t : Tally).

(** ** Removing exactly what was selected *)
Definition stamped (us : list ManaUnit) : list N :=
  List.filter (λ n, negb (n =? 0)) (pip_id <$> us).
(** No two units of the pool carry the same stamp. *)
Definition pips_unique p : Prop := NoDup (stamped (units p)).

Lemma stamped_cons u us : stamped (u :: us) = if pip_id u =? 0 then stamped us else pip_id u :: stamped us.
Proof. unfold stamped. cbn. by destruct (pip_id u =? 0). Qed.
Lemma duplicate_pip_None seen (us : list ManaUnit) :
  (∀ n, n ∈ stamped us → n ∉ seen) → NoDup (stamped us) → duplicate_pip seen us = None.
Proof.
  revert seen. induction us as [|u us IH]; intros seen Hs Hnd; [done|].
  rewrite stamped_cons in *. cbn [duplicate_pip].
  destruct (pip_id u =? 0); cbn [negb]; [by apply IH|].
  apply NoDup_cons in Hnd as [Hu Hnd]. rewrite bool_decide_false by (apply Hs; left).
  apply IH; [|done]. intros n Hn [->|Hin]%elem_of_cons; [done|]. apply (Hs n); [by right|done].
Qed.
Lemma vec_remove_exact_selected us (v rest : list ManaUnit) :
  v ≡ₚ us ++ rest → ∃ v', vec_remove_exact us v = (Ok (), v') ∧ v' ≡ₚ rest.
Proof.
  revert v. induction us as [|u us IH]; intros v Hv; [by exists v|]. cbn [vec_remove_exact].
  set (same := λ c : ManaUnit, bool_decide (pip_id c = pip_id u) && unit_eq c u).
  assert (∀ c, same c = true → c = u) as Hsame.
  { intros c [Hp%bool_decide_eq_true Hc]%andb_true_iff.
    rewrite unit_eq_shape in Hc. apply bool_decide_eq_true in Hc.
    rewrite <-(with_pip_shape c), <-(with_pip_shape u). congruence. }
  destruct (position same v) as [i|] eqn:Hi.
  - apply position_Some in Hi as (c&Hc&->%Hsame&_). apply IH.
    apply (Permutation_cons_inv (a:=u)). by rewrite <-(vec_swap_remove_perm i v u Hc).
  - exfalso. assert (same u = true) as Hu.
    { unfold same. rewrite bool_decide_true by done. rewrite unit_eq_shape. by apply bool_decide_eq_true. }
    rewrite (proj1 (position_None _ _) Hi u) in Hu; [done|]. rewrite Hv. left.
Qed.
Lemma remove_selected p us rest :
  pool_wf p → pips_unique p → units p ≡ₚ us ++ rest →
  ∃ p', remove_exact_mana_units us p = (Ok (), p') ∧ pool_wf p' ∧ units p' ≡ₚ rest ∧ same_stamps p p'.
Proof.
  intros Hwf Hnd Hu. unfold remove_exact_mana_units.
  assert (stamped (units p) ≡ₚ stamped us ++ stamped rest) as Hst.
  { unfold stamped. rewrite <-List.filter_app, <-fmap_app. by rewrite Hu. }
  unfold pips_unique in Hnd. rewrite Hst in Hnd. apply NoDup_app in Hnd as (Hnd&_&_).
  rewrite duplicate_pip_None; [|by intros n _ ?%elem_of_nil|done].
  destruct (vec_remove_exact_selected us (units p) rest Hu) as (v'&Hv&Hperm).
  destruct (remove_exact_refines us p Hwf) as (H1&[Hwf' Hu']&Hs).
  rewrite Hv in H1, Hu'. cbn [fst snd] in *. exists (remove_exact us p).2.
  assert (remove_exact us p = (Ok (), (remove_exact us p).2)) as He.
  { destruct (remove_exact us p). simpl in *. by subst. }
  unfold mbind, stM_bind, get, lift, run. rewrite H1. split_and!; [done|done| |done].
  by rewrite Hu'.
Qed.

(** C2. Every payment the solver selects is legal under the rules it models: each symbol is
    paid by units it admits in this context, or by two life where that is allowed, the
    generic part by exactly its number of units, all of them units of the pool.  The
    choices go to the symbols that life can pay in the order of the cost: each of them
    that has a choice is itself paid by life when the player chose life for it, and by
    units alone when the player chose mana.  The solver never panics and its only error
    is a lack of mana. *)
Theorem payment_sound p cost hand_demand spell permission choices lifes pins :
  pool_wf p →
  match select_mana_payment p cost hand_demand spell permission choices lifes pins with
  | Ok (us, ls) =>
      chosen_payment cost spell permission choices lifes us (length ls) ∧
      Forall (λ l, amount l = 2%Z) ls ∧ (∃ rest, units p ≡ₚ us ++ rest) ∧
      choices_honoured cost choices lifes (length ls)
  | Err e => e = InsufficientMana
  | Panic => False
  end.
Proof.
  intros Hwf. pose proof (select_pays cost spell permission choices lifes pins hand_demand p Hwf) as H.
  destruct (select_mana_payment _ _ _ _ _ _ _ _) as [[us ls]|e|]; [|done..].
  destruct H as (p'&Hl&Ha&(_&Hu&_)&Hc). split_and!; [done|done|by exists (units p')|done].
Qed.

(** C4. Paying is all or nothing: when a payment is selected exactly its units leave the
    pool, whatever their order and duplicates, and otherwise the pool is untouched and the
    caller is told why.  No unit is ever debited for a payment that fails. *)
Theorem payment_atomic p cost hand_demand spell permission choices lifes pins :
  pool_wf p → pips_unique p →
  match pay_cost_with_demand_and_choices cost hand_demand spell permission choices lifes pins p with
  | (Ok (us, ls), p') =>
      select_mana_payment p cost hand_demand spell permission choices lifes pins = Ok (us, ls) ∧
      legal_payment spell permission lifes cost us (length ls) ∧
      pool_wf p' ∧ units p ≡ₚ us ++ units p' ∧ same_stamps p p'
  | (Err e, p') =>
      p' = p ∧ select_mana_payment p cost hand_demand spell permission choices lifes pins = Err e
  | (Panic, _) => False
  end.
Proof.
  intros Hwf Hnd. pose proof (select_pays cost spell permission choices lifes pins hand_demand p Hwf) as H.
  unfold pay_cost_with_demand_and_choices, mbind, stM_bind, get, lift.
  destruct (select_mana_payment _ _ _ _ _ _ _ _) as [[us ls]|e|]; [|done..].
  destruct H as (p'&Hl%chosen_legal&_&(_&Hu&_)&_).
  destruct (remove_selected p us (units p') Hwf Hnd Hu) as (q&Hq&Hwfq&Huq&Hsq).
  unfold as_insufficient. cbn [fst]. rewrite Hq. cbn. split_and!; try done. by rewrite Huq.
Qed.

(** ** Plain costs *)
Section plain.
Variables (spell : Ctx) (pins : list N) (hand_demand : option ColorDemand).
Variable choices : option (list ShardChoice).
Variables (permission : option ManaSpendPermission) (lifes : LifePaymentColors.t).
Local Abbreviation legal := (legal_payment spell permission lifes).

(** The one type of mana a symbol takes: neither life nor another type may pay it. *)
Definition single_type (s : ManaCostShard.t) : option ManaType.t :=
  match requirement_under lifes s with
  | Single m => if permits_as permission m then None else Some m
  | _ => None
  end.
(** Coloured and colourless symbols which no permission opens to life or to other mana, and
    generic mana of no required colour. *)
Definition plain_cost (cost : ManaCost.t) : Prop :=
  match cost with
  | ManaCost.Cost shards generic =>
      Forall (λ s, is_Some (single_type s)) shards ∧ (restricted_x generic spell).2 = 0
  | _ => True
  end.

Definition having (P : ManaUnit → bool) (us : list ManaUnit) : nat := length (List.filter P us).
Definition wanted (m : ManaType.t) (ms : list ManaType.t) : nat :=
  length (List.filter (λ m', bool_decide (m' = m)) ms).
(** Enough units for each type and enough units in all. *)
Definition enough p (ms : list ManaType.t) (g : nat) : Prop :=
  (∀ m, (wanted m ms ≤ having (pays_color spell m) (units p))%nat) ∧
  (length ms + g ≤ having (permits spell) (units p))%nat.

Lemma having_cons P u us : having P (u :: us) = ((if P u then 1 else 0) + having P us)%nat.
Proof. unfold having. cbn. by destruct (P u). Qed.
Lemma having_app P us vs : having P (us ++ vs) = (having P us + having P vs)%nat.
Proof. unfold having. by rewrite List.filter_app, length_app. Qed.
Lemma having_all (P : ManaUnit → bool) us : Forall P us → having P us = length us.
Proof.
  unfold having. induction 1 as [|u us Hu _ IH]; [done|]. cbn. apply Is_true_true in Hu.
  rewrite Hu. cbn. by rewrite IH.
Qed.
Lemma having_pos P us : (0 < having P us)%nat → ∃ u, u ∈ us ∧ P u.
Proof.
  unfold having. intros Hl. destruct (List.filter P us) as [|u l] eqn:E; [simpl in Hl; lia|].
  assert (u ∈ List.filter P us) as Hu by (rewrite E; left).
  apply elem_of_List_filter in Hu as [? ?]. exists u. split; [done|]. by apply Is_true_true.
Qed.
#[local] Instance having_proper P : Proper ((≡ₚ) ==> (=)) (having P).
Proof. intros us vs Hp. unfold having. by rewrite Hp. Qed.
#[local] Instance wanted_proper m : Proper ((≡ₚ) ==> (=)) (wanted m).
Proof. intros us vs Hp. unfold wanted. by rewrite Hp. Qed.

Lemma single_type_Some s m : single_type s = Some m →
  requirement_under lifes s = Single m ∧ permits_as permission m = false.
Proof.
  unfold single_type. destruct (requirement_under lifes s) as [m'| | | | | | | | |]; try done.
  destruct (permits_as permission m') eqn:Hno; [done|]. by intros [= ->].
Qed.

(** A unit of each type wanted can be taken, leaving enough. *)
Lemma spend_enough p m ms g :
  pool_wf p → enough p (m :: ms) g →
  ∃ u p', spend_eligible m spell pins p = (Ok (Some u), p') ∧ pool_wf p' ∧ enough p' ms g.
Proof.
  intros Hwf [Hm Hg]. destruct (takes_eligible spell pins m p Hwf) as [(u&p'&E&Hu&Hd)|[_ Hn]].
  - exists u, p'. destruct Hd as (Hwf'&Hp&_). split; [done|]. split; [done|].
    pose proof (proj1 (Is_true_true _) Hu) as Hut.
    pose proof (proj1 (Is_true_true _) (pays_permits spell m u Hu)) as Hpt.
    split.
    + intros m'. specialize (Hm m'). rewrite Hp in Hm. cbn [app] in Hm. rewrite having_cons in Hm.
      unfold wanted in *. cbn [List.filter] in Hm.
      destruct (decide (m = m')) as [<-|Hne].
      * rewrite Hut, bool_decide_true in Hm by done. cbn in Hm. lia.
      * rewrite bool_decide_false in Hm by done.
        assert (pays_color spell m' u = false) as Hno; [|by rewrite Hno in Hm].
        unfold pays_color in Hut |- *. apply andb_true_iff in Hut as [[Hc _]%andb_true_iff _].
        apply bool_decide_eq_true in Hc. rewrite bool_decide_false by congruence. done.
    + rewrite Hp in Hg. cbn [app length] in Hg. rewrite having_cons, Hpt in Hg. lia.
  - exfalso. specialize (Hm m). unfold wanted in Hm. cbn [List.filter] in Hm.
    rewrite bool_decide_true in Hm by done. cbn [length] in Hm.
    destruct (having_pos (pays_color spell m) (units p)) as (u&Hu&HP); [lia|]. by apply (Hn u).
Qed.
Definition type_at (shards : list ManaCostShard.t) (i : nat) : ManaType.t :=
  default ManaType.Colorless (shards !! i ≫= single_type).
Lemma pay_shards_enough shards generic order t p g :
  Forall (λ s, is_Some (single_type s)) shards → (∀ i, i ∈ order → (i < length shards)%nat) →
  pool_wf p → enough p (type_at shards <$> order) g →
  ∃ t' p', pay_shards shards generic hand_demand spell permission choices lifes pins order t p
           = (Ok t', p') ∧ pool_wf p' ∧ enough p' [] g.
Proof.
  intros Hplain. revert t p. induction order as [|i order IH]; intros t p Hin Hwf Hen.
  { by exists t, p. }
  destruct (lookup_lt_is_Some_2 shards i) as [s Hs]; [apply Hin; left|].
  destruct (proj1 (Forall_lookup _ _) Hplain i s Hs) as [m Hm].
  cbn [pay_shards]. unfold pay_shard. rewrite Hs.
  rewrite fmap_cons in Hen. unfold type_at at 1 in Hen. rewrite Hs in Hen. cbn in Hen.
  rewrite Hm in Hen. cbn in Hen. apply single_type_Some in Hm as [-> Hno].
  destruct (spend_enough p m (type_at shards <$> order) g Hwf Hen) as (u&p1&E&Hwf1&Hen1).
  destruct (IH (push_units [u] t) p1 (λ j Hj, Hin j (list_elem_of_further _ _ _ Hj)) Hwf1 Hen1)
    as (t'&p'&E'&Hwf'&Hen'). exists t', p'. split; [|done].
  cbn [pay_requirement]. rewrite Hno. unfold require, mbind, stM_bind in *. by rewrite E.
Qed.
Lemma pay_repeatedly_enough n demand t p :
  pool_wf p → (n ≤ having (permits spell) (units p))%nat →
  ∃ t' p', pay_repeatedly n (spend_generic_eligible spell demand pins) t p = (Ok t', p').
Proof.
  revert t p. induction n as [|n IH]; intros t p Hwf Hn; [by exists t, p|].
  cbn [pay_repeatedly]. unfold require, mbind, stM_bind.
  destruct (takes_generic spell pins demand p Hwf) as [(u&p1&E&Hu&Hwf1&Hp&_)|[_ Hno]].
  - rewrite E. cbn. apply IH; [done|]. rewrite Hp in Hn. cbn [app] in Hn.
    rewrite having_cons in Hn. destruct (permits spell u); lia.
  - exfalso. destruct (having_pos (permits spell) (units p)) as (u&Hu&HP); [lia|]. by apply (Hno u).
Qed.

(** What a legal payment holds is enough. *)
Lemma parts_wanted shards (parts : list (list ManaUnit * nat)) :
  Forall (λ s, is_Some (single_type s)) shards → shards_paid spell permission lifes shards parts →
  (∀ m, (wanted m (type_at shards <$> symbols shards)
         ≤ having (pays_color spell m) (concat parts.*1))%nat) ∧
  having (permits spell) (concat parts.*1) = length shards ∧ sum_list parts.*2 = 0%nat.
Proof.
  intros Hplain Hp.
  assert (∀ shards', type_at shards' <$> symbols shards'
    = default ManaType.Colorless <$> (single_type <$> shards')) as Htypes.
  { intros shards'. apply list_eq. intros i. rewrite !list_lookup_fmap. unfold symbols.
    destruct (decide (i < length shards')%nat) as [Hi|Hi].
    - rewrite lookup_seq_lt by done. destruct (lookup_lt_is_Some_2 _ _ Hi) as [s Hs].
      cbn. unfold type_at. by rewrite Hs.
    - rewrite lookup_seq_ge, lookup_ge_None_2 by lia. done. }
  rewrite Htypes. clear Htypes. induction Hp as [|s x shards parts Hx Hp IH]; [done|].
  apply Forall_cons in Hplain as [[m Hm] Hplain]. destruct (IH Hplain) as (IH1&IH2&IH3).
  pose proof (single_type_Some s m Hm) as [Hreq Hno]. cbv beta in Hx. rewrite Hreq in Hx.
  destruct Hx as [[Hl (u&Hu&Hpays)]|[[] _]]. destruct x as [us n]. cbn [fst snd] in *. subst.
  assert (pays_color spell m u) as Hc.
  { rewrite Hno in Hpays. destruct Hpays as [(c&->%list_elem_of_singleton&?)|[[] _]]. done. }
  cbn [fmap list_fmap concat app fst snd sum_list]. split_and!; [|by rewrite having_cons, IH2,
    (proj1 (Is_true_true _) (pays_permits _ _ _ Hc))|done].
  intros m'. rewrite Hm. cbn [default]. rewrite having_cons.
  specialize (IH1 m'). unfold wanted in *. cbn [List.filter]. case_bool_decide as Heq; [|lia].
  change (m = m') in Heq. rewrite Heq in Hc.
  rewrite (proj1 (Is_true_true _) Hc). cbn. lia.
Qed.
Lemma legal_enough p shards generic us rest n :
  plain_cost (ManaCost.Cost shards generic) → legal (ManaCost.Cost shards generic) us n →
  units p ≡ₚ us ++ rest →
  enough p (type_at shards <$> symbols shards) (N.to_nat generic) ∧ n = 0%nat.
Proof.
  intros [Hplain Hx] (parts&xs&gs&Hparts&Hgen&Hus&->) Hu.
  destruct (parts_wanted shards parts Hplain Hparts) as (H1&H2&H3). split; [|done].
  unfold generic_paid in Hgen. destruct (restricted_x generic spell) as [types count].
  cbn in Hx. subst count. destruct Hgen as (_&Hxl&Hgs&Hgl). split.
  - intros m. specialize (H1 m). rewrite Hu, Hus, !having_app. lia.
  - rewrite Hu, Hus, !having_app, H2, length_fmap. unfold symbols. rewrite length_seq.
    rewrite (having_all _ gs Hgs). lia.
Qed.
Lemma enough_pays p shards generic :
  plain_cost (ManaCost.Cost shards generic) → pool_wf p →
  enough p (type_at shards <$> symbols shards) (N.to_nat generic) →
  ∃ pay, select_mana_payment p (ManaCost.Cost shards generic) hand_demand spell permission choices lifes pins
         = Ok pay.
Proof.
  intros [Hplain Hx] Hwf Hen.
  assert (enough p (type_at shards <$> phyrexian_deferred_order shards lifes) (N.to_nat generic)) as Hen'.
  { pose proof (deferred_order_perm shards lifes) as Hperm. destruct Hen as [H1 H2]. split.
    - intros m. rewrite Hperm. apply H1.
    - by rewrite Hperm. }
  assert (∀ i, i ∈ phyrexian_deferred_order shards lifes → (i < length shards)%nat) as Hin.
  { intros i Hi. rewrite deferred_order_perm in Hi. apply elem_of_seq in Hi. lia. }
  destruct (pay_shards_enough shards generic _ tally_start p _ Hplain Hin Hwf Hen')
    as (t&p1&E&Hwf1&[_ Hg]).
  destruct (pay_repeatedly_enough (N.to_nat generic) hand_demand t p1 Hwf1 Hg) as (t'&p'&E').
  assert (pay_generic generic hand_demand spell permission pins t p1 = (Ok t', p')) as E2.
  { unfold pay_generic. destruct (restricted_x generic spell) as [types count]. cbn in Hx. subst count.
    rewrite N.sub_0_r. exact E'. }
  assert (pay_cost_with_demand_and_choices_once (ManaCost.Cost shards generic) hand_demand spell permission
    choices lifes pins p = (Ok (spent t', life_payments t'), p')) as E3.
  { unfold pay_cost_with_demand_and_choices_once, mbind, stM_bind. by rewrite E, E2. }
  unfold select_mana_payment, run. rewrite E3. by eexists.
Qed.
End plain.

(** C5. For costs made of coloured and colourless symbols and generic mana the solver is
    complete, as long as no permission in force bears on a symbol of the cost (none that
    lets other mana or life pay it; every symbol qualifies when there is no permission) and
    the spell does not restrict the colours of its generic mana: whatever the context, the
    restrictions on the units, the pins, the demand and the order of the pool, it finds a
    payment exactly when some units of the pool pay the cost; and [can_pay_for_spell] says
    so. *)
Theorem plain_payment_complete p cost spell permission lifes hand_demand choices pins max :
  pool_wf p → plain_cost spell permission lifes cost →
  let payable := ∃ us rest n, units p ≡ₚ us ++ rest ∧
    legal_payment spell permission lifes cost us n in
  ((∃ pay, select_mana_payment p cost hand_demand spell permission choices lifes pins
           = Ok pay) ↔ payable) ∧
  (can_pay_for_spell p cost spell {| mana_spend_permission := permission; max_life := max;
     life_colors := lifes |} = Ok true ↔ payable).
Proof.
  intros Hwf Hplain payable.
  assert (∀ demand choices pins pay,
    select_mana_payment p cost demand spell permission choices lifes pins = Ok pay →
    payable ∧ length pay.2 = 0%nat) as Hsound.
  { intros demand ch pi [us ls] E.
    pose proof (select_pays cost spell permission ch lifes pi demand p Hwf) as H.
    rewrite E in H. destruct H as (p'&Hl%chosen_legal&_&(_&Hu&_)&_).
    split; [by exists us, (units p'), (length ls)|].
    destruct cost as [|shards generic| | |]; try apply Hl.
    by destruct (legal_enough spell permission lifes p shards generic us (units p') _ Hplain Hl Hu). }
  assert (payable → ∀ demand choices pins, ∃ pay,
    select_mana_payment p cost demand spell permission choices lifes pins = Ok pay) as Hcomplete.
  { intros (us&rest&n&Hu&Hl) demand ch pi. destruct cost as [|shards generic| | |]; try by eexists.
    apply enough_pays; [done..|]. by eapply legal_enough. }
  split.
  - split; [intros [pay E]; by eapply Hsound|]. intros Hp. by apply Hcomplete.
  - unfold can_pay_for_spell. cbn [mana_spend_permission life_colors max_life]. split.
    + destruct (select_mana_payment _ _ _ _ _ _ _ _) as [pay| |] eqn:E; [|done..].
      intros _. by eapply Hsound.
    + intros Hp. destruct (Hcomplete Hp None None []) as [[us ls] E]. rewrite E.
      destruct (Hsound _ _ _ _ E) as [_ Hn]. cbn in Hn. rewrite Hn.
      f_equal. apply N.leb_le. lia.
Qed.
End rules.

(** ** Greedy payments *)
Module PaymentSample.
Local Abbreviation mana := (ManaUnit N N).
Definition mana_of (c : ManaType.t) (pip : N) (rs : list (ManaRestriction N)) : mana :=
  {| color := c; source_id := 1; pip_id := pip; supertype := None;
     source_could_produce_two_or_more_colors := false; restrictions := rs; grants := [];
     expiry := None |}.
Definition snow_of (c : ManaType.t) (pip : N) : mana :=
  {| color := c; source_id := 2; pip_id := pip; supertype := Some ManaSupertype.Snow;
     source_could_produce_two_or_more_colors := false; restrictions := []; grants := [];
     expiry := None |}.
Definition W := mana_of ManaType.White 1 [].
Definition U := mana_of ManaType.Blue 2 [].
Definition SW := snow_of ManaType.White 3.
(** White mana for artifact spells only. *)
Definition artifact_W := mana_of ManaType.White 4 [OnlyForSpellType (of_string "Artifact")].
Definition creature : PaymentContext N := Spell {|
  types := [of_string "Creature"]; subtypes := []; keyword_kinds := []; cast_from_zone := None;
  meta_mana_value := None; color_count := None; colors := []; has_x_in_cost := false;
  is_face_down := false; cant_spend_mana := false; spend_only_on_x_colors := None;
  spend_only_on_x_generic_count := 0 |}.
Definition pool (us : list mana) : ManaPool N N := from_units us.
Definition cost (shards : list ManaCostShard.t) (generic : N) := ManaCost.Cost shards generic.
End PaymentSample.

(** The pool pays the cost, and the solver refuses it. *)
Definition refused (p : ManaPool N N) (cost : ManaCost.t) (spell : option (PaymentContext N)) : Prop :=
  (∃ us rest, units p ≡ₚ us ++ rest ∧
     legal_payment spell None LifePaymentColors.EMPTY cost us 0) ∧
  can_pay_for_spell p cost spell no_permissions = Ok false.
Lemma pool_ok us :
  (length us <=? 4)%nat = true → pool_wf (PaymentSample.pool us) ∧ units (PaymentSample.pool us) = us.
Proof. intros ?%Nat.leb_le. apply from_units_refines. lia. Qed.
Lemma two_units_refused u v s1 s2 spell :
  meets spell None (requirement_under LifePaymentColors.EMPTY s1) [v] 0 →
  meets spell None (requirement_under LifePaymentColors.EMPTY s2) [u] 0 →
  restricted_x 0 spell = ([], 0) →
  can_pay_for_spell (PaymentSample.pool [u; v]) (PaymentSample.cost [s1; s2] 0) spell no_permissions
    = Ok false →
  refused (PaymentSample.pool [u; v]) (PaymentSample.cost [s1; s2] 0) spell.
Proof.
  intros Hv Hu Hx Hno. split; [|done]. exists [v; u], [].
  destruct (pool_ok [u; v] eq_refl) as [_ ->]. split; [apply Permutation_swap|].
  exists [([v], 0%nat); ([u], 0%nat)], [], [].
  split_and!; [constructor; [done|constructor; [done|constructor]]| |done|done].
  unfold generic_paid. by rewrite Hx.
Qed.
Lemma pays_one spell cs u c : c ∈ cs → pays_color spell c u → one_of (pays_as (KeywordKind:=N)
  (ManaSpellGrant:=N) spell cs false) [u].
Proof. intros. exists u. split; [done|]. left. by exists c. Qed.

(** Beyond plain costs the solver is greedy and can refuse a cost the pool pays: a
    hybrid symbol takes the only mana that a later symbol needs, a hybrid symbol prefers
    the half of which all the mana is restricted to other spells, and a coloured symbol
    takes the only snow mana although other mana of its colour is there. *)
Theorem payment_refuses_payable :
  refused (PaymentSample.pool [PaymentSample.W; PaymentSample.U])
    (PaymentSample.cost [ManaCostShard.WhiteBlue; ManaCostShard.White] 0) None ∧
  refused (PaymentSample.pool [PaymentSample.artifact_W; PaymentSample.U])
    (PaymentSample.cost [ManaCostShard.WhiteBlue] 0) (Some PaymentSample.creature) ∧
  refused (PaymentSample.pool [PaymentSample.SW; PaymentSample.W])
    (PaymentSample.cost [ManaCostShard.White; ManaCostShard.Snow] 0) None.
Proof.
  split_and!.
  - apply two_units_refused; [left; split; [done|]..|done|vm_compute; reflexivity].
    + apply (pays_one _ _ _ ManaType.Blue); [right; left|by vm_compute].
    + apply (pays_one _ _ _ ManaType.White); [left|by vm_compute].
  - split; [|vm_compute; reflexivity]. exists [PaymentSample.U], [PaymentSample.artifact_W].
    destruct (pool_ok [PaymentSample.artifact_W; PaymentSample.U] eq_refl) as [_ ->].
    split; [apply Permutation_swap|]. exists [([PaymentSample.U], 0%nat)], [], [].
    split_and!; [|done|done|done]. constructor; [|constructor]. left. split; [done|].
    apply (pays_one _ _ _ ManaType.Blue); [right; left|by vm_compute].
  - apply two_units_refused; [left; split; [done|]..|done|vm_compute; reflexivity].
    + apply (pays_one _ _ _ ManaType.White); [left|by vm_compute].
    + exists PaymentSample.SW. split; [done|by vm_compute].
Qed.

Lemma payment_sound_witness :
  ∃ us ls, select_mana_payment (PaymentSample.pool [PaymentSample.W; PaymentSample.U])
      (PaymentSample.cost [ManaCostShard.PhyrexianWhite; ManaCostShard.PhyrexianBlue] 0) None None None
      (Some [PayLife; PayMana]) LifePaymentColors.EMPTY [] = Ok (us, ls) ∧
    chosen_payment (PaymentSample.cost [ManaCostShard.PhyrexianWhite; ManaCostShard.PhyrexianBlue] 0) None None
      (Some [PayLife; PayMana]) LifePaymentColors.EMPTY us (length ls) ∧ length ls = 1%nat.
Proof.
  exists [PaymentSample.U], [{| amount := 2 |}]. split; [vm_compute; reflexivity|].
  pose proof (payment_sound (PaymentSample.pool [PaymentSample.W; PaymentSample.U])
    (PaymentSample.cost [ManaCostShard.PhyrexianWhite; ManaCostShard.PhyrexianBlue] 0) None None None
    (Some [PayLife; PayMana]) LifePaymentColors.EMPTY []
    (proj1 (pool_ok [PaymentSample.W; PaymentSample.U] eq_refl))) as H.
  assert (select_mana_payment (PaymentSample.pool [PaymentSample.W; PaymentSample.U])
      (PaymentSample.cost [ManaCostShard.PhyrexianWhite; ManaCostShard.PhyrexianBlue] 0) None None None
      (Some [PayLife; PayMana]) LifePaymentColors.EMPTY []
    = Ok ([PaymentSample.U], [{| amount := 2 |}])) as E by (vm_compute; reflexivity).
  rewrite E in H. split; [apply H|done].
Defined.
Lemma payment_atomic_witness :
  ∃ p', pay_cost_with_demand_and_choices (PaymentSample.cost [ManaCostShard.White] 1) None None None
      None LifePaymentColors.EMPTY [2] (PaymentSample.pool [PaymentSample.W; PaymentSample.U])
    = (Ok ([PaymentSample.W; PaymentSample.U], []), p') ∧
    [PaymentSample.W; PaymentSample.U] ≡ₚ [PaymentSample.W; PaymentSample.U] ++ units p'.
Proof.
  destruct (pool_ok [PaymentSample.W; PaymentSample.U] eq_refl) as [Hwf Hu].
  assert (pips_unique (PaymentSample.pool [PaymentSample.W; PaymentSample.U])) as Hnd.
  { unfold pips_unique. rewrite Hu. vm_compute. apply NoDup_cons. split; [set_solver|].
    apply NoDup_singleton. }
  pose proof (payment_atomic (PaymentSample.pool [PaymentSample.W; PaymentSample.U])
    (PaymentSample.cost [ManaCostShard.White] 1) None None None None LifePaymentColors.EMPTY [2]
    Hwf Hnd) as H.
  assert ((pay_cost_with_demand_and_choices (PaymentSample.cost [ManaCostShard.White] 1) None None None
      None LifePaymentColors.EMPTY [2] (PaymentSample.pool [PaymentSample.W; PaymentSample.U])).1
    = Ok ([PaymentSample.W; PaymentSample.U], [])) as E by (vm_compute; reflexivity).
  destruct (pay_cost_with_demand_and_choices _ _ _ _ _ _ _ _) as [o p']. cbn in E. subst o.
  exists p'. split; [done|]. rewrite <-Hu at 1. apply H.
Defined.
Lemma plain_payment_complete_witness :
  plain_cost (Some PaymentSample.creature) None LifePaymentColors.EMPTY
    (PaymentSample.cost [ManaCostShard.White] 1) ∧
  can_pay_for_spell (PaymentSample.pool [PaymentSample.artifact_W; PaymentSample.W; PaymentSample.U])
    (PaymentSample.cost [ManaCostShard.White] 1) (Some PaymentSample.creature) no_permissions = Ok true ∧
  ∃ us rest n, units (PaymentSample.pool [PaymentSample.artifact_W; PaymentSample.W; PaymentSample.U])
      ≡ₚ us ++ rest ∧
    legal_payment (Some PaymentSample.creature) None LifePaymentColors.EMPTY
      (PaymentSample.cost [ManaCostShard.White] 1) us n.
Proof.
  assert (plain_cost (Some PaymentSample.creature) None LifePaymentColors.EMPTY (PaymentSample.cost [ManaCostShard.White] 1)) as Hp.
  { split; [|done]. constructor; [by eexists|constructor]. }
  assert (can_pay_for_spell (PaymentSample.pool [PaymentSample.artifact_W; PaymentSample.W; PaymentSample.U])
    (PaymentSample.cost [ManaCostShard.White] 1) (Some PaymentSample.creature) no_permissions = Ok true)
    as Hc by (vm_compute; reflexivity).
  split; [exact Hp|]. split; [exact Hc|].
  apply (plain_payment_complete _ (PaymentSample.cost [ManaCostShard.White] 1) (Some PaymentSample.creature)
    None LifePaymentColors.EMPTY None None [] 0 (proj1 (pool_ok [PaymentSample.artifact_W; PaymentSample.W; PaymentSample.U] eq_refl)) Hp).
  exact Hc.
Defined.
