(* ===== verification/PaymentPlan.v ===== *)
(** * Plans and announcements around a payment

    Any payment of the residual cost completes what the pool covers into a payment of the
    whole cost; announced Phyrexian symbols are paid as announced; the choices offered for
    them are complete. *)
From S2P Require Import Prelude.
From S2P Require Import GameTypes.
From S2P Require Import ManaSymbols.
From S2P Require Import Text.
From S2P Require Import ManaCosts.
From S2P Require Import ManaRestrictions.
From S2P Require Import ManaUnits.
From S2P Require Import ManaPool.
From S2P Require Import ManaPoolOrder.
From S2P Require Import ManaPoolVec.
From S2P Require Import ManaShards.
From S2P Require Import ManaPayment.
From S2P Require Import ManaPlan.
From S2P Require Import PaymentSpend.
From S2P Require Import PaymentSound.
From S2P Require Import PaymentRules.
Local Open Scope N_scope.

Section planned.
Context {KeywordKind ManaSpellGrant : Type}.
Context `{EqDecision KeywordKind, EqDecision ManaSpellGrant}.
Local Abbreviation ManaUnit := (ManaUnit KeywordKind ManaSpellGrant).
Local Abbreviation ManaPool := (ManaPool KeywordKind ManaSpellGrant).
Local Abbreviation Ctx := (option (PaymentContext KeywordKind)).
Local Abbreviation payM := (stM ManaPool PaymentError).
Local Abbreviation EMPTY := LifePaymentColors.EMPTY.
Implicit Types (p : ManaPool) (u : ManaUnit).

Lemma pays_as_mono spell cs (any any' : bool) u :
  (any = true → any' = true) → pays_as spell cs any u → pays_as spell cs any' u.
Proof.
  intros Hany [Hc|[Ha Hm]]; [by left|right]. split; [|done].
  apply Is_true_true, Hany. by apply Is_true_true.
Qed.
Lemma permits_as_any permission m : permits_as permission m = true → any_color permission = true.
Proof. by destruct permission. Qed.

(** A dry run always answers: [m] gives a value, which satisfies [Q]. *)
Definition surely {A} (m : payM A) (p : ManaPool) (Q : A → ManaPool → Prop) : Prop :=
  ∃ a p', m p = (Ok a, p') ∧ pool_wf p' ∧ Q a p'.
Lemma sure_ret {A} (a : A) p (Q : A → ManaPool → Prop) :
  pool_wf p → Q a p → surely (mret a) p Q.
Proof. intros. by exists a, p. Qed.
Lemma sure_bind {A B} (m : payM A) (f : A → payM B) p Q R :
  surely m p Q → (∀ a p', pool_wf p' → Q a p' → surely (f a) p' R) → surely (m ≫= f) p R.
Proof.
  intros (a&p'&E&Hwf&HQ) Hf. destruct (Hf a p' Hwf HQ) as (b&p''&E'&H).
  exists b, p''. split; [|done]. unfold mbind, stM_bind. by rewrite E.
Qed.
Lemma sure_mono {A} (m : payM A) p (Q R : A → ManaPool → Prop) :
  surely m p Q → (∀ a p', Q a p' → R a p') → surely m p R.
Proof. intros (a&p'&?&?&?) HR. exists a, p'. auto. Qed.
Lemma takes_surely m (P A : ManaUnit → Prop) p :
  takes m P A → pool_wf p → surely m p (taken P p).
Proof.
  intros Hm Hwf. destruct (Hm p Hwf) as [(u&p'&E&Hu&Hd)|[E _]].
  - exists (Some u), p'. split_and!; [done|apply Hd|done].
  - by exists None, p.
Qed.
Lemma two_or_none_surely m (P A : ManaUnit → Prop) p :
  takes m P A → pool_wf p →
  surely (two_or_none m) p (λ o p', match o with
    | Some us => length us = 2%nat ∧ Forall P us ∧ debited p us p' | None => p' = p end).
Proof.
  intros Hm Hwf. pose proof (two_or_none_pays p m P A Hm Hwf) as Ht. revert Ht.
  unfold pays_to, surely.
  assert (∃ o p', two_or_none m p = (Ok o, p')) as (o&p'&->); [|intros []; by exists o, p'].
  unfold two_or_none, mbind, stM_bind. destruct (Hm p Hwf) as [(u&p1&->&Hu&Hd)|[-> _]]; [|by eexists _, _].
  destruct (Hm p1 (proj1 Hd)) as [(u'&p2&->&_)|[-> _]]; by eexists _, _.
Qed.

(** ** The residual cost *)
Section residual.
Variables (spell : Ctx) (permission : option ManaSpendPermission) (demand : option ColorDemand).
Local Abbreviation any := (any_color permission).

Lemma was_paid_pays m P A p :
  takes m P A → pool_wf p →
  surely (was_paid m) p (λ (b : bool) p', if b then ∃ u, P u ∧ debited p [u] p' else p' = p).
Proof.
  intros Hm Hwf. eapply sure_bind; [by eapply takes_surely|].
  intros [u|] p' Hwf' Ht; apply sure_ret; try done. by exists u.
Qed.
(** A symbol that the pool covers is paid by what it loses. *)
Definition shard_reduced (s : ManaCostShard.t) p (b : bool) p' : Prop :=
  if b then ∃ us, mana_meets spell permission (shard_to_mana_type s) us ∧ debited p us p'
  else p' = p.
Lemma reduce_unit s m P A p :
  takes m P A → (∀ u, P u → mana_meets spell permission (shard_to_mana_type s) [u]) → pool_wf p →
  surely (was_paid m) p (shard_reduced s p).
Proof.
  intros Hm HP Hwf. eapply sure_mono; [by eapply was_paid_pays|].
  intros [] p'; [|done]. intros (u&Hu&Hd). exists [u]. split; [by apply HP|done].
Qed.
Lemma takes_either a b cs :
  a ∈ cs → b ∈ cs →
  takes (if any then spend_any_for_required_colors cs spell None []
         else or_spend (spend_eligible a spell []) (spend_eligible b spell []))
    (pays_as spell cs any : ManaUnit → Prop) (λ _, False).
Proof.
  intros Ha Hb. destruct any; [by eapply takes_mono; [apply takes_required|..]|].
  eapply takes_mono; [apply takes_or; apply takes_eligible| |done].
  intros u [Hu|Hu]; left; [by exists a|by exists b].
Qed.
Lemma takes_exact c :
  takes (if permits_as permission c then spend_any_for_required_colors [c] spell None []
         else spend_eligible c spell [])
    (pays_as spell [c] (permits_as permission c) : ManaUnit → Prop) (λ _, False).
Proof.
  destruct (permits_as permission c).
  - by eapply takes_mono; [apply takes_required|..].
  - by eapply takes_mono; [apply takes_eligible_as|..].
Qed.
Lemma reduce_two_generic s c p :
  pool_wf p → shard_to_mana_type s = TwoGenericHybrid c →
  surely (reduce_shard spell permission demand s) p (shard_reduced s p).
Proof.
  intros Hwf Hs. unfold reduce_shard. rewrite Hs. destruct any eqn:Hany.
  - eapply reduce_unit; [apply takes_required| |done]. intros u Hu. rewrite Hs. left. exists u.
    by rewrite Hany.
  - eapply sure_bind; [by eapply takes_surely; [apply (takes_eligible_as _ _ _ false)|]|].
    intros [u|] p' Hwf' Ht.
    + destruct Ht as [Hu Hd]. apply sure_ret; [done|]. exists [u]. rewrite Hs. split; [|done].
      left. exists u. by rewrite Hany.
    + unfold taken in Ht. subst p'. eapply sure_bind;
        [by eapply two_or_none_surely; [apply takes_non_demanded|]|].
      intros [us|] p' Hwf'' H1; apply sure_ret; try done. destruct H1 as (Hl&HP&Hd).
      exists us. rewrite Hs. split; [by right|done].
Qed.
Lemma reduce_shard_pays s p :
  pool_wf p → surely (reduce_shard spell permission demand s) p (shard_reduced s p).
Proof.
  intros Hwf. destruct (shard_to_mana_type s) as [m|a b|c|c| | | |c|a b|c] eqn:Hs;
    [| | |by eapply reduce_two_generic|..]; unfold reduce_shard; rewrite Hs.
  - eapply reduce_unit; [apply takes_exact| |done]. intros u Hu. rewrite Hs. by exists u.
  - eapply reduce_unit; [apply (takes_either a b [a; b]); set_solver| |done].
    intros u Hu. rewrite Hs. by exists u.
  - eapply reduce_unit; [apply takes_exact| |done]. intros u Hu. rewrite Hs. exists u.
    split; [done|]. eapply pays_as_mono; [apply permits_as_any|done].
  - eapply reduce_unit; [apply takes_snow| |done]. intros u Hu. rewrite Hs. by exists u.
  - eapply reduce_unit; [apply takes_two_or_more| |done]. intros u Hu. rewrite Hs. by exists u.
  - by apply sure_ret.
  - eapply reduce_unit; [apply (takes_either ManaType.Colorless c [ManaType.Colorless; c]); set_solver| |done].
    intros u Hu. rewrite Hs. by exists u.
  - eapply reduce_unit; [apply (takes_either a b [a; b]); set_solver| |done].
    intros u Hu. rewrite Hs. by exists u.
  - exfalso. by destruct s.
Qed.

Local Abbreviation shards_paid := (shards_paid (ManaSpellGrant:=ManaSpellGrant) spell permission EMPTY).
Lemma reduce_shards_pays shards p :
  pool_wf p → surely (reduce_shards spell permission demand shards) p (λ residual p', ∃ us,
    debited p us p' ∧ ∀ parts, shards_paid residual parts → ∃ parts', shards_paid shards parts' ∧
      concat parts'.*1 ≡ₚ us ++ concat parts.*1 ∧ sum_list parts'.*2 = sum_list parts.*2).
Proof.
  revert p. induction shards as [|s shards IH]; intros p Hwf; cbn [reduce_shards].
  { apply sure_ret; [done|]. exists []. split; [by apply debited_nil|]. intros parts Hp. by exists parts. }
  eapply sure_bind; [by apply reduce_shard_pays|]. intros b p1 Hwf1 Hb.
  eapply sure_bind; [by apply IH|]. intros residual p2 Hwf2 (us&Hd&Hres).
  apply sure_ret; [done|]. destruct b; cbn [shard_reduced] in Hb.
  - destruct Hb as (us1&Hm&Hd1). exists (us1 ++ us). split; [by eapply debited_app|].
    intros parts (parts'&Hp'&Hc&Hl)%Hres. exists ((us1, 0%nat) :: parts'). cbn. split_and!.
    + constructor; [by left|done].
    + by rewrite Hc, app_assoc.
    + done.
  - subst p1. exists us. split; [done|]. intros parts Hp. inversion Hp as [|? x ? parts1 Hx Hp1]; subst.
    destruct (Hres parts1 Hp1) as (parts'&Hp'&Hc&Hl). exists (x :: parts'). cbn. split_and!.
    + by constructor.
    + rewrite Hc, !app_assoc. apply Permutation_app_tail, Permutation_app_comm.
    + by rewrite Hl.
Qed.

Lemma spend_up_to_pays n m (P A : ManaUnit → Prop) p :
  takes m P A → pool_wf p → surely (spend_up_to n m) p (λ k p', ∃ us,
    length us = k ∧ (k ≤ n)%nat ∧ Forall P us ∧ debited p us p').
Proof.
  intros Hm. revert p. induction n as [|n IH]; intros p Hwf; cbn [spend_up_to].
  { apply sure_ret; [done|]. by exists []. }
  eapply sure_bind; [by eapply takes_surely|]. intros [u|] p1 Hwf1 Ht.
  - destruct Ht as [Hu Hd]. eapply sure_bind; [by apply IH|]. intros k p2 Hwf2 (us&Hl&Hk&HP&Hd').
    apply sure_ret; [done|]. exists (u :: us).
    split_and!; [by rewrite <-Hl|lia|by constructor|by apply (debited_app _ [u] p1 us)].
  - unfold taken in Ht. subst p1. apply sure_ret; [done|]. exists []. split_and!; [done|lia|constructor|by apply debited_nil].
Qed.
Local Abbreviation generic_paid := (generic_paid (ManaSpellGrant:=ManaSpellGrant) spell permission).
Lemma reduce_generic_pays generic p :
  pool_wf p → surely (reduce_generic spell permission demand generic) p (λ r p', ∃ us,
    debited p us p' ∧ ∀ xs gs, generic_paid r xs gs → ∃ xs' gs', generic_paid generic xs' gs' ∧
      xs' ++ gs' ≡ₚ us ++ xs ++ gs).
Proof.
  intros Hwf. unfold reduce_generic, PaymentSound.generic_paid.
  assert (∃ types mc, ∀ g, restricted_x g spell = (types, N.min g mc)) as (types&mc&Hx).
  { unfold restricted_x. destruct spell as [[meta|? ? ? ?| |?]|]; try (exists [], 0; intros g; by rewrite N.min_0_r).
    destruct (spend_only_on_x_colors meta); [by eexists _, _|exists [], 0; intros g; by rewrite N.min_0_r]. }
  rewrite Hx. eapply sure_bind; [by eapply spend_up_to_pays; [apply takes_restricted|]|].
  intros k p1 Hwf1 (us1&Hl1&Hk&Hus1&Hd1). destruct (Nat.eqb_spec k (N.to_nat (N.min generic mc))) as [Heq|Hne].
  - eapply sure_bind; [by eapply spend_up_to_pays; [apply takes_non_demanded|]|].
    intros j p2 Hwf2 (us2&Hl2&Hj&Hus2&Hd2). apply sure_ret; [done|]. exists (us1 ++ us2).
    split; [by eapply debited_app|]. intros xs gs. rewrite Hx. intros (Hxs&Hxl&Hgs&Hgl).
    exists us1, (us2 ++ xs ++ gs). split_and!; [done|lia| | |by rewrite app_assoc].
    + apply Forall_app. split; [done|]. apply Forall_app. split; [|done].
      eapply Forall_impl; [exact Hxs|]. intros u Hu. by eapply pays_as_permits.
    + rewrite !length_app. lia.
  - apply sure_ret; [done|]. exists us1. split; [done|]. intros xs gs. rewrite Hx.
    intros (Hxs&Hxl&Hgs&Hgl). set (c := (N.to_nat (N.min generic mc) - k)%nat).
    exists (us1 ++ take c xs), (drop c xs ++ gs). split_and!.
    + apply Forall_app. split; [done|]. by apply Forall_take.
    + rewrite length_app, length_take. lia.
    + apply Forall_app. split; [|done]. eapply Forall_impl; [by apply Forall_drop|].
      intros u Hu. by eapply pays_as_permits.
    + rewrite length_app, length_drop. lia.
    + rewrite <-!app_assoc. by rewrite (app_assoc (take c xs)), take_drop.
Qed.
End residual.

Lemma legal_nothing (spell : Ctx) permission :
  legal_payment spell permission EMPTY (ManaCost.Cost [] 0) ([] : list ManaUnit) 0.
Proof.
  exists [], [], []. split_and!; [constructor| |done|done]. unfold generic_paid, restricted_x.
  destruct spell as [[meta|? ? ? ?| |?]|]; [destruct (spend_only_on_x_colors meta)|..]; cbn;
    split_and!; (constructor || lia).
Qed.

(** What is left of both parts completes what was taken for them. *)
Lemma reduce_both p shards generic spell permission demand :
  pool_wf p →
  surely (residual_shards ← reduce_shards spell permission demand shards;
    residual_generic ← reduce_generic spell permission demand generic;
    mret (residual_shards, residual_generic)) p (λ r p', ∃ us, debited p us p' ∧
      ∀ more life, legal_payment spell permission EMPTY (ManaCost.Cost r.1 r.2) more life →
        legal_payment spell permission EMPTY (ManaCost.Cost shards generic) (us ++ more) life).
Proof.
  intros Hwf. eapply sure_bind; [by apply reduce_shards_pays|]. intros rs p1 Hwf1 (us1&Hd1&Hs).
  eapply sure_bind; [by apply reduce_generic_pays|]. intros rg p2 Hwf2 (us2&Hd2&Hg).
  apply sure_ret; [done|]. exists (us1 ++ us2). split; [by eapply debited_app|].
  intros more life (parts&xs&gs&Hp&Hgp&Hmore&->).
  destruct (Hs parts Hp) as (parts'&Hp'&Hc&Hl). destruct (Hg xs gs Hgp) as (xs'&gs'&Hgp'&Hperm).
  exists parts', xs', gs'. split_and!; [done|done| |by symmetry].
  rewrite Hc, Hperm, Hmore. rewrite <-!app_assoc. apply Permutation_app_head.
  rewrite !app_assoc. do 2 apply Permutation_app_tail. apply Permutation_app_comm.
Qed.

(** C23. The planner's residual can be relied on: the pool holds units which,
    together with any legal payment of the residual cost, make a legal payment of the whole
    cost; so when the residual is [NoCost] the pool pays it all.  The dry run never fails. *)
Theorem residual_completes p cost spell permission demand :
  pool_wf p →
  ∃ residual us rest,
    reduce_cost_by_pool p cost spell permission demand = Ok residual ∧ units p ≡ₚ us ++ rest ∧
    (∀ more life, legal_payment spell permission EMPTY residual more life →
       legal_payment spell permission EMPTY cost (us ++ more) life) ∧
    (residual = ManaCost.NoCost → legal_payment spell permission EMPTY cost us 0).
Proof.
  intros Hwf.
  assert (∃ residual us rest,
    reduce_cost_by_pool p cost spell permission demand = Ok residual ∧ units p ≡ₚ us ++ rest ∧
    ∀ more life, legal_payment spell permission EMPTY residual more life →
       legal_payment spell permission EMPTY cost (us ++ more) life) as (residual&us&rest&H1&H2&H3).
  { destruct cost as [|shards generic| | |]; try by eexists _, [], (units p).
    pose proof (reduce_both p shards generic spell permission demand Hwf) as Hr.
    destruct Hr as ([rs rg]&p'&E&_&us&(_&Hu&_)&Hl).
    assert (∃ residual, reduce_cost_by_pool p (ManaCost.Cost shards generic) spell permission demand
        = Ok residual ∧ residual = if bool_decide (rs = []) && (rg =? 0) then ManaCost.NoCost
                                   else ManaCost.Cost rs rg) as (residual&E'&->).
    { unfold reduce_cost_by_pool, run. revert E. unfold mbind, stM_bind.
      destruct (reduce_shards _ _ _ _ p) as [[rs1|e|] p1]; [|done..].
      destruct (reduce_generic _ _ _ _ p1) as [[rg1|e|] p2]; [|done..].
      intros E. injection E as -> -> ->. by eexists. }
    exists (if bool_decide (rs = []) && (rg =? 0) then ManaCost.NoCost else ManaCost.Cost rs rg), us, (units p').
    split_and!; [done|done|]. intros more life. destruct (_ && _) eqn:Hz; [|by apply Hl].
    apply andb_true_iff in Hz as [->%bool_decide_eq_true ->%N.eqb_eq].
    intros [-> ->]. by apply Hl, legal_nothing. }
  exists residual, us, rest. split_and!; [done..|]. intros ->. rewrite <-(app_nil_r us). by apply H3.
Qed.
End planned.
Lemma residual_completes_witness :
  let cost := PaymentSample.cost [ManaCostShard.White; ManaCostShard.Red] 2 in
  let p := PaymentSample.pool [PaymentSample.W; PaymentSample.U] in
  reduce_cost_by_pool p cost None None None = Ok (PaymentSample.cost [ManaCostShard.Red] 1) ∧
  ∃ us rest, units p ≡ₚ us ++ rest ∧
    ∀ more life, legal_payment None None LifePaymentColors.EMPTY
        (PaymentSample.cost [ManaCostShard.Red] 1) more life →
      legal_payment None None LifePaymentColors.EMPTY cost (us ++ more) life.
Proof.
  intros cost p.
  destruct (residual_completes p cost None None None (proj1 (pool_ok [PaymentSample.W; PaymentSample.U] eq_refl)))
    as (residual&us&rest&E&Hu&Hl&_).
  assert (reduce_cost_by_pool p cost None None None = Ok (PaymentSample.cost [ManaCostShard.Red] 1)) as E'
    by (vm_compute; reflexivity).
  split; [exact E'|]. rewrite E in E'. injection E' as ->. by exists us, rest.
Defined.

(** * Announced Phyrexian symbols

    An announcement names each printed Phyrexian symbol once, and the payment takes life for
    exactly the symbols announced as life. *)
(** The symbol a record names. *)
Definition record_key (r : ActivationShardChoice) : nat * ManaCostShard.t := (shard_index r, shard r).
Definition announces_life (r : ActivationShardChoice) : bool := bool_decide (choice r = PayLife).
Definition life_announced (records : list ActivationShardChoice) : nat :=
  length (List.filter announces_life records).

Lemma elem_of_native shards generic i s :
  (i, s) ∈ native_phyrexian_shards (ManaCost.Cost shards generic) ↔
  shards !! i = Some s ∧ is_native_phyrexian_shard s = true.
Proof.
  cbn [native_phyrexian_shards]. rewrite elem_of_List_filter, elem_of_lookup_imap. cbn [snd].
  split; [intros [(j&x&[= -> ->]&Hj) Hn]; done|]. intros [Hs Hn]. split; [|done]. by exists i, s.
Qed.
Lemma native_keys_sub cost :
  sublist (native_phyrexian_shards cost).*1
    (match cost with ManaCost.Cost shards _ => seq 0 (length shards) | _ => [] end).
Proof.
  destruct cost as [|shards generic| | |]; try done. cbn [native_phyrexian_shards].
  assert ((imap pair shards).*1 = seq 0 (length shards)) as <-.
  { rewrite fmap_imap. apply list_eq. intros i. rewrite list_lookup_imap.
    destruct (decide (i < length shards)%nat) as [Hi|Hi].
    - rewrite lookup_seq_lt by done. by destruct (lookup_lt_is_Some_2 _ _ Hi) as [s ->].
    - by rewrite lookup_seq_ge, lookup_ge_None_2 by lia. }
  apply fmap_sublist. induction (imap pair shards) as [|x l IH]; [constructor|].
  cbn. destruct (is_native_phyrexian_shard x.2); by constructor.
Qed.
Lemma native_keys_NoDup cost : NoDup (native_phyrexian_shards cost).*1.
Proof.
  eapply sublist_NoDup; [|apply native_keys_sub]. destruct cost; try constructor. apply NoDup_seq.
Qed.

(** The record of a symbol, when it is the only one. *)
Lemma filter_unique (records : list ActivationShardChoice) i s :
  NoDup (record_key <$> records).*1 → (i, s) ∈ record_key <$> records →
  ∃ r, List.filter (λ r, (shard_index r =? i)%nat) records = [r] ∧ record_key r = (i, s).
Proof.
  induction records as [|r records IH]; [by intros _ ?%elem_of_nil|]. cbn.
  intros [Hr Hnd]%NoDup_cons Hin. destruct (Nat.eqb_spec (shard_index r) i) as [<-|Hne].
  - exists r. assert (List.filter (λ r', (shard_index r' =? shard_index r)%nat) records = []) as ->.
    { apply elem_of_nil_inv. intros x [Hx ?%Nat.eqb_eq]%elem_of_List_filter. apply Hr.
      apply list_elem_of_fmap. exists (record_key x). split; [done|]. by apply list_elem_of_fmap_2. }
    split; [done|]. apply elem_of_cons in Hin as [->|Hin]; [done|]. exfalso. apply Hr.
    by apply (list_elem_of_fmap_2 fst) in Hin.
  - apply IH; [done|]. by apply elem_of_cons in Hin as [[= -> ->]|].
Qed.
Lemma announcement_keys cost records :
  native_announcement_matches cost records = true ↔
  record_key <$> records ≡ₚ native_phyrexian_shards cost.
Proof.
  unfold native_announcement_matches. rewrite andb_true_iff, Nat.eqb_eq, List.forallb_forall.
  pose proof (native_keys_NoDup cost) as Hnd. split.
  - intros [Hlen Hall]. symmetry. apply submseteq_length_Permutation; [|by rewrite length_fmap, Hlen].
    apply NoDup_submseteq; [by eapply NoDup_fmap_1|]. intros [i s] Hin.
    specialize (Hall (i, s) (proj1 (list_elem_of_In _ _) Hin)). cbn in Hall.
    destruct (List.filter _ records) as [|r [|]] eqn:E; [done| |done].
    apply bool_decide_eq_true in Hall as <-. apply list_elem_of_fmap. exists r.
    assert (r ∈ List.filter (λ r, (shard_index r =? i)%nat) records) as Hr by (rewrite E; left).
    apply elem_of_List_filter in Hr as [Hr <-%Nat.eqb_eq]. done.
  - intros Hp. split; [by rewrite <-Hp, length_fmap|]. intros [i s] Hin%list_elem_of_In.
    assert (NoDup (record_key <$> records).*1) as Hnd' by by rewrite Hp.
    rewrite <-Hp in Hin. destruct (filter_unique records i s Hnd' Hin) as (r&->&[= _ ->]).
    by apply bool_decide_eq_true.
Qed.

(** ** The payment of an announcement *)
Section announced.
Variables (shards : list ManaCostShard.t) (generic : N) (records : list ActivationShardChoice).
Variable lifes : LifePaymentColors.t.
Local Abbreviation cost := (ManaCost.Cost shards generic).
Hypothesis Hmatch : record_key <$> records ≡ₚ native_phyrexian_shards cost.

Lemma keys_NoDup : NoDup (shard_index <$> records).
Proof.
  pose proof (native_keys_NoDup cost) as Hnd. rewrite <-Hmatch, <-list_fmap_compose in Hnd. exact Hnd.
Qed.
Lemma record_names r :
  r ∈ records → shards !! shard_index r = Some (shard r) ∧ is_native_phyrexian_shard (shard r) = true.
Proof.
  intros Hr%(list_elem_of_fmap_2 record_key). rewrite Hmatch in Hr. by apply elem_of_native in Hr.
Qed.
(** The record found for an index is the one of that index. *)
Lemma find_record (P : ActivationShardChoice → bool) r :
  (∀ r', P r' = true → shard_index r' = shard_index r) → r ∈ records → P r = true →
  find_first P records = Some r.
Proof.
  intros HP Hr HPr. destruct (find_first P records) as [r'|] eqn:E.
  - apply find_first_Some in E as [Hr' HPr'%HP]. f_equal.
    pose proof keys_NoDup as Hnd. apply list_elem_of_lookup in Hr as [i Hi], Hr' as [j Hj].
    assert (i = j) as ->; [|congruence].
    eapply NoDup_lookup; [exact Hnd|..]; rewrite list_lookup_fmap, ?Hi, ?Hj; cbn; [done|by f_equal].
  - apply find_first_None with (x:=r) in E; [congruence|done].
Qed.
Definition announced (i : nat) : bool :=
  bool_decide (choice <$> find_first (λ r, (shard_index r =? i)%nat) records = Some PayLife).
Lemma announced_iff i :
  announced i = true ↔ ∃ r, r ∈ records ∧ shard_index r = i ∧ announces_life r = true.
Proof.
  unfold announced, announces_life. rewrite bool_decide_eq_true. split.
  - destruct (find_first _ records) as [r|] eqn:E; [|done]. intros [= Hc].
    apply find_first_Some in E as [Hr Hi%Nat.eqb_eq]. exists r. by rewrite bool_decide_eq_true.
  - intros (r&Hr&<-&Hc%bool_decide_eq_true).
    rewrite (find_record _ r); [by cbn; rewrite Hc|by intros r' ?%Nat.eqb_eq|done|by apply Nat.eqb_eq].
Qed.
Local Abbreviation view_shards := (match native_phyrexian_payment_view cost records with
  | ManaCost.Cost shards _ => shards | _ => [] end).
(** A symbol announced as life stays a Phyrexian symbol, whatever the permissions. *)
Lemma announced_phyrexian i : announced i = true → phyrexian_at view_shards lifes i = true.
Proof.
  intros (r&Hr&<-&Hl)%announced_iff. destruct (record_names r Hr) as [Hs Hn].
  unfold phyrexian_at. cbn [native_phyrexian_payment_view]. rewrite list_lookup_imap, Hs. cbn [fmap option_fmap option_map].
  rewrite (find_record _ r); [| |done|].
  - apply bool_decide_eq_true in Hl. cbn. rewrite Hl. unfold requirement_under, effective_shard_requirement.
    unfold is_native_phyrexian_shard in Hn.
    by destruct (shard_to_mana_type (shard r)), (LifePaymentColors.is_empty lifes).
  - by intros r' [?%Nat.eqb_eq _]%andb_true_iff.
  - by rewrite Nat.eqb_refl, bool_decide_true.
Qed.
Lemma announced_count n :
  (length shards ≤ n)%nat → length (List.filter announced (seq 0 n)) = life_announced records.
Proof.
  intros Hn. unfold life_announced. rewrite <-(length_fmap shard_index (List.filter announces_life records)).
  apply Permutation_length, NoDup_Permutation.
  - apply NoDup_ListNoDup, List.NoDup_filter, NoDup_ListNoDup, NoDup_seq.
  - eapply sublist_NoDup; [apply keys_NoDup|]. apply fmap_sublist.
    clear. induction records as [|r l IH]; [constructor|]. cbn. destruct (announces_life r); by constructor.
  - intros i. rewrite elem_of_List_filter, elem_of_seq, announced_iff, list_elem_of_fmap. split.
    + intros [_ (r&Hr&<-&Hl)]. exists r. split; [done|]. by apply elem_of_List_filter.
    + intros (r&->&[Hr Hl]%elem_of_List_filter). split; [|by exists r].
      apply record_names in Hr as [Hs%lookup_lt_Some _]. lia.
Qed.
End announced.
Lemma life_chosen_fmap {A} (f : A → bool) (c : A → ShardChoice) (l : list A) :
  (∀ x, bool_decide (c x = PayLife) = f x) → life_chosen (c <$> l) = length (List.filter f l).
Proof.
  intros Hc. unfold life_chosen. induction l as [|x l IH]; [done|]. cbn. rewrite Hc.
  destruct (f x); cbn; by rewrite IH.
Qed.
Lemma filter_within {A} (f g : A → bool) (l : list A) :
  (∀ x, f x = true → g x = true) → List.filter f (List.filter g l) = List.filter f l.
Proof.
  intros Hfg. induction l as [|x l IH]; [done|]. cbn. destruct (g x) eqn:Hg; cbn; rewrite IH; [done|].
  destruct (f x) eqn:Hf; [|done]. by rewrite Hfg in Hg.
Qed.
(** The choices the payer is given, symbol by symbol: life for the announced, mana for the
    others. *)
Lemma announced_choices shards generic records lifes :
  record_key <$> records ≡ₚ native_phyrexian_shards (ManaCost.Cost shards generic) →
  ∃ vs cs, native_phyrexian_payment_view (ManaCost.Cost shards generic) records = ManaCost.Cost vs generic ∧
    phyrexian_choice_vector (ManaCost.Cost shards generic) (ManaCost.Cost vs generic) lifes records []
      = Ok (Some cs) ∧
    length cs = length (phyrexian_indices vs lifes (symbols vs)) ∧ life_chosen cs = life_announced records ∧
    (∀ k i, phyrexian_indices vs lifes (symbols vs) !! k = Some i →
       ∃ c, cs !! k = Some c ∧ bool_decide (c = PayLife) = announced records i) ∧
    (∀ i, announced records i = true → phyrexian_at vs lifes i = true).
Proof.
  intros Hm. pose proof (announced_phyrexian shards generic records lifes Hm) as Hph.
  cbn [native_phyrexian_payment_view] in *. eexists _, _. split; [done|].
  cbn [phyrexian_choice_vector]. rewrite (proj2 (List.forallb_forall _ records)).
  2: { intros r Hr%list_elem_of_In. by apply bool_decide_eq_true, (record_names shards generic records Hm). }
  split; [done|]. rewrite length_fmap. split; [done|]. split; [|split; [|done]].
  - rewrite (life_chosen_fmap (announced records)).
    + rewrite filter_within by done. apply (announced_count shards generic); [done|by rewrite length_imap].
    + intros i. unfold announced. by destruct (bool_decide (_ = Some PayLife)).
  - intros k i Hk. rewrite list_lookup_fmap. unfold phyrexian_indices, symbols in Hk. rewrite Hk. cbn.
    eexists. split; [done|].
    unfold announced. by destruct (bool_decide (_ = Some PayLife)).
Qed.

(** Life is paid for the symbols announced as life, and for no other. *)
Section announced_payment.
Context {KeywordKind ManaSpellGrant : Type}.
Context `{EqDecision KeywordKind, EqDecision ManaSpellGrant}.
Variables (spell : option (PaymentContext KeywordKind)) (permission : option ManaSpendPermission).
Variables (lifes : LifePaymentColors.t) (records : list ActivationShardChoice).
Local Abbreviation ManaUnit := (ManaUnit KeywordKind ManaSpellGrant).
Definition announced_payment (cost : ManaCost.t) (us : list ManaUnit) (life : nat) : Prop := ∃ parts,
  payment_parts spell permission lifes cost us life parts ∧
  ∀ i us_i n, parts !! i = Some (us_i, n) →
    (n = 1%nat ∧ us_i = [] ∧ ∃ r, r ∈ records ∧ shard_index r = i ∧ choice r = PayLife) ∨
    (n = 0%nat ∧ ¬ ∃ r, r ∈ records ∧ shard_index r = i ∧ choice r = PayLife).
Lemma meets_life req (us : list ManaUnit) n : meets spell permission req us n →
  (n = 1%nat ∧ us = [] ∧ is_phyrexian_requirement req = true) ∨ n = 0%nat.
Proof. intros [[-> _]|(H&->&->)]; [by right|left]. split_and!; try done. by apply Is_true_true. Qed.

Lemma chosen_announced shards generic vs cs us life :
  record_key <$> records ≡ₚ native_phyrexian_shards (ManaCost.Cost shards generic) →
  (∀ k i, phyrexian_indices vs lifes (symbols vs) !! k = Some i →
     ∃ c, cs !! k = Some c ∧ bool_decide (c = PayLife) = announced records i) →
  (∀ i, announced records i = true → phyrexian_at vs lifes i = true) →
  chosen_payment (ManaCost.Cost vs generic) spell permission (Some cs) lifes us life →
  announced_payment (ManaCost.Cost vs generic) us life.
Proof.
  intros Hm Hcs Hph (parts&Hparts&Hchosen). exists parts. split; [done|].
  intros i us_i n Hi. destruct Hparts as (xs&gs&Hshards&_).
  destruct (Forall2_lookup_r _ _ _ _ _ Hshards Hi) as (s&Hs&Hmeets%meets_life). cbn in Hmeets.
  assert ((∃ r, r ∈ records ∧ shard_index r = i ∧ choice r = PayLife) ↔ announced records i = true) as ->.
  { rewrite (announced_iff shards generic records Hm). unfold announces_life.
    split; intros (r&?&?&Hr); exists r; [by rewrite bool_decide_eq_true|by apply bool_decide_eq_true in Hr]. }
  assert (phyrexian_at vs lifes i = true → n = if announced records i then 1%nat else 0%nat) as Hlife.
  { intros Hat. assert (i ∈ phyrexian_indices vs lifes (symbols vs)) as [k Hk]%list_elem_of_lookup.
    { apply elem_of_List_filter. split; [|done]. apply elem_of_seq. apply lookup_lt_Some in Hs. lia. }
    destruct (Hcs k i Hk) as (c&Hc&Ha). specialize (Hchosen k i c Hk Hc).
    rewrite list_lookup_fmap, Hi in Hchosen. injection Hchosen as Hn. cbn in Hn.
    rewrite Hn. unfold life_of. by rewrite Ha. }
  assert (n = if announced records i then 1%nat else 0%nat) as Hn.
  { destruct (phyrexian_at vs lifes i) eqn:Hat; [by apply Hlife|].
    destruct (announced records i) eqn:Ha; [by rewrite (Hph i Ha) in Hat|].
    destruct Hmeets as [(_&_&Hreq)|]; [|done]. unfold phyrexian_at in Hat. rewrite Hs in Hat. congruence. }
  destruct (announced records i); [left|by right].
  destruct Hmeets as [(_&->&_)|Hz]; [done|congruence].
Qed.
End announced_payment.

(** C22. An announcement is accepted exactly when it names each printed Phyrexian symbol of
    the cost once, in any order.  Binding it to the cost and paying pays the bound cost
    legally, and symbol by symbol as announced: a symbol announced as life is paid by two
    life and no mana, any other symbol without life, whatever permissions to pay life have
    appeared since; the payment fails only for want of mana. *)
Theorem announced_life_is_paid {KeywordKind ManaSpellGrant : Type}
    `{EqDecision KeywordKind, EqDecision ManaSpellGrant} cost records :
  (native_announcement_matches cost records = true ↔
     record_key <$> records ≡ₚ native_phyrexian_shards cost) ∧
  ∀ (p : ManaPool KeywordKind ManaSpellGrant) hand_demand spell permission lifes pins,
    pool_wf p → native_announcement_matches cost records = true →
    let view := native_phyrexian_payment_view cost records in
    ∃ cs, phyrexian_choice_vector cost view lifes records [] = Ok (Some cs) ∧
      match select_mana_payment p view hand_demand spell permission (Some cs) lifes pins with
      | Ok (us, ls) =>
          length ls = life_announced records ∧ Forall (λ l, amount l = 2%Z) ls ∧
          announced_payment spell permission lifes records view us (length ls) ∧
          legal_payment spell permission lifes view us (length ls)
      | Err e => e = InsufficientMana
      | Panic => False
      end.
Proof.
  split; [apply announcement_keys|]. intros p hand_demand spell permission lifes pins Hwf Hm view.
  apply announcement_keys in Hm. subst view.
  destruct cost as [|shards generic| | |].
  2: { destruct (announced_choices shards generic records lifes Hm) as (vs&cs&->&Hcs&Hlen&Hlife&Hsym&Hph).
    exists cs. split; [exact Hcs|].
    pose proof (select_pays (ManaCost.Cost vs generic) spell permission (Some cs) lifes pins hand_demand p Hwf) as H.
    destruct (select_mana_payment _ _ _ _ _ _ _ _) as [[us ls]|e|]; [|done..].
    destruct H as (p'&Hl&Ha&_&Hch).
    split_and!; [|done|by eapply chosen_announced|by eapply chosen_legal]. cbn [fst snd] in *.
    rewrite (Hch vs generic cs eq_refl eq_refl) by (by rewrite Hlen).
    by rewrite <-Hlen, firstn_all. }
  all: exists []; apply Permutation_nil_r, fmap_nil_inv in Hm as ->; split; [done|]; cbn;
    split_and!; [done|constructor| |done|done]; exists []; split; [done|]; intros ???; done.
Qed.
Lemma announced_life_is_paid_witness :
  ∃ cs us ls, let cost := PaymentSample.cost [ManaCostShard.PhyrexianWhite; ManaCostShard.PhyrexianBlue] 0 in
    let records := [{| shard_index := 1; shard := ManaCostShard.PhyrexianBlue; choice := PayMana |};
                    {| shard_index := 0; shard := ManaCostShard.PhyrexianWhite; choice := PayLife |}] in
    phyrexian_choice_vector cost (native_phyrexian_payment_view cost records) LifePaymentColors.EMPTY records []
      = Ok (Some cs) ∧
    select_mana_payment (PaymentSample.pool [PaymentSample.W; PaymentSample.U])
      (native_phyrexian_payment_view cost records) None None None (Some cs) LifePaymentColors.EMPTY []
      = Ok (us, ls) ∧ length ls = 1%nat ∧
    announced_payment None None LifePaymentColors.EMPTY records
      (native_phyrexian_payment_view cost records) us (length ls).
Proof.
  set (cost := PaymentSample.cost [ManaCostShard.PhyrexianWhite; ManaCostShard.PhyrexianBlue] 0).
  set (records := [{| shard_index := 1; shard := ManaCostShard.PhyrexianBlue; choice := PayMana |};
                   {| shard_index := 0; shard := ManaCostShard.PhyrexianWhite; choice := PayLife |}]).
  destruct (proj2 (announced_life_is_paid cost records) (PaymentSample.pool [PaymentSample.W; PaymentSample.U])
    None None None LifePaymentColors.EMPTY [] (proj1 (pool_ok [PaymentSample.W; PaymentSample.U] eq_refl))
    eq_refl) as (cs&Hcs&H).
  assert (cs = [PayLife]) as -> by (vm_compute in Hcs; congruence).
  assert (select_mana_payment (PaymentSample.pool [PaymentSample.W; PaymentSample.U])
      (native_phyrexian_payment_view cost records) None None None (Some [PayLife]) LifePaymentColors.EMPTY []
    = Ok ([PaymentSample.U], [{| amount := 2 |}])) as E by (vm_compute; reflexivity).
  rewrite E in H. exists [PayLife], [PaymentSample.U], [{| amount := 2 |}].
  split; [exact Hcs|]. split; [exact E|]. split; apply H.
Defined.

(** * The choices offered for Phyrexian symbols

    The simulation behind the payment choices always answers, with one entry for each symbol
    that life can pay. *)
Create HintDb answers discriminated.

Section options.
Context {KeywordKind ManaSpellGrant : Type}.
Context `{EqDecision KeywordKind, EqDecision ManaSpellGrant}.
Local Abbreviation ManaUnit := (ManaUnit KeywordKind ManaSpellGrant).
Local Abbreviation ManaPool := (ManaPool KeywordKind ManaSpellGrant).
Local Abbreviation Ctx := (option (PaymentContext KeywordKind)).
Local Abbreviation payM := (stM ManaPool PaymentError).
Implicit Types p : ManaPool.

(** ** Programs that always answer *)
Definition answers {A} (m : payM A) (Q : A → Prop) : Prop := ∀ p, pool_wf p → surely m p (λ a _, Q a).
Definition always {A} (m : payM A) : Prop := answers m (λ _, True).
Lemma answers_ret {A} (a : A) (Q : A → Prop) : Q a → answers (mret a) Q.
Proof. intros HQ p Hwf. by apply sure_ret. Qed.
Lemma answers_bind {A B} (m : payM A) (f : A → payM B) Q R :
  answers m Q → (∀ a, Q a → answers (f a) R) → answers (m ≫= f) R.
Proof. intros Hm Hf p Hwf. eapply sure_bind; [by apply Hm|]. intros a p' Hwf' HQ. by apply (Hf a HQ). Qed.
Lemma always_seq {A B} (m : payM A) (f : A → payM B) R :
  always m → (∀ a, answers (f a) R) → answers (m ≫= f) R.
Proof. intros Hm Hf. eapply answers_bind; [exact Hm|]. auto. Qed.
Lemma answers_get Q (f : ManaPool → payM Q) (R : Q → Prop) :
  (∀ p, answers (f p) R) → answers (get ≫= f) R.
Proof. intros Hf p Hwf. apply (Hf p p Hwf). Qed.
Lemma always_takes (m : payM (option ManaUnit)) P A : takes m P A → always m.
Proof. intros Hm p Hwf. eapply sure_mono; [by eapply takes_surely|done]. Qed.
Lemma always_two (m : payM (option ManaUnit)) P A : takes m P A → always (two_or_none m).
Proof. intros Hm p Hwf. eapply sure_mono; [by eapply two_or_none_surely|done]. Qed.
Lemma always_probe (m : payM bool) : always m → always (probe m).
Proof.
  intros Hm p Hwf. destruct (Hm p Hwf) as (b&p'&E&_). exists b, p. unfold probe. by rewrite E.
Qed.
Lemma always_paid (m : payM (option ManaUnit)) : always m → always (was_paid m).
Proof. intros Hm. apply always_seq; [done|]. intros o. by apply answers_ret. Qed.
Lemma always_both (m : payM (option (list ManaUnit))) : always m → always (were_paid m).
Proof. intros Hm. apply always_seq; [done|]. intros o. by apply answers_ret. Qed.
Lemma always_else (a b : payM bool) : always a → always b → always (or_else a b).
Proof. intros Ha Hb. apply always_seq; [done|]. intros [|]; [by apply answers_ret|done]. Qed.
#[local] Hint Resolve always_probe always_paid always_both always_else : answers.

Section spends.
Variables (spell : Ctx) (permission : option ManaSpendPermission).
Local Abbreviation any := (any_color permission).
Lemma always_eligible c : always (spend_eligible c spell [] : payM (option ManaUnit)).
Proof. eapply always_takes, takes_eligible. Qed.
Lemma always_required cs : always (spend_any_for_required_colors cs spell None []).
Proof. eapply always_takes, takes_required. Qed.
Lemma always_generic : always (spend_generic_eligible spell None []).
Proof. eapply always_takes, takes_generic. Qed.
Lemma always_two_generic : always (two_or_none (spend_generic_eligible spell None [])).
Proof. eapply always_two, takes_generic. Qed.
Lemma always_snow : always (spend_snow_unit spell []).
Proof. eapply always_takes, takes_snow. Qed.
Lemma always_two_or_more : always (spend_two_or_more_color_source_eligible spell []).
Proof. eapply always_takes, takes_two_or_more. Qed.
Lemma always_one_color c : always (spend_one_color spell permission [] c).
Proof. eapply always_takes, takes_one_color. Qed.
Lemma always_or a b : always (or_spend (spend_eligible a spell []) (spend_eligible b spell [])).
Proof. eapply always_takes, takes_or; apply takes_eligible. Qed.
Lemma always_auto_two c : always (auto_two_generic_hybrid spell permission [] c).
Proof.
  unfold auto_two_generic_hybrid. destruct any.
  - apply always_seq; [apply always_required|]. intros o. by apply answers_ret.
  - apply always_seq; [apply always_eligible|]. intros [u|]; [by apply answers_ret|apply always_two_generic].
Qed.
End spends.
#[local] Hint Resolve always_eligible always_required always_generic always_two_generic always_snow
  always_two_or_more always_one_color always_or always_auto_two : answers.

(** ** The simulation *)
Section simulation.
Variables (shards : list ManaCostShard.t) (generic : N) (spell : Ctx).
Variables (permission : option ManaSpendPermission) (lifes : LifePaymentColors.t).
Local Abbreviation any := (any_color permission).
Local Abbreviation sim := (sim_requirement (ManaSpellGrant:=ManaSpellGrant) shards generic spell permission).

Definition only_life (r : PhyrexianShard) : nat :=
  match ps_options r with LifeOnly => 1 | _ => 0 end.
(** Nothing offered, or one entry, for [idx], whose life comes out of the budget. *)
Definition unoffered (s s' : Sim) : Prop := results s' = results s ∧ life_budget s' = life_budget s.
Definition offered (idx : nat) (s s' : Sim) : Prop := ∃ r,
  results s' = results s ++ [r] ∧ ps_shard_index r = idx ∧
  life_budget s = life_budget s' + N.of_nat (only_life r).

Lemma answers_then {A} (m : payM A) (s : Sim) (Q : Sim → Prop) :
  always m → Q s → answers (m;; mret s) Q.
Proof. intros Hm HQ. apply always_seq; [done|]. intros _. by apply answers_ret. Qed.
Lemma sim_hybrid_same idx a b s :
  answers (sim_hybrid (ManaSpellGrant:=ManaSpellGrant) shards spell permission idx a b s) (unoffered s).
Proof.
  unfold sim_hybrid. destruct any; [apply answers_then; [auto with answers|done]|].
  apply answers_get. intros p. destruct (select_hybrid_payment_color _ _ _ _ _ _) as [c pr].
  apply answers_then; [auto with answers|done].
Qed.
Lemma offer_offers idx c available (commit : Sim → payM Sim) s :
  always available → (∀ s1, answers (commit s1) (unoffered s1)) →
  answers (offer generic idx c available commit s) (offered idx s).
Proof.
  intros Ha Hc. unfold offer. apply always_seq; [done|]. intros av.
  apply always_seq; [apply answers_get; intros p; by apply answers_ret|]. intros spare.
  destruct (shard_options av spare (life_budget s)) eqn:Ho; cbv zeta.
  - apply answers_ret. eexists. split; [done|]. cbn. split; [done|lia].
  - intros p Hwf. eapply sure_mono; [by apply Hc|]. intros s' _ [Hr Hb]. eexists. split; [exact Hr|].
    cbn in *. split; [done|lia].
  - apply answers_ret. eexists. split; [done|]. cbn. split; [done|].
    unfold shard_options in Ho. destruct (av && spare), (0 <? life_budget s) eqn:Hl; try done.
    apply N.ltb_lt in Hl. lia.
Qed.
Lemma sim_requirement_answers idx req s :
  answers (sim idx req s) (if is_phyrexian_requirement req then offered idx s else unoffered s).
Proof.
  destruct req as [m|a b|c|c| | | |c|a b|c]; cbn [sim_requirement is_phyrexian_requirement].
  - apply answers_then; [destruct (permits_as permission m); auto with answers|done].
  - apply sim_hybrid_same.
  - apply offer_offers; [|intros s1; apply answers_then; [auto with answers|done]].
    unfold sim_phyrexian_mana_available, sim_any_for_required_colors_available, sim_color_available.
    destruct any; auto with answers.
  - destruct any; [apply answers_then; [auto with answers|done]|].
    apply always_seq; [auto with answers|]. intros [u|]; [by apply answers_ret|].
    apply always_seq; [auto with answers|]. intros _. apply answers_then; [auto with answers|done].
  - apply answers_then; [auto with answers|done].
  - apply answers_then; [auto with answers|done].
  - by apply answers_ret.
  - destruct any; apply answers_then; (auto with answers || done).
  - apply offer_offers; [|intros s1; apply sim_hybrid_same].
    unfold sim_any_for_required_colors_available, sim_color_available. destruct any; auto with answers.
  - apply offer_offers; [|intros s1; destruct any; apply answers_then; (auto with answers || done)].
    unfold sim_any_for_required_colors_available, sim_color_available.
    apply always_else; [destruct any|]; auto with answers.
Qed.
Definition life_needed (rs : list PhyrexianShard) : nat := sum_list (only_life <$> rs).
Lemma sim_shards_answers order s :
  (∀ i, i ∈ order → (i < length shards)%nat) →
  answers (sim_shards shards generic spell permission lifes order s : payM Sim) (λ s', ∃ rs,
    results s' = results s ++ rs ∧ ps_shard_index <$> rs = phyrexian_indices shards lifes order ∧
    life_budget s = life_budget s' + N.of_nat (life_needed rs)).
Proof.
  revert s. induction order as [|i order IH]; intros s Hin; cbn [sim_shards].
  { apply answers_ret. exists []. rewrite app_nil_r. split_and!; [done..|]. cbn. lia. }
  destruct (lookup_lt_is_Some_2 shards i) as [sh Hs]; [apply Hin; left|]. rewrite Hs.
  eapply answers_bind; [apply sim_requirement_answers|]. intros s1 H1.
  intros p Hwf. eapply sure_mono; [apply IH; [|done]; intros j Hj; apply Hin; by right|].
  intros s' _ (rs&Hr&Hi&Hb). unfold phyrexian_indices in *. cbn [List.filter].
  unfold phyrexian_at at 1. rewrite Hs.
  destruct (is_phyrexian_requirement (requirement_under lifes sh)) eqn:Hph; rewrite ?Hph in *.
  - destruct H1 as (r&Hr1&Hri&Hb1). exists (r :: rs). rewrite Hr, Hr1, <-app_assoc. cbn. rewrite Hi, Hri.
    split_and!; [done..|]. unfold life_needed in *. cbn. lia.
  - destruct H1 as [Hr1 Hb1]. exists rs. rewrite Hr, Hr1. split_and!; [done..|]. lia.
Qed.
End simulation.

(** C35. The choices put to the player for a cost are one entry for each of its symbols that
    life can pay, whether printed or under a permission, in printed order; the symbols
    only life can pay fit the life payments the player can make.  The simulation never fails. *)
Theorem phyrexian_options_cover p cost spell permissions :
  pool_wf p →
  ∃ rs, compute_phyrexian_shards p cost spell permissions = Ok rs ∧
    ps_shard_index <$> rs = (match cost with
      | ManaCost.Cost shards _ =>
          List.filter (phyrexian_at shards (life_colors permissions)) (seq 0 (length shards))
      | _ => [] end) ∧
    N.of_nat (life_needed rs) <= max_life permissions.
Proof.
  intros Hwf. destruct cost as [|shards generic| | |]; try by (exists []; split_and!; [..|cbn; lia]).
  cbn [compute_phyrexian_shards].
  destruct (sim_shards_answers shards generic spell (mana_spend_permission permissions)
    (life_colors permissions) (phyrexian_deferred_order shards (life_colors permissions))
    {| results := []; sim_preferred := []; life_budget := max_life permissions |}) with (p:=p)
    as (s'&p'&E&_&rs&Hr&Hi&Hb); [|done|].
  - intros i Hi. rewrite deferred_order_perm in Hi. apply elem_of_seq in Hi. lia.
  - exists rs. unfold run. rewrite E. cbn in Hr, Hb |- *. rewrite Hr. split; [done|].
    rewrite Hi, deferred_phyrexian. split; [done|]. lia.
Qed.
End options.

Lemma phyrexian_options_cover_witness :
  let cost := PaymentSample.cost [ManaCostShard.PhyrexianWhite; ManaCostShard.White; ManaCostShard.PhyrexianBlue] 0 in
  let permissions := {| mana_spend_permission := None; max_life := 1; life_colors := LifePaymentColors.EMPTY |} in
  ∃ rs, compute_phyrexian_shards (PaymentSample.pool [PaymentSample.W; PaymentSample.U]) cost None permissions
      = Ok rs ∧
    ps_options <$> rs = [LifeOnly; ManaOnly] ∧ ps_shard_index <$> rs = [0; 2]%nat ∧
    N.of_nat (life_needed rs) <= 1.
Proof.
  intros cost permissions.
  destruct (phyrexian_options_cover (PaymentSample.pool [PaymentSample.W; PaymentSample.U]) cost None permissions
    (proj1 (pool_ok [PaymentSample.W; PaymentSample.U] eq_refl))) as (rs&E&Hi&Hl).
  exists rs. split; [exact E|]. split; [|split; [exact Hi|exact Hl]].
  vm_compute in E. injection E as <-. reflexivity.
Defined.
